(* ===== verification/_CoqProject ===== *)
-Q . S2P
Prelude.v
Wal.v
Table.v
Layer.v
Database.v
Durable.v
Commit.v
Recovery.v
ThingDb.v
Keyspace.v
RamScan.v
Cache.v
Model.v
Objects.v
Queue.v
Events.v
Links.v
Storage.v
RustStd.v
DScan.v
DScanSpec.v
DScanMerge.v
DScanFirst.v
DScanCursor.v
DScanPage.v
DScanGuard.v
DScanTheorems.v
Persistent.v
PSample.v
PStore.v
PQueue.v
PQueueSpec.v
PQueueClaim.v
PQueueOpen.v
PQueueBatch.v
PQueueClaimBatch.v
PQueueClaimMany.v
PQueueRun.v
PQueueTheorems.v
PEvents.v
PEventSpec.v
PEventOps.v
PEventBatch.v
PEventDelete.v
PEventOpen.v
PEventList.v
PEventRun.v
PEventTheorems.v
PLinks.v
PLinkSpec.v
PLinkTheorems.v
PObjects.v
PObjectSpec.v
PObjectCache.v
PObjectPut.v
PObjectWrite.v
PObjectIndex.v
PObjectBatch.v
PObjectTheorems.v
PSchema.v
Replication.v
ReplicaSpec.v
ReplicaRun.v
ReplicaSource.v
ReplicaSync.v
ReplicaSnapshot.v
ReplicaSample.v
ReplicaTheorems.v
BlockCache.v
Server.v
ServerLimit.v
Schema.v
Analytics.v
PAnalytics.v
PRetain.v
Search.v
SearchSpec.v
SearchRebuild.v
SearchRun.v
SearchTheorems.v
