(* ===== verification/Prelude.v ===== *)
(** * thingd: a verification development

    thingd is a memory layer for applications, written in Rust: objects, events, queues and
    links behind one set of storage traits, kept in memory or in ThingDB, an embedded
    ordered key-value store with a write-ahead log.  This library models the core of both
    crates as executable Rocq functions and proves the theorems that make them correct.

    ** The program and how its parts interact

    - [crates/thingdb/src/lib.rs] is the store.  A commit goes through one writer: the
      requests waiting together form a group, each request becomes one frame of the
      write-ahead log, the frames are appended and synced, then applied to the mutable
      state.  When the mutable table or the log is too large it is flushed to an immutable
      sorted table, the manifest is replaced and the log truncated; when there are too many
      tables they are compacted into one.  Opening reads the manifest and the tables and
      replays the log.  Keyspaces are key prefixes over one database; a RAM-only mode keeps
      one ordered map per keyspace instead of the files.
    - [crates/thingdb/src/cache.rs] is a bounded cache with time to live and
      least-recently-used eviction.
    - [crates/thingd/src] holds the data model ([model.rs], [error.rs]), the storage traits
      with their default methods ([store.rs]), the in-memory engine ([in_memory.rs]), which
      is the reference implementation of the traits, and the persistent engine
      ([persistent.rs]).  The persistent engine keeps JSON records and secondary indexes in
      keyspaces of a key-value store ([storage_backend.rs]), encodes keys and values through
      a codec ([encryption.rs]), and caches lease counters and a ready cursor per queue.  Its
      full-text index is derived state: writes report their changes to a bounded queue, a
      worker thread indexes them in batches, and bounded steps rebuild the index while
      writes go on.  [replication.rs] records changes of a source as a feed of events and
      applies them to a replica, over the storage traits.
    - [crates/thingd-schema/src/lib.rs] is the schema language: a parser, validation, and a
      canonical form that is hashed.
    - [crates/thingd-server/src] serves the engines over HTTP; its middleware authenticates a
      request, fixes its tenant and limits its rate ([auth.rs], [rate_limit.rs]).

    ** Which file models what

    - [Prelude]: results, machine integers, slices, the class [OrdKey] of key orders, stable
      sorting, [BTreeMap] iteration over [gmap], decimal and big-endian digits.
    - [Wal]: the byte codec and the log ([encode_frame_into], [replay_wal], [apply_operation]).
    - [Table]: sorted table files, format versions 1 to 3 ([write_table], [read_table_index],
      [validate_table_footer], [read_table_block_records]).
    - [Layer]: an open table and its point lookup ([TableLayer], [candidate_block],
      [candidate_entry_range]).
    - [Database]: the state [Inner], the directory as a map from file names to bytes, a
      state-and-error monad [M] over both, and every operation of the durable mode as a
      function in it: [process_group], [execute_group], [flush_table_locked],
      [compact_tables_locked], [background_flush_pass], [get_durable_value],
      [get_many_durable_values], [materialize_state], [open].  What the file operations of a
      commit return is its argument [CommitIo]: how much of the log was written, and whether
      the sync and the truncation succeeded.  A read takes its layers under the lock and
      reads the files after it ([read_durable_value] of one state and the files of a later
      one).
    - [Durable]: the abstract contents of a database and the invariant [db_inv] of its
      memory, tables and log; reads, flush and compaction against them.
    - [Commit]: commits against them, on success, at each injected fault and at each failure
      of a file operation.
    - [Recovery]: opening and interrupted flushes.
    - [ThingDb]: executions of the database and the theorems about them.
    - [Keyspace]: keyspaces, batches, snapshots and the RAM mode; [RamScan]: its ordered
      scans.
    - [DScan]: the ordered scans and counts of the durable mode: the bounds of a scan, its
      four strategies ([iter_durable_memtable_page], [iter_durable_first],
      [iter_durable_table_page] with its block cursors, and the general merge), and the
      public methods.  [DScanSpec]: what merging sorted sources by priority returns.
      [DScanMerge], [DScanFirst], [DScanCursor], [DScanPage]: each strategy against it.
      [DScanGuard]: the generation counter detects every change other threads make.
      [DScanTheorems]: the theorems.
    - [Cache]: the memory cache.
    - [Model]: records, options and errors of [model.rs] and [error.rs], and the state
      [MemoryEngine].
    - [Objects], [Queue], [Events], [Links]: the storage traits of the in-memory engine, one
      file per trait, with the trait's default methods.
    - [Storage]: what the persistent engine sees of its store, as the class [Kv] with the
      laws [KvLaws]; the RAM database of [Keyspace] is proved to be an instance.  The codec
      trait and the class [Serde] of stored record types.  [PSample]: concrete instances.
    - [Persistent]: the state of the persistent engine, its state-and-error monad [PM], and
      its keys with their order.
    - [PQueue]: every queue operation of the persistent engine.  [PQueueSpec]: the invariant
      [queue_inv], which relates records, ready index, lease index, lease counters and ready
      cursors to a finite map of jobs; pushes, acknowledgements and rejections against it.
      [PQueueClaim]: the loops of a claim.  [PQueueOpen]: the rebuild of the lease index.
      [PQueueBatch]: batch pushes and acknowledgements.  [PQueueClaimBatch] and
      [PQueueClaimMany]: batch claims.  [PQueueRun]: the operations as one step function and
      the specification it refines.  [PQueueTheorems]: the theorems.  [PStore]: lemmas on
      reads and batches that the files on the persistent engine share.
    - [PEvents]: every event operation of the persistent engine, and what opening does to
      streams ([load_event_state]).  [PEventSpec]: the log that a store represents.
      [PEventOps], [PEventBatch], [PEventDelete], [PEventOpen], [PEventList]: appends, batch
      appends, deletions, opening with its migration of old stores, and listing against it.
      [PEventRun]: the operations as one step function.  [PEventTheorems]: the theorems.
    - [PLinks]: every link operation of the persistent engine.  [PLinkSpec]: writes
      and reads against the in-memory engine.  [PLinkTheorems]: the theorems.
    - [PObjects]: the object and index operations of the persistent engine, with its cache of
      unique values.  [PObjectSpec]: the objects a store represents, and reading them.
      [PObjectCache]: the cache holds exactly the values of the objects.  [PObjectPut],
      [PObjectWrite], [PObjectIndex], [PObjectBatch]: puts and the check of unique values,
      the other writes, indexes, and batch puts against the in-memory engine.
      [PObjectTheorems]: the theorems.
    - [PSchema]: schema documents and migrations of the persistent engine, which agree with
      those of the in-memory engine.
    - [BlockCache]: the cache of verified table blocks and the readers that use it.
    - [RustStd]: floating point, UTF-8 text and the parts of the Rust library the following
      files use.  [Analytics] and [PAnalytics]: search without an index, aggregates, time
      series, schema inference and, in memory, vector search of the two engines.  [PRetain]:
      retention of the persistent engine.
    - [Replication]: the feed, pages, snapshots and the application of changes, over a class
      of stores.  [ReplicaSpec]: the laws [ReplicaStore] and the meaning [replay] of a feed.
      [ReplicaRun], [ReplicaSource], [ReplicaSync], [ReplicaSnapshot]: batches, the feed of
      a source, rounds of pulling, snapshots.  [ReplicaSample]: a JSON text format for the
      samples.  [ReplicaTheorems]: the theorems.
    - [Schema]: the schema language.
    - [Server]: authentication, tenants and the database of a request.  [ServerLimit]: the
      rate limiter and the parsing of encryption keys.
    - [Search]: the full-text index of the persistent engine: queue ([enqueue], [take_enter],
      [take_woken], [take_filled] for the parts of [take_batch]), worker ([worker_step]), rebuild
      ([search_rebuild_step]), maintenance, opening ([open_search]) and queries
      ([search_tantivy]).  [SearchSpec]: the documents of an index that agrees with the store,
      and the hits the bounded heap keeps.  [SearchRebuild]: pages and replay.  [SearchRun]:
      store, index and worker as a step relation with its invariant, which every step keeps.
      [SearchTheorems]: the theorems.

    ** What the theorems show

    - The log: replaying the frames that were written gives the operations in order, whatever
      torn tail follows them; a damaged frame is rejected; replay terminates; the capacity
      computed before encoding is exact ([Wal]).
    - Tables: what is written is read back by the index, the metadata and the block readers
      ([Table.table_roundtrip]).
    - The durable database refines a finite map: along every execution of commits, acknowledged
      or refused at any fault, flushes, compactions and background flushes, reads return the
      map's values, and a read that races with them returns the value of its state or an
      error ([ThingDb.durable_refinement]); grouping commits does not change the result; a
      group that fails before its sync leaves no trace, one that fails after it is found
      again by reopening; an interrupted flush loses nothing.  These theorems are about
      databases whose values in memory are all waiting to be flushed ([db_repr]), as they
      are unless a reopen recovered a log.  What reopening does is characterised exactly
      ([ThingDb.reopen_contents_iff]), and so is what the next flush then keeps
      ([ThingDb.persist_contents_iff]): the replayed writes and deletes are not handed to
      it.  Examples show what is lost, and that a write of the log that stops half way leaves
      bytes behind which hide later commits ([ThingDb.torn_append_loses_commits]).
    - Keyspaces refine independent maps in both modes, but for the shared reads, which durable
      databases refuse or answer from the wrong key ([Keyspace.keyspaces_refine]); RAM scans return the requested page;
      the cache keeps its bounds and never serves a stale value.
    - Durable scans: every strategy returns the page the bounds describe, counts are exact,
      and both modes agree ([DScanTheorems]); while other threads commit, flush and compact,
      a page is the page of one state or an error ([DScanTheorems.durable_page_atomic]).
      The exception is a one-entry page, which can mix states, and which panics when its
      cursor lies beyond its prefix.
    - The in-memory engine: versioned and conditional puts, unique indexes as an invariant,
      listing; jobs are never lost, a lease excludes other claims, a claim picks the first
      job by priority, batch operations agree with single ones and are atomic; event
      sequences are never reused, idempotency keys append once, cursors visit every event,
      the audit stream only grows; link ids are unique and an export can be imported again.
    - The persistent queues, over any store that satisfies [KvLaws]: every run of operations
      refines a map of jobs, also when commits are refused; no job is lost and a finished job
      never changes; repeated claims drain a queue; a claim, and a batch claim, hand out the
      first jobs in claim order; opening rebuilds the lease index from the records.  A batch
      claim that takes an expired lease can leave the ready cursor behind a waiting job, which
      single claims then miss ([PQueueTheorems.batch_claim_starves_ready_job]), and a push
      under the id of a stored job replaces it; the refinement excludes both ([op_ok]).
    - The persistent event log, over the same interface: every run of appends, batches,
      deletions and restarts refines a log per stream; a stored event is kept until it is
      deleted; a retried append with the same key stores once; a restart restores sequence
      numbers and keys; listing returns exactly the events asked for; a batch is the sequence
      of its appends; opening migrates a store of the old layout.  If the migration is
      interrupted, later appends overwrite events, and a deleted stream numbers its events
      from the start again.
    - The persistent objects: runs of puts, conditional and replicated puts, deletes, index
      definitions and restarts answer as the specification does on an in-memory engine, and
      reads agree with it; unique indexes hold whichever commits are refused; the cached
      check of unique values gives the verdict of the in-memory engine's scan.  Batch puts
      are the puts in order as long as there is no unique index; with one, a batch that moves
      a value between two objects loses an entry of the cache and the index is broken by
      the next put ([PObjectTheorems.batch_put_breaks_unique]).
    - The persistent links agree with the in-memory ones, and reopening gives out no id in
      use; creating a link is not atomic when the store refuses one of its three writes.
    - Replication: a replica without unique indexes that pulls pages reaches the state of its
      source; a batch that is sent again changes nothing, and one that was interrupted
      between changes is completed; an upsert does not overwrite an object written on the
      replica, a delete removes it; a snapshot bootstraps a replica ([ReplicaTheorems]).  Objects of
      a snapshot then refuse updates, as they have no provenance record
      ([ReplicaTheorems.snapshot_blocks_updates]).
    - The block cache never changes what a read returns ([BlockCache]).
    - The server: a request, of any method but OPTIONS, reaches only the database of the tenant
      whose credential it carries ([Server.tenant_isolation]); a bucket passes exactly its tokens at an instant, and a new
      port is a new bucket ([ServerLimit]).
    - The schema language: a parsed document is valid, and the order in which collections,
      fields, annotations and links are declared does not change the canonical form and its
      hash ([Schema]).
    - Analytics: the two engines aggregate alike where every matching body holds a
      number ([PAnalytics]), inferred fields are exactly those of the sampled bodies, vector search
      returns the nearest ([Analytics]); retention removes exactly what its options
      describe ([PRetain]).
    - The search index: from opening on, through writes, batches that fail, overflow of the
      queue, rebuilds, retries and compaction in any order, whenever queries use the index it
      shows the stored records ([SearchTheorems.search_index_complete]), and a query then
      answers with the best current hits ([SearchTheorems.search_hits_best]).  The samples of
      [SearchTheorems] show the exceptions: an event repeated by a rebuild, a change lost
      at shutdown, an empty index promoted without a writer, keys that collide.

    ** Conventions, parameters and bounds

    - [usize] and [u64] are 64 bits wide and are integers kept in range by the saturating,
      checked or wrapping operation the source uses; a plain [+] wraps around, as in a
      release build.
    - [Result] is [result]; operations that mutate return their result together with the
      state they leave, also on failure.  A panic is [None].
    - Maps are [gmap]s; the iteration order of a [BTreeMap] is the sort by [OrdKey].
    - Code outside the repository is a parameter: the CRC-32 of [crc32fast] (class [Crc32],
      only the range of a checksum is assumed), the JSON of the manifest ([ManifestCodec],
      printing then parsing is the identity), of object bodies ([SerdeJson]) and of stored
      records ([Serde]); the cache of unique values relies on different JSON values being
      written differently ([DisplayInjective]).  JSON values are compared with [=], so the
      model speaks of bodies without the number -0.0, which the source takes for 0.0.  The
      theorems about replication ask that a value within the depth of the parser is read
      back as it was printed if its numbers are ([JsonText]).  Further parameters: the tables of Unicode
      ([UnicodeTables]), dates ([Chrono]), token verification and key fetching
      ([JsonWebTokens]), pest and SHA-256 ([SchemaLibraries]), and Tantivy ([TextIndex]), of which
      [TextIndexLaws] states that documents are added, deleted, committed and made
      visible by a reload, and that a query matches visible documents.  Compaction and
      persistence of a store are the interfaces [KvCompact] and [KvPersist].  Each has a concrete
      instance in the witnesses.
    - Clock readings, and whether a background thread could be started, are arguments.
    - Fuel: [replay_loop] takes the length of the log (each round consumes at least a frame
      header), the cache's eviction loop the size of its index (each round removes
      an entry), the claim loops of the persistent queues the number of entries of the index
      they walk ([scan_fuel]: each round moves past one entry), a durable scan more rounds
      than its sources hold keys ([page_rounds]); all are proved to be enough.
    - A durable scan takes the lock several times: [obs n] is the database at its [n]-th
      acquisition, so that every interleaving with other threads is an argument.
    - The iteration order of a [HashMap] that the source walks is an argument too, and so are
      the outcomes of the file operations around a search index ([IndexIo]).
    - The worker of the search index is cut where it takes or releases a lock; the theorems
      quantify over every interleaving with writes.  The field [si_ignored] records that the
      source dropped an error of the index; the source has no such field.
    - The theorems about the search index are stated for records whose names have document
      keys of their own ([SearchSpec.plain]).
    - The theorems about the persistent engine are stated for the raw codec, and for names
      without the zero byte that separates the parts of its keys, over a store on which a
      commit that fails changes nothing ([KvLaws]).  The RAM store is such a store; on a
      durable database a commit can fail after it was applied.
    - Locks: an operation that holds the commit gate or the database mutex is one step.
      Faults are the source's own injection points and the failures of the file operations of
      a commit; a crash keeps the files written so far.

    ** What is not modelled

    Timing and diagnostics counters, the channel and waiting time of the writer thread (a
    group is an argument), poisoned locks and the benchmark-only RCU mode of ThingDB; of the
    persistent engine the optional vector store, validation of directories, backups,
    re-encryption and repacking, which are file I/O, and the RocksDB backend, a third-party
    store; the encrypting codec, which wraps a cipher crate; connectors to external
    services; the handlers, the engine pool and the configuration loading of the server; and
    the language bindings. *)

From Stdlib Require Export ZArith Lia.
From stdpp Require Export sorting pretty countable strings.
From stdpp Require Export list_basics list_relations list_monad list_misc list gmap.

#[global] Open Scope Z_scope.

Declare Scope thingd_scope.
Delimit Scope thingd_scope with thingd.
#[global] Open Scope thingd_scope.

(** ** Results

    Rust's [Result<A, E>].  Both crates use one error type per crate, so [E] is
    instantiated once per component.  The [?] operator is the monadic bind. *)

Inductive result (E A : Type) : Type :=
| Ok (a : A)
| Err (e : E).
Arguments Ok {E A} a.
Arguments Err {E A} e.

#[export] Instance result_ret E : MRet (result E) := fun A a => Ok a.
#[export] Instance result_bind E : MBind (result E) :=
  fun A B f m => match m with Ok a => f a | Err e => Err e end.
#[export] Instance result_fmap E : FMap (result E) :=
  fun A B f m => match m with Ok a => Ok (f a) | Err e => Err e end.

#[export] Instance result_eq_dec {E A} `{EqDecision E, EqDecision A} : EqDecision (result E A).
Proof. solve_decision. Defined.

(** [ok_or o e] is [Option::ok_or_else]. *)
Definition ok_or {E A} (o : option A) (e : E) : result E A :=
  match o with Some a => Ok a | None => Err e end.

(** A guard: the early [return Err(e)] the sources write when a test fails. *)
Definition ensure {E} (b : bool) (e : E) : result E unit := if b then Ok () else Err e.

Section result.
Context {E A B : Type}.

Lemma bind_Ok (a : A) (f : A -> result E B) : (Ok a ≫= f) = f a.
Proof. reflexivity. Qed.

Lemma bind_Ok_inv (m : result E A) (f : A -> result E B) b :
  (m ≫= f) = Ok b <-> exists a, m = Ok a /\ f a = Ok b.
Proof. destruct m as [a|e]; cbn; naive_solver. Qed.

Lemma bind_Err_inv (m : result E A) (f : A -> result E B) e :
  (m ≫= f) = Err e <-> m = Err e \/ exists a, m = Ok a /\ f a = Err e.
Proof. destruct m as [a|e']; cbn; naive_solver. Qed.

Lemma ok_or_Ok_inv (o : option A) (e : E) a : ok_or o e = Ok a <-> o = Some a.
Proof. destruct o; cbn; naive_solver. Qed.

Lemma ensure_Ok_inv b (e : E) u : ensure b e = Ok u <-> b = true.
Proof. destruct b, u; cbn; naive_solver. Qed.
End result.

(** Run the binds whose computation is known.  The binds are rewritten, not
    reduced: comparing a bind with its reduct by conversion would try to
    evaluate the readers that follow it. *)
Ltac run_simpl := cbn [mret result_ret fmap result_fmap option_fmap option_map ok_or ensure fst snd].
Ltac run := run_simpl; repeat (rewrite bind_Ok; run_simpl).

(** Fold with early exit: [for x in l { ...? }]. *)
Fixpoint fold_res {E A S} (f : S -> A -> result E S) (s : S) (l : list A) : result E S :=
  match l with
  | [] => Ok s
  | x :: l => s' ← f s x; fold_res f s' l
  end.

Lemma fold_res_app {E A S} (f : S -> A -> result E S) s l k : fold_res f s (l ++ k) = (s' ← fold_res f s l; fold_res f s' k).
Proof. revert s. induction l as [|x l IH]; intros s; [done|]. cbn [app fold_res]. destruct (f s x); [by rewrite !bind_Ok, IH|done]. Qed.

Lemma fold_res_unit {E A} (f : A -> result E unit) l u :
  fold_res (fun _ x => f x) () l = Ok u <-> Forall (fun x => f x = Ok ()) l.
Proof.
  destruct u. induction l as [|x l IH]; cbn [fold_res]; [by split|].
  rewrite bind_Ok_inv, Forall_cons, <-IH. split.
  - intros ([]&Hx&Hl). done.
  - intros [Hx Hl]. by exists ().
Qed.

(** ** Machine integers

    Unsigned and signed Rust integers are [Z] values kept in range by the
    operations below; [usize] is 64 bits wide. *)

Definition U8_MAX : Z := 255.
Definition U32_MAX : Z := 4294967295.
Definition U64_MAX : Z := 18446744073709551615.
Definition I64_MAX : Z := 9223372036854775807.
Definition I64_MIN : Z := -9223372036854775808.

(** [+] on unsigned integers in a release build wraps around. *)
Definition u64_wrapping_add (a b : Z) : Z := (a + b) mod (U64_MAX + 1).
Definition u32_wrapping_add (a b : Z) : Z := (a + b) mod (U32_MAX + 1).
Definition u64_saturating_add (a b : Z) : Z := Z.min (a + b) U64_MAX.
Definition u64_saturating_sub (a b : Z) : Z := Z.max (a - b) 0.
Definition u64_saturating_mul (a b : Z) : Z := Z.min (a * b) U64_MAX.
Definition u32_saturating_add (a b : Z) : Z := Z.min (a + b) U32_MAX.
Definition i64_saturating_add (a b : Z) : Z := Z.max I64_MIN (Z.min (a + b) I64_MAX).
(** [u64::checked_add]. *)
Definition u64_checked_add (a b : Z) : option Z :=
  if a + b <=? U64_MAX then Some (a + b) else None.

Ltac unfold_ints :=
  unfold u64_saturating_add, u64_saturating_sub, u64_saturating_mul, u32_saturating_add,
    i64_saturating_add, u64_checked_add, U8_MAX, U32_MAX, U64_MAX, I64_MAX, I64_MIN in *.

(** ** Lists *)

Abbreviation zlen l := (Z.of_nat (length l)).

(** [bytes.get(lo..hi)]. *)
Definition slice {A} (l : list A) (lo hi : Z) : option (list A) :=
  if (0 <=? lo) && (lo <=? hi) && (hi <=? zlen l)
  then Some (take (Z.to_nat (hi - lo)) (drop (Z.to_nat lo) l))
  else None.

(** [l.windows(2).any(|w| f(w[0], w[1]))]. *)
Fixpoint windows2_any {A} (f : A -> A -> bool) (l : list A) : bool :=
  match l with
  | x :: (y :: _) as l' => f x y || windows2_any f l'
  | _ => false
  end.

Section lists.
Context {A : Type}.
Implicit Types l a b c : list A.

Lemma slice_Some l lo hi s :
  slice l lo hi = Some s <->
    0 <= lo <= hi /\ hi <= zlen l /\ s = take (Z.to_nat (hi - lo)) (drop (Z.to_nat lo) l).
Proof.
  unfold slice.
  destruct (Z.leb_spec 0 lo), (Z.leb_spec lo hi), (Z.leb_spec hi (zlen l)); cbn;
    naive_solver lia.
Qed.

Lemma slice_None l lo hi : slice l lo hi = None <-> ~ (0 <= lo <= hi /\ hi <= zlen l).
Proof.
  unfold slice.
  destruct (Z.leb_spec 0 lo), (Z.leb_spec lo hi), (Z.leb_spec hi (zlen l)); cbn;
    naive_solver lia.
Qed.

Lemma slice_app_mid a b c :
  slice (a ++ b ++ c) (zlen a) (zlen a + zlen b) = Some b.
Proof.
  apply slice_Some. rewrite !length_app. split_and!; [lia..|].
  replace (zlen a + zlen b - zlen a) with (zlen b) by lia.
  rewrite !Nat2Z.id, drop_app_length, take_app_length. done.
Qed.

Lemma slice_app_l l c lo hi s : slice l lo hi = Some s -> slice (l ++ c) lo hi = Some s.
Proof.
  rewrite !slice_Some, length_app. intros (?&?&->). split_and!; [lia..|].
  rewrite drop_app_le by lia. rewrite take_app_le; [done|rewrite length_drop; lia].
Qed.

Lemma slice_app_r a l lo hi : 0 <= lo ->
  slice (a ++ l) (zlen a + lo) (zlen a + hi) = slice l lo hi.
Proof.
  intros. apply option_eq; intros s. rewrite !slice_Some, length_app.
  rewrite drop_app_ge by lia.
  replace (Z.to_nat (zlen a + lo) - length a)%nat with (Z.to_nat lo) by lia.
  replace (zlen a + hi - (zlen a + lo)) with (hi - lo) by lia.
  naive_solver lia.
Qed.

Lemma slice_length l lo hi s : slice l lo hi = Some s -> zlen s = hi - lo.
Proof. rewrite slice_Some. intros (?&?&->). rewrite length_take, length_drop. lia. Qed.

Lemma slice_all l : slice l 0 (zlen l) = Some l.
Proof.
  apply slice_Some. split_and!; [lia..|].
  rewrite Z.sub_0_r, Nat2Z.id, drop_0, take_ge by lia. done.
Qed.
End lists.

(** ** Orders

    The sources order byte strings, strings and tuples with [Ord::cmp]; every
    such order is an instance of [OrdKey]. *)

Class OrdKey (K : Type) := {
  key_cmp : K -> K -> comparison;
  key_cmp_eq x y : key_cmp x y = Eq <-> x = y;
  key_cmp_antisym x y : key_cmp y x = CompOpp (key_cmp x y);
  key_cmp_trans x y z : key_cmp x y = Lt -> key_cmp y z = Lt -> key_cmp x z = Lt;
}.

Definition key_lt `{OrdKey K} (x y : K) : Prop := key_cmp x y = Lt.
Notation "x ≺ y" := (key_lt x y) (at level 70) : thingd_scope.
Definition key_ltb `{OrdKey K} (x y : K) : bool := bool_decide (key_cmp x y = Lt).
Definition key_leb `{OrdKey K} (x y : K) : bool := negb (key_ltb y x).

Section ord.
Context `{OrdKey K}.
Implicit Types x y z : K.

Lemma key_cmp_refl x : key_cmp x x = Eq.
Proof. by apply key_cmp_eq. Qed.

Lemma key_ltb_lt x y : key_ltb x y = true <-> x ≺ y.
Proof. unfold key_ltb, key_lt. by rewrite bool_decide_eq_true. Qed.

Lemma key_lt_irrefl x : ~ x ≺ x.
Proof. unfold key_lt. by rewrite key_cmp_refl. Qed.

Lemma key_lt_trans x y z : x ≺ y -> y ≺ z -> x ≺ z.
Proof. apply key_cmp_trans. Qed.

Lemma key_lt_total x y : x ≺ y \/ x = y \/ y ≺ x.
Proof.
  unfold key_lt. rewrite (key_cmp_antisym x y).
  destruct (key_cmp x y) eqn:Hc; cbn; auto. right; left. by apply key_cmp_eq.
Qed.

Lemma key_lt_asym x y : x ≺ y -> ~ y ≺ x.
Proof. intros ??. eapply key_lt_irrefl, key_lt_trans; eauto. Qed.

Lemma key_ltb_false x y : key_ltb x y = false <-> y ≺ x \/ x = y.
Proof.
  rewrite <-not_true_iff_false, key_ltb_lt. split.
  - destruct (key_lt_total x y) as [?|[->|?]]; tauto.
  - intros [?| ->]; [by apply key_lt_asym|apply key_lt_irrefl].
Qed.

Lemma key_leb_spec x y : key_leb x y = true <-> x ≺ y \/ x = y.
Proof. unfold key_leb. rewrite negb_true_iff, key_ltb_false. naive_solver. Qed.
End ord.

#[export, refine] Instance Z_ord : OrdKey Z := {| key_cmp := Z.compare |}.
Proof.
  - apply Z.compare_eq_iff.
  - intros. apply Z.compare_antisym.
  - intros ???. rewrite !Z.compare_lt_iff. lia.
Defined.

(** Lexicographic order of sequences: [Ord for Vec<u8>] and [Ord for str]. *)
Fixpoint list_cmp {A} (cmp : A -> A -> comparison) (l k : list A) : comparison :=
  match l, k with
  | [], [] => Eq
  | [], _ :: _ => Lt
  | _ :: _, [] => Gt
  | x :: l, y :: k => match cmp x y with Eq => list_cmp cmp l k | c => c end
  end.

#[export, refine] Instance list_ord `{OrdKey A} : OrdKey (list A) := {| key_cmp := list_cmp key_cmp |}.
Proof.
  - intros l; induction l as [|x l IH]; intros [|y k]; cbn; try naive_solver.
    destruct (key_cmp x y) eqn:Hc.
    + rewrite IH. apply key_cmp_eq in Hc as ->. naive_solver.
    + split; [done|]. intros [= -> ->]. by rewrite key_cmp_refl in Hc.
    + split; [done|]. intros [= -> ->]. by rewrite key_cmp_refl in Hc.
  - intros l; induction l as [|x l IH]; intros [|y k]; cbn; try done.
    rewrite (key_cmp_antisym x y). destruct (key_cmp x y); cbn; auto.
  - intros l; induction l as [|x l IH]; intros [|y k] [|z m]; cbn; try done.
    destruct (key_cmp x y) eqn:Hxy, (key_cmp y z) eqn:Hyz; try done; intros ??.
    + apply key_cmp_eq in Hxy as ->. rewrite Hyz. eauto.
    + apply key_cmp_eq in Hxy as ->. by rewrite Hyz.
    + apply key_cmp_eq in Hyz as <-. by rewrite Hxy.
    + by rewrite (key_cmp_trans x y z).
Defined.

#[export, refine] Instance prod_ord `{OrdKey A, OrdKey B} : OrdKey (A * B) :=
  {| key_cmp p q := match key_cmp p.1 q.1 with Eq => key_cmp p.2 q.2 | c => c end |}.
Proof.
  - intros [a b] [c d]; cbn. destruct (key_cmp a c) eqn:Hc.
    + apply key_cmp_eq in Hc as ->. rewrite key_cmp_eq. naive_solver.
    + split; [done|]. intros [= -> ->]. by rewrite key_cmp_refl in Hc.
    + split; [done|]. intros [= -> ->]. by rewrite key_cmp_refl in Hc.
  - intros [a b] [c d]; cbn. rewrite (key_cmp_antisym a c).
    destruct (key_cmp a c); cbn; auto using key_cmp_antisym.
  - intros [a b] [c d] [e f]; cbn.
    destruct (key_cmp a c) eqn:H1, (key_cmp c e) eqn:H2; try done; intros.
    + apply key_cmp_eq in H1 as ->. rewrite H2. eauto using key_cmp_trans.
    + apply key_cmp_eq in H1 as ->. by rewrite H2.
    + apply key_cmp_eq in H2 as <-. by rewrite H1.
    + by rewrite (key_cmp_trans a c e).
Defined.

Lemma windows2_any_sorted `{OrdKey K} {A} (f : A -> K) (l : list A) :
  windows2_any (fun x y => key_leb (f y) (f x)) l = false <-> Sorted key_lt (f <$> l).
Proof.
  induction l as [|x l IH]; [by split; constructor|].
  destruct l as [|y l]; [by split; repeat constructor|].
  cbn [windows2_any]. rewrite orb_false_iff, IH. rewrite !fmap_cons.
  unfold key_leb. rewrite negb_false_iff, key_ltb_lt. split.
  - intros [??]. constructor; [done|]. by constructor.
  - intros [? Hx]%Sorted_inv. split; [|done]. by inversion Hx.
Qed.

(** Strings are UTF-8 byte sequences, compared bytewise. *)
Abbreviation bytes := (list Z).

Fixpoint str_bytes (s : string) : bytes :=
  match s with
  | EmptyString => []
  | String c s => Z.of_N (Ascii.N_of_ascii c) :: str_bytes s
  end.

Lemma str_bytes_inj s t : str_bytes s = str_bytes t -> s = t.
Proof.
  revert t; induction s as [|c s IH]; intros [|d t]; cbn; try done.
  intros [= Hc Hs]. f_equal; [|eauto].
  apply N2Z.inj, (f_equal Ascii.ascii_of_N) in Hc. by rewrite !Ascii.ascii_N_embedding in Hc.
Qed.

Lemma str_bytes_app s t : str_bytes (s +:+ t) = str_bytes s ++ str_bytes t.
Proof. induction s as [|c s IH]; [done|].
  change (String c s +:+ t) with (String c (s +:+ t)). cbn. by rewrite IH.
Qed.

#[export, refine] Instance string_ord : OrdKey string :=
  {| key_cmp s t := key_cmp (str_bytes s) (str_bytes t) |}.
Proof.
  - intros s t. rewrite key_cmp_eq. split; [apply str_bytes_inj|congruence].
  - intros s t. apply key_cmp_antisym.
  - intros s t u. apply key_cmp_trans.
Defined.

(** ** Stable sorting

    [slice::sort_by] is a stable sort; insertion sort is its reference. *)

Fixpoint insert_by {A} (cmp : A -> A -> comparison) (x : A) (l : list A) : list A :=
  match l with
  | [] => [x]
  | y :: l' => match cmp x y with Gt => y :: insert_by cmp x l' | _ => x :: l end
  end.

Definition sort_by {A} (cmp : A -> A -> comparison) (l : list A) : list A :=
  fold_right (insert_by cmp) [] l.

(** The comparators handed to [sort_by] are total preorders. *)
Class CmpPreorder {A} (cmp : A -> A -> comparison) : Prop := {
  cmp_antisym x y : cmp y x = CompOpp (cmp x y);
  cmp_le_trans x y z : cmp x y <> Gt -> cmp y z <> Gt -> cmp x z <> Gt;
}.

Lemma ord_le_trans `{OrdKey K} (x y z : K) :
  key_cmp x y <> Gt -> key_cmp y z <> Gt -> key_cmp x z <> Gt.
Proof.
  intros H1 H2 H3.
  assert (Hxy : x ≺ y \/ x = y).
  { destruct (key_lt_total x y) as [?|[?|Hyx]]; auto.
    unfold key_lt in Hyx. by rewrite key_cmp_antisym, Hyx in H1. }
  assert (Hyz : y ≺ z \/ y = z).
  { destruct (key_lt_total y z) as [?|[?|Hzy]]; auto.
    unfold key_lt in Hzy. by rewrite key_cmp_antisym, Hzy in H2. }
  assert (Hzx : key_lt z x) by (unfold key_lt; by rewrite key_cmp_antisym, H3).
  apply (key_lt_irrefl x).
  destruct Hxy as [?| ->], Hyz as [?| ->]; eauto using key_lt_trans.
Qed.

(** Sorting by an [Ord] key is a preorder; so is the reversed comparison. *)
#[export] Instance cmp_on_preorder {A} `{OrdKey K} (f : A -> K) :
  CmpPreorder (fun x y => key_cmp (f x) (f y)).
Proof. split; eauto using key_cmp_antisym, ord_le_trans. Qed.

#[export] Instance cmp_rev_preorder {A} (cmp : A -> A -> comparison) `{!CmpPreorder cmp} :
  CmpPreorder (fun x y => cmp y x).
Proof. split; [eauto using cmp_antisym|]. intros x y z ??. by apply (cmp_le_trans z y x). Qed.

Section sort.
Context {A : Type} (cmp : A -> A -> comparison).
Implicit Types l : list A.
Abbreviation le x y := (cmp x y <> Gt).

Lemma insert_by_perm x l : insert_by cmp x l ≡ₚ x :: l.
Proof.
  induction l as [|y l IH]; cbn; [done|]. destruct (cmp x y); try done.
  rewrite IH. apply Permutation_swap.
Qed.

Lemma sort_by_perm l : sort_by cmp l ≡ₚ l.
Proof. induction l as [|x l IH]; cbn; [done|]. by rewrite insert_by_perm, IH. Qed.

Lemma elem_of_sort_by x l : x ∈ sort_by cmp l <-> x ∈ l.
Proof. by rewrite (sort_by_perm l). Qed.

Lemma length_sort_by l : length (sort_by cmp l) = length l.
Proof. by rewrite (sort_by_perm l). Qed.

Lemma sort_by_id l : StronglySorted (fun x y => le x y) l -> sort_by cmp l = l.
Proof.
  induction 1 as [|x l _ IH Hall]; [done|]. change (insert_by cmp x (sort_by cmp l) = x :: l).
  rewrite IH. destruct l as [|y l]; [done|]. apply Forall_cons in Hall as [Hxy _]. cbn. by destruct (cmp x y).
Qed.

Context `{!CmpPreorder cmp}.

Lemma insert_by_sorted x l :
  StronglySorted (fun x y => le x y) l -> StronglySorted (fun x y => le x y) (insert_by cmp x l).
Proof.
  induction 1 as [|y l Hs IH Hall]; cbn; [by repeat constructor|].
  assert (Hle : le x y -> StronglySorted (fun x y => le x y) (x :: y :: l)).
  { intros Hxy. constructor; [by constructor|]. constructor; [done|].
    eapply Forall_impl; [exact Hall|]. intros z Hyz. by apply (cmp_le_trans x y z). }
  destruct (cmp x y) eqn:Hc; [apply Hle; congruence..|].
  constructor; [done|]. rewrite insert_by_perm. constructor; [|done].
  by rewrite cmp_antisym, Hc.
Qed.

Lemma sort_by_sorted l : StronglySorted (fun x y => le x y) (sort_by cmp l).
Proof. induction l; cbn; [constructor|]. by apply insert_by_sorted. Qed.

(** Stability: elements that compare equal keep their relative order. *)
Lemma sort_by_stable (P : A -> bool) l :
  (forall x y, P x = true -> P y = true -> cmp x y = Eq) ->
  List.filter P (sort_by cmp l) = List.filter P l.
Proof.
  intros HP. induction l as [|x l IH]; [done|].
  change (sort_by cmp (x :: l)) with (insert_by cmp x (sort_by cmp l)).
  cbn [List.filter]. rewrite <-IH. clear IH.
  generalize (sort_by cmp l) as k. intros k. induction k as [|y k IHk]; cbn; [done|].
  destruct (cmp x y) eqn:Hc; [done..|]. cbn.
  rewrite IHk. destruct (P x) eqn:Hx, (P y) eqn:Hy; try done.
  by rewrite (HP x y) in Hc.
Qed.
End sort.

(** ** Ordered maps

    [BTreeMap<K, V>] is a [gmap] together with its ordered iteration: the
    bindings in strictly increasing key order.  [HashMap] is a bare [gmap]. *)

Definition btree_iter {V} `{OrdKey K, Countable K} (m : gmap K V) : list (K * V) :=
  sort_by (fun p q => key_cmp p.1 q.1) (map_to_list m).
Definition btree_keys {V} `{OrdKey K, Countable K} (m : gmap K V) : list K := (btree_iter m).*1.
Definition btree_values {V} `{OrdKey K, Countable K} (m : gmap K V) : list V := (btree_iter m).*2.

Section btree.
Context {K V : Type} `{!OrdKey K} `{Countable K}.
Implicit Types m : gmap K V.

Lemma elem_of_btree_iter m k v : (k, v) ∈ btree_iter m <-> m !! k = Some v.
Proof. unfold btree_iter. by rewrite elem_of_sort_by, elem_of_map_to_list. Qed.

Lemma btree_iter_perm m : btree_iter m ≡ₚ map_to_list m.
Proof. apply sort_by_perm. Qed.

Lemma btree_keys_NoDup m : NoDup (btree_keys m).
Proof. unfold btree_keys. rewrite btree_iter_perm. apply NoDup_fst_map_to_list. Qed.

Lemma elem_of_btree_keys m k : k ∈ btree_keys m <-> is_Some (m !! k).
Proof.
  unfold btree_keys. rewrite list_elem_of_fmap. split.
  - intros ([k' v]&->&Hin). apply elem_of_btree_iter in Hin. eauto.
  - intros [v Hv]. exists (k, v). by rewrite elem_of_btree_iter.
Qed.

Lemma elem_of_btree_values m v : v ∈ btree_values m <-> exists k, m !! k = Some v.
Proof.
  unfold btree_values. rewrite list_elem_of_fmap. split.
  - intros ([k v']&->&Hin). apply elem_of_btree_iter in Hin. eauto.
  - intros [k Hv]. exists (k, v). by rewrite elem_of_btree_iter.
Qed.

Lemma btree_keys_sorted m : StronglySorted key_lt (btree_keys m).
Proof.
  pose proof (btree_keys_NoDup m) as Hnd. revert Hnd. unfold btree_keys.
  pose proof (sort_by_sorted (fun p q : K * V => key_cmp p.1 q.1) (map_to_list m)) as Hs.
  fold (btree_iter m) in Hs. induction Hs as [|[k v] l Hs IH Hall]; cbn; [constructor|].
  intros Hnd. apply NoDup_cons in Hnd as [Hk Hnd]. constructor; [auto|].
  apply Forall_fmap. rewrite Forall_forall in Hall |- *. intros [k' v'] Hin.
  specialize (Hall _ Hin). cbn in *.
  destruct (key_lt_total k k') as [?|[->|Hlt]]; [done| |].
  - destruct Hk. apply list_elem_of_fmap. by exists (k', v').
  - unfold key_lt in Hlt. by rewrite key_cmp_antisym, Hlt in Hall.
Qed.

Lemma length_btree_iter m : length (btree_iter m) = size m.
Proof. by rewrite (btree_iter_perm m), length_map_to_list. Qed.

Lemma list_to_map_btree_iter m : list_to_map (btree_iter m) = m.
Proof.
  rewrite (list_to_map_proper (btree_iter m) (map_to_list m)).
  - apply list_to_map_to_list.
  - apply btree_keys_NoDup.
  - apply btree_iter_perm.
Qed.

Lemma btree_iter_empty : btree_iter (∅ : gmap K V) = [].
Proof. unfold btree_iter. by rewrite map_to_list_empty. Qed.

(** Strictly sorted lists with the same elements are equal, so the iteration
    order is determined by the bindings. *)
Lemma strictly_sorted_NoDup (l : list K) : StronglySorted key_lt l -> NoDup l.
Proof.
  induction 1 as [|x l Hs IH Hall]; constructor; [|done].
  rewrite Forall_forall in Hall. intros Hin. by apply (key_lt_irrefl x), Hall.
Qed.

Lemma btree_iter_list_to_map (l : list (K * V)) :
  StronglySorted key_lt l.*1 -> btree_iter (list_to_map l : gmap K V) = l.
Proof.
  intros Hs. pose proof (strictly_sorted_NoDup _ Hs) as Hnd.
  set (R := fun p q : K * V => p.1 ≺ q.1).
  assert (Hpair : forall k : list (K * V), StronglySorted key_lt k.*1 -> StronglySorted R k).
  { intros k. remember k.*1 as ks eqn:Hk. intros Hsk. revert k Hk.
    induction Hsk as [|x ks Hsk IH Hall]; intros [|[a b] k] Hk; try done; [constructor|].
    cbn in Hk. injection Hk as -> ->. constructor; [auto|].
    rewrite Forall_forall in Hall. apply Forall_forall. intros [a' b'] Hin.
    apply Hall. apply list_elem_of_fmap. by exists (a', b'). }
  apply (StronglySorted_unique_strong R).
  - intros [k1 v1] [k2 v2] _ _ H1 H2. destruct (key_lt_asym _ _ H1 H2).
  - apply Hpair, btree_keys_sorted.
  - by apply Hpair.
  - rewrite btree_iter_perm. by apply map_to_list_to_map.
Qed.
End btree.

(** ** Positional notation

    [digits b n z] are the [n] base-[b] digits of [z], most significant first:
    [to_be_bytes] for base 256, zero-padded decimal printing for base 10. *)

Fixpoint digits (base : Z) (n : nat) (z : Z) : list Z :=
  match n with
  | O => []
  | S n' => (z / base ^ Z.of_nat n') mod base :: digits base n' z
  end.

Definition of_digits (base : Z) (l : list Z) : Z := fold_left (fun acc d => acc * base + d) l 0.

Section digits.
Context (base : Z) (Hbase : 1 < base).

Lemma length_digits n z : length (digits base n z) = n.
Proof. induction n; cbn; congruence. Qed.

Lemma digits_split n z :
  z mod base ^ Z.of_nat (S n) =
    z mod base ^ Z.of_nat n + base ^ Z.of_nat n * ((z / base ^ Z.of_nat n) mod base).
Proof.
  rewrite Nat2Z.inj_succ, Z.pow_succ_r by lia. rewrite (Z.mul_comm base).
  apply Z.rem_mul_r; [apply Z.pow_nonzero|]; lia.
Qed.

Lemma of_digits_acc n z acc :
  fold_left (fun acc d => acc * base + d) (digits base n z) acc =
    acc * base ^ Z.of_nat n + z mod base ^ Z.of_nat n.
Proof.
  revert acc; induction n as [|n IH]; intros acc; cbn [digits fold_left].
  - rewrite Z.pow_0_r, Z.mod_1_r. lia.
  - rewrite IH, digits_split, Nat2Z.inj_succ, Z.pow_succ_r by lia. ring.
Qed.

Lemma of_digits_digits n z : 0 <= z < base ^ Z.of_nat n -> of_digits base (digits base n z) = z.
Proof. intros. unfold of_digits. rewrite of_digits_acc, Z.mod_small; lia. Qed.

Lemma of_digits_digits_mod n z : of_digits base (digits base n z) = z mod base ^ Z.of_nat n.
Proof. unfold of_digits. rewrite of_digits_acc. lia. Qed.

(** Fixed-width digits order like the numbers they denote, whatever follows. *)
Lemma digits_lt n z1 z2 r1 r2 :
  z1 mod base ^ Z.of_nat n < z2 mod base ^ Z.of_nat n ->
  (digits base n z1 ++ r1) ≺ (digits base n z2 ++ r2).
Proof.
  unfold key_lt. cbn [key_cmp list_ord Z_ord].
  induction n as [|n IH]; intros Hlt.
  { rewrite Z.pow_0_r, !Z.mod_1_r in Hlt. lia. }
  rewrite !digits_split in Hlt. cbn [digits app list_cmp].
  pose proof (Z.pow_pos_nonneg base (Z.of_nat n)) as HB.
  pose proof (Z.mod_pos_bound z1 (base ^ Z.of_nat n)).
  pose proof (Z.mod_pos_bound z2 (base ^ Z.of_nat n)).
  destruct (Z.compare_spec ((z1 / base ^ Z.of_nat n) mod base)
                           ((z2 / base ^ Z.of_nat n) mod base)) as [He|?|?]; [|done|nia].
  apply IH. rewrite He in Hlt. lia.
Qed.
End digits.

(** [format!("{z:0width$}")] for a non-negative [z]. *)
Definition digit_char (d : Z) : Ascii.ascii := Ascii.ascii_of_N (48 + Z.to_N d).

Fixpoint string_of_digits (l : list Z) : string :=
  match l with [] => EmptyString | d :: l => String (digit_char d) (string_of_digits l) end.

(** The number of decimal digits of [z]; a division by ten lowers the binary
    logarithm, which bounds the iterations. *)
Fixpoint decimal_length (fuel : nat) (z : Z) : nat :=
  match fuel with
  | O => 1
  | S fuel => if z <? 10 then 1 else S (decimal_length fuel (z / 10))
  end.

Definition format_pad (width : nat) (z : Z) : string :=
  if z <? 10 ^ Z.of_nat width then string_of_digits (digits 10 width z)
  else string_of_digits (digits 10 (decimal_length (Z.to_nat (Z.log2 z)) z) z).

Lemma str_bytes_of_digits l :
  Forall (fun d => 0 <= d < 10) l -> str_bytes (string_of_digits l) = Z.add 48 <$> l.
Proof.
  induction 1 as [|d l Hd Hl IH]; cbn; [done|]. f_equal; [|done].
  unfold digit_char. rewrite Ascii.N_ascii_embedding by lia. lia.
Qed.

Lemma digits_range base n z : 1 < base -> Forall (fun d => 0 <= d < base) (digits base n z).
Proof. intros. induction n; cbn; constructor; [apply Z.mod_pos_bound; lia|done]. Qed.

Lemma key_lt_app_l (p a b : bytes) : (p ++ a) ≺ (p ++ b) <-> a ≺ b.
Proof.
  unfold key_lt. cbn [key_cmp list_ord Z_ord].
  induction p as [|x p IH]; cbn; [done|]. by rewrite Z.compare_refl.
Qed.

Lemma key_lt_add48 (a b ra rb : bytes) :
  length a = length b -> a ≺ b -> key_lt ((Z.add 48 <$> a) ++ ra) ((Z.add 48 <$> b) ++ rb).
Proof.
  unfold key_lt. cbn [key_cmp list_ord Z_ord]. revert b.
  induction a as [|x a IH]; intros [|y b]; cbn; try done. intros [= Hlen].
  change (Z.pos 48 + x) with (48 + x); change (Z.pos 48 + y) with (48 + y).
  rewrite Z.add_compare_mono_l. destruct (x ?= y); eauto.
Qed.

(** Zero-padded decimals order like the numbers they print. *)
Lemma format_pad_lt width z1 z2 (pre r1 r2 : string) :
  0 <= z1 < z2 -> z2 < 10 ^ Z.of_nat width ->
  (pre +:+ format_pad width z1 +:+ r1) ≺ (pre +:+ format_pad width z2 +:+ r2).
Proof.
  intros Hz1 Hz2. unfold format_pad.
  destruct (Z.ltb_spec z1 (10 ^ Z.of_nat width)); [|lia].
  destruct (Z.ltb_spec z2 (10 ^ Z.of_nat width)); [|lia].
  unfold key_lt; cbn [key_cmp string_ord].
  rewrite !str_bytes_app. change (key_lt (str_bytes pre ++ str_bytes (string_of_digits (digits 10 width z1)) ++ str_bytes r1)
    (str_bytes pre ++ str_bytes (string_of_digits (digits 10 width z2)) ++ str_bytes r2)).
  rewrite key_lt_app_l, !str_bytes_of_digits by (apply digits_range; lia).
  apply key_lt_add48; [by rewrite !length_digits|].
  pose proof (digits_lt 10 ltac:(lia) width z1 z2 [] []) as Hd.
  rewrite !app_nil_r in Hd. apply Hd. rewrite !Z.mod_small by lia. lia.
Qed.

(** ** Sub-sequences at an offset

    [occurs l i s]: the elements [s] stand in [l] from position [i] on.  Byte
    readers are specified against it. *)

Definition occurs {A} (l : list A) (i : Z) (s : list A) : Prop := slice l i (i + zlen s) = Some s.

Section occurs.
Context {A : Type}.
Implicit Types l s t : list A.

Lemma occurs_iff l i s :
  occurs l i s <-> exists p q, l = p ++ s ++ q /\ i = zlen p.
Proof.
  unfold occurs. split.
  - rewrite slice_Some. intros (Hi&Hlen&Hs).
    exists (take (Z.to_nat i) l), (drop (Z.to_nat (i + zlen s)) l).
    rewrite length_take. split; [|lia].
    rewrite Hs at 1. replace (i + zlen s - i) with (zlen s) by lia. rewrite Nat2Z.id.
    replace (Z.to_nat (i + zlen s)) with (Z.to_nat i + length s)%nat by lia.
    rewrite <-drop_drop, take_drop, take_drop. done.
  - intros (p&q&->&->). apply slice_app_mid.
Qed.

Lemma occurs_app l i s t : occurs l i (s ++ t) <-> occurs l i s /\ occurs l (i + zlen s) t.
Proof.
  rewrite !occurs_iff. split.
  - intros (p&q&->&->). split.
    + exists p, (t ++ q). by rewrite <-!app_assoc.
    + exists (p ++ s), q. rewrite length_app, <-!app_assoc. split; [done|lia].
  - intros [(p&q&->&->) (p'&q'&Heq&Hlen)].
    exists p, q'. split; [|done].
    assert (Hp : p' = p ++ s).
    { apply (f_equal (take (length p'))) in Heq. rewrite take_app_length in Heq.
      rewrite <-Heq. replace (length p') with (length (p ++ s)) by (rewrite length_app; lia).
      by rewrite app_assoc, take_app_length. }
    subst p'. rewrite <-!app_assoc in *. done.
Qed.

Lemma occurs_bounds l i s : occurs l i s -> 0 <= i /\ i + zlen s <= zlen l.
Proof. rewrite occurs_iff. intros (p&q&->&->). rewrite !length_app. lia. Qed.

Lemma occurs_here p s q : occurs (p ++ s ++ q) (zlen p) s.
Proof. apply slice_app_mid. Qed.

Lemma occurs_end p s : occurs (p ++ s) (zlen p) s.
Proof. rewrite <-(app_nil_r s) at 1. apply occurs_here. Qed.

Lemma occurs_slice l i s j : occurs l i s -> j = i + zlen s -> slice l i j = Some s.
Proof. intros ? ->. done. Qed.

Lemma occurs_slice_at l i s i' j :
  occurs l i s -> i' = i -> j = i + zlen s -> slice l i' j = Some s.
Proof. intros ? -> ->. done. Qed.

Lemma occurs_cons l i x s : occurs l i (x :: s) <-> occurs l i [x] /\ occurs l (i + 1) s.
Proof. apply (occurs_app l i [x] s). Qed.

Lemma occurs_lookup l i x : occurs l i [x] -> l !! Z.to_nat i = Some x.
Proof.
  rewrite occurs_iff. intros (p&q&->&->). rewrite Nat2Z.id.
  by rewrite lookup_app_r, Nat.sub_diag by lia.
Qed.

Lemma occurs_unique l i s t : occurs l i s -> occurs l i t -> length s = length t -> s = t.
Proof. unfold occurs. intros Hs Ht Hlen. rewrite <-Hlen, Hs in Ht. by injection Ht. Qed.
End occurs.

(** ** Early exits, filters and sublists *)

Lemma fold_res_unit_Err {E A} (f : A -> result E unit) l err :
  fold_res (fun _ x => f x) () l = Err err -> exists x, x ∈ l /\ f x = Err err.
Proof.
  induction l as [|x l IH]; cbn [fold_res]; [done|]. rewrite bind_Err_inv.
  intros [Hx|([]&_&Hl)]; [exists x; split; [set_solver|done]|].
  destruct (IH Hl) as (y&Hy&Hf). exists y. split; [set_solver|done].
Qed.

Lemma elem_of_filter_bool {A} (f : A -> bool) l x : x ∈ List.filter f l <-> x ∈ l /\ f x = true.
Proof. rewrite !list_elem_of_In. apply filter_In. Qed.

Lemma Forall2_impl_elem {A B} (Q R : A -> B -> Prop) l k :
  Forall2 Q l k -> (forall x y, x ∈ l -> Q x y -> R x y) -> Forall2 R l k.
Proof.
  induction 1 as [|x y l k HQ _ IH]; intros HR; constructor.
  - apply HR; [left|done].
  - apply IH. intros x' y' Hin. apply HR. by right.
Qed.

Lemma find_filter {A} (p : A -> bool) l : List.find p l = head (List.filter p l).
Proof. induction l as [|x l IH]; cbn; [done|]. by destruct (p x). Qed.

Lemma filter_andb {A} (p q : A -> bool) l :
  List.filter (fun x => p x && q x) l = List.filter p (List.filter q l).
Proof.
  induction l as [|x l IH]; cbn; [done|]. rewrite IH. destruct (q x) eqn:Hq; cbn; [|by rewrite andb_false_r].
  by rewrite andb_true_r.
Qed.

Lemma filter_none {A} (p : A -> bool) l : (forall x, x ∈ l -> p x = false) -> List.filter p l = [].
Proof.
  induction l as [|x l IH]; intros Hp; cbn; [done|]. rewrite (Hp x) by left. apply IH. intros y Hy. apply Hp. by right.
Qed.

Lemma filter_ext_in {A} (p q : A -> bool) l :
  (forall x, x ∈ l -> p x = q x) -> List.filter p l = List.filter q l.
Proof.
  induction l as [|x l IH]; intros Hpq; cbn; [done|]. rewrite (Hpq x) by left.
  rewrite IH; [done|]. intros y Hy. apply Hpq. by right.
Qed.

Lemma filter_swap {A} (p q : A -> bool) l : List.filter p (List.filter q l) = List.filter q (List.filter p l).
Proof.
  induction l as [|x l IH]; [done|]. cbn [List.filter]. destruct (p x) eqn:Hp, (q x) eqn:Hq; cbn [List.filter];
    rewrite ?Hp, ?Hq; by rewrite IH.
Qed.

Lemma filter_filter {A} (p p' : A -> bool) l : List.filter p (List.filter p' l) = List.filter (fun x => p x && p' x) l.
Proof. induction l as [|x l IH]; [done|]. cbn. destruct (p' x) eqn:Hp'; cbn; rewrite ?andb_true_r, ?andb_false_r, IH; done. Qed.

Lemma filter_all {A} (p : A -> bool) l : (forall x, x ∈ l -> p x = true) -> List.filter p l = l.
Proof.
  induction l as [|x l IH]; intros Hp; cbn; [done|]. rewrite (Hp x) by left. rewrite IH; [done|].
  intros y Hy. apply Hp. by right.
Qed.

Lemma filter_sublist {A} (p : A -> bool) l : sublist (List.filter p l) l.
Proof. induction l as [|x l IH]; cbn; [constructor|]. destruct (p x); by constructor. Qed.

Lemma sublist_all {A} (P : A -> Prop) l k : sublist l k -> Forall P k -> Forall P l.
Proof. intros Hsub. rewrite !Forall_forall. intros Hk x Hx. by eapply Hk, elem_of_sublist. Qed.

Lemma StronglySorted_sublist {A} (R : A -> A -> Prop) l k :
  sublist l k -> StronglySorted R k -> StronglySorted R l.
Proof.
  induction 1 as [|x l k Hsub IH|x l k Hsub IH]; intros Hs; [done|..]; apply StronglySorted_inv in Hs as [Hs Hall].
  - constructor; [by apply IH|]. by eapply sublist_all.
  - by apply IH.
Qed.

Lemma StronglySorted_impl_elem {A} (R S : A -> A -> Prop) l :
  StronglySorted R l -> (forall x y, x ∈ l -> y ∈ l -> R x y -> S x y) -> StronglySorted S l.
Proof.
  induction 1 as [|x l _ IH Hall]; intros HRS; constructor.
  - apply IH. intros a b Ha Hb. apply HRS; by right.
  - rewrite Forall_forall in *. intros y Hy. apply HRS; [left|by right|by apply Hall].
Qed.

(** [Iterator::take_while]. *)
Fixpoint take_while {A} (p : A -> bool) (l : list A) : list A :=
  match l with [] => [] | x :: l => if p x then x :: take_while p l else [] end.

Lemma take_while_filter {A} (p : A -> bool) l :
  StronglySorted (fun x y => p x = false -> p y = false) l -> take_while p l = List.filter p l.
Proof.
  induction 1 as [|x l _ IH Hall]; cbn; [done|]. destruct (p x) eqn:Hx; [by rewrite IH|].
  rewrite filter_none; [done|]. intros y Hy. rewrite Forall_forall in Hall. by apply Hall.
Qed.
