(* ===== verification/Wal.v ===== *)
(** * ThingDB: byte codec and write-ahead log

    Models the record codec and the WAL of [crates/thingdb/src/lib.rs]: the
    big-endian integer and length-prefixed byte readers and writers, the frame
    encoder [encode_frame_into], the recovery scan [replay_wal] and
    [apply_operation].  The CRC-32 of the [crc32fast] crate is the parameter
    [Crc32]; only its range (a [u32]) is assumed. *)

From S2P Require Import Prelude.

(** [thingdb::Error]: a message. *)
Record Error := message { error_text : string }.

#[export] Instance Error_eq_dec : EqDecision Error.
Proof. solve_decision. Defined.

Abbreviation tdb_result A := (result Error A).
Abbreviation bmap V := (gmap bytes V).

(** [crc32fast::Hasher]. *)
Class Crc32 := {
  crc32_finalize : bytes -> Z;
  crc32_range b : 0 <= crc32_finalize b <= U32_MAX;
}.

(** A concrete checksum, for evaluating the model on examples: a polynomial hash
    reduced to a [u32]. *)
Definition sample_crc (b : bytes) : Z := foldl (fun acc x => (acc * 31 + x + 1) mod 4294967296) 7 b.

Definition sample_crc32 : Crc32.
Proof.
  refine {| crc32_finalize := sample_crc |}. intros b. unfold sample_crc, U32_MAX.
  induction b as [|x b _] using rev_ind; [cbn; lia|]. rewrite foldl_app. cbn [foldl].
  pose proof (Z.mod_pos_bound (foldl (fun acc x => (acc * 31 + x + 1) mod 4294967296) 7 b * 31 + x + 1)
                4294967296). lia.
Defined.

Definition WAL_MAGIC : bytes := str_bytes "TDBWAL01".

Inductive Operation :=
| Put (key value : bytes)
| Delete (key : bytes).

Section codec.
Context `{Crc32}.

Definition checksum (b : bytes) : Z := crc32_finalize b.

Definition u32_to_be_bytes (v : Z) : bytes := digits 256 4 v.
Definition u64_to_be_bytes (v : Z) : bytes := digits 256 8 v.
Definition from_be_bytes (b : bytes) : Z := of_digits 256 b.

Definition write_u32 (output : bytes) (value : Z) : bytes := output ++ u32_to_be_bytes value.
Definition write_u64 (output : bytes) (value : Z) : bytes := output ++ u64_to_be_bytes value.

Definition write_bytes (output b : bytes) : tdb_result bytes :=
  if zlen b <=? U64_MAX
  then Ok (write_u64 output (zlen b) ++ b)
  else Err (message "ThingDB value is too large").

(** Readers take the buffer and the cursor and return the value and the
    advanced cursor. *)
Definition read_byte (b : bytes) (cursor : Z) : tdb_result (Z * Z) :=
  if zlen b <=? cursor then Err (message "truncated ThingDB record")
  else match b !! Z.to_nat cursor with
       | Some v => Ok (v, cursor + 1)
       | None => Err (message "truncated ThingDB record")
       end.

Definition read_u32 (b : bytes) (cursor : Z) : tdb_result (Z * Z) :=
  stop ← ok_or (u64_checked_add cursor 4) (message "ThingDB length overflow");
  value ← ok_or (slice b cursor stop) (message "truncated ThingDB record");
  Ok (from_be_bytes value, stop).

Definition read_u64 (b : bytes) (cursor : Z) : tdb_result (Z * Z) :=
  stop ← ok_or (u64_checked_add cursor 8) (message "ThingDB length overflow");
  value ← ok_or (slice b cursor stop) (message "truncated ThingDB record");
  Ok (from_be_bytes value, stop).

Definition read_bytes (b : bytes) (cursor : Z) : tdb_result (bytes * Z) :=
  '(length, cursor) ← read_u64 b cursor;
  stop ← ok_or (u64_checked_add cursor length) (message "ThingDB value length overflow");
  value ← ok_or (slice b cursor stop) (message "truncated ThingDB value");
  Ok (value, stop).

Definition skip_bytes (b : bytes) (cursor : Z) : tdb_result Z :=
  '(length, cursor) ← read_u64 b cursor;
  stop ← ok_or (u64_checked_add cursor length) (message "ThingDB value length overflow");
  if zlen b <? stop then Err (message "truncated ThingDB value") else Ok stop.

(** ** Frames *)

(** [output[at..at + patch.len()].copy_from_slice(patch)]. *)
Definition copy_from_slice (output : bytes) (at_ : nat) (patch : bytes) : bytes :=
  take at_ output ++ patch ++ drop (at_ + length patch) output.

Definition encode_operation (output : bytes) (op : Operation) : tdb_result bytes :=
  match op with
  | Put key value =>
      output ← write_bytes (output ++ [1]) key;
      write_bytes output value
  | Delete key =>
      output ← write_bytes (output ++ [2]) key;
      Ok (write_u64 output 0)
  end.

Definition encode_frame_into (output : bytes) (sequence : Z) (operations : list Operation)
    : tdb_result bytes :=
  let output := output ++ WAL_MAGIC in
  let length_offset := length output in
  let output := write_u64 output 0 in
  let body_start := length output in
  let output := write_u64 output sequence in
  count ← (if zlen operations <=? U32_MAX then Ok (zlen operations)
           else Err (message "too many operations in batch"));
  let output := write_u32 output count in
  output ← fold_res encode_operation output operations;
  let frame_checksum := checksum (drop body_start output) in
  let output := write_u32 output frame_checksum in
  let frame_len := u64_saturating_sub (zlen output) (Z.of_nat body_start) in
  if frame_len <=? U64_MAX
  then Ok (copy_from_slice output length_offset (u64_to_be_bytes frame_len))
  else Err (message "WAL frame is too large").

Definition encode_frame (sequence : Z) (operations : list Operation) : tdb_result bytes :=
  encode_frame_into [] sequence operations.

(** Iterator [sum] wraps on overflow only in release builds; the sums here are
    buffer sizes, kept exact. *)
Definition operation_capacity (op : Operation) : Z :=
  match op with
  | Put key value =>
      u64_saturating_add (u64_saturating_add (u64_saturating_add
        (u64_saturating_add 1 8) (zlen key)) 8) (zlen value)
  | Delete key =>
      u64_saturating_add (u64_saturating_add (u64_saturating_add 1 8) (zlen key)) 8
  end.

Definition encoded_frame_capacity (operations : list Operation) : Z :=
  u64_saturating_add
    (u64_saturating_add
       (u64_saturating_add (u64_saturating_add (u64_saturating_add (zlen WAL_MAGIC) 8) 8) 4)
       (foldr Z.add 0 (operation_capacity <$> operations)))
    4.

Definition apply_operation (state : bmap bytes) (op : Operation) : bmap bytes :=
  match op with
  | Put key value => <[key := value]> state
  | Delete key => delete key state
  end.

(** ** Recovery *)

(** The operations of one frame: [for _ in 0..count { ... }]. *)
Fixpoint read_operations (b : bytes) (cursor : Z) (count : nat)
    : tdb_result (list Operation * Z) :=
  match count with
  | O => Ok ([], cursor)
  | S count =>
      '(kind, cursor) ← read_byte b cursor;
      '(key, cursor) ← read_bytes b cursor;
      '(value, cursor) ← read_bytes b cursor;
      op ← (match kind with
            | 1 => Ok (Put key value)
            | 2 => Ok (Delete key)
            | _ => Err (message "invalid ThingDB WAL operation")
            end);
      '(ops, cursor) ← read_operations b cursor count;
      Ok (op :: ops, cursor)
  end.

(** The scan's loop variables. *)
Record Replay := mkReplay {
  rp_cursor : Z;
  rp_last_sequence : Z;
  rp_frame_count : Z;
  rp_state : bmap bytes;
}.

(** What one iteration of the [while] loop does: go on, or return early with
    the offset of the incomplete frame. *)
Inductive ReplayStep :=
| Continue (r : Replay)
| Incomplete (frame_start : Z).

Definition replay_frame (b : bytes) (r : Replay) : tdb_result ReplayStep :=
  let frame_start := rp_cursor r in
  if zlen b - frame_start <? zlen WAL_MAGIC + 8 then Ok (Incomplete frame_start) else
  if negb (bool_decide (slice b frame_start (frame_start + zlen WAL_MAGIC) = Some WAL_MAGIC))
  then Err (message "invalid ThingDB WAL magic") else
  let cursor := frame_start + zlen WAL_MAGIC in
  '(frame_len, cursor) ← read_u64 b cursor;
  if frame_len <? 12 then Err (message "invalid ThingDB WAL frame length") else
  if u64_saturating_sub (zlen b) cursor <? frame_len then Ok (Incomplete frame_start) else
  let frame_end := cursor + frame_len in
  '(sequence, cursor) ← read_u64 b cursor;
  '(count, cursor) ← read_u32 b cursor;
  '(operations, cursor) ← read_operations b cursor (Z.to_nat count);
  checksum_offset ← ok_or (if frame_end <? 4 then None else Some (frame_end - 4))
                          (message "invalid ThingDB WAL frame");
  if negb (cursor =? checksum_offset)
  then Err (message "invalid ThingDB WAL payload length") else
  stored ← ok_or (slice b checksum_offset frame_end) (message "invalid ThingDB WAL checksum");
  let stored_checksum := from_be_bytes stored in
  body ← ok_or (slice b (frame_start + zlen WAL_MAGIC + 8) checksum_offset)
               (message "invalid ThingDB WAL checksum");
  if negb (stored_checksum =? checksum body)
  then Err (message "ThingDB WAL checksum mismatch") else
  let '(state, last_sequence) :=
    if rp_last_sequence r <? sequence
    then (foldl apply_operation (rp_state r) operations, sequence)
    else (rp_state r, rp_last_sequence r) in
  Ok (Continue (mkReplay frame_end last_sequence (rp_frame_count r + 1) state)).

(** [while cursor < bytes.len()].  Every iteration consumes at least a frame
    header, so [length b] iterations are enough ([replay_loop_enough]). *)
Fixpoint replay_loop (fuel : nat) (b : bytes) (r : Replay)
    : tdb_result (Z * Z * Z * bmap bytes) :=
  if rp_cursor r <? zlen b then
    match fuel with
    | O => Err (message "replay fuel exhausted")
    | S fuel =>
        step ← replay_frame b r;
        match step with
        | Continue r' => replay_loop fuel b r'
        | Incomplete frame_start =>
            Ok (rp_last_sequence r, frame_start, rp_frame_count r, rp_state r)
        end
    end
  else Ok (rp_last_sequence r, rp_cursor r, rp_frame_count r, rp_state r).

(** Returns [(last_sequence, valid_offset, frame_count)] and the rebuilt map. *)
Definition replay_wal (wal : bytes) (table_sequence : Z) (state : bmap bytes)
    : tdb_result (Z * Z * Z * bmap bytes) :=
  replay_loop (length wal) wal (mkReplay 0 table_sequence 0 state).
End codec.

#[global] Arguments u32_to_be_bytes : simpl never.
#[global] Arguments u64_to_be_bytes : simpl never.
#[global] Arguments from_be_bytes : simpl never.
#[global] Arguments WAL_MAGIC : simpl never.

(** ** The layout the encoder produces *)

Section layout.
Context `{Crc32}.

Definition bytes_layout (b : bytes) : bytes := u64_to_be_bytes (zlen b) ++ b.

Definition operation_layout (op : Operation) : bytes :=
  match op with
  | Put key value => [1] ++ bytes_layout key ++ bytes_layout value
  | Delete key => [2] ++ bytes_layout key ++ bytes_layout []
  end.

Definition body_layout (sequence : Z) (ops : list Operation) : bytes :=
  u64_to_be_bytes sequence ++ u32_to_be_bytes (zlen ops) ++ concat (operation_layout <$> ops).

Definition frame_layout (sequence : Z) (ops : list Operation) : bytes :=
  WAL_MAGIC ++ u64_to_be_bytes (zlen (body_layout sequence ops) + 4)
    ++ body_layout sequence ops ++ u32_to_be_bytes (checksum (body_layout sequence ops)).

(** A request the writer can encode: the sequence is a [u64] and the number of
    operations a [u32]. *)
Definition frame_ok (f : Z * list Operation) : Prop :=
  0 <= f.1 <= U64_MAX /\ zlen f.2 <= U32_MAX.

Definition log_layout (log : list (Z * list Operation)) : bytes :=
  concat ((fun f => frame_layout f.1 f.2) <$> log).

Lemma length_u64 v : zlen (u64_to_be_bytes v) = 8.
Proof. unfold u64_to_be_bytes. by rewrite length_digits. Qed.

Lemma length_u32 v : zlen (u32_to_be_bytes v) = 4.
Proof. unfold u32_to_be_bytes. by rewrite length_digits. Qed.

Lemma length_magic : zlen WAL_MAGIC = 8.
Proof. reflexivity. Qed.

Lemma length_bytes_layout b : zlen (bytes_layout b) = 8 + zlen b.
Proof. unfold bytes_layout. rewrite length_app, Nat2Z.inj_add, length_u64. done. Qed.

Lemma from_be_u64 v : 0 <= v <= U64_MAX -> from_be_bytes (u64_to_be_bytes v) = v.
Proof. intros. apply of_digits_digits; [lia|]. unfold U64_MAX in *. lia. Qed.

Lemma from_be_u32 v : 0 <= v <= U32_MAX -> from_be_bytes (u32_to_be_bytes v) = v.
Proof. intros. apply of_digits_digits; [lia|]. unfold U32_MAX in *. lia. Qed.

Lemma from_be_checksum b : from_be_bytes (u32_to_be_bytes (checksum b)) = checksum b.
Proof. apply from_be_u32, crc32_range. Qed.

Lemma length_body sequence ops :
  zlen (body_layout sequence ops) = 12 + zlen (concat (operation_layout <$> ops)).
Proof. unfold body_layout. rewrite !length_app, !Nat2Z.inj_add, length_u64, length_u32. lia. Qed.

Lemma length_frame sequence ops :
  zlen (frame_layout sequence ops) = 20 + zlen (body_layout sequence ops).
Proof.
  unfold frame_layout. rewrite !length_app, !Nat2Z.inj_add, length_u64, length_u32, length_magic.
  lia.
Qed.
End layout.

Create Rewrite HintDb zlen.
#[export] Hint Rewrite @length_app Nat2Z.inj_add @length_u64 @length_u32 length_magic
  @length_bytes_layout @length_body @length_frame : zlen.

(** Normalise lengths of layouts and decide the linear arithmetic left. *)
Ltac zlen_lia := autorewrite with zlen in *; cbn [length] in *; unfold_ints; lia.

(** ** Readers on laid-out bytes *)

Section readers.
Context `{Crc32} (b : bytes) (Hb : zlen b <= U64_MAX).
Implicit Types cur v : Z.

Lemma read_byte_occurs cur v : occurs b cur [v] -> read_byte b cur = Ok (v, cur + 1).
Proof.
  intros Ho. unfold read_byte. rewrite (occurs_lookup _ _ _ Ho).
  apply occurs_bounds in Ho. cbn [length] in Ho.
  destruct (Z.leb_spec (zlen b) cur); [lia|done].
Qed.

Lemma checked_add_occurs cur n s :
  occurs b cur s -> n = zlen s -> u64_checked_add cur n = Some (cur + n).
Proof.
  intros Ho ->. apply occurs_bounds in Ho. unfold u64_checked_add.
  destruct (Z.leb_spec (cur + zlen s) U64_MAX); [done|lia].
Qed.

Lemma read_u64_occurs cur v :
  0 <= v <= U64_MAX -> occurs b cur (u64_to_be_bytes v) -> read_u64 b cur = Ok (v, cur + 8).
Proof.
  intros Hv Ho. unfold read_u64.
  rewrite (checked_add_occurs cur 8 _ Ho) by (by rewrite length_u64). run.
  rewrite (occurs_slice _ _ _ _ Ho) by (by rewrite length_u64). run.
  by rewrite from_be_u64.
Qed.

Lemma read_u32_occurs cur v :
  0 <= v <= U32_MAX -> occurs b cur (u32_to_be_bytes v) -> read_u32 b cur = Ok (v, cur + 4).
Proof.
  intros Hv Ho. unfold read_u32.
  rewrite (checked_add_occurs cur 4 _ Ho) by (by rewrite length_u32). run.
  rewrite (occurs_slice _ _ _ _ Ho) by (by rewrite length_u32). run.
  by rewrite from_be_u32.
Qed.

Lemma read_checksum_occurs cur s :
  occurs b cur (u32_to_be_bytes (checksum s)) -> read_u32 b cur = Ok (checksum s, cur + 4).
Proof. apply read_u32_occurs, crc32_range. Qed.

Lemma read_bytes_occurs cur s :
  occurs b cur (bytes_layout s) -> read_bytes b cur = Ok (s, cur + zlen (bytes_layout s)).
Proof.
  intros Ho. pose proof (occurs_bounds _ _ _ Ho) as Hbd. rewrite length_bytes_layout in *.
  apply occurs_app in Ho as [Hl Hs]. rewrite length_u64 in Hs.
  unfold read_bytes. rewrite (read_u64_occurs cur (zlen s)); [|lia|done]. run.
  rewrite (checked_add_occurs _ _ _ Hs eq_refl). run.
  rewrite (occurs_slice _ _ _ _ Hs eq_refl). run. do 2 f_equal. lia.
Qed.

Lemma skip_bytes_occurs cur s :
  occurs b cur (bytes_layout s) -> skip_bytes b cur = Ok (cur + zlen (bytes_layout s)).
Proof.
  intros Ho. pose proof (occurs_bounds _ _ _ Ho) as Hbd. rewrite length_bytes_layout in *.
  apply occurs_app in Ho as [Hl Hs]. rewrite length_u64 in Hs.
  unfold skip_bytes. rewrite (read_u64_occurs cur (zlen s)); [|lia|done]. run.
  rewrite (checked_add_occurs _ _ _ Hs eq_refl). run.
  destruct (Z.ltb_spec (zlen b) (cur + 8 + zlen s)); [lia|]. f_equal. lia.
Qed.

Lemma read_operations_occurs cur ops :
  occurs b cur (concat (operation_layout <$> ops)) ->
  read_operations b cur (length ops) = Ok (ops, cur + zlen (concat (operation_layout <$> ops))).
Proof.
  revert cur. induction ops as [|op ops IH]; intros cur Ho; cbn [read_operations fmap list_fmap concat length].
  { cbn. by rewrite Z.add_0_r. }
  cbn [fmap list_fmap concat] in Ho. apply occurs_app in Ho as [Hop Hrest].
  assert (exists kind key value,
    operation_layout op = [kind] ++ bytes_layout key ++ bytes_layout value /\
    match kind with
    | 1 => Ok (Put key value) | 2 => Ok (Delete key)
    | _ => Err (message "invalid ThingDB WAL operation") end = Ok op) as
    (kind&key&value&Hlay&Hkind).
  { destruct op as [key value|key]; [exists 1, key, value|exists 2, key, []]; done. }
  rewrite Hlay in Hop. apply occurs_app in Hop as [Hk Hop]. apply occurs_app in Hop as [Hkey Hval].
  change (zlen [kind]) with 1 in *.
  rewrite (read_byte_occurs _ _ Hk). run. rewrite (read_bytes_occurs _ _ Hkey). run.
  rewrite (read_bytes_occurs _ _ Hval). run. rewrite Hkind. run.
  replace (cur + 1 + zlen (bytes_layout key) + zlen (bytes_layout value))
    with (cur + zlen (operation_layout op)) by (rewrite Hlay; zlen_lia).
  rewrite (IH _ Hrest). run. do 2 f_equal. rewrite length_app. lia.
Qed.
End readers.

(** ** The encoder produces the layout *)

Section encoder.
Context `{Crc32}.

Lemma write_bytes_layout output s :
  zlen s <= U64_MAX -> write_bytes output s = Ok (output ++ bytes_layout s).
Proof.
  intros. unfold write_bytes. destruct (Z.leb_spec (zlen s) U64_MAX); [|lia].
  unfold write_u64, bytes_layout. by rewrite <-app_assoc.
Qed.

Definition op_fits (op : Operation) : Prop := zlen (operation_layout op) <= U64_MAX.

Lemma encode_operation_layout output op :
  op_fits op -> encode_operation output op = Ok (output ++ operation_layout op).
Proof.
  unfold op_fits. destruct op as [key value|key]; cbn [operation_layout encode_operation]; intros Hf.
  - rewrite write_bytes_layout by zlen_lia. run.
    rewrite write_bytes_layout by zlen_lia. by rewrite <-!app_assoc.
  - rewrite write_bytes_layout by zlen_lia. run. unfold write_u64. by rewrite <-!app_assoc.
Qed.

Lemma encode_operations_layout output ops :
  Forall op_fits ops ->
  fold_res encode_operation output ops = Ok (output ++ concat (operation_layout <$> ops)).
Proof.
  intros Hf. revert output. induction Hf as [|op ops Hop Hops IH]; intros output; cbn [fold_res fmap list_fmap concat].
  { by rewrite app_nil_r. }
  rewrite encode_operation_layout by done. run. by rewrite IH, <-app_assoc.
Qed.

Lemma ops_fit ops : zlen (concat (operation_layout <$> ops)) <= U64_MAX -> Forall op_fits ops.
Proof.
  induction ops as [|op ops IH]; cbn [fmap list_fmap concat]; constructor; unfold op_fits in *; [|apply IH]; zlen_lia.
Qed.

Lemma copy_from_slice_mid (a old new c : bytes) :
  length new = length old -> copy_from_slice (a ++ old ++ c) (length a) new = a ++ new ++ c.
Proof.
  intros Hl. unfold copy_from_slice. rewrite take_app_length. f_equal. f_equal.
  rewrite app_assoc, Hl, <-length_app, drop_app_length. done.
Qed.

Lemma encode_frame_into_layout output sequence ops :
  frame_ok (sequence, ops) -> zlen (frame_layout sequence ops) <= U64_MAX ->
  encode_frame_into output sequence ops = Ok (output ++ frame_layout sequence ops).
Proof.
  intros [Hseq Hn] Hlen. cbn in Hseq, Hn. unfold encode_frame_into.
  destruct (Z.leb_spec (zlen ops) U32_MAX); [|lia]. run.
  rewrite encode_operations_layout by (apply ops_fit; zlen_lia). run.
  unfold write_u64, write_u32.
  set (pre := (output ++ WAL_MAGIC)).
  assert (Hbody : drop (length (pre ++ u64_to_be_bytes 0))
      ((((pre ++ u64_to_be_bytes 0) ++ u64_to_be_bytes sequence) ++ u32_to_be_bytes (zlen ops))
       ++ concat (operation_layout <$> ops)) = body_layout sequence ops).
  { rewrite <-!(app_assoc (pre ++ _)), drop_app_length. unfold body_layout. by rewrite <-!app_assoc. }
  rewrite Hbody. clear Hbody.
  set (tail := u64_to_be_bytes sequence ++ u32_to_be_bytes (zlen ops)
                 ++ concat (operation_layout <$> ops)
                 ++ u32_to_be_bytes (checksum (body_layout sequence ops))).
  assert (Hout : (((((pre ++ u64_to_be_bytes 0) ++ u64_to_be_bytes sequence)
      ++ u32_to_be_bytes (zlen ops)) ++ concat (operation_layout <$> ops))
      ++ u32_to_be_bytes (checksum (body_layout sequence ops))) = pre ++ u64_to_be_bytes 0 ++ tail).
  { unfold tail. by rewrite <-!app_assoc. }
  rewrite Hout. clear Hout.
  assert (Htail : zlen tail = zlen (body_layout sequence ops) + 4)
    by (unfold tail; rewrite length_body; zlen_lia).
  assert (Hfl : u64_saturating_sub (zlen (pre ++ u64_to_be_bytes 0 ++ tail))
      (zlen (pre ++ u64_to_be_bytes 0)) = zlen (body_layout sequence ops) + 4).
  { unfold u64_saturating_sub. rewrite !length_app. lia. }
  rewrite Hfl. destruct (Z.leb_spec (zlen (body_layout sequence ops) + 4) U64_MAX); [|zlen_lia].
  rewrite copy_from_slice_mid by done. f_equal. unfold pre, tail, frame_layout, body_layout.
  by rewrite <-!app_assoc.
Qed.
End encoder.

(** ** Recovery on laid-out logs *)

(** What recovery should compute: apply the frames newer than the last applied
    sequence, in order. *)
Definition apply_frame (acc : Z * bmap bytes) (f : Z * list Operation) : Z * bmap bytes :=
  if acc.1 <? f.1 then (f.1, foldl apply_operation acc.2 f.2) else acc.

Definition apply_log (acc : Z * bmap bytes) (log : list (Z * list Operation)) : Z * bmap bytes :=
  foldl apply_frame acc log.

(** A torn tail: a proper prefix (possibly empty) of a frame the writer could
    have been appending. *)
Definition torn_tail `{Crc32} (tail : bytes) : Prop :=
  exists sequence ops rest,
    frame_ok (sequence, ops) /\ zlen (frame_layout sequence ops) <= U64_MAX /\
    frame_layout sequence ops = tail ++ rest /\ rest <> [].

Section recovery.
Context `{Crc32}.
Implicit Types log : list (Z * list Operation).

Lemma replay_frame_occurs b r sequence ops :
  zlen b <= U64_MAX -> frame_ok (sequence, ops) ->
  occurs b (rp_cursor r) (frame_layout sequence ops) ->
  replay_frame b r =
    let acc := apply_frame (rp_last_sequence r, rp_state r) (sequence, ops) in
    Ok (Continue (mkReplay (rp_cursor r + zlen (frame_layout sequence ops)) acc.1
                           (rp_frame_count r + 1) acc.2)).
Proof.
  intros Hb [Hseq Hn] Ho. cbn in Hseq, Hn.
  pose proof (occurs_bounds _ _ _ Ho) as [Hc0 Hc1].
  destruct r as [cur last count st]; cbn [rp_cursor rp_last_sequence rp_frame_count rp_state] in *.
  rewrite length_frame in *. set (body := body_layout sequence ops) in *.
  unfold frame_layout in Ho; fold body in Ho.
  apply occurs_app in Ho as [Hmagic Ho]. apply occurs_app in Ho as [Hlen Ho].
  apply occurs_app in Ho as [Hbody Hcrc]. rewrite length_magic, length_u64 in *.
  pose proof Hbody as Hparts. unfold body, body_layout in Hparts.
  apply occurs_app in Hparts as [Hs Hparts]. apply occurs_app in Hparts as [Hk Hops].
  rewrite length_u64, length_u32 in *.
  assert (Hbl : zlen body = 12 + zlen (concat (operation_layout <$> ops))) by apply length_body.
  unfold replay_frame; cbn [rp_cursor rp_last_sequence rp_frame_count rp_state].
  destruct (Z.ltb_spec (zlen b - cur) (zlen WAL_MAGIC + 8)); [rewrite length_magic in *; lia|].
  rewrite (occurs_slice _ _ _ _ Hmagic), bool_decide_true by done. cbn [negb].
  rewrite length_magic.
  rewrite (read_u64_occurs b Hb _ (zlen body + 4)) by (done || lia). run.
  destruct (Z.ltb_spec (zlen body + 4) 12); [lia|].
  destruct (Z.ltb_spec (u64_saturating_sub (zlen b) (cur + 8 + 8)) (zlen body + 4));
    [unfold u64_saturating_sub in *; lia|].
  rewrite (read_u64_occurs b Hb _ sequence) by done. run.
  rewrite (read_u32_occurs b Hb _ (zlen ops)) by (done || lia). run. rewrite Nat2Z.id.
  rewrite (read_operations_occurs b Hb _ ops) by done. run.
  destruct (Z.ltb_spec (cur + 8 + 8 + (zlen body + 4)) 4); [lia|]. run.
  destruct (Z.eqb_spec (cur + 8 + 8 + 8 + 4 + zlen (concat (operation_layout <$> ops)))
              (cur + 8 + 8 + (zlen body + 4) - 4)); [|lia]. cbn [negb].
  replace (cur + 8 + 8 + (zlen body + 4) - 4) with (cur + 8 + 8 + zlen body) by lia.
  rewrite (occurs_slice _ _ _ _ Hcrc) by (rewrite length_u32; lia). run.
  rewrite from_be_checksum.
  rewrite (occurs_slice _ _ _ _ Hbody) by lia. run.
  rewrite Z.eqb_refl. cbn [negb]. unfold apply_frame. cbn [fst snd].
  replace (cur + 8 + 8 + (zlen body + 4)) with (cur + (20 + zlen body)) by lia.
  by destruct (last <? sequence).
Qed.

(** A torn tail ends the scan at the last complete frame. *)
Lemma replay_frame_torn b r tail :
  zlen b <= U64_MAX -> torn_tail tail -> tail <> [] ->
  occurs b (rp_cursor r) tail -> rp_cursor r + zlen tail = zlen b ->
  replay_frame b r = Ok (Incomplete (rp_cursor r)).
Proof.
  intros Hb (sequence&ops&rest&[Hseq Hn]&Hfl&Hfr&Hrest) Hne Ho Hend. cbn in Hseq, Hn.
  destruct r as [cur last count st]; cbn [rp_cursor rp_last_sequence rp_frame_count rp_state] in *.
  assert (0 < zlen rest) by (destruct rest; [done|cbn; lia]).
  assert (Hlen : zlen tail + zlen rest = 20 + zlen (body_layout sequence ops)).
  { rewrite <-length_frame, Hfr, length_app. lia. }
  pose proof (occurs_bounds _ _ _ Ho) as [Hc0 Hc1].
  unfold replay_frame; cbn [rp_cursor rp_last_sequence rp_frame_count rp_state].
  rewrite length_magic.
  destruct (Z.ltb_spec (zlen b - cur) (8 + 8)); [done|].
  assert (exists t, tail = WAL_MAGIC ++ u64_to_be_bytes (zlen (body_layout sequence ops) + 4) ++ t)
    as [t ->].
  { unfold frame_layout in Hfr. rewrite app_assoc in Hfr.
    exists (drop 16 tail). rewrite app_assoc. rewrite <-(take_drop 16 tail) at 1. f_equal.
    assert (H16 : length (WAL_MAGIC ++ u64_to_be_bytes (zlen (body_layout sequence ops) + 4))
                  = 16%nat) by done.
    apply (f_equal (take 16)) in Hfr. rewrite <-H16 in Hfr at 1. rewrite take_app_length in Hfr.
    rewrite take_app_le in Hfr by lia. done. }
  apply occurs_app in Ho as [Hmagic Ho]. apply occurs_app in Ho as [Hl Ht].
  rewrite length_magic, length_u64 in *.
  rewrite (occurs_slice _ _ _ _ Hmagic), bool_decide_true by done. cbn [negb].
  rewrite (read_u64_occurs b Hb _ (zlen (body_layout sequence ops) + 4)) by (done || zlen_lia). run.
  destruct (Z.ltb_spec (zlen (body_layout sequence ops) + 4) 12); [zlen_lia|].
  destruct (Z.ltb_spec (u64_saturating_sub (zlen b) (cur + 8 + 8))
              (zlen (body_layout sequence ops) + 4)); [done|].
  unfold u64_saturating_sub in *. rewrite !length_app in *. zlen_lia.
Qed.

(** Scanning past complete frames: the loop reaches the end of the log with the
    frames applied and enough fuel for what follows. *)
Lemma replay_loop_prefix log b fuel r rest :
  zlen b <= U64_MAX -> Forall frame_ok log ->
  occurs b (rp_cursor r) (log_layout log ++ rest) ->
  rp_cursor r + zlen (log_layout log ++ rest) = zlen b ->
  zlen (log_layout log ++ rest) <= Z.of_nat fuel ->
  exists fuel',
    let acc := apply_log (rp_last_sequence r, rp_state r) log in
    zlen rest <= Z.of_nat fuel' /\
    replay_loop fuel b r =
      replay_loop fuel' b (mkReplay (rp_cursor r + zlen (log_layout log)) acc.1
                                    (rp_frame_count r + zlen log) acc.2).
Proof.
  intros Hb Hlog. revert fuel r. induction Hlog as [|[s ops] log Hf Hlog IH];
    intros fuel r Ho Hend Hfuel.
  - exists fuel. split; [done|]. cbn. rewrite !Z.add_0_r. by destruct r.
  - change (log_layout ((s, ops) :: log)) with (frame_layout s ops ++ log_layout log) in *.
    rewrite <-app_assoc in Ho, Hend, Hfuel. apply occurs_app in Ho as [Hof Ho].
    pose proof (occurs_bounds _ _ _ Hof) as Hbd.
    rewrite length_app, Nat2Z.inj_add in Hend, Hfuel.
    pose proof (length_frame s ops) as Hlf.
    destruct fuel as [|fuel]; [lia|].
    destruct (IH fuel (mkReplay (rp_cursor r + zlen (frame_layout s ops))
               (apply_frame (rp_last_sequence r, rp_state r) (s, ops)).1 (rp_frame_count r + 1)
               (apply_frame (rp_last_sequence r, rp_state r) (s, ops)).2)) as (fuel'&Hf'&Heq);
      cbn [rp_cursor]; [done|lia..|].
    exists fuel'. split; [done|]. cbn [replay_loop].
    destruct (Z.ltb_spec (rp_cursor r) (zlen b)); [|lia].
    rewrite (replay_frame_occurs _ _ s ops) by done. run. rewrite Heq.
    cbn [rp_cursor rp_last_sequence rp_frame_count rp_state apply_log foldl].
    rewrite <-surjective_pairing. cbn [length]. rewrite length_app, Nat2Z.inj_add, Z.add_assoc.
    by replace (rp_frame_count r + 1 + zlen log) with (rp_frame_count r + Z.of_nat (S (length log)))
      by lia.
Qed.

Lemma replay_wal_prefix log rest ts st :
  zlen (log_layout log ++ rest) <= U64_MAX -> Forall frame_ok log ->
  exists fuel',
    let acc := apply_log (ts, st) log in
    zlen rest <= Z.of_nat fuel' /\
    replay_wal (log_layout log ++ rest) ts st =
      replay_loop fuel' (log_layout log ++ rest)
        (mkReplay (zlen (log_layout log)) acc.1 (zlen log) acc.2).
Proof.
  intros Hb Hlog.
  destruct (replay_loop_prefix log (log_layout log ++ rest) (length (log_layout log ++ rest))
              (mkReplay 0 ts 0 st) rest) as (fuel'&Hf&Heq); cbn [rp_cursor]; [done..| |lia|lia|].
  - apply (occurs_end [] (log_layout log ++ rest)).
  - exists fuel'. split; [done|]. exact Heq.
Qed.

Lemma replay_wal_torn log tail ts st :
  zlen (log_layout log ++ tail) <= U64_MAX -> Forall frame_ok log -> torn_tail tail ->
  replay_wal (log_layout log ++ tail) ts st =
    let acc := apply_log (ts, st) log in
    Ok (acc.1, zlen (log_layout log), zlen log, acc.2).
Proof.
  intros Hb Hlog Ht. destruct (replay_wal_prefix log tail ts st Hb Hlog) as (fuel&Hf&->).
  set (b := log_layout log ++ tail) in *.
  assert (Hlen : zlen b = zlen (log_layout log) + zlen tail) by (unfold b; rewrite length_app; lia).
  destruct fuel as [|fuel]; cbn [replay_loop rp_cursor rp_last_sequence rp_frame_count rp_state];
    (destruct (Z.ltb_spec (zlen (log_layout log)) (zlen b)); [|done]); [lia|].
  rewrite (replay_frame_torn _ _ tail); [done|done|done| |apply occurs_end|cbn; lia].
  intros ->. cbn in Hlen. lia.
Qed.

(** A complete frame whose stored checksum is not that of its body. *)
Lemma replay_frame_corrupt b r body stored :
  zlen b <= U64_MAX -> 8 <= zlen body -> zlen stored = 4 ->
  occurs b (rp_cursor r) (WAL_MAGIC ++ u64_to_be_bytes (zlen body + 4) ++ body ++ stored) ->
  from_be_bytes stored <> checksum body ->
  exists e, replay_frame b r = Err e.
Proof.
  intros Hb Hbody Hst Ho Hne. pose proof (occurs_bounds _ _ _ Ho) as Hbd.
  destruct r as [cur last count st]; cbn [rp_cursor] in *.
  rewrite !length_app, !Nat2Z.inj_add, length_magic, length_u64, Hst in Hbd.
  apply occurs_app in Ho as [Hmagic Ho]. apply occurs_app in Ho as [Hlen Ho].
  apply occurs_app in Ho as [Hb1 Hcrc]. rewrite length_magic, length_u64 in *.
  unfold replay_frame; cbn [rp_cursor rp_last_sequence rp_frame_count rp_state].
  rewrite length_magic. destruct (Z.ltb_spec (zlen b - cur) (8 + 8)); [lia|].
  rewrite (occurs_slice _ _ _ _ Hmagic), bool_decide_true by done. cbn [negb].
  rewrite (read_u64_occurs b Hb _ (zlen body + 4)) by (done || lia). run.
  destruct (Z.ltb_spec (zlen body + 4) 12); [lia|].
  destruct (Z.ltb_spec (u64_saturating_sub (zlen b) (cur + 8 + 8)) (zlen body + 4));
    [unfold u64_saturating_sub in *; lia|].
  destruct (read_u64 b (cur + 8 + 8)) as [[sequence c1]|e]; run; [|eauto].
  destruct (read_u32 b c1) as [[n c2]|e]; run; [|eauto].
  destruct (read_operations b c2 (Z.to_nat n)) as [[ops c3]|e]; run; [|eauto].
  destruct (Z.ltb_spec (cur + 8 + 8 + (zlen body + 4)) 4); [lia|]. run.
  replace (cur + 8 + 8 + (zlen body + 4) - 4) with (cur + 8 + 8 + zlen body) by lia.
  destruct (Z.eqb_spec c3 (cur + 8 + 8 + zlen body)); cbn [negb]; [|eauto].
  rewrite (occurs_slice _ _ _ _ Hcrc) by lia. run.
  rewrite (occurs_slice _ _ _ _ Hb1) by lia. run.
  destruct (Z.eqb_spec (from_be_bytes stored) (checksum body)); [done|]. cbn. eauto.
Qed.

(** Every iteration that goes on consumes at least a frame header. *)
Lemma replay_frame_progress b r r' :
  0 <= rp_cursor r -> replay_frame b r = Ok (Continue r') -> rp_cursor r < rp_cursor r'.
Proof.
  intros H0. unfold replay_frame. destruct (_ <? _); [done|]. destruct (negb _); [done|].
  rewrite bind_Ok_inv. intros ([fl c]&Hread&Hk). revert Hk. unfold read_u64 in Hread.
  rewrite bind_Ok_inv in Hread. destruct Hread as (stop&Hstop&Hread).
  rewrite bind_Ok_inv in Hread. destruct Hread as (v&_&[= <- <-]).
  rewrite ok_or_Ok_inv in Hstop. unfold u64_checked_add in Hstop.
  destruct (_ <=? _) in Hstop; [|done]. injection Hstop as <-. rewrite length_magic in *.
  destruct (Z.ltb_spec (from_be_bytes v) 12); [done|]. destruct (_ <? _); [done|].
  do 3 (rewrite bind_Ok_inv; intros ([? ?]&?&Hk); revert Hk).
  rewrite bind_Ok_inv. intros (co&Hco&Hk). revert Hk. destruct (negb _); [done|].
  do 2 (rewrite bind_Ok_inv; intros (?&?&Hk); revert Hk). destruct (negb _); [done|].
  destruct (rp_last_sequence r <? _); intros [= <-]; cbn [rp_cursor]; lia.
Qed.

(** So [length b] iterations are enough: more fuel never changes the result. *)
Lemma replay_loop_enough b r fuel1 fuel2 :
  0 <= rp_cursor r ->
  zlen b - rp_cursor r <= Z.of_nat fuel1 -> zlen b - rp_cursor r <= Z.of_nat fuel2 ->
  replay_loop fuel1 b r = replay_loop fuel2 b r.
Proof.
  revert r fuel2. induction fuel1 as [|fuel1 IH]; intros r fuel2 H0 H1 H2;
    destruct fuel2 as [|fuel2]; cbn [replay_loop];
    (destruct (Z.ltb_spec (rp_cursor r) (zlen b)); [|done]); try lia.
  destruct (replay_frame b r) as [[r'|fs]|e] eqn:Hf; run; [|done..].
  pose proof (replay_frame_progress b r r' H0 Hf). apply IH; lia.
Qed.

(** The loop without fuel, as the iterations it makes up to its result. *)
Inductive replay_runs (b : bytes) : Replay -> tdb_result (Z * Z * Z * bmap bytes) -> Prop :=
| replay_runs_end r : zlen b <= rp_cursor r ->
    replay_runs b r (Ok (rp_last_sequence r, rp_cursor r, rp_frame_count r, rp_state r))
| replay_runs_incomplete r frame_start : rp_cursor r < zlen b -> replay_frame b r = Ok (Incomplete frame_start) ->
    replay_runs b r (Ok (rp_last_sequence r, frame_start, rp_frame_count r, rp_state r))
| replay_runs_error r e : rp_cursor r < zlen b -> replay_frame b r = Err e -> replay_runs b r (Err e)
| replay_runs_next r r' out : rp_cursor r < zlen b -> replay_frame b r = Ok (Continue r') ->
    replay_runs b r' out -> replay_runs b r out.

Lemma replay_loop_runs b r fuel :
  0 <= rp_cursor r -> zlen b - rp_cursor r <= Z.of_nat fuel -> replay_runs b r (replay_loop fuel b r).
Proof.
  revert r. induction fuel as [|fuel IH]; intros r H0 Hf; cbn [replay_loop];
    (destruct (Z.ltb_spec (rp_cursor r) (zlen b)); [|by constructor]); [lia|].
  destruct (replay_frame b r) as [[r'|fs]|e] eqn:Hr; run; [|by constructor..].
  pose proof (replay_frame_progress b r r' H0 Hr). eapply replay_runs_next; [done..|]. apply IH; lia.
Qed.

Lemma torn_tail_nil : torn_tail [].
Proof.
  exists 0, [], (frame_layout 0 []). split_and!; [| |done|].
  - split; cbn; unfold_ints; lia.
  - rewrite length_frame, length_body. cbn. unfold_ints. lia.
  - intros Hz. apply (f_equal (fun l => zlen l)) in Hz.
    rewrite length_frame, length_body in Hz. cbn in Hz. lia.
Qed.
End recovery.

(** ** Properties *)

Section properties.
Context `{Crc32}.

Definition encode_log (log : list (Z * list Operation)) : tdb_result bytes :=
  fold_res (fun output f => encode_frame_into output f.1 f.2) [] log.

Lemma encode_log_acc log output :
  Forall frame_ok log -> zlen (log_layout log) <= U64_MAX ->
  fold_res (fun output f => encode_frame_into output f.1 f.2) output log
    = Ok (output ++ log_layout log).
Proof.
  intros Hlog. revert output. induction Hlog as [|[s ops] log Hf Hlog IH]; intros output Hlen.
  { cbn. by rewrite app_nil_r. }
  change (log_layout ((s, ops) :: log)) with (frame_layout s ops ++ log_layout log) in *.
  rewrite length_app in Hlen. cbn [fold_res fst snd].
  rewrite encode_frame_into_layout by (done || lia). run. rewrite IH by lia. by rewrite <-app_assoc.
Qed.

(** C1. Whatever batch of frames the writer encodes, and wherever a crash tears
    the frame that follows them, recovery succeeds, applies exactly the complete
    frames newer than the table sequence, in order, and reports the offset of the
    first incomplete byte, so that truncating there drops only the torn frame. *)
Theorem wal_recovery log tail wal table_sequence state :
  Forall frame_ok log -> torn_tail tail ->
  encode_log log = Ok wal -> zlen (log_layout log) + zlen tail <= U64_MAX ->
  replay_wal (wal ++ tail) table_sequence state =
    let acc := apply_log (table_sequence, state) log in
    Ok (acc.1, zlen wal, zlen log, acc.2).
Proof.
  intros Hlog Ht Henc Hlen. unfold encode_log in Henc.
  rewrite encode_log_acc in Henc by (done || lia). injection Henc as <-.
  apply replay_wal_torn; [rewrite length_app; lia|done..].
Qed.

(** C2. A complete frame whose stored CRC is not the CRC of its body makes recovery
    fail, whatever valid frames precede it and whatever bytes follow it: a
    corrupted batch is never applied. *)
Theorem wal_corruption_rejected log body stored rest table_sequence state :
  Forall frame_ok log -> 8 <= zlen body -> zlen stored = 4 ->
  from_be_bytes stored <> checksum body ->
  let wal := log_layout log ++ WAL_MAGIC ++ u64_to_be_bytes (zlen body + 4)
               ++ body ++ stored ++ rest in
  zlen wal <= U64_MAX ->
  exists e, replay_wal wal table_sequence state = Err e.
Proof.
  intros Hlog Hbody Hst Hne wal Hb. unfold wal in *. clear wal.
  edestruct (replay_wal_prefix log) as (fuel&Hf&->); [exact Hb|done|]. clear Hf.
  set (b := log_layout log ++ _) in *.
  destruct (replay_frame_corrupt b (mkReplay (zlen (log_layout log))
              (apply_log (table_sequence, state) log).1 (zlen log)
              (apply_log (table_sequence, state) log).2) body stored) as [e He]; try done.
  { replace b with (log_layout log ++ (WAL_MAGIC ++ u64_to_be_bytes (zlen body + 4)
      ++ body ++ stored) ++ rest) by (unfold b; by rewrite <-!app_assoc). apply occurs_here. }
  assert (zlen (log_layout log) < zlen b) by (unfold b; rewrite !length_app; zlen_lia).
  destruct fuel as [|fuel]; cbn [replay_loop rp_cursor];
    (destruct (Z.ltb_spec (zlen (log_layout log)) (zlen b)); [|lia]); [eauto|].
  rewrite He. run. eauto.
Qed.

(** C3. Recovery terminates on every file: the loop, iterated without any bound, comes to
    the result of [replay_wal], and as many iterations as the file has bytes, or any
    larger number, are enough for it. *)
Theorem wal_replay_terminates wal table_sequence state fuel :
  (length wal <= fuel)%nat ->
  replay_runs wal (mkReplay 0 table_sequence 0 state) (replay_wal wal table_sequence state) /\
  replay_loop fuel wal (mkReplay 0 table_sequence 0 state) = replay_wal wal table_sequence state.
Proof.
  intros. split; [apply replay_loop_runs|apply replay_loop_enough]; cbn [rp_cursor]; lia.
Qed.

(** The buffer size computed before a request is queued is exactly the number of
    bytes its frame occupies in the log. *)
Theorem encoded_frame_capacity_exact sequence ops frame :
  frame_ok (sequence, ops) -> zlen (frame_layout sequence ops) <= U64_MAX ->
  encode_frame sequence ops = Ok frame -> encoded_frame_capacity ops = zlen frame.
Proof.
  intros Hok Hlen Henc. unfold encode_frame in Henc.
  rewrite encode_frame_into_layout in Henc by done. injection Henc as <-.
  change ([] ++ frame_layout sequence ops) with (frame_layout sequence ops).
  rewrite length_frame, length_body in *.
  assert (Hops : zlen (concat (operation_layout <$> ops)) <= U64_MAX - 32 ->
    foldr Z.add 0 (operation_capacity <$> ops) = zlen (concat (operation_layout <$> ops))).
  { clear. induction ops as [|op ops IH]; [done|]. cbn [fmap list_fmap foldr concat].
    rewrite length_app, Nat2Z.inj_add. intros Hl. rewrite IH by lia. f_equal.
    destruct op; cbn [operation_capacity operation_layout] in *; zlen_lia. }
  unfold encoded_frame_capacity. rewrite length_magic, Hops by lia.
  unfold u64_saturating_add. unfold_ints. lia.
Qed.
End properties.

(** ** Witnesses

    The properties at a concrete log, with the concrete checksum. *)

Section witnesses.
#[local] Existing Instance sample_crc32.

Definition sample_log : list (Z * list Operation) :=
  [(1, [Put [7] [9; 9]; Put [8] [1]]); (2, [Delete [8]])].
Definition sample_tail : bytes := take 30 (frame_layout 3 [Put [1] [2]]).

Lemma wal_recovery_witness :
  replay_wal (log_layout sample_log ++ sample_tail) 0 ∅
    = Ok (2, zlen (log_layout sample_log), 2, {[ [7] := [9; 9] ]}).
Proof.
  refine (wal_recovery sample_log sample_tail (log_layout sample_log) 0 ∅ _ _ _ _).
  - repeat constructor; cbn; unfold_ints; lia.
  - exists 3, [Put [1] [2]], (drop 30 (frame_layout 3 [Put [1] [2]])).
    split_and!; [split; cbn; unfold_ints; lia|vm_compute; discriminate|vm_compute; reflexivity|
      vm_compute; discriminate].
  - vm_compute. reflexivity.
  - vm_compute. discriminate.
Defined.

Lemma wal_corruption_rejected_witness :
  exists e, replay_wal (log_layout sample_log ++ WAL_MAGIC ++ u64_to_be_bytes 16
               ++ body_layout 3 [] ++ [0; 0; 0; 0] ++ [5]) 0 ∅ = Err e.
Proof.
  refine (wal_corruption_rejected sample_log (body_layout 3 []) [0; 0; 0; 0] [5] 0 ∅ _ _ _ _ _).
  - repeat constructor; cbn; unfold_ints; lia.
  - vm_compute. discriminate.
  - reflexivity.
  - vm_compute. discriminate.
  - vm_compute. discriminate.
Defined.

Lemma wal_replay_terminates_witness :
  replay_runs (log_layout sample_log) (mkReplay 0 0 0 ∅) (replay_wal (log_layout sample_log) 0 ∅) /\
  replay_loop 500 (log_layout sample_log) (mkReplay 0 0 0 ∅) = replay_wal (log_layout sample_log) 0 ∅.
Proof. refine (wal_replay_terminates (log_layout sample_log) 0 ∅ 500 _). vm_compute. lia. Defined.

Lemma encoded_frame_capacity_exact_witness :
  encoded_frame_capacity [Put [7] [9; 9]] = zlen (frame_layout 1 [Put [7] [9; 9]]).
Proof.
  refine (encoded_frame_capacity_exact 1 [Put [7] [9; 9]] _ _ _ _).
  - split; cbn; unfold_ints; lia.
  - vm_compute. discriminate.
  - vm_compute. reflexivity.
Defined.
End witnesses.
