(* ===== verification/Table.v ===== *)
(** * ThingDB: immutable sorted tables

    Models the table files of [crates/thingdb/src/lib.rs]: the writer
    [write_table], which groups records into checksummed blocks and appends a
    footer; the validating reader [read_table_index] / [read_table_metadata] /
    [validate_table_footer]; and the record readers used by point lookups and
    scans.  A file is its byte content; [Vec::with_capacity] hints are not
    modelled. *)

From S2P Require Import Prelude Wal.

Definition TABLE_MAGIC : bytes := str_bytes "TDBTAB01".
Definition TABLE_MAGIC_V2 : bytes := str_bytes "TDBTAB02".
Definition TABLE_MAGIC_V3 : bytes := str_bytes "TDBTAB03".
Definition TABLE_FOOTER_MAGIC : bytes := str_bytes "TDBFTR01".
Definition TABLE_WRITE_BUFFER_BYTES : Z := 64 * 1024.

Record TableIndexEntry := mkIndexEntry {
  ti_key : bytes;
  ti_offset : Z;
  ti_length : Z;
}.

Record TableBlock := mkBlock {
  tb_offset : Z;
  tb_length : Z;
  tb_first_key : bytes;
  tb_last_key : bytes;
  tb_checksum : Z;
}.

(** A table entry: [None] is a tombstone. *)
Abbreviation entry := (bytes * option bytes)%type.

(** The writer's local variables. *)
Record TableWriter := mkWriter {
  tw_file : bytes;
  tw_buffer : bytes;
  tw_first_key : option bytes;
  tw_last_key : option bytes;
  tw_block_offset : Z;
  tw_blocks : list TableBlock;
}.

Section table.
Context `{Crc32}.

Definition encode_record (e : entry) : tdb_result bytes :=
  record ← write_bytes [] e.1;
  record ← (match e.2 with
            | Some value => write_bytes (record ++ [1]) value
            | None => Ok (record ++ [2])
            end);
  Ok (write_u32 record (checksum record)).

(** Flush the buffered block to the file and describe it. *)
Definition push_block (w : TableWriter) : tdb_result TableWriter :=
  first_key ← ok_or (tw_first_key w) (message "ThingDB table block has no first key");
  last_key ← ok_or (tw_last_key w) (message "ThingDB table block has no last key");
  Ok {| tw_file := tw_file w ++ tw_buffer w;
        tw_buffer := [];
        tw_first_key := None;
        tw_last_key := None;
        tw_block_offset := u64_saturating_add (tw_block_offset w) (zlen (tw_buffer w));
        tw_blocks := tw_blocks w ++ [mkBlock (tw_block_offset w) (zlen (tw_buffer w))
                                       first_key last_key (checksum (tw_buffer w))] |}.

Definition write_entry (w : TableWriter) (e : entry) : tdb_result TableWriter :=
  record ← encode_record e;
  w ← (if (TABLE_WRITE_BUFFER_BYTES <? u64_saturating_add (zlen (tw_buffer w)) (zlen record))
          && negb (bool_decide (tw_buffer w = []))
       then push_block w else Ok w);
  Ok {| tw_file := tw_file w;
        tw_buffer := tw_buffer w ++ record;
        tw_first_key := match tw_first_key w with None => Some e.1 | k => k end;
        tw_last_key := Some e.1;
        tw_block_offset := tw_block_offset w;
        tw_blocks := tw_blocks w |}.

Definition write_footer_block (footer : bytes) (b : TableBlock) : tdb_result bytes :=
  let footer := footer ++ u64_to_be_bytes (tb_offset b) ++ u64_to_be_bytes (tb_length b) in
  footer ← write_bytes footer (tb_first_key b);
  footer ← write_bytes footer (tb_last_key b);
  Ok (write_u32 footer (tb_checksum b)).

(** The content of the file [write_table] creates; [file.sync_all] belongs to the
    file system. *)
Definition write_table (sequence : Z) (entries : bmap (option bytes)) : tdb_result bytes :=
  entry_count ← (if zlen (btree_iter entries) <=? U64_MAX then Ok (zlen (btree_iter entries))
                 else Err (message "too many entries in ThingDB table"));
  let w := mkWriter (TABLE_MAGIC_V3 ++ u64_to_be_bytes sequence ++ u64_to_be_bytes entry_count)
             [] None None (zlen TABLE_MAGIC_V3 + 16) [] in
  w ← fold_res write_entry w (btree_iter entries);
  w ← (if bool_decide (tw_buffer w = []) then Ok w else push_block w);
  let footer := TABLE_FOOTER_MAGIC ++ u64_to_be_bytes (zlen (tw_blocks w)) in
  footer ← fold_res write_footer_block footer (tw_blocks w);
  let footer := write_u32 footer (checksum footer) in
  Ok (tw_file w ++ footer).

(** ** Reading a table *)

Fixpoint read_footer_blocks (b : bytes) (footer_start : Z) (cursor : Z)
    (previous : option (Z * Z)) (block_count : nat) : tdb_result (list TableBlock * Z * option (Z * Z)) :=
  match block_count with
  | O => Ok ([], cursor, previous)
  | S block_count =>
      '(offset, cursor) ← read_u64 b cursor;
      '(length, cursor) ← read_u64 b cursor;
      '(first_key, cursor) ← read_bytes b cursor;
      '(last_key, cursor) ← read_bytes b cursor;
      '(block_checksum, cursor) ← read_u32 b cursor;
      block_end ← ok_or (u64_checked_add offset length)
                        (message "ThingDB table block range overflow");
      let data_start := zlen TABLE_MAGIC_V3 + 16 in
      if (offset <? data_start)
         || (footer_start <? block_end)
         || (match previous with Some (p, _) => offset <=? p | None => false end)
         || (match previous with Some (_, e) => negb (offset =? e) | None => false end)
         || key_ltb last_key first_key
      then Err (message "invalid ThingDB table block metadata") else
      data ← ok_or (slice b offset block_end) (message "slice out of range");
      if negb (checksum data =? block_checksum)
      then Err (message "ThingDB table block checksum mismatch") else
      '(blocks, cursor, previous) ←
        read_footer_blocks b footer_start cursor (Some (offset, block_end)) block_count;
      Ok (mkBlock offset length first_key last_key block_checksum :: blocks, cursor, previous)
  end.

Definition validate_table_footer (b : bytes) (footer_start : Z) : tdb_result (list TableBlock) :=
  let cursor := footer_start in
  if negb (bool_decide (slice b cursor (cursor + zlen TABLE_FOOTER_MAGIC) = Some TABLE_FOOTER_MAGIC))
  then Err (message "invalid ThingDB table footer") else
  let cursor := cursor + zlen TABLE_FOOTER_MAGIC in
  '(block_count, cursor) ← read_u64 b cursor;
  '(blocks, cursor, previous) ← read_footer_blocks b footer_start cursor None (Z.to_nat block_count);
  if (0 <? block_count) && negb (bool_decide (snd <$> previous = Some footer_start))
  then Err (message "ThingDB table blocks do not cover the data area") else
  '(stored_checksum, cursor) ← read_u32 b cursor;
  footer ← ok_or (slice b footer_start (cursor - 4)) (message "slice out of range");
  if negb (stored_checksum =? checksum footer)
  then Err (message "ThingDB table footer checksum mismatch") else
  if negb (cursor =? zlen b) then Err (message "trailing bytes after ThingDB table footer") else
  Ok blocks.

Fixpoint read_index_entries (b : bytes) (is_v2 is_v3 : bool) (cursor : Z) (count : nat)
    : tdb_result (list TableIndexEntry * Z) :=
  match count with
  | O => Ok ([], cursor)
  | S count =>
      if is_v3 && bool_decide (slice b cursor (cursor + zlen TABLE_FOOTER_MAGIC)
                               = Some TABLE_FOOTER_MAGIC)
      then Err (message "ThingDB table footer appears before all records") else
      let record_start := cursor in
      '(key, cursor) ← read_bytes b cursor;
      '(_, cursor) ←
        (if is_v2 then
           '(kind, cursor) ← read_byte b cursor;
           match kind with
           | 1 => '(value, cursor) ← read_bytes b cursor; Ok (Some value, cursor)
           | 2 => Ok (None, cursor)
           | _ => Err (message "invalid ThingDB table operation")
           end
         else '(value, cursor) ← read_bytes b cursor; Ok (Some value, cursor));
      let checksum_end := cursor in
      '(stored, cursor) ← read_u32 b cursor;
      data ← ok_or (slice b record_start checksum_end) (message "slice out of range");
      if negb (stored =? checksum data)
      then Err (message "ThingDB table checksum mismatch") else
      '(entries, cursor') ← read_index_entries b is_v2 is_v3 cursor count;
      Ok (mkIndexEntry key record_start (cursor - record_start) :: entries, cursor')
  end.

Definition read_table_index (b : bytes)
    : tdb_result (Z * list TableIndexEntry * bool * list TableBlock) :=
  let version := take (length TABLE_MAGIC) b in
  if (zlen b <? zlen TABLE_MAGIC + 16)
     || (negb (bool_decide (version = TABLE_MAGIC))
         && negb (bool_decide (version = TABLE_MAGIC_V2))
         && negb (bool_decide (version = TABLE_MAGIC_V3)))
  then Err (message "invalid ThingDB table") else
  let is_v2 := negb (bool_decide (version = TABLE_MAGIC)) in
  let is_v3 := bool_decide (version = TABLE_MAGIC_V3) in
  let cursor := zlen TABLE_MAGIC in
  '(sequence, cursor) ← read_u64 b cursor;
  '(count, cursor) ← read_u64 b cursor;
  '(entries, cursor) ← read_index_entries b is_v2 is_v3 cursor (Z.to_nat count);
  if windows2_any (fun e1 e2 => key_leb (ti_key e2) (ti_key e1)) entries
  then Err (message "ThingDB table keys are not strictly ordered") else
  if is_v3 then
    if bool_decide (slice b cursor (cursor + zlen TABLE_FOOTER_MAGIC) = Some TABLE_FOOTER_MAGIC)
    then blocks ← validate_table_footer b cursor; Ok (sequence, entries, is_v2, blocks)
    else Err (message "ThingDB table is missing its validated footer")
  else if negb (cursor =? zlen b) then Err (message "trailing bytes in ThingDB table")
  else Ok (sequence, entries, is_v2, []).

Definition read_table_metadata (b : bytes)
    : tdb_result (Z * list TableIndexEntry * bool * list TableBlock) :=
  let version := take (length TABLE_MAGIC) b in
  if (zlen b <? zlen TABLE_MAGIC + 16)
     || (negb (bool_decide (version = TABLE_MAGIC))
         && negb (bool_decide (version = TABLE_MAGIC_V2))
         && negb (bool_decide (version = TABLE_MAGIC_V3)))
  then Err (message "invalid ThingDB table") else
  '(sequence, _) ← read_u64 b (zlen TABLE_MAGIC);
  if negb (bool_decide (version = TABLE_MAGIC_V3)) then read_table_index b else
  '(_, _, _, blocks) ← read_table_index b;
  Ok (sequence, [], true, blocks).

(** ** Reading records *)

(** The [value] part shared by the record decoders of format 2 and later. *)
Definition decode_value (b : bytes) (cursor : Z) (is_v2 : bool) : tdb_result (option bytes * Z) :=
  if negb is_v2 then '(value, cursor) ← read_bytes b cursor; Ok (Some value, cursor)
  else if bool_decide (slice b cursor (cursor + 1) = Some [1]) then
    '(value, cursor) ← read_bytes b (cursor + 1); Ok (Some value, cursor)
  else if bool_decide (slice b cursor (cursor + 1) = Some [2]) then Ok (None, cursor + 1)
  else Err (message "invalid ThingDB table operation").

Definition decode_table_value (b : bytes) (e : TableIndexEntry) (is_v2 : bool)
    : tdb_result (option bytes) :=
  '(key, cursor) ← read_bytes b 0;
  if negb (bool_decide (key = ti_key e)) then Err (message "ThingDB table index key mismatch") else
  '(value, cursor) ← decode_value b cursor is_v2;
  let checksum_offset := cursor in
  '(stored, cursor) ← read_u32 b cursor;
  data ← ok_or (slice b 0 checksum_offset) (message "slice out of range");
  if negb (stored =? checksum data) then Err (message "ThingDB table checksum mismatch") else
  if negb (cursor =? zlen b) then Err (message "trailing bytes in ThingDB table record") else
  Ok value.

(** [file.read_exact_at(&mut bytes, offset)]. *)
Definition read_exact_at (file : bytes) (offset length : Z) : tdb_result bytes :=
  ok_or (slice file offset (offset + length)) (message "failed to fill whole buffer").

Definition read_table_value_handle (file : bytes) (e : TableIndexEntry) (is_v2 : bool)
    : tdb_result (option bytes) :=
  b ← read_exact_at file (ti_offset e) (ti_length e);
  decode_table_value b e is_v2.

(** A block read from the file when the block cache does not hold it. *)
Definition read_table_block (file : bytes) (block : TableBlock) : tdb_result bytes :=
  b ← read_exact_at file (tb_offset block) (tb_length block);
  if negb (checksum b =? tb_checksum block)
  then Err (message "ThingDB table block checksum mismatch") else Ok b.

Record TableScanRecord := mkScanRecord {
  sr_key : bytes;
  sr_value : option bytes;
  sr_priority : Z;
}.

(** [while cursor < bytes.len()]; a record takes more than one byte, so the
    length of the block bounds the iterations. *)
Fixpoint decode_block_records (fuel : nat) (b : bytes) (include_values : bool)
    (cursor : Z) (last : option bytes) : tdb_result (list TableScanRecord) :=
  if cursor <? zlen b then
    match fuel with
    | O => Err (message "block fuel exhausted")
    | S fuel =>
        let record_start := cursor in
        '(key, cursor) ← read_bytes b cursor;
        '(kind, cursor) ← read_byte b cursor;
        '(value, cursor) ←
          (match kind with
           | 1 => if include_values
                  then '(value, cursor) ← read_bytes b cursor; Ok (Some value, cursor)
                  else cursor ← skip_bytes b cursor; Ok (Some [], cursor)
           | 2 => Ok (None, cursor)
           | _ => Err (message "invalid ThingDB table operation")
           end);
        let checksum_end := cursor in
        '(stored, cursor) ← read_u32 b cursor;
        data ← ok_or (slice b record_start checksum_end) (message "slice out of range");
        if negb (stored =? checksum data)
        then Err (message "ThingDB table checksum mismatch") else
        if match last with Some k => key_leb key k | None => false end
        then Err (message "ThingDB table block keys are not strictly ordered") else
        records ← decode_block_records fuel b include_values cursor (Some key);
        Ok (mkScanRecord key value 0 :: records)
    end
  else Ok [].

Definition read_table_block_records (file : bytes) (block : TableBlock) (include_values : bool)
    : tdb_result (list TableScanRecord) :=
  b ← read_table_block file block;
  records ← decode_block_records (length b) b include_values 0 None;
  if negb (bool_decide (sr_key <$> head records = Some (tb_first_key block)))
     || negb (bool_decide (sr_key <$> last records = Some (tb_last_key block)))
  then Err (message "ThingDB table block key range does not match its index")
  else Ok records.

Definition read_table_block_entry_value (file : bytes) (block : TableBlock) (e : TableIndexEntry)
    : tdb_result (option bytes) :=
  b ← read_table_block file block;
  offset ← ok_or (if ti_offset e <? tb_offset block then None
                  else Some (ti_offset e - tb_offset block))
                 (message "ThingDB table index precedes its block");
  stop ← ok_or (u64_checked_add offset (ti_length e))
               (message "ThingDB table record range overflow");
  record ← ok_or (slice b offset stop)
                 (message "ThingDB table index record is outside its block");
  '(key, cursor) ← read_bytes record 0;
  if negb (bool_decide (key = ti_key e)) then Err (message "ThingDB table index key mismatch") else
  '(kind, cursor) ← read_byte record cursor;
  '(value, cursor) ←
    (match kind with
     | 1 => '(value, cursor) ← read_bytes record cursor; Ok (Some value, cursor)
     | 2 => Ok (None, cursor)
     | _ => Err (message "invalid ThingDB table operation")
     end);
  let checksum_end := cursor in
  '(stored, cursor) ← read_u32 record cursor;
  data ← ok_or (slice record 0 checksum_end) (message "slice out of range");
  if negb (stored =? checksum data) then Err (message "ThingDB table checksum mismatch") else
  if negb (cursor =? zlen record) then Err (message "trailing bytes in ThingDB table record") else
  Ok value.
End table.

(** ** The layout of a table file *)

Section layout.
Context `{Crc32}.

Definition record_body (e : entry) : bytes :=
  bytes_layout e.1 ++ match e.2 with Some v => [1] ++ bytes_layout v | None => [2] end.
Definition record_layout (e : entry) : bytes :=
  record_body e ++ u32_to_be_bytes (checksum (record_body e)).
Definition records_layout (es : list entry) : bytes := concat (record_layout <$> es).

Definition header_layout (sequence count : Z) : bytes :=
  TABLE_MAGIC_V3 ++ u64_to_be_bytes sequence ++ u64_to_be_bytes count.

(** The block that holds the records [c] at offset [off]. *)
Definition chunk_block (off : Z) (c : list entry) : TableBlock :=
  mkBlock off (zlen (records_layout c)) (default [] (fst <$> head c)) (default [] (fst <$> last c))
    (checksum (records_layout c)).

Fixpoint chunk_blocks (off : Z) (chunks : list (list entry)) : list TableBlock :=
  match chunks with
  | [] => []
  | c :: chunks => chunk_block off c :: chunk_blocks (off + zlen (records_layout c)) chunks
  end.

Definition footer_block_layout (b : TableBlock) : bytes :=
  u64_to_be_bytes (tb_offset b) ++ u64_to_be_bytes (tb_length b)
    ++ bytes_layout (tb_first_key b) ++ bytes_layout (tb_last_key b)
    ++ u32_to_be_bytes (tb_checksum b).
Definition footer_body (blocks : list TableBlock) : bytes :=
  TABLE_FOOTER_MAGIC ++ u64_to_be_bytes (zlen blocks) ++ concat (footer_block_layout <$> blocks).
Definition footer_layout (blocks : list TableBlock) : bytes :=
  footer_body blocks ++ u32_to_be_bytes (checksum (footer_body blocks)).

Definition table_layout (sequence : Z) (chunks : list (list entry)) : bytes :=
  header_layout sequence (zlen (concat chunks)) ++ records_layout (concat chunks)
    ++ footer_layout (chunk_blocks 24 chunks).

(** The positions at which the records [es] start. *)
Fixpoint index_layout (off : Z) (es : list entry) : list TableIndexEntry :=
  match es with
  | [] => []
  | e :: es => mkIndexEntry e.1 off (zlen (record_layout e))
                 :: index_layout (off + zlen (record_layout e)) es
  end.

(** Tables far below the 64-bit limits; 2^60 bytes of records. *)
Definition table_limit : Z := 2 ^ 60.

Lemma length_record e :
  zlen (record_layout e) = 13 + zlen e.1 + match e.2 with Some v => 8 + zlen v | None => 0 end.
Proof.
  unfold record_layout, record_body. destruct e as [k [v|]]; cbn [fst snd];
    rewrite !length_app, !Nat2Z.inj_add, !length_bytes_layout, length_u32; cbn [length]; lia.
Qed.

Lemma records_app es1 es2 :
  records_layout (es1 ++ es2) = records_layout es1 ++ records_layout es2.
Proof. unfold records_layout. by rewrite fmap_app, concat_app. Qed.

Lemma records_cons e es : records_layout (e :: es) = record_layout e ++ records_layout es.
Proof. reflexivity. Qed.

Lemma records_single e : records_layout [e] = record_layout e.
Proof. unfold records_layout. cbn [fmap list_fmap concat]. apply app_nil_r. Qed.

Lemma records_nil_inv es : records_layout es = [] -> es = [].
Proof.
  destruct es as [|e es]; [done|]. intros Hz. apply (f_equal (fun l => zlen l)) in Hz.
  rewrite records_cons, length_app, Nat2Z.inj_add, length_record in Hz. cbn [length] in Hz.
  destruct (e.2); lia.
Qed.

Lemma chunk_blocks_app off c1 c2 :
  chunk_blocks off (c1 ++ c2) =
    chunk_blocks off c1 ++ chunk_blocks (off + zlen (records_layout (concat c1))) c2.
Proof.
  revert off. induction c1 as [|c c1 IH]; intros off; cbn [app chunk_blocks concat].
  { by rewrite Z.add_0_r. }
  rewrite IH, records_app, length_app, Nat2Z.inj_add, Z.add_assoc. done.
Qed.

Lemma length_chunk_blocks off chunks : length (chunk_blocks off chunks) = length chunks.
Proof. revert off; induction chunks; intros; cbn; auto. Qed.
End layout.

#[export] Hint Rewrite @length_record @records_app @records_cons : zlen.

(** ** The writer produces the layout *)

Section writer.
Context `{Crc32}.

Lemma encode_record_layout e :
  zlen (record_layout e) <= U64_MAX -> encode_record e = Ok (record_layout e).
Proof.
  intros Hl. rewrite length_record in Hl. unfold encode_record.
  rewrite write_bytes_layout by (destruct (e.2); lia). run.
  unfold write_u32, record_layout, record_body. destruct (e.2) as [v|]; run; [|done].
  rewrite write_bytes_layout by lia. run. by rewrite <-!app_assoc.
Qed.

Definition writer_inv (header : bytes) (done : list entry) (w : TableWriter) : Prop :=
  exists chunks cur,
    done = concat chunks ++ cur /\ Forall (fun c => c <> []) chunks /\
    w = mkWriter (header ++ records_layout (concat chunks)) (records_layout cur)
          (fst <$> head cur) (fst <$> last cur)
          (24 + zlen (records_layout (concat chunks))) (chunk_blocks 24 chunks).

Lemma push_block_inv header chunks cur :
  cur <> [] -> zlen (records_layout (concat chunks ++ cur)) <= table_limit ->
  push_block (mkWriter (header ++ records_layout (concat chunks)) (records_layout cur)
          (fst <$> head cur) (fst <$> last cur)
          (24 + zlen (records_layout (concat chunks))) (chunk_blocks 24 chunks)) =
  Ok (mkWriter (header ++ records_layout (concat (chunks ++ [cur]))) [] None None
        (24 + zlen (records_layout (concat (chunks ++ [cur])))) (chunk_blocks 24 (chunks ++ [cur]))).
Proof.
  intros Hcur Hl. unfold push_block. cbn [tw_first_key tw_last_key tw_file tw_buffer tw_block_offset tw_blocks].
  rewrite records_app, length_app in Hl. unfold table_limit in Hl.
  rewrite chunk_blocks_app, concat_app. cbn [concat chunk_blocks]. rewrite app_nil_r, records_app.
  unfold chunk_block.
  destruct (head cur) as [[hk hv]|] eqn:Hh; [|by destruct cur].
  destruct (last cur) as [[lk lv]|] eqn:Hla; [|by apply last_None in Hla].
  run. cbn [default]. f_equal. f_equal.
  - by rewrite <-app_assoc.
  - rewrite length_app. unfold u64_saturating_add, U64_MAX. lia.
Qed.

Lemma write_entry_inv header done w e :
  zlen (records_layout (done ++ [e])) <= table_limit -> writer_inv header done w ->
  exists w', write_entry w e = Ok w' /\ writer_inv header (done ++ [e]) w'.
Proof.
  intros Hl (chunks&cur&->&Hne&->). unfold write_entry.
  rewrite records_app, length_app, records_single in Hl.
  rewrite encode_record_layout by (unfold table_limit, U64_MAX in *; lia). run.
  cbn [tw_buffer].
  destruct (_ && _) eqn:Hpush.
  - apply andb_true_iff in Hpush as [_ Hpush]. rewrite negb_true_iff, bool_decide_eq_false in Hpush.
    assert (Hcur : cur <> []) by (by intros ->).
    rewrite push_block_inv by (done || lia). run. eexists. split; [done|].
    exists (chunks ++ [cur]), [e]. split_and!.
    + rewrite concat_app. cbn [concat]. by rewrite app_nil_r.
    + apply Forall_app; split; [done|]. by constructor.
    + cbn [tw_file tw_buffer tw_first_key tw_last_key tw_block_offset tw_blocks].
      by rewrite records_single.
  - run. eexists. split; [done|]. exists chunks, (cur ++ [e]). split_and!; [by rewrite app_assoc|done|].
    cbn [tw_file tw_buffer tw_first_key tw_last_key tw_block_offset tw_blocks].
    rewrite records_app, records_single, last_snoc. by destruct cur as [|[k v] cur].
Qed.

Lemma write_entries_inv header es done w :
  zlen (records_layout (done ++ es)) <= table_limit -> writer_inv header done w ->
  exists w', fold_res write_entry w es = Ok w' /\ writer_inv header (done ++ es) w'.
Proof.
  revert done w. induction es as [|e es IH]; intros done w Hl Hinv; cbn [fold_res].
  { exists w. by rewrite app_nil_r. }
  replace (done ++ e :: es) with ((done ++ [e]) ++ es) in * by (by rewrite <-app_assoc).
  destruct (write_entry_inv header done w e) as (w1&->&Hinv1); [|done|].
  { rewrite records_app, length_app in Hl. lia. }
  run. by apply IH.
Qed.

Definition footer_fits (b : TableBlock) : Prop :=
  zlen (tb_first_key b) <= U64_MAX /\ zlen (tb_last_key b) <= U64_MAX.

Lemma write_footer_layout footer blocks :
  Forall footer_fits blocks ->
  fold_res write_footer_block footer blocks = Ok (footer ++ concat (footer_block_layout <$> blocks)).
Proof.
  intros Hf. revert footer. induction Hf as [|b blocks [H1 H2] Hbs IH]; intros footer;
    cbn [fold_res fmap list_fmap concat]; [by rewrite app_nil_r|].
  unfold write_footer_block. rewrite write_bytes_layout by done. run.
  rewrite write_bytes_layout by done. run. rewrite IH. unfold write_u32, footer_block_layout.
  by rewrite <-!app_assoc.
Qed.
End writer.

Section write_read.
Context `{Crc32}.

Lemma zlen_in_records e es : e ∈ es -> zlen (record_layout e) <= zlen (records_layout es).
Proof.
  intros (l1&l2&->)%list_elem_of_split. rewrite records_app, records_cons, !length_app. lia.
Qed.

Lemma chunk_keys_bound off chunks L :
  zlen (records_layout (concat chunks)) <= L ->
  Forall (fun b => zlen (tb_first_key b) <= L /\ zlen (tb_last_key b) <= L) (chunk_blocks off chunks).
Proof.
  revert off. induction chunks as [|c chunks IH]; intros off Hl; cbn [chunk_blocks]; constructor.
  - cbn [concat] in Hl. rewrite records_app, length_app in Hl.
    unfold chunk_block; cbn [tb_first_key tb_last_key]. split.
    + destruct (head c) as [e|] eqn:Hh; cbn; [|lia].
      assert (e ∈ c) as Hin by (destruct c; simplify_eq/=; left).
      pose proof (zlen_in_records _ _ Hin) as Hz. rewrite length_record in Hz.
      destruct (e.2); lia.
    + destruct (last c) as [e|] eqn:Hh; cbn; [|lia].
      assert (e ∈ c) as Hin by (by apply last_Some_elem_of).
      pose proof (zlen_in_records _ _ Hin) as Hz. rewrite length_record in Hz.
      destruct (e.2); lia.
  - apply IH. cbn [concat] in Hl. rewrite records_app, length_app in Hl. lia.
Qed.

Lemma write_table_layout sequence m :
  zlen (records_layout (btree_iter m)) <= table_limit ->
  exists chunks,
    concat chunks = btree_iter m /\ Forall (fun c => c <> []) chunks /\
    write_table sequence m = Ok (table_layout sequence chunks).
Proof.
  intros Hl. unfold write_table.
  assert (Hcount : zlen (btree_iter m) <= zlen (records_layout (btree_iter m))).
  { generalize (btree_iter m) as es. clear. intros es. induction es as [|e es IH]; [done|].
    rewrite records_cons, length_app, Nat2Z.inj_add, length_record. cbn [length].
    destruct (e.2); lia. }
  destruct (Z.leb_spec (zlen (btree_iter m)) U64_MAX); [|unfold table_limit, U64_MAX in *; lia]. run.
  set (header := TABLE_MAGIC_V3 ++ _).
  destruct (write_entries_inv header (btree_iter m) []
              (mkWriter header [] None None 24 [])) as (w&Hw&(chunks&cur&Hdone&Hne&->)).
  { done. }
  { exists [], []. split_and!; [done|done|]. by rewrite app_nil_r. }
  change (zlen TABLE_MAGIC_V3 + 16) with 24. rewrite Hw. run. clear Hw. cbn [tw_buffer].
  cbn [app] in Hdone. rewrite Hdone in Hl.
  assert (exists chunks', concat chunks' = btree_iter m /\ Forall (fun c => c <> []) chunks' /\
    forall k : TableWriter -> tdb_result bytes,
    ((if bool_decide (records_layout cur = []) then
       Ok (mkWriter (header ++ records_layout (concat chunks)) (records_layout cur)
          (fst <$> head cur) (fst <$> last cur)
          (24 + zlen (records_layout (concat chunks))) (chunk_blocks 24 chunks))
      else push_block (mkWriter (header ++ records_layout (concat chunks)) (records_layout cur)
          (fst <$> head cur) (fst <$> last cur)
          (24 + zlen (records_layout (concat chunks))) (chunk_blocks 24 chunks))) ≫= k) =
    k (mkWriter (header ++ records_layout (concat chunks')) [] None None
        (24 + zlen (records_layout (concat chunks'))) (chunk_blocks 24 chunks')))
    as (chunks'&Hc'&Hne'&Hk).
  { destruct (bool_decide_reflect (records_layout cur = [])) as [Hcur|Hcur].
    - pose proof (records_nil_inv _ Hcur) as ->. rewrite app_nil_r in Hdone.
      exists chunks. split_and!; done.
    - assert (cur <> []) by (by intros ->). exists (chunks ++ [cur]). split_and!.
      + rewrite concat_app. cbn [concat]. by rewrite app_nil_r.
      + apply Forall_app; split; [done|]. by constructor.
      + intros k. by rewrite push_block_inv. }
  rewrite Hk. cbn [tw_blocks tw_file]. exists chunks'. split_and!; [done|done|].
  rewrite write_footer_layout.
  2: { eapply Forall_impl; [apply (chunk_keys_bound 24 chunks' table_limit)|].
       - rewrite Hc', Hdone. done.
       - intros b. unfold footer_fits, table_limit, U64_MAX. lia. }
  run. unfold table_layout, header_layout, footer_layout, footer_body, write_u32. subst header.
  rewrite Hc'. by rewrite <-!app_assoc.
Qed.

(** *** The reader on the layout *)

Lemma footer_magic_not_length n : 0 <= n <= table_limit -> u64_to_be_bytes n <> TABLE_FOOTER_MAGIC.
Proof.
  intros Hn Heq. apply (f_equal from_be_bytes) in Heq.
  rewrite from_be_u64 in Heq by (unfold table_limit, U64_MAX in *; lia).
  subst n. unfold table_limit in Hn. vm_compute in Hn. by destruct Hn.
Qed.

Lemma chunk_keys_ordered off (c : list entry) :
  c <> [] -> StronglySorted key_lt c.*1 ->
  key_ltb (tb_last_key (chunk_block off c)) (tb_first_key (chunk_block off c)) = false.
Proof.
  intros Hc Hsort. apply key_ltb_false. unfold chunk_block; cbn [tb_first_key tb_last_key].
  destruct c as [|e c]; [done|]. cbn [head fmap option_fmap option_map default].
  destruct (last (e :: c)) as [e'|] eqn:Hlast; [|by apply last_None in Hlast].
  cbn [default]. apply last_Some_elem_of in Hlast. apply elem_of_cons in Hlast as [->|Hin]; [by right|].
  left. cbn [fmap list_fmap] in Hsort. apply StronglySorted_inv in Hsort as [_ Hall].
  rewrite Forall_forall in Hall. apply Hall. apply list_elem_of_fmap. by exists e'.
Qed.

Lemma records_layout_pos (c : list entry) : c <> [] -> 0 < zlen (records_layout c).
Proof.
  destruct c as [|e c]; [done|]. rewrite records_cons, length_app, Nat2Z.inj_add, length_record.
  destruct (e.2); lia.
Qed.

(** A block that starts where the previous one ended passes the order checks. *)
Lemma footer_contiguous (prev : option (Z * Z)) off :
  match prev with Some (p, e) => p < off /\ e = off | None => True end ->
  (match prev with Some (p, _) => off <=? p | None => false end)
    || (match prev with Some (_, e) => negb (off =? e) | None => false end) = false.
Proof.
  destruct prev as [[p e]|]; [|done]. intros [Hp ->]. rewrite Z.eqb_refl. destruct (Z.leb_spec off p); [lia|done].
Qed.

Section reader.
Context (b : bytes) (Hb : zlen b <= U64_MAX).

Lemma read_index_entries_occurs cur es :
  zlen (records_layout es) <= table_limit ->
  occurs b cur (records_layout es) ->
  read_index_entries b true true cur (length es) =
    Ok (index_layout cur es, cur + zlen (records_layout es)).
Proof.
  revert cur. induction es as [|e es IH]; intros cur Hl Ho; cbn [read_index_entries length index_layout].
  { cbn. by rewrite Z.add_0_r. }
  rewrite records_cons in Ho. apply occurs_app in Ho as [He Hes].
  rewrite records_cons, length_app, Nat2Z.inj_add in *.
  pose proof (length_record e) as Hle.
  unfold record_layout in He. apply occurs_app in He as [Hbody Hcrc].
  pose proof Hbody as Hparts. unfold record_body in Hparts. apply occurs_app in Hparts as [Hk Hv].
  assert (Hmagic : slice b cur (cur + zlen TABLE_FOOTER_MAGIC) <> Some TABLE_FOOTER_MAGIC).
  { unfold bytes_layout in Hk. apply occurs_app in Hk as [Hk _].
    replace (zlen TABLE_FOOTER_MAGIC) with (zlen (u64_to_be_bytes (zlen e.1)))
      by (rewrite length_u64; reflexivity).
    rewrite Hk. intros Heq%(inj Some). revert Heq. apply footer_magic_not_length. destruct (e.2); lia. }
  rewrite bool_decide_false by done. cbn [andb].
  rewrite (read_bytes_occurs b Hb _ _ Hk). run.
  assert (Hval : forall k : option bytes * Z -> tdb_result (list TableIndexEntry * Z),
    (('(kind, cursor) ← read_byte b (cur + zlen (bytes_layout e.1));
         match kind with
         | 1 => '(value, cursor) ← read_bytes b cursor; Ok (Some value, cursor)
         | 2 => Ok (None, cursor)
         | _ => Err (message "invalid ThingDB table operation")
         end) ≫= k) = k (e.2, cur + zlen (record_body e))).
  { intros k. unfold record_body. rewrite length_app, Nat2Z.inj_add.
    destruct (e.2) as [v|].
    - apply occurs_app in Hv as [Ht Hv]. change (zlen [1]) with 1 in *.
      rewrite (read_byte_occurs _ _ _ Ht). run. rewrite (read_bytes_occurs b Hb _ _ Hv). run.
      f_equal. f_equal. rewrite length_app. cbn [length]. lia.
    - rewrite (read_byte_occurs _ _ _ Hv). run. f_equal. f_equal. cbn [length]. lia. }
  rewrite Hval. cbv beta iota. rewrite (read_u32_occurs b Hb _ (checksum (record_body e)));
    [|apply crc32_range|done]. run.
  rewrite (occurs_slice _ _ _ _ Hbody eq_refl). run. rewrite Z.eqb_refl. cbn [negb].
  assert (Hlr : zlen (record_layout e) = zlen (record_body e) + 4)
    by (unfold record_layout; rewrite length_app, Nat2Z.inj_add, length_u32; done).
  replace (cur + zlen (record_body e) + 4) with (cur + zlen (record_layout e)) by lia.
  rewrite IH by (done || lia). run.
  replace (cur + zlen (record_layout e) - cur) with (zlen (record_layout e)) by lia.
  rewrite Z.add_assoc. done.
Qed.

Lemma read_footer_blocks_occurs fs cur off prev chunks :
  24 <= off -> off + zlen (records_layout (concat chunks)) = fs ->
  zlen (records_layout (concat chunks)) <= table_limit ->
  match prev with Some (p, e) => p < off /\ e = off | None => True end ->
  Forall (fun c => c <> []) chunks -> StronglySorted key_lt (concat chunks).*1 ->
  occurs b off (records_layout (concat chunks)) ->
  occurs b cur (concat (footer_block_layout <$> chunk_blocks off chunks)) ->
  exists prev',
    read_footer_blocks b fs cur prev (length chunks) =
      Ok (chunk_blocks off chunks,
          cur + zlen (concat (footer_block_layout <$> chunk_blocks off chunks)), prev') /\
    match chunks with [] => prev' = prev | _ => snd <$> prev' = Some fs end.
Proof.
  revert cur off prev. induction chunks as [|c chunks IH];
    intros cur off prev Hoff Hfs Hl Hprev Hne Hsort Hdata Hfoot.
  { exists prev. cbn. by rewrite Z.add_0_r. }
  cbn [concat] in Hfs, Hl, Hdata, Hsort. rewrite records_app in Hdata.
  apply occurs_app in Hdata as [Hc Hdata]. rewrite records_app, length_app, Nat2Z.inj_add in *.
  rewrite fmap_app in Hsort. apply Forall_cons in Hne as [Hcne Hne].
  cbn [chunk_blocks length read_footer_blocks].
  cbn [chunk_blocks fmap list_fmap concat] in Hfoot. apply occurs_app in Hfoot as [Hblk Hfoot].
  pose proof (occurs_bounds _ _ _ Hc) as [_ Hcb].
  pose proof (chunk_keys_bound off (c :: chunks) (zlen (records_layout (c ++ concat chunks)))
                ltac:(done)) as Hkb.
  apply Forall_cons in Hkb as [Hkb _]. rewrite records_app, length_app, Nat2Z.inj_add in Hkb.
  set (blk := chunk_block off c) in *.
  assert (Hblk' := Hblk). unfold footer_block_layout in Hblk'.
  apply occurs_app in Hblk' as [Ho1 Hblk']. apply occurs_app in Hblk' as [Ho2 Hblk'].
  apply occurs_app in Hblk' as [Ho3 Hblk']. apply occurs_app in Hblk' as [Ho4 Ho5].
  rewrite !length_u64 in *.
  change (tb_offset blk) with off in *. change (tb_length blk) with (zlen (records_layout c)) in *.
  change (tb_checksum blk) with (checksum (records_layout c)) in *.
  rewrite (read_u64_occurs b Hb _ off) by (done || (unfold table_limit, U64_MAX in *; lia)). run.
  rewrite (read_u64_occurs b Hb _ (zlen (records_layout c))) by (done || lia). run.
  rewrite (read_bytes_occurs b Hb _ _ Ho3). run. rewrite (read_bytes_occurs b Hb _ _ Ho4). run.
  rewrite (read_u32_occurs b Hb _ (checksum (records_layout c)) (crc32_range _)) by done. run.
  unfold u64_checked_add. destruct (Z.leb_spec (off + zlen (records_layout c)) U64_MAX); [|lia].
  run. change (zlen TABLE_MAGIC_V3 + 16) with 24.
  pose proof (records_layout_pos c Hcne). pose proof Hsort as (_&Hsc&Hsort')%StronglySorted_app.
  rewrite (chunk_keys_ordered off c Hcne Hsc : key_ltb (tb_last_key blk) (tb_first_key blk) = false), orb_false_r.
  destruct (Z.ltb_spec off 24); [lia|].
  destruct (Z.ltb_spec fs (off + zlen (records_layout c))); [lia|].
  cbn [orb]. rewrite (footer_contiguous prev off Hprev).
  rewrite (occurs_slice _ _ _ _ Hc eq_refl). run. rewrite Z.eqb_refl. cbn [negb].
  edestruct (IH (cur + zlen (footer_block_layout blk)) (off + zlen (records_layout c))
              (Some (off, off + zlen (records_layout c)))) as (prev'&Hread&Hlast);
    [lia|lia|lia|cbn; lia|done|done|done|done|].
  exists prev'.
  replace (cur + 8 + 8 + zlen (bytes_layout (tb_first_key blk))
           + zlen (bytes_layout (tb_last_key blk)) + 4)
    with (cur + zlen (footer_block_layout blk))
    by (unfold footer_block_layout; rewrite !length_app, !Nat2Z.inj_add, !length_u64, length_u32; lia).
  rewrite Hread. run. split.
  - cbn [fmap list_fmap concat]. rewrite length_app, Nat2Z.inj_add, Z.add_assoc. done.
  - destruct chunks; [|done]. subst prev'. cbn in Hfs |- *. f_equal. lia.
Qed.
End reader.

Lemma footer_size off chunks :
  Forall (fun c => c <> []) chunks ->
  zlen (concat (footer_block_layout <$> chunk_blocks off chunks))
    <= 3 * zlen (records_layout (concat chunks)).
Proof.
  intros Hne. revert off. induction Hne as [|c chunks Hc Hne IH]; intros off; [done|].
  cbn [chunk_blocks fmap list_fmap concat]. rewrite records_app, !length_app, !Nat2Z.inj_add.
  specialize (IH (off + zlen (records_layout c))). change (list_fmap TableBlock bytes footer_block_layout)
    with (fmap (M:=list) footer_block_layout) in *.
  pose proof (chunk_keys_bound off [c] (zlen (records_layout c))) as Hkb.
  cbn [concat] in Hkb. rewrite app_nil_r in Hkb. specialize (Hkb ltac:(done)).
  assert (forall e, e ∈ c -> 13 + zlen e.1 <= zlen (records_layout c)) as Hrec.
  { intros e Hin%zlen_in_records. rewrite length_record in Hin. destruct (e.2); lia. }
  assert (zlen (footer_block_layout (chunk_block off c)) <= 3 * zlen (records_layout c)); [|lia].
  unfold footer_block_layout, chunk_block; cbn [tb_offset tb_length tb_first_key tb_last_key tb_checksum].
  destruct c as [|e c]; [done|]. cbn [head fmap option_fmap option_map default].
  destruct (last (e :: c)) as [e'|] eqn:Hlast; [|by apply last_None in Hlast]. cbn [fmap option_fmap option_map from_option id].
  pose proof (Hrec e ltac:(left)). pose proof (Hrec e' (last_Some_elem_of _ _ Hlast)).
  rewrite !length_app, !Nat2Z.inj_add, !length_u64, !length_bytes_layout, length_u32. lia.
Qed.

Lemma length_table_layout sequence chunks :
  Forall (fun c => c <> []) chunks -> zlen (records_layout (concat chunks)) <= table_limit ->
  zlen (table_layout sequence chunks) <= U64_MAX.
Proof.
  intros Hne Hl. pose proof (footer_size 24 chunks Hne).
  unfold table_layout, header_layout, footer_layout, footer_body.
  rewrite !length_app, !Nat2Z.inj_add, !length_u64, length_u32.
  change (zlen TABLE_MAGIC_V3) with 8. change (zlen TABLE_FOOTER_MAGIC) with 8.
  unfold table_limit, U64_MAX in *. lia.
Qed.

Lemma index_layout_keys off es : ti_key <$> index_layout off es = es.*1.
Proof. revert off. induction es as [|e es IH]; intros off; cbn; [done|]. f_equal. apply IH. Qed.

Lemma validate_table_footer_layout b fs chunks :
  zlen b <= U64_MAX -> fs = 24 + zlen (records_layout (concat chunks)) ->
  zlen (records_layout (concat chunks)) <= table_limit ->
  Forall (fun c => c <> []) chunks -> StronglySorted key_lt (concat chunks).*1 ->
  occurs b 24 (records_layout (concat chunks)) ->
  occurs b fs (footer_layout (chunk_blocks 24 chunks)) ->
  zlen b = fs + zlen (footer_layout (chunk_blocks 24 chunks)) ->
  validate_table_footer b fs = Ok (chunk_blocks 24 chunks).
Proof.
  intros Hb Hfs Hl Hne Hsort Hdata Ho Hend. unfold footer_layout in Ho.
  apply occurs_app in Ho as [Hbody Hcrc]. pose proof Hbody as Hparts.
  unfold footer_body in Hparts.
  apply occurs_app in Hparts as [Hmagic Hparts]. apply occurs_app in Hparts as [Hcount Hblocks].
  change (zlen TABLE_FOOTER_MAGIC) with 8 in *. rewrite length_u64 in *.
  rewrite length_chunk_blocks in Hcount.
  unfold validate_table_footer. change (zlen TABLE_FOOTER_MAGIC) with 8.
  rewrite (occurs_slice _ _ _ (fs + 8) Hmagic eq_refl), bool_decide_true by done. cbn [negb].
  assert (zlen chunks <= zlen (records_layout (concat chunks))).
  { clear -Hne. induction Hne as [|c chunks Hc Hne IH]; [done|]. cbn [concat length].
    rewrite records_app, length_app. destruct c as [|e c]; [done|].
    rewrite records_cons, length_app, !Nat2Z.inj_add, length_record. destruct (e.2); lia. }
  rewrite (read_u64_occurs b Hb _ (zlen chunks)) by (done || (unfold table_limit, U64_MAX in *; lia)).
  run. rewrite Nat2Z.id.
  destruct (read_footer_blocks_occurs b Hb fs (fs + 8 + 8) 24 None chunks) as (prev&->&Hprev);
    [lia|lia|done|done|done|done|done|done|]. run.
  assert (Hcov : (0 <? zlen chunks) && negb (bool_decide (snd <$> prev = Some fs)) = false).
  { destruct chunks; [done|]. rewrite bool_decide_true by done. apply andb_false_r. }
  rewrite Hcov.
  assert (Hbl : zlen (footer_body (chunk_blocks 24 chunks)) =
    8 + 8 + zlen (concat (footer_block_layout <$> chunk_blocks 24 chunks))).
  { unfold footer_body. rewrite !length_app, !Nat2Z.inj_add, length_u64. change (zlen TABLE_FOOTER_MAGIC) with 8. lia. }
  replace (fs + 8 + 8 + zlen (concat (footer_block_layout <$> chunk_blocks 24 chunks)))
    with (fs + zlen (footer_body (chunk_blocks 24 chunks))) by lia.
  rewrite (read_checksum_occurs _ Hb _ _ Hcrc). run.
  rewrite (occurs_slice _ _ _ _ Hbody) by lia. run. rewrite Z.eqb_refl. cbn [negb].
  destruct (Z.eqb_spec (fs + zlen (footer_body (chunk_blocks 24 chunks)) + 4) (zlen b)); [done|].
  unfold footer_layout in Hend. rewrite length_app, Nat2Z.inj_add, length_u32 in Hend. lia.
Qed.

Lemma read_table_index_layout sequence chunks :
  0 <= sequence <= U64_MAX ->
  zlen (records_layout (concat chunks)) <= table_limit ->
  Forall (fun c => c <> []) chunks -> StronglySorted key_lt (concat chunks).*1 ->
  read_table_index (table_layout sequence chunks) =
    Ok (sequence, index_layout 24 (concat chunks), true, chunk_blocks 24 chunks).
Proof.
  intros Hseq Hl Hne Hsort. pose proof (length_table_layout sequence chunks Hne Hl) as Hb.
  set (b := table_layout sequence chunks) in *.
  assert (Hlen : zlen b = 24 + zlen (records_layout (concat chunks))
                          + zlen (footer_layout (chunk_blocks 24 chunks))).
  { unfold b, table_layout, header_layout. rewrite !length_app, !Nat2Z.inj_add, !length_u64.
    change (zlen TABLE_MAGIC_V3) with 8. lia. }
  assert (Hall : occurs b 0 (table_layout sequence chunks)) by apply (occurs_end []).
  unfold table_layout, header_layout in Hall.
  apply occurs_app in Hall as [Hhead Hall]. apply occurs_app in Hall as [Hrec Hfoot].
  apply occurs_app in Hhead as [Hmagic Hhead]. apply occurs_app in Hhead as [Hs Hc].
  rewrite !length_app, !Nat2Z.inj_add, !length_u64 in *. change (zlen TABLE_MAGIC_V3) with 8 in *.
  change (0 + (8 + (8 + 8))) with 24 in *. change (0 + 8) with 8 in *. change (8 + 8) with 16 in *.
  assert (zlen (concat chunks) <= zlen (records_layout (concat chunks))).
  { generalize (concat chunks) as es. clear. intros es. induction es as [|e es IH]; [done|].
    rewrite records_cons, length_app, !Nat2Z.inj_add, length_record. cbn [length]. destruct (e.2); lia. }
  unfold read_table_index.
  replace (take (length TABLE_MAGIC) b) with TABLE_MAGIC_V3 by reflexivity.
  change (zlen TABLE_MAGIC) with 8.
  destruct (Z.ltb_spec (zlen b) (8 + 16)); [lia|].
  rewrite (bool_decide_true (TABLE_MAGIC_V3 = TABLE_MAGIC_V3)), andb_false_r by done.
  rewrite (bool_decide_false (TABLE_MAGIC_V3 = TABLE_MAGIC)) by done. cbn [orb negb].
  rewrite (read_u64_occurs b Hb _ sequence) by done. run.
  rewrite (read_u64_occurs b Hb _ (zlen (concat chunks)))
    by (done || (unfold table_limit, U64_MAX in *; lia)). run. rewrite Nat2Z.id.
  change (8 + 8 + 8) with 24.
  rewrite (read_index_entries_occurs b Hb 24) by done. run.
  assert (Hw : windows2_any (fun e1 e2 => key_leb (ti_key e2) (ti_key e1))
                 (index_layout 24 (concat chunks)) = false).
  { apply windows2_any_sorted. rewrite index_layout_keys. by apply StronglySorted_Sorted. }
  rewrite Hw. pose proof Hfoot as Hfm. unfold footer_layout, footer_body in Hfm.
  rewrite <-app_assoc in Hfm. apply occurs_app in Hfm as [Hfm _].
  rewrite (occurs_slice _ _ _ _ Hfm eq_refl), bool_decide_true by done.
  rewrite (validate_table_footer_layout b _ chunks) by done. done.
Qed.
End write_read.

(** ** Record readers on the layout *)

Section records.
Context `{Crc32}.

Lemma read_table_metadata_layout sequence chunks :
  0 <= sequence <= U64_MAX ->
  zlen (records_layout (concat chunks)) <= table_limit ->
  Forall (fun c => c <> []) chunks -> StronglySorted key_lt (concat chunks).*1 ->
  read_table_metadata (table_layout sequence chunks) = Ok (sequence, [], true, chunk_blocks 24 chunks).
Proof.
  intros Hs Hl Hne Hsort. unfold read_table_metadata. rewrite read_table_index_layout by done.
  pose proof (length_table_layout sequence chunks Hne Hl) as Hb.
  assert (Hv : take (length TABLE_MAGIC) (table_layout sequence chunks) = TABLE_MAGIC_V3) by reflexivity.
  rewrite Hv. cbn [negb bool_decide]. change (zlen TABLE_MAGIC) with 8.
  assert (Hlen : 24 <= zlen (table_layout sequence chunks)).
  { unfold table_layout. rewrite length_app. change (length (header_layout _ _)) with 24%nat. lia. }
  destruct (Z.ltb_spec (zlen (table_layout sequence chunks)) (8 + 16)); [lia|].
  rewrite (read_u64_occurs _ Hb 8 sequence); [run|done|].
  - done.
  - unfold table_layout, header_layout. rewrite <-!app_assoc. apply (occurs_here TABLE_MAGIC_V3).
Qed.

Lemma index_layout_lookup off es i e :
  es !! i = Some e ->
  index_layout off es !! i =
    Some (mkIndexEntry e.1 (off + zlen (records_layout (take i es))) (zlen (record_layout e))).
Proof.
  revert off i. induction es as [|e' es IH]; intros off [|i] Hi; try done; cbn [index_layout lookup list_lookup] in *.
  - injection Hi as <-. cbn. by rewrite Z.add_0_r.
  - rewrite (IH _ i) by done. cbn [take]. rewrite records_cons, length_app, Nat2Z.inj_add, Z.add_assoc. done.
Qed.

Lemma records_lookup es i e :
  es !! i = Some e -> occurs (records_layout es) (zlen (records_layout (take i es))) (record_layout e).
Proof.
  intros Hi. rewrite <-(take_drop_middle es i e Hi) at 1. rewrite records_app, records_cons.
  apply occurs_here.
Qed.

Lemma occurs_trans {A} (l s t : list A) i j : occurs l i s -> occurs s j t -> occurs l (i + j) t.
Proof.
  rewrite !occurs_iff. intros (p&q&->&->) (p'&q'&->&->).
  exists (p ++ p'), (q' ++ q). rewrite length_app, <-!app_assoc. split; [done|lia].
Qed.

Lemma read_exact_at_occurs file off s :
  occurs file off s -> read_exact_at file off (zlen s) = Ok s.
Proof. intros Ho. unfold read_exact_at. by rewrite Ho. Qed.

(** The parts of a record, as the decoders meet them. *)
Lemma record_parts e :
  occurs (record_layout e) 0 (record_body e) /\
  occurs (record_layout e) (zlen (record_body e)) (u32_to_be_bytes (checksum (record_body e))) /\
  occurs (record_layout e) 0 (bytes_layout e.1) /\
  occurs (record_layout e) (zlen (bytes_layout e.1))
    (match e.2 with Some v => [1] ++ bytes_layout v | None => [2] end) /\
  zlen (record_body e) = zlen (bytes_layout e.1)
    + zlen (match e.2 with Some v => [1] ++ bytes_layout v | None => [2] end) /\
  zlen (record_layout e) = zlen (record_body e) + 4.
Proof.
  assert (Hall : occurs (record_layout e) 0 (record_layout e)) by apply (occurs_end []).
  unfold record_layout in Hall at 2. apply occurs_app in Hall as [Hbody Hcrc].
  pose proof Hbody as Hparts. unfold record_body in Hparts. apply occurs_app in Hparts as [Hk Hv].
  rewrite !Z.add_0_l in *. split_and!; try done.
  - unfold record_body. rewrite length_app. lia.
  - unfold record_layout. rewrite length_app, Nat2Z.inj_add, length_u32. done.
Qed.

Lemma decode_value_layout e :
  zlen (record_layout e) <= U64_MAX ->
  decode_value (record_layout e) (zlen (bytes_layout e.1)) true = Ok (e.2, zlen (record_body e)).
Proof.
  intros Hl. destruct (record_parts e) as (_&_&_&Hv&->&_). set (cur := zlen (bytes_layout e.1)) in *.
  unfold decode_value. cbn [negb]. destruct (e.2) as [v|].
  - apply occurs_app in Hv as [Ht Hv]. unfold occurs in Ht. cbn [length] in *.
    change (Z.of_nat 1) with 1 in *. rewrite Ht, bool_decide_true by done.
    rewrite (read_bytes_occurs _ Hl _ _ Hv). run. rewrite length_app, Nat2Z.inj_add, Z.add_assoc. done.
  - unfold occurs in Hv. cbn [length] in *. change (Z.of_nat 1) with 1 in *. rewrite Hv.
    rewrite bool_decide_false, bool_decide_true by done. done.
Qed.

Lemma decode_table_value_layout e off len :
  zlen (record_layout e) <= U64_MAX ->
  decode_table_value (record_layout e) (mkIndexEntry e.1 off len) true = Ok e.2.
Proof.
  intros Hl. destruct (record_parts e) as (Hbody&Hcrc&Hk&_&_&Hlr).
  unfold decode_table_value. rewrite (read_bytes_occurs _ Hl _ _ Hk). run.
  cbn [ti_key]. rewrite bool_decide_true by done. cbn [negb]. rewrite !Z.add_0_l.
  rewrite decode_value_layout by done. run. rewrite (read_checksum_occurs _ Hl _ _ Hcrc). run.
  unfold occurs in Hbody. rewrite Z.add_0_l in Hbody. rewrite Hbody. run.
  rewrite Z.eqb_refl. cbn [negb]. rewrite <-Hlr, Z.eqb_refl. done.
Qed.

Lemma read_table_value_handle_occurs file off e :
  zlen (record_layout e) <= U64_MAX -> occurs file off (record_layout e) ->
  read_table_value_handle file (mkIndexEntry e.1 off (zlen (record_layout e))) true = Ok e.2.
Proof.
  intros Hl Ho. unfold read_table_value_handle; cbn [ti_offset ti_length].
  rewrite read_exact_at_occurs by done. run. by apply decode_table_value_layout.
Qed.

Lemma read_table_block_occurs file off c :
  occurs file off (records_layout c) -> read_table_block file (chunk_block off c) = Ok (records_layout c).
Proof.
  intros Ho. unfold read_table_block, chunk_block; cbn [tb_offset tb_length tb_checksum].
  rewrite read_exact_at_occurs by done. run. by rewrite Z.eqb_refl.
Qed.

(** The kind byte and the value that follows it. *)
Lemma read_kind_value b cur (v : option bytes) :
  zlen b <= U64_MAX ->
  occurs b cur (match v with Some v => [1] ++ bytes_layout v | None => [2] end) ->
  exists kind, read_byte b cur = Ok (kind, cur + 1) /\
    (match v with
     | Some v => kind = 1 /\ occurs b (cur + 1) (bytes_layout v)
     | None => kind = 2
     end).
Proof.
  intros Hb Ho. destruct v as [v|].
  - apply occurs_app in Ho as [Ht Hv]. exists 1. by rewrite (read_byte_occurs _ _ _ Ht).
  - exists 2. by rewrite (read_byte_occurs _ _ _ Ho).
Qed.

Lemma read_table_block_entry_value_occurs file off c i e :
  zlen (records_layout c) <= U64_MAX -> occurs file off (records_layout c) ->
  c !! i = Some e ->
  read_table_block_entry_value file (chunk_block off c)
    (mkIndexEntry e.1 (off + zlen (records_layout (take i c))) (zlen (record_layout e))) = Ok e.2.
Proof.
  intros Hl Ho Hi. pose proof (records_lookup c i e Hi) as Hrec.
  pose proof (occurs_bounds _ _ _ Hrec) as [_ Hbd].
  assert (Hle : zlen (record_layout e) <= U64_MAX) by lia.
  destruct (record_parts e) as (Hbody&Hcrc&Hk&Hv&Hlb&Hlr).
  unfold read_table_block_entry_value. rewrite read_table_block_occurs by done. run.
  cbn [ti_offset ti_length ti_key tb_offset chunk_block].
  destruct (Z.ltb_spec (off + zlen (records_layout (take i c))) off); [lia|]. run.
  replace (off + zlen (records_layout (take i c)) - off) with (zlen (records_layout (take i c))) by lia.
  unfold u64_checked_add. destruct (Z.leb_spec (zlen (records_layout (take i c)) + zlen (record_layout e)) U64_MAX);
    [|lia]. run. rewrite Hrec. run.
  rewrite (read_bytes_occurs _ Hle _ _ Hk). run. rewrite bool_decide_true by done. cbn [negb].
  rewrite !Z.add_0_l. destruct (read_kind_value _ _ _ Hle Hv) as (kind&->&Hkind). run.
  assert (Hval : (match kind with
     | 1 => '(value, cursor) ← read_bytes (record_layout e) (zlen (bytes_layout e.1) + 1); Ok (Some value, cursor)
     | 2 => Ok (None, zlen (bytes_layout e.1) + 1)
     | _ => Err (message "invalid ThingDB table operation")
     end) = Ok (e.2, zlen (record_body e))).
  { rewrite Hlb. destruct (e.2) as [v|].
    - destruct Hkind as [-> Hv']. rewrite (read_bytes_occurs _ Hle _ _ Hv'). run.
      rewrite length_app. cbn [length]. do 2 f_equal. lia.
    - subst kind. done. }
  rewrite Hval. run. rewrite (read_checksum_occurs _ Hle _ _ Hcrc). run.
  rewrite (occurs_slice _ _ _ _ Hbody) by lia. run. rewrite Z.eqb_refl. cbn [negb].
  rewrite Hlr, Z.eqb_refl. done.
Qed.

(** What a scan sees of an entry; without values, a placeholder. *)
Definition scan_record (include_values : bool) (e : entry) : TableScanRecord :=
  mkScanRecord e.1 (if include_values then e.2 else (fun _ => []) <$> e.2) 0.

Lemma decode_block_records_occurs fuel b iv cur last c :
  zlen b <= U64_MAX -> occurs b cur (records_layout c) -> cur + zlen (records_layout c) = zlen b ->
  zlen (records_layout c) <= Z.of_nat fuel ->
  StronglySorted key_lt c.*1 ->
  match last, head c with Some k, Some e => k ≺ e.1 | _, _ => True end ->
  decode_block_records fuel b iv cur last = Ok (scan_record iv <$> c).
Proof.
  intros Hb. revert fuel cur last. induction c as [|e c IH]; intros fuel cur lst Ho Hend Hfuel Hsort Hlast.
  { cbn [records_layout] in *. destruct fuel; cbn [decode_block_records];
      (destruct (Z.ltb_spec cur (zlen b)); [cbn in Hend; lia|done]). }
  rewrite records_cons, length_app, Nat2Z.inj_add in *. apply occurs_app in Ho as [He Ho].
  pose proof (length_record e) as Hle.
  destruct fuel as [|fuel]; [destruct (e.2); lia|]. cbn [decode_block_records].
  destruct (Z.ltb_spec cur (zlen b)); [|destruct (e.2); lia].
  destruct (record_parts e) as (Hbody&Hcrc&Hk&Hv&Hlb&Hlr).
  apply (occurs_trans b _ _ _ _ He) in Hbody, Hcrc, Hk, Hv. rewrite !Z.add_0_r in *.
  rewrite (read_bytes_occurs b Hb _ _ Hk). run.
  destruct (read_kind_value _ _ _ Hb Hv) as (kind&->&Hkind). run.
  assert (Hval : (match kind with
     | 1 => if iv then '(value, cursor) ← read_bytes b (cur + zlen (bytes_layout e.1) + 1); Ok (Some value, cursor)
            else cursor ← skip_bytes b (cur + zlen (bytes_layout e.1) + 1); Ok (Some [], cursor)
     | 2 => Ok (None, cur + zlen (bytes_layout e.1) + 1)
     | _ => Err (message "invalid ThingDB table operation")
     end) = Ok (if iv then e.2 else (fun _ => []) <$> e.2, cur + zlen (record_body e))).
  { rewrite Hlb. destruct (e.2) as [v|].
    - destruct Hkind as [-> Hv']. destruct iv.
      + rewrite (read_bytes_occurs _ Hb _ _ Hv'). run.
        rewrite length_app. cbn [length]. do 2 f_equal. lia.
      + rewrite (skip_bytes_occurs _ Hb _ _ Hv'). run.
        rewrite length_app. cbn [length]. do 2 f_equal. lia.
    - subst kind. cbn [length]. rewrite <-Z.add_assoc. by destruct iv. }
  rewrite Hval. run. rewrite (read_checksum_occurs _ Hb _ _ Hcrc). run.
  rewrite (occurs_slice _ _ _ _ Hbody) by lia. run. rewrite Z.eqb_refl. cbn [negb].
  assert (Hord : match lst with Some k => key_leb e.1 k | None => false end = false).
  { destruct lst as [k|]; [|done]. cbn in Hlast. unfold key_leb. rewrite negb_false_iff. by apply key_ltb_lt. }
  rewrite Hord. cbn [fmap list_fmap] in Hsort. apply StronglySorted_inv in Hsort as [Hsort Hall].
  replace (cur + zlen (record_body e) + 4) with (cur + zlen (record_layout e)) by lia.
  rewrite IH; [run; done|done|lia|destruct (e.2); lia|done|].
  destruct c as [|e' c]; [done|]. cbn in Hall |- *. by apply Forall_cons in Hall as [? _].
Qed.

Lemma read_table_block_records_occurs file off c iv :
  c <> [] -> zlen (records_layout c) <= U64_MAX -> StronglySorted key_lt c.*1 ->
  occurs file off (records_layout c) ->
  read_table_block_records file (chunk_block off c) iv = Ok (scan_record iv <$> c).
Proof.
  intros Hne Hl Hsort Ho. unfold read_table_block_records.
  rewrite read_table_block_occurs by done. run.
  rewrite (decode_block_records_occurs _ _ _ _ _ c);
    [|done|apply (occurs_end [])|lia|lia|done|by destruct c]. run.
  rewrite fmap_last. replace (head (scan_record iv <$> c)) with (scan_record iv <$> head c) by by destruct c.
  cbn [tb_first_key tb_last_key chunk_block].
  destruct (head c) as [h|] eqn:Hh; [|by destruct c].
  destruct (last c) as [l|] eqn:Hla; [|by apply last_None in Hla]. cbn.
  rewrite !bool_decide_true by done. done.
Qed.
End records.

(** ** Properties *)

Section properties.
Context `{Crc32}.

(** The blocks of a table read one after the other. *)
Fixpoint scan_blocks (file : bytes) (blocks : list TableBlock) (iv : bool) : tdb_result (list TableScanRecord) :=
  match blocks with
  | [] => Ok []
  | blk :: rest =>
      here ← read_table_block_records file blk iv;
      later ← scan_blocks file rest iv;
      Ok (here ++ later)
  end.

Lemma chunk_blocks_scan file off chunks iv :
  Forall (fun c => c <> []) chunks -> zlen (records_layout (concat chunks)) <= U64_MAX ->
  StronglySorted key_lt (concat chunks).*1 -> occurs file off (records_layout (concat chunks)) ->
  scan_blocks file (chunk_blocks off chunks) iv = Ok (scan_record iv <$> concat chunks).
Proof.
  intros Hne. revert off. induction Hne as [|c chunks Hc Hne IH]; intros off Hl Hsort Ho; [done|].
  cbn [concat] in *. rewrite records_app in Ho. apply occurs_app in Ho as [Hoc Ho].
  rewrite fmap_app in Hsort. apply StronglySorted_app in Hsort as (_&Hs1&Hs2).
  rewrite records_app, length_app in Hl.
  cbn [chunk_blocks scan_blocks]. rewrite read_table_block_records_occurs by (done || lia). run.
  rewrite IH by (done || lia). run. by rewrite fmap_app.
Qed.

(** C4. A table file reads back what was written: for any ordered map of values and
    tombstones, the writer succeeds, the validating reader accepts the file and
    returns the sequence and an index of exactly the map's keys in order, every
    index entry resolves to the key's value or tombstone, and scanning the blocks
    in order yields exactly the map's entries. *)
Theorem table_roundtrip (sequence : Z) (m : bmap (option bytes)) :
  0 <= sequence <= U64_MAX -> zlen (records_layout (btree_iter m)) <= table_limit ->
  exists file index blocks,
    write_table sequence m = Ok file /\
    read_table_index file = Ok (sequence, index, true, blocks) /\
    ti_key <$> index = btree_keys m /\
    (forall i k v, btree_iter m !! i = Some (k, v) ->
       exists e, index !! i = Some e /\ read_table_value_handle file e true = Ok v) /\
    scan_blocks file blocks true = Ok ((fun e => mkScanRecord e.1 e.2 0) <$> btree_iter m).
Proof.
  intros Hseq Hl. destruct (write_table_layout sequence m Hl) as (chunks&Hc&Hne&Hw).
  rewrite <-Hc in Hl. pose proof (btree_keys_sorted m) as Hsort. unfold btree_keys in *.
  rewrite <-Hc in *.
  assert (Ho : occurs (table_layout sequence chunks) 24 (records_layout (concat chunks)))
    by apply (occurs_here (header_layout sequence (zlen (concat chunks)))).
  exists (table_layout sequence chunks), (index_layout 24 (concat chunks)), (chunk_blocks 24 chunks).
  split_and!; [done|by apply read_table_index_layout|apply index_layout_keys| |].
  - intros i k v Hi. eexists. split; [by apply index_layout_lookup|].
    pose proof (records_lookup _ _ _ Hi) as Hr. pose proof (occurs_bounds _ _ _ Hr).
    apply read_table_value_handle_occurs; [unfold table_limit, U64_MAX in *; lia|].
    by apply (occurs_trans _ _ _ _ _ Ho).
  - rewrite chunk_blocks_scan; [|done|unfold table_limit, U64_MAX in *; lia|done..]. done.
Qed.
End properties.

(** ** Witnesses *)

Section witnesses.
#[local] Existing Instance sample_crc32.

Definition sample_entries : bmap (option bytes) :=
  <[ [1] := Some [5; 6] ]> (<[ [1; 2] := None ]> {[ [3] := Some [] ]}).

Lemma table_roundtrip_witness :
  exists file index blocks,
    write_table 4 sample_entries = Ok file /\
    read_table_index file = Ok (4, index, true, blocks) /\
    ti_key <$> index = [[1]; [1; 2]; [3]] /\
    (forall i k v, btree_iter sample_entries !! i = Some (k, v) ->
       exists e, index !! i = Some e /\ read_table_value_handle file e true = Ok v) /\
    scan_blocks file blocks true =
      Ok [mkScanRecord [1] (Some [5; 6]) 0; mkScanRecord [1; 2] None 0; mkScanRecord [3] (Some []) 0].
Proof.
  refine (table_roundtrip 4 sample_entries _ _); [unfold_ints; lia|vm_compute; discriminate].
Defined.
End witnesses.
