(* ===== verification/Layer.v ===== *)
(** * ThingDB: table layers

    Models [TableLayer] of [crates/thingdb/src/lib.rs]: an opened table file with
    its block metadata and its lazily loaded index, the block and entry range
    selection ([candidate_block], [candidate_entry_range]), and the point lookup
    that [get_durable_value] performs on each layer.  A layer opened from a file
    the table writer produced represents the map that was written. *)

From S2P Require Import Prelude Wal Table.

(** The files of the database directory. *)
Abbreviation Disk := (gmap string bytes).

(** [tl_file] is the content behind the open handle; [tl_entries] is the
    [OnceLock] that caches the index once it has been read. *)
Record TableLayer := mkLayer {
  tl_file : bytes;
  tl_path : string;
  tl_entries : option (list TableIndexEntry);
  tl_blocks : list TableBlock;
  tl_is_v2 : bool;
}.

(** [slice::partition_point] on a partitioned slice: the length of the prefix
    that satisfies the predicate. *)
Fixpoint partition_point {A} (p : A -> bool) (l : list A) : nat :=
  match l with
  | x :: l' => if p x then S (partition_point p l') else 0
  | [] => 0
  end.

(** [slice::binary_search_by] on a strictly ordered slice: the position of the
    only entry that has the key. *)
Definition binary_search_by (entries : list TableIndexEntry) (key : bytes) : option nat :=
  fst <$> list_find (fun e => ti_key e = key) entries.

Section layer.
Context `{Crc32}.

(** [fs::read]. *)
Definition fs_read (d : Disk) (path : string) : tdb_result bytes :=
  ok_or (d !! path) (message "No such file or directory (os error 2)").

Definition loaded_entries (d : Disk) (layer : TableLayer) : tdb_result (list TableIndexEntry) :=
  match tl_entries layer with
  | Some entries => Ok entries
  | None =>
      b ← fs_read d (tl_path layer);
      '(_, entries, _, _) ← read_table_index b;
      Ok entries
  end.

(** The state of the [OnceLock] after [loaded_entries]. *)
Definition set_entries (layer : TableLayer) (entries : list TableIndexEntry) : TableLayer :=
  mkLayer (tl_file layer) (tl_path layer) (Some entries) (tl_blocks layer) (tl_is_v2 layer).

Definition candidate_entry_range (layer : TableLayer) (key : bytes) : nat * nat :=
  if bool_decide (tl_blocks layer = [])
  then (0%nat, match tl_entries layer with Some entries => length entries | None => 0%nat end) else
  let block_index := partition_point (fun b => key_ltb (tb_last_key b) key) (tl_blocks layer) in
  match tl_blocks layer !! block_index with
  | None => (0, 0)%nat
  | Some block =>
      if key_ltb key (tb_first_key block) then (0, 0)%nat else
      let stop := u64_saturating_add (tb_offset block) (tb_length block) in
      match tl_entries layer with
      | None => (0, 0)%nat
      | Some entries =>
          (partition_point (fun e => ti_offset e <? tb_offset block) entries,
           partition_point (fun e => ti_offset e <? stop) entries)
      end
  end.

Definition candidate_block (layer : TableLayer) (key : bytes) : option TableBlock :=
  if bool_decide (tl_blocks layer = []) then None else
  let index := partition_point (fun b => key_ltb (tb_last_key b) key) (tl_blocks layer) in
  match tl_blocks layer !! index with
  | Some block =>
      if key_leb (tb_first_key block) key && key_leb key (tb_last_key block)
      then Some block else None
  | None => None
  end.

(** One iteration of the lookup loop: [None] is [continue], [Some v] is
    [return Ok(v)]. *)
Definition layer_lookup (d : Disk) (layer : TableLayer) (key : bytes)
    : tdb_result (option (option bytes)) :=
  let block := candidate_block layer key in
  entries ← loaded_entries d layer;
  let range := candidate_entry_range (set_entries layer entries) key in
  match binary_search_by (take (range.2 - range.1) (drop range.1 entries)) key with
  | None => Ok None
  | Some relative_index =>
      entry ← ok_or (entries !! (range.1 + relative_index)%nat) (message "index out of bounds");
      match block with
      | Some block => Some <$> read_table_block_entry_value (tl_file layer) block entry
      | None => Some <$> read_table_value_handle (tl_file layer) entry (tl_is_v2 layer)
      end
  end.

(** [for layer in table_layers.iter().rev()]. *)
Fixpoint lookup_layers (d : Disk) (rev_layers : list TableLayer) (key : bytes)
    : tdb_result (option bytes) :=
  match rev_layers with
  | [] => Ok None
  | layer :: rest =>
      found ← layer_lookup d layer key;
      match found with
      | Some value => Ok value
      | None => lookup_layers d rest key
      end
  end.

(** Opening a table: [read_table_metadata] and [File::open]. *)
Definition open_layer (d : Disk) (path : string) : tdb_result (Z * TableLayer) :=
  b ← fs_read d path;
  '(sequence, entries, is_v2, blocks) ← read_table_metadata b;
  Ok (sequence, mkLayer b path (if bool_decide (blocks = []) then Some entries else None) blocks is_v2).

(** [layer_repr d layer m]: the layer is an open table holding [m]. *)
Definition table_fits (m : bmap (option bytes)) : Prop :=
  zlen (records_layout (btree_iter m)) <= table_limit.

Definition layer_repr (d : Disk) (layer : TableLayer) (sequence : Z) (m : bmap (option bytes)) : Prop :=
  exists chunks,
    0 <= sequence <= U64_MAX /\
    table_fits m /\ concat chunks = btree_iter m /\ Forall (fun c => c <> []) chunks /\
    d !! tl_path layer = Some (table_layout sequence chunks) /\
    tl_file layer = table_layout sequence chunks /\
    tl_entries layer = (if bool_decide (chunks = []) then Some [] else None) /\
    tl_blocks layer = chunk_blocks 24 chunks /\ tl_is_v2 layer = true.
End layer.

Section partition.
Context {A : Type} (p : A -> bool).

Lemma partition_point_app l1 l2 :
  Forall (fun x => p x = true) l1 -> Forall (fun x => p x = false) l2 ->
  partition_point p (l1 ++ l2) = length l1.
Proof.
  induction 1 as [|x l1 Hx _ IH]; intros H2; cbn.
  - destruct H2 as [|x l2 Hx _]; cbn; [done|]. by rewrite Hx.
  - rewrite Hx. f_equal. by apply IH.
Qed.

Lemma partition_point_split l :
  exists l1 l2, l = l1 ++ l2 /\ partition_point p l = length l1 /\
    Forall (fun x => p x = true) l1 /\ (forall x, head l2 = Some x -> p x = false).
Proof.
  induction l as [|x l (l1&l2&->&Hp&H1&H2)]; [by exists [], []|]. cbn.
  destruct (p x) eqn:Hx.
  - exists (x :: l1), l2. rewrite Hp. repeat split; auto.
  - exists [], (x :: l1 ++ l2). repeat split; auto. by intros y [= <-].
Qed.
End partition.

Section layer_facts.
Context `{Crc32}.

Lemma index_layout_app off es1 es2 :
  index_layout off (es1 ++ es2) =
    index_layout off es1 ++ index_layout (off + zlen (records_layout es1)) es2.
Proof.
  revert off. induction es1 as [|e es1 IH]; intros off; cbn [app index_layout].
  { cbn. by rewrite Z.add_0_r. }
  rewrite IH, records_cons, length_app, Nat2Z.inj_add, Z.add_assoc. done.
Qed.

Lemma length_index_layout off es : length (index_layout off es) = length es.
Proof. revert off. induction es; intros off; cbn; auto. Qed.

Lemma index_layout_offsets off es :
  Forall (fun e => off <= ti_offset e < off + zlen (records_layout es)) (index_layout off es).
Proof.
  revert off. induction es as [|e es IH]; intros off; cbn [index_layout]; constructor.
  - cbn [ti_offset]. rewrite records_cons, length_app. pose proof (length_record e).
    destruct (e.2); lia.
  - eapply Forall_impl; [apply IH|]. intros x Hx. cbn beta in *.
    rewrite records_cons, length_app. lia.
Qed.

(** The entries whose offsets fall in a block are those of its chunk. *)
Lemma index_range_chunk off pre c post :
  let entries := index_layout off (pre ++ c ++ post) in
  let o := off + zlen (records_layout pre) in
  partition_point (fun e => ti_offset e <? o) entries = length pre /\
  partition_point (fun e => ti_offset e <? o + zlen (records_layout c)) entries
    = (length pre + length c)%nat.
Proof.
  intros entries o. unfold entries. rewrite !index_layout_app. fold o. split.
  - rewrite partition_point_app; [apply length_index_layout| |].
    + eapply Forall_impl; [apply index_layout_offsets|]. cbn. intros x ?. apply Z.ltb_lt. lia.
    + apply Forall_app. split; eapply Forall_impl; try apply index_layout_offsets; cbn;
        intros x ?; apply Z.ltb_ge; lia.
  - rewrite app_assoc, partition_point_app; [by rewrite length_app, !length_index_layout| |].
    + apply Forall_app. split; eapply Forall_impl; try apply index_layout_offsets; cbn;
        intros x ?; apply Z.ltb_lt; lia.
    + eapply Forall_impl; [apply index_layout_offsets|]. cbn. intros x ?. apply Z.ltb_ge. lia.
Qed.

Lemma binary_search_index off c key :
  match binary_search_by (index_layout off c) key with
  | Some i => exists e, c !! i = Some e /\ e.1 = key
  | None => forall v, (key, v) ∉ c
  end.
Proof.
  unfold binary_search_by. destruct (list_find _ _) as [[i e]|] eqn:Hf; cbn.
  - apply list_find_Some in Hf as (Hi&Hk&_).
    assert (Hk' : (ti_key <$> index_layout off c) !! i = Some key) by (by rewrite list_lookup_fmap, Hi; cbn; rewrite Hk).
    rewrite index_layout_keys, list_lookup_fmap in Hk'.
    destruct (c !! i) as [e'|]; [|done]. exists e'. by injection Hk'.
  - intros v Hin. apply list_find_None in Hf.
    assert (Hk : key ∈ ti_key <$> index_layout off c).
    { rewrite index_layout_keys. apply list_elem_of_fmap. by exists (key, v). }
    apply list_elem_of_fmap in Hk as (e&->&He). rewrite Forall_forall in Hf. by apply (Hf e).
Qed.
End layer_facts.

(** ** A layer represents the map that was written *)

Section lookup.
Context `{Crc32}.

Lemma chunk_last_key off (c : list entry) :
  c <> [] -> exists e, e ∈ c /\ tb_last_key (chunk_block off c) = e.1 /\
    (StronglySorted key_lt c.*1 -> forall e', e' ∈ c -> e' = e \/ key_lt e'.1 e.1).
Proof.
  intros Hc. destruct (last c) as [e|] eqn:Hl; [|by apply last_None in Hl].
  apply last_Some in Hl as [c' ->]. exists e. split_and!; [set_solver| |].
  - unfold chunk_block; cbn. by rewrite last_snoc.
  - intros Hs e' He'. apply elem_of_app in He' as [He'|He']; [|set_solver].
    rewrite fmap_app in Hs. apply StronglySorted_app in Hs as (Hlt&_&_). right.
    apply Hlt; [by apply list_elem_of_fmap_2|set_solver].
Qed.

Lemma chunk_first_key off (c : list entry) :
  c <> [] -> exists e, e ∈ c /\ tb_first_key (chunk_block off c) = e.1 /\
    (StronglySorted key_lt c.*1 -> forall e', e' ∈ c -> e' = e \/ key_lt e.1 e'.1).
Proof.
  destruct c as [|e c]; [done|]. intros _. exists e. split_and!; [set_solver|done|].
  intros [_ Hs]%StronglySorted_inv e' He'. rewrite Forall_forall in Hs.
  apply elem_of_cons in He' as [->|He']; [by left|right]. by apply Hs, list_elem_of_fmap_2.
Qed.

(** Blocks that end before a key hold only smaller keys. *)
Lemma chunks_below off chunks key :
  Forall (fun c => c <> []) chunks -> StronglySorted key_lt (concat chunks).*1 ->
  Forall (fun b => key_ltb (tb_last_key b) key = true) (chunk_blocks off chunks) ->
  forall e, e ∈ concat chunks -> e.1 ≺ key.
Proof.
  intros Hne. revert off. induction Hne as [|c chunks Hc Hne IH]; intros off Hs Hb e He; [set_solver|].
  cbn [concat chunk_blocks] in *. rewrite fmap_app in Hs.
  apply StronglySorted_app in Hs as (_&Hs1&Hs2). apply Forall_cons in Hb as [Hb Hbs].
  apply elem_of_app in He as [He|He]; [|by eapply IH].
  destruct (chunk_last_key off c Hc) as (l&_&Hl&Hmax). rewrite Hl, key_ltb_lt in Hb.
  destruct (Hmax Hs1 e He) as [->|?]; [done|]. by eapply key_lt_trans.
Qed.

Lemma map_lookup_chunks (m : bmap (option bytes)) chunks key v :
  concat chunks = btree_iter m -> m !! key = Some v <-> (key, v) ∈ concat chunks.
Proof. intros ->. by rewrite elem_of_btree_iter. Qed.

Lemma map_lookup_chunks_None (m : bmap (option bytes)) chunks key :
  concat chunks = btree_iter m -> (forall v, (key, v) ∉ concat chunks) -> m !! key = None.
Proof.
  intros Hc Hn. destruct (m !! key) as [v|] eqn:Hm; [|done].
  rewrite (map_lookup_chunks _ _ _ _ Hc) in Hm. by apply Hn in Hm.
Qed.

(** How the block search splits the chunks around a key. *)
Lemma chunks_split chunks key :
  let p := fun b => key_ltb (tb_last_key b) key in
  exists pre post,
    chunks = pre ++ post /\
    partition_point p (chunk_blocks 24 chunks) = length pre /\
    Forall (fun b => p b = true) (chunk_blocks 24 pre) /\
    chunk_blocks 24 chunks !! length pre
      = (chunk_block (24 + zlen (records_layout (concat pre)))) <$> head post /\
    (forall c, head post = Some c ->
       p (chunk_block (24 + zlen (records_layout (concat pre))) c) = false).
Proof.
  intros p. destruct (partition_point_split p (chunk_blocks 24 chunks)) as (l1&l2&Hl&Hp&H1&H2).
  pose proof (f_equal length Hl) as Hlen. rewrite length_chunk_blocks, length_app in Hlen.
  set (n := length l1) in *.
  assert (Hn : length (take n chunks) = n) by (rewrite length_take; lia).
  exists (take n chunks), (drop n chunks). rewrite Hn.
  pose proof (chunk_blocks_app 24 (take n chunks) (drop n chunks)) as Hsplit.
  rewrite take_drop, Hl in Hsplit.
  apply app_inj_1 in Hsplit as [Hl1 Hl2]; [|by rewrite length_chunk_blocks].
  split_and!; [by rewrite take_drop|done|by rewrite <-Hl1| |].
  - rewrite Hl, lookup_app_r, Nat.sub_diag, Hl2 by lia. by destruct (drop _ _).
  - intros c Hc. apply H2. rewrite Hl2. destruct (drop _ _); [done|]. injection Hc as ->. done.
Qed.

(** A key between two runs of blocks and not in the block between them is absent. *)
Lemma chunk_absent (m : bmap (option bytes)) pre c post key :
  concat (pre ++ c :: post) = btree_iter m ->
  (forall e, e ∈ concat pre -> e.1 ≺ key) -> (forall e, e ∈ concat post -> key ≺ e.1) ->
  (forall v, (key, v) ∉ c) -> m !! key = None.
Proof.
  intros Hc Hbelow Habove Hn. eapply map_lookup_chunks_None; [done|]. intros v Hin.
  rewrite concat_app in Hin. cbn in Hin. apply elem_of_app in Hin as [Hin|[Hin|Hin]%elem_of_app].
  - by apply Hbelow, key_lt_irrefl in Hin.
  - by apply Hn in Hin.
  - by apply Habove, key_lt_irrefl in Hin.
Qed.

(** The records of a block stand in the file where its metadata says. *)
Lemma chunk_occurs sequence pre c post :
  occurs (table_layout sequence (pre ++ c :: post)) (24 + zlen (records_layout (concat pre))) (records_layout c).
Proof.
  unfold table_layout. rewrite concat_app. cbn [concat]. rewrite !records_app, <-!app_assoc, app_assoc.
  replace (24 + zlen (records_layout (concat pre)))
    with (zlen (header_layout sequence (zlen (concat pre ++ c ++ concat post)) ++ records_layout (concat pre)))
    by (rewrite length_app, Nat2Z.inj_add; reflexivity). apply occurs_here.
Qed.

(** The index entries of a block within the index of the table. *)
Lemma index_chunk_range pre c post :
  let o := 24 + zlen (records_layout (concat pre)) in
  take (length c) (drop (length (concat pre)) (index_layout 24 (concat pre ++ c ++ concat post))) = index_layout o c /\
  forall i e, index_layout o c !! i = Some e ->
    index_layout 24 (concat pre ++ c ++ concat post) !! (length (concat pre) + i)%nat = Some e.
Proof.
  intros o. rewrite !index_layout_app. fold o. split.
  - rewrite <-(length_index_layout 24 (concat pre)) at 1. rewrite drop_app_length.
    rewrite <-(length_index_layout o c) at 1. by rewrite take_app_length.
  - intros i e Hi. rewrite <-(length_index_layout 24 (concat pre)), lookup_app_r by lia.
    replace (_ + i - _)%nat with i by lia. by apply lookup_app_l_Some.
Qed.

Lemma loaded_entries_layout d layer sequence chunks :
  0 <= sequence <= U64_MAX -> zlen (records_layout (concat chunks)) <= table_limit ->
  Forall (fun c => c <> []) chunks -> StronglySorted key_lt (concat chunks).*1 ->
  d !! tl_path layer = Some (table_layout sequence chunks) ->
  tl_entries layer = (if bool_decide (chunks = []) then Some [] else None) ->
  loaded_entries d layer = Ok (index_layout 24 (concat chunks)).
Proof.
  intros ???? Hdisk Hent. unfold loaded_entries. rewrite Hent. case_bool_decide as Hnil; [by subst chunks|].
  unfold fs_read. rewrite Hdisk. run. rewrite read_table_index_layout by done. run. done.
Qed.

(** Looking a key up in an opened table gives what was written for it: nothing,
    a tombstone or a value. *)
Lemma layer_lookup_repr d layer sequence m key :
  layer_repr d layer sequence m -> layer_lookup d layer key = Ok (m !! key).
Proof.
  intros (chunks&Hseq&Hfit&Hc&Hne&Hdisk&Hfile&Hent&Hblk&Hv2).
  pose proof (btree_keys_sorted m) as Hsort. unfold btree_keys, table_fits in *.
  rewrite <-Hc in Hsort, Hfit.
  unfold layer_lookup. rewrite (loaded_entries_layout d layer sequence chunks) by done. run. clear Hent.
  unfold candidate_block, candidate_entry_range, set_entries; cbn [tl_blocks tl_entries].
  rewrite Hblk. case_bool_decide as Hnil.
  { destruct chunks; [|done]. cbn. f_equal. symmetry. eapply map_lookup_chunks_None; [done|]. set_solver. }
  destruct (chunks_split chunks key) as (pre&post&->&->&Hpre&->&Hpost).
  set (o := 24 + zlen (records_layout (concat pre))) in *.
  rewrite concat_app, fmap_app in Hsort. pose proof Hsort as (Hlt&Hs1&Hs2)%StronglySorted_app.
  apply Forall_app in Hne as [Hne1 Hne2].
  pose proof (chunks_below _ _ _ Hne1 Hs1 Hpre) as Hbelow.
  destruct post as [|c post]; cbn [head fmap option_fmap option_map].
  { cbn. f_equal. symmetry. eapply map_lookup_chunks_None; [done|]. intros v Hin.
    rewrite app_nil_r in Hin. by apply Hbelow, key_lt_irrefl in Hin. }
  specialize (Hpost c eq_refl). rewrite key_ltb_false in Hpost.
  apply Forall_cons in Hne2 as [Hc0 Hne2]. cbn [concat] in Hs2. rewrite fmap_app in Hs2.
  apply StronglySorted_app in Hs2 as (Hlt2&Hsc&_).
  destruct (chunk_first_key o c Hc0) as (f&Hf&Hfk&Hfmin).
  destruct (chunk_last_key o c Hc0) as (l&Hl&Hlk&Hlmax). rewrite Hfk, Hlk in *.
  assert (Habove : forall e, e ∈ concat post -> key ≺ e.1).
  { intros e He. assert (l.1 ≺ e.1) by (apply Hlt2; by apply list_elem_of_fmap_2).
    destruct Hpost as [?| <-]; [by eapply key_lt_trans|done]. }
  unfold key_leb. rewrite (proj2 (key_ltb_false l.1 key)) by done.
  destruct (key_ltb key f.1) eqn:Hkf; cbn [negb andb].
  { cbn. f_equal. symmetry. apply (chunk_absent m pre c post key Hc Hbelow Habove). intros v Hin.
    rewrite key_ltb_lt in Hkf. destruct (Hfmin Hsc _ Hin) as [<-|Hlt']; [by apply key_lt_irrefl in Hkf|].
    by apply (key_lt_asym _ _ Hkf). }
  cbn [tb_offset tb_length chunk_block].
  assert (Hbig : o + zlen (records_layout c) <= U64_MAX).
  { rewrite concat_app in Hfit. cbn [concat] in Hfit. rewrite !records_app, !length_app in Hfit.
    unfold o, table_limit in *. unfold_ints. lia. }
  unfold u64_saturating_add. rewrite Z.min_l by done.
  pose proof Hc as Hc'. rewrite concat_app in Hc' |- *. cbn [concat] in Hc' |- *.
  destruct (index_range_chunk 24 (concat pre) c (concat post)) as [Hr1 Hr2].
  fold o in Hr1, Hr2. rewrite Hr1, Hr2. cbn [fst snd].
  replace (length (concat pre) + length c - length (concat pre))%nat with (length c) by lia.
  destruct (index_chunk_range pre c post) as [Htake Hidx]. fold o in Htake, Hidx. rewrite Htake.
  pose proof (binary_search_index o c key) as Hbs. destruct (binary_search_by _ key) as [i|].
  - destruct Hbs as ([k v]&Hi&Hk). cbn in Hk. subst k.
    rewrite (Hidx i _ (index_layout_lookup o c i _ Hi)). run.
    rewrite (read_table_block_entry_value_occurs _ o c i (key, v));
      [run|unfold o in *; lia|rewrite Hfile; apply chunk_occurs|done].
    f_equal. symmetry. apply elem_of_btree_iter. rewrite <-Hc'. apply list_elem_of_lookup_2 in Hi. set_solver.
  - f_equal. symmetry. by apply (chunk_absent m pre c post key Hc Hbelow Habove).
Qed.

(** Writing a map to a file and opening the file gives a layer that represents it. *)
Lemma open_layer_written d path sequence m file :
  0 <= sequence <= U64_MAX -> table_fits m ->
  write_table sequence m = Ok file -> d !! path = Some file ->
  exists layer, open_layer d path = Ok (sequence, layer) /\ tl_path layer = path /\
    layer_repr d layer sequence m.
Proof.
  intros Hseq Hfit Hw Hd. unfold table_fits in Hfit.
  destruct (write_table_layout sequence m Hfit) as (chunks&Hc&Hne&Hw').
  rewrite Hw in Hw'. injection Hw' as ->.
  pose proof (btree_keys_sorted m) as Hsort. unfold btree_keys in Hsort.
  rewrite <-Hc in Hsort, Hfit.
  exists (mkLayer (table_layout sequence chunks) path
    (if bool_decide (chunk_blocks 24 chunks = []) then Some [] else None) (chunk_blocks 24 chunks) true).
  split_and!; [|done|].
  - unfold open_layer, fs_read. rewrite Hd. run.
    rewrite read_table_metadata_layout by done. run. done.
  - exists chunks. cbn. unfold table_fits. rewrite <-Hc. split_and!; try (done || lia).
    by destruct chunks.
Qed.

Lemma layer_repr_frame d d' layer sequence m :
  d' !! tl_path layer = d !! tl_path layer -> layer_repr d layer sequence m ->
  layer_repr d' layer sequence m.
Proof. intros Hd (chunks&?). exists chunks. by rewrite Hd. Qed.

Lemma open_layer_repr d layer sequence m :
  layer_repr d layer sequence m -> open_layer d (tl_path layer) = Ok (sequence, layer).
Proof.
  intros (chunks&Hseq&Hfit&Hc&Hne&Hdisk&Hfile&Hent&Hblk&Hv2).
  pose proof (btree_keys_sorted m) as Hsort. unfold btree_keys, table_fits in *.
  rewrite <-Hc in Hsort, Hfit.
  unfold open_layer, fs_read. rewrite Hdisk. run.
  rewrite read_table_metadata_layout by done. run.
  destruct layer as [file path entries blocks v2]; cbn in *. subst.
  do 3 f_equal. by destruct chunks.
Qed.
End lookup.
