(* ===== verification/Database.v ===== *)
(** * ThingDB: the durable database

    Models the durable mode of [crates/thingdb/src/lib.rs]: the database state
    [Inner], the commit path ([process_group], [execute_group]), the flush and
    compaction of the mutable table ([flush_table_locked],
    [compact_tables_locked], [background_flush_worker]), the point reads
    ([get_durable_value], [get_many_durable_values], [materialize_state]), the
    manifest ([validate_manifest], [write_manifest]) and recovery ([open],
    [open_locked]).

    The commit gate and the database mutex make each of these operations atomic
    with respect to the others, so each is one function on the pair of the
    in-memory state and the directory's files.  A read holds the mutex only while it
    looks at memory and copies the list of layers; the directory it then reads the
    tables from is an argument of its own.  An operation can fail half-way:
    it returns its [Result] together with the state it leaves.  The injected
    faults of the source ([maybe_fail]) are an argument; they stand between every
    two file operations.  The outcomes of the calls on the log file during a commit are
    arguments too ([CommitIo]).  Timings and write-only counters of [WalDiagnostics] are
    left out; [journal_bytes] and [frame_count] are kept. *)

From S2P Require Import Prelude Wal Table Layer.

Definition FORMAT_VERSION : Z := 1.
Definition WAL_FILE : string := "WAL".
Definition MANIFEST_FILE : string := "MANIFEST.json".
Definition MANIFEST_TEMP_FILE : string := ".MANIFEST.json.tmp".
Definition LOCK_FILE : string := "LOCK".

Record Manifest := mkManifest {
  mf_format_version : Z;
  mf_table_file : option string;
  mf_table_files : list string;
  mf_table_sequence : Z;
}.

#[export] Instance Manifest_eq_dec : EqDecision Manifest.
Proof. solve_decision. Defined.

(** [serde_json] on manifests: serialising and parsing back gives the same value. *)
Class ManifestCodec := {
  to_vec_pretty : Manifest -> bytes;
  from_slice : bytes -> tdb_result Manifest;
  from_slice_to_vec m : from_slice (to_vec_pretty m) = Ok m;
}.

Record DatabaseBuilder := mkBuilder {
  b_max_journaling_size : Z;
  b_max_memtable_bytes : Z;
  b_max_table_layers : Z;
}.

Definition builder : DatabaseBuilder := mkBuilder (32 * 1024 * 1024) (64 * 1024 * 1024) 8.
Definition max_journaling_size_opt (b : DatabaseBuilder) (n : Z) : DatabaseBuilder :=
  mkBuilder n (b_max_memtable_bytes b) (b_max_table_layers b).
Definition max_memtable_bytes_opt (b : DatabaseBuilder) (n : Z) : DatabaseBuilder :=
  mkBuilder (b_max_journaling_size b) (Z.max n 1) (b_max_table_layers b).
Definition max_table_layers_opt (b : DatabaseBuilder) (n : Z) : DatabaseBuilder :=
  mkBuilder (b_max_journaling_size b) (b_max_memtable_bytes b) (Z.max n 1).

(** [wal] says whether the log is open ([Option<Arc<File>>]); its content is the
    file [WAL_FILE]. *)
Record Inner := mkInner {
  in_memory : bool;
  wal : bool;
  state : bmap bytes;
  sequence : Z;
  table_sequence : Z;
  table_files : list string;
  table_layers : list TableLayer;
  pending_table : bmap (option bytes);
  pending_table_bytes : Z;
  max_journaling_size : Z;
  max_memtable_bytes : Z;
  max_table_layers : Z;
  journal_bytes : Z;
  frame_count : Z;
  recovery_required : bool;
  state_generation : Z;
  flush_scheduled : bool;
}.

Record Db := mkDb { inner : Inner; disk : Disk }.

(** Field updates. *)
Definition set_pending (i : Inner) p bytes := mkInner (in_memory i) (wal i) (state i) (sequence i)
  (table_sequence i) (table_files i) (table_layers i) p bytes (max_journaling_size i)
  (max_memtable_bytes i) (max_table_layers i) (journal_bytes i) (frame_count i)
  (recovery_required i) (state_generation i) (flush_scheduled i).
Definition set_tables (i : Inner) files layers := mkInner (in_memory i) (wal i) (state i) (sequence i)
  (table_sequence i) files layers (pending_table i) (pending_table_bytes i) (max_journaling_size i)
  (max_memtable_bytes i) (max_table_layers i) (journal_bytes i) (frame_count i)
  (recovery_required i) (state_generation i) (flush_scheduled i).
Definition set_table_sequence (i : Inner) s := mkInner (in_memory i) (wal i) (state i) (sequence i)
  s (table_files i) (table_layers i) (pending_table i) (pending_table_bytes i) (max_journaling_size i)
  (max_memtable_bytes i) (max_table_layers i) (journal_bytes i) (frame_count i)
  (recovery_required i) (state_generation i) (flush_scheduled i).
Definition set_state (i : Inner) s := mkInner (in_memory i) (wal i) s (sequence i)
  (table_sequence i) (table_files i) (table_layers i) (pending_table i) (pending_table_bytes i)
  (max_journaling_size i) (max_memtable_bytes i) (max_table_layers i) (journal_bytes i)
  (frame_count i) (recovery_required i) (state_generation i) (flush_scheduled i).
Definition set_sequence (i : Inner) s := mkInner (in_memory i) (wal i) (state i) s
  (table_sequence i) (table_files i) (table_layers i) (pending_table i) (pending_table_bytes i)
  (max_journaling_size i) (max_memtable_bytes i) (max_table_layers i) (journal_bytes i)
  (frame_count i) (recovery_required i) (state_generation i) (flush_scheduled i).
Definition set_journal (i : Inner) bytes frames := mkInner (in_memory i) (wal i) (state i) (sequence i)
  (table_sequence i) (table_files i) (table_layers i) (pending_table i) (pending_table_bytes i)
  (max_journaling_size i) (max_memtable_bytes i) (max_table_layers i) bytes
  frames (recovery_required i) (state_generation i) (flush_scheduled i).
Definition set_recovery_required (i : Inner) := mkInner (in_memory i) (wal i) (state i) (sequence i)
  (table_sequence i) (table_files i) (table_layers i) (pending_table i) (pending_table_bytes i)
  (max_journaling_size i) (max_memtable_bytes i) (max_table_layers i) (journal_bytes i)
  (frame_count i) true (state_generation i) (flush_scheduled i).
Definition bump_generation (i : Inner) := mkInner (in_memory i) (wal i) (state i) (sequence i)
  (table_sequence i) (table_files i) (table_layers i) (pending_table i) (pending_table_bytes i)
  (max_journaling_size i) (max_memtable_bytes i) (max_table_layers i) (journal_bytes i)
  (frame_count i) (recovery_required i) (u64_saturating_add (state_generation i) 1) (flush_scheduled i).
Definition set_flush_scheduled (i : Inner) b := mkInner (in_memory i) (wal i) (state i) (sequence i)
  (table_sequence i) (table_files i) (table_layers i) (pending_table i) (pending_table_bytes i)
  (max_journaling_size i) (max_memtable_bytes i) (max_table_layers i) (journal_bytes i)
  (frame_count i) (recovery_required i) (state_generation i) b.

(** ** Operations that can fail half-way *)

Definition M (A : Type) : Type := Db -> tdb_result A * Db.

#[export] Instance M_ret : MRet M := fun A a db => (Ok a, db).
#[export] Instance M_bind : MBind M :=
  fun A B f m db => match m db with (Ok a, db') => f a db' | (Err e, db') => (Err e, db') end.

Definition throw {A} (text : string) : M A := fun db => (Err (message text), db).
Definition lift {A} (r : tdb_result A) : M A := fun db => (r, db).
Definition get : M Db := fun db => (Ok db, db).
Definition modify (f : Inner -> Inner) : M unit := fun db => (Ok (), mkDb (f (inner db)) (disk db)).
Definition modify_disk (f : Disk -> Disk) : M unit := fun db => (Ok (), mkDb (inner db) (f (disk db))).
(** Run an operation and hand its [Result] to the continuation. *)
Definition attempt {A} (m : M A) : M (tdb_result A) := fun db => let '(r, db') := m db in (Ok r, db').
Definition when (b : bool) (m : M unit) : M unit := if b then m else mret ().

Lemma M_bind_Ok {A B} (m : M A) (f : A -> M B) db a db' :
  m db = (Ok a, db') -> (m ≫= f) db = f a db'.
Proof. unfold mbind, M_bind. by intros ->. Qed.

Lemma M_bind_Err {A B} (m : M A) (f : A -> M B) db e db' :
  m db = (Err e, db') -> (m ≫= f) db = (Err e, db').
Proof. unfold mbind, M_bind. by intros ->. Qed.

Lemma M_bind_assoc {A B C} (m : M A) (f : A -> M B) (g : B -> M C) db : ((m ≫= f) ≫= g) db = (m ≫= (fun a => f a ≫= g)) db.
Proof. unfold mbind, M_bind. by destruct (m db) as [[]]. Qed.

Lemma M_bind_same {A B} (m m' : M A) (f : A -> M B) db db' :
  m db = m' db' -> (m ≫= f) db = (m' ≫= f) db'.
Proof. unfold mbind, M_bind. by intros ->. Qed.

Lemma attempt_same {A} (m m' : M A) db db' : m db = m' db' -> attempt m db = attempt m' db'.
Proof. unfold attempt. by intros ->. Qed.

Lemma attempt_run {A} (m : M A) db r db' : m db = (r, db') -> attempt m db = (Ok r, db').
Proof. unfold attempt. by intros ->. Qed.

(** Step through an operation: each bind whose first part computes is rewritten. *)
Ltac step_M := erewrite M_bind_Ok by (cbv [get modify modify_disk lift mret M_ret when]; reflexivity);
  cbn [inner disk fst snd].

Section database.
Context `{Crc32} `{ManifestCodec}.

(** [maybe_fail] with the fault point in effect. *)
Definition maybe_fail (point : string) (fault_point : option string) : M unit :=
  if bool_decide (fault_point = Some point)
  then throw ("injected ThingDB fault: " +:+ point) else mret ().

Definition write_table_file (path : string) (seq : Z) (entries : bmap (option bytes)) : M unit :=
  content ← lift (write_table seq entries);
  modify_disk (fun d => <[path := content]> d).

Definition fs_rename (from to : string) : M unit :=
  db ← get;
  content ← lift (fs_read (disk db) from);
  modify_disk (fun d => <[to := content]> (delete from d)).

Definition write_manifest (manifest : Manifest) (fault_point : option string) : M unit :=
  modify_disk (fun d => <[MANIFEST_TEMP_FILE := to_vec_pretty manifest]> d) ;;
  maybe_fail "after-manifest-sync-before-rename" fault_point ;;
  fs_rename MANIFEST_TEMP_FILE MANIFEST_FILE.

Definition wal_content (d : Disk) : bytes := default [] (d !! WAL_FILE).
Definition wal_write_all (buffer : bytes) : M unit :=
  modify_disk (fun d => <[WAL_FILE := wal_content d ++ buffer]> d).
Definition wal_set_len (n : Z) : M unit :=
  modify_disk (fun d => <[WAL_FILE := take (Z.to_nat n) (wal_content d)]> d).

(** ** Reads *)

Fixpoint read_all_entries (file : bytes) (is_v2 : bool) (entries : list TableIndexEntry)
    (st : bmap bytes) : tdb_result (bmap bytes) :=
  match entries with
  | [] => Ok st
  | entry :: entries =>
      value ← read_table_value_handle file entry is_v2;
      read_all_entries file is_v2 entries
        (match value with
         | Some v => <[ti_key entry := v]> st
         | None => delete (ti_key entry) st
         end)
  end.

Definition insert_pending (st : bmap bytes) (e : entry) : bmap bytes :=
  match e.2 with Some v => <[e.1 := v]> st | None => delete e.1 st end.

Definition materialize_state (d : Disk) (i : Inner) : tdb_result (bmap bytes) :=
  st ← fold_res (fun st layer =>
         entries ← loaded_entries d layer;
         read_all_entries (tl_file layer) (tl_is_v2 layer) entries st) ∅ (table_layers i);
  let st := foldl (fun st e => <[e.1 := e.2]> st) st (btree_iter (state i)) in
  Ok (foldl insert_pending st (btree_iter (pending_table i))).

(** [get_durable_value] with the lock held in the state [i].  The tables are read after the lock
    has been released: a layer whose index is not loaded opens its file by path, at most once,
    and [files] is what each path holds at that time. *)
Definition read_durable_value (i : Inner) (files : Disk) (key : bytes) : tdb_result (option bytes) :=
  match pending_table i !! key with
  | Some value => Ok value
  | None =>
      match state i !! key with
      | Some value => Ok (Some value)
      | None => lookup_layers files (rev (table_layers i)) key
      end
  end.

(** Without other threads. *)
Definition get_durable_value (db : Db) (key : bytes) : tdb_result (option bytes) :=
  read_durable_value (inner db) (disk db) key.

(** The outcome of the two memory lookups, [None] when unresolved. *)
Definition memory_value (i : Inner) (key : bytes) : option (option bytes) :=
  match pending_table i !! key with
  | Some value => Some value
  | None => match state i !! key with Some value => Some (Some value) | None => None end
  end.

(** The value of one key: what memory resolved, or the layers. *)
Definition resolve_value (i : Inner) (files : Disk) (out : list (option bytes)) (kv : bytes * option (option bytes))
    : tdb_result (list (option bytes)) :=
  match kv.2 with
  | Some value => Ok (out ++ [value])
  | None =>
      value ← lookup_layers files (rev (table_layers i)) kv.1;
      Ok (out ++ [value])
  end.

(** Memory first for every key, under the lock, then the layers for the keys left unresolved. *)
Definition read_many_durable_values (i : Inner) (files : Disk) (keys : list bytes)
    : tdb_result (list (option bytes)) :=
  if in_memory i then Err (message "durable multi-get called for an in-memory database") else
  let values := memory_value i <$> keys in
  fold_res (resolve_value i files) [] (zip keys values).
Definition get_many_durable_values (db : Db) (keys : list bytes) : tdb_result (list (option bytes)) :=
  read_many_durable_values (inner db) (disk db) keys.

(** ** Flush *)

Definition flush_table_name (next_sequence : Z) (files : Z) : string :=
  "table-" +:+ format_pad 20 next_sequence +:+ "-" +:+ format_pad 4 files +:+ ".tdb".
Definition compact_table_name (next_sequence : Z) : string :=
  "table-" +:+ format_pad 20 next_sequence +:+ "-compact.tdb".
Definition temp_name (table_name : string) : string := "." +:+ table_name +:+ ".tmp".

Definition require_wal : M unit :=
  db ← get; if wal (inner db) then mret () else throw "ThingDB WAL is unavailable".

(** The closure of [flush_table_locked], run with [pending_table] taken out. *)
Definition flush_body (updates : bmap (option bytes)) (fault_point : option string) : M unit :=
  db ← get;
  let next_sequence := sequence (inner db) in
  let table_name := flush_table_name next_sequence (zlen (table_files (inner db))) in
  let temp_path := temp_name table_name in
  maybe_fail "before-table-write" fault_point ;;
  write_table_file temp_path next_sequence updates ;;
  maybe_fail "after-table-sync-before-rename" fault_point ;;
  maybe_fail "before-table-rename" fault_point ;;
  fs_rename temp_path table_name ;;
  maybe_fail "after-table-rename-before-manifest" fault_point ;;
  let files := table_files (inner db) ++ [table_name] in
  maybe_fail "before-manifest-write" fault_point ;;
  write_manifest (mkManifest FORMAT_VERSION (Some table_name) files next_sequence) fault_point ;;
  maybe_fail "after-manifest-rename-before-wal-truncate" fault_point ;;
  modify (fun i => set_tables i files (table_layers i)) ;;
  db ← get;
  layer ← lift (open_layer (disk db) table_name);
  modify (fun i => set_tables i (table_files i) (table_layers i ++ [layer.2])) ;;
  modify (fun i => set_table_sequence i next_sequence) ;;
  modify (fun i => set_state i ∅) ;;
  modify (fun i => set_pending i (pending_table i) 0) ;;
  require_wal ;;
  wal_set_len 0 ;;
  modify (fun i => set_journal i 0 (frame_count i)) ;;
  modify (fun i => set_journal i (journal_bytes i) 0).

Definition flush_table_locked (fault_point : option string) : M unit :=
  db ← get;
  if recovery_required (inner db)
  then throw "ThingDB requires reopen and recovery before writing" else
  if bool_decide (pending_table (inner db) = ∅) then require_wal else
  let updates := pending_table (inner db) in
  let update_bytes := pending_table_bytes (inner db) in
  modify (fun i => set_pending i ∅ (pending_table_bytes i)) ;;
  result ← attempt (flush_body updates fault_point);
  when (match result with Err _ => true | Ok _ => false end)
    (modify (fun i => set_pending i updates update_bytes)) ;;
  modify bump_generation ;;
  lift result.

(** ** Compaction *)

Definition compact_tables_locked (fault_point : option string) : M unit :=
  db ← get;
  if recovery_required (inner db)
  then throw "ThingDB requires reopen and recovery before writing" else
  require_wal ;;
  let next_sequence := sequence (inner db) in
  let table_name := compact_table_name next_sequence in
  let temp_path := temp_name table_name in
  lift (fold_res (fun _ layer => _ ← loaded_entries (disk db) layer; Ok ()) () (table_layers (inner db))) ;;
  st ← lift (materialize_state (disk db) (inner db));
  maybe_fail "before-table-write" fault_point ;;
  write_table_file temp_path next_sequence (Some <$> st) ;;
  maybe_fail "after-table-sync-before-rename" fault_point ;;
  maybe_fail "before-table-rename" fault_point ;;
  fs_rename temp_path table_name ;;
  maybe_fail "after-table-rename-before-manifest" fault_point ;;
  maybe_fail "before-manifest-write" fault_point ;;
  write_manifest (mkManifest FORMAT_VERSION (Some table_name) [table_name] next_sequence) fault_point ;;
  maybe_fail "after-manifest-rename-before-wal-truncate" fault_point ;;
  modify_disk (fun d => foldl (fun d old => if bool_decide (old = table_name) then d else delete old d)
                          d (table_files (inner db))) ;;
  modify (fun i => set_tables i [table_name] (table_layers i)) ;;
  db ← get;
  layer ← lift (open_layer (disk db) table_name);
  modify (fun i => set_tables i (table_files i) [layer.2]) ;;
  modify (fun i => set_table_sequence i next_sequence) ;;
  modify (fun i => set_state i ∅) ;;
  modify (fun i => set_pending i ∅ 0) ;;
  modify bump_generation ;;
  require_wal ;;
  wal_set_len 0 ;;
  modify (fun i => set_journal i 0 (frame_count i)) ;;
  modify (fun i => set_journal i (journal_bytes i) 0).

(** ** Commit *)

(** A queued request.  [encoded_bytes] is computed by the sender and read by the
    coordinator when it forms a group. *)
Record CommitRequest := mkRequest {
  cr_operations : list Operation;
  cr_encoded_bytes : Z;
  cr_fault_point : option string;
}.

(** What the calls of a commit on the outside return.  [ci_write] is [None] when [write_all]
    writes everything, and otherwise the number of bytes it wrote before it failed; [ci_sync]
    and [ci_truncate] say whether [sync_wal] and [set_len] succeed, [ci_spawn] whether a thread
    can be started; [ci_error] is the text of an I/O error. *)
Record CommitIo := mkCommitIo {
  ci_write : option nat;
  ci_sync : bool;
  ci_truncate : bool;
  ci_spawn : bool;
  ci_error : string;
}.
Definition io_ok : CommitIo := mkCommitIo None true true true "".

Definition request_has_fault (requests : list CommitRequest) (point : string) : option string :=
  if existsb (fun r => bool_decide (cr_fault_point r = Some point)) requests
  then Some point else None.

(** [state], [pending] and [pending_bytes] after one operation. *)
Definition apply_operation_with_pending (acc : bmap bytes * bmap (option bytes) * Z) (op : Operation)
    : bmap bytes * bmap (option bytes) * Z :=
  let '(st, pending, pending_bytes) := acc in
  let replaced key :=
    match pending !! key with
    | Some previous =>
        u64_saturating_sub pending_bytes
          (u64_saturating_add (u64_saturating_add (zlen key) 1)
             (match previous with Some v => zlen v | None => 0 end))
    | None => pending_bytes
    end in
  match op with
  | Put key value =>
      (<[key := value]> st, <[key := Some value]> pending,
       u64_saturating_add (replaced key)
         (u64_saturating_add (u64_saturating_add (zlen key) 1) (zlen value)))
  | Delete key =>
      (delete key st, <[key := None]> pending,
       u64_saturating_add (replaced key) (u64_saturating_add (zlen key) 1))
  end.

Definition apply_requests (i : Inner) (requests : list CommitRequest) : Inner :=
  let '(st, pending, bytes) :=
    foldl apply_operation_with_pending (state i, pending_table i, pending_table_bytes i)
      (concat (cr_operations <$> requests)) in
  set_pending (set_state i st) pending bytes.

(** Encode every request with consecutive sequence numbers. *)
Definition encode_group (expected_sequence : Z) (requests : list CommitRequest)
    : tdb_result (bytes * Z) :=
  fold_res (fun acc r =>
    buffer ← encode_frame_into acc.1 acc.2 (cr_operations r);
    Ok (buffer, u64_saturating_add acc.2 1)) ([], expected_sequence) requests.

(** [schedule_background_flush]; [spawn_ok] is the outcome of spawning the thread. *)
Definition schedule_background_flush (spawn_ok : bool) : M bool :=
  db ← get;
  if flush_scheduled (inner db) then mret true
  else if spawn_ok then modify (fun i => set_flush_scheduled i true) ;; mret true
  else modify (fun i => set_flush_scheduled i false) ;; mret false.

Definition check_unchanged (expected_sequence expected_generation : Z) (text : string) : M unit :=
  db ← get;
  if recovery_required (inner db)
     || negb (u64_saturating_add (sequence (inner db)) 1 =? expected_sequence)
     || negb (state_generation (inner db) =? expected_generation)
  then throw text else mret ().

(** Automatic maintenance after a group has been applied. *)
Definition maintain (requests : list CommitRequest) (io : CommitIo) : M unit :=
  db ← get;
  let wal_over_budget := (0 <? max_journaling_size (inner db))
                         && (max_journaling_size (inner db) <=? journal_bytes (inner db)) in
  if (max_memtable_bytes (inner db) <=? pending_table_bytes (inner db)) || wal_over_budget then
    let fault := request_has_fault requests "before-table-write" in
    let synchronous_flush := (max_memtable_bytes (inner db) <=? 1)
                             || bool_decide (is_Some fault) in
    if synchronous_flush then
      flush_table_locked fault ;;
      db ← get;
      when (max_table_layers (inner db) <=? zlen (table_layers (inner db)))
        (compact_tables_locked None)
    else
      scheduled ← schedule_background_flush (ci_spawn io);
      if (scheduled : bool) then mret () else
      modify set_recovery_required ;;
      throw "ThingDB could not start its background flush worker"
  else mret ().

(** State application and automatic maintenance, after the log has been synced. *)
Definition apply_group (requests : list CommitRequest) (expected_sequence expected_generation : Z)
    (next_sequence group_size : Z) (io : CommitIo) : M unit :=
  (match request_has_fault requests "after-wal-sync-before-state-apply" with
   | Some point => maybe_fail point (Some point)
   | None => mret ()
   end) ;;
  check_unchanged expected_sequence expected_generation
    "ThingDB commit state changed before state application" ;;
  modify (fun i => apply_requests i requests) ;;
  modify (fun i => set_sequence i (u64_saturating_sub next_sequence 1)) ;;
  modify bump_generation ;;
  modify (fun i => set_journal i (journal_bytes i) (u64_saturating_add (frame_count i) group_size)) ;;
  maintain requests io.

(** The error of a group whose frames are written but not synced. *)
Definition unsynced_error (requests : list CommitRequest) (io : CommitIo) : option string :=
  match request_has_fault requests "after-wal-write-before-sync" with
  | Some point => Some ("injected ThingDB fault: " +:+ point)
  | None => if ci_sync io then None else Some (ci_error io)
  end.

(** Returns the group's result and whether the log was synced. *)
Definition execute_group (requests : list CommitRequest) (expected_sequence expected_generation : Z)
    (wal_start : Z) (wal_file : bool) (group_size : Z) (io : CommitIo) : M (tdb_result unit * bool) :=
  match encode_group expected_sequence requests with
  | Err error => mret (Err error, false) 
  | Ok (wal_buffer, next_sequence) =>
      if negb wal_file then mret (Err (message "ThingDB WAL is unavailable"), false) else
      prepared ← attempt
        ((match request_has_fault requests "before-wal-append" with
          | Some point => maybe_fail point (Some point)
          | None => mret ()
          end) ;;
         check_unchanged expected_sequence expected_generation
           "ThingDB commit state changed while preparing WAL frames");
      match prepared with
      | Err error => mret (Err error, false)
      | Ok _ =>
          match ci_write io with
          | Some n =>
              wal_write_all (take n wal_buffer) ;;
              mret (Err (message (ci_error io)), false)
          | None =>
              wal_write_all wal_buffer ;;
              match unsynced_error requests io with
              | Some text =>
                  when (ci_truncate io)
                    (wal_set_len wal_start ;;
                     modify (fun i => set_journal i wal_start (frame_count i))) ;;
                  mret (Err (message text), false)
              | None =>
                  modify (fun i => set_journal i (u64_saturating_add wal_start (zlen wal_buffer)) (frame_count i)) ;;
                  result ← attempt (apply_group requests expected_sequence expected_generation
                                      next_sequence group_size io);
                  mret (result, true)
              end
          end
      end
  end.

(** Never reached in practice: RAM-only databases commit without the writer thread. *)
Definition execute_memory_group (requests : list CommitRequest) (group_size : Z)
    : M (tdb_result unit * bool) :=
  modify (fun i => set_state i (foldl apply_operation (state i) (concat (cr_operations <$> requests)))) ;;
  modify (fun i => set_sequence i (u64_saturating_add (sequence i) group_size)) ;;
  modify (fun i => set_journal i 0 0) ;;
  mret (Ok (), false).

(** Backpressure: when the mutable table is twice its bound the group first waits for a flush. *)
Definition backpressure : M unit :=
  db ← get;
  when (negb (in_memory (inner db)) && (1 <? max_memtable_bytes (inner db))
        && (u64_saturating_mul (max_memtable_bytes (inner db)) 2 <=? pending_table_bytes (inner db)))
    (flushed ← attempt (flush_table_locked None);
     match flushed with
     | Err error => modify set_recovery_required ;; lift (Err error)
     | Ok _ => mret ()
     end).

(** The commit proper. *)
Definition commit_tail (requests : list CommitRequest) (io : CommitIo) : M unit :=
  db ← get;
  if negb (in_memory (inner db)) && negb (wal (inner db)) then throw "ThingDB WAL is unavailable" else
  let wal_start := if in_memory (inner db) then 0 else journal_bytes (inner db) in
  outcome ←
    (if in_memory (inner db) then execute_memory_group requests (zlen requests)
     else execute_group requests (u64_saturating_add (sequence (inner db)) 1)
            (state_generation (inner db)) wal_start (wal (inner db)) (zlen requests) io);
  when (match outcome.1 with Err _ => outcome.2 | Ok _ => false end) (modify set_recovery_required) ;;
  lift outcome.1.

(** The result is the response sent to every request of the group. *)
Definition process_group (requests : list CommitRequest) (io : CommitIo) : M unit :=
  db ← get;
  if recovery_required (inner db)
  then throw "ThingDB requires reopen and recovery before writing" else
  backpressure ;; commit_tail requests io.

(** One pass of the [loop] of the worker; [true] means the loop goes on. *)
Definition background_flush_pass : M bool :=
  db ← get;
  if recovery_required (inner db) || bool_decide (pending_table (inner db) = ∅) then mret false else
  flushed ← attempt (flush_table_locked None);
  match flushed with
  | Err _ => modify set_recovery_required ;; mret false
  | Ok _ =>
      db ← get;
      compacted ← attempt (when (max_table_layers (inner db) <=? zlen (table_layers (inner db)))
                             (compact_tables_locked None));
      match compacted with
      | Err _ => modify set_recovery_required ;; mret false
      | Ok _ =>
          db ← get;
          mret (negb (pending_table_bytes (inner db) <? max_memtable_bytes (inner db)))
      end
  end.

Definition persist : M unit :=
  db ← get;
  if in_memory (inner db) then throw "ThingDB in-memory databases do not support persistence"
  else flush_table_locked None.

Definition compact : M unit :=
  db ← get;
  if in_memory (inner db) then throw "ThingDB in-memory databases do not support compaction"
  else compact_tables_locked None.

(** ** Opening a database *)

Fixpoint split_slash (current : string) (s : string) : list string :=
  match s with
  | EmptyString => [current]
  | String c s =>
      if bool_decide (Ascii.nat_of_ascii c = 47%nat) then current :: split_slash "" s
      else split_slash (current +:+ String c EmptyString) s
  end.

(** [Path::components] on Unix: a leading separator is the root, empty components
    are skipped and so is [.] except at the start. *)
Definition validate_table_name (name : string) : tdb_result unit :=
  let parts := split_slash "" name in
  if bool_decide (name = "")
     || bool_decide (head parts = Some "")
     || bool_decide (head parts = Some ".")
     || existsb (fun p => bool_decide (p = "..")) parts
  then Err (message "invalid ThingDB table filename") else Ok ().

Definition effective_table_files (m : Manifest) : list string :=
  if bool_decide (mf_table_files m = [])
  then match mf_table_file m with Some f => [f] | None => [] end
  else mf_table_files m.

Definition validate_manifest (m : Manifest) : tdb_result unit :=
  _ ← fold_res (fun (files : gset string) file =>
        _ ← validate_table_name file;
        if bool_decide (file ∈ files) then Err (message "duplicate ThingDB table filename")
        else Ok ({[file]} ∪ files)) ∅ (mf_table_files m);
  _ ← (match mf_table_file m with
       | None => Ok ()
       | Some file =>
           _ ← validate_table_name file;
           if negb (bool_decide (mf_table_files m = []))
              && negb (bool_decide (last (mf_table_files m) = Some file))
           then Err (message "ThingDB manifest legacy table filename does not match table layers")
           else Ok ()
       end);
  let files := effective_table_files m in
  if bool_decide (files = []) && negb (mf_table_sequence m =? 0)
  then Err (message "ThingDB manifest has a table sequence without a table") else
  if windows2_any (fun f1 f2 => key_leb f2 f1) files
  then Err (message "ThingDB manifest table layers are not in filename order") else Ok ().

Definition is_temporary (name : string) : bool :=
  bool_decide (name = MANIFEST_TEMP_FILE)
  || (String.prefix ".table-" name
      && bool_decide (String.substring (String.length name - 8) 8 name = ".tdb.tmp")).

Definition cleanup_temporary_files (d : Disk) : Disk :=
  filter (fun kv => is_temporary kv.1 = false) d.

(** The tables named by the manifest, opened in order. *)
Fixpoint open_tables (d : Disk) (manifest_sequence previous_sequence : Z) (files : list string)
    : tdb_result (list TableLayer) :=
  match files with
  | [] => Ok []
  | file :: files =>
      if negb (bool_decide (is_Some (d !! file)))
      then Err (message ("ThingDB manifest references missing table: " +:+ file)) else
      opened ← open_layer d file;
      let seq := opened.1 in
      if manifest_sequence <? seq then Err (message "table sequence exceeds manifest sequence") else
      if seq <? previous_sequence then Err (message "ThingDB table layers are not in sequence order") else
      layers ← open_tables d manifest_sequence seq files;
      Ok (opened.2 :: layers)
  end.

Definition read_manifest (d : Disk) : tdb_result (option Manifest) :=
  match d !! MANIFEST_FILE with
  | None => Ok None
  | Some content =>
      m ← from_slice content;
      if negb (mf_format_version m =? FORMAT_VERSION)
      then Err (message ("unsupported ThingDB format version " +:+ format_pad 1 (mf_format_version m))) else
      _ ← validate_manifest m;
      Ok (Some m)
  end.

(** Returns the opened state and the directory it leaves. *)
Definition open_locked (b : DatabaseBuilder) (d : Disk) : tdb_result Db :=
  let d := cleanup_temporary_files d in
  manifest ← read_manifest d;
  let files := match manifest with Some m => effective_table_files m | None => [] end in
  layers ← (match manifest with
            | Some m => open_tables d (mf_table_sequence m) 0 files
            | None => Ok []
            end);
  let table_seq := match manifest with Some m => mf_table_sequence m | None => 0 end in
  let content := wal_content d in
  '(last_sequence, valid_offset, frames, st) ← replay_wal content table_seq ∅;
  let content := if valid_offset <? zlen content then take (Z.to_nat valid_offset) content else content in
  let d := <[WAL_FILE := content]> d in
  let d := match manifest with
           | None => <[MANIFEST_FILE := to_vec_pretty (mkManifest FORMAT_VERSION None [] 0)]> d
           | Some _ => d
           end in
  Ok (mkDb (mkInner false true st (Z.max last_sequence table_seq) table_seq files layers ∅ 0
              (b_max_journaling_size b) (b_max_memtable_bytes b) (b_max_table_layers b)
              (zlen content) frames false 0 false) d).

(** [open]: take the lock file, and give it back when opening fails. *)
Definition open (b : DatabaseBuilder) (d : Disk) : tdb_result Db * Disk :=
  match d !! LOCK_FILE with
  | Some _ => (Err (message "database is locked"), d)
  | None =>
      match open_locked b (<[LOCK_FILE := []]> d) with
      | Ok db => (Ok db, disk db)
      | Err error => (Err error, cleanup_temporary_files d)
      end
  end.

(** [Drop for Inner] releases the lock file. *)
Definition close (db : Db) : Disk := delete LOCK_FILE (disk db).
End database.
