(* ===== verification/Durable.v ===== *)
(** * ThingDB: what the durable database promises

    The abstract specification of the durable database is a finite map from
    physical keys to values.  [contents] is the abstraction function: pending
    writes over the replayed log over the table layers.  This file proves that
    reads compute it, that commits apply their operations to it, that flushes and
    compactions keep it, and what reopening does to it. *)

From S2P Require Import Prelude Wal Table Layer Database.

(** ** Overlays *)

(** [overlay p s]: the entries of [p] (a tombstone deletes) in front of [s]. *)
Definition overlay (p : bmap (option bytes)) (s : bmap bytes) : bmap bytes :=
  merge (fun o v => match o with Some x => x | None => v end) p s.

(** Newer layers shadow older ones. *)
Definition layers_view (ms : list (bmap (option bytes))) : bmap bytes :=
  foldl (fun acc m => overlay m acc) ∅ ms.

Section overlay.
Implicit Types p : bmap (option bytes).
Implicit Types s : bmap bytes.

Lemma lookup_overlay p s k :
  overlay p s !! k = match p !! k with Some x => x | None => s !! k end.
Proof. unfold overlay. rewrite lookup_merge. by destruct (p !! k), (s !! k). Qed.

Lemma overlay_empty s : overlay ∅ s = s.
Proof. apply map_eq. intros k. by rewrite lookup_overlay, lookup_empty. Qed.

Lemma overlay_put p s L k v :
  overlay (<[k := Some v]> p) (<[k := v]> s ∪ L) = <[k := v]> (overlay p (s ∪ L)).
Proof.
  apply map_eq. intros j. rewrite lookup_overlay. destruct (decide (j = k)) as [->|].
  - by rewrite !lookup_insert_eq.
  - rewrite !lookup_insert_ne, lookup_overlay, !lookup_union, lookup_insert_ne by done. done.
Qed.

Lemma overlay_delete p s L k :
  overlay (<[k := None]> p) (delete k s ∪ L) = delete k (overlay p (s ∪ L)).
Proof.
  apply map_eq. intros j. rewrite lookup_overlay. destruct (decide (j = k)) as [->|].
  - by rewrite lookup_insert_eq, lookup_delete_eq.
  - rewrite lookup_insert_ne, lookup_delete_ne, lookup_overlay, !lookup_union, lookup_delete_ne by done.
    done.
Qed.

Lemma layers_view_snoc ms m : layers_view (ms ++ [m]) = overlay m (layers_view ms).
Proof. unfold layers_view. by rewrite foldl_snoc. Qed.

(** Applying entries one by one, as the loops of [materialize_state] do. *)
Lemma lookup_foldl_insert_pending (l : list entry) s k :
  NoDup l.*1 ->
  foldl insert_pending s l !! k =
    match (list_to_map l : bmap (option bytes)) !! k with Some x => x | None => s !! k end.
Proof.
  revert s. induction l as [|[j x] l IH]; intros s; cbn [fmap list_fmap foldl fst].
  { intros _. cbn. by rewrite lookup_empty. }
  intros [Hj Hnd]%NoDup_cons. rewrite IH by done. cbn [list_to_map foldr uncurry].
  destruct (decide (k = j)) as [->|].
  - rewrite lookup_insert_eq, (not_elem_of_list_to_map_1 l) by done.
    unfold insert_pending; cbn. destruct x; by rewrite ?lookup_insert_eq, ?lookup_delete_eq.
  - rewrite lookup_insert_ne by done. destruct (_ !! k); [done|].
    unfold insert_pending; cbn. destruct x; by rewrite ?lookup_insert_ne, ?lookup_delete_ne by done.
Qed.

Lemma foldl_insert_pending p s : foldl insert_pending s (btree_iter p) = overlay p s.
Proof.
  apply map_eq. intros k.
  rewrite lookup_foldl_insert_pending, list_to_map_btree_iter, lookup_overlay; [done|].
  apply btree_keys_NoDup.
Qed.

Lemma foldl_insert_state (m s : bmap bytes) :
  foldl (fun st e => <[e.1 := e.2]> st) s (btree_iter m) = m ∪ s.
Proof.
  assert (Hl : forall l, NoDup l.*1 -> forall s,
    foldl (fun st e => <[e.1 := e.2]> st) s l = (list_to_map l : bmap bytes) ∪ s).
  { clear s. induction l as [|[j x] l IH]; cbn [fmap list_fmap foldl list_to_map foldr uncurry fst snd].
    { intros _ s. by rewrite map_empty_union. }
    intros [Hj Hnd]%NoDup_cons s. rewrite IH by done.
    rewrite <-insert_union_l, insert_union_r by (by apply not_elem_of_list_to_map_1). done. }
  rewrite Hl by apply btree_keys_NoDup. by rewrite list_to_map_btree_iter.
Qed.
End overlay.

(** ** The abstraction function *)

(** A table layer as it should be: its sequence number, the rest of its file name
    and the entries written to it. *)
Record LayerSpec := mkLayerSpec {
  ls_seq : Z;
  ls_suffix : string;
  ls_map : bmap (option bytes);
}.

Definition ls_name (s : LayerSpec) : string := "table-" +:+ format_pad 20 (ls_seq s) +:+ ls_suffix s.

Definition contents (i : Inner) (ls : list LayerSpec) : bmap bytes :=
  overlay (pending_table i) (state i ∪ layers_view (ls_map <$> ls)).

Section reads.
Context `{Crc32}.

Definition layers_repr (d : Disk) (layers : list TableLayer) (ls : list LayerSpec) : Prop :=
  Forall2 (fun layer s => tl_path layer = ls_name s /\ layer_repr d layer (ls_seq s) (ls_map s)) layers ls.

Lemma lookup_layers_repr d layers ls key :
  layers_repr d layers ls ->
  lookup_layers d (rev layers) key = Ok (layers_view (ls_map <$> ls) !! key).
Proof.
  revert layers. induction ls as [|s ls IH] using rev_ind; intros layers Hl.
  { apply Forall2_nil_inv_r in Hl as ->. done. }
  apply Forall2_app_inv_r in Hl as (l1&l2&Hl1&Hl2&->).
  apply Forall2_cons_inv_r in Hl2 as (layer&l3&[_ Hr]&Hl3&->). apply Forall2_nil_inv_r in Hl3 as ->.
  rewrite rev_app_distr. cbn [rev app lookup_layers].
  rewrite (layer_lookup_repr _ _ _ _ key Hr). run.
  rewrite fmap_app. cbn [fmap list_fmap]. rewrite layers_view_snoc, lookup_overlay.
  destruct (ls_map s !! key); [done|]. by apply IH.
Qed.

Lemma read_all_entries_occurs file off es st :
  zlen (records_layout es) <= U64_MAX -> occurs file off (records_layout es) ->
  read_all_entries file true (index_layout off es) st = Ok (foldl insert_pending st es).
Proof.
  revert off st. induction es as [|e es IH]; intros off st Hl Ho; [done|].
  cbn [index_layout read_all_entries foldl]. rewrite records_cons, length_app in Hl.
  rewrite records_cons in Ho. apply occurs_app in Ho as [He Ho].
  rewrite read_table_value_handle_occurs by (done || lia). run. rewrite IH by (done || lia). done.
Qed.

Lemma loaded_entries_repr d layer seq m :
  layer_repr d layer seq m -> loaded_entries d layer = Ok (index_layout 24 (btree_iter m)).
Proof.
  intros (chunks&Hseq&Hfit&Hc&Hne&Hdisk&Hfile&Hent&_). unfold table_fits in Hfit.
  pose proof (btree_keys_sorted m) as Hsort. unfold btree_keys in Hsort. rewrite <-Hc in *.
  by apply (loaded_entries_layout d layer seq chunks).
Qed.

Lemma read_all_entries_repr d layer seq m st :
  layer_repr d layer seq m ->
  read_all_entries (tl_file layer) (tl_is_v2 layer) (index_layout 24 (btree_iter m)) st
    = Ok (overlay m st).
Proof.
  intros (chunks&Hseq&Hfit&Hc&Hne&Hdisk&Hfile&Hent&_&->).
  rewrite read_all_entries_occurs; [by rewrite foldl_insert_pending| |].
  - unfold table_fits, table_limit in *. unfold_ints. lia.
  - rewrite Hfile. unfold table_layout. rewrite <-Hc.
    apply (occurs_here (header_layout seq (zlen (concat chunks)))).
Qed.

Lemma materialize_layers d layers ls st :
  layers_repr d layers ls ->
  fold_res (fun st layer =>
      entries ← loaded_entries d layer;
      read_all_entries (tl_file layer) (tl_is_v2 layer) entries st) st layers
    = Ok (foldl (fun acc m => overlay m acc) st (ls_map <$> ls)).
Proof.
  intros Hl. revert st. induction Hl as [|layer s layers ls [_ Hr] Hl IH]; intros st; [done|].
  cbn [fold_res fmap list_fmap foldl]. rewrite (loaded_entries_repr _ _ _ _ Hr). run.
  rewrite (read_all_entries_repr _ _ _ _ _ Hr). run. apply IH.
Qed.

Lemma materialize_contents db ls :
  layers_repr (disk db) (table_layers (inner db)) ls ->
  materialize_state (disk db) (inner db) = Ok (contents (inner db) ls).
Proof.
  intros Hl. unfold materialize_state. rewrite (materialize_layers _ _ ls) by done. run.
  rewrite foldl_insert_pending, foldl_insert_state. done.
Qed.

Lemma get_durable_contents db ls key :
  layers_repr (disk db) (table_layers (inner db)) ls ->
  get_durable_value db key = Ok (contents (inner db) ls !! key).
Proof.
  intros Hl. unfold get_durable_value, read_durable_value, contents. rewrite lookup_overlay.
  destruct (pending_table _ !! key) as [v|]; [done|]. rewrite lookup_union.
  destruct (state _ !! key) as [v|]; [by destruct (_ !! key)|].
  rewrite (lookup_layers_repr _ _ ls) by done. f_equal. by destruct (_ !! key).
Qed.

Lemma get_many_contents db ls keys :
  in_memory (inner db) = false ->
  layers_repr (disk db) (table_layers (inner db)) ls ->
  get_many_durable_values db keys = Ok ((fun key => contents (inner db) ls !! key) <$> keys).
Proof.
  intros Hm Hl. unfold get_many_durable_values, read_many_durable_values. rewrite Hm.
  assert (Hone : forall out key, resolve_value (inner db) (disk db) out (key, memory_value (inner db) key)
                   = Ok (out ++ [contents (inner db) ls !! key])).
  { intros out key. pose proof (get_durable_contents db ls key Hl) as Hk.
    unfold get_durable_value, read_durable_value in Hk. unfold resolve_value, memory_value; cbn [fst snd].
    destruct (pending_table _ !! key) as [v|]; [by injection Hk as <-|].
    destruct (state _ !! key) as [v|]; [by injection Hk as <-|]. rewrite Hk. by run. }
  assert (Hg : forall out, fold_res (resolve_value (inner db) (disk db)) out (zip keys (memory_value (inner db) <$> keys))
      = Ok (out ++ ((fun key => contents (inner db) ls !! key) <$> keys))).
  { induction keys as [|key keys IH]; intros out; [cbn; by rewrite app_nil_r|].
    rewrite !fmap_cons. cbn [zip_with fold_res]. rewrite Hone, bind_Ok, IH. by rewrite <-app_assoc. }
  apply Hg.
Qed.

(** The table files of a list of layers are as in [d], or gone. *)
Definition tables_kept (d files : Disk) (layers : list TableLayer) : Prop :=
  Forall (fun layer => files !! tl_path layer = d !! tl_path layer \/ files !! tl_path layer = None) layers.

(** A lookup finds what it would have found in [d], unless it fails. *)
Definition same_or_error {A} (r r' : tdb_result A) : Prop := r' = r \/ exists e, r' = Err e.

Lemma layer_lookup_kept d files layer key :
  files !! tl_path layer = d !! tl_path layer \/ files !! tl_path layer = None ->
  same_or_error (layer_lookup d layer key) (layer_lookup files layer key).
Proof.
  intros Hk. unfold layer_lookup, loaded_entries. destruct (tl_entries layer) as [es|]; [by left|].
  unfold fs_read. destruct Hk as [->| ->]; [by left|right; by eexists].
Qed.

Lemma lookup_layers_kept d files layers key :
  tables_kept d files layers -> same_or_error (lookup_layers d layers key) (lookup_layers files layers key).
Proof.
  induction 1 as [|layer layers Hl _ IH]; [by left|]. cbn [lookup_layers].
  destruct (layer_lookup_kept d files layer key Hl) as [->|[e ->]]; [|right; by eexists].
  destruct (layer_lookup d layer key) as [[v|]|e]; run; [by left|exact IH|by left].
Qed.

(** Reads beside other threads: the tables the reader copied are immutable files, which a
    compaction may have deleted since. *)
Lemma read_value_kept db files ls key :
  layers_repr (disk db) (table_layers (inner db)) ls -> tables_kept (disk db) files (table_layers (inner db)) ->
  same_or_error (Ok (contents (inner db) ls !! key)) (read_durable_value (inner db) files key).
Proof.
  intros Hl Hk. rewrite <-(get_durable_contents db ls key Hl). unfold get_durable_value, read_durable_value.
  destruct (pending_table _ !! key); [by left|]. destruct (state _ !! key); [by left|].
  apply lookup_layers_kept. by apply Forall_rev.
Qed.

Lemma read_many_kept db files ls keys :
  in_memory (inner db) = false -> layers_repr (disk db) (table_layers (inner db)) ls ->
  tables_kept (disk db) files (table_layers (inner db)) ->
  same_or_error (Ok ((fun key => contents (inner db) ls !! key) <$> keys)) (read_many_durable_values (inner db) files keys).
Proof.
  intros Hm Hl Hk. rewrite <-(get_many_contents db ls keys Hm Hl). unfold get_many_durable_values, read_many_durable_values. rewrite Hm.
  generalize (@nil (option bytes)). induction keys as [|key keys IH]; intros out; [by left|].
  rewrite !fmap_cons. cbn [zip_with fold_res].
  destruct (memory_value (inner db) key) as [v|]; cbn [resolve_value fst snd]; [run; apply IH|].
  destruct (lookup_layers_kept (disk db) files (rev (table_layers (inner db))) key) as [->|[e ->]];
    [by apply Forall_rev| |right; by eexists].
  destruct (lookup_layers (disk db) _ key); run; [apply IH|by left].
Qed.
End reads.

(** ** Sizes

    A table must stay below [table_limit]; [weight] is the number of bytes the
    entries of a map take in a table. *)

Section weight.
Context `{Crc32}.
Implicit Types p : bmap (option bytes).

Definition weight p : Z := zlen (records_layout (btree_iter p)).

Definition op_entry (op : Operation) : entry :=
  match op with Put k v => (k, Some v) | Delete k => (k, None) end.
Definition ops_weight (ops : list Operation) : Z := zlen (records_layout (op_entry <$> ops)).

Lemma records_perm es1 es2 : es1 ≡ₚ es2 -> zlen (records_layout es1) = zlen (records_layout es2).
Proof.
  induction 1 as [|e es1 es2 _ IH|e1 e2 es|es1 es2 es3 _ IH1 _ IH2]; [done| | |congruence];
    rewrite !records_cons, !length_app; [lia|]. lia.
Qed.

Lemma weight_to_list p : weight p = zlen (records_layout (map_to_list p)).
Proof. apply records_perm, btree_iter_perm. Qed.

Lemma weight_empty : weight ∅ = 0.
Proof. rewrite weight_to_list, map_to_list_empty. done. Qed.

Lemma weight_zero p : weight p = 0 -> p = ∅.
Proof.
  intros Hw. apply map_to_list_empty_iff. rewrite weight_to_list in Hw.
  destruct (map_to_list p) as [|e l]; [done|]. pose proof (records_layout_pos (e :: l) ltac:(done)). lia.
Qed.

Lemma weight_nonneg p : 0 <= weight p.
Proof. unfold weight. lia. Qed.

Lemma weight_insert_fresh p k x :
  p !! k = None -> weight (<[k := x]> p) = zlen (record_layout (k, x)) + weight p.
Proof.
  intros. rewrite !weight_to_list, (records_perm _ ((k, x) :: map_to_list p));
    [|by apply map_to_list_insert]. rewrite records_cons, length_app. lia.
Qed.

Lemma weight_delete p k : weight (delete k p) <= weight p.
Proof.
  destruct (p !! k) as [x|] eqn:Hk; [|by rewrite delete_id by done].
  rewrite <-(insert_delete_id p k x Hk) at 2.
  rewrite weight_insert_fresh by apply lookup_delete_eq. lia.
Qed.

Lemma weight_insert p k x : weight (<[k := x]> p) <= zlen (record_layout (k, x)) + weight p.
Proof.
  rewrite <-insert_delete_eq, weight_insert_fresh by apply lookup_delete_eq.
  pose proof (weight_delete p k). lia.
Qed.

Lemma weight_union (s L : bmap bytes) : weight (Some <$> (s ∪ L)) <= weight (Some <$> s) + weight (Some <$> L).
Proof.
  induction s as [|k v s Hk IH] using map_ind; [rewrite (left_id_L ∅ (∪)), fmap_empty, weight_empty; lia|].
  rewrite <-insert_union_l, !fmap_insert, (weight_insert_fresh (Some <$> s)) by (by rewrite lookup_fmap, Hk).
  pose proof (weight_insert (Some <$> (s ∪ L)) k (Some v)). lia.
Qed.

Lemma weight_overlay p (L : bmap bytes) : weight (Some <$> overlay p L) <= weight p + weight (Some <$> L).
Proof.
  induction p as [|k x p Hk IH] using map_ind; [rewrite overlay_empty, weight_empty; lia|].
  rewrite weight_insert_fresh by done. set (A := overlay p L) in *.
  assert (Hins : overlay (<[k := x]> p) L = match x with Some v => <[k := v]> A | None => delete k A end).
  { apply map_eq. intros k'. rewrite lookup_overlay. unfold A. destruct (decide (k = k')) as [<-|Hne].
    - rewrite lookup_insert_eq. destruct x; [by rewrite lookup_insert_eq|by rewrite lookup_delete_eq].
    - rewrite lookup_insert_ne by done. destruct x; [rewrite lookup_insert_ne by done|rewrite lookup_delete_ne by done]; by rewrite lookup_overlay. }
  rewrite Hins. destruct x as [v|].
  - rewrite fmap_insert. pose proof (weight_insert (Some <$> A) k (Some v)). lia.
  - rewrite fmap_delete. pose proof (weight_delete (Some <$> A) k). lia.
Qed.

Lemma ops_weight_nil : ops_weight [] = 0.
Proof. reflexivity. Qed.

Lemma ops_weight_cons op ops :
  ops_weight (op :: ops) = zlen (record_layout (op_entry op)) + ops_weight ops.
Proof. unfold ops_weight. rewrite fmap_cons, records_cons, length_app. lia. Qed.

Lemma weight_apply_operations (A : bmap bytes) ops :
  weight (Some <$> foldl apply_operation A ops) <= weight (Some <$> A) + ops_weight ops.
Proof.
  revert A. induction ops as [|op ops IH]; intros A; [rewrite ops_weight_nil; cbn [foldl]; lia|].
  rewrite ops_weight_cons. cbn [foldl]. etrans; [apply IH|].
  assert (weight (Some <$> apply_operation A op) <= zlen (record_layout (op_entry op)) + weight (Some <$> A)).
  { destruct op as [k v|k]; cbn [apply_operation op_entry].
    - rewrite fmap_insert. apply weight_insert.
    - rewrite fmap_delete. pose proof (weight_delete (Some <$> A) k). lia. }
  lia.
Qed.

Lemma weight_apply_pending st p bytes ops :
  weight (foldl apply_operation_with_pending (st, p, bytes) ops).1.2 <= weight p + ops_weight ops.
Proof.
  revert st p bytes. induction ops as [|op ops IH]; intros st p bytes;
    [rewrite ops_weight_nil; cbn [foldl fst snd]; lia|].
  rewrite ops_weight_cons. cbn [foldl].
  destruct (apply_operation_with_pending (st, p, bytes) op) as [[st' p'] b'] eqn:Hop.
  etrans; [apply IH|].
  assert (Hp : p' = <[(op_entry op).1 := (op_entry op).2]> p) by (destruct op; by injection Hop).
  rewrite Hp. destruct (op_entry op) as [k x] eqn:He; cbn [fst snd].
  pose proof (weight_insert p k x). lia.
Qed.
End weight.

(** ** Applying a batch *)

Section apply.
Lemma apply_pending_contents st p bytes L ops :
  let r := foldl apply_operation_with_pending (st, p, bytes) ops in
  overlay r.1.2 (r.1.1 ∪ L) = foldl apply_operation (overlay p (st ∪ L)) ops.
Proof.
  revert st p bytes. induction ops as [|op ops IH]; intros st p bytes; [done|].
  cbn [foldl]. destruct op as [k v|k]; cbn [apply_operation_with_pending apply_operation].
  - by rewrite IH, overlay_put.
  - by rewrite IH, overlay_delete.
Qed.

Lemma apply_pending_state st p bytes ops :
  (foldl apply_operation_with_pending (st, p, bytes) ops).1.1 = foldl apply_operation st ops.
Proof.
  revert st p bytes. induction ops as [|op ops IH]; intros st p bytes; [done|].
  cbn [foldl]. destruct op; cbn [apply_operation_with_pending apply_operation]; apply IH.
Qed.

(** Everything in the mutable state is also pending for the next table. *)
Definition covered (st : bmap bytes) (p : bmap (option bytes)) : Prop :=
  forall k v, st !! k = Some v -> p !! k = Some (Some v).

Lemma covered_overlay st p L : covered st p -> overlay p (st ∪ L) = overlay p L.
Proof.
  intros Hc. apply map_eq. intros k. rewrite !lookup_overlay, lookup_union.
  destruct (st !! k) as [v|] eqn:Hk; [by rewrite (Hc k v Hk)|].
  destruct (p !! k); [done|]. by destruct (L !! k).
Qed.

Lemma covered_apply st p bytes ops :
  covered st p ->
  let r := foldl apply_operation_with_pending (st, p, bytes) ops in covered r.1.1 r.1.2.
Proof.
  revert st p bytes. induction ops as [|op ops IH]; intros st p bytes Hc; [done|].
  cbn [foldl]. destruct op as [k v|k]; cbn [apply_operation_with_pending]; apply IH; intros j w Hj.
  - destruct (decide (k = j)) as [<-|].
    + rewrite lookup_insert_eq in Hj. rewrite lookup_insert_eq. congruence.
    + rewrite lookup_insert_ne in Hj by done. rewrite lookup_insert_ne by done. auto.
  - destruct (decide (j = k)) as [->|]; [by rewrite lookup_delete_eq in Hj|].
    rewrite lookup_delete_ne in Hj by done. rewrite lookup_insert_ne by done. auto.
Qed.

(** What is pending is what the mutable state says. *)
Lemma agree_apply st p bytes ops :
  (forall k x, p !! k = Some x -> st !! k = x) ->
  let r := foldl apply_operation_with_pending (st, p, bytes) ops in
  forall k x, r.1.2 !! k = Some x -> r.1.1 !! k = x.
Proof.
  revert st p bytes. induction ops as [|op ops IH]; intros st p bytes Hag; [done|].
  cbn [foldl]. destruct op as [k v|k]; cbn [apply_operation_with_pending]; apply IH; intros j x Hj;
    (destruct (decide (k = j)) as [<-|];
     [rewrite lookup_insert_eq in Hj; injection Hj as <-; by rewrite ?lookup_insert_eq, ?lookup_delete_eq|];
     rewrite lookup_insert_ne in Hj by done; rewrite ?lookup_insert_ne, ?lookup_delete_ne by done; auto).
Qed.

Lemma apply_pending_empty st p bytes ops :
  (foldl apply_operation_with_pending (st, p, bytes) ops).1.2 = ∅ -> ops = [].
Proof.
  assert (Hgrow : forall ops st p bytes, p <> ∅ ->
    (foldl apply_operation_with_pending (st, p, bytes) ops).1.2 <> ∅).
  { clear. induction ops as [|op ops IH]; intros st p bytes Hp; [done|].
    cbn [foldl]. destruct op; cbn [apply_operation_with_pending]; apply IH, insert_non_empty. }
  destruct ops as [|op ops]; [done|]. cbn [foldl]. intros He. exfalso. revert He.
  destruct op; cbn [apply_operation_with_pending]; apply Hgrow, insert_non_empty.
Qed.
End apply.

(** ** File names *)

Section names.
Fixpoint no_slash (s : string) : Prop :=
  match s with EmptyString => True | String c s => Ascii.nat_of_ascii c <> 47%nat /\ no_slash s end.

Lemma no_slash_app s t : no_slash s -> no_slash t -> no_slash (s +:+ t).
Proof.
  induction s as [|c s IH]; [done|]. change (String c s +:+ t) with (String c (s +:+ t)).
  cbn. intros [??] ?. auto.
Qed.

Lemma no_slash_digits l : Forall (fun d => 0 <= d < 10) l -> no_slash (string_of_digits l).
Proof.
  induction 1 as [|d l Hd _ IH]; cbn; [done|]. split; [|done].
  unfold digit_char. intros Heq. unfold Ascii.nat_of_ascii in Heq.
  rewrite Ascii.N_ascii_embedding in Heq by lia. lia.
Qed.

Lemma no_slash_pad w z : no_slash (format_pad w z).
Proof. unfold format_pad. destruct (_ <? _); apply no_slash_digits, digits_range; lia. Qed.

Lemma split_slash_no_slash cur s : no_slash s -> split_slash cur s = [cur +:+ s].
Proof.
  assert (Hnil : forall s : string, s +:+ EmptyString = s).
  { clear. induction s as [|c s IH]; [done|].
    change (String c s +:+ EmptyString) with (String c (s +:+ EmptyString)). by rewrite IH. }
  assert (Hassoc : forall (s : string) c t, (s +:+ String c EmptyString) +:+ t = s +:+ String c t).
  { clear. induction s as [|c s IH]; intros d t; [done|].
    change ((String c s +:+ String d EmptyString) +:+ t)
      with (String c ((s +:+ String d EmptyString) +:+ t)). by rewrite IH. }
  revert cur. induction s as [|c s IH]; intros cur; cbn; [by rewrite Hnil|].
  intros [Hc Hs]. rewrite bool_decide_false by done. by rewrite IH, Hassoc.
Qed.

Lemma validate_ls_name s : no_slash (ls_suffix s) -> validate_table_name (ls_name s) = Ok ().
Proof.
  intros Hs. unfold validate_table_name.
  rewrite split_slash_no_slash.
  - change ("" +:+ ls_name s) with (ls_name s). unfold ls_name.
    set (r := format_pad 20 (ls_seq s) +:+ ls_suffix s). done.
  - unfold ls_name. apply no_slash_app; [by repeat (split; [discriminate|])|]. apply no_slash_app; [apply no_slash_pad|done].
Qed.

Lemma ls_name_lt s1 s2 :
  0 <= ls_seq s1 < ls_seq s2 -> ls_seq s2 <= U64_MAX -> (ls_name s1) ≺ (ls_name s2).
Proof. intros. apply format_pad_lt; [done|]. unfold_ints. lia. Qed.

Lemma ls_name_table s : exists r, ls_name s = "table-" +:+ r.
Proof. eexists. reflexivity. Qed.

Lemma is_temporary_ls_name s : is_temporary (ls_name s) = false.
Proof. destruct (ls_name_table s) as [r ->]. reflexivity. Qed.
End names.

(** ** The invariant *)

Section invariant.
Context `{Crc32} `{ManifestCodec}.

(** The directory: the log holds the frames [log] and the manifest lists the
    layers [ls], whose sequences increase up to [tseq]. *)
Record disk_inv (d : Disk) (log : list (Z * list Operation)) (tail : bytes)
    (ls : list LayerSpec) (tseq : Z) : Prop := {
  di_wal : wal_content d = log_layout log ++ tail;
  di_tail : torn_tail tail;
  di_frames : Forall frame_ok log;
  di_wal_size : zlen (log_layout log) + zlen tail <= U64_MAX;
  di_manifest : d !! MANIFEST_FILE =
    Some (to_vec_pretty (mkManifest FORMAT_VERSION (last (ls_name <$> ls)) (ls_name <$> ls) tseq));
  di_layers : Forall (fun s => exists layer, tl_path layer = ls_name s /\
    layer_repr d layer (ls_seq s) (ls_map s)) ls;
  di_order : StronglySorted Z.lt (ls_seq <$> ls);
  di_range : Forall (fun s => 0 <= ls_seq s <= tseq) ls;
  di_suffix : Forall (fun s => no_slash (ls_suffix s)) ls;
  di_tseq : 0 <= tseq <= U64_MAX;
  di_empty : ls = [] -> tseq = 0;
}.

(** The in-memory state describes its directory. *)
Record db_inv (db : Db) (log : list (Z * list Operation)) (ls : list LayerSpec) : Prop := {
  inv_disk : disk_inv (disk db) log [] ls (table_sequence (inner db));
  inv_mode : in_memory (inner db) = false /\ wal (inner db) = true;
  inv_wal : disk db !! WAL_FILE = Some (log_layout log);
  inv_journal : journal_bytes (inner db) = zlen (log_layout log);
  inv_replay : apply_log (table_sequence (inner db), ∅) log = (sequence (inner db), state (inner db));
  inv_layers : layers_repr (disk db) (table_layers (inner db)) ls;
  inv_files : table_files (inner db) = ls_name <$> ls;
  inv_seq : table_sequence (inner db) <= sequence (inner db) <= U64_MAX;
  inv_fresh : pending_table (inner db) <> ∅ -> table_sequence (inner db) < sequence (inner db);
  inv_agree : forall k x, pending_table (inner db) !! k = Some x -> state (inner db) !! k = x;
  inv_memtable : 1 <= max_memtable_bytes (inner db);
}.

(** The refinement relation: a database in service represents the map [A]. *)
Definition db_repr (db : Db) (A : bmap bytes) : Prop :=
  exists log ls, db_inv db log ls /\ recovery_required (inner db) = false /\
    covered (state (inner db)) (pending_table (inner db)) /\ contents (inner db) ls = A.
End invariant.

(** Two directories that agree on the files the invariant reads. *)
Section frame.
Context `{Crc32} `{ManifestCodec}.

Lemma layers_repr_frame d d' layers ls :
  (forall s, s ∈ ls -> d' !! ls_name s = d !! ls_name s) ->
  layers_repr d layers ls -> layers_repr d' layers ls.
Proof.
  intros Hd Hl. induction Hl as [|layer s layers ls [Hp Hr] Hl IH]; constructor.
  - split; [done|]. eapply layer_repr_frame; [|done]. rewrite Hp. apply Hd. set_solver.
  - apply IH. intros. apply Hd. set_solver.
Qed.

Lemma layers_repr_exists d layers ls :
  layers_repr d layers ls ->
  Forall (fun s => exists layer, tl_path layer = ls_name s /\ layer_repr d layer (ls_seq s) (ls_map s)) ls.
Proof. induction 1; constructor; eauto. Qed.

Lemma disk_layers_frame d d' ls :
  (forall s, s ∈ ls -> d' !! ls_name s = d !! ls_name s) ->
  Forall (fun s => exists layer, tl_path layer = ls_name s /\ layer_repr d layer (ls_seq s) (ls_map s)) ls ->
  Forall (fun s => exists layer, tl_path layer = ls_name s /\ layer_repr d' layer (ls_seq s) (ls_map s)) ls.
Proof.
  intros Hd Hl. apply Forall_forall. intros s Hs. rewrite Forall_forall in Hl.
  destruct (Hl s Hs) as (layer&Hp&Hr). exists layer. split; [done|].
  eapply layer_repr_frame; [|done]. rewrite Hp. by apply Hd.
Qed.
End frame.

(** ** Publishing a table *)

Section publish.
Context `{Crc32} `{ManifestCodec}.

Lemma fs_rename_run i d from to content :
  d !! from = Some content ->
  fs_rename from to (mkDb i d) = (Ok (), mkDb i (<[to := content]> (delete from d))).
Proof. intros Hd. unfold fs_rename. step_M. unfold fs_read. rewrite Hd. cbn [ok_or]. step_M. done. Qed.

Lemma write_table_file_run path seq m i d :
  table_fits m ->
  exists content, write_table seq m = Ok content /\
    write_table_file path seq m (mkDb i d) = (Ok (), mkDb i (<[path := content]> d)).
Proof.
  intros Hfit. destruct (write_table_layout seq m Hfit) as (chunks&_&_&Hw).
  eexists. split; [done|]. unfold write_table_file. rewrite Hw. step_M. done.
Qed.

(** The directory after a table has been written, renamed and listed. *)
Definition publish_table (d : Disk) (name : string) (content : bytes) : Disk :=
  <[name := content]> (delete (temp_name name) (<[temp_name name := content]> d)).
Definition publish_manifest (d : Disk) (m : Manifest) : Disk :=
  <[MANIFEST_FILE := to_vec_pretty m]> (delete MANIFEST_TEMP_FILE (<[MANIFEST_TEMP_FILE := to_vec_pretty m]> d)).

Lemma write_manifest_run m i d :
  write_manifest m None (mkDb i d) = (Ok (), mkDb i (publish_manifest d m)).
Proof.
  unfold write_manifest. step_M. step_M.
  erewrite fs_rename_run; [done|]. apply lookup_insert_eq.
Qed.

Lemma publish_table_other d name content f :
  f <> name -> f <> temp_name name -> publish_table d name content !! f = d !! f.
Proof.
  intros. unfold publish_table. rewrite lookup_insert_ne, lookup_delete_ne, lookup_insert_ne by congruence.
  done.
Qed.

Lemma publish_manifest_other d m f :
  f <> MANIFEST_FILE -> f <> MANIFEST_TEMP_FILE -> publish_manifest d m !! f = d !! f.
Proof.
  intros. unfold publish_manifest. rewrite lookup_insert_ne, lookup_delete_ne, lookup_insert_ne by congruence.
  done.
Qed.

(** What a flush leaves in memory. *)
Definition flushed_inner (i : Inner) (layer : TableLayer) (name : string) : Inner :=
  mkInner (in_memory i) (wal i) ∅ (sequence i) (sequence i) (table_files i ++ [name])
    (table_layers i ++ [layer]) ∅ 0 (max_journaling_size i) (max_memtable_bytes i)
    (max_table_layers i) 0 0 (recovery_required i) (u64_saturating_add (state_generation i) 1)
    (flush_scheduled i).

Definition flushed_disk (i : Inner) (d : Disk) (content : bytes) : Disk :=
  let name := flush_table_name (sequence i) (zlen (table_files i)) in
  publish_manifest (publish_table d name content)
    (mkManifest FORMAT_VERSION (Some name) (table_files i ++ [name]) (sequence i)).

Lemma flush_body_run i d updates :
  wal i = true -> 0 <= sequence i <= U64_MAX -> table_fits updates ->
  let name := flush_table_name (sequence i) (zlen (table_files i)) in
  exists content layer,
    let d' := flushed_disk i d content in
    write_table (sequence i) updates = Ok content /\
    tl_path layer = name /\ layer_repr d' layer (sequence i) updates /\
    flush_body updates None (mkDb i d) =
      (Ok (), mkDb (mkInner (in_memory i) (wal i) ∅ (sequence i) (sequence i) (table_files i ++ [name])
                      (table_layers i ++ [layer]) (pending_table i) 0 (max_journaling_size i)
                      (max_memtable_bytes i) (max_table_layers i) 0 0 (recovery_required i)
                      (state_generation i) (flush_scheduled i)) (<[WAL_FILE := []]> d')).
Proof.
  intros Hw Hs Hfit name.
  destruct (write_table_file_run (temp_name name) (sequence i) updates i d Hfit) as (content&Hwt&Hrun).
  destruct (open_layer_written (flushed_disk i d content) name (sequence i) updates content)
    as (layer&Hopen&Hpath&Hrepr); [done..| |].
  { unfold flushed_disk. rewrite publish_manifest_other by done. apply lookup_insert_eq. }
  exists content, layer. split_and!; [done..|].
  unfold flush_body. step_M. step_M. fold name. erewrite M_bind_Ok by exact Hrun. step_M. step_M.
  erewrite M_bind_Ok by (apply fs_rename_run, lookup_insert_eq). step_M. step_M.
  erewrite M_bind_Ok by apply write_manifest_run. step_M. step_M. step_M.
  change (publish_manifest _ _) with (flushed_disk i d content). rewrite Hopen.
  do 5 step_M. erewrite M_bind_Ok by (unfold require_wal; step_M; cbn; rewrite Hw; reflexivity).
  reflexivity.
Qed.

Lemma flush_run i d :
  recovery_required i = false -> pending_table i <> ∅ -> wal i = true ->
  0 <= sequence i <= U64_MAX -> table_fits (pending_table i) ->
  let name := flush_table_name (sequence i) (zlen (table_files i)) in
  exists content layer,
    let d' := flushed_disk i d content in
    write_table (sequence i) (pending_table i) = Ok content /\
    tl_path layer = name /\ layer_repr d' layer (sequence i) (pending_table i) /\
    flush_table_locked None (mkDb i d) =
      (Ok (), mkDb (flushed_inner i layer name) (<[WAL_FILE := []]> d')).
Proof.
  intros Hrr Hp Hw Hs Hfit name.
  destruct (flush_body_run (set_pending i ∅ (pending_table_bytes i)) d (pending_table i) Hw Hs Hfit)
    as (content&layer&Hwt&Hpath&Hrepr&Hrun).
  exists content, layer. split_and!; [done..|].
  unfold flush_table_locked. step_M. rewrite Hrr, bool_decide_false by done. step_M.
  erewrite M_bind_Ok by (unfold attempt; rewrite Hrun; reflexivity). cbn [when].
  step_M. step_M. unfold lift, flushed_inner. reflexivity.
Qed.
End publish.

(** ** Directory updates keep the invariant *)

Section disk_updates.
Context `{Crc32} `{ManifestCodec}.

Lemma ls_name_inj_lt s1 s2 :
  0 <= ls_seq s1 < ls_seq s2 -> ls_seq s2 <= U64_MAX -> ls_name s1 <> ls_name s2.
Proof. intros Hs Hu Heq. pose proof (ls_name_lt s1 s2 Hs Hu) as Hlt. rewrite Heq in Hlt.
  by apply key_lt_irrefl in Hlt. Qed.

(** No table file is named like the log, the manifest or a temporary file. *)
Lemma ls_name_special s f :
  f ∈ [WAL_FILE; MANIFEST_FILE; MANIFEST_TEMP_FILE; LOCK_FILE] -> ls_name s <> f.
Proof.
  destruct (ls_name_table s) as [r ->]. intros Hf Heq. subst f.
  repeat (apply elem_of_cons in Hf as [Hf|Hf]; [discriminate Hf|]). set_solver.
Qed.

Lemma ls_name_temp s t : ls_name s <> temp_name t.
Proof. destruct (ls_name_table s) as [r ->]. discriminate. Qed.

(** Rewriting the log. *)
Lemma disk_inv_wal d log tail ls tseq log' :
  disk_inv d log tail ls tseq -> Forall frame_ok log' -> zlen (log_layout log') <= U64_MAX ->
  disk_inv (<[WAL_FILE := log_layout log']> d) log' [] ls tseq.
Proof.
  intros [] Hf Hl. split; try done.
  - unfold wal_content. rewrite lookup_insert_eq. cbn. by rewrite app_nil_r.
  - apply torn_tail_nil.
  - cbn. lia.
  - rewrite lookup_insert_ne by done. done.
  - eapply disk_layers_frame; [|done]. intros s _. rewrite lookup_insert_ne; [done|].
    symmetry. apply ls_name_special. set_solver.
Qed.

(** Adding a newer table and listing it in the manifest. *)
Lemma disk_inv_publish d log tail ls tseq s content layer :
  let d' := publish_manifest (publish_table d (ls_name s) content)
    (mkManifest FORMAT_VERSION (Some (ls_name s)) ((ls_name <$> ls) ++ [ls_name s]) (ls_seq s)) in
  disk_inv d log tail ls tseq -> tseq < ls_seq s -> ls_seq s <= U64_MAX -> no_slash (ls_suffix s) ->
  tl_path layer = ls_name s -> layer_repr d' layer (ls_seq s) (ls_map s) ->
  (forall s', s' ∈ ls -> d' !! ls_name s' = d !! ls_name s') /\
  disk_inv d' log tail (ls ++ [s]) (ls_seq s).
Proof.
  intros d' [] Hlt Hu Hns Hpath Hrepr.
  assert (Hother : forall s', s' ∈ ls -> d' !! ls_name s' = d !! ls_name s').
  { intros s' Hs'. rewrite Forall_forall in di_range0. specialize (di_range0 s' Hs').
    unfold d'. rewrite publish_manifest_other by (apply ls_name_special; set_solver).
    apply publish_table_other; [|apply ls_name_temp]. apply ls_name_inj_lt; lia. }
  split; [done|]. split; try done.
  - unfold wal_content, d'. rewrite publish_manifest_other by done.
    rewrite publish_table_other; [done| |done]. intros Heq. symmetry in Heq. revert Heq.
    apply ls_name_special. set_solver.
  - unfold d', publish_manifest. rewrite lookup_insert_eq, fmap_app. cbn [fmap list_fmap]. by rewrite last_snoc.
  - apply Forall_app. split; [by eapply disk_layers_frame|]. apply Forall_singleton. eauto.
  - rewrite fmap_app. apply StronglySorted_app. split_and!; [|done|by repeat constructor].
    intros x1 x2 (s1&->&Hs1)%list_elem_of_fmap Hx2. rewrite Forall_forall in di_range0.
    specialize (di_range0 s1 Hs1). apply list_elem_of_singleton in Hx2 as ->. lia.
  - apply Forall_app. split; [|apply Forall_singleton; lia].
    eapply Forall_impl; [exact di_range0|]. cbn. lia.
  - apply Forall_app. split; [done|]. by apply Forall_singleton.
  - lia.
  - intros Hnil. destruct ls; done.
Qed.
End disk_updates.

(** ** Flush keeps the contents *)

(** The parts of the state that maintenance does not touch. *)
Definition same_settings (i i' : Inner) : Prop :=
  sequence i' = sequence i /\ max_journaling_size i' = max_journaling_size i /\
  max_memtable_bytes i' = max_memtable_bytes i /\ max_table_layers i' = max_table_layers i.

Lemma same_settings_refl i : same_settings i i.
Proof. done. Qed.

Lemma same_settings_trans i j k : same_settings i j -> same_settings j k -> same_settings i k.
Proof. unfold same_settings. intuition congruence. Qed.

Section flush.
Context `{Crc32} `{ManifestCodec}.

(** A flush moves the pending table into a new layer.  Without [covered], the part
    of the mutable state that is not pending is dropped. *)
Lemma flush_inv db log ls :
  db_inv db log ls -> recovery_required (inner db) = false ->
  pending_table (inner db) <> ∅ -> weight (pending_table (inner db)) <= table_limit ->
  exists db' s, flush_table_locked None db = (Ok (), db') /\
    ls_map s = pending_table (inner db) /\ db_inv db' [] (ls ++ [s]) /\
    same_settings (inner db) (inner db') /\ recovery_required (inner db') = false /\
    state (inner db') = ∅ /\ pending_table (inner db') = ∅ /\ pending_table_bytes (inner db') = 0.
Proof.
  intros Hinv Hrr Hp Hwt. destruct db as [i d]; cbn [inner disk] in *. destruct Hinv as [Hdisk [Hmem Hwal] Hwalf Hj Hrep Hlay Hfiles Hseq Hfr Hag Hmt].
  cbn [inner disk] in *. specialize (Hfr Hp). pose proof (di_tseq _ _ _ _ _ Hdisk) as Hts.
  destruct (flush_run i d) as (content&layer&Hw&Hpath&Hrepr&Hrun); [done..|lia|exact Hwt|].
  set (s := mkLayerSpec (sequence i) ("-" +:+ format_pad 4 (zlen (table_files i)) +:+ ".tdb") (pending_table i)).
  change (flush_table_name (sequence i) (zlen (table_files i))) with (ls_name s) in *.
  unfold flushed_disk in Hrun, Hrepr.
  change (flush_table_name (sequence i) (zlen (table_files i))) with (ls_name s) in *.
  rewrite Hfiles in Hrun, Hrepr.
  destruct (disk_inv_publish d log [] ls (table_sequence i) s content layer) as [Hother Hd'];
    [done|cbn; lia|cbn; lia| |done..|].
  { apply no_slash_app; [by repeat (split; [discriminate|])|]. apply no_slash_app; [apply no_slash_pad|].
    by repeat (split; [discriminate|]). }
  set (d' := publish_manifest _ _) in *.
  pose proof (disk_inv_wal _ _ _ _ _ [] Hd' ltac:(constructor) ltac:(cbn; unfold_ints; lia)) as Hd''.
  change (log_layout []) with (@nil Z) in Hd''.
  assert (Hfinal : forall s', s' ∈ ls ++ [s] -> <[WAL_FILE := []]> d' !! ls_name s' = d' !! ls_name s').
  { intros s' _. rewrite lookup_insert_ne; [done|]. symmetry. apply ls_name_special. set_solver. }
  eexists _, s. split_and!; [exact Hrun|done| |done..].
  split; cbn [inner disk flushed_inner in_memory wal state sequence table_sequence table_files
              table_layers pending_table journal_bytes max_memtable_bytes]; try done.
  - by rewrite lookup_insert_eq.
  - apply Forall2_app.
    + eapply layers_repr_frame; [|exact Hlay]. intros s' Hs'.
      rewrite Hfinal by set_solver. by apply Hother.
    + constructor; [|done]. split; [done|]. eapply layer_repr_frame; [|exact Hrepr].
      rewrite Hpath. apply Hfinal. set_solver.
  - by rewrite Hfiles, fmap_app.
  - lia.
Qed.

Lemma flush_refines db A :
  db_repr db A -> weight (pending_table (inner db)) <= table_limit ->
  exists db', flush_table_locked None db = (Ok (), db') /\ db_repr db' A /\
    same_settings (inner db) (inner db') /\ weight (pending_table (inner db')) = 0 /\
    journal_bytes (inner db') <= journal_bytes (inner db).
Proof.
  intros (log&ls&Hinv&Hrr&Hcov&HA) Hwt.
  destruct (decide (pending_table (inner db) = ∅)) as [He|Hne].
  { exists db. split_and!; [|by exists log, ls|done|by rewrite He, weight_empty|lia].
    unfold flush_table_locked. destruct db as [i d]; cbn [inner] in *. step_M.
    rewrite Hrr, bool_decide_true by done. unfold require_wal. step_M.
    destruct (inv_mode _ _ _ Hinv) as [_ Hw]. cbn [inner] in Hw. by rewrite Hw. }
  destruct (flush_inv db log ls) as (db'&s&Hrun&Hs&Hinv'&Hset&Hrr'&Hst&Hpe&_); [done..|].
  exists db'. split_and!; [done| |done|by rewrite Hpe, weight_empty|
    rewrite (inv_journal _ _ _ Hinv), (inv_journal _ _ _ Hinv'); cbn; lia].
  exists [], (ls ++ [s]). split_and!; [done..| |].
  - rewrite Hst. intros k v Hk. by rewrite lookup_empty in Hk.
  - unfold contents in *. rewrite Hst, Hpe, overlay_empty, map_empty_union.
    rewrite fmap_app. cbn [fmap list_fmap]. rewrite layers_view_snoc, Hs, <-HA.
    symmetry. by apply covered_overlay.
Qed.
End flush.

(** ** Compaction keeps the contents *)

Section compaction.
Context `{Crc32} `{ManifestCodec}.

Definition remove_old (name : string) (files : list string) (d : Disk) : Disk :=
  foldl (fun d old => if bool_decide (old = name) then d else delete old d) d files.

Lemma remove_old_other name files d f :
  f = name \/ f ∉ files -> remove_old name files d !! f = d !! f.
Proof.
  intros Hf. unfold remove_old. revert d. induction files as [|old files IH]; intros d; [done|].
  cbn [foldl]. rewrite IH by set_solver. case_bool_decide; [done|].
  apply lookup_delete_ne. set_solver.
Qed.

(** One table that holds everything replaces all layers. *)
Lemma disk_inv_replace d log tail ls tseq s content layer :
  let files := ls_name <$> ls in
  let d' := remove_old (ls_name s) files (publish_manifest (publish_table d (ls_name s) content)
    (mkManifest FORMAT_VERSION (Some (ls_name s)) [ls_name s] (ls_seq s))) in
  disk_inv d log tail ls tseq -> 0 <= ls_seq s <= U64_MAX -> no_slash (ls_suffix s) ->
  tl_path layer = ls_name s -> layer_repr d' layer (ls_seq s) (ls_map s) ->
  disk_inv d' log tail [s] (ls_seq s).
Proof.
  intros files d' [] Hs Hns Hpath Hrepr.
  assert (Hspecial : forall f, f ∈ [WAL_FILE; MANIFEST_FILE; LOCK_FILE] -> f ∉ files).
  { intros f Hf (s'&->&_)%list_elem_of_fmap. assert (ls_name s' <> ls_name s'); [|done].
    apply ls_name_special. set_solver. }
  split; try done.
  - unfold wal_content, d'. rewrite remove_old_other by (right; apply Hspecial; set_solver).
    rewrite publish_manifest_other by done. rewrite publish_table_other; [done| |done].
    intros Heq. symmetry in Heq. revert Heq. apply ls_name_special. set_solver.
  - unfold d'. rewrite remove_old_other by (right; apply Hspecial; set_solver).
    apply lookup_insert_eq.
  - apply Forall_singleton. eauto.
  - repeat constructor.
  - apply Forall_singleton. lia.
  - by apply Forall_singleton.
Qed.

Lemma loaded_all d layers ls :
  layers_repr d layers ls ->
  fold_res (fun _ layer => _ ← loaded_entries d layer; Ok ()) () layers = Ok ().
Proof.
  induction 1 as [|layer s layers ls [_ Hr] Hl IH]; [done|]. cbn [fold_res].
  rewrite (loaded_entries_repr _ _ _ _ Hr). by run.
Qed.

Definition compacted_inner (i : Inner) (layer : TableLayer) (name : string) : Inner :=
  mkInner (in_memory i) (wal i) ∅ (sequence i) (sequence i) [name]
    [layer] ∅ 0 (max_journaling_size i) (max_memtable_bytes i)
    (max_table_layers i) 0 0 (recovery_required i) (u64_saturating_add (state_generation i) 1)
    (flush_scheduled i).

Lemma compact_run i d ls :
  layers_repr d (table_layers i) ls ->
  recovery_required i = false -> wal i = true ->
  0 <= sequence i <= U64_MAX -> table_fits (Some <$> contents i ls) ->
  let name := compact_table_name (sequence i) in
  exists content layer,
    let d' := remove_old name (table_files i) (publish_manifest (publish_table d name content)
                (mkManifest FORMAT_VERSION (Some name) [name] (sequence i))) in
    tl_path layer = name /\ layer_repr d' layer (sequence i) (Some <$> contents i ls) /\
    compact_tables_locked None (mkDb i d) =
      (Ok (), mkDb (compacted_inner i layer name) (<[WAL_FILE := []]> d')).
Proof.
  intros Hl Hrr Hw Hs Hfit name.
  destruct (write_table_file_run (temp_name name) (sequence i) (Some <$> contents i ls) i d Hfit)
    as (content&Hwt&Hrun).
  set (d' := remove_old name (table_files i) (publish_manifest (publish_table d name content)
                (mkManifest FORMAT_VERSION (Some name) [name] (sequence i)))).
  destruct (open_layer_written d' name (sequence i) (Some <$> contents i ls) content)
    as (layer&Hopen&Hpath&Hrepr); [done..| |].
  { unfold d'. rewrite remove_old_other by auto. rewrite publish_manifest_other by done.
    apply lookup_insert_eq. }
  exists content, layer. split_and!; [done..|]. fold d'.
  unfold compact_tables_locked. step_M. rewrite Hrr.
  assert (Hreq : forall i' d, wal i' = true -> require_wal (mkDb i' d) = (Ok (), mkDb i' d)).
  { intros i' d0 Hw'. unfold require_wal. step_M. by rewrite Hw'. }
  erewrite M_bind_Ok by (by apply Hreq). fold name. rewrite (loaded_all _ _ ls Hl). step_M.
  change (materialize_state d i) with (materialize_state (disk (mkDb i d)) (inner (mkDb i d))).
  rewrite (materialize_contents (mkDb i d) ls Hl). step_M. step_M.
  erewrite M_bind_Ok by exact Hrun. step_M. step_M.
  erewrite M_bind_Ok by (apply fs_rename_run, lookup_insert_eq). step_M. step_M.
  erewrite M_bind_Ok by apply write_manifest_run. step_M. step_M. step_M. step_M.
  fold (remove_old name (table_files i)).
  change (foldl _ _ (table_files i)) with d'. rewrite Hopen.
  do 6 step_M. erewrite M_bind_Ok by (by apply Hreq). reflexivity.
Qed.

(** Compaction folds the whole contents into one table.  It reads the mutable
    state as well, so it keeps recovered writes too. *)
Lemma compact_inv db log ls :
  db_inv db log ls -> recovery_required (inner db) = false ->
  weight (Some <$> contents (inner db) ls) <= table_limit ->
  exists db' s, compact_tables_locked None db = (Ok (), db') /\ db_inv db' [] [s] /\
    ls_map s = Some <$> contents (inner db) ls /\
    same_settings (inner db) (inner db') /\ recovery_required (inner db') = false /\
    state (inner db') = ∅ /\ pending_table (inner db') = ∅ /\ pending_table_bytes (inner db') = 0.
Proof.
  intros Hinv Hrr Hwt. destruct db as [i d]; cbn [inner disk] in *.
  destruct Hinv as [Hdisk [Hmem Hwal] Hwalf Hj Hrep Hlay Hfiles Hseq Hfr Hag Hmt].
  cbn [inner disk] in *. pose proof (di_tseq _ _ _ _ _ Hdisk) as Hts.
  destruct (compact_run i d ls) as (content&layer&Hpath&Hrepr&Hrun); [done..|lia|exact Hwt|].
  set (s := mkLayerSpec (sequence i) "-compact.tdb" (Some <$> contents i ls)).
  change (compact_table_name (sequence i)) with (ls_name s) in *. rewrite Hfiles in Hrun, Hrepr.
  pose proof (disk_inv_replace d log [] ls (table_sequence i) s content layer Hdisk ltac:(cbn; lia)
    ltac:(by repeat (split; [discriminate|])) Hpath Hrepr) as Hd'.
  set (d' := remove_old _ _ _) in *.
  pose proof (disk_inv_wal _ _ _ _ _ [] Hd' ltac:(constructor) ltac:(cbn; unfold_ints; lia)) as Hd''.
  change (log_layout []) with (@nil Z) in Hd''.
  eexists _, s. split_and!; [exact Hrun| |done..].
  split; cbn [inner disk compacted_inner in_memory wal state sequence table_sequence table_files
              table_layers pending_table journal_bytes max_memtable_bytes]; try done.
  - by rewrite lookup_insert_eq.
  - constructor; [|done]. split; [done|]. eapply layer_repr_frame; [|exact Hrepr].
    rewrite Hpath. rewrite lookup_insert_ne; [done|]. symmetry. apply ls_name_special. set_solver.
  - lia.
Qed.

Lemma layers_view_compacted A : layers_view [Some <$> A] = A.
Proof.
  apply map_eq. intros k. unfold layers_view. cbn [foldl].
  rewrite lookup_overlay, lookup_fmap, lookup_empty. by destruct (A !! k).
Qed.

Lemma compacted_contents db db' ls s :
  ls_map s = Some <$> contents (inner db) ls ->
  state (inner db') = ∅ -> pending_table (inner db') = ∅ ->
  contents (inner db') [s] = contents (inner db) ls.
Proof.
  intros Hs Hst Hp. unfold contents at 1. rewrite Hst, Hp, overlay_empty, map_empty_union.
  cbn [fmap list_fmap]. by rewrite Hs, layers_view_compacted.
Qed.

Lemma compact_refines db A :
  db_repr db A -> weight (Some <$> A) <= table_limit ->
  exists db', compact_tables_locked None db = (Ok (), db') /\ db_repr db' A /\
    same_settings (inner db) (inner db') /\ weight (pending_table (inner db')) = 0.
Proof.
  intros (log&ls&Hinv&Hrr&Hcov&<-) Hwt.
  destruct (compact_inv db log ls) as (db'&s&Hrun&Hinv'&Hs&Hset&Hrr'&Hst&Hpe&_); [done..|].
  exists db'. split_and!; [done| |done|by rewrite Hpe, weight_empty].
  exists [], [s]. split_and!; [done..| |by apply compacted_contents].
  rewrite Hst. intros k v Hk. by rewrite lookup_empty in Hk.
Qed.
End compaction.
