(* ===== verification/Commit.v ===== *)
(** * ThingDB: commits refine map updates

    [process_group] encodes the requests of a group as consecutive log frames,
    appends and syncs them, applies them to the mutable state and runs the
    automatic maintenance.  This file proves that it applies exactly the requested
    operations to the contents, what a group leaves that fails before its frames are
    synced, and how failures after the sync are handled. *)

From S2P Require Import Prelude Wal Table Layer Database Durable.

Section encoding.
Context `{Crc32}.

(** The frames of a group: consecutive sequence numbers from [s] on. *)
Fixpoint number_requests (s : Z) (requests : list CommitRequest) : list (Z * list Operation) :=
  match requests with
  | [] => []
  | r :: requests => (s, cr_operations r) :: number_requests (s + 1) requests
  end.

Definition group_operations (requests : list CommitRequest) : list Operation :=
  concat (cr_operations <$> requests).

Lemma number_requests_ok s requests :
  0 <= s -> s + zlen requests <= U64_MAX ->
  Forall (fun r => zlen (cr_operations r) <= U32_MAX) requests ->
  Forall frame_ok (number_requests s requests).
Proof.
  intros Hs Hu Hr. revert s Hs Hu. induction Hr as [|r requests Hr Hrs IH]; intros s Hs Hu; constructor.
  - split; cbn [fst snd length] in *; [lia|done].
  - apply IH; cbn [length] in Hu; lia.
Qed.

Lemma log_layout_cons f log : log_layout (f :: log) = frame_layout f.1 f.2 ++ log_layout log.
Proof. reflexivity. Qed.

Lemma log_layout_app log1 log2 : log_layout (log1 ++ log2) = log_layout log1 ++ log_layout log2.
Proof. unfold log_layout. by rewrite fmap_app, concat_app. Qed.

Lemma encode_group_layout s requests :
  0 <= s -> s + zlen requests <= U64_MAX ->
  Forall (fun r => zlen (cr_operations r) <= U32_MAX) requests ->
  zlen (log_layout (number_requests s requests)) <= U64_MAX ->
  encode_group s requests = Ok (log_layout (number_requests s requests), s + zlen requests).
Proof.
  intros Hs Hu Hr Hl. unfold encode_group.
  assert (Hg : forall buffer, fold_res (fun acc r =>
    buffer ← encode_frame_into acc.1 acc.2 (cr_operations r);
    Ok (buffer, u64_saturating_add acc.2 1)) (buffer, s) requests
      = Ok (buffer ++ log_layout (number_requests s requests), s + zlen requests)); [|apply Hg].
  revert s Hs Hu Hl. induction Hr as [|r requests Hr Hrs IH]; intros s Hs Hu Hl buffer;
    cbn [fold_res number_requests].
  { rewrite app_nil_r, Z.add_0_r. done. }
  cbn [number_requests length] in *. rewrite log_layout_cons, length_app in *. cbn [fst snd] in *.
  rewrite encode_frame_into_layout; [|split; cbn [fst snd]; lia|lia].
  rewrite bind_Ok. cbn [fst snd]. rewrite bind_Ok.
  replace (u64_saturating_add s 1) with (s + 1) by (unfold_ints; lia).
  rewrite IH by lia. rewrite <-app_assoc. do 2 f_equal. lia.
Qed.

Lemma apply_log_number ts st log s requests seq st' :
  apply_log (ts, st) log = (seq, st') -> s = seq + 1 ->
  apply_log (ts, st) (log ++ number_requests s requests)
    = (seq + zlen requests, foldl apply_operation st' (group_operations requests)).
Proof.
  intros Hlog ->. unfold apply_log in *. rewrite foldl_app, Hlog. clear Hlog log ts st.
  revert seq st'. induction requests as [|r requests IH]; intros seq st'.
  { cbn. f_equal. lia. }
  cbn [number_requests foldl]. unfold apply_frame at 2. cbn [fst snd].
  destruct (Z.ltb_spec seq (seq + 1)); [|lia]. rewrite IH. unfold group_operations.
  rewrite fmap_cons. cbn [concat]. rewrite foldl_app. cbn [length]. f_equal. lia.
Qed.
End encoding.

(** No injected fault. *)
Definition no_faults (requests : list CommitRequest) : Prop :=
  Forall (fun r => cr_fault_point r = None) requests.

Lemma request_has_fault_None requests point : no_faults requests -> request_has_fault requests point = None.
Proof.
  intros Hf. unfold request_has_fault. replace (existsb _ requests) with false; [done|].
  induction Hf as [|r requests Hr Hf IH]; [done|]. cbn. rewrite Hr, <-IH. done.
Qed.

Section commit.
Context `{Crc32} `{ManifestCodec}.

(** What a commit leaves before maintenance runs. *)
Definition committed_inner (i : Inner) (requests : list CommitRequest) : Inner :=
  let r := foldl apply_operation_with_pending (state i, pending_table i, pending_table_bytes i)
             (group_operations requests) in
  mkInner (in_memory i) (wal i) r.1.1 (sequence i + zlen requests) (table_sequence i) (table_files i)
    (table_layers i) r.1.2 r.2 (max_journaling_size i) (max_memtable_bytes i) (max_table_layers i)
    (journal_bytes i + zlen (log_layout (number_requests (sequence i + 1) requests)))
    (u64_saturating_add (frame_count i) (zlen requests)) (recovery_required i)
    (u64_saturating_add (state_generation i) 1) (flush_scheduled i).

Definition committed (db : Db) (requests : list CommitRequest) : Db :=
  mkDb (committed_inner (inner db) requests)
    (<[WAL_FILE := wal_content (disk db)
         ++ log_layout (number_requests (sequence (inner db) + 1) requests)]> (disk db)).

(** The log stays within the 64-bit counters. *)
Record log_fits (db : Db) (requests : list CommitRequest) : Prop := {
  lf_sequence : sequence (inner db) + zlen requests < U64_MAX;
  lf_operations : Forall (fun r => zlen (cr_operations r) <= U32_MAX) requests;
  lf_journal : journal_bytes (inner db)
    + zlen (log_layout (number_requests (sequence (inner db) + 1) requests)) <= U64_MAX;
}.

(** The group stays within the 64-bit counters and the size of a table. *)
Record group_fits (db : Db) (A : bmap bytes) (requests : list CommitRequest) : Prop := {
  gf_sequence : sequence (inner db) + zlen requests < U64_MAX;
  gf_operations : Forall (fun r => zlen (cr_operations r) <= U32_MAX) requests;
  gf_journal : journal_bytes (inner db)
    + zlen (log_layout (number_requests (sequence (inner db) + 1) requests)) <= U64_MAX;
  gf_pending : weight (pending_table (inner db)) + ops_weight (group_operations requests) <= table_limit;
  gf_contents : weight (Some <$> A) + ops_weight (group_operations requests) <= table_limit;
}.

Lemma group_log_fits db A requests : group_fits db A requests -> log_fits db requests.
Proof. by intros []. Qed.

Lemma number_requests_app s g1 g2 :
  number_requests s (g1 ++ g2) = number_requests s g1 ++ number_requests (s + zlen g1) g2.
Proof.
  revert s. induction g1 as [|r g1 IH]; intros s; cbn [app number_requests length].
  - by rewrite Z.add_0_r.
  - rewrite IH. do 3 f_equal. lia.
Qed.

Lemma group_fits_prefix db A g1 g2 : group_fits db A (g1 ++ g2) -> group_fits db A g1.
Proof.
  assert (Hops : group_operations (g1 ++ g2) = group_operations g1 ++ group_operations g2).
  { unfold group_operations. by rewrite fmap_app, concat_app. }
  assert (Hw : ops_weight (group_operations g1) <= ops_weight (group_operations (g1 ++ g2))).
  { unfold ops_weight. rewrite Hops, fmap_app, records_app, length_app. lia. }
  intros []. rewrite length_app, number_requests_app, log_layout_app, length_app in *.
  apply Forall_app in gf_operations0 as [??]. split; try done; lia.
Qed.

Lemma committed_inv db log ls requests :
  db_inv db log ls -> log_fits db requests ->
  db_inv (committed db requests) (log ++ number_requests (sequence (inner db) + 1) requests) ls.
Proof.
  intros Hinv [Hseq Hops Hj]. destruct db as [i d]. destruct Hinv as [Hdisk [Hmem Hwal] Hwf Hjb Hrep Hlay Hfiles Hs Hfr Hag Hmt].
  cbn [inner disk] in *. pose proof (di_tseq _ _ _ _ _ Hdisk) as Hts.
  set (frames := number_requests (sequence i + 1) requests) in *.
  assert (Hok : Forall frame_ok (log ++ frames)).
  { apply Forall_app. split; [apply (di_frames _ _ _ _ _ Hdisk)|]. apply number_requests_ok; [lia..|done]. }
  assert (Hw : wal_content d ++ log_layout frames = log_layout (log ++ frames)).
  { unfold wal_content. rewrite Hwf. cbn. by rewrite log_layout_app. }
  assert (Hlen : zlen (log_layout (log ++ frames)) = zlen (log_layout log) + zlen (log_layout frames))
    by (rewrite log_layout_app, length_app; lia).
  unfold committed. cbn [inner disk]. fold frames. rewrite Hw. split; cbn [inner disk committed_inner
    in_memory wal state sequence table_sequence table_files table_layers pending_table journal_bytes
    max_memtable_bytes]; try done.
  - eapply disk_inv_wal; [done|done|lia].
  - by rewrite lookup_insert_eq.
  - fold frames. lia.
  - rewrite apply_pending_state. unfold frames. by apply apply_log_number.
  - eapply layers_repr_frame; [|done]. intros s _. rewrite lookup_insert_ne; [done|].
    symmetry. apply ls_name_special. set_solver.
  - lia.
  - intros Hp. destruct requests as [|r requests]; [|cbn [length]; lia].
    specialize (Hfr Hp). cbn [length]. lia.
  - by apply agree_apply.
Qed.

Lemma committed_repr db A requests :
  db_repr db A -> group_fits db A requests ->
  db_repr (committed db requests) (foldl apply_operation A (group_operations requests)) /\
  weight (pending_table (inner (committed db requests))) <= table_limit /\
  weight (Some <$> foldl apply_operation A (group_operations requests)) <= table_limit.
Proof.
  intros (log&ls&Hinv&Hrr&Hcov&<-) Hfit. pose proof (group_log_fits _ _ _ Hfit) as Hlog. destruct Hfit. split_and!.
  - exists (log ++ number_requests (sequence (inner db) + 1) requests), ls. split_and!.
    + by apply committed_inv.
    + done.
    + by apply covered_apply.
    + apply apply_pending_contents.
  - etrans; [apply weight_apply_pending|]. done.
  - etrans; [apply weight_apply_operations|]. done.
Qed.

Lemma db_repr_scheduled i d A b : db_repr (mkDb i d) A -> db_repr (mkDb (set_flush_scheduled i b) d) A.
Proof.
  intros (log&ls&[]&Hrr&Hcov&HA). exists log, ls. split_and!; [|done..].
  split; done.
Qed.

(** ** Maintenance after a commit *)

(** What reads depend on. *)
Record same_data (i i' : Inner) : Prop := {
  sd_mode : in_memory i' = in_memory i;
  sd_state : state i' = state i;
  sd_pending : pending_table i' = pending_table i;
  sd_layers : table_layers i' = table_layers i;
}.

Lemma flush_empty fault db log ls :
  db_inv db log ls -> recovery_required (inner db) = false -> pending_table (inner db) = ∅ ->
  flush_table_locked fault db = (Ok (), db).
Proof.
  intros Hinv Hrr He. unfold flush_table_locked. destruct db as [i d]; cbn [inner] in *. step_M.
  rewrite Hrr, bool_decide_true by done. unfold require_wal. step_M.
  destruct (inv_mode _ _ _ Hinv) as [_ Hw]. cbn [inner] in Hw. by rewrite Hw.
Qed.

(** A flush that fails at its first step gives the mutable table back. *)
Lemma flush_not_started db :
  recovery_required (inner db) = false -> pending_table (inner db) <> ∅ ->
  exists e, flush_table_locked (Some "before-table-write") db = (Err e, mkDb (bump_generation (inner db)) (disk db)).
Proof.
  intros Hrr Hp. unfold flush_table_locked. destruct db as [i d]; cbn [inner disk] in *. step_M.
  rewrite Hrr, bool_decide_false by done. step_M. eexists.
  erewrite M_bind_Ok by (eapply attempt_run; unfold flush_body; step_M; erewrite M_bind_Err by reflexivity; reflexivity).
  cbn [when]. do 2 step_M. by destruct i.
Qed.

(** What maintenance leaves: it succeeds, or it fails and neither the data in memory nor a byte
    of the directory has changed. *)
Lemma maintain_outcome db log ls requests io :
  db_inv db log ls -> recovery_required (inner db) = false ->
  weight (pending_table (inner db)) <= table_limit ->
  (pending_table (inner db) = ∅ -> weight (Some <$> contents (inner db) ls) <= table_limit) ->
  weight (Some <$> overlay (pending_table (inner db)) (layers_view (ls_map <$> ls))) <= table_limit ->
  exists r db', maintain requests io db = (r, db') /\
    match r with
    | Ok _ => True
    | Err _ => same_data (inner db) (inner db') /\ disk db' = disk db
    end.
Proof.
  intros Hinv Hrr Hp Hc He. destruct db as [i d]. unfold maintain. step_M.
  destruct (_ || _); [|by eexists _, _].
  assert (Hafter : forall db1 log1 ls1, db_inv db1 log1 ls1 -> recovery_required (inner db1) = false ->
    weight (Some <$> contents (inner db1) ls1) <= table_limit ->
    exists db', (db ← get; when (max_table_layers (inner db) <=? zlen (table_layers (inner db))) (compact_tables_locked None)) db1 = (Ok (), db')).
  { intros [i1 d1] log1 ls1 H1 H2 H3. step_M. destruct (_ <=? _); cbn [when]; [|by eexists].
    destruct (compact_inv _ _ _ H1 H2 H3) as (db2&s&Hrun&_). by exists db2. }
  destruct (_ || _) eqn:Hsync.
  - destruct (decide (pending_table i = ∅)) as [Hpe|Hpe].
    { erewrite M_bind_Ok by (by eapply flush_empty). destruct (Hafter _ _ _ Hinv Hrr (Hc Hpe)) as [db' Hrun]. by exists (Ok ()), db'. }
    destruct (request_has_fault requests "before-table-write") as [pt|] eqn:Hft.
    + assert (pt = "before-table-write") as -> by (revert Hft; unfold request_has_fault; destruct (existsb _ _); congruence).
      destruct (flush_not_started (mkDb i d) Hrr Hpe) as [e Hrun]. eexists (Err e), _. split; [by erewrite M_bind_Err by exact Hrun|]. by split.
    + destruct (flush_inv _ _ _ Hinv Hrr Hpe Hp) as (db1&s&Hrun&Hs&Hinv1&_&Hrr1&Hst&Hpe1&_). erewrite M_bind_Ok by exact Hrun.
      destruct (Hafter _ _ _ Hinv1 Hrr1) as [db' Hrun']; [|by exists (Ok ()), db'].
      unfold contents. rewrite Hst, Hpe1, overlay_empty, fmap_app, (left_id_L ∅ (∪)). cbn [fmap list_fmap]. by rewrite layers_view_snoc, Hs.
  - destruct (schedule_background_flush (ci_spawn io) (mkDb i d)) as [r1 db1] eqn:Hsch.
    assert (Hcase : (r1 = Ok true /\ exists b, db1 = mkDb (set_flush_scheduled i b) d) \/ (r1 = Ok false /\ db1 = mkDb (set_flush_scheduled i false) d)).
    { revert Hsch. unfold schedule_background_flush. step_M. destruct (flush_scheduled i) eqn:Hfs.
      - intros [= <- <-]. left. split; [done|]. exists true. f_equal. destruct i; cbn in *; by subst.
      - destruct (ci_spawn io); intros [= <- <-]; [left|right]; split; eauto. }
    destruct Hcase as [[-> [b ->]]|[-> ->]]; (erewrite M_bind_Ok by exact Hsch).
    + by eexists (Ok ()), _.
    + eexists (Err _), _. split; [by step_M|]. by split.
Qed.

Lemma maintain_repr db A requests io :
  db_repr db A -> weight (pending_table (inner db)) <= table_limit -> weight (Some <$> A) <= table_limit ->
  exists r db', maintain requests io db = (r, db') /\
    match r with
    | Ok _ => db_repr db' A /\ same_settings (inner db) (inner db')
    | Err _ => same_data (inner db) (inner db') /\ disk db' = disk db
    end.
Proof.
  intros Hr Hp HA. pose proof Hr as (log&ls&Hinv&Hrr&Hcov&Hc).
  destruct (maintain_outcome db log ls requests io) as (r&db'&Hrun&Hout); [done..|by rewrite Hc| |].
  { rewrite <-(covered_overlay _ _ _ Hcov). fold (contents (inner db) ls). by rewrite Hc. }
  exists r, db'. split; [done|]. destruct r as [u|e]; [|done]. clear Hout. revert Hrun. destruct db as [i d]. unfold maintain. step_M.
  destruct (_ || _); [|intros [= _ <-]; by split]. destruct (_ || _).
  - destruct (decide (pending_table i = ∅ \/ request_has_fault requests "before-table-write" = None)) as [Hok|Hno].
    + assert (Hfl : exists db1, flush_table_locked (request_has_fault requests "before-table-write") (mkDb i d) = (Ok (), db1) /\ db_repr db1 A /\ same_settings i (inner db1)).
      { destruct Hok as [He|Hn]; [by rewrite (flush_empty _ _ _ _ Hinv Hrr He); eexists|].
        rewrite Hn. destruct (flush_refines _ _ Hr Hp) as (db1&?&?&?&_). eauto. }
      destruct Hfl as ([i1 d1]&Hrun1&Hr1&Hs1). erewrite M_bind_Ok by exact Hrun1. step_M.
      destruct (_ <=? _); cbn [when]; [|by intros [= _ <-]].
      destruct (compact_refines _ _ Hr1 HA) as (db2&Hrun2&Hr2&Hs2&_). rewrite Hrun2. intros [= _ <-].
      split; [done|by eapply same_settings_trans].
    + destruct (request_has_fault requests "before-table-write") as [pt|] eqn:Hft; [|tauto].
      assert (pt = "before-table-write") as -> by (revert Hft; unfold request_has_fault; destruct (existsb _ _); congruence).
      destruct (flush_not_started (mkDb i d) Hrr) as [e Hrun]; [tauto|]. by erewrite M_bind_Err by exact Hrun.
  - unfold schedule_background_flush. rewrite M_bind_assoc. step_M. destruct (flush_scheduled i) eqn:Hfs; [|destruct (ci_spawn io)].
    + step_M. intros [= _ <-]. by split.
    + rewrite M_bind_assoc. do 2 step_M. intros [= _ <-]. split; [by apply db_repr_scheduled|done].
    + rewrite M_bind_assoc. by do 3 step_M.
Qed.

Lemma maintain_refines db A requests io :
  no_faults requests -> ci_spawn io = true -> db_repr db A ->
  weight (pending_table (inner db)) <= table_limit -> weight (Some <$> A) <= table_limit ->
  exists db', maintain requests io db = (Ok (), db') /\ db_repr db' A /\
    same_settings (inner db) (inner db').
Proof.
  intros Hf Hsp Hr Hp HA. destruct (maintain_repr db A requests io Hr Hp HA) as ([[]|e]&db'&Hrun&Hout); [by exists db'|]. exfalso.
  revert Hrun. destruct db as [i d]. unfold maintain. step_M. destruct (_ || _); [|done]. rewrite request_has_fault_None by done. destruct (_ || _).
  - destruct (flush_refines _ _ Hr Hp) as ([i1 d1]&Hrun&Hr1&_). erewrite M_bind_Ok by exact Hrun. step_M.
    destruct (_ <=? _); cbn [when]; [|done]. destruct (compact_refines _ _ Hr1 HA) as (db2&Hrun2&_). by rewrite Hrun2.
  - rewrite Hsp. unfold schedule_background_flush. rewrite M_bind_assoc. step_M. destruct (flush_scheduled i); [by step_M|].
    rewrite M_bind_assoc. by do 2 step_M.
Qed.

Lemma check_unchanged_run es eg text i d :
  recovery_required i = false -> es = u64_saturating_add (sequence i) 1 -> eg = state_generation i ->
  check_unchanged es eg text (mkDb i d) = (Ok (), mkDb i d).
Proof. intros Hrr -> ->. unfold check_unchanged. step_M. by rewrite Hrr, !Z.eqb_refl. Qed.

(** ** Execution *)

(** The group fails before its frames are synced: they cannot be encoded, the log cannot be
    written or synced, or a fault is injected there.  [s] is the first sequence number. *)
Definition unsynced (s : Z) (requests : list CommitRequest) (io : CommitIo) : bool :=
  match encode_group s requests with
  | Err _ => true
  | Ok _ => bool_decide (is_Some (request_has_fault requests "before-wal-append"))
            || bool_decide (is_Some (ci_write io)) || bool_decide (is_Some (unsynced_error requests io))
  end.

(** The bytes such a group leaves in the log. *)
Definition leftover (s : Z) (requests : list CommitRequest) (io : CommitIo) : bytes :=
  match encode_group s requests with
  | Err _ => []
  | Ok (buffer, _) =>
      if bool_decide (is_Some (request_has_fault requests "before-wal-append")) then [] else
      match ci_write io with
      | Some n => take n buffer
      | None => if ci_truncate io then [] else buffer
      end
  end.

Definition append_log (b : bytes) (d : Disk) : Disk := <[WAL_FILE := wal_content d ++ b]> d.

(** Application of a synced group. *)
Lemma apply_group_run i d i' d' requests es eg ns io :
  recovery_required i = false -> request_has_fault requests "after-wal-sync-before-state-apply" = None ->
  es = u64_saturating_add (sequence i) 1 -> eg = state_generation i ->
  ns = sequence i + 1 + zlen requests -> 0 <= sequence i ->
  mkDb i' d' = committed (mkDb i d) requests ->
  let i0 := set_journal i (journal_bytes i') (frame_count i) in
  apply_group requests es eg ns (zlen requests) io (mkDb i0 d')
    = maintain requests io (mkDb i' d').
Proof.
  intros Hrr Hf Hes Heg Hns Hs Hc i0. unfold apply_group. rewrite Hf.
  erewrite M_bind_Ok by reflexivity.
  erewrite M_bind_Ok by (by apply check_unchanged_run).
  do 4 (erewrite M_bind_Ok by reflexivity). cbn [inner disk]. f_equal. f_equal.
  unfold committed in Hc. injection Hc as -> ->. cbn [inner]. unfold apply_requests, committed_inner.
  fold (group_operations requests). unfold i0.
  cbn [state pending_table pending_table_bytes set_journal].
  destruct (foldl _ _ _) as [[st p] b]. rewrite Hns.
  replace (u64_saturating_sub _ 1) with (sequence i + zlen requests) by (unfold_ints; lia).
  reflexivity.
Qed.

Lemma encode_group_fits db log ls requests :
  db_inv db log ls -> log_fits db requests ->
  u64_saturating_add (sequence (inner db)) 1 = sequence (inner db) + 1 /\
  encode_group (sequence (inner db) + 1) requests
    = Ok (log_layout (number_requests (sequence (inner db) + 1) requests), sequence (inner db) + 1 + zlen requests).
Proof.
  intros Hinv [Hseq Hops Hj]. pose proof (inv_journal _ _ _ Hinv) as Hjb. pose proof (inv_seq _ _ _ Hinv) as Hs.
  pose proof (di_tseq _ _ _ _ _ (inv_disk _ _ _ Hinv)) as Hts. split; [unfold_ints; lia|]. apply encode_group_layout; [lia..|done|lia].
Qed.

(** Without a failure before the sync the group is appended to the log.  It is then applied and
    maintenance runs, unless a fault is injected before the application. *)
Lemma execute_group_run db log ls requests io :
  db_inv db log ls -> recovery_required (inner db) = false -> log_fits db requests ->
  unsynced (sequence (inner db) + 1) requests io = false ->
  execute_group requests (u64_saturating_add (sequence (inner db)) 1) (state_generation (inner db))
      (journal_bytes (inner db)) (wal (inner db)) (zlen requests) io db =
    match request_has_fault requests "after-wal-sync-before-state-apply" with
    | None => (result ← attempt (maintain requests io); mret (result, true)) (committed db requests)
    | Some point => (Ok (Err (message ("injected ThingDB fault: " +:+ point)), true),
        mkDb (set_journal (inner db) (journal_bytes (inner (committed db requests))) (frame_count (inner db))) (disk (committed db requests)))
    end.
Proof.
  intros Hinv Hrr Hfit Hun. pose proof (encode_group_fits _ _ _ _ Hinv Hfit) as [Hsat Henc]. pose proof (inv_mode _ _ _ Hinv) as [_ Hw].
  pose proof (inv_journal _ _ _ Hinv) as Hjb. pose proof (inv_seq _ _ _ Hinv) as Hs.
  pose proof (di_tseq _ _ _ _ _ (inv_disk _ _ _ Hinv)) as Hts. destruct Hfit as [Hseq Hops Hj].
  destruct db as [i d]; cbn [inner disk] in *. unfold execute_group. unfold unsynced in Hun. rewrite Henc in Hun. rewrite Hsat, Henc, Hw. cbn [negb].
  apply orb_false_iff in Hun as [[Hb Hwr]%orb_false_iff He]. apply bool_decide_eq_false, eq_None_not_Some in Hb, Hwr, He. rewrite Hb, Hwr, He.
  erewrite M_bind_Ok by (eapply attempt_run; erewrite M_bind_Ok by reflexivity;
    apply check_unchanged_run; [done|by rewrite Hsat|done]).
  cbn beta iota. unfold wal_write_all. erewrite M_bind_Ok by reflexivity.
  erewrite M_bind_Ok by reflexivity. cbn [inner disk].
  replace (u64_saturating_add (journal_bytes i) _) with
    (journal_bytes (committed_inner i requests)) by (unfold committed_inner, u64_saturating_add; cbn; lia).
  destruct (request_has_fault requests "after-wal-sync-before-state-apply") as [pt|] eqn:Hft.
  - erewrite M_bind_Ok by (eapply attempt_run; unfold apply_group; rewrite Hft; erewrite M_bind_Err by (unfold maybe_fail; rewrite bool_decide_true by done; reflexivity); reflexivity).
    done.
  - apply M_bind_same, attempt_same. apply (apply_group_run i d); done || lia || by rewrite Hsat.
Qed.

(** The commit proper when the frames are synced. *)
Lemma commit_tail_run db log ls requests io :
  db_inv db log ls -> recovery_required (inner db) = false -> log_fits db requests ->
  unsynced (sequence (inner db) + 1) requests io = false ->
  request_has_fault requests "after-wal-sync-before-state-apply" = None ->
  exists r db', maintain requests io (committed db requests) = (r, db') /\
    commit_tail requests io db = (r, match r with Ok _ => db' | Err _ => mkDb (set_recovery_required (inner db')) (disk db') end).
Proof.
  intros Hinv Hrr Hfit Hun Hft. pose proof (execute_group_run db log ls requests io Hinv Hrr Hfit Hun) as Hex. rewrite Hft in Hex.
  destruct (inv_mode _ _ _ Hinv) as [Hm Hw]. destruct (maintain requests io (committed db requests)) as [r db'] eqn:Hrun. exists r, db'. split; [done|].
  unfold commit_tail. destruct db as [i d]. cbn [inner disk] in *. erewrite M_bind_Ok by reflexivity.
  cbn [inner disk]. rewrite Hm. rewrite Hw in *. cbn [negb andb].
  erewrite M_bind_Ok; [|rewrite Hex; erewrite M_bind_Ok by (apply attempt_run, Hrun); reflexivity].
  destruct r as [[]|e]; cbn [fst snd when]; by erewrite M_bind_Ok by reflexivity.
Qed.

Lemma commit_tail_refines db A requests io :
  db_repr db A -> group_fits db A requests -> no_faults requests -> unsynced (sequence (inner db) + 1) requests io = false -> ci_spawn io = true ->
  exists db', commit_tail requests io db = (Ok (), db') /\
    db_repr db' (foldl apply_operation A (group_operations requests)) /\
    sequence (inner db') = sequence (inner db) + zlen requests.
Proof.
  intros Hr Hfit Hf Hun Hsp. destruct (committed_repr _ _ _ Hr Hfit) as (Hr'&Hp&HA).
  destruct (maintain_refines _ _ _ io Hf Hsp Hr' Hp HA) as (db'&Hrun&Hr''&Hset).
  destruct Hr as (log&ls&Hinv&Hrr&_&_).
  destruct (commit_tail_run db log ls requests io Hinv Hrr (group_log_fits _ _ _ Hfit) Hun (request_has_fault_None _ _ Hf)) as (r&db1&Hrun1&Hct).
  rewrite Hrun in Hrun1. injection Hrun1 as <- <-. exists db'. split_and!; [done|done|apply Hset].
Qed.

(** ** Backpressure *)

Definition not_throttled (i : Inner) : Prop :=
  pending_table_bytes i < u64_saturating_mul (max_memtable_bytes i) 2.

Lemma backpressure_none db : not_throttled (inner db) -> backpressure db = (Ok (), db).
Proof.
  intros Hn. unfold backpressure. erewrite M_bind_Ok by reflexivity.
  destruct (Z.leb_spec (u64_saturating_mul (max_memtable_bytes (inner db)) 2)
    (pending_table_bytes (inner db))); [unfold not_throttled in Hn; lia|].
  rewrite andb_false_r. reflexivity.
Qed.

Lemma process_group_tail db db0 requests io :
  recovery_required (inner db) = false -> backpressure db = (Ok (), db0) ->
  process_group requests io db = commit_tail requests io db0.
Proof.
  intros Hrr Hb. unfold process_group. erewrite M_bind_Ok by reflexivity. rewrite Hrr. by erewrite M_bind_Ok by exact Hb.
Qed.

(** Backpressure keeps the contents and makes room. *)
Lemma backpressure_refines db A requests :
  db_repr db A -> group_fits db A requests ->
  exists db0, backpressure db = (Ok (), db0) /\ db_repr db0 A /\ group_fits db0 A requests /\ sequence (inner db0) = sequence (inner db).
Proof.
  intros Hr Hfit. unfold backpressure. erewrite M_bind_Ok by reflexivity. destruct (_ && _); cbn [when]; [|by exists db].
  assert (Hp : weight (pending_table (inner db)) <= table_limit).
  { destruct Hfit. unfold ops_weight in *. lia. }
  destruct (flush_refines db A Hr Hp) as (db1&Hrun&Hr1&(Hs1&_)&Hw1&Hj1).
  exists db1. split_and!; [by erewrite M_bind_Ok by (apply attempt_run, Hrun)|done| |done].
  destruct Hfit. pose proof (weight_nonneg (pending_table (inner db))).
  split; rewrite ?Hs1; try done; [lia|rewrite Hw1; lia].
Qed.

Lemma io_ok_synced db log ls requests : db_inv db log ls -> log_fits db requests -> no_faults requests -> unsynced (sequence (inner db) + 1) requests io_ok = false.
Proof.
  intros Hinv Hfit Hf. unfold unsynced. destruct (encode_group_fits _ _ _ _ Hinv Hfit) as [_ ->].
  unfold unsynced_error. rewrite !request_has_fault_None by done. done.
Qed.

Lemma process_group_refines db A requests :
  db_repr db A -> group_fits db A requests -> no_faults requests ->
  exists db', process_group requests io_ok db = (Ok (), db') /\
    db_repr db' (foldl apply_operation A (group_operations requests)) /\
    sequence (inner db') = sequence (inner db) + zlen requests.
Proof.
  intros Hr Hfit Hf. destruct (backpressure_refines db A requests Hr Hfit) as (db0&Hb&Hr0&Hfit0&Hs).
  pose proof Hr as (_&_&_&Hrr&_). rewrite (process_group_tail db db0 _ _ Hrr Hb), <-Hs. pose proof Hr0 as (log&ls&Hinv&_).
  apply commit_tail_refines; [done..| |done]. eapply io_ok_synced; [done|by eapply group_log_fits|done].
Qed.

(** ** Failures *)

Lemma set_journal_id i : set_journal i (journal_bytes i) (frame_count i) = i.
Proof. by destruct i. Qed.

Lemma append_log_nil db log ls : db_inv db log ls -> append_log [] (disk db) = disk db.
Proof. intros Hinv. unfold append_log, wal_content. rewrite (inv_wal _ _ _ Hinv). cbn. rewrite app_nil_r. apply insert_id, (inv_wal _ _ _ Hinv). Qed.

(** A group that fails before its frames are synced leaves no trace in memory, and in the log
    only what could not be cut off again. *)
Lemma unsynced_failure db log ls requests io :
  db_inv db log ls -> recovery_required (inner db) = false ->
  unsynced (u64_saturating_add (sequence (inner db)) 1) requests io = true ->
  exists e, commit_tail requests io db
    = (Err e, mkDb (inner db) (append_log (leftover (u64_saturating_add (sequence (inner db)) 1) requests io) (disk db))).
Proof.
  intros Hinv Hrr Hun. pose proof (append_log_nil _ _ _ Hinv) as Hnil.
  pose proof (inv_mode _ _ _ Hinv) as [Hm Hw]. pose proof (inv_journal _ _ _ Hinv) as Hjb. pose proof (inv_wal _ _ _ Hinv) as Hwf. clear Hinv.
  destruct db as [i d]; cbn [inner disk] in *. unfold commit_tail.
  erewrite M_bind_Ok by reflexivity. cbn [inner disk]. rewrite Hm, Hw. cbn [negb andb].
  unfold execute_group. set (s := u64_saturating_add (sequence i) 1) in *. unfold unsynced in Hun. unfold leftover.
  destruct (encode_group s requests) as [[buffer next]|e] eqn:Henc; [|rewrite Hnil; eexists; by erewrite M_bind_Ok by reflexivity].
  cbn [negb]. destruct (request_has_fault requests "before-wal-append") as [p|] eqn:Hb.
  { rewrite bool_decide_true by done. rewrite Hnil. eexists.
    erewrite M_bind_Ok; [|erewrite M_bind_Ok by (eapply attempt_run; erewrite M_bind_Err by (unfold maybe_fail; rewrite bool_decide_true by done; reflexivity);
      reflexivity); reflexivity]. reflexivity. }
  rewrite bool_decide_false by (by intros []).
  assert (Hprep : attempt (mret () ;; check_unchanged s (state_generation i) "ThingDB commit state changed while preparing WAL frames") (mkDb i d) = (Ok (Ok ()), mkDb i d)).
  { apply attempt_run. erewrite M_bind_Ok by reflexivity. by apply check_unchanged_run. }
  destruct (ci_write io) as [n|] eqn:Hwr.
  { eexists. erewrite M_bind_Ok; [|erewrite M_bind_Ok by exact Hprep; cbn beta iota; erewrite M_bind_Ok by reflexivity; reflexivity]. reflexivity. }
  destruct (unsynced_error requests io) as [text|] eqn:He; [|by rewrite !bool_decide_false in Hun by (by intros [])].
  destruct (ci_truncate io) eqn:Htr; (eexists; erewrite M_bind_Ok; [|erewrite M_bind_Ok by exact Hprep; cbn beta iota;
    erewrite M_bind_Ok by reflexivity; erewrite M_bind_Ok by reflexivity; reflexivity]); [|reflexivity].
  cbn [fst snd when]. erewrite M_bind_Ok by reflexivity. unfold lift. f_equal. rewrite Hnil. cbn [inner disk]. f_equal; [apply set_journal_id|]. unfold wal_content at 1. rewrite lookup_insert_eq.
  cbn [default from_option]. unfold wal_content. rewrite Hwf. cbn [default from_option id].
  rewrite Hjb, Nat2Z.id, take_app_length, insert_insert_eq. by apply insert_id.
Qed.

(** A group that fails after the sync is in the log, and in memory as a whole or not at all; the
    database then refuses every further write until it is reopened. *)
Lemma synced_failure db log ls requests io e db' :
  db_inv db log ls -> recovery_required (inner db) = false -> log_fits db requests ->
  weight (Some <$> layers_view (ls_map <$> ls)) + weight (Some <$> state (inner db)) + weight (pending_table (inner db))
    + ops_weight (group_operations requests) <= table_limit ->
  unsynced (sequence (inner db) + 1) requests io = false ->
  commit_tail requests io db = (Err e, db') ->
  recovery_required (inner db') = true /\ disk db' = disk (committed db requests) /\
  (same_data (inner db) (inner db') \/ same_data (inner (committed db requests)) (inner db')).
Proof.
  intros Hinv Hrr Hfit Hwt Hun Hrun. pose proof (inv_mode _ _ _ Hinv) as [Hm Hw].
  destruct (request_has_fault requests "after-wal-sync-before-state-apply") as [pt|] eqn:Hft.
  - pose proof (execute_group_run db log ls requests io Hinv Hrr Hfit Hun) as Hex. rewrite Hft in Hex. revert Hrun.
    unfold commit_tail. destruct db as [i d]. cbn [inner disk] in *. erewrite M_bind_Ok by reflexivity.
    cbn [inner disk]. rewrite Hm. rewrite Hw in *. cbn [negb andb]. erewrite M_bind_Ok by exact Hex. cbn [fst snd when]. erewrite M_bind_Ok by reflexivity.
    intros [= <- <-]. split_and!; [done|done|by left].
  - destruct (commit_tail_run db log ls requests io Hinv Hrr Hfit Hun Hft) as (r&db1&Hrun1&Hct). rewrite Hct in Hrun. injection Hrun as -> <-.
    pose proof (committed_inv db log ls requests Hinv Hfit) as Hinv'.
    destruct (maintain_outcome (committed db requests) (log ++ number_requests (sequence (inner db) + 1) requests) ls requests io Hinv' Hrr) as (r2&db2&Hrun2&Hout).
    + etrans; [apply weight_apply_pending|]. pose proof (weight_nonneg (Some <$> layers_view (ls_map <$> ls))). pose proof (weight_nonneg (Some <$> state (inner db))). lia.
    + intros He. apply apply_pending_empty in He as Hops. unfold contents, committed. cbn [inner committed_inner state pending_table] in *. rewrite Hops in *.
      cbn [foldl fst snd] in *. etrans; [apply weight_overlay|]. pose proof (weight_union (state (inner db)) (layers_view (ls_map <$> ls))). rewrite ops_weight_nil in Hwt. lia.
    + etrans; [apply weight_overlay|]. unfold committed. cbn [inner committed_inner pending_table].
      pose proof (weight_apply_pending (state (inner db)) (pending_table (inner db)) (pending_table_bytes (inner db)) (group_operations requests)).
      pose proof (weight_nonneg (Some <$> state (inner db))). lia.
    + rewrite Hrun1 in Hrun2. injection Hrun2 as <- <-. destruct Hout as [Hsd Hdk]. split_and!; [done|done|right]. destruct Hsd. by split.
Qed.

Lemma recovery_gate db requests io fault :
  recovery_required (inner db) = true ->
  let refused := (Err (message "ThingDB requires reopen and recovery before writing"), db) in
  process_group requests io db = refused /\
  flush_table_locked fault db = refused /\ compact_tables_locked fault db = refused.
Proof.
  intros Hrr. unfold process_group, flush_table_locked, compact_tables_locked.
  split_and!; (erewrite M_bind_Ok by reflexivity); by rewrite Hrr.
Qed.
End commit.
