(* ===== verification/Recovery.v ===== *)
(** * ThingDB: opening and crash recovery

    [open] rebuilds the in-memory state from the directory: the manifest names the
    table layers, the log is replayed on top.  This file proves that opening a
    directory that satisfies the invariant succeeds and what its contents are, that
    an interrupted flush leaves such a directory at every fault point, and it
    exhibits the executions in which recovered writes are lost. *)

From S2P Require Import Prelude Wal Table Layer Database Durable Commit.

Section open.
Context `{Crc32} `{ManifestCodec}.

Lemma cleanup_lookup d f : is_temporary f = false -> cleanup_temporary_files d !! f = d !! f.
Proof.
  intros Hf. unfold cleanup_temporary_files. destruct (d !! f) as [c|] eqn:Hd.
  - apply map_lookup_filter_Some. by split.
  - apply map_lookup_filter_None. by left.
Qed.

(** Two directories that agree on the log, the manifest and the listed tables. *)
Lemma disk_inv_frame d d' log tail ls tseq :
  (forall f, f ∈ WAL_FILE :: MANIFEST_FILE :: (ls_name <$> ls) -> d' !! f = d !! f) ->
  disk_inv d log tail ls tseq -> disk_inv d' log tail ls tseq.
Proof.
  intros Hf []. split; try done.
  - unfold wal_content. rewrite Hf by set_solver. done.
  - rewrite Hf by set_solver. done.
  - eapply disk_layers_frame; [|done]. intros s Hs. apply Hf.
    do 2 apply list_elem_of_further. by apply list_elem_of_fmap_2.
Qed.

Lemma disk_inv_cleanup d log tail ls tseq :
  disk_inv d log tail ls tseq -> disk_inv (cleanup_temporary_files d) log tail ls tseq.
Proof.
  intros Hd. eapply disk_inv_frame; [|exact Hd]. intros f Hf. apply cleanup_lookup.
  apply elem_of_cons in Hf as [->|Hf]; [done|]. apply elem_of_cons in Hf as [->|Hf]; [done|].
  apply list_elem_of_fmap in Hf as (s&->&_). apply is_temporary_ls_name.
Qed.

Lemma disk_inv_lock d log tail ls tseq c :
  disk_inv d log tail ls tseq -> disk_inv (<[LOCK_FILE := c]> d) log tail ls tseq.
Proof.
  intros Hd. eapply disk_inv_frame; [|exact Hd]. intros f Hf. apply lookup_insert_ne.
  apply elem_of_cons in Hf as [->|Hf]; [done|]. apply elem_of_cons in Hf as [->|Hf]; [done|].
  apply list_elem_of_fmap in Hf as (s&->&_). symmetry. apply ls_name_special. set_solver.
Qed.

Lemma disk_inv_unlock d log tail ls tseq :
  disk_inv d log tail ls tseq -> disk_inv (delete LOCK_FILE d) log tail ls tseq.
Proof.
  intros Hd. eapply disk_inv_frame; [|exact Hd]. intros f Hf. apply lookup_delete_ne.
  apply elem_of_cons in Hf as [->|Hf]; [done|]. apply elem_of_cons in Hf as [->|Hf]; [done|].
  apply list_elem_of_fmap in Hf as (s&->&_). symmetry. apply ls_name_special. set_solver.
Qed.

Lemma ls_names_sorted ls tseq :
  StronglySorted Z.lt (ls_seq <$> ls) -> Forall (fun s => 0 <= ls_seq s <= tseq) ls ->
  tseq <= U64_MAX -> StronglySorted key_lt (ls_name <$> ls).
Proof.
  intros Hs Hr Hu. induction ls as [|s ls IH]; [constructor|]. rewrite !fmap_cons in *.
  apply StronglySorted_inv in Hs as [Hs Hlt]. apply Forall_cons in Hr as [Hr0 Hr].
  constructor; [by apply IH|]. apply Forall_fmap, Forall_forall. intros s' Hs'.
  rewrite Forall_fmap, Forall_forall in Hlt. rewrite Forall_forall in Hr.
  specialize (Hlt s' Hs'). specialize (Hr s' Hs'). cbn in *. apply ls_name_lt; lia.
Qed.

Lemma validate_names ls (files : gset string) :
  Forall (fun s => no_slash (ls_suffix s)) ls -> NoDup (ls_name <$> ls) ->
  (forall s, s ∈ ls -> ls_name s ∉ files) ->
  exists files', fold_res (fun (files : gset string) file =>
    _ ← validate_table_name file;
    if bool_decide (file ∈ files) then Err (message "duplicate ThingDB table filename")
    else Ok ({[file]} ∪ files)) files (ls_name <$> ls) = Ok files'.
Proof.
  intros Hns. revert files. induction Hns as [|s ls Hs Hns IH]; intros files Hnd Hf; [by eexists|].
  rewrite fmap_cons in *. cbn [fold_res]. apply NoDup_cons in Hnd as [Hn Hnd].
  rewrite validate_ls_name, bind_Ok by done.
  rewrite bool_decide_false by (apply Hf; set_solver). rewrite bind_Ok. apply IH; [done|].
  intros s' Hs'. apply not_elem_of_union. split; [|apply Hf; set_solver].
  intros Heq%elem_of_singleton. apply Hn. rewrite <-Heq. by apply list_elem_of_fmap_2.
Qed.

Lemma manifest_valid d log tail ls tseq :
  disk_inv d log tail ls tseq ->
  let m := mkManifest FORMAT_VERSION (last (ls_name <$> ls)) (ls_name <$> ls) tseq in
  read_manifest d = Ok (Some m) /\ effective_table_files m = ls_name <$> ls.
Proof.
  intros Hd m. pose proof (di_manifest _ _ _ _ _ Hd) as Hmf.
  destruct Hd as [di_wal0 di_tail0 di_frames0 di_wal_size0 di_manifest0 di_layers0 di_order0 di_range0 di_suffix0 di_tseq0 di_empty0].
  assert (Heff : effective_table_files m = ls_name <$> ls).
  { unfold effective_table_files, m. cbn. case_bool_decide as Hn; [|done]. by rewrite Hn. }
  split; [|done]. unfold read_manifest. rewrite Hmf, from_slice_to_vec, bind_Ok. cbn [m mf_format_version].
  rewrite Z.eqb_refl. cbn [negb]. unfold validate_manifest.
  change (effective_table_files _) with (effective_table_files m). rewrite Heff.
  pose proof (ls_names_sorted ls tseq di_order0 di_range0 ltac:(lia)) as Hsorted.
  destruct (validate_names ls ∅) as [files' Hfiles];
    [done|by apply strictly_sorted_NoDup|set_solver|].
  cbn [mf_table_files mf_table_file mf_table_sequence]. rewrite Hfiles, bind_Ok.
  assert (Hlast : (match last (ls_name <$> ls) with
       | None => Ok ()
       | Some file =>
           _ ← validate_table_name file;
           if negb (bool_decide (ls_name <$> ls = []))
              && negb (bool_decide (last (ls_name <$> ls) = Some file))
           then Err (message "ThingDB manifest legacy table filename does not match table layers")
           else Ok ()
       end) = Ok ()).
  { destruct (last (ls_name <$> ls)) as [f|] eqn:Hl; [|done].
    rewrite fmap_last in Hl. destruct (last ls) as [s|] eqn:Hls; [|done]. injection Hl as <-.
    rewrite validate_ls_name, bind_Ok.
    - case_bool_decide; [done|]. by rewrite bool_decide_true.
    - apply last_Some in Hls as [l' ->]. apply Forall_app in di_suffix0 as [_ Hs].
      by apply Forall_cons in Hs as [Hs _]. }
  rewrite Hlast, bind_Ok.
  replace (bool_decide (ls_name <$> ls = []) && negb (tseq =? 0)) with false.
  - pose proof (proj2 (windows2_any_sorted (fun x : string => x) (ls_name <$> ls))) as Hw.
    rewrite list_fmap_id in Hw. rewrite Hw by (by apply StronglySorted_Sorted). by rewrite bind_Ok.
  - case_bool_decide as Hn; [|done]. apply fmap_nil_inv in Hn. by rewrite di_empty0.
Qed.

Lemma open_tables_repr d tseq prev ls :
  Forall (fun s => exists layer, tl_path layer = ls_name s /\ layer_repr d layer (ls_seq s) (ls_map s)) ls ->
  StronglySorted Z.lt (ls_seq <$> ls) -> Forall (fun s => prev <= ls_seq s <= tseq) ls ->
  exists layers, open_tables d tseq prev (ls_name <$> ls) = Ok layers /\ layers_repr d layers ls.
Proof.
  intros Hl. revert prev. induction Hl as [|s ls (layer&Hp&Hr) Hl IH]; intros prev Hs Hrange.
  { exists []. by split; [|constructor]. }
  rewrite fmap_cons in *. apply StronglySorted_inv in Hs as [Hs Hlt].
  apply Forall_cons in Hrange as [Hr0 Hrange]. cbn [open_tables].
  destruct (IH (ls_seq s) Hs) as (layers&Hopen&Hlayers).
  { rewrite Forall_forall in Hlt. rewrite Forall_forall in Hrange. apply Forall_forall. intros s' Hs'.
    assert (ls_seq s < ls_seq s') by (apply Hlt; by apply list_elem_of_fmap_2).
    specialize (Hrange s' Hs'). cbn in Hrange. lia. }
  exists (layer :: layers). split; [|by constructor].
  pose proof Hr as (chunks&_&_&_&_&Hd&_). rewrite Hp in Hd. rewrite Hd.
  rewrite (bool_decide_true (is_Some _)) by eauto. cbn [negb].
  rewrite <-Hp, (open_layer_repr _ _ _ _ Hr), bind_Ok. cbn [fst snd].
  destruct (Z.ltb_spec tseq (ls_seq s)); [lia|]. destruct (Z.ltb_spec (ls_seq s) prev); [lia|].
  by rewrite Hopen, bind_Ok.
Qed.

Lemma apply_log_bounds log acc U :
  acc.1 <= U -> Forall (fun f => f.1 <= U) log ->
  acc.1 <= (apply_log acc log).1 <= U.
Proof.
  intros Ha Hf. revert acc Ha. induction Hf as [|f log Hf0 Hf IH]; intros acc Ha; [cbn; lia|].
  change (apply_log acc (f :: log)) with (apply_log (apply_frame acc f) log).
  unfold apply_frame. destruct (Z.ltb_spec acc.1 f.1); [|by apply IH].
  specialize (IH (f.1, foldl apply_operation acc.2 f.2)). cbn [fst] in IH. lia.
Qed.

(** Opening a directory that satisfies the invariant. *)
Lemma open_locked_repr b d log tail ls tseq :
  disk_inv d log tail ls tseq -> 1 <= b_max_memtable_bytes b ->
  exists db, open_locked b d = Ok db /\ db_inv db log ls /\
    recovery_required (inner db) = false /\ pending_table (inner db) = ∅ /\
    table_sequence (inner db) = tseq /\
    (sequence (inner db), state (inner db)) = apply_log (tseq, ∅) log /\
    (forall f, f <> WAL_FILE -> is_temporary f = false -> disk db !! f = d !! f).
Proof.
  intros Hd0 Hb. unfold open_locked. pose proof (disk_inv_cleanup _ _ _ _ _ Hd0) as Hd.
  set (d1 := cleanup_temporary_files d) in *.
  destruct (manifest_valid _ _ _ _ _ Hd) as [Hm Heff]. cbv zeta in *.
  rewrite Hm, bind_Ok, Heff. cbn [mf_table_sequence].
  pose proof Hd as [di_wal0 di_tail0 di_frames0 di_wal_size0 di_manifest0 di_layers0 di_order0 di_range0 di_suffix0 di_tseq0 di_empty0].
  destruct (open_tables_repr d1 tseq 0 ls) as (layers&Hopen&Hlayers); [done..|].
  rewrite Hopen, bind_Ok, di_wal0.
  rewrite replay_wal_torn; [|rewrite length_app; lia|done..]. cbv zeta. rewrite bind_Ok.
  set (content := if _ <? _ then _ else _).
  assert (Hc : content = log_layout log).
  { unfold content. rewrite Nat2Z.id, take_app_length.
    destruct (Z.ltb_spec (zlen (log_layout log)) (zlen (log_layout log ++ tail))); [done|].
    rewrite length_app in *. assert (tail = []) as -> by (apply nil_length_inv; lia). apply app_nil_r. }
  rewrite Hc. clear content Hc.
  pose proof (apply_log_bounds log (tseq, ∅) U64_MAX ltac:(cbn; lia)) as Hbounds.
  assert (Hfs : Forall (fun f => f.1 <= U64_MAX) log).
  { eapply Forall_impl; [exact di_frames0|]. intros f [? _]. lia. }
  specialize (Hbounds Hfs). cbn [fst] in Hbounds. rewrite Z.max_l by lia.
  eexists. split; [reflexivity|]. split_and!; try done.
  - split; cbn [inner disk in_memory wal state sequence table_sequence table_files table_layers
      pending_table journal_bytes max_memtable_bytes]; try done.
    + eapply disk_inv_wal; [exact Hd|done|]. lia.
    + by rewrite lookup_insert_eq.
    + by destruct (apply_log _ _).
    + eapply layers_repr_frame; [|done]. intros s _. rewrite lookup_insert_ne; [done|].
      symmetry. apply ls_name_special. set_solver.
  - cbn. by destruct (apply_log _ _).
  - intros f Hf Ht. cbn. rewrite lookup_insert_ne by done. by apply cleanup_lookup.
Qed.
End open.

Section reopen.
Context `{Crc32} `{ManifestCodec}.

(** What opening gives: the replayed log over the table layers. *)
Lemma open_repr b d log tail ls tseq :
  disk_inv d log tail ls tseq -> 1 <= b_max_memtable_bytes b -> d !! LOCK_FILE = None ->
  exists db, open b d = (Ok db, disk db) /\ db_inv db log ls /\
    recovery_required (inner db) = false /\ pending_table (inner db) = ∅ /\
    (sequence (inner db), state (inner db)) = apply_log (tseq, ∅) log /\
    contents (inner db) ls = (apply_log (tseq, ∅) log).2 ∪ layers_view (ls_map <$> ls).
Proof.
  intros Hd Hb Hlock.
  destruct (open_locked_repr b (<[LOCK_FILE := []]> d) log tail ls tseq) as (db&Hopen&Hinv&Hrr&Hp&_&Hs&_);
    [by apply disk_inv_lock|done|].
  exists db. unfold open. rewrite Hlock, Hopen. split_and!; try done.
  unfold contents. by rewrite Hp, overlay_empty, <-Hs.
Qed.

Lemma close_disk_inv db log ls tail tseq :
  disk_inv (disk db) log tail ls tseq -> disk_inv (close db) log tail ls tseq.
Proof. apply disk_inv_unlock. Qed.

Lemma close_unlocked db : close db !! LOCK_FILE = None.
Proof. apply lookup_delete_eq. Qed.

(** Some pending deletion hides a value that a table layer holds. *)
Definition hidden_tombstone (i : Inner) (ls : list LayerSpec) : Prop :=
  exists k, pending_table i !! k = Some None /\ is_Some (layers_view (ls_map <$> ls) !! k).

(** Replaying the log keeps the contents, unless a deletion that is only in the log
    hides a value of a table. *)
Lemma replay_contents db log ls :
  db_inv db log ls ->
  state (inner db) ∪ layers_view (ls_map <$> ls) = contents (inner db) ls <->
    ~ hidden_tombstone (inner db) ls.
Proof.
  intros Hinv. pose proof (inv_agree _ _ _ Hinv) as Hag. unfold contents. split.
  - intros Heq (k&Hk&v&Hv). apply (f_equal (fun m => m !! k)) in Heq.
    rewrite lookup_overlay, Hk, lookup_union, (Hag _ _ Hk), Hv in Heq. done.
  - intros Hno. apply map_eq. intros k. rewrite lookup_overlay.
    destruct (pending_table (inner db) !! k) as [x|] eqn:Hk; [|done].
    rewrite lookup_union, (Hag _ _ Hk). destruct x as [v|].
    + by destruct (layers_view (ls_map <$> ls) !! k).
    + destruct (layers_view (ls_map <$> ls) !! k) as [v|] eqn:Hv; [|done].
      destruct Hno. exists k. split; [done|]. by exists v.
Qed.

(** Reopening a closed database. *)
Lemma reopen_contents b db log ls :
  db_inv db log ls -> 1 <= b_max_memtable_bytes b ->
  exists db', open b (close db) = (Ok db', disk db') /\ db_inv db' log ls /\
    recovery_required (inner db') = false /\ pending_table (inner db') = ∅ /\
    sequence (inner db') = sequence (inner db) /\ state (inner db') = state (inner db) /\
    contents (inner db') ls = state (inner db) ∪ layers_view (ls_map <$> ls).
Proof.
  intros Hinv Hb.
  destruct (open_repr b (close db) log [] ls (table_sequence (inner db)))
    as (db'&Hopen&Hinv'&Hrr&Hp&Hs&Hc); [apply close_disk_inv, Hinv|done|apply close_unlocked|].
  rewrite (inv_replay _ _ _ Hinv) in Hs, Hc. injection Hs as Hseq Hst. exists db'. by split_and!.
Qed.
End reopen.

(** ** An interrupted flush *)

Section crash.
Context `{Crc32} `{ManifestCodec}.

(** The fault points a flush passes, in order. *)
Definition flush_faults : list string :=
  ["before-table-write"; "after-table-sync-before-rename"; "before-table-rename";
   "after-table-rename-before-manifest"; "before-manifest-write";
   "after-manifest-sync-before-rename"; "after-manifest-rename-before-wal-truncate"].

(** A frame of the replayed log is not newer than the replayed sequence. *)
Lemma apply_log_frames log acc : Forall (fun f => f.1 <= (apply_log acc log).1) log.
Proof.
  assert (Hmono : forall log acc, acc.1 <= (apply_log acc log).1).
  { clear. induction log as [|f log IH]; intros acc; [done|].
    change (apply_log acc (f :: log)) with (apply_log (apply_frame acc f) log).
    etrans; [|apply IH]. unfold apply_frame. destruct (Z.ltb_spec acc.1 f.1); cbn; lia. }
  revert acc. induction log as [|f log IH]; intros acc; constructor.
  - change (apply_log acc (f :: log)) with (apply_log (apply_frame acc f) log).
    etrans; [|apply Hmono]. unfold apply_frame. destruct (Z.ltb_spec acc.1 f.1); cbn; lia.
  - apply IH.
Qed.

(** Frames a table already contains are skipped. *)
Lemma apply_log_skip log acc : Forall (fun f => f.1 <= acc.1) log -> apply_log acc log = acc.
Proof.
  induction 1 as [|f log Hf _ IH]; [done|].
  change (apply_log acc (f :: log)) with (apply_log (apply_frame acc f) log).
  unfold apply_frame. destruct (Z.ltb_spec acc.1 f.1); [lia|done].
Qed.

(** The two outcomes of an interrupted flush: the old directory with scratch files,
    or the directory with the new table, whose log is not yet empty. *)
Definition interrupted (db : Db) (log : list (Z * list Operation)) (ls : list LayerSpec) (d : Disk) : Prop :=
  disk_inv d log [] ls (table_sequence (inner db)) \/
  exists s, ls_map s = pending_table (inner db) /\ disk_inv d log [] (ls ++ [s]) (sequence (inner db)).

Lemma disk_inv_scratch d d' log ls tseq name :
  disk_inv d log [] ls tseq -> (forall s, s ∈ ls -> ls_name s <> name) ->
  name <> WAL_FILE -> name <> MANIFEST_FILE ->
  (forall f, f <> name -> f <> temp_name name -> f <> MANIFEST_TEMP_FILE -> d' !! f = d !! f) ->
  disk_inv d' log [] ls tseq.
Proof.
  intros Hd Hne Hw Hm Hf. eapply disk_inv_frame; [|exact Hd]. intros f Hin.
  apply elem_of_cons in Hin as [->|Hin]; [apply Hf; done|].
  apply elem_of_cons in Hin as [->|Hin]; [apply Hf; done|].
  apply list_elem_of_fmap in Hin as (s&->&Hs).
  apply Hf; [by apply Hne|apply ls_name_temp|apply ls_name_special; set_solver].
Qed.

(** An error inside the closure puts the pending table back. *)
Lemma flush_failed i d updates fault e i1 d1 :
  recovery_required i = false -> pending_table i = updates -> updates <> ∅ ->
  flush_body updates (Some fault) (mkDb (set_pending i ∅ (pending_table_bytes i)) d)
    = (Err e, mkDb (set_pending i ∅ (pending_table_bytes i)) d1) ->
  i1 = bump_generation i ->
  flush_table_locked (Some fault) (mkDb i d) = (Err e, mkDb i1 d1).
Proof.
  intros Hrr Hp Hne Hrun ->. unfold flush_table_locked. step_M. rewrite Hrr, Hp, bool_decide_false by done.
  step_M. erewrite M_bind_Ok by (eapply attempt_run, Hrun). cbn [when].
  do 2 (erewrite M_bind_Ok by reflexivity). unfold lift. do 2 f_equal.
  destruct i; cbn in *. by subst.
Qed.

(** The seven ways a flush can be interrupted, as the directories they leave. *)
Lemma flush_body_fault i d updates fault :
  table_fits updates -> fault ∈ flush_faults ->
  let name := flush_table_name (sequence i) (zlen (table_files i)) in
  let m := mkManifest FORMAT_VERSION (Some name) (table_files i ++ [name]) (sequence i) in
  exists content e d', write_table (sequence i) updates = Ok content /\
    flush_body updates (Some fault) (mkDb i d) = (Err e, mkDb i d') /\
    ((forall f, f <> name -> f <> temp_name name -> f <> MANIFEST_TEMP_FILE -> d' !! f = d !! f) \/
     d' = publish_manifest (publish_table d name content) m).
Proof.
  intros Hfit Hfault name m.
  destruct (write_table_file_run (temp_name name) (sequence i) updates i d Hfit) as (content&Hwt&Hrun).
  exists content.
  assert (Hren : forall to, fs_rename (temp_name name) to (mkDb i (<[temp_name name := content]> d))
    = (Ok (), mkDb i (<[to := content]> (delete (temp_name name) (<[temp_name name := content]> d)))))
    by (intros; apply fs_rename_run, lookup_insert_eq).
  unfold flush_body. erewrite M_bind_Ok by reflexivity. cbn [inner disk]. fold name. fold m.
  assert (Htemp : forall f, f <> temp_name name -> <[temp_name name := content]> d !! f = d !! f)
    by (intros; by rewrite lookup_insert_ne).
  repeat (apply elem_of_cons in Hfault as [->|Hfault]); [..|set_solver];
    repeat first
      [ erewrite M_bind_Ok by reflexivity
      | erewrite M_bind_Ok by exact Hrun
      | erewrite M_bind_Ok by apply Hren
      | erewrite M_bind_Ok by (unfold write_manifest; erewrite M_bind_Ok by reflexivity;
          erewrite M_bind_Ok by reflexivity; apply fs_rename_run, lookup_insert_eq) ];
    eexists _, _; (split; [done|]);
    (split; [first [erewrite M_bind_Err by reflexivity; reflexivity
                   |erewrite M_bind_Err by (unfold write_manifest; erewrite M_bind_Ok by reflexivity;
                      erewrite M_bind_Err by reflexivity; reflexivity); reflexivity]|]);
    try (right; reflexivity); left; intros f Hf1 Hf2 Hf3; cbn [disk];
    rewrite ?(lookup_insert_ne _ _ f), ?lookup_delete_ne, ?Htemp by congruence; try done.
Qed.

(** Whatever fault interrupts a flush, memory keeps its contents and the directory
    stays one that can be opened. *)
Lemma flush_interrupted db log ls fault :
  db_inv db log ls -> recovery_required (inner db) = false -> pending_table (inner db) <> ∅ ->
  weight (pending_table (inner db)) <= table_limit -> fault ∈ flush_faults ->
  exists e d', flush_table_locked (Some fault) db = (Err e, mkDb (bump_generation (inner db)) d') /\
    interrupted db log ls d'.
Proof.
  intros Hinv Hrr Hp Hwt Hfault. destruct db as [i d]; cbn [inner disk] in *.
  destruct Hinv as [Hdisk [Hmem Hwal] Hwalf Hj Hrep Hlay Hfiles Hseq Hfr Hag Hmt].
  cbn [inner disk] in *. specialize (Hfr Hp). pose proof (di_tseq _ _ _ _ _ Hdisk) as Hts.
  destruct (flush_body_fault (set_pending i ∅ (pending_table_bytes i)) d (pending_table i) fault Hwt Hfault)
    as (content&e&d'&Hw&Hrun&Hout). cbn [sequence table_files set_pending] in *.
  exists e, d'. split; [by eapply flush_failed|].
  set (s := mkLayerSpec (sequence i) ("-" +:+ format_pad 4 (zlen (table_files i)) +:+ ".tdb") (pending_table i)).
  change (flush_table_name (sequence i) (zlen (table_files i))) with (ls_name s) in *.
  pose proof (di_range _ _ _ _ _ Hdisk) as Hrange. rewrite Forall_forall in Hrange.
  destruct Hout as [Hout| ->].
  - left. eapply disk_inv_scratch; [done| |apply ls_name_special; set_solver..|exact Hout].
    intros s' Hs'. specialize (Hrange s' Hs'). cbn in Hrange. apply ls_name_inj_lt; cbn; lia.
  - right. exists s. split; [done|]. rewrite Hfiles.
    destruct (open_layer_written (publish_manifest (publish_table d (ls_name s) content)
       (mkManifest FORMAT_VERSION (Some (ls_name s)) ((ls_name <$> ls) ++ [ls_name s]) (sequence i)))
       (ls_name s) (sequence i) (pending_table i) content) as (layer&_&Hpath&Hrepr);
      [lia|exact Hwt|done| |].
    { rewrite publish_manifest_other by (apply ls_name_special; set_solver). apply lookup_insert_eq. }
    apply (disk_inv_publish d log [] ls (table_sequence i) s content layer);
      [done|cbn; lia|cbn; lia| |done|done].
    apply no_slash_app; [by repeat (split; [discriminate|])|]. apply no_slash_app; [apply no_slash_pad|].
    by repeat (split; [discriminate|]).
Qed.

(** Opening the directory an interrupted flush left gives back the contents. *)
Lemma interrupted_open b db log ls d :
  db_inv db log ls -> covered (state (inner db)) (pending_table (inner db)) ->
  ~ hidden_tombstone (inner db) ls -> 1 <= b_max_memtable_bytes b ->
  interrupted db log ls d ->
  exists db' ls', open b (delete LOCK_FILE d) = (Ok db', disk db') /\ db_inv db' log ls' /\
    recovery_required (inner db') = false /\ contents (inner db') ls' = contents (inner db) ls.
Proof.
  intros Hinv Hcov Hhid Hb [Hd|(s&Hs&Hd)]; apply disk_inv_unlock in Hd;
    destruct (open_repr b _ _ _ _ _ Hd Hb (lookup_delete_eq d LOCK_FILE))
      as (db'&Hopen&Hinv'&Hrr&_&_&Hc); eexists _, _; split_and!; try done; rewrite Hc.
  - rewrite (inv_replay _ _ _ Hinv). cbn [snd]. by eapply replay_contents.
  - pose proof (apply_log_frames log (table_sequence (inner db), ∅)) as Hfr.
    rewrite (inv_replay _ _ _ Hinv) in Hfr. rewrite apply_log_skip by done. cbn [snd].
    rewrite map_empty_union, fmap_app. cbn [fmap list_fmap]. rewrite layers_view_snoc, Hs.
    unfold contents. symmetry. by apply covered_overlay.
Qed.
End crash.
