(* ===== verification/ThingDb.v ===== *)
(** * ThingDB: the properties of the durable database

    The refinement theorems of the durable mode, stated on the operations of
    [Database] and on executions of them, with the two executions in which
    recovered writes are lost. *)

From S2P Require Import Prelude Wal Table Layer Database Durable Commit Recovery.

(** ** Executions *)

Section executions.
Context `{Crc32} `{ManifestCodec}.

(** The contents after a group.  A group is applied as a whole or not at all; it is applied when
    its frames were synced and no fault was injected before the application, even if the
    maintenance after it fails. *)
Definition contents_after (db : Db) (A : bmap bytes) (requests : list CommitRequest) (io : CommitIo) : bmap bytes :=
  if negb (recovery_required (inner db)) && negb (unsynced (sequence (inner db) + 1) requests io)
     && bool_decide (request_has_fault requests "after-wal-sync-before-state-apply" = None)
  then foldl apply_operation A (group_operations requests) else A.

(** One step of a database in service, next to the map it should represent.  A refused group may
    have failed at any point at which the log was not left damaged (a write that was cut off or
    could not be taken back).  A restart is a clean one: everything had been flushed. *)
Inductive db_step : Db * bmap bytes -> Db * bmap bytes -> Prop :=
| step_acknowledged db A requests io db' :
    group_fits db A requests -> process_group requests io db = (Ok (), db') ->
    db_step (db, A) (db', foldl apply_operation A (group_operations requests))
| step_refused db A requests io e db' :
    group_fits db A requests -> ci_write io = None -> ci_truncate io = true ->
    process_group requests io db = (Err e, db') ->
    db_step (db, A) (db', contents_after db A requests io)
| step_persist db A r db' :
    weight (pending_table (inner db)) <= table_limit ->
    persist db = (r, db') -> db_step (db, A) (db', A)
| step_compact db A r db' :
    weight (Some <$> A) <= table_limit ->
    compact db = (r, db') -> db_step (db, A) (db', A)
| step_background db A r db' :
    weight (pending_table (inner db)) <= table_limit -> weight (Some <$> A) <= table_limit ->
    background_flush_pass db = (r, db') -> db_step (db, A) (db', A)
| step_restart db A b db' d' :
    recovery_required (inner db) = false -> pending_table (inner db) = ∅ -> 1 <= b_max_memtable_bytes b ->
    open b (close db) = (Ok db', d') -> db_step (db, A) (db', A).

(** What readers see: a database in service, or one that refuses writes until it is reopened. *)
Definition db_shows (db : Db) (A : bmap bytes) : Prop :=
  db_repr db A \/
  recovery_required (inner db) = true /\ in_memory (inner db) = false /\
    exists ls, layers_repr (disk db) (table_layers (inner db)) ls /\ contents (inner db) ls = A.

Lemma db_shows_layers db A :
  db_shows db A -> in_memory (inner db) = false /\ exists ls, layers_repr (disk db) (table_layers (inner db)) ls /\ contents (inner db) ls = A.
Proof. intros [(log&ls&Hinv&_&_&HA)|(_&?&?)]; [|done]. split; [apply (inv_mode _ _ _ Hinv)|]. exists ls. split; [apply (inv_layers _ _ _ Hinv)|done]. Qed.

Lemma shows_same_data db db' log ls :
  db_inv db log ls -> same_data (inner db) (inner db') -> disk db' = disk db -> recovery_required (inner db') = true ->
  db_shows db' (contents (inner db) ls).
Proof.
  intros Hinv [Hm Hs Hp Hl] Hd Hrr. right. split_and!; [done|rewrite Hm; apply (inv_mode _ _ _ Hinv)|]. exists ls.
  rewrite Hd, Hl. split; [apply (inv_layers _ _ _ Hinv)|]. unfold contents. by rewrite Hs, Hp.
Qed.

(** Every outcome of a group that leaves the log whole. *)
Lemma group_outcome db A requests io r db' :
  db_repr db A -> group_fits db A requests -> process_group requests io db = (r, db') ->
  match r with
  | Ok _ => db_repr db' (foldl apply_operation A (group_operations requests))
  | Err _ => ci_write io = None -> ci_truncate io = true -> db_shows db' (contents_after db A requests io)
  end.
Proof.
  intros Hr Hfit Hrun. destruct (backpressure_refines db A requests Hr Hfit) as (db0&Hb&Hr0&Hfit0&Hs).
  pose proof Hr as (_&_&_&Hrr&_). rewrite (process_group_tail db db0 _ _ Hrr Hb) in Hrun. unfold contents_after. rewrite Hrr, <-Hs. clear Hb Hr Hfit Hs Hrr db.
  pose proof Hr0 as (log&ls&Hinv&Hrr&Hcov&HA). pose proof (group_log_fits _ _ _ Hfit0) as Hlog.
  destruct (encode_group_fits _ _ _ _ Hinv Hlog) as [Hsat _]. destruct (unsynced (sequence (inner db0) + 1) requests io) eqn:Hun; cbn [negb andb].
  { rewrite <-Hsat in Hun. destruct (unsynced_failure _ _ _ _ _ Hinv Hrr Hun) as [e He]. rewrite He in Hrun. injection Hrun as <- <-. intros Hw Ht. left.
    assert (Hl : leftover (u64_saturating_add (sequence (inner db0)) 1) requests io = []).
    { unfold leftover. destruct (encode_group _ _) as [[]|]; [|done]. rewrite Hw, Ht. by case_bool_decide. }
    rewrite Hl, (append_log_nil _ _ _ Hinv). by destruct db0. }
  destruct (committed_repr _ _ _ Hr0 Hfit0) as (Hr1&Hp1&HA1). case_bool_decide as Hft.
  - destruct (commit_tail_run db0 log ls requests io Hinv Hrr Hlog Hun Hft) as (r1&db1&Hm&Hct). rewrite Hct in Hrun. injection Hrun as -> <-.
    destruct (maintain_repr _ _ requests io Hr1 Hp1 HA1) as (r2&db2&Hm2&Hout). rewrite Hm in Hm2. injection Hm2 as <- <-.
    destruct r as [[]|e]; [apply Hout|]. intros _ _. destruct Hout as [Hsd Hd], Hr1 as (log1&ls1&Hinv1&_&_&<-).
    eapply shows_same_data; [exact Hinv1|by destruct Hsd|done|done].
  - pose proof (execute_group_run db0 log ls requests io Hinv Hrr Hlog Hun) as Hex.
    destruct (request_has_fault requests "after-wal-sync-before-state-apply") as [pt|]; [|done]. destruct (inv_mode _ _ _ Hinv) as [Hm Hw].
    revert Hrun. unfold commit_tail. destruct db0 as [i d]. cbn [inner disk] in *. erewrite M_bind_Ok by reflexivity.
    cbn [inner disk]. rewrite Hm. rewrite Hw in *. cbn [negb andb]. erewrite M_bind_Ok by exact Hex. cbn [fst snd when]. erewrite M_bind_Ok by reflexivity.
    intros [= <- <-] _ _. right. split_and!; [done|done|]. exists ls. split; [|done].
    pose proof (committed_inv (mkDb i d) log ls requests Hinv Hlog) as Hinv'. apply (inv_layers _ _ _ Hinv').
Qed.

Lemma background_refines db A :
  db_repr db A -> weight (pending_table (inner db)) <= table_limit -> weight (Some <$> A) <= table_limit ->
  exists again db', background_flush_pass db = (Ok again, db') /\ db_repr db' A.
Proof.
  intros Hr Hp HA. unfold background_flush_pass. destruct db as [i d]. erewrite M_bind_Ok by reflexivity.
  destruct (_ || _); [by eexists _, _|].
  destruct (flush_refines _ _ Hr Hp) as (db1&Hrun&Hr1&_).
  erewrite M_bind_Ok by (apply attempt_run, Hrun). cbn beta iota. erewrite M_bind_Ok by reflexivity.
  destruct (max_table_layers (inner db1) <=? zlen (table_layers (inner db1))); cbn [when].
  - destruct (compact_refines _ _ Hr1 HA) as (db2&Hrun2&Hr2&_).
    erewrite M_bind_Ok by (apply attempt_run, Hrun2). cbn beta iota. erewrite M_bind_Ok by reflexivity. by eexists _, _.
  - erewrite M_bind_Ok by (eapply attempt_run; reflexivity). cbn beta iota. erewrite M_bind_Ok by reflexivity.
    by eexists _, _.
Qed.

Lemma persist_refines db A :
  db_repr db A -> weight (pending_table (inner db)) <= table_limit ->
  exists db', persist db = (Ok (), db') /\ db_repr db' A /\ weight (pending_table (inner db')) = 0.
Proof.
  intros Hr Hp. destruct (flush_refines _ _ Hr Hp) as (db'&Hrun&Hr'&_&Hw&_). exists db'.
  split_and!; [|done..]. destruct Hr as (log&ls&Hinv&_). unfold persist.
  erewrite M_bind_Ok by reflexivity. by rewrite (proj1 (inv_mode _ _ _ Hinv)).
Qed.

Lemma compact_op_refines db A :
  db_repr db A -> weight (Some <$> A) <= table_limit ->
  exists db', compact db = (Ok (), db') /\ db_repr db' A /\ zlen (table_layers (inner db')) = 1.
Proof.
  intros (log&ls&Hinv&Hrr&Hcov&<-) HA.
  destruct (compact_inv db log ls) as (db'&s&Hrun&Hinv'&Hs&_&Hrr'&Hst&Hpe&_); [done..|].
  exists db'. split_and!.
  - unfold compact. erewrite M_bind_Ok by reflexivity. by rewrite (proj1 (inv_mode _ _ _ Hinv)).
  - exists [], [s]. split_and!; [done..| |by apply compacted_contents].
    rewrite Hst. intros k v Hk. by rewrite lookup_empty in Hk.
  - rewrite (Forall2_length _ _ _ (inv_layers _ _ _ Hinv')). done.
Qed.

Lemma covered_pending_empty st : covered st ∅ -> st = ∅.
Proof.
  intros Hc. apply map_eq. intros k. rewrite lookup_empty.
  destruct (st !! k) as [v|] eqn:Hk; [|done]. apply Hc in Hk. by rewrite lookup_empty in Hk.
Qed.

Lemma restart_refines db A b :
  db_repr db A -> pending_table (inner db) = ∅ -> 1 <= b_max_memtable_bytes b ->
  exists db', open b (close db) = (Ok db', disk db') /\ db_repr db' A.
Proof.
  intros (log&ls&Hinv&Hrr&Hcov&<-) Hp Hb. rewrite Hp in Hcov. apply covered_pending_empty in Hcov.
  destruct (reopen_contents b db log ls Hinv Hb) as (db'&Hopen&Hinv'&Hrr'&Hp'&_&Hst&Hc).
  exists db'. split; [done|]. exists log, ls. split_and!; [done..| |].
  - rewrite Hst, Hcov. intros k v Hk. by rewrite lookup_empty in Hk.
  - rewrite Hc. unfold contents. by rewrite Hp, overlay_empty.
Qed.

(** A database that waits to be reopened refuses everything. *)
Lemma waiting_refuses db : recovery_required (inner db) = true -> in_memory (inner db) = false ->
  (persist db).2 = db /\ (compact db).2 = db /\ (background_flush_pass db).2 = db.
Proof.
  intros Hrr Hm. destruct (recovery_gate db [] io_ok None Hrr) as (_&Hf&Hc). unfold persist, compact, background_flush_pass.
  split_and!; (erewrite M_bind_Ok by reflexivity); rewrite ?Hm, ?Hrr, ?Hf, ?Hc; done.
Qed.

Lemma db_step_shows db A db' A' : db_step (db, A) (db', A') -> db_shows db A -> db_shows db' A'.
Proof.
  intros Hstep Hr. remember (db, A) as p eqn:Hp. remember (db', A') as q eqn:Hq.
  destruct Hstep as [? ? requests io ? Hfit Hrun|? ? requests io e db1 Hfit Hwr Htr Hrun
    |? ? r ? Hw Hrun|? ? r ? Hw Hrun|? ? r ? Hw1 Hw2 Hrun|? ? b ? ? Hnr Hpe Hb Hrun];
    injection Hp as -> ->; injection Hq as <- <-;
    (destruct Hr as [Hr|(Hrr&Hm&Hls)]; [|try (destruct (waiting_refuses _ Hrr Hm) as (W1&W2&W3); rewrite Hrun in *; cbn [snd] in *; subst; by right)]).
  - left. by apply (group_outcome _ _ _ _ _ _ Hr Hfit Hrun).
  - destruct (recovery_gate db requests io None Hrr) as (Hg&_). congruence.
  - by apply (group_outcome _ _ _ _ _ _ Hr Hfit Hrun).
  - destruct (recovery_gate db requests io None Hrr) as (Hg&_). unfold contents_after. rewrite Hrr. assert (db1 = db) as -> by congruence. by right.
  - left. destruct (persist_refines _ _ Hr Hw) as (db2&Hrun2&Hr2&_). congruence.
  - left. destruct (compact_op_refines _ _ Hr Hw) as (db2&Hrun2&Hr2&_). congruence.
  - left. destruct (background_refines _ _ Hr Hw1 Hw2) as (ag&db2&Hrun2&Hr2). congruence.
  - left. destruct (restart_refines _ _ b Hr Hpe Hb) as (db2&Hrun2&Hr2). congruence.
  - congruence.
Qed.

(** A new directory. *)
Definition opened (r : tdb_result Db * Disk) : Db :=
  match r.1 with
  | Ok db => db
  | Err _ => mkDb (mkInner false false ∅ 0 0 [] [] ∅ 0 0 0 0 0 0 true 0 false) r.2
  end.

Lemma open_fresh_inv b :
  1 <= b_max_memtable_bytes b ->
  exists db, open b ∅ = (Ok db, disk db) /\ db_inv db [] [] /\
    recovery_required (inner db) = false /\ state (inner db) = ∅ /\ pending_table (inner db) = ∅.
Proof.
  intros Hb. eexists. split; [reflexivity|]. split_and!; [|done..].
  split; try done; [|constructor].
  split; try done; try (unfold_ints; cbn; lia); first [apply torn_tail_nil|constructor].
Qed.

Lemma open_fresh b :
  1 <= b_max_memtable_bytes b -> exists db, open b ∅ = (Ok db, disk db) /\ db_repr db ∅.
Proof.
  intros Hb. destruct (open_fresh_inv b Hb) as (db&Hopen&Hinv&Hrr&Hst&Hp).
  exists db. split; [exact Hopen|]. exists [], []. split_and!; [done..| |].
  - rewrite Hst. intros k v Hk. by rewrite lookup_empty in Hk.
  - unfold contents. rewrite Hst, Hp, overlay_empty. done.
Qed.
End executions.

(** ** Properties *)

Section properties.
Context `{Crc32} `{ManifestCodec}.

(** C5. From an empty directory on, through groups that are acknowledged or refused, flushes,
    compactions, background maintenance and clean restarts, reads follow one map.  Every
    acknowledged group is applied to it in commit order.  A refused group is applied as a whole
    or not at all: it is applied exactly when its frames were synced and only the maintenance
    after its application failed ([contents_after]), and the database then refuses further
    writes.  Nothing else changes the map.  Point reads, multi-gets and snapshots
    return its bindings; a read whose table files were deleted by another thread after it had
    released the lock returns them or an error.  Sizes stay within one table and the 64-bit
    counters ([group_fits]), and no write to the log was left cut off. *)
Theorem durable_refinement b db0 db A :
  open b ∅ = (Ok db0, disk db0) -> 1 <= b_max_memtable_bytes b ->
  rtc db_step (db0, ∅) (db, A) ->
  (forall k, get_durable_value db k = Ok (A !! k)) /\
  (forall ks, get_many_durable_values db ks = Ok ((fun k => A !! k) <$> ks)) /\
  materialize_state (disk db) (inner db) = Ok A /\
  (forall files k, tables_kept (disk db) files (table_layers (inner db)) ->
     same_or_error (Ok (A !! k)) (read_durable_value (inner db) files k)) /\
  (forall files ks, tables_kept (disk db) files (table_layers (inner db)) ->
     same_or_error (Ok ((fun k => A !! k) <$> ks)) (read_many_durable_values (inner db) files ks)).
Proof.
  intros Hopen Hb Hsteps. destruct (open_fresh b Hb) as (db1&Hopen1&Hr0).
  assert (db1 = db0) as -> by congruence.
  assert (Hgen : forall p q, rtc db_step p q -> db_shows p.1 p.2 -> db_shows q.1 q.2).
  { induction 1 as [|[x1 x2] [y1 y2] z Hxy Hyz IH]; [done|]. intros Hx. apply IH. by eapply db_step_shows. }
  destruct (db_shows_layers db A (Hgen _ _ Hsteps (or_introl Hr0))) as (Hm&ls&Hl&<-). split_and!.
  - intros k. by apply get_durable_contents.
  - intros ks. by apply get_many_contents.
  - by apply materialize_contents.
  - intros files k Hk. by apply read_value_kept.
  - intros files ks Hk. by apply read_many_kept.
Qed.

(** A fault-free group commits: the response is [Ok], the contents become the old
    ones with all operations of the group applied in order, and the sequence
    number advances by one per request, whatever flushes and compactions the
    group triggers. *)
Theorem commit_refines db A requests :
  db_repr db A -> group_fits db A requests -> no_faults requests ->
  exists db', process_group requests io_ok db = (Ok (), db') /\
    db_repr db' (foldl apply_operation A (group_operations requests)) /\
    sequence (inner db') = sequence (inner db) + zlen requests.
Proof. apply process_group_refines. Qed.

(** C6. Committing two groups one after the other gives the same contents and sequence number as
    committing them as one group: how the writer coalesces requests is invisible.  This is for
    groups without faults, within the bounds of [group_fits], on a database whose values in
    memory are all waiting to be flushed ([covered]), as in one that was created or cleanly
    restarted; after a reopen with an unflushed log a flush between the groups drops
    recovered writes ([persist_contents_iff]). *)
Theorem group_commit_equivalent db log ls A g1 g2 :
  db_inv db log ls -> recovery_required (inner db) = false ->
  covered (state (inner db)) (pending_table (inner db)) -> contents (inner db) ls = A ->
  no_faults (g1 ++ g2) -> group_fits db A (g1 ++ g2) ->
  (forall db1, process_group g1 io_ok db = (Ok (), db1) ->
     group_fits db1 (foldl apply_operation A (group_operations g1)) g2) ->
  exists db1 db2 db12 A',
    process_group g1 io_ok db = (Ok (), db1) /\ process_group g2 io_ok db1 = (Ok (), db2) /\
    process_group (g1 ++ g2) io_ok db = (Ok (), db12) /\
    db_repr db2 A' /\ db_repr db12 A' /\
    sequence (inner db2) = sequence (inner db12).
Proof.
  intros Hinv Hrr Hcov HA Hf Hfit Hfit2. assert (Hr : db_repr db A) by (by exists log, ls). pose proof Hf as [Hf1 Hf2]%Forall_app.
  assert (Hops : group_operations (g1 ++ g2) = group_operations g1 ++ group_operations g2).
  { unfold group_operations. by rewrite fmap_app, concat_app. }
  destruct (process_group_refines db A (g1 ++ g2)) as (db12&Hrun12&Hr12&Hs12); [done..|].
  destruct (process_group_refines db A g1) as (db1&Hrun1&Hr1&Hs1); [done|by eapply group_fits_prefix|done|].
  destruct (process_group_refines db1 (foldl apply_operation A (group_operations g1)) g2)
    as (db2&Hrun2&Hr2&Hs2); [done|by apply Hfit2|done|].
  exists db1, db2, db12, (foldl apply_operation A (group_operations (g1 ++ g2))).
  rewrite Hops, foldl_app in *. split_and!; try done. rewrite Hs2, Hs1, Hs12, length_app. lia.
Qed.

(** C7. A group that fails before its frames are synced is refused and memory is as backpressure
    left it before the group ([db0], which is [db] itself unless the mutable table is over
    twice its bound and was flushed first).  This holds for every such failure: frames that
    cannot be encoded, a log that cannot be written or synced, and the injected faults.  The log
    is cut back to its old bytes, so that nothing at all changes, unless [write_all] failed
    half-way, which leaves the bytes it wrote, or the cut itself fails ([leftover]). *)
Theorem unsynced_group_leaves_no_trace db db0 log ls requests io :
  let s := u64_saturating_add (sequence (inner db0)) 1 in
  recovery_required (inner db) = false -> backpressure db = (Ok (), db0) ->
  db_inv db0 log ls -> recovery_required (inner db0) = false -> unsynced s requests io = true ->
  exists e, process_group requests io db = (Err e, mkDb (inner db0) (append_log (leftover s requests io) (disk db0))) /\
    (ci_write io = None -> ci_truncate io = true -> process_group requests io db = (Err e, db0)).
Proof.
  intros s Hrr Hb Hinv Hrr0 Hun. rewrite (process_group_tail db db0 _ _ Hrr Hb).
  destruct (unsynced_failure db0 log ls requests io Hinv Hrr0 Hun) as [e He]. exists e. fold s in He. rewrite He. split; [done|].
  intros Hw Ht. assert (Hl : leftover s requests io = []).
  { unfold leftover. destruct (encode_group _ _) as [[]|]; [|done]. rewrite Hw, Ht. by case_bool_decide. }
  rewrite Hl, (append_log_nil _ _ _ Hinv). by destruct db0.
Qed.

(** C8. A group that fails after its frames are synced, whether before its application or in the
    maintenance after it, is refused but durable: every further write, flush or compaction
    answers with an error and changes nothing, and reopening the directory replays
    the group exactly once on top of the earlier log.  The tables, the memory and the group
    together fit one table, and the counters do not overflow. *)
Theorem synced_group_is_durable db db0 log ls requests io b e db' :
  recovery_required (inner db) = false -> backpressure db = (Ok (), db0) ->
  db_inv db0 log ls -> recovery_required (inner db0) = false -> log_fits db0 requests ->
  weight (Some <$> layers_view (ls_map <$> ls)) + weight (Some <$> state (inner db0)) + weight (pending_table (inner db0))
    + ops_weight (group_operations requests) <= table_limit ->
  unsynced (sequence (inner db0) + 1) requests io = false ->
  process_group requests io db = (Err e, db') -> 1 <= b_max_memtable_bytes b ->
  (forall rs io' fault, let refused := (Err (message "ThingDB requires reopen and recovery before writing"), db') in
     process_group rs io' db' = refused /\ flush_table_locked fault db' = refused /\
     compact_tables_locked fault db' = refused) /\
  exists db'', open b (close db') = (Ok db'', disk db'') /\
    sequence (inner db'') = sequence (inner db0) + zlen requests /\
    state (inner db'') = foldl apply_operation (state (inner db0)) (group_operations requests) /\
    table_files (inner db'') = table_files (inner db0).
Proof.
  intros Hrr Hb Hinv Hrr0 Hfit Hwt Hun Hrun Hbm. rewrite (process_group_tail db db0 _ _ Hrr Hb) in Hrun.
  destruct (synced_failure db0 log ls requests io e db' Hinv Hrr0 Hfit Hwt Hun Hrun) as (Hrr'&Hdisk&_).
  split; [intros rs io' fault; by apply recovery_gate|].
  pose proof (committed_inv db0 log ls requests Hinv Hfit) as Hinv'.
  destruct (open_repr b (close db') (log ++ number_requests (sequence (inner db0) + 1) requests) [] ls
    (table_sequence (inner db0))) as (db''&Hopen&Hinv''&_&_&Hst&_);
    [unfold close; rewrite Hdisk; apply disk_inv_unlock, Hinv'|done|apply close_unlocked|].
  exists db''. rewrite (apply_log_number _ _ log _ requests _ _ (inv_replay _ _ _ Hinv) eq_refl) in Hst.
  split_and!; [done|congruence|congruence|]. by rewrite (inv_files _ _ _ Hinv''), (inv_files _ _ _ Hinv).
Qed.

(** Flushing keeps the contents and empties the mutable table; when there was
    something to flush, it leaves an empty log and a manifest that lists one more table. *)
Theorem persist_preserves db A :
  db_repr db A -> weight (pending_table (inner db)) <= table_limit ->
  exists db', persist db = (Ok (), db') /\ db_repr db' A /\ pending_table (inner db') = ∅ /\
    (pending_table (inner db) <> ∅ ->
       wal_content (disk db') = [] /\
       exists name, table_files (inner db') = table_files (inner db) ++ [name] /\
         disk db' !! MANIFEST_FILE = Some (to_vec_pretty (mkManifest FORMAT_VERSION (Some name)
           (table_files (inner db')) (table_sequence (inner db'))))).
Proof.
  intros Hr Hw. destruct (persist_refines db A Hr Hw) as (db'&Hrun&Hr'&Hw'). exists db'.
  split_and!; [done|done|by apply weight_zero|]. intros Hp. destruct Hr as (log&ls&Hinv&Hrr&_).
  destruct (flush_inv db log ls) as (db2&s&Hrun2&_&Hinv2&_); [done..|].
  assert (db2 = db') as ->.
  { unfold persist in Hrun. erewrite M_bind_Ok in Hrun by reflexivity.
    rewrite (proj1 (inv_mode _ _ _ Hinv)), Hrun2 in Hrun. by injection Hrun. }
  pose proof (inv_disk _ _ _ Hinv2) as Hd. split; [by rewrite (di_wal _ _ _ _ _ Hd)|].
  exists (ls_name s). rewrite (di_manifest _ _ _ _ _ Hd), (inv_files _ _ _ Hinv2), (inv_files _ _ _ Hinv), fmap_app.
  split; [done|]. change (ls_name <$> [s]) with [ls_name s]. by rewrite last_snoc.
Qed.

(** Compaction folds everything into one table and keeps the contents, also when
    the database was reopened with an unflushed log. *)
Theorem compact_preserves db log ls :
  db_inv db log ls -> recovery_required (inner db) = false ->
  weight (Some <$> contents (inner db) ls) <= table_limit ->
  exists db' s, compact_tables_locked None db = (Ok (), db') /\ db_inv db' [] [s] /\
    contents (inner db') [s] = contents (inner db) ls /\
    materialize_state (disk db') (inner db') = Ok (contents (inner db) ls).
Proof.
  intros Hinv Hrr Hw. destruct (compact_inv db log ls) as (db'&s&Hrun&Hinv'&Hs&_&_&Hst&Hpe&_); [done..|].
  pose proof (compacted_contents db db' ls s Hs Hst Hpe) as Hc.
  exists db', s. split_and!; [done..|]. rewrite <-Hc. apply materialize_contents, Hinv'.
Qed.

(** C9. Reopening a closed database succeeds, and it shows the contents from before if
    and only if no deletion that is still only in the log hides a value stored in
    a table. *)
Theorem reopen_contents_iff b db log ls :
  db_inv db log ls -> 1 <= b_max_memtable_bytes b ->
  exists db', open b (close db) = (Ok db', disk db') /\ db_inv db' log ls /\
    recovery_required (inner db') = false /\
    (materialize_state (disk db') (inner db') = Ok (contents (inner db) ls) <->
       ~ hidden_tombstone (inner db) ls).
Proof.
  intros Hinv Hb. destruct (reopen_contents b db log ls Hinv Hb) as (db'&Hopen&Hinv'&Hrr&_&_&_&Hc).
  exists db'. split_and!; [done..|]. rewrite (materialize_contents db' ls (inv_layers _ _ _ Hinv')), Hc.
  rewrite <-(replay_contents db log ls Hinv). split; [by intros [= ?]|by intros ->].
Qed.

(** A value that only memory holds, although it is not waiting to be flushed: a write that was
    recovered from the log when the database was opened. *)
Definition recovered_write (i : Inner) (ls : list LayerSpec) : Prop :=
  exists k v, state i !! k = Some v /\ pending_table i !! k = None /\ layers_view (ls_map <$> ls) !! k <> Some v.

(** C11. A flush of a database with pending writes, also one that was opened with an unflushed log,
    succeeds, and it keeps the contents if and only if no value in memory was recovered from the
    log and not written since: the flush writes only the pending table, then clears the
    mutable state and truncates the log.  The pending table fits one table. *)
Theorem persist_contents_iff db log ls :
  db_inv db log ls -> recovery_required (inner db) = false ->
  pending_table (inner db) <> ∅ -> weight (pending_table (inner db)) <= table_limit ->
  exists db', persist db = (Ok (), db') /\
    (materialize_state (disk db') (inner db') = Ok (contents (inner db) ls) <-> ~ recovered_write (inner db) ls).
Proof.
  intros Hinv Hrr Hp Hw. destruct (flush_inv db log ls) as (db'&s&Hrun&Hs&Hinv'&_&_&Hst&Hpe&_); [done..|]. exists db'. split.
  { unfold persist. erewrite M_bind_Ok by reflexivity. by rewrite (proj1 (inv_mode _ _ _ Hinv)). }
  rewrite (materialize_contents db' (ls ++ [s]) (inv_layers _ _ _ Hinv')).
  assert (Hc : contents (inner db') (ls ++ [s]) = overlay (pending_table (inner db)) (layers_view (ls_map <$> ls))).
  { unfold contents. rewrite Hst, Hpe, overlay_empty, (left_id_L ∅ (∪)), fmap_app. change (ls_map <$> [s]) with [ls_map s]. by rewrite layers_view_snoc, Hs. }
  rewrite Hc. unfold contents. set (L := layers_view _). split.
  - intros [= Heq] (k&v&Hk&Hpk&HL). apply (f_equal (fun m => m !! k)) in Heq. rewrite !lookup_overlay, Hpk in Heq.
    rewrite (lookup_union_Some_l (state (inner db)) L k v Hk) in Heq. fold L in HL. done.
  - intros Hno. f_equal. apply map_eq. intros k. rewrite !lookup_overlay. destruct (pending_table (inner db) !! k) as [x|] eqn:Hpk; [done|].
    rewrite lookup_union. destruct (state (inner db) !! k) as [v|] eqn:Hk; [|by destruct (L !! k)].
    destruct (decide (L !! k = Some v)) as [->|HL]; [done|]. exfalso. apply Hno. by exists k, v.
Qed.

(** C10. A flush interrupted at any of its fault points leaves a directory that opens,
    and the opened database shows the contents from before the flush: a table is never half
    visible and no write is applied twice.  The memory state is kept for a retry.  This is for
    a database whose values in memory are all waiting to be flushed ([covered]: none was
    recovered from the log by an earlier open) and in which no pending deletion hides a
    table value, as reopening loses those ([reopen_contents_iff]). *)
Theorem flush_crash_safe db A ls log fault b :
  db_inv db log ls -> recovery_required (inner db) = false ->
  covered (state (inner db)) (pending_table (inner db)) -> contents (inner db) ls = A ->
  pending_table (inner db) <> ∅ -> weight (pending_table (inner db)) <= table_limit ->
  ~ hidden_tombstone (inner db) ls -> fault ∈ flush_faults -> 1 <= b_max_memtable_bytes b ->
  exists e db' db'', flush_table_locked (Some fault) db = (Err e, db') /\
    inner db' = bump_generation (inner db) /\
    open b (close db') = (Ok db'', disk db'') /\
    materialize_state (disk db'') (inner db'') = Ok A.
Proof.
  intros Hinv Hrr Hcov <- Hp Hw Hh Hf Hb.
  destruct (flush_interrupted db log ls fault) as (e&d'&Hrun&Hint); [done..|].
  destruct (interrupted_open b db log ls d') as (db''&ls'&Hopen&Hinv''&_&Hc); [done..|].
  eexists e, _, db''. split_and!; [exact Hrun|done|exact Hopen|].
  rewrite <-Hc. apply materialize_contents, Hinv''.
Qed.
End properties.

(** ** Concrete executions

    A concrete manifest codec (the tuple of the fields, numbered) and a small
    database, for the witnesses and for the executions in which writes are lost. *)

Definition sample_from_slice (b : bytes) : tdb_result Manifest :=
  match b with
  | [Z.pos p] =>
      match decode p : option (Z * option string * list string * Z) with
      | Some (v, f, fs, s) => Ok (mkManifest v f fs s)
      | None => Err (message "expected a manifest")
      end
  | _ => Err (message "expected a manifest")
  end.

Definition sample_codec : ManifestCodec.
Proof.
  refine {| to_vec_pretty m := [Z.pos (encode (mf_format_version m, mf_table_file m,
              mf_table_files m, mf_table_sequence m))];
            from_slice := sample_from_slice |}.
  intros [v f fs s]. cbn [sample_from_slice mf_format_version mf_table_file mf_table_files mf_table_sequence].
  by rewrite decode_encode.
Defined.

(** The bounds of a group, by evaluation. *)
Ltac fits := split; [vm_compute; done|repeat constructor; vm_compute; done|vm_compute; done..].

Section samples.
#[local] Existing Instance sample_crc32.
#[local] Existing Instance sample_codec.

Definition request (ops : list Operation) : CommitRequest :=
  mkRequest ops (encoded_frame_capacity ops) None.
Definition faulty (point : string) (ops : list Operation) : CommitRequest :=
  mkRequest ops (encoded_frame_capacity ops) (Some point).

Definition run {A} (m : M A) (db : Db) : Db := (m db).2.
Definition commit (ops : list Operation) : M unit := process_group [request ops] io_ok.
Definition reopen (db : Db) : Db := opened (open builder (close db)).
Definition sample_db : Db := opened (open builder ∅).

(** A write that was acknowledged, recovered from the log by a reopen, and not
    written since, is dropped by the next flush: the flush writes only
    [pending_table], which recovery leaves empty, then clears the mutable state and
    truncates the log. *)
Example recovered_write_lost_by_flush :
  let db1 := reopen (run (commit [Put [1] [10]]) sample_db) in
  let db2 := run persist (run (commit [Put [2] [20]]) db1) in
  get_durable_value db1 [1] = Ok (Some [10]) /\
  get_durable_value db2 [1] = Ok None /\ get_durable_value db2 [2] = Ok (Some [20]) /\
  get_durable_value (reopen db2) [1] = Ok None.
Proof. vm_compute. split_and!; reflexivity. Qed.

(** A deletion that was acknowledged but is still only in the log does not survive a
    reopen: replay removes the key from the mutable state, where it is not, and
    leaves no tombstone in front of the table that holds the old value. *)
Example logged_delete_lost_by_reopen :
  let db1 := run persist (run (commit [Put [1] [10]]) sample_db) in
  let db2 := run (commit [Delete [1]]) db1 in
  get_durable_value db1 [1] = Ok (Some [10]) /\ get_durable_value db2 [1] = Ok None /\
  get_durable_value (reopen db2) [1] = Ok (Some [10]).
Proof. vm_compute. split_and!; reflexivity. Qed.

(** ** Witnesses *)

Lemma sample_open : open builder ∅ = (Ok sample_db, disk sample_db).
Proof. destruct (open_fresh_inv builder ltac:(cbn; lia)) as (db&Hopen&_). unfold sample_db. by rewrite Hopen. Qed.

Lemma sample_inv : db_inv sample_db [] [] /\ db_repr sample_db ∅.
Proof.
  destruct (open_fresh builder ltac:(cbn; lia)) as (db&Hopen&Hr).
  destruct (open_fresh_inv builder ltac:(cbn; lia)) as (db'&Hopen'&Hinv&_).
  unfold sample_db. rewrite Hopen. cbn [opened fst]. split; [|done]. by replace db with db' by congruence.
Qed.

Definition sample_ops : list Operation := [Put [1] [10]; Put [2] [20]; Delete [1]].

Lemma sample_fits : group_fits sample_db ∅ [request sample_ops].
Proof. fits. Qed.

Lemma commit_refines_witness :
  exists db', process_group [request sample_ops] io_ok sample_db = (Ok (), db') /\
    db_repr db' (foldl apply_operation ∅ sample_ops) /\ sequence (inner db') = 0 + 1.
Proof.
  refine (commit_refines sample_db ∅ [request sample_ops] (proj2 sample_inv) sample_fits _).
  repeat constructor.
Defined.

Definition sample_db1 : Db := run (commit sample_ops) sample_db.

Lemma sample_repr1 : db_repr sample_db1 (foldl apply_operation ∅ sample_ops).
Proof.
  destruct (process_group_refines sample_db ∅ [request sample_ops] (proj2 sample_inv) sample_fits)
    as (db'&Hrun&Hr&_); [repeat constructor|].
  unfold sample_db1, run, commit. rewrite Hrun. exact Hr.
Qed.

Lemma sample_step1 : db_step (sample_db, ∅) (sample_db1, foldl apply_operation ∅ sample_ops).
Proof.
  destruct (process_group_refines sample_db ∅ [request sample_ops] (proj2 sample_inv) sample_fits)
    as (db'&Hrun&_&_); [repeat constructor|].
  apply (step_acknowledged sample_db ∅ [request sample_ops] io_ok); [apply sample_fits|].
  unfold sample_db1, run, commit. by rewrite Hrun.
Qed.

(** A group whose flush fails is refused although it is applied. *)
Definition half_failed : list CommitRequest := [faulty "before-table-write" [Put [4] [40]]].
Definition full_io : CommitIo := mkCommitIo None true true true "disk full".
Definition tiny_db : Db := opened (open (max_memtable_bytes_opt builder 1) ∅).
Definition tiny_db1 : Db := (process_group half_failed full_io tiny_db).2.

Lemma tiny_steps : rtc db_step (tiny_db, ∅) (tiny_db1, {[ [4] := [40] ]}).
Proof.
  apply rtc_once. assert (Hrun : exists e, process_group half_failed full_io tiny_db = (Err e, tiny_db1)) by (eexists; vm_compute; reflexivity).
  destruct Hrun as [e Hrun]. assert (HA : {[ [4] := [40] ]} = contents_after tiny_db ∅ half_failed full_io) by (apply (bool_decide_unpack _); vm_compute; done).
  rewrite HA. eapply step_refused; [fits|reflexivity|reflexivity|exact Hrun].
Qed.

Lemma durable_refinement_witness :
  let A : bmap bytes := {[ [4] := [40] ]} in
  (forall k, get_durable_value tiny_db1 k = Ok (A !! k)) /\
  (forall ks, get_many_durable_values tiny_db1 ks = Ok ((fun k => A !! k) <$> ks)) /\
  materialize_state (disk tiny_db1) (inner tiny_db1) = Ok A /\
  (forall files k, tables_kept (disk tiny_db1) files (table_layers (inner tiny_db1)) ->
     same_or_error (Ok (A !! k)) (read_durable_value (inner tiny_db1) files k)) /\
  (forall files ks, tables_kept (disk tiny_db1) files (table_layers (inner tiny_db1)) ->
     same_or_error (Ok ((fun k => A !! k) <$> ks)) (read_many_durable_values (inner tiny_db1) files ks)).
Proof.
  refine (durable_refinement (max_memtable_bytes_opt builder 1) tiny_db tiny_db1 _ _ _ tiny_steps); [|cbn; lia].
  vm_compute. reflexivity.
Defined.

Lemma group_commit_equivalent_witness :
  exists db1 db2 db12 A',
    process_group [request sample_ops] io_ok sample_db = (Ok (), db1) /\
    process_group [request [Put [3] [30]]] io_ok db1 = (Ok (), db2) /\
    process_group ([request sample_ops] ++ [request [Put [3] [30]]]) io_ok sample_db = (Ok (), db12) /\
    db_repr db2 A' /\ db_repr db12 A' /\ sequence (inner db2) = sequence (inner db12).
Proof.
  refine (group_commit_equivalent sample_db [] [] ∅ [request sample_ops] [request [Put [3] [30]]]
            (proj1 sample_inv) eq_refl _ eq_refl _ _ _); [destruct (proj2 sample_inv) as (?&?&_&_&Hcov&_); exact Hcov|repeat constructor|fits|].
  intros db1 Hrun. assert (db1 = sample_db1) as ->.
  { unfold sample_db1, run, commit. by rewrite Hrun. }
  fits.
Defined.

(** [write_all] fails after three bytes. *)
Definition torn_io : CommitIo := mkCommitIo (Some 3%nat) true true true "no space left on device".

Lemma unsynced_group_leaves_no_trace_witness :
  exists e, process_group [request sample_ops] torn_io sample_db
      = (Err e, mkDb (inner sample_db) (append_log (leftover 1 [request sample_ops] torn_io) (disk sample_db))) /\
    (ci_write torn_io = None -> ci_truncate torn_io = true -> process_group [request sample_ops] torn_io sample_db = (Err e, sample_db)).
Proof.
  refine (unsynced_group_leaves_no_trace sample_db sample_db [] [] [request sample_ops] torn_io
            eq_refl _ (proj1 sample_inv) eq_refl _).
  - apply backpressure_none. vm_compute. reflexivity.
  - vm_compute. reflexivity.
Defined.

(** The bytes of a write that was cut off stay in the log, and the frames of the next group, which
    is acknowledged, are written behind them: a reopen does not find it. *)
Example torn_append_loses_commits :
  let db1 := run (process_group [request sample_ops] torn_io) sample_db in
  let db2 := run (commit [Put [3] [30]]) db1 in
  (commit [Put [3] [30]] db1).1 = Ok () /\ get_durable_value db2 [3] = Ok (Some [30]) /\
  get_durable_value (reopen db2) [3] = Ok None.
Proof. vm_compute. split_and!; reflexivity. Qed.

Definition sample_faulty : list CommitRequest := [faulty "after-wal-sync-before-state-apply" sample_ops].
Definition sample_refused : Db := (process_group sample_faulty io_ok sample_db).2.

Lemma synced_group_is_durable_witness :
  (forall rs io' fault, let refused := (Err (message "ThingDB requires reopen and recovery before writing"), sample_refused) in
     process_group rs io' sample_refused = refused /\ flush_table_locked fault sample_refused = refused /\
     compact_tables_locked fault sample_refused = refused) /\
  exists db'', open builder (close sample_refused) = (Ok db'', disk db'') /\
    sequence (inner db'') = sequence (inner sample_db) + zlen sample_faulty /\
    state (inner db'') = foldl apply_operation (state (inner sample_db)) (group_operations sample_faulty) /\
    table_files (inner db'') = table_files (inner sample_db).
Proof.
  refine (synced_group_is_durable sample_db sample_db [] [] sample_faulty io_ok builder
            (message "injected ThingDB fault: after-wal-sync-before-state-apply") sample_refused
            eq_refl _ (proj1 sample_inv) eq_refl _ _ _ _ _).
  - apply backpressure_none. vm_compute. reflexivity.
  - split; [vm_compute; reflexivity|repeat constructor; vm_compute; discriminate|vm_compute; discriminate].
  - vm_compute. discriminate.
  - vm_compute. reflexivity.
  - vm_compute. reflexivity.
  - vm_compute. discriminate.
Defined.

Lemma persist_preserves_witness :
  exists db', persist sample_db1 = (Ok (), db') /\ db_repr db' (foldl apply_operation ∅ sample_ops) /\
    pending_table (inner db') = ∅ /\
    (pending_table (inner sample_db1) <> ∅ ->
       wal_content (disk db') = [] /\
       exists name, table_files (inner db') = table_files (inner sample_db1) ++ [name] /\
         disk db' !! MANIFEST_FILE = Some (to_vec_pretty (mkManifest FORMAT_VERSION (Some name)
           (table_files (inner db')) (table_sequence (inner db'))))).
Proof. refine (persist_preserves sample_db1 _ sample_repr1 _). vm_compute. done. Defined.

Definition sample_ls : list LayerSpec := [].
Definition sample_log1 : list (Z * list Operation) := number_requests 1 [request sample_ops].

Lemma sample_inv1 : db_inv sample_db1 sample_log1 sample_ls.
Proof.
  pose proof (committed_inv sample_db [] [] [request sample_ops] (proj1 sample_inv)
    ltac:(split; [vm_compute; done|repeat constructor; vm_compute; done|vm_compute; done])) as Hinv.
  assert (sample_db1 = committed sample_db [request sample_ops]) as ->; [vm_compute; done|exact Hinv].
Qed.

Lemma compact_preserves_witness :
  exists db' s, compact_tables_locked None sample_db1 = (Ok (), db') /\ db_inv db' [] [s] /\
    contents (inner db') [s] = contents (inner sample_db1) sample_ls /\
    materialize_state (disk db') (inner db') = Ok (contents (inner sample_db1) sample_ls).
Proof.
  refine (compact_preserves sample_db1 sample_log1 sample_ls sample_inv1 _ _); vm_compute; [reflexivity|discriminate].
Defined.

Lemma reopen_contents_iff_witness :
  exists db', open builder (close sample_db1) = (Ok db', disk db') /\ db_inv db' sample_log1 sample_ls /\
    recovery_required (inner db') = false /\
    (materialize_state (disk db') (inner db') = Ok (contents (inner sample_db1) sample_ls) <->
       ~ hidden_tombstone (inner sample_db1) sample_ls).
Proof. refine (reopen_contents_iff builder sample_db1 sample_log1 sample_ls sample_inv1 _). vm_compute. done. Defined.

Definition reopened_db : Db := reopen sample_db1.
Definition reopened_db1 : Db := run (commit [Put [5] [50]]) reopened_db.

Lemma reopened_inv : db_inv reopened_db1 (sample_log1 ++ number_requests 2 [request [Put [5] [50]]]) sample_ls.
Proof.
  destruct (reopen_contents builder sample_db1 sample_log1 sample_ls sample_inv1 ltac:(cbn; lia)) as (db'&Hopen&Hinv&_).
  assert (reopened_db = db') as Hr by (unfold reopened_db, reopen; by rewrite Hopen). rewrite <-Hr in Hinv.
  pose proof (committed_inv reopened_db sample_log1 sample_ls [request [Put [5] [50]]] Hinv
    ltac:(split; [vm_compute; done|repeat constructor; vm_compute; done|vm_compute; done])) as Hinv1.
  assert (reopened_db1 = committed reopened_db [request [Put [5] [50]]]) as ->; [vm_compute; done|exact Hinv1].
Qed.

Lemma persist_contents_iff_witness :
  recovered_write (inner reopened_db1) sample_ls /\
  exists db', persist reopened_db1 = (Ok (), db') /\
    (materialize_state (disk db') (inner db') = Ok (contents (inner reopened_db1) sample_ls) <-> ~ recovered_write (inner reopened_db1) sample_ls).
Proof.
  split; [exists [2], [20]; split_and!; [vm_compute; reflexivity..|vm_compute; discriminate]|].
  refine (persist_contents_iff reopened_db1 _ sample_ls reopened_inv _ _ _); vm_compute; [reflexivity|discriminate|discriminate].
Defined.

Lemma flush_crash_safe_witness :
  exists e db' db'', flush_table_locked (Some "before-manifest-write") sample_db1 = (Err e, db') /\
    inner db' = bump_generation (inner sample_db1) /\
    open builder (close db') = (Ok db'', disk db'') /\
    materialize_state (disk db'') (inner db'') = Ok (contents (inner sample_db1) sample_ls).
Proof.
  refine (flush_crash_safe sample_db1 _ sample_ls sample_log1 "before-manifest-write" builder
            sample_inv1 _ _ eq_refl _ _ _ _ _).
  - vm_compute. reflexivity.
  - destruct sample_repr1 as (log&ls&_&_&Hcov&_). exact Hcov.
  - vm_compute. discriminate.
  - vm_compute. discriminate.
  - intros (k&_&Hk). vm_compute in Hk. by destruct Hk.
  - unfold flush_faults. set_solver.
  - vm_compute. discriminate.
Defined.
End samples.
