(* ===== verification/Keyspace.v ===== *)
(** * ThingDB: keyspaces, batches and the RAM mode

    Models the public surface of [crates/thingdb/src/lib.rs] over one database:
    named keyspaces with prefixed physical keys ([namespace], [physical_key]),
    atomic batches ([Batch], [commit_batch]), the reads of [Keyspace], snapshots,
    and the RAM-only mode, which keeps one ordered map per keyspace and scans it
    ([iter_memory_bounds], [count_memory_prefix]).  The benchmark-only RCU mode
    and the timing counters are left out. *)

From S2P Require Import Prelude Wal Table Layer Database Durable Commit ThingDb.

(** ** Physical keys *)

Definition namespace (name : string) : bytes := str_bytes name ++ [0].
Definition physical_key_from_namespace (ns key : bytes) : bytes := ns ++ key.
Definition physical_key (name : string) (key : bytes) : bytes := physical_key_from_namespace (namespace name) key.

(** The last byte that is not 255 is incremented and what follows it dropped. *)
Fixpoint successor (key : bytes) : option bytes :=
  match key with
  | [] => None
  | b :: rest =>
      match successor rest with
      | Some rest => Some (b :: rest)
      | None => if b =? U8_MAX then None else Some [b + 1]
      end
  end.

(** ** Keyspaces and batches *)

Record Keyspace := mkKeyspace { ks_name : string; ks_namespace : bytes }.

Definition keyspace (name : string) : tdb_result Keyspace :=
  if bool_decide (name = "") || bool_decide (0 ∈ str_bytes name)
  then Err (message "keyspace names must be non-empty and contain no NUL")
  else Ok (mkKeyspace name (namespace name)).

Record BatchOperation := mkBatchOp { bo_keyspace : string; bo_key : bytes; bo_value : option bytes }.

Abbreviation RamKeyspaces := (gmap string (bmap bytes)).

(** [Database]: the shared state, and the maps of the RAM mode when it is on. *)
Record Handle := mkHandle { h_db : Db; h_ram : option RamKeyspaces }.

Definition memory_mode (h : Handle) : bool := bool_decide (is_Some (h_ram h)).

Definition batch_key (h : Handle) (ks : Keyspace) (key : bytes) : bytes :=
  if memory_mode h then key else physical_key_from_namespace (ks_namespace ks) key.

(** [Batch::put] and [Batch::delete]: a batch is the list of its operations. *)
Definition batch_put (h : Handle) (b : list BatchOperation) (ks : Keyspace) (key value : bytes) :=
  b ++ [mkBatchOp (ks_name ks) (batch_key h ks key) (Some value)].
Definition batch_delete (h : Handle) (b : list BatchOperation) (ks : Keyspace) (key : bytes) :=
  b ++ [mkBatchOp (ks_name ks) (batch_key h ks key) None].

Definition validate_memory_batch_operation (op : BatchOperation) : tdb_result unit :=
  if bool_decide (bo_keyspace op = "") || bool_decide (0 ∈ str_bytes (bo_keyspace op))
  then Err (message "invalid ThingDB in-memory keyspace") else Ok ().

Definition update_entry (entries : bmap bytes) (key : bytes) (value : option bytes) : bmap bytes :=
  match value with Some v => <[key := v]> entries | None => delete key entries end.

Definition apply_memory_batch_operation (m : RamKeyspaces) (op : BatchOperation) : RamKeyspaces :=
  let entries := default ∅ (m !! bo_keyspace op) in
  <[bo_keyspace op := update_entry entries (bo_key op) (bo_value op)]> m.

Definition to_operation (op : BatchOperation) : Operation :=
  match bo_value op with Some value => Put (bo_key op) value | None => Delete (bo_key op) end.

Definition in_range (lower upper : option (bytes * bool)) (key : bytes) : bool :=
  match lower with
  | None => true
  | Some (start, inclusive) => if inclusive then key_leb start key else key_ltb start key
  end &&
  match upper with
  | None => true
  | Some (stop, inclusive) => if inclusive then key_leb key stop else key_ltb key stop
  end.

(** [BTreeMap::range]; [None] is its documented panic on an inverted range (a map that
    never held an entry returns an empty range instead). *)
Definition btree_range {V} (m : bmap V) (lower upper : option (bytes * bool)) : option (list (bytes * V)) :=
  match lower, upper with
  | Some (start, i), Some (stop, j) =>
      if key_ltb stop start || (bool_decide (start = stop) && negb i && negb j) then None
      else Some (List.filter (fun e => in_range lower upper e.1) (btree_iter m))
  | _, _ => Some (List.filter (fun e => in_range lower upper e.1) (btree_iter m))
  end.

Definition starts_with (prefix key : bytes) : bool := bool_decide (take (length prefix) key = prefix).

Record ScanBounds := mkBounds {
  sb_prefix : option bytes;
  sb_start : option (bytes * bool);
  sb_end : option (bytes * bool);
  sb_offset : Z;
  sb_limit : option Z;
}.

Definition lower_bound (b : ScanBounds) : option (bytes * bool) :=
  match sb_start b, sb_prefix b with
  | Some (start, inclusive), Some prefix =>
      if key_leb prefix start then Some (start, inclusive) else Some (prefix, true)
  | None, Some prefix => Some (prefix, true)
  | Some start, None => Some start
  | None, None => None
  end.

Definition upper_bound (b : ScanBounds) : option (bytes * bool) :=
  match sb_end b, sb_prefix b ≫= successor with
  | Some (stop, inclusive), Some prefix_upper =>
      if key_leb stop prefix_upper then Some (stop, inclusive) else Some (prefix_upper, false)
  | Some stop, None => Some stop
  | None, Some prefix_upper => Some (prefix_upper, false)
  | None, None => None
  end.

(** The loop over the range: it stops at the first key without the prefix, skips
    [offset] entries and stops at [limit]; a limit of zero is handled by the caller. *)
Fixpoint scan_loop (prefix : option bytes) (offset : Z) (limit : option Z) (entries : list (bytes * bytes))
    (range : list (bytes * bytes)) (skipped : Z) : list (bytes * bytes) :=
  match range with
  | [] => entries
  | e :: range =>
      if match prefix with Some prefix => negb (starts_with prefix e.1) | None => false end then entries
      else if skipped <? offset then scan_loop prefix offset limit entries range (skipped + 1)
      else let entries := entries ++ [e] in
           if match limit with Some limit => limit <=? zlen entries | None => false end then entries
           else scan_loop prefix offset limit entries range skipped
  end.

Definition iter_memory_bounds (m : RamKeyspaces) (name : string) (b : ScanBounds) : option (list (bytes * bytes)) :=
  match m !! name with
  | None => Some []
  | Some entries =>
      range ← btree_range entries (lower_bound b) (upper_bound b);
      Some (scan_loop (sb_prefix b) (sb_offset b) (sb_limit b) [] range 0)
  end.

(** [iter_bounds_paginated] in RAM mode. *)
Definition ram_iter_bounds (m : RamKeyspaces) (name : string) (b : ScanBounds) : option (list (bytes * bytes)) :=
  if bool_decide (sb_limit b = Some 0) then Some [] else iter_memory_bounds m name b.

Definition ram_prefix_page (m : RamKeyspaces) name (prefix : bytes) (offset limit : Z) :=
  ram_iter_bounds m name (mkBounds (Some prefix) None None offset (Some limit)).
Definition ram_prefix_page_after (m : RamKeyspaces) name (prefix : bytes) (after : option bytes) (limit : Z) :=
  ram_iter_bounds m name (mkBounds (Some prefix) ((fun key => (key, false)) <$> after) None 0 (Some limit)).

Definition count_memory_prefix (entries : bmap bytes) (prefix : bytes) : Z :=
  zlen (take_while (fun e => starts_with prefix e.1)
          (List.filter (fun e => in_range (Some (prefix, true)) None e.1) (btree_iter entries))).

(** [Database::in_memory]. *)
Definition in_memory_handle : Handle :=
  mkHandle (mkDb (mkInner true false ∅ 0 0 [] [] ∅ 0 0 0 0 0 0 false 0 false) ∅) (Some ∅).

Section handle.
Context `{Crc32} `{ManifestCodec}.

Definition ram_unavailable : Error := message "ThingDB RAM state is unavailable".

(** A durable database sends one request to the writer, which may coalesce waiting
    requests into a group; [commit_batch] never comes here in RAM mode. *)
Definition commit_operations (operations : list Operation) (io : CommitIo) : M unit :=
  if bool_decide (operations = []) then fun db => (Ok (), db)
  else process_group [mkRequest operations (encoded_frame_capacity operations) None] io.

Definition commit_batch (h : Handle) (batch : list BatchOperation) (io : CommitIo) : tdb_result unit * Handle :=
  if bool_decide (batch = []) then (Ok (), h) else
  match h_ram h with
  | Some m =>
      match fold_res (fun _ op => validate_memory_batch_operation op) () batch with
      | Err err => (Err err, h)
      | Ok _ => (Ok (), mkHandle (h_db h) (Some (foldl apply_memory_batch_operation m batch)))
      end
  | None =>
      let '(r, db) := commit_operations (to_operation <$> batch) io (h_db h) in (r, mkHandle db None)
  end.

Definition insert_value (h : Handle) (ks : Keyspace) (key value : bytes) (io : CommitIo) :=
  commit_batch h (batch_put h [] ks key value) io.
Definition remove_value (h : Handle) (ks : Keyspace) (key : bytes) (io : CommitIo) :=
  commit_batch h (batch_delete h [] ks key) io.

Definition ram_get (m : RamKeyspaces) (name : string) (key : bytes) : option bytes :=
  m !! name ≫= fun entries => entries !! key.

(** [Keyspace::get]. *)
Definition get_value (h : Handle) (ks : Keyspace) (key : bytes) : tdb_result (option bytes) :=
  match h_ram h with
  | Some m => Ok (ram_get m (ks_name ks) key)
  | None =>
      if in_memory (inner (h_db h)) then Err ram_unavailable
      else get_durable_value (h_db h) (physical_key_from_namespace (ks_namespace ks) key)
  end.

(** [Keyspace::with_value]: the value handed to the callback. *)
Definition with_value (h : Handle) (ks : Keyspace) (key : bytes) : tdb_result (option bytes) :=
  match h_ram h with
  | Some m => Ok (ram_get m (ks_name ks) key)
  | None =>
      if in_memory (inner (h_db h)) then Err ram_unavailable
      else get_durable_value (h_db h) key
  end.

Definition get_shared (h : Handle) (ks : Keyspace) (key : bytes) : tdb_result (option bytes) :=
  match h_ram h with
  | Some m => Ok (ram_get m (ks_name ks) key)
  | None =>
      if negb (in_memory (inner (h_db h)))
      then Err (message "ThingDB shared reads are available only in memory mode")
      else Err ram_unavailable
  end.

Definition get_many_shared (h : Handle) (ks : Keyspace) (keys : list bytes) : tdb_result (list (option bytes)) :=
  if bool_decide (keys = []) then Ok [] else
  match h_ram h with
  | Some m => Ok (ram_get m (ks_name ks) <$> keys)
  | None => get_many_durable_values (h_db h) (physical_key_from_namespace (ks_namespace ks) <$> keys)
  end.

(** The physical entries of the RAM maps; the order in which a [HashMap] is
    visited does not matter, since keyspaces have disjoint keys. *)
Definition ram_snapshot (m : RamKeyspaces) : bmap bytes :=
  foldl (fun st p => foldl (fun st e => <[namespace p.1 ++ e.1 := e.2]> st) st (btree_iter p.2))
    ∅ (map_to_list m).

Definition snapshot (h : Handle) : tdb_result (bmap bytes) :=
  match h_ram h with
  | Some m => if in_memory (inner (h_db h)) then Ok (ram_snapshot m)
              else materialize_state (disk (h_db h)) (inner (h_db h))
  | None => if in_memory (inner (h_db h)) then Err ram_unavailable
            else materialize_state (disk (h_db h)) (inner (h_db h))
  end.

Definition snapshot_get (st : bmap bytes) (name : string) (key : bytes) : option bytes := st !! physical_key name key.
End handle.

(** ** Keyspaces do not overlap *)

Definition valid_name (name : string) : Prop := name <> "" /\ 0 ∉ str_bytes name.

Lemma keyspace_valid name ks : keyspace name = Ok ks <-> valid_name name /\ ks = mkKeyspace name (namespace name).
Proof.
  unfold keyspace, valid_name. destruct (decide (name = "")) as [->|Hne]; [cbn; naive_solver|].
  rewrite bool_decide_false by done. cbn [orb]. case_bool_decide as Hz; [naive_solver|].
  split; [by intros [= <-]|by intros [_ ->]].
Qed.

Lemma terminated_inj (a b k k' : bytes) : 0 ∉ a -> 0 ∉ b -> a ++ 0 :: k = b ++ 0 :: k' -> a = b /\ k = k'.
Proof.
  revert b. induction a as [|x a IH]; intros [|y b] Ha Hb; cbn [app]; intros Heq; injection Heq.
  - done.
  - intros _ <-. destruct Hb. by left.
  - intros _ ->. destruct Ha. by left.
  - intros Heq' ->. apply not_elem_of_cons in Ha as [_ Ha]. apply not_elem_of_cons in Hb as [_ Hb].
    by destruct (IH b Ha Hb Heq') as [-> ->].
Qed.

Lemma physical_key_inj n n' k k' :
  valid_name n -> valid_name n' -> physical_key n k = physical_key n' k' -> n = n' /\ k = k'.
Proof.
  unfold physical_key, physical_key_from_namespace, namespace. rewrite <-!app_assoc. cbn [app].
  intros [_ Hn] [_ Hn'] Heq. apply terminated_inj in Heq as [Heq ->]; [|done..]. by apply str_bytes_inj in Heq as ->.
Qed.

(** ** The abstract store: one value per keyspace and key *)

Abbreviation store := (gmap (string * bytes) bytes).

(** A call [batch.put(keyspace, key, value)] or [batch.delete(keyspace, key)]. *)
Record Call := mkCall { ca_name : string; ca_key : bytes; ca_value : option bytes }.

Definition apply_call (B : store) (c : Call) : store :=
  match ca_value c with
  | Some v => <[(ca_name c, ca_key c) := v]> B
  | None => delete (ca_name c, ca_key c) B
  end.

Definition add_call (h : Handle) (b : list BatchOperation) (c : Call) : list BatchOperation :=
  let ks := mkKeyspace (ca_name c) (namespace (ca_name c)) in
  match ca_value c with
  | Some v => batch_put h b ks (ca_key c) v
  | None => batch_delete h b ks (ca_key c)
  end.
Definition build_batch (h : Handle) (calls : list Call) : list BatchOperation := foldl (add_call h) [] calls.

Definition call_operation (h : Handle) (c : Call) : BatchOperation :=
  mkBatchOp (ca_name c) (batch_key h (mkKeyspace (ca_name c) (namespace (ca_name c))) (ca_key c)) (ca_value c).

Lemma build_batch_map h calls : build_batch h calls = map (call_operation h) calls.
Proof.
  unfold build_batch. assert (Hg : forall b, foldl (add_call h) b calls = b ++ map (call_operation h) calls).
  { induction calls as [|c calls IH]; intros b; cbn [foldl map]; [by rewrite app_nil_r|].
    rewrite IH. unfold add_call, batch_put, batch_delete, call_operation at 2.
    destruct (ca_value c); by rewrite <-app_assoc. }
  apply (Hg []).
Qed.

Lemma lookup_apply_call B c n k :
  apply_call B c !! (n, k) =
  if decide (ca_name c = n /\ ca_key c = k) then ca_value c else B !! (n, k).
Proof.
  unfold apply_call. destruct (decide _) as [[<- <-]|Hne].
  - destruct (ca_value c); [apply lookup_insert_eq|apply lookup_delete_eq].
  - destruct (ca_value c); [apply lookup_insert_ne|apply lookup_delete_ne]; naive_solver.
Qed.

(** *** RAM mode *)

Record ram_repr (m : RamKeyspaces) (B : store) : Prop := {
  rr_names : forall n, is_Some (m !! n) -> valid_name n;
  rr_values : forall n k, valid_name n -> ram_get m n k = B !! (n, k);
}.

Lemma ram_get_apply m op n k :
  ram_get (apply_memory_batch_operation m op) n k =
  if decide (bo_keyspace op = n /\ bo_key op = k) then bo_value op else ram_get m n k.
Proof.
  unfold ram_get, apply_memory_batch_operation, update_entry. destruct (decide (bo_keyspace op = n)) as [<-|Hne].
  - rewrite lookup_insert_eq. cbn. destruct (decide (bo_key op = k)) as [<-|Hk].
    + rewrite decide_True by done. destruct (bo_value op); [apply lookup_insert_eq|apply lookup_delete_eq].
    + rewrite decide_False by naive_solver.
      assert (Hsame : (match bo_value op with
                       | Some v => <[bo_key op := v]> (default ∅ (m !! bo_keyspace op))
                       | None => delete (bo_key op) (default ∅ (m !! bo_keyspace op)) end) !! k
                      = default ∅ (m !! bo_keyspace op) !! k).
      { destruct (bo_value op); [by apply lookup_insert_ne|by apply lookup_delete_ne]. }
      rewrite Hsame. destruct (m !! bo_keyspace op); cbn; [done|by rewrite lookup_empty].
  - rewrite decide_False by naive_solver. by rewrite lookup_insert_ne.
Qed.

Lemma ram_repr_call h m B c :
  memory_mode h = true -> valid_name (ca_name c) -> ram_repr m B ->
  ram_repr (apply_memory_batch_operation m (call_operation h c)) (apply_call B c).
Proof.
  intros Hmode Hc [Hn Hv]. split.
  - intros n. unfold apply_memory_batch_operation. cbn [bo_keyspace call_operation].
    destruct (decide (ca_name c = n)) as [<-|Hne]; [done|]. rewrite lookup_insert_ne by done. apply Hn.
  - intros n k Hname. rewrite ram_get_apply, lookup_apply_call. cbn [bo_keyspace bo_key bo_value call_operation].
    unfold batch_key. rewrite Hmode. by rewrite Hv.
Qed.

Lemma ram_repr_calls h m B calls :
  memory_mode h = true -> Forall (fun c => valid_name (ca_name c)) calls -> ram_repr m B ->
  ram_repr (foldl apply_memory_batch_operation m (map (call_operation h) calls)) (foldl apply_call B calls).
Proof.
  intros Hmode Hcalls. revert m B. induction Hcalls as [|c calls Hc _ IH]; intros m B Hr; cbn [foldl map]; [done|].
  by apply IH, ram_repr_call.
Qed.

(** The snapshot holds each entry of each keyspace under its physical key. *)
Lemma lookup_foldl_entries (ns : bytes) (l : list (bytes * bytes)) (st : bmap bytes) (key : bytes) :
  (forall k, k ∈ l.*1 -> ns ++ k <> key) ->
  foldl (fun st e => <[ns ++ e.1 := e.2]> st) st l !! key = st !! key.
Proof.
  revert st. induction l as [|e l IH]; intros st Hne; cbn [foldl fmap list_fmap] in *; [done|].
  rewrite IH by (intros k Hk; apply Hne; by right). apply lookup_insert_ne. apply Hne. by left.
Qed.

Lemma lookup_foldl_entry (ns : bytes) (m st : bmap bytes) (k : bytes) :
  foldl (fun st e => <[ns ++ e.1 := e.2]> st) st (btree_iter m) !! (ns ++ k)
  = match m !! k with Some v => Some v | None => st !! (ns ++ k) end.
Proof.
  destruct (m !! k) as [v|] eqn:Hk.
  - apply elem_of_btree_iter in Hk. pose proof (btree_keys_NoDup m) as Hnd. unfold btree_keys in Hnd.
    revert st. induction (btree_iter m) as [|e l IH]; intros st; [by apply elem_of_nil in Hk|].
    cbn [foldl fmap list_fmap] in *. apply NoDup_cons in Hnd as [Hnin Hnd].
    apply elem_of_cons in Hk as [<-|Hk]; [|by apply IH].
    rewrite lookup_foldl_entries; [apply lookup_insert_eq|].
    intros k' Hk' Heq. apply app_inv_head in Heq as ->. done.
  - apply lookup_foldl_entries. intros k' Hk' Heq. apply app_inv_head in Heq as ->.
    apply elem_of_btree_keys in Hk'. rewrite Hk in Hk'. by destruct Hk'.
Qed.

Lemma ram_snapshot_lookup m B n k :
  ram_repr m B -> valid_name n -> ram_snapshot m !! physical_key n k = B !! (n, k).
Proof.
  intros [Hnames Hvalues] Hn. rewrite <-Hvalues by done. unfold ram_snapshot, ram_get.
  assert (Hall : Forall (fun p : string * bmap bytes => valid_name p.1) (map_to_list m)).
  { apply Forall_forall. intros [n' es] Hin. apply elem_of_map_to_list in Hin. apply Hnames. by eexists. }
  pose proof (NoDup_fst_map_to_list m) as Hnd.
  assert (Hgoal : forall st : bmap bytes, foldl (fun st p => foldl (fun st e => <[namespace p.1 ++ e.1 := e.2]> st) st (btree_iter p.2))
      st (map_to_list m) !! physical_key n k =
    match list_to_map (M:=gmap string (bmap bytes)) (map_to_list m) !! n ≫= (fun es => es !! k) with
    | Some v => Some v | None => st !! physical_key n k end).
  { induction (map_to_list m) as [|[n' es] l IH]; intros st; [done|].
    apply Forall_cons in Hall as [Hn' Hall]. cbn [fmap list_fmap fst] in Hnd. apply NoDup_cons in Hnd as [Hnin Hnd].
    cbn [foldl fst snd list_to_map]. rewrite IH by done. destruct (decide (n' = n)) as [->|Hne].
    - rewrite (not_elem_of_list_to_map_1 l n) by done. cbn [list_to_map fold_right curry].
      change (list_to_map ((n, es) :: l) !! n) with ((<[n:=es]> (list_to_map l) : gmap string (bmap bytes)) !! n).
      rewrite lookup_insert_eq. cbn. apply lookup_foldl_entry.
    - change (list_to_map ((n', es) :: l) !! n) with ((<[n':=es]> (list_to_map l) : gmap string (bmap bytes)) !! n).
      rewrite lookup_insert_ne by done. destruct (list_to_map l !! n ≫= _); [done|].
      apply lookup_foldl_entries. intros k' _ Heq. by apply physical_key_inj in Heq as [? _]. }
  rewrite Hgoal, list_to_map_to_list. destruct (m !! n ≫= _) eqn:Heq; [done|]. by rewrite lookup_empty.
Qed.

(** *** Durable mode *)

Section refinement.
Context `{Crc32} `{ManifestCodec}.

Definition durable_repr (A : bmap bytes) (B : store) : Prop :=
  forall n k, valid_name n -> A !! physical_key n k = B !! (n, k).

(** A handle represents the store [B]. *)
Definition handle_repr (h : Handle) (B : store) : Prop :=
  match h_ram h with
  | Some m => in_memory (inner (h_db h)) = true /\ ram_repr m B
  | None => exists A, db_repr (h_db h) A /\ durable_repr A B
  end.

Lemma durable_repr_call h A B c :
  memory_mode h = false -> valid_name (ca_name c) -> durable_repr A B ->
  durable_repr (apply_operation A (to_operation (call_operation h c))) (apply_call B c).
Proof.
  intros Hmode Hc Hr n k Hn. rewrite lookup_apply_call.
  assert (Hop : apply_operation A (to_operation (call_operation h c)) =
    update_entry A (physical_key (ca_name c) (ca_key c)) (ca_value c)).
  { unfold to_operation, call_operation, batch_key. cbn [bo_value bo_key]. rewrite Hmode. by destruct (ca_value c). }
  rewrite Hop. unfold update_entry. destruct (decide (ca_name c = n /\ ca_key c = k)) as [[<- <-]|Hne].
  - destruct (ca_value c); [apply lookup_insert_eq|apply lookup_delete_eq].
  - assert (physical_key (ca_name c) (ca_key c) <> physical_key n k).
    { intros Heq. by apply physical_key_inj in Heq. }
    rewrite <-(Hr n k Hn). destruct (ca_value c); [by apply lookup_insert_ne|by apply lookup_delete_ne].
Qed.

Lemma durable_repr_calls h A B calls :
  memory_mode h = false -> Forall (fun c => valid_name (ca_name c)) calls -> durable_repr A B ->
  durable_repr (foldl apply_operation A (to_operation <$> map (call_operation h) calls)) (foldl apply_call B calls).
Proof.
  intros Hmode Hcalls. revert A B. induction Hcalls as [|c calls Hc _ IH]; intros A B Hr; [done|].
  cbn [map fmap list_fmap foldl]. by apply IH, durable_repr_call.
Qed.

Lemma db_repr_reads db A :
  db_repr db A -> in_memory (inner db) = false /\ (forall k, get_durable_value db k = Ok (A !! k)) /\
  (forall ks, get_many_durable_values db ks = Ok ((fun k => A !! k) <$> ks)) /\
  materialize_state (disk db) (inner db) = Ok A.
Proof.
  intros (log&ls&Hinv&_&_&<-). pose proof (inv_layers _ _ _ Hinv) as Hl.
  destruct (inv_mode _ _ _ Hinv) as [Hm _]. split_and!; [done|..].
  - intros k. by apply get_durable_contents.
  - intros ks. by apply get_many_contents.
  - by apply materialize_contents.
Qed.

(** Every read of a keyspace gives the stored values. *)
Lemma handle_reads h B n ks :
  handle_repr h B -> keyspace n = Ok ks ->
  (forall k, get_value h ks k = Ok (B !! (n, k))) /\
  (forall keys, get_many_shared h ks keys = Ok ((fun k => B !! (n, k)) <$> keys)) /\
  exists st, snapshot h = Ok st /\ forall k, snapshot_get st n k = B !! (n, k).
Proof.
  intros Hr [Hn ->]%keyspace_valid. unfold handle_repr, get_value, get_many_shared, snapshot in *.
  cbn [ks_name ks_namespace]. destruct (h_ram h) as [m|].
  - destruct Hr as [Hmode Hr]. rewrite Hmode. split_and!.
    + intros k. f_equal. by apply Hr.
    + intros keys. case_bool_decide as Hk; [by subst|]. f_equal. apply list_fmap_ext. intros i k _. by apply Hr.
    + eexists. split; [done|]. intros k. by apply ram_snapshot_lookup.
  - destruct Hr as (A&Hdb&Hr). destruct (db_repr_reads _ _ Hdb) as (Hmode&Hget&Hmany&Hst). rewrite Hmode. split_and!.
    + intros k. rewrite Hget. f_equal. by apply Hr.
    + intros keys. case_bool_decide as Hk; [by subst|]. rewrite Hmany, <-list_fmap_compose. f_equal.
      apply list_fmap_ext. intros i k _. by apply Hr.
    + exists A. split; [done|]. intros k. by apply Hr.
Qed.

(** The bounds under which a batch is accepted by a durable database. *)
Definition batch_fits (h : Handle) (calls : list Call) : Prop :=
  h_ram h = None -> forall A, db_repr (h_db h) A ->
  let operations := to_operation <$> build_batch h calls in
  group_fits (h_db h) A [mkRequest operations (encoded_frame_capacity operations) None].

Lemma commit_batch_refines h B calls :
  handle_repr h B -> Forall (fun c => valid_name (ca_name c)) calls -> batch_fits h calls ->
  exists h', commit_batch h (build_batch h calls) io_ok = (Ok (), h') /\
    handle_repr h' (foldl apply_call B calls) /\ memory_mode h' = memory_mode h.
Proof.
  intros Hr Hcalls Hfits. unfold commit_batch. rewrite build_batch_map in *.
  case_bool_decide as Hnil. { apply map_eq_nil in Hnil as ->. by exists h. }
  unfold handle_repr in Hr. destruct (h_ram h) as [m|] eqn:Hram.
  - destruct Hr as [Hmode Hr]. assert (Hmm : memory_mode h = true).
    { unfold memory_mode. rewrite Hram. by rewrite bool_decide_true by eauto. }
    rewrite (proj2 (fold_res_unit validate_memory_batch_operation (map (call_operation h) calls) ())).
    + eexists. split; [done|]. split.
      * unfold handle_repr. cbn [h_ram h_db]. split; [done|]. by apply ram_repr_calls.
      * rewrite Hmm. unfold memory_mode. cbn [h_ram]. by rewrite bool_decide_true by eauto.
    + apply Forall_forall. intros op Hop. apply list_elem_of_fmap in Hop as (c&->&Hc).
      rewrite Forall_forall in Hcalls. destruct (Hcalls c Hc) as [Hne Hz].
      unfold validate_memory_batch_operation. cbn. by rewrite !bool_decide_false by done.
  - destruct Hr as (A&Hdb&Hr). assert (Hmm : memory_mode h = false).
    { unfold memory_mode. rewrite Hram. apply bool_decide_eq_false. by intros [? ?]. }
    unfold commit_operations. rewrite bool_decide_false by (by destruct calls). specialize (Hfits Hram A Hdb). cbn zeta in Hfits. rewrite build_batch_map in Hfits.
    destruct (process_group_refines _ A _ Hdb Hfits) as (db'&Hrun&Hdb'&_); [by repeat constructor|].
    rewrite Hrun. eexists. split; [done|]. split; [|done || by rewrite Hmm].
    unfold handle_repr. cbn [h_ram h_db]. eexists. split; [exact Hdb'|].
    unfold group_operations. cbn [fmap list_fmap concat cr_operations]. rewrite app_nil_r.
    by apply durable_repr_calls.
Qed.

(** The two reads of which the modes differ: in RAM mode they answer like [get]. *)
Lemma handle_shared_reads h B n ks k :
  handle_repr h B -> keyspace n = Ok ks ->
  match h_ram h with
  | Some _ => get_shared h ks k = Ok (B !! (n, k)) /\ with_value h ks k = Ok (B !! (n, k))
  | None => get_shared h ks k = Err (message "ThingDB shared reads are available only in memory mode")
  end.
Proof.
  intros Hr [Hn ->]%keyspace_valid. unfold handle_repr, get_shared, with_value in *. cbn [ks_name]. destruct (h_ram h) as [m|].
  - destruct Hr as [_ Hr]. by rewrite (rr_values _ _ Hr n k Hn).
  - destruct Hr as (A&Hdb&_). destruct (db_repr_reads _ _ Hdb) as [-> _]. done.
Qed.

(** C40. Keyspaces are independent maps.  An atomic batch over valid keyspace names updates exactly
    the entries it names, and afterwards [Keyspace::get], [get_many_shared] and snapshots
    of every keyspace return the values of the abstract store, in RAM mode and in durable
    mode.  In RAM mode [get_shared] and [with_value] return them too; in durable mode [get_shared]
    is refused, and [with_value] is not covered (it looks up the wrong key,
    [with_value_ignores_keyspace]).  For a durable database the batch stays within the bounds of
    [group_fits], its I/O succeeds, and no value in memory was recovered from the log by a
    reopen ([db_repr]). *)
Theorem keyspaces_refine h B calls :
  handle_repr h B -> Forall (fun c => valid_name (ca_name c)) calls -> batch_fits h calls ->
  exists h', commit_batch h (build_batch h calls) io_ok = (Ok (), h') /\
    handle_repr h' (foldl apply_call B calls) /\
    forall n ks, keyspace n = Ok ks ->
      (forall k, get_value h' ks k = Ok (foldl apply_call B calls !! (n, k))) /\
      (forall keys, get_many_shared h' ks keys = Ok ((fun k => foldl apply_call B calls !! (n, k)) <$> keys)) /\
      (exists st, snapshot h' = Ok st /\ forall k, snapshot_get st n k = foldl apply_call B calls !! (n, k)) /\
      forall k, match h_ram h' with
                | Some _ => get_shared h' ks k = Ok (foldl apply_call B calls !! (n, k)) /\ with_value h' ks k = Ok (foldl apply_call B calls !! (n, k))
                | None => get_shared h' ks k = Err (message "ThingDB shared reads are available only in memory mode")
                end.
Proof.
  intros Hr Hcalls Hfits. destruct (commit_batch_refines h B calls Hr Hcalls Hfits) as (h'&Hrun&Hr'&_).
  exists h'. split_and!; [done..|]. intros n ks Hks. destruct (handle_reads h' _ n ks Hr' Hks) as (?&?&?). split_and!; [done..|].
  intros k. by apply handle_shared_reads.
Qed.

(** On a durable database, [Keyspace::with_value] does not add the keyspace's prefix:
    after the first insert into an empty database, [Keyspace::get] returns the value and
    [Keyspace::with_value] reports the key as missing. *)
Theorem with_value_ignores_keyspace h n ks k v :
  h_ram h = None -> db_repr (h_db h) ∅ -> keyspace n = Ok ks -> batch_fits h [mkCall n k (Some v)] ->
  exists h', insert_value h ks k v io_ok = (Ok (), h') /\
    get_value h' ks k = Ok (Some v) /\ with_value h' ks k = Ok None.
Proof.
  intros Hram Hdb Hks Hfits. pose proof Hks as [Hn ->]%keyspace_valid.
  assert (Hmm : memory_mode h = false).
  { unfold memory_mode. rewrite Hram. apply bool_decide_eq_false. by intros [? ?]. }
  unfold batch_fits in Hfits. specialize (Hfits Hram ∅ Hdb). rewrite build_batch_map in Hfits. cbn zeta in Hfits.
  destruct (process_group_refines _ ∅ _ Hdb Hfits) as (db'&Hrun&Hdb'&_); [by repeat constructor|].
  exists (mkHandle db' None). split.
  - unfold insert_value, batch_put, commit_batch, commit_operations. rewrite !bool_decide_false by done. rewrite Hram.
    cbn [app ks_name]. change (mkBatchOp n (batch_key h (mkKeyspace n (namespace n)) k) (Some v))
      with (call_operation h (mkCall n k (Some v))). cbn [map] in Hrun. by rewrite Hrun.
  - destruct (db_repr_reads _ _ Hdb') as (Hmode&Hget&_).
    unfold get_value, with_value. cbn [h_ram h_db]. rewrite Hmode, !Hget.
    unfold group_operations, to_operation, call_operation, batch_key. rewrite Hmm. cbn.
    unfold physical_key_from_namespace. split; [by rewrite lookup_insert_eq|].
    rewrite lookup_insert_ne; [by rewrite lookup_empty|]. intros Heq. apply (f_equal length) in Heq.
    unfold namespace in Heq. rewrite !length_app in Heq. cbn in Heq. lia.
Qed.
End refinement.

(** ** Witnesses *)

Section witnesses.
#[local] Existing Instance sample_crc32.
#[local] Existing Instance sample_codec.

Definition sample_handle : Handle := mkHandle sample_db None.
Definition sample_calls : list Call :=
  [mkCall "users" [1] (Some [10]); mkCall "jobs" [1] (Some [20]); mkCall "users" [1] None].

Lemma sample_contents A : db_repr sample_db A -> A = ∅.
Proof.
  intros Hr. destruct (db_repr_reads _ _ Hr) as (_&_&_&H1).
  destruct (db_repr_reads _ _ (proj2 sample_inv)) as (_&_&_&H2). congruence.
Qed.

Lemma sample_valid n : n = "users" \/ n = "jobs" -> valid_name n.
Proof.
  intros Hn. apply (keyspace_valid n (mkKeyspace n (namespace n))). destruct Hn as [->| ->]; reflexivity.
Qed.

Lemma sample_batch_fits calls : calls = sample_calls \/ calls = [mkCall "users" [1] (Some [10])] ->
  batch_fits sample_handle calls.
Proof. intros Hc _ A ->%sample_contents. destruct Hc as [->| ->]; cbn zeta; fits. Qed.

Lemma keyspaces_refine_witness :
  exists h', commit_batch sample_handle (build_batch sample_handle sample_calls) io_ok = (Ok (), h') /\
    handle_repr h' (foldl apply_call ∅ sample_calls) /\
    forall n ks, keyspace n = Ok ks ->
      (forall k, get_value h' ks k = Ok (foldl apply_call ∅ sample_calls !! (n, k))) /\
      (forall keys, get_many_shared h' ks keys = Ok ((fun k => foldl apply_call ∅ sample_calls !! (n, k)) <$> keys)) /\
      (exists st, snapshot h' = Ok st /\ forall k, snapshot_get st n k = foldl apply_call ∅ sample_calls !! (n, k)) /\
      forall k, match h_ram h' with
                | Some _ => get_shared h' ks k = Ok (foldl apply_call ∅ sample_calls !! (n, k)) /\ with_value h' ks k = Ok (foldl apply_call ∅ sample_calls !! (n, k))
                | None => get_shared h' ks k = Err (message "ThingDB shared reads are available only in memory mode")
                end.
Proof.
  refine (keyspaces_refine sample_handle ∅ sample_calls _ _ _).
  - exists ∅. split; [exact (proj2 sample_inv)|]. intros n k _. by rewrite !lookup_empty.
  - repeat (apply Forall_cons; split; [apply sample_valid; auto|]). by apply Forall_nil.
  - apply sample_batch_fits. by left.
Defined.

Lemma with_value_ignores_keyspace_witness :
  exists h', insert_value sample_handle (mkKeyspace "users" (namespace "users")) [1] [10] io_ok = (Ok (), h') /\
    get_value h' (mkKeyspace "users" (namespace "users")) [1] = Ok (Some [10]) /\
    with_value h' (mkKeyspace "users" (namespace "users")) [1] = Ok None.
Proof.
  refine (with_value_ignores_keyspace sample_handle "users" (mkKeyspace "users" (namespace "users")) [1] [10] _ _ _ _).
  - reflexivity.
  - exact (proj2 sample_inv).
  - reflexivity.
  - apply sample_batch_fits. by right.
Defined.
End witnesses.
