(* ===== verification/RamScan.v ===== *)
(** * ThingDB: ordered scans of the RAM mode

    [iter_memory_bounds] turns a prefix, a start, an end, an offset and a limit into
    one [BTreeMap::range] and a loop.  This file proves that the loop returns the
    requested page of the matching entries, and when the range panics. *)

From S2P Require Import Prelude Wal Table Layer Database Keyspace.

(** ** Byte strings and their prefixes *)

Definition bytes_ok (key : bytes) : Prop := Forall (fun b => 0 <= b <= U8_MAX) key.

Lemma key_lt_cons x y (a b : bytes) : (x :: a) ≺ (y :: b) <-> x < y \/ x = y /\ a ≺ b.
Proof.
  unfold key_lt. cbn [key_cmp list_ord list_cmp Z_ord]. destruct (Z.compare_spec x y) as [->|Hlt|Hgt].
  - split; [by right|intros [?|[_ ?]]; [lia|done]].
  - split; [by left|done].
  - split; [done|intros [?|[-> _]]; lia].
Qed.

Lemma key_lt_nil_r (a : bytes) : ~ a ≺ [].
Proof. by destruct a. Qed.

Lemma key_lt_nil_cons x (a : bytes) : [] ≺ (x :: a).
Proof. done. Qed.

Abbreviation key_le a b := (~ b ≺ a).

Lemma key_le_cons x y (a b : bytes) : key_le (x :: a) (y :: b) <-> x < y \/ x = y /\ key_le a b.
Proof.
  rewrite key_lt_cons. destruct (Z.lt_trichotomy x y) as [?|[->|?]].
  - split; [by left|intros _ [?|[? _]]; lia].
  - split; [|intros [?|[_ Hle]] [?|[_ ?]]; try lia; done].
    intros Hn. right. split; [done|]. intros Hlt. apply Hn. by right.
  - split; [intros Hn; destruct Hn; by left|intros [?|[? _]]; lia].
Qed.

Lemma key_le_total (a b : bytes) : key_le a b \/ b ≺ a.
Proof. destruct (key_lt_total a b) as [?|[->|?]]; [left; by apply key_lt_asym|left; apply key_lt_irrefl|by right]. Qed.

Lemma key_lt_le_trans (a b c : bytes) : a ≺ b -> key_le b c -> a ≺ c.
Proof.
  intros Hab Hbc. destruct (key_lt_total b c) as [?|[->|?]]; [by eapply key_lt_trans|done|done].
Qed.

Lemma key_le_lt_trans (a b c : bytes) : key_le a b -> b ≺ c -> a ≺ c.
Proof.
  intros Hab Hbc. destruct (key_lt_total a b) as [?|[->|?]]; [by eapply key_lt_trans|done|done].
Qed.

Lemma starts_with_nil key : starts_with [] key = true.
Proof. by apply bool_decide_eq_true. Qed.

Lemma starts_with_cons x p y key : starts_with (x :: p) (y :: key) = true <-> x = y /\ starts_with p key = true.
Proof.
  unfold starts_with. rewrite !bool_decide_eq_true. cbn [length take]. split.
  - intros [= -> Heq]. by rewrite Heq.
  - intros [-> Heq]. by rewrite Heq.
Qed.

Lemma starts_with_le p key : starts_with p key = true -> key_le p key.
Proof.
  revert key. induction p as [|x p IH]; intros key; [intros _; apply key_lt_nil_r|].
  destruct key as [|y key]; [by intros ?%bool_decide_eq_true|].
  rewrite starts_with_cons, key_le_cons. intros [-> ?]. right. split; [done|by apply IH].
Qed.

Lemma successor_None p key :
  bytes_ok key -> successor p = None -> key_le p key -> starts_with p key = true.
Proof.
  intros Hok. revert key Hok. induction p as [|b p IH]; intros key Hok Hs Hle; [apply starts_with_nil|].
  cbn [successor] in Hs. destruct (successor p) as [u|] eqn:Hsp; [done|].
  destruct (Z.eqb_spec b U8_MAX) as [->|]; [|done]. destruct key as [|c key]; [by destruct Hle|].
  apply Forall_cons in Hok as [Hc Hok]. apply key_le_cons in Hle as [?|[<- Hle]]; [lia|].
  apply starts_with_cons. split; [done|]. by apply IH.
Qed.

(** The keys with a prefix are those from the prefix up to its successor. *)
Lemma successor_Some p key u :
  bytes_ok key -> successor p = Some u -> starts_with p key = true <-> key_le p key /\ key ≺ u.
Proof.
  intros Hok. revert key u Hok. induction p as [|b p IH]; intros key u Hok Hs; [done|].
  cbn [successor] in Hs. destruct key as [|c key].
  { split; [by intros ?%bool_decide_eq_true|]. intros [Hle _]. by destruct Hle. }
  apply Forall_cons in Hok as [Hc Hok]. rewrite starts_with_cons, key_le_cons.
  destruct (successor p) as [u'|] eqn:Hsp.
  - injection Hs as <-. rewrite (IH key u') by done. rewrite key_lt_cons.
    split; [intros [-> [? ?]]; auto|]. intros [[?|[-> ?]] [?|[? ?]]]; try lia; auto.
  - destruct (Z.eqb_spec b U8_MAX) as [|Hne]; [done|]. injection Hs as <-. rewrite key_lt_cons. split.
    + intros [-> Hst]. split; [right; split; [done|by apply starts_with_le]|left; lia].
    + intros [Hle [Hlt|[_ Hnil]]]; [|by apply key_lt_nil_r in Hnil]. destruct Hle as [?|[-> Hle]]; [lia|].
      split; [done|]. by apply successor_None.
Qed.

Lemma key_leb_le (a b : bytes) : key_leb a b = true <-> key_le a b.
Proof. unfold key_leb. rewrite negb_true_iff, <-not_true_iff_false, key_ltb_lt. done. Qed.

(** ** Bounds *)

Definition matches_bounds (b : ScanBounds) (key : bytes) : bool :=
  match sb_prefix b with Some p => starts_with p key | None => true end && in_range (sb_start b) (sb_end b) key.

(** Among the keys with the prefix, the computed range selects the requested one. *)
Lemma lower_bound_ok b key stop :
  match sb_prefix b with Some p => starts_with p key = true | None => True end ->
  in_range (lower_bound b) stop key = in_range (sb_start b) stop key.
Proof.
  unfold lower_bound, in_range. intros Hp. f_equal. destruct (sb_prefix b) as [p|]; [|by destruct (sb_start b) as [[]|]].
  apply starts_with_le in Hp. destruct (sb_start b) as [[s i]|].
  - destruct (key_leb p s) eqn:Hps; [done|]. apply not_true_iff_false in Hps. rewrite key_leb_le in Hps.
    assert (Hsp : s ≺ p) by (destruct (key_le_total p s); tauto).
    rewrite (proj2 (key_leb_le p key)) by done. symmetry.
    assert (Hlt : s ≺ key) by (by eapply key_lt_le_trans).
    destruct i; [apply key_leb_le; by apply key_lt_asym|by apply key_ltb_lt].
  - by apply key_leb_le.
Qed.

Lemma upper_bound_ok b key start :
  bytes_ok key -> match sb_prefix b with Some p => starts_with p key = true | None => True end ->
  in_range start (upper_bound b) key = in_range start (sb_end b) key.
Proof.
  unfold upper_bound, in_range. intros Hok Hp. f_equal.
  destruct (sb_prefix b) as [p|]; cbn [mbind option_bind]; [|by destruct (sb_end b) as [[]|]].
  destruct (successor p) as [u|] eqn:Hu; [|by destruct (sb_end b) as [[]|]].
  destruct (proj1 (successor_Some p key u Hok Hu) Hp) as [_ Hlt]. destruct (sb_end b) as [[t j]|].
  - destruct (key_leb t u) eqn:Htu; [done|]. apply not_true_iff_false in Htu. rewrite key_leb_le in Htu.
    assert (Hut : u ≺ t) by (destruct (key_le_total t u); tauto).
    rewrite (proj2 (key_ltb_lt key u)) by done. symmetry.
    assert (Hkt : key ≺ t) by (by eapply key_lt_trans).
    destruct j; [apply key_leb_le; by apply key_lt_asym|by apply key_ltb_lt].
  - by apply key_ltb_lt.
Qed.

(** ** The loop *)

Abbreviation keeps prefix := (fun e : bytes * bytes => match prefix with Some p => starts_with p e.1 | None => true end).

Definition cut (limit : option Z) {A} (l : list A) : list A :=
  match limit with Some n => take (Z.to_nat n) l | None => l end.

Lemma scan_loop_collect prefix offset limit entries range skipped :
  offset <= skipped -> match limit with Some n => zlen entries < n | None => True end ->
  scan_loop prefix offset limit entries range skipped =
  entries ++ cut ((fun n => n - zlen entries) <$> limit) (take_while (keeps prefix) range).
Proof.
  intros Hoff. revert entries. induction range as [|e range IH]; intros entries Hlim; cbn [scan_loop take_while].
  { destruct limit; cbn [cut fmap option_fmap option_map]; rewrite ?take_nil; by rewrite app_nil_r. }
  destruct (Z.ltb_spec skipped offset); [lia|].
  assert (Hk : (match prefix with Some p => negb (starts_with p e.1) | None => false end) = negb (keeps prefix e))
    by (by destruct prefix).
  rewrite Hk. destruct (keeps prefix e); cbn [negb].
  2: { destruct limit; cbn [cut fmap option_fmap option_map]; rewrite ?take_nil; by rewrite app_nil_r. }
  destruct limit as [n|]; cbn [fmap option_fmap option_map cut] in *.
  - destruct (Z.leb_spec n (zlen (entries ++ [e]))) as [Hle|Hgt]; rewrite length_app in *; cbn [length] in *.
    + replace (Z.to_nat (n - zlen entries)) with 1%nat by lia. done.
    + rewrite IH by (rewrite length_app; cbn [length]; lia). rewrite length_app. cbn [length].
      replace (Z.to_nat (n - zlen entries)) with (S (Z.to_nat (n - Z.of_nat (length entries + 1)))) by lia.
      cbn [take]. by rewrite <-app_assoc.
  - rewrite IH by done. by rewrite <-app_assoc.
Qed.

Lemma scan_loop_page prefix offset limit range skipped :
  skipped <= offset -> match limit with Some n => 0 < n | None => True end ->
  scan_loop prefix offset limit [] range skipped =
  cut limit (drop (Z.to_nat (offset - skipped)) (take_while (keeps prefix) range)).
Proof.
  intros Hskip Hlim. revert skipped Hskip. induction range as [|e range IH]; intros skipped Hskip.
  { cbn. rewrite drop_nil. by destruct limit; cbn; rewrite ?take_nil. }
  destruct (Z.eq_dec skipped offset) as [->|Hne].
  { rewrite scan_loop_collect by (done || by destruct limit). rewrite Z.sub_diag, drop_0.
    destruct limit as [n|]; cbn [fmap option_fmap option_map cut length app]; [|done]. by rewrite Z.sub_0_r. }
  cbn [scan_loop take_while].
  assert (Hk : (match prefix with Some p => negb (starts_with p e.1) | None => false end) = negb (keeps prefix e))
    by (by destruct prefix).
  rewrite Hk. destruct (keeps prefix e); cbn [negb].
  - destruct (Z.ltb_spec skipped offset); [|lia]. rewrite IH by lia.
    replace (Z.to_nat (offset - skipped)) with (S (Z.to_nat (offset - (skipped + 1)))) by lia. done.
  - rewrite drop_nil. by destruct limit; cbn; rewrite ?take_nil.
Qed.

(** ** Pages *)

Lemma btree_iter_sorted (m : bmap bytes) : StronglySorted (fun x y => x.1 ≺ y.1) (btree_iter m).
Proof.
  pose proof (btree_keys_sorted m) as Hs. unfold btree_keys in Hs.
  induction (btree_iter m) as [|e l IH]; [constructor|].
  rewrite fmap_cons in Hs. apply StronglySorted_inv in Hs as [Hs Hall]. constructor; [by apply IH|].
  rewrite Forall_forall in Hall. apply Forall_forall. intros x Hx. apply Hall. by apply (list_elem_of_fmap_2 fst).
Qed.

(** Once a key from the prefix on lacks the prefix, so do all larger keys. *)
Lemma keeps_monotone prefix (l : list (bytes * bytes)) :
  StronglySorted (fun x y => x.1 ≺ y.1) l -> Forall (fun e => bytes_ok e.1) l ->
  (forall p, prefix = Some p -> Forall (fun e => key_le p e.1) l) ->
  StronglySorted (fun x y => keeps prefix x = false -> keeps prefix y = false) l.
Proof.
  intros Hs Hok Hge. eapply StronglySorted_impl_elem; [exact Hs|]. intros x y Hx Hy Hxy.
  destruct prefix as [p|]; [|done]. specialize (Hge p eq_refl). rewrite Forall_forall in Hok, Hge.
  destruct (successor p) as [u|] eqn:Hu.
  - rewrite <-!not_true_iff_false, !(successor_Some p _ u) by eauto. intros Hnx [_ Hyu]. apply Hnx.
    split; [by apply Hge|]. by apply (key_lt_trans _ y.1).
  - rewrite (successor_None p x.1) by eauto. done.
Qed.

Lemma lower_bound_prefix b key stop p :
  sb_prefix b = Some p -> in_range (lower_bound b) stop key = true -> key_le p key.
Proof.
  unfold lower_bound, in_range. intros ->. rewrite andb_true_iff. intros [Hl _].
  destruct (sb_start b) as [[s i]|]; [|by apply key_leb_le].
  destruct (key_leb p s) eqn:Hps; [|by apply key_leb_le]. apply key_leb_le in Hps.
  destruct i; [apply key_leb_le in Hl|apply key_ltb_lt in Hl].
  - intros Hlt. apply Hps. by eapply key_le_lt_trans.
  - intros Hlt. apply Hps. by eapply key_lt_trans.
Qed.

(** The range [BTreeMap::range] refuses. *)
Definition inverted (b : ScanBounds) : bool :=
  match lower_bound b, upper_bound b with
  | Some (start, i), Some (stop, j) => key_ltb stop start || (bool_decide (start = stop) && negb i && negb j)
  | _, _ => false
  end.

Lemma btree_range_bounds (m : bmap bytes) b :
  btree_range m (lower_bound b) (upper_bound b) =
  if inverted b then None else Some (List.filter (fun e => in_range (lower_bound b) (upper_bound b) e.1) (btree_iter m)).
Proof. unfold btree_range, inverted. destruct (lower_bound b) as [[]|], (upper_bound b) as [[]|]; done. Qed.

Lemma range_matches m b :
  Forall (fun e => bytes_ok e.1) (btree_iter m) ->
  take_while (keeps (sb_prefix b)) (List.filter (fun e => in_range (lower_bound b) (upper_bound b) e.1) (btree_iter m))
  = List.filter (fun e => matches_bounds b e.1) (btree_iter m).
Proof.
  intros Hok. rewrite take_while_filter.
  - rewrite <-filter_andb. apply filter_ext_in. intros e He. unfold matches_bounds.
    rewrite Forall_forall in Hok. specialize (Hok e He).
    destruct (sb_prefix b) as [p|] eqn:Hp; [destruct (starts_with p e.1) eqn:Hst; [|done]|];
      cbn [andb]; rewrite lower_bound_ok, upper_bound_ok; try done; by rewrite Hp.
  - assert (Hsub := filter_sublist (fun e => in_range (lower_bound b) (upper_bound b) e.1) (btree_iter m)).
    apply keeps_monotone.
    + eapply StronglySorted_sublist; [exact Hsub|apply btree_iter_sorted].
    + by eapply sublist_all.
    + intros p Hp. apply Forall_forall. intros e [_ He]%elem_of_filter_bool. by eapply lower_bound_prefix.
Qed.

Lemma successor_ge (p u : bytes) : successor p = Some u -> key_le p u.
Proof.
  revert u. induction p as [|c p IH]; intros u Hu Hlt; [done|].
  cbn [successor] in Hu. destruct (successor p) as [u'|] eqn:Hs.
  - injection Hu as <-. apply key_lt_cons in Hlt as [?|[_ Hlt]]; [lia|]. by eapply IH.
  - destruct (c =? U8_MAX); [done|]. injection Hu as <-. apply key_lt_cons in Hlt as [?|[? _]]; lia.
Qed.

Lemma ram_iter_bounds_page m name entries b :
  m !! name = Some entries -> Forall (fun e => bytes_ok e.1) (btree_iter entries) ->
  0 <= sb_offset b -> match sb_limit b with Some n => 0 < n | None => True end ->
  ram_iter_bounds m name b =
    if inverted b then None
    else Some (cut (sb_limit b) (drop (Z.to_nat (sb_offset b))
                 (List.filter (fun e => matches_bounds b e.1) (btree_iter entries)))).
Proof.
  intros Hm Hok Hoff Hlim. unfold ram_iter_bounds, iter_memory_bounds.
  rewrite bool_decide_false by (intros Heq; rewrite Heq in Hlim; lia).
  rewrite Hm, btree_range_bounds. destruct (inverted b); cbn [mbind option_bind]; [done|].
  rewrite scan_loop_page by done. rewrite range_matches by done. by rewrite Z.sub_0_r.
Qed.

Lemma count_memory_prefix_filter entries p :
  Forall (fun e => bytes_ok e.1) (btree_iter entries) ->
  count_memory_prefix entries p = zlen (List.filter (fun e => starts_with p e.1) (btree_iter entries)).
Proof.
  intros Hok. unfold count_memory_prefix.
  rewrite take_while_filter; [rewrite <-filter_andb; do 2 f_equal; apply filter_ext_in; intros e _|].
  - unfold in_range. rewrite andb_true_r. destruct (starts_with p e.1) eqn:Hst; [|done].
    apply starts_with_le in Hst. by apply key_leb_le.
  - apply (keeps_monotone (Some p)).
    + eapply StronglySorted_sublist; [apply filter_sublist|apply btree_iter_sorted].
    + eapply sublist_all; [apply filter_sublist|done].
    + intros q [= <-]. apply Forall_forall. intros e [_ He]%elem_of_filter_bool.
      unfold in_range in He. rewrite andb_true_r in He. by apply key_leb_le.
Qed.

(** A scan of a non-empty RAM keyspace returns, in key order, the page of the entries that have the
    prefix and lie between start and end, after [offset] of them and at most [limit]; it
    panics exactly when the computed range is inverted, so a page after a cursor beyond
    the prefix panics instead of being empty. *)
Theorem ram_scan_spec m name entries b :
  m !! name = Some entries -> entries <> ∅ -> Forall (fun e => bytes_ok e.1) (btree_iter entries) ->
  0 <= sb_offset b -> match sb_limit b with Some n => 0 < n | None => True end ->
  ram_iter_bounds m name b =
    (if inverted b then None
     else Some (cut (sb_limit b) (drop (Z.to_nat (sb_offset b))
                  (List.filter (fun e => matches_bounds b e.1) (btree_iter entries))))) /\
  count_memory_prefix entries (default [] (sb_prefix b)) =
    zlen (List.filter (fun e => starts_with (default [] (sb_prefix b)) e.1) (btree_iter entries)) /\
  (forall prefix upper after limit, 0 < limit -> successor prefix = Some upper -> upper ≺ after ->
     ram_prefix_page_after m name prefix (Some after) limit = None).
Proof.
  intros Hm _ Hok Hoff Hlim. split_and!; [by apply ram_iter_bounds_page|by apply count_memory_prefix_filter|].
  intros prefix upper after limit Hl Hu Hlt. unfold ram_prefix_page_after, ram_iter_bounds, iter_memory_bounds.
  cbn [sb_limit]. rewrite bool_decide_false by (intros [= ->]; lia). rewrite Hm, btree_range_bounds.
  unfold inverted, lower_bound, upper_bound. cbn [sb_prefix sb_start sb_end fmap option_fmap option_map mbind option_bind].
  rewrite Hu. destruct (key_leb prefix after) eqn:Hpa; [by rewrite (proj2 (key_ltb_lt upper after)) by done|].
  exfalso. apply not_true_iff_false in Hpa. rewrite key_leb_le in Hpa. apply Hpa. intros Hap.
  apply (successor_ge _ _ Hu). by eapply key_lt_trans.
Qed.

(** ** Witnesses *)

Definition sample_entries : bmap bytes := <[[97; 1] := [1]]> (<[[97; 2] := [2]]> (<[[98] := [3]]> ∅)).
Definition sample_ram : RamKeyspaces := {["users" := sample_entries]}.
Definition sample_bounds : ScanBounds := mkBounds (Some [97]) (Some ([97; 1], false)) None 0 (Some 10).

Lemma sample_entries_ok : Forall (fun e => bytes_ok e.1) (btree_iter sample_entries).
Proof.
  assert (Hb : forallb (fun e => forallb (fun b => (0 <=? b) && (b <=? U8_MAX)) e.1) (btree_iter sample_entries) = true)
    by (vm_compute; reflexivity).
  rewrite forallb_forall in Hb. apply Forall_forall. intros e He. apply list_elem_of_In in He.
  specialize (Hb e He). rewrite forallb_forall in Hb. apply Forall_forall. intros x Hx. apply list_elem_of_In in Hx.
  specialize (Hb x Hx). lia.
Qed.

Lemma ram_scan_spec_witness :
  ram_iter_bounds sample_ram "users" sample_bounds =
    (if inverted sample_bounds then None
     else Some (cut (Some 10) (drop (Z.to_nat 0)
                  (List.filter (fun e => matches_bounds sample_bounds e.1) (btree_iter sample_entries))))) /\
  count_memory_prefix sample_entries [97] =
    zlen (List.filter (fun e => starts_with [97] e.1) (btree_iter sample_entries)) /\
  (forall prefix upper after limit, 0 < limit -> successor prefix = Some upper -> upper ≺ after ->
     ram_prefix_page_after sample_ram "users" prefix (Some after) limit = None).
Proof.
  refine (ram_scan_spec sample_ram "users" sample_entries sample_bounds _ _ sample_entries_ok _ _).
  - reflexivity.
  - discriminate.
  - cbn. lia.
  - cbn. lia.
Defined.
