(* ===== verification/Cache.v ===== *)
(** * ThingDB: the bounded memory cache

    Models [crates/thingdb/src/cache.rs]: [MemoryCache], a process-local cache with
    a time-to-live per entry and least-recently-used eviction under a bound on the
    number of entries and on their bytes.  The two ordered indexes are
    [BTreeSet]s; [Instant]s are integers (nanoseconds) and every clock reading is
    an argument.  A panic or a loop that does not end is [None]. *)

From S2P Require Import Prelude Wal.

Abbreviation btree_set K := (gmap K unit).

Record CacheOptions := mkCacheOptions { co_max_entries : Z; co_max_bytes : Z; co_default_ttl : Z }.
Definition default_cache_options : CacheOptions := mkCacheOptions 1024 (64 * 1024 * 1024) (30 * 1000000000).

Record CacheStats := mkStats {
  hits : Z; misses : Z; inserts : Z; removals : Z; expired : Z; evictions : Z;
  current_entries : Z; current_bytes : Z; st_max_entries : Z; st_max_bytes : Z;
}.

Record Entry := mkEntry { en_value : bytes; en_expires_at : Z; en_access_order : Z }.

Record CacheState := mkCache {
  entries : gmap bytes Entry;
  lru : btree_set (Z * bytes);
  expirations : btree_set (Z * bytes);
  next_access_order : Z;
  cached_bytes : Z;
  options : CacheOptions;
  stats : CacheStats;
}.

(** ** Field updates *)

Definition set_stats (s : CacheState) st :=
  mkCache (entries s) (lru s) (expirations s) (next_access_order s) (cached_bytes s) (options s) st.
Definition set_cache (s : CacheState) es l ex b :=
  mkCache es l ex (next_access_order s) b (options s) (stats s).
Definition set_next_order (s : CacheState) n :=
  mkCache (entries s) (lru s) (expirations s) n (cached_bytes s) (options s) (stats s).

Definition count_hit (st : CacheStats) := mkStats (u64_saturating_add (hits st) 1) (misses st) (inserts st)
  (removals st) (expired st) (evictions st) (current_entries st) (current_bytes st) (st_max_entries st) (st_max_bytes st).
Definition count_miss (st : CacheStats) := mkStats (hits st) (u64_saturating_add (misses st) 1) (inserts st)
  (removals st) (expired st) (evictions st) (current_entries st) (current_bytes st) (st_max_entries st) (st_max_bytes st).
Definition count_insert (st : CacheStats) := mkStats (hits st) (misses st) (u64_saturating_add (inserts st) 1)
  (removals st) (expired st) (evictions st) (current_entries st) (current_bytes st) (st_max_entries st) (st_max_bytes st).
Definition count_removal (st : CacheStats) := mkStats (hits st) (misses st) (inserts st)
  (u64_saturating_add (removals st) 1) (expired st) (evictions st) (current_entries st) (current_bytes st)
  (st_max_entries st) (st_max_bytes st).
Definition count_expiration (st : CacheStats) := mkStats (hits st) (misses st) (inserts st)
  (removals st) (u64_saturating_add (expired st) 1) (evictions st) (current_entries st) (current_bytes st)
  (st_max_entries st) (st_max_bytes st).
Definition count_eviction (st : CacheStats) := mkStats (hits st) (misses st) (inserts st)
  (removals st) (expired st) (u64_saturating_add (evictions st) 1) (current_entries st) (current_bytes st)
  (st_max_entries st) (st_max_bytes st).

(** ** Operations *)

Definition with_clock (o : CacheOptions) : CacheState :=
  mkCache ∅ ∅ ∅ 0 0 o (mkStats 0 0 0 0 0 0 0 0 (co_max_entries o) (co_max_bytes o)).

Definition entry_size (key value : bytes) : Z := u64_saturating_add (zlen key) (zlen value).

Definition take_access_order (s : CacheState) : Z * CacheState :=
  (next_access_order s, set_next_order s (u64_saturating_add (next_access_order s) 1)).

Definition insert_indexes (s : CacheState) (key : bytes) (en : Entry) : CacheState :=
  set_cache s (entries s) (<[(en_access_order en, key) := ()]> (lru s))
    (<[(en_expires_at en, key) := ()]> (expirations s)) (cached_bytes s).
Definition remove_indexes (s : CacheState) (key : bytes) (en : Entry) : CacheState :=
  set_cache s (entries s) (delete (en_access_order en, key) (lru s))
    (delete (en_expires_at en, key) (expirations s)) (cached_bytes s).

Definition refresh_current_stats (s : CacheState) : CacheState :=
  set_stats s (mkStats (hits (stats s)) (misses (stats s)) (inserts (stats s)) (removals (stats s)) (expired (stats s))
    (evictions (stats s)) (Z.of_nat (size (entries s))) (cached_bytes s) (st_max_entries (stats s)) (st_max_bytes (stats s))).

(** [state.entries.remove(key)] and the bytes it frees. *)
Definition drop_entry (s : CacheState) (key : bytes) (en : Entry) : CacheState :=
  let s := set_cache s (delete key (entries s)) (lru s) (expirations s) (cached_bytes s) in
  let s := remove_indexes s key en in
  set_cache s (entries s) (lru s) (expirations s) (u64_saturating_sub (cached_bytes s) (entry_size key (en_value en))).

Definition remove_expired_key (s : CacheState) (key : bytes) : CacheState :=
  match entries s !! key with
  | Some en => let s := drop_entry s key en in set_stats s (count_expiration (stats s))
  | None => s
  end.

Definition expired_keys (s : CacheState) (now : Z) : list bytes :=
  snd <$> take_while (fun e => e.1 <=? now) (btree_keys (expirations s)).

Definition remove_expired (s : CacheState) (now : Z) : CacheState :=
  refresh_current_stats (foldl remove_expired_key s (expired_keys s now)).

Definition validate_key (key : bytes) : tdb_result unit :=
  if bool_decide (key = []) then Err (message "ThingDB cache keys must be non-empty") else Ok ().

Definition cache_get (s : CacheState) (now : Z) (key : bytes) : tdb_result (option bytes) * CacheState :=
  match validate_key key with
  | Err err => (Err err, s)
  | Ok _ =>
      match entries s !! key with
      | None => (Ok None, set_stats s (count_miss (stats s)))
      | Some en =>
          let s := set_cache s (delete key (entries s)) (lru s) (expirations s) (cached_bytes s) in
          let s := remove_indexes s key en in
          if en_expires_at en <=? now then
            let s := set_cache s (entries s) (lru s) (expirations s)
                       (u64_saturating_sub (cached_bytes s) (entry_size key (en_value en))) in
            let s := set_stats s (count_miss (count_expiration (stats s))) in
            (Ok None, refresh_current_stats s)
          else
            let '(order, s) := take_access_order s in
            let en := mkEntry (en_value en) (en_expires_at en) order in
            let s := insert_indexes s key en in
            let s := set_cache s (<[key := en]> (entries s)) (lru s) (expirations s) (cached_bytes s) in
            (Ok (Some (en_value en)), set_stats s (count_hit (stats s)))
      end
  end.

(** [Instant::checked_add]; an [Instant] counts 64-bit seconds and nanoseconds. *)
Definition INSTANT_MAX : Z := I64_MAX * 1000000000 + 999999999.
Definition instant_checked_add (now ttl : Z) : option Z := if now + ttl <=? INSTANT_MAX then Some (now + ttl) else None.

Definition over_bounds (s : CacheState) : bool :=
  (co_max_entries (options s) <? Z.of_nat (size (entries s))) || (co_max_bytes (options s) <? cached_bytes s).

(** The eviction loop.  [state.entries[&oldest]] panics on a missing key; the
    fuel is the number of entries of the index, each round removes one. *)
Fixpoint evict_loop (fuel : nat) (s : CacheState) : option CacheState :=
  if over_bounds s then
    match head (btree_keys (lru s)) with
    | None => Some s
    | Some (_, oldest) =>
        match fuel with
        | O => None
        | S fuel =>
            en ← entries s !! oldest;
            let s := drop_entry s oldest en in
            evict_loop fuel (set_stats s (count_eviction (stats s)))
        end
    end
  else Some s.

Definition insert_entry (s : CacheState) (now : Z) (key value : bytes) (ttl : Z) : CacheState :=
  let s := match entries s !! key with Some previous => drop_entry s key previous | None => s end in
  let '(order, s) := take_access_order s in
  let en := mkEntry value (default now (instant_checked_add now ttl)) order in
  let s := set_cache s (entries s) (lru s) (expirations s)
             (u64_saturating_add (cached_bytes s) (entry_size key value)) in
  let s := insert_indexes s key en in
  let s := set_cache s (<[key := en]> (entries s)) (lru s) (expirations s) (cached_bytes s) in
  set_stats s (count_insert (stats s)).

Definition insert_with_ttl (s : CacheState) (now : Z) (key value : bytes) (ttl : Z)
    : option (tdb_result unit * CacheState) :=
  match validate_key key with
  | Err err => Some (Err err, s)
  | Ok _ =>
      if (co_max_bytes (options s) <? entry_size key value) && negb (co_max_bytes (options s) =? 0)
      then Some (Err (message "ThingDB cache value exceeds max_bytes"), s) else
      let s := remove_expired s now in
      if (co_max_entries (options s) =? 0) || (co_max_bytes (options s) =? 0) then Some (Ok (), s) else
      let s := insert_entry s now key value ttl in
      s ← evict_loop (size (lru s)) s;
      Some (Ok (), refresh_current_stats s)
  end.

Definition insert_default (s : CacheState) (now : Z) (key value : bytes) :=
  insert_with_ttl s now key value (co_default_ttl (options s)).

Definition cache_remove (s : CacheState) (key : bytes) : tdb_result bool * CacheState :=
  match validate_key key with
  | Err err => (Err err, s)
  | Ok _ =>
      match entries s !! key with
      | None => (Ok false, s)
      | Some en =>
          let s := drop_entry s key en in
          (Ok true, refresh_current_stats (set_stats s (count_removal (stats s))))
      end
  end.

Definition clear (s : CacheState) : CacheState := refresh_current_stats (set_cache s ∅ ∅ ∅ 0).

Definition read_stats (s : CacheState) (now : Z) : CacheStats * CacheState :=
  let s := refresh_current_stats (remove_expired s now) in (stats s, s).

(** ** The invariant *)

Definition total (es : gmap bytes Entry) : Z := map_fold (fun k en n => entry_size k (en_value en) + n) 0 es.

(** The indexes list exactly the entries, and the byte count is exact. *)
Record index_inv (s : CacheState) : Prop := {
  ii_lru : forall o k, is_Some (lru s !! (o, k)) <-> exists en, entries s !! k = Some en /\ en_access_order en = o;
  ii_exp : forall t k, is_Some (expirations s !! (t, k)) <-> exists en, entries s !! k = Some en /\ en_expires_at en = t;
  ii_bytes : cached_bytes s = total (entries s);
  ii_orders : forall k en, entries s !! k = Some en -> en_access_order en < next_access_order s;
  ii_sizes : forall k en, entries s !! k = Some en -> entry_size k (en_value en) <= co_max_bytes (options s);
}.

Record options_ok (o : CacheOptions) : Prop := {
  oo_entries : 0 <= co_max_entries o;
  oo_bytes : 0 <= co_max_bytes o <= I64_MAX;
}.

Record cache_inv (s : CacheState) : Prop := {
  ci_index : index_inv s;
  ci_options : options_ok (options s);
  ci_bounds : over_bounds s = false;
}.

Lemma entry_size_nonneg k v : 0 <= entry_size k v.
Proof. unfold entry_size. unfold_ints. lia. Qed.

Lemma total_empty : total ∅ = 0.
Proof. apply map_fold_empty. Qed.

Lemma total_insert es k en : es !! k = None -> total (<[k := en]> es) = entry_size k (en_value en) + total es.
Proof. intros Hk. unfold total. rewrite map_fold_insert_L; [done|intros; cbn; lia|done]. Qed.

Lemma total_delete es k en : es !! k = Some en -> total es = entry_size k (en_value en) + total (delete k es).
Proof. intros Hk. unfold total. rewrite (map_fold_delete_L _ _ k en es); [done|intros; cbn; lia|done]. Qed.

Lemma total_nonneg es : 0 <= total es.
Proof.
  induction es as [|k en es Hk IH] using map_ind; [by rewrite total_empty|].
  rewrite total_insert by done. pose proof (entry_size_nonneg k (en_value en)). lia.
Qed.

Lemma over_bounds_false s :
  over_bounds s = false <->
  Z.of_nat (size (entries s)) <= co_max_entries (options s) /\ cached_bytes s <= co_max_bytes (options s).
Proof. unfold over_bounds. rewrite orb_false_iff, !Z.ltb_ge. done. Qed.

(** Statistics and the clock of accesses do not matter to the indexes. *)
Lemma index_inv_stats s st : index_inv s -> index_inv (set_stats s st).
Proof. by intros []. Qed.

Lemma set_stats_bounds s st : over_bounds (set_stats s st) = over_bounds s.
Proof. done. Qed.

Lemma drop_entry_inv s k en : index_inv s -> entries s !! k = Some en -> index_inv (drop_entry s k en).
Proof.
  intros [Hl He Hb Ho Hs] Hk. split; cbn [entries lru expirations cached_bytes next_access_order options
    drop_entry set_cache remove_indexes].
  - intros o k'. destruct (decide ((en_access_order en, k) = (o, k'))) as [[= <- <-]|Hne].
    + rewrite lookup_delete_eq. split; [by intros [? ?]|]. intros (en'&Hen'&_). by rewrite lookup_delete_eq in Hen'.
    + rewrite lookup_delete_ne by done. rewrite Hl. destruct (decide (k = k')) as [<-|Hk'].
      * rewrite lookup_delete_eq. split; [|by intros (?&?&_)]. intros (en'&Hen'&<-). congruence.
      * by rewrite lookup_delete_ne.
  - intros t k'. destruct (decide ((en_expires_at en, k) = (t, k'))) as [[= <- <-]|Hne].
    + rewrite lookup_delete_eq. split; [by intros [? ?]|]. intros (en'&Hen'&_). by rewrite lookup_delete_eq in Hen'.
    + rewrite lookup_delete_ne by done. rewrite He. destruct (decide (k = k')) as [<-|Hk'].
      * rewrite lookup_delete_eq. split; [|by intros (?&?&_)]. intros (en'&Hen'&<-). congruence.
      * by rewrite lookup_delete_ne.
  - rewrite Hb, (total_delete _ _ _ Hk). pose proof (total_nonneg (delete k (entries s))).
    pose proof (entry_size_nonneg k (en_value en)). unfold u64_saturating_sub. lia.
  - intros k' en' Hk'. apply lookup_delete_Some in Hk' as [_ Hk']. by eapply Ho.
  - intros k' en' Hk'. apply lookup_delete_Some in Hk' as [_ Hk']. by eapply Hs.
Qed.

Lemma drop_entry_bounds s k en :
  index_inv s -> entries s !! k = Some en -> over_bounds s = false -> over_bounds (drop_entry s k en) = false.
Proof.
  intros Hinv Hk. rewrite !over_bounds_false.
  cbn [entries cached_bytes options drop_entry set_cache remove_indexes]. intros [Hn Hb]. split.
  - rewrite map_size_delete_Some by eauto. lia.
  - pose proof (entry_size_nonneg k (en_value en)). unfold u64_saturating_sub.
    rewrite (ii_bytes s Hinv) in *. pose proof (total_nonneg (entries s)). lia.
Qed.

(** Adding an entry whose key is free. *)
Definition add_entry (s : CacheState) (key : bytes) (en : Entry) (b : Z) : CacheState :=
  let s := insert_indexes (set_cache s (entries s) (lru s) (expirations s) b) key en in
  set_cache s (<[key := en]> (entries s)) (lru s) (expirations s) (cached_bytes s).

Lemma add_entry_inv s key en b :
  index_inv s -> entries s !! key = None -> en_access_order en < next_access_order s ->
  entry_size key (en_value en) <= co_max_bytes (options s) -> b = entry_size key (en_value en) + total (entries s) ->
  index_inv (add_entry s key en b).
Proof.
  intros [Hl He Hb Ho Hs] Hk Hord Hsize ->. split; cbn [entries lru expirations cached_bytes next_access_order options
    add_entry set_cache insert_indexes].
  - intros o k'. destruct (decide ((en_access_order en, key) = (o, k'))) as [[= <- <-]|Hne].
    + rewrite !lookup_insert_eq. split; [by eauto|by eauto].
    + rewrite lookup_insert_ne by done. rewrite Hl. destruct (decide (key = k')) as [<-|Hk'].
      * rewrite lookup_insert_eq. split; [intros (?&?&_); congruence|]. intros (?&[= <-]&<-). done.
      * by rewrite lookup_insert_ne.
  - intros t k'. destruct (decide ((en_expires_at en, key) = (t, k'))) as [[= <- <-]|Hne].
    + rewrite !lookup_insert_eq. split; [by eauto|by eauto].
    + rewrite lookup_insert_ne by done. rewrite He. destruct (decide (key = k')) as [<-|Hk'].
      * rewrite lookup_insert_eq. split; [intros (?&?&_); congruence|]. intros (?&[= <-]&<-). done.
      * by rewrite lookup_insert_ne.
  - by rewrite total_insert.
  - intros k' en' [[<- <-]|[_ Hk']]%lookup_insert_Some; [done|by eapply Ho].
  - intros k' en' [[<- <-]|[_ Hk']]%lookup_insert_Some; [done|by eapply Hs].
Qed.

(** ** Removal *)

(** [s'] holds some of the entries of [s]. *)
Record smaller (s s' : CacheState) : Prop := {
  sm_entries : forall k en, entries s' !! k = Some en -> entries s !! k = Some en;
  sm_options : options s' = options s;
  sm_next : next_access_order s' = next_access_order s;
}.

#[export] Instance smaller_preorder : PreOrder smaller.
Proof.
  split; [done|]. intros s1 s2 s3 [He1 Ho1 Hn1] [He2 Ho2 Hn2]. split; [|by rewrite Ho2|by rewrite Hn2].
  intros k en Hk. by apply He1, He2.
Qed.

Lemma drop_entry_smaller s k en : smaller s (drop_entry s k en).
Proof. split; [|done..]. intros k' en'. cbn. rewrite lookup_delete_Some. by intros [_ ?]. Qed.

Lemma smaller_stats s s' st : smaller s s' -> smaller s (set_stats s' st).
Proof. by intros []. Qed.

Lemma cache_inv_stats s st : cache_inv s -> cache_inv (set_stats s st).
Proof. intros [Hi Ho Hb]. split; [by apply index_inv_stats|done|done]. Qed.

Lemma drop_entry_cache_inv s k en : cache_inv s -> entries s !! k = Some en -> cache_inv (drop_entry s k en).
Proof.
  intros [Hi Ho Hb] Hk. split; [by apply drop_entry_inv|done|by apply drop_entry_bounds].
Qed.

Lemma remove_expired_key_inv s k : cache_inv s -> cache_inv (remove_expired_key s k) /\ smaller s (remove_expired_key s k).
Proof.
  intros Hinv. unfold remove_expired_key. destruct (entries s !! k) as [en|] eqn:Hk; [|done].
  split; [by apply cache_inv_stats, drop_entry_cache_inv|]. apply smaller_stats, drop_entry_smaller.
Qed.

Lemma remove_expired_inv s now : cache_inv s -> cache_inv (remove_expired s now) /\ smaller s (remove_expired s now).
Proof.
  intros Hinv. unfold remove_expired.
  assert (Hg : cache_inv (foldl remove_expired_key s (expired_keys s now)) /\
               smaller s (foldl remove_expired_key s (expired_keys s now))).
  { generalize (expired_keys s now) as ks. intros ks. revert s Hinv.
    induction ks as [|k ks IH]; intros s Hinv; cbn [foldl]; [done|].
    destruct (remove_expired_key_inv s k Hinv) as [Hinv1 Hsm1]. destruct (IH _ Hinv1) as [Hinv2 Hsm2].
    split; [done|]. by etrans. }
  destruct Hg as [Hinv' Hsm']. split; [by apply cache_inv_stats|by apply smaller_stats].
Qed.

(** *** Eviction *)

Lemma btree_head_min `{OrdKey K, Countable K} {V} (m : gmap K V) x y :
  head (btree_keys m) = Some x -> is_Some (m !! y) -> x = y \/ key_lt x y.
Proof.
  intros Hx Hy%elem_of_btree_keys. pose proof (btree_keys_sorted m) as Hs.
  destruct (btree_keys m) as [|z l]; [done|]. cbn in Hx. injection Hx as ->.
  apply StronglySorted_inv in Hs as [_ Hall]. apply elem_of_cons in Hy as [->|Hy]; [by left|].
  right. rewrite Forall_forall in Hall. by apply Hall.
Qed.

Lemma pair_le (o o' : Z) (k k' : bytes) : (o, k) = (o', k') \/ key_lt (o, k) (o', k') -> o <= o'.
Proof.
  intros [[= -> _]|Hlt]; [done|]. unfold key_lt in Hlt. cbn [key_cmp prod_ord Z_ord fst snd] in Hlt.
  destruct (Z.compare_spec o o'); [lia|lia|done].
Qed.

(** The next entry to evict: the least recently used one. *)
Lemma evict_candidate s :
  index_inv s -> options_ok (options s) -> over_bounds s = true ->
  exists o k en, head (btree_keys (lru s)) = Some (o, k) /\ entries s !! k = Some en /\ en_access_order en = o /\
    forall k' en', entries s !! k' = Some en' -> o <= en_access_order en'.
Proof.
  intros Hinv Hopt Hover. destruct (head (btree_keys (lru s))) as [[o k]|] eqn:Hh.
  - assert (Hin : is_Some (lru s !! (o, k))).
    { apply elem_of_btree_keys. destruct (btree_keys (lru s)); [done|]. injection Hh as ->. by left. }
    apply (ii_lru s Hinv) in Hin as (en&Hen&Ho). exists o, k, en. split_and!; [done..|].
    intros k' en' Hen'. eapply pair_le. eapply btree_head_min; [exact Hh|]. apply (ii_lru s Hinv). eauto.
  - exfalso. assert (Hempty : entries s = ∅).
    { apply map_empty. intros k. destruct (entries s !! k) as [en|] eqn:Hk; [|done].
      assert (Hin : is_Some (lru s !! (en_access_order en, k))) by (apply (ii_lru s Hinv); eauto).
      apply elem_of_btree_keys in Hin. destruct (btree_keys (lru s)); [by apply elem_of_nil in Hin|done]. }
    unfold over_bounds in Hover. rewrite (ii_bytes s Hinv), Hempty, total_empty, map_size_empty in Hover.
    destruct Hopt. destruct (Z.ltb_spec (co_max_entries (options s)) (Z.of_nat 0)); [lia|].
    destruct (Z.ltb_spec (co_max_bytes (options s)) 0); [lia|done].
Qed.

(** What the eviction loop leaves: a cache within its bounds, from which only the
    least recently used entries are gone. *)
Record evicted (s s' : CacheState) : Prop := {
  ev_inv : index_inv s';
  ev_bounds : over_bounds s' = false;
  ev_smaller : smaller s s';
  ev_lru : forall k en k' en', entries s !! k = Some en -> entries s' !! k = None ->
    entries s' !! k' = Some en' -> en_access_order en <= en_access_order en';
  ev_newest : forall k en, entries s !! k = Some en -> 1 <= co_max_entries (options s) ->
    (forall k' en', entries s !! k' = Some en' -> k' <> k -> en_access_order en' < en_access_order en) ->
    entries s' !! k = Some en;
}.

(** The most recent entry is never the candidate: alone it fits. *)
Lemma newest_not_evicted s k0 en0 k en :
  index_inv s -> over_bounds s = true -> entries s !! k0 = Some en0 ->
  (forall k' en', entries s !! k' = Some en' -> en_access_order en0 <= en_access_order en') ->
  entries s !! k = Some en -> 1 <= co_max_entries (options s) ->
  (forall k' en', entries s !! k' = Some en' -> k' <> k -> en_access_order en' < en_access_order en) ->
  k0 <> k.
Proof.
  intros Hinv Hover Hk0 Hmin Hk Hone Hnew ->. assert (en0 = en) as -> by congruence.
  assert (Hsing : entries s = {[k := en]}).
  { apply map_eq. intros k'. destruct (decide (k = k')) as [<-|Hne]; [by rewrite lookup_singleton_eq|].
    rewrite lookup_singleton_ne by done. destruct (entries s !! k') as [en'|] eqn:Hk'; [|done].
    specialize (Hmin k' en' Hk'). specialize (Hnew k' en' Hk'). assert (k' <> k) by done. specialize (Hnew H). lia. }
  pose proof (ii_sizes s Hinv k en Hk) as Hsize. unfold over_bounds in Hover. rewrite (ii_bytes s Hinv), Hsing in Hover.
  rewrite map_size_singleton in Hover. unfold total in Hover. rewrite map_fold_singleton in Hover.
  destruct (Z.ltb_spec (co_max_entries (options s)) (Z.of_nat 1)); [lia|].
  destruct (Z.ltb_spec (co_max_bytes (options s)) (entry_size k (en_value en) + 0)); [lia|done].
Qed.

Lemma evict_loop_run fuel s :
  index_inv s -> options_ok (options s) -> (size (lru s) <= fuel)%nat ->
  exists s', evict_loop fuel s = Some s' /\ evicted s s'.
Proof.
  revert s. induction fuel as [|fuel IH]; intros s Hinv Hopt Hfuel; cbn [evict_loop];
    (destruct (over_bounds s) eqn:Hover; [|exists s; split; [done|]; split; try done; congruence]);
    destruct (evict_candidate s Hinv Hopt Hover) as (o&k&en&Hh&Hk&Ho&Hmin); rewrite Hh.
  { exfalso. assert (Hin : is_Some (lru s !! (o, k))) by (apply (ii_lru s Hinv); eauto).
    destruct Hin as [[] Hin]. assert (Hz : size (lru s) = 0%nat) by lia. apply map_size_empty_inv in Hz.
    rewrite Hz in Hin. by rewrite lookup_empty in Hin. }
  rewrite Hk. cbn [mbind option_bind]. set (s1 := set_stats (drop_entry s k en) _).
  assert (Hinv1 : index_inv s1) by (apply index_inv_stats; by apply drop_entry_inv).
  destruct (IH s1 Hinv1 Hopt) as (s'&Hrun&Hev).
  { cbn. rewrite map_size_delete_Some; [lia|]. apply (ii_lru s Hinv). eauto. }
  exists s'. split; [exact Hrun|]. destruct Hev as [Hi Hb Hsm Hl Hn].
  assert (Hes : entries s1 = delete k (entries s)) by done. split; [done|done| | |].
  - etrans; [|exact Hsm]. apply smaller_stats, drop_entry_smaller.
  - intros k1 en1 k2 en2 H1 H1' H2. destruct (decide (k1 = k)) as [->|Hne].
    + assert (en1 = en) as -> by congruence. rewrite Ho. apply (Hmin k2).
      apply (sm_entries _ _ Hsm) in H2. rewrite Hes in H2. by apply lookup_delete_Some in H2 as [_ H2].
    + apply (Hl k1 en1 k2 en2); [|done|done]. rewrite Hes. by rewrite lookup_delete_ne.
  - intros k1 en1 H1 Hone Hnew. apply Hn; [|done|].
    + rewrite Hes. rewrite lookup_delete_ne; [done|].
      apply (newest_not_evicted s k en k1 en1); [done..| |done|done|done].
      intros k' en' Hk'. rewrite Ho. by eapply Hmin.
    + intros k' en' Hk' Hne. rewrite Hes in Hk'. apply lookup_delete_Some in Hk' as [_ Hk']. by eapply Hnew.
Qed.

(** ** Insertion and reading *)

Definition expiry (now ttl : Z) : Z := default now (instant_checked_add now ttl).

Lemma set_next_order_inv s n : index_inv s -> next_access_order s <= n -> index_inv (set_next_order s n).
Proof. intros [Hl He Hb Ho Hs] Hn. split; try done. cbn. intros k en Hk. specialize (Ho k en Hk). lia. Qed.

(** The state in which the key is free. *)
Definition without (s : CacheState) (key : bytes) : CacheState :=
  match entries s !! key with Some previous => drop_entry s key previous | None => s end.

Lemma without_inv s key :
  cache_inv s -> cache_inv (without s key) /\ smaller s (without s key) /\ entries (without s key) = delete key (entries s).
Proof.
  intros Hinv. unfold without. destruct (entries s !! key) as [en|] eqn:Hk.
  - split_and!; [by apply drop_entry_cache_inv|apply drop_entry_smaller|done].
  - split_and!; [done..|]. by rewrite delete_id.
Qed.

Lemma insert_entry_inv s now key value ttl :
  cache_inv s -> next_access_order s < U64_MAX -> entry_size key value <= co_max_bytes (options s) ->
  let s' := insert_entry s now key value ttl in
  index_inv s' /\ options s' = options s /\ next_access_order s' = next_access_order s + 1 /\
  entries s' = <[key := mkEntry value (expiry now ttl) (next_access_order s)]> (delete key (entries s)).
Proof.
  intros Hinv Hnext Hsize. destruct (without_inv s key Hinv) as ([Hi Hopt Hb]&Hsm&Hes).
  set (s1 := without s key) in *. cbn zeta.
  assert (Hn1 : next_access_order s1 = next_access_order s) by apply Hsm.
  assert (Hsat : u64_saturating_add (next_access_order s1) 1 = next_access_order s + 1) by (unfold_ints; lia).
  set (en := mkEntry value (expiry now ttl) (next_access_order s1)).
  assert (Heq : exists st, insert_entry s now key value ttl =
    set_stats (add_entry (set_next_order s1 (u64_saturating_add (next_access_order s1) 1)) key en
      (u64_saturating_add (cached_bytes s1) (entry_size key value))) st) by (eexists; reflexivity).
  destruct Heq as [st ->]. rewrite Hsat. split_and!.
  - apply index_inv_stats, add_entry_inv.
    + apply set_next_order_inv; [done|lia].
    + cbn. rewrite Hes. apply lookup_delete_eq.
    + cbn. lia.
    + cbn. by rewrite (sm_options _ _ Hsm).
    + cbn. rewrite (ii_bytes _ Hi). unfold u64_saturating_add.
      assert (Hob : over_bounds s1 = false) by done. apply over_bounds_false in Hob as [_ Hob].
      rewrite (ii_bytes _ Hi) in Hob. destruct Hopt as [_ Hmb].
      rewrite (sm_options _ _ Hsm) in Hob, Hmb. unfold_ints. lia.
  - cbn. apply Hsm.
  - done.
  - cbn. by rewrite Hes, <-Hn1.
Qed.

(** An insertion is refused and changes nothing, or it stores the value. *)
Lemma insert_run s now key value ttl :
  cache_inv s -> next_access_order s < U64_MAX ->
  exists r s', insert_with_ttl s now key value ttl = Some (r, s') /\ cache_inv s' /\ options s' = options s /\
    next_access_order s <= next_access_order s' <= next_access_order s + 1 /\
    (match r with Err _ => s' = s | Ok _ => True end) /\
    (co_max_entries (options s) = 0 \/ co_max_bytes (options s) = 0 -> smaller s s') /\
    (r = Ok () -> 0 < co_max_entries (options s) -> 0 < co_max_bytes (options s) ->
       entries s' !! key = Some (mkEntry value (expiry now ttl) (next_access_order s)) /\
       forall k en, k <> key -> entries s' !! k = Some en -> entries s !! k = Some en).
Proof.
  intros Hinv Hnext. unfold insert_with_ttl. destruct (validate_key key) as [u|err]; [|by eexists _, s; split_and!; try lia].
  destruct (Z.ltb_spec (co_max_bytes (options s)) (entry_size key value)) as [Hbig|Hfit].
  { destruct (Z.eqb_spec (co_max_bytes (options s)) 0) as [Hz|Hnz]; cbn [andb negb].
    - destruct (remove_expired_inv s now Hinv) as [Hinv1 Hsm]. rewrite (sm_options _ _ Hsm), Hz. cbn [Z.eqb].
      rewrite orb_true_r. exists (Ok ()), (remove_expired s now). pose proof (sm_next _ _ Hsm). pose proof (sm_options _ _ Hsm).
      split_and!; try done; lia.
    - by eexists _, s; split_and!; try lia. }
  cbn [andb]. destruct (remove_expired_inv s now Hinv) as [Hinv1 Hsm].
  set (s1 := remove_expired s now) in *. rewrite (sm_options _ _ Hsm).
  pose proof (sm_next _ _ Hsm) as Hn1.
  destruct ((co_max_entries (options s) =? 0) || (co_max_bytes (options s) =? 0)) eqn:Hdis.
  { apply orb_true_iff in Hdis. rewrite !Z.eqb_eq in Hdis.
    exists (Ok ()), s1. split_and!; try done; try lia; try apply Hsm. }
  apply orb_false_iff in Hdis as [Hd1 Hd2]. apply Z.eqb_neq in Hd1. apply Z.eqb_neq in Hd2.
  destruct (insert_entry_inv s1 now key value ttl Hinv1) as (Hi2&Ho2&Hn2&He2); [lia|by rewrite (sm_options _ _ Hsm)|].
  set (s2 := insert_entry s1 now key value ttl) in *.
  assert (Hopt2 : options s2 = options s) by (rewrite Ho2; apply Hsm).
  assert (Hok : options_ok (options s)) by apply Hinv.
  destruct (evict_loop_run (size (lru s2)) s2 Hi2) as (s3&->&Hev); [by rewrite Hopt2|done|].
  cbn [mbind option_bind]. exists (Ok ()), (refresh_current_stats s3).
  destruct Hev as [Hi3 Hb3 [Hes3 Ho3 Hn3] _ Hnew]. split_and!; try done.
  - split; [by apply index_inv_stats| |done]. cbn. by rewrite Ho3, Hopt2.
  - cbn. by rewrite Ho3.
  - cbn. lia.
  - cbn. lia.
  - intros [Hz|Hz]; lia.
  - intros _ Hpos _. cbn. split.
    + rewrite <-Hn1. apply Hnew.
      * rewrite He2. apply lookup_insert_eq.
      * rewrite Hopt2. lia.
      * intros k' en' Hk' Hne. rewrite He2, lookup_insert_ne, lookup_delete_ne in Hk' by done.
        apply (ii_orders s1 (ci_index _ Hinv1) k' en' Hk').
    + intros k en Hne Hk. apply Hes3 in Hk. rewrite He2, lookup_insert_ne, lookup_delete_ne in Hk by done.
      by apply (sm_entries _ _ Hsm).
Qed.

(** A read keeps the invariant; it can only drop the expired entry it hits. *)
Lemma get_run s now key :
  cache_inv s -> next_access_order s < U64_MAX ->
  let r := cache_get s now key in
  cache_inv r.2 /\ options r.2 = options s /\
  next_access_order s <= next_access_order r.2 <= next_access_order s + 1 /\
  (forall k en, entries r.2 !! k = Some en ->
     exists en', entries s !! k = Some en' /\ en_value en' = en_value en /\ en_expires_at en' = en_expires_at en) /\
  (forall v, r.1 = Ok (Some v) <-> key <> [] /\
     exists en, entries s !! key = Some en /\ en_value en = v /\ now < en_expires_at en).
Proof.
  intros Hinv Hnext. unfold cache_get, validate_key. case_bool_decide as Hkey; cbn zeta.
  { cbn [fst snd]. refine (conj Hinv (conj eq_refl (conj _ (conj _ _)))); [lia|intros k en Hk; by exists en|].
    intros v. split; [done|by intros [? _]]. }
  destruct (entries s !! key) as [en|] eqn:Hk; cbn zeta.
  2: { cbn [fst snd]. refine (conj _ (conj eq_refl (conj _ (conj _ _))));
         [by apply cache_inv_stats|cbn; lia|intros k en Hk'; by exists en|].
       intros v. split; [done|]. intros (_&en&?&_). done. }
  destruct (Z.leb_spec (en_expires_at en) now) as [Hexp|Hlive]; cbn [take_access_order fst snd].
  - refine (conj _ (conj eq_refl (conj _ (conj _ _)))).
    + apply cache_inv_stats, cache_inv_stats. apply (drop_entry_cache_inv s key en Hinv Hk).
    + cbn. lia.
    + intros k en' Hk'. cbn in Hk'. apply lookup_delete_Some in Hk' as [_ Hk']. by exists en'.
    + intros v. split; [done|]. intros (_&en'&Hen'&_&Hlt). assert (en' = en) as -> by congruence. lia.
  - set (en' := mkEntry (en_value en) (en_expires_at en) (next_access_order s)).
    assert (Hsat : u64_saturating_add (next_access_order s) 1 = next_access_order s + 1) by (unfold_ints; lia).
    set (s2 := set_stats _ _).
    assert (Heq : exists st, s2 = set_stats (add_entry (set_next_order (drop_entry s key en)
      (u64_saturating_add (next_access_order s) 1)) key en' (cached_bytes s)) st) by (eexists; reflexivity).
    destruct Heq as [st Heq]. rewrite Heq, Hsat. clear s2 Heq. destruct Hinv as [Hi Hopt Hb].
    assert (Hes : <[key := en']> (delete key (entries s)) = <[key := en']> (entries s)) by apply insert_delete_eq.
    refine (conj _ (conj eq_refl (conj _ (conj _ _)))).
    + split; [|done|].
      * apply index_inv_stats, add_entry_inv.
        -- apply set_next_order_inv; [by apply drop_entry_inv|cbn; lia].
        -- cbn. apply lookup_delete_eq.
        -- cbn. lia.
        -- cbn. by apply (ii_sizes s Hi key).
        -- cbn. rewrite (ii_bytes s Hi). by apply total_delete.
      * rewrite set_stats_bounds. apply over_bounds_false. cbn. apply over_bounds_false in Hb as [Hc Hbt].
        split; [|done]. rewrite Hes. rewrite map_size_insert_Some by eauto. done.
    + cbn. lia.
    + cbn. intros k e Hke. rewrite Hes in Hke. apply lookup_insert_Some in Hke as [[<- <-]|[_ Hke]]; [|by exists e].
      by exists en.
    + intros v. split; [intros [= <-]; split; [done|by exists en]|]. intros (_&e&He&<-&_). cbn. congruence.
Qed.

Lemma remove_run s key :
  cache_inv s -> cache_inv (cache_remove s key).2 /\ smaller s (cache_remove s key).2 /\
  (forall r, (cache_remove s key).1 = Ok r -> entries (cache_remove s key).2 !! key = None).
Proof.
  intros Hinv. unfold cache_remove, validate_key. case_bool_decide as Hkey; cbn [fst snd]; [done|].
  destruct (entries s !! key) as [en|] eqn:Hk; cbn [fst snd]; [|done]. split_and!.
  - by apply cache_inv_stats, cache_inv_stats, drop_entry_cache_inv.
  - apply smaller_stats, smaller_stats, drop_entry_smaller.
  - intros r _. cbn. apply lookup_delete_eq.
Qed.

Lemma clear_inv s : cache_inv s -> cache_inv (clear s) /\ smaller s (clear s).
Proof.
  intros [_ [He Hb] _]. split.
  - apply cache_inv_stats. split; [|done|].
    + split; cbn.
      * intros o k. rewrite lookup_empty. split; [by intros [? ?]|]. intros (en&Hen&_). by rewrite lookup_empty in Hen.
      * intros o k. rewrite lookup_empty. split; [by intros [? ?]|]. intros (en&Hen&_). by rewrite lookup_empty in Hen.
      * by rewrite total_empty.
      * intros k en Hk. by rewrite lookup_empty in Hk.
      * intros k en Hk. by rewrite lookup_empty in Hk.
    + apply over_bounds_false. cbn. rewrite map_size_empty. lia.
  - split; [|done..]. cbn. intros k en Hk. by rewrite lookup_empty in Hk.
Qed.

Lemma with_clock_inv o : options_ok o -> cache_inv (with_clock o).
Proof.
  intros Hok. split; [|done|].
  - split; cbn.
    + intros x k. rewrite lookup_empty. split; [by intros [? ?]|]. intros (en&Hen&_). by rewrite lookup_empty in Hen.
    + intros x k. rewrite lookup_empty. split; [by intros [? ?]|]. intros (en&Hen&_). by rewrite lookup_empty in Hen.
    + by rewrite total_empty.
    + intros k en Hk. by rewrite lookup_empty in Hk.
    + intros k en Hk. by rewrite lookup_empty in Hk.
  - apply over_bounds_false. cbn. rewrite map_size_empty. destruct Hok. lia.
Qed.

(** ** Runs *)

Inductive CacheOp :=
| CGet (now : Z) (key : bytes)
| CInsert (now : Z) (key value : bytes) (ttl : Z)
| CRemove (key : bytes)
| CClear
| CStats (now : Z).

Definition run_cache_op (s : CacheState) (op : CacheOp) : option CacheState :=
  match op with
  | CGet now key => Some (cache_get s now key).2
  | CInsert now key value ttl => snd <$> insert_with_ttl s now key value ttl
  | CRemove key => Some (cache_remove s key).2
  | CClear => Some (clear s)
  | CStats now => Some (read_stats s now).2
  end.

(** The values written: what the callers believe the cache may hold. *)
Abbreviation history := (gmap bytes (bytes * Z)).

Definition enabled (o : CacheOptions) : Prop := 0 < co_max_entries o /\ 0 < co_max_bytes o.

Definition track (s : CacheState) (h : history) (op : CacheOp) : history :=
  match op with
  | CInsert now key value ttl =>
      match insert_with_ttl s now key value ttl with
      | Some (Ok _, _) => <[key := (value, expiry now ttl)]> h
      | _ => h
      end
  | CRemove key => match (cache_remove s key).1 with Ok _ => delete key h | Err _ => h end
  | CClear => ∅
  | _ => h
  end.

Fixpoint run_cache (s : CacheState) (h : history) (ops : list CacheOp) : option (CacheState * history) :=
  match ops with
  | [] => Some (s, h)
  | op :: ops => s' ← run_cache_op s op; run_cache s' (track s h op) ops
  end.

(** Every entry holds the last value written under its key. *)
Definition coherent (s : CacheState) (h : history) : Prop :=
  forall k en, entries s !! k = Some en -> h !! k = Some (en_value en, en_expires_at en).

Lemma coherent_smaller s s' h : smaller s s' -> coherent s h -> coherent s' h.
Proof. intros Hsm Hc k en Hk. by apply Hc, (sm_entries _ _ Hsm). Qed.

Lemma run_cache_op_run s h op :
  cache_inv s -> enabled (options s) -> coherent s h -> next_access_order s < U64_MAX ->
  exists s', run_cache_op s op = Some s' /\ cache_inv s' /\ options s' = options s /\
    next_access_order s' <= next_access_order s + 1 /\ coherent s' (track s h op).
Proof.
  intros Hinv [Hen1 Hen2] Hco Hnext. destruct op as [now key|now key value ttl|key| |now]; cbn [run_cache_op track].
  - destruct (get_run s now key Hinv Hnext) as (Hinv'&Ho&Hn&Hes&_). eexists. split; [done|]. split_and!; [done|done|lia|].
    intros k en Hk. destruct (Hes k en Hk) as (en'&Hk'&<-&<-). by apply Hco.
  - destruct (insert_run s now key value ttl Hinv Hnext) as (r&s'&Hrun&Hinv'&Ho&Hn&Herr&_&Hok).
    rewrite Hrun. cbn. exists s'. split; [done|]. split_and!; [done|done|lia|].
    destruct r as [[]|err]; [|by subst]. destruct (Hok eq_refl Hen1 Hen2) as [Hnew Hold]. intros k en Hk.
    destruct (decide (k = key)) as [->|Hne].
    + rewrite lookup_insert_eq. rewrite Hnew in Hk. by injection Hk as <-.
    + rewrite lookup_insert_ne by done. apply Hco. by apply Hold.
  - destruct (remove_run s key Hinv) as (Hinv'&Hsm&Hgone). eexists. split; [done|].
    pose proof (sm_next _ _ Hsm). split_and!; [done|apply Hsm|lia|].
    intros k en Hk. destruct (cache_remove s key).1 as [r|err] eqn:Hr; [|by eapply coherent_smaller].
    rewrite lookup_delete_ne; [by eapply coherent_smaller|]. intros <-. specialize (Hgone r eq_refl). congruence.
  - destruct (clear_inv s Hinv) as [Hinv' Hsm]. eexists. split; [done|].
    pose proof (sm_next _ _ Hsm). split_and!; [done|apply Hsm|lia|].
    intros k en Hk. cbn in Hk. by rewrite lookup_empty in Hk.
  - destruct (remove_expired_inv s now Hinv) as [Hinv' Hsm]. eexists. split; [done|].
    pose proof (sm_next _ _ Hsm). unfold read_stats. cbn [snd].
    split_and!; [by apply cache_inv_stats|apply Hsm| |].
    { change (next_access_order (remove_expired s now) <= next_access_order s + 1). lia. }
    eapply coherent_smaller; [|exact Hco]. by apply smaller_stats.
Qed.

Lemma run_cache_run s h ops :
  cache_inv s -> enabled (options s) -> coherent s h -> next_access_order s + zlen ops <= U64_MAX ->
  exists s' h', run_cache s h ops = Some (s', h') /\ cache_inv s' /\ options s' = options s /\
    next_access_order s' <= next_access_order s + zlen ops /\ coherent s' h'.
Proof.
  revert s h. induction ops as [|op ops IH]; intros s h Hinv Hen Hco Hle; cbn [run_cache length] in *.
  { exists s, h. split_and!; try done. lia. }
  destruct (run_cache_op_run s h op Hinv Hen Hco) as (s1&->&Hinv1&Ho1&Hn1&Hco1); [lia|]. cbn [mbind option_bind].
  destruct (IH s1 (track s h op) Hinv1) as (s'&h'&->&Hinv'&Ho'&Hn'&Hco'); [by rewrite Ho1|done|lia|].
  exists s', h'. split_and!; try done; [by rewrite Ho', Ho1|lia].
Qed.

(** ** Properties *)

(** The cache keeps its bounds: no sequence of operations panics or loops, and after it
    the entries number at most [max_entries], their keys and values together take exactly
    the accounted bytes and at most [max_bytes], and the two ordered indexes list exactly
    the entries. *)
Theorem cache_bounded o ops :
  options_ok o -> enabled o -> zlen ops <= U64_MAX ->
  exists s h, run_cache (with_clock o) ∅ ops = Some (s, h) /\
    Z.of_nat (size (entries s)) <= co_max_entries o /\ total (entries s) <= co_max_bytes o /\
    cached_bytes s = total (entries s) /\
    (forall x k, is_Some (lru s !! (x, k)) <-> exists en, entries s !! k = Some en /\ en_access_order en = x) /\
    (forall t k, is_Some (expirations s !! (t, k)) <-> exists en, entries s !! k = Some en /\ en_expires_at en = t).
Proof.
  intros Hok Hen Hlen. destruct (run_cache_run (with_clock o) ∅ ops) as (s&h&Hrun&[Hi _ Hb]&Ho&_).
  - by apply with_clock_inv.
  - done.
  - intros k en Hk. cbn in Hk. by rewrite lookup_empty in Hk.
  - done.
  - exists s, h. apply over_bounds_false in Hb as [Hc Hbt]. rewrite Ho in Hc, Hbt. cbn in Hc, Hbt.
    split_and!; [done|done| |apply Hi|apply Hi|apply Hi]. by rewrite <-(ii_bytes s Hi).
Qed.

(** The cache never serves a stale value: after any sequence of operations, a hit is the
    value last inserted under that key and not yet expired; and a value just inserted is a
    hit until it expires, since eviction removes least recently used entries first. *)
Theorem cache_coherent o ops s h :
  options_ok o -> enabled o -> zlen ops + 1 < U64_MAX -> run_cache (with_clock o) ∅ ops = Some (s, h) ->
  (forall now k v, (cache_get s now k).1 = Ok (Some v) -> exists t, h !! k = Some (v, t) /\ now < t) /\
  (forall now k v ttl s', insert_with_ttl s now k v ttl = Some (Ok (), s') ->
     forall now', now' < expiry now ttl -> (cache_get s' now' k).1 = Ok (Some v)).
Proof.
  intros Hok Hen Hlen Hrun.
  destruct (run_cache_run (with_clock o) ∅ ops) as (s0&h0&Hrun0&Hinv&Ho&Hn&Hco).
  - by apply with_clock_inv.
  - done.
  - intros k en Hk. cbn in Hk. by rewrite lookup_empty in Hk.
  - cbn. lia.
  - assert (s0 = s /\ h0 = h) as [-> ->] by (rewrite Hrun in Hrun0; by injection Hrun0). cbn in Hn, Ho. split.
    + intros now k v Hget. destruct (get_run s now k Hinv) as (_&_&_&_&Hiff); [lia|].
      apply Hiff in Hget as (_&en&Hk&<-&Hlt). eauto.
    + intros now k v ttl s' Hins now' Hlt.
      destruct (insert_run s now k v ttl Hinv) as (r&s1&Hrun1&Hinv1&_&Hn1&_&_&Hnew); [lia|].
      rewrite Hins in Hrun1. injection Hrun1 as <- <-. destruct Hen as [He1 He2].
      destruct Hnew as [Hnew _]; [done|by rewrite Ho|by rewrite Ho|].
      destruct (get_run s' now' k Hinv1) as (_&_&_&_&Hiff); [lia|]. apply Hiff. split; [|eauto].
      intros ->. unfold insert_with_ttl, validate_key in Hins. by rewrite bool_decide_true in Hins.
Qed.

(** ** Witnesses *)

Definition sample_cache_options : CacheOptions := mkCacheOptions 2 10 100.
Definition sample_cache_ops : list CacheOp :=
  [CInsert 0 [1] [10; 11] 50; CInsert 1 [2] [20] 50; CGet 2 [1]; CInsert 3 [3] [30] 50; CRemove [9]; CStats 60].

Lemma sample_options_ok : options_ok sample_cache_options.
Proof. split; cbn; unfold_ints; lia. Qed.

Lemma sample_enabled : enabled sample_cache_options.
Proof. split; cbn; lia. Qed.

Lemma cache_bounded_witness :
  exists s h, run_cache (with_clock sample_cache_options) ∅ sample_cache_ops = Some (s, h) /\
    Z.of_nat (size (entries s)) <= 2 /\ total (entries s) <= 10 /\
    cached_bytes s = total (entries s) /\
    (forall x k, is_Some (lru s !! (x, k)) <-> exists en, entries s !! k = Some en /\ en_access_order en = x) /\
    (forall t k, is_Some (expirations s !! (t, k)) <-> exists en, entries s !! k = Some en /\ en_expires_at en = t).
Proof.
  refine (cache_bounded sample_cache_options sample_cache_ops sample_options_ok sample_enabled _).
  vm_compute. discriminate.
Defined.

Definition sample_cache : CacheState * history :=
  default (with_clock sample_cache_options, ∅) (run_cache (with_clock sample_cache_options) ∅ sample_cache_ops).

Lemma cache_coherent_witness :
  (forall now k v, (cache_get sample_cache.1 now k).1 = Ok (Some v) ->
     exists t, sample_cache.2 !! k = Some (v, t) /\ now < t) /\
  (forall now k v ttl s', insert_with_ttl sample_cache.1 now k v ttl = Some (Ok (), s') ->
     forall now', now' < expiry now ttl -> (cache_get s' now' k).1 = Ok (Some v)).
Proof.
  refine (cache_coherent sample_cache_options sample_cache_ops sample_cache.1 sample_cache.2
    sample_options_ok sample_enabled _ _).
  - vm_compute. reflexivity.
  - vm_compute. reflexivity.
Defined.
