(* ===== verification/Model.v ===== *)
(** * thingd: data model

    Models [crates/thingd/src/model.rs] and [error.rs]: the records the storage
    traits exchange, and the part of [serde_json::Value] the engines use.  JSON
    parsing and printing belong to the [serde_json] crate and are the parameter
    [SerdeJson].  Floating-point numbers are IEEE 754 values ([spec_float]).
    Clock readings are arguments of the operations that take them. *)

From S2P Require Import Prelude.
From Stdlib Require Import SpecFloat.

(** ** Errors *)

Inductive ThingdError :=
| InvalidInput (message : string)
| NotFound (message : string)
| Conflict (message : string)
| Protected (message : string)
| Storage (message : string)
| EncryptionRequired (message : string)
| InvalidEncryptionKey (message : string)
| EncryptionAuthentication (message : string)
| UnsupportedEncryptionVersion (message : string)
| UnsupportedStorageFormat (message : string)
| StorageValidation (message : string)
| EncryptionMigration (message : string).

#[export] Instance ThingdError_eq_dec : EqDecision ThingdError.
Proof. solve_decision. Defined.

Abbreviation thingd_result A := (result ThingdError A).

(** [Display for ThingdError]. *)
Definition display_error (e : ThingdError) : string :=
  match e with
  | InvalidInput m => "invalid input: " +:+ m
  | NotFound m => "not found: " +:+ m
  | Conflict m => "conflict: " +:+ m
  | Protected m => "protected: " +:+ m
  | Storage m => "storage error: " +:+ m
  | EncryptionRequired m => "encryption required: " +:+ m
  | InvalidEncryptionKey m => "invalid encryption key: " +:+ m
  | EncryptionAuthentication m => "encryption authentication failed: " +:+ m
  | UnsupportedEncryptionVersion m => "unsupported encryption version: " +:+ m
  | UnsupportedStorageFormat m => "unsupported storage format: " +:+ m
  | StorageValidation m => "storage validation failed: " +:+ m
  | EncryptionMigration m => "encryption migration failed: " +:+ m
  end.

(** ** JSON values *)

Inductive Value (N : Type) : Type :=
| JNull
| JBool (b : bool)
| JNumber (n : N)
| JString (s : string)
| JArray (items : list (Value N))
| JObject (fields : list (string * Value N)).
Arguments JNull {N}.
Arguments JBool {N} b.
Arguments JNumber {N} n.
Arguments JString {N} s.
Arguments JArray {N} items.
Arguments JObject {N} fields.

#[export] Instance Value_eq_dec {N} `{EqDecision N} : EqDecision (Value N).
Proof.
  refine (fix go (v w : Value N) : Decision (v = w) :=
    match v, w with
    | JNull, JNull => left eq_refl
    | JBool a, JBool b => cast_if (decide (a = b))
    | JNumber a, JNumber b => cast_if (decide (a = b))
    | JString a, JString b => cast_if (decide (a = b))
    | JArray a, JArray b => cast_if (@list_eq_dec _ go a b)
    | JObject a, JObject b =>
        cast_if (@list_eq_dec _ (fun p q : string * Value N =>
          match decide (p.1 = q.1), go p.2 q.2 with
          | left H1, left H2 => left (injective_projections p q H1 H2)
          | right H1, _ => right (fun H => H1 (f_equal fst H))
          | _, right H2 => right (fun H => H2 (f_equal snd H))
          end) a b)
    | _, _ => right _
    end); clear go; abstract congruence.
Defined.

(** [serde_json]: the number type with its conversion to [f64], the parser, and
    [Display for Value].  Values are compared with [=].  The [PartialEq] of the source agrees
    with it but on the two zeros of [f64], 0.0 and -0.0, which it takes for equal although
    they are printed differently: the model speaks of documents without a negative zero,
    for which [number] is any type whose equality is that of the printed numbers. *)
Class SerdeJson := {
  number : Type;
  number_eq_dec :: EqDecision number;
  as_f64 : number -> option spec_float;
  from_str : string -> option (Value number);
  display_value : Value number -> string;
}.

Section value.
Context `{SerdeJson}.

(** [Value::get]: the field of an object; other values have none. *)
Definition value_get (v : Value number) (key : string) : option (Value number) :=
  match v with
  | JObject fields => snd <$> (snd <$> list_find (fun f => f.1 = key) fields)
  | _ => None
  end.

Definition is_null (v : Value number) : bool := match v with JNull => true | _ => false end.

(** [f64::partial_cmp]. *)
Definition f64_partial_cmp (a b : spec_float) : option comparison := SFcompare a b.
Definition f64_zero : spec_float := S754_zero false.

Definition bool_cmp (a b : bool) : comparison :=
  match a, b with false, true => Lt | true, false => Gt | _, _ => Eq end.

Definition value_compare (a b : Value number) : comparison :=
  match a, b with
  | JNumber a, JNumber b =>
      default Eq (f64_partial_cmp (default f64_zero (as_f64 a)) (default f64_zero (as_f64 b)))
  | JString a, JString b => key_cmp a b
  | JBool a, JBool b => bool_cmp a b
  | _, _ => key_cmp (display_value a) (display_value b)
  end.
End value.

(** ** Records *)

Definition DEFAULT_QUEUE_LEASE_MS : Z := 30000.

(** [ObjectKey]: the collection and the id; ordered lexicographically. *)
Abbreviation ObjectKey := (string * string)%type.

Record MemoryObject := mkObject {
  ob_key : ObjectKey;
  ob_body : string;
  ob_version : Z;
  ob_created_at : string;
  ob_updated_at : string;
  ob_vector : option (list spec_float);
}.

Definition new_object (collection id body : string) : MemoryObject :=
  mkObject (collection, id) body 0 "" "" None.

Record MemoryEvent := mkEvent {
  ev_stream : string;
  ev_event_type : string;
  ev_body : string;
  ev_sequence : Z;
  ev_created_at : string;
  ev_idempotency_key : string;
}.

Definition new_event (stream event_type body : string) : MemoryEvent :=
  mkEvent stream event_type body 0 "" "".

Inductive QueueJobStatus := Ready | Leased | Completed | Dead.

#[export] Instance QueueJobStatus_eq_dec : EqDecision QueueJobStatus.
Proof. solve_decision. Defined.

Record QueueJob := mkJob {
  jb_queue : string;
  jb_id : string;
  jb_body : string;
  jb_attempts : Z;
  jb_max_attempts : Z;
  jb_status : QueueJobStatus;
  jb_available_at_ms : Z;
  jb_leased_at_ms : option Z;
  jb_lease_expires_at_ms : option Z;
  jb_completed_at_ms : option Z;
  jb_dead_at_ms : option Z;
  jb_created_at : string;
  jb_last_error : string;
  jb_priority : Z;
}.

Definition new_job (queue id body : string) (max_attempts : Z) : QueueJob :=
  mkJob queue id body 0 max_attempts Ready 0 None None None None "" "" 0.

#[export] Instance QueueJob_eq_dec : EqDecision QueueJob.
Proof. solve_decision. Defined.

(** [i64::try_from(value).unwrap_or(i64::MAX)]. *)
Definition u64_to_i64 (value : Z) : Z := if value <=? I64_MAX then value else I64_MAX.

Definition with_priority (j : QueueJob) (p : Z) : QueueJob :=
  mkJob (jb_queue j) (jb_id j) (jb_body j) (jb_attempts j) (jb_max_attempts j) (jb_status j)
    (jb_available_at_ms j) (jb_leased_at_ms j) (jb_lease_expires_at_ms j) (jb_completed_at_ms j)
    (jb_dead_at_ms j) (jb_created_at j) (jb_last_error j) p.

Definition set_available_at_ms (j : QueueJob) (at_ms : Z) : QueueJob :=
  mkJob (jb_queue j) (jb_id j) (jb_body j) (jb_attempts j) (jb_max_attempts j) (jb_status j)
    at_ms (jb_leased_at_ms j) (jb_lease_expires_at_ms j) (jb_completed_at_ms j)
    (jb_dead_at_ms j) (jb_created_at j) (jb_last_error j) (jb_priority j).

Definition delay_by_ms (j : QueueJob) (now delay_ms : Z) : QueueJob :=
  set_available_at_ms j (i64_saturating_add now (u64_to_i64 delay_ms)).

Record ListEventsOptions := mkListEvents {
  le_from_sequence : option Z;
  le_limit : option Z;
  le_since : option string;
}.

Inductive SortDirection := Asc | Desc.

Record SortBy := mkSortBy { sb_field : string; sb_direction : SortDirection }.

Record ListObjectsOptions `{SerdeJson} := mkListObjects {
  lo_filter : list (string * Value number);
  lo_sort_by : option SortBy;
  lo_limit : option Z;
  lo_offset : option Z;
}.
Arguments mkListObjects {_} _ _ _ _.

Record PutObjectOptions := mkPutOptions { po_index : bool; po_expected_version : option Z }.
Definition default_put_options : PutObjectOptions := mkPutOptions true None.

Record QueueClaimOptions := mkClaimOptions { qc_lease_ms : Z }.
Definition default_claim_options : QueueClaimOptions := mkClaimOptions DEFAULT_QUEUE_LEASE_MS.

Record QueueNackOptions := mkNackOptions { qn_delay_ms : Z; qn_error : string }.

Record Link := mkLink {
  lk_id : string;
  lk_from_ref : string;
  lk_link_type : string;
  lk_to_ref : string;
  lk_weight : option spec_float;
  lk_metadata_json : string;
  lk_created_at : string;
}.

Definition new_link (from_ref link_type to_ref : string) : Link :=
  mkLink "" from_ref link_type to_ref None "{}" "".

Record LinkQueryOptions := mkLinkQuery { lq_link_type : option string; lq_limit : option Z }.
Inductive LinkDirection := Outgoing | Incoming | Both.

Record IndexDefinition := mkIndex { ix_collection : string; ix_field : string; ix_unique : bool }.

#[export] Instance IndexDefinition_eq_dec : EqDecision IndexDefinition.
Proof. solve_decision. Defined.

Record StoredSchema := mkStoredSchema { ss_schema_json : string; ss_hash : string; ss_updated_at : string }.
Record MigrationRecord := mkMigration { mr_id : string; mr_hash : string; mr_applied_at : string }.

(** ** The in-memory engine's state *)

Record MemoryEngine := mkEngine {
  objects : gmap ObjectKey MemoryObject;
  events : list MemoryEvent;
  queues : gmap string (list QueueJob);
  links : list Link;
  next_event_sequence : Z;
  next_link_id : Z;
  event_idempotency_keys : gmap (string * string) Z;
  vectors : gmap (string * string) (list spec_float);
  schema : option StoredSchema;
  migrations : gmap string MigrationRecord;
  indexes : gmap (string * string) IndexDefinition;
}.

Definition new_engine : MemoryEngine := mkEngine ∅ [] ∅ [] 0 0 ∅ ∅ None ∅ ∅.

Definition set_objects (e : MemoryEngine) o v :=
  mkEngine o (events e) (queues e) (links e) (next_event_sequence e) (next_link_id e)
    (event_idempotency_keys e) v (schema e) (migrations e) (indexes e).
Definition set_events (e : MemoryEngine) ev seq keys :=
  mkEngine (objects e) ev (queues e) (links e) seq (next_link_id e) keys (vectors e) (schema e)
    (migrations e) (indexes e).
Definition set_queues (e : MemoryEngine) q :=
  mkEngine (objects e) (events e) q (links e) (next_event_sequence e) (next_link_id e)
    (event_idempotency_keys e) (vectors e) (schema e) (migrations e) (indexes e).
Definition set_links (e : MemoryEngine) l next :=
  mkEngine (objects e) (events e) (queues e) l (next_event_sequence e) next
    (event_idempotency_keys e) (vectors e) (schema e) (migrations e) (indexes e).
Definition set_indexes (e : MemoryEngine) ix :=
  mkEngine (objects e) (events e) (queues e) (links e) (next_event_sequence e) (next_link_id e)
    (event_idempotency_keys e) (vectors e) (schema e) (migrations e) ix.
Definition set_schema (e : MemoryEngine) s m :=
  mkEngine (objects e) (events e) (queues e) (links e) (next_event_sequence e) (next_link_id e)
    (event_idempotency_keys e) (vectors e) s m (indexes e).

