(* ===== verification/Objects.v ===== *)
(** * thingd: objects of the in-memory engine

    Models [ObjectStore for MemoryEngine] of [crates/thingd/src/in_memory.rs] and
    the default batch methods of the trait in [store.rs]: versioned puts, the
    optimistic-locking put, the replication put, deletes, counts, listing with
    filters, sorting and paging, and unique indexes. *)

From S2P Require Import Prelude Model.

(** [str::find]: the byte offset of the first occurrence. *)
Fixpoint bytes_prefix (p s : bytes) : bool :=
  match p, s with
  | [], _ => true
  | x :: p, y :: s => (x =? y) && bytes_prefix p s
  | _ :: _, [] => false
  end.

Fixpoint bytes_find (s p : bytes) : option nat :=
  if bytes_prefix p s then Some 0%nat
  else match s with
       | [] => None
       | _ :: s => S <$> bytes_find s p
       end.

(** [pattern.split('%')]. *)
Fixpoint split_percent (current s : bytes) : list bytes :=
  match s with
  | [] => [current]
  | 37 :: s => current :: split_percent [] s
  | c :: s => split_percent (current ++ [c]) s
  end.

(** The loop of [like_match]: the non-empty parts must occur in order. *)
Fixpoint like_parts (s : bytes) (parts : list bytes) : bool :=
  match parts with
  | [] => true
  | [] :: parts => like_parts s parts
  | part :: parts =>
      match bytes_find s part with
      | Some idx => like_parts (drop (idx + length part) s) parts
      | None => false
      end
  end.

Definition like_match (s pattern : string) : bool :=
  like_parts (str_bytes s) (split_percent [] (str_bytes pattern)).

(** [collections.sort(); collections.dedup()]. *)
Fixpoint dedup (l : list string) : list string :=
  match l with
  | x :: (y :: _) as l' => if bool_decide (x = y) then dedup l' else x :: dedup l'
  | _ => l
  end.

Definition sort_strings (l : list string) : list string := sort_by key_cmp l.

(** [str::trim_start_matches('$')]. *)
Fixpoint trim_dollars (s : string) : string :=
  match s with
  | String c s' => if bool_decide (Ascii.nat_of_ascii c = 36%nat) then trim_dollars s' else s
  | EmptyString => EmptyString
  end.

Section objects.
Context `{SerdeJson}.
Implicit Types e : MemoryEngine.

(** ** Unique indexes *)

Definition body_field (body field : string) : option (Value number) :=
  match from_str body with Some v => value_get v field | None => None end.

Definition duplicate_of e (o : MemoryObject) (index : IndexDefinition) (value : Value number) : bool :=
  existsb (fun existing =>
    negb (bool_decide (ob_key existing = ob_key o))
    && bool_decide ((ob_key existing).1 = (ob_key o).1)
    && match body_field (ob_body existing) (ix_field index) with
       | Some existing_value => bool_decide (existing_value = value)
       | None => false
       end) (btree_values (objects e)).

Definition unique_conflict (index : IndexDefinition) : ThingdError :=
  Conflict ("unique index " +:+ ix_collection index +:+ "." +:+ ix_field index
              +:+ " rejects duplicate value").

Definition check_index e (o : MemoryObject) (body : Value number) (index : IndexDefinition)
    : thingd_result unit :=
  if ix_unique index && bool_decide (ix_collection index = (ob_key o).1) then
    match value_get body (ix_field index) with
    | None => Ok ()
    | Some value =>
        if is_null value then Ok ()
        else if duplicate_of e o index value then Err (unique_conflict index) else Ok ()
    end
  else Ok ().

Definition validate_unique_indexes e (o : MemoryObject) : thingd_result unit :=
  match from_str (ob_body o) with
  | None => Ok ()
  | Some body => fold_res (fun _ index => check_index e o body index) () (btree_values (indexes e))
  end.

Definition validate_existing_unique_index e (index : IndexDefinition) : thingd_result unit :=
  _ ← fold_res (fun (values : list (Value number)) o =>
        if bool_decide ((ob_key o).1 = ix_collection index) then
          match body_field (ob_body o) (ix_field index) with
          | Some value =>
              if is_null value then Ok values
              else if existsb (fun existing => bool_decide (existing = value)) values
              then Err (Conflict ("cannot create unique index " +:+ ix_collection index +:+ "."
                                    +:+ ix_field index +:+ ": existing values are duplicated"))
              else Ok (values ++ [value])
          | None => Ok values
          end
        else Ok values) [] (btree_values (objects e));
  Ok ().

Definition create_index_definition e (index : IndexDefinition) : thingd_result unit * MemoryEngine :=
  if bool_decide (ix_collection index = "") || bool_decide (ix_field index = "")
  then (Err (InvalidInput "index collection and field are required"), e) else
  match (if ix_unique index then validate_existing_unique_index e index else Ok ()) with
  | Err error => (Err error, e)
  | Ok _ => (Ok (), set_indexes e (<[(ix_collection index, ix_field index) := index]> (indexes e)))
  end.

Definition create_index e (collection field : string) : thingd_result unit * MemoryEngine :=
  create_index_definition e (mkIndex collection field false).

Definition list_indexes e : thingd_result (list (string * string)) := Ok (btree_keys (indexes e)).
Definition list_index_definitions e : thingd_result (list IndexDefinition) := Ok (btree_values (indexes e)).

Definition delete_index e (collection field : string) : thingd_result bool * MemoryEngine :=
  (Ok (bool_decide (is_Some (indexes e !! (collection, field)))),
   set_indexes e (delete (collection, field) (indexes e))).

(** ** Puts *)

(** [now] is the reading of [now_iso_string]. *)
Definition put_object e (now : string) (o : MemoryObject) : thingd_result MemoryObject * MemoryEngine :=
  match validate_unique_indexes e o with
  | Err error => (Err error, e)
  | Ok _ =>
      let version := match objects e !! ob_key o with
                     | Some existing => u64_wrapping_add (ob_version existing) 1
                     | None => 1
                     end in
      let o := mkObject (ob_key o) (ob_body o) version
                 (if bool_decide (ob_created_at o = "") then now else ob_created_at o) now (ob_vector o) in
      (Ok o, set_objects e (<[ob_key o := o]> (objects e))
               (match ob_vector o with
                | Some v => <[ob_key o := v]> (vectors e)
                | None => delete (ob_key o) (vectors e)
                end))
  end.

(** [Debug for Option<u64>]. *)
Definition debug_version (v : option Z) : string :=
  match v with Some n => "Some(" +:+ format_pad 1 n +:+ ")" | None => "None" end.

Definition version_conflict e (o : MemoryObject) (expected : Z) : ThingdError :=
  Conflict ("Version mismatch for " +:+ (ob_key o).1 +:+ "/" +:+ (ob_key o).2
              +:+ ": expected " +:+ format_pad 1 expected
              +:+ ", got " +:+ debug_version (ob_version <$> objects e !! ob_key o)).

Definition version_matches e (o : MemoryObject) (expected : Z) : bool :=
  if expected =? 0 then negb (bool_decide (is_Some (objects e !! ob_key o)))
  else match objects e !! ob_key o with
       | Some existing => ob_version existing =? expected
       | None => false
       end.

Definition put_object_with_options e (now : string) (o : MemoryObject) (options : PutObjectOptions)
    : thingd_result MemoryObject * MemoryEngine :=
  match po_expected_version options with
  | Some expected => if version_matches e o expected then put_object e now o
                     else (Err (version_conflict e o expected), e)
  | None => put_object e now o
  end.

Definition put_object_with_source_metadata e (now : string) (o : MemoryObject)
    (options : PutObjectOptions) : thingd_result MemoryObject * MemoryEngine :=
  let put := match put_object e now o with
  | (Err error, e) => (Err error, e)
  | (Ok stored, e) =>
      let replicated := mkObject (ob_key stored) (ob_body stored)
        (if 0 <? ob_version o then ob_version o else ob_version stored)
        (if bool_decide (ob_created_at o = "") then ob_created_at stored else ob_created_at o)
        (if bool_decide (ob_updated_at o = "") then ob_updated_at stored else ob_updated_at o)
        (ob_vector stored) in
      (Ok replicated, set_objects e (<[ob_key o := replicated]> (objects e)) (vectors e))
  end in
  match po_expected_version options with
  | Some expected =>
      if bool_decide (ob_version <$> objects e !! ob_key o = Some expected) then put
      else (Err (version_conflict e o expected), e)
  | None => put
  end.

(** The trait's default batch: a loop that stops at the first error; each put reads
    the clock. *)
Fixpoint put_objects_batch e (os : list (string * MemoryObject))
    : thingd_result (list MemoryObject) * MemoryEngine :=
  match os with
  | [] => (Ok [], e)
  | (now, o) :: os =>
      match put_object e now o with
      | (Err error, e) => (Err error, e)
      | (Ok stored, e) =>
          match put_objects_batch e os with
          | (Err error, e) => (Err error, e)
          | (Ok results, e) => (Ok (stored :: results), e)
          end
      end
  end.

(** ** Reads and deletes *)

Definition get_object e (collection id : string) : thingd_result (option MemoryObject) :=
  Ok (objects e !! (collection, id)).

Definition get_objects_batch e (collection : string) (ids : list string)
    : thingd_result (list (option MemoryObject)) :=
  fold_res (fun out id => found ← get_object e collection id; Ok (out ++ [found])) [] ids.

Definition delete_object e (collection id : string) : thingd_result bool * MemoryEngine :=
  (Ok (bool_decide (is_Some (objects e !! (collection, id)))),
   set_objects e (delete (collection, id) (objects e)) (delete (collection, id) (vectors e))).

Fixpoint delete_objects_batch e (keys : list (string * string)) (count : Z)
    : thingd_result Z * MemoryEngine :=
  match keys with
  | [] => (Ok count, e)
  | (collection, id) :: keys =>
      match delete_object e collection id with
      | (Err error, e) => (Err error, e)
      | (Ok deleted, e) => delete_objects_batch e keys (if deleted : bool then count + 1 else count)
      end
  end.

Definition count_objects e : thingd_result Z := Ok (Z.of_nat (size (objects e))).

Definition count_objects_in_collection e (collection : string) : thingd_result Z :=
  Ok (zlen (List.filter (fun k => bool_decide (k.1 = collection)) (btree_keys (objects e)))).

Definition list_collections e : thingd_result (list string) :=
  Ok (dedup (sort_strings ((btree_keys (objects e)).*1))).

(** ** Listing *)

Definition is_operator (k : string) : bool :=
  existsb (fun op => bool_decide (k = op)) ["$gt"; "$gte"; "$lt"; "$lte"; "$ne"; "$in"; "$like"].

Definition apply_operator (fv : Value number) (op : string) (operand : Value number) : bool :=
  if bool_decide (op = "$gt") then bool_decide (value_compare fv operand = Gt) else
  if bool_decide (op = "$gte") then negb (bool_decide (value_compare fv operand = Lt)) else
  if bool_decide (op = "$lt") then bool_decide (value_compare fv operand = Lt) else
  if bool_decide (op = "$lte") then negb (bool_decide (value_compare fv operand = Gt)) else
  if bool_decide (op = "$ne") then negb (bool_decide (value_compare fv operand = Eq)) else
  if bool_decide (op = "$in") then
    match operand with JArray items => existsb (fun item => bool_decide (fv = item)) items | _ => false end else
  if bool_decide (op = "$like") then
    match fv, operand with JString s, JString pat => like_match s pat | _, _ => false end
  else true.

Definition matches_condition (body : Value number) (key : string) (expected : Value number) : bool :=
  let field_val := value_get body key in
  let plain := match field_val with Some v => bool_decide (v = expected) | None => false end in
  match expected with
  | JObject ops =>
      if existsb (fun op => is_operator op.1) ops then
        match field_val with
        | None => false
        | Some fv => forallb (fun op => apply_operator fv op.1 op.2) ops
        end
      else plain
  | _ => plain
  end.

Definition matches_filter (filter : list (string * Value number)) (o : MemoryObject) : bool :=
  if bool_decide (length filter = 0%nat) then true else
  match from_str (ob_body o) with
  | None => false
  | Some body => forallb (fun c => matches_condition body c.1 c.2) filter
  end.

(** [field.starts_with(dollar-dot)]. *)
Definition is_body_path (field : string) : bool := String.prefix "$." field.

Definition compare_objects (field : string) (a b : MemoryObject) : comparison :=
  if is_body_path field then
    let path := trim_dollars field in
    match body_field (ob_body a) path, body_field (ob_body b) path with
    | Some a, Some b => value_compare a b
    | Some _, None => Gt
    | None, Some _ => Lt
    | None, None => Eq
    end
  else if bool_decide (field = "id") then key_cmp (ob_key a).2 (ob_key b).2
  else if bool_decide (field = "collection") then key_cmp (ob_key a).1 (ob_key b).1
  else if bool_decide (field = "created_at") then key_cmp (ob_created_at a) (ob_created_at b)
  else if bool_decide (field = "updated_at") then key_cmp (ob_updated_at a) (ob_updated_at b)
  else if bool_decide (field = "version") then Z.compare (ob_version a) (ob_version b)
  else Eq.

Definition sort_cmp (s : SortBy) (a b : MemoryObject) : comparison :=
  match sb_direction s with
  | Asc => compare_objects (sb_field s) a b
  | Desc => CompOpp (compare_objects (sb_field s) a b)
  end.

Definition in_collections (collections : option (list string)) (o : MemoryObject) : bool :=
  match collections with
  | None => true
  | Some allowed => existsb (fun c => bool_decide (c = (ob_key o).1)) allowed
  end.

Definition list_objects e (collections : option (list string)) (options : ListObjectsOptions)
    : thingd_result (list MemoryObject) :=
  let os := List.filter (matches_filter (lo_filter options))
              (List.filter (in_collections collections) (btree_values (objects e))) in
  let os := match lo_sort_by options with Some s => sort_by (sort_cmp s) os | None => os end in
  let os := match lo_offset options with Some n => drop (Z.to_nat n) os | None => os end in
  Ok (match lo_limit options with Some n => take (Z.to_nat n) os | None => os end).

(** ** Schema documents *)

Definition get_schema_document e : thingd_result (option StoredSchema) := Ok (schema e).
Definition put_schema_document e (s : StoredSchema) : thingd_result unit * MemoryEngine :=
  (Ok (), set_schema e (Some s) (migrations e)).
Definition list_migrations e : thingd_result (list MigrationRecord) := Ok (btree_values (migrations e)).
Definition record_migration e (m : MigrationRecord) : thingd_result unit * MemoryEngine :=
  (Ok (), set_schema e (schema e) (<[mr_id m := m]> (migrations e))).
End objects.

(** ** The invariant of the object store *)

Section invariant.
Context `{SerdeJson}.
Implicit Types e : MemoryEngine.

(** The value an object contributes to an index, if any. *)
Definition index_value (o : MemoryObject) (index : IndexDefinition) : option (Value number) :=
  match body_field (ob_body o) (ix_field index) with
  | Some v => if is_null v then None else Some v
  | None => None
  end.

(** No two objects of the collection share an indexed value. *)
Definition index_unique (os : gmap ObjectKey MemoryObject) (index : IndexDefinition) : Prop :=
  forall o1 o2 k1 k2 v,
    os !! k1 = Some o1 -> os !! k2 = Some o2 ->
    k1.1 = ix_collection index -> k2.1 = ix_collection index ->
    index_value o1 index = Some v -> index_value o2 index = Some v -> k1 = k2.

Record object_inv e : Prop := {
  oi_keys : forall k o, objects e !! k = Some o -> ob_key o = k;
  oi_indexes : forall k ix, indexes e !! k = Some ix -> k = (ix_collection ix, ix_field ix);
  oi_unique : forall k ix, indexes e !! k = Some ix -> ix_unique ix = true -> index_unique (objects e) ix;
}.

Lemma index_value_Some o ix v :
  index_value o ix = Some v <-> body_field (ob_body o) (ix_field ix) = Some v /\ is_null v = false.
Proof.
  unfold index_value. destruct (body_field _ _) as [w|]; [|intuition congruence].
  destruct (is_null w) eqn:Hw; split; [done| |intros [= <-]; done|]; intros [[= ->] ?]; congruence.
Qed.

(** A validated object does not clash with any other object. *)
Lemma validate_unique_ok e o ix v k' o' :
  object_inv e -> validate_unique_indexes e o = Ok () ->
  indexes e !! (ix_collection ix, ix_field ix) = Some ix -> ix_unique ix = true ->
  (ob_key o).1 = ix_collection ix -> index_value o ix = Some v ->
  objects e !! k' = Some o' -> k'.1 = ix_collection ix -> index_value o' ix = Some v ->
  k' = ob_key o.
Proof.
  intros Hinv Hval Hix Hu Hc Hv Hk' Hc' Hv'. apply index_value_Some in Hv as [Hv Hn].
  apply index_value_Some in Hv' as [Hv' _]. pose proof (oi_keys _ Hinv _ _ Hk') as Hkey.
  unfold validate_unique_indexes in Hval. unfold body_field in Hv.
  destruct (from_str (ob_body o)) as [body|]; [|done].
  rewrite fold_res_unit, Forall_forall in Hval.
  assert (Hin : ix ∈ btree_values (indexes e)) by (apply elem_of_btree_values; eauto).
  specialize (Hval _ Hin). unfold check_index in Hval.
  rewrite Hu, bool_decide_true in Hval by done. cbn [andb] in Hval. rewrite Hv, Hn in Hval.
  destruct (duplicate_of e o ix v) eqn:Hd; [done|]. unfold duplicate_of in Hd.
  destruct (decide (k' = ob_key o)) as [|Hne]; [done|]. exfalso.
  rewrite <-not_true_iff_false, existsb_exists in Hd. apply Hd. exists o'. split.
  - apply list_elem_of_In, elem_of_btree_values. eauto.
  - rewrite Hkey, Hv', bool_decide_false by done. cbn [negb andb].
    rewrite !bool_decide_true by congruence. done.
Qed.

Lemma put_objects_inv e o stored vs :
  object_inv e -> validate_unique_indexes e o = Ok () ->
  ob_key stored = ob_key o -> ob_body stored = ob_body o ->
  object_inv (set_objects e (<[ob_key o := stored]> (objects e)) vs).
Proof.
  intros Hinv Hval Hkey Hbody. split; cbn [objects indexes set_objects].
  - intros k o'. rewrite lookup_insert_Some. intros [[<- <-]|[_ Hk]]; [done|]. by apply Hinv.
  - apply Hinv.
  - intros k ix Hix Hu o1 o2 k1 k2 v H1 H2 Hc1 Hc2 Hv1 Hv2.
    pose proof (oi_indexes _ Hinv _ _ Hix) as ->.
    assert (Hsame : forall w, index_value stored ix = Some w -> index_value o ix = Some w).
    { intros w. rewrite !index_value_Some, Hbody. done. }
    apply lookup_insert_Some in H1 as [[<- <-]|[Hn1 H1]]; apply lookup_insert_Some in H2 as [[<- <-]|[Hn2 H2]].
    + done.
    + symmetry. eapply (validate_unique_ok e o ix v k2 o2); eauto.
    + eapply (validate_unique_ok e o ix v k1 o1); eauto.
    + by eapply (oi_unique _ Hinv).
Qed.

Lemma put_object_cases e now o :
  (exists err, validate_unique_indexes e o = Err err /\ put_object e now o = (Err err, e)) \/
  (validate_unique_indexes e o = Ok () /\ exists stored vs,
     put_object e now o = (Ok stored, set_objects e (<[ob_key o := stored]> (objects e)) vs) /\
     ob_key stored = ob_key o /\ ob_body stored = ob_body o /\ ob_vector stored = ob_vector o /\
     ob_updated_at stored = now /\
     ob_version stored = match objects e !! ob_key o with
                         | Some existing => u64_wrapping_add (ob_version existing) 1
                         | None => 1 end /\
     vs !! ob_key o = ob_vector o /\ (forall k, k <> ob_key o -> vs !! k = vectors e !! k)).
Proof.
  unfold put_object. destruct (validate_unique_indexes e o) as [[]|err]; [right|left; by exists err].
  split; [done|]. eexists _, _. split; [reflexivity|]. cbn. split_and!; try done.
  - destruct (ob_vector o); by rewrite ?lookup_insert_eq, ?lookup_delete_eq.
  - intros k Hk. destruct (ob_vector o); by rewrite ?lookup_insert_ne, ?lookup_delete_ne by done.
Qed.

Lemma put_object_inv e now o : object_inv e -> object_inv (put_object e now o).2.
Proof.
  intros Hinv. destruct (put_object_cases e now o) as [(err&_&->)|(Hv&stored&vs&->&Hk&Hb&_)]; [done|].
  by apply put_objects_inv.
Qed.

Lemma put_source_inv e now o options :
  object_inv e -> object_inv (put_object_with_source_metadata e now o options).2.
Proof.
  intros Hinv. unfold put_object_with_source_metadata.
  assert (Hput : object_inv (match put_object e now o with
    | (Err error, e) => (Err error, e)
    | (Ok stored, e) =>
      let replicated := mkObject (ob_key stored) (ob_body stored)
        (if 0 <? ob_version o then ob_version o else ob_version stored)
        (if bool_decide (ob_created_at o = "") then ob_created_at stored else ob_created_at o)
        (if bool_decide (ob_updated_at o = "") then ob_updated_at stored else ob_updated_at o)
        (ob_vector stored) in
      (Ok replicated, set_objects e (<[ob_key o := replicated]> (objects e)) (vectors e))
    end).2).
  { destruct (put_object_cases e now o) as [(err&_&->)|(Hv&stored&vs&->&Hk&Hb&_)]; [done|].
    cbn [snd set_objects objects vectors events queues links next_event_sequence next_link_id
         event_idempotency_keys schema migrations indexes]. rewrite insert_insert_eq.
    by apply (put_objects_inv e o _ vs). }
  destruct (po_expected_version options) as [x|]; [|exact Hput].
  destruct (bool_decide (_ = Some x)); [exact Hput|exact Hinv].
Qed.

Lemma delete_object_inv e collection id : object_inv e -> object_inv (delete_object e collection id).2.
Proof.
  intros Hinv. split; cbn [objects indexes set_objects delete_object snd].
  - intros k o [_ Hk]%lookup_delete_Some. by apply Hinv.
  - apply Hinv.
  - intros k ix Hix Hu o1 o2 k1 k2 v [_ H1]%lookup_delete_Some [_ H2]%lookup_delete_Some.
    by eapply (oi_unique _ Hinv).
Qed.

Lemma delete_index_inv e collection field : object_inv e -> object_inv (delete_index e collection field).2.
Proof.
  intros Hinv. split; cbn [objects indexes set_indexes delete_index snd].
  - apply Hinv.
  - intros k ix [_ Hk]%lookup_delete_Some. by apply Hinv.
  - intros k ix [_ Hk]%lookup_delete_Some. by eapply (oi_unique _ Hinv).
Qed.

(** The scan that admits a unique index sees pairwise distinct values. *)
Lemma existing_values_distinct index (os : list MemoryObject) values0 values :
  fold_res (fun (values : list (Value number)) o =>
    if bool_decide ((ob_key o).1 = ix_collection index) then
      match body_field (ob_body o) (ix_field index) with
      | Some value =>
          if is_null value then Ok values
          else if existsb (fun existing => bool_decide (existing = value)) values
          then Err (Conflict ("cannot create unique index " +:+ ix_collection index +:+ "."
                                +:+ ix_field index +:+ ": existing values are duplicated"))
          else Ok (values ++ [value])
      | None => Ok values
      end
    else Ok values) values0 os = Ok values ->
  NoDup values0 ->
  NoDup values /\
  values = values0 ++ omap (fun o => if bool_decide ((ob_key o).1 = ix_collection index)
                                     then index_value o index else None) os.
Proof.
  revert values0. induction os as [|o os IH]; intros values0; cbn [fold_res].
  { intros [= ->] Hnd. cbn. by rewrite app_nil_r. }
  rewrite bind_Ok_inv. intros (values1&Hstep&Hrest) Hnd.
  cbn [omap list_omap]. unfold index_value. case_bool_decide as Hc; [|injection Hstep as <-; by apply IH].
  destruct (body_field _ _) as [v|]; [|injection Hstep as <-; by apply IH].
  destruct (is_null v); [injection Hstep as <-; by apply IH|].
  destruct (existsb _ _) eqn:He; [done|]. injection Hstep as <-.
  destruct (IH _ Hrest) as [Hnd' Heq].
  - apply NoDup_app. split_and!; [done| |apply NoDup_singleton]. intros w Hw ->%list_elem_of_singleton.
    rewrite <-not_true_iff_false, existsb_exists in He. apply He. exists v.
    split; [by apply list_elem_of_In|by apply bool_decide_true].
  - split; [done|]. rewrite Heq, <-app_assoc. done.
Qed.
End invariant.

(** ** Operations as data, and what they guarantee *)

Section runs.
Context `{SerdeJson}.
Implicit Types e : MemoryEngine.

Lemma omap_NoDup_inj {A B} (f : A -> option B) (l : list A) i j a b v :
  NoDup (omap f l) -> l !! i = Some a -> l !! j = Some b -> f a = Some v -> f b = Some v -> i = j.
Proof.
  assert (Hin : forall (l : list A) j b, l !! j = Some b -> f b = Some v -> v ∈ omap f l).
  { clear. intros l j b Hj Hb. apply list_elem_of_omap. exists b.
    split; [by eapply list_elem_of_lookup_2|done]. }
  revert i j. induction l as [|x l IH]; intros i j Hnd Hi Hj Ha Hb; [done|].
  cbn [omap list_omap] in Hnd.
  destruct i as [|i], j as [|j]; cbn in Hi, Hj; [done| | |].
  - injection Hi as ->. rewrite Ha in Hnd. apply NoDup_cons in Hnd as [Hv _].
    destruct Hv. by eapply Hin.
  - injection Hj as ->. rewrite Hb in Hnd. apply NoDup_cons in Hnd as [Hv _].
    destruct Hv. by eapply Hin.
  - f_equal. eapply IH; eauto. destruct (f x); [by apply NoDup_cons in Hnd as [_ ?]|done].
Qed.

Lemma existing_index_unique e ix :
  object_inv e -> validate_existing_unique_index e ix = Ok () -> index_unique (objects e) ix.
Proof.
  intros Hinv Hval o1 o2 k1 k2 v H1 H2 Hc1 Hc2 Hv1 Hv2.
  unfold validate_existing_unique_index in Hval. apply bind_Ok_inv in Hval as (values&Hfold&_).
  apply existing_values_distinct in Hfold as [Hnd Heq]; [|constructor].
  rewrite app_nil_l in Heq. rewrite Heq in Hnd.
  apply elem_of_btree_iter in H1 as Hi1. apply elem_of_btree_iter in H2 as Hi2.
  apply list_elem_of_lookup_1 in Hi1 as [i Hi1]. apply list_elem_of_lookup_1 in Hi2 as [j Hi2].
  assert (i = j) as ->; [|congruence].
  eapply (omap_NoDup_inj _ (btree_values (objects e)) i j o1 o2 v Hnd).
  - unfold btree_values. by rewrite list_lookup_fmap, Hi1.
  - unfold btree_values. by rewrite list_lookup_fmap, Hi2.
  - cbn. rewrite (oi_keys _ Hinv _ _ H1), bool_decide_true; done.
  - cbn. rewrite (oi_keys _ Hinv _ _ H2), bool_decide_true; done.
Qed.

Lemma create_index_inv e ix : object_inv e -> object_inv (create_index_definition e ix).2.
Proof.
  intros Hinv. unfold create_index_definition. destruct (_ || _); [done|].
  destruct (if ix_unique ix then _ else _) as [[]|err] eqn:Hval; [|done].
  split; cbn [objects indexes set_indexes snd].
  - apply Hinv.
  - intros k ix' [[<- <-]|[_ Hk]]%lookup_insert_Some; [done|]. by apply Hinv.
  - intros k ix' [[<- <-]|[_ Hk]]%lookup_insert_Some Hu; [|by eapply (oi_unique _ Hinv)].
    rewrite Hu in Hval. by apply existing_index_unique.
Qed.

(** The operations that change objects or indexes. *)
Inductive ObjectOp :=
| OpPut (now : string) (o : MemoryObject)
| OpPutWithOptions (now : string) (o : MemoryObject) (options : PutObjectOptions)
| OpPutWithSource (now : string) (o : MemoryObject) (options : PutObjectOptions)
| OpPutBatch (os : list (string * MemoryObject))
| OpDelete (collection id : string)
| OpCreateIndex (index : IndexDefinition)
| OpDeleteIndex (collection field : string).

Definition run_object_op e (op : ObjectOp) : MemoryEngine :=
  match op with
  | OpPut now o => (put_object e now o).2
  | OpPutWithOptions now o options => (put_object_with_options e now o options).2
  | OpPutWithSource now o options => (put_object_with_source_metadata e now o options).2
  | OpPutBatch os => (put_objects_batch e os).2
  | OpDelete collection id => (delete_object e collection id).2
  | OpCreateIndex index => (create_index_definition e index).2
  | OpDeleteIndex collection field => (delete_index e collection field).2
  end.

Lemma put_batch_inv e os : object_inv e -> object_inv (put_objects_batch e os).2.
Proof.
  revert e. induction os as [|[now o] os IH]; intros e Hinv; [done|]. cbn [put_objects_batch].
  pose proof (put_object_inv e now o Hinv) as Hp.
  destruct (put_object e now o) as [[stored|err] e1]; [|done]. cbn [snd] in Hp.
  pose proof (IH e1 Hp) as Hr. by destruct (put_objects_batch e1 os) as [[rs|err] e2].
Qed.

Lemma run_object_op_inv e op : object_inv e -> object_inv (run_object_op e op).
Proof.
  intros Hinv. destruct op; cbn [run_object_op].
  - by apply put_object_inv.
  - unfold put_object_with_options. destruct (po_expected_version options) as [x|]; [|by apply put_object_inv].
    destruct (version_matches e o x); [by apply put_object_inv|done].
  - by apply put_source_inv.
  - by apply put_batch_inv.
  - by apply delete_object_inv.
  - by apply create_index_inv.
  - by apply delete_index_inv.
Qed.

Lemma new_engine_inv : object_inv new_engine.
Proof. split; cbn; intros ?? Hk; by rewrite lookup_empty in Hk. Qed.

(** Sorting a list whose elements all compare equal does nothing. *)
Lemma sort_by_all_eq {A} (cmp : A -> A -> comparison) l :
  (forall x y, x ∈ l -> y ∈ l -> cmp x y = Eq) -> sort_by cmp l = l.
Proof.
  induction l as [|x l IH]; intros Heq; [done|].
  change (sort_by cmp (x :: l)) with (insert_by cmp x (sort_by cmp l)).
  rewrite IH by (intros; apply Heq; set_solver).
  destruct l as [|y l]; [done|]. cbn. by rewrite Heq by set_solver.
Qed.

(** The comparator is a total preorder for every metadata field. *)
Lemma sort_cmp_preorder s : is_body_path (sb_field s) = false -> CmpPreorder (sort_cmp s).
Proof.
  intros Hp.
  assert (Hc : CmpPreorder (compare_objects (sb_field s))).
  { unfold compare_objects. rewrite Hp.
    split.
    - intros x y. repeat case_bool_decide; try apply key_cmp_antisym; [apply Z.compare_antisym|done].
    - intros x y z. repeat case_bool_decide; try apply ord_le_trans; [|done].
      rewrite !Z.compare_gt_iff. lia. }
  destruct s as [f []]; unfold sort_cmp; cbn in *; [done|].
  split.
  - intros x y. by rewrite (cmp_antisym (cmp:=compare_objects f) x y).
  - intros x y z H1 H2. rewrite <-!(cmp_antisym (cmp:=compare_objects f)) in *.
    by apply (cmp_le_trans (cmp:=compare_objects f) z y x).
Qed.
End runs.

(** ** Properties *)

Section properties.
Context `{SerdeJson}.
Implicit Types e : MemoryEngine.

(** A refused put names a unique index on which another object already has the value. *)
Lemma validate_unique_Err e o err :
  validate_unique_indexes e o = Err err ->
  exists k ix k' o' v, indexes e !! k = Some ix /\ ix_unique ix = true /\
    ix_collection ix = (ob_key o).1 /\ err = unique_conflict ix /\
    objects e !! k' = Some o' /\ ob_key o' <> ob_key o /\ (ob_key o').1 = (ob_key o).1 /\
    index_value o ix = Some v /\ body_field (ob_body o') (ix_field ix) = Some v.
Proof.
  unfold validate_unique_indexes. destruct (from_str (ob_body o)) as [body|] eqn:Hb; [|done].
  intros (ix&Hin&Hc)%fold_res_unit_Err. apply elem_of_btree_values in Hin as [k Hk].
  unfold check_index in Hc. destruct (ix_unique ix) eqn:Hu; [|done].
  case_bool_decide as Hcol; [|done]. cbn [andb] in Hc.
  destruct (value_get body (ix_field ix)) as [v|] eqn:Hv; [|done].
  destruct (is_null v) eqn:Hn; [done|]. destruct (duplicate_of e o ix v) eqn:Hd; [|done].
  injection Hc as <-. unfold duplicate_of in Hd. apply existsb_exists in Hd as (o'&Ho'&Hcond).
  apply list_elem_of_In, elem_of_btree_values in Ho' as [k' Hk'].
  apply andb_true_iff in Hcond as [Hcond Hval]. apply andb_true_iff in Hcond as [Hkey Hcol'].
  apply negb_true_iff, bool_decide_eq_false in Hkey. apply bool_decide_eq_true in Hcol'.
  destruct (body_field (ob_body o') (ix_field ix)) as [w|] eqn:Hw; [|done].
  apply bool_decide_eq_true in Hval as ->.
  exists k, ix, k', o', v. split_and!; try done.
  apply index_value_Some. unfold body_field. by rewrite Hb.
Qed.

(** A put either stores the object — it can be read back, its version is one more
    than the previous version (1 for a new object), its vector entry follows the
    object, and no other object or vector changes — or it is refused because another
    object of the collection has the same value under a unique index, and nothing
    changes. *)
Theorem put_object_spec e now o :
  match put_object e now o with
  | (Ok stored, e') =>
      get_object e' (ob_key o).1 (ob_key o).2 = Ok (Some stored) /\
      ob_body stored = ob_body o /\ ob_updated_at stored = now /\
      ob_version stored = match objects e !! ob_key o with
                          | Some existing => u64_wrapping_add (ob_version existing) 1
                          | None => 1 end /\
      vectors e' !! ob_key o = ob_vector o /\
      (forall k, k <> ob_key o -> objects e' !! k = objects e !! k /\ vectors e' !! k = vectors e !! k) /\
      events e' = events e /\ queues e' = queues e /\ links e' = links e /\ indexes e' = indexes e
  | (Err err, e') =>
      e' = e /\ exists ix k' o' v, err = unique_conflict ix /\ ix_unique ix = true /\
        objects e !! k' = Some o' /\ ob_key o' <> ob_key o /\
        index_value o ix = Some v /\ body_field (ob_body o') (ix_field ix) = Some v
  end.
Proof.
  destruct (put_object_cases e now o) as [(err&Hval&->)|(_&stored&vs&->&Hk&Hb&_&Hn&Hver&Hv&Hvo)].
  - split; [done|]. apply validate_unique_Err in Hval as (k&ix&k'&o'&v&?). exists ix, k', o', v. naive_solver.
  - unfold get_object. destruct (ob_key o) as [c i] eqn:Hko. cbn [fst snd objects set_objects vectors].
    rewrite lookup_insert_eq. split_and!; try done.
    intros k Hk'. rewrite lookup_insert_ne by done. split; [done|]. by apply Hvo.
Qed.

(** C14. Unique indexes hold after every sequence of puts, conditional puts, replicated
    puts, batches, deletes and index changes: no two objects of the collection share
    a non-null value of the indexed field. *)
Theorem unique_indexes_hold (ops : list ObjectOp) k ix :
  let e := foldl run_object_op new_engine ops in
  indexes e !! k = Some ix -> ix_unique ix = true -> index_unique (objects e) ix.
Proof.
  intros e. assert (Hinv : object_inv e).
  { unfold e. generalize new_engine_inv. generalize new_engine.
    induction ops as [|op ops IH]; intros e0 H0; [done|]. by apply IH, run_object_op_inv. }
  apply (oi_unique _ Hinv).
Qed.

(** Optimistic locking excludes lost updates: after a put conditional on version [v]
    succeeded, a second put of the same object conditional on [v] is refused with a
    conflict and changes nothing; version 0 means the object must not exist. *)
Theorem conditional_put_excludes e e1 now1 now2 o1 o2 ix1 ix2 v stored :
  0 <= v < U64_MAX -> ob_key o2 = ob_key o1 ->
  put_object_with_options e now1 o1 (mkPutOptions ix1 (Some v)) = (Ok stored, e1) ->
  ob_version stored = v + 1 /\
  put_object_with_options e1 now2 o2 (mkPutOptions ix2 (Some v)) = (Err (version_conflict e1 o2 v), e1).
Proof.
  intros Hv Hkey Hput. unfold put_object_with_options in *. cbn [po_expected_version] in *.
  destruct (version_matches e o1 v) eqn:Hm; [|done].
  destruct (put_object_cases e now1 o1) as [(err&_&Heq)|(_&st&vs&Heq&_&_&_&_&Hver&_)];
    rewrite Heq in Hput; [done|]. injection Hput as -> <-.
  assert (Hs : ob_version stored = v + 1).
  { rewrite Hver. unfold version_matches in Hm. destruct (Z.eqb_spec v 0) as [->|Hne].
    - apply negb_true_iff, bool_decide_eq_false in Hm.
      destruct (objects e !! ob_key o1); [destruct Hm; eauto|done].
    - destruct (objects e !! ob_key o1) as [x|]; [|done]. apply Z.eqb_eq in Hm. rewrite Hm.
      unfold u64_wrapping_add. rewrite Z.mod_small; [done|]. unfold_ints. lia. }
  split; [done|]. unfold version_matches. rewrite Hkey. cbn [objects set_objects].
  rewrite lookup_insert_eq. destruct (Z.eqb_spec v 0) as [->|Hne].
  - rewrite bool_decide_true by eauto. done.
  - rewrite Hs. destruct (Z.eqb_spec (v + 1) v); [lia|done].
Qed.

(** Listing returns exactly the objects that are in the requested collections and
    satisfy the filter, in the requested metadata order, and an offset and limit cut
    a window out of that list. *)
Theorem list_objects_spec e cs filter s :
  is_body_path (sb_field s) = false ->
  exists all,
    list_objects e cs (mkListObjects filter (Some s) None None) = Ok all /\
    all ≡ₚ List.filter (matches_filter filter) (List.filter (in_collections cs) (btree_values (objects e))) /\
    (forall o, o ∈ all <->
       (exists k, objects e !! k = Some o) /\ in_collections cs o = true /\ matches_filter filter o = true) /\
    StronglySorted (fun a b => sort_cmp s a b <> Gt) all /\
    forall offset limit, list_objects e cs (mkListObjects filter (Some s) (Some limit) (Some offset))
      = Ok (take (Z.to_nat limit) (drop (Z.to_nat offset) all)).
Proof.
  intros Hp. eexists. split; [reflexivity|]. split_and!.
  - apply sort_by_perm.
  - intros o. cbn. rewrite elem_of_sort_by, !elem_of_filter_bool, elem_of_btree_values. tauto.
  - apply sort_by_sorted. by apply sort_cmp_preorder.
  - done.
Qed.

(** Sorting by a body path has no effect: the path [$.f] is looked up as the field
    [.f], so unless a body has a field of that name the listing comes back in key
    order, as if no sort had been requested. *)
Theorem body_path_sort_ignored e cs filter f dir limit offset :
  (forall k o, objects e !! k = Some o -> body_field (ob_body o) ("." +:+ f) = None) ->
  list_objects e cs (mkListObjects filter (Some (mkSortBy ("$." +:+ f) dir)) limit offset)
    = list_objects e cs (mkListObjects filter None limit offset).
Proof.
  intros Hnone. unfold list_objects. cbn [lo_sort_by lo_filter lo_limit lo_offset].
  rewrite sort_by_all_eq; [done|]. intros a b Ha Hb.
  apply elem_of_filter_bool in Ha as [Ha _]. apply elem_of_filter_bool in Ha as [Ha _].
  apply elem_of_filter_bool in Hb as [Hb _]. apply elem_of_filter_bool in Hb as [Hb _].
  apply elem_of_btree_values in Ha as [ka Ha]. apply elem_of_btree_values in Hb as [kb Hb].
  assert (Heq : compare_objects ("$." +:+ f) a b = Eq).
  { unfold compare_objects. change (is_body_path ("$." +:+ f)) with (String.prefix "" f).
    replace (String.prefix "" f) with true by (by destruct f).
    change (trim_dollars ("$." +:+ f)) with ("." +:+ f).
    by rewrite (Hnone _ _ Ha), (Hnone _ _ Hb). }
  unfold sort_cmp. cbn [sb_direction sb_field]. rewrite Heq. by destruct dir.
Qed.
End properties.

(** [$like] is not SQL [LIKE]: an underscore matches only itself, and a pattern without
    [%] matches anywhere in the string. *)
Lemma like_match_not_sql :
  like_match "abc" "a_c" = false /\ like_match "abc" "a%c" = true /\ like_match "xabcx" "abc" = true.
Proof. vm_compute. done. Qed.

(** ** Witnesses *)

(** A concrete instance: every body is an object whose field [email] is the body text. *)
Definition sample_json : SerdeJson := {|
  number := Z;
  as_f64 := fun _ => None;
  from_str := fun s => Some (JObject [("email", JString s)]);
  display_value := fun _ => "";
|}.

Section witnesses.
#[local] Existing Instance sample_json.

Definition sample_index : IndexDefinition := mkIndex "users" "email" true.
Definition sample_ops : list ObjectOp :=
  [OpCreateIndex sample_index; OpPut "t1" (new_object "users" "a" "x@y");
   OpPut "t2" (new_object "users" "b" "x@y"); OpPut "t3" (new_object "users" "c" "z@y")].

Lemma unique_indexes_hold_witness :
  index_unique (objects (foldl run_object_op new_engine sample_ops)) sample_index.
Proof.
  refine (unique_indexes_hold sample_ops ("users", "email") sample_index _ _); vm_compute; reflexivity.
Defined.

Definition sample_e1 : MemoryEngine :=
  (put_object_with_options new_engine "t1" (new_object "users" "a" "x") (mkPutOptions true (Some 0))).2.

Lemma conditional_put_excludes_witness :
  0 + 1 = 0 + 1 /\
  put_object_with_options sample_e1 "t2" (new_object "users" "a" "y") (mkPutOptions true (Some 0))
    = (Err (version_conflict sample_e1 (new_object "users" "a" "y") 0), sample_e1).
Proof.
  refine (conditional_put_excludes new_engine sample_e1 "t1" "t2" (new_object "users" "a" "x")
    (new_object "users" "a" "y") true true 0
    (mkObject ("users", "a") "x" 1 "t1" "t1" None) _ _ _); [unfold_ints; lia|reflexivity|vm_compute; reflexivity].
Defined.

Lemma list_objects_spec_witness :
  exists all,
    list_objects sample_e1 None (mkListObjects [] (Some (mkSortBy "version" Desc)) None None) = Ok all /\
    all ≡ₚ List.filter (matches_filter []) (List.filter (in_collections None) (btree_values (objects sample_e1))) /\
    (forall o, o ∈ all <->
       (exists k, objects sample_e1 !! k = Some o) /\ in_collections None o = true /\ matches_filter [] o = true) /\
    StronglySorted (fun a b => sort_cmp (mkSortBy "version" Desc) a b <> Gt) all /\
    forall offset limit, list_objects sample_e1 None
        (mkListObjects [] (Some (mkSortBy "version" Desc)) (Some limit) (Some offset))
      = Ok (take (Z.to_nat limit) (drop (Z.to_nat offset) all)).
Proof. refine (list_objects_spec sample_e1 None [] (mkSortBy "version" Desc) _). reflexivity. Defined.

(** Two objects whose emails are in the opposite order of their ids. *)
Definition sample_e2 : MemoryEngine :=
  (put_object (put_object new_engine "t1" (new_object "u" "1" "b")).2 "t2" (new_object "u" "2" "a")).2.

Lemma body_path_sort_ignored_witness :
  list_objects sample_e2 None (mkListObjects [] (Some (mkSortBy "$.email" Asc)) None None)
    = list_objects sample_e2 None (mkListObjects [] None None None).
Proof.
  refine (body_path_sort_ignored sample_e2 None [] "email" Asc None None _). intros k o _. reflexivity.
Defined.
End witnesses.
