(* ===== verification/Queue.v ===== *)
(** * thingd: queues of the in-memory engine

    Models [impl QueueStore for MemoryEngine] of [crates/thingd/src/in_memory.rs]
    with the default methods of the [QueueStore] trait of [store.rs].  A queue is
    a [VecDeque<QueueJob>]; a job is found by scanning for its id.  Every clock
    reading of an operation is an argument of it. *)

From S2P Require Import Prelude Model.

(** ** Operations *)

Definition MAX_QUEUE_BATCH_ITEMS : Z := 1000.

(** [iter_mut().find(p)] followed by an update of the job found: the updated
    job and the queue. *)
Fixpoint find_mut (p : QueueJob -> bool) (f : QueueJob -> QueueJob) (jobs : list QueueJob)
    : option (QueueJob * list QueueJob) :=
  match jobs with
  | [] => None
  | j :: jobs =>
      if p j then Some (f j, f j :: jobs)
      else '(found, jobs) ← find_mut p f jobs; Some (found, j :: jobs)
  end.

Definition has_id (id : string) (j : QueueJob) : bool := bool_decide (jb_id j = id).

(** [queues.get_mut(queue)?.iter_mut().find(|job| job.id == id)], read-only part. *)
Definition find_job (e : MemoryEngine) (queue id : string) : option QueueJob :=
  jobs ← queues e !! queue; List.find (has_id id) jobs.

Definition set_queue (e : MemoryEngine) (queue : string) (jobs : list QueueJob) : MemoryEngine :=
  set_queues e (<[queue := jobs]> (queues e)).

Definition push_job (e : MemoryEngine) (job : QueueJob) : thingd_result QueueJob * MemoryEngine :=
  let jobs := default [] (queues e !! jb_queue job) in
  match List.find (has_id (jb_id job)) jobs with
  | Some existing => (Ok existing, set_queue e (jb_queue job) jobs)
  | None => (Ok job, set_queue e (jb_queue job) (jobs ++ [job]))
  end.

Fixpoint push_jobs_batch (e : MemoryEngine) (jobs : list QueueJob)
    : thingd_result (list QueueJob) * MemoryEngine :=
  match jobs with
  | [] => (Ok [], e)
  | job :: jobs =>
      match push_job e job with
      | (Err err, e) => (Err err, e)
      | (Ok pushed, e) =>
          match push_jobs_batch e jobs with
          | (Ok results, e) => (Ok (pushed :: results), e)
          | (Err err, e) => (Err err, e)
          end
      end
  end.

Definition lease_expired (now : Z) (j : QueueJob) : bool :=
  bool_decide (jb_status j = Leased) &&
  match jb_lease_expires_at_ms j with Some expires => expires <=? now | None => false end.

Definition release_lease (j : QueueJob) : QueueJob :=
  mkJob (jb_queue j) (jb_id j) (jb_body j) (jb_attempts j) (jb_max_attempts j) Ready
    (jb_available_at_ms j) None None (jb_completed_at_ms j)
    (jb_dead_at_ms j) (jb_created_at j) (jb_last_error j) (jb_priority j).

Definition release_if_expired (now : Z) (j : QueueJob) : QueueJob :=
  if lease_expired now j then release_lease j else j.

Definition release_expired_leases (e : MemoryEngine) (now : Z) (queue : string) : MemoryEngine :=
  match queues e !! queue with
  | None => e
  | Some jobs => set_queue e queue (map (release_if_expired now) jobs)
  end.

Definition claimable (now : Z) (j : QueueJob) : bool :=
  bool_decide (jb_status j = Ready) && (jb_available_at_ms j <=? now).

(** [sort_by_key(|job| Reverse(job.priority))]. *)
Definition priority_cmp (a b : QueueJob) : comparison := Z.compare (jb_priority b) (jb_priority a).

Definition set_leased (j : QueueJob) (attempts now : Z) (options : QueueClaimOptions) : QueueJob :=
  mkJob (jb_queue j) (jb_id j) (jb_body j) attempts (jb_max_attempts j) Leased
    (jb_available_at_ms j) (Some now)
    (Some (i64_saturating_add now (u64_to_i64 (qc_lease_ms options)))) (jb_completed_at_ms j)
    (jb_dead_at_ms j) (jb_created_at j) (jb_last_error j) (jb_priority j).

(** [now] is the reading of [release_expired_leases], [now'] the one of the claim. *)
Definition claim_job_with_options (e : MemoryEngine) (now now' : Z) (queue : string)
    (options : QueueClaimOptions) : thingd_result (option QueueJob) * MemoryEngine :=
  let e := release_expired_leases e now queue in
  match queues e !! queue with
  | None => (Ok None, e)
  | Some jobs =>
      let jobs := sort_by priority_cmp jobs in
      match find_mut (claimable now')
              (fun j => set_leased j (u32_wrapping_add (jb_attempts j) 1) now' options) jobs with
      | None => (Ok None, set_queue e queue jobs)
      | Some (job, jobs) => (Ok (Some job), set_queue e queue jobs)
      end
  end.

Definition claim_job (e : MemoryEngine) (now now' : Z) (queue : string) :=
  claim_job_with_options e now now' queue default_claim_options.

(** [iter_mut().filter(p).take(limit).map(f)]: the updated jobs and the queue. *)
Fixpoint update_matching (p : QueueJob -> bool) (f : QueueJob -> QueueJob) (limit : nat)
    (jobs : list QueueJob) : list QueueJob * list QueueJob :=
  match limit, jobs with
  | O, _ | _, [] => ([], jobs)
  | S rest, j :: jobs =>
      if p j then let '(taken, jobs) := update_matching p f rest jobs in (f j :: taken, f j :: jobs)
      else let '(taken, jobs) := update_matching p f limit jobs in (taken, j :: jobs)
  end.

Definition claim_jobs_with_options (e : MemoryEngine) (now now' : Z) (queue : string)
    (options : QueueClaimOptions) (limit : Z) : thingd_result (list QueueJob) * MemoryEngine :=
  if MAX_QUEUE_BATCH_ITEMS <? limit
  then (Err (InvalidInput "queue claim batch exceeds the maximum of 1000 jobs"), e) else
  if limit =? 0 then (Ok [], e) else
  let e := release_expired_leases e now queue in
  match queues e !! queue with
  | None => (Ok [], e)
  | Some jobs =>
      let '(claimed, jobs) :=
        update_matching (claimable now')
          (fun j => set_leased j (u32_saturating_add (jb_attempts j) 1) now' options)
          (Z.to_nat limit) (sort_by priority_cmp jobs) in
      (Ok claimed, set_queue e queue jobs)
  end.

Definition set_completed (now : Z) (j : QueueJob) : QueueJob :=
  mkJob (jb_queue j) (jb_id j) (jb_body j) (jb_attempts j) (jb_max_attempts j) Completed
    (jb_available_at_ms j) (jb_leased_at_ms j) (jb_lease_expires_at_ms j) (Some now)
    (jb_dead_at_ms j) (jb_created_at j) (jb_last_error j) (jb_priority j).

(** [find_job_mut] followed by an update: nothing happens unless the job exists. *)
Definition update_job (e : MemoryEngine) (queue id : string) (f : QueueJob -> QueueJob)
    : option (QueueJob * MemoryEngine) :=
  jobs ← queues e !! queue;
  '(job, jobs) ← find_mut (has_id id) f jobs;
  Some (job, set_queue e queue jobs).

Definition ack_job (e : MemoryEngine) (now : Z) (queue id : string)
    : thingd_result (option QueueJob) * MemoryEngine :=
  match find_job e queue id with
  | None => (Ok None, e)
  | Some job =>
      if bool_decide (jb_status job <> Leased)
      then (Err (Conflict ("job " +:+ id +:+ " must be leased before ack")), e) else
      match update_job e queue id (set_completed now) with
      | Some (job, e) => (Ok (Some job), e)
      | None => (Ok None, e)
      end
  end.

(** [ids.iter().any(|id| !unique_ids.insert(id))]. *)
Fixpoint has_duplicate (seen : gset string) (ids : list string) : bool :=
  match ids with
  | [] => false
  | id :: ids => bool_decide (id ∈ seen) || has_duplicate ({[id]} ∪ seen) ids
  end.

Definition check_leased (queue : string) (jobs : list QueueJob) (id : string) : thingd_result unit :=
  match List.find (has_id id) jobs with
  | None => Err (Conflict ("job " +:+ id +:+ " was not found in queue '" +:+ queue +:+ "'"))
  | Some job =>
      if bool_decide (jb_status job <> Leased)
      then Err (Conflict ("job " +:+ id +:+ " must be leased before batch ack")) else Ok ()
  end.

(** The completing pass; [None] is the panic of [expect("job validated above")]. *)
Fixpoint complete_all (now : Z) (ids : list string) (jobs : list QueueJob)
    : option (list QueueJob * list QueueJob) :=
  match ids with
  | [] => Some ([], jobs)
  | id :: ids =>
      '(job, jobs) ← find_mut (has_id id) (set_completed now) jobs;
      '(done, jobs) ← complete_all now ids jobs;
      Some (job :: done, jobs)
  end.

(** [None] is a panic. *)
Definition ack_jobs (e : MemoryEngine) (now : Z) (queue : string) (ids : list string)
    : option (thingd_result (list QueueJob) * MemoryEngine) :=
  if MAX_QUEUE_BATCH_ITEMS <? zlen ids
  then Some (Err (InvalidInput "queue ack batch exceeds the maximum of 1000 jobs"), e) else
  if has_duplicate ∅ ids
  then Some (Err (InvalidInput "queue ack batch contains duplicate job IDs"), e) else
  if bool_decide (ids = []) then Some (Ok [], e) else
  match queues e !! queue with
  | None => Some (Err (Conflict ("queue '" +:+ queue +:+ "' does not contain the leased jobs")), e)
  | Some jobs =>
      match fold_res (fun _ id => check_leased queue jobs id) () ids with
      | Err err => Some (Err err, e)
      | Ok _ =>
          '(completed, jobs) ← complete_all now ids jobs;
          Some (Ok completed, set_queue e queue jobs)
      end
  end.

Definition claim_and_ack (e : MemoryEngine) (now now' now'' : Z) (queue : string)
    (options : QueueClaimOptions) : thingd_result (option QueueJob) * MemoryEngine :=
  match claim_job_with_options e now now' queue options with
  | (Ok (Some job), e) => ack_job e now'' queue (jb_id job)
  | (Ok None, e) => (Ok None, e)
  | (Err err, e) => (Err err, e)
  end.

(** [clock n] holds the three readings of the [n]th round from the end. *)
Fixpoint claim_and_ack_batch (e : MemoryEngine) (clock : nat -> Z * Z * Z) (queue : string)
    (options : QueueClaimOptions) (limit : nat) : thingd_result (list QueueJob) * MemoryEngine :=
  match limit with
  | O => (Ok [], e)
  | S rest =>
      match claim_and_ack e (clock rest).1.1 (clock rest).1.2 (clock rest).2 queue options with
      | (Err err, e) => (Err err, e)
      | (Ok None, e) => (Ok [], e)
      | (Ok (Some job), e) =>
          match claim_and_ack_batch e clock queue options rest with
          | (Ok completed, e) => (Ok (job :: completed), e)
          | (Err err, e) => (Err err, e)
          end
      end
  end.

Definition set_nacked (now : Z) (options : QueueNackOptions) (j : QueueJob) : QueueJob :=
  let last_error := if bool_decide (qn_error options = "") then jb_last_error j else qn_error options in
  if jb_max_attempts j <=? jb_attempts j then
    mkJob (jb_queue j) (jb_id j) (jb_body j) (jb_attempts j) (jb_max_attempts j) Dead
      (jb_available_at_ms j) None None (jb_completed_at_ms j)
      (Some now) (jb_created_at j) last_error (jb_priority j)
  else
    mkJob (jb_queue j) (jb_id j) (jb_body j) (jb_attempts j) (jb_max_attempts j) Ready
      (i64_saturating_add now (u64_to_i64 (qn_delay_ms options))) None None (jb_completed_at_ms j)
      (jb_dead_at_ms j) (jb_created_at j) last_error (jb_priority j).

Definition nack_job_with_options (e : MemoryEngine) (now : Z) (queue id : string)
    (options : QueueNackOptions) : thingd_result (option QueueJob) * MemoryEngine :=
  match find_job e queue id with
  | None => (Ok None, e)
  | Some job =>
      if bool_decide (jb_status job <> Leased)
      then (Err (Conflict ("job " +:+ id +:+ " must be leased before nack")), e) else
      match update_job e queue id (set_nacked now options) with
      | Some (job, e) => (Ok (Some job), e)
      | None => (Ok None, e)
      end
  end.

Definition nack_job (e : MemoryEngine) (now : Z) (queue id : string) :=
  nack_job_with_options e now queue id (mkNackOptions 0 "").

Definition list_jobs (e : MemoryEngine) (queue : string) : thingd_result (list QueueJob) :=
  Ok (default [] (queues e !! queue)).

Definition is_dead (j : QueueJob) : bool := bool_decide (jb_status j = Dead).
Definition is_active (j : QueueJob) : bool :=
  bool_decide (jb_status j = Ready) || bool_decide (jb_status j = Leased).

Definition list_dead_jobs (e : MemoryEngine) (queue : string) : thingd_result (list QueueJob) :=
  Ok (List.filter is_dead (default [] (queues e !! queue))).

Definition list_queues (e : MemoryEngine) : thingd_result (list string) :=
  Ok (sort_by key_cmp (btree_keys (queues e))).

Definition count_active_jobs (e : MemoryEngine) : thingd_result Z :=
  Ok (zlen (List.filter is_active (concat (btree_values (queues e))))).
Definition count_dead_jobs (e : MemoryEngine) : thingd_result Z :=
  Ok (zlen (List.filter is_dead (concat (btree_values (queues e))))).

(** ** The life of a job

    Each operation moves a job along these transitions and leaves the queue's
    other jobs alone. *)

Inductive job_step : QueueJob -> QueueJob -> Prop :=
| step_claim j attempts now options :
    jb_status j = Ready -> jb_available_at_ms j <= now ->
    attempts = u32_wrapping_add (jb_attempts j) 1 \/ attempts = u32_saturating_add (jb_attempts j) 1 ->
    job_step j (set_leased j attempts now options)
| step_expire j now expires :
    jb_status j = Leased -> jb_lease_expires_at_ms j = Some expires -> expires <= now ->
    job_step j (release_lease j)
| step_ack j now : jb_status j = Leased -> job_step j (set_completed now j)
| step_nack j now options : jb_status j = Leased -> job_step j (set_nacked now options j).

(** What a step keeps, and the states that end a job's life. *)
Definition job_identity (j : QueueJob) :=
  (jb_queue j, jb_id j, jb_body j, jb_max_attempts j, jb_created_at j, jb_priority j).
Definition is_terminal (j : QueueJob) : Prop := jb_status j = Completed \/ jb_status j = Dead.

Lemma set_nacked_identity now options j : job_identity (set_nacked now options j) = job_identity j.
Proof. unfold set_nacked. by destruct (_ <=? _). Qed.

Lemma job_step_identity j j' : job_step j j' -> job_identity j' = job_identity j.
Proof. destruct 1; [done..|apply set_nacked_identity]. Qed.

Lemma job_step_terminal j j' : job_step j j' -> ~ is_terminal j.
Proof. destruct 1; unfold is_terminal; intros [?|?]; congruence. Qed.

Lemma job_steps_identity j j' : rtc job_step j j' -> job_identity j' = job_identity j.
Proof. induction 1 as [|a b c Hs _ IH]; [done|]. rewrite IH. by apply job_step_identity. Qed.

Lemma job_steps_terminal j j' : rtc job_step j j' -> is_terminal j -> j' = j.
Proof. destruct 1 as [|a b c Hs _]; [done|]. intros Ht. by destruct (job_step_terminal _ _ Hs). Qed.

Lemma identity_id j j' : job_identity j' = job_identity j -> jb_id j' = jb_id j.
Proof. by injection 1. Qed.

Lemma identity_queue j j' : job_identity j' = job_identity j -> jb_queue j' = jb_queue j.
Proof. by injection 1. Qed.

(** ** In-place updates of a queue *)

Section updates.
Implicit Types (p : QueueJob -> bool) (f : QueueJob -> QueueJob) (jobs : list QueueJob).

Lemma find_mut_Some p f jobs j' jobs' :
  find_mut p f jobs = Some (j', jobs') <->
  exists pre j post, jobs = pre ++ j :: post /\ Forall (fun k => p k = false) pre /\ p j = true /\
    j' = f j /\ jobs' = pre ++ f j :: post.
Proof.
  split.
  - revert j' jobs'. induction jobs as [|k jobs IH]; intros j' jobs'; cbn [find_mut]; [done|].
    destruct (p k) eqn:Hp.
    + intros [= <- <-]. by exists [], k, jobs.
    + destruct (find_mut p f jobs) as [[x l]|]; cbn; [|done]. intros [= -> <-].
      destruct (IH j' l eq_refl) as (pre&j&post&->&Hpre&Hj&->&->).
      exists (k :: pre), j, post. split_and!; try done. by constructor.
  - intros (pre&j&post&->&Hpre&Hp&->&->). induction Hpre as [|k pre Hk _ IH]; cbn.
    + by rewrite Hp.
    + rewrite Hk. cbn in IH. rewrite IH. done.
Qed.

Lemma find_mut_None p f jobs : find_mut p f jobs = None <-> Forall (fun k => p k = false) jobs.
Proof.
  induction jobs as [|k jobs IH]; cbn; [by split|]. destruct (p k) eqn:Hp.
  - split; [done|]. intros H%Forall_cons. by destruct H as [? _]; congruence.
  - rewrite Forall_cons. destruct (find_mut p f jobs) as [[x l]|]; cbn.
    + split; [done|]. intros [_ H]. by apply IH in H.
    + split; [|done]. intros _. split; [done|]. by apply IH.
Qed.

Lemma find_Some_split p jobs j :
  List.find p jobs = Some j <->
  exists pre post, jobs = pre ++ j :: post /\ Forall (fun k => p k = false) pre /\ p j = true.
Proof.
  split.
  - induction jobs as [|k jobs IH]; cbn; [done|]. destruct (p k) eqn:Hp.
    + intros [= ->]. by exists [], jobs.
    + intros (pre&post&->&Hpre&Hj)%IH. exists (k :: pre), post. split_and!; [done|by constructor|done].
  - intros (pre&post&->&Hpre&Hp). induction Hpre as [|k pre Hk _ IH]; cbn; [by rewrite Hp|].
    by rewrite Hk.
Qed.

Lemma find_mut_find p f jobs j :
  List.find p jobs = Some j -> exists jobs', find_mut p f jobs = Some (f j, jobs').
Proof.
  intros (pre&post&->&Hpre&Hp)%find_Some_split. exists (pre ++ f j :: post).
  apply find_mut_Some. by exists pre, j, post.
Qed.
End updates.

(** [evolves jobs jobs']: [jobs'] holds the jobs of [jobs], each moved along its
    transitions, in some order. *)
Definition evolves (jobs jobs' : list QueueJob) : Prop :=
  exists mid, Forall2 (rtc job_step) jobs mid /\ mid ≡ₚ jobs'.

Lemma Forall2_steps_refl jobs : Forall2 (rtc job_step) jobs jobs.
Proof. induction jobs; by constructor. Qed.

Lemma evolves_perm jobs jobs' : jobs ≡ₚ jobs' -> evolves jobs jobs'.
Proof. intros Hp. exists jobs. split; [apply Forall2_steps_refl|done]. Qed.

Lemma evolves_pointwise jobs jobs' : Forall2 (rtc job_step) jobs jobs' -> evolves jobs jobs'.
Proof. by exists jobs'. Qed.

Lemma evolves_refl jobs : evolves jobs jobs.
Proof. by apply evolves_perm. Qed.

Lemma Forall2_steps_trans a b c :
  Forall2 (rtc job_step) a b -> Forall2 (rtc job_step) b c -> Forall2 (rtc job_step) a c.
Proof.
  intros H1. revert c. induction H1 as [|x y a b Hxy _ IH]; intros c; inversion 1; subst; constructor.
  - by etrans.
  - by apply IH.
Qed.

Lemma evolves_trans a b c : evolves a b -> evolves b c -> evolves a c.
Proof.
  intros (m1&H1&Hp1) (m2&H2&Hp2).
  destruct (Permutation_Forall2 (Permutation_sym Hp1) H2) as (m&Hp&Hm).
  exists m. split; [by eapply Forall2_steps_trans|]. by rewrite <-Hp.
Qed.

Lemma evolves_ids jobs jobs' : evolves jobs jobs' -> map jb_id jobs' ≡ₚ map jb_id jobs.
Proof.
  intros (mid&H&Hp). rewrite <-(Permutation_map jb_id Hp). clear Hp.
  induction H as [|x y a b Hxy _ IH]; cbn; [done|].
  by rewrite IH, (identity_id x y) by (by apply job_steps_identity).
Qed.

Lemma evolves_elem jobs jobs' j : evolves jobs jobs' -> j ∈ jobs -> exists j', j' ∈ jobs' /\ rtc job_step j j'.
Proof.
  intros (mid&H&Hp) Hj. apply list_elem_of_lookup_1 in Hj as [i Hi].
  destruct (Forall2_lookup_l _ _ _ _ _ H Hi) as (j'&Hi'&Hs).
  exists j'. split; [|done]. rewrite <-Hp. by eapply list_elem_of_lookup_2.
Qed.

Lemma evolves_elem_r jobs jobs' j' : evolves jobs jobs' -> j' ∈ jobs' -> exists j, j ∈ jobs /\ rtc job_step j j'.
Proof.
  intros (mid&H&Hp) Hj. rewrite <-Hp in Hj. apply list_elem_of_lookup_1 in Hj as [i Hi].
  destruct (Forall2_lookup_r _ _ _ _ _ H Hi) as (j&Hi'&Hs).
  exists j. split; [by eapply list_elem_of_lookup_2|done].
Qed.

(** The updates of the operations are transitions. *)

Lemma find_mut_evolves p f jobs j' jobs' :
  (forall j, p j = true -> List.find p jobs = Some j -> job_step j (f j)) ->
  find_mut p f jobs = Some (j', jobs') -> evolves jobs jobs'.
Proof.
  intros Hstep (pre&j&post&->&Hpre&Hp&->&->)%find_mut_Some. apply evolves_pointwise.
  apply Forall2_app; [apply Forall2_steps_refl|]. constructor; [|apply Forall2_steps_refl].
  apply rtc_once, Hstep; [done|]. apply find_Some_split. eauto.
Qed.

Lemma update_matching_evolves p f limit jobs :
  (forall j, p j = true -> job_step j (f j)) -> evolves jobs (update_matching p f limit jobs).2.
Proof.
  intros Hstep. apply evolves_pointwise. revert limit.
  induction jobs as [|j jobs IH]; intros [|limit]; cbn [update_matching snd]; try apply Forall2_steps_refl.
  destruct (p j) eqn:Hp.
  - specialize (IH limit). destruct (update_matching p f limit jobs). constructor; [|done].
    by apply rtc_once, Hstep.
  - specialize (IH (S limit)). destruct (update_matching p f (S limit) jobs). by constructor.
Qed.

Lemma release_evolves now jobs : evolves jobs (map (release_if_expired now) jobs).
Proof.
  apply evolves_pointwise. induction jobs as [|j jobs IH]; constructor; [|done].
  unfold release_if_expired, lease_expired. destruct (decide (jb_status j = Leased)) as [Hs|Hs].
  - rewrite bool_decide_true by done. destruct (jb_lease_expires_at_ms j) as [t|] eqn:Ht; [|done].
    destruct (Z.leb_spec t now); cbn; [|done]. by eapply rtc_once, step_expire.
  - by rewrite bool_decide_false.
Qed.

Lemma claimable_true now j :
  claimable now j = true <-> jb_status j = Ready /\ jb_available_at_ms j <= now.
Proof. unfold claimable. rewrite andb_true_iff, bool_decide_eq_true, Z.leb_le. done. Qed.

(** ** The invariant *)

(** The timestamps a job carries in each state. *)
Definition job_ok (j : QueueJob) : Prop :=
  match jb_status j with
  | Ready => jb_leased_at_ms j = None /\ jb_lease_expires_at_ms j = None /\
             jb_completed_at_ms j = None /\ jb_dead_at_ms j = None
  | Leased => is_Some (jb_leased_at_ms j) /\ is_Some (jb_lease_expires_at_ms j) /\
              jb_completed_at_ms j = None /\ jb_dead_at_ms j = None
  | Completed => is_Some (jb_completed_at_ms j) /\ jb_dead_at_ms j = None
  | Dead => is_Some (jb_dead_at_ms j) /\ jb_completed_at_ms j = None /\
            jb_lease_expires_at_ms j = None /\ jb_max_attempts j <= jb_attempts j
  end.

Record queue_ok (queue : string) (jobs : list QueueJob) : Prop := {
  qo_ids : NoDup (map jb_id jobs);
  qo_queue : Forall (fun j => jb_queue j = queue) jobs;
  qo_jobs : Forall job_ok jobs;
}.

Definition queue_inv (e : MemoryEngine) : Prop :=
  forall queue jobs, queues e !! queue = Some jobs -> queue_ok queue jobs.

Lemma job_step_ok j j' : job_step j j' -> job_ok j -> job_ok j'.
Proof.
  unfold job_ok. destruct 1 as [j ??? Hs _ _|j ?? Hs _ _|j ? Hs|j now options Hs]; rewrite Hs; cbn.
  - naive_solver.
  - naive_solver.
  - naive_solver.
  - unfold set_nacked. destruct (Z.leb_spec (jb_max_attempts j) (jb_attempts j)); cbn; naive_solver.
Qed.

Lemma job_steps_ok j j' : rtc job_step j j' -> job_ok j -> job_ok j'.
Proof. induction 1; eauto using job_step_ok. Qed.

Lemma evolves_ok queue jobs jobs' : evolves jobs jobs' -> queue_ok queue jobs -> queue_ok queue jobs'.
Proof.
  intros Hev [Hids Hq Hok]. split.
  - by rewrite evolves_ids.
  - apply Forall_forall. intros j' Hj'. destruct (evolves_elem_r _ _ _ Hev Hj') as (j&Hj&Hs).
    rewrite (identity_queue j j') by (by apply job_steps_identity). by rewrite Forall_forall in Hq; apply Hq.
  - apply Forall_forall. intros j' Hj'. destruct (evolves_elem_r _ _ _ Hev Hj') as (j&Hj&Hs).
    rewrite Forall_forall in Hok. eauto using job_steps_ok.
Qed.

(** A job is found by its id. *)
Lemma has_id_true id j : has_id id j = true <-> jb_id j = id.
Proof. apply bool_decide_eq_true. Qed.

Lemma NoDup_ids_inj jobs j k :
  NoDup (map jb_id jobs) -> j ∈ jobs -> k ∈ jobs -> jb_id j = jb_id k -> j = k.
Proof.
  intros Hnd Hj Hk Heq. apply list_elem_of_lookup_1 in Hj as [a Ha]. apply list_elem_of_lookup_1 in Hk as [b Hb].
  assert (a = b) as ->; [|congruence].
  eapply (NoDup_lookup (map jb_id jobs) a b (jb_id j)); [done|..];
    rewrite list_lookup_fmap; [by rewrite Ha|by rewrite Hb, Heq].
Qed.

Lemma find_id_iff jobs id j :
  NoDup (map jb_id jobs) -> List.find (has_id id) jobs = Some j <-> j ∈ jobs /\ jb_id j = id.
Proof.
  intros Hnd. split.
  - intros [Hin%list_elem_of_In Hid%has_id_true]%find_some. done.
  - intros [Hin Hid]. destruct (List.find (has_id id) jobs) as [k|] eqn:Hf.
    + apply find_some in Hf as [Hk%list_elem_of_In Hk'%has_id_true].
      by rewrite (NoDup_ids_inj jobs k j) by (done || congruence).
    + apply list_elem_of_In in Hin. pose proof (find_none _ _ Hf _ Hin) as Hn.
      unfold has_id in Hn. by rewrite bool_decide_true in Hn.
Qed.

Lemma find_job_iff e queue id j :
  queue_inv e ->
  find_job e queue id = Some j <-> exists jobs, queues e !! queue = Some jobs /\ j ∈ jobs /\ jb_id j = id.
Proof.
  intros Hinv. unfold find_job. destruct (queues e !! queue) as [jobs|] eqn:Hq; cbn.
  - rewrite find_id_iff by apply (Hinv _ _ Hq). split; [eauto|]. by intros (?&[= <-]&?).
  - split; [done|]. by intros (?&?&_).
Qed.

(** ** Runs *)

Inductive QueueOp :=
| OpPush (job : QueueJob)
| OpPushBatch (jobs : list QueueJob)
| OpClaim (now now' : Z) (queue : string) (options : QueueClaimOptions)
| OpClaimMany (now now' : Z) (queue : string) (options : QueueClaimOptions) (limit : Z)
| OpAck (now : Z) (queue id : string)
| OpAckMany (now : Z) (queue : string) (ids : list string)
| OpNack (now : Z) (queue id : string) (options : QueueNackOptions)
| OpClaimAndAck (now now' now'' : Z) (queue : string) (options : QueueClaimOptions)
| OpClaimAndAckBatch (clock : nat -> Z * Z * Z) (queue : string) (options : QueueClaimOptions) (limit : nat).

Definition run_queue_op (e : MemoryEngine) (op : QueueOp) : MemoryEngine :=
  match op with
  | OpPush job => (push_job e job).2
  | OpPushBatch jobs => (push_jobs_batch e jobs).2
  | OpClaim now now' queue options => (claim_job_with_options e now now' queue options).2
  | OpClaimMany now now' queue options limit => (claim_jobs_with_options e now now' queue options limit).2
  | OpAck now queue id => (ack_job e now queue id).2
  | OpAckMany now queue ids => from_option snd e (ack_jobs e now queue ids)
  | OpNack now queue id options => (nack_job_with_options e now queue id options).2
  | OpClaimAndAck now now' now'' queue options => (claim_and_ack e now now' now'' queue options).2
  | OpClaimAndAckBatch clock queue options limit => (claim_and_ack_batch e clock queue options limit).2
  end.

(** The jobs an operation may add to a queue. *)
Definition op_pushes (P : QueueJob -> Prop) (op : QueueOp) : Prop :=
  match op with OpPush job => P job | OpPushBatch jobs => Forall P jobs | _ => True end.

(** What an operation does to the queues: jobs of one queue move along their
    transitions, or a job with a new id is appended. *)
Inductive queue_effect (P : QueueJob -> Prop) (e : MemoryEngine) : MemoryEngine -> Prop :=
| effect_update queue jobs jobs' :
    queues e !! queue = Some jobs -> evolves jobs jobs' -> queue_effect P e (set_queue e queue jobs')
| effect_push job :
    P job -> List.find (has_id (jb_id job)) (default [] (queues e !! jb_queue job)) = None ->
    queue_effect P e (set_queue e (jb_queue job) (default [] (queues e !! jb_queue job) ++ [job])).

Abbreviation queue_effects P := (rtc (queue_effect P)).

Section effects.
Context (P : QueueJob -> Prop).
Implicit Types e : MemoryEngine.

Lemma queues_set_queue e queue jobs q :
  queues (set_queue e queue jobs) !! q = if decide (queue = q) then Some jobs else queues e !! q.
Proof.
  unfold set_queue. cbn [queues set_queues]. destruct (decide (queue = q)) as [<-|Hne].
  - apply lookup_insert_eq.
  - by apply lookup_insert_ne.
Qed.

Lemma queues_set_queue_eq e queue jobs : queues (set_queue e queue jobs) !! queue = Some jobs.
Proof. rewrite queues_set_queue. by rewrite decide_True. Qed.

Lemma set_queue_twice e queue jobs jobs' :
  set_queue (set_queue e queue jobs) queue jobs' = set_queue e queue jobs'.
Proof. unfold set_queue, set_queues. cbn. by rewrite insert_insert_eq. Qed.

Lemma push_job_effect e job : P job -> queue_effects P e (push_job e job).2.
Proof.
  intros HP. unfold push_job. destruct (List.find _ _) as [k|] eqn:Hf; cbn [snd]; apply rtc_once.
  - destruct (queues e !! jb_queue job) as [jobs|] eqn:Hq; [|done].
    by eapply effect_update, evolves_refl.
  - by apply effect_push.
Qed.

Lemma push_batch_effect e jobs : Forall P jobs -> queue_effects P e (push_jobs_batch e jobs).2.
Proof.
  intros HP. revert e. induction HP as [|j jobs HPj HP IH]; intros e; cbn [push_jobs_batch]; [done|].
  pose proof (push_job_effect e j HPj) as Hj. destruct (push_job e j) as [[k|err] e1]; cbn in *; [|done].
  specialize (IH e1). destruct (push_jobs_batch e1 jobs) as [[l|err] e2]; cbn in *; by etrans.
Qed.

Lemma release_effect e now queue : queue_effects P e (release_expired_leases e now queue).
Proof.
  unfold release_expired_leases. destruct (queues e !! queue) as [jobs|] eqn:Hq; [|done].
  eapply rtc_once, effect_update; [done|apply release_evolves].
Qed.

Lemma claim_effect e now now' queue options :
  queue_effects P e (claim_job_with_options e now now' queue options).2.
Proof.
  unfold claim_job_with_options. etrans; [apply (release_effect e now queue)|].
  set (e1 := release_expired_leases e now queue). destruct (queues e1 !! queue) as [jobs|] eqn:Hq; [|done].
  assert (Hsort : evolves jobs (sort_by priority_cmp jobs)) by (apply evolves_perm; symmetry; apply sort_by_perm).
  destruct (find_mut _ _ _) as [[j l]|] eqn:Hf; cbn [snd]; (eapply rtc_once, effect_update; [exact Hq|]); [|done].
  eapply evolves_trans; [done|]. eapply find_mut_evolves; [|exact Hf].
  intros k [Hs Ha]%claimable_true _. apply step_claim; auto.
Qed.

Lemma claim_many_effect e now now' queue options limit :
  queue_effects P e (claim_jobs_with_options e now now' queue options limit).2.
Proof.
  unfold claim_jobs_with_options. destruct (_ <? limit); [done|]. destruct (limit =? 0); [done|].
  etrans; [apply (release_effect e now queue)|].
  set (e1 := release_expired_leases e now queue). destruct (queues e1 !! queue) as [jobs|] eqn:Hq; [|done].
  pose proof (update_matching_evolves (claimable now')
    (fun j => set_leased j (u32_saturating_add (jb_attempts j) 1) now' options) (Z.to_nat limit)
    (sort_by priority_cmp jobs)) as Hev.
  destruct (update_matching _ _ _ _) as [l l']. cbn [snd] in *. eapply rtc_once, effect_update; [exact Hq|].
  eapply evolves_trans; [apply evolves_perm; symmetry; apply sort_by_perm|]. apply Hev.
  intros k [Hs Ha]%claimable_true. apply step_claim; auto.
Qed.

Lemma update_job_run e queue id f j :
  find_job e queue id = Some j ->
  exists jobs jobs', queues e !! queue = Some jobs /\ find_mut (has_id id) f jobs = Some (f j, jobs') /\
    update_job e queue id f = Some (f j, set_queue e queue jobs').
Proof.
  unfold find_job, update_job. destruct (queues e !! queue) as [jobs|] eqn:Hq; cbn; [|done].
  intros Hf. destruct (find_mut_find _ f _ _ Hf) as [jobs' Hm]. rewrite Hm. cbn. eauto.
Qed.

Lemma update_job_effect e queue id f j :
  find_job e queue id = Some j -> job_step j (f j) ->
  queue_effects P e (from_option snd e (update_job e queue id f)).
Proof.
  intros Hf Hs. destruct (update_job_run e queue id f j Hf) as (jobs&jobs'&Hq&Hm&->). cbn.
  eapply rtc_once, effect_update; [exact Hq|]. eapply find_mut_evolves; [|exact Hm].
  intros k _ Hk. unfold find_job in Hf. rewrite Hq in Hf. cbn in Hf. congruence.
Qed.

Lemma ack_job_effect e now queue id : queue_effects P e (ack_job e now queue id).2.
Proof.
  unfold ack_job. destruct (find_job e queue id) as [j|] eqn:Hf; [|done].
  case_bool_decide as Hs; [done|].
  pose proof (update_job_effect e queue id _ j Hf (step_ack j now Hs)) as Heff.
  by destruct (update_job e queue id (set_completed now)) as [[k e']|].
Qed.

Lemma nack_job_effect e now queue id options : queue_effects P e (nack_job_with_options e now queue id options).2.
Proof.
  unfold nack_job_with_options. destruct (find_job e queue id) as [j|] eqn:Hf; [|done].
  case_bool_decide as Hs; [done|].
  pose proof (update_job_effect e queue id _ j Hf (step_nack j now options Hs)) as Heff.
  by destruct (update_job e queue id (set_nacked now options)) as [[k e']|].
Qed.

Lemma check_leased_Ok queue jobs id u :
  check_leased queue jobs id = Ok u <->
  exists j, List.find (has_id id) jobs = Some j /\ jb_status j = Leased.
Proof.
  unfold check_leased. destruct (List.find _ _) as [j|]; [|split; [done|by intros (?&?&_)]].
  case_bool_decide as Hs.
  - split; [done|]. intros (k&[= ->]&?). done.
  - destruct u. split; [eauto|done].
Qed.

(** Completing one job leaves the others as they are. *)
Lemma find_mut_other id id' f jobs j jobs' :
  (forall k, jb_id (f k) = jb_id k) -> id' <> id ->
  find_mut (has_id id) f jobs = Some (j, jobs') ->
  List.find (has_id id') jobs' = List.find (has_id id') jobs.
Proof.
  intros Hf Hne (pre&k&post&->&_&Hk%has_id_true&->&->)%find_mut_Some.
  induction pre as [|x pre IH]; cbn [app List.find].
  - unfold has_id. rewrite Hf, Hk. by rewrite !bool_decide_false by congruence.
  - destruct (has_id id' x); done.
Qed.

Lemma complete_all_run now ids jobs :
  NoDup ids ->
  (forall id, id ∈ ids -> exists j, List.find (has_id id) jobs = Some j /\ jb_status j = Leased) ->
  exists completed jobs', complete_all now ids jobs = Some (completed, jobs') /\ evolves jobs jobs' /\
    Forall2 (fun id c => exists j, List.find (has_id id) jobs = Some j /\ c = set_completed now j) ids completed /\
    (forall id, id ∉ ids -> List.find (has_id id) jobs' = List.find (has_id id) jobs) /\
    Forall2 (fun id c => List.find (has_id id) jobs' = Some c) ids completed.
Proof.
  intros Hnd. revert jobs. induction Hnd as [|id ids Hnin Hnd IH]; intros jobs Hl; cbn [complete_all].
  { exists [], jobs. split_and!; [done|apply evolves_refl|constructor|done|constructor]. }
  destruct (Hl id) as (j&Hj&Hs); [left|].
  destruct (find_mut_find _ (set_completed now) _ _ Hj) as [jobs1 Hm]. rewrite Hm. cbn.
  assert (Hsame : forall id', id' <> id -> List.find (has_id id') jobs1 = List.find (has_id id') jobs).
  { intros id' Hne. by eapply find_mut_other; [| |exact Hm]. }
  destruct (IH jobs1) as (completed&jobs'&Hrun&Hev&Hres&Hother&Hnew).
  { intros id' Hin. rewrite Hsame by (intros ->; done). apply Hl. by right. }
  rewrite Hrun. cbn. exists (set_completed now j :: completed), jobs'. split_and!.
  - done.
  - eapply evolves_trans; [|exact Hev]. eapply find_mut_evolves; [|exact Hm].
    intros k _ Hk. assert (k = j) as -> by congruence. by apply step_ack.
  - constructor; [eauto|]. eapply Forall2_impl_elem; [exact Hres|].
    intros id' c Hin (k&Hk&->). exists k. rewrite Hsame in Hk by (intros ->; done). done.
  - intros id' Hnin'. apply not_elem_of_cons in Hnin' as [Hne Hnin']. by rewrite Hother, Hsame.
  - constructor; [|done]. rewrite Hother by done.
    apply find_mut_Some in Hm as (pre&k&post&->&Hpre&Hk&Heq&->).
    rewrite Heq. apply find_Some_split. exists pre, post. split_and!; [done|done|].
    apply has_id_true in Hk. by apply has_id_true.
Qed.

Lemma has_duplicate_false seen ids :
  has_duplicate seen ids = false <-> NoDup ids /\ (forall id, id ∈ ids -> id ∉ seen).
Proof.
  revert seen. induction ids as [|id ids IH]; intros seen; cbn [has_duplicate].
  { split; [|done]. intros _. split; [constructor|]. intros ? H. by apply elem_of_nil in H. }
  rewrite orb_false_iff, bool_decide_eq_false, IH, NoDup_cons. split.
  - intros (Hs&Hnd&Hids). split_and!; [|done|].
    + intros Hin. apply (Hids id Hin). set_solver.
    + intros id' [->|Hin]%elem_of_cons; [done|]. specialize (Hids id' Hin). set_solver.
  - intros ((Hnin&Hnd)&Hids). split_and!; [apply Hids; left|done|].
    intros id' Hin. specialize (Hids id' (list_elem_of_further _ _ _ Hin)). set_unfold. naive_solver.
Qed.

Lemma check_all_leased queue jobs ids u :
  fold_res (fun _ id => check_leased queue jobs id) () ids = Ok u ->
  forall id, id ∈ ids -> exists j, List.find (has_id id) jobs = Some j /\ jb_status j = Leased.
Proof.
  intros H%fold_res_unit id Hin. rewrite Forall_forall in H. by apply (check_leased_Ok queue jobs id ()), H.
Qed.

(** A batch acknowledgement either refuses and changes nothing, or completes. *)
Lemma ack_jobs_cases e now queue ids :
  (exists err, ack_jobs e now queue ids = Some (Err err, e)) \/
  (ids = [] /\ ack_jobs e now queue ids = Some (Ok [], e)) \/
  exists jobs completed jobs',
    NoDup ids /\ queues e !! queue = Some jobs /\ evolves jobs jobs' /\
    ack_jobs e now queue ids = Some (Ok completed, set_queue e queue jobs') /\
    Forall2 (fun id c => exists j, List.find (has_id id) jobs = Some j /\ jb_status j = Leased /\
                                   c = set_completed now j) ids completed /\
    (forall id, id ∉ ids -> List.find (has_id id) jobs' = List.find (has_id id) jobs) /\
    Forall2 (fun id c => List.find (has_id id) jobs' = Some c) ids completed.
Proof.
  unfold ack_jobs. destruct (_ <? _); [by eauto|]. destruct (has_duplicate ∅ ids) eqn:Hdup; [by eauto|].
  case_bool_decide as Hnil; [by eauto|]. destruct (queues e !! queue) as [jobs|] eqn:Hq; [|by eauto].
  destruct (fold_res _ _ _) as [u|err] eqn:Hchk; [|by eauto].
  apply has_duplicate_false in Hdup as [Hnd _]. pose proof (check_all_leased _ _ _ _ Hchk) as Hl.
  destruct (complete_all_run now ids jobs Hnd Hl) as (completed&jobs'&Hrun&Hev&Hres&Hother&Hnew).
  rewrite Hrun. cbn. do 2 right. exists jobs, completed, jobs'. split_and!; try done.
  eapply Forall2_impl_elem; [exact Hres|]. intros id c Hin (j&Hj&->).
  destruct (Hl id Hin) as (j'&Hj'&Hs). exists j. split_and!; [done|congruence|done].
Qed.

Lemma ack_jobs_effect e now queue ids : queue_effects P e (from_option snd e (ack_jobs e now queue ids)).
Proof.
  destruct (ack_jobs_cases e now queue ids) as [[err ->]|[[_ ->]|(jobs&c&jobs'&_&Hq&Hev&->&_)]]; cbn; [done..|].
  by eapply rtc_once, effect_update.
Qed.

Lemma claim_and_ack_effect e now now' now'' queue options :
  queue_effects P e (claim_and_ack e now now' now'' queue options).2.
Proof.
  unfold claim_and_ack. pose proof (claim_effect e now now' queue options) as Hc.
  destruct (claim_job_with_options e now now' queue options) as [[[j|]|err] e1]; cbn [snd] in *; [|done..].
  etrans; [exact Hc|]. apply ack_job_effect.
Qed.

Lemma claim_and_ack_batch_effect e clock queue options limit :
  queue_effects P e (claim_and_ack_batch e clock queue options limit).2.
Proof.
  revert e. induction limit as [|limit IH]; intros e; cbn [claim_and_ack_batch]; [done|].
  pose proof (claim_and_ack_effect e (clock limit).1.1 (clock limit).1.2 (clock limit).2 queue options) as Hc.
  destruct (claim_and_ack _ _ _ _ _ _) as [[[j|]|err] e1]; cbn [snd] in *; [|done..].
  specialize (IH e1). destruct (claim_and_ack_batch e1 clock queue options limit) as [[l|err] e2]; cbn [snd] in *;
    by etrans.
Qed.

Lemma run_queue_op_effect e op : op_pushes P op -> queue_effects P e (run_queue_op e op).
Proof.
  destruct op; cbn [run_queue_op op_pushes]; intros HP;
    eauto using push_job_effect, push_batch_effect, claim_effect, claim_many_effect, ack_job_effect,
      ack_jobs_effect, nack_job_effect, claim_and_ack_effect, claim_and_ack_batch_effect.
Qed.

Lemma run_queue_ops_effect e ops : Forall (op_pushes P) ops -> queue_effects P e (foldl run_queue_op e ops).
Proof.
  intros HP. revert e. induction HP as [|op ops Hop _ IH]; intros e; cbn; [done|].
  etrans; [by apply run_queue_op_effect|apply IH].
Qed.

Lemma queue_effect_inv e e' :
  (forall j, P j -> job_ok j) -> queue_effect P e e' -> queue_inv e -> queue_inv e'.
Proof.
  intros HP Heff Hinv queue jobs. destruct Heff as [q old new Hq Hev|job Hjob Hnew];
    rewrite queues_set_queue; (destruct (decide _) as [<-|_]; [|by apply Hinv]); intros [= <-].
  - eapply evolves_ok; [exact Hev|]. by apply Hinv.
  - set (old := default [] (queues e !! jb_queue job)) in *.
    assert (Hold : queue_ok (jb_queue job) old).
    { unfold old. destruct (queues e !! jb_queue job) as [l|] eqn:Hl; [by apply Hinv|]. by repeat constructor. }
    destruct Hold as [Hids Hqs Hoks]. split.
    + rewrite map_app. apply NoDup_app. split_and!; [done| |by apply NoDup_singleton].
      intros id Hin ->%list_elem_of_singleton. apply list_elem_of_fmap in Hin as (k&Hid&Hk).
      apply list_elem_of_In in Hk. pose proof (find_none _ _ Hnew k Hk) as Hn.
      by rewrite (proj2 (has_id_true (jb_id job) k) (eq_sym Hid)) in Hn.
    + by apply Forall_app; split; [|constructor].
    + apply Forall_app; split; [done|]. constructor; [by apply HP|done].
Qed.

Lemma queue_effects_inv e e' :
  (forall j, P j -> job_ok j) -> queue_effects P e e' -> queue_inv e -> queue_inv e'.
Proof. intros HP. induction 1; eauto using queue_effect_inv. Qed.

(** No job is lost. *)
Lemma queue_effect_job e e' queue id j :
  (forall j, P j -> job_ok j) -> queue_effect P e e' -> queue_inv e -> find_job e queue id = Some j ->
  exists j', find_job e' queue id = Some j' /\ rtc job_step j j'.
Proof.
  intros HP Heff Hinv Hf. assert (Hinv2 : queue_inv e') by (by eapply queue_effect_inv).
  apply find_job_iff in Hf as (jobs&Hq&Hj&Hid); [|done].
  assert (exists k jobs', queues e' !! queue = Some jobs' /\ k ∈ jobs' /\ jb_id k = id /\ rtc job_step j k)
    as (k&jobs'&?&?&?&Hs); [|exists k; split; [|done]; apply find_job_iff; by eauto].
  clear Hinv2. destruct Heff as [q old new Hq' Hev|job _ Hnew]; rewrite queues_set_queue;
    (destruct (decide _) as [<-|_]; [|by exists j, jobs]).
  - assert (old = jobs) as -> by congruence. destruct (evolves_elem _ _ _ Hev Hj) as (j'&Hj'&Hs).
    exists j', new. split_and!; [done|done| |done].
    rewrite <-Hid. by apply identity_id, job_steps_identity.
  - rewrite Hq. cbn. exists j, (jobs ++ [job]). split_and!; [done| |done|done]. set_solver.
Qed.

Lemma queue_effects_job e e' queue id j :
  (forall j, P j -> job_ok j) -> queue_effects P e e' -> queue_inv e -> find_job e queue id = Some j ->
  exists j', find_job e' queue id = Some j' /\ rtc job_step j j'.
Proof.
  intros HP Heff. revert j. induction Heff as [e|e1 e2 e3 Heff Hrest IH]; intros j Hinv Hf; [by exists j|].
  assert (Hinv2 : queue_inv e2) by (by eapply queue_effect_inv).
  destruct (queue_effect_job e1 e2 queue id j HP Heff Hinv Hf) as (k&Hk&Hs).
  destruct (IH k Hinv2 Hk) as (j'&Hj'&Hs'). exists j'. split; [done|]. by etrans.
Qed.
End effects.

(** ** Claims *)

(** The queue a claim searches: expired leases are released first. *)
Definition waiting (e : MemoryEngine) (now : Z) (queue : string) : list QueueJob :=
  map (release_if_expired now) (default [] (queues e !! queue)).

Abbreviation leased_once now' options :=
  (fun j => set_leased j (u32_wrapping_add (jb_attempts j) 1) now' options).

#[export] Instance priority_cmp_preorder : CmpPreorder priority_cmp.
Proof.
  unfold priority_cmp. split.
  - intros x y. apply Z.compare_antisym.
  - intros x y z. rewrite !Z.compare_gt_iff. lia.
Qed.

Lemma priority_le a b : priority_cmp a b <> Gt <-> jb_priority b <= jb_priority a.
Proof. unfold priority_cmp. apply Z.compare_le_iff. Qed.

Lemma queues_release e now queue :
  queues (release_expired_leases e now queue) !! queue =
  map (release_if_expired now) <$> queues e !! queue.
Proof.
  unfold release_expired_leases. destruct (queues e !! queue) eqn:Hq; [|by rewrite Hq].
  by rewrite queues_set_queue_eq.
Qed.

(** A claim, as the search of the sorted queue. *)
Lemma claim_run e now now' queue options jobs :
  queues e !! queue = Some jobs ->
  claim_job_with_options e now now' queue options =
    match find_mut (claimable now') (leased_once now' options) (sort_by priority_cmp (waiting e now queue)) with
    | None => (Ok None, set_queue e queue (sort_by priority_cmp (waiting e now queue)))
    | Some (job, jobs) => (Ok (Some job), set_queue e queue jobs)
    end.
Proof.
  intros Hq. unfold claim_job_with_options, waiting, release_expired_leases. rewrite Hq, queues_set_queue_eq.
  cbn [default from_option id]. destruct (find_mut _ _ _) as [[j l]|]; by rewrite set_queue_twice.
Qed.

Lemma claim_missing e now now' queue options :
  queues e !! queue = None -> claim_job_with_options e now now' queue options = (Ok None, e).
Proof. intros Hq. unfold claim_job_with_options, release_expired_leases. by rewrite Hq, Hq. Qed.

(** The first match of a list sorted by priority: the first match of its
    priority class in the unsorted list, and no match has a higher priority. *)
Lemma first_of_sorted p jobs pre j post :
  sort_by priority_cmp jobs = pre ++ j :: post -> Forall (fun k => p k = false) pre -> p j = true ->
  j ∈ jobs /\ List.find (fun k => p k && (jb_priority k =? jb_priority j)) jobs = Some j /\
  forall k, k ∈ jobs -> p k = true -> jb_priority k <= jb_priority j.
Proof.
  intros Hs Hpre Hp. split_and!.
  - apply (elem_of_sort_by priority_cmp). rewrite Hs. set_solver.
  - rewrite find_filter, filter_andb, <-(sort_by_stable priority_cmp (fun k => jb_priority k =? jb_priority j)).
    + rewrite <-filter_andb, <-find_filter. apply find_Some_split. exists pre, post. split_and!; [done| |].
      * eapply Forall_impl; [exact Hpre|]. cbn. by intros k ->.
      * cbn. by rewrite Hp, Z.eqb_refl.
    + intros x y Hx%Z.eqb_eq Hy%Z.eqb_eq. unfold priority_cmp. rewrite Hx, Hy. apply Z.compare_refl.
  - intros k Hk Hpk. apply (elem_of_sort_by priority_cmp) in Hk. rewrite Hs in Hk.
    pose proof (sort_by_sorted priority_cmp jobs) as Hsorted. rewrite Hs in Hsorted.
    apply elem_of_app in Hk as [Hk|Hk].
    + rewrite Forall_forall in Hpre. rewrite (Hpre _ Hk) in Hpk. done.
    + apply elem_of_cons in Hk as [->|Hk]; [done|].
      apply priority_le. apply StronglySorted_app_1_r, StronglySorted_cons in Hsorted as [Hall _].
      by rewrite Forall_forall in Hall; apply Hall.
Qed.

(** ** Live leases *)

Definition job_in (e : MemoryEngine) (queue : string) (j : QueueJob) : Prop :=
  exists jobs, queues e !! queue = Some jobs /\ j ∈ jobs.
Definition leased_until (expires : Z) (j : QueueJob) : Prop :=
  jb_status j = Leased /\ jb_lease_expires_at_ms j = Some expires.

(** Operations that read the clock before [expires] and do not acknowledge or
    reject the job. *)
Definition spares (queue id : string) (expires : Z) (op : QueueOp) : Prop :=
  match op with
  | OpPush job => job_ok job
  | OpPushBatch jobs => Forall job_ok jobs
  | OpClaim now _ _ _ | OpClaimMany now _ _ _ _ | OpClaimAndAck now _ _ _ _ => now < expires
  | OpClaimAndAckBatch clock _ _ _ => forall n, (clock n).1.1 < expires
  | OpAck _ queue' id' | OpNack _ queue' id' _ => queue' = queue -> id' <> id
  | OpAckMany _ queue' ids => queue' = queue -> id ∉ ids
  end.

Section leases.
Context (queue : string) (j : QueueJob) (expires : Z) (Hleased : leased_until expires j).
Implicit Types e : MemoryEngine.

Lemma not_claimable now : claimable now j = false.
Proof.
  destruct Hleased as [Hs _]. unfold claimable. by rewrite bool_decide_false by congruence.
Qed.

Lemma not_released now : now < expires -> release_if_expired now j = j.
Proof.
  destruct Hleased as [Hs Ht]. intros Hnow. unfold release_if_expired, lease_expired. rewrite Ht.
  destruct (Z.leb_spec expires now); [lia|]. by rewrite andb_false_r.
Qed.

Lemma find_mut_keep p f jobs k jobs' :
  p j = false -> j ∈ jobs -> find_mut p f jobs = Some (k, jobs') -> j ∈ jobs'.
Proof.
  intros Hp Hj (pre&x&post&->&_&Hx&_&->)%find_mut_Some. apply elem_of_app in Hj as [Hj|Hj]; [set_solver|].
  apply elem_of_cons in Hj as [->|Hj]; [congruence|set_solver].
Qed.

Lemma update_matching_keep p f limit jobs :
  p j = false -> j ∈ jobs -> j ∈ (update_matching p f limit jobs).2.
Proof.
  intros Hp. revert limit. induction jobs as [|x jobs IH]; intros [|limit] Hj; cbn [update_matching snd]; try done.
  apply elem_of_cons in Hj. destruct (p x) eqn:Hx.
  - specialize (IH limit). destruct (update_matching p f limit jobs); cbn in *.
    destruct Hj as [->|Hj]; [congruence|]. right. by apply IH.
  - specialize (IH (S limit)). destruct (update_matching p f (S limit) jobs); cbn in *.
    destruct Hj as [->|Hj]; [by left|]. right. by apply IH.
Qed.

Lemma set_queue_keep e q jobs :
  job_in e queue j -> (q = queue -> j ∈ jobs) -> job_in (set_queue e q jobs) queue j.
Proof.
  intros (old&Hq&Hj) Hin. unfold job_in. rewrite queues_set_queue. destruct (decide (q = queue)) as [->|_]; eauto.
Qed.

Lemma push_keep e job : job_in e queue j -> job_in (push_job e job).2 queue j.
Proof.
  intros Hin. unfold push_job. destruct (List.find _ _) as [k|]; cbn [snd]; apply set_queue_keep; try done;
    intros ->; destruct Hin as (old&Hq&Hj); rewrite Hq; cbn; set_solver.
Qed.

Lemma push_batch_keep e jobs : job_in e queue j -> job_in (push_jobs_batch e jobs).2 queue j.
Proof.
  revert e. induction jobs as [|x jobs IH]; intros e Hin; cbn [push_jobs_batch]; [done|].
  pose proof (push_keep e x Hin) as Hx. destruct (push_job e x) as [[k|err] e1]; cbn [snd] in *; [|done].
  specialize (IH e1 Hx). by destruct (push_jobs_batch e1 jobs) as [[l|err] e2].
Qed.

Lemma release_keep e now q :
  now < expires -> job_in e queue j -> job_in (release_expired_leases e now q) queue j.
Proof.
  intros Hnow Hin. unfold release_expired_leases. destruct (queues e !! q) as [jobs|] eqn:Hq; [|done].
  apply set_queue_keep; [done|]. intros ->. destruct Hin as (old&Hq'&Hj). assert (old = jobs) as -> by congruence.
  rewrite <-(not_released now Hnow). by apply (list_elem_of_fmap_2 (release_if_expired now)).
Qed.

Lemma claim_keep e now now' q options :
  now < expires -> job_in e queue j -> job_in (claim_job_with_options e now now' q options).2 queue j.
Proof.
  intros Hnow Hin. unfold claim_job_with_options. apply (release_keep e now q Hnow) in Hin.
  set (e1 := release_expired_leases e now q) in *. destruct (queues e1 !! q) as [jobs|] eqn:Hq; [|done].
  assert (Hj : q = queue -> j ∈ sort_by priority_cmp jobs).
  { intros ->. destruct Hin as (old&Hq'&Hj). apply elem_of_sort_by. congruence. }
  destruct (find_mut _ _ _) as [[k l]|] eqn:Hf; cbn [snd]; apply set_queue_keep; try done.
  intros Heq. eapply find_mut_keep; [apply not_claimable|by apply Hj|exact Hf].
Qed.

Lemma claim_many_keep e now now' q options limit :
  now < expires -> job_in e queue j -> job_in (claim_jobs_with_options e now now' q options limit).2 queue j.
Proof.
  intros Hnow Hin. unfold claim_jobs_with_options. destruct (_ <? limit); [done|]. destruct (limit =? 0); [done|].
  apply (release_keep e now q Hnow) in Hin.
  set (e1 := release_expired_leases e now q) in *. destruct (queues e1 !! q) as [jobs|] eqn:Hq; [|done].
  pose proof (update_matching_keep (claimable now')
    (fun j => set_leased j (u32_saturating_add (jb_attempts j) 1) now' options) (Z.to_nat limit)
    (sort_by priority_cmp jobs) (not_claimable now')) as Hkeep.
  destruct (update_matching _ _ _ _) as [l l']. cbn [snd] in *. apply set_queue_keep; [done|].
  intros ->. apply Hkeep, elem_of_sort_by. destruct Hin as (old&Hq'&Hj). congruence.
Qed.

Lemma update_job_keep e q id f :
  (q = queue -> id <> jb_id j) -> job_in e queue j -> job_in (from_option snd e (update_job e q id f)) queue j.
Proof.
  intros Hne Hin. unfold update_job. destruct (queues e !! q) as [jobs|] eqn:Hq; cbn; [|done].
  destruct (find_mut _ _ _) as [[k l]|] eqn:Hf; cbn; [|done]. apply set_queue_keep; [done|].
  intros ->. destruct Hin as (old&Hq'&Hj). assert (old = jobs) as -> by congruence.
  eapply find_mut_keep; [|exact Hj|exact Hf]. apply bool_decide_eq_false. intros Heq. by apply (Hne eq_refl).
Qed.

Lemma ack_keep e now q id :
  (q = queue -> id <> jb_id j) -> job_in e queue j -> job_in (ack_job e now q id).2 queue j.
Proof.
  intros Hne Hin. unfold ack_job. destruct (find_job e q id) as [k|]; [|done]. case_bool_decide; [done|].
  pose proof (update_job_keep e q id (set_completed now) Hne Hin). by destruct (update_job _ _ _ _) as [[x e']|].
Qed.

Lemma nack_keep e now q id options :
  (q = queue -> id <> jb_id j) -> job_in e queue j -> job_in (nack_job_with_options e now q id options).2 queue j.
Proof.
  intros Hne Hin. unfold nack_job_with_options. destruct (find_job e q id) as [k|]; [|done]. case_bool_decide; [done|].
  pose proof (update_job_keep e q id (set_nacked now options) Hne Hin). by destruct (update_job _ _ _ _) as [[x e']|].
Qed.

Lemma complete_all_keep now ids jobs completed jobs' :
  jb_id j ∉ ids -> j ∈ jobs -> complete_all now ids jobs = Some (completed, jobs') -> j ∈ jobs'.
Proof.
  revert jobs completed. induction ids as [|id ids IH]; intros jobs completed Hnin Hj; cbn [complete_all].
  { by intros [= _ <-]. }
  destruct (find_mut _ _ _) as [[x l]|] eqn:Hf; cbn; [|done].
  destruct (complete_all now ids l) as [[done' l']|] eqn:Hc; cbn; [|done]. intros [= _ <-].
  apply not_elem_of_cons in Hnin as [Hne Hnin]. eapply IH; [done| |exact Hc].
  eapply find_mut_keep; [|exact Hj|exact Hf]. by apply bool_decide_eq_false.
Qed.

Lemma ack_many_keep e now q ids :
  (q = queue -> jb_id j ∉ ids) -> job_in e queue j ->
  job_in (from_option snd e (ack_jobs e now q ids)) queue j.
Proof.
  intros Hne Hin. unfold ack_jobs. destruct (_ <? _); [done|]. destruct (has_duplicate _ _); [done|].
  case_bool_decide; [done|]. destruct (queues e !! q) as [jobs|] eqn:Hq; [|done].
  destruct (fold_res _ _ _); [|done]. destruct (complete_all now ids jobs) as [[c l]|] eqn:Hc; cbn; [|done].
  apply set_queue_keep; [done|]. intros ->. destruct Hin as (old&Hq'&Hj). assert (old = jobs) as -> by congruence.
  eapply complete_all_keep; [by apply Hne|exact Hj|exact Hc].
Qed.

(** A claim does not return the job. *)
Lemma claim_other e now now' options k e' :
  queue_inv e -> now < expires -> job_in e queue j ->
  claim_job_with_options e now now' queue options = (Ok (Some k), e') -> jb_id k <> jb_id j.
Proof.
  intros Hinv Hnow (jobs&Hq&Hj). rewrite (claim_run _ _ _ _ _ _ Hq).
  destruct (find_mut _ _ _) as [[x l]|] eqn:Hf; [|done]. intros [= <- _] Hid.
  apply find_mut_Some in Hf as (pre&y&post&Hs&_&Hy&->&_). cbn in Hid.
  assert (Hyin : y ∈ waiting e now queue) by (apply (elem_of_sort_by priority_cmp); rewrite Hs; set_solver).
  assert (Hjin : j ∈ waiting e now queue).
  { unfold waiting. rewrite Hq. cbn. rewrite <-(not_released now Hnow).
    by apply (list_elem_of_fmap_2 (release_if_expired now)). }
  assert (y = j) as ->; [|by rewrite not_claimable in Hy].
  eapply NoDup_ids_inj; [|exact Hyin|exact Hjin|done].
  unfold waiting. rewrite Hq. cbn. rewrite (evolves_ids jobs) by apply release_evolves. apply (Hinv _ _ Hq).
Qed.

Lemma update_matching_taken p f limit jobs k :
  k ∈ (update_matching p f limit jobs).1 -> exists x, x ∈ jobs /\ p x = true /\ k = f x.
Proof.
  revert limit. induction jobs as [|x jobs IH]; intros [|limit]; cbn [update_matching fst];
    try (intros Hk; by apply elem_of_nil in Hk).
  destruct (p x) eqn:Hx.
  - specialize (IH limit). destruct (update_matching p f limit jobs); cbn [fst] in *.
    intros [->|Hk]%elem_of_cons; [exists x; split; [left|done]|].
    destruct (IH Hk) as (y&Hy&?). exists y. split; [by right|done].
  - specialize (IH (S limit)). destruct (update_matching p f (S limit) jobs); cbn [fst] in *.
    intros Hk. destruct (IH Hk) as (y&Hy&?). exists y. split; [by right|done].
Qed.

Lemma claim_many_other e now now' options limit claimed e' k :
  queue_inv e -> now < expires -> job_in e queue j ->
  claim_jobs_with_options e now now' queue options limit = (Ok claimed, e') ->
  k ∈ claimed -> jb_id k <> jb_id j.
Proof.
  intros Hinv Hnow (jobs&Hq&Hj). unfold claim_jobs_with_options.
  destruct (_ <? limit); [done|]. destruct (limit =? 0). { intros [= <- _] Hk. by apply elem_of_nil in Hk. }
  rewrite queues_release, Hq. cbn [fmap option_fmap option_map].
  pose proof (fun k => update_matching_taken (claimable now')
    (fun j => set_leased j (u32_saturating_add (jb_attempts j) 1) now' options) (Z.to_nat limit)
    (sort_by priority_cmp (map (release_if_expired now) jobs)) k) as Htaken.
  destruct (update_matching _ _ _ _) as [l l']. cbn [fst] in Htaken. intros [= <- _] Hk Hid.
  destruct (Htaken k Hk) as (y&Hy&Hc&->). apply elem_of_sort_by in Hy. cbn in Hid.
  assert (y = j) as ->; [|by rewrite not_claimable in Hc].
  eapply NoDup_ids_inj; [|exact Hy| |done].
  - rewrite (evolves_ids jobs) by apply release_evolves. apply (Hinv _ _ Hq).
  - rewrite <-(not_released now Hnow). by apply (list_elem_of_fmap_2 (release_if_expired now)).
Qed.

Lemma claim_and_ack_keep e now now' now'' q options :
  queue_inv e -> now < expires -> job_in e queue j ->
  job_in (claim_and_ack e now now' now'' q options).2 queue j.
Proof.
  intros Hinv Hnow Hin. unfold claim_and_ack. pose proof (claim_keep e now now' q options Hnow Hin) as Hkeep.
  destruct (claim_job_with_options e now now' q options) as [[[k|]|err] e1] eqn:Hc; cbn [snd] in *; [|done..].
  apply ack_keep; [|done]. intros ->. by eapply claim_other.
Qed.

Lemma effects_inv e e' : queue_effects job_ok e e' -> queue_inv e -> queue_inv e'.
Proof. by apply queue_effects_inv. Qed.

Lemma claim_and_ack_batch_keep e clock q options limit :
  queue_inv e -> (forall n, (clock n).1.1 < expires) -> job_in e queue j ->
  job_in (claim_and_ack_batch e clock q options limit).2 queue j.
Proof.
  intros Hinv Hclock. revert e Hinv. induction limit as [|limit IH]; intros e Hinv Hin; cbn [claim_and_ack_batch]; [done|].
  pose proof (claim_and_ack_keep e _ (clock limit).1.2 (clock limit).2 q options Hinv (Hclock limit) Hin) as Hkeep.
  pose proof (claim_and_ack_effect job_ok e (clock limit).1.1 (clock limit).1.2 (clock limit).2 q options) as Heff.
  destruct (claim_and_ack _ _ _ _ _ _) as [[[k|]|err] e1]; cbn [snd] in *; [|done..].
  specialize (IH e1 (effects_inv _ _ Heff Hinv) Hkeep).
  by destruct (claim_and_ack_batch e1 clock q options limit) as [[l|err] e2].
Qed.

Lemma spares_pushes id op : spares queue id expires op -> op_pushes job_ok op.
Proof. by destruct op. Qed.

Lemma run_keep e op :
  queue_inv e -> spares queue (jb_id j) expires op -> job_in e queue j -> job_in (run_queue_op e op) queue j.
Proof.
  destruct op; cbn [spares run_queue_op]; intros Hinv Hsp Hin;
    eauto using push_keep, push_batch_keep, claim_keep, claim_many_keep, ack_keep, ack_many_keep, nack_keep,
      claim_and_ack_keep, claim_and_ack_batch_keep.
Qed.

Lemma runs_keep e ops :
  queue_inv e -> Forall (spares queue (jb_id j) expires) ops -> job_in e queue j ->
  queue_inv (foldl run_queue_op e ops) /\ job_in (foldl run_queue_op e ops) queue j.
Proof.
  intros Hinv Hsp. revert e Hinv. induction Hsp as [|op ops Hop _ IH]; intros e Hinv Hin; cbn; [done|].
  apply IH; [|by apply run_keep]. eapply effects_inv; [|exact Hinv].
  by eapply run_queue_op_effect, spares_pushes.
Qed.
End leases.

(** ** Batch claims *)

(** [limit] claims in a row, all at the same time. *)
Fixpoint claim_repeatedly (e : MemoryEngine) (now now' : Z) (queue : string) (options : QueueClaimOptions)
    (limit : nat) : list QueueJob * MemoryEngine :=
  match limit with
  | O => ([], e)
  | S rest =>
      match claim_job_with_options e now now' queue options with
      | (Ok (Some job), e) =>
          let '(jobs, e) := claim_repeatedly e now now' queue options rest in (job :: jobs, e)
      | (_, e) => ([], e)
      end
  end.

(** The same, on the list of jobs. *)
Fixpoint find_mut_repeatedly (p : QueueJob -> bool) (f : QueueJob -> QueueJob) (limit : nat)
    (jobs : list QueueJob) : list QueueJob * list QueueJob :=
  match limit with
  | O => ([], jobs)
  | S rest =>
      match find_mut p f jobs with
      | None => ([], jobs)
      | Some (j, jobs) => let '(taken, jobs) := find_mut_repeatedly p f rest jobs in (j :: taken, jobs)
      end
  end.

Lemma find_mut_repeatedly_skip p f limit x jobs :
  p x = false ->
  find_mut_repeatedly p f limit (x :: jobs) =
  ((find_mut_repeatedly p f limit jobs).1, x :: (find_mut_repeatedly p f limit jobs).2).
Proof.
  intros Hx. revert jobs. induction limit as [|limit IH]; intros jobs; [done|].
  cbn [find_mut_repeatedly find_mut]. rewrite Hx. destruct (find_mut p f jobs) as [[k l]|]; cbn; [|done].
  rewrite IH. by destruct (find_mut_repeatedly p f limit l).
Qed.

Lemma find_mut_repeatedly_update p f limit jobs :
  (forall j, p (f j) = false) -> find_mut_repeatedly p f limit jobs = update_matching p f limit jobs.
Proof.
  intros Hf. revert limit. induction jobs as [|x jobs IH]; intros [|limit]; [done..|].
  cbn [update_matching]. destruct (p x) eqn:Hx.
  - cbn [find_mut_repeatedly find_mut]. rewrite Hx. rewrite find_mut_repeatedly_skip by done.
    rewrite IH. by destruct (update_matching p f limit jobs).
  - rewrite find_mut_repeatedly_skip by done. rewrite IH. by destruct (update_matching p f (S limit) jobs).
Qed.

Lemma update_matching_ext p f g limit jobs :
  (forall j, j ∈ jobs -> f j = g j) -> update_matching p f limit jobs = update_matching p g limit jobs.
Proof.
  revert limit. induction jobs as [|x jobs IH]; intros [|limit] Hfg; [done..|]. cbn [update_matching].
  rewrite !IH by (intros; apply Hfg; by right). by rewrite (Hfg x) by left.
Qed.

(** A queue on which releasing and sorting have nothing left to do. *)
Record steady (now : Z) (jobs : list QueueJob) : Prop := {
  st_sorted : StronglySorted (fun a b => priority_cmp a b <> Gt) jobs;
  st_live : Forall (fun j => lease_expired now j = false) jobs;
}.

Lemma steady_release now jobs : steady now jobs -> map (release_if_expired now) jobs = jobs.
Proof.
  intros [_ Hl]. induction Hl as [|j jobs Hj _ IH]; cbn; [done|]. rewrite IH. unfold release_if_expired. by rewrite Hj.
Qed.

Lemma steady_waiting now jobs : steady now (sort_by priority_cmp (map (release_if_expired now) jobs)).
Proof.
  split; [apply sort_by_sorted, _|]. rewrite sort_by_perm. apply Forall_forall. intros j Hj.
  apply list_elem_of_fmap in Hj as (x&->&_). unfold release_if_expired.
  destruct (lease_expired now x) eqn:Hx; [|done]. unfold lease_expired. cbn. done.
Qed.

Lemma set_queue_same e queue jobs : queues e !! queue = Some jobs -> set_queue e queue jobs = e.
Proof. intros Hq. unfold set_queue. rewrite insert_id by done. by destruct e. Qed.

Section batch.
Context (now now' : Z) (queue : string) (options : QueueClaimOptions).
Context (Hlease : 0 < qc_lease_ms options) (Hnow : 0 <= now <= now') (Hmax : now' < I64_MAX).
Implicit Types e : MemoryEngine.

Lemma leased_live j attempts : lease_expired now (set_leased j attempts now' options) = false.
Proof.
  unfold lease_expired, set_leased. cbn. apply Z.leb_gt. unfold u64_to_i64.
  destruct (Z.leb_spec (qc_lease_ms options) I64_MAX); unfold_ints; lia.
Qed.

Lemma find_mut_steady jobs k jobs' :
  steady now jobs -> find_mut (claimable now') (leased_once now' options) jobs = Some (k, jobs') ->
  steady now jobs'.
Proof.
  intros [Hs Hl] (pre&j&post&->&_&_&_&->)%find_mut_Some. split.
  - apply StronglySorted_app in Hs as (Hlt&Hpre&[Hj Hpost]%StronglySorted_cons).
    apply StronglySorted_app. split_and!; [|done|by apply StronglySorted_cons].
    intros x y Hx [->|Hy]%elem_of_cons; [|apply Hlt; set_solver]. apply (Hlt x j Hx). by left.
  - apply Forall_app in Hl as [Hpre [Hj Hpost]%Forall_cons]. apply Forall_app. split; [done|].
    constructor; [apply leased_live|done].
Qed.

Lemma claim_steady e jobs :
  queues e !! queue = Some jobs -> steady now jobs ->
  claim_job_with_options e now now' queue options =
    match find_mut (claimable now') (leased_once now' options) jobs with
    | None => (Ok None, e)
    | Some (job, jobs) => (Ok (Some job), set_queue e queue jobs)
    end.
Proof.
  intros Hq Hst. rewrite (claim_run _ _ _ _ _ _ Hq). unfold waiting. rewrite Hq. cbn [default from_option id].
  rewrite steady_release by done. rewrite sort_by_id by apply Hst. by rewrite set_queue_same.
Qed.

Lemma claim_repeatedly_steady limit e jobs :
  queues e !! queue = Some jobs -> steady now jobs ->
  claim_repeatedly e now now' queue options limit =
  let '(taken, jobs) := find_mut_repeatedly (claimable now') (leased_once now' options) limit jobs in
  (taken, set_queue e queue jobs).
Proof.
  revert e jobs. induction limit as [|limit IH]; intros e jobs Hq Hst; cbn [claim_repeatedly find_mut_repeatedly].
  { by rewrite set_queue_same. }
  rewrite (claim_steady e jobs Hq Hst). destruct (find_mut _ _ jobs) as [[k l]|] eqn:Hf.
  - rewrite (IH (set_queue e queue l) l) by (eauto using queues_set_queue_eq, find_mut_steady).
    destruct (find_mut_repeatedly _ _ limit l) as [t l']. by rewrite set_queue_twice.
  - by rewrite set_queue_same.
Qed.

(** The first claim of a run sees the queue as its release and sort leave it. *)
Lemma claim_repeatedly_waiting limit e jobs :
  queues e !! queue = Some jobs ->
  claim_repeatedly e now now' queue options (S limit) =
  let '(taken, jobs) := find_mut_repeatedly (claimable now') (leased_once now' options) (S limit)
                          (sort_by priority_cmp (waiting e now queue)) in
  (taken, set_queue e queue jobs).
Proof.
  intros Hq. set (s := sort_by priority_cmp (waiting e now queue)).
  assert (Hst : steady now s) by (unfold s, waiting; rewrite Hq; apply steady_waiting).
  pose proof (claim_repeatedly_steady (S limit) (set_queue e queue s) s (queues_set_queue_eq _ _ _) Hst) as Hrun.
  cbn [claim_repeatedly] in *. rewrite (claim_steady _ s (queues_set_queue_eq _ _ _) Hst) in Hrun.
  rewrite (claim_run _ _ _ _ _ _ Hq). fold s. cbn [find_mut_repeatedly] in *.
  destruct (find_mut _ _ s) as [[k l]|]; [|done]. rewrite set_queue_twice in Hrun. rewrite Hrun.
  destruct (find_mut_repeatedly _ _ limit l) as [t l']. by rewrite set_queue_twice.
Qed.
End batch.

(** ** Properties *)

Section properties.
Implicit Types e : MemoryEngine.

(** C15. No job is ever lost, altered or resurrected: through any sequence of queue
    operations, a job of a queue stays in it with the same payload, priority and attempt
    limit, it moves only along claim, expiry, acknowledgement and rejection, and once
    completed or dead it does not change at all. *)
Theorem jobs_never_lost e ops queue id j :
  queue_inv e -> Forall (op_pushes job_ok) ops -> find_job e queue id = Some j ->
  let e' := foldl run_queue_op e ops in
  queue_inv e' /\
  exists j', find_job e' queue id = Some j' /\ rtc job_step j j' /\
    job_identity j' = job_identity j /\ (is_terminal j -> j' = j).
Proof.
  intros Hinv Hops Hf e'. pose proof (run_queue_ops_effect job_ok e ops Hops) as Heff. fold e' in Heff.
  split; [by eapply (queue_effects_inv job_ok)|].
  destruct (queue_effects_job job_ok e e' queue id j (fun _ H => H) Heff Hinv Hf) as (j'&Hj'&Hs).
  exists j'. split_and!; [done|done|by apply job_steps_identity|by apply job_steps_terminal].
Qed.

(** A lease is exclusive: after a claim returned a job, and through any operations
    that read the clock before the lease expires and do not acknowledge or reject that
    job, the job stays leased unchanged and neither a claim nor a batch claim made before
    the lease expires returns it again. *)
Theorem lease_exclusive e now now' queue options job e1 expires ops :
  queue_inv e -> claim_job_with_options e now now' queue options = (Ok (Some job), e1) ->
  jb_lease_expires_at_ms job = Some expires -> Forall (spares queue (jb_id job) expires) ops ->
  let e2 := foldl run_queue_op e1 ops in
  find_job e2 queue (jb_id job) = Some job /\
  forall t t' options', t < expires ->
    (forall k e3, claim_job_with_options e2 t t' queue options' = (Ok (Some k), e3) -> jb_id k <> jb_id job) /\
    (forall limit ks e3, claim_jobs_with_options e2 t t' queue options' limit = (Ok ks, e3) ->
       forall k, k ∈ ks -> jb_id k <> jb_id job).
Proof.
  intros Hinv Hclaim Hexp Hops e2.
  assert (Hinv1 : queue_inv e1).
  { pose proof (claim_effect job_ok e now now' queue options) as Heff. rewrite Hclaim in Heff.
    by eapply (queue_effects_inv job_ok). }
  assert (leased_until expires job /\ job_in e1 queue job) as [Hleased Hin].
  { destruct (queues e !! queue) as [jobs|] eqn:Hq; [|by rewrite claim_missing in Hclaim].
    rewrite (claim_run _ _ _ _ _ _ Hq) in Hclaim. destruct (find_mut _ _ _) as [[k l]|] eqn:Hf; [|done].
    injection Hclaim as -> <-. apply find_mut_Some in Hf as (pre&x&post&_&_&_&->&->). split; [done|].
    eexists. split; [apply queues_set_queue_eq|]. set_solver. }
  destruct (runs_keep queue job expires Hleased e1 ops Hinv1 Hops Hin) as [Hinv2 Hin2].
  split.
  - apply find_job_iff; [done|]. destruct Hin2 as (jobs&Hq&Hj). eauto.
  - intros t t' options' Ht. split; intros; [by eapply claim_other|by eapply claim_many_other].
Qed.

(** A claim returns nothing exactly when no job is waiting; otherwise it leases a job
    of the highest waiting priority, the earliest in the queue among those, with one more
    attempt and a lease from now; no other job of any queue changes except for leases that
    had expired. *)
Theorem claim_picks_first e now now' queue options :
  queue_inv e ->
  match claim_job_with_options e now now' queue options with
  | (Ok None, e') => forall j, j ∈ waiting e now queue -> claimable now' j = false
  | (Ok (Some job), e') =>
      exists j, j ∈ waiting e now queue /\ claimable now' j = true /\
        job = set_leased j (u32_wrapping_add (jb_attempts j) 1) now' options /\
        (forall k, k ∈ waiting e now queue -> claimable now' k = true -> jb_priority k <= jb_priority j) /\
        List.find (fun k => claimable now' k && (jb_priority k =? jb_priority j)) (waiting e now queue) = Some j /\
        find_job e' queue (jb_id j) = Some job /\
        (forall k, k ∈ waiting e now queue -> jb_id k <> jb_id j -> find_job e' queue (jb_id k) = Some k) /\
        (forall queue', queue' <> queue -> queues e' !! queue' = queues e !! queue')
  | (Err _, _) => False
  end.
Proof.
  intros Hinv. pose proof (claim_effect job_ok e now now' queue options) as Heff.
  destruct (queues e !! queue) as [jobs|] eqn:Hq.
  2: { rewrite claim_missing by done. unfold waiting. rewrite Hq. intros j Hj. by apply elem_of_nil in Hj. }
  rewrite (claim_run _ _ _ _ _ _ Hq) in Heff. rewrite (claim_run _ _ _ _ _ _ Hq). destruct (find_mut _ _ _) as [[job l]|] eqn:Hf.
  - cbn [snd] in Heff. apply (queue_effects_inv job_ok) in Heff; [|done|done].
    apply find_mut_Some in Hf as (pre&j&post&Hs&Hpre&Hj&->&->).
    destruct (first_of_sorted _ _ _ _ _ Hs Hpre Hj) as (Hin&Hfirst&Hmax).
    exists j. split_and!; try done.
    + apply find_job_iff; [done|]. eexists. split_and!; [apply queues_set_queue_eq|set_solver|done].
    + intros k Hk Hne. apply find_job_iff; [done|]. eexists. split_and!; [apply queues_set_queue_eq| |done].
      apply (elem_of_sort_by priority_cmp) in Hk. rewrite Hs in Hk. set_solver.
    + intros q' Hne. rewrite queues_set_queue. by rewrite decide_False.
  - apply find_mut_None in Hf. rewrite Forall_forall in Hf. intros j Hj. by apply Hf, elem_of_sort_by.
Qed.

(** A batch claim of [limit] jobs is [limit] single claims in a row: it returns the
    same jobs in the same order and leaves the same queues, for every positive lease. *)
Theorem batch_claim_equivalent e now now' queue options limit :
  0 <= limit <= MAX_QUEUE_BATCH_ITEMS -> 0 < qc_lease_ms options -> 0 <= now <= now' -> now' < I64_MAX ->
  (forall jobs, queues e !! queue = Some jobs -> Forall (fun j => 0 <= jb_attempts j < U32_MAX) jobs) ->
  claim_jobs_with_options e now now' queue options limit =
  let '(claimed, e') := claim_repeatedly e now now' queue options (Z.to_nat limit) in (Ok claimed, e').
Proof.
  intros Hlimit Hlease Hnow Hmax Hatt. unfold claim_jobs_with_options.
  destruct (Z.ltb_spec MAX_QUEUE_BATCH_ITEMS limit) as [?|_]; [lia|].
  destruct (Z.eqb_spec limit 0) as [->|Hne]; [reflexivity|].
  rewrite queues_release. destruct (queues e !! queue) as [jobs|] eqn:Hq; cbn [fmap option_fmap option_map].
  - replace (Z.to_nat limit) with (S (Nat.pred (Z.to_nat limit))) by lia.
    rewrite (claim_repeatedly_waiting now now' queue options Hlease Hnow Hmax _ e jobs Hq).
    rewrite find_mut_repeatedly_update by done. unfold waiting. rewrite Hq. cbn [default from_option id].
    rewrite (update_matching_ext _ _ (leased_once now' options)).
    + destruct (update_matching _ _ _ _) as [t l]. unfold release_expired_leases. by rewrite Hq, set_queue_twice.
    + intros j Hj. apply elem_of_sort_by, list_elem_of_fmap in Hj as (x&->&Hx).
      specialize (Hatt jobs eq_refl). rewrite Forall_forall in Hatt. specialize (Hatt x Hx).
      assert (Ha : jb_attempts (release_if_expired now x) = jb_attempts x).
      { unfold release_if_expired. by destruct (lease_expired now x). }
      f_equal. rewrite Ha. unfold u32_saturating_add, u32_wrapping_add.
      rewrite Z.mod_small; unfold_ints; lia.
  - unfold release_expired_leases. rewrite Hq. destruct (Z.to_nat limit); [done|]. cbn [claim_repeatedly].
    by rewrite claim_missing.
Qed.

Lemma ack_jobs_accepts e now queue ids :
  (exists completed e', ack_jobs e now queue ids = Some (Ok completed, e')) <->
  zlen ids <= MAX_QUEUE_BATCH_ITEMS /\ NoDup ids /\
  forall id, id ∈ ids -> exists j, find_job e queue id = Some j /\ jb_status j = Leased.
Proof.
  split.
  - intros (c&e'&Hack). assert (Hlen : zlen ids <= MAX_QUEUE_BATCH_ITEMS).
    { unfold ack_jobs in Hack. destruct (Z.ltb_spec MAX_QUEUE_BATCH_ITEMS (zlen ids)); [done|lia]. }
    destruct (ack_jobs_cases e now queue ids) as [[err Heq]|[[-> _]|(jobs&c'&l&Hnd&Hq&_&_&Hall&_)]].
    + congruence.
    + split_and!; [done|constructor|]. intros id Hid. by apply elem_of_nil in Hid.
    + split_and!; [done..|]. intros id Hid. apply list_elem_of_lookup_1 in Hid as [i Hi].
      destruct (Forall2_lookup_l _ _ _ _ _ Hall Hi) as (x&_&j&Hj&Hs&_).
      exists j. unfold find_job. by rewrite Hq.
  - intros (Hlen&Hnd&Hl). unfold ack_jobs.
    destruct (Z.ltb_spec MAX_QUEUE_BATCH_ITEMS (zlen ids)); [lia|].
    rewrite (proj2 (has_duplicate_false ∅ ids)) by (split; [done|set_solver]).
    case_bool_decide as Hnil; [by eauto|].
    destruct ids as [|id0 ids0]; [done|]. set (ids := id0 :: ids0) in *.
    destruct (queues e !! queue) as [jobs|] eqn:Hq.
    2: { destruct (Hl id0) as (j&Hj&_); [left|]. unfold find_job in Hj. by rewrite Hq in Hj. }
    assert (Hl' : forall id, id ∈ ids -> exists j, List.find (has_id id) jobs = Some j /\ jb_status j = Leased).
    { intros id Hid. destruct (Hl id Hid) as (j&Hj&Hs). exists j. unfold find_job in Hj. by rewrite Hq in Hj. }
    rewrite (proj2 (fold_res_unit (check_leased queue jobs) ids ())).
    + destruct (complete_all_run now ids jobs Hnd Hl') as (c&l&Hrun&_). rewrite Hrun. cbn. by eauto.
    + apply Forall_forall. intros id Hid. by apply (check_leased_Ok queue jobs id ()), Hl'.
Qed.

(** A batch acknowledgement is atomic and never panics: it is accepted exactly when
    the ids are distinct, at most 1000 and each names a leased job; then exactly those
    jobs are completed, and when it is refused nothing changes. *)
Theorem batch_ack_atomic e now queue ids :
  match ack_jobs e now queue ids with
  | None => False
  | Some (Err _, e') => e' = e
  | Some (Ok completed, e') =>
      Forall2 (fun id c => exists j, find_job e queue id = Some j /\ jb_status j = Leased /\
        c = set_completed now j /\ find_job e' queue id = Some c) ids completed /\
      forall queue' id, (queue' = queue -> id ∉ ids) -> find_job e' queue' id = find_job e queue' id
  end /\
  ((exists completed e', ack_jobs e now queue ids = Some (Ok completed, e')) <->
   zlen ids <= MAX_QUEUE_BATCH_ITEMS /\ NoDup ids /\
   forall id, id ∈ ids -> exists j, find_job e queue id = Some j /\ jb_status j = Leased).
Proof.
  split; [|apply ack_jobs_accepts].
  destruct (ack_jobs_cases e now queue ids) as [[err ->]|[[-> ->]|(jobs&c&l&_&Hq&_&->&Hold&Hother&Hnew)]]; [done..|].
  assert (Hfind : forall q id, find_job (set_queue e queue l) q id =
                    if decide (queue = q) then List.find (has_id id) l else find_job e q id).
  { intros q id. unfold find_job. rewrite queues_set_queue. by destruct (decide (queue = q)). }
  split.
  - clear Hother. induction Hold as [|id c ids cs (j&Hj&Hs&->) _ IH]; inversion_clear Hnew; constructor; [|by apply IH].
    exists j. rewrite Hfind, decide_True by done. unfold find_job. by rewrite Hq.
  - intros q id Hnin. rewrite Hfind. destruct (decide (queue = q)) as [<-|]; [|done].
    rewrite Hother by auto. unfold find_job. by rewrite Hq.
Qed.

(** Rejecting a leased job moves it to the dead letters exactly when its attempts are
    used up, and otherwise makes it claimable again once the retry delay has passed;
    rejecting a job that is not leased is a conflict and changes nothing. *)
Theorem nack_retries_or_buries e now queue id options :
  queue_inv e ->
  match find_job e queue id, nack_job_with_options e now queue id options with
  | None, r => r = (Ok None, e)
  | Some j, (Err err, e') => jb_status j <> Leased /\ e' = e
  | Some j, (Ok None, _) => False
  | Some j, (Ok (Some j'), e') =>
      jb_status j = Leased /\ find_job e' queue id = Some j' /\ job_identity j' = job_identity j /\
      jb_attempts j' = jb_attempts j /\
      (jb_max_attempts j <= jb_attempts j ->
         jb_status j' = Dead /\ jb_dead_at_ms j' = Some now /\
         exists dead, list_dead_jobs e' queue = Ok dead /\ j' ∈ dead) /\
      (jb_attempts j < jb_max_attempts j ->
         forall t, claimable t j' = true <-> i64_saturating_add now (u64_to_i64 (qn_delay_ms options)) <= t)
  end.
Proof.
  intros Hinv. pose proof (nack_job_effect job_ok e now queue id options) as Heff.
  unfold nack_job_with_options in *. destruct (find_job e queue id) as [j|] eqn:Hf; [|done].
  case_bool_decide as Hs; [done|].
  destruct (update_job_run e queue id (set_nacked now options) j Hf) as (jobs&jobs'&Hq&Hm&Hrun).
  rewrite Hrun in Heff. rewrite Hrun. cbn [snd] in Heff.
  apply (queue_effects_inv job_ok) in Heff; [|done|done].
  apply find_mut_Some in Hm as (pre&x&post&->&_&Hx%has_id_true&Heq&->).
  apply find_job_iff in Hf as (old&_&_&Hid); [|done].
  split_and!; [done| |apply set_nacked_identity| | |].
  - apply find_job_iff; [done|]. eexists. split_and!; [apply queues_set_queue_eq|rewrite Heq; set_solver|].
    rewrite (identity_id j) by apply set_nacked_identity. done.
  - unfold set_nacked. by destruct (_ <=? _).
  - intros Hle. unfold set_nacked at 1 2. rewrite (proj2 (Z.leb_le _ _) Hle). split_and!; [done..|].
    eexists. split; [done|]. rewrite queues_set_queue_eq. cbn. apply list_elem_of_In, filter_In. split.
    + apply list_elem_of_In. rewrite Heq. set_solver.
    + unfold is_dead, set_nacked. by rewrite (proj2 (Z.leb_le _ _) Hle).
  - intros Hlt t. unfold set_nacked. rewrite (proj2 (Z.leb_gt _ _) Hlt), claimable_true. cbn. naive_solver.
Qed.
End properties.

(** A worker that claims the job every [10] ms with a lease of [10] ms and never answers. *)
Definition crashing_worker (max_attempts : Z) (claims : nat) : MemoryEngine :=
  foldl (fun e i => run_queue_op e (OpClaim (10 * Z.of_nat i) (10 * Z.of_nat i) "q" (mkClaimOptions 10)))
    (push_job new_engine (new_job "q" "a" "" max_attempts)).2 (seq 0 claims).

Lemma crashing_worker_state max_attempts n :
  Z.of_nat n < U32_MAX -> exists j, queues (crashing_worker max_attempts (S n)) = {["q" := [j]]} /\
    leased_until (10 * Z.of_nat n + 10) j /\ jb_attempts j = Z.of_nat (S n) /\ jb_id j = "a" /\
    jb_available_at_ms j = 0 /\ jb_max_attempts j = max_attempts.
Proof.
  intros Hn. induction n as [|n IH].
  { eexists. split; [vm_compute; reflexivity|]. done. }
  destruct IH as (j&Hq&[Hs Ht]&Hatt&Hid&Hav&Hmax); [lia|].
  unfold crashing_worker in *. rewrite seq_S, foldl_app. set (e := foldl _ _ (seq 0 (S n))) in *.
  cbn [foldl run_queue_op plus]. eexists.
  assert (Hexp : lease_expired (10 * Z.of_nat (S n)) j = true).
  { unfold lease_expired. rewrite Hs, Ht. cbn. apply Z.leb_le. lia. }
  assert (Hw : waiting e (10 * Z.of_nat (S n)) "q" = [release_lease j]).
  { unfold waiting. rewrite Hq, lookup_singleton_eq. cbn [default from_option id map].
    unfold release_if_expired. by rewrite Hexp. }
  assert (Hlook : queues e !! "q" = Some [j]) by (by rewrite Hq, lookup_singleton_eq).
  rewrite (claim_run _ _ _ _ _ _ Hlook), Hw. cbn [sort_by fold_right insert_by find_mut].
  assert (Hc : claimable (10 * Z.of_nat (S n)) (release_lease j) = true).
  { apply claimable_true. split; [done|]. cbn. rewrite Hav. lia. }
  rewrite Hc. cbn [snd set_queue set_queues queues]. split; [rewrite Hq; apply insert_singleton_eq|].
  split_and!; try done.
  - split; [done|]. cbn. f_equal. unfold u64_to_i64. unfold_ints. cbn. lia.
  - cbn. rewrite Hatt. unfold u32_wrapping_add. rewrite Z.mod_small; unfold_ints; lia.
Qed.

(** Attempts are only checked on rejection: a job whose worker never answers is handed
    out again each time its lease expires, whatever its attempt limit, and is never moved
    to the dead letters. *)
Theorem expiry_ignores_max_attempts max_attempts n :
  Z.of_nat n < U32_MAX ->
  let e := crashing_worker max_attempts (S n) in
  exists j, find_job e "q" "a" = Some j /\ jb_status j = Leased /\ jb_attempts j = Z.of_nat n + 1 /\
    jb_max_attempts j = max_attempts /\ list_dead_jobs e "q" = Ok [].
Proof.
  intros Hn e. destruct (crashing_worker_state max_attempts n Hn) as (j&Hq&[Hs _]&Hatt&Hid&_&Hmax).
  fold e in Hq. exists j. unfold find_job, list_dead_jobs, is_dead. rewrite Hq, lookup_singleton_eq. cbn.
  unfold has_id. rewrite Hid, Hs. cbn. split_and!; [done..|lia|done|done].
Qed.

(** ** Witnesses *)

Lemma new_engine_queue_inv : queue_inv new_engine.
Proof. intros q jobs Hq. unfold new_engine in Hq. cbn [queues] in Hq. by rewrite lookup_empty in Hq. Qed.

Definition sample_jobs : list QueueOp :=
  [OpPush (new_job "q" "a" "x" 3); OpPush (with_priority (new_job "q" "b" "y" 1) 5);
   OpPush (with_priority (new_job "q" "c" "z" 1) 5)].
Definition sample_queue : MemoryEngine := foldl run_queue_op new_engine sample_jobs.

Lemma sample_pushes : Forall (op_pushes job_ok) sample_jobs.
Proof. repeat constructor. Qed.

Lemma sample_queue_inv : queue_inv sample_queue.
Proof.
  eapply (queue_effects_inv job_ok); [done| |apply new_engine_queue_inv].
  apply run_queue_ops_effect, sample_pushes.
Qed.

Definition sample_rest : list QueueOp :=
  [OpClaim 10 10 "q" (mkClaimOptions 100); OpAck 20 "q" "b"; OpClaimMany 30 30 "q" (mkClaimOptions 100) 2;
   OpNack 40 "q" "c" (mkNackOptions 5 "boom")].

Lemma jobs_never_lost_witness :
  let e' := foldl run_queue_op sample_queue sample_rest in
  queue_inv e' /\
  exists j', find_job e' "q" "a" = Some j' /\ rtc job_step (new_job "q" "a" "x" 3) j' /\
    job_identity j' = job_identity (new_job "q" "a" "x" 3) /\
    (is_terminal (new_job "q" "a" "x" 3) -> j' = new_job "q" "a" "x" 3).
Proof.
  refine (jobs_never_lost sample_queue sample_rest "q" "a" (new_job "q" "a" "x" 3) _ _ _).
  - exact sample_queue_inv.
  - repeat constructor.
  - vm_compute. reflexivity.
Defined.

Definition sample_claimed : MemoryEngine := (claim_job_with_options sample_queue 10 10 "q" (mkClaimOptions 100)).2.
Definition sample_job : QueueJob :=
  set_leased (with_priority (new_job "q" "b" "y" 1) 5) 1 10 (mkClaimOptions 100).

Lemma lease_exclusive_witness :
  let e2 := foldl run_queue_op sample_claimed [OpClaim 50 50 "q" (mkClaimOptions 100); OpAck 60 "q" "c"] in
  find_job e2 "q" "b" = Some sample_job /\
  forall t t' options', t < 110 ->
    (forall k e3, claim_job_with_options e2 t t' "q" options' = (Ok (Some k), e3) -> jb_id k <> "b") /\
    (forall limit ks e3, claim_jobs_with_options e2 t t' "q" options' limit = (Ok ks, e3) ->
       forall k, k ∈ ks -> jb_id k <> "b").
Proof.
  refine (lease_exclusive sample_queue 10 10 "q" (mkClaimOptions 100) sample_job sample_claimed 110
    [OpClaim 50 50 "q" (mkClaimOptions 100); OpAck 60 "q" "c"] sample_queue_inv _ _ _).
  - vm_compute. reflexivity.
  - vm_compute. reflexivity.
  - apply Forall_cons. split; [cbn; lia|]. apply Forall_cons. split; [cbn; intros _; discriminate|].
    apply Forall_nil. exact I.
Defined.

Lemma claim_picks_first_witness :
  exists j e', claim_job_with_options sample_queue 10 10 "q" (mkClaimOptions 100) = (Ok (Some sample_job), e') /\
    sample_job = set_leased j (u32_wrapping_add (jb_attempts j) 1) 10 (mkClaimOptions 100) /\
    (forall k, k ∈ waiting sample_queue 10 "q" -> claimable 10 k = true -> jb_priority k <= jb_priority j).
Proof.
  pose proof (claim_picks_first sample_queue 10 10 "q" (mkClaimOptions 100) sample_queue_inv) as H.
  assert (Hrun : claim_job_with_options sample_queue 10 10 "q" (mkClaimOptions 100) = (Ok (Some sample_job), sample_claimed))
    by (vm_compute; reflexivity).
  rewrite Hrun in H. destruct H as (j&_&_&Hj&Hmax&_). exists j, sample_claimed. exact (conj Hrun (conj Hj Hmax)).
Defined.

Lemma batch_claim_equivalent_witness :
  claim_jobs_with_options sample_queue 10 10 "q" (mkClaimOptions 100) 2 =
  let '(claimed, e') := claim_repeatedly sample_queue 10 10 "q" (mkClaimOptions 100) (Z.to_nat 2) in (Ok claimed, e').
Proof.
  refine (batch_claim_equivalent sample_queue 10 10 "q" (mkClaimOptions 100) 2 _ _ _ _ _).
  - unfold MAX_QUEUE_BATCH_ITEMS. lia.
  - cbn. lia.
  - lia.
  - unfold_ints. lia.
  - intros jobs Hq. vm_compute in Hq. injection Hq as <-. unfold U32_MAX. apply Forall_forall. intros j Hj.
    repeat (apply elem_of_cons in Hj as [->|Hj]; [cbn; lia|]). by apply elem_of_nil in Hj.
Defined.

Lemma nack_retries_or_buries_witness :
  match find_job sample_claimed "q" "b", nack_job_with_options sample_claimed 50 "q" "b" (mkNackOptions 5 "boom") with
  | Some j, (Ok (Some j'), e') => jb_status j' = Dead
  | _, _ => False
  end.
Proof.
  assert (Hinv : queue_inv sample_claimed).
  { eapply (queue_effects_inv job_ok); [done|apply claim_effect|apply sample_queue_inv]. }
  pose proof (nack_retries_or_buries sample_claimed 50 "q" "b" (mkNackOptions 5 "boom") Hinv) as H.
  assert (Hf : find_job sample_claimed "q" "b" = Some sample_job) by (vm_compute; reflexivity).
  rewrite Hf in *. destruct (nack_job_with_options _ _ _ _ _) as [[[j'|]|err] e'].
  - destruct H as (_&_&_&_&Hdead&_). apply Hdead. vm_compute. discriminate.
  - exact H.
  - destruct H as [H _]. apply H. reflexivity.
Defined.

Lemma expiry_ignores_max_attempts_witness :
  exists j, find_job (crashing_worker 1 5) "q" "a" = Some j /\ jb_status j = Leased /\
    jb_attempts j = Z.of_nat 4 + 1 /\ jb_max_attempts j = 1 /\ list_dead_jobs (crashing_worker 1 5) "q" = Ok [].
Proof. refine (expiry_ignores_max_attempts 1 4 _). unfold_ints. lia. Defined.
