(* ===== verification/Events.v ===== *)
(** * thingd: event log of the in-memory engine

    Models [impl EventLog for MemoryEngine] of [crates/thingd/src/in_memory.rs]
    with the batch default of the [EventLog] trait of [store.rs].  The log is one
    list of events of all streams in append order; [next_event_sequence] is a
    [u64] that wraps around in a release build. *)

From S2P Require Import Prelude Model Objects.

(** ** Operations *)

Definition is_protected_stream (stream : string) : bool := bool_decide (stream = "__thingd:mcp:audit").

Definition with_sequence (ev : MemoryEvent) (sequence : Z) (now : string) : MemoryEvent :=
  mkEvent (ev_stream ev) (ev_event_type ev) (ev_body ev) sequence
    (if bool_decide (ev_created_at ev = "") then now else ev_created_at ev) (ev_idempotency_key ev).

(** The event already logged under the stream and idempotency key. *)
Definition known_event (e : MemoryEngine) (ev : MemoryEvent) : option MemoryEvent :=
  if bool_decide (ev_idempotency_key ev = "") then None else
  existing_seq ← event_idempotency_keys e !! (ev_stream ev, ev_idempotency_key ev);
  List.find (fun x => ev_sequence x =? existing_seq) (events e).

Definition append_event (e : MemoryEngine) (now : string) (ev : MemoryEvent)
    : thingd_result MemoryEvent * MemoryEngine :=
  match known_event e ev with
  | Some existing => (Ok existing, e)
  | None =>
      let sequence := u64_wrapping_add (next_event_sequence e) 1 in
      let ev := with_sequence ev sequence now in
      let keys := if bool_decide (ev_idempotency_key ev = "") then event_idempotency_keys e
                  else <[(ev_stream ev, ev_idempotency_key ev) := sequence]> (event_idempotency_keys e) in
      (Ok ev, set_events e (events e ++ [ev]) sequence keys)
  end.

(** Each event with the clock reading of its append. *)
Fixpoint append_events_batch (e : MemoryEngine) (evs : list (string * MemoryEvent))
    : thingd_result (list MemoryEvent) * MemoryEngine :=
  match evs with
  | [] => (Ok [], e)
  | (now, ev) :: evs =>
      match append_event e now ev with
      | (Err err, e) => (Err err, e)
      | (Ok appended, e) =>
          match append_events_batch e evs with
          | (Ok results, e) => (Ok (appended :: results), e)
          | (Err err, e) => (Err err, e)
          end
      end
  end.

Definition in_stream (stream : option string) (ev : MemoryEvent) : bool :=
  match stream with None => true | Some target => bool_decide (ev_stream ev = target) end.
Definition after_sequence (from : option Z) (ev : MemoryEvent) : bool :=
  match from with None => true | Some seq => seq <? ev_sequence ev end.
Definition created_since (since : option string) (ev : MemoryEvent) : bool :=
  match since with None => true | Some since => key_leb since (ev_created_at ev) end.

Definition list_events (e : MemoryEngine) (stream : option string) (options : ListEventsOptions)
    : thingd_result (list MemoryEvent) :=
  let evs := List.filter (created_since (le_since options))
               (List.filter (after_sequence (le_from_sequence options))
                  (List.filter (in_stream stream) (events e))) in
  Ok (match le_limit options with Some limit => take (Z.to_nat limit) evs | None => evs end).

Definition count_events (e : MemoryEngine) : thingd_result Z := Ok (zlen (events e)).

Definition list_streams (e : MemoryEngine) : thingd_result (list string) :=
  Ok (dedup (sort_strings (map ev_stream (events e)))).

Definition protected_error (stream : string) : ThingdError :=
  Protected ("stream '" +:+ stream +:+ "' is protected and cannot be modified").

(** [rposition] and [remove]: the last matching event and the log without it. *)
Fixpoint remove_last (p : MemoryEvent -> bool) (evs : list MemoryEvent) : option (MemoryEvent * list MemoryEvent) :=
  match evs with
  | [] => None
  | ev :: evs =>
      match remove_last p evs with
      | Some (found, rest) => Some (found, ev :: rest)
      | None => if p ev then Some (ev, evs) else None
      end
  end.

Definition delete_last_event (e : MemoryEngine) (stream : string)
    : thingd_result (option MemoryEvent) * MemoryEngine :=
  if is_protected_stream stream then (Err (protected_error stream), e) else
  match remove_last (in_stream (Some stream)) (events e) with
  | Some (ev, evs) => (Ok (Some ev), set_events e evs (next_event_sequence e) (event_idempotency_keys e))
  | None => (Ok None, e)
  end.

Definition delete_stream (e : MemoryEngine) (stream : string) : thingd_result Z * MemoryEngine :=
  if is_protected_stream stream then (Err (protected_error stream), e) else
  let kept := List.filter (fun ev => negb (in_stream (Some stream) ev)) (events e) in
  (Ok (zlen (events e) - zlen kept),
   set_events e kept (next_event_sequence e) (event_idempotency_keys e)).

(** ** Runs *)

Inductive EventOp :=
| OpAppend (now : string) (ev : MemoryEvent)
| OpAppendBatch (evs : list (string * MemoryEvent))
| OpDeleteLast (stream : string)
| OpDeleteStream (stream : string).

Definition run_event_op (e : MemoryEngine) (op : EventOp) : MemoryEngine :=
  match op with
  | OpAppend now ev => (append_event e now ev).2
  | OpAppendBatch evs => (append_events_batch e evs).2
  | OpDeleteLast stream => (delete_last_event e stream).2
  | OpDeleteStream stream => (delete_stream e stream).2
  end.

(** How many sequence numbers an operation may take. *)
Definition op_appends (op : EventOp) : Z :=
  match op with OpAppend _ _ => 1 | OpAppendBatch evs => zlen evs | _ => 0 end.
Definition total_appends (ops : list EventOp) : Z := fold_right (fun op n => op_appends op + n) 0 ops.

(** ** The invariant *)

Definition keyed (ev : MemoryEvent) : Prop := ev_idempotency_key ev <> "".

Record event_inv (e : MemoryEngine) : Prop := {
  ei_sorted : StronglySorted (fun a b => ev_sequence a < ev_sequence b) (events e);
  ei_range : Forall (fun ev => 0 < ev_sequence ev <= next_event_sequence e) (events e);
  ei_next : 0 <= next_event_sequence e <= U64_MAX;
  ei_keys : forall ev, ev ∈ events e -> keyed ev ->
    event_idempotency_keys e !! (ev_stream ev, ev_idempotency_key ev) = Some (ev_sequence ev);
  ei_back : forall stream key seq ev, event_idempotency_keys e !! (stream, key) = Some seq ->
    ev ∈ events e -> ev_sequence ev = seq -> ev_stream ev = stream /\ ev_idempotency_key ev = key;
  ei_key_range : forall k seq, event_idempotency_keys e !! k = Some seq -> seq <= next_event_sequence e;
}.

Lemma sequences_inj e a b :
  event_inv e -> a ∈ events e -> b ∈ events e -> ev_sequence a = ev_sequence b -> a = b.
Proof.
  intros [Hs _ _ _ _ _]. induction Hs as [|x l _ IH Hall]; intros Ha Hb Heq; [by apply elem_of_nil in Ha|].
  rewrite Forall_forall in Hall. apply elem_of_cons in Ha as [->|Ha], Hb as [->|Hb]; try done.
  - specialize (Hall b Hb). lia.
  - specialize (Hall a Ha). lia.
  - by apply IH.
Qed.

Lemma known_event_iff e ev x :
  event_inv e ->
  known_event e ev = Some x <->
  keyed ev /\ x ∈ events e /\ ev_stream x = ev_stream ev /\ ev_idempotency_key x = ev_idempotency_key ev.
Proof.
  intros Hinv. unfold known_event, keyed. case_bool_decide as Hk; [by split; [|intros [? _]]|].
  destruct (event_idempotency_keys e !! _) as [seq|] eqn:Hseq; cbn.
  - split.
    + intros [Hin%list_elem_of_In Heq%Z.eqb_eq]%find_some.
      destruct (ei_back e Hinv _ _ _ x Hseq Hin Heq). done.
    + intros (_&Hin&Hst&Hkey). destruct (List.find _ (events e)) as [y|] eqn:Hf.
      * apply find_some in Hf as [Hy%list_elem_of_In Heq%Z.eqb_eq]. f_equal.
        apply (sequences_inj e); [done..|]. rewrite Heq.
        assert (Hx := ei_keys e Hinv x Hin). unfold keyed in Hx. rewrite Hst, Hkey, Hseq in Hx.
        specialize (Hx Hk). congruence.
      * exfalso. apply list_elem_of_In in Hin as Hin'. pose proof (find_none _ _ Hf x Hin') as Hn.
        assert (Hx := ei_keys e Hinv x Hin). unfold keyed in Hx. rewrite Hst, Hkey, Hseq in Hx.
        specialize (Hx Hk). injection Hx as ->. by rewrite Z.eqb_refl in Hn.
  - split; [done|]. intros (_&Hin&Hst&Hkey). assert (Hx := ei_keys e Hinv x Hin). unfold keyed in Hx.
    rewrite Hst, Hkey, Hseq in Hx. by specialize (Hx Hk).
Qed.

(** Deleting events keeps the invariant. *)
Lemma remove_last_Some p evs ev rest :
  remove_last p evs = Some (ev, rest) <->
  exists pre post, evs = pre ++ ev :: post /\ rest = pre ++ post /\ p ev = true /\ Forall (fun x => p x = false) post.
Proof.
  revert ev rest. induction evs as [|x evs IH]; intros ev rest; cbn [remove_last].
  { split; [done|]. intros (pre&post&Heq&_). by destruct pre. }
  destruct (remove_last p evs) as [[found l]|] eqn:Hr.
  - split.
    + intros [= -> <-]. destruct (proj1 (IH ev l) eq_refl) as (pre&post&->&->&Hp&Hpost). by exists (x :: pre), post.
    + intros ([|y pre]&post&[= -> ->]&->&Hp&Hpost).
      * destruct (proj1 (IH found l) eq_refl) as (pre'&post'&->&->&Hp'&_).
        apply Forall_app in Hpost as [_ [Hpost _]%Forall_cons]. congruence.
      * assert (Hsome : Some (found, l) = Some (ev, pre ++ post)) by (apply IH; by exists pre, post).
        by injection Hsome as -> ->.
  - destruct (p x) eqn:Hx.
    + split.
      * intros [= -> ->]. exists [], rest. split_and!; try done.
        apply Forall_forall. intros y Hy. destruct (p y) eqn:Hpy; [|done]. exfalso.
        apply list_elem_of_split in Hy as (l1&l2&->). clear IH Hx.
        induction l1 as [|z l1 IHl]; cbn [app remove_last] in Hr.
        { rewrite Hpy in Hr. by destruct (remove_last p l2) as [[]|]. }
        destruct (remove_last p (l1 ++ y :: l2)) as [[]|]; [done|by apply IHl].
      * intros ([|y pre]&post&[= -> ->]&->&Hp&Hpost); [done|].
        assert (@None (MemoryEvent * list MemoryEvent) = Some (ev, pre ++ post)); [|done]. apply IH. by exists pre, post.
    + split; [done|]. intros ([|y pre]&post&[= -> ->]&->&Hp&Hpost); [congruence|].
      assert (@None (MemoryEvent * list MemoryEvent) = Some (ev, pre ++ post)); [|done]. apply IH. by exists pre, post.
Qed.

Lemma sublist_inv e evs :
  sublist evs (events e) -> event_inv e ->
  event_inv (set_events e evs (next_event_sequence e) (event_idempotency_keys e)).
Proof.
  intros Hsub [Hs Hr Hn Hk Hb Hkr].
  assert (Hin : forall ev, ev ∈ evs -> ev ∈ events e).
  { intros ev Hev. by eapply elem_of_sublist. }
  split; cbn [events next_event_sequence event_idempotency_keys set_events]; try done.
  - by eapply StronglySorted_sublist.
  - by eapply sublist_all.
  - intros ev Hev. by apply Hk, Hin.
  - intros s k n ev Hlook Hev. by apply (Hb s k n ev Hlook), Hin.
Qed.

Lemma delete_last_inv e stream : event_inv e -> event_inv (delete_last_event e stream).2.
Proof.
  intros Hinv. unfold delete_last_event. destruct (is_protected_stream stream); [done|].
  destruct (remove_last _ _) as [[ev evs]|] eqn:Hr; [|done]. cbn [snd]. apply sublist_inv; [|done].
  apply remove_last_Some in Hr as (pre&post&->&->&_). apply sublist_app; [done|]. by constructor.
Qed.

Lemma delete_stream_inv e stream : event_inv e -> event_inv (delete_stream e stream).2.
Proof.
  intros Hinv. unfold delete_stream. destruct (is_protected_stream stream); [done|].
  apply sublist_inv; [apply filter_sublist|done].
Qed.

(** An append either finds the event under its key or adds it with the next number. *)
Lemma append_event_cases e now ev :
  (exists x, known_event e ev = Some x /\ append_event e now ev = (Ok x, e)) \/
  (known_event e ev = None /\ exists keys,
     append_event e now ev =
       (Ok (with_sequence ev (u64_wrapping_add (next_event_sequence e) 1) now),
        set_events e (events e ++ [with_sequence ev (u64_wrapping_add (next_event_sequence e) 1) now])
          (u64_wrapping_add (next_event_sequence e) 1) keys) /\
     keys = if bool_decide (ev_idempotency_key ev = "") then event_idempotency_keys e
            else <[(ev_stream ev, ev_idempotency_key ev) := u64_wrapping_add (next_event_sequence e) 1]>
                   (event_idempotency_keys e)).
Proof. unfold append_event. destruct (known_event e ev) as [x|]; [left|right]; eauto. Qed.

Lemma append_event_inv e now ev :
  event_inv e -> next_event_sequence e < U64_MAX ->
  event_inv (append_event e now ev).2 /\ next_event_sequence e <= next_event_sequence (append_event e now ev).2
    <= next_event_sequence e + 1.
Proof.
  intros Hinv Hlt. destruct (append_event_cases e now ev) as [(x&_&->)|(Hnone&keys&->&Hkeys)]; cbn [snd]; [split; [done|lia]|].
  destruct Hinv as [Hs Hr Hn Hk Hb Hkr] eqn:Heq. clear Heq.
  assert (Hseq : u64_wrapping_add (next_event_sequence e) 1 = next_event_sequence e + 1).
  { unfold u64_wrapping_add. rewrite Z.mod_small; unfold_ints; lia. }
  rewrite Hseq in *. set (ev' := with_sequence ev (next_event_sequence e + 1) now) in *.
  assert (Hbelow : forall x, x ∈ events e -> ev_sequence x <= next_event_sequence e).
  { intros x Hx. rewrite Forall_forall in Hr. apply Hr in Hx. lia. }
  split; [|cbn; lia]. split; cbn [events next_event_sequence event_idempotency_keys set_events].
  - apply StronglySorted_app_2; [|done|by repeat constructor].
    intros a b Ha ->%list_elem_of_singleton. specialize (Hbelow a Ha). cbn. lia.
  - apply Forall_app. split; [|constructor; [cbn; lia|done]].
    eapply Forall_impl; [exact Hr|]. cbn. lia.
  - lia.
  - intros x Hx Hxk. subst keys. apply elem_of_app in Hx as [Hx|Hx].
    + case_bool_decide as Hkey; [by apply Hk|]. rewrite lookup_insert_ne; [by apply Hk|].
      intros [= Hst Hkx]. assert (known_event e ev = Some x); [|congruence].
      apply known_event_iff; [done|]. done.
    + apply list_elem_of_singleton in Hx as ->. unfold keyed in Hxk. cbn in *.
      rewrite bool_decide_false by done. apply lookup_insert_eq.
  - intros s k n x Hlook Hx Hnx. subst keys. apply elem_of_app in Hx as [Hx|Hx].
    + case_bool_decide; [by eapply Hb|]. apply lookup_insert_Some in Hlook as [[_ Hn']|[_ Hlook]]; [|by eapply Hb].
      specialize (Hbelow x Hx). lia.
    + apply list_elem_of_singleton in Hx as ->. cbn in Hnx.
      case_bool_decide; [specialize (Hkr _ _ Hlook); lia|].
      apply lookup_insert_Some in Hlook as [[[= <- <-] _]|[_ Hlook]]; [done|]. specialize (Hkr _ _ Hlook). lia.
  - intros k n Hlook. subst keys. case_bool_decide; [specialize (Hkr _ _ Hlook); lia|].
    apply lookup_insert_Some in Hlook as [[_ <-]|[_ Hlook]]; [lia|]. specialize (Hkr _ _ Hlook). lia.
Qed.

Lemma append_batch_inv e evs :
  event_inv e -> next_event_sequence e + zlen evs <= U64_MAX ->
  event_inv (append_events_batch e evs).2 /\
  next_event_sequence e <= next_event_sequence (append_events_batch e evs).2 <= next_event_sequence e + zlen evs.
Proof.
  revert e. induction evs as [|[now ev] evs IH]; intros e Hinv Hle; cbn [append_events_batch].
  { cbn [snd length]. split; [done|lia]. }
  cbn [length] in *. destruct (append_event_inv e now ev Hinv) as [Hinv1 Hnext]; [lia|].
  destruct (append_event e now ev) as [[x|err] e1]; cbn [snd] in *; [|split; [done|lia]].
  destruct (IH e1 Hinv1) as [Hinv2 Hnext2]; [lia|].
  destruct (append_events_batch e1 evs) as [[l|err] e2]; cbn [snd] in *; (split; [done|lia]).
Qed.

Lemma delete_next e stream :
  next_event_sequence (delete_last_event e stream).2 = next_event_sequence e /\
  next_event_sequence (delete_stream e stream).2 = next_event_sequence e.
Proof.
  unfold delete_last_event, delete_stream. destruct (is_protected_stream stream); [done|].
  by destruct (remove_last _ _) as [[]|].
Qed.

Lemma run_event_op_inv e op :
  event_inv e -> next_event_sequence e + op_appends op <= U64_MAX ->
  event_inv (run_event_op e op) /\
  next_event_sequence e <= next_event_sequence (run_event_op e op) <= next_event_sequence e + op_appends op.
Proof.
  destruct op as [now ev|evs|stream|stream]; cbn [run_event_op op_appends]; intros Hinv Hle.
  - apply append_event_inv; [done|lia].
  - by apply append_batch_inv.
  - split; [by apply delete_last_inv|]. rewrite (proj1 (delete_next e stream)). lia.
  - split; [by apply delete_stream_inv|]. rewrite (proj2 (delete_next e stream)). lia.
Qed.

Lemma total_appends_nonneg ops : 0 <= total_appends ops.
Proof.
  induction ops as [|op ops IH]; unfold total_appends in *; cbn [fold_right]; [done|].
  assert (0 <= op_appends op) by (destruct op; cbn [op_appends]; lia). lia.
Qed.

Lemma run_event_ops_inv e ops :
  event_inv e -> next_event_sequence e + total_appends ops <= U64_MAX ->
  event_inv (foldl run_event_op e ops) /\ next_event_sequence e <= next_event_sequence (foldl run_event_op e ops).
Proof.
  revert e. induction ops as [|op ops IH]; intros e Hinv Hle; cbn [foldl total_appends fold_right] in *; [done|].
  fold (total_appends ops) in Hle. pose proof (total_appends_nonneg ops).
  destruct (run_event_op_inv e op Hinv) as [Hinv1 Hnext]; [lia|].
  destruct (IH (run_event_op e op) Hinv1) as [Hinv2 Hnext2]; [lia|]. split; [done|lia].
Qed.

Lemma append_event_new e now ev x :
  next_event_sequence e < U64_MAX -> 0 <= next_event_sequence e ->
  x ∈ events (append_event e now ev).2 -> x ∈ events e \/ next_event_sequence e < ev_sequence x.
Proof.
  intros Hlt Hnn. destruct (append_event_cases e now ev) as [(y&_&->)|(_&keys&->&_)]; cbn [snd]; [by left|].
  intros [Hx|Hx%list_elem_of_singleton]%elem_of_app; [by left|]. right. rewrite Hx. cbn.
  unfold u64_wrapping_add. rewrite Z.mod_small; unfold_ints; lia.
Qed.

Lemma append_batch_new e evs x :
  event_inv e -> next_event_sequence e + zlen evs <= U64_MAX ->
  x ∈ events (append_events_batch e evs).2 -> x ∈ events e \/ next_event_sequence e < ev_sequence x.
Proof.
  revert e. induction evs as [|[now ev] evs IH]; intros e Hinv Hle; cbn [append_events_batch]; [by left|].
  cbn [length] in *. pose proof (ei_next e Hinv). destruct (append_event_inv e now ev Hinv) as [Hinv1 Hnext]; [lia|].
  pose proof (append_event_new e now ev x) as Hone.
  destruct (append_event e now ev) as [[y|err] e1]; cbn [snd] in *; [|apply Hone; lia].
  specialize (IH e1 Hinv1). destruct (append_events_batch e1 evs) as [[l|err] e2]; cbn [snd] in *;
    (intros Hx; destruct IH as [Hin|Hlt]; [lia|done|apply Hone; [lia|lia|done]|right; lia]).
Qed.

Lemma run_event_op_new e op x :
  event_inv e -> next_event_sequence e + op_appends op <= U64_MAX ->
  x ∈ events (run_event_op e op) -> x ∈ events e \/ next_event_sequence e < ev_sequence x.
Proof.
  intros Hinv Hle. pose proof (ei_next e Hinv). destruct op as [now ev|evs|s|s]; cbn [run_event_op op_appends] in *.
  - apply append_event_new; lia.
  - by apply append_batch_new.
  - unfold delete_last_event. destruct (is_protected_stream s); [by left|].
    destruct (remove_last _ _) as [[ev evs]|] eqn:Hr; [|by left]. cbn [snd events set_events].
    apply remove_last_Some in Hr as (pre&post&->&->&_). intros Hx. left. set_solver.
  - unfold delete_stream. destruct (is_protected_stream s); [by left|]. cbn [snd events set_events].
    intros [Hx _]%elem_of_filter_bool. by left.
Qed.

(** What an operation keeps and what it adds, stream by stream. *)
Definition deletes (stream : string) (op : EventOp) : Prop :=
  match op with
  | OpDeleteLast s | OpDeleteStream s => s = stream /\ is_protected_stream s = false
  | _ => False
  end.

Abbreviation stream_events e stream := (List.filter (in_stream (Some stream)) (events e)).

Lemma append_event_grows e now ev : exists new, events (append_event e now ev).2 = events e ++ new.
Proof.
  destruct (append_event_cases e now ev) as [(x&_&->)|(_&keys&->&_)]; [exists []; by rewrite app_nil_r|by eexists].
Qed.

Lemma append_batch_grows e evs : exists new, events (append_events_batch e evs).2 = events e ++ new.
Proof.
  revert e. induction evs as [|[now ev] evs IH]; intros e; cbn [append_events_batch]; [exists []; by rewrite app_nil_r|].
  destruct (append_event_grows e now ev) as [new Hnew]. destruct (append_event e now ev) as [[x|err] e1]; cbn [snd] in *; [|eauto].
  destruct (IH e1) as [new2 Hnew2]. destruct (append_events_batch e1 evs) as [[l|err] e2]; cbn [snd] in *;
    exists (new ++ new2); rewrite Hnew2, Hnew; by rewrite <-app_assoc.
Qed.

Lemma in_stream_ne s stream ev : s <> stream -> in_stream (Some s) ev = true -> in_stream (Some stream) ev = false.
Proof. cbn. rewrite bool_decide_eq_true, bool_decide_eq_false. congruence. Qed.

Lemma run_event_op_grows e op stream :
  ~ deletes stream op -> exists new, stream_events (run_event_op e op) stream = stream_events e stream ++ new.
Proof.
  destruct op as [now ev|evs|s|s]; cbn [run_event_op deletes]; intros Hdel.
  - destruct (append_event_grows e now ev) as [new ->]. rewrite List.filter_app. eauto.
  - destruct (append_batch_grows e evs) as [new ->]. rewrite List.filter_app. eauto.
  - exists []. rewrite app_nil_r. unfold delete_last_event. destruct (is_protected_stream s) eqn:Hp; [done|].
    destruct (remove_last _ _) as [[ev evs]|] eqn:Hr; [|done]. cbn [snd events set_events].
    apply remove_last_Some in Hr as (pre&post&->&->&Hs&_). rewrite !List.filter_app. cbn [List.filter].
    rewrite (in_stream_ne s stream ev) by (done || naive_solver). done.
  - exists []. rewrite app_nil_r. unfold delete_stream. destruct (is_protected_stream s) eqn:Hp; [done|].
    cbn [snd events set_events]. generalize (events e) as l. induction l as [|ev l IH]; cbn [List.filter]; [done|].
    destruct (in_stream (Some s) ev) eqn:Hs; cbn [negb List.filter]; rewrite IH; [|done].
    by rewrite (in_stream_ne s stream ev) by (done || naive_solver).
Qed.

Lemma run_event_ops_grows e ops stream :
  Forall (fun op => ~ deletes stream op) ops ->
  exists new, stream_events (foldl run_event_op e ops) stream = stream_events e stream ++ new.
Proof.
  intros Hops. revert e. induction Hops as [|op ops Hop _ IH]; intros e; cbn [foldl]; [exists []; by rewrite app_nil_r|].
  destruct (run_event_op_grows e op stream Hop) as [new1 H1]. destruct (IH (run_event_op e op)) as [new2 H2].
  exists (new1 ++ new2). by rewrite H2, H1, app_assoc.
Qed.

Lemma elem_of_stream e stream ev :
  ev ∈ stream_events e stream <-> ev ∈ events e /\ ev_stream ev = stream.
Proof. rewrite elem_of_filter_bool. cbn [in_stream]. by rewrite bool_decide_eq_true. Qed.

(** ** Pages *)

(** In a sorted log, the events after the last one of a prefix are the rest. *)
Lemma filter_after_prefix page rest ev :
  StronglySorted (fun a b => ev_sequence a < ev_sequence b) (page ++ rest) -> last page = Some ev ->
  List.filter (after_sequence (Some (ev_sequence ev))) (page ++ rest) = rest.
Proof.
  intros Hs Hlast. apply last_Some in Hlast as [init ->].
  apply StronglySorted_app in Hs as (Hlt&Hpage&Hrest). apply StronglySorted_app in Hpage as (Hinit&_&_).
  rewrite List.filter_app, filter_none, filter_all; [done|..].
  - intros x Hx. cbn. apply Z.ltb_lt. apply Hlt; set_solver.
  - intros x Hx. cbn. apply Z.ltb_ge. apply elem_of_app in Hx as [Hx|Hx%list_elem_of_singleton]; [|by rewrite Hx].
    specialize (Hinit x ev Hx). assert (Hev : ev ∈ [ev]) by left. specialize (Hinit Hev). lia.
Qed.

(** ** Properties *)

(** Sequence numbers are never reused: through any appends and deletions, the log stays
    ordered by strictly increasing sequence number, and every event added carries a number
    above all numbers given out before, deleted events included. *)
Theorem sequences_never_reused e ops :
  event_inv e -> next_event_sequence e + total_appends ops <= U64_MAX ->
  let e' := foldl run_event_op e ops in
  event_inv e' /\
  forall ev, ev ∈ events e' -> ev ∈ events e \/ next_event_sequence e < ev_sequence ev.
Proof.
  intros Hinv Hle e'. split; [by apply run_event_ops_inv|]. unfold e'. clear e'.
  revert e Hinv Hle. induction ops as [|op ops IH]; intros e Hinv Hle ev Hev; [by left|].
  cbn [total_appends fold_right foldl] in *. fold (total_appends ops) in Hle.
  pose proof (total_appends_nonneg ops).
  destruct (run_event_op_inv e op Hinv) as [Hinv1 Hnext]; [lia|].
  destruct (IH (run_event_op e op) Hinv1) with ev as [Hin|Hlt]; [lia|done| |right; lia].
  apply (run_event_op_new e op); [done|lia|done].
Qed.

(** An idempotency key takes effect once: after an append under a key returned an event,
    appending under the same stream and key again, at any time before events of that
    stream are deleted, returns that event and changes nothing; and a log never holds two
    events of a stream under one key. *)
Theorem append_once e now now' ev ev' x e1 ops :
  event_inv e -> keyed ev -> ev_stream ev' = ev_stream ev -> ev_idempotency_key ev' = ev_idempotency_key ev ->
  next_event_sequence e + total_appends ops < U64_MAX ->
  append_event e now ev = (Ok x, e1) -> Forall (fun op => ~ deletes (ev_stream ev) op) ops ->
  let e2 := foldl run_event_op e1 ops in
  append_event e2 now' ev' = (Ok x, e2) /\
  forall y, y ∈ events e2 -> ev_stream y = ev_stream ev -> ev_idempotency_key y = ev_idempotency_key ev -> y = x.
Proof.
  intros Hinv Hk Hst Hkey Hle Happ Hops e2. pose proof (total_appends_nonneg ops) as Hnn.
  destruct (append_event_inv e now ev Hinv) as [Hinv1 Hnext]; [lia|]. rewrite Happ in Hinv1, Hnext. cbn [snd] in *.
  destruct (run_event_ops_inv e1 ops Hinv1) as [Hinv2 _]; [lia|]. fold e2 in Hinv2.
  assert (Hx : x ∈ events e1 /\ ev_stream x = ev_stream ev /\ ev_idempotency_key x = ev_idempotency_key ev).
  { destruct (append_event_cases e now ev) as [(y&Hy&Heq)|(_&keys&Heq&_)]; rewrite Happ in Heq; injection Heq as -> ->.
    - apply known_event_iff in Hy; [|done]. tauto.
    - cbn [events set_events]. split_and!; [set_solver|done|done]. }
  destruct Hx as (Hx&Hxs&Hxk). destruct (run_event_ops_grows e1 ops (ev_stream ev) Hops) as [new Hnew].
  assert (Hx2 : x ∈ events e2).
  { apply (elem_of_stream e2 (ev_stream ev)). unfold e2. rewrite Hnew. apply elem_of_app. left. by apply elem_of_stream. }
  assert (Hknown : known_event e2 ev' = Some x).
  { apply known_event_iff; [done|]. unfold keyed in *. rewrite Hst, Hkey. done. }
  split; [unfold append_event; by rewrite Hknown|].
  intros y Hy Hys Hyk. assert (Hknown' : known_event e2 ev' = Some y); [|congruence].
  apply known_event_iff; [done|]. unfold keyed in *. rewrite Hst, Hkey. done.
Qed.

(** Paging through a stream loses and repeats nothing: the events after the last event of
    a page are exactly the ones the page cut off. *)
Theorem pagination_complete e stream from since limit all page ev :
  event_inv e ->
  list_events e stream (mkListEvents from None since) = Ok all ->
  list_events e stream (mkListEvents from (Some limit) since) = Ok page -> last page = Some ev ->
  exists rest, list_events e stream (mkListEvents (Some (ev_sequence ev)) None since) = Ok rest /\ all = page ++ rest.
Proof.
  unfold list_events. cbn [le_since le_from_sequence le_limit]. intros Hinv Hall Hpage Hlast.
  injection Hall as Hall. injection Hpage as Hpage. rewrite Hall in Hpage.
  assert (Hsplit : all = page ++ drop (Z.to_nat limit) all) by (rewrite <-Hpage; symmetry; apply take_drop).
  assert (Hfrom : forall f, from = Some f -> f < ev_sequence ev).
  { intros f ->. assert (Hev : ev ∈ all) by (rewrite Hsplit; apply last_Some in Hlast as [init ->]; set_solver).
    rewrite <-Hall in Hev. apply elem_of_filter_bool in Hev as [Hev _]. apply elem_of_filter_bool in Hev as [_ Hev].
    by apply Z.ltb_lt. }
  exists (drop (Z.to_nat limit) all). split; [|done]. f_equal.
  assert (Hsorted : StronglySorted (fun a b => ev_sequence a < ev_sequence b) all).
  { eapply StronglySorted_sublist; [|apply (ei_sorted e Hinv)]. rewrite <-Hall.
    eapply (transitivity (y:=List.filter (after_sequence from) (List.filter (in_stream stream) (events e))));
      [apply filter_sublist|]. eapply transitivity; [apply filter_sublist|apply filter_sublist]. }
  rewrite Hsplit in Hsorted. rewrite <-(filter_after_prefix page (drop (Z.to_nat limit) all) ev) by done.
  rewrite <-Hsplit, <-Hall, (filter_swap (after_sequence _) (created_since _)). f_equal.
  clear Hpage Hsplit Hsorted.
  rewrite <-(filter_andb _ _ (List.filter (in_stream stream) (events e))). apply filter_ext_in. intros x _.
  destruct from as [f|]; cbn [after_sequence]; [|by rewrite andb_true_r]. specialize (Hfrom f eq_refl).
  destruct (Z.ltb_spec (ev_sequence ev) (ev_sequence x)), (Z.ltb_spec f (ev_sequence x)); try done; lia.
Qed.

(** The audit stream is append-only: no sequence of operations removes or reorders one
    of its events; asked to delete from it, the engine reports it as protected. *)
Theorem audit_append_only e ops stream :
  is_protected_stream stream = true ->
  (exists new, stream_events (foldl run_event_op e ops) stream = stream_events e stream ++ new) /\
  delete_last_event e stream = (Err (protected_error stream), e) /\
  delete_stream e stream = (Err (protected_error stream), e).
Proof.
  intros Hp. split; [|unfold delete_last_event, delete_stream; by rewrite Hp].
  apply run_event_ops_grows, Forall_forall. intros [] _; cbn [deletes]; try tauto; intros [-> ?]; congruence.
Qed.

(** ** Witnesses *)

Lemma new_engine_event_inv : event_inv new_engine.
Proof.
  split; cbn [events next_event_sequence event_idempotency_keys new_engine].
  - constructor.
  - constructor.
  - by unfold_ints.
  - intros ev Hev. by apply elem_of_nil in Hev.
  - intros s k n ev _ Hev. by apply elem_of_nil in Hev.
  - intros k n Hk. by rewrite lookup_empty in Hk.
Qed.

Definition sample_event (stream key : string) : MemoryEvent := mkEvent stream "t" "{}" 0 "" key.
Definition sample_events : list EventOp :=
  [OpAppend "1" (sample_event "s" "k"); OpAppendBatch [("2", sample_event "s" ""); ("3", sample_event "r" "k")];
   OpDeleteLast "r"; OpAppend "4" (sample_event "s" "")].
Definition sample_stream_log : MemoryEngine := foldl run_event_op new_engine sample_events.

Lemma sequences_never_reused_witness :
  event_inv sample_stream_log /\ forall ev, ev ∈ events sample_stream_log -> ev ∈ [] \/ 0 < ev_sequence ev.
Proof.
  refine (sequences_never_reused new_engine sample_events new_engine_event_inv _). vm_compute. discriminate.
Defined.

Definition sample_first : MemoryEvent := mkEvent "s" "t" "{}" 1 "1" "k".
Definition sample_stream_logged : MemoryEngine := (append_event new_engine "1" (sample_event "s" "k")).2.

Lemma append_once_witness :
  let e2 := foldl run_event_op sample_stream_logged [OpAppend "2" (sample_event "s" ""); OpDeleteStream "r"] in
  append_event e2 "9" (sample_event "s" "k") = (Ok sample_first, e2) /\
  forall y, y ∈ events e2 -> ev_stream y = "s" -> ev_idempotency_key y = "k" -> y = sample_first.
Proof.
  refine (append_once new_engine "1" "9" (sample_event "s" "k") (sample_event "s" "k") sample_first sample_stream_logged
    [OpAppend "2" (sample_event "s" ""); OpDeleteStream "r"] new_engine_event_inv _ _ _ _ _ _).
  - discriminate.
  - reflexivity.
  - reflexivity.
  - vm_compute. reflexivity.
  - vm_compute. reflexivity.
  - apply Forall_cons. split; [intros []|]. apply Forall_cons. split; [intros [[=] _]|]. apply Forall_nil. exact I.
Defined.

Lemma pagination_complete_witness :
  exists rest, list_events sample_stream_log (Some "s") (mkListEvents (Some 1) None None) = Ok rest /\
    [sample_first; mkEvent "s" "t" "{}" 2 "2" ""; mkEvent "s" "t" "{}" 4 "4" ""] = [sample_first] ++ rest.
Proof.
  refine (pagination_complete sample_stream_log (Some "s") None None 1 _ [sample_first] sample_first _ _ _ _).
  - exact (proj1 sequences_never_reused_witness).
  - vm_compute. reflexivity.
  - vm_compute. reflexivity.
  - reflexivity.
Defined.

Lemma audit_append_only_witness :
  (exists new, stream_events (foldl run_event_op sample_stream_log [OpDeleteStream "__thingd:mcp:audit"]) "__thingd:mcp:audit"
     = stream_events sample_stream_log "__thingd:mcp:audit" ++ new) /\
  delete_last_event sample_stream_log "__thingd:mcp:audit" = (Err (protected_error "__thingd:mcp:audit"), sample_stream_log) /\
  delete_stream sample_stream_log "__thingd:mcp:audit" = (Err (protected_error "__thingd:mcp:audit"), sample_stream_log).
Proof.
  refine (audit_append_only sample_stream_log [OpDeleteStream "__thingd:mcp:audit"] "__thingd:mcp:audit" _). reflexivity.
Defined.
