(* ===== verification/Links.v ===== *)
(** * thingd: graph links of the in-memory engine

    Models [impl LinkStore for MemoryEngine] of [crates/thingd/src/in_memory.rs].
    A created link is named [link-N] after a [u64] counter; an imported link keeps
    its id, and the counter is raised to its number when the id has one. *)

From S2P Require Import Prelude Model.
From Stdlib Require Import SpecFloat.

(** ** Decimal numbers in ids *)

Definition digit_value (c : Ascii.ascii) : option Z :=
  let n := Z.of_N (Ascii.N_of_ascii c) in
  if (48 <=? n) && (n <=? 57) then Some (n - 48) else None.

Fixpoint parse_digits (acc : Z) (s : string) : option Z :=
  match s with
  | EmptyString => Some acc
  | String c s =>
      d ← digit_value c;
      if acc * 10 + d <=? U64_MAX then parse_digits (acc * 10 + d) s else None
  end.

(** [str::parse::<u64>]: an optional plus sign and at least one digit. *)
Definition parse_u64 (s : string) : option Z :=
  match s with
  | EmptyString => None
  | String c rest =>
      if bool_decide (c = Ascii.ascii_of_N 43)
      then if bool_decide (rest = EmptyString) then None else parse_digits 0 rest
      else parse_digits 0 s
  end.

Fixpoint strip_prefix (p s : string) : option string :=
  match p, s with
  | EmptyString, _ => Some s
  | String a p, String b s => if bool_decide (a = b) then strip_prefix p s else None
  | String _ _, EmptyString => None
  end.

(** ** Operations *)

Definition link_name (n : Z) : string := "link-" +:+ format_pad 1 n.
Definition link_sequence (id : string) : option Z := rest ← strip_prefix "link-" id; parse_u64 rest.

(** [PartialEq for Link]; weights compare as IEEE numbers. *)
Definition weight_eqb (a b : option spec_float) : bool :=
  match a, b with
  | None, None => true
  | Some a, Some b => SFeqb a b
  | _, _ => false
  end.
Definition link_eqb (a b : Link) : bool :=
  bool_decide (lk_id a = lk_id b) && bool_decide (lk_from_ref a = lk_from_ref b) &&
  bool_decide (lk_link_type a = lk_link_type b) && bool_decide (lk_to_ref a = lk_to_ref b) &&
  weight_eqb (lk_weight a) (lk_weight b) && bool_decide (lk_metadata_json a = lk_metadata_json b) &&
  bool_decide (lk_created_at a = lk_created_at b).

Definition has_link_id (id : string) (l : Link) : bool := bool_decide (lk_id l = id).

Definition create_link (e : MemoryEngine) (now : string) (link : Link) : thingd_result Link * MemoryEngine :=
  let next := u64_wrapping_add (next_link_id e) 1 in
  let link := mkLink (link_name next) (lk_from_ref link) (lk_link_type link) (lk_to_ref link) (lk_weight link)
                (lk_metadata_json link)
                (if bool_decide (lk_created_at link = "") then now else lk_created_at link) in
  (Ok link, set_links e (links e ++ [link]) next).

Definition import_link (e : MemoryEngine) (link : Link) : thingd_result Link * MemoryEngine :=
  if bool_decide (lk_id link = "") then (Err (InvalidInput "Link id is required for import"), e) else
  match List.find (has_link_id (lk_id link)) (links e) with
  | Some existing =>
      if link_eqb existing link then (Ok link, e)
      else (Err (Conflict ("Link '" +:+ lk_id link +:+ "' already exists with different data")), e)
  | None =>
      let next := match link_sequence (lk_id link) with
                  | Some sequence => Z.max (next_link_id e) sequence
                  | None => next_link_id e
                  end in
      (Ok link, set_links e (links e ++ [link]) next)
  end.

Definition id_cmp (a b : Link) : comparison := key_cmp (lk_id a) (lk_id b).

Definition list_links (e : MemoryEngine) (offset limit : Z) : thingd_result (list Link) :=
  Ok (take (Z.to_nat limit) (drop (Z.to_nat offset) (sort_by id_cmp (links e)))).

Definition delete_link (e : MemoryEngine) (id : string) : thingd_result bool * MemoryEngine :=
  let kept := List.filter (fun l => negb (has_link_id id l)) (links e) in
  (Ok (zlen kept <? zlen (links e)), set_links e kept (next_link_id e)).

Definition get_link (e : MemoryEngine) (id : string) : thingd_result (option Link) :=
  Ok (List.find (has_link_id id) (links e)).

Definition matches_direction (reference : string) (direction : LinkDirection) (l : Link) : bool :=
  match direction with
  | Outgoing => bool_decide (lk_from_ref l = reference)
  | Incoming => bool_decide (lk_to_ref l = reference)
  | Both => bool_decide (lk_from_ref l = reference) || bool_decide (lk_to_ref l = reference)
  end.
Definition matches_type (link_type : option string) (l : Link) : bool :=
  match link_type with None => true | Some t => bool_decide (lk_link_type l = t) end.

Definition get_neighbors (e : MemoryEngine) (reference : string) (direction : LinkDirection)
    (options : LinkQueryOptions) : thingd_result (list Link) :=
  let neighbors := List.filter (fun l => matches_direction reference direction l && matches_type (lq_link_type options) l)
                     (links e) in
  Ok (match lq_limit options with Some limit => take (Z.to_nat limit) neighbors | None => neighbors end).

Definition count_links (e : MemoryEngine) : thingd_result Z := Ok (zlen (links e)).

(** ** Numbers print and parse back *)

Lemma decimal_length_bound fuel z :
  0 <= z -> Z.log2 z <= Z.of_nat fuel -> z < 10 ^ Z.of_nat (decimal_length fuel z).
Proof.
  revert z. induction fuel as [|fuel IH]; intros z Hz Hlog; cbn [decimal_length].
  - destruct (Z.eq_dec z 0) as [->|Hne]; [done|]. pose proof (Z.log2_spec z) as Hspec.
    assert (Z.log2 z = 0) as Hl by (pose proof (Z.log2_nonneg z); lia). rewrite Hl in Hspec. cbn in *. lia.
  - destruct (Z.ltb_spec z 10); [cbn; lia|].
    rewrite Nat2Z.inj_succ, Z.pow_succ_r by lia. assert (Hd : z / 10 < 10 ^ Z.of_nat (decimal_length fuel (z / 10))).
    { apply IH; [apply Z.div_pos; lia|].
      assert (z / 10 <= z / 2) by (apply Z.div_le_compat_l; lia).
      assert (Z.log2 (z / 10) <= Z.log2 (z / 2)) by (apply Z.log2_le_mono; lia).
      assert (Z.log2 (z / 2) = Z.log2 z - 1); [|lia].
      rewrite <-Z.div2_div. rewrite Z.div2_spec, Z.log2_shiftr by lia.
      assert (0 < Z.log2 z) by (apply Z.log2_pos; lia). lia. }
    pose proof (Z.div_mod z 10). pose proof (Z.mod_pos_bound z 10). lia.
Qed.

Lemma decimal_length_pos fuel z : (0 < decimal_length fuel z)%nat.
Proof. destruct fuel; cbn; [lia|]. destruct (z <? 10); lia. Qed.

(** The decimal of a number, as digits. *)
Lemma format_digits z :
  0 <= z -> exists n, (0 < n)%nat /\ z < 10 ^ Z.of_nat n /\ format_pad 1 z = string_of_digits (digits 10 n z).
Proof.
  intros Hz. unfold format_pad. destruct (Z.ltb_spec z (10 ^ Z.of_nat 1)); [exists 1%nat; split_and!; [lia|done|done]|].
  exists (decimal_length (Z.to_nat (Z.log2 z)) z). split_and!; [apply decimal_length_pos| |done].
  apply decimal_length_bound; [done|]. pose proof (Z.log2_nonneg z). lia.
Qed.

Lemma digit_value_char d : 0 <= d < 10 -> digit_value (digit_char d) = Some d.
Proof.
  intros Hd. unfold digit_value, digit_char. rewrite Ascii.N_ascii_embedding by lia.
  replace (Z.of_N (48 + Z.to_N d)) with (48 + d) by lia.
  destruct (Z.leb_spec 48 (48 + d)); [|lia]. destruct (Z.leb_spec (48 + d) 57); [|lia]. cbn [andb]. f_equal. lia.
Qed.

Lemma fold_digits_le l acc :
  0 <= acc -> Forall (fun d => 0 <= d < 10) l -> acc <= fold_left (fun acc d => acc * 10 + d) l acc.
Proof.
  intros Hacc Hl. revert acc Hacc. induction Hl as [|d l Hd _ IH]; intros acc Hacc; cbn; [lia|].
  specialize (IH (acc * 10 + d)). lia.
Qed.

Lemma parse_string_of_digits l acc :
  0 <= acc -> Forall (fun d => 0 <= d < 10) l -> fold_left (fun acc d => acc * 10 + d) l acc <= U64_MAX ->
  parse_digits acc (string_of_digits l) = Some (fold_left (fun acc d => acc * 10 + d) l acc).
Proof.
  intros Hacc Hl. revert acc Hacc. induction Hl as [|d l Hd Hl IH]; intros acc Hacc Hmax; [done|].
  cbn [string_of_digits parse_digits fold_left] in *. rewrite digit_value_char by done. cbn [mbind option_bind].
  pose proof (fold_digits_le l (acc * 10 + d) ltac:(lia) Hl).
  destruct (Z.leb_spec (acc * 10 + d) U64_MAX); [|lia]. apply IH; lia.
Qed.

Lemma parse_format z : 0 <= z <= U64_MAX -> parse_u64 (format_pad 1 z) = Some z.
Proof.
  intros Hz. destruct (format_digits z) as (n&Hn&Hlt&->); [lia|].
  assert (Hr : Forall (fun d => 0 <= d < 10) (digits 10 n z)) by (apply digits_range; lia).
  assert (Hv : fold_left (fun acc d => acc * 10 + d) (digits 10 n z) 0 = z) by (apply of_digits_digits; lia).
  pose proof (parse_string_of_digits (digits 10 n z) 0 ltac:(lia) Hr) as Hp. rewrite Hv in Hp.
  destruct n as [|n]; [lia|]. cbn [digits string_of_digits parse_u64] in *.
  rewrite bool_decide_false; [apply Hp; lia|].
  intros Heq. apply (f_equal Ascii.N_of_ascii) in Heq. unfold digit_char in Heq.
  rewrite !Ascii.N_ascii_embedding in Heq by (apply Forall_cons in Hr as [Hd _]; lia).
  apply Forall_cons in Hr as [Hd _]. lia.
Qed.

Lemma link_sequence_name n : 0 <= n <= U64_MAX -> link_sequence (link_name n) = Some n.
Proof. intros Hn. unfold link_sequence, link_name. cbn. by apply parse_format. Qed.

Lemma parse_digits_bound s acc n : 0 <= acc <= U64_MAX -> parse_digits acc s = Some n -> 0 <= n <= U64_MAX.
Proof.
  revert acc. induction s as [|c s IH]; intros acc Hacc; cbn [parse_digits]; [by intros [= <-]|].
  destruct (digit_value c) as [d|] eqn:Hd; cbn; [|done]. destruct (Z.leb_spec (acc * 10 + d) U64_MAX); [|done].
  assert (0 <= d).
  { unfold digit_value in Hd. destruct (Z.leb_spec 48 (Z.of_N (Ascii.N_of_ascii c))); [|done].
    cbn [andb] in Hd. destruct (_ <=? 57); [|done]. injection Hd. lia. }
  apply IH. lia.
Qed.

Lemma link_sequence_bound id n : link_sequence id = Some n -> 0 <= n <= U64_MAX.
Proof.
  unfold link_sequence. destruct (strip_prefix "link-" id) as [s|]; cbn; [|done]. unfold parse_u64.
  destruct s as [|c s]; [done|]. repeat case_bool_decide; try done; apply parse_digits_bound; by unfold_ints.
Qed.

(** ** The invariant *)

Record link_inv (e : MemoryEngine) : Prop := {
  li_ids : NoDup (map lk_id (links e));
  li_named : Forall (fun l => lk_id l <> "") (links e);
  li_sequence : forall l n, l ∈ links e -> link_sequence (lk_id l) = Some n -> n <= next_link_id e;
  li_next : 0 <= next_link_id e <= U64_MAX;
}.

Inductive LinkOp :=
| OpCreateLink (now : string) (link : Link)
| OpImportLink (link : Link)
| OpDeleteLink (id : string).

Definition run_link_op (e : MemoryEngine) (op : LinkOp) : MemoryEngine :=
  match op with
  | OpCreateLink now link => (create_link e now link).2
  | OpImportLink link => (import_link e link).2
  | OpDeleteLink id => (delete_link e id).2
  end.

Definition creates (op : LinkOp) : Z := match op with OpCreateLink _ _ => 1 | _ => 0 end.
Definition total_creates (ops : list LinkOp) : Z := fold_right (fun op n => creates op + n) 0 ops.
Definition imports_below (bound : Z) (op : LinkOp) : Prop :=
  match op with
  | OpImportLink link => forall n, link_sequence (lk_id link) = Some n -> n <= bound
  | _ => True
  end.

Lemma NoDup_links_inj ls a b :
  NoDup (map lk_id ls) -> a ∈ ls -> b ∈ ls -> lk_id a = lk_id b -> a = b.
Proof.
  intros Hnd Ha Hb Heq. apply list_elem_of_lookup_1 in Ha as [i Hi]. apply list_elem_of_lookup_1 in Hb as [k Hk].
  assert (i = k) as ->; [|congruence].
  eapply (NoDup_lookup (map lk_id ls) i k (lk_id a)); [done|..];
    rewrite list_lookup_fmap; [by rewrite Hi|by rewrite Hk, Heq].
Qed.

Lemma find_link_iff ls id l :
  NoDup (map lk_id ls) -> List.find (has_link_id id) ls = Some l <-> l ∈ ls /\ lk_id l = id.
Proof.
  intros Hnd. split.
  - intros [Hin%list_elem_of_In Hid%bool_decide_eq_true]%find_some. done.
  - intros [Hin Hid]. destruct (List.find (has_link_id id) ls) as [k|] eqn:Hf.
    + apply find_some in Hf as [Hk%list_elem_of_In Hk'%bool_decide_eq_true].
      by rewrite (NoDup_links_inj ls k l) by (done || congruence).
    + apply list_elem_of_In in Hin. pose proof (find_none _ _ Hf _ Hin) as Hn.
      unfold has_link_id in Hn. by rewrite bool_decide_true in Hn.
Qed.

Lemma find_link_None ls id : List.find (has_link_id id) ls = None <-> id ∉ map lk_id ls.
Proof.
  split.
  - intros Hf Hin. apply list_elem_of_fmap in Hin as (l&->&Hl). apply list_elem_of_In in Hl.
    pose proof (find_none _ _ Hf l Hl) as Hn. unfold has_link_id in Hn. by rewrite bool_decide_true in Hn.
  - intros Hnin. destruct (List.find _ _) as [l|] eqn:Hf; [|done]. destruct Hnin.
    apply find_some in Hf as [Hl%list_elem_of_In Hid%bool_decide_eq_true]. rewrite <-Hid.
    by apply list_elem_of_fmap_2.
Qed.

(** Adding a link with a new id. *)
Lemma add_link_inv e l next :
  link_inv e -> lk_id l ∉ map lk_id (links e) -> lk_id l <> "" -> next_link_id e <= next <= U64_MAX ->
  (forall n, link_sequence (lk_id l) = Some n -> n <= next) ->
  link_inv (set_links e (links e ++ [l]) next).
Proof.
  intros [Hids Hnamed Hseq Hnext] Hnew Hne Hle Hl. split; cbn [links next_link_id set_links].
  - rewrite map_app. apply NoDup_app. split_and!; [done| |apply NoDup_singleton].
    intros id Hin ->%list_elem_of_singleton. done.
  - apply Forall_app. by split; [|constructor].
  - intros x n [Hx| ->%list_elem_of_singleton]%elem_of_app Hn; [specialize (Hseq x n Hx Hn); lia|by apply Hl].
  - lia.
Qed.

Lemma create_link_inv e now l :
  link_inv e -> next_link_id e < U64_MAX ->
  link_inv (create_link e now l).2 /\ next_link_id (create_link e now l).2 = next_link_id e + 1.
Proof.
  intros Hinv Hlt. pose proof (li_next e Hinv). unfold create_link. cbn [snd].
  assert (Hn : u64_wrapping_add (next_link_id e) 1 = next_link_id e + 1).
  { unfold u64_wrapping_add. rewrite Z.mod_small; unfold_ints; lia. }
  rewrite Hn. split; [|done].
  assert (Hs : link_sequence (link_name (next_link_id e + 1)) = Some (next_link_id e + 1))
    by (apply link_sequence_name; lia).
  apply add_link_inv; [done| |done|lia|].
  - cbn [lk_id]. intros Hin. apply list_elem_of_fmap in Hin as (x&Hx&Hin). rewrite Hx in Hs.
    pose proof (li_sequence e Hinv x _ Hin Hs). lia.
  - cbn [lk_id]. rewrite Hs. by intros n [= <-].
Qed.

(** A link that is not there yet is imported. *)
Lemma import_link_new e l :
  lk_id l <> "" -> lk_id l ∉ map lk_id (links e) ->
  exists next, import_link e l = (Ok l, set_links e (links e ++ [l]) next) /\
    (link_inv e -> next_link_id e <= next <= U64_MAX) /\
    (forall n, link_sequence (lk_id l) = Some n -> n <= next) /\
    (next = next_link_id e \/ link_sequence (lk_id l) = Some next).
Proof.
  intros Hne Hnew. unfold import_link. rewrite bool_decide_false by done.
  rewrite (proj2 (find_link_None (links e) (lk_id l))) by done.
  eexists. split; [done|]. destruct (link_sequence (lk_id l)) as [n|] eqn:Hs.
  - pose proof (link_sequence_bound _ _ Hs). split_and!; [intros []; lia|intros m [= <-]; lia|].
    destruct (Z.max_spec (next_link_id e) n) as [[_ ->]|[_ ->]]; auto.
  - split_and!; [intros []; lia|done|by left].
Qed.

Lemma import_link_old e l : lk_id l ∈ map lk_id (links e) -> (import_link e l).2 = e.
Proof.
  intros Hin. unfold import_link. case_bool_decide; [done|].
  destruct (List.find _ _) as [x|] eqn:Hf; [by destruct (link_eqb x l)|]. by apply find_link_None in Hf.
Qed.

Lemma import_link_inv e l :
  link_inv e -> link_inv (import_link e l).2 /\
  (next_link_id (import_link e l).2 = next_link_id e \/
   link_sequence (lk_id l) = Some (next_link_id (import_link e l).2)).
Proof.
  intros Hinv. destruct (decide (lk_id l = "")) as [Heq|Hne].
  { unfold import_link. by rewrite bool_decide_true by done; auto. }
  destruct (decide (lk_id l ∈ map lk_id (links e))) as [Hin|Hnew]; [rewrite import_link_old by done; auto|].
  destruct (import_link_new e l Hne Hnew) as (next&->&Hle&Hseq&Hor). cbn [snd]. split; [|done].
  apply add_link_inv; auto.
Qed.

Lemma delete_link_inv e id : link_inv e -> link_inv (delete_link e id).2.
Proof.
  intros [Hids Hnamed Hseq Hnext]. unfold delete_link. cbn [snd].
  set (kept := List.filter _ (links e)). assert (Hsub : sublist kept (links e)) by apply filter_sublist.
  split; cbn [links next_link_id set_links]; try done.
  - eapply sublist_NoDup; [exact Hids|]. by apply (fmap_sublist lk_id).
  - by eapply sublist_all.
  - intros l n Hl. apply Hseq. by eapply elem_of_sublist.
Qed.

Lemma run_link_ops_inv e ops bound :
  link_inv e -> next_link_id e <= bound -> Forall (imports_below bound) ops ->
  bound + total_creates ops <= U64_MAX -> link_inv (foldl run_link_op e ops).
Proof.
  intros Hinv Hle Hops. revert e bound Hinv Hle Hops.
  induction ops as [|op ops IH]; intros e bound Hinv Hle Hops Hmax; [done|]. cbn [foldl].
  apply Forall_cons in Hops as [Hop Hops]. unfold total_creates in *. cbn [fold_right] in Hmax.
  assert (0 <= fold_right (fun op n => creates op + n) 0 ops).
  { clear. induction ops as [|[] ops IH]; cbn [fold_right creates]; lia. }
  destruct op as [now l|l|id]; cbn [run_link_op creates imports_below] in *.
  - destruct (create_link_inv e now l Hinv) as [Hinv1 Hnext]; [lia|].
    apply (IH _ (bound + 1)); [done|lia| |lia]. eapply Forall_impl; [exact Hops|].
    intros []; cbn; try done. intros Hb n Hn. specialize (Hb n Hn). lia.
  - destruct (import_link_inv e l Hinv) as [Hinv1 Hor]. apply (IH _ bound); [done| |done|lia].
    destruct Hor as [-> |Hs]; [done|]. by apply Hop.
  - apply (IH _ bound); [by apply delete_link_inv|done|done|lia].
Qed.

(** ** Properties *)

(** Link ids are unique: through any sequence of creations, imports and deletions that
    does not exhaust the counter, no two links share an id, so that every link is found
    under its id. *)
Theorem link_ids_unique e ops bound :
  link_inv e -> next_link_id e <= bound -> Forall (imports_below bound) ops ->
  bound + total_creates ops <= U64_MAX ->
  let e' := foldl run_link_op e ops in
  NoDup (map lk_id (links e')) /\ forall l, l ∈ links e' -> get_link e' (lk_id l) = Ok (Some l).
Proof.
  intros Hinv Hle Hops Hmax e'. assert (Hinv' : link_inv e') by (by eapply run_link_ops_inv).
  split; [apply Hinv'|]. intros l Hl. unfold get_link. f_equal. apply find_link_iff; [apply Hinv'|done].
Qed.

(** Importing links one after the other; the results in order. *)
Fixpoint import_all (e : MemoryEngine) (ls : list Link) : list (thingd_result Link) * MemoryEngine :=
  match ls with
  | [] => ([], e)
  | l :: ls => let '(r, e) := import_link e l in let '(rs, e) := import_all e ls in (r :: rs, e)
  end.

Lemma import_all_new ls e :
  link_inv e -> NoDup (map lk_id (links e ++ ls)) -> Forall (fun l => lk_id l <> "") ls ->
  exists e', import_all e ls = (map Ok ls, e') /\ links e' = links e ++ ls /\ link_inv e'.
Proof.
  revert e. induction ls as [|l ls IH]; intros e Hinv Hnd Hne; cbn [import_all map].
  { exists e. by rewrite app_nil_r. }
  apply Forall_cons in Hne as [Hl Hne].
  assert (Hnew : lk_id l ∉ map lk_id (links e)).
  { rewrite map_app in Hnd. apply NoDup_app in Hnd as (_&Hdisj&_). intros Hin. by apply (Hdisj _ Hin); left. }
  destruct (import_link_new e l Hl Hnew) as (next&->&Hle&Hseq&_).
  destruct (IH (set_links e (links e ++ [l]) next)) as (e'&->&Hlinks&Hinv').
  - apply add_link_inv; auto.
  - cbn [links set_links]. by rewrite <-app_assoc.
  - done.
  - exists e'. split_and!; [done| |done]. rewrite Hlinks. cbn [links set_links]. by rewrite <-app_assoc.
Qed.

(** A link export restores the graph: importing the full listing of an engine into an
    empty engine succeeds for every link, keeps every id and finds the same link under
    every id, and links created afterwards get ids that are still free. *)
Theorem import_restores_export e :
  link_inv e ->
  exists ls e', list_links e 0 (zlen (links e)) = Ok ls /\ import_all new_engine ls = (map Ok ls, e') /\
    (forall id, get_link e' id = get_link e id) /\
    (next_link_id e' < U64_MAX -> forall now l, link_inv (create_link e' now l).2).
Proof.
  intros Hinv. set (ls := sort_by id_cmp (links e)).
  assert (Hperm : ls ≡ₚ links e) by apply sort_by_perm.
  assert (Hnd : NoDup (map lk_id ls)) by (rewrite (Permutation_map lk_id Hperm); apply Hinv).
  destruct (import_all_new ls new_engine) as (e'&Hrun&Hlinks&Hinv').
  - split; cbn [links next_link_id new_engine]; [constructor|constructor| |by unfold_ints].
    intros l n Hl. by apply elem_of_nil in Hl.
  - done.
  - rewrite Hperm. apply Hinv.
  - exists ls, e'. split_and!; [|done| |intros; by apply create_link_inv].
    + unfold list_links. f_equal. rewrite drop_0, Nat2Z.id. apply take_ge. by rewrite Hperm.
    + intros id. unfold get_link. f_equal. apply option_eq. intros l. rewrite Hlinks. cbn [links new_engine app].
      rewrite !find_link_iff by (done || apply Hinv). by rewrite Hperm.
Qed.

(** The link counter can be exhausted by one import: after a link with the largest number
    is imported, created links start again from [link-0], and ids that are in use are
    given out a second time. *)
Theorem import_exhausts_link_ids :
  let e := foldl run_link_op new_engine
    [OpCreateLink "t" (new_link "a" "r" "b");
     OpImportLink (mkLink "link-18446744073709551615" "a" "r" "b" None "{}" "t");
     OpCreateLink "t" (new_link "a" "r" "b"); OpCreateLink "t" (new_link "a" "r" "c")] in
  map lk_id (links e) = ["link-1"; "link-18446744073709551615"; "link-0"; "link-1"].
Proof. vm_compute. reflexivity. Qed.

(** ** Witnesses *)

Lemma new_engine_link_inv : link_inv new_engine.
Proof.
  split; cbn [links next_link_id new_engine]; [constructor|constructor| |by unfold_ints].
  intros l n Hl. by apply elem_of_nil in Hl.
Qed.

Definition sample_links : list LinkOp :=
  [OpCreateLink "t" (new_link "a" "r" "b"); OpImportLink (mkLink "link-7" "a" "r" "b" None "{}" "t");
   OpCreateLink "t" (new_link "b" "r" "c"); OpDeleteLink "link-1"; OpImportLink (mkLink "x" "a" "r" "b" None "{}" "t")].

Lemma link_ids_unique_witness :
  let e' := foldl run_link_op new_engine sample_links in
  NoDup (map lk_id (links e')) /\ forall l, l ∈ links e' -> get_link e' (lk_id l) = Ok (Some l).
Proof.
  refine (link_ids_unique new_engine sample_links 7 new_engine_link_inv _ _ _).
  - vm_compute. discriminate.
  - repeat (apply Forall_cons; split); try exact I; try apply Forall_nil; try exact I.
    + intros n [= <-]. lia.
    + intros n [=].
  - vm_compute. discriminate.
Defined.

Lemma import_restores_export_witness :
  let e := foldl run_link_op new_engine sample_links in
  exists ls e', list_links e 0 (zlen (links e)) = Ok ls /\ import_all new_engine ls = (map Ok ls, e') /\
    (forall id, get_link e' id = get_link e id) /\
    (next_link_id e' < U64_MAX -> forall now l, link_inv (create_link e' now l).2).
Proof.
  refine (import_restores_export (foldl run_link_op new_engine sample_links) _).
  refine (run_link_ops_inv new_engine sample_links 7 new_engine_link_inv _ _ _).
  - vm_compute. discriminate.
  - repeat (apply Forall_cons; split); try exact I; try apply Forall_nil; try exact I.
    + intros n [= <-]. lia.
    + intros n [=].
  - vm_compute. discriminate.
Defined.
