(* ===== verification/Storage.v ===== *)
(** * thingd: the storage interface of the persistent engine

    Models what [crates/thingd/src/persistent.rs] sees of its storage: the keyspace
    and batch operations of [storage_backend.rs] as the class [Kv] with the laws
    [KvLaws] the engine relies on, the [StorageCodec] trait of [encryption.rs], and
    [serde_json] on stored records as the class [Serde].  The RAM database of
    [Keyspace.v] implements the interface ([ram_kv_laws]).  UTF-8 decoding, which the
    engine applies to stored ids, is written out. *)

From S2P Require Import Prelude Wal Table Layer Database Durable Commit ThingDb Keyspace RamScan Model.

(** ** Strings and their bytes *)

Definition byte_char (b : Z) : Ascii.ascii := Ascii.ascii_of_N (Z.to_N b).

Fixpoint bytes_str (b : bytes) : string :=
  match b with [] => EmptyString | x :: b => String (byte_char x) (bytes_str b) end.

Lemma bytes_str_bytes s : bytes_str (str_bytes s) = s.
Proof.
  induction s as [|c s IH]; cbn [str_bytes bytes_str]; [done|]. rewrite IH. f_equal.
  unfold byte_char. rewrite N2Z.id. apply Ascii.ascii_N_embedding.
Qed.

Lemma str_bytes_ok s : bytes_ok (str_bytes s).
Proof.
  unfold bytes_ok. induction s as [|c s IH]; cbn [str_bytes]; constructor; [|done].
  pose proof (Ascii.N_ascii_bounded c). unfold U8_MAX. lia.
Qed.

Definition is_cont (b : Z) : bool := (128 <=? b) && (b <=? 191).

(** For a leading byte: the range of the second byte, and how many bytes follow. *)
Definition utf8_lead (b : Z) : option (Z * Z * nat) :=
  if b <? 194 then None
  else if b <=? 223 then Some (128, 191, 1%nat)
  else if b =? 224 then Some (160, 191, 2%nat)
  else if b =? 237 then Some (128, 159, 2%nat)
  else if b <=? 239 then Some (128, 191, 2%nat)
  else if b =? 240 then Some (144, 191, 3%nat)
  else if b <=? 243 then Some (128, 191, 3%nat)
  else if b =? 244 then Some (128, 143, 3%nat)
  else None.

Fixpoint cont_run (n : nat) (b : bytes) : nat :=
  match n, b with
  | S n, x :: b => if is_cont x then S (cont_run n b) else 0%nat
  | _, _ => 0%nat
  end.

(** The next character, or the maximal invalid part, and its length. *)
Definition utf8_chunk (b : bytes) : bool * nat :=
  match b with
  | [] => (true, 0%nat)
  | x :: rest =>
      if x <? 128 then (true, 1%nat) else
      match utf8_lead x, rest with
      | Some (lo, hi, n), y :: rest =>
          if (lo <=? y) && (y <=? hi)
          then let k := cont_run (n - 1) rest in (Nat.eqb k (n - 1), (2 + k)%nat)
          else (false, 1%nat)
      | _, _ => (false, 1%nat)
      end
  end.

Fixpoint utf8_valid_fuel (fuel : nat) (b : bytes) : bool :=
  match fuel, b with
  | _, [] => true
  | O, _ => false
  | S fuel, _ => let '(valid, n) := utf8_chunk b in valid && utf8_valid_fuel fuel (drop n b)
  end.
Definition utf8_valid (b : bytes) : bool := utf8_valid_fuel (length b) b.

(** [String::from_utf8]. *)
Definition from_utf8 (b : bytes) : result string string :=
  if utf8_valid b then Ok (bytes_str b) else Err "invalid utf-8 sequence".

Fixpoint from_utf8_lossy_fuel (fuel : nat) (b : bytes) : bytes :=
  match fuel, b with
  | _, [] | O, _ => []
  | S fuel, _ =>
      let '(valid, n) := utf8_chunk b in
      (if valid then take n b else [239; 191; 189]) ++ from_utf8_lossy_fuel fuel (drop n b)
  end.
Definition from_utf8_lossy (b : bytes) : bytes := from_utf8_lossy_fuel (length b) b.

(** [splitn(n, sep)] on bytes. *)
Fixpoint break_at (sep : Z) (b : bytes) : option (bytes * bytes) :=
  match b with
  | [] => None
  | x :: b => if x =? sep then Some ([], b) else '(l, r) ← break_at sep b; Some (x :: l, r)
  end.
Fixpoint splitn (n : nat) (sep : Z) (b : bytes) : list bytes :=
  match n with
  | O => []
  | S O => [b]
  | S n => match break_at sep b with Some (l, r) => l :: splitn n sep r | None => [b] end
  end.

(** A Rust [String] holds valid UTF-8 and at most [isize::MAX] bytes. *)
Definition is_str (s : string) : Prop := utf8_valid (str_bytes s) = true /\ zlen (str_bytes s) <= I64_MAX.

Lemma from_utf8_str s : is_str s -> from_utf8 (str_bytes s) = Ok s.
Proof. unfold is_str, from_utf8. intros [-> _]. by rewrite bytes_str_bytes. Qed.

(** ** Keyspaces and batches

    [storage_backend::Error] carries a message; a [Batch] is the list of its writes. *)

Abbreviation storage_result A := (result string A).
Abbreviation BatchWrite := Call.

Definition batch_insert (b : list BatchWrite) (ks : string) (key value : bytes) : list BatchWrite :=
  b ++ [mkCall ks key (Some value)].
Definition batch_remove (b : list BatchWrite) (ks : string) (key : bytes) : list BatchWrite :=
  b ++ [mkCall ks key None].

Class Kv (D : Type) := {
  kv_get : D -> string -> bytes -> storage_result (option bytes);
  kv_scan : D -> string -> ScanBounds -> storage_result (list (bytes * bytes));
  kv_count_prefix : D -> string -> bytes -> storage_result Z;
  kv_commit : D -> list BatchWrite -> storage_result unit * D;
}.

Section keyspace.
Context `{Kv D}.
Implicit Types (s : D) (ks : string).

(** [Keyspace::iter] and [Keyspace::prefix]: ThingDB's iterator hands over its entries
    and drops the error it may carry. *)
Definition collect s ks (prefix : option bytes) : list (bytes * bytes) :=
  match kv_scan s ks (mkBounds prefix None None 0 None) with Ok entries => entries | Err _ => [] end.
Definition kv_iter s ks : list (bytes * bytes) := collect s ks None.
Definition kv_prefix s ks (prefix : bytes) : list (bytes * bytes) := collect s ks (Some prefix).

(** [Keyspace::range] from an excluded start. *)
Definition kv_after s ks (start : bytes) : list (bytes * bytes) :=
  match kv_scan s ks (mkBounds None (Some (start, false)) None 0 None) with Ok entries => entries | Err _ => [] end.

Definition prefix_page s ks (prefix : bytes) (offset limit : Z) : storage_result (list (bytes * bytes)) :=
  if limit =? 0 then Ok [] else kv_scan s ks (mkBounds (Some prefix) None None offset (Some limit)).

Definition prefix_page_after s ks (prefix : bytes) (after : option bytes) (limit : Z)
    : storage_result (list (bytes * bytes)) :=
  if limit =? 0 then Ok []
  else kv_scan s ks (mkBounds (Some prefix) ((fun key => (key, false)) <$> after) None 0 (Some limit)).

Definition first_prefix_after s ks (prefix : bytes) (after : option bytes)
    : storage_result (option (bytes * bytes)) :=
  head <$> kv_scan s ks (mkBounds (Some prefix) ((fun key => (key, false)) <$> after) None 0 (Some 1)).

Definition count_prefix s ks (prefix : bytes) : storage_result Z := kv_count_prefix s ks prefix.
(** A count over the whole keyspace has the empty prefix. *)
Definition kv_count s ks : storage_result Z := kv_count_prefix s ks [].
End keyspace.

(** ** What the engine relies on *)

(** The page of the entries within the bounds. *)
Definition page (b : ScanBounds) (entries : list (bytes * bytes)) : list (bytes * bytes) :=
  cut (sb_limit b) (drop (Z.to_nat (sb_offset b)) (List.filter (fun e => matches_bounds b e.1) entries)).

(** The cursor of a scan is exclusive, and has the prefix of a prefix scan. *)
Definition cursor_ok (b : ScanBounds) : Prop :=
  0 <= sb_offset b /\ sb_end b = None /\ match sb_limit b with Some n => 0 < n | None => True end /\
  match sb_start b with
  | None => True
  | Some (after, inclusive) =>
      inclusive = false /\ bytes_ok after /\ match sb_prefix b with Some p => starts_with p after = true | None => True end
  end.

Definition write_ok (w : BatchWrite) : Prop := valid_name (ca_name w) /\ bytes_ok (ca_key w).

Definition apply_write (ks : string) (m : bmap bytes) (w : BatchWrite) : bmap bytes :=
  if bool_decide (ca_name w = ks) then update_entry m (ca_key w) (ca_value w) else m.
Definition apply_writes (ks : string) (ws : list BatchWrite) (m : bmap bytes) : bmap bytes :=
  foldl (apply_write ks) m ws.

(** A commit that is answered with an error leaves the store as it was.  The RAM store does so;
    a durable ThingDB does when the error comes before the sync of the log, and not when a
    flush or a recovery after it fails ([ThingDb.synced_group_is_durable]): it is not an
    instance, and what the engine does after such an error is outside its theorems. *)
Class KvLaws (D : Type) `{Kv D} := {
  kv_ok : D -> Prop;
  kv_view : D -> string -> bmap bytes;
  kv_keys_ok s n k v : kv_ok s -> kv_view s n !! k = Some v -> bytes_ok k;
  kv_get_view s n k : kv_ok s -> valid_name n -> kv_get s n k = Ok (kv_view s n !! k);
  kv_scan_view s n b : kv_ok s -> valid_name n -> cursor_ok b ->
    kv_scan s n b = Ok (page b (btree_iter (kv_view s n)));
  kv_count_view s n p : kv_ok s -> valid_name n ->
    kv_count_prefix s n p = Ok (zlen (List.filter (fun e => starts_with p e.1) (btree_iter (kv_view s n))));
  kv_commit_view s ws r s' : kv_ok s -> Forall write_ok ws -> kv_commit s ws = (r, s') ->
    kv_ok s' /\
    forall n, valid_name n ->
      kv_view s' n = match r with Ok _ => apply_writes n ws (kv_view s n) | Err _ => kv_view s n end;
}.

(** ** Building batches *)

Lemma writes_ok_nil : Forall write_ok [].
Proof. constructor. Qed.

Lemma insert_ok ws ks k v : Forall write_ok ws -> valid_name ks -> bytes_ok k -> Forall write_ok (batch_insert ws ks k v).
Proof. intros. apply Forall_app. split; [done|]. by apply Forall_singleton. Qed.

Lemma remove_ok ws ks k : Forall write_ok ws -> valid_name ks -> bytes_ok k -> Forall write_ok (batch_remove ws ks k).
Proof. intros. apply Forall_app. split; [done|]. by apply Forall_singleton. Qed.

Lemma apply_insert ks ws ks' k v m :
  apply_writes ks (batch_insert ws ks' k v) m =
  if bool_decide (ks' = ks) then <[k := v]> (apply_writes ks ws m) else apply_writes ks ws m.
Proof. unfold apply_writes, batch_insert. rewrite foldl_app. cbn [foldl]. unfold apply_write. done. Qed.

Lemma apply_remove ks ws ks' k m :
  apply_writes ks (batch_remove ws ks' k) m =
  if bool_decide (ks' = ks) then delete k (apply_writes ks ws m) else apply_writes ks ws m.
Proof. unfold apply_writes, batch_remove. rewrite foldl_app. cbn [foldl]. unfold apply_write. done. Qed.

(** ** Ordered entries of a keyspace *)

(** The entries with a prefix, in key order. *)
Definition prefix_entries (p : bytes) (m : bmap bytes) : list (bytes * bytes) :=
  List.filter (fun e => starts_with p e.1) (btree_iter m).

Lemma prefix_entries_sorted p m : StronglySorted (fun x y => x.1 ≺ y.1) (prefix_entries p m).
Proof. eapply StronglySorted_sublist; [apply filter_sublist|apply btree_iter_sorted]. Qed.

Lemma elem_of_prefix_entries p m k v : (k, v) ∈ prefix_entries p m <-> m !! k = Some v /\ starts_with p k = true.
Proof. unfold prefix_entries. rewrite elem_of_filter_bool, elem_of_btree_iter. done. Qed.

(** Entry lists in strict key order with the same entries are equal. *)
Lemma sorted_entries_ext (l l' : list (bytes * bytes)) :
  StronglySorted (fun x y => x.1 ≺ y.1) l -> StronglySorted (fun x y => x.1 ≺ y.1) l' ->
  (forall x, x ∈ l <-> x ∈ l') -> l = l'.
Proof.
  intros Hl Hl' Hext.
  assert (Hnd : forall k : list (bytes * bytes), StronglySorted (fun x y => x.1 ≺ y.1) k -> NoDup k).
  { induction 1 as [|x k _ IH Hall]; constructor; [|done]. rewrite Forall_forall in Hall.
    intros Hin. by apply (key_lt_irrefl x.1), Hall. }
  apply (StronglySorted_unique_strong (fun x y : bytes * bytes => x.1 ≺ y.1)); [|done..|by apply NoDup_Permutation; auto].
  intros x y _ _ H1 H2. destruct (key_lt_asym _ _ H1 H2).
Qed.

Lemma prefix_entries_delete p m k :
  prefix_entries p (delete k m) = List.filter (fun e => bool_decide (e.1 <> k)) (prefix_entries p m).
Proof.
  apply sorted_entries_ext.
  - apply prefix_entries_sorted.
  - eapply StronglySorted_sublist; [apply filter_sublist|apply prefix_entries_sorted].
  - intros [k' v']. rewrite elem_of_filter_bool, !elem_of_prefix_entries, lookup_delete_Some, bool_decide_eq_true. cbn [fst]. naive_solver.
Qed.

(** Removing one entry leaves the others in order. *)
Lemma prefix_entries_delete_mid p m pre x post :
  prefix_entries p m = pre ++ x :: post -> prefix_entries p (delete x.1 m) = pre ++ post.
Proof.
  intros Heq. rewrite prefix_entries_delete. pose proof (prefix_entries_sorted p m) as Hs. rewrite Heq in *.
  assert (Hnd : NoDup (pre ++ x :: post).*1).
  { clear Heq. induction Hs as [|y l _ IH Hall]; [constructor|]. rewrite fmap_cons. constructor; [|done].
    rewrite list_elem_of_fmap. intros (z&Hz&Hin). rewrite Forall_forall in Hall. specialize (Hall z Hin).
    rewrite Hz in Hall. by apply key_lt_irrefl in Hall. }
  rewrite fmap_app, fmap_cons in Hnd. apply NoDup_app in Hnd as (_&Hpre&Hpost). apply NoDup_cons in Hpost as [Hpost _].
  rewrite List.filter_app. cbn [List.filter]. rewrite (bool_decide_false (x.1 <> x.1)) by auto.
  rewrite !filter_all; [done| |].
  - intros e He. apply bool_decide_eq_true. intros Hex. apply Hpost. rewrite <-Hex. by apply (list_elem_of_fmap_2 fst).
  - intros e He. apply bool_decide_eq_true. intros Hex. apply (Hpre e.1); [by apply (list_elem_of_fmap_2 fst)|].
    rewrite Hex. by left.
Qed.

Lemma prefix_entries_other p m k v :
  starts_with p k = false -> prefix_entries p (<[k := v]> m) = prefix_entries p m /\ prefix_entries p (delete k m) = prefix_entries p m.
Proof.
  intros Hk. split; (apply sorted_entries_ext; [apply prefix_entries_sorted..|]); intros [k' v'];
    rewrite !elem_of_prefix_entries.
  - rewrite lookup_insert_Some. split; [intros [[[<- _]|[_ ?]] ?]; [congruence|done]|].
    intros [Hk' Hp]. split; [|done]. right. split; [congruence|done].
  - rewrite lookup_delete_Some. split; [tauto|]. intros [Hk' Hp]. split; [|done]. split; [congruence|done].
Qed.

(** The first entry. *)
Lemma head_prefix_entries p m c :
  head (prefix_entries p m) = c <->
  match c with
  | None => forall k v, m !! k = Some v -> starts_with p k = false
  | Some (k, v) => m !! k = Some v /\ starts_with p k = true /\
      forall k' v', m !! k' = Some v' -> starts_with p k' = true -> ~ k' ≺ k
  end.
Proof.
  pose proof (prefix_entries_sorted p m) as Hs. destruct c as [[k v]|].
  - split.
    + intros Hh. assert (Hin : (k, v) ∈ prefix_entries p m).
      { destruct (prefix_entries p m); [done|]. injection Hh as ->. by left. }
      apply elem_of_prefix_entries in Hin as [Hk Hp]. split_and!; [done..|]. intros k' v' Hk' Hp'.
      assert (Hin' : (k', v') ∈ prefix_entries p m) by (by apply elem_of_prefix_entries).
      destruct (prefix_entries p m) as [|x l]; [done|]. injection Hh as ->. apply StronglySorted_inv in Hs as [_ Hall].
      apply elem_of_cons in Hin' as [[= -> ->]|Hin']; [apply key_lt_irrefl|]. rewrite Forall_forall in Hall.
      apply key_lt_asym. by apply (Hall (k', v')).
    + intros (Hk&Hp&Hmin). assert (Hin : (k, v) ∈ prefix_entries p m) by (by apply elem_of_prefix_entries).
      destruct (prefix_entries p m) as [|[k' v'] l] eqn:Heq; [by apply elem_of_nil in Hin|]. cbn [head].
      assert (Hin' : (k', v') ∈ prefix_entries p m) by (rewrite Heq; by left).
      apply elem_of_prefix_entries in Hin' as [Hk' Hp']. apply elem_of_cons in Hin as [->|Hin]; [done|].
      apply StronglySorted_inv in Hs as [_ Hall]. rewrite Forall_forall in Hall.
      destruct (Hmin k' v' Hk' Hp'). by apply (Hall (k, v)).
  - split.
    + intros Hh k v Hk. apply not_true_iff_false. intros Hp.
      assert (Hin : (k, v) ∈ prefix_entries p m) by (by apply elem_of_prefix_entries).
      destruct (prefix_entries p m); [by apply elem_of_nil in Hin|done].
    + intros Hnone. destruct (prefix_entries p m) as [|[k v] l] eqn:Heq; [done|].
      assert (Hin : (k, v) ∈ prefix_entries p m) by (rewrite Heq; by left).
      apply elem_of_prefix_entries in Hin as [Hk Hp]. by rewrite (Hnone k v Hk) in Hp.
Qed.

Section laws.
Context `{KvLaws D}.
Implicit Types (s : D) (ks : string).

Definition entries_of s ks (p : bytes) : list (bytes * bytes) := prefix_entries p (kv_view s ks).

Lemma kv_prefix_entries s ks p : kv_ok s -> valid_name ks -> kv_prefix s ks p = entries_of s ks p.
Proof.
  intros Hok Hks. unfold kv_prefix, collect. rewrite kv_scan_view by (done || by repeat split).
  unfold page, matches_bounds, in_range. cbn [sb_limit sb_offset sb_prefix sb_start sb_end cut drop Z.to_nat].
  apply filter_ext_in. intros e _. by rewrite !andb_true_r.
Qed.

Lemma kv_iter_entries s ks : kv_ok s -> valid_name ks -> kv_iter s ks = btree_iter (kv_view s ks).
Proof.
  intros Hok Hks. unfold kv_iter, collect. rewrite kv_scan_view by (done || by repeat split).
  unfold page, matches_bounds, in_range. cbn [sb_limit sb_offset sb_prefix sb_start sb_end cut drop Z.to_nat].
  by apply filter_all.
Qed.

Lemma kv_after_entries s ks start :
  kv_ok s -> valid_name ks -> bytes_ok start ->
  kv_after s ks start = List.filter (fun x => key_ltb start x.1) (btree_iter (kv_view s ks)).
Proof.
  intros Hok Hks Hs. unfold kv_after. rewrite kv_scan_view by (done || by repeat split).
  unfold page, matches_bounds, in_range. cbn [sb_limit sb_offset sb_prefix sb_start sb_end cut drop Z.to_nat].
  apply filter_ext_in. intros e _. by rewrite !andb_true_r.
Qed.

Lemma prefix_page_entries s ks p offset limit :
  kv_ok s -> valid_name ks -> 0 <= offset -> 0 <= limit ->
  prefix_page s ks p offset limit = Ok (take (Z.to_nat limit) (drop (Z.to_nat offset) (entries_of s ks p))).
Proof.
  intros Hok Hks Ho Hl. unfold prefix_page. destruct (Z.eqb_spec limit 0) as [->|Hne]; [done|].
  rewrite kv_scan_view by (done || (repeat split; cbn; lia)). unfold page, matches_bounds, in_range.
  cbn [sb_limit sb_offset sb_prefix sb_start sb_end cut]. unfold entries_of, prefix_entries. do 3 f_equal.
  apply filter_ext_in. intros e _. by rewrite !andb_true_r.
Qed.

(** The entries after a cursor that is one of them are those that follow it. *)
Lemma filter_after (l pre post : list (bytes * bytes)) x :
  StronglySorted (fun x y => x.1 ≺ y.1) l -> l = pre ++ x :: post ->
  List.filter (fun e => key_ltb x.1 e.1) l = post.
Proof.
  intros Hs ->. rewrite List.filter_app. cbn [List.filter].
  replace (key_ltb x.1 x.1) with false by (symmetry; apply key_ltb_false; by right).
  assert (Hpre : Forall (fun e => e.1 ≺ x.1) pre).
  { clear -Hs. induction pre as [|e pre IH]; [done|]. cbn [app] in Hs. apply StronglySorted_inv in Hs as [Hs Hall].
    constructor; [|by apply IH]. rewrite Forall_forall in Hall. apply Hall. apply elem_of_app. right. by left. }
  assert (Hpost : Forall (fun e => x.1 ≺ e.1) post).
  { clear -Hs. induction pre as [|e pre IH]; cbn [app] in Hs; apply StronglySorted_inv in Hs as [Hs Hall]; auto. }
  rewrite filter_none, filter_all; [done| |].
  - intros e He. apply key_ltb_lt. rewrite Forall_forall in Hpost. auto.
  - intros e He. apply key_ltb_false. left. rewrite Forall_forall in Hpre. auto.
Qed.

Lemma scan_after s ks p x limit pre post :
  kv_ok s -> valid_name ks -> bytes_ok x.1 -> 0 < limit -> entries_of s ks p = pre ++ x :: post ->
  kv_scan s ks (mkBounds (Some p) (Some (x.1, false)) None 0 (Some limit)) = Ok (take (Z.to_nat limit) post).
Proof.
  intros Hok Hks Hx Hl Heq.
  assert (Hp : starts_with p x.1 = true).
  { assert (Hin : (x.1, x.2) ∈ entries_of s ks p) by (rewrite Heq; destruct x; apply elem_of_app; right; left).
    by apply elem_of_prefix_entries in Hin as [_ ?]. }
  rewrite kv_scan_view; [|done..|].
  2: { by repeat split; cbn. }
  unfold page, matches_bounds, in_range. cbn [sb_limit sb_offset sb_prefix sb_start sb_end cut]. f_equal.
  rewrite drop_0. f_equal. rewrite <-(filter_after _ _ _ x (prefix_entries_sorted p (kv_view s ks)) Heq).
  unfold entries_of, prefix_entries. rewrite <-filter_andb. apply filter_ext_in. intros e _. rewrite andb_true_r. apply andb_comm.
Qed.

Lemma scan_first s ks p limit :
  kv_ok s -> valid_name ks -> 0 < limit ->
  kv_scan s ks (mkBounds (Some p) None None 0 (Some limit)) = Ok (take (Z.to_nat limit) (entries_of s ks p)).
Proof.
  intros Hok Hks Hl. rewrite kv_scan_view by (done || (repeat split; cbn; lia)).
  unfold page, matches_bounds, in_range. cbn [sb_limit sb_offset sb_prefix sb_start sb_end cut]. f_equal.
  rewrite drop_0. f_equal. apply filter_ext_in. intros e _. by rewrite !andb_true_r.
Qed.

Lemma first_prefix_entries s ks p :
  kv_ok s -> valid_name ks -> first_prefix_after s ks p None = Ok (head (entries_of s ks p)).
Proof.
  intros Hok Hks. unfold first_prefix_after. cbn [fmap option_fmap option_map]. rewrite scan_first by done.
  run_simpl. by destruct (entries_of s ks p).
Qed.

Lemma next_prefix_entries s ks p x pre post :
  kv_ok s -> valid_name ks -> bytes_ok x.1 -> entries_of s ks p = pre ++ x :: post ->
  first_prefix_after s ks p (Some x.1) = Ok (head post).
Proof.
  intros Hok Hks Hx Heq. unfold first_prefix_after. cbn [fmap option_fmap option_map].
  rewrite (scan_after s ks p x 1 pre post) by done. run_simpl. by destruct post.
Qed.

(** The entry that follows the part of the index already read. *)
Lemma next_entry s ks p pre post :
  kv_ok s -> valid_name ks -> entries_of s ks p = pre ++ post ->
  first_prefix_after s ks p (fst <$> last pre) = Ok (head post).
Proof.
  intros Hok Hks Heq. destruct pre as [|x pre _] using rev_ind.
  - cbn [app] in Heq. rewrite <-Heq. by apply first_prefix_entries.
  - rewrite last_snoc. cbn [fmap option_fmap option_map]. rewrite <-app_assoc in Heq.
    apply (next_prefix_entries s ks p x pre); [done..| |done].
    assert (Hin : (x.1, x.2) ∈ entries_of s ks p) by (rewrite Heq; destruct x; apply elem_of_app; right; left).
    apply elem_of_prefix_entries in Hin as [Hin _]. by eapply kv_keys_ok.
Qed.

Lemma prefix_page_after_entries s ks p limit :
  kv_ok s -> valid_name ks -> 0 <= limit ->
  prefix_page_after s ks p None limit = Ok (take (Z.to_nat limit) (entries_of s ks p)).
Proof.
  intros Hok Hks Hl. unfold prefix_page_after. destruct (Z.eqb_spec limit 0) as [->|Hne]; [done|].
  cbn [fmap option_fmap option_map]. apply scan_first; [done..|lia].
Qed.

Lemma next_page_entries s ks p limit pre post :
  kv_ok s -> valid_name ks -> 0 <= limit -> entries_of s ks p = pre ++ post ->
  prefix_page_after s ks p (fst <$> last pre) limit = Ok (take (Z.to_nat limit) post).
Proof.
  intros Hok Hks Hl Heq. destruct pre as [|x pre _] using rev_ind.
  - cbn [app] in Heq. rewrite <-Heq. by apply prefix_page_after_entries.
  - rewrite last_snoc. cbn [fmap option_fmap option_map]. rewrite <-app_assoc in Heq.
    unfold prefix_page_after. destruct (Z.eqb_spec limit 0) as [->|Hne]; [done|].
    cbn [fmap option_fmap option_map]. apply (scan_after s ks p x limit pre post); [done..| |lia|done].
    assert (Hin : (x.1, x.2) ∈ entries_of s ks p) by (rewrite Heq; destruct x; apply elem_of_app; right; left).
    apply elem_of_prefix_entries in Hin as [Hin _]. by eapply kv_keys_ok.
Qed.
End laws.

(** ** The RAM database implements the interface *)

Section ram.
Context `{Crc32} `{ManifestCodec}.

Definition ram_handle (m : RamKeyspaces) : Handle := mkHandle (h_db in_memory_handle) (Some m).

(** A panic of [BTreeMap::range] is outside the interface: it shows as an error the laws
    exclude. *)
#[export] Instance ram_kv : Kv RamKeyspaces := {|
  kv_get m n k := Ok (ram_get m n k);
  kv_scan m n b := ok_or (ram_iter_bounds m n b) "range start is greater than range end in BTreeMap";
  kv_count_prefix m n p := Ok (match m !! n with Some entries => count_memory_prefix entries p | None => 0 end);
  kv_commit m ws :=
    let '(r, h) := commit_batch (ram_handle m) (build_batch (ram_handle m) ws) io_ok in
    (match r with Ok u => Ok u | Err err => Err (error_text err) end, default m (h_ram h));
|}.

Definition ram_ok (m : RamKeyspaces) : Prop :=
  forall n entries, m !! n = Some entries -> Forall (fun e => bytes_ok e.1) (btree_iter entries).
Definition ram_view (m : RamKeyspaces) (n : string) : bmap bytes := default ∅ (m !! n).

Lemma cursor_not_inverted b : cursor_ok b -> inverted b = false.
Proof.
  intros (_&Hend&_&Hstart). unfold inverted, upper_bound, lower_bound. rewrite Hend.
  destruct (sb_start b) as [[after i]|].
  - destruct Hstart as (->&Hok&Hp). destruct (sb_prefix b) as [p|]; cbn [mbind option_bind]; [|done]. pose proof (starts_with_le _ _ Hp) as Hle.
    rewrite (proj2 (key_leb_le p after)) by done. destruct (successor p) as [u|] eqn:Hu; [|done].
    destruct (proj1 (successor_Some p after u Hok Hu) Hp) as [_ Hlt].
    rewrite bool_decide_false by (intros ->; by apply key_lt_irrefl in Hlt). cbn [andb]. rewrite orb_false_r.
    apply key_ltb_false. by left.
  - destruct (sb_prefix b) as [p|]; cbn [mbind option_bind]; [|done].
    destruct (successor p) as [u|] eqn:Hu; [|done]. rewrite andb_false_r. cbn [andb]. rewrite orb_false_r.
    apply not_true_iff_false. rewrite key_ltb_lt. by apply successor_ge.
Qed.

Lemma ram_ok_update m n (k : bytes) v :
  ram_ok m -> bytes_ok k -> ram_ok (<[n := update_entry (default ∅ (m !! n)) k v]> m).
Proof.
  intros Hm Hk n' es. destruct (decide (n = n')) as [<-|Hne].
  2: { rewrite lookup_insert_ne by done. apply Hm. }
  rewrite lookup_insert_eq. intros [= <-]. apply Forall_forall. intros [k' v'] Hin. apply elem_of_btree_iter in Hin.
  cbn [fst]. assert (Hor : k' = k \/ (default ∅ (m !! n)) !! k' = Some v').
  { unfold update_entry in Hin. destruct (decide (k' = k)) as [|Hkk]; [by left|right].
    destruct v; [by rewrite lookup_insert_ne in Hin|by rewrite lookup_delete_ne in Hin]. }
  destruct Hor as [->|Hin']; [done|]. destruct (m !! n) as [es|] eqn:Hn; cbn [default] in Hin'.
  - pose proof (Hm n es Hn) as Hall. rewrite Forall_forall in Hall. by apply (Hall (k', v')), elem_of_btree_iter.
  - by rewrite lookup_empty in Hin'.
Qed.

Lemma ram_view_update m n n' (k : bytes) v :
  ram_view (<[n := update_entry (default ∅ (m !! n)) k v]> m) n' = apply_write n' (ram_view m n') (mkCall n k v).
Proof.
  unfold ram_view, apply_write. cbn [ca_name ca_key ca_value]. destruct (decide (n = n')) as [<-|Hne].
  - by rewrite lookup_insert_eq, bool_decide_true.
  - by rewrite lookup_insert_ne, bool_decide_false.
Qed.

Lemma ram_apply_calls h m ws :
  memory_mode h = true -> ram_ok m -> Forall write_ok ws ->
  let m' := foldl apply_memory_batch_operation m (map (call_operation h) ws) in
  ram_ok m' /\ forall n, ram_view m' n = apply_writes n ws (ram_view m n).
Proof.
  intros Hh Hm Hws. cbv zeta. unfold apply_writes.
  revert m Hm. induction Hws as [|w ws [Hn Hk] _ IH]; intros m Hm; [done|]. cbn [map foldl].
  assert (Hop : apply_memory_batch_operation m (call_operation h w) =
    <[ca_name w := update_entry (default ∅ (m !! ca_name w)) (ca_key w) (ca_value w)]> m).
  { unfold apply_memory_batch_operation, call_operation, batch_key. cbn [bo_keyspace bo_key bo_value ks_namespace].
    by rewrite Hh. }
  rewrite Hop. destruct (IH (<[ca_name w := update_entry (default ∅ (m !! ca_name w)) (ca_key w) (ca_value w)]> m))
    as [Hok Hview]; [by apply ram_ok_update|]. split; [done|]. intros n. rewrite Hview, ram_view_update. by destruct w.
Qed.

#[export, refine] Instance ram_kv_laws : KvLaws RamKeyspaces := {|
  kv_ok := ram_ok;
  kv_view := ram_view;
|}.
Proof.
  - intros m n k v Hm. unfold ram_view. destruct (m !! n) as [es|] eqn:Hes; cbn [default]; [|by rewrite lookup_empty].
    intros Hk. specialize (Hm n es Hes). rewrite Forall_forall in Hm. by apply (Hm (k, v)), elem_of_btree_iter.
  - intros m n k _ _. cbn [kv_get ram_kv]. unfold ram_get, ram_view. destruct (m !! n); [done|].
    cbn. by rewrite lookup_empty.
  - intros m n b Hm Hn Hb. cbn [kv_scan ram_kv]. unfold ram_view. destruct (m !! n) as [es|] eqn:Hes.
    + pose proof Hb as (Ho&_&Hl&_). rewrite (ram_iter_bounds_page m n es) by eauto.
      by rewrite cursor_not_inverted.
    + unfold ram_iter_bounds, iter_memory_bounds. rewrite Hes. unfold page. cbn [default]. rewrite btree_iter_empty.
      cbn [List.filter]. rewrite drop_nil. unfold cut. destruct (sb_limit b); rewrite ?take_nil; by case_bool_decide.
  - intros m n p Hm Hn. cbn [kv_count_prefix ram_kv]. unfold ram_view. destruct (m !! n) as [es|] eqn:Hes.
    + by rewrite count_memory_prefix_filter by eauto.
    + cbn [default]. by rewrite btree_iter_empty.
  - intros m ws r m' Hm Hws. cbn [kv_commit ram_kv]. unfold commit_batch. rewrite build_batch_map.
    destruct ws as [|w ws]; [by intros [= <- <-]|]. rewrite bool_decide_false by done. cbn [h_ram ram_handle].
    assert (Hval : fold_res (fun _ op => validate_memory_batch_operation op) ()
      (map (call_operation (ram_handle m)) (w :: ws)) = Ok ()).
    { apply fold_res_unit. apply Forall_forall. intros op Hop. apply list_elem_of_In, in_map_iff in Hop as (c&<-&Hc).
      apply list_elem_of_In in Hc. rewrite Forall_forall in Hws. destruct (Hws c Hc) as [[Hne Hnul] _].
      unfold validate_memory_batch_operation, call_operation. cbn [bo_keyspace].
      by rewrite !bool_decide_false by done. }
    change (mkHandle (h_db in_memory_handle) (Some m)) with (ram_handle m).
    rewrite Hval. intros [= <- <-]. cbn [h_ram default].
    destruct (ram_apply_calls (ram_handle m) m (w :: ws) eq_refl Hm Hws) as [Hok Hview]. by split; [|intros n _; apply Hview].
Defined.
End ram.

(** ** The storage codec *)

Record StorageCodec := mkCodec {
  encode_value : string -> bytes -> thingd_result bytes;
  decode_value : string -> bytes -> thingd_result bytes;
  encode_key : string -> bytes -> bytes;
  encode_scoped_key : string -> bytes -> bytes -> bytes;
  encode_scoped_prefix : string -> bytes -> bytes;
  encrypted : bool;
}.

(** [RawStorageCodec]. *)
Definition raw_codec : StorageCodec := {|
  encode_value _ value := Ok value;
  decode_value _ value := Ok value;
  encode_key _ key := key;
  encode_scoped_key _ namespace suffix := namespace ++ [0] ++ suffix;
  encode_scoped_prefix _ namespace := namespace ++ [0];
  encrypted := false;
|}.

(** [serde_json] on a record type: what is well typed parses back from its text. *)
Class Serde (A : Type) (well_typed : A -> Prop) := {
  json_to_vec : A -> storage_result bytes;
  json_from_slice : bytes -> storage_result A;
  json_roundtrip a : well_typed a -> exists b, json_to_vec a = Ok b /\ json_from_slice b = Ok a;
}.

(** The text of a well-typed record. *)
Definition json_text `{Serde A well_typed} (a : A) : bytes :=
  match json_to_vec a with Ok b => b | Err _ => [] end.

Lemma json_to_vec_text `{Serde A well_typed} a : well_typed a -> json_to_vec a = Ok (json_text a).
Proof. intros Ha. unfold json_text. by destruct (json_roundtrip a Ha) as (b&->&_). Qed.

Lemma json_from_text `{Serde A well_typed} a : well_typed a -> json_from_slice (json_text a) = Ok a.
Proof. intros Ha. unfold json_text. by destruct (json_roundtrip a Ha) as (b&->&?). Qed.
