(* ===== verification/RustStd.v ===== *)
(** * Floating point and text

    The parts of the standard library that the analytics and the server use: [f64] and [f32]
    arithmetic over IEEE 754 values ([spec_float]) with their comparison, sums, extrema and the
    parser of [f64]; the code points of UTF-8 text, white space, lower case and substrings. *)

From S2P Require Import Prelude Wal Table Layer Database Keyspace RamScan Model Objects Storage.
From Stdlib Require Import SpecFloat.

(** ** 64-bit floating point *)

Definition f64_of_u64 (z : Z) : spec_float := match z with Z0 => S754_zero false | _ => binary_normalize 53 1024 z 0 false end.
Definition f64_div : spec_float -> spec_float -> spec_float := SFdiv 53 1024.
Definition f64_mul : spec_float -> spec_float -> spec_float := SFmul 53 1024.
Definition f64_add : spec_float -> spec_float -> spec_float := SFadd 53 1024.
Definition f64_ge (a b : spec_float) : bool := match SFcompare a b with Some Gt | Some Eq => true | _ => false end.

Definition f64_INFINITY : spec_float := S754_infinity false.
Definition f64_NEG_INFINITY : spec_float := S754_infinity true.
Definition f64_MAX : spec_float := S754_finite false 9007199254740991 971.

Definition is_nan (x : spec_float) : bool := match x with S754_nan => true | _ => false end.

(** [f64::min] and [f64::max]: a NaN gives way to the other argument. *)
Definition f64_min (a b : spec_float) : spec_float :=
  if is_nan a then b else match SFcompare b a with Some Lt => b | _ => a end.
Definition f64_max (a b : spec_float) : spec_float :=
  if is_nan a then b else match SFcompare b a with Some Gt => b | _ => a end.

(** [Iterator::sum] starts from negative zero, the neutral element of addition. *)
Definition f64_sum (l : list spec_float) : spec_float := foldl f64_add (S754_zero true) l.

(** [str::parse::<f64>]: a sign, then [inf], [infinity], [nan] in any case, or digits with an
    optional point and exponent, rounded to the nearest value. *)
Definition is_digit (b : Z) : bool := (48 <=? b) && (b <=? 57).
Fixpoint span_digits (b : bytes) : bytes * bytes :=
  match b with
  | x :: b' => if is_digit x then let '(ds, r) := span_digits b' in (x :: ds, r) else ([], b)
  | [] => ([], [])
  end.
Definition digits_value (ds : bytes) : Z := foldl (fun n d => 10 * n + (d - 48)) 0 ds.
Definition lower_byte (b : Z) : Z := if (65 <=? b) && (b <=? 90) then b + 32 else b.

Definition round_decimal (negative : bool) (m e : Z) : spec_float :=
  if m =? 0 then S754_zero negative else
  if 0 <=? e then binary_normalize 53 1024 (if negative then - (m * 10 ^ e) else m * 10 ^ e) 0 negative
  else let '(q, e', l) := SFdiv_core_binary 53 1024 m 0 (10 ^ (- e)) 0 in binary_round_aux 53 1024 negative q e' l.

Definition parse_sign (b : bytes) : bool * bytes :=
  match b with 45 :: b' => (true, b') | 43 :: b' => (false, b') | _ => (false, b) end.

Definition parse_exponent (b : bytes) : option Z :=
  match b with
  | [] => Some 0
  | c :: b' =>
      if lower_byte c =? 101 then
        let '(negative, b'') := parse_sign b' in
        match span_digits b'' with
        | ([], _) => None
        | (ds, []) => Some (if negative then - digits_value ds else digits_value ds)
        | _ => None
        end
      else None
  end.

Definition parse_f64 (s : string) : option spec_float :=
  let '(negative, b) := parse_sign (str_bytes s) in
  let word := lower_byte <$> b in
  if bool_decide (word = str_bytes "inf") || bool_decide (word = str_bytes "infinity") then Some (S754_infinity negative) else
  if bool_decide (word = str_bytes "nan") then Some S754_nan else
  let '(whole, rest) := span_digits b in
  let '(fraction, rest) := match rest with 46 :: rest => span_digits rest | _ => ([], rest) end in
  if bool_decide (whole = []) && bool_decide (fraction = []) then None else
  e ← parse_exponent rest;
  Some (round_decimal negative (digits_value (whole ++ fraction)) (e - Z.of_nat (length fraction))).

Lemma parse_f64_sample :
  parse_f64 "1.5" = Some (f64_div (f64_of_u64 3) (f64_of_u64 2)) /\ parse_f64 "1e2" = Some (f64_of_u64 100) /\
  parse_f64 ".5e+1" = Some (f64_of_u64 5) /\ parse_f64 "0.1" = Some (f64_div (f64_of_u64 1) (f64_of_u64 10)) /\
  parse_f64 "-Inf" = Some f64_NEG_INFINITY /\ parse_f64 "1.7976931348623157e308" = Some f64_MAX /\
  parse_f64 "." = None /\ parse_f64 "1x" = None /\ parse_f64 "" = None.
Proof. split_and!; vm_compute; reflexivity. Qed.

(** ** 32-bit floating point *)

Definition f32_mul : spec_float -> spec_float -> spec_float := SFmul 24 128.
Definition f32_add : spec_float -> spec_float -> spec_float := SFadd 24 128.
Definition f32_div : spec_float -> spec_float -> spec_float := SFdiv 24 128.
Definition f32_sqrt : spec_float -> spec_float := SFsqrt 24 128.
Definition f32_sum (l : list spec_float) : spec_float := foldl f32_add (S754_zero true) l.
Definition is_zero (x : spec_float) : bool := match x with S754_zero _ => true | _ => false end.

(** [f64::from(x)], which is exact. *)
Definition f64_from_f32 (x : spec_float) : spec_float :=
  match x with
  | S754_finite s m e => binary_normalize 53 1024 (if s then Zneg m else Zpos m) e s
  | _ => x
  end.

(** ** The order of floats *)

(** [SFcompare] compares these ranks, except for NaN. *)
Definition float_rank (x : spec_float) : Z * (Z * Z) :=
  match x with
  | S754_infinity s => (if s then -2 else 2, (0, 0))
  | S754_finite s m e => if s then (-1, (- e, Zneg m)) else (1, (e, Zpos m))
  | S754_zero _ => (0, (0, 0))
  | S754_nan => (-3, (0, 0))
  end.

Definition float_cmp (a b : spec_float) : comparison := key_cmp (float_rank a) (float_rank b).

Lemma SFcompare_rank a b : is_nan a = false -> is_nan b = false -> SFcompare a b = Some (float_cmp a b).
Proof.
  intros Ha Hb. destruct a as [s|s| |s m e], b as [t|t| |t n f]; try done; try (by destruct s; destruct t); try (by destruct s); try (by destruct t).
  destruct s, t; try done; cbn -[Z.compare Pos.compare_cont]; unfold float_cmp; cbn -[Z.compare Pos.compare_cont].
  rewrite (Z.compare_opp e f), (Z.compare_antisym e f). by destruct (e ?= f).
Qed.

(** ** Sorting by name *)

Definition by_name {A} (name : A -> string) (x y : A) : comparison := key_cmp (name x) (name y).

(** With distinct names the order of the input does not matter. *)
Lemma sort_unique {A} (name : A -> string) l l' : l ≡ₚ l' -> NoDup (name <$> l) -> sort_by (by_name name) l = sort_by (by_name name) l'.
Proof.
  intros Hp Hnd. apply (StronglySorted_unique_strong (fun x y => by_name name x y <> Gt)); [|apply sort_by_sorted; apply cmp_on_preorder..|by rewrite !sort_by_perm].
  intros x y Hx%elem_of_sort_by Hy%elem_of_sort_by H1 H2. rewrite <-Hp in Hy. unfold by_name in *.
  assert (Hname : name x = name y).
  { destruct (key_lt_total (name x) (name y)) as [Hlt|[Heq|Hlt]]; [|done|]; unfold key_lt in Hlt;
      [by rewrite key_cmp_antisym, Hlt in H2|by rewrite key_cmp_antisym, Hlt in H1]. }
  apply list_elem_of_lookup in Hx as [i Hi]. apply list_elem_of_lookup in Hy as [j Hj].
  assert (Hij : i = j) by (eapply NoDup_lookup; [exact Hnd|rewrite list_lookup_fmap, Hi; reflexivity|rewrite list_lookup_fmap, Hj; cbn; by f_equal]). congruence.
Qed.

(** ** Text *)

(** [char::is_alphanumeric] and [str::to_lowercase]; what lies beyond ASCII are the tables of the
    standard library. *)
Class UnicodeTables := {
  is_alphanumeric : Z -> bool;
  is_alphanumeric_ascii c : 0 <= c < 128 ->
    is_alphanumeric c = ((48 <=? c) && (c <=? 57)) || ((65 <=? c) && (c <=? 90)) || ((97 <=? c) && (c <=? 122));
  to_lowercase : string -> string;
  to_lowercase_ascii s : Forall (fun b => b < 128) (str_bytes s) -> str_bytes (to_lowercase s) = lower_byte <$> str_bytes s;
}.

(** The encodings of the characters of UTF-8 text. *)
Fixpoint encoded_chars (fuel : nat) (b : bytes) : list bytes :=
  match fuel, b with
  | S fuel, a :: _ =>
      let n := if a <? 128 then 1%nat else if a <? 224 then 2%nat else if a <? 240 then 3%nat else 4%nat in
      take n b :: encoded_chars fuel (drop n b)
  | _, _ => []
  end.

(** [str::chars]: the code points of UTF-8 text. *)
Fixpoint chars (b : bytes) : list Z :=
  match b with
  | [] => []
  | a :: b1 =>
      if a <? 128 then a :: chars b1 else
      match b1 with
      | [] => [a]
      | x :: b2 =>
          if a <? 224 then (a mod 32) * 64 + x mod 64 :: chars b2 else
          match b2 with
          | [] => [a]
          | y :: b3 =>
              if a <? 240 then ((a mod 16) * 64 + x mod 64) * 64 + y mod 64 :: chars b3 else
              match b3 with
              | [] => [a]
              | z :: b4 => (((a mod 8) * 64 + x mod 64) * 64 + y mod 64) * 64 + z mod 64 :: chars b4
              end
          end
      end
  end.

(** [str::chars], each character with its encoding. *)
Definition str_chars (s : string) : list (Z * bytes) :=
  zip (chars (str_bytes s)) (encoded_chars (length (str_bytes s)) (str_bytes s)).
Definition collect_chars (l : list (Z * bytes)) : string := bytes_str (concat l.*2).

(** [char::is_whitespace]. *)
Definition is_whitespace (c : Z) : bool :=
  ((9 <=? c) && (c <=? 13)) || existsb (Z.eqb c) [32; 133; 160; 5760; 8232; 8233; 8239; 8287; 12288] || ((8192 <=? c) && (c <=? 8202)).

(** [str::split_whitespace]. *)
Fixpoint split_words (current : list (Z * bytes)) (l : list (Z * bytes)) : list string :=
  let flush rest := if bool_decide (current = []) then rest else collect_chars current :: rest in
  match l with
  | [] => flush []
  | c :: l => if is_whitespace c.1 then flush (split_words [] l) else split_words (current ++ [c]) l
  end.
Definition split_whitespace (s : string) : list string := split_words [] (str_chars s).

(** [str::contains]. *)
Definition str_contains (s p : string) : bool := bool_decide (is_Some (bytes_find (str_bytes s) (str_bytes p))).

Lemma str_bytes_str b : bytes_ok b -> str_bytes (bytes_str b) = b.
Proof.
  induction 1 as [|x b [H0 H1] _ IH]; [done|]. cbn [bytes_str str_bytes]. rewrite IH. f_equal.
  unfold byte_char, U8_MAX in *. rewrite Ascii.N_ascii_embedding by lia. lia.
Qed.

(** Tables for ASCII text only. *)
Definition ascii_tables : UnicodeTables.
Proof.
  refine {| is_alphanumeric c := ((48 <=? c) && (c <=? 57)) || ((65 <=? c) && (c <=? 90)) || ((97 <=? c) && (c <=? 122));
            to_lowercase s := bytes_str (lower_byte <$> str_bytes s) |}; [done|].
  intros s _. apply str_bytes_str. unfold bytes_ok. apply Forall_fmap. eapply Forall_impl; [exact (str_bytes_ok s)|].
  intros b [H0 H1]. unfold compose, lower_byte, U8_MAX in *. destruct (_ && _) eqn:Hr; [|lia]. lia.
Defined.
