(* ===== verification/DScan.v ===== *)
(** * ThingDB: ordered scans of a durable database

    Models the scans of [crates/thingdb/src/lib.rs] over the mutable tables and the table
    layers: [Keyspace::iter_bounds_paginated] with its four strategies (a page of the
    memory tables, the first entry, a page merged from block cursors, and the general merge
    over loaded indexes), [count_durable_namespace], and the public methods built on them.

    A scan takes the database lock several times and other threads may commit, flush or
    compact in between: [obs n] is the database as the scan finds it at its [n]-th
    acquisition of the lock, and a table file that is read between two acquisitions is read
    as it is at the later one.  Diagnostics are left out. *)

From S2P Require Import Prelude Wal Table Layer Database Keyspace.

(** How a scan can fail to return: a panic, or (in the model) a loop that has used up its
    bound on the number of rounds. *)
Inductive Abort := Panic | OutOfRounds.

(** [Iter]: the entries, and the error handed over by [into_result]. *)
Record Iter := mkIter { it_entries : list (bytes * bytes); it_error : option Error }.

Definition into_result (it : Iter) : tdb_result (list (bytes * bytes)) :=
  match it_error it with Some e => Err e | None => Ok (it_entries it) end.

(** ** Bounds of a scan over physical keys *)

Definition durable_scan_lower (ns : bytes) (prefix : option bytes) (start : option (bytes * bool)) : bytes :=
  physical_key_from_namespace ns
    match prefix, start with
    | Some prefix, Some (start, _) => if key_leb prefix start then start else prefix
    | Some prefix, None => prefix
    | None, Some (start, _) => start
    | None, None => []
    end.

(** [Iterator::min] of the values that are there. *)
Definition option_min (x y : option bytes) : option bytes :=
  match x, y with
  | Some a, Some b => if key_ltb b a then Some b else Some a
  | Some a, None => Some a
  | None, _ => y
  end.

Definition durable_scan_upper (ns : bytes) (prefix : option bytes) (stop : option (bytes * bool)) : option bytes :=
  let namespace_end := successor ns in
  let prefix_end := physical_key_from_namespace ns <$> (prefix ≫= successor) in
  let explicit_end :=
    '(stop, inclusive) ← stop;
    let physical := physical_key_from_namespace ns stop in
    if (inclusive : bool) then successor physical else Some physical in
  match prefix_end, explicit_end with
  | None, None => namespace_end
  | _, _ => option_min (option_min namespace_end prefix_end) explicit_end
  end.

(** [upper.is_none_or(|upper| key < upper)]. *)
Definition below (upper : option bytes) (key : bytes) : bool :=
  match upper with Some upper => key_ltb key upper | None => true end.

(** The physical key of an exclusive start. *)
Definition excluded_start (ns : bytes) (start : option (bytes * bool)) : option bytes :=
  '(key, inclusive) ← start;
  if (inclusive : bool) then None else Some (physical_key_from_namespace ns key).

(** [.filter(|key| key >= lower)]. *)
Definition not_before (lower : bytes) (after : option bytes) : option bytes :=
  key ← after; if key_leb lower key then Some key else None.

Definition strip_prefix (prefix key : bytes) : option bytes :=
  if starts_with prefix key then Some (drop (length prefix) key) else None.

(** The tests on a visible key, which give the user key of an entry to return. *)
Definition scan_match (ns : bytes) (b : ScanBounds) (key : bytes) : option bytes :=
  user_key ← strip_prefix ns key;
  if match sb_prefix b with Some prefix => starts_with prefix user_key | None => true end
     && in_range (sb_start b) (sb_end b) user_key
  then Some user_key else None.

(** [map.range((start, end))] of the scans: after [after] or from [lower], up to [upper]. *)
Definition scan_range {V} (m : bmap V) (lower : bytes) (upper after : option bytes) : result Abort (list (bytes * V)) :=
  let start := match after with Some key => (key, false) | None => (lower, true) end in
  ok_or (btree_range m (Some start) ((fun key => (key, false)) <$> upper)) Panic.

Definition next_map_key {V} (m : bmap V) (lower : bytes) (upper after : option bytes) : result Abort (option bytes) :=
  range ← scan_range m lower upper after;
  Ok (fst <$> head range).

(** The smallest of the candidates, found by a strict comparison from left to right. *)
Definition next_key (candidates : list (option bytes)) : option bytes :=
  foldl (fun next candidate =>
    match candidate, next with
    | Some key, Some current => if key_ltb key current then Some key else next
    | Some key, None => Some key
    | None, _ => next
    end) None candidates.

(** [iter().map(f).collect::<Result<Vec<_>>>()]. *)
Fixpoint collect_results {A B} (f : A -> tdb_result B) (l : list A) : tdb_result (list B) :=
  match l with
  | [] => Ok []
  | x :: l => y ← f x; ys ← collect_results f l; Ok (y :: ys)
  end.

(** [binary_search_by(..).unwrap_or_else(|index| index)]. *)
Definition search_index (entries : list TableIndexEntry) (key : bytes) : nat :=
  default (partition_point (fun e => key_ltb (ti_key e) key) entries) (binary_search_by entries key).

(** ** A page of the memory tables *)

Section memory_page.
Context (i : Inner) (ns : bytes) (b : ScanBounds) (limit : Z).

Definition max_examined : Z :=
  Z.max 256 (Z.min 16384 (u64_saturating_add (u64_saturating_mul (u64_saturating_add (sb_offset b) limit) 4) 64)).

(** The key under the two cursors, whether it comes from the pending table, and the
    cursors after it. *)
Definition next_memory_key (st : list (bytes * bytes)) (pe : list (bytes * option bytes))
    : option (bytes * bool * list (bytes * bytes) * list (bytes * option bytes)) :=
  match st, pe with
  | [], [] => None
  | (key, _) :: st, [] => Some (key, false, st, [])
  | [], (key, _) :: pe => Some (key, true, [], pe)
  | (state_key, _) :: st', (pending_key, _) :: pe' =>
      match key_cmp state_key pending_key with
      | Lt => Some (state_key, false, st', pe)
      | Eq => Some (pending_key, true, st', pe')
      | Gt => Some (pending_key, true, st, pe')
      end
  end.

(** [Ok None] is [return None]: too many keys examined for a page. *)
Fixpoint memory_page_loop (rounds : nat) (st : list (bytes * bytes)) (pe : list (bytes * option bytes))
    (examined skipped : Z) (entries : list (bytes * bytes)) : result Abort (option Iter) :=
  match rounds with
  | O => Err OutOfRounds
  | S rounds =>
      if limit <=? zlen entries then Ok (Some (mkIter entries None)) else
      match next_memory_key st pe with
      | None => Ok (Some (mkIter entries None))
      | Some (key, from_pending, st, pe) =>
          let examined := u64_saturating_add examined 1 in
          if max_examined <? examined then Ok None else
          let value := if (from_pending : bool) then pending_table i !! key ≫= id else state i !! key in
          match value, scan_match ns b key with
          | Some value, Some user_key =>
              if skipped <? sb_offset b then memory_page_loop rounds st pe examined (skipped + 1) entries
              else memory_page_loop rounds st pe examined skipped (entries ++ [(user_key, value)])
          | _, _ => memory_page_loop rounds st pe examined skipped entries
          end
      end
  end.

Definition iter_durable_memtable_page : result Abort (option Iter) :=
  let lower := durable_scan_lower ns (sb_prefix b) (sb_start b) in
  let upper := durable_scan_upper ns (sb_prefix b) (sb_end b) in
  let cursor_after := not_before lower (excluded_start ns (sb_start b)) in
  if below upper lower then
    st ← scan_range (state i) lower upper cursor_after;
    pe ← scan_range (pending_table i) lower upper cursor_after;
    memory_page_loop (S (length st + length pe)) st pe 0 0 []
  else Ok (Some (mkIter [] None)).
End memory_page.

(** ** The general merge *)

Section merge.
Context `{Crc32}.

Definition get_scan_value_snapshot (d : Disk) (st : bmap bytes) (pending : bmap (option bytes))
    (layers : list TableLayer) (key : bytes) : tdb_result (option bytes) :=
  match pending !! key with
  | Some value => Ok value
  | None =>
      match st !! key with
      | Some value => Ok (Some value)
      | None => lookup_layers d (rev layers) key
      end
  end.

Record Merge := mkMerge {
  mg_state_key : option bytes;
  mg_pending_key : option bytes;
  mg_layer_indices : list nat;
  mg_entries : list (bytes * bytes);
  mg_skipped : Z;
}.

Section merge_loop.
Context (d : Disk) (i : Inner) (layer_entries : list (list TableIndexEntry)) (ns : bytes) (b : ScanBounds).
Context (lower : bytes) (upper : option bytes).

Definition layer_heads (indices : list nat) : list (option bytes) :=
  zip_with (fun (entries : list TableIndexEntry) index => ti_key <$> entries !! index) layer_entries indices.

Definition advance_layers (indices : list nat) (key : bytes) : list nat :=
  zip_with (fun (entries : list TableIndexEntry) index =>
    if bool_decide (ti_key <$> entries !! index = Some key) then S index else index) layer_entries indices.

Definition advance_map_key {V} (m : bmap V) (current : option bytes) (key : bytes) : result Abort (option bytes) :=
  if bool_decide (current = Some key) then next_map_key m lower upper (Some key) else Ok current.

Fixpoint merge_loop (rounds : nat) (m : Merge) : result Abort Iter :=
  match rounds with
  | O => Err OutOfRounds
  | S rounds =>
      match next_key (mg_state_key m :: mg_pending_key m :: layer_heads (mg_layer_indices m)) with
      | None => Ok (mkIter (mg_entries m) None)
      | Some key =>
          if negb (below upper key) then Ok (mkIter (mg_entries m) None) else
          state_key ← advance_map_key (state i) (mg_state_key m) key;
          pending_key ← advance_map_key (pending_table i) (mg_pending_key m) key;
          let indices := advance_layers (mg_layer_indices m) key in
          match get_scan_value_snapshot d (state i) (pending_table i) (table_layers i) key with
          | Err e => Ok (mkIter (mg_entries m) (Some e))
          | Ok value =>
              match value, scan_match ns b key with
              | Some value, Some user_key =>
                  if mg_skipped m <? sb_offset b
                  then merge_loop rounds (mkMerge state_key pending_key indices (mg_entries m) (mg_skipped m + 1))
                  else
                    let entries := mg_entries m ++ [(user_key, value)] in
                    if match sb_limit b with Some limit => limit <=? zlen entries | None => false end
                    then Ok (mkIter entries None)
                    else merge_loop rounds (mkMerge state_key pending_key indices entries (mg_skipped m))
              | _, _ => merge_loop rounds (mkMerge state_key pending_key indices (mg_entries m) (mg_skipped m))
              end
          end
      end
  end.
End merge_loop.

(** Where a layer starts: the lower bound, or after it when the start is excluded. *)
Definition start_index (lower : bytes) (after : option bytes) (entries : list TableIndexEntry) : nat :=
  let index := search_index entries lower in
  if bool_decide (is_Some after) && bool_decide (ti_key <$> entries !! index = after) then S index else index.

Definition iter_durable_merge (d : Disk) (i : Inner) (ns : bytes) (b : ScanBounds) : result Abort Iter :=
  let lower := durable_scan_lower ns (sb_prefix b) (sb_start b) in
  let upper := durable_scan_upper ns (sb_prefix b) (sb_end b) in
  if negb (below upper lower) then Ok (mkIter [] None) else
  let cursor_after := not_before lower (excluded_start ns (sb_start b)) in
  match collect_results (loaded_entries d) (table_layers i) with
  | Err e => Ok (mkIter [] (Some e))
  | Ok layer_entries =>
      state_key ← next_map_key (state i) lower upper cursor_after;
      pending_key ← next_map_key (pending_table i) lower upper cursor_after;
      let indices := start_index lower cursor_after <$> layer_entries in
      merge_loop d i layer_entries ns b lower upper
        (S (size (state i) + size (pending_table i) + length (concat layer_entries)))
        (mkMerge state_key pending_key indices [] 0)
  end.
End merge.

(** ** The first entry *)

Section first.
Context `{Crc32} (obs : nat -> Db) (ns : bytes) (b : ScanBounds).

(** The first key of a layer at or after the cursor, if it is below the upper bound. *)
Definition table_candidate (d : Disk) (lower : bytes) (upper after : option bytes) (layer : TableLayer)
    : tdb_result (option bytes) :=
  entries ← loaded_entries d layer;
  let seek := match after with Some key => if key_ltb lower key then key else lower | None => lower end in
  let index := search_index entries seek in
  let index := if bool_decide (is_Some after) && bool_decide (ti_key <$> entries !! index = after)
               then S index else index in
  Ok (match ti_key <$> entries !! index with
      | Some key => if below upper key then Some key else None
      | None => None
      end).

(** The value under the first key: the pending candidate, the state candidate or the
    layers. *)
Definition candidate_value (d : Disk) (state_candidate : option (bytes * bytes))
    (pending_candidate : option (bytes * option bytes)) (layers : list TableLayer) (key : bytes)
    : tdb_result (option bytes) :=
  if bool_decide (fst <$> pending_candidate = Some key) then Ok (pending_candidate ≫= snd)
  else if bool_decide (fst <$> state_candidate = Some key) then Ok (snd <$> state_candidate)
  else get_scan_value_snapshot d ∅ ∅ layers key.

Fixpoint first_loop (rounds locks : nat) (after : option bytes) (retries : Z) : result Abort Iter :=
  match rounds with
  | O => Err OutOfRounds
  | S rounds =>
      let i := inner (obs locks) in
      if in_memory i then Ok (mkIter [] (Some (message "ThingDB durable scan used for RAM state"))) else
      let lower := durable_scan_lower ns (sb_prefix b) (sb_start b) in
      let upper := durable_scan_upper ns (sb_prefix b) (sb_end b) in
      let cursor_after := not_before lower after in
      state_key ← next_map_key (state i) lower upper cursor_after;
      pending_key ← next_map_key (pending_table i) lower upper cursor_after;
      let state_candidate := key ← state_key; (fun value => (key, value)) <$> state i !! key in
      let pending_candidate := key ← pending_key; (fun value => (key, value)) <$> pending_table i !! key in
      let later := obs (S locks) in
      match collect_results (table_candidate (disk later) lower upper after) (table_layers i) with
      | Err e => Ok (mkIter [] (Some e))
      | Ok table_candidates =>
          match next_key ((fst <$> state_candidate) :: (fst <$> pending_candidate) :: table_candidates) with
          | None => Ok (mkIter [] None)
          | Some key =>
              match candidate_value (disk later) state_candidate pending_candidate (table_layers i) key with
              | Err e => Ok (mkIter [] (Some e))
              | Ok value =>
                  if negb (state_generation (inner later) =? state_generation i) then
                    let retries := retries + 1 in
                    if 8 <=? retries
                    then Ok (mkIter [] (Some (message "ThingDB durable scan changed during point lookup")))
                    else first_loop rounds (S (S locks)) after retries
                  else
                    match value with
                    | None => first_loop rounds (S (S locks)) (Some key) retries
                    | Some value =>
                        match strip_prefix ns key with
                        | None => Ok (mkIter [] None)
                        | Some user_key => Ok (mkIter [(user_key, value)] None)
                        end
                    end
              end
          end
      end
  end.

Definition iter_durable_first (rounds locks : nat) : result Abort Iter :=
  first_loop rounds locks (excluded_start ns (sb_start b)) 0.
End first.

(** ** Block cursors *)

Record TableScanCursor := mkCursor {
  tc_block_index : nat;
  tc_legacy_entries : option (list TableIndexEntry);
  tc_legacy_entry_index : nat;
  tc_is_v2 : bool;
  tc_include_values : bool;
  tc_records : list TableScanRecord;
  tc_record_index : nat;
  tc_priority : Z;
}.

Definition set_block (c : TableScanCursor) (block_index : nat) (records : list TableScanRecord) (record_index : nat) :=
  mkCursor block_index (tc_legacy_entries c) (tc_legacy_entry_index c) (tc_is_v2 c) (tc_include_values c)
    records record_index (tc_priority c).
Definition set_legacy (c : TableScanCursor) (index : nat) (records : list TableScanRecord) :=
  mkCursor (tc_block_index c) (tc_legacy_entries c) index (tc_is_v2 c) (tc_include_values c) records 0 (tc_priority c).

Definition cursor_head (c : TableScanCursor) : option TableScanRecord := tc_records c !! tc_record_index c.

Section cursor.
Context `{Crc32} (layer : TableLayer) (lower : bytes) (upper : option bytes).

Definition load_next_legacy_entry (c : TableScanCursor) : tdb_result TableScanCursor :=
  match tc_legacy_entries c ≫= (fun entries => entries !! tc_legacy_entry_index c) with
  | None => Ok (set_legacy c (tc_legacy_entry_index c) [])
  | Some entry =>
      if key_ltb (ti_key entry) lower || negb (below upper (ti_key entry))
      then Ok (set_legacy c (tc_legacy_entry_index c) [])
      else
        value ← read_table_value_handle (tl_file layer) entry (tc_is_v2 c);
        Ok (set_legacy c (S (tc_legacy_entry_index c)) [mkScanRecord (ti_key entry) value (tc_priority c)])
  end.

(** The loop over the blocks from [block_index] on; [blocks] are those blocks. *)
Fixpoint load_block_loop (c : TableScanCursor) (after : option bytes) (blocks : list TableBlock) (block_index : nat)
    : tdb_result TableScanCursor :=
  match blocks with
  | [] => Ok (set_block c block_index [] 0)
  | block :: blocks =>
      let block_index := S block_index in
      if key_ltb (tb_last_key block) lower then load_block_loop c after blocks block_index
      else if negb (below upper (tb_first_key block)) then Ok (set_block c block_index [] 0)
      else
        records ← read_table_block_records (tl_file layer) block (tc_include_values c);
        let lower_index := partition_point (fun r => key_ltb (sr_key r) lower) records in
        let after_index :=
          match after with
          | Some after => Nat.max (partition_point (fun r => key_leb (sr_key r) after) records) lower_index
          | None => lower_index
          end in
        let end_index :=
          match upper with
          | Some upper => partition_point (fun r => key_ltb (sr_key r) upper) records
          | None => length records
          end in
        if (after_index <? end_index)%nat then Ok (set_block c block_index records after_index)
        else load_block_loop c after blocks block_index
  end.

Definition load_next_block (c : TableScanCursor) (after : option bytes) : tdb_result TableScanCursor :=
  load_block_loop c after (drop (tc_block_index c) (tl_blocks layer)) (tc_block_index c).

Definition new_cursor (priority : Z) (after : option bytes) (include_values : bool) : tdb_result TableScanCursor :=
  let legacy_entries := if bool_decide (tl_blocks layer = []) then tl_entries layer else None in
  let legacy_entry_index :=
    match legacy_entries with
    | None => 0%nat
    | Some entries =>
        let lower_index := partition_point (fun e => key_ltb (ti_key e) lower) entries in
        match after with
        | Some after => Nat.max (partition_point (fun e => key_leb (ti_key e) after) entries) lower_index
        | None => lower_index
        end
    end in
  let block_index := partition_point (fun blk => key_ltb (tb_last_key blk) lower) (tl_blocks layer) in
  let c := mkCursor block_index legacy_entries legacy_entry_index (tl_is_v2 layer) include_values [] 0 priority in
  if bool_decide (is_Some legacy_entries) then load_next_legacy_entry c else load_next_block c after.

Definition advance_cursor (c : TableScanCursor) : tdb_result TableScanCursor :=
  let c := set_block c (tc_block_index c) (tc_records c) (S (tc_record_index c)) in
  if (tc_record_index c <? length (tc_records c))%nat then Ok c
  else if bool_decide (is_Some (tc_legacy_entries c)) then load_next_legacy_entry c
  else load_next_block c None.
End cursor.

(** ** A page merged from memory chunks and block cursors *)

Definition DURABLE_SCAN_MEMTABLE_CHUNK_SIZE : nat := 256.

Record Chunk := mkChunk {
  ck_records : list TableScanRecord;
  ck_after : option bytes;
  ck_has_more : bool;
}.

Definition capture_durable_memtable_chunk {V} (m : bmap V) (lower : bytes) (upper after : option bytes)
    (priority : Z) (value : V -> option bytes) : result Abort Chunk :=
  range ← scan_range m lower upper after;
  let taken := take (S DURABLE_SCAN_MEMTABLE_CHUNK_SIZE) range in
  let records := (fun e => mkScanRecord e.1 (value e.2) priority) <$> take DURABLE_SCAN_MEMTABLE_CHUNK_SIZE taken in
  Ok (mkChunk records (sr_key <$> last records) (DURABLE_SCAN_MEMTABLE_CHUNK_SIZE <? length taken)%nat).

Record Snapshot := mkSnapshot {
  sn_state : Chunk;
  sn_pending : Chunk;
  sn_layers : list TableLayer;
  sn_lower : bytes;
  sn_upper : option bytes;
  sn_after : option bytes;
  sn_generation : Z;
}.

Definition STATE_PRIORITY : Z := U64_MAX - 1.
Definition PENDING_PRIORITY : Z := U64_MAX.

(** The values of a count are not copied. *)
Definition kept_value (count_only : bool) (value : bytes) : bytes := if count_only then [] else value.

Definition capture_state (count_only : bool) (i : Inner) (lower : bytes) (upper after : option bytes) :=
  capture_durable_memtable_chunk (state i) lower upper after STATE_PRIORITY
    (fun value => Some (kept_value count_only value)).
Definition capture_pending (count_only : bool) (i : Inner) (lower : bytes) (upper after : option bytes) :=
  capture_durable_memtable_chunk (pending_table i) lower upper after PENDING_PRIORITY
    (fun value => kept_value count_only <$> value).

Definition capture_durable_table_page (i : Inner) (ns : bytes) (b : ScanBounds) (count_only : bool)
    : result Abort (option Snapshot) :=
  if in_memory i then Ok None else
  let lower := durable_scan_lower ns (sb_prefix b) (sb_start b) in
  let upper := durable_scan_upper ns (sb_prefix b) (sb_end b) in
  if negb (below upper lower)
  then Ok (Some (mkSnapshot (mkChunk [] None false) (mkChunk [] None false) [] lower upper None (state_generation i)))
  else
    let after := not_before lower (excluded_start ns (sb_start b)) in
    state_chunk ← capture_state count_only i lower upper after;
    pending_chunk ← capture_pending count_only i lower upper after;
    Ok (Some (mkSnapshot state_chunk pending_chunk (table_layers i) lower upper after (state_generation i))).

Record PageState := mkPageState {
  ps_snapshot : Snapshot;
  ps_state_index : nat;
  ps_pending_index : nat;
  ps_cursors : list (nat * TableScanCursor);
  ps_entries : list (bytes * bytes);
  ps_counted : Z;
  ps_skipped : Z;
  ps_locks : nat;
}.

(** One round of the loop: go on, or leave it with the error of the scan. *)
Inductive PageRound := NextRound (s : PageState) | LeaveLoop (s : PageState) (error : option Error).

Section page.
Context `{Crc32} (obs : nat -> Db) (ns : bytes) (b : ScanBounds) (limit : Z) (count_only : bool).

(** Layers without blocks and entries get no cursor. *)
Fixpoint new_cursors (snapshot : Snapshot) (index : nat) (layers : list TableLayer)
    : tdb_result (list (nat * TableScanCursor)) :=
  match layers with
  | [] => Ok []
  | layer :: layers =>
      if bool_decide (tl_blocks layer = []) && bool_decide (default [] (tl_entries layer) = [])
      then new_cursors snapshot (S index) layers
      else
        c ← new_cursor layer (sn_lower snapshot) (sn_upper snapshot) (u64_saturating_add (Z.of_nat index) 1)
              (sn_after snapshot) (negb count_only);
        cs ← new_cursors snapshot (S index) layers;
        Ok ((index, c) :: cs)
  end.

(** A memory chunk that is used up is refilled under the lock; [None] when the database
    has changed since the snapshot. *)
Definition refill (s : PageState) : result Abort (option PageState) :=
  let sn := ps_snapshot s in
  let refill_state := (ps_state_index s =? length (ck_records (sn_state sn)))%nat && ck_has_more (sn_state sn) in
  let refill_pending := (ps_pending_index s =? length (ck_records (sn_pending sn)))%nat && ck_has_more (sn_pending sn) in
  if negb (refill_state || refill_pending) then Ok (Some s) else
  let i := inner (obs (ps_locks s)) in
  let locks := S (ps_locks s) in
  if negb (state_generation i =? sn_generation sn) then Ok None else
  '(state_chunk, state_index) ←
    (if refill_state
     then ck ← capture_state count_only i (sn_lower sn) (sn_upper sn) (ck_after (sn_state sn)); Ok (ck, 0%nat)
     else Ok (sn_state sn, ps_state_index s));
  '(pending_chunk, pending_index) ←
    (if refill_pending
     then ck ← capture_pending count_only i (sn_lower sn) (sn_upper sn) (ck_after (sn_pending sn)); Ok (ck, 0%nat)
     else Ok (sn_pending sn, ps_pending_index s));
  Ok (Some (mkPageState
    (mkSnapshot state_chunk pending_chunk (sn_layers sn) (sn_lower sn) (sn_upper sn) (sn_after sn) (sn_generation sn))
    state_index pending_index (ps_cursors s) (ps_entries s) (ps_counted s) (ps_skipped s) locks)).

(** The records under the memory cursors. *)
Definition state_head (s : PageState) : option TableScanRecord := ck_records (sn_state (ps_snapshot s)) !! ps_state_index s.
Definition pending_head (s : PageState) : option TableScanRecord := ck_records (sn_pending (ps_snapshot s)) !! ps_pending_index s.

(** The record of the highest priority among those under the key, with its liveness and
    its value. *)
Definition select (key : bytes) (selected : option (Z * bool * option bytes)) (candidate : option (Z * TableScanRecord))
    : option (Z * bool * option bytes) :=
  match candidate with
  | Some (priority, record) =>
      if bool_decide (sr_key record = key)
         && match selected with Some (best, _, _) => best <? priority | None => true end
      then Some (priority, bool_decide (is_Some (sr_value record)), if count_only then None else sr_value record)
      else selected
  | None => selected
  end.

Definition selected_record (s : PageState) (key : bytes) : option (Z * bool * option bytes) :=
  foldl (select key) None
    (((fun r => (sr_priority r, r)) <$> state_head s) :: ((fun r => (sr_priority r, r)) <$> pending_head s)
     :: ((fun c => (fun r => (tc_priority c.2, r)) <$> cursor_head c.2) <$> ps_cursors s)).

(** The cursors under the key move on; the first error ends the scan. *)
Fixpoint advance_cursors (sn : Snapshot) (key : bytes) (cs : list (nat * TableScanCursor))
    : tdb_result (list (nat * TableScanCursor)) :=
  match cs with
  | [] => Ok []
  | (index, c) :: cs =>
      c ← (if bool_decide (sr_key <$> cursor_head c = Some key)
           then layer ← ok_or (sn_layers sn !! index) (message "index out of bounds");
                advance_cursor layer (sn_lower sn) (sn_upper sn) c
           else Ok c);
      cs ← advance_cursors sn key cs;
      Ok ((index, c) :: cs)
  end.

Definition advance_memory (s : PageState) (key : bytes) (cursors : list (nat * TableScanCursor)) : PageState :=
  let step head index := if bool_decide (sr_key <$> head = Some key) then S index else index in
  mkPageState (ps_snapshot s) (step (state_head s) (ps_state_index s)) (step (pending_head s) (ps_pending_index s))
    cursors (ps_entries s) (ps_counted s) (ps_skipped s) (ps_locks s).

(** What a visible record does to the page. *)
Definition emit_record (s : PageState) (user_key : bytes) (value : option bytes) : PageState :=
  if ps_skipped s <? sb_offset b
  then mkPageState (ps_snapshot s) (ps_state_index s) (ps_pending_index s) (ps_cursors s) (ps_entries s)
         (ps_counted s) (ps_skipped s + 1) (ps_locks s)
  else if count_only
  then mkPageState (ps_snapshot s) (ps_state_index s) (ps_pending_index s) (ps_cursors s) (ps_entries s)
         (u64_saturating_add (ps_counted s) 1) (ps_skipped s) (ps_locks s)
  else mkPageState (ps_snapshot s) (ps_state_index s) (ps_pending_index s) (ps_cursors s)
         (ps_entries s ++ [(user_key, default [] value)]) (ps_counted s) (ps_skipped s) (ps_locks s).

(** [Some s'] when the entry that was pushed completes the page. *)
Definition page_full (s s' : PageState) : bool :=
  negb count_only && (length (ps_entries s) <? length (ps_entries s'))%nat && (limit <=? zlen (ps_entries s')).

Definition page_round (s : PageState) : result Abort PageRound :=
  if negb (if count_only then ps_counted s <? limit else zlen (ps_entries s) <? limit) then Ok (LeaveLoop s None) else
  refilled ← refill s;
  match refilled with
  | None => Ok (LeaveLoop (mkPageState (ps_snapshot s) (ps_state_index s) (ps_pending_index s) (ps_cursors s)
                             (ps_entries s) (ps_counted s) (ps_skipped s) (S (ps_locks s))) None)
  | Some s =>
      let sn := ps_snapshot s in
      match next_key ((sr_key <$> state_head s) :: (sr_key <$> pending_head s)
                      :: ((fun c => sr_key <$> cursor_head c.2) <$> ps_cursors s)) with
      | None => Ok (LeaveLoop s None)
      | Some key =>
          if negb (below (sn_upper sn) key) then Ok (LeaveLoop s None) else
          let s' :=
            match selected_record s key, scan_match ns b key with
            | Some (_, true, value), Some user_key => emit_record s user_key value
            | _, _ => s
            end in
          if page_full s s' then Ok (LeaveLoop s' None) else
          Ok (match advance_cursors sn key (ps_cursors s') with
              | Err e => LeaveLoop s' (Some e)
              | Ok cursors => NextRound (advance_memory s' key cursors)
              end)
      end
  end.

Fixpoint page_loop (rounds : nat) (s : PageState) : result Abort (PageState * option Error) :=
  match rounds with
  | O => Err OutOfRounds
  | S rounds =>
      r ← page_round s;
      match r with
      | NextRound s => page_loop rounds s
      | LeaveLoop s error => Ok (s, error)
      end
  end.

(** A table has no more records than its file has bytes. *)
Definition page_rounds (i : Inner) : nat :=
  S (size (state i) + size (pending_table i) + length (concat (tl_file <$> table_layers i))).

Definition page_attempt (rounds : nat) (snapshot : Snapshot) (locks : nat) : result Abort (PageState * option Error) :=
  let start cursors := mkPageState snapshot 0 0 cursors [] 0 0 locks in
  match new_cursors snapshot 0 (sn_layers snapshot) with
  | Err e => Ok (start [], Some e)
  | Ok cursors => page_loop rounds (start cursors)
  end.

(** The attempts that are left; each ends with the lock held, where the generation is
    compared and, if it has changed, a new snapshot is taken.  With the entries comes the
    count written to [count_output]. *)
Fixpoint page_attempts (remaining : nat) (rounds : nat) (snapshot : Snapshot) (locks : nat) : result Abort (Iter * Z) :=
  match remaining with
  | O => Err Panic
  | S remaining =>
      '(s, error) ← page_attempt rounds snapshot locks;
      let i := inner (obs (ps_locks s)) in
      match error with
      | Some e => Ok (mkIter (ps_entries s) (Some e), 0)
      | None =>
          if state_generation i =? sn_generation snapshot then Ok (mkIter (ps_entries s) None, ps_counted s)
          else if (remaining =? 0)%nat
          then Ok (mkIter [] (Some (message "ThingDB durable scan changed repeatedly while reading table blocks")), 0)
          else
            next_snapshot ← capture_durable_table_page i ns b count_only;
            match next_snapshot with
            | None => Ok (mkIter [] (Some (message
                        "ThingDB durable scan changed to a state requiring compatibility scan")), 0)
            | Some next_snapshot => page_attempts remaining (page_rounds i) next_snapshot (S (ps_locks s))
            end
      end
  end.

Definition iter_durable_table_page (rounds : nat) (snapshot : Snapshot) (locks : nat) : result Abort (Iter * Z) :=
  page_attempts 4 rounds snapshot locks.
End page.

(** ** The scans of a keyspace *)

Section scans.
Context `{Crc32} (ram : option RamKeyspaces) (obs : nat -> Db) (ks : Keyspace).

(** More rounds than the first entry of an unchanged database takes. *)
Definition first_rounds (i : Inner) : nat := 8 + page_rounds i.

Definition iter_bounds_paginated (b : ScanBounds) : result Abort Iter :=
  if bool_decide (sb_limit b = Some 0) then Ok (mkIter [] None) else
  match ram with
  | Some m => entries ← ok_or (iter_memory_bounds m (ks_name ks) b) Panic; Ok (mkIter entries None)
  | None =>
      let i := inner (obs 0) in
      let ns := ks_namespace ks in
      if in_memory i then Ok (mkIter [] (Some ram_unavailable)) else
      let short := match sb_limit b with Some limit => limit <=? 4096 | None => false end in
      let limit := default 0 (sb_limit b) in
      memory_page ← (if bool_decide (table_layers i = []) && short
                     then iter_durable_memtable_page i ns b limit else Ok None);
      match memory_page with
      | Some page => Ok page
      | None =>
          if (sb_offset b =? 0) && bool_decide (sb_limit b = Some 1) then iter_durable_first obs ns b (first_rounds i) 1
          else
            snapshot ← (if short && (u64_saturating_add (sb_offset b) limit <=? 16384)
                        then capture_durable_table_page i ns b false else Ok None);
            match snapshot with
            | Some snapshot => r ← iter_durable_table_page obs ns b limit false (page_rounds i) snapshot 1; Ok r.1
            | None => iter_durable_merge (disk (obs 1)) i ns b
            end
      end
  end.

Definition scan_iter : result Abort Iter := iter_bounds_paginated (mkBounds None None None 0 None).
Definition scan_prefix (prefix : bytes) : result Abort Iter := iter_bounds_paginated (mkBounds (Some prefix) None None 0 None).
Definition scan_prefix_page (prefix : bytes) (offset limit : Z) : result Abort Iter :=
  iter_bounds_paginated (mkBounds (Some prefix) None None offset (Some limit)).
Definition scan_prefix_page_after (prefix : bytes) (after_key : option bytes) (limit : Z) : result Abort Iter :=
  iter_bounds_paginated (mkBounds (Some prefix) ((fun key => (key, false)) <$> after_key) None 0 (Some limit)).
Definition scan_first_prefix_after (prefix : bytes) (after : option bytes) : result Abort (tdb_result (option (bytes * bytes))) :=
  it ← iter_bounds_paginated (mkBounds (Some prefix) ((fun key => (key, false)) <$> after) None 0 (Some 1));
  Ok (head <$> into_result it).
Definition scan_range_bounds (start stop : option (bytes * bool)) : result Abort Iter :=
  iter_bounds_paginated (mkBounds None start stop 0 None).

Definition count_durable_namespace (ns : bytes) (prefix : option bytes) : result Abort (tdb_result Z) :=
  let i := inner (obs 0) in
  if in_memory i then Ok (Err (message "ThingDB RAM keyspace count should use its in-memory map")) else
  let b := mkBounds prefix None None 0 None in
  snapshot ← capture_durable_table_page i ns b true;
  match snapshot with
  | None => Ok (Err (message "ThingDB durable count requires a durable database"))
  | Some snapshot =>
      '(it, count) ← iter_durable_table_page obs ns b U64_MAX true (page_rounds i) snapshot 1;
      Ok (_ ← into_result it; Ok count)
  end.

Definition scan_count : result Abort (tdb_result Z) :=
  match ram with
  | Some m => Ok (Ok (match m !! ks_name ks with Some entries => Z.of_nat (size entries) | None => 0 end))
  | None => count_durable_namespace (ks_namespace ks) None
  end.

Definition scan_count_prefix (prefix : bytes) : result Abort (tdb_result Z) :=
  match ram with
  | Some m => Ok (Ok (match m !! ks_name ks with Some entries => count_memory_prefix entries prefix | None => 0 end))
  | None => count_durable_namespace (ks_namespace ks) (Some prefix)
  end.
End scans.
