(* ===== verification/DScanSpec.v ===== *)
(** * ThingDB: what a durable scan should return

    The shared part of the proofs about [DScan]: the keys a source still has to offer,
    merging sorted sources by their smallest head, the page a merge emits, and the
    equality of that page with the page of the keyspace. *)

From S2P Require Import Prelude Wal Table Layer Database Durable Keyspace RamScan Storage DScan.

(** ** The keys between the bounds *)

Definition from_start (lower : bytes) (after : option bytes) (key : bytes) : bool :=
  match after with Some after => key_ltb after key | None => key_leb lower key end.

(** The keys of [l] a scan looks at. *)
Definition region (lower : bytes) (upper after : option bytes) (l : list bytes) : list bytes :=
  List.filter (fun k => from_start lower after k && below upper k) l.

(** A cursor position the scans use: the lower bound, or a key from it on below the upper
    bound. *)
Definition position (lower : bytes) (upper after : option bytes) : Prop :=
  match after with Some after => key_le lower after /\ below upper after = true | None => below upper lower = true end.

Lemma below_trans upper a k : key_le a k -> below upper k = true -> below upper a = true.
Proof.
  destruct upper as [u|]; [|done]. cbn. rewrite !key_ltb_lt. intros Hle Hlt. destruct (key_lt_total a k) as [?|[->|?]]; [|done..].
  by eapply key_lt_trans.
Qed.

Lemma scan_range_region {V} (m : bmap V) lower upper after :
  position lower upper after ->
  scan_range m lower upper after
  = Ok (List.filter (fun e => from_start lower after e.1 && below upper e.1) (btree_iter m)).
Proof.
  unfold position. intros Hp. unfold scan_range, btree_range.
  assert (Hf : (fun e : bytes * V => in_range (Some (match after with Some key => (key, false) | None => (lower, true) end))
      ((fun key => (key, false)) <$> upper) e.1) = (fun e => from_start lower after e.1 && below upper e.1)).
  { unfold in_range, from_start, below. by destruct after, upper. }
  destruct upper as [u|]; cbn [fmap option_fmap option_map] in *.
  2: { rewrite Hf. by destruct after. }
  assert (Hno : forall a : bytes, a ≺ u -> key_ltb u a = false /\ bool_decide (a = u) = false).
  { intros a Ha. split; [apply key_ltb_false; by left|]. apply bool_decide_eq_false. intros ->. by apply key_lt_irrefl in Ha. }
  destruct after as [a|]; cbn in Hp.
  - destruct Hp as [_ Ha%key_ltb_lt]. destruct (Hno a Ha) as [-> ->]. cbn [orb andb ok_or]. by rewrite Hf.
  - rewrite key_ltb_lt in Hp. destruct (Hno lower Hp) as [-> ->]. cbn [orb andb ok_or]. by rewrite Hf.
Qed.

Lemma keys_filter {V} (p : bytes -> bool) (l : list (bytes * V)) :
  (List.filter (fun e => p e.1) l).*1 = List.filter p l.*1.
Proof. induction l as [|e l IH]; [done|]. cbn. destruct (p e.1); cbn; by rewrite IH. Qed.

Lemma next_map_key_region {V} (m : bmap V) lower upper after :
  position lower upper after ->
  next_map_key m lower upper after = Ok (head (region lower upper after (btree_keys m))).
Proof.
  intros Hp. unfold next_map_key. rewrite scan_range_region by done. run. f_equal. unfold region, btree_keys.
  rewrite <-keys_filter. by destruct (List.filter _ _).
Qed.

Lemma region_sorted lower upper after l : StronglySorted key_lt l -> StronglySorted key_lt (region lower upper after l).
Proof. apply StronglySorted_sublist, filter_sublist. Qed.

Lemma region_below lower upper after l : Forall (fun k => below upper k = true) (region lower upper after l).
Proof. apply Forall_forall. intros k [_ [_ ?]%andb_true_iff]%elem_of_filter_bool. done. Qed.

(** Moving the cursor to the head of a region leaves the rest of it. *)
Lemma region_tail lower upper after l k s :
  StronglySorted key_lt l -> region lower upper after l = k :: s -> region lower upper (Some k) l = s.
Proof.
  intros Hs Hr. unfold region in *.
  assert (Hk : k ∈ List.filter (fun k => from_start lower after k && below upper k) l) by (rewrite Hr; left).
  assert (Hstart : from_start lower after k = true) by (apply elem_of_filter_bool in Hk as [_ [? _]%andb_true_iff]; done).
  assert (Hlt : StronglySorted key_lt (k :: s)) by (rewrite <-Hr; eapply StronglySorted_sublist; [apply filter_sublist|done]).
  apply StronglySorted_inv in Hlt as [_ Hall]. rewrite Forall_forall in Hall.
  transitivity (List.filter (fun x => key_ltb k x) (k :: s)).
  - rewrite <-Hr, filter_filter. apply filter_ext_in. intros x _. cbn [from_start].
    destruct (key_ltb k x) eqn:Hx; [|done]. cbn [andb]. apply key_ltb_lt in Hx.
    replace (from_start lower after x) with true; [done|]. symmetry. unfold from_start in *. destruct after as [a|].
    + apply key_ltb_lt in Hstart. apply key_ltb_lt. by eapply key_lt_trans.
    + apply key_leb_le in Hstart. apply key_leb_le. intros Hxl. apply Hstart. by eapply key_lt_trans.
  - cbn [List.filter]. rewrite (proj2 (key_ltb_false k k)) by (by right). apply filter_all. intros x Hx. by apply key_ltb_lt, Hall.
Qed.

(** ** Merging sorted sources *)

(** [source upper h s]: a cursor whose head is [h] still offers the keys [s]; when none is
    left, its head may be a key from the upper bound on. *)
Definition source (upper : option bytes) (h : option bytes) (s : list bytes) : Prop :=
  StronglySorted key_lt s /\ Forall (fun k => below upper k = true) s /\
  match s with
  | [] => match h with Some k => below upper k = false | None => True end
  | k :: _ => h = Some k
  end.

Definition merged (l : list bytes) (ss : list (list bytes)) : Prop :=
  StronglySorted key_lt l /\ forall k, k ∈ l <-> exists s, s ∈ ss /\ k ∈ s.

Definition pop (k : bytes) (s : list bytes) : list bytes :=
  match s with x :: s' => if bool_decide (x = k) then s' else s | [] => [] end.

Lemma source_head upper h s k : source upper h s -> below upper k = true -> h = Some k <-> head s = Some k.
Proof.
  intros (_&_&Hh) Hk. destruct s as [|x s]; cbn; [|by subst h].
  split; [|done]. intros ->. congruence.
Qed.

Lemma next_key_spec hs :
  match next_key hs with
  | None => Forall (fun h => h = None) hs
  | Some k => Some k ∈ hs /\ forall k', Some k' ∈ hs -> key_le k k'
  end.
Proof.
  unfold next_key.
  assert (Hg : forall acc, match foldl (fun next candidate => match candidate, next with
      | Some key, Some current => if key_ltb key current then Some key else next
      | Some key, None => Some key | None, _ => next end) acc hs with
    | None => acc = None /\ Forall (fun h => h = None) hs
    | Some k => (acc = Some k \/ Some k ∈ hs) /\ forall k', acc = Some k' \/ Some k' ∈ hs -> key_le k k'
    end).
  { induction hs as [|h hs IH]; intros acc; cbn [foldl].
    { destruct acc as [a|]; [|done]. split; [by left|]. intros k' [[= ->]|Hin]; [apply key_lt_irrefl|by apply elem_of_nil in Hin]. }
    destruct h as [h|].
    2: { specialize (IH acc). destruct (foldl _ acc hs) as [k|].
         - destruct IH as [Hin Hmin]. split; [set_solver|]. intros k' Hk'. apply Hmin. set_solver.
         - destruct IH as [-> Hall]. split; [done|by constructor]. }
    destruct acc as [a|].
    - destruct (key_ltb h a) eqn:Hha.
      + specialize (IH (Some h)). destruct (foldl _ _ hs) as [k|]; [|by destruct IH].
        destruct IH as [Hin Hmin]. split; [set_solver|]. intros k' [[= ->]|[[= ->]|Hin']%elem_of_cons].
        * apply key_ltb_lt in Hha. pose proof (Hmin h ltac:(by left)) as Hkh. intros Hk'. apply Hkh. by eapply key_lt_trans.
        * apply Hmin. by left.
        * apply Hmin. by right.
      + specialize (IH (Some a)). destruct (foldl _ _ hs) as [k|]; [|by destruct IH].
        destruct IH as [Hin Hmin]. split; [set_solver|]. intros k' [[= ->]|[[= ->]|Hin']%elem_of_cons].
        * apply Hmin. by left.
        * pose proof (Hmin a ltac:(by left)) as Hka. apply key_ltb_false in Hha as [Hlt| ->]; [|done].
          intros Hk'. apply Hka. by eapply key_lt_trans.
        * apply Hmin. by right.
    - specialize (IH (Some h)). destruct (foldl _ _ hs) as [k|]; [|by destruct IH].
      destruct IH as [Hin Hmin]. split; [set_solver|]. intros k' [[=]|[[= ->]|Hin']%elem_of_cons]; apply Hmin; auto. }
  specialize (Hg None). destruct (foldl _ None hs) as [k|]; [|by destruct Hg].
  destruct Hg as [[[=]|Hin] Hmin]. split; [done|]. intros k' Hk'. apply Hmin. by right.
Qed.

Lemma merged_nil l ss : Forall (fun s => s = []) ss -> merged l ss -> l = [].
Proof.
  intros Hall [_ Hl]. destruct l as [|k l]; [done|]. destruct (proj1 (Hl k)) as (s&Hs&Hk); [by left|].
  rewrite Forall_forall in Hall. rewrite (Hall s Hs) in Hk. by apply elem_of_nil in Hk.
Qed.

Lemma sorted_head_le (s : list bytes) x k : StronglySorted key_lt (x :: s) -> k ∈ x :: s -> key_le x k.
Proof.
  intros [_ Hall]%StronglySorted_inv [->|Hk]%elem_of_cons; [apply key_lt_irrefl|].
  rewrite Forall_forall in Hall. by apply key_lt_asym, Hall.
Qed.

Lemma elem_of_pop k s x : StronglySorted key_lt s -> (forall y, y ∈ s -> key_le k y) -> x ∈ pop k s <-> x ∈ s /\ x <> k.
Proof.
  intros Hs Hmin. destruct s as [|y s]; cbn [pop]; [set_solver|]. apply StronglySorted_inv in Hs as [_ Hall].
  rewrite Forall_forall in Hall. case_bool_decide as Hy.
  - subst y. rewrite elem_of_cons. split; [|naive_solver]. intros Hx. split; [by right|]. intros ->. by apply (key_lt_irrefl k), Hall.
  - split; [|naive_solver]. intros Hx. split; [done|]. intros ->. apply elem_of_cons in Hx as [->|Hx]; [done|].
    apply (Hmin y); [left|]. by apply Hall.
Qed.

Lemma merged_pop k l ss :
  merged (k :: l) ss -> Forall (StronglySorted key_lt) ss -> merged l (pop k <$> ss).
Proof.
  intros [Hsort Hl] Hss. pose proof (StronglySorted_inv Hsort) as [Hsort' Hgt]. rewrite Forall_forall in Hgt. rewrite Forall_forall in Hss.
  assert (Hmin : forall s y, s ∈ ss -> y ∈ s -> key_le k y).
  { intros s y Hs Hy. apply (sorted_head_le l); [done|]. apply Hl. by exists s. }
  split; [done|]. intros y. transitivity (y ∈ k :: l /\ y <> k).
  { rewrite elem_of_cons. split; [|naive_solver]. intros Hy. split; [by right|]. intros ->. by apply (key_lt_irrefl k), Hgt. }
  rewrite Hl. split.
  - intros [(s&Hs&Hy) Hne]. exists (pop k s). split; [by apply list_elem_of_fmap_2|]. apply elem_of_pop; eauto.
  - intros (s'&Hs'&Hy). apply list_elem_of_fmap in Hs' as (s&->&Hs). apply elem_of_pop in Hy as [Hy Hne]; eauto.
Qed.

Lemma merged_step upper hs ss l :
  Forall2 (source upper) hs ss -> merged l ss ->
  match next_key hs with
  | Some k => if below upper k then exists l', l = k :: l' /\ merged l' (pop k <$> ss) else l = []
  | None => l = []
  end.
Proof.
  intros Hall Hm. pose proof (next_key_spec hs) as Hk.
  assert (Hhead : forall s, s ∈ ss -> exists h, h ∈ hs /\ source upper h s).
  { intros s Hs. apply list_elem_of_lookup in Hs as [j Hj]. destruct (Forall2_lookup_r _ _ _ _ _ Hall Hj) as (h&Hh&Hsrc).
    exists h. split; [by eapply list_elem_of_lookup_2|done]. }
  destruct (next_key hs) as [k|].
  2: { eapply merged_nil; [|done]. apply Forall_forall. intros s Hs. destruct (Hhead s Hs) as (h&Hh&_&_&Hsrc).
       rewrite Forall_forall in Hk. rewrite (Hk h Hh) in Hsrc. by destruct s. }
  destruct Hk as [Hin Hmin]. destruct (below upper k) eqn:Hb.
  2: { eapply merged_nil; [|done]. apply Forall_forall. intros s Hs. destruct (Hhead s Hs) as (h&Hh&_&Hbel&Hsrc).
       destruct s as [|x s]; [done|]. subst h. apply Forall_cons in Hbel as [Hx _].
       by rewrite (below_trans upper k x (Hmin x Hh) Hx) in Hb. }
  assert (Hless : forall s y, s ∈ ss -> y ∈ s -> key_le k y).
  { intros s y Hs Hy. destruct (Hhead s Hs) as (h&Hh&Hsort&_&Hsrc). destruct s as [|x s]; [by apply elem_of_nil in Hy|].
    subst h. pose proof (sorted_head_le _ _ _ Hsort Hy). pose proof (Hmin x Hh). intros Hyk.
    destruct (key_lt_total x y) as [?|[->|?]]; [|done..]. by apply (Hmin x Hh), (key_lt_trans _ y). }
  destruct Hm as [Hsort Hl].
  assert (Hkl : k ∈ l).
  { apply Hl. apply list_elem_of_lookup in Hin as [j Hj]. destruct (Forall2_lookup_l _ _ _ _ _ Hall Hj) as (s&Hs&Hsrc).
    exists s. split; [by eapply list_elem_of_lookup_2|]. apply (source_head _ _ _ k) in Hsrc; [|done].
    destruct s; [by apply Hsrc in Hj || destruct Hsrc as [Hsrc _]; discriminate (Hsrc eq_refl)|].
    destruct Hsrc as [Hsrc _]. injection (Hsrc eq_refl) as ->. left. }
  destruct l as [|x l']; [by apply elem_of_nil in Hkl|].
  assert (x = k) as ->.
  { destruct (proj1 (Hl x)) as (s&Hs&Hx); [by left|]. pose proof (Hless s x Hs Hx).
    pose proof (sorted_head_le _ _ _ Hsort Hkl). destruct (key_lt_total x k) as [?|[?|?]]; done. }
  exists l'. split; [done|]. apply merged_pop; [by split|]. apply Forall_forall. intros s Hs.
  by destruct (Hhead s Hs) as (h&_&Hss&_).
Qed.

(** Sorted sources have a merge. *)
Lemma merged_exists ss : exists l, merged l ss.
Proof.
  set (m := list_to_map ((fun k => (k, ())) <$> concat ss) : bmap unit).
  exists (btree_keys m). split; [apply btree_keys_sorted|]. intros k. rewrite elem_of_btree_keys.
  transitivity (k ∈ concat ss).
  - split.
    + intros [[] Hk]. apply elem_of_list_to_map_2 in Hk. apply list_elem_of_fmap in Hk as (x&[= ->]&Hx). done.
    + intros Hk. destruct (m !! k) eqn:Hm; [by eexists|]. apply not_elem_of_list_to_map_2 in Hm. destruct Hm.
      rewrite <-list_fmap_compose. apply list_elem_of_fmap. by exists k.
  - rewrite list_elem_of_In, in_concat. setoid_rewrite <-list_elem_of_In. naive_solver.
Qed.

(** ** The page that is emitted *)

Section emit.
Context (visible : bytes -> option (bytes * bytes)) (offset : Z) (limit : option Z).

(** What the loops do with the keys they visit. *)
Fixpoint emit (l : list bytes) (skipped : Z) (entries : list (bytes * bytes)) : list (bytes * bytes) :=
  match l with
  | [] => entries
  | k :: l =>
      match visible k with
      | None => emit l skipped entries
      | Some e =>
          if skipped <? offset then emit l (skipped + 1) entries
          else let entries := entries ++ [e] in
               if match limit with Some limit => limit <=? zlen entries | None => false end then entries
               else emit l skipped entries
      end
  end.

Lemma emit_loop l skipped entries :
  emit l skipped entries = scan_loop None offset limit entries (omap visible l) skipped.
Proof.
  revert skipped entries. induction l as [|k l IH]; intros skipped entries; [done|]. cbn [emit omap list_omap].
  destruct (visible k) as [e|]; [|apply IH]. cbn [scan_loop]. destruct (skipped <? offset); [apply IH|].
  destruct limit as [n|]; [destruct (n <=? _); [done|]|]; apply IH.
Qed.

Lemma emit_page l : 0 <= offset -> match limit with Some n => 0 < n | None => True end ->
  emit l 0 [] = cut limit (drop (Z.to_nat offset) (omap visible l)).
Proof.
  intros Ho Hl. rewrite emit_loop, scan_loop_page by done. rewrite Z.sub_0_r. do 2 f_equal.
  induction (omap visible l) as [|e k IH]; [done|]. cbn. by rewrite IH.
Qed.
End emit.

(** ** Physical bounds *)

Section bounds.
Context (ns : bytes) (b : ScanBounds).

Abbreviation lower := (durable_scan_lower ns (sb_prefix b) (sb_start b)).
Abbreviation upper := (durable_scan_upper ns (sb_prefix b) (sb_end b)).
Abbreviation start_after := (not_before lower (excluded_start ns (sb_start b))).

(** The keys a scan with these bounds looks at. *)
Definition in_region (key : bytes) : bool := from_start lower start_after key && below upper key.

Lemma below_min x y key : below (option_min x y) key = below x key && below y key.
Proof.
  destruct x as [x|], y as [y|]; cbn; rewrite ?andb_true_r; try done.
  destruct (key_ltb y x) eqn:Hyx.
  - apply key_ltb_lt in Hyx. cbn. destruct (key_ltb key y) eqn:Hk; [|by rewrite andb_false_r]. apply key_ltb_lt in Hk.
    rewrite (proj2 (key_ltb_lt key x)); [done|]. by eapply key_lt_trans.
  - apply key_ltb_false in Hyx. cbn. destruct (key_ltb key x) eqn:Hk; [|done]. apply key_ltb_lt in Hk.
    rewrite (proj2 (key_ltb_lt key y)); [done|]. destruct Hyx as [?|<-]; [by eapply key_lt_trans|done].
Qed.

Lemma below_upper key :
  below upper key = below (successor ns) key
    && below (physical_key_from_namespace ns <$> (sb_prefix b ≫= successor)) key
    && below ('(stop, inclusive) ← sb_end b;
              let physical := physical_key_from_namespace ns stop in
              if (inclusive : bool) then successor physical else Some physical) key.
Proof.
  unfold durable_scan_upper. destruct (_ <$> _) as [x|]; [by rewrite !below_min|].
  destruct (sb_end b) as [[stop inclusive]|]; cbn [mbind option_bind]; [|by rewrite !andb_true_r].
  destruct inclusive; [destruct (successor (physical_key_from_namespace ns stop))|]; rewrite ?below_min; cbn; by rewrite ?andb_true_r.
Qed.

Lemma key_le_app_l (p x y : bytes) : key_le (p ++ x) (p ++ y) <-> key_le x y.
Proof. by rewrite key_lt_app_l. Qed.

Lemma successor_gt (p u : bytes) : successor p = Some u -> p ≺ u.
Proof.
  revert u. induction p as [|c p IH]; intros u Hu; [done|]. cbn [successor] in Hu. destruct (successor p) as [u'|].
  - injection Hu as <-. apply key_lt_cons. right. split; [done|by apply IH].
  - destruct (c =? U8_MAX); [done|]. injection Hu as <-. apply key_lt_cons. left. lia.
Qed.

Lemma strip_prefix_Some key user_key : strip_prefix ns key = Some user_key <-> key = ns ++ user_key.
Proof.
  unfold strip_prefix, starts_with. case_bool_decide as Hp.
  - split; [|intros ->; by rewrite drop_app_length]. intros [= <-]. rewrite <-Hp at 1. by rewrite take_drop.
  - split; [done|]. intros ->. by rewrite take_app_length in Hp.
Qed.

Lemma scan_match_Some key user_key :
  scan_match ns b key = Some user_key <-> key = ns ++ user_key /\ matches_bounds b user_key = true.
Proof.
  unfold scan_match. rewrite <-strip_prefix_Some. destruct (strip_prefix ns key) as [u|]; cbn; [|naive_solver].
  fold (matches_bounds b u). destruct (matches_bounds b u) eqn:Hm; split; [by intros [= <-]|intros [[= ->] _]; done|done|intros [[= ->] ?]; congruence].
Qed.

(** The exclusive cursor is the lower bound itself. *)
Lemma start_after_lower a : start_after = Some a -> a = lower.
Proof.
  unfold not_before, excluded_start, durable_scan_lower. destruct (sb_start b) as [[s [|]]|]; cbn [mbind option_bind]; try done.
  intros Ha. destruct (key_leb _ _) eqn:Hle in Ha; [|done]. injection Ha as <-. destruct (sb_prefix b) as [p|]; [|done].
  destruct (key_leb p s) eqn:Hps; [done|]. unfold physical_key_from_namespace in *. apply key_leb_le in Hle.
  rewrite key_le_app_l in Hle. apply not_true_iff_false in Hps. rewrite key_leb_le in Hps. destruct (key_le_total p s); done.
Qed.

Lemma start_position : below upper lower = true -> position lower upper start_after.
Proof.
  intros Hb. unfold position. destruct start_after as [a|] eqn:Ha; [|done]. rewrite (start_after_lower a Ha).
  split; [apply key_lt_irrefl|done].
Qed.

Lemma from_start_matches user_key : matches_bounds b user_key = true -> from_start lower start_after (ns ++ user_key) = true.
Proof.
  unfold matches_bounds, in_range. rewrite !andb_true_iff. intros (Hp&Hs&_).
  assert (Hple : forall p, sb_prefix b = Some p -> key_le p user_key) by (intros p Hpb; rewrite Hpb in Hp; by apply starts_with_le).
  assert (Hlow : key_le lower (ns ++ user_key)).
  { unfold durable_scan_lower, physical_key_from_namespace. rewrite key_le_app_l. clear Hp.
    destruct (sb_start b) as [[s i]|]; [assert (key_le s user_key) by (destruct i; [by apply key_leb_le|by apply key_lt_asym, key_ltb_lt])|];
      destruct (sb_prefix b) as [p|]; try destruct (key_leb p s); eauto. intros Hn. by apply key_lt_nil_r in Hn. }
  unfold from_start. destruct start_after as [a|] eqn:Ha; [|by apply key_leb_le]. apply key_ltb_lt.
  unfold not_before, excluded_start in Ha. destruct (sb_start b) as [[s [|]]|]; cbn [mbind option_bind] in Ha; try done.
  destruct (key_leb _ _) in Ha; [|done]. injection Ha as <-. unfold physical_key_from_namespace.
  by rewrite key_lt_app_l, <-key_ltb_lt.
Qed.

Lemma below_matches user_key :
  bytes_ok ns -> bytes_ok user_key -> matches_bounds b user_key = true -> below upper (ns ++ user_key) = true.
Proof.
  intros Hns Hok Hm. unfold matches_bounds, in_range in Hm. rewrite !andb_true_iff in Hm. destruct Hm as (Hp&_&He).
  rewrite below_upper, !andb_true_iff. split_and!.
  - destruct (successor ns) as [u|] eqn:Hu; [|done]. apply key_ltb_lt. eapply (successor_Some ns _ u); [by apply Forall_app|done|].
    unfold starts_with. by rewrite take_app_length, bool_decide_true.
  - destruct (sb_prefix b) as [p|]; [|done]. cbn [mbind option_bind]. destruct (successor p) as [u|] eqn:Hu; [|done].
    cbn. apply key_ltb_lt. unfold physical_key_from_namespace. rewrite key_lt_app_l. by apply (successor_Some p user_key u).
  - destruct (sb_end b) as [[t i]|]; [|done]. cbn [mbind option_bind]. unfold physical_key_from_namespace. destruct i.
    + destruct (successor (ns ++ t)) as [u|] eqn:Hu; [|done]. apply key_ltb_lt. apply successor_gt in Hu.
      apply key_leb_le in He. eapply key_le_lt_trans; [|done]. by rewrite key_le_app_l.
    + apply key_ltb_lt. by rewrite key_lt_app_l, <-key_ltb_lt.
Qed.

(** With no end bound, every key of the region matches. *)
Lemma region_matches key :
  bytes_ok ns -> bytes_ok key -> sb_end b = None -> in_region key = true -> exists user_key, scan_match ns b key = Some user_key.
Proof.
  intros Hns Hok Hend [Hs Hb]%andb_true_iff. rewrite below_upper, Hend, !andb_true_iff in Hb. destruct Hb as ((Hn&Hp)&_).
  assert (Hlow : key_le lower key).
  { unfold from_start in Hs. destruct start_after as [a|] eqn:Ha; [|by apply key_leb_le].
    rewrite (start_after_lower a Ha) in Hs. by apply key_lt_asym, key_ltb_lt. }
  assert (Hst : starts_with ns key = true).
  { assert (key_le ns key).
    { intros Hlt. apply Hlow. eapply key_lt_le_trans; [exact Hlt|]. apply starts_with_le. unfold starts_with, durable_scan_lower.
      unfold physical_key_from_namespace. by rewrite take_app_length, bool_decide_true. }
    destruct (successor ns) as [u|] eqn:Hu; [|by apply successor_None].
    apply (successor_Some ns key u Hok Hu). split; [done|by apply key_ltb_lt]. }
  apply bool_decide_eq_true in Hst. exists (drop (length ns) key). set (u := drop (length ns) key).
  assert (Hk : key = ns ++ u) by (unfold u; rewrite <-Hst at 1; by rewrite take_drop).
  apply scan_match_Some. split; [done|]. clearbody u. subst key. apply Forall_app in Hok as [_ Hok].
  unfold matches_bounds, in_range. rewrite Hend, andb_true_r. unfold durable_scan_lower, physical_key_from_namespace in Hlow.
  rewrite key_le_app_l in Hlow.
  assert (Hpu : forall p, sb_prefix b = Some p -> key_le p u -> starts_with p u = true).
  { intros p Hpb Hle. rewrite Hpb in Hp. cbn [mbind option_bind] in Hp. destruct (successor p) as [t|] eqn:Ht; [|by apply successor_None].
    apply (successor_Some p u t Hok Ht). split; [done|]. cbn in Hp. apply key_ltb_lt in Hp.
    unfold physical_key_from_namespace in Hp. by rewrite key_lt_app_l in Hp. }
  apply andb_true_iff. split.
  - destruct (sb_prefix b) as [p|]; [|done]. apply Hpu; [done|]. destruct (sb_start b) as [[s i]|]; [|done].
    destruct (key_leb p s) eqn:Hps; [|done]. apply key_leb_le in Hps. intros Hup. apply Hps.
    destruct (key_lt_total u s) as [Hus|[->|Hsu]]; [done..|]. by eapply key_lt_trans.
  - destruct (sb_start b) as [[s i]|] eqn:Hsb; [|done].
    assert (Hsu : key_le s u).
    { destruct (sb_prefix b) as [p|]; [|done]. destruct (key_leb p s) eqn:Hps; [done|]. apply not_true_iff_false in Hps.
      rewrite key_leb_le in Hps. assert (s ≺ p) by (destruct (key_le_total p s); done). intros Hus.
      apply Hlow. by eapply key_lt_trans. }
    destruct i; [by apply key_leb_le|]. unfold from_start, not_before, excluded_start in Hs.
    cbn [mbind option_bind] in Hs. destruct (key_leb _ (physical_key_from_namespace ns s)) eqn:Hle in Hs.
    + apply key_ltb_lt in Hs. unfold physical_key_from_namespace in Hs. rewrite key_lt_app_l in Hs. by apply key_ltb_lt.
    + apply key_ltb_lt. apply not_true_iff_false in Hle. rewrite key_leb_le in Hle. unfold durable_scan_lower, physical_key_from_namespace in Hle.
      rewrite key_le_app_l in Hle. destruct (key_lt_total s u) as [?|[->|?]]; done.
Qed.
End bounds.

(** ** The keyspace of a physical map *)

Definition keyspace_view (ns : bytes) (A : bmap bytes) : bmap bytes :=
  list_to_map (omap (fun e => (fun user_key => (user_key, e.2)) <$> strip_prefix ns e.1) (map_to_list A)).

Lemma lookup_keyspace_view ns A user_key : keyspace_view ns A !! user_key = A !! (ns ++ user_key).
Proof.
  unfold keyspace_view. set (l := omap _ _).
  assert (Hl : forall u v, (u, v) ∈ l <-> A !! (ns ++ u) = Some v).
  { intros u v. unfold l. rewrite list_elem_of_omap. split.
    - intros ([k w]&Hk&He). apply elem_of_map_to_list in Hk. cbn [fst snd] in He. destruct (strip_prefix ns k) as [u'|] eqn:Hu; [|done].
      cbn in He. injection He as -> ->. apply strip_prefix_Some in Hu as ->. done.
    - intros Hv. exists (ns ++ u, v). split; [by apply elem_of_map_to_list|]. cbn [fst snd].
      by rewrite (proj2 (strip_prefix_Some ns (ns ++ u) u)). }
  destruct (A !! (ns ++ user_key)) as [v|] eqn:Hv.
  - apply elem_of_list_to_map; [|by apply Hl]. apply NoDup_fmap_fst.
    + intros u x y Hx%Hl Hy%Hl. congruence.
    + unfold l. pose proof (NoDup_map_to_list A) as Hnd. pose proof (NoDup_fst_map_to_list A) as Hfst.
      clear Hl l. induction (map_to_list A) as [|[k w] es IH]; [constructor|]. cbn [omap list_omap fst snd].
      apply NoDup_cons in Hnd as [Hnin Hnd]. cbn [fmap list_fmap fst] in Hfst. apply NoDup_cons in Hfst as [Hnf Hfst].
      destruct (strip_prefix ns k) as [u|] eqn:Hu; cbn; [|by apply IH]. constructor; [|by apply IH].
      rewrite list_elem_of_omap. intros ([k' w']&Hin&He). cbn [fst snd] in He. destruct (strip_prefix ns k') as [u'|] eqn:Hu'; [|done].
      cbn in He. injection He as -> ->. apply strip_prefix_Some in Hu, Hu'. subst. by apply Hnf, (list_elem_of_fmap_2 fst _ _ Hin).
  - apply not_elem_of_list_to_map. intros Hin. apply list_elem_of_fmap in Hin as ([u v]&Hu&Hin). cbn in Hu. subst u.
    apply Hl in Hin. congruence.
Qed.

(** The entry a scan makes of a live physical key. *)
Definition visible_entry (ns : bytes) (b : ScanBounds) (A : bmap bytes) (key : bytes) : option (bytes * bytes) :=
  value ← A !! key; user_key ← scan_match ns b key; Some (user_key, value).

Lemma visible_entry_Some ns b A key user_key value :
  visible_entry ns b A key = Some (user_key, value) <->
  A !! key = Some value /\ key = ns ++ user_key /\ matches_bounds b user_key = true.
Proof.
  unfold visible_entry. rewrite <-(scan_match_Some ns b). destruct (A !! key) as [v|]; cbn; [|naive_solver].
  destruct (scan_match ns b key) as [u|]; cbn; naive_solver.
Qed.

(** Visiting, in order, keys that include the live ones of the region gives the entries of
    the keyspace within the bounds. *)
Lemma visible_entries ns b A l :
  bytes_ok ns -> (forall k, is_Some (A !! k) -> bytes_ok k) -> StronglySorted key_lt l ->
  (forall k, is_Some (A !! k) -> in_region ns b k = true -> k ∈ l) ->
  omap (visible_entry ns b A) l = List.filter (fun e => matches_bounds b e.1) (btree_iter (keyspace_view ns A)).
Proof.
  intros Hns Hok Hsort Hall. apply sorted_entries_ext.
  - clear Hall. induction Hsort as [|k l _ IH Hk]; [constructor|]. cbn [omap list_omap].
    destruct (visible_entry ns b A k) as [[u v]|] eqn:Hv; [|done]. constructor; [done|]. apply Forall_forall. intros [u' v'] Hin.
    apply list_elem_of_omap in Hin as (k'&Hk'&Hv'). apply visible_entry_Some in Hv as (_&->&_), Hv' as (_&->&_).
    rewrite Forall_forall in Hk. apply Hk in Hk'. by rewrite key_lt_app_l in Hk'.
  - eapply StronglySorted_sublist; [apply filter_sublist|apply btree_iter_sorted].
  - intros [u v]. rewrite list_elem_of_omap, elem_of_filter_bool, elem_of_btree_iter, lookup_keyspace_view. cbn [fst]. split.
    + intros (k&_&(Hv&->&Hm)%visible_entry_Some). done.
    + intros [Hv Hm]. exists (ns ++ u). split; [|by apply visible_entry_Some]. apply Hall; [by eexists|].
      assert (Hu : bytes_ok (ns ++ u)) by (apply Hok; by eexists). apply Forall_app in Hu as [_ Hu].
      unfold in_region. by rewrite from_start_matches, below_matches.
Qed.
