(* ===== verification/DScanFirst.v ===== *)
(** * ThingDB: the first entry of a durable scan

    [iter_durable_first] on a database that does not change during the scan returns the
    first entry within the bounds, or none; the number of its rounds is bounded by the
    number of records. *)

From S2P Require Import Prelude Wal Table Layer Database Durable Keyspace RamScan Storage DScan DScanSpec DScanMerge.

(** Moving the cursor of a region to its smallest key. *)
Lemma region_pop lower upper after ks k :
  StronglySorted key_lt ks -> from_start lower after k = true -> (forall x, x ∈ region lower upper after ks -> key_le k x) ->
  region lower upper (Some k) ks = pop k (region lower upper after ks).
Proof.
  intros Hs Hk Hmin. transitivity (List.filter (fun x => key_ltb k x) (region lower upper after ks)).
  - unfold region. rewrite filter_filter. apply filter_ext_in. intros x _. cbn [from_start].
    destruct (key_ltb k x) eqn:Hx; [|done]. cbn [andb]. apply key_ltb_lt in Hx.
    replace (from_start lower after x) with true; [done|]. symmetry. unfold from_start in *. destruct after as [a|].
    + apply key_ltb_lt in Hk. apply key_ltb_lt. by eapply key_lt_trans.
    + apply key_leb_le in Hk. apply key_leb_le. intros Hxl. apply Hk. by eapply key_lt_trans.
  - pose proof (region_sorted lower upper after ks Hs) as Hsr. destruct (region lower upper after ks) as [|x s]; [done|].
    apply StronglySorted_inv in Hsr as [_ Hall]. rewrite Forall_forall in Hall. cbn [List.filter pop].
    pose proof (Hmin x ltac:(by left)) as Hx. case_bool_decide as Heq.
    + subst x. rewrite (proj2 (key_ltb_false k k)) by (by right). apply filter_all. intros y Hy. by apply key_ltb_lt, Hall.
    + assert (Hlt : k ≺ x) by (destruct (key_lt_total k x) as [?|[?|?]]; congruence || done).
      rewrite (proj2 (key_ltb_lt k x)) by done. f_equal. apply filter_all. intros y Hy. apply key_ltb_lt.
      eapply key_lt_trans; [exact Hlt|]. by apply Hall.
Qed.

(** The smallest key of a merge heads every source that holds it. *)
Lemma min_head k (s : list bytes) : StronglySorted key_lt s -> (forall x, x ∈ s -> key_le k x) -> k ∈ s -> head s = Some k.
Proof.
  intros Hs Hmin Hk. destruct s as [|x s]; [by apply elem_of_nil in Hk|]. apply elem_of_cons in Hk as [->|Hk]; [done|].
  apply StronglySorted_inv in Hs as [_ Hall]. rewrite Forall_forall in Hall. exfalso. apply (Hmin x); [left|by apply Hall].
Qed.

Section records.
Context `{Crc32}.

(** A table has no more records than its file has bytes. *)
Lemma layer_records d layer seq m : layer_repr d layer seq m -> (size m <= length (tl_file layer))%nat.
Proof.
  intros (chunks&_&_&Hc&_&_&->&_). rewrite <-length_btree_iter, <-Hc. unfold table_layout. rewrite !length_app.
  assert (Hle : (length (concat chunks) <= length (records_layout (concat chunks)))%nat); [|lia].
  clear Hc. induction (concat chunks) as [|e es IH]; [done|]. rewrite records_cons, length_app. cbn [length].
  pose proof (length_record e). destruct (e.2); lia.
Qed.

Lemma layers_records d layers ls :
  layers_repr d layers ls ->
  (length (concat ((fun s => btree_keys (ls_map s)) <$> ls)) <= length (concat (tl_file <$> layers)))%nat.
Proof.
  induction 1 as [|layer s layers ls [_ Hr] _ IH]; [done|]. cbn [fmap list_fmap concat]. rewrite !length_app.
  pose proof (layer_records _ _ _ _ Hr) as Hs. unfold btree_keys at 1. rewrite length_fmap, length_btree_iter. cbn in IH. lia.
Qed.
End records.

Section first.
Context `{Crc32} (obs : nat -> Db) (db : Db) (ls : list LayerSpec) (ns : bytes) (b : ScanBounds).
Context (Hobs : forall n, obs n = db) (Hmode : in_memory (inner db) = false).
Context (Hlayers : layers_repr (disk db) (table_layers (inner db)) ls).
Abbreviation A := (contents (inner db) ls).
Context (Hns : bytes_ok ns) (Hkeys : forall k, is_Some (A !! k) -> bytes_ok k) (Hend : sb_end b = None).

Abbreviation lower := (durable_scan_lower ns (sb_prefix b) (sb_start b)).
Abbreviation upper := (durable_scan_upper ns (sb_prefix b) (sb_end b)).

Lemma table_candidate_region lower' upper' after layer seq m :
  layer_repr (disk db) layer seq m ->
  table_candidate (disk db) lower' upper' after layer = Ok (head (region lower' upper' (not_before lower' after) (btree_keys m))).
Proof.
  intros Hr. unfold table_candidate. rewrite (loaded_entries_repr _ _ _ _ Hr). run.
  set (entries := index_layout 24 (btree_iter m)). assert (Hk : ti_key <$> entries = btree_keys m) by apply index_layout_keys.
  assert (Hs : StronglySorted key_lt (ti_key <$> entries)) by (rewrite Hk; apply btree_keys_sorted).
  set (index := if _ && _ then S (search_index _ _) else _).
  assert (Hdrop : drop index (ti_key <$> entries) = List.filter (fun k => from_start lower' (not_before lower' after) k) (ti_key <$> entries)).
  { unfold index. destruct after as [a|]; [|rewrite bool_decide_false by (by intros [? ?]); by apply drop_search].
    rewrite bool_decide_true by eauto. cbn [andb]. unfold not_before. cbn [mbind option_bind]. destruct (key_ltb lower' a) eqn:Hla.
    - apply key_ltb_lt in Hla. rewrite (proj2 (key_leb_le lower' a)) by (by apply key_lt_asym). by apply drop_search_after.
    - apply key_ltb_false in Hla. destruct (key_leb lower' a) eqn:Hle.
      + apply key_leb_spec in Hle as [Hlt| <-]; [|by apply drop_search_after]. destruct Hla as [Hla|Hla]; [by apply key_lt_asym in Hla|].
        subst a. by apply key_lt_irrefl in Hlt.
      + rewrite bool_decide_false; [by apply drop_search|]. intros Heq. apply not_true_iff_false in Hle. apply Hle.
        rewrite <-list_lookup_fmap in Heq. assert (Ha : a ∈ drop (search_index entries lower') (ti_key <$> entries)).
        { apply (list_elem_of_lookup_2 _ 0). by rewrite lookup_drop, Nat.add_0_r. }
        rewrite drop_search in Ha by done. by apply elem_of_filter_bool in Ha as [_ ?]. }
  f_equal. rewrite <-list_lookup_fmap. replace ((ti_key <$> entries) !! index) with (head (drop index (ti_key <$> entries))).
  2: { rewrite <-(Nat.add_0_r index) at 2. rewrite <-lookup_drop. by destruct (drop index _). }
  assert (Hreg : region lower' upper' (not_before lower' after) (btree_keys m) = List.filter (below upper') (drop index (ti_key <$> entries))).
  { rewrite Hdrop, filter_filter, Hk. unfold region. apply filter_ext_in. intros k _. apply andb_comm. }
  rewrite Hreg. assert (Hsrc : source upper' (head (drop index (ti_key <$> entries))) (List.filter (below upper') (drop index (ti_key <$> entries)))).
  { apply sorted_filter_source. rewrite Hdrop. eapply StronglySorted_sublist; [apply filter_sublist|done]. }
  destruct Hsrc as (_&Hb&Hh). destruct (List.filter (below upper') _) as [|x s]; [destruct (head (drop _ _)); [by rewrite Hh|done]|].
  rewrite Hh. apply Forall_cons in Hb as [-> _]. done.
Qed.

Lemma collect_candidates lower' upper' after layers specs :
  layers_repr (disk db) layers specs ->
  collect_results (table_candidate (disk db) lower' upper' after) layers
  = Ok ((fun s => head (region lower' upper' (not_before lower' after) (btree_keys (ls_map s)))) <$> specs).
Proof.
  induction 1 as [|layer s layers specs [_ Hr] _ IH]; [done|]. cbn [collect_results fmap list_fmap].
  rewrite (table_candidate_region _ _ _ _ _ _ Hr). run. rewrite IH. by run.
Qed.

(** The sources of a round: what is left of each map after the cursor. *)
Definition regions (after : option bytes) : list (list bytes) :=
  region lower upper after <$> (btree_keys (state (inner db)) :: btree_keys (pending_table (inner db)) :: ((fun s => btree_keys (ls_map s)) <$> ls)).

Lemma region_elem {V} (m : bmap V) after k :
  from_start lower after k = true -> below upper k = true -> k ∈ region lower upper after (btree_keys m) <-> is_Some (m !! k).
Proof. intros Hs Hb. unfold region. rewrite elem_of_filter_bool, elem_of_btree_keys, Hs, Hb. naive_solver. Qed.

Lemma regions_source after s : s ∈ regions after -> StronglySorted key_lt s /\ source upper (head s) s.
Proof.
  intros Hs. unfold regions in Hs. apply list_elem_of_fmap in Hs as (ks&->&Hks).
  assert (Hsorted : StronglySorted key_lt ks).
  { apply elem_of_cons in Hks as [->|[->|Hks]%elem_of_cons]; [apply btree_keys_sorted..|].
    apply list_elem_of_fmap in Hks as (x&->&_). apply btree_keys_sorted. }
  pose proof (region_sorted lower upper after ks Hsorted). split; [done|]. split_and!; [done|apply region_below|]. by destruct (region _ _ _ _).
Qed.

Lemma regions_elem after s k : s ∈ regions after -> k ∈ s -> from_start lower after k = true /\ below upper k = true.
Proof. intros Hs Hk. apply list_elem_of_fmap in Hs as (ks&->&_). apply elem_of_filter_bool in Hk as [_ ?%andb_true_iff]. done. Qed.

Lemma regions_heads after : Forall2 (source upper) (head <$> regions after) (regions after).
Proof.
  apply Forall2_fmap_l, Forall_Forall2_diag, Forall_forall. intros s Hs. by apply (regions_source after s).
Qed.

(** The key of a round, its value and what is left. *)
Lemma first_round after l k :
  merged (k :: l) (regions after) ->
  next_key (head <$> regions after) = Some k /\ from_start lower after k = true /\ below upper k = true /\
  merged l (regions (Some k)) /\
  let state_candidate := key ← head (region lower upper after (btree_keys (state (inner db))));
                         (fun value => (key, value)) <$> state (inner db) !! key in
  let pending_candidate := key ← head (region lower upper after (btree_keys (pending_table (inner db))));
                           (fun value => (key, value)) <$> pending_table (inner db) !! key in
  candidate_value (disk db) state_candidate pending_candidate (table_layers (inner db)) k = Ok (A !! k).
Proof.
  intros Hm. pose proof (merged_step upper _ _ _ (regions_heads after) Hm) as Hstep.
  destruct (next_key _) as [k'|]; [|done]. destruct (below upper k') eqn:Hbel; [|done].
  destruct Hstep as (l'&[= <- <-]&Hm'). destruct Hm as [Hsort Hl].
  assert (Hmin : forall s x, s ∈ regions after -> x ∈ s -> key_le k x).
  { intros s x Hs Hx. apply (sorted_head_le l); [done|]. apply Hl. by exists s. }
  destruct (proj1 (Hl k)) as (s0&Hs0&Hk0); [left|]. destruct (regions_elem _ _ _ Hs0 Hk0) as [Hfrom _].
  split_and!; [done..| |].
  - replace (regions (Some k)) with (pop k <$> regions after); [done|]. unfold regions. rewrite <-list_fmap_compose.
    apply list_fmap_ext. intros j ks Hks. cbn. symmetry. apply list_elem_of_lookup_2 in Hks. apply region_pop; [|done|].
    + apply elem_of_cons in Hks as [->|[->|Hks]%elem_of_cons]; [apply btree_keys_sorted..|].
      apply list_elem_of_fmap in Hks as (x&->&_). apply btree_keys_sorted.
    + intros x. apply Hmin. by apply list_elem_of_fmap_2.
  - assert (Hhead : forall V (m : bmap V), region lower upper after (btree_keys m) ∈ regions after ->
      match m !! k with
      | Some v => head (region lower upper after (btree_keys m)) = Some k
      | None => forall key w, head (region lower upper after (btree_keys m)) = Some key -> m !! key = Some w -> key <> k
      end).
    { intros V m Hm2. destruct (m !! k) as [v|] eqn:Hv; [|intros key w _ Hw ->; congruence].
      apply min_head; [by apply (regions_source after)|by eauto|]. apply region_elem; [done..|by eexists]. }
    pose proof (Hhead _ (pending_table (inner db)) ltac:(apply list_elem_of_fmap_2; right; left)) as Hp.
    pose proof (Hhead _ (state (inner db)) ltac:(apply list_elem_of_fmap_2; left)) as Hst.
    unfold candidate_value, contents. rewrite lookup_overlay, lookup_union. clear Hhead.
    destruct (pending_table (inner db) !! k) as [v|] eqn:Hpk.
    { rewrite Hp. cbn [mbind option_bind]. rewrite Hpk. cbn. by rewrite bool_decide_true. }
    rewrite bool_decide_false.
    2: { destruct (head _) as [key|]; cbn; [|done]. destruct (pending_table (inner db) !! key) as [w|] eqn:Hw; cbn; [|done].
         intros [= ->]. by apply (Hp k w). }
    destruct (state (inner db) !! k) as [v|] eqn:Hsk.
    { rewrite Hst. cbn [mbind option_bind]. rewrite Hsk. cbn. rewrite bool_decide_true by done. by destruct (layers_view (ls_map <$> ls) !! k). }
    rewrite bool_decide_false.
    2: { destruct (head (region _ _ _ (btree_keys (state _)))) as [key|]; cbn; [|done]. destruct (state (inner db) !! key) as [w|] eqn:Hw; cbn; [|done].
         intros [= ->]. by apply (Hst k w). }
    unfold get_scan_value_snapshot. rewrite !lookup_empty. rewrite (lookup_layers_repr _ _ ls) by done. by destruct (layers_view (ls_map <$> ls) !! k).
Qed.

Lemma first_loop_emits l : forall rounds locks after retries,
  (length l < rounds)%nat -> position lower upper (not_before lower after) -> merged l (regions (not_before lower after)) ->
  (forall k, k ∈ l -> in_region ns b k = true) ->
  first_loop obs ns b rounds locks after retries = Ok (mkIter (emit (visible_entry ns b A) 0 (Some 1) l 0 []) None).
Proof.
  induction l as [|k l IH]; intros [|rounds] locks after retries Hlen Hpos Hm Hreg; cbn [length] in Hlen; try lia;
    cbn [first_loop]; rewrite !Hobs, Hmode, !next_map_key_region by done; run; rewrite (collect_candidates _ _ _ _ ls) by done.
  all: set (sc := mbind _ (head (region _ _ _ (btree_keys (state _))))); set (pc := mbind _ (head (region _ _ _ (btree_keys (pending_table _))))).
  all: assert (Hcand : forall V (m : bmap V), let h := head (region lower upper (not_before lower after) (btree_keys m)) in
    fst <$> (key ← h; (fun value => (key, value)) <$> m !! key) = h)
    by (intros V m; cbv zeta; destruct (region lower upper (not_before lower after) (btree_keys m)) as [|x s] eqn:Hr; [done|]; cbn;
        assert (Hx : x ∈ region lower upper (not_before lower after) (btree_keys m)) by (rewrite Hr; left);
        apply elem_of_filter_bool in Hx as [[v Hv]%elem_of_btree_keys _]; by rewrite Hv).
  all: assert (Hheads : (fst <$> sc) :: (fst <$> pc) :: ((fun s => head (region lower upper (not_before lower after) (btree_keys (ls_map s)))) <$> ls)
    = head <$> regions (not_before lower after))
    by (unfold sc, pc, regions; rewrite (Hcand _ (state (inner db))), (Hcand _ (pending_table (inner db))); cbn [fmap list_fmap];
        do 2 f_equal; by rewrite <-!list_fmap_compose).
  all: rewrite Hheads.
  - pose proof (next_key_spec (head <$> regions (not_before lower after))) as Hnext. destruct (next_key _) as [k|]; [|done].
    exfalso. destruct Hnext as [Hin _]. apply list_elem_of_fmap in Hin as (s&Hs&Hin). destruct s as [|x s]; [done|].
    destruct Hm as [_ Hm]. apply (not_elem_of_nil x), Hm. exists (x :: s). split; [done|left].
  - destruct (first_round _ _ _ Hm) as (->&Hfrom&Hbel&Hm'&Hval). cbv zeta in Hval. fold sc pc in Hval. rewrite Hval.
    rewrite Z.eqb_refl. cbn [negb emit].
    assert (Hlow : key_le lower k).
    { unfold position in Hpos. unfold from_start in Hfrom. destruct (not_before lower after) as [a|]; [|by apply key_leb_le].
      apply key_ltb_lt in Hfrom. intros Hk. apply (proj1 Hpos). by eapply key_lt_trans. }
    assert (Hnb : not_before lower (Some k) = Some k) by (unfold not_before; cbn; by rewrite (proj2 (key_leb_le _ _) Hlow)).
    destruct (A !! k) as [v|] eqn:Hv.
    + destruct (region_matches ns b k Hns ltac:(apply Hkeys; by rewrite Hv) Hend ltac:(apply Hreg; left)) as [u Hu].
      assert (Hvis : visible_entry ns b A k = Some (u, v)) by (unfold visible_entry; rewrite Hv; cbn; by rewrite Hu).
      rewrite Hvis. apply scan_match_Some in Hu as [Hu _]. by rewrite (proj2 (strip_prefix_Some ns k u) Hu).
    + assert (Hvis : visible_entry ns b A k = None) by (unfold visible_entry; by rewrite Hv). rewrite Hvis.
      apply IH; [lia|rewrite Hnb; by split|by rewrite Hnb|]. intros x Hx. apply Hreg. by right.
Qed.

Lemma iter_durable_first_page locks :
  below upper lower = true -> sb_offset b = 0 -> sb_limit b = Some 1 ->
  iter_durable_first obs ns b (first_rounds (inner db)) locks = Ok (mkIter (page b (btree_iter (keyspace_view ns A))) None).
Proof.
  intros Hb Hoff Hlim. unfold iter_durable_first. pose proof (start_position ns b Hb) as Hpos.
  destruct (merged_exists (regions (not_before lower (excluded_start ns (sb_start b))))) as [l Hl].
  rewrite (first_loop_emits l); [|..|done|exact Hl|].
  - do 2 f_equal. rewrite emit_page by done. unfold page. rewrite Hoff, Hlim. do 2 f_equal. by apply region_entries.
  - unfold first_rounds, page_rounds. pose proof (merged_length _ _ Hl) as Hlen. pose proof (layers_records _ _ _ Hlayers) as Hrec.
    unfold regions in Hlen. cbn [fmap list_fmap concat] in Hlen. rewrite !length_app in Hlen.
    pose proof (region_length lower upper (not_before lower (excluded_start ns (sb_start b)))) as Hreg.
    pose proof (Hreg (btree_keys (state (inner db)))) as H1. pose proof (Hreg (btree_keys (pending_table (inner db)))) as H2.
    assert (Hsz : forall V (m : bmap V), length (btree_keys m) = size m) by (intros; unfold btree_keys; by rewrite length_fmap, length_btree_iter).
    rewrite !Hsz in *.
    assert (H3 : (length (concat (region lower upper (not_before lower (excluded_start ns (sb_start b))) <$> ((fun s => btree_keys (ls_map s)) <$> ls)))
      <= length (concat ((fun s => btree_keys (ls_map s)) <$> ls)))%nat).
    { clear -Hreg. induction ls as [|s l' IH]; [done|]. cbn [fmap list_fmap concat]. rewrite !length_app.
      specialize (Hreg (btree_keys (ls_map s))). cbn in IH. lia. }
    cbn [fmap list_fmap] in H3. lia.
  - intros k (s&Hs&Hk)%Hl. destruct (regions_elem _ _ _ Hs Hk) as [Hf Hbk]. unfold in_region. by rewrite Hf, Hbk.
Qed.
End first.

(** A cursor beyond the upper bound makes the range of the memory tables inverted. *)
Lemma iter_durable_first_panics `{Crc32} obs ns b rounds locks upper :
  in_memory (inner (obs locks)) = false -> durable_scan_upper ns (sb_prefix b) (sb_end b) = Some upper ->
  upper ≺ durable_scan_lower ns (sb_prefix b) (sb_start b) ->
  iter_durable_first obs ns b (S rounds) locks = Err Panic.
Proof.
  intros Hmode Hu Hlt. unfold iter_durable_first. cbn [first_loop]. rewrite Hmode, Hu.
  assert (Hr : forall V (m : bmap V), scan_range m (durable_scan_lower ns (sb_prefix b) (sb_start b)) (Some upper)
    (not_before (durable_scan_lower ns (sb_prefix b) (sb_start b)) (excluded_start ns (sb_start b))) = Err Panic).
  { intros V m. unfold scan_range, btree_range. cbn [fmap option_fmap option_map].
    destruct (not_before _ _) as [a|] eqn:Ha; [rewrite (start_after_lower ns b a Ha)|]; by rewrite (proj2 (key_ltb_lt _ _) Hlt). }
  unfold next_map_key. rewrite (Hr _ (state (inner (obs locks)))). reflexivity.
Qed.
