(* ===== verification/DScanCursor.v ===== *)
(** * ThingDB: block cursors and memory chunks

    A block cursor offers the records of its table between the bounds, in order, whatever
    blocks they stand in; a memory chunk that is refilled when it is used up offers the
    entries of its map. *)

From S2P Require Import Prelude Wal Table Layer Database Durable Keyspace RamScan Storage DScan DScanSpec DScanMerge DScanFirst.

(** ** Block cursors *)

Section cursor.
Context `{Crc32} (layer : TableLayer) (lower : bytes) (upper : option bytes) (iv : bool).

(** The chunks of records a table is made of, from a block on. *)
Definition blocks_repr (blocks : list TableBlock) (chunks : list (list entry)) : Prop :=
  exists off, blocks = chunk_blocks off chunks /\ Forall (fun c => c <> []) chunks /\
    zlen (records_layout (concat chunks)) <= U64_MAX /\ occurs (tl_file layer) off (records_layout (concat chunks)).

(** [cursor_repr c rem]: the entries [rem] are left; when the cursor has no record, none
    of them is below the upper bound. *)
Definition cursor_repr (c : TableScanCursor) (rem : list entry) : Prop :=
  exists here chunks,
    rem = here ++ concat chunks /\ drop (tc_record_index c) (tc_records c) = scan_record iv <$> here /\
    blocks_repr (drop (tc_block_index c) (tl_blocks layer)) chunks /\
    tc_legacy_entries c = None /\ tc_include_values c = iv /\
    StronglySorted key_lt rem.*1 /\ Forall (fun e => key_le lower e.1) rem /\
    (here = [] -> Forall (fun e => below upper e.1 = false) rem).

Lemma drop_drop_S {A} (l : list A) n x t : drop n l = x :: t -> drop (S n) l = t.
Proof. intros Hd. replace (S n) with (n + 1)%nat by lia. by rewrite <-drop_drop, Hd. Qed.

Lemma partition_records (p : bytes -> bool) (c : list entry) :
  partition_point (fun r => p (sr_key r)) (scan_record iv <$> c) = partition_point p c.*1.
Proof. induction c as [|e c IH]; [done|]. cbn. destruct (p e.1); [by rewrite IH|done]. Qed.

Lemma sorted_le_partition (key : bytes) ks : StronglySorted key_lt ks ->
  StronglySorted (fun x y => key_leb y key = true -> key_leb x key = true) ks.
Proof.
  intros Hs. eapply StronglySorted_impl_elem; [exact Hs|]. intros x y _ _ Hxy. rewrite !key_leb_le. intros Hle Hkx. apply Hle. by eapply key_lt_trans.
Qed.

Lemma partition_point_le {A} (p : A -> bool) l : (partition_point p l <= length l)%nat.
Proof. induction l as [|x l IH]; [done|]. cbn. destruct (p x); lia. Qed.

(** Where the records of a block start. *)
Lemma after_index_drop after (c : list entry) :
  StronglySorted key_lt c.*1 -> after = None \/ after = Some lower ->
  let lower_index := partition_point (fun r => key_ltb (sr_key r) lower) (scan_record iv <$> c) in
  let after_index :=
    match after with
    | Some after => Nat.max (partition_point (fun r => key_leb (sr_key r) after) (scan_record iv <$> c)) lower_index
    | None => lower_index
    end in
  drop after_index c.*1 = List.filter (from_start lower after) c.*1.
Proof.
  intros Hs Ha. cbv zeta. rewrite (partition_records (fun k => key_ltb k lower)).
  destruct Ha as [->| ->]; [by apply drop_partition, sorted_lt_partition|].
  rewrite (partition_records (fun k => key_leb k lower)). rewrite Nat.max_l.
  - rewrite drop_partition by (by apply sorted_le_partition). apply filter_ext_in. intros k _. cbn. unfold key_leb. by rewrite negb_involutive.
  - clear Hs. induction c.*1 as [|k ks IH]; [done|]. cbn. destruct (key_ltb k lower) eqn:Hk; [|lia].
    apply key_ltb_lt in Hk. rewrite (proj2 (key_leb_spec k lower)) by (by left). lia.
Qed.

(** Sorted keys from the start on: once one is in, so are the later ones. *)
Lemma from_start_mono after (x y : bytes) : from_start lower after x = true -> x ≺ y -> from_start lower after y = true.
Proof.
  intros Hx Hxy. unfold from_start in *. destruct after as [a|].
  - apply key_ltb_lt in Hx. apply key_ltb_lt. by eapply key_lt_trans.
  - apply key_leb_le in Hx. apply key_leb_le. intros Hyl. apply Hx. by eapply key_lt_trans.
Qed.

Lemma entries_filter (p : bytes -> bool) (l : list entry) : (List.filter (fun e => p e.1) l).*1 = List.filter p l.*1.
Proof. apply keys_filter. Qed.

Lemma drop_entries_filter (p : bytes -> bool) n (c : list entry) :
  NoDup c.*1 -> drop n c.*1 = List.filter p c.*1 -> drop n c = List.filter (fun e => p e.1) c.
Proof.
  revert n. induction c as [|e c IH]; intros n Hnd Hd; [by rewrite drop_nil|]. cbn [fmap list_fmap] in *. apply NoDup_cons in Hnd as [Hnin Hnd].
  cbn [List.filter] in *. destruct n as [|n]; cbn [drop] in *.
  - destruct (p e.1) eqn:Hp.
    + injection Hd as Hd. f_equal. apply (IH 0%nat); [done|]. by rewrite drop_0.
    + exfalso. apply Hnin. assert (He : e.1 ∈ List.filter p c.*1) by (rewrite <-Hd; left). by apply elem_of_filter_bool in He as [? _].
  - destruct (p e.1) eqn:Hp; [|by apply IH]. exfalso. apply Hnin.
    assert (He : e.1 ∈ drop n c.*1) by (rewrite Hd; left). apply list_elem_of_lookup in He as [j Hj]. rewrite lookup_drop in Hj.
    by apply list_elem_of_lookup_2 in Hj.
Qed.

(** Among sorted keys, an index before the partition point is one with a key of the first
    part from it on. *)
Lemma partition_between (p : bytes -> bool) (ks : list bytes) a :
  StronglySorted (fun x y => p y = true -> p x = true) ks ->
  (a < partition_point p ks)%nat <-> exists k, k ∈ List.filter p (drop a ks).
Proof.
  intros Hs. revert a. induction Hs as [|x ks Hs IH Hall]; intros a.
  { rewrite drop_nil. cbn. split; [lia|]. intros [k Hk]. by apply elem_of_nil in Hk. }
  rewrite Forall_forall in Hall. cbn [partition_point]. destruct (p x) eqn:Hx.
  - destruct a as [|a]; cbn [drop]; [|rewrite <-IH; lia]. split; [|lia]. intros _. exists x. cbn. rewrite Hx. left.
  - split; [lia|]. intros [k [Hk Hp]%elem_of_filter_bool]. exfalso.
    assert (Hkx : k ∈ x :: ks). { apply list_elem_of_lookup in Hk as [j Hj]. rewrite lookup_drop in Hj. by eapply list_elem_of_lookup_2. }
    apply elem_of_cons in Hkx as [->|Hkx]; [congruence|]. by specialize (Hall k Hkx Hp).
Qed.

Lemma sorted_below_partition ks : StronglySorted key_lt ks ->
  StronglySorted (fun x y => below upper y = true -> below upper x = true) ks.
Proof. intros Hs. eapply StronglySorted_impl_elem; [exact Hs|]. intros x y _ _ Hxy. by apply below_trans, key_lt_asym. Qed.

Lemma end_index_partition (c : list entry) :
  match upper with
  | Some upper => partition_point (fun r => key_ltb (sr_key r) upper) (scan_record iv <$> c)
  | None => length (scan_record iv <$> c)
  end = partition_point (below upper) c.*1.
Proof.
  destruct upper as [u|]; [by rewrite (partition_records (fun k => key_ltb k u))|]. rewrite length_fmap.
  induction c as [|e c IH]; [done|]. cbn. by rewrite IH.
Qed.

Lemma load_block_loop_repr c after chunks : forall blocks block_index,
  tc_legacy_entries c = None -> tc_include_values c = iv -> after = None \/ after = Some lower ->
  blocks = drop block_index (tl_blocks layer) -> blocks_repr blocks chunks -> StronglySorted key_lt (concat chunks).*1 ->
  exists c', load_block_loop layer lower upper c after blocks block_index = Ok c' /\
    tc_priority c' = tc_priority c /\
    exists rem, cursor_repr c' rem /\
      List.filter (below upper) rem.*1 = List.filter (below upper) (List.filter (from_start lower after) (concat chunks).*1) /\
      (forall e, e ∈ rem -> e ∈ concat chunks).
Proof.
  intros blocks block_index Hleg Hiv Ha. revert blocks block_index.
  induction chunks as [|ch chunks IH]; intros blocks block_index Hblocks (off&->&Hne&Hlen&Hocc) Hsort.
  - cbn [load_block_loop chunk_blocks]. eexists. split_and!; [done|done|]. exists []. split_and!; [|done|done].
    exists [], []. cbn. split_and!; try done; try (by constructor). rewrite <-Hblocks. by exists off.
  - cbn [chunk_blocks] in Hblocks |- *. cbn [load_block_loop]. apply Forall_cons in Hne as [Hch Hne].
    cbn [concat] in *. rewrite records_app, length_app in Hlen. rewrite records_app in Hocc. apply occurs_app in Hocc as [Hoc Hocc].
    rewrite fmap_app in Hsort. pose proof Hsort as (Hlt&Hs1&Hs2)%StronglySorted_app.
    assert (Hrest : drop (S block_index) (tl_blocks layer) = chunk_blocks (off + zlen (records_layout ch)) chunks).
    { eapply drop_drop_S. symmetry. exact Hblocks. }
    assert (Hrepr : blocks_repr (chunk_blocks (off + zlen (records_layout ch)) chunks) chunks).
    { eexists. split_and!; [done|done|lia|done]. }
    assert (Hskip : List.filter (below upper) (List.filter (from_start lower after) ch.*1) = [] ->
      exists c', load_block_loop layer lower upper c after (chunk_blocks (off + zlen (records_layout ch)) chunks) (S block_index) = Ok c' /\
        tc_priority c' = tc_priority c /\ exists rem, cursor_repr c' rem /\
          List.filter (below upper) rem.*1 = List.filter (below upper) (List.filter (from_start lower after) (ch ++ concat chunks).*1) /\
          (forall e, e ∈ rem -> e ∈ ch ++ concat chunks)).
    { intros Hnil. destruct (IH _ (S block_index) (eq_sym Hrest) Hrepr Hs2) as (c'&Hrun&Hpr&rem&Hrem&Hf&Hin).
      exists c'. split_and!; [done|done|]. exists rem. split_and!; [done| |intros e He; apply elem_of_app; right; by apply Hin].
      rewrite Hf, fmap_app, !List.filter_app, Hnil. done. }
    destruct (chunk_last_key off ch Hch) as (e_last&Hin_last&Hlast&Hmax). specialize (Hmax Hs1).
    destruct (chunk_first_key off ch Hch) as (e_first&Hin_first&Hfirst&Hmin). specialize (Hmin Hs1). rewrite Hlast, Hfirst.
    destruct (key_ltb e_last.1 lower) eqn:Hbelow.
    { apply Hskip. rewrite (filter_none (from_start lower after)); [done|]. intros k Hk. apply list_elem_of_fmap in Hk as (e&->&He).
      apply key_ltb_lt in Hbelow. assert (Hel : e.1 ≺ lower) by (destruct (Hmax e He) as [->|?]; [done|by eapply key_lt_trans]).
      apply not_true_iff_false. destruct Ha as [->| ->]; cbn; rewrite ?key_ltb_lt, ?key_leb_le; [tauto|]. by apply key_lt_asym. }
    assert (Hge : forall e, e ∈ concat chunks -> key_le lower e.1).
    { intros e He. apply key_ltb_false in Hbelow. assert (e_last.1 ≺ e.1) by (apply Hlt; by apply list_elem_of_fmap_2).
      intros Hel. destruct Hbelow as [Hbl| Hbl].
      - apply (key_lt_irrefl lower). eapply key_lt_trans; [exact Hbl|]. by eapply key_lt_trans.
      - rewrite Hbl in *. by apply (key_lt_asym lower e.1). }
    destruct (below upper e_first.1) eqn:Hfb; cbn [negb].
    2: { assert (Habove : forall e, e ∈ ch ++ concat chunks -> below upper e.1 = false).
         { intros e He. apply not_true_iff_false. intros Hb. assert (Hle : key_le e_first.1 e.1).
           { apply elem_of_app in He as [He|He].
             - destruct (Hmin e He) as [->|?]; [apply key_lt_irrefl|by apply key_lt_asym].
             - apply key_lt_asym, Hlt; by apply list_elem_of_fmap_2. }
           by rewrite (below_trans _ _ _ Hle Hb) in Hfb. }
         eexists. split_and!; [done|done|]. exists (concat chunks).
         split_and!.
         - exists [], chunks. cbn. split_and!; try done.
           + by rewrite Hrest.
           + apply Forall_forall. intros e He. by apply Hge.
           + intros _. apply Forall_forall. intros e He. apply Habove, elem_of_app. by right.
         - rewrite !filter_none; [done| |].
           + intros k Hk. apply elem_of_filter_bool in Hk as [Hk _]. apply list_elem_of_fmap in Hk as (e&->&He). by apply Habove.
           + intros k Hk. apply list_elem_of_fmap in Hk as (e&->&He). apply Habove, elem_of_app. by right.
         - intros e He. apply elem_of_app. by right. }
    rewrite Hiv, (read_table_block_records_occurs _ off ch iv) by (done || lia). run.
    set (after_index := match after with Some _ => _ | None => _ end). set (end_index := match upper with Some _ => _ | None => _ end).
    pose proof (after_index_drop after ch Hs1 Ha) as Hdrop. cbv zeta in Hdrop. fold after_index in Hdrop.
    assert (Hend : (after_index < end_index)%nat <-> exists k, k ∈ List.filter (below upper) (drop after_index ch.*1)).
    { unfold end_index. rewrite end_index_partition. by apply partition_between, sorted_below_partition. }
    clearbody after_index end_index. destruct (Nat.ltb_spec after_index end_index) as [Hin|Hout].
    + eexists. split_and!; [done|done|]. exists (drop after_index ch ++ concat chunks). apply Hend in Hin as [k Hk].
      apply elem_of_filter_bool in Hk as [Hk _]. rewrite Hdrop in Hk. apply elem_of_filter_bool in Hk as [Hk Hfk].
      pose proof Hs1 as Hs1'. rewrite <-(take_drop after_index ch.*1) in Hs1'. apply StronglySorted_app in Hs1' as (_&_&Hsd).
      assert (Hsub : forall x, x ∈ drop after_index ch.*1 -> x ∈ ch.*1 /\ from_start lower after x = true)
        by (intros x Hx; rewrite Hdrop in Hx; by apply elem_of_filter_bool in Hx).
      assert (Hlow : forall x, from_start lower after x = true -> key_le lower x).
      { intros x Hx. destruct Ha as [->| ->]; cbn in Hx; [by apply key_leb_le|]. by apply key_lt_asym, key_ltb_lt. }
      split_and!.
      * exists (drop after_index ch), chunks. cbn. split_and!; try done.
        -- by rewrite <-fmap_drop.
        -- by rewrite Hrest.
        -- rewrite fmap_app, fmap_drop. apply StronglySorted_app. split_and!; [|done|done]. intros x y Hx Hy. apply Hlt; [by apply Hsub|done].
        -- apply Forall_app. split; apply Forall_forall; intros e He; [|by apply Hge].
           apply Hlow, Hsub. rewrite <-fmap_drop. by apply list_elem_of_fmap_2.
        -- intros Hnil. assert (Hn : drop after_index ch.*1 = []) by (by rewrite <-fmap_drop, Hnil). rewrite Hdrop in Hn.
           assert (Hx : k ∈ List.filter (from_start lower after) ch.*1) by (by apply elem_of_filter_bool). rewrite Hn in Hx. by apply elem_of_nil in Hx.
      * rewrite !fmap_app, !List.filter_app, fmap_drop, Hdrop. f_equal. f_equal. symmetry. apply filter_all. intros x Hx.
        eapply from_start_mono; [exact Hfk|]. by apply Hlt.
      * intros e He. apply elem_of_app in He as [He|He]; apply elem_of_app; [left|by right].
        apply list_elem_of_lookup in He as [j Hj]. rewrite lookup_drop in Hj. by eapply list_elem_of_lookup_2.
    + apply Hskip. rewrite <-Hdrop. destruct (List.filter (below upper) (drop after_index ch.*1)) as [|k ks] eqn:Hf; [done|].
      exfalso. assert (after_index < end_index)%nat; [|lia]. apply Hend. exists k. left.
Qed.

Lemma cursor_source c rem :
  cursor_repr c rem -> source upper (sr_key <$> cursor_head c) (List.filter (below upper) rem.*1) /\
  forall r, cursor_head c = Some r -> exists e rem', rem = e :: rem' /\ r = scan_record iv e.
Proof.
  intros (here&chunks&->&Hd&_&_&_&Hs&_&Hnil). unfold cursor_head.
  assert (Hh : tc_records c !! tc_record_index c = scan_record iv <$> head here).
  { rewrite <-(Nat.add_0_r (tc_record_index c)), <-lookup_drop, Hd. by destruct here. }
  rewrite Hh. destruct here as [|e here]; cbn [head fmap option_fmap option_map app].
  - rewrite filter_none.
    + by split; [split_and!; [constructor|constructor|done]|].
    + intros k Hk. apply list_elem_of_fmap in Hk as (e&->&He). specialize (Hnil eq_refl). rewrite Forall_forall in Hnil. by apply Hnil.
  - split; [exact (sorted_filter_source upper (e :: here ++ concat chunks).*1 Hs)|]. intros r [= <-]. by eexists e, _.
Qed.

Lemma new_cursor_repr d seq m priority after :
  layer_repr d layer seq m -> tl_blocks layer <> [] -> after = None \/ after = Some lower ->
  exists c, new_cursor layer lower upper priority after iv = Ok c /\ tc_priority c = priority /\
    exists rem, cursor_repr c rem /\ List.filter (below upper) rem.*1 = region lower upper after (btree_keys m) /\
      (forall e, e ∈ rem -> m !! e.1 = Some e.2).
Proof.
  intros (chunks&Hseq&Hfit&Hc&Hne&Hdisk&Hfile&Hent&Hblk&Hv2) Hnb Ha. unfold new_cursor. rewrite (bool_decide_false (tl_blocks layer = [])) by done.
  rewrite (bool_decide_false (is_Some _)) by (by intros [? ?]). unfold load_next_block. cbn [tc_block_index].
  pose proof (btree_keys_sorted m) as Hsort. unfold btree_keys, table_fits in *. rewrite <-Hc in Hsort, Hfit.
  destruct (chunks_split chunks lower) as (pre&post&->&Hpp&Hpre&_&_). rewrite Hblk, Hpp.
  apply Forall_app in Hne as [Hne1 Hne2]. rewrite concat_app, fmap_app in Hsort. pose proof Hsort as (Hlt&Hs1&Hs2)%StronglySorted_app.
  assert (Hd : drop (length pre) (chunk_blocks 24 (pre ++ post)) = chunk_blocks (24 + zlen (records_layout (concat pre))) post).
  { rewrite chunk_blocks_app. rewrite <-(length_chunk_blocks 24 pre). by rewrite drop_app_length. }
  rewrite Hd. edestruct (load_block_loop_repr (mkCursor (length pre) None 0 (tl_is_v2 layer) iv [] 0 priority) after post
    (chunk_blocks (24 + zlen (records_layout (concat pre))) post) (length pre)) as (c&Hrun&Hpr&rem&Hrem&Hf&Hin);
    [done|done|exact Ha|by rewrite Hblk, Hd| |exact Hs2|].
  - eexists. split_and!; [done|done| |].
    + rewrite concat_app, records_app, length_app in Hfit. unfold table_limit, U64_MAX in *. lia.
    + rewrite Hfile. unfold table_layout. rewrite concat_app, records_app, <-app_assoc, app_assoc.
      replace (24 + zlen (records_layout (concat pre)))
        with (zlen (header_layout seq (zlen (concat pre ++ concat post)) ++ records_layout (concat pre)))
        by (rewrite length_app, Nat2Z.inj_add; reflexivity). apply occurs_here.
  - exists c. split_and!; [done|done|]. exists rem. split_and!; [done| |].
    + rewrite Hf, <-Hc, concat_app, fmap_app. unfold region. rewrite filter_filter, List.filter_app. rewrite (filter_none _ (concat pre).*1).
      * cbn [app]. apply filter_ext_in. intros k _. apply andb_comm.
      * intros k Hk. apply list_elem_of_fmap in Hk as (e&->&He). pose proof (chunks_below _ _ _ Hne1 Hs1 Hpre e He) as Hlow.
        apply andb_false_iff. left. apply not_true_iff_false. destruct Ha as [->| ->]; cbn; rewrite ?key_ltb_lt, ?key_leb_le; [tauto|]. by apply key_lt_asym.
    + intros [k v] He. apply elem_of_btree_iter. rewrite <-Hc, concat_app. apply elem_of_app. right. by apply Hin.
Qed.

Lemma advance_cursor_repr c e rem r :
  cursor_repr c (e :: rem) -> cursor_head c = Some r ->
  exists c', advance_cursor layer lower upper c = Ok c' /\ tc_priority c' = tc_priority c /\
    exists rem', cursor_repr c' rem' /\ List.filter (below upper) rem'.*1 = List.filter (below upper) rem.*1 /\ (forall x, x ∈ rem' -> x ∈ rem).
Proof.
  intros (here&chunks&Hrem&Hd&Hb&Hleg&Hiv&Hs&Hlow&Hnil) Hhead. unfold advance_cursor. cbn [tc_record_index tc_records tc_block_index set_block tc_legacy_entries].
  destruct here as [|e' here].
  { exfalso. unfold cursor_head in Hhead. rewrite <-(Nat.add_0_r (tc_record_index c)), <-lookup_drop, Hd in Hhead. done. }
  injection Hrem as -> ->. pose proof (drop_drop_S _ _ _ _ Hd) as Hd'. cbn [fmap list_fmap] in Hs.
  apply StronglySorted_inv in Hs as [Hs _]. apply Forall_cons in Hlow as [_ Hlow].
  destruct (Nat.ltb_spec (S (tc_record_index c)) (length (tc_records c))) as [Hlt|Hge].
  - eexists. split_and!; [done|done|]. exists (here ++ concat chunks). split_and!; [|done|done].
    exists here, chunks. cbn. split_and!; try done. intros ->. exfalso. apply (f_equal length) in Hd'. rewrite length_drop in Hd'. cbn in Hd'. lia.
  - assert (here = []) as ->. { apply (f_equal length) in Hd'. rewrite length_drop in Hd'. destruct here; [done|]. cbn in Hd'. lia. }
    rewrite Hleg, bool_decide_false by (by intros [? ?]). unfold load_next_block. cbn [tc_block_index set_block app] in *.
    set (c0 := set_block c (tc_block_index c) (tc_records c) (S (tc_record_index c))).
    edestruct (load_block_loop_repr c0 None chunks (drop (tc_block_index c) (tl_blocks layer)) (tc_block_index c)) as (c'&Hrun&Hpr&rem'&Hrem'&Hf&Hin); [done|done|by left|done|exact Hb|done|].
    exists c'. split_and!; [done|done|]. exists rem'. split_and!; [done| |done]. rewrite Hf. f_equal. apply filter_all.
    intros k Hk. apply list_elem_of_fmap in Hk as (x&->&Hx). rewrite Forall_forall in Hlow. by apply key_leb_le, Hlow.
Qed.
End cursor.

(** ** Memory chunks *)

Section chunk.
Context {V : Type} (m : bmap V) (value : V -> option bytes) (priority : Z) (lower : bytes) (upper : option bytes).

Definition range_entries (after : option bytes) : list (bytes * V) :=
  List.filter (fun e => from_start lower after e.1 && below upper e.1) (btree_iter m).

Definition to_record (e : bytes * V) : TableScanRecord := mkScanRecord e.1 (value e.2) priority.

(** The entries [rem] are left when [index] records of the chunk have been used. *)
Definition chunk_repr (ck : Chunk) (index : nat) (rem : list (bytes * V)) : Prop :=
  exists after, position lower upper after /\
    ck_records ck = to_record <$> take DURABLE_SCAN_MEMTABLE_CHUNK_SIZE (range_entries after) /\
    ck_after ck = fst <$> last (take DURABLE_SCAN_MEMTABLE_CHUNK_SIZE (range_entries after)) /\
    ck_has_more ck = (DURABLE_SCAN_MEMTABLE_CHUNK_SIZE <? length (range_entries after))%nat /\
    (index <= length (ck_records ck))%nat /\ rem = drop index (range_entries after).

Lemma capture_repr after :
  position lower upper after ->
  exists ck, capture_durable_memtable_chunk m lower upper after priority value = Ok ck /\ chunk_repr ck 0 (range_entries after).
Proof.
  intros Hp. unfold capture_durable_memtable_chunk. rewrite scan_range_region by done. run. fold (range_entries after).
  eexists. split; [done|]. exists after. cbn [ck_records ck_after ck_has_more].
  rewrite take_take, Nat.min_l by lia. split_and!; [done|done| | |lia|done].
  - rewrite fmap_last. by destruct (last _).
  - rewrite length_take. apply eq_true_iff_eq. rewrite !Nat.ltb_lt. lia.
Qed.

Lemma range_entries_sorted after : StronglySorted key_lt (range_entries after).*1.
Proof.
  unfold range_entries. rewrite (keys_filter (fun k => from_start lower after k && below upper k)). apply region_sorted, btree_keys_sorted.
Qed.

Lemma range_entries_tail after pre k v post :
  range_entries after = pre ++ (k, v) :: post -> range_entries (Some k) = post.
Proof.
  intros Hr. pose proof (range_entries_sorted after) as Hs. rewrite Hr, fmap_app, fmap_cons in Hs.
  apply StronglySorted_app in Hs as (Hlt&_&[_ Hgt]%StronglySorted_inv). rewrite Forall_forall in Hgt. cbn [fst] in *.
  assert (Hk : from_start lower after k = true).
  { assert (Hin : (k, v) ∈ range_entries after) by (rewrite Hr; apply elem_of_app; right; left).
    by apply elem_of_filter_bool in Hin as [_ [? _]%andb_true_iff]. }
  transitivity (List.filter (fun e => key_ltb k e.1) (range_entries after)).
  - unfold range_entries. rewrite filter_filter. apply filter_ext_in. intros e _. cbn [from_start].
    destruct (key_ltb k e.1) eqn:He; [|done]. cbn [andb]. apply key_ltb_lt in He. by rewrite (from_start_mono lower after k e.1 Hk He).
  - rewrite Hr, List.filter_app. rewrite filter_none.
    + cbn [app List.filter fst]. rewrite (proj2 (key_ltb_false k k)) by (by right). apply filter_all. intros e He.
      apply key_ltb_lt, Hgt. by apply (list_elem_of_fmap_2 fst).
    + intros e He. apply key_ltb_false. left. apply Hlt; [by apply (list_elem_of_fmap_2 fst)|left].
Qed.

(** A chunk that is used up while there is more is followed by the next one. *)
Lemma refill_repr ck index rem :
  chunk_repr ck index rem -> index = length (ck_records ck) -> ck_has_more ck = true ->
  exists ck', capture_durable_memtable_chunk m lower upper (ck_after ck) priority value = Ok ck' /\ chunk_repr ck' 0 rem.
Proof.
  intros (after&Hp&Hrec&Haft&Hmore&_&->) Hi Hm. rewrite Hmore in Hm. apply Nat.ltb_lt in Hm.
  rewrite Hrec, length_fmap, length_take, Nat.min_l in Hi by lia. subst index.
  set (size := DURABLE_SCAN_MEMTABLE_CHUNK_SIZE) in *. assert (Hsize : (0 < size)%nat) by (unfold size, DURABLE_SCAN_MEMTABLE_CHUNK_SIZE; lia).
  destruct (last (take size (range_entries after))) as [[k v]|] eqn:Hl.
  2: { apply last_None, (f_equal length) in Hl. rewrite length_take in Hl. cbn [length] in Hl. lia. }
  apply last_Some in Hl as [pre Hpre]. cbn in Haft.
  assert (Hr : range_entries after = pre ++ (k, v) :: drop size (range_entries after)).
  { rewrite <-(take_drop size (range_entries after)) at 1. rewrite Hpre, <-app_assoc. done. }
  pose proof (range_entries_tail _ _ _ _ _ Hr) as Htail.
  assert (Hpos : position lower upper (Some k)).
  { assert (Hin : (k, v) ∈ range_entries after) by (rewrite Hr; apply elem_of_app; right; left).
    apply elem_of_filter_bool in Hin as [_ [Hs Hb]%andb_true_iff]. cbn [fst] in *. split; [|done].
    unfold position in Hp. unfold from_start in Hs. destruct after as [a|]; [|by apply key_leb_le].
    apply key_ltb_lt in Hs. intros Hk. apply (proj1 Hp). by eapply key_lt_trans. }
  destruct (capture_repr (Some k) Hpos) as (ck'&Hc&Hck). rewrite Haft. exists ck'. split; [done|]. by rewrite <-Htail.
Qed.

(** A chunk that need not be refilled has the next entry under its index. *)
Lemma chunk_head ck index rem :
  chunk_repr ck index rem -> (index =? length (ck_records ck))%nat && ck_has_more ck = false ->
  ck_records ck !! index = to_record <$> head rem.
Proof.
  intros (after&Hp&Hrec&_&Hmore&Hi&->) Hno. rewrite Hrec, length_fmap in Hi. rewrite Hrec, list_lookup_fmap.
  destruct (decide (index = length (ck_records ck))) as [Heq|Hne].
  - rewrite Heq, Nat.eqb_refl in Hno. cbn [andb] in Hno. rewrite Hmore in Hno. apply Nat.ltb_ge in Hno.
    rewrite Hrec, length_fmap, length_take, Nat.min_r in Heq by lia. subst index.
    rewrite lookup_ge_None_2 by (rewrite length_take; lia). by rewrite drop_ge.
  - rewrite Hrec, length_fmap in Hne. rewrite length_take in Hi, Hne. rewrite lookup_take_lt by lia.
    rewrite <-(Nat.add_0_r index) at 1. rewrite <-lookup_drop. by destruct (drop index _).
Qed.

Lemma chunk_fresh ck rem : chunk_repr ck 0 rem -> (0 =? length (ck_records ck))%nat && ck_has_more ck = false.
Proof.
  intros (after&_&Hrec&_&Hmore&_). destruct (ck_has_more ck); [|apply andb_false_r]. symmetry in Hmore. apply Nat.ltb_lt in Hmore.
  rewrite andb_true_r. apply Nat.eqb_neq. rewrite Hrec, length_fmap, length_take. unfold DURABLE_SCAN_MEMTABLE_CHUNK_SIZE in *. lia.
Qed.

Lemma chunk_advance ck index e rem :
  chunk_repr ck index (e :: rem) -> is_Some (ck_records ck !! index) -> chunk_repr ck (S index) rem.
Proof.
  intros (after&Hp&Hrec&Haft&Hmore&Hi&Hrem) Hsome. exists after. split_and!; try done.
  - apply lookup_lt_is_Some in Hsome. lia.
  - symmetry. by eapply drop_drop_S.
Qed.

Lemma chunk_rem ck index rem :
  chunk_repr ck index rem -> StronglySorted key_lt rem.*1 /\ Forall (fun k => below upper k = true) rem.*1 /\
  (forall e, e ∈ rem -> m !! e.1 = Some e.2).
Proof.
  intros (after&_&_&_&_&_&->). pose proof (range_entries_sorted after) as Hs. rewrite <-(take_drop index (range_entries after)), fmap_app in Hs.
  apply StronglySorted_app in Hs as (_&_&Hs).
  assert (Hin : forall e, e ∈ drop index (range_entries after) -> e ∈ range_entries after).
  { intros e He. apply list_elem_of_lookup in He as [j Hj]. rewrite lookup_drop in Hj. by eapply list_elem_of_lookup_2. }
  split_and!; [done| |].
  - apply Forall_forall. intros k Hk. apply list_elem_of_fmap in Hk as (e&->&He). apply Hin, elem_of_filter_bool in He as [_ [_ ?]%andb_true_iff]. done.
  - intros [k v] He. apply Hin, elem_of_filter_bool in He as [He _]. by apply elem_of_btree_iter in He.
Qed.
End chunk.
