(* ===== verification/DScanPage.v ===== *)
(** * ThingDB: pages merged from block cursors

    One attempt of [iter_durable_table_page] over the snapshot it starts from, while other
    threads may change the database: either the attempt returns the page of the snapshot,
    or the generation of the database has moved on when it is checked. *)

From S2P Require Import Prelude Wal Table Layer Database Durable Keyspace RamScan Storage DScan DScanSpec DScanMerge DScanFirst DScanCursor.

(** The generation of the database at an acquisition of the lock. *)
Definition generation (obs : nat -> Db) (n : nat) : Z := state_generation (inner (obs n)).

(** What the scan relies on: the generation does not decrease, and while it stays the same
    so do the memory tables. *)
Record guarded (obs : nat -> Db) : Prop := {
  gd_mono : forall n m, (n <= m)%nat -> generation obs n <= generation obs m;
  gd_same : forall n m, generation obs n = generation obs m ->
    state (inner (obs n)) = state (inner (obs m)) /\ pending_table (inner (obs n)) = pending_table (inner (obs m));
}.

(** ** The records under a key *)

(** The newest layer that has the key decides. *)
Definition layer_value (acc : option (option bytes)) (ls : list LayerSpec) (k : bytes) : option (option bytes) :=
  foldl (fun acc s => match ls_map s !! k with Some x => Some x | None => acc end) acc ls.

Lemma layers_view_value ls k : layers_view (ls_map <$> ls) !! k = layer_value None ls k ≫= id.
Proof.
  induction ls as [|s ls IH] using rev_ind; [by cbn; rewrite lookup_empty|].
  rewrite fmap_app. cbn [fmap list_fmap]. unfold layer_value. rewrite layers_view_snoc, lookup_overlay, foldl_app. cbn [foldl].
  destruct (ls_map s !! k); [done|]. exact IH.
Qed.

Definition memory_layer_value (i : Inner) (ls : list LayerSpec) (k : bytes) : option (option bytes) :=
  match pending_table i !! k with
  | Some x => Some x
  | None => match state i !! k with Some v => Some (Some v) | None => layer_value None ls k end
  end.

Lemma contents_value i ls k : contents i ls !! k = memory_layer_value i ls k ≫= id.
Proof.
  unfold contents, memory_layer_value. rewrite lookup_overlay, lookup_union, layers_view_value.
  destruct (pending_table i !! k); [done|]. destruct (state i !! k); [by destruct (layer_value None ls k ≫= id)|].
  by destruct (layer_value None ls k ≫= id).
Qed.

Section select.
Context (count_only : bool).

(** The selected record says what [o] says, with a priority of at most [top]. *)
Definition selects (sel : option (Z * bool * option bytes)) (o : option (option bytes)) (top : Z) : Prop :=
  match o, sel with
  | None, None => True
  | Some x, Some (p, live, v) => live = bool_decide (is_Some x) /\ v = (if count_only then None else x) /\ p <= top
  | _, _ => False
  end.

Lemma selects_weaken sel o top top' : selects sel o top -> top <= top' -> selects sel o top'.
Proof. unfold selects. destruct o, sel as [[[p live] v]|]; try done. intros (?&?&?) ?. split_and!; [done|done|lia]. Qed.

Lemma select_newer k sel o top p r x :
  selects sel o top -> top < p -> sr_key r = k -> bool_decide (is_Some (sr_value r)) = bool_decide (is_Some x) ->
  (count_only = false -> sr_value r = x) ->
  exists live v, select count_only k sel (Some (p, r)) = Some (p, live, v) /\ selects (Some (p, live, v)) (Some x) p.
Proof.
  intros Hs Hp Hk Hl Hv. unfold select. rewrite bool_decide_true by done. cbn [andb].
  assert (Hbest : match sel with Some (best, _, _) => best <? p | None => true end = true).
  { unfold selects in Hs. destruct o, sel as [[[q live] v]|]; try done. destruct Hs as (_&_&Hq). apply Z.ltb_lt. lia. }
  rewrite Hbest. eexists _, _. split; [done|]. cbn. split_and!; [done| |lia]. destruct count_only; [done|by apply Hv].
Qed.

Lemma select_other k sel c : (forall p r, c = Some (p, r) -> sr_key r <> k) -> select count_only k sel c = sel.
Proof. intros Hc. unfold select. destruct c as [[p r]|]; [|done]. rewrite bool_decide_false; [done|]. by eapply Hc. Qed.
End select.

(** ** The state of an attempt *)

Section attempt.
Context `{Crc32} (obs : nat -> Db) (ns : bytes) (b : ScanBounds) (limit : Z) (co : bool).
Context (j : nat) (ls : list LayerSpec) (lower : bytes) (upper : option bytes).
Context (Hguard : guarded obs).
Abbreviation i0 := (inner (obs j)).
Context (Hlayers : layers_repr (disk (obs j)) (table_layers i0) ls) (Hmany : zlen ls < U64_MAX - 1).
Abbreviation A := (contents i0 ls).

(** The cursors of the layers that have records; [ss] are the keys they still offer. *)
Inductive cursors_repr (l : list bytes) : nat -> list LayerSpec -> list (nat * TableScanCursor) -> list (list bytes) -> Prop :=
| cursors_nil index : cursors_repr l index [] [] []
| cursors_skip index s specs cs ss :
    ls_map s = ∅ -> cursors_repr l (S index) specs cs ss -> cursors_repr l index (s :: specs) cs ss
| cursors_cons index s specs layer c rem cs ss :
    table_layers i0 !! index = Some layer -> cursor_repr layer lower upper (negb co) c rem ->
    tc_priority c = Z.of_nat index + 1 -> (forall e, e ∈ rem -> ls_map s !! e.1 = Some e.2) ->
    (forall k, k ∈ l -> is_Some (ls_map s !! k) -> k ∈ List.filter (below upper) rem.*1) ->
    cursors_repr l (S index) specs cs ss ->
    cursors_repr l index (s :: specs) ((index, c) :: cs) (List.filter (below upper) rem.*1 :: ss).

Lemma cursors_sources l index specs cs ss :
  cursors_repr l index specs cs ss -> Forall2 (source upper) ((fun c => sr_key <$> cursor_head c.2) <$> cs) ss.
Proof.
  induction 1 as [|index s specs cs ss _ _ IH|index s specs layer c rem cs ss _ Hc _ _ _ _ IH]; [constructor|done|]. constructor; [|done].
  by apply (cursor_source layer lower upper (negb co)).
Qed.

Lemma advance_cursors_repr sn l index specs cs ss k :
  sn_layers sn = table_layers i0 -> sn_lower sn = lower -> sn_upper sn = upper -> below upper k = true -> k ∉ l ->
  cursors_repr (k :: l) index specs cs ss ->
  exists cs', advance_cursors sn k cs = Ok cs' /\ cursors_repr l index specs cs' (pop k <$> ss).
Proof.
  intros Hl Hlo Hup Hk Hnin. induction 1 as [index|index s specs cs ss He _ IH|index s specs layer c rem cs ss Hlay Hc Hp Hval Hcomp _ IH].
  - exists []. split; [done|constructor].
  - destruct IH as (cs'&->&Hcs). exists cs'. split; [done|by constructor].
  - destruct IH as (cs'&Hrun&Hcs). cbn [advance_cursors]. destruct (cursor_source _ _ _ _ _ _ Hc) as [Hsrc Hhead].
    assert (Hnext : forall s' : list bytes, (forall x, x ∈ List.filter (below upper) rem.*1 -> x <> k -> x ∈ s') ->
      forall x, x ∈ l -> is_Some (ls_map s !! x) -> x ∈ s').
    { intros s' Hs' x Hx Hsome. apply Hs'; [apply Hcomp; [by right|done]|]. by intros ->. }
    case_bool_decide as Hh.
    + rewrite Hl, Hlay, Hlo, Hup. run. destruct (cursor_head c) as [r|] eqn:Hr; [|done]. destruct (Hhead r eq_refl) as (e&rem0&->&->).
      clear Hhead. rename rem0 into rem. injection Hh as He. cbn in He.
      destruct (advance_cursor_repr _ _ _ _ _ _ _ _ Hc Hr) as (c'&->&Hpr&rem'&Hrem'&Hf&Hin). run. rewrite Hrun. run.
      eexists. split; [done|]. rewrite fmap_cons.
      assert (Hpop : pop k (List.filter (below upper) (e :: rem).*1) = List.filter (below upper) rem'.*1).
      { rewrite Hf, fmap_cons, He. symmetry. by apply pop_filter. }
      change (list_fmap entry bytes fst (e :: rem)) with ((e :: rem).*1). rewrite Hpop. econstructor; [exact Hlay|exact Hrem'|congruence| | |exact Hcs].
      * intros x Hx. apply Hval. right. by apply Hin.
      * apply Hnext. rewrite Hf. intros x Hx Hne. cbn [fmap list_fmap List.filter] in Hx. rewrite He, Hk in Hx.
        by apply elem_of_cons in Hx as [->|Hx].
    + run. rewrite Hrun. run. eexists. split; [done|]. rewrite fmap_cons, pop_other.
      * econstructor; [exact Hlay|exact Hc|done|done| |exact Hcs]. apply Hnext. done.
      * intros Hx. apply Hh. by apply (source_head _ _ _ k Hsrc Hk).
Qed.

(** The cursors' part of the selection. *)
Lemma select_cursors l k index specs cs ss sel o :
  cursors_repr (k :: l) index specs cs ss -> below upper k = true -> (forall s x, s ∈ ss -> x ∈ s -> key_le k x) ->
  selects co sel o (Z.of_nat index) ->
  selects co (foldl (select co k) sel ((fun c => (fun r => (tc_priority c.2, r)) <$> cursor_head c.2) <$> cs))
    (layer_value o specs k) (Z.of_nat (index + length specs)).
Proof.
  intros Hc Hk Hmin. revert sel o. induction Hc as [index|index s specs cs ss He _ IH|index s specs layer c rem cs ss Hlay Hc Hp Hval Hcomp _ IH];
    intros sel o Hsel; cbn [length fmap list_fmap foldl layer_value].
  - by rewrite Nat.add_0_r.
  - rewrite He, lookup_empty. replace (index + S (length specs))%nat with (S index + length specs)%nat by lia.
    apply IH; [done|]. eapply selects_weaken; [done|lia].
  - destruct (cursor_source _ _ _ _ _ _ Hc) as [Hsrc Hhead]. replace (index + S (length specs))%nat with (S index + length specs)%nat by lia.
    apply IH; [intros s' x Hs'; apply Hmin; by right|]. cbn [snd]. destruct (ls_map s !! k) as [x|] eqn:Hx.
    + assert (Hkin : k ∈ List.filter (below upper) rem.*1) by (apply Hcomp; [left|by eexists]).
      assert (Hheadk : head (List.filter (below upper) rem.*1) = Some k).
      { apply min_head; [by destruct Hsrc|intros y; apply Hmin; left|done]. }
      apply (source_head _ _ _ k Hsrc Hk) in Hheadk. destruct (cursor_head c) as [r|]; [|done]. destruct (Hhead r eq_refl) as (e&rem0&->&->).
      injection Hheadk as He. cbn in He. cbn [fmap option_fmap option_map].
      specialize (Hval e ltac:(left)). rewrite He, Hx in Hval. injection Hval as ->.
      destruct (select_newer co k sel o (Z.of_nat index) (tc_priority c) (scan_record (negb co) e) (e.2)) as (live&v&->&Hsel'); [done|lia|done| | |].
      * cbn. destruct (negb co); [done|]. by destruct (e.2).
      * intros ->. done.
      * eapply selects_weaken; [done|lia].
    + rewrite select_other; [eapply selects_weaken; [done|lia]|]. intros p r Hr Hrk. destruct (cursor_head c) as [r'|]; [|done].
      injection Hr as <- ->. destruct (Hhead r eq_refl) as (e&rem0&->&->). cbn in Hrk.
      specialize (Hval e ltac:(left)). congruence.
Qed.

(** What is left of a memory table, as its chunk offers it. *)
Definition memory_repr {V} (m : bmap V) (value : V -> option bytes) (priority : Z) (l : list bytes) (ck : Chunk) (index : nat) (s : list bytes) : Prop :=
  exists rem, chunk_repr m value priority lower upper ck index rem /\ s = rem.*1 /\ forall k, k ∈ l -> is_Some (m !! k) -> k ∈ s.

(** The chunk has its next record at hand. *)
Definition at_hand (ck : Chunk) (index : nat) : Prop := (index =? length (ck_records ck))%nat && ck_has_more ck = false.

Record page_repr (s : PageState) (l : list bytes) : Prop := {
  pr_layers : sn_layers (ps_snapshot s) = table_layers i0;
  pr_lower : sn_lower (ps_snapshot s) = lower;
  pr_upper : sn_upper (ps_snapshot s) = upper;
  pr_generation : sn_generation (ps_snapshot s) = generation obs j;
  pr_locks : (j <= ps_locks s)%nat;
  pr_sources : exists s1 s2 ss,
    memory_repr (state i0) (fun value => Some (kept_value co value)) STATE_PRIORITY l (sn_state (ps_snapshot s)) (ps_state_index s) s1 /\
    memory_repr (pending_table i0) (fun value => kept_value co <$> value) PENDING_PRIORITY l (sn_pending (ps_snapshot s)) (ps_pending_index s) s2 /\
    cursors_repr l 0 ls (ps_cursors s) ss /\ merged l (s1 :: s2 :: ss);
}.

Lemma memory_source {V} (m : bmap V) value priority l ck index s :
  memory_repr m value priority l ck index s -> at_hand ck index -> source upper (sr_key <$> ck_records ck !! index) s.
Proof.
  intros (rem&Hc&->&_) Hat. rewrite (chunk_head _ _ _ _ _ _ _ _ Hc Hat). destruct (chunk_rem _ _ _ _ _ _ _ _ Hc) as (Hs&Hb&_).
  split_and!; [done|done|]. by destruct rem.
Qed.

Lemma memory_advance {V} (m : bmap V) value priority l ck index s k :
  memory_repr m value priority (k :: l) ck index s -> at_hand ck index -> below upper k = true -> k ∉ l ->
  memory_repr m value priority l ck (if bool_decide (sr_key <$> ck_records ck !! index = Some k) then S index else index) (pop k s).
Proof.
  intros Hm Hat Hk Hnin. pose proof (memory_source _ _ _ _ _ _ _ Hm Hat) as Hsrc. destruct Hm as (rem&Hc&->&Hcomp).
  pose proof (chunk_head _ _ _ _ _ _ _ _ Hc Hat) as Hh. case_bool_decide as Hb.
  - destruct rem as [|e rem]; [by rewrite Hh in Hb|]. rewrite Hh in Hb. cbn in Hb. injection Hb as He.
    exists rem. cbn [fmap list_fmap pop]. rewrite bool_decide_true by done. split_and!; [|done|].
    + eapply chunk_advance; [exact Hc|]. rewrite Hh. by eexists.
    + intros x Hx Hsome. specialize (Hcomp x ltac:(by right) Hsome). cbn in Hcomp. apply elem_of_cons in Hcomp as [->|?]; congruence || done.
  - exists rem. rewrite pop_other; [split_and!; [done|done|]|].
    + intros x Hx. apply Hcomp. by right.
    + intros Hx. apply Hb. by apply (source_head _ _ _ k Hsrc Hk).
Qed.

(** The record of a memory table under the key. *)
Lemma memory_record {V} (m : bmap V) value priority l ck index s k :
  memory_repr m value priority (k :: l) ck index s -> at_hand ck index -> below upper k = true -> (forall x, x ∈ s -> key_le k x) ->
  match m !! k with
  | Some v => ck_records ck !! index = Some (mkScanRecord k (value v) priority)
  | None => forall r, ck_records ck !! index = Some r -> sr_key r <> k
  end.
Proof.
  intros Hm Hat Hk Hmin. pose proof (memory_source _ _ _ _ _ _ _ Hm Hat) as Hsrc. destruct Hm as (rem&Hc&->&Hcomp).
  pose proof (chunk_head _ _ _ _ _ _ _ _ Hc Hat) as Hh. destruct (chunk_rem _ _ _ _ _ _ _ _ Hc) as (Hs&_&Hval).
  destruct (m !! k) as [v|] eqn:Hv.
  - assert (Hhead : head rem.*1 = Some k) by (apply min_head; [done|done|apply Hcomp; [left|by eexists]]).
    destruct rem as [|e rem]; [done|]. injection Hhead as He. rewrite Hh. cbn. specialize (Hval e ltac:(left)). rewrite He, Hv in Hval.
    injection Hval as Hval. unfold to_record. by rewrite He, <-Hval.
  - intros r Hr Hrk. rewrite Hh in Hr. destruct rem as [|e rem]; [done|]. injection Hr as <-. cbn in Hrk. specialize (Hval e ltac:(left)). congruence.
Qed.

(** A memory table is refilled from the database as it was, if it is refilled. *)
Lemma memory_refill {V} (m : bmap V) value priority l ck index s (needed : bool) :
  memory_repr m value priority l ck index s -> needed = ((index =? length (ck_records ck))%nat && ck_has_more ck) ->
  exists ck' index',
    (if needed then c ← capture_durable_memtable_chunk m lower upper (ck_after ck) priority value; Ok (c, 0%nat) else Ok (ck, index)) = Ok (ck', index') /\
    memory_repr m value priority l ck' index' s /\ at_hand ck' index'.
Proof.
  intros (rem&Hc&Hs&Hcomp) Hn. destruct needed.
  - symmetry in Hn. apply andb_true_iff in Hn as [Hi%Nat.eqb_eq Hm]. destruct (refill_repr _ _ _ _ _ _ _ _ Hc Hi Hm) as (ck'&->&Hck').
    exists ck', 0%nat. split_and!; [done|by exists rem|by eapply chunk_fresh].
  - exists ck, index. split_and!; [done|by exists rem|done].
Qed.

Lemma refill_page s l :
  page_repr s l ->
  (refill obs co s = Ok None /\ generation obs (ps_locks s) <> generation obs j) \/
  exists s', refill obs co s = Ok (Some s') /\ page_repr s' l /\
    at_hand (sn_state (ps_snapshot s')) (ps_state_index s') /\ at_hand (sn_pending (ps_snapshot s')) (ps_pending_index s') /\
    ps_entries s' = ps_entries s /\ ps_counted s' = ps_counted s /\ ps_skipped s' = ps_skipped s /\ (ps_locks s <= ps_locks s')%nat.
Proof.
  intros [Hlay Hlo Hup Hgen Hlocks (s1&s2&ss&H1&H2&Hcs&Hm)]. unfold refill. cbv zeta.
  set (r1 := _ && ck_has_more (sn_state _)). set (r2 := _ && ck_has_more (sn_pending _)). destruct (r1 || r2) eqn:Hr; cbn [negb].
  2: { right. apply orb_false_iff in Hr as [Hr1 Hr2]. exists s. split_and!; try done. by split; try done; exists s1, s2, ss. }
  fold (generation obs (ps_locks s)). rewrite Hgen. destruct (Z.eqb_spec (generation obs (ps_locks s)) (generation obs j)) as [Heq|Hne]; cbn [negb]; [|by left].
  right. destruct (gd_same _ Hguard _ _ Heq) as [Hst Hpe]. unfold capture_state, capture_pending. rewrite Hst, Hpe, Hlo, Hup.
  destruct (memory_refill _ _ _ _ _ _ _ r1 H1 eq_refl) as (ck1&x1&->&H1'&Hat1). run.
  destruct (memory_refill _ _ _ _ _ _ _ r2 H2 eq_refl) as (ck2&x2&->&H2'&Hat2). run.
  eexists. split_and!; [done| |exact Hat1|exact Hat2|done|done|done|cbn; lia].
  split; cbn; try done; [lia|]. by exists s1, s2, ss.
Qed.

(** The heads of the sources, and what a key's records say. *)
Lemma page_heads s l :
  page_repr s l -> at_hand (sn_state (ps_snapshot s)) (ps_state_index s) -> at_hand (sn_pending (ps_snapshot s)) (ps_pending_index s) ->
  match next_key ((sr_key <$> state_head s) :: (sr_key <$> pending_head s) :: ((fun c => sr_key <$> cursor_head c.2) <$> ps_cursors s)) with
  | Some k => if below upper k then exists l', l = k :: l' else l = []
  | None => l = []
  end.
Proof.
  intros [Hlay Hlo Hup Hgen Hlocks (s1&s2&ss&H1&H2&Hcs&Hm)] Hat1 Hat2.
  pose proof (merged_step upper ((sr_key <$> state_head s) :: (sr_key <$> pending_head s) :: ((fun c => sr_key <$> cursor_head c.2) <$> ps_cursors s))
    (s1 :: s2 :: ss) l) as Hstep.
  assert (Hsrc : Forall2 (source upper) ((sr_key <$> state_head s) :: (sr_key <$> pending_head s) :: ((fun c => sr_key <$> cursor_head c.2) <$> ps_cursors s)) (s1 :: s2 :: ss)).
  { apply Forall2_cons. split; [by eapply memory_source|]. apply Forall2_cons. split; [by eapply memory_source|]. by eapply cursors_sources. }
  specialize (Hstep Hsrc Hm). destruct (next_key _) as [k|]; [|done]. destruct (below upper k); [|done]. destruct Hstep as (l'&->&_). by exists l'.
Qed.

Lemma merged_min k l ss s x : merged (k :: l) ss -> s ∈ ss -> x ∈ s -> key_le k x.
Proof. intros [Hs Hl] Hin Hx. apply (sorted_head_le l); [done|]. apply Hl. by exists s. Qed.

Lemma selected_contents s l k :
  page_repr s (k :: l) -> at_hand (sn_state (ps_snapshot s)) (ps_state_index s) -> at_hand (sn_pending (ps_snapshot s)) (ps_pending_index s) ->
  below upper k = true -> selects co (selected_record co s k) (memory_layer_value i0 ls k) U64_MAX.
Proof.
  intros [Hlay Hlo Hup Hgen Hlocks (s1&s2&ss&H1&H2&Hcs&Hm)] Hat1 Hat2 Hk. unfold selected_record, memory_layer_value. cbn [foldl].
  pose proof (memory_record _ _ _ _ _ _ _ _ H1 Hat1 Hk ltac:(intros x; eapply merged_min; [exact Hm|left])) as Hr1.
  pose proof (memory_record _ _ _ _ _ _ _ _ H2 Hat2 Hk ltac:(intros x; eapply merged_min; [exact Hm|right; left])) as Hr2.
  fold (state_head s) in Hr1. fold (pending_head s) in Hr2.
  assert (Hsc : forall sel o, selects co sel o 0 ->
    selects co (foldl (select co k) sel ((fun c => (fun r => (tc_priority c.2, r)) <$> cursor_head c.2) <$> ps_cursors s)) (layer_value o ls k) U64_MAX).
  { intros sel o Hsel. eapply selects_weaken; [eapply (select_cursors l k 0); [exact Hcs|done|intros s' x Hs'; eapply merged_min; [exact Hm|by right; right]|done]|]. lia. }
  assert (Hhigh : forall q live v, U64_MAX - 1 <= q ->
    foldl (select co k) (Some (q, live, v)) ((fun c => (fun r => (tc_priority c.2, r)) <$> cursor_head c.2) <$> ps_cursors s) = Some (q, live, v)).
  { intros q live v Hq. assert (Hidx : zlen ls + Z.of_nat 0 < U64_MAX - 1) by lia. clear -Hcs Hidx Hq.
    generalize dependent 0%nat. intros idx Hcs Hidx. induction Hcs as [|index sp specs cs ss _ _ IH|index sp specs layer c rem cs ss _ _ Hp _ _ _ IH]; [done| |].
    - apply IH. cbn [length] in Hidx. lia.
    - cbn [fmap list_fmap foldl snd length] in *. destruct (cursor_head c) as [r|]; cbn [fmap option_fmap option_map]; [|cbn [select]; apply IH; lia].
      unfold select at 2. destruct (Z.ltb_spec q (tc_priority c)); [lia|]. rewrite andb_false_r. apply IH. lia. }
  assert (H0 : selects co None None 0) by done.
  assert (Hlive : forall x : option bytes, bool_decide (is_Some (kept_value co <$> x)) = bool_decide (is_Some x)) by (by intros [x|]).
  assert (Hkept : forall x : option bytes, co = false -> kept_value co <$> x = x) by (by intros [x|] ->).
  assert (Hstate : exists sel, select co k None ((fun r => (sr_priority r, r)) <$> state_head s) = sel /\
    selects co sel (match state i0 !! k with Some v => Some (Some v) | None => None end) STATE_PRIORITY /\
    match sel with Some (q, _, _) => q = STATE_PRIORITY | None => state i0 !! k = None end).
  { eexists. split; [done|]. destruct (state i0 !! k) as [v|].
    - rewrite Hr1. cbn [fmap option_fmap option_map sr_priority].
      destruct (select_newer co k None None 0 STATE_PRIORITY (mkScanRecord k (Some (kept_value co v)) STATE_PRIORITY) (Some v)) as (live&w&->&Hsel);
        [done|done|done|done|by intros ->|done].
    - rewrite select_other; [done|]. intros p r. destruct (state_head s); [|done]. intros [= <- <-]. by apply Hr1. }
  destruct Hstate as (sel1&->&Hsel1&Hq1). destruct (pending_table i0 !! k) as [v|].
  - rewrite Hr2. cbn [fmap option_fmap option_map sr_priority].
    destruct (select_newer co k sel1 _ STATE_PRIORITY PENDING_PRIORITY (mkScanRecord k (kept_value co <$> v) PENDING_PRIORITY) v Hsel1) as (live&w&->&Hsel);
      [done|done|apply Hlive|apply Hkept|]. rewrite Hhigh by (unfold PENDING_PRIORITY; lia). exact Hsel.
  - rewrite select_other.
    2: { intros p r. destruct (pending_head s); [|done]. intros [= <- <-]. by apply Hr2. }
    destruct (state i0 !! k) as [v|]; destruct sel1 as [[[q live] w]|]; try done.
    + subst q. rewrite Hhigh by (unfold STATE_PRIORITY; lia). eapply selects_weaken; [exact Hsel1|]. unfold STATE_PRIORITY. lia.
    + by apply Hsc.
Qed.

(** Past a key: every cursor under it moves on. *)
Lemma advance_page s l k :
  page_repr s (k :: l) -> at_hand (sn_state (ps_snapshot s)) (ps_state_index s) -> at_hand (sn_pending (ps_snapshot s)) (ps_pending_index s) ->
  below upper k = true ->
  exists cs, advance_cursors (ps_snapshot s) k (ps_cursors s) = Ok cs /\ page_repr (advance_memory s k cs) l.
Proof.
  intros [Hlay Hlo Hup Hgen Hlocks (s1&s2&ss&H1&H2&Hcs&Hm)] Hat1 Hat2 Hk.
  assert (Hnin : k ∉ l).
  { intros Hin. destruct Hm as [[_ Hall]%StronglySorted_inv _]. rewrite Forall_forall in Hall. by apply (key_lt_irrefl k), Hall. }
  destruct (advance_cursors_repr _ _ _ _ _ _ k Hlay Hlo Hup Hk Hnin Hcs) as (cs&Hrun&Hcs'). exists cs. split; [done|].
  split; cbn; try done. exists (pop k s1), (pop k s2), (pop k <$> ss). split_and!; [by apply memory_advance..|done|].
  apply (merged_pop k l (s1 :: s2 :: ss)); [done|]. constructor; [by apply (memory_source _ _ _ _ _ _ _ H1 Hat1)|].
  constructor; [by apply (memory_source _ _ _ _ _ _ _ H2 Hat2)|].
  pose proof (cursors_sources _ _ _ _ _ Hcs) as Hsrc. clear -Hsrc. induction Hsrc as [|h s' hs ss' [Hs _] _ IH]; [by apply Forall_nil|by apply Forall_cons].
Qed.

(** The entries emitted so far, as the page or the count holds them. *)
Definition page_out (s : PageState) (out : list (bytes * bytes)) : Prop :=
  if co then ps_entries s = [] /\ ps_counted s = zlen out else ps_entries s = out.

Lemma emit_record_repr s l u v : page_repr s l -> page_repr (emit_record b co s u v) l.
Proof.
  intros [H1 H2 H3 H4 H5 H6].
  assert (Hsame : forall s', ps_snapshot s' = ps_snapshot s -> ps_state_index s' = ps_state_index s -> ps_pending_index s' = ps_pending_index s ->
    ps_cursors s' = ps_cursors s -> ps_locks s' = ps_locks s -> page_repr s' l).
  { intros s' E1 E2 E3 E4 E5. split; rewrite ?E1, ?E2, ?E3, ?E4, ?E5; done. }
  apply Hsame; unfold emit_record; case (_ <? _); case co; done.
Qed.

Lemma moved_on n : (j <= n)%nat -> generation obs n <> generation obs j -> generation obs (S n) <> generation obs j.
Proof.
  intros Hle Hne Heq. pose proof (gd_mono _ Hguard j n Hle). pose proof (gd_mono _ Hguard n (S n) ltac:(lia)). lia.
Qed.

(** What a key does to the page, next to what it does to the abstract emission. *)
Lemma emit_selected s l k out :
  page_repr s (k :: l) -> at_hand (sn_state (ps_snapshot s)) (ps_state_index s) -> at_hand (sn_pending (ps_snapshot s)) (ps_pending_index s) ->
  below upper k = true -> page_out s out -> zlen out < U64_MAX ->
  let s' := match selected_record co s k, scan_match ns b k with
            | Some (_, true, value), Some user_key => emit_record b co s user_key value
            | _, _ => s
            end in
  page_repr s' (k :: l) /\ ps_snapshot s' = ps_snapshot s /\ ps_state_index s' = ps_state_index s /\ ps_pending_index s' = ps_pending_index s /\
  ps_cursors s' = ps_cursors s /\ ps_locks s' = ps_locks s /\
  match visible_entry ns b A k with
  | None => s' = s
  | Some e => if ps_skipped s <? sb_offset b then ps_skipped s' = ps_skipped s + 1 /\ ps_entries s' = ps_entries s /\ ps_counted s' = ps_counted s
              else ps_skipped s' = ps_skipped s /\ page_out s' (out ++ [e]) /\ (co = false -> ps_entries s' = ps_entries s ++ [e])
  end.
Proof.
  intros Hs Hat1 Hat2 Hk Hout Hmax. cbv zeta. pose proof (selected_contents s l k Hs Hat1 Hat2 Hk) as Hsel.
  unfold visible_entry. rewrite contents_value. unfold selects in Hsel.
  destruct (memory_layer_value i0 ls k) as [x|], (selected_record co s k) as [[[p live] v]|]; try done.
  destruct Hsel as (->&->&_). cbn [mbind option_bind]. destruct x as [x|]; cbn [id mbind option_bind].
  2: { rewrite bool_decide_false by (by intros [? ?]). done. }
  rewrite bool_decide_true by eauto. destruct (scan_match ns b k) as [u|]; cbn [mbind option_bind]; [|done].
  split; [by apply emit_record_repr|]. unfold emit_record. destruct (ps_skipped s <? sb_offset b); [done|].
  unfold page_out in *. destruct co; cbn; split_and!; try done.
  - by destruct Hout.
  - destruct Hout as [_ ->]. rewrite length_app. cbn [length]. unfold u64_saturating_add. lia.
  - by rewrite Hout.
Qed.

Lemma page_loop_emits l : forall rounds s out,
  (length l < rounds)%nat -> page_repr s l -> page_out s out -> zlen out < limit -> limit <= U64_MAX -> (co = true -> zlen out + zlen l < limit) ->
  exists s', page_loop obs ns b limit co rounds s = Ok (s', None) /\ (ps_locks s <= ps_locks s')%nat /\
    (page_out s' (emit (visible_entry ns b A) (sb_offset b) (Some limit) l (ps_skipped s) out) \/
     generation obs (ps_locks s') <> generation obs j).
Proof.
  induction l as [|k l IH]; intros [|rounds] s out Hlen Hs Hout Hlim Hmax Hco; cbn [length] in Hlen; try lia; cbn [page_loop]; unfold page_round.
  all: assert (Hroom : (if co then ps_counted s <? limit else zlen (ps_entries s) <? limit) = true)
    by (unfold page_out in Hout; destruct co; [destruct Hout as [_ ->]|rewrite Hout]; by apply Z.ltb_lt).
  all: rewrite Hroom; cbn [negb]; destruct (refill_page s _ Hs) as [[-> Hgen]|(s1&->&Hs1&Hat1&Hat2&He&Hc&Hsk&Hlk)]; run;
    [eexists; split_and!; [done|cbn; lia|right; apply moved_on; [apply Hs|done]]|].
  all: assert (Hout1 : page_out s1 out) by (unfold page_out in *; by rewrite He, Hc).
  all: pose proof (page_heads s1 _ Hs1 Hat1 Hat2) as Hnext; rewrite <-(pr_upper _ _ Hs1) in Hnext; destruct (next_key _) as [k'|].
  - destruct (below _ k') eqn:Hb; [by destruct Hnext|]. cbn [negb]. run. exists s1. split_and!; [done|done|by left].
  - run. exists s1. split_and!; [done|done|by left].
  - destruct (below _ k') eqn:Hb; [|done]. destruct Hnext as (l'&[= <- <-]). cbn [negb].
    rewrite (pr_upper _ _ Hs1) in Hb.
    destruct (emit_selected s1 l k out Hs1 Hat1 Hat2 Hb Hout1 ltac:(lia)) as (Hs2&Hsn&Hi1&Hi2&Hcs&Hlk2&Hemit). set (s2 := match selected_record co s1 k with Some _ => _ | None => _ end) in *.
    assert (Hat : at_hand (sn_state (ps_snapshot s2)) (ps_state_index s2) /\ at_hand (sn_pending (ps_snapshot s2)) (ps_pending_index s2))
      by (by rewrite Hsn, Hi1, Hi2).
    destruct Hat as [Hat1' Hat2']. destruct (advance_page s2 l k Hs2 Hat1' Hat2' Hb) as (cs&Hadv&Hs3). rewrite Hsn in Hadv.
    assert (Hgo : forall out', page_out s2 out' -> zlen out' < limit -> (co = true -> zlen out' + zlen l < limit) ->
      exists s', page_loop obs ns b limit co rounds (advance_memory s2 k cs) = Ok (s', None) /\ (ps_locks s <= ps_locks s')%nat /\
        (page_out s' (emit (visible_entry ns b A) (sb_offset b) (Some limit) l (ps_skipped s2) out') \/ generation obs (ps_locks s') <> generation obs j)).
    { intros out' Ho Hl1 Hl2. destruct (IH rounds (advance_memory s2 k cs) out') as (s'&Hrun&Hle&Hres); [lia|done|done|done|done|done|].
      exists s'. split_and!; [done| |done]. cbn in Hle. rewrite Hlk2 in Hle. lia. }
    cbn [emit]. rewrite <-Hsk. destruct (visible_entry ns b A k) as [e|].
    + destruct (ps_skipped s1 <? sb_offset b).
      * destruct Hemit as (Hk1&Hk2&Hk3). unfold page_full. rewrite Hk2, Nat.ltb_irrefl, andb_false_r. cbn [andb]. rewrite Hadv. run.
        rewrite <-Hk1. apply Hgo; [unfold page_out in *; by rewrite Hk2, Hk3|done|]. intros ->. specialize (Hco eq_refl). cbn [length] in Hco. lia.
      * destruct Hemit as (Hk1&Hk2&Hk3). unfold page_full. destruct (Z.leb_spec limit (zlen (out ++ [e]))) as [Hfull|Hnot].
        -- destruct co eqn:Hcob; [specialize (Hco eq_refl); rewrite length_app in Hfull; cbn [length] in *; lia|]. cbn [negb andb].
           pose proof Hk2 as Hk2'. unfold page_out in Hk2, Hout1. rewrite Hcob in Hk2, Hout1. rewrite Hk2, Hout1, length_app. cbn [length].
           rewrite (proj2 (Nat.ltb_lt _ _)) by lia. rewrite length_app in Hfull. cbn [length] in Hfull. rewrite (proj2 (Z.leb_le _ _)) by lia. cbn [andb]. run.
           exists s2. split_and!; [done|lia|by left].
        -- assert (Hpf : negb co && (length (ps_entries s1) <? length (ps_entries s2))%nat && (limit <=? zlen (ps_entries s2)) = false).
           { unfold page_out in Hk2. destruct co eqn:Hcob; [done|]. rewrite ?Hcob in Hk2. rewrite Hk2. apply andb_false_iff. right. by apply Z.leb_gt. }
           rewrite Hpf, Hadv. run. rewrite <-Hk1. apply Hgo; [done|done|]. intros ->. specialize (Hco eq_refl). rewrite length_app. cbn [length] in *. lia.
    + rewrite Hemit in *. unfold page_full. rewrite Nat.ltb_irrefl, andb_false_r. cbn [andb]. rewrite Hadv. run. apply Hgo; [done|done|].
      intros ->. specialize (Hco eq_refl). cbn [length] in Hco. lia.
  - done.
Qed.
End attempt.

(** ** An attempt *)

Section whole_attempt.
Context `{Crc32} (obs : nat -> Db) (ns : bytes) (b : ScanBounds) (limit : Z) (co : bool) (j : nat) (ls : list LayerSpec).
Context (Hguard : guarded obs).
Abbreviation i0 := (inner (obs j)).
Context (Hmode : in_memory i0 = false).
Context (Hlayers : layers_repr (disk (obs j)) (table_layers i0) ls) (Hmany : zlen ls < U64_MAX - 1).
Abbreviation A := (contents i0 ls).
Context (Hns : bytes_ok ns) (Hkeys : forall k, is_Some (A !! k) -> bytes_ok k).
Context (Hoffset : 0 <= sb_offset b) (Hlimit : 0 < limit <= U64_MAX).
Context (Hcount : co = true -> Z.of_nat (page_rounds i0) < limit).

Abbreviation lower := (durable_scan_lower ns (sb_prefix b) (sb_start b)).
Abbreviation upper := (durable_scan_upper ns (sb_prefix b) (sb_end b)).
Abbreviation after := (not_before lower (excluded_start ns (sb_start b))).

Lemma region_elem_in k ks : in_region ns b k = true -> k ∈ ks -> k ∈ region lower upper after ks.
Proof. intros Hk Hin. by apply elem_of_filter_bool. Qed.

Lemma new_cursors_repr sn l layers specs index :
  sn_lower sn = lower -> sn_upper sn = upper -> sn_after sn = after -> (forall k, k ∈ l -> in_region ns b k = true) ->
  layers_repr (disk (obs j)) layers specs -> drop index (table_layers i0) = layers -> Z.of_nat index + zlen specs < U64_MAX - 1 ->
  exists cs ss, new_cursors co sn index layers = Ok cs /\ cursors_repr obs co j lower upper l index specs cs ss /\
    forall k, (exists s, s ∈ ss /\ k ∈ s) <-> exists s, s ∈ specs /\ k ∈ region lower upper after (btree_keys (ls_map s)).
Proof.
  intros Hlo Hup Haf Hl Hr. assert (Hstart : after = None \/ after = Some lower).
  { destruct after as [a|] eqn:Ha; [right|by left]. f_equal. by apply (start_after_lower ns b). }
  revert index. induction Hr as [|layer s layers specs [_ Hrep] _ IH]; intros index Hd Hidx.
  { exists [], []. split_and!; [done|constructor|]. intros k. split; intros (x&Hx&_); by apply elem_of_nil in Hx. }
  cbn [new_cursors length] in *. destruct (IH (S index) ltac:(by eapply drop_drop_S) ltac:(lia)) as (cs&ss&Hrun&Hcs&Hss).
  pose proof Hrep as (chunks&_&_&Hc&_&_&_&Hent&Hblk&_). destruct (decide (chunks = [])) as [->|Hne].
  - cbn in Hc, Hent, Hblk. rewrite Hblk, Hent. cbn. rewrite Hrun. exists cs, ss.
    assert (He : ls_map s = ∅). { apply map_eq. intros k. rewrite lookup_empty. destruct (ls_map s !! k) eqn:Hk; [|done].
      apply elem_of_btree_iter in Hk. rewrite <-Hc in Hk. by apply elem_of_nil in Hk. }
    split_and!; [done|by constructor|]. intros k. rewrite Hss. split; intros (x&Hx&Hk); exists x; (split; [|done]); [by right|].
    apply elem_of_cons in Hx as [->|Hx]; [|done]. rewrite He in Hk. unfold btree_keys in Hk. rewrite btree_iter_empty in Hk. by apply elem_of_nil in Hk.
  - assert (Hnb : tl_blocks layer <> []) by (rewrite Hblk; by destruct chunks). rewrite (bool_decide_false (tl_blocks layer = [])) by done. cbn [andb].
    rewrite Hlo, Hup, Haf.
    destruct (new_cursor_repr layer lower upper (negb co) _ _ _ (u64_saturating_add (Z.of_nat index) 1) after Hrep Hnb Hstart) as (c&->&Hp&rem&Hrem&Hf&Hval).
    run. rewrite Hrun. run. eexists _, _. split_and!; [done| |].
    + econstructor; [|exact Hrem| |exact Hval| |exact Hcs].
      * rewrite <-(Nat.add_0_r index), <-lookup_drop, Hd. done.
      * rewrite Hp. unfold u64_saturating_add. lia.
      * intros k Hk Hsome. rewrite Hf. apply region_elem_in; [by apply Hl|]. by apply elem_of_btree_keys.
    + intros k. rewrite Hf. split.
      * intros (x&Hx&Hk). apply elem_of_cons in Hx as [->|Hx]; [exists s; split; [left|done]|].
        destruct (proj1 (Hss k)) as (y&Hy&Hyk); [by exists x|]. exists y. split; [by right|done].
      * intros (x&Hx&Hk). apply elem_of_cons in Hx as [->|Hx]; [eexists; split; [left|done]|].
        destruct (proj2 (Hss k)) as (y&Hy&Hyk); [by exists x|]. exists y. split; [by right|done].
Qed.

Lemma region_count l :
  merged l (region lower upper after <$> btree_keys (state i0) :: btree_keys (pending_table i0) :: ((fun s => btree_keys (ls_map s)) <$> ls)) ->
  (length l < page_rounds i0)%nat.
Proof.
  intros Hl. unfold page_rounds. pose proof (merged_length _ _ Hl) as Hlen. pose proof (layers_records _ _ _ Hlayers) as Hrec.
  cbn [fmap list_fmap concat] in Hlen. rewrite !length_app in Hlen. pose proof (region_length lower upper after) as Hreg.
  pose proof (Hreg (btree_keys (state i0))) as H1. pose proof (Hreg (btree_keys (pending_table i0))) as H2.
  assert (Hsz : forall V (m : bmap V), length (btree_keys m) = size m) by (intros; unfold btree_keys; by rewrite length_fmap, length_btree_iter).
  rewrite !Hsz in *.
  assert (H3 : (length (concat (region lower upper after <$> ((fun s => btree_keys (ls_map s)) <$> ls)))
    <= length (concat ((fun s => btree_keys (ls_map s)) <$> ls)))%nat).
  { clear -Hreg. induction ls as [|s l' IH]; [done|]. cbn [fmap list_fmap concat]. rewrite !length_app.
    specialize (Hreg (btree_keys (ls_map s))). cbn in IH. lia. }
  cbn [fmap list_fmap] in H3. lia.
Qed.

(** One attempt: the page of the snapshot, or a database that has moved on. *)
Lemma page_attempt_spec locks :
  (j <= locks)%nat ->
  exists sn s, capture_durable_table_page i0 ns b co = Ok (Some sn) /\ sn_generation sn = generation obs j /\
    page_attempt obs ns b limit co (page_rounds i0) sn locks = Ok (s, None) /\ (locks <= ps_locks s)%nat /\
    (page_out co s (cut (Some limit) (drop (Z.to_nat (sb_offset b))
       (List.filter (fun e => matches_bounds b e.1) (btree_iter (keyspace_view ns A))))) \/
     generation obs (ps_locks s) <> generation obs j).
Proof.
  intros Hj. unfold capture_durable_table_page. rewrite Hmode. destruct (below upper lower) eqn:Hb; cbn [negb].
  2: { eexists _, _. split_and!; [done|done|..].
       - unfold page_attempt. cbn [sn_layers new_cursors]. unfold page_rounds. cbn [page_loop]. unfold page_round. cbn [ps_counted ps_entries length].
         assert (Hif : (if co then 0 <? limit else zlen (@nil (bytes * bytes)) <? limit) = true) by (case co; apply Z.ltb_lt; cbn; lia).
         cbn [length] in Hif. rewrite Hif. done.
       - cbn. lia.
       - left. rewrite <-(visible_entries ns b A []); [cbn [omap list_omap]; rewrite drop_nil; cbn; rewrite take_nil|done|done|constructor|].
         + unfold page_out. by case co.
         + intros k _ Hk. by rewrite outside_region in Hk. }
  pose proof (start_position ns b Hb) as Hpos. unfold capture_state, capture_pending.
  destruct (capture_repr (state i0) (fun value => Some (kept_value co value)) STATE_PRIORITY _ _ _ Hpos) as (ck1&->&Hck1). run.
  destruct (capture_repr (pending_table i0) (fun value => kept_value co <$> value) PENDING_PRIORITY _ _ _ Hpos) as (ck2&->&Hck2). run.
  destruct (merged_exists (region lower upper after <$> btree_keys (state i0) :: btree_keys (pending_table i0) :: ((fun s => btree_keys (ls_map s)) <$> ls))) as [l Hl].
  assert (Hreg : forall k, k ∈ l -> in_region ns b k = true).
  { intros k (s&Hs&Hk)%Hl. apply list_elem_of_fmap in Hs as (ks&->&_). by apply elem_of_filter_bool in Hk as [_ ?]. }
  set (sn := mkSnapshot ck1 ck2 (table_layers i0) lower upper after (state_generation i0)).
  destruct (new_cursors_repr sn l (table_layers i0) ls 0) as (cs&ss&Hnew&Hcs&Hss); [done|done|done|done|done|done|lia|].
  assert (Hrepr : page_repr obs co j ls lower upper (mkPageState sn 0 0 cs [] 0 0 locks) l).
  { split; cbn; try done. eexists _, _, ss. split_and!; [eexists; split_and!; [exact Hck1|done|]|eexists; split_and!; [exact Hck2|done|]|done|].
    - intros k Hk Hsome. unfold range_entries. rewrite (keys_filter (fun k => from_start lower after k && below upper k)).
      apply (region_elem_in k (btree_keys (state i0))); [by apply Hreg|by apply elem_of_btree_keys].
    - intros k Hk Hsome. unfold range_entries. rewrite (keys_filter (fun k => from_start lower after k && below upper k)).
      apply (region_elem_in k (btree_keys (pending_table i0))); [by apply Hreg|by apply elem_of_btree_keys].
    - unfold range_entries. rewrite !(keys_filter (fun k => from_start lower after k && below upper k)).
      destruct Hl as [Hsort Hl]. split; [done|]. intros k. rewrite Hl. cbn [fmap list_fmap]. split.
      + intros (s&[->|[->|Hs]%elem_of_cons]%elem_of_cons&Hk); [eexists; split; [left|exact Hk]|eexists; split; [right; left|exact Hk]|].
        apply list_elem_of_fmap in Hs as (ks&->&Hks). apply list_elem_of_fmap in Hks as (sp&->&Hsp).
        destruct (proj2 (Hss k)) as (s'&Hs'&Hk'); [by exists sp|]. exists s'. split; [by do 2 right|done].
      + intros (s&[->|[->|Hs]%elem_of_cons]%elem_of_cons&Hk); [eexists; split; [left|exact Hk]|eexists; split; [right; left|exact Hk]|].
        destruct (proj1 (Hss k)) as (sp&Hsp&Hk'); [by exists s|]. exists (region lower upper after (btree_keys (ls_map sp))). split; [|done].
        do 2 right. apply list_elem_of_fmap. exists (btree_keys (ls_map sp)). split; [done|]. by apply (list_elem_of_fmap_2 (fun s => btree_keys (ls_map s))). }
  pose proof (region_count l Hl) as Hrounds.
  destruct (page_loop_emits obs ns b limit co j ls lower upper Hguard Hmany l (page_rounds i0) (mkPageState sn 0 0 cs [] 0 0 locks) []) as (s&Hrun&Hle&Hres);
    [done|done|unfold page_out; by case co|cbn; lia|lia|intros Hc; specialize (Hcount Hc); cbn; lia|].
  exists sn, s. split_and!; [done|done|unfold page_attempt; cbn [sn_layers sn]; by rewrite Hnew|done|].
  destruct Hres as [Hres|Hres]; [left|by right]. cbn [ps_skipped] in Hres. rewrite emit_page in Hres by (done || lia).
  by rewrite (region_entries i0 ls ns b Hns Hkeys l Hl) in Hres.
Qed.
End whole_attempt.
