(* ===== verification/DScanGuard.v ===== *)
(** * ThingDB: the generation guards the memory tables

    Every operation of a durable database, whether it succeeds or fails, either leaves the
    memory tables as they are or raises the generation, so a scan that finds the generation
    of its snapshot unchanged has read from one state of the memory tables. *)

From S2P Require Import Prelude Wal Table Layer Database.

(** An operation moves the database only along the relation [R], however it ends. *)
Definition respects (R : Db -> Db -> Prop) {A} (m : M A) : Prop := forall db, R db (m db).2.

Section respects.
Context (R : Db -> Db -> Prop) `{!PreOrder R}.

Lemma respects_bind {A B} (m : M A) (f : A -> M B) : respects R m -> (forall a, respects R (f a)) -> respects R (m ≫= f).
Proof.
  intros Hm Hf db. specialize (Hm db). unfold mbind, M_bind. destruct (m db) as [[a|e] db1]; cbn in *; [|done].
  etransitivity; [exact Hm|]. apply Hf.
Qed.

Lemma respects_get {B} (f : Db -> M B) : (forall db, R db (f db db).2) -> respects R (get ≫= f).
Proof. intros Hf db. apply Hf. Qed.

Lemma respects_ret {A} (a : A) : respects R (mret a).
Proof. intros db. reflexivity. Qed.
Lemma respects_throw {A} text : respects R (@throw A text).
Proof. intros db. reflexivity. Qed.
Lemma respects_lift {A} (r : tdb_result A) : respects R (lift r).
Proof. intros db. reflexivity. Qed.
Lemma respects_read : respects R get.
Proof. intros db. reflexivity. Qed.
Lemma respects_attempt {A} (m : M A) : respects R m -> respects R (attempt m).
Proof. intros Hm db. specialize (Hm db). unfold attempt. by destruct (m db). Qed.
Lemma respects_when b m : respects R m -> respects R (when b m).
Proof. intros Hm. destruct b; [done|apply respects_ret]. Qed.
Lemma respects_modify f : (forall db, R db (mkDb (f (inner db)) (disk db))) -> respects R (modify f).
Proof. intros Hf db. apply Hf. Qed.
Lemma respects_modify_disk f : (forall db, R db (mkDb (inner db) (f (disk db)))) -> respects R (modify_disk f).
Proof. intros Hf db. apply Hf. Qed.
End respects.

Create HintDb respects.
#[export] Hint Resolve respects_ret respects_throw respects_lift respects_read respects_attempt respects_when : respects.

(** ** What an operation leaves in place *)

Record same_generation (db db' : Db) : Prop := {
  sg_mode : in_memory (inner db') = in_memory (inner db);
  sg_generation : state_generation (inner db') = state_generation (inner db);
}.

Record quiet (db db' : Db) : Prop := {
  qu_same : same_generation db db';
  qu_state : state (inner db') = state (inner db);
  qu_pending : pending_table (inner db') = pending_table (inner db);
}.

(** A durable database stays durable and its generation does not decrease; below the
    largest generation, an unchanged generation means unchanged memory tables. *)
Record evolves (db db' : Db) : Prop := {
  ev_mode : in_memory (inner db) = false -> in_memory (inner db') = false;
  ev_mono : in_memory (inner db) = false -> state_generation (inner db) <= U64_MAX ->
    state_generation (inner db) <= state_generation (inner db') <= U64_MAX;
  ev_same : in_memory (inner db) = false -> state_generation (inner db') < U64_MAX -> state_generation (inner db) = state_generation (inner db') ->
    state (inner db') = state (inner db) /\ pending_table (inner db') = pending_table (inner db);
}.

#[export] Instance same_generation_preorder : PreOrder same_generation.
Proof. split; [done|]. intros x y z [] []. split; congruence. Qed.
#[export] Instance quiet_preorder : PreOrder quiet.
Proof. split; [done|]. intros x y z [] []. split; [by etransitivity|congruence..]. Qed.

Lemma db_evolves_refl db : evolves db db.
Proof. by split. Qed.

Lemma db_evolves_trans x y z : state_generation (inner x) <= U64_MAX -> evolves x y -> evolves y z -> evolves x z.
Proof.
  intros Hx [M1 G1 S1] [M2 G2 S2]. split; [auto| |].
  - intros Hm _. specialize (G1 Hm Hx). specialize (G2 (M1 Hm) ltac:(lia)). lia.
  - intros Hm Hz Heq. specialize (G1 Hm Hx). specialize (G2 (M1 Hm) ltac:(lia)).
    destruct (S1 Hm ltac:(lia) ltac:(lia)) as [E1 E2]. destruct (S2 (M1 Hm) ltac:(lia) ltac:(lia)) as [E3 E4]. split; congruence.
Qed.

(** The same on generations in range, as a preorder. *)
Definition evolution (db db' : Db) : Prop :=
  state_generation (inner db) <= U64_MAX -> state_generation (inner db') <= U64_MAX /\ evolves db db'.

#[export] Instance evolution_preorder : PreOrder evolution.
Proof.
  split; [by intros x Hx; split; [|apply db_evolves_refl]|]. intros x y z Hxy Hyz Hx. destruct (Hxy Hx) as [Hy E1]. destruct (Hyz Hy) as [Hz E2].
  split; [done|by eapply db_evolves_trans].
Qed.

Lemma quiet_evolution db db' : quiet db db' -> evolution db db'.
Proof. intros [[Hm Hg] Hs Hp] Hx. rewrite Hg. split; [done|]. split; rewrite ?Hm, ?Hg; done. Qed.

(** A generation that is raised in the end. *)
Lemma bump_evolution db db1 db' :
  same_generation db db1 -> quiet (mkDb (bump_generation (inner db1)) (disk db1)) db' -> evolution db db'.
Proof.
  intros [Hm Hg] [[Hm' Hg'] _ _] Hx. cbn in Hm', Hg'. unfold u64_saturating_add in Hg'.
  split; [rewrite Hg'; lia|]. split; [congruence|rewrite Hg', Hg; intros; lia|]. rewrite Hg', Hg. intros _ H1 H2. exfalso. lia.
Qed.

Lemma respects_impl (R S : Db -> Db -> Prop) {A} (m : M A) : (forall x y, R x y -> S x y) -> respects R m -> respects S m.
Proof. intros HRS Hm db. apply HRS, Hm. Qed.

(** Split an operation into its parts; a modification is checked on the spot. *)
Ltac respects_step :=
  lazymatch goal with
  | |- respects _ (_ ≫= _) => apply respects_bind; [typeclasses eauto| |intros ?]
  | |- respects _ (match ?x with _ => _ end) => destruct x
  | |- respects _ (modify _) => apply respects_modify; by intros []
  | |- respects _ (modify_disk _) => apply respects_modify_disk; by intros []
  | |- respects _ (when _ _) => apply respects_when; [typeclasses eauto|]
  | |- respects _ (attempt _) => apply respects_attempt
  | |- respects _ _ => solve [auto with respects typeclass_instances]
  end.

Section operations.
Context `{Crc32} `{ManifestCodec}.

Lemma quiet_maybe_fail point fault : respects quiet (maybe_fail point fault).
Proof. unfold maybe_fail. repeat respects_step. Qed.
Lemma quiet_require_wal : respects quiet require_wal.
Proof. unfold require_wal. repeat respects_step. Qed.
Lemma quiet_write_table_file path seq entries : respects quiet (write_table_file path seq entries).
Proof. unfold write_table_file. repeat respects_step. Qed.
Lemma quiet_fs_rename from to : respects quiet (fs_rename from to).
Proof. unfold fs_rename. repeat respects_step. Qed.
Hint Resolve quiet_maybe_fail quiet_require_wal quiet_write_table_file quiet_fs_rename : respects.
Lemma quiet_write_manifest m fault : respects quiet (write_manifest m fault).
Proof. unfold write_manifest. repeat respects_step. Qed.
Lemma quiet_wal_set_len n : respects quiet (wal_set_len n).
Proof. unfold wal_set_len. repeat respects_step. Qed.
Lemma quiet_wal_write_all buffer : respects quiet (wal_write_all buffer).
Proof. unfold wal_write_all. repeat respects_step. Qed.
Hint Resolve quiet_write_manifest quiet_wal_set_len quiet_wal_write_all : respects.

Lemma quiet_same {A} (m : M A) : respects quiet m -> respects same_generation m.
Proof. apply respects_impl. by intros x y []. Qed.
Lemma quiet_evolves {A} (m : M A) : respects quiet m -> respects evolution m.
Proof. apply respects_impl, quiet_evolution. Qed.

Ltac from_quiet := first [apply quiet_same | apply quiet_evolves]; solve [auto with respects typeclass_instances].
Ltac respects_go := repeat first [respects_step | from_quiet].

(** Only the last part of a flush, with the failure it may have caught, touches the
    memory tables; the generation is raised in every case. *)
Lemma flush_body_same updates fault : respects same_generation (flush_body updates fault).
Proof. unfold flush_body. respects_go. Qed.

Lemma flush_evolves fault : respects evolution (flush_table_locked fault).
Proof.
  intros db. unfold flush_table_locked. rewrite (M_bind_Ok get _ db db db eq_refl).
  destruct (recovery_required (inner db)); [reflexivity|].
  case_bool_decide; [apply quiet_evolution, quiet_require_wal|].
  set (updates := pending_table (inner db)). set (bytes := pending_table_bytes (inner db)).
  pose proof (flush_body_same updates fault (mkDb (set_pending (inner db) ∅ (pending_table_bytes (inner db))) (disk db))) as Hbody.
  destruct (flush_body updates fault _) as [r db1] eqn:Hrun. cbn [snd] in Hbody.
  rewrite (M_bind_Ok (modify _) _ db () (mkDb (set_pending (inner db) ∅ (pending_table_bytes (inner db))) (disk db)) eq_refl).
  rewrite (M_bind_Ok _ _ _ _ _ (attempt_run _ _ _ _ Hrun)).
  destruct Hbody as [Hm Hg]. cbn in Hm, Hg. destruct r as [u|e]; cbn.
  - apply (bump_evolution db db1); [by split|reflexivity].
  - apply (bump_evolution db (mkDb (set_pending (inner db1) updates bytes) (disk db1))); [by split|reflexivity].
Qed.

(** From a step that raises the generation on, nothing touches the memory tables. *)
Lemma respects_publish (f : Inner -> Inner) {A} (m : M A) :
  (forall i, in_memory (f i) = in_memory i /\ state_generation (f i) = state_generation i) -> respects quiet m ->
  respects evolution (modify (fun i => bump_generation (f i)) ;; m).
Proof.
  intros Hf Hm db. unfold mbind, M_bind. cbn. destruct (Hf (inner db)) as [H1 H2].
  apply (bump_evolution db (mkDb (f (inner db)) (disk db))); [by split|]. apply Hm.
Qed.

Lemma respects_same {A} (R : Db -> Db -> Prop) (m m' : M A) : (forall db, m db = m' db) -> respects R m' -> respects R m.
Proof. intros Heq Hm db. rewrite Heq. apply Hm. Qed.

Lemma compact_evolves fault : respects evolution (compact_tables_locked fault).
Proof.
  unfold compact_tables_locked. repeat lazymatch goal with
    | |- respects _ (modify (fun i => set_state i ∅) ≫= _) => fail
    | _ => first [respects_step | from_quiet]
    end.
  eapply respects_same; [|apply (respects_publish (fun i => set_pending (set_state i ∅) ∅ 0)); [by intros []|]]; [intros db; reflexivity|respects_go].
Qed.

Lemma maintain_evolves requests io : respects evolution (maintain requests io).
Proof.
  unfold maintain, schedule_background_flush. pose proof flush_evolves as Hf. pose proof compact_evolves as Hc.
  repeat first [apply Hf | apply Hc | respects_step | from_quiet].
Qed.

Lemma apply_requests_same requests i :
  in_memory (apply_requests i requests) = in_memory i /\ state_generation (apply_requests i requests) = state_generation i.
Proof. unfold apply_requests. by destruct (foldl _ _ _) as [[st p] n]. Qed.

Lemma apply_group_evolves requests seq gen next size io : respects evolution (apply_group requests seq gen next size io).
Proof.
  unfold apply_group, check_unchanged. apply respects_bind; [typeclasses eauto|respects_go|intros _].
  apply respects_bind; [typeclasses eauto|respects_go|intros _].
  apply (respects_same _ _ ((modify (fun i => bump_generation (set_sequence (apply_requests i requests) (u64_saturating_sub next 1))) ;;
    modify (fun i => set_journal i (journal_bytes i) (u64_saturating_add (frame_count i) size))) ;; maintain requests io)); [intros db; reflexivity|].
  apply respects_bind; [typeclasses eauto| |intros _; apply maintain_evolves].
  apply (respects_publish (fun i => set_sequence (apply_requests i requests) (u64_saturating_sub next 1))).
  - intros i. apply (apply_requests_same requests i).
  - respects_go.
Qed.

Lemma execute_group_evolves requests seq gen start file size io :
  respects evolution (execute_group requests seq gen start file size io).
Proof.
  unfold execute_group, check_unchanged. pose proof apply_group_evolves as Ha.
  repeat first [apply Ha | respects_step | from_quiet].
Qed.

Lemma memory_evolution db db' : in_memory (inner db) = true -> same_generation db db' -> evolution db db'.
Proof. intros Hm [Hm' Hg] Hx. rewrite Hg. split; [done|]. split; rewrite Hm; done. Qed.

Lemma process_group_evolves requests io : respects evolution (process_group requests io).
Proof.
  unfold process_group, backpressure, commit_tail. pose proof flush_evolves as Hf. pose proof execute_group_evolves as He.
  apply respects_get. intros db0. destruct (recovery_required (inner db0)); [reflexivity|].
  assert (Hg : forall A (m : M A), respects evolution m -> evolution db0 (m db0).2) by (intros A m Hm; apply Hm). apply Hg. clear Hg.
  apply respects_bind; [typeclasses eauto|repeat first [apply Hf | respects_step | from_quiet]|intros _]. clear db0.
  apply respects_get. intros db. destruct (negb (in_memory (inner db)) && negb (wal (inner db))); [reflexivity|].
  destruct (in_memory (inner db)) eqn:Hm.
  - apply memory_evolution; [done|]. assert (Hs : forall A (m : M A), respects same_generation m -> same_generation db (m db).2) by (intros A m Hm'; apply Hm').
    apply Hs. unfold execute_memory_group. respects_go.
  - assert (Hs : forall A (m : M A), respects evolution m -> evolution db (m db).2) by (intros A m Hm'; apply Hm').
    apply Hs. repeat first [apply He | respects_step | from_quiet].
Qed.

Lemma background_evolves : respects evolution background_flush_pass.
Proof.
  unfold background_flush_pass. pose proof flush_evolves as Hf. pose proof compact_evolves as Hc.
  repeat first [apply Hf | apply Hc | respects_step | from_quiet].
Qed.

Lemma persist_evolves : respects evolution persist.
Proof. unfold persist. pose proof flush_evolves as Hf. repeat first [apply Hf | respects_step | from_quiet]. Qed.

Lemma compact_op_evolves : respects evolution compact.
Proof. unfold compact. pose proof compact_evolves as Hc. repeat first [apply Hc | respects_step | from_quiet]. Qed.
End operations.
