(* ===== verification/DScanTheorems.v ===== *)
(** * ThingDB: the properties of durable scans

    Ordered scans and counts of a durable database against the map it represents: on a
    database at rest, and while other threads commit, flush and compact. *)

From S2P Require Import Prelude Wal Table Layer Database Durable Commit Recovery ThingDb Keyspace RamScan Storage.
From S2P Require Import DScan DScanSpec DScanMerge DScanFirst DScanCursor DScanPage DScanGuard.

(** ** Executions around a scan *)

Section executions.
Context `{Crc32} `{ManifestCodec}.

(** What other threads do to a database between two acquisitions of the lock. *)
Inductive busy_step : Db -> Db -> Prop :=
| busy_commit requests io db : busy_step db (process_group requests io db).2
| busy_background db : busy_step db (background_flush_pass db).2
| busy_persist db : busy_step db (persist db).2
| busy_compact db : busy_step db (compact db).2.

(** The databases a scan finds, with the maps they represent. *)
Record observes (obs : nat -> Db) (As : nat -> bmap bytes) : Prop := {
  ob_steps : forall n, rtc busy_step (obs n) (obs (S n));
  ob_repr : forall n, db_repr (obs n) (As n);
  ob_keys : forall n k, is_Some (As n !! k) -> bytes_ok k;
  ob_layers : forall n, zlen (table_layers (inner (obs n))) < U64_MAX - 1;
  ob_generation : forall n, state_generation (inner (obs n)) < U64_MAX;
}.

Lemma busy_step_evolves db db' : busy_step db db' -> evolution db db'.
Proof.
  destruct 1; [apply process_group_evolves|apply background_evolves|apply persist_evolves|apply compact_op_evolves].
Qed.

Lemma busy_run_evolves db db' : rtc busy_step db db' -> evolution db db'.
Proof. induction 1 as [|x y z Hxy _ IH]; [reflexivity|]. etransitivity; [by apply busy_step_evolves|done]. Qed.

Lemma observes_mode obs As n : observes obs As -> in_memory (inner (obs n)) = false.
Proof. intros Ho. destruct (ob_repr _ _ Ho n) as (log&ls&Hinv&_). by destruct (inv_mode _ _ _ Hinv). Qed.

Lemma observes_run obs As n m : observes obs As -> (n <= m)%nat -> evolves (obs n) (obs m).
Proof.
  intros Ho Hle. assert (Hrun : rtc busy_step (obs n) (obs m)).
  { induction Hle as [|m _ IH]; [done|]. etransitivity; [done|]. apply (ob_steps _ _ Ho). }
  apply (busy_run_evolves _ _ Hrun). pose proof (ob_generation _ _ Ho n). lia.
Qed.

Lemma observes_guarded obs As : observes obs As -> guarded obs.
Proof.
  intros Ho. split.
  - intros n m Hle. destruct (observes_run _ _ n m Ho Hle) as [_ Hmono _].
    apply Hmono; [by eapply observes_mode|]. pose proof (ob_generation _ _ Ho n). lia.
  - intros n m Heq. assert (Hcase : (n <= m)%nat \/ (m <= n)%nat) by lia. destruct Hcase as [Hle|Hle].
    + destruct (observes_run _ _ n m Ho Hle) as [_ _ Hsame].
      destruct (Hsame ltac:(by eapply observes_mode) (ob_generation _ _ Ho m) Heq) as [-> ->]. done.
    + destruct (observes_run _ _ m n Ho Hle) as [_ _ Hsame].
      by destruct (Hsame ltac:(by eapply observes_mode) (ob_generation _ _ Ho n) (eq_sym Heq)) as [-> ->].
Qed.

(** A database at rest. *)
Lemma observes_still db A :
  db_repr db A -> (forall k, is_Some (A !! k) -> bytes_ok k) -> zlen (table_layers (inner db)) < U64_MAX - 1 ->
  state_generation (inner db) < U64_MAX -> observes (fun _ => db) (fun _ => A).
Proof. intros Hr Hk Hl Hg. by split. Qed.
End executions.

(** ** The attempts of a page scan *)

Section attempts.
Context `{Crc32} `{ManifestCodec} (obs : nat -> Db) (As : nat -> bmap bytes) (Ho : observes obs As).
Context (ns : bytes) (b : ScanBounds) (limit : Z) (co : bool).
Context (Hns : bytes_ok ns) (Hoffset : 0 <= sb_offset b) (Hlimit : 0 < limit <= U64_MAX).
Context (Hcount : co = true -> forall n, Z.of_nat (page_rounds (inner (obs n))) < limit).

(** The entries of the keyspace within the bounds, as of the [n]-th acquisition. *)
Definition scanned (n : nat) : list (bytes * bytes) :=
  cut (Some limit) (drop (Z.to_nat (sb_offset b))
    (List.filter (fun e => matches_bounds b e.1) (btree_iter (keyspace_view ns (As n))))).

Definition changed_repeatedly : Error := message "ThingDB durable scan changed repeatedly while reading table blocks".

Lemma attempt_spec j locks :
  (j <= locks)%nat ->
  exists sn s, capture_durable_table_page (inner (obs j)) ns b co = Ok (Some sn) /\ sn_generation sn = generation obs j /\
    page_attempt obs ns b limit co (page_rounds (inner (obs j))) sn locks = Ok (s, None) /\ (locks <= ps_locks s)%nat /\
    (page_out co s (scanned j) \/ generation obs (ps_locks s) <> generation obs j).
Proof.
  intros Hj. destruct (ob_repr _ _ Ho j) as (log&ls&Hinv&_&_&HA). unfold scanned. rewrite <-HA.
  apply (page_attempt_spec obs ns b limit co j ls); try done.
  - by eapply observes_guarded.
  - by destruct (inv_mode _ _ _ Hinv).
  - apply (inv_layers _ _ _ Hinv).
  - rewrite <-(Forall2_length _ _ _ (inv_layers _ _ _ Hinv)). apply (ob_layers _ _ Ho).
  - intros k. rewrite HA. apply (ob_keys _ _ Ho).
  - intros Hco. by apply Hcount.
Qed.

(** The result of a page scan: a page of one of the states it saw, or the error after a
    change during every attempt. *)
Definition page_result (r : Iter * Z) : Prop :=
  (exists n, it_error r.1 = None /\ (if co then r.2 = zlen (scanned n) else it_entries r.1 = scanned n)) \/
  (r.1 = mkIter [] (Some changed_repeatedly) /\ exists n m, generation obs n <> generation obs m).

Lemma page_attempts_spec remaining : forall j locks sn,
  (j <= locks)%nat -> capture_durable_table_page (inner (obs j)) ns b co = Ok (Some sn) ->
  exists r, page_attempts obs ns b limit co (S remaining) (page_rounds (inner (obs j))) sn locks = Ok r /\ page_result r.
Proof.
  induction remaining as [|remaining IH]; intros j locks sn Hj Hcap; cbn [page_attempts].
  all: destruct (attempt_spec j locks Hj) as (sn'&s&Hcap'&Hgen&Hrun&Hle&Hres); rewrite Hcap in Hcap'; injection Hcap' as <-; rewrite Hrun; run.
  all: fold (generation obs (ps_locks s)); rewrite Hgen; destruct (Z.eqb_spec (generation obs (ps_locks s)) (generation obs j)) as [Heq|Hne].
  1, 3: eexists; split; [done|]; left; exists j; split; [done|]; destruct Hres as [Hres|Hres]; [|done]; unfold page_out in Hres;
    destruct co; [by destruct Hres|done].
  - cbn [Nat.eqb]. eexists. split; [done|]. right. split; [done|]. by eexists _, _.
  - cbn [Nat.eqb]. destruct (attempt_spec (ps_locks s) (S (ps_locks s)) ltac:(lia)) as (sn2&_&Hcap2&_). rewrite Hcap2. run.
    destruct (IH (ps_locks s) (S (ps_locks s)) sn2 ltac:(lia) Hcap2) as (r&Hr&Hres2). exists r. split; [exact Hr|done].
Qed.

Lemma table_page_spec j locks :
  (j <= locks)%nat ->
  exists sn r, capture_durable_table_page (inner (obs j)) ns b co = Ok (Some sn) /\
    iter_durable_table_page obs ns b limit co (page_rounds (inner (obs j))) sn locks = Ok r /\ page_result r.
Proof.
  intros Hj. destruct (attempt_spec j locks Hj) as (sn&s&Hcap&_). destruct (page_attempts_spec 3 j locks sn Hj Hcap) as (r&Hr&Hres).
  by exists sn, r.
Qed.
End attempts.

(** ** Properties *)

Section properties.
Context `{Crc32} `{ManifestCodec}.

Lemma namespace_ok name : bytes_ok (namespace name).
Proof. apply Forall_app. split; [apply str_bytes_ok|]. apply Forall_singleton. unfold U8_MAX. lia. Qed.

(** A one-entry page at offset 0 is read by the point scan, which needs a start below the
    upper bound and does not test an end bound. *)
Definition first_ok (ns : bytes) (b : ScanBounds) : Prop :=
  sb_offset b = 0 -> sb_limit b = Some 1 ->
  sb_end b = None /\ below (durable_scan_upper ns (sb_prefix b) (sb_end b)) (durable_scan_lower ns (sb_prefix b) (sb_start b)) = true.

Lemma memory_page_step db A ns b limit :
  db_repr db A -> bytes_ok ns -> (forall k, is_Some (A !! k) -> bytes_ok k) -> 0 <= sb_offset b -> 0 < limit -> sb_limit b = Some limit ->
  (if bool_decide (table_layers (inner db) = []) && (limit <=? 4096) then iter_durable_memtable_page (inner db) ns b limit else Ok None) = Ok None \/
  (if bool_decide (table_layers (inner db) = []) && (limit <=? 4096) then iter_durable_memtable_page (inner db) ns b limit else Ok None)
  = Ok (Some (mkIter (page b (btree_iter (keyspace_view ns A))) None)).
Proof.
  intros (log&ls&Hinv&_&_&HA) Hns Hk Ho Hl Hb. case_bool_decide as Hnil; cbn [andb]; [|by left]. destruct (limit <=? 4096); [|by left].
  pose proof (inv_layers _ _ _ Hinv) as Hlay. rewrite Hnil in Hlay. apply Forall2_nil_inv_l in Hlay as ->. rewrite <-HA in Hk |- *.
  by apply iter_durable_memtable_page_spec.
Qed.

Lemma scanned_page As ns b n limit : sb_limit b = Some limit -> scanned As ns b limit n = page b (btree_iter (keyspace_view ns (As n))).
Proof. unfold scanned, page. by intros ->. Qed.

Lemma durable_scan_page db A name ks b :
  db_repr db A -> keyspace name = Ok ks -> (forall k, is_Some (A !! k) -> bytes_ok k) ->
  zlen (table_layers (inner db)) < U64_MAX - 1 -> state_generation (inner db) < U64_MAX ->
  0 <= sb_offset b -> match sb_limit b with Some n => 0 < n | None => True end -> first_ok (ks_namespace ks) b ->
  iter_bounds_paginated None (fun _ => db) ks b = Ok (mkIter (page b (btree_iter (keyspace_view (ks_namespace ks) A))) None).
Proof.
  intros Hr [Hn ->]%keyspace_valid Hk Hl Hg Ho Hlim Hfirst. cbn [ks_namespace] in *. unfold iter_bounds_paginated. cbn [ks_namespace].
  rewrite bool_decide_false by (intros Heq; rewrite Heq in Hlim; lia).
  pose proof Hr as (log&ls&Hinv&_&_&HA). destruct (inv_mode _ _ _ Hinv) as [Hmode _]. rewrite Hmode.
  pose proof (namespace_ok name) as Hns. pose proof (inv_layers _ _ _ Hinv) as Hlay.
  assert (Hmerge : iter_durable_merge (disk db) (inner db) (namespace name) b
    = Ok (mkIter (page b (btree_iter (keyspace_view (namespace name) A))) None)).
  { rewrite <-HA. apply iter_durable_merge_page; [done..|by rewrite HA|done|done]. }
  destruct (sb_limit b) as [limit|] eqn:Hb.
  2: { rewrite !andb_false_r. cbn [andb]. run. exact Hmerge. }
  cbn [default]. destruct (memory_page_step db A (namespace name) b limit Hr Hns Hk Ho Hlim Hb) as [Hm|Hm]; cbn [from_option id] in Hm |- *; rewrite Hm; run; [|done].
  destruct ((sb_offset b =? 0) && bool_decide (Some limit = Some 1)) eqn:H1.
  - apply andb_true_iff in H1 as [Hoff%Z.eqb_eq [= ->]%bool_decide_eq_true]. destruct (Hfirst Hoff Hb) as [Hend Hbel].
    rewrite <-HA. apply iter_durable_first_page; [done|done|done|done|by rewrite HA|done|done|done|done].
  - destruct ((limit <=? 4096) && (u64_saturating_add (sb_offset b) limit <=? 16384)) eqn:H2; [|run; exact Hmerge].
    apply andb_true_iff in H2 as [Hs%Z.leb_le _]. pose proof (observes_still db A Hr Hk Hl Hg) as Hobs.
    destruct (table_page_spec (fun _ => db) (fun _ => A) Hobs (namespace name) b limit false Hns Ho ltac:(unfold_ints; lia) ltac:(done) 0 1 ltac:(lia))
      as (sn&r&->&Hrun&Hres). run. rewrite Hrun. run. f_equal. destruct r as [[entries error] count].
    destruct Hres as [(n&He&Hen)|[_ (n&m&Hne)]]; [|by destruct Hne]. cbn in He, Hen |- *. rewrite He, Hen. f_equal.
    by apply (scanned_page (fun _ => A) _ b n limit).
Qed.

(** C12. A scan of a durable keyspace at rest (no other thread writes during it, and no value was
    recovered from the log by a reopen, [db_repr]) is exact: whichever of its four strategies
    the scan takes, over memory tables, tombstones and any number of table layers, it
    returns without error, in key order, the page of the entries that have the prefix and lie
    between start and end, after [offset] of them and at most [limit], which is not zero.
    Excepted is a page of one entry at offset 0 that has an end bound or a start at or beyond its
    upper bound ([first_ok]): the point scan that serves such pages ignores the end and panics on
    an empty range ([first_after_prefix_panics]).  What scans return while other threads
    write is stated by [durable_page_atomic]. *)
Theorem durable_scan_exact db A name ks b :
  db_repr db A -> keyspace name = Ok ks -> (forall k, is_Some (A !! k) -> bytes_ok k) ->
  zlen (table_layers (inner db)) < U64_MAX - 1 -> state_generation (inner db) < U64_MAX ->
  0 <= sb_offset b -> match sb_limit b with Some n => 0 < n | None => True end -> first_ok (ks_namespace ks) b ->
  iter_bounds_paginated None (fun _ => db) ks b = Ok (mkIter (page b (btree_iter (keyspace_view (ks_namespace ks) A))) None).
Proof. intros Hr Hks Hk Hl Hg Ho Hlim Hfirst. by eapply durable_scan_page. Qed.

Lemma omap_length_le {A B} (f : A -> option B) l : (length (omap f l) <= length l)%nat.
Proof. induction l as [|x l IH]; [done|]. cbn. destruct (f x); cbn; lia. Qed.

Lemma matching_count db A ns b :
  db_repr db A -> bytes_ok ns -> (forall k, is_Some (A !! k) -> bytes_ok k) ->
  (length (List.filter (fun e => matches_bounds b e.1) (btree_iter (keyspace_view ns A))) < page_rounds (inner db))%nat.
Proof.
  intros (log&ls&Hinv&_&_&HA) Hns Hk. rewrite <-HA in Hk |- *.
  destruct (merged_exists (region (durable_scan_lower ns (sb_prefix b) (sb_start b)) (durable_scan_upper ns (sb_prefix b) (sb_end b))
    (not_before (durable_scan_lower ns (sb_prefix b) (sb_start b)) (excluded_start ns (sb_start b)))
    <$> btree_keys (state (inner db)) :: btree_keys (pending_table (inner db)) :: ((fun s => btree_keys (ls_map s)) <$> ls))) as [l Hm].
  rewrite <-(region_entries (inner db) ls ns b Hns Hk l Hm). eapply Nat.le_lt_trans; [apply omap_length_le|].
  apply (region_count (fun _ => db) ns b 0 ls (inv_layers _ _ _ Hinv) l Hm).
Qed.

Lemma scanned_whole As ns b n limit :
  sb_offset b = 0 -> Z.of_nat (length (List.filter (fun e => matches_bounds b e.1) (btree_iter (keyspace_view ns (As n))))) < limit ->
  scanned As ns b limit n = List.filter (fun e => matches_bounds b e.1) (btree_iter (keyspace_view ns (As n))).
Proof. intros Ho Hl. unfold scanned, cut. rewrite Ho, drop_0. apply take_ge. lia. Qed.

(** A count of a durable keyspace is exact: it returns the number of live entries whose keys
    have the prefix, and merges no values to do so. *)
Theorem durable_count_exact db A name ks prefix :
  db_repr db A -> keyspace name = Ok ks -> (forall k, is_Some (A !! k) -> bytes_ok k) ->
  zlen (table_layers (inner db)) < U64_MAX - 1 -> state_generation (inner db) < U64_MAX -> Z.of_nat (page_rounds (inner db)) < U64_MAX ->
  scan_count_prefix None (fun _ => db) ks prefix
  = Ok (Ok (zlen (List.filter (fun e => starts_with prefix e.1) (btree_iter (keyspace_view (ks_namespace ks) A))))).
Proof.
  intros Hr [Hn ->]%keyspace_valid Hk Hl Hg Hsize. unfold scan_count_prefix, count_durable_namespace. cbn [ks_namespace].
  pose proof Hr as (log&ls&Hinv&_&_&HA). destruct (inv_mode _ _ _ Hinv) as [Hmode _]. rewrite Hmode.
  pose proof (namespace_ok name) as Hns. pose proof (observes_still db A Hr Hk Hl Hg) as Hobs. set (b := mkBounds (Some prefix) None None 0 None).
  destruct (table_page_spec (fun _ => db) (fun _ => A) Hobs (namespace name) b U64_MAX true Hns ltac:(done) ltac:(unfold_ints; lia) ltac:(done) 0 1 ltac:(lia))
    as (sn&r&->&Hrun&Hres). run. rewrite Hrun. run. destruct r as [it count].
  destruct Hres as [(n&He&Hen)|[_ (n&m&Hne)]]; [|by destruct Hne]. cbn [fst snd] in He, Hen. unfold into_result. rewrite He. cbn.
  do 2 f_equal. rewrite Hen, scanned_whole; [|done|pose proof (matching_count db A (namespace name) b Hr Hns Hk); lia].
  apply (f_equal (fun l => zlen l)), filter_ext_in. intros e _. unfold matches_bounds, in_range. cbn. by rewrite andb_true_r.
Qed.

(** C13. A page is read from one state: while other threads commit, flush and compact, a page of a
    durable keyspace (of at most 4096 entries, ending within the first 16384, and not a
    one-entry page at offset 0) is exactly the page of one of the states the scan met; if
    the database changed during every attempt, the scan says so and returns no entry.  In
    each state the scan finds, the values in memory are all waiting to be flushed
    ([db_repr]), and neither the number of tables nor the generation counter has reached
    2^64 - 1 ([observes]). *)
Theorem durable_page_atomic obs As name ks b limit :
  observes obs As -> keyspace name = Ok ks -> sb_limit b = Some limit -> 0 <= sb_offset b -> 0 < limit <= 4096 ->
  sb_offset b + limit <= 16384 -> ~ (sb_offset b = 0 /\ limit = 1) ->
  exists it, iter_bounds_paginated None obs ks b = Ok it /\
    ((exists n, it = mkIter (page b (btree_iter (keyspace_view (ks_namespace ks) (As n)))) None) \/
     it = mkIter [] (Some changed_repeatedly)).
Proof.
  intros Hobs [Hn ->]%keyspace_valid Hb Ho Hl Hsum Hnot. unfold iter_bounds_paginated. cbn [ks_namespace].
  rewrite bool_decide_false by (rewrite Hb; intros [= ->]; lia). rewrite (observes_mode _ _ 0 Hobs), Hb. cbn [default].
  pose proof (namespace_ok name) as Hns.
  destruct (memory_page_step (obs 0%nat) (As 0%nat) (namespace name) b limit (ob_repr _ _ Hobs 0) Hns (ob_keys _ _ Hobs 0) Ho) as [Hm|Hm];
    [lia|done|..]; cbn [from_option id] in Hm |- *; rewrite Hm; run.
  2: { eexists. split; [done|]. left. by exists 0%nat. }
  assert (Hnf : (sb_offset b =? 0) && bool_decide (Some limit = Some 1) = false).
  { apply not_true_iff_false. intros [H1%Z.eqb_eq [= H2]%bool_decide_eq_true]%andb_true_iff. by apply Hnot. }
  rewrite Hnf. unfold u64_saturating_add. rewrite (proj2 (Z.leb_le limit 4096)), (proj2 (Z.leb_le _ 16384)) by lia. cbn [andb].
  destruct (table_page_spec obs As Hobs (namespace name) b limit false Hns Ho ltac:(unfold_ints; lia) ltac:(done) 0 1 ltac:(lia))
    as (sn&r&->&Hrun&Hres). run. rewrite Hrun. run. eexists. split; [done|]. destruct r as [[entries error] count].
  destruct Hres as [(n&He&Hen)|[Hit _]]; [left; exists n|right; exact Hit]. cbn in He, Hen |- *. rewrite He, Hen. f_equal. by apply scanned_page.
Qed.

(** Both modes scan alike: a durable database and a RAM database that hold the same keyspace
    return the same page, for every request the RAM database does not refuse. *)
Theorem durable_ram_scans_agree db A m name ks b :
  db_repr db A -> keyspace name = Ok ks -> (forall k, is_Some (A !! k) -> bytes_ok k) ->
  zlen (table_layers (inner db)) < U64_MAX - 1 -> state_generation (inner db) < U64_MAX ->
  m !! name = Some (keyspace_view (ks_namespace ks) A) -> inverted b = false ->
  0 <= sb_offset b -> match sb_limit b with Some n => 0 < n | None => True end -> first_ok (ks_namespace ks) b ->
  iter_bounds_paginated None (fun _ => db) ks b = iter_bounds_paginated (Some m) (fun _ => db) ks b.
Proof.
  intros Hr Hks Hk Hl Hg Hm Hinv Ho Hlim Hfirst. pose proof Hks as [Hn ->]%keyspace_valid. cbn [ks_namespace] in *.
  assert (Hexact : iter_bounds_paginated None (fun _ => db) (mkKeyspace name (namespace name)) b
    = Ok (mkIter (page b (btree_iter (keyspace_view (namespace name) A))) None)).
  { by apply (durable_scan_page db A name). }
  rewrite Hexact. unfold iter_bounds_paginated. rewrite bool_decide_false by (intros Heq; rewrite Heq in Hlim; lia).
  pose proof (ram_iter_bounds_page m name _ b Hm) as Hram. unfold ram_iter_bounds in Hram.
  rewrite bool_decide_false in Hram by (intros Heq; rewrite Heq in Hlim; lia). cbn [ks_name]. rewrite Hram, Hinv; [done| |done|done].
  apply Forall_forall. intros [u v] Hu. apply elem_of_btree_iter in Hu. rewrite lookup_keyspace_view in Hu.
  assert (Hok : bytes_ok (namespace name ++ u)) by (apply Hk; by eexists). by apply Forall_app in Hok as [_ Hok].
Qed.

(** A prefix and a cursor beyond every key with the prefix. *)
Lemma beyond_bounds ns prefix stop after :
  successor prefix = Some stop -> stop ≺ after ->
  exists upper, durable_scan_upper ns (Some prefix) None = Some upper /\
    upper ≺ durable_scan_lower ns (Some prefix) (Some (after, false)).
Proof.
  intros Hs Hlt. unfold durable_scan_upper, durable_scan_lower, physical_key_from_namespace.
  assert (Hle : key_leb prefix after = true).
  { apply key_leb_le. intros Hap. apply (successor_ge _ _ Hs). by eapply key_lt_trans. }
  rewrite Hle. cbn [mbind option_bind]. rewrite Hs. cbn [fmap option_fmap option_map].
  assert (Hlow : (ns ++ stop) ≺ (ns ++ after)) by by apply key_lt_app_l.
  destruct (successor ns) as [e|]; cbn [option_min]; [|by eexists].
  destruct (key_ltb (ns ++ stop) e) eqn:He; [by eexists|]. eexists. split; [done|].
  apply key_ltb_false in He as [He| <-]; [|done]. by eapply key_lt_trans.
Qed.

(** Reading the first entry after a cursor beyond the prefix panics once the database has a
    table layer (and something in its mutable state), and the database lock is held at that
    point; the two-entry page after the same cursor is empty, as is any longer one. *)
Theorem first_after_prefix_panics db A name ks prefix stop after :
  db_repr db A -> keyspace name = Ok ks -> (forall k, is_Some (A !! k) -> bytes_ok k) ->
  zlen (table_layers (inner db)) < U64_MAX - 1 -> state_generation (inner db) < U64_MAX ->
  table_layers (inner db) <> [] -> state (inner db) <> ∅ -> successor prefix = Some stop -> stop ≺ after ->
  scan_first_prefix_after None (fun _ => db) ks prefix (Some after) = Err Panic /\
  forall limit, 1 < limit -> scan_prefix_page_after None (fun _ => db) ks prefix (Some after) limit = Ok (mkIter [] None).
Proof.
  intros Hr Hks Hk Hl Hg Htab _ Hs Hlt. pose proof Hks as [Hn ->]%keyspace_valid. split.
  - unfold scan_first_prefix_after, iter_bounds_paginated. cbn [sb_limit sb_offset ks_namespace default].
    pose proof Hr as (log&ls&Hinv&_&_&HA). destruct (inv_mode _ _ _ Hinv) as [Hmode _].
    rewrite bool_decide_false by done. rewrite Hmode, (bool_decide_false (table_layers (inner db) = [])) by done. cbn [andb]. run.
    rewrite bool_decide_true by done. cbn [andb Z.eqb fmap option_fmap option_map].
    destruct (beyond_bounds (namespace name) prefix stop after Hs Hlt) as (upper&Hu&Hlow).
    by rewrite (iter_durable_first_panics (fun _ => db) _ (mkBounds (Some prefix) (Some (after, false)) None 0 (Some 1))
      (7 + page_rounds (inner db)) 1 upper Hmode Hu Hlow).
  - intros limit Hlim. unfold scan_prefix_page_after. set (b := mkBounds _ _ _ _ _).
    assert (Hscan : iter_bounds_paginated None (fun _ => db) (mkKeyspace name (namespace name)) b
      = Ok (mkIter (page b (btree_iter (keyspace_view (namespace name) A))) None)).
    { apply (durable_scan_page db A name); [done..|cbn; lia|]. intros _. cbn. intros [= ->]. lia. }
    rewrite Hscan. do 2 f_equal. unfold page. cbn [sb_offset sb_limit b]. rewrite drop_0.
    assert (Hnil : List.filter (fun e => matches_bounds b e.1) (btree_iter (keyspace_view (namespace name) A)) = []); [|rewrite Hnil; apply take_nil].
    apply filter_none. intros [u v] Hu. apply elem_of_btree_iter in Hu. rewrite lookup_keyspace_view in Hu.
    apply not_true_iff_false. unfold matches_bounds, in_range, b. cbn. intros [Hp [Ha _]%andb_true_iff]%andb_true_iff.
    assert (Hok : bytes_ok (namespace name ++ u)) by (apply Hk; by eexists). apply Forall_app in Hok as [_ Hok].
    apply (successor_Some prefix u stop Hok Hs) in Hp as [_ Hus]. apply key_ltb_lt in Ha. exact (key_lt_asym _ _ (key_lt_trans _ _ _ Hus Hlt) Ha).
Qed.
End properties.

(** ** Samples *)

Section samples.
#[local] Existing Instance sample_crc32.
#[local] Existing Instance sample_codec.

Definition sample_keyspace : Keyspace := mkKeyspace "users" (namespace "users").
Definition user_op (k : Z) (value : option bytes) : Operation :=
  match value with Some v => Put (namespace "users" ++ [k]) v | None => Delete (namespace "users" ++ [k]) end.
Definition table_ops : list Operation := [user_op 1 (Some [10]); user_op 3 (Some [30])].

(** Two entries in a table, the first of them deleted since; then two more writes. *)
Definition table_db : Db := run persist (run (commit table_ops) sample_db).
Definition deleted_db : Db := run (commit [user_op 1 None]) table_db.
Definition rewritten_db : Db := run (commit [user_op 1 (Some [11]); user_op 2 (Some [20])]) deleted_db.

(** A writer that commits once, after the scan has looked at the deleted key. *)
Definition racing (n : nat) : Db := if (n <=? 2)%nat then deleted_db else rewritten_db.

(** A one-entry page is not atomic: when the first candidate of the point scan is a deletion,
    the scan goes on from it in whatever state it then finds.  Here a writer puts the keys 1
    and 2 in one batch; the scan returns key 2, which is first neither before the batch
    (key 3) nor after it (key 1). *)
Theorem first_entry_mixes_states :
  let first obs := scan_first_prefix_after None obs sample_keyspace [] None in
  first (fun _ => deleted_db) = Ok (Ok (Some ([3], [30]))) /\ first (fun _ => rewritten_db) = Ok (Ok (Some ([1], [11]))) /\
  first racing = Ok (Ok (Some ([2], [20]))).
Proof. vm_compute. split_and!; reflexivity. Qed.

Definition users_map (es : list (Z * bytes)) : bmap bytes := list_to_map ((fun '(k, v) => (namespace "users" ++ [k], v)) <$> es).
Definition deleted_map : bmap bytes := users_map [(3, [30])].
Definition rewritten_map : bmap bytes := users_map [(1, [11]); (2, [20]); (3, [30])].

Lemma users_map_ok es : Forall (fun e => 0 <= e.1 <= U8_MAX) es -> forall k, is_Some (users_map es !! k) -> bytes_ok k.
Proof.
  intros Hes k [v Hv]. apply elem_of_list_to_map_2, list_elem_of_fmap in Hv as ([c w]&Heq&He).
  apply (f_equal fst) in Heq. cbn [fst] in Heq. subst k. apply Forall_app. split; [apply namespace_ok|]. apply Forall_singleton. by apply (proj1 (Forall_forall _ _) Hes _ He).
Qed.

Lemma commit_repr db A ops :
  db_repr db A -> group_fits db A [request ops] -> db_repr (run (commit ops) db) (foldl apply_operation A ops).
Proof.
  intros Hr Hf. destruct (process_group_refines db A [request ops] Hr Hf) as (db'&Hrun&Hr'&_); [repeat constructor|].
  unfold run, commit. rewrite Hrun. unfold group_operations in Hr'. cbn in Hr'. by rewrite app_nil_r in Hr'.
Qed.

Lemma table_repr : db_repr table_db (foldl apply_operation ∅ table_ops).
Proof.
  assert (Hc : db_repr (run (commit table_ops) sample_db) (foldl apply_operation ∅ table_ops)).
  { apply commit_repr; [exact (proj2 sample_inv)|fits]. }
  destruct (persist_refines _ _ Hc) as (db'&Hrun&Hr&_); [vm_compute; done|]. unfold table_db, run at 1. by rewrite Hrun.
Qed.

Lemma deleted_repr : db_repr deleted_db deleted_map.
Proof. assert (Hr : db_repr deleted_db (foldl apply_operation (foldl apply_operation ∅ table_ops) [user_op 1 None])); [|exact Hr]. apply commit_repr; [apply table_repr|fits]. Qed.

Lemma rewritten_repr : db_repr rewritten_db rewritten_map.
Proof.
  assert (Hr : db_repr rewritten_db (foldl apply_operation deleted_map [user_op 1 (Some [11]); user_op 2 (Some [20])])); [|exact Hr].
  apply commit_repr; [apply deleted_repr|fits].
Qed.

Lemma deleted_keys k : is_Some (deleted_map !! k) -> bytes_ok k.
Proof. apply users_map_ok. apply Forall_singleton. cbn. unfold U8_MAX. lia. Qed.

Lemma rewritten_keys k : is_Some (rewritten_map !! k) -> bytes_ok k.
Proof.
  apply users_map_ok. unfold U8_MAX. do 3 (apply Forall_cons; split; [cbn; lia|]). by apply Forall_nil.
Qed.

Lemma commit_busy db ops : busy_step db (run (commit ops) db).
Proof. unfold run, commit. constructor. Qed.

Lemma racing_observed : observes racing (fun n => if (n <=? 2)%nat then deleted_map else rewritten_map).
Proof.
  split; intros n; unfold racing.
  - destruct (Nat.leb_spec n 2), (Nat.leb_spec (S n) 2); try done; [|lia].
    apply rtc_once, commit_busy.
  - destruct (n <=? 2)%nat; [apply deleted_repr|apply rewritten_repr].
  - destruct (n <=? 2)%nat; [apply deleted_keys|apply rewritten_keys].
  - destruct (n <=? 2)%nat; vm_compute; done.
  - destruct (n <=? 2)%nat; vm_compute; done.
Qed.

(** The last two entries after the first, from a table, its deletion and the later writes. *)
Definition sample_bounds : ScanBounds := mkBounds (Some []) None None 1 (Some 2).

Lemma durable_scan_exact_witness :
  iter_bounds_paginated None (fun _ => rewritten_db) sample_keyspace sample_bounds
  = Ok (mkIter (page sample_bounds (btree_iter (keyspace_view (namespace "users") rewritten_map))) None) /\
  page sample_bounds (btree_iter (keyspace_view (namespace "users") rewritten_map)) = [([2], [20]); ([3], [30])].
Proof.
  split; [|vm_compute; reflexivity].
  apply (durable_scan_exact rewritten_db rewritten_map "users" sample_keyspace sample_bounds);
    [exact rewritten_repr|reflexivity|exact rewritten_keys|vm_compute; done|vm_compute; done|cbn; lia|cbn; lia|].
  intros Ho. discriminate Ho.
Defined.

Lemma durable_count_exact_witness :
  scan_count_prefix None (fun _ => rewritten_db) sample_keyspace [2]
  = Ok (Ok (zlen (List.filter (fun e => starts_with [2] e.1) (btree_iter (keyspace_view (namespace "users") rewritten_map))))).
Proof.
  apply (durable_count_exact rewritten_db rewritten_map "users" sample_keyspace [2]);
    [exact rewritten_repr|reflexivity|exact rewritten_keys|vm_compute; done..].
Defined.

Lemma durable_page_atomic_witness :
  exists it, iter_bounds_paginated None racing sample_keyspace sample_bounds = Ok it /\
    ((exists n, it = mkIter (page sample_bounds (btree_iter (keyspace_view (namespace "users")
        (if (n <=? 2)%nat then deleted_map else rewritten_map)))) None) \/
     it = mkIter [] (Some changed_repeatedly)).
Proof.
  apply (durable_page_atomic racing _ "users" sample_keyspace sample_bounds 2 racing_observed);
    [reflexivity|reflexivity|cbn; lia|lia|cbn; lia|]. intros [_ Hl]. discriminate Hl.
Defined.

Lemma durable_ram_scans_agree_witness :
  iter_bounds_paginated None (fun _ => rewritten_db) sample_keyspace sample_bounds
  = iter_bounds_paginated (Some {["users" := keyspace_view (namespace "users") rewritten_map]}) (fun _ => rewritten_db) sample_keyspace sample_bounds.
Proof.
  apply (durable_ram_scans_agree rewritten_db rewritten_map _ "users" sample_keyspace sample_bounds);
    [exact rewritten_repr|reflexivity|exact rewritten_keys|vm_compute; done|vm_compute; done|apply lookup_singleton_eq|reflexivity|cbn; lia|cbn; lia|].
  intros Ho. discriminate Ho.
Defined.

Lemma first_after_prefix_panics_witness :
  scan_first_prefix_after None (fun _ => rewritten_db) sample_keyspace [2] (Some [4]) = Err Panic /\
  forall limit, 1 < limit -> scan_prefix_page_after None (fun _ => rewritten_db) sample_keyspace [2] (Some [4]) limit = Ok (mkIter [] None).
Proof.
  apply (first_after_prefix_panics rewritten_db rewritten_map "users" sample_keyspace [2] [3] [4]);
    [exact rewritten_repr|reflexivity|exact rewritten_keys|vm_compute; done|vm_compute; done| | |reflexivity|reflexivity].
  - apply (bool_decide_eq_false_1 (table_layers (inner rewritten_db) = [])). vm_compute. reflexivity.
  - apply (bool_decide_eq_false_1 (state (inner rewritten_db) = ∅)). vm_compute. reflexivity.
Defined.
End samples.
