(* ===== verification/Persistent.v ===== *)
(** * thingd: the persistent engine's state, codecs and keys

    Models the part of [crates/thingd/src/persistent.rs] that every storage trait of
    [PersistentEngine] uses: the engine's in-memory state over a storage [Kv], record
    and queue-id codecs, and the keys of each keyspace.  Search, vectors, diagnostics
    and maintenance state are left out.  The key lemmas are for the unencrypted codec
    and names without NUL: keys of different names differ and key order is the order
    the operations rely on. *)

From S2P Require Import Prelude Wal Table Layer Database Keyspace RamScan Model Storage.

(** ** The engine *)

Inductive QueueClaimMode := Claim | ClaimAndAck.

#[export] Instance QueueClaimMode_eq_dec : EqDecision QueueClaimMode.
Proof. solve_decision. Defined.

Abbreviation QueueReadyCursor := (option (bytes * bytes)).

Record PersistentEngine (D : Type) := mkPersistent {
  pe_db : D;
  pe_codec : StorageCodec;
  pe_in_memory : bool;
  pe_next_link_id : Z;
  pe_event_seq_counters : gmap string Z;
  pe_event_idempotency_keys : gmap (string * string) Z;
  pe_queue_lease_counts : gmap string Z;
  pe_queue_lease_expirations : gmap string (gmap Z Z);
  pe_queue_ready_cursors : gmap string QueueReadyCursor;
  pe_index_definitions : list IndexDefinition;
  pe_unique_index_values : gmap (string * string * string) ObjectKey;
  pe_unique_index_cache_complete : bool;
  pe_queue_claim_mode : QueueClaimMode;
}.
Arguments mkPersistent {D} _ _ _ _ _ _ _ _ _ _ _ _ _.
Arguments pe_db {D} _.
Arguments pe_codec {D} _.
Arguments pe_in_memory {D} _.
Arguments pe_next_link_id {D} _.
Arguments pe_event_seq_counters {D} _.
Arguments pe_event_idempotency_keys {D} _.
Arguments pe_queue_lease_counts {D} _.
Arguments pe_queue_lease_expirations {D} _.
Arguments pe_queue_ready_cursors {D} _.
Arguments pe_index_definitions {D} _.
Arguments pe_unique_index_values {D} _.
Arguments pe_unique_index_cache_complete {D} _.
Arguments pe_queue_claim_mode {D} _.

Section setters.
Context {D : Type} (e : PersistentEngine D).

Definition set_db (db : D) := mkPersistent db (pe_codec e) (pe_in_memory e) (pe_next_link_id e)
  (pe_event_seq_counters e) (pe_event_idempotency_keys e) (pe_queue_lease_counts e)
  (pe_queue_lease_expirations e) (pe_queue_ready_cursors e) (pe_index_definitions e)
  (pe_unique_index_values e) (pe_unique_index_cache_complete e) (pe_queue_claim_mode e).
Definition set_next_link_id (next : Z) := mkPersistent (pe_db e) (pe_codec e) (pe_in_memory e) next
  (pe_event_seq_counters e) (pe_event_idempotency_keys e) (pe_queue_lease_counts e)
  (pe_queue_lease_expirations e) (pe_queue_ready_cursors e) (pe_index_definitions e)
  (pe_unique_index_values e) (pe_unique_index_cache_complete e) (pe_queue_claim_mode e).
Definition set_event_state (counters : gmap string Z) (keys : gmap (string * string) Z) :=
  mkPersistent (pe_db e) (pe_codec e) (pe_in_memory e) (pe_next_link_id e)
  counters keys (pe_queue_lease_counts e)
  (pe_queue_lease_expirations e) (pe_queue_ready_cursors e) (pe_index_definitions e)
  (pe_unique_index_values e) (pe_unique_index_cache_complete e) (pe_queue_claim_mode e).
Definition set_leases (counts : gmap string Z) (expirations : gmap string (gmap Z Z)) :=
  mkPersistent (pe_db e) (pe_codec e) (pe_in_memory e) (pe_next_link_id e)
  (pe_event_seq_counters e) (pe_event_idempotency_keys e) counts
  expirations (pe_queue_ready_cursors e) (pe_index_definitions e)
  (pe_unique_index_values e) (pe_unique_index_cache_complete e) (pe_queue_claim_mode e).
Definition set_cursors (cursors : gmap string QueueReadyCursor) :=
  mkPersistent (pe_db e) (pe_codec e) (pe_in_memory e) (pe_next_link_id e)
  (pe_event_seq_counters e) (pe_event_idempotency_keys e) (pe_queue_lease_counts e)
  (pe_queue_lease_expirations e) cursors (pe_index_definitions e)
  (pe_unique_index_values e) (pe_unique_index_cache_complete e) (pe_queue_claim_mode e).
Definition set_index_state (definitions : list IndexDefinition)
    (values : gmap (string * string * string) ObjectKey) (complete : bool) :=
  mkPersistent (pe_db e) (pe_codec e) (pe_in_memory e) (pe_next_link_id e)
  (pe_event_seq_counters e) (pe_event_idempotency_keys e) (pe_queue_lease_counts e)
  (pe_queue_lease_expirations e) (pe_queue_ready_cursors e) definitions values complete (pe_queue_claim_mode e).
Definition set_claim_mode (mode : QueueClaimMode) :=
  mkPersistent (pe_db e) (pe_codec e) (pe_in_memory e) (pe_next_link_id e)
  (pe_event_seq_counters e) (pe_event_idempotency_keys e) (pe_queue_lease_counts e)
  (pe_queue_lease_expirations e) (pe_queue_ready_cursors e) (pe_index_definitions e)
  (pe_unique_index_values e) (pe_unique_index_cache_complete e) mode.
End setters.

(** ** Operations of the engine

    An operation reads and updates the engine and may fail; what it changed before
    failing stays, as with [?] in the source. *)

Definition PM (D A : Type) : Type := PersistentEngine D -> thingd_result A * PersistentEngine D.

Section monad.
Context {D : Type}.

Definition pret {A} (a : A) : PM D A := fun e => (Ok a, e).
Definition plift {A} (r : thingd_result A) : PM D A := fun e => (r, e).
Definition pbind {A B} (m : PM D A) (f : A -> PM D B) : PM D B :=
  fun e => match m e with (Ok a, e) => f a e | (Err err, e) => (Err err, e) end.
Definition pget : PM D (PersistentEngine D) := fun e => (Ok e, e).
Definition pmodify (f : PersistentEngine D -> PersistentEngine D) : PM D unit := fun e => (Ok (), f e).

Lemma pbind_pget {A} (f : PersistentEngine D -> PM D A) e : pbind pget f e = f e e.
Proof. done. Qed.

Lemma pbind_plift {A B} (a : A) (f : A -> PM D B) e : pbind (plift (Ok a)) f e = f a e.
Proof. done. Qed.

Lemma pbind_Ok {A B} (m : PM D A) (f : A -> PM D B) e a e' : m e = (Ok a, e') -> pbind m f e = f a e'.
Proof. unfold pbind. by intros ->. Qed.

Lemma pbind_Err {A B} (m : PM D A) (f : A -> PM D B) e err e' : m e = (Err err, e') -> pbind m f e = (Err err, e').
Proof. unfold pbind. by intros ->. Qed.
End monad.

Notation "'let*' x ':=' m 'in' k" := (pbind m (fun x => k))
  (at level 200, x name, m at level 100, k at level 200, right associativity) : thingd_scope.

(** [From<storage_backend::Error> for ThingdError], and [map_err(ThingdError::Storage)]. *)
Definition storage_error {A} (r : storage_result A) : thingd_result A :=
  match r with Ok a => Ok a | Err err => Err (Storage err) end.

Definition commit `{Kv D} (batch : list BatchWrite) : PM D unit :=
  fun e => let '(r, db) := kv_commit (pe_db e) batch in (storage_error r, set_db e db).

(** [Keyspace::insert] and [Keyspace::remove]: batches of one write. *)
Definition ks_insert `{Kv D} (ks : string) (key value : bytes) : PM D unit := commit (batch_insert [] ks key value).
Definition ks_remove `{Kv D} (ks : string) (key : bytes) : PM D unit := commit (batch_remove [] ks key).

(** ** Records and ids *)

Definition serialize `{Serde A wt} (c : StorageCodec) (value : A) : thingd_result bytes :=
  data ← storage_error (json_to_vec value); encode_value c "record" data.

Definition deserialize `{Serde A wt} (c : StorageCodec) (b : bytes) : thingd_result A :=
  data ← decode_value c "record" b; storage_error (json_from_slice data).

(** [RAW_QUEUE_ID_PREFIX]: ["TDBQID1"] and a NUL. *)
Definition RAW_QUEUE_ID_PREFIX : bytes := str_bytes "TDBQID1" ++ [0].

Definition strip_prefix (prefix b : bytes) : option bytes :=
  if starts_with prefix b then Some (drop (length prefix) b) else None.

Definition encode_queue_id (c : StorageCodec) (id : string) : thingd_result bytes :=
  if encrypted c then encode_value c "queue_index_id" (str_bytes id)
  else Ok (RAW_QUEUE_ID_PREFIX ++ str_bytes id).

Definition decode_queue_id `{Serde string is_str} (c : StorageCodec) (value : bytes) : thingd_result string :=
  match strip_prefix RAW_QUEUE_ID_PREFIX value with
  | Some raw_id => storage_error (from_utf8 raw_id)
  | None =>
      match (if encrypted c then decode_value c "queue_index_id" value else Err (Storage "")) with
      | Ok decoded => storage_error (from_utf8 decoded)
      | Err _ => deserialize c value
      end
  end.

(** ** Keys *)

Section keys.
Context (c : StorageCodec).

Definition make_object_key (collection id : string) : bytes :=
  encode_scoped_key c "objects" (str_bytes collection) (str_bytes id).
Definition make_object_prefix (collection : string) : bytes :=
  encode_scoped_prefix c "objects" (str_bytes collection).

Definition make_event_prefix (stream : string) : bytes :=
  if encrypted c then encode_key c "events.stream" (str_bytes stream) else str_bytes stream ++ [0].
Definition make_event_key (stream : string) (sequence : Z) : bytes :=
  (if encrypted c then encode_key c "events.stream" (str_bytes stream) else str_bytes stream ++ [0])
  ++ u64_to_be_bytes sequence.

Definition make_queue_key (queue id : string) : bytes :=
  encode_scoped_key c "queue_jobs" (str_bytes queue) (str_bytes id).
Definition make_queue_prefix (queue : string) : bytes :=
  encode_scoped_prefix c "queue_jobs" (str_bytes queue).

Definition I32_MAX : Z := 2147483647.
Definition I32_MIN : Z := -2147483648.

(** [i32::MAX - priority] wraps around below zero in a release build; its big-endian
    bytes are the digits of the difference either way. *)
Definition make_ready_key (queue : string) (priority : Z) (created_at id : string) : bytes :=
  let priority_rev := u32_to_be_bytes (I32_MAX - priority) in
  if encrypted c then
    encode_key c "ready_jobs.queue" (str_bytes queue) ++ priority_rev ++ str_bytes created_at
    ++ encode_key c "ready_jobs.id" (str_bytes id)
  else str_bytes queue ++ [0] ++ priority_rev ++ [0] ++ str_bytes created_at ++ [0] ++ str_bytes id.
Definition make_ready_prefix (queue : string) : bytes :=
  if encrypted c then encode_key c "ready_jobs.queue" (str_bytes queue) else str_bytes queue ++ [0].

(** [u64::try_from(expires_at_ms).unwrap_or_default()]. *)
Definition make_lease_key (queue : string) (expires_at_ms : Z) (id : string) : bytes :=
  let expiry := u64_to_be_bytes (if expires_at_ms <? 0 then 0 else expires_at_ms) in
  if encrypted c then
    encode_key c "lease_jobs.queue" (str_bytes queue) ++ expiry ++ encode_key c "lease_jobs.id" (str_bytes id)
  else str_bytes queue ++ [0] ++ expiry ++ [0] ++ str_bytes id.
Definition make_lease_prefix (queue : string) : bytes :=
  if encrypted c then encode_key c "lease_jobs.queue" (str_bytes queue) else str_bytes queue ++ [0].

Definition lease_expiration (queue : string) (key : bytes) : thingd_result Z :=
  let start := zlen (make_lease_prefix queue) in
  b ← ok_or (slice key start (u64_saturating_add start 8)) (Storage "malformed queue lease index key");
  if zlen b =? 8 then
    let millis := from_be_bytes b in
    if millis <=? I64_MAX then Ok millis else Err (Storage "queue lease expiration overflows i64")
  else Err (Storage "malformed queue lease expiration").

Definition nul : string := String Ascii.zero EmptyString.

Definition make_link_id_key (link_id : string) : bytes := encode_key c "links_by_id" (str_bytes link_id).
Definition make_link_from_key (from_ref link_type link_id : string) : bytes :=
  encode_scoped_key c "links_from" (str_bytes from_ref) (str_bytes (link_type +:+ nul +:+ link_id)).
Definition make_link_from_prefix (from_ref : string) : bytes :=
  encode_scoped_prefix c "links_from" (str_bytes from_ref).
Definition make_link_to_key (to_ref link_type link_id : string) : bytes :=
  encode_scoped_key c "links_to" (str_bytes to_ref) (str_bytes (link_type +:+ nul +:+ link_id)).
Definition make_link_to_prefix (to_ref : string) : bytes :=
  encode_scoped_prefix c "links_to" (str_bytes to_ref).

Definition make_schema_key : bytes := encode_key c "schemas.current" (str_bytes "current").
Definition make_migration_key (id : string) : bytes := encode_key c "migrations.id" (str_bytes id).
Definition make_index_key (collection field : string) : bytes :=
  encode_key c "indexes.definition" (str_bytes collection ++ [0] ++ str_bytes field).
End keys.

(** ** Names and key order *)

Definition no_nul (s : string) : Prop := 0 ∉ str_bytes s.

Lemma starts_with_app p l : starts_with p (p ++ l) = true.
Proof. apply bool_decide_eq_true. apply take_app_length. Qed.

Lemma starts_with_iff p key : starts_with p key = true <-> exists l, key = p ++ l.
Proof.
  split; [|intros [l ->]; apply starts_with_app]. intros Hs%bool_decide_eq_true.
  exists (drop (length p) key). rewrite <-Hs at 1. symmetry. apply take_drop.
Qed.

(** Two names are told apart by the terminator after the first. *)
Lemma starts_with_name q q' (l : bytes) :
  no_nul q -> no_nul q' -> starts_with (str_bytes q ++ [0]) (str_bytes q' ++ 0 :: l) = true <-> q = q'.
Proof.
  intros Hq Hq'. rewrite starts_with_iff. split.
  - intros [r Heq]. rewrite <-app_assoc in Heq. cbn [app] in Heq.
    apply terminated_inj in Heq as [Heq _]; [|done..]. by apply str_bytes_inj.
  - intros ->. exists l. by rewrite <-app_assoc.
Qed.

Lemma bytes_ok_app a b : bytes_ok (a ++ b) <-> bytes_ok a /\ bytes_ok b.
Proof. apply Forall_app. Qed.

Lemma bytes_ok_cons x b : bytes_ok (x :: b) <-> 0 <= x <= U8_MAX /\ bytes_ok b.
Proof. unfold bytes_ok. by rewrite Forall_cons. Qed.

Lemma digits_bytes_ok n z : bytes_ok (digits 256 n z).
Proof. eapply Forall_impl; [apply (digits_range 256); lia|]. cbn. unfold U8_MAX. lia. Qed.

Lemma bytes_ok_nil : bytes_ok [].
Proof. constructor. Qed.

Create HintDb keys.
#[export] Hint Resolve str_bytes_ok digits_bytes_ok bytes_ok_nil : keys.
Ltac keys_ok := rewrite ?bytes_ok_app, ?bytes_ok_cons; repeat (split; rewrite ?bytes_ok_app, ?bytes_ok_cons);
  unfold U8_MAX; first [lia | solve [auto with keys] | idtac].

(** Terminated names order like the names. *)
Lemma terminated_lt (a b x y : bytes) : bytes_ok a -> bytes_ok b -> 0 ∉ b -> a ≺ b -> (a ++ 0 :: x) ≺ (b ++ 0 :: y).
Proof.
  revert b. induction a as [|u a IH]; intros [|v b] Ha Hb Hz; cbn [app]; try done.
  - intros _. apply key_lt_cons. left. apply bytes_ok_cons in Hb as [Hv _].
    apply not_elem_of_cons in Hz as [Hne _]. lia.
  - rewrite !key_lt_cons. apply bytes_ok_cons in Ha as [_ Ha]. apply bytes_ok_cons in Hb as [_ Hb].
    apply not_elem_of_cons in Hz as [_ Hz]. intros [?|[-> ?]]; [by left|]. right. split; [done|]. by apply IH.
Qed.

Lemma terminated_lt_iff (a b x y : bytes) :
  bytes_ok a -> bytes_ok b -> 0 ∉ a -> 0 ∉ b -> (a ++ 0 :: x) ≺ (b ++ 0 :: y) <-> a ≺ b \/ a = b /\ x ≺ y.
Proof.
  intros Ha Hb Hza Hzb. destruct (key_lt_total a b) as [?|[->|Hba]].
  - split; [by left|]. intros _. by apply terminated_lt.
  - rewrite key_lt_app_l, key_lt_cons. split; [intros [?|[_ ?]]; [lia|by right]|].
    intros [?|[_ ?]]; [by destruct (key_lt_irrefl b)|by right].
  - assert (Hgt : (b ++ 0 :: y) ≺ (a ++ 0 :: x)) by (by apply terminated_lt).
    split; [by intros ?%key_lt_asym|]. intros [?|[-> _]]; [by destruct (key_lt_asym a b)|by apply key_lt_irrefl in Hba].
Qed.

Lemma digits_app_lt n z1 z2 (x y : bytes) :
  0 <= z1 < 256 ^ Z.of_nat n -> 0 <= z2 < 256 ^ Z.of_nat n ->
  (digits 256 n z1 ++ x) ≺ (digits 256 n z2 ++ y) <-> z1 < z2 \/ z1 = z2 /\ x ≺ y.
Proof.
  intros H1 H2. assert (Hlt : forall a b u v, 0 <= a < 256 ^ Z.of_nat n -> 0 <= b < 256 ^ Z.of_nat n -> a < b ->
    (digits 256 n a ++ u) ≺ (digits 256 n b ++ v)).
  { intros a b u v Ha Hb Hab. apply digits_lt; [lia|]. by rewrite !Z.mod_small by lia. }
  destruct (Z.lt_trichotomy z1 z2) as [?|[->|?]].
  - split; [by left|]. intros _. by apply Hlt.
  - rewrite key_lt_app_l. split; [by right|]. intros [?|[_ ?]]; [lia|done].
  - split; [intros Hc; destruct (key_lt_asym _ _ Hc); by apply Hlt|]. intros [?|[? _]]; lia.
Qed.

Lemma digits_inj_app n z1 z2 (x y : bytes) :
  0 <= z1 < 256 ^ Z.of_nat n -> 0 <= z2 < 256 ^ Z.of_nat n ->
  digits 256 n z1 ++ x = digits 256 n z2 ++ y -> z1 = z2 /\ x = y.
Proof.
  intros H1 H2 Heq. apply app_inj_1 in Heq as [Hd ->]; [|by rewrite !length_digits]. split; [|done].
  rewrite <-(of_digits_digits 256 ltac:(lia) n z1), <-(of_digits_digits 256 ltac:(lia) n z2) by done. congruence.
Qed.

(** *** Ready keys: highest priority, then oldest, then smallest id *)

Definition in_i32 (z : Z) : Prop := I32_MIN <= z <= I32_MAX.

Definition ready_rank (priority : Z) (created_at id : string) : Z * (string * string) :=
  (- priority, (created_at, id)).

Lemma str_lt_bytes (s t : string) : s ≺ t <-> str_bytes s ≺ str_bytes t.
Proof. done. Qed.

Lemma Z_lt_key (a b : Z) : a ≺ b <-> a < b.
Proof. unfold key_lt. cbn [key_cmp Z_ord]. apply Z.compare_lt_iff. Qed.

Lemma prod_lt {A B} `{OrdKey A, OrdKey B} (a a' : A) (b b' : B) : (a, b) ≺ (a', b') <-> a ≺ a' \/ a = a' /\ b ≺ b'.
Proof.
  unfold key_lt at 1. cbn [key_cmp prod_ord fst snd]. destruct (key_cmp a a') eqn:Hc.
  - apply key_cmp_eq in Hc as ->. split; [by right|]. intros [Hl|[_ ?]]; [by apply key_lt_irrefl in Hl|done].
  - split; [by left|done].
  - split; [done|]. unfold key_lt at 1. rewrite Hc. intros [?|[-> _]]; [done|]. by rewrite key_cmp_refl in Hc.
Qed.

Lemma make_ready_key_raw q p ca id :
  make_ready_key raw_codec q p ca id =
  (str_bytes q ++ [0]) ++ digits 256 4 (I32_MAX - p) ++ 0 :: str_bytes ca ++ 0 :: str_bytes id.
Proof. unfold make_ready_key, u32_to_be_bytes. cbn [encrypted raw_codec]. by rewrite <-app_assoc. Qed.

Lemma make_ready_key_order q p ca id p' ca' id' :
  in_i32 p -> in_i32 p' -> no_nul ca -> no_nul ca' ->
  make_ready_key raw_codec q p ca id ≺ make_ready_key raw_codec q p' ca' id' <->
  ready_rank p ca id ≺ ready_rank p' ca' id'.
Proof.
  unfold in_i32, I32_MIN, I32_MAX. intros Hp Hp' Hca Hca'. rewrite !make_ready_key_raw, key_lt_app_l.
  rewrite digits_app_lt by (unfold I32_MAX; lia). rewrite key_lt_cons, terminated_lt_iff by (try done; keys_ok).
  unfold ready_rank. rewrite !prod_lt, !str_lt_bytes, Z_lt_key. unfold I32_MAX. split.
  - intros [?|[? [?|[_ [?|[He ?]]]]]]; [left; lia|lia|right; split; [lia|by left]|].
    right. split; [lia|]. right. apply str_bytes_inj in He. by split.
  - intros [?|[? [?|[-> ?]]]]; [left; lia|right; split; [lia|]..].
    + right. split; [done|by left].
    + right. split; [done|by right].
Qed.

Lemma make_ready_key_inj q p ca id q' p' ca' id' :
  no_nul q -> no_nul q' -> in_i32 p -> in_i32 p' -> no_nul ca -> no_nul ca' ->
  make_ready_key raw_codec q p ca id = make_ready_key raw_codec q' p' ca' id' ->
  q = q' /\ p = p' /\ ca = ca' /\ id = id'.
Proof.
  unfold in_i32, I32_MIN, I32_MAX. intros Hq Hq' Hp Hp' Hca Hca'. rewrite !make_ready_key_raw, <-!app_assoc. cbn [app].
  intros Heq. apply terminated_inj in Heq as [Heq1 Heq]; [|done..].
  apply digits_inj_app in Heq as [Heq2 Heq]; [|unfold I32_MAX; lia..]. injection Heq as Heq.
  apply terminated_inj in Heq as [Heq3 Heq4]; [|done..]. split_and!; [by apply str_bytes_inj|unfold I32_MAX in *; lia|by apply str_bytes_inj..].
Qed.

Lemma make_ready_key_ok q p ca id : bytes_ok (make_ready_key raw_codec q p ca id).
Proof. rewrite make_ready_key_raw. keys_ok. Qed.

Lemma make_ready_key_prefix q q' p ca id :
  no_nul q -> no_nul q' ->
  starts_with (make_ready_prefix raw_codec q) (make_ready_key raw_codec q' p ca id) = true <-> q = q'.
Proof. intros. rewrite make_ready_key_raw, <-app_assoc. cbn [app]. by apply starts_with_name. Qed.

(** *** Lease keys: earliest expiry first *)

Definition in_expiry (z : Z) : Prop := 0 <= z <= I64_MAX.

Lemma make_lease_key_raw q x id :
  in_expiry x -> make_lease_key raw_codec q x id = (str_bytes q ++ [0]) ++ digits 256 8 x ++ 0 :: str_bytes id.
Proof.
  unfold in_expiry. intros Hx. unfold make_lease_key, u64_to_be_bytes. destruct (Z.ltb_spec x 0); [lia|].
  cbn [encrypted raw_codec]. by rewrite <-app_assoc.
Qed.

Lemma expiry_digits x : in_expiry x -> 0 <= x < 256 ^ Z.of_nat 8.
Proof. unfold in_expiry, I64_MAX. lia. Qed.

Lemma make_lease_key_inj q x id q' x' id' :
  no_nul q -> no_nul q' -> in_expiry x -> in_expiry x' ->
  make_lease_key raw_codec q x id = make_lease_key raw_codec q' x' id' -> q = q' /\ x = x' /\ id = id'.
Proof.
  intros Hq Hq' Hx Hx'. rewrite !make_lease_key_raw by done. rewrite <-!app_assoc. cbn [app]. intros Heq.
  apply terminated_inj in Heq as [Heq1 Heq]; [|done..].
  apply digits_inj_app in Heq as [-> Heq]; [|by apply expiry_digits..]. injection Heq as Heq.
  split_and!; [by apply str_bytes_inj|done|by apply str_bytes_inj].
Qed.

Lemma make_lease_key_ok q x id : bytes_ok (make_lease_key raw_codec q x id).
Proof. unfold make_lease_key. cbn [encrypted raw_codec]. unfold u64_to_be_bytes. keys_ok. Qed.

Lemma make_lease_key_prefix q q' x id :
  no_nul q -> no_nul q' ->
  starts_with (make_lease_prefix raw_codec q) (make_lease_key raw_codec q' x id) = true <-> q = q'.
Proof. intros. unfold make_lease_key. cbn [encrypted raw_codec app]. by apply starts_with_name. Qed.

Lemma make_lease_key_le q x id x' id' :
  in_expiry x -> in_expiry x' -> make_lease_key raw_codec q x id ≺ make_lease_key raw_codec q x' id' -> x <= x'.
Proof.
  intros Hx Hx'. rewrite !make_lease_key_raw by done. rewrite key_lt_app_l.
  rewrite digits_app_lt by (by apply expiry_digits). lia.
Qed.

(** The expiry is read back from the key. *)
Lemma lease_expiration_key q x id :
  is_str q -> in_expiry x -> lease_expiration raw_codec q (make_lease_key raw_codec q x id) = Ok x.
Proof.
  intros [_ Hq] Hx. rewrite make_lease_key_raw by done. unfold lease_expiration, make_lease_prefix. cbn [encrypted raw_codec].
  assert (Hlen : u64_saturating_add (zlen (str_bytes q ++ [0])) 8 = zlen (str_bytes q ++ [0]) + zlen (digits 256 8 x)).
  { rewrite length_digits, length_app. cbn [length]. unfold u64_saturating_add, U64_MAX, I64_MAX in *. lia. }
  rewrite Hlen, slice_app_mid. run. rewrite length_digits. cbn [Z.of_nat Pos.of_succ_nat Z.eqb Pos.eqb].
  unfold from_be_bytes. rewrite of_digits_digits by (lia || by apply expiry_digits).
  destruct (Z.leb_spec x I64_MAX) as [_|Hgt]; [done|]. unfold in_expiry in Hx. lia.
Qed.

(** *** Queue and object keys *)

Lemma scoped_key_inj d d' a b a' b' :
  no_nul a -> no_nul a' ->
  encode_scoped_key raw_codec d (str_bytes a) (str_bytes b) = encode_scoped_key raw_codec d' (str_bytes a') (str_bytes b') ->
  a = a' /\ b = b'.
Proof.
  intros Ha Ha' Heq. cbn in Heq. apply terminated_inj in Heq as [??]; [|done..]. split; by apply str_bytes_inj.
Qed.

Lemma scoped_key_ok d a b : bytes_ok (encode_scoped_key raw_codec d (str_bytes a) (str_bytes b)).
Proof. cbn. keys_ok. Qed.

Lemma scoped_key_prefix d d' a a' b :
  no_nul a -> no_nul a' ->
  starts_with (encode_scoped_prefix raw_codec d (str_bytes a)) (encode_scoped_key raw_codec d' (str_bytes a') (str_bytes b))
  = true <-> a = a'.
Proof. apply starts_with_name. Qed.

(** Within a scope, keys order like the suffixes; across scopes like the scopes. *)
Lemma scoped_key_order d a b a' b' :
  no_nul a -> no_nul a' ->
  encode_scoped_key raw_codec d (str_bytes a) (str_bytes b) ≺ encode_scoped_key raw_codec d (str_bytes a') (str_bytes b')
  <-> (a, b) ≺ (a', b').
Proof.
  intros Ha Ha'. cbn [encode_scoped_key raw_codec app]. rewrite terminated_lt_iff by (try done; keys_ok).
  rewrite prod_lt, !str_lt_bytes. split; (intros [?|[He ?]]; [by left|right; split; [|done]]).
  - by apply str_bytes_inj.
  - by rewrite He.
Qed.

(** *** Records and ids *)

Lemma serialize_raw `{Serde A wt} (a : A) : wt a -> serialize raw_codec a = Ok (json_text a).
Proof. intros Ha. unfold serialize. rewrite json_to_vec_text by done. done. Qed.

Lemma deserialize_raw `{Serde A wt} (a : A) : wt a -> deserialize raw_codec (json_text a) = Ok a.
Proof. intros Ha. unfold deserialize. cbn [decode_value raw_codec]. run. by rewrite json_from_text. Qed.

Definition queue_id_text (id : string) : bytes := RAW_QUEUE_ID_PREFIX ++ str_bytes id.

Lemma encode_queue_id_raw id : encode_queue_id raw_codec id = Ok (queue_id_text id).
Proof. done. Qed.

Lemma decode_queue_id_raw `{Serde string is_str} id :
  is_str id -> decode_queue_id raw_codec (queue_id_text id) = Ok id.
Proof.
  intros Hid. unfold decode_queue_id, strip_prefix, queue_id_text. rewrite starts_with_app, drop_app_length.
  by rewrite from_utf8_str.
Qed.

(** Computing what a batch does to a keyspace, and that its keys are proper. *)
Ltac writes_simpl := repeat first [rewrite apply_insert | rewrite apply_remove];
  repeat first [rewrite bool_decide_true by done | rewrite bool_decide_false by done].
Ltac writes_ok := repeat first [apply insert_ok | apply remove_ok | apply writes_ok_nil];
  try first [done | apply make_ready_key_ok | apply make_lease_key_ok | apply scoped_key_ok].

(** ** Well-typed records

    The values a Rust record can hold: strings are UTF-8, integers are within their width. *)

Definition in_u32 (z : Z) : Prop := 0 <= z <= U32_MAX.
Definition in_i64 (z : Z) : Prop := I64_MIN <= z <= I64_MAX.
Definition opt_i64 (o : option Z) : Prop := match o with Some z => in_i64 z | None => True end.

Record job_wt (j : QueueJob) : Prop := {
  jw_queue : is_str (jb_queue j);
  jw_id : is_str (jb_id j);
  jw_body : is_str (jb_body j);
  jw_created : is_str (jb_created_at j);
  jw_error : is_str (jb_last_error j);
  jw_attempts : in_u32 (jb_attempts j);
  jw_max : in_u32 (jb_max_attempts j);
  jw_priority : in_i32 (jb_priority j);
  jw_available : in_i64 (jb_available_at_ms j);
  jw_leased : opt_i64 (jb_leased_at_ms j);
  jw_expires : opt_i64 (jb_lease_expires_at_ms j);
  jw_completed : opt_i64 (jb_completed_at_ms j);
  jw_dead : opt_i64 (jb_dead_at_ms j);
}.

Definition in_u64 (z : Z) : Prop := 0 <= z <= U64_MAX.

Record event_wt (ev : MemoryEvent) : Prop := {
  ew_stream : is_str (ev_stream ev);
  ew_type : is_str (ev_event_type ev);
  ew_body : is_str (ev_body ev);
  ew_sequence : in_u64 (ev_sequence ev);
  ew_created : is_str (ev_created_at ev);
  ew_key : is_str (ev_idempotency_key ev);
}.
