(* ===== verification/PSample.v ===== *)
(** * Sample text formats

    Concrete instances of the [Serde] interface, so that the persistent engine can be
    evaluated on examples: a record is the sequence of its fields, a string is preceded
    by its length. *)

From S2P Require Import Prelude Wal Table Layer Database Keyspace RamScan Model Storage Persistent.

(** ** Fields *)

Definition put_str (s : string) : bytes := zlen (str_bytes s) :: str_bytes s.
Definition put_opt (o : option Z) : bytes := match o with Some z => [1; z] | None => [0] end.

Definition reader (A : Type) : Type := bytes -> option (A * bytes).

Definition get_str : reader string := fun b =>
  match b with
  | n :: b => Some (bytes_str (take (Z.to_nat n) b), drop (Z.to_nat n) b)
  | [] => None
  end.
Definition get_int : reader Z := fun b => match b with z :: b => Some (z, b) | [] => None end.
Definition get_opt : reader (option Z) := fun b =>
  match b with
  | n :: z :: b => if n =? 1 then Some (Some z, b) else Some (None, z :: b)
  | n :: b => Some (None, b)
  | [] => None
  end.

Lemma get_put_str s r : get_str (put_str s ++ r) = Some (s, r).
Proof. cbn. by rewrite Nat2Z.id, take_app_length, drop_app_length, bytes_str_bytes. Qed.

Lemma get_put_opt o r : get_opt (put_opt o ++ r) = Some (o, r).
Proof. destruct o; cbn; [done|]. by destruct r. Qed.

Lemma get_put_int z r : get_int (z :: r) = Some (z, r).
Proof. done. Qed.

Definition finish {A} (o : option (A * bytes)) : storage_result A :=
  match o with Some (a, []) => Ok a | _ => Err "malformed record" end.

(** ** Strings and jobs *)

#[export, refine] Instance sample_serde_string : Serde string is_str := {|
  json_to_vec s := Ok (put_str s);
  json_from_slice b := finish (get_str b);
|}.
Proof. intros s _. eexists. split; [done|]. by rewrite <-(app_nil_r (put_str s)), get_put_str. Defined.

Definition status_code (s : QueueJobStatus) : Z :=
  match s with Ready => 0 | Leased => 1 | Completed => 2 | Dead => 3 end.
Definition status_of (z : Z) : QueueJobStatus :=
  if z =? 0 then Ready else if z =? 1 then Leased else if z =? 2 then Completed else Dead.

Definition put_job (j : QueueJob) : bytes :=
  put_str (jb_queue j) ++ put_str (jb_id j) ++ put_str (jb_body j) ++ jb_attempts j :: jb_max_attempts j ::
  status_code (jb_status j) :: jb_available_at_ms j :: put_opt (jb_leased_at_ms j) ++ put_opt (jb_lease_expires_at_ms j) ++
  put_opt (jb_completed_at_ms j) ++ put_opt (jb_dead_at_ms j) ++ put_str (jb_created_at j) ++ put_str (jb_last_error j) ++
  [jb_priority j].

Definition get_job : reader QueueJob := fun b =>
  '(queue, b) ← get_str b; '(id, b) ← get_str b; '(body, b) ← get_str b;
  '(attempts, b) ← get_int b; '(max_attempts, b) ← get_int b; '(status, b) ← get_int b; '(available, b) ← get_int b;
  '(leased, b) ← get_opt b; '(expires, b) ← get_opt b; '(completed, b) ← get_opt b; '(dead, b) ← get_opt b;
  '(created, b) ← get_str b; '(error, b) ← get_str b; '(priority, b) ← get_int b;
  Some (mkJob queue id body attempts max_attempts (status_of status) available leased expires completed dead
          created error priority, b).

Lemma get_put_job j : get_job (put_job j) = Some (j, []).
Proof.
  unfold get_job, put_job. repeat (rewrite ?get_put_str, ?get_put_int, ?get_put_opt; cbn [mbind option_bind]).
  by destruct j as [?????[]????????].
Qed.

#[export, refine] Instance sample_serde_job : Serde QueueJob job_wt := {|
  json_to_vec j := Ok (put_job j);
  json_from_slice b := finish (get_job b);
|}.
Proof. intros j _. eexists. split; [done|]. by rewrite get_put_job. Defined.

(** ** Events *)

Definition put_event (ev : MemoryEvent) : bytes :=
  put_str (ev_stream ev) ++ put_str (ev_event_type ev) ++ put_str (ev_body ev) ++ ev_sequence ev ::
  put_str (ev_created_at ev) ++ put_str (ev_idempotency_key ev).

Definition get_event : reader MemoryEvent := fun b =>
  '(stream, b) ← get_str b; '(event_type, b) ← get_str b; '(body, b) ← get_str b; '(sequence, b) ← get_int b;
  '(created, b) ← get_str b; '(key, b) ← get_str b;
  Some (mkEvent stream event_type body sequence created key, b).

Lemma get_put_event ev : get_event (put_event ev) = Some (ev, []).
Proof.
  unfold get_event, put_event. rewrite <-(app_nil_r (put_str (ev_idempotency_key ev))).
  repeat (rewrite ?get_put_str, ?get_put_int; cbn [mbind option_bind]). by destruct ev.
Qed.

#[export, refine] Instance sample_serde_event : Serde MemoryEvent event_wt := {|
  json_to_vec ev := Ok (put_event ev);
  json_from_slice b := finish (get_event b);
|}.
Proof. intros ev _. eexists. split; [done|]. by rewrite get_put_event. Defined.

(** ** An engine over a store *)

Definition store_engine {D} (db : D) (in_memory : bool) : PersistentEngine D :=
  mkPersistent db raw_codec in_memory 1 ∅ ∅ ∅ ∅ ∅ [] ∅ true Claim.

(** ** Strings of examples *)

Lemma sample_str s : (utf8_valid (str_bytes s) && (zlen (str_bytes s) <=? I64_MAX)) = true -> is_str s.
Proof. intros [H1 H2%Z.leb_le]%andb_true_iff. by split. Qed.

Lemma sample_nul s : bool_decide (0 ∉ str_bytes s) = true -> no_nul s.
Proof. apply bool_decide_eq_true. Qed.

(** ** A store that stops taking commits

    The first [n] commits are taken, every later one is refused. *)

Definition limited_kv `{Kv D} : Kv (D * nat) := {|
  kv_get s := kv_get s.1;
  kv_scan s := kv_scan s.1;
  kv_count_prefix s := kv_count_prefix s.1;
  kv_commit s ws :=
    match s.2 with
    | O => (Err "no space left on device", s)
    | S n => let '(r, db) := kv_commit s.1 ws in (r, (db, n))
    end;
|}.

#[local] Existing Instance limited_kv.

#[refine] Definition limited_kv_laws `{KvLaws D} : KvLaws (D * nat) := {|
  kv_ok s := kv_ok s.1;
  kv_view s := kv_view s.1;
|}.
Proof.
  - intros [s c] n k v. apply (kv_keys_ok (D := D) s).
  - intros [s c] n k. apply (kv_get_view (D := D) s).
  - intros [s c] n b. apply (kv_scan_view (D := D) s).
  - intros [s c] n p. apply (kv_count_view (D := D) s).
  - intros [s [|c]] ws r s' Hok Hws; cbn [kv_commit limited_kv fst snd]; [by intros [= <- <-]|].
    destruct (kv_commit s ws) as [r0 db] eqn:Hc. intros [= <- <-]. by eapply (kv_commit_view (D := D) s).
Defined.
