(* ===== verification/PStore.v ===== *)
(** * thingd: records and their entries in the store

    What the stores of the persistent engine share: an index keyspace that holds one
    entry per record of a map, listing such an index, and the two ways a commit can
    end. *)

From S2P Require Import Prelude Wal Table Layer Database ThingDb Keyspace RamScan Model Storage Persistent.

Lemma Forall2_choose {A B} (R : A -> B -> Prop) l :
  (forall x, x ∈ l -> exists y, R x y) -> exists k, Forall2 R l k.
Proof.
  induction l as [|x l IH]; intros Hall; [by exists []|].
  destruct (Hall x) as [y Hy]; [by left|]. destruct IH as [k Hk]; [intros z Hz; apply Hall; by right|].
  exists (y :: k). by constructor.
Qed.

Lemma Forall2_sorted {A B} (R : A -> A -> Prop) (R' : B -> B -> Prop) (T : A -> B -> Prop) l k :
  StronglySorted R l -> Forall2 T l k -> (forall x y x' y', T x x' -> T y y' -> R x y -> R' x' y') -> StronglySorted R' k.
Proof.
  intros Hs Hall HR. revert k Hall. induction Hs as [|x l Hs IH Hx]; intros k Hall; [apply Forall2_nil_inv_l in Hall as ->; constructor|].
  apply Forall2_cons_inv_l in Hall as (x'&k'&Hxx&Hall&->). constructor; [auto|].
  apply Forall_forall. intros y' Hy'. apply list_elem_of_lookup in Hy' as [n Hn].
  destruct (Forall2_lookup_r _ _ _ _ _ Hall Hn) as (y&Hy&Hyy). rewrite Forall_forall in Hx.
  eapply HR; [done..|]. apply Hx. by eapply list_elem_of_lookup_2.
Qed.

Lemma filter_fmap {A B} (f : A -> B) (p : B -> bool) l : List.filter p (f <$> l) = f <$> List.filter (fun x => p (f x)) l.
Proof. induction l as [|x l IH]; [done|]. rewrite fmap_cons. cbn. rewrite IH. by destruct (p (f x)). Qed.

(** ** Indexes of a map of records

    [f] gives the entry a record has in the index, if any. *)

Section index.
Context {K A : Type} `{Countable K} (f : A -> option (bytes * bytes)) (P : K -> A -> Prop).
Context (f_inj : forall i j i' j' k v v', P i j -> P i' j' -> f j = Some (k, v) -> f j' = Some (k, v') -> i = i').

Definition indexed (m : bmap bytes) (J : gmap K A) : Prop :=
  forall k v, m !! k = Some v <-> exists i j, J !! i = Some j /\ f j = Some (k, v).

Definition drop_entry (o : option A) (m : bmap bytes) : bmap bytes :=
  match o ≫= f with Some (k, _) => delete k m | None => m end.
Definition add_entry (j : A) (m : bmap bytes) : bmap bytes :=
  match f j with Some (k, v) => <[k := v]> m | None => m end.

Implicit Types (m : bmap bytes) (J : gmap K A).

Lemma indexed_drop m J i :
  (forall i j, J !! i = Some j -> P i j) -> indexed m J -> indexed (drop_entry (J !! i) m) (delete i J).
Proof using f_inj.
  intros HP Hm k v. unfold drop_entry. destruct (J !! i) as [j0|] eqn:Hi; cbn [mbind option_bind].
  2: { rewrite delete_id by done. apply Hm. }
  assert (Hgoal : (exists i' j, delete i J !! i' = Some j /\ f j = Some (k, v)) <->
    (exists j, J !! i = Some j /\ f j = Some (k, v) /\ False) \/
    exists i' j, i <> i' /\ J !! i' = Some j /\ f j = Some (k, v)).
  { split.
    - intros (i'&j&Hj&Hf). apply lookup_delete_Some in Hj as [Hne Hj]. right. by exists i', j.
    - intros [(?&_&_&[])|(i'&j&Hne&Hj&Hf)]. exists i', j. by rewrite lookup_delete_ne. }
  rewrite Hgoal. destruct (f j0) as [[k0 v0]|] eqn:Hf0.
  - rewrite lookup_delete_Some, (Hm k v). split.
    + intros [Hne (i'&j&Hj&Hf)]. right. exists i', j. split_and!; [|done..]. intros <-. congruence.
    + intros [(?&_&_&[])|(i'&j&Hne&Hj&Hf)]. split; [|eauto]. intros ->. apply Hne. eapply f_inj; eauto.
  - rewrite (Hm k v). split.
    + intros (i'&j&Hj&Hf). right. exists i', j. split_and!; [|done..]. intros <-. congruence.
    + intros [(?&_&_&[])|(i'&j&_&Hj&Hf)]. eauto.
Qed.

Lemma indexed_add m J i j :
  (forall i j, J !! i = Some j -> P i j) -> P i j -> J !! i = None -> indexed m J -> indexed (add_entry j m) (<[i := j]> J).
Proof using f_inj.
  intros HP Hj Hi Hm k v. unfold add_entry.
  assert (Hgoal : (exists i' j', <[i := j]> J !! i' = Some j' /\ f j' = Some (k, v)) <->
    f j = Some (k, v) \/ exists i' j', J !! i' = Some j' /\ f j' = Some (k, v)).
  { split.
    - intros (i'&j'&Hj'&Hf). apply lookup_insert_Some in Hj' as [[-> ->]|[_ Hj']]; [by left|right; eauto].
    - intros [Hf|(i'&j'&Hj'&Hf)]; [exists i, j; by rewrite lookup_insert_eq|].
      exists i', j'. rewrite lookup_insert_ne; [done|congruence]. }
  rewrite Hgoal, <-(Hm k v). destruct (f j) as [[k0 v0]|] eqn:Hf0.
  - rewrite lookup_insert_Some. split.
    + intros [[-> ->]|[_ ?]]; [by left|by right].
    + intros [[= -> ->]|Hk]; [by left|]. right. split; [|done]. intros ->.
      apply Hm in Hk as (i'&j'&Hj'&Hf). assert (i = i') as <- by (eapply f_inj; eauto). congruence.
  - split; [by right|]. by intros [?|?].
Qed.

Lemma indexed_update m J i j :
  (forall i j, J !! i = Some j -> P i j) -> P i j -> indexed m J ->
  indexed (add_entry j (drop_entry (J !! i) m)) (<[i := j]> J).
Proof using f_inj.
  intros HP Hj Hm. rewrite <-(insert_delete_eq J i j). apply indexed_add.
  - intros i' j' Hj'. apply lookup_delete_Some in Hj' as [_ ?]. eauto.
  - done.
  - apply lookup_delete_eq.
  - by apply indexed_drop.
Qed.

(** An entry that belongs to no job of the map is absent. *)
Lemma indexed_absent m J i j k v :
  (forall i j, J !! i = Some j -> P i j) -> indexed m J -> P i j -> f j = Some (k, v) ->
  J !! i ≫= f = None -> m !! k = None.
Proof using f_inj.
  intros HP Hm Hj Hf Hnone. destruct (m !! k) as [v'|] eqn:Hk; [|done].
  apply Hm in Hk as (i'&j'&Hj'&Hf'). assert (i = i') as <- by (eapply f_inj; eauto).
  rewrite Hj' in Hnone. cbn in Hnone. congruence.
Qed.

(** The records behind the entries of a prefix, in the order of the keys. *)
Lemma indexed_list m J p :
  (forall i j, J !! i = Some j -> P i j) -> indexed m J ->
  exists js, Forall2 (fun x j => f j = Some x) (prefix_entries p m) js /\
    forall j, j ∈ js <-> exists i x, J !! i = Some j /\ f j = Some x /\ starts_with p x.1 = true.
Proof using f_inj.
  intros HP Hm. destruct (Forall2_choose (fun x j => f j = Some x /\ exists i, J !! i = Some j) (prefix_entries p m)) as [js Hjs].
  { intros [k v] [Hk _]%elem_of_prefix_entries. apply Hm in Hk as (i&j&Hi&Hf). exists j. eauto. }
  exists js. split; [eapply Forall2_impl; [exact Hjs|]; by intros x j [? _]|]. intros j. split.
  - intros Hj. apply list_elem_of_lookup in Hj as [n Hn]. destruct (Forall2_lookup_r _ _ _ _ _ Hjs Hn) as ([k v]&Hx&Hf&i&Hi).
    apply list_elem_of_lookup_2, elem_of_prefix_entries in Hx as [_ Hp]. by exists i, (k, v).
  - intros (i&[k v]&Hi&Hf&Hp). assert (Hx : (k, v) ∈ prefix_entries p m).
    { apply elem_of_prefix_entries. split; [|done]. apply Hm. eauto. }
    apply list_elem_of_lookup in Hx as [n Hn]. destruct (Forall2_lookup_l _ _ _ _ _ Hjs Hn) as (j'&Hn'&Hf'&i'&Hi').
    assert (i = i') as <- by (eapply f_inj; eauto). assert (j = j') as -> by congruence. by eapply list_elem_of_lookup_2.
Qed.
End index.

Lemma indexed_empty {A K} `{Countable K} (f : A -> option (bytes * bytes)) : indexed f ∅ (∅ : gmap K A).
Proof. intros k v. rewrite lookup_empty. split; [done|]. intros (i&j&Hi&_). by rewrite lookup_empty in Hi. Qed.

(** ** Entries in the order of their records *)

Lemma sort_by_strict {A K} `{OrdKey K} (g : A -> K) (ks : list A) :
  NoDup (g <$> ks) -> StronglySorted (fun a b => g a ≺ g b) (sort_by (fun a b => key_cmp (g a) (g b)) ks).
Proof.
  intros Hnd. pose proof (sort_by_sorted (fun a b => key_cmp (g a) (g b)) ks) as Hs.
  assert (Hnd' : NoDup (g <$> sort_by (fun a b => key_cmp (g a) (g b)) ks)) by (by rewrite sort_by_perm).
  induction Hs as [|x l _ IH Hall]; [constructor|]. rewrite fmap_cons in Hnd'. apply NoDup_cons in Hnd' as [Hx Hnd'].
  constructor; [by apply IH|]. rewrite Forall_forall in Hall |- *. intros y Hy. specialize (Hall y Hy). unfold key_lt.
  destruct (key_cmp (g x) (g y)) eqn:Hc; [|done..]. apply key_cmp_eq in Hc. destruct Hx. rewrite Hc. by apply list_elem_of_fmap_2.
Qed.

Lemma btree_iter_strict {V} `{OrdKey K, Countable K} (m : gmap K V) : StronglySorted (fun x y => x.1 ≺ y.1) (btree_iter m).
Proof.
  pose proof (btree_keys_sorted m) as Hs. unfold btree_keys in Hs. induction (btree_iter m) as [|x l IH]; [constructor|].
  rewrite fmap_cons in Hs. apply StronglySorted_inv in Hs as [Hs Hall]. constructor; [by apply IH|].
  rewrite Forall_forall in Hall. apply Forall_forall. intros y Hy. apply Hall. by apply (list_elem_of_fmap_2 fst).
Qed.

(** The entries with a prefix are those of a list of records, sorted by a rank that the keys
    follow. *)
Lemma entries_by_rank {A K} `{OrdKey K} (g : A -> K) (f : A -> bytes * bytes) (p : bytes) (V : bmap bytes) (ks : list A) :
  NoDup (g <$> ks) -> (forall a b, a ∈ ks -> b ∈ ks -> g a ≺ g b -> (f a).1 ≺ (f b).1) ->
  (forall x, x ∈ prefix_entries p V <-> exists a, a ∈ ks /\ f a = x) ->
  prefix_entries p V = f <$> sort_by (fun a b => key_cmp (g a) (g b)) ks.
Proof.
  intros Hnd Hmono Hin. apply sorted_entries_ext; [apply prefix_entries_sorted| |].
  - assert (Hsub : Forall (fun a => a ∈ ks) (sort_by (fun a b => key_cmp (g a) (g b)) ks)).
    { apply Forall_forall. intros a. by rewrite elem_of_sort_by. }
    pose proof (sort_by_strict g ks Hnd) as Hs. induction Hs as [|x l _ IH Hall]; [constructor|].
    apply Forall_cons in Hsub as [Hx Hsub]. rewrite fmap_cons. constructor; [by apply IH|].
    apply Forall_forall. intros y (a&->&Ha)%list_elem_of_fmap. rewrite Forall_forall in Hall. rewrite Forall_forall in Hsub. auto.
  - intros x. rewrite Hin, list_elem_of_fmap. setoid_rewrite elem_of_sort_by. naive_solver.
Qed.

Lemma prefix_entries_nil (V : bmap bytes) : prefix_entries [] V = btree_iter V.
Proof. by apply filter_all. Qed.

(** ** Commits *)

Section commits.
Context `{KvLaws D}.
Implicit Types (e : PersistentEngine D).

(** The storage refused a batch it could have taken. *)
Definition commit_failed (err : ThingdError) : Prop :=
  exists db ws db' msg, kv_ok db /\ Forall write_ok ws /\ kv_commit db ws = (Err msg, db') /\ err = Storage msg.
Definition refused {A} (r : thingd_result A) : Prop := exists err, r = Err err /\ commit_failed err.

Lemma commit_cases e ws r e' :
  kv_ok (pe_db e) -> Forall write_ok ws -> commit ws e = (r, e') ->
  exists db, e' = set_db e db /\ kv_ok db /\
    ((r = Ok () /\ forall n, valid_name n -> kv_view db n = apply_writes n ws (kv_view (pe_db e) n)) \/
     (exists err, r = Err err /\ commit_failed err /\ forall n, valid_name n -> kv_view db n = kv_view (pe_db e) n)).
Proof.
  intros Hok Hws. unfold commit. destruct (kv_commit (pe_db e) ws) as [r0 db] eqn:Hc. intros [= <- <-].
  destruct (kv_commit_view _ _ _ _ Hok Hws Hc) as [Hok' Hview]. exists db. split_and!; [done..|].
  destruct r0 as [[]|msg]; [left|right]; [done|]. exists (Storage msg). split_and!; [done| |done].
  exists (pe_db e), ws, db, msg. done.
Qed.

(** A batch of one write. *)
Definition put_view (ks : string) (k v : bytes) (view : string -> bmap bytes) (n : string) : bmap bytes :=
  if bool_decide (n = ks) then <[k := v]> (view n) else view n.
Definition drop_view (ks : string) (k : bytes) (view : string -> bmap bytes) (n : string) : bmap bytes :=
  if bool_decide (n = ks) then delete k (view n) else view n.

Lemma put_view_ext (ks : string) (k v : bytes) (view view' : string -> bmap bytes) n : view n = view' n -> put_view ks k v view n = put_view ks k v view' n.
Proof. unfold put_view. by intros ->. Qed.
Lemma drop_view_ext (ks : string) (k : bytes) (view view' : string -> bmap bytes) n : view n = view' n -> drop_view ks k view n = drop_view ks k view' n.
Proof. unfold drop_view. by intros ->. Qed.

Lemma ks_insert_atomic e ks k v r e' :
  kv_ok (pe_db e) -> valid_name ks -> bytes_ok k -> ks_insert ks k v e = (r, e') ->
  exists db, e' = set_db e db /\ kv_ok db /\
    ((r = Ok () /\ forall n, valid_name n -> kv_view db n = put_view ks k v (kv_view (pe_db e)) n) \/
     (exists err, r = Err err /\ commit_failed err /\ forall n, valid_name n -> kv_view db n = kv_view (pe_db e) n)).
Proof.
  intros Hok Hks Hk Hrun. destruct (commit_cases e _ r e' Hok (insert_ok [] ks k v writes_ok_nil Hks Hk) Hrun)
    as (db&->&Hdb&[[-> Hview]|(err&->&Hf&Hview)]); exists db; split_and!; try done; [left|right; eauto].
  split; [done|]. intros n Hn. rewrite Hview, apply_insert by done. unfold put_view.
  destruct (decide (n = ks)) as [->|Hne]; [by rewrite !bool_decide_true|by rewrite !bool_decide_false by congruence].
Qed.

Lemma ks_insert_cases e ks k v r e' :
  kv_ok (pe_db e) -> valid_name ks -> bytes_ok k -> ks_insert ks k v e = (r, e') ->
  exists db, e' = set_db e db /\ kv_ok db /\
    ((r = Ok () /\ forall n, valid_name n -> kv_view db n = put_view ks k v (kv_view (pe_db e)) n) \/
     (exists err, r = Err err /\ commit_failed err)).
Proof.
  intros Hok Hks Hk Hrun. destruct (ks_insert_atomic e ks k v r e' Hok Hks Hk Hrun) as (db&?&?&[?|(err&?&?&_)]); eauto 8.
Qed.

Lemma ks_remove_atomic e ks k r e' :
  kv_ok (pe_db e) -> valid_name ks -> bytes_ok k -> ks_remove ks k e = (r, e') ->
  exists db, e' = set_db e db /\ kv_ok db /\
    ((r = Ok () /\ forall n, valid_name n -> kv_view db n = drop_view ks k (kv_view (pe_db e)) n) \/
     (exists err, r = Err err /\ commit_failed err /\ forall n, valid_name n -> kv_view db n = kv_view (pe_db e) n)).
Proof.
  intros Hok Hks Hk Hrun. destruct (commit_cases e _ r e' Hok (remove_ok [] ks k writes_ok_nil Hks Hk) Hrun)
    as (db&->&Hdb&[[-> Hview]|(err&->&Hf&Hview)]); exists db; split_and!; try done; [left|right; eauto].
  split; [done|]. intros n Hn. rewrite Hview, apply_remove by done. unfold drop_view.
  destruct (decide (n = ks)) as [->|Hne]; [by rewrite !bool_decide_true|by rewrite !bool_decide_false by congruence].
Qed.

Lemma ks_remove_cases e ks k r e' :
  kv_ok (pe_db e) -> valid_name ks -> bytes_ok k -> ks_remove ks k e = (r, e') ->
  exists db, e' = set_db e db /\ kv_ok db /\
    ((r = Ok () /\ forall n, valid_name n -> kv_view db n = drop_view ks k (kv_view (pe_db e)) n) \/
     (exists err, r = Err err /\ commit_failed err)).
Proof.
  intros Hok Hks Hk Hrun. destruct (ks_remove_atomic e ks k r e' Hok Hks Hk Hrun) as (db&?&?&[?|(err&?&?&_)]); eauto 8.
Qed.
End commits.
