(* ===== verification/PQueue.v ===== *)
(** * thingd: queues of the persistent engine

    Models [impl QueueStore for PersistentEngine] of [crates/thingd/src/persistent.rs]
    with [claim_batch_atomic], the lease and ready-cursor caches and the lease index
    rebuilt when a database is opened.  Job records live in the keyspace [queue_jobs];
    [ready_jobs] and [lease_jobs] index them by claim order and by expiry.  Diagnostics
    counters and timings are left out; each clock reading is an argument. *)

From S2P Require Import Prelude Wal Table Layer Database Keyspace RamScan Model Queue Storage Persistent PSample.

(** ** Caches *)

Definition first_key_value (m : gmap Z Z) : option (Z * Z) := head (btree_iter m).

(** [as i64], and [+] on [i64] in a release build. *)
Definition i64_wrap (z : Z) : Z := (z - I64_MIN) mod (U64_MAX + 1) + I64_MIN.

Definition remove_expiration (m : gmap Z Z) (expires_at_ms : Z) : gmap Z Z :=
  match m !! expires_at_ms with
  | Some count =>
      let count := u64_saturating_sub count 1 in
      if count =? 0 then delete expires_at_ms m else <[expires_at_ms := count]> m
  | None => m
  end.
Definition add_expiration (m : gmap Z Z) (expires_at_ms : Z) : gmap Z Z :=
  <[expires_at_ms := u64_wrapping_add (default 0 (m !! expires_at_ms)) 1]> m.

Section queue.
Context `{Kv D} `{!Serde QueueJob job_wt} `{!Serde string is_str}.
Implicit Types (e : PersistentEngine D) (queue id : string) (now : Z).

Definition queue_has_active_leases e queue : bool :=
  match pe_queue_lease_counts e !! queue with Some count => 0 <? count | None => false end.

Definition queue_has_expired_leases e queue now : bool :=
  match pe_queue_lease_expirations e !! queue ≫= first_key_value with
  | None => queue_has_active_leases e queue
  | Some (expires_at_ms, _) => expires_at_ms <=? now
  end.

Definition apply_queue_lease_expiration_delta e queue (removed added : list Z) : PersistentEngine D :=
  if bool_decide (removed = []) && bool_decide (added = []) then e else
  let expirations := default ∅ (pe_queue_lease_expirations e !! queue) in
  let expirations := foldl add_expiration (foldl remove_expiration expirations removed) added in
  set_leases e (pe_queue_lease_counts e)
    (if bool_decide (expirations = ∅) then delete queue (pe_queue_lease_expirations e)
     else <[queue := expirations]> (pe_queue_lease_expirations e)).

Definition apply_queue_lease_delta e queue (removed added : Z) : PersistentEngine D :=
  if (removed =? 0) && (added =? 0) then e else
  let current := default 0 (pe_queue_lease_counts e !! queue) in
  let updated := u64_saturating_add (u64_saturating_sub current removed) added in
  set_leases e
    (if updated =? 0 then delete queue (pe_queue_lease_counts e)
     else <[queue := updated]> (pe_queue_lease_counts e)) (pe_queue_lease_expirations e).

Definition set_cursor e queue (cursor : QueueReadyCursor) : PersistentEngine D :=
  set_cursors e (<[queue := cursor]> (pe_queue_ready_cursors e)).

Definition first_queue_ready_entry queue : PM D (option (bytes * bytes)) :=
  let* e := pget in
  match pe_queue_ready_cursors e !! queue with
  | Some cursor => pret cursor
  | None =>
      let* entry := plift (storage_error (first_prefix_after (pe_db e) "ready_jobs"
                             (make_ready_prefix (pe_codec e) queue) None)) in
      let* _ := pmodify (fun e => set_cursor e queue entry) in
      pret entry
  end.

Definition cache_queue_ready_min e queue (entry : bytes * bytes) : PersistentEngine D :=
  match pe_queue_ready_cursors e !! queue with
  | Some cursor =>
      if match cursor with None => true | Some (current, _) => key_ltb entry.1 current end
      then set_cursor e queue (Some entry) else e
  | None => e
  end.

(** ** Pushing *)

(** [created_at] filled in when empty. *)
Definition stamp_job (now_iso : string) (j : QueueJob) : QueueJob :=
  if bool_decide (jb_created_at j = "") then
    mkJob (jb_queue j) (jb_id j) (jb_body j) (jb_attempts j) (jb_max_attempts j) (jb_status j)
      (jb_available_at_ms j) (jb_leased_at_ms j) (jb_lease_expires_at_ms j) (jb_completed_at_ms j)
      (jb_dead_at_ms j) now_iso (jb_last_error j) (jb_priority j)
  else j.

Definition job_ready_key (c : StorageCodec) (j : QueueJob) : bytes :=
  make_ready_key c (jb_queue j) (jb_priority j) (jb_created_at j) (jb_id j).

(** The ready entry of a job that is ready. *)
Definition ready_entry (c : StorageCodec) (j : QueueJob) : thingd_result (option (bytes * bytes)) :=
  if bool_decide (jb_status j = Ready) then
    rdata ← encode_queue_id c (jb_id j); Ok (Some (job_ready_key c j, rdata))
  else Ok None.

Definition pe_push_job (now_iso : string) (job : QueueJob) : PM D QueueJob :=
  let* e := pget in
  let c := pe_codec e in
  let job := stamp_job now_iso job in
  let key := make_queue_key c (jb_queue job) (jb_id job) in
  let* data := plift (serialize c job) in
  let* entry := plift (ready_entry c job) in
  let batch := batch_insert [] "queue_jobs" key data in
  let batch := match entry with
               | Some (rkey, rdata) => batch_insert batch "ready_jobs" rkey rdata
               | None => batch
               end in
  let* _ := commit batch in
  let* _ := pmodify (fun e => match entry with
                              | Some entry => cache_queue_ready_min e (jb_queue job) entry
                              | None => e
                              end) in
  pret job.

(** The loop of [push_jobs_batch]: the batch, the ready entries and the jobs.  Each job comes with
    the reading of the clock at its turn. *)
Fixpoint push_jobs_loop (c : StorageCodec) (jobs : list (string * QueueJob)) (batch : list BatchWrite)
    (ready_keys : list (string * (bytes * bytes))) (results : list QueueJob)
    : thingd_result (list BatchWrite * list (string * (bytes * bytes)) * list QueueJob) :=
  match jobs with
  | [] => Ok (batch, ready_keys, results)
  | (now_iso, job) :: jobs =>
      let job := stamp_job now_iso job in
      data ← serialize c job;
      let batch := batch_insert batch "queue_jobs" (make_queue_key c (jb_queue job) (jb_id job)) data in
      entry ← ready_entry c job;
      match entry with
      | Some entry =>
          push_jobs_loop c jobs (batch_insert batch "ready_jobs" entry.1 entry.2)
            (ready_keys ++ [(jb_queue job, entry)]) (results ++ [job])
      | None => push_jobs_loop c jobs batch ready_keys (results ++ [job])
      end
  end.

Definition pe_push_jobs_batch (jobs : list (string * QueueJob)) : PM D (list QueueJob) :=
  let* e := pget in
  let* encoded := plift (push_jobs_loop (pe_codec e) jobs [] [] []) in
  let '(batch, ready_keys, results) := encoded in
  let* _ := commit batch in
  let* _ := pmodify (fun e => foldl (fun e p => cache_queue_ready_min e p.1 p.2) e ready_keys) in
  pret results.

(** ** Claiming one job *)

(** What the loop over expired leases collects. *)
Record ExpiryScan := mkExpiry {
  es_batch : list BatchWrite;
  es_writes : bool;
  es_count : Z;
  es_expirations : list Z;
  es_ready : list (bytes * bytes);
}.

Definition scan_fuel e (ks : string) : nat := S (length (kv_iter (pe_db e) ks)).
Definition out_of_fuel : ThingdError := Storage "scan does not advance".

Definition drop_lease (acc : ExpiryScan) (lease_key : bytes) (expires_at_ms : Z) : ExpiryScan :=
  mkExpiry (batch_remove (es_batch acc) "lease_jobs" lease_key) true (u64_saturating_add (es_count acc) 1)
    (es_expirations acc ++ [expires_at_ms]) (es_ready acc).

Fixpoint expiry_loop (fuel : nat) e queue now (after : option bytes) (acc : ExpiryScan) : thingd_result ExpiryScan :=
  match fuel with
  | O => Err out_of_fuel
  | S fuel =>
      let c := pe_codec e in
      if negb (queue_has_expired_leases e queue now) then Ok acc else
      kv ← storage_error (first_prefix_after (pe_db e) "lease_jobs" (make_lease_prefix c queue) after);
      match kv with
      | None => Ok acc
      | Some (lease_key, lease_value) =>
          expires_at_ms ← lease_expiration c queue lease_key;
          if now <? expires_at_ms then Ok acc else
          job_id ← decode_queue_id c lease_value;
          let qkey := make_queue_key c queue job_id in
          job_data ← storage_error (kv_get (pe_db e) "queue_jobs" qkey);
          match job_data with
          | None => expiry_loop fuel e queue now (Some lease_key) (drop_lease acc lease_key expires_at_ms)
          | Some data =>
              job ← deserialize (A := QueueJob) c data;
              let acc := drop_lease acc lease_key expires_at_ms in
              if lease_expired now job then
                let job := release_lease job in
                data ← serialize c job;
                let rkey := job_ready_key c job in
                rdata ← encode_queue_id c (jb_id job);
                expiry_loop fuel e queue now (Some lease_key)
                  (mkExpiry (batch_insert (batch_insert (es_batch acc) "queue_jobs" qkey data) "ready_jobs" rkey rdata)
                     true (es_count acc) (es_expirations acc) (es_ready acc ++ [(rkey, rdata)]))
              else expiry_loop fuel e queue now (Some lease_key) acc
          end
      end
  end.

(** The id a ready entry names; entries of the first format keep it in the key only. *)
Definition ready_job_id (c : StorageCodec) (key value : bytes) : thingd_result (option string) :=
  if bool_decide (value = []) then
    let parts := splitn 4 0 (from_utf8_lossy key) in
    Ok (if (4 <=? length parts)%nat then bytes_str <$> parts !! 3%nat else None)
  else Some <$> decode_queue_id c value.

(** A stale ready entry is removed and the cursor moved past it. *)
Definition repair_ready queue (rkey : bytes) : PM D unit :=
  let* e := pget in
  let* next_cursor := plift (storage_error (first_prefix_after (pe_db e) "ready_jobs"
                               (make_ready_prefix (pe_codec e) queue) (Some rkey))) in
  let* _ := commit (batch_remove [] "ready_jobs" rkey) in
  pmodify (fun e => set_cursor e queue next_cursor).

Definition claim_transition (acknowledge_immediately : bool) now (options : QueueClaimOptions) (j : QueueJob) : QueueJob :=
  let j := set_leased j (u32_saturating_add (jb_attempts j) 1) now options in
  if acknowledge_immediately then set_completed now j else j.

Definition claim_entry queue (options : QueueClaimOptions) now (acknowledge_immediately : bool)
    (rkey qkey : bytes) (job : QueueJob) (earliest_delayed_key : option (bytes * bytes)) : PM D (option QueueJob) :=
  let* e := pget in
  let c := pe_codec e in
  let job := claim_transition acknowledge_immediately now options job in
  let expires := default 0 (jb_lease_expires_at_ms job) in
  let* data := plift (serialize c job) in
  let* next_cursor := plift (storage_error (first_prefix_after (pe_db e) "ready_jobs"
                               (make_ready_prefix c queue) (Some rkey))) in
  let batch := batch_insert (batch_remove [] "ready_jobs" rkey) "queue_jobs" qkey data in
  let* batch := plift (if acknowledge_immediately then Ok batch else
                         lease_value ← encode_queue_id c (jb_id job);
                         Ok (batch_insert batch "lease_jobs" (make_lease_key c queue expires (jb_id job)) lease_value)) in
  let* _ := commit batch in
  let* _ := pmodify (fun e =>
    let e := set_cursor e queue (match earliest_delayed_key with Some k => Some k | None => next_cursor end) in
    if acknowledge_immediately then e
    else apply_queue_lease_expiration_delta (apply_queue_lease_delta e queue 0 1) queue [] [expires]) in
  pret (Some job).

Fixpoint claim_ready_loop (fuel : nat) queue (options : QueueClaimOptions) now (acknowledge_immediately : bool)
    (after_key : option bytes) (first_ready_lookup : bool) (earliest_delayed_key : option (bytes * bytes))
    : PM D (option QueueJob) :=
  match fuel with
  | O => plift (Err out_of_fuel)
  | S fuel =>
      let* e := pget in
      let c := pe_codec e in
      let* next := (if first_ready_lookup then first_queue_ready_entry queue
                    else plift (storage_error (first_prefix_after (pe_db e) "ready_jobs"
                                  (make_ready_prefix c queue) after_key))) in
      match next with
      | None =>
          let* _ := pmodify (fun e => set_cursor e queue earliest_delayed_key) in
          pret None
      | Some (key, value) =>
          let continue earliest := claim_ready_loop fuel queue options now acknowledge_immediately (Some key) false earliest in
          let* job_id := plift (ready_job_id c key value) in
          match job_id with
          | None => continue earliest_delayed_key
          | Some job_id =>
              let qkey := make_queue_key c queue job_id in
              let* job_data := plift (storage_error (kv_get (pe_db e) "queue_jobs" qkey)) in
              match job_data with
              | None =>
                  let* _ := repair_ready queue key in
                  continue earliest_delayed_key
              | Some data =>
                  let* job := plift (deserialize (A := QueueJob) c data) in
                  let job := release_if_expired now job in
                  if bool_decide (jb_status job <> Ready) then
                    let* _ := repair_ready queue key in
                    continue earliest_delayed_key
                  else if now <? jb_available_at_ms job then
                    continue (match earliest_delayed_key with Some k => Some k | None => Some (key, value) end)
                  else claim_entry queue options now acknowledge_immediately key qkey job earliest_delayed_key
              end
          end
      end
  end.

(** The expired leases of the queue are released first. *)
Definition release_leases queue now : PM D unit :=
  let* e := pget in
  let* scan := plift (expiry_loop (scan_fuel e "lease_jobs") e queue now None (mkExpiry [] false 0 [] [])) in
  if es_writes scan then
    let* _ := commit (es_batch scan) in
    pmodify (fun e =>
      let e := apply_queue_lease_delta e queue (es_count scan) 0 in
      let e := apply_queue_lease_expiration_delta e queue (es_expirations scan) [] in
      foldl (fun e entry => cache_queue_ready_min e queue entry) e (es_ready scan))
  else pret ().

Definition pe_claim_job_with_options queue (options : QueueClaimOptions) now : PM D (option QueueJob) :=
  let* e := pget in
  let acknowledge_immediately := bool_decide (pe_queue_claim_mode e = ClaimAndAck) in
  let* _ := release_leases queue now in
  let* e := pget in
  claim_ready_loop (S (scan_fuel e "ready_jobs")) queue options now acknowledge_immediately None true None.

Definition pe_claim_and_ack queue (options : QueueClaimOptions) now : PM D (option QueueJob) :=
  fun e =>
    let '(result, e) := pe_claim_job_with_options queue options now (set_claim_mode e ClaimAndAck) in
    (result, set_claim_mode e Claim).

(** ** Finishing a job *)

Definition read_job e (key : bytes) : thingd_result (option QueueJob) :=
  data ← storage_error (kv_get (pe_db e) "queue_jobs" key);
  match data with None => Ok None | Some data => Some <$> deserialize (A := QueueJob) (pe_codec e) data end.

(** The lease entry and counters of a job that leaves the leased state. *)
Definition remove_lease_write (c : StorageCodec) queue id (expires : option Z) (batch : list BatchWrite) : list BatchWrite :=
  match expires with
  | Some expires_at_ms => batch_remove batch "lease_jobs" (make_lease_key c queue expires_at_ms id)
  | None => batch
  end.
Definition forget_lease queue (expires : option Z) e : PersistentEngine D :=
  match expires with
  | Some expires_at_ms =>
      apply_queue_lease_expiration_delta (apply_queue_lease_delta e queue 1 0) queue [expires_at_ms] []
  | None => e
  end.

Definition pe_ack_job queue id now : PM D (option QueueJob) :=
  let* e := pget in
  let c := pe_codec e in
  let key := make_queue_key c queue id in
  let* job := plift (read_job e key) in
  match job with
  | None => pret None
  | Some job =>
      if bool_decide (jb_status job <> Leased) then pret None else
      let job := set_completed now job in
      let* new_data := plift (serialize c job) in
      let expires := jb_lease_expires_at_ms job in
      let* _ := commit (remove_lease_write c queue id expires (batch_insert [] "queue_jobs" key new_data)) in
      let* _ := pmodify (forget_lease queue expires) in
      pret (Some job)
  end.

(** The loop of [ack_jobs]: the completed jobs with their encoded writes. *)
Fixpoint ack_jobs_loop e queue now (ids : list string) : thingd_result (list (bytes * bytes * QueueJob)) :=
  match ids with
  | [] => Ok []
  | id :: ids =>
      let key := make_queue_key (pe_codec e) queue id in
      job ← read_job e key;
      match job with
      | None => Err (Conflict ("job " +:+ id +:+ " was not found in queue '" +:+ queue +:+ "'"))
      | Some job =>
          if bool_decide (jb_status job <> Leased)
          then Err (Conflict ("job " +:+ id +:+ " must be leased before batch ack")) else
          let job := set_completed now job in
          data ← serialize (pe_codec e) job;
          rest ← ack_jobs_loop e queue now ids;
          Ok ((key, data, job) :: rest)
      end
  end.

Definition pe_ack_jobs queue (ids : list string) now : PM D (list QueueJob) :=
  if MAX_QUEUE_BATCH_ITEMS <? zlen ids
  then plift (Err (InvalidInput "queue ack batch exceeds the maximum of 1000 jobs")) else
  if has_duplicate ∅ ids then plift (Err (InvalidInput "queue ack batch contains duplicate job IDs")) else
  if bool_decide (ids = []) then pret [] else
  let* e := pget in
  let* encoded := plift (ack_jobs_loop e queue now ids) in
  let batch := foldl (fun batch '((key, value, job), id) =>
                 remove_lease_write (pe_codec e) queue id (jb_lease_expires_at_ms job)
                   (batch_insert batch "queue_jobs" key value)) [] (zip encoded ids) in
  let removed := omap (fun p => jb_lease_expires_at_ms p.2) encoded in
  let* _ := commit batch in
  let* _ := pmodify (fun e =>
    apply_queue_lease_expiration_delta (apply_queue_lease_delta e queue (zlen removed) 0) queue removed []) in
  pret (snd <$> encoded).

Definition nack_transition now (options : QueueNackOptions) (j : QueueJob) : QueueJob :=
  if jb_max_attempts j <=? jb_attempts j then
    mkJob (jb_queue j) (jb_id j) (jb_body j) (jb_attempts j) (jb_max_attempts j) Dead
      (jb_available_at_ms j) None None (jb_completed_at_ms j)
      (Some now) (jb_created_at j) (qn_error options) (jb_priority j)
  else
    mkJob (jb_queue j) (jb_id j) (jb_body j) (jb_attempts j) (jb_max_attempts j) Ready
      (i64_wrap (now + i64_wrap (qn_delay_ms options))) None None (jb_completed_at_ms j)
      (jb_dead_at_ms j) (jb_created_at j) (qn_error options) (jb_priority j).

Definition pe_nack_job_with_options queue id (options : QueueNackOptions) now : PM D (option QueueJob) :=
  let* e := pget in
  let c := pe_codec e in
  let key := make_queue_key c queue id in
  let* job := plift (read_job e key) in
  match job with
  | None => pret None
  | Some job =>
      if bool_decide (jb_status job <> Leased) then pret None else
      let previous := jb_lease_expires_at_ms job in
      let job := nack_transition now options job in
      let* new_data := plift (serialize c job) in
      let batch := remove_lease_write c queue id previous (batch_insert [] "queue_jobs" key new_data) in
      let* entry := plift (ready_entry c job) in
      let batch := match entry with
                   | Some (rkey, rdata) => batch_insert batch "ready_jobs" rkey rdata
                   | None => batch
                   end in
      let* _ := commit batch in
      let* _ := pmodify (fun e =>
        let e := forget_lease queue previous e in
        match entry with Some entry => cache_queue_ready_min e queue entry | None => e end) in
      pret (Some job)
  end.

(** ** Claiming a batch *)

Definition QueueBatchCandidate : Type := bytes * bytes * option bytes * QueueJob.

(** What the loop over expired leases collects for a batch claim. *)
Record BatchScan := mkBatchScan {
  bs_batch : list BatchWrite;
  bs_operations : Z;
  bs_removed : Z;
  bs_expirations : list Z;
  bs_expired : list QueueBatchCandidate;
}.

Definition repair_lease (acc : BatchScan) (lease_key : bytes) (expires_at_ms : Z) : BatchScan :=
  mkBatchScan (batch_remove (bs_batch acc) "lease_jobs" lease_key) (u64_saturating_add (bs_operations acc) 1)
    (u64_saturating_add (bs_removed acc) 1) (bs_expirations acc ++ [expires_at_ms]) (bs_expired acc).

Fixpoint batch_lease_loop (fuel : nat) e queue now (after : option bytes) (acc : BatchScan) : thingd_result BatchScan :=
  match fuel with
  | O => Err out_of_fuel
  | S fuel =>
      let c := pe_codec e in
      if negb (queue_has_expired_leases e queue now) then Ok acc else
      kv ← storage_error (first_prefix_after (pe_db e) "lease_jobs" (make_lease_prefix c queue) after);
      match kv with
      | None => Ok acc
      | Some (lease_key, lease_value) =>
          expires_at_ms ← lease_expiration c queue lease_key;
          if now <? expires_at_ms then Ok acc else
          job_id ← decode_queue_id c lease_value;
          let queue_key := make_queue_key c queue job_id in
          job_data ← storage_error (kv_get (pe_db e) "queue_jobs" queue_key);
          match job_data with
          | None => batch_lease_loop fuel e queue now (Some lease_key) (repair_lease acc lease_key expires_at_ms)
          | Some data =>
              job ← deserialize (A := QueueJob) c data;
              if negb (lease_expired now job)
              then batch_lease_loop fuel e queue now (Some lease_key) (repair_lease acc lease_key expires_at_ms)
              else
                let ready_key := make_ready_key c queue (jb_priority job) (jb_created_at job) (jb_id job) in
                batch_lease_loop fuel e queue now (Some lease_key)
                  (mkBatchScan (bs_batch acc) (bs_operations acc) (bs_removed acc) (bs_expirations acc)
                     (bs_expired acc ++ [(ready_key, queue_key, Some lease_key, job)]))
          end
      end
  end.

(** The state of the loop over ready pages. *)
Record ReadyScan := mkReadyScan {
  rs_batch : list BatchWrite;
  rs_operations : Z;
  rs_candidates : list QueueBatchCandidate;
  rs_after : option bytes;
  rs_delayed : option (bytes * bytes);
  rs_next : option (bytes * bytes);
}.

Definition repair_entry (st : ReadyScan) (ready_key : bytes) : ReadyScan :=
  mkReadyScan (batch_remove (rs_batch st) "ready_jobs" ready_key) (u64_saturating_add (rs_operations st) 1)
    (rs_candidates st) (Some ready_key) (rs_delayed st) (rs_next st).

(** The loop over one page; the flag says that the limit was reached. *)
Fixpoint ready_page_loop e queue now (limit : Z) (page : list ((bytes * bytes) * option string)) (st : ReadyScan)
    : thingd_result (bool * ReadyScan) :=
  match page with
  | [] => Ok (false, st)
  | ((ready_key, value), job_id) :: page =>
      let c := pe_codec e in
      let st := mkReadyScan (rs_batch st) (rs_operations st) (rs_candidates st) (Some ready_key)
                  (rs_delayed st) (rs_next st) in
      match job_id with
      | None => ready_page_loop e queue now limit page st
      | Some job_id =>
          let queue_key := make_queue_key c queue job_id in
          job_data ← storage_error (kv_get (pe_db e) "queue_jobs" queue_key);
          match job_data with
          | None => ready_page_loop e queue now limit page (repair_entry st ready_key)
          | Some data =>
              job ← deserialize (A := QueueJob) c data;
              if bool_decide (jb_status job <> Ready) then
                ready_page_loop e queue now limit page (repair_entry st ready_key)
              else if now <? jb_available_at_ms job then
                ready_page_loop e queue now limit page
                  (mkReadyScan (rs_batch st) (rs_operations st) (rs_candidates st) (rs_after st)
                     (match rs_delayed st with Some d => Some d | None => Some (ready_key, value) end) (rs_next st))
              else
                let candidates := rs_candidates st ++ [(ready_key, queue_key, None, job)] in
                if limit <=? zlen candidates then
                  Ok (true, mkReadyScan (rs_batch st) (rs_operations st) candidates (rs_after st) (rs_delayed st)
                              (fst <$> head page))
                else ready_page_loop e queue now limit page
                       (mkReadyScan (rs_batch st) (rs_operations st) candidates (rs_after st) (rs_delayed st) (rs_next st))
          end
      end
  end.

(** The next page: from the cached cursor first, then after the last key seen. *)
Definition ready_page e queue (page_limit : Z) (cached : option (bytes * bytes)) (after : option bytes)
    : thingd_result (list (bytes * bytes)) :=
  let prefix := make_ready_prefix (pe_codec e) queue in
  match cached with
  | Some entry =>
      if 1 <? page_limit then
        rest ← storage_error (prefix_page_after (pe_db e) "ready_jobs" prefix (Some entry.1) (page_limit - 1));
        Ok (entry :: rest)
      else Ok [entry]
  | None => storage_error (prefix_page_after (pe_db e) "ready_jobs" prefix after page_limit)
  end.

Fixpoint map_res {A B} (f : A -> thingd_result B) (l : list A) : thingd_result (list B) :=
  match l with
  | [] => Ok []
  | x :: l => y ← f x; ys ← map_res f l; Ok (y :: ys)
  end.

(** The flag of the result says that the index was read to its end. *)
Fixpoint ready_scan_loop (fuel : nat) e queue now (limit : Z) (cached : option (bytes * bytes)) (st : ReadyScan)
    : thingd_result (bool * ReadyScan) :=
  match fuel with
  | O => Err out_of_fuel
  | S fuel =>
      page ← ready_page e queue (limit + 1) cached (rs_after st);
      if bool_decide (page = []) then Ok (true, st) else
      ids ← map_res (fun kv => ready_job_id (pe_codec e) kv.1 kv.2) page;
      match ready_page_loop e queue now limit (zip page ids) st with
      | Err err => Err err
      | Ok (true, st) => Ok (false, st)
      | Ok (false, st) => ready_scan_loop fuel e queue now limit None st
      end
  end.

Definition set_batch_leased (acknowledge_immediately : bool) now (options : QueueClaimOptions) (j : QueueJob) : QueueJob :=
  let j := set_leased j (u32_saturating_add (jb_attempts j) 1) now options in
  if acknowledge_immediately then set_completed now j
  else mkJob (jb_queue j) (jb_id j) (jb_body j) (jb_attempts j) (jb_max_attempts j) (jb_status j)
         (jb_available_at_ms j) (jb_leased_at_ms j) (jb_lease_expires_at_ms j) None
         (jb_dead_at_ms j) (jb_created_at j) (jb_last_error j) (jb_priority j).

(** The state of the loop that claims and requeues the candidates. *)
Record ClaimFold := mkClaimFold {
  cf_batch : list BatchWrite;
  cf_operations : Z;
  cf_removed : Z;
  cf_added : Z;
  cf_expirations_removed : list Z;
  cf_expirations_added : list Z;
  cf_completed : list QueueJob;
  cf_requeued : list (bytes * bytes);
}.

Definition drop_expired (st : ClaimFold) (lease_key : bytes) (job : QueueJob) : ClaimFold :=
  mkClaimFold (batch_remove (cf_batch st) "lease_jobs" lease_key) (u64_saturating_add (cf_operations st) 1)
    (u64_saturating_add (cf_removed st) 1) (cf_added st)
    (cf_expirations_removed st ++ match jb_lease_expires_at_ms job with Some x => [x] | None => [] end)
    (cf_expirations_added st) (cf_completed st) (cf_requeued st).

Definition claim_candidate (c : StorageCodec) queue (options : QueueClaimOptions) now (limit : Z)
    (acknowledge_immediately : bool) (st : ClaimFold) (candidate : QueueBatchCandidate) : thingd_result ClaimFold :=
  let '(ready_key, queue_key, lease_key, job) := candidate in
  let st := match lease_key with Some lease_key => drop_expired st lease_key job | None => st end in
  if zlen (cf_completed st) <? limit then
    let batch := batch_remove (cf_batch st) "ready_jobs" ready_key in
    let job := set_batch_leased acknowledge_immediately now options job in
    let expires := default 0 (jb_lease_expires_at_ms job) in
    data ← serialize c job;
    let batch := batch_insert batch "queue_jobs" queue_key data in
    let operations := u64_saturating_add (cf_operations st) 2 in
    if acknowledge_immediately then
      Ok (mkClaimFold batch operations (cf_removed st) (cf_added st) (cf_expirations_removed st)
            (cf_expirations_added st) (cf_completed st ++ [job]) (cf_requeued st))
    else
      value ← encode_queue_id c (jb_id job);
      Ok (mkClaimFold (batch_insert batch "lease_jobs" (make_lease_key c queue expires (jb_id job)) value)
            (u64_saturating_add operations 1) (cf_removed st) (u64_saturating_add (cf_added st) 1)
            (cf_expirations_removed st) (cf_expirations_added st ++ [expires]) (cf_completed st ++ [job]) (cf_requeued st))
  else if bool_decide (is_Some lease_key) then
    let job := release_lease job in
    data ← serialize c job;
    let batch := batch_insert (cf_batch st) "queue_jobs" queue_key data in
    ready_value ← encode_queue_id c (jb_id job);
    Ok (mkClaimFold (batch_insert batch "ready_jobs" ready_key ready_value) (u64_saturating_add (cf_operations st) 2)
          (cf_removed st) (cf_added st) (cf_expirations_removed st) (cf_expirations_added st) (cf_completed st)
          (cf_requeued st ++ [(ready_key, ready_value)]))
  else Ok st.

Definition candidate_cmp (left right : QueueBatchCandidate) : comparison := key_cmp left.1.1.1 right.1.1.1.

Definition cursor_min (cursor : QueueReadyCursor) (entry : bytes * bytes) : QueueReadyCursor :=
  match cursor with
  | Some (current, _) => if key_ltb entry.1 current then Some entry else cursor
  | None => Some entry
  end.

Definition claim_batch_atomic queue (options : QueueClaimOptions) (limit : Z) (acknowledge_immediately : bool) now
    : PM D (list QueueJob) :=
  if MAX_QUEUE_BATCH_ITEMS <? limit
  then plift (Err (InvalidInput "queue batch exceeds the maximum of 1000 jobs")) else
  if limit =? 0 then pret [] else
  let* e := pget in
  let c := pe_codec e in
  let* leases := plift (batch_lease_loop (scan_fuel e "lease_jobs") e queue now None (mkBatchScan [] 0 0 [] [])) in
  let cached := match pe_queue_ready_cursors e !! queue with Some cursor => cursor | None => None end in
  let* scanned := plift (ready_scan_loop (S (scan_fuel e "ready_jobs")) e queue now limit cached
                           (mkReadyScan (bs_batch leases) (bs_operations leases) [] None None None)) in
  let '(reached_ready_end, ready) := scanned in
  let* next_ready_entry :=
    plift (if (limit <=? zlen (rs_candidates ready)) && bool_decide (rs_next ready = None) && negb reached_ready_end
           then storage_error (first_prefix_after (pe_db e) "ready_jobs" (make_ready_prefix c queue) (rs_after ready))
           else Ok (rs_next ready)) in
  let candidates := sort_by candidate_cmp (rs_candidates ready ++ bs_expired leases) in
  let* claimed := plift (fold_res (claim_candidate c queue options now limit acknowledge_immediately)
    (mkClaimFold (rs_batch ready) (rs_operations ready) (bs_removed leases) 0 (bs_expirations leases) [] [] [])
    candidates) in
  let* _ := (if 0 <? cf_operations claimed then
    let* _ := commit (cf_batch claimed) in
    pmodify (fun e => apply_queue_lease_expiration_delta (apply_queue_lease_delta e queue (cf_removed claimed) (cf_added claimed))
                        queue (cf_expirations_removed claimed) (cf_expirations_added claimed))
    else pret ()) in
  let ready_cursor := match rs_delayed ready with Some d => Some d | None => next_ready_entry end in
  let* _ := pmodify (fun e => set_cursor e queue (foldl cursor_min ready_cursor (cf_requeued claimed))) in
  pret (cf_completed claimed).

Definition pe_claim_jobs_with_options queue (options : QueueClaimOptions) (limit now : Z) : PM D (list QueueJob) :=
  claim_batch_atomic queue options limit false now.
Definition pe_claim_and_ack_batch queue (options : QueueClaimOptions) (limit now : Z) : PM D (list QueueJob) :=
  claim_batch_atomic queue options limit true now.

(** ** Listing and counting *)

Definition decode_jobs e (entries : list (bytes * bytes)) : thingd_result (list QueueJob) :=
  map_res (fun kv => deserialize (A := QueueJob) (pe_codec e) kv.2) entries.

Definition pe_list_jobs e queue : thingd_result (list QueueJob) :=
  decode_jobs e (kv_prefix (pe_db e) "queue_jobs" (make_queue_prefix (pe_codec e) queue)).

Definition pe_list_dead_jobs e queue : thingd_result (list QueueJob) :=
  List.filter is_dead <$> decode_jobs e (kv_prefix (pe_db e) "queue_jobs" (make_queue_prefix (pe_codec e) queue)).

Definition push_new (queues : list string) (j : QueueJob) : list string :=
  if bool_decide (jb_queue j ∈ queues) then queues else queues ++ [jb_queue j].

Definition pe_list_queues e : thingd_result (list string) :=
  foldl push_new [] <$> decode_jobs e (kv_iter (pe_db e) "queue_jobs").

Definition pe_count_active_jobs e : thingd_result Z :=
  (fun jobs => zlen (List.filter is_active jobs)) <$> decode_jobs e (kv_iter (pe_db e) "queue_jobs").
Definition pe_count_dead_jobs e : thingd_result Z :=
  (fun jobs => zlen (List.filter is_dead jobs)) <$> decode_jobs e (kv_iter (pe_db e) "queue_jobs").

(** ** Opening: the lease index is rebuilt from the job records *)

Record LeaseRebuild := mkRebuild {
  lr_batch : list BatchWrite;
  lr_counts : gmap string Z;
  lr_expirations : gmap string (gmap Z Z);
}.

Definition rebuild_job (c : StorageCodec) (acc : LeaseRebuild) (job : QueueJob) : thingd_result LeaseRebuild :=
  match jb_status job, jb_lease_expires_at_ms job with
  | Leased, Some expires_at_ms =>
      data ← encode_queue_id c (jb_id job);
      let q := jb_queue job in
      Ok (mkRebuild (batch_insert (lr_batch acc) "lease_jobs" (make_lease_key c q expires_at_ms (jb_id job)) data)
            (<[q := u64_wrapping_add (default 0 (lr_counts acc !! q)) 1]> (lr_counts acc))
            (<[q := add_expiration (default ∅ (lr_expirations acc !! q)) expires_at_ms]> (lr_expirations acc)))
  | _, _ => Ok acc
  end.

Definition rebuild_lease_index : PM D unit :=
  let* e := pget in
  let batch := foldl (fun batch kv => batch_remove batch "lease_jobs" kv.1) [] (kv_iter (pe_db e) "lease_jobs") in
  let* rebuilt := plift (fold_res (fun acc kv =>
                            job ← deserialize (A := QueueJob) (pe_codec e) kv.2; rebuild_job (pe_codec e) acc job)
                          (mkRebuild batch ∅ ∅) (kv_iter (pe_db e) "queue_jobs")) in
  let* _ := commit (lr_batch rebuilt) in
  pmodify (fun e => set_leases e (lr_counts rebuilt) (lr_expirations rebuilt)).
End queue.
