(* ===== verification/PQueueSpec.v ===== *)
(** * thingd: what the persistent queues promise

    The abstract state of the queues is a map from queue and id to the job.  The
    invariant [queue_inv] says that the three keyspaces and the engine's caches
    represent such a map: every job has its record, exactly the ready jobs have a ready
    entry, exactly the leased jobs a lease entry; the lease counters count them, and a
    cached cursor is the first ready entry.  Each operation is proved to implement a
    transition of the map and to keep the invariant, whether its commit succeeds or
    fails.  Keys are those of the unencrypted codec. *)

From stdpp Require Import gmultiset.
From S2P Require Import Prelude Wal Table Layer Database ThingDb Keyspace RamScan Model Queue Storage Persistent PSample PStore PQueue.

Abbreviation Jobs := (gmap (string * string) QueueJob).

(** ** Lease counters

    The counters of a queue represent the multiset of its lease expiries. *)

Definition nonzero (n : Z) : option Z := if n =? 0 then None else Some n.

Lemma nonzero_pos n : 0 < n -> nonzero n = Some n.
Proof. intros. unfold nonzero. destruct (Z.eqb_spec n 0); [lia|done]. Qed.

Lemma nonzero_default n : default 0 (nonzero n) = n.
Proof. unfold nonzero. by destruct (Z.eqb_spec n 0). Qed.

Definition counts_of (m : gmap Z Z) (X : gmultiset Z) : Prop :=
  forall x, m !! x = nonzero (Z.of_nat (multiplicity x X)).

Lemma counts_of_empty X : counts_of ∅ X -> X = ∅.
Proof.
  intros Hm. apply gmultiset_eq. intros x. specialize (Hm x). rewrite lookup_empty in Hm.
  rewrite multiplicity_empty. unfold nonzero in Hm. destruct (Z.eqb_spec (Z.of_nat (multiplicity x X)) 0); [lia|done].
Qed.

Lemma counts_of_nil m : counts_of m ∅ -> m = ∅.
Proof. intros Hm. apply map_eq. intros x. by rewrite (Hm x), lookup_empty, multiplicity_empty. Qed.

Lemma multiplicity_le_size (x : Z) X : (multiplicity x X <= size X)%nat.
Proof.
  induction X as [|y X IH] using gmultiset_ind; [by rewrite multiplicity_empty|].
  rewrite multiplicity_disj_union, gmultiset_size_disj_union, gmultiset_size_singleton, multiplicity_singleton.
  destruct (decide (x = y)); lia.
Qed.

Lemma counts_of_remove m X x : counts_of m X -> x ∈ X -> counts_of (remove_expiration m x) (X ∖ {[+ x +]}).
Proof.
  intros Hm Hx y. unfold remove_expiration. rewrite (Hm x). rewrite elem_of_multiplicity in Hx.
  rewrite (nonzero_pos (Z.of_nat (multiplicity x X))) by lia. rewrite multiplicity_difference, multiplicity_singleton. unfold u64_saturating_sub.
  destruct (decide (y = x)) as [->|Hne].
  - unfold nonzero. destruct (Z.eqb_spec (Z.max (Z.of_nat (multiplicity x X) - 1) 0) 0).
    + rewrite lookup_delete_eq. destruct (Z.eqb_spec (Z.of_nat (multiplicity x X - 1)) 0); [done|lia].
    + rewrite lookup_insert_eq. destruct (Z.eqb_spec (Z.of_nat (multiplicity x X - 1)) 0); [lia|]. f_equal. lia.
  - rewrite Nat.sub_0_r, <-(Hm y). destruct (_ =? 0); [by rewrite lookup_delete_ne|by rewrite lookup_insert_ne].
Qed.

Lemma counts_of_add m X x :
  counts_of m X -> Z.of_nat (size X) < U64_MAX -> counts_of (add_expiration m x) ({[+ x +]} ⊎ X).
Proof.
  intros Hm Hs y. unfold add_expiration. pose proof (multiplicity_le_size x X).
  rewrite multiplicity_disj_union, multiplicity_singleton. destruct (decide (y = x)) as [->|Hne].
  - rewrite lookup_insert_eq, (Hm x), nonzero_default, nonzero_pos by lia. unfold u64_wrapping_add.
    rewrite Z.mod_small by (unfold U64_MAX in *; lia). f_equal. lia.
  - by rewrite lookup_insert_ne, Nat.add_0_l, (Hm y) by done.
Qed.

Abbreviation list_ms l := (list_to_set_disj l : gmultiset Z).

Lemma counts_of_removes m X l :
  counts_of m X -> list_ms l ⊆ X -> counts_of (foldl remove_expiration m l) (X ∖ list_ms l).
Proof.
  revert m X. induction l as [|x l IH]; intros m X Hm Hl; cbn [foldl].
  - change (list_ms []) with (∅ : gmultiset Z). by replace (X ∖ ∅) with X by multiset_solver.
  - change (list_ms (x :: l)) with ({[+ x +]} ⊎ list_ms l) in *.
    replace (X ∖ ({[+ x +]} ⊎ list_ms l)) with ((X ∖ {[+ x +]}) ∖ list_ms l) by multiset_solver.
    apply IH; [apply counts_of_remove; [done|multiset_solver]|multiset_solver].
Qed.

Lemma counts_of_adds m X l :
  counts_of m X -> Z.of_nat (size X) + zlen l <= U64_MAX -> counts_of (foldl add_expiration m l) (X ⊎ list_ms l).
Proof.
  revert m X. induction l as [|x l IH]; intros m X Hm Hs; cbn [foldl].
  - change (list_ms []) with (∅ : gmultiset Z). by replace (X ⊎ ∅) with X by multiset_solver.
  - cbn [length] in Hs. change (list_ms (x :: l)) with ({[+ x +]} ⊎ list_ms l).
    replace (X ⊎ ({[+ x +]} ⊎ list_ms l)) with (({[+ x +]} ⊎ X) ⊎ list_ms l) by multiset_solver.
    apply IH; [apply counts_of_add; [done|lia]|].
    rewrite gmultiset_size_disj_union, gmultiset_size_singleton. lia.
Qed.

Record leases_repr {D} (e : PersistentEngine D) (X : string -> gmultiset Z) : Prop := {
  lr_count : forall q, pe_queue_lease_counts e !! q = nonzero (Z.of_nat (size (X q)));
  lr_expiry : forall q, match pe_queue_lease_expirations e !! q with
                        | Some m => X q <> ∅ /\ counts_of m (X q)
                        | None => X q = ∅
                        end;
}.

Lemma leases_repr_default {D} (e : PersistentEngine D) X q :
  leases_repr e X -> counts_of (default ∅ (pe_queue_lease_expirations e !! q)) (X q).
Proof.
  intros [_ Hx]. specialize (Hx q). destruct (pe_queue_lease_expirations e !! q) as [m|]; cbn [default]; [by destruct Hx|].
  rewrite Hx. intros x. by rewrite lookup_empty, multiplicity_empty.
Qed.

Lemma lease_delta_count {D} (e : PersistentEngine D) q removed added n :
  pe_queue_lease_counts e !! q = nonzero n -> 0 <= removed <= n -> 0 <= added -> n - removed + added <= U64_MAX ->
  pe_queue_lease_counts (apply_queue_lease_delta e q removed added) !! q = nonzero (n - removed + added).
Proof.
  intros Hc Hr Ha Hs. unfold apply_queue_lease_delta. rewrite Hc, nonzero_default.
  destruct (Z.eqb_spec removed 0) as [->|], (Z.eqb_spec added 0) as [->|]; cbn [andb].
  { rewrite Hc. f_equal. lia. }
  all: cbn [pe_queue_lease_counts set_leases]; unfold u64_saturating_sub, u64_saturating_add, nonzero;
    match goal with |- context [if (?u =? 0) then delete _ _ else _] => destruct (Z.eqb_spec u 0) end;
    match goal with |- _ = if (?u =? 0) then _ else _ => destruct (Z.eqb_spec u 0) end;
    rewrite ?lookup_delete_eq, ?lookup_insert_eq; lia || done || (f_equal; lia).
Qed.

Lemma lease_delta_other {D} (e : PersistentEngine D) q q' removed added :
  q' <> q -> pe_queue_lease_counts (apply_queue_lease_delta e q removed added) !! q' = pe_queue_lease_counts e !! q'.
Proof.
  intros Hne. unfold apply_queue_lease_delta. destruct (_ && _); [done|]. cbn [pe_queue_lease_counts set_leases].
  destruct (_ =? 0); [by rewrite lookup_delete_ne|by rewrite lookup_insert_ne].
Qed.

Lemma lease_delta_expirations {D} (e : PersistentEngine D) q removed added :
  pe_queue_lease_expirations (apply_queue_lease_delta e q removed added) = pe_queue_lease_expirations e.
Proof. unfold apply_queue_lease_delta. by destruct (_ && _). Qed.

Lemma expiration_delta_counts {D} (e : PersistentEngine D) q removed added :
  pe_queue_lease_counts (apply_queue_lease_expiration_delta e q removed added) = pe_queue_lease_counts e.
Proof. unfold apply_queue_lease_expiration_delta. by destruct (_ && _). Qed.

Lemma list_ms_size l : size (list_ms l) = length l.
Proof.
  induction l as [|x l IH]; [done|]. change (list_ms (x :: l)) with ({[+ x +]} ⊎ list_ms l).
  by rewrite gmultiset_size_disj_union, gmultiset_size_singleton, IH.
Qed.

Lemma expiration_delta_repr {D} (e : PersistentEngine D) q q' (X X' : string -> gmultiset Z) removed added :
  (forall q, match pe_queue_lease_expirations e !! q with Some m => X q <> ∅ /\ counts_of m (X q) | None => X q = ∅ end) ->
  (forall q', q' <> q -> X' q' = X q') -> (removed = [] -> added = [] -> X' q = X q) ->
  counts_of (foldl add_expiration (foldl remove_expiration (default ∅ (pe_queue_lease_expirations e !! q)) removed) added) (X' q) ->
  match pe_queue_lease_expirations (apply_queue_lease_expiration_delta e q removed added) !! q' with
  | Some m => X' q' <> ∅ /\ counts_of m (X' q')
  | None => X' q' = ∅
  end.
Proof.
  intros Hx Hother Hsame Hm. unfold apply_queue_lease_expiration_delta.
  destruct (bool_decide (removed = []) && bool_decide (added = [])) eqn:Hnil.
  { apply andb_true_iff in Hnil as [Hr%bool_decide_eq_true Ha%bool_decide_eq_true].
    destruct (decide (q' = q)) as [->|Hne]; [rewrite Hsame by done; apply Hx|rewrite Hother by done; apply Hx]. }
  clear Hnil. cbn [pe_queue_lease_expirations set_leases]. destruct (decide (q' = q)) as [->|Hne].
  - case_bool_decide as Hem; [rewrite lookup_delete_eq|rewrite lookup_insert_eq].
    + rewrite Hem in Hm. by apply counts_of_empty.
    + split; [|done]. intros HX. apply Hem, counts_of_nil. by rewrite <-HX.
  - rewrite Hother by done. case_bool_decide; [rewrite lookup_delete_ne by done|rewrite lookup_insert_ne by done]; apply Hx.
Qed.

(** Removing and adding expiries moves the counters from one multiset to the other. *)
Lemma leases_delta {D} (e : PersistentEngine D) q X X' removed added :
  leases_repr e X -> (forall q', q' <> q -> X' q' = X q') -> X' q = (X q ∖ list_ms removed) ⊎ list_ms added ->
  list_ms removed ⊆ X q -> Z.of_nat (size (X q)) - zlen removed + zlen added <= U64_MAX ->
  leases_repr (apply_queue_lease_expiration_delta
    (apply_queue_lease_delta e q (zlen removed) (zlen added)) q removed added) X'.
Proof.
  intros Hr Hother Hq Hsub Hs. pose proof (leases_repr_default e X q Hr) as Hdef. destruct Hr as [Hc Hx].
  assert (Hle : (length removed <= size (X q))%nat)
    by (rewrite <-(list_ms_size removed); by apply gmultiset_subseteq_size).
  split; intros q'.
  - rewrite expiration_delta_counts. destruct (decide (q' = q)) as [->|Hne].
    + rewrite (lease_delta_count e q _ _ _ (Hc q)) by lia. f_equal.
      rewrite Hq, gmultiset_size_disj_union, gmultiset_size_difference, !list_ms_size by done. lia.
    + by rewrite lease_delta_other, Hother, Hc.
  - apply (expiration_delta_repr _ q q' X X'); rewrite ?lease_delta_expirations; [done..| |].
    + intros -> ->. rewrite Hq. change (list_ms []) with (∅ : gmultiset Z). multiset_solver.
    + rewrite Hq. apply counts_of_adds; [by apply counts_of_removes|]. rewrite gmultiset_size_difference, list_ms_size by done. lia.
Qed.

(** ** Cursors *)

Lemma head_insert p m (k v : bytes) :
  m !! k = None -> starts_with p k = true ->
  head (prefix_entries p (<[k := v]> m)) = cursor_min (head (prefix_entries p m)) (k, v).
Proof.
  intros Hk Hp. apply head_prefix_entries. destruct (head (prefix_entries p m)) as [[k0 v0]|] eqn:Hh;
    apply head_prefix_entries in Hh; cbn [cursor_min fst].
  - destruct Hh as (Hk0&Hp0&Hmin). destruct (key_ltb k k0) eqn:Hlt.
    + apply key_ltb_lt in Hlt. rewrite lookup_insert_eq. split_and!; [done..|]. intros k' v'.
      rewrite lookup_insert_Some. intros [[<- _]|[_ Hk']] Hp'; [apply key_lt_irrefl|].
      intros Hkk. apply (Hmin k' v' Hk' Hp'). by eapply key_lt_trans.
    + apply key_ltb_false in Hlt. rewrite lookup_insert_ne by congruence. split_and!; [done..|]. intros k' v'.
      rewrite lookup_insert_Some. intros [[<- _]|[_ Hk']] Hp'; [|by eapply Hmin].
      destruct Hlt as [?| ->]; [by apply key_lt_asym|apply key_lt_irrefl].
  - rewrite lookup_insert_eq. split_and!; [done..|]. intros k' v'. rewrite lookup_insert_Some.
    intros [[<- _]|[_ Hk']] Hp'; [apply key_lt_irrefl|]. by rewrite (Hh k' v' Hk') in Hp'.
Qed.

(** ** The entries of a job *)

Lemma i64_wrap_range z : in_i64 (i64_wrap z).
Proof. unfold in_i64, i64_wrap, I64_MIN, I64_MAX, U64_MAX. pose proof (Z.mod_pos_bound (z - -9223372036854775808) (18446744073709551615 + 1)). lia. Qed.

Ltac job_ok_tac := match goal with
  | |- job_wt _ => split; cbn; eauto using i64_wrap_range; done
  | |- forall x, _ = Some x -> _ => by intros x Hx
  | |- _ => done
  end.

Section spec.
Context `{KvLaws D} `{!Serde QueueJob job_wt} `{!Serde string is_str}.
Implicit Types (e : PersistentEngine D) (J : Jobs) (j : QueueJob) (q : string).

Definition lease_of j : option Z := if bool_decide (jb_status j = Leased) then jb_lease_expires_at_ms j else None.

Definition record_entry j : option (bytes * bytes) :=
  Some (make_queue_key raw_codec (jb_queue j) (jb_id j), json_text j).
Definition ready_index j : option (bytes * bytes) :=
  if bool_decide (jb_status j = Ready) then Some (job_ready_key raw_codec j, queue_id_text (jb_id j)) else None.
Definition lease_index j : option (bytes * bytes) :=
  (fun x => (make_lease_key raw_codec (jb_queue j) x (jb_id j), queue_id_text (jb_id j))) <$> lease_of j.

(** A job the map may hold under a queue and an id. *)
Record job_ok (i : string * string) j : Prop := {
  jo_wt : job_wt j;
  jo_name : i = (jb_queue j, jb_id j);
  jo_queue : no_nul (jb_queue j);
  jo_created : no_nul (jb_created_at j);
  jo_lease : forall x, lease_of j = Some x -> in_expiry x;
}.

Lemma record_entry_inj i j i' j' k v v' :
  job_ok i j -> job_ok i' j' -> record_entry j = Some (k, v) -> record_entry j' = Some (k, v') -> i = i'.
Proof.
  intros [_ -> Hq _ _] [_ -> Hq' _ _]. unfold record_entry. intros Hr Hr'. injection Hr as <- _. injection Hr' as Heq _.
  apply (scoped_key_inj "queue_jobs" "queue_jobs") in Heq as [-> ->]; done.
Qed.

Lemma ready_index_inj i j i' j' k v v' :
  job_ok i j -> job_ok i' j' -> ready_index j = Some (k, v) -> ready_index j' = Some (k, v') -> i = i'.
Proof.
  unfold ready_index. intros [Hw -> Hq Hc _] [Hw' -> Hq' Hc' _]. do 2 case_bool_decide; try done.
  intros Hr Hr'. injection Hr as <- _. injection Hr' as Heq _.
  apply make_ready_key_inj in Heq as (->&_&_&->); auto using jw_priority.
Qed.

Lemma lease_index_inj i j i' j' k v v' :
  job_ok i j -> job_ok i' j' -> lease_index j = Some (k, v) -> lease_index j' = Some (k, v') -> i = i'.
Proof.
  unfold lease_index. intros [_ -> Hq _ Hl] [_ -> Hq' _ Hl']. destruct (lease_of j) as [x|], (lease_of j') as [x'|]; try done.
  intros Hr Hr'. injection Hr as <- _. injection Hr' as Heq _. apply make_lease_key_inj in Heq as (->&_&->); eauto.
Qed.

(** The keyspaces represent the map. *)
Record stored (V : string -> bmap bytes) J : Prop := {
  st_ok : forall i j, J !! i = Some j -> job_ok i j;
  st_records : indexed record_entry (V "queue_jobs") J;
  st_ready : indexed ready_index (V "ready_jobs") J;
  st_leases : indexed lease_index (V "lease_jobs") J;
}.

(** What the writes of one job's transition must amount to. *)
Definition transition_view (old : option QueueJob) j (V V' : string -> bmap bytes) : Prop :=
  V' "queue_jobs" = add_entry record_entry j (drop_entry record_entry old (V "queue_jobs")) /\
  V' "ready_jobs" = add_entry ready_index j (drop_entry ready_index old (V "ready_jobs")) /\
  V' "lease_jobs" = add_entry lease_index j (drop_entry lease_index old (V "lease_jobs")).

Lemma stored_transition V V' J i j :
  stored V J -> job_ok i j -> transition_view (J !! i) j V V' -> stored V' (<[i := j]> J).
Proof.
  intros [Hok Hrec Hrdy Hls] Hj (Hv1&Hv2&Hv3). split.
  - intros i' j' Hj'. apply lookup_insert_Some in Hj' as [[<- <-]|[_ ?]]; auto.
  - rewrite Hv1. by eapply indexed_update; [apply record_entry_inj|..].
  - rewrite Hv2. by eapply indexed_update; [apply ready_index_inj|..].
  - rewrite Hv3. by eapply indexed_update; [apply lease_index_inj|..].
Qed.

(** ** The leases of the map *)

Definition lease_in q j : option Z := if bool_decide (jb_queue j = q) then lease_of j else None.
Definition option_ms (o : option Z) : gmultiset Z := match o with Some x => {[+ x +]} | None => ∅ end.
Definition lease_set J q : gmultiset Z := list_ms (omap (lease_in q) (map_to_list J).*2).

Lemma lease_set_insert J i j q :
  J !! i = None -> lease_set (<[i := j]> J) q = option_ms (lease_in q j) ⊎ lease_set J q.
Proof.
  intros Hi. unfold lease_set. rewrite (map_to_list_insert J i j Hi). rewrite fmap_cons. cbn [omap list_omap snd].
  destruct (lease_in q j); cbn [option_ms]; [done|]. by rewrite (left_id_L ∅ (⊎)).
Qed.

Lemma lease_set_update J i j0 j q :
  J !! i = Some j0 ->
  lease_set (<[i := j]> J) q = (lease_set J q ∖ option_ms (lease_in q j0)) ⊎ option_ms (lease_in q j) /\
  option_ms (lease_in q j0) ⊆ lease_set J q.
Proof.
  intros Hi. assert (Hd : delete i J !! i = None) by apply lookup_delete_eq.
  pose proof (lease_set_insert (delete i J) i j q Hd) as Hnew. pose proof (lease_set_insert (delete i J) i j0 q Hd) as Hold.
  rewrite insert_delete_eq in Hnew. rewrite insert_delete_id in Hold by done. rewrite Hnew, Hold. multiset_solver.
Qed.

Lemma lease_set_size J q : (size (lease_set J q) <= size J)%nat.
Proof.
  unfold lease_set. rewrite list_ms_size. rewrite <-length_map_to_list, <-(length_fmap snd (map_to_list J)).
  induction (map_to_list J).*2 as [|j l IH]; cbn [omap list_omap]; [done|]. destruct (lease_in q j); cbn [length]; lia.
Qed.

(** ** The invariant *)

Definition name_ok q : Prop := no_nul q /\ is_str q.

Definition ready_entries (V : string -> bmap bytes) q : list (bytes * bytes) :=
  prefix_entries (make_ready_prefix raw_codec q) (V "ready_jobs").

Record queue_inv e J : Prop := {
  qi_codec : pe_codec e = raw_codec;
  qi_kv : kv_ok (pe_db e);
  qi_stored : stored (kv_view (pe_db e)) J;
  qi_leases : leases_repr e (lease_set J);
  qi_cursors : forall q c, name_ok q -> pe_queue_ready_cursors e !! q = Some c ->
    c = head (ready_entries (kv_view (pe_db e)) q);
  qi_size : Z.of_nat (size J) <= U64_MAX;
}.

(** ** Commits *)

Lemma queue_keyspaces_valid : valid_name "queue_jobs" /\ valid_name "ready_jobs" /\ valid_name "lease_jobs".
Proof. by repeat split; try done; apply (bool_decide_unpack _). Qed.

(** A failed commit leaves the map as it was. *)
Lemma queue_inv_same_view e db J :
  queue_inv e J -> kv_ok db -> (forall n, valid_name n -> kv_view db n = kv_view (pe_db e) n) -> queue_inv (set_db e db) J.
Proof.
  intros [Hc _ Hs Hl Hcur Hsz] Hok Hv. destruct queue_keyspaces_valid as (H1&H2&H3). split; try done.
  - destruct Hs as [Hjo Hr1 Hr2 Hr3]. split; cbn [pe_db set_db]; rewrite ?Hv by done; done.
  - destruct Hl as [Hl1 Hl2]. by split.
  - intros q c Hq Hlook. cbn [pe_db set_db]. unfold ready_entries. rewrite Hv by done. by apply Hcur.
Qed.

(** ** Cursors after a transition *)

Lemma ready_prefix_job q j :
  no_nul q -> no_nul (jb_queue j) ->
  starts_with (make_ready_prefix raw_codec q) (job_ready_key raw_codec j) = true <-> q = jb_queue j.
Proof. intros. by apply make_ready_key_prefix. Qed.

(** Transitions of other queues leave the ready entries of a queue alone. *)
Lemma ready_entries_other V V' J j q :
  transition_view (J !! (jb_queue j, jb_id j)) j V V' -> stored V J -> job_ok (jb_queue j, jb_id j) j ->
  no_nul q -> q <> jb_queue j -> ready_entries V' q = ready_entries V q.
Proof.
  intros (_&Hr&_) Hs Hj Hq Hne. unfold ready_entries. rewrite Hr.
  assert (Hkey : forall j', job_ok (jb_queue j, jb_id j) j' ->
    starts_with (make_ready_prefix raw_codec q) (job_ready_key raw_codec j') = false).
  { intros j' [_ Hn Hq' _ _]. apply not_true_iff_false. rewrite ready_prefix_job by done. injection Hn as <- _. done. }
  unfold add_entry, drop_entry, ready_index at 1. case_bool_decide.
  - rewrite (proj1 (prefix_entries_other _ _ _ _ (Hkey j Hj))).
    destruct (J !! _) as [j0|] eqn:Hj0; cbn [mbind option_bind]; [|done]. unfold ready_index. case_bool_decide; [|done].
    apply (prefix_entries_other _ _ _ []). apply Hkey. by apply (st_ok _ _ Hs).
  - destruct (J !! _) as [j0|] eqn:Hj0; cbn [mbind option_bind]; [|done]. unfold ready_index. case_bool_decide; [|done].
    apply (prefix_entries_other _ _ _ []). apply Hkey. by apply (st_ok _ _ Hs).
Qed.

(** A job that becomes ready, or is new, takes its place in the order. *)
Lemma ready_head_add V V' J j :
  transition_view (J !! (jb_queue j, jb_id j)) j V V' -> stored V J -> job_ok (jb_queue j, jb_id j) j ->
  J !! (jb_queue j, jb_id j) ≫= ready_index = None -> jb_status j = Ready ->
  head (ready_entries V' (jb_queue j)) =
  cursor_min (head (ready_entries V (jb_queue j))) (job_ready_key raw_codec j, queue_id_text (jb_id j)).
Proof.
  intros (_&Hr&_) Hs Hj Hnew Hst. unfold ready_entries. rewrite Hr. unfold drop_entry. rewrite Hnew.
  assert (Hix : ready_index j = Some (job_ready_key raw_codec j, queue_id_text (jb_id j)))
    by (unfold ready_index; by rewrite bool_decide_true).
  unfold add_entry. rewrite Hix. apply head_insert.
  - eapply (indexed_absent ready_index job_ok ready_index_inj); eauto using st_ok, st_ready.
  - by apply ready_prefix_job; destruct Hj.
Qed.

Lemma ready_entries_same V V' J j q :
  transition_view (J !! (jb_queue j, jb_id j)) j V V' ->
  J !! (jb_queue j, jb_id j) ≫= ready_index = None -> jb_status j <> Ready -> ready_entries V' q = ready_entries V q.
Proof.
  intros (_&Hr&_) Hnew Hst. unfold ready_entries. rewrite Hr. unfold drop_entry. rewrite Hnew.
  unfold add_entry, ready_index. by rewrite bool_decide_false.
Qed.

Lemma cache_min_cursors e q entry q' :
  pe_queue_ready_cursors (cache_queue_ready_min e q entry) !! q' =
  if decide (q' = q) then (fun c => cursor_min c entry) <$> pe_queue_ready_cursors e !! q
  else pe_queue_ready_cursors e !! q'.
Proof.
  unfold cache_queue_ready_min. destruct (pe_queue_ready_cursors e !! q) as [c|] eqn:Hc.
  2: { destruct (decide (q' = q)) as [->|]; [|done]. by rewrite Hc. }
  destruct (decide (q' = q)) as [->|Hne]; cbn [fmap option_fmap option_map].
  - destruct c as [[k0 v0]|]; cbn [cursor_min].
    + destruct (key_ltb entry.1 k0); [unfold set_cursor; cbn; by rewrite lookup_insert_eq|done].
    + unfold set_cursor. cbn. by rewrite lookup_insert_eq.
  - destruct c as [[k0 v0]|]; [destruct (key_ltb entry.1 k0)|]; try done; unfold set_cursor; cbn; by rewrite lookup_insert_ne.
Qed.

Lemma cache_min_frame e q entry :
  pe_db (cache_queue_ready_min e q entry) = pe_db e /\ pe_codec (cache_queue_ready_min e q entry) = pe_codec e /\
  pe_queue_lease_counts (cache_queue_ready_min e q entry) = pe_queue_lease_counts e /\
  pe_queue_lease_expirations (cache_queue_ready_min e q entry) = pe_queue_lease_expirations e.
Proof.
  unfold cache_queue_ready_min. destruct (pe_queue_ready_cursors e !! q) as [[[k0 v0]|]|]; [destruct (key_ltb entry.1 k0)|..]; done.
Qed.

Lemma leases_repr_ext e e' X :
  leases_repr e X -> pe_queue_lease_counts e' = pe_queue_lease_counts e ->
  pe_queue_lease_expirations e' = pe_queue_lease_expirations e -> leases_repr e' X.
Proof. intros [Hc Hx] H1 H2. split; intros q; rewrite ?H1, ?H2; [apply Hc|apply Hx]. Qed.

(** ** Pushing *)

Lemma ready_entry_raw j :
  ready_entry raw_codec j = Ok (ready_index j).
Proof. unfold ready_entry, ready_index. by case_bool_decide. Qed.

(** The invariant after a transition: what is left to show of the caches. *)
Lemma queue_inv_transition e e' J j :
  queue_inv e J -> pe_codec e' = raw_codec -> kv_ok (pe_db e') -> job_ok (jb_queue j, jb_id j) j ->
  transition_view (J !! (jb_queue j, jb_id j)) j (kv_view (pe_db e)) (kv_view (pe_db e')) ->
  leases_repr e' (lease_set (<[(jb_queue j, jb_id j) := j]> J)) ->
  (forall q, q <> jb_queue j -> pe_queue_ready_cursors e' !! q = pe_queue_ready_cursors e !! q) ->
  (forall c, name_ok (jb_queue j) -> pe_queue_ready_cursors e' !! jb_queue j = Some c ->
     c = head (ready_entries (kv_view (pe_db e')) (jb_queue j))) ->
  Z.of_nat (size (<[(jb_queue j, jb_id j) := j]> J)) <= U64_MAX ->
  queue_inv e' (<[(jb_queue j, jb_id j) := j]> J).
Proof.
  intros [Hc Hkv Hst Hls Hcur Hsz] Hc' Hkv' Hj Htv Hls' Hother Hsame Hsz'. split; try done.
  - by eapply stored_transition.
  - intros q c Hq Hlook. destruct (decide (q = jb_queue j)) as [->|Hne]; [by apply Hsame|].
    rewrite Hother in Hlook by done. erewrite ready_entries_other by (done || apply Hq). by apply Hcur.
Qed.

Lemma push_refines_inv e J now_iso job r e' :
  let j := stamp_job now_iso job in
  queue_inv e J -> job_ok (jb_queue j, jb_id j) j -> lease_of j = None -> J !! (jb_queue j, jb_id j) = None ->
  Z.of_nat (size J) < U64_MAX -> pe_push_job now_iso job e = (r, e') ->
  match r with
  | Ok j' => j' = j /\ queue_inv e' (<[(jb_queue j, jb_id j) := j]> J)
  | Err err => commit_failed err /\ queue_inv e' J
  end.
Proof.
  intros j Hinv Hj Hlease Hnew Hsize. pose proof Hinv as [Hc Hkv Hst Hls Hcur Hsz].
  unfold pe_push_job, pbind, pget, plift, pret, pmodify. cbv beta zeta. fold j. rewrite Hc, ready_entry_raw.
  rewrite serialize_raw by apply Hj. cbv iota beta. destruct queue_keyspaces_valid as (Hv1&Hv2&Hv3).
  set (ws := match ready_index j with Some (rkey, rdata) => _ | None => _ end).
  assert (Hws : Forall write_ok ws).
  { unfold ws, ready_index. case_bool_decide; writes_ok. }
  destruct (commit ws e) as [rc ec] eqn:Hcommit.
  destruct (commit_cases e ws rc ec Hkv Hws Hcommit) as (db&->&Hkv'&[[-> Hview]|(err&->&Hfail&Hview)]); intros [= <- <-].
  2: { split; [done|]. by apply queue_inv_same_view. }
  split; [done|].
  assert (Htv : transition_view (J !! (jb_queue j, jb_id j)) j (kv_view (pe_db e)) (kv_view db)).
  { rewrite Hnew. unfold transition_view. rewrite !Hview by done. unfold ws, add_entry, drop_entry, lease_index, ready_index.
    rewrite Hlease. cbn [mbind option_bind fmap option_fmap option_map record_entry]. case_bool_decide; by writes_simpl. }
  assert (Hrepr : leases_repr e (lease_set (<[(jb_queue j, jb_id j) := j]> J))).
  { destruct Hls as [Hl1 Hl2]. assert (Heq : forall q, lease_set (<[(jb_queue j, jb_id j) := j]> J) q = lease_set J q).
    { intros q. rewrite lease_set_insert by done. unfold lease_in. rewrite Hlease. case_bool_decide; multiset_solver. }
    split; intros q; rewrite Heq; [apply Hl1|apply Hl2]. }
  assert (Hsz' : Z.of_nat (size (<[(jb_queue j, jb_id j) := j]> J)) <= U64_MAX).
  { rewrite map_size_insert_None by done. lia. }
  destruct (decide (jb_status j = Ready)) as [Hr|Hr].
  - assert (Hix : ready_index j = Some (job_ready_key raw_codec j, queue_id_text (jb_id j)))
      by (unfold ready_index; by rewrite bool_decide_true).
    rewrite Hix. destruct (cache_min_frame (set_db e db) (jb_queue j) (job_ready_key raw_codec j, queue_id_text (jb_id j))) as (Hf1&Hf2&Hf3&Hf4).
    eapply queue_inv_transition; try done.
    + by rewrite Hf2.
    + by rewrite Hf1.
    + by rewrite Hf1.
    + by eapply leases_repr_ext; [exact Hrepr|..].
    + intros q Hne. rewrite cache_min_cursors. by rewrite decide_False.
    + intros c Hq. rewrite cache_min_cursors, decide_True by done. cbn [pe_queue_ready_cursors set_db]. intros Hlook.
      apply fmap_Some in Hlook as (c0&Hc0&->). rewrite Hf1. cbn [pe_db set_db].
      rewrite (ready_head_add _ _ _ _ Htv) by (done || by rewrite Hnew). f_equal. by apply Hcur.
  - assert (Hix : ready_index j = None) by (unfold ready_index; by rewrite bool_decide_false).
    rewrite Hix. eapply queue_inv_transition; try done; [by eapply leases_repr_ext|].
    intros c Hq Hlook. erewrite ready_entries_same by (done || by rewrite Hnew). by apply Hcur.
Qed.

(** ** Reading and finishing jobs *)

Lemma kv_get_record e J q id :
  queue_inv e J -> no_nul q ->
  kv_get (pe_db e) "queue_jobs" (make_queue_key raw_codec q id) = Ok (json_text <$> J !! (q, id)).
Proof.
  intros [_ Hkv [Hok Hrec _ _] _ _ _] Hq. rewrite kv_get_view by (done || apply queue_keyspaces_valid). f_equal.
  destruct (J !! (q, id)) as [j|] eqn:Hj; cbn [fmap option_fmap option_map].
  - apply Hrec. exists (q, id), j. split; [done|]. destruct (Hok _ _ Hj) as [_ Hn _ _ _]. injection Hn as -> ->. done.
  - destruct (kv_view (pe_db e) "queue_jobs" !! make_queue_key raw_codec q id) as [v|] eqn:Hv; [|done].
    apply Hrec in Hv as (i&j&Hi&Hf). destruct (Hok _ _ Hi) as [_ -> Hq' _ _]. injection Hf as Hk _.
    apply (scoped_key_inj "queue_jobs" "queue_jobs") in Hk as [Hqq Hii]; [congruence|done..].
Qed.

Lemma read_job_spec e J q id :
  queue_inv e J -> no_nul q -> read_job e (make_queue_key raw_codec q id) = Ok (J !! (q, id)).
Proof.
  intros Hinv Hq. unfold read_job. rewrite (kv_get_record e J) by done. cbn [storage_error]. rewrite bind_Ok.
  destruct (J !! (q, id)) as [j|] eqn:Hj; cbn [fmap option_fmap option_map]; [|done].
  rewrite (qi_codec _ _ Hinv), deserialize_raw; [done|]. by destruct (st_ok _ _ (qi_stored _ _ Hinv) _ _ Hj).
Qed.

Lemma lease_delta_frame e q removed added :
  pe_db (apply_queue_lease_delta e q removed added) = pe_db e /\
  pe_codec (apply_queue_lease_delta e q removed added) = pe_codec e /\
  pe_queue_ready_cursors (apply_queue_lease_delta e q removed added) = pe_queue_ready_cursors e.
Proof. unfold apply_queue_lease_delta. by destruct (_ && _). Qed.

Lemma expiration_delta_frame e q removed added :
  pe_db (apply_queue_lease_expiration_delta e q removed added) = pe_db e /\
  pe_codec (apply_queue_lease_expiration_delta e q removed added) = pe_codec e /\
  pe_queue_ready_cursors (apply_queue_lease_expiration_delta e q removed added) = pe_queue_ready_cursors e.
Proof. unfold apply_queue_lease_expiration_delta. by destruct (_ && _). Qed.

Lemma forget_lease_frame e q expires :
  pe_db (forget_lease q expires e) = pe_db e /\ pe_codec (forget_lease q expires e) = pe_codec e /\
  pe_queue_ready_cursors (forget_lease q expires e) = pe_queue_ready_cursors e.
Proof.
  unfold forget_lease. destruct expires as [x|]; [|done].
  destruct (expiration_delta_frame (apply_queue_lease_delta e q 1 0) q [x] []) as (->&->&->). apply lease_delta_frame.
Qed.

Lemma lease_in_queue q j : jb_queue j <> q -> lease_in q j = None.
Proof. intros. unfold lease_in. by rewrite bool_decide_false. Qed.

Lemma lease_in_same j : lease_in (jb_queue j) j = lease_of j.
Proof. unfold lease_in. by rewrite bool_decide_true. Qed.

(** A job that leaves the leased state gives back its lease. *)
Lemma forget_lease_repr e J i j0 j :
  leases_repr e (lease_set J) -> Z.of_nat (size J) <= U64_MAX -> J !! i = Some j0 -> jb_status j0 = Leased ->
  lease_of j = None -> jb_queue j = jb_queue j0 ->
  leases_repr (forget_lease (jb_queue j0) (jb_lease_expires_at_ms j0) e) (lease_set (<[i := j]> J)).
Proof.
  intros Hls Hsz Hi Hst Hl Hq.
  assert (Hl0 : lease_of j0 = jb_lease_expires_at_ms j0) by (unfold lease_of; by rewrite bool_decide_true).
  assert (Hother : forall q, q <> jb_queue j0 -> lease_set (<[i := j]> J) q = lease_set J q).
  { intros q Hne. destruct (lease_set_update J i j0 j q Hi) as [-> _]. rewrite !lease_in_queue by congruence.
    cbn [option_ms]. multiset_solver. }
  destruct (lease_set_update J i j0 j (jb_queue j0) Hi) as [Heq Hsub].
  rewrite lease_in_same in Heq, Hsub. rewrite Hl0 in Heq, Hsub. rewrite <-Hq in Heq at 3. rewrite lease_in_same, Hl in Heq.
  cbn [option_ms] in Heq. unfold forget_lease. destruct (jb_lease_expires_at_ms j0) as [x|]; cbn [option_ms] in *.
  - change 1 with (zlen [x]). change 0 with (zlen ([] : list Z)).
    apply (leases_delta e (jb_queue j0) (lease_set J)); [done..| | |].
    + rewrite Heq. change (list_ms [x]) with ({[+ x +]} ⊎ (∅ : gmultiset Z)). change (list_ms []) with (∅ : gmultiset Z). multiset_solver.
    + change (list_ms [x]) with ({[+ x +]} ⊎ (∅ : gmultiset Z)). multiset_solver.
    + pose proof (lease_set_size J (jb_queue j0)). cbn [length]. lia.
  - destruct Hls as [Hc Hx]. assert (Hsame : forall q, lease_set (<[i := j]> J) q = lease_set J q).
    { intros q. destruct (decide (q = jb_queue j0)) as [->|]; [rewrite Heq; multiset_solver|auto]. }
    split; intros q; rewrite Hsame; [apply Hc|apply Hx].
Qed.

(** The batch of [ack_job] and [nack_job_with_options]. *)
Definition finish_batch q id (j0 j : QueueJob) : list BatchWrite :=
  let batch := remove_lease_write raw_codec q id (jb_lease_expires_at_ms j0)
                 (batch_insert [] "queue_jobs" (make_queue_key raw_codec q id) (json_text j)) in
  match ready_index j with Some (rkey, rdata) => batch_insert batch "ready_jobs" rkey rdata | None => batch end.

Definition finish_caches q (j0 j : QueueJob) e : PersistentEngine D :=
  let e := forget_lease q (jb_lease_expires_at_ms j0) e in
  match ready_index j with Some entry => cache_queue_ready_min e q entry | None => e end.

Lemma finish_inv e J q id j0 j rc ec :
  queue_inv e J -> J !! (q, id) = Some j0 -> jb_status j0 = Leased -> job_ok (q, id) j -> lease_of j = None ->
  commit (finish_batch q id j0 j) e = (rc, ec) ->
  match rc with
  | Ok _ => queue_inv (finish_caches q j0 j ec) (<[(q, id) := j]> J)
  | Err err => commit_failed err /\ queue_inv ec J
  end.
Proof.
  intros Hinv Hi Hst0 Hj Hlease Hcommit. pose proof Hinv as [Hc Hkv Hst Hls Hcur Hsz].
  destruct queue_keyspaces_valid as (Hv1&Hv2&Hv3). pose proof (st_ok _ _ Hst _ _ Hi) as Hj0.
  assert (Hq : q = jb_queue j /\ id = jb_id j) by (by destruct Hj as [_ [= -> ->] _ _ _]).
  assert (Hq0 : q = jb_queue j0 /\ id = jb_id j0) by (by destruct Hj0 as [_ [= -> ->] _ _ _]).
  assert (Hr0 : ready_index j0 = None) by (unfold ready_index; rewrite bool_decide_false; congruence).
  assert (Hl0 : lease_of j0 = jb_lease_expires_at_ms j0) by (unfold lease_of; by rewrite bool_decide_true).
  assert (Hws : Forall write_ok (finish_batch q id j0 j)).
  { unfold finish_batch, remove_lease_write, ready_index. case_bool_decide; destruct (jb_lease_expires_at_ms j0); writes_ok. }
  destruct (commit_cases e _ rc ec Hkv Hws Hcommit) as (db&->&Hkv'&[[-> Hview]|(err&->&Hfail&Hview)]).
  2: { split; [done|]. by apply queue_inv_same_view. }
  assert (Htv : transition_view (J !! (q, id)) j (kv_view (pe_db e)) (kv_view db)).
  { rewrite Hi. unfold transition_view, drop_entry. cbn [mbind option_bind]. rewrite !Hview, Hr0 by done.
    unfold lease_index at 2. rewrite Hl0. unfold finish_batch, remove_lease_write, add_entry, lease_index, record_entry.
    rewrite Hlease. destruct Hq as [-> ->]. destruct Hq0 as [Hq0 Hid0]. rewrite <-Hq0, <-Hid0.
    destruct (ready_index j) as [[rk rv]|], (jb_lease_expires_at_ms j0) as [x|]; cbn [fmap option_fmap option_map];
      writes_simpl; by rewrite ?insert_delete_eq. }
  assert (Hsz' : Z.of_nat (size (<[(q, id) := j]> J)) <= U64_MAX) by (by rewrite map_size_insert_Some by (by eexists)).
  assert (Hrepr : leases_repr (forget_lease q (jb_lease_expires_at_ms j0) (set_db e db)) (lease_set (<[(q, id) := j]> J))).
  { destruct Hq0 as [-> ->]. apply forget_lease_repr; try done; [by eapply leases_repr_ext|].
    destruct Hq as [<- _]. done. }
  destruct (forget_lease_frame (set_db e db) q (jb_lease_expires_at_ms j0)) as (Hf1&Hf2&Hf3).
  unfold finish_caches. destruct Hq as [-> ->]. destruct (ready_index j) as [entry|] eqn:Hix.
  - assert (Hr : jb_status j = Ready) by (unfold ready_index in Hix; by case_bool_decide).
    assert (Hentry : entry = (job_ready_key raw_codec j, queue_id_text (jb_id j)))
      by (unfold ready_index in Hix; rewrite bool_decide_true in Hix by done; by injection Hix).
    set (e1 := forget_lease (jb_queue j) (jb_lease_expires_at_ms j0) (set_db e db)) in *.
    destruct (cache_min_frame e1 (jb_queue j) entry) as (Hg1&Hg2&Hg3&Hg4).
    eapply queue_inv_transition; try done.
    + by rewrite Hg2, Hf2.
    + by rewrite Hg1, Hf1.
    + by rewrite Hg1, Hf1.
    + by eapply leases_repr_ext.
    + intros q Hne. by rewrite cache_min_cursors, decide_False, Hf3.
    + intros c Hq. rewrite cache_min_cursors, decide_True, Hf3 by done. cbn [pe_queue_ready_cursors set_db]. intros Hlook.
      apply fmap_Some in Hlook as (c0&Hc0&->). rewrite Hg1, Hf1. cbn [pe_db set_db].
      rewrite (ready_head_add _ _ _ _ Htv), Hentry by (done || by rewrite Hi). f_equal. by apply Hcur.
  - eapply queue_inv_transition; try done.
    + by rewrite Hf2.
    + by rewrite Hf1.
    + by rewrite Hf1.
    + intros q Hne. by rewrite Hf3.
    + intros c Hq Hlook. rewrite Hf3 in Hlook. rewrite Hf1. erewrite ready_entries_same; [by apply Hcur|done|by rewrite Hi|].
      intros Hr. unfold ready_index in Hix. by rewrite bool_decide_true in Hix.
Qed.

(** ** Well-typed transitions *)

Lemma set_completed_ok i j now : in_i64 now -> job_ok i j -> job_ok i (set_completed now j) /\ lease_of (set_completed now j) = None.
Proof. intros Hnow [[] Hn Hq Hcr Hl]. split; [|done]. split; job_ok_tac. Qed.

Lemma release_lease_ok i j : job_ok i j -> job_ok i (release_lease j) /\ lease_of (release_lease j) = None.
Proof. intros [[] Hn Hq Hcr Hl]. split; [|done]. split; job_ok_tac. Qed.

Lemma nack_transition_ok i j now options :
  in_i64 now -> is_str (qn_error options) -> job_ok i j ->
  job_ok i (nack_transition now options j) /\ lease_of (nack_transition now options j) = None.
Proof.
  intros Hnow Herr [[] Hn Hq Hcr Hl]. unfold nack_transition. destruct (_ <=? _); (split; [|done]); split; job_ok_tac.
Qed.

(** ** Acknowledging and rejecting *)

(** What finishing a leased job does to the map. *)
Definition finish_spec (f : QueueJob -> QueueJob) J (i : string * string) : option QueueJob * Jobs :=
  match J !! i with
  | Some j => if bool_decide (jb_status j = Leased) then (Some (f j), <[i := f j]> J) else (None, J)
  | None => (None, J)
  end.

Definition refines {A} (r : thingd_result A) e' J (spec : A * Jobs) : Prop :=
  match r with
  | Ok a => a = spec.1 /\ queue_inv e' spec.2
  | Err err => commit_failed err /\ queue_inv e' J
  end.

Lemma ack_refines e J q id now r e' :
  queue_inv e J -> no_nul q -> in_i64 now -> pe_ack_job q id now e = (r, e') ->
  refines r e' J (finish_spec (set_completed now) J (q, id)).
Proof.
  intros Hinv Hq Hnow. unfold pe_ack_job, pbind, pget, plift, pret, pmodify. cbv beta zeta.
  rewrite (qi_codec _ _ Hinv), (read_job_spec e J) by done. cbv beta iota. unfold finish_spec.
  destruct (J !! (q, id)) as [j|] eqn:Hj; [|by intros [= <- <-]].
  destruct (decide (jb_status j = Leased)) as [Hst|Hst].
  2: { rewrite !bool_decide_true, bool_decide_false by done. by intros [= <- <-]. }
  rewrite bool_decide_false, bool_decide_true by auto.
  destruct (set_completed_ok (q, id) j now Hnow) as [Hok Hl]; [by apply (st_ok _ _ (qi_stored _ _ Hinv))|].
  rewrite serialize_raw by apply Hok. change (jb_lease_expires_at_ms (set_completed now j)) with (jb_lease_expires_at_ms j).
  change (remove_lease_write raw_codec q id (jb_lease_expires_at_ms j) _) with (finish_batch q id j (set_completed now j)).
  destruct (commit _ e) as [rc ec] eqn:Hcommit. pose proof (finish_inv _ _ _ _ _ _ _ _ Hinv Hj Hst Hok Hl Hcommit) as Hfin.
  destruct rc; intros [= <- <-]; [by split|done].
Qed.

Lemma nack_refines e J q id options now r e' :
  queue_inv e J -> no_nul q -> in_i64 now -> is_str (qn_error options) ->
  pe_nack_job_with_options q id options now e = (r, e') ->
  refines r e' J (finish_spec (nack_transition now options) J (q, id)).
Proof.
  intros Hinv Hq Hnow Herr. unfold pe_nack_job_with_options, pbind, pget, plift, pret, pmodify. cbv beta zeta.
  rewrite (qi_codec _ _ Hinv), (read_job_spec e J) by done. cbv beta iota. unfold finish_spec.
  destruct (J !! (q, id)) as [j|] eqn:Hj; [|by intros [= <- <-]].
  destruct (decide (jb_status j = Leased)) as [Hst|Hst].
  2: { rewrite !bool_decide_true, bool_decide_false by done. by intros [= <- <-]. }
  rewrite bool_decide_false, bool_decide_true by auto.
  destruct (nack_transition_ok (q, id) j now options Hnow Herr) as [Hok Hl]; [by apply (st_ok _ _ (qi_stored _ _ Hinv))|].
  rewrite serialize_raw by apply Hok. rewrite ready_entry_raw. cbv beta iota.
  change (match ready_index (nack_transition now options j) with Some (rkey, rdata) => _ | None => _ end)
    with (finish_batch q id j (nack_transition now options j)).
  destruct (commit _ e) as [rc ec] eqn:Hcommit. pose proof (finish_inv _ _ _ _ _ _ _ _ Hinv Hj Hst Hok Hl Hcommit) as Hfin.
  destruct rc; intros [= <- <-]; [by split|done].
Qed.
End spec.
