(* ===== verification/PQueueClaim.v ===== *)
(** * thingd: claiming jobs from the persistent queues

    The claim of one job: the loop over the lease index releases exactly the expired
    leases of the queue, and the loop over the ready index claims the first job in
    claim order that is available.  Both loops end.  The cached cursor and the lease
    counters stay exact. *)

From stdpp Require Import gmultiset.
From S2P Require Import Prelude Wal Table Layer Database ThingDb Keyspace RamScan Model Queue Storage Persistent PSample PStore PQueue PQueueSpec.

Section claim.
Context `{KvLaws D} `{!Serde QueueJob job_wt} `{!Serde string is_str}.
Implicit Types (e : PersistentEngine D) (J : Jobs) (j : QueueJob) (q : string) (V : string -> bmap bytes) (now : Z).

(** ** Entries and their jobs *)

(** An entry of an index of the queue and its job. *)
Definition entry_job (f : QueueJob -> option (bytes * bytes)) J q (x : bytes * bytes) j : Prop :=
  J !! (q, jb_id j) = Some j /\ jb_queue j = q /\ f j = Some x.

Lemma lease_entries_jobs V J q :
  stored V J -> no_nul q ->
  exists js, Forall2 (entry_job lease_index J q) (prefix_entries (make_lease_prefix raw_codec q) (V "lease_jobs")) js.
Proof.
  intros [Hok _ _ Hls] Hq. apply Forall2_choose. intros [k v] Hin. apply elem_of_prefix_entries in Hin as [Hk Hp].
  apply Hls in Hk as (i&j&Hi&Hf). exists j. destruct (Hok _ _ Hi) as [_ -> Hq' _ _].
  assert (Hqj : q = jb_queue j).
  { unfold lease_index in Hf. destruct (lease_of j) as [x|]; [|done]. injection Hf as <- _.
    by apply make_lease_key_prefix in Hp. }
  split_and!; [by rewrite Hqj|done..].
Qed.

Lemma ready_entries_jobs V J q :
  stored V J -> no_nul q -> exists js, Forall2 (entry_job ready_index J q) (ready_entries V q) js.
Proof.
  intros [Hok _ Hrd _] Hq. apply Forall2_choose. intros [k v] Hin. apply elem_of_prefix_entries in Hin as [Hk Hp].
  apply Hrd in Hk as (i&j&Hi&Hf). exists j. destruct (Hok _ _ Hi) as [_ -> Hq' _ _].
  assert (Hqj : q = jb_queue j).
  { unfold ready_index in Hf. case_bool_decide; [|done]. injection Hf as <- _. by apply ready_prefix_job in Hp. }
  split_and!; [by rewrite Hqj|done..].
Qed.

(** Every job with an entry is listed. *)
Lemma entries_complete (f : QueueJob -> option (bytes * bytes)) (m : bmap bytes) J q p js j x :
  indexed f m J -> Forall2 (entry_job f J q) (prefix_entries p m) js ->
  (forall i j i' j' k v v', job_ok i j -> job_ok i' j' -> f j = Some (k, v) -> f j' = Some (k, v') -> i = i') ->
  (forall i j, J !! i = Some j -> job_ok i j) ->
  J !! (q, jb_id j) = Some j -> f j = Some x -> starts_with p x.1 = true -> j ∈ js.
Proof.
  intros Hm Hall Hinj Hok Hj Hf Hp. destruct x as [k v].
  assert (Hin : (k, v) ∈ prefix_entries p m).
  { apply elem_of_prefix_entries. split; [|done]. apply Hm. by exists (q, jb_id j), j. }
  apply list_elem_of_lookup in Hin as [n Hn]. destruct (Forall2_lookup_l _ _ _ _ _ Hall Hn) as (j'&Hn'&Hj'&Hq'&Hf').
  assert (Heq : (q, jb_id j) = (q, jb_id j')) by (eapply Hinj; eauto). injection Heq as Heq. rewrite Heq in Hj.
  assert (j = j') as -> by congruence. by eapply list_elem_of_lookup_2.
Qed.

(** ** Releasing expired leases *)

Definition lease_key j : bytes := make_lease_key raw_codec (jb_queue j) (default 0 (lease_of j)) (jb_id j).
Definition queue_key j : bytes := make_queue_key raw_codec (jb_queue j) (jb_id j).

Definition release_batch (ws : list BatchWrite) j : list BatchWrite :=
  batch_insert (batch_insert (batch_remove ws "lease_jobs" (lease_key j)) "queue_jobs" (queue_key j) (json_text (release_lease j)))
    "ready_jobs" (job_ready_key raw_codec j) (queue_id_text (jb_id j)).

(** What the loop does with one expired lease. *)
Definition expire (acc : ExpiryScan) j : ExpiryScan :=
  mkExpiry (release_batch (es_batch acc) j) true (u64_saturating_add (es_count acc) 1)
    (es_expirations acc ++ [default 0 (lease_of j)])
    (es_ready acc ++ [(job_ready_key raw_codec j, queue_id_text (jb_id j))]).

Lemma lease_of_Some j x : lease_of j = Some x <-> jb_status j = Leased /\ jb_lease_expires_at_ms j = Some x.
Proof. unfold lease_of. case_bool_decide; naive_solver. Qed.

Lemma lease_expired_of now j x : lease_of j = Some x -> lease_expired now j = (x <=? now).
Proof. intros [Hs Hx]%lease_of_Some. unfold lease_expired. by rewrite bool_decide_true, Hx. Qed.

Lemma expiry_loop_spec e J q now post js pre fuel acc :
  queue_inv e J -> name_ok q -> queue_has_expired_leases e q now = true ->
  entries_of (pe_db e) "lease_jobs" (make_lease_prefix raw_codec q) = pre ++ post ->
  Forall2 (entry_job lease_index J q) post js -> (length post < fuel)%nat ->
  expiry_loop fuel e q now (fst <$> last pre) acc = Ok (foldl expire acc (take_while (lease_expired now) js)).
Proof.
  intros Hinv [Hq Hqs] Hexp Hent Hjs. pose proof Hinv as [Hc Hkv Hst _ _ _].
  destruct queue_keyspaces_valid as (Hv1&Hv2&Hv3).
  revert pre fuel acc Hent. induction Hjs as [|[k v] j post js (Hj&Hjq&Hf) Hjs IH]; intros pre fuel acc Hent Hfuel;
    (destruct fuel as [|fuel]; [cbn [length] in Hfuel; lia|]); cbn [expiry_loop]; rewrite Hexp, Hc; cbn [negb];
    rewrite (next_entry (pe_db e) "lease_jobs" _ pre _ Hkv Hv3 Hent); cbn [storage_error]; rewrite bind_Ok; cbn [head].
  { done. }
  destruct (st_ok _ _ Hst _ _ Hj) as [Hwt _ _ _ Hlx].
  unfold lease_index in Hf. destruct (lease_of j) as [x|] eqn:Hx; [|done]. injection Hf as <- <-. rewrite Hjq.
  rewrite lease_expiration_key by auto. rewrite bind_Ok. cbn [take_while]. rewrite (lease_expired_of now j x Hx).
  destruct (Z.ltb_spec now x), (Z.leb_spec x now); [lia|done| |lia].
  rewrite decode_queue_id_raw by apply Hwt. rewrite bind_Ok. rewrite (kv_get_record e J) by done.
  cbn [storage_error]. rewrite bind_Ok, Hj. cbn [fmap option_fmap option_map]. rewrite deserialize_raw by done. rewrite bind_Ok.
  rewrite (lease_expired_of now j x Hx). destruct (Z.leb_spec x now); [|lia].
  rewrite serialize_raw by (destruct (release_lease_ok (q, jb_id j) j) as [[] _]; [by apply (st_ok _ _ Hst)|done]).
  rewrite bind_Ok. change (jb_id (release_lease j)) with (jb_id j). rewrite encode_queue_id_raw, bind_Ok.
  replace (Some (make_lease_key raw_codec q x (jb_id j)))
    with (fst <$> last (pre ++ [(make_lease_key raw_codec q x (jb_id j), queue_id_text (jb_id j))])) by (by rewrite last_snoc).
  rewrite IH; [|rewrite Hent, <-app_assoc; cbn [app]; by rewrite Hjq|cbn [length] in Hfuel; lia].
  f_equal. cbn [foldl]. f_equal. unfold expire, release_batch, drop_lease, lease_key, queue_key. rewrite Hx, Hjq. done.
Qed.

(** The map and the keyspaces after some leases are released. *)
Definition release_jobs J (js : list QueueJob) : Jobs :=
  foldl (fun J j => <[(jb_queue j, jb_id j) := release_lease j]> J) J js.
Definition release_view V (js : list QueueJob) (n : string) : bmap bytes :=
  foldl (fun m j => apply_writes n (release_batch [] j) m) (V n) js.

Lemma apply_release_batch n ws j m :
  apply_writes n (release_batch ws j) m = apply_writes n (release_batch [] j) (apply_writes n ws m).
Proof. unfold release_batch. rewrite !apply_insert, !apply_remove. done. Qed.

Lemma apply_release_batches n js ws m :
  apply_writes n (foldl release_batch ws js) m = foldl (fun m j => apply_writes n (release_batch [] j) m) (apply_writes n ws m) js.
Proof. revert ws. induction js as [|j js IH]; intros ws; cbn [foldl]; [done|]. by rewrite IH, apply_release_batch. Qed.

Lemma release_batches_ok js ws : Forall write_ok ws -> Forall write_ok (foldl release_batch ws js).
Proof.
  destruct queue_keyspaces_valid as (Hv1&Hv2&Hv3). revert ws.
  induction js as [|j js IH]; intros ws Hws; cbn [foldl]; [done|]. apply IH. unfold release_batch. writes_ok.
Qed.

Definition leased_in J q j : Prop := J !! (q, jb_id j) = Some j /\ jb_queue j = q /\ exists x, lease_of j = Some x.

Lemma release_transition V J q j :
  stored V J -> leased_in J q j -> transition_view (J !! (q, jb_id j)) (release_lease j) V (release_view V [j]).
Proof.
  intros Hst (Hj&Hq&x&Hx). rewrite Hj. unfold transition_view, release_view, release_batch. cbn [foldl]. writes_simpl.
  unfold apply_writes, drop_entry, add_entry. cbn [foldl mbind option_bind].
  unfold ready_index at 2. apply lease_of_Some in Hx as Hs. destruct Hs as [Hs _]. rewrite bool_decide_false by congruence.
  unfold ready_index, lease_index. rewrite Hx. cbn [fmap option_fmap option_map record_entry].
  rewrite insert_delete_eq. unfold lease_key, queue_key. by rewrite Hx.
Qed.

Lemma release_fold V J q js :
  stored V J -> NoDup (jb_id <$> js) -> Forall (leased_in J q) js ->
  stored (release_view V js) (release_jobs J js) /\
  (forall q', q' <> q -> lease_set (release_jobs J js) q' = lease_set J q') /\
  lease_set (release_jobs J js) q = lease_set J q ∖ list_ms ((fun j => default 0 (lease_of j)) <$> js) /\
  list_ms ((fun j => default 0 (lease_of j)) <$> js) ⊆ lease_set J q /\
  size (release_jobs J js) = size J /\
  (forall q', no_nul q' -> q' <> q -> ready_entries (release_view V js) q' = ready_entries V q') /\
  (no_nul q -> head (ready_entries (release_view V js) q) =
     foldl cursor_min (head (ready_entries V q)) ((fun j => (job_ready_key raw_codec j, queue_id_text (jb_id j))) <$> js)).
Proof.
  revert V J. induction js as [|j js IH]; intros V J Hst Hnd Hall.
  { cbn. split_and!; try done; [|multiset_solver]. change (list_ms []) with (∅ : gmultiset Z). multiset_solver. }
  apply Forall_cons in Hall as [Hj Hall]. rewrite fmap_cons in Hnd. apply NoDup_cons in Hnd as [Hnin Hnd].
  pose proof (release_transition V J q j Hst Hj) as Htv. destruct Hj as (Hj&Hq&x&Hx).
  destruct (release_lease_ok (q, jb_id j) j) as [Hok Hnl]; [by apply (st_ok _ _ Hst)|].
  set (J1 := <[(q, jb_id j) := release_lease j]> J).
  assert (Hst1 : stored (release_view V [j]) J1) by (by eapply stored_transition).
  assert (Hall1 : Forall (leased_in J1 q) js).
  { rewrite Forall_forall in Hall |- *. intros j' Hj'. destruct (Hall j' Hj') as (Hj1&Hq1&Hx1). split_and!; [|done..].
    unfold J1. rewrite lookup_insert_ne; [done|]. intros [= Heq]. apply Hnin. rewrite Heq. by apply list_elem_of_fmap_2. }
  destruct (IH _ _ Hst1 Hnd Hall1) as (H1&H2&H3&H4&H5&H6&H7).
  assert (HJ : release_jobs J (j :: js) = release_jobs J1 js) by (unfold release_jobs, J1; cbn [foldl]; by rewrite Hq).
  assert (HV : release_view V (j :: js) = release_view (release_view V [j]) js) by done.
  rewrite HJ, HV. rewrite !fmap_cons. cbn [foldl]. rewrite Hx. cbn [default]. subst q.
  assert (Hset : forall q, lease_set J1 q = (lease_set J q ∖ option_ms (lease_in q j)) ⊎ ∅ /\ option_ms (lease_in q j) ⊆ lease_set J q).
  { intros q. unfold J1. destruct (lease_set_update J _ j (release_lease j) q Hj) as [-> Hsub]. split; [|done].
    unfold lease_in at 2. rewrite Hnl. by case_bool_decide. }
  destruct (Hset (jb_queue j)) as [Hs1 Hs2]. rewrite lease_in_same, Hx in Hs1, Hs2. cbn [option_ms] in Hs1, Hs2.
  change (list_ms (x :: ((fun j => default 0 (lease_of j)) <$> js))) with ({[+ x +]} ⊎ list_ms ((fun j => default 0 (lease_of j)) <$> js)).
  split_and!.
  - done.
  - intros q' Hne. rewrite H2 by done. destruct (Hset q') as [-> _]. rewrite lease_in_queue by done. cbn [option_ms]. multiset_solver.
  - rewrite H3, Hs1. multiset_solver.
  - rewrite Hs1 in H4. multiset_solver.
  - rewrite H5. unfold J1. by rewrite map_size_insert_Some by (by eexists).
  - intros q' Hq' Hne. rewrite H6 by done. by apply (ready_entries_other _ _ _ _ _ Htv).
  - intros Hnn. rewrite H7 by done. f_equal. apply (ready_head_add _ _ _ _ Htv); try done.
    cbn. rewrite Hj. cbn. unfold ready_index. rewrite bool_decide_false; [done|]. apply lease_of_Some in Hx as [-> _]. done.
Qed.

(** Distinct entries belong to distinct jobs. *)
Lemma entry_jobs_NoDup f J q l js :
  StronglySorted (fun x y => x.1 ≺ y.1) l -> Forall2 (entry_job f J q) l js -> NoDup (jb_id <$> js).
Proof.
  intros Hs Hall.
  assert (Hne : StronglySorted (fun j j' => jb_id j <> jb_id j') js).
  { eapply Forall2_sorted; [done..|]. intros x y j j' (Hj&_&Hf) (Hj'&_&Hf') Hlt Heq.
    rewrite Heq in Hj. assert (j = j') as -> by congruence. assert (x = y) as -> by congruence. by apply key_lt_irrefl in Hlt. }
  clear Hs Hall. induction Hne as [|j js _ IH Hj]; [constructor|]. rewrite fmap_cons. constructor; [|done].
  rewrite list_elem_of_fmap. intros (j'&Heq&Hin). rewrite Forall_forall in Hj. by apply (Hj j').
Qed.

(** The expired leases are the ones the loop reaches. *)
Lemma expired_prefix V J q now js :
  stored V J -> no_nul q ->
  Forall2 (entry_job lease_index J q) (prefix_entries (make_lease_prefix raw_codec q) (V "lease_jobs")) js ->
  take_while (lease_expired now) js = List.filter (lease_expired now) js.
Proof.
  intros Hst Hq Hall. apply take_while_filter. eapply Forall2_sorted; [apply prefix_entries_sorted|exact Hall|].
  intros x y j j' (Hj&Hjq&Hf) (Hj'&Hjq'&Hf') Hlt. unfold lease_index in Hf, Hf'.
  destruct (lease_of j) as [a|] eqn:Ha; [|done]. destruct (lease_of j') as [b|] eqn:Hb; [|done].
  injection Hf as <-. injection Hf' as <-. cbn [fst] in Hlt. rewrite Hjq, Hjq' in Hlt.
  apply make_lease_key_le in Hlt; [|exact (jo_lease _ _ (st_ok _ _ Hst _ _ Hj) _ Ha)|exact (jo_lease _ _ (st_ok _ _ Hst _ _ Hj') _ Hb)].
  rewrite (lease_expired_of now j a), (lease_expired_of now j' b) by done. rewrite !Z.leb_gt. lia.
Qed.

Lemma lease_set_elem J i j x : J !! i = Some j -> lease_of j = Some x -> x ∈ lease_set J (jb_queue j).
Proof.
  intros Hi Hx. destruct (lease_set_update J i j j (jb_queue j) Hi) as [_ Hsub]. rewrite lease_in_same, Hx in Hsub.
  cbn [option_ms] in Hsub. multiset_solver.
Qed.

(** The counters know whether a lease has expired. *)
Lemma no_expired_leases e J q now j i x :
  queue_inv e J -> queue_has_expired_leases e q now = false -> J !! i = Some j -> jb_queue j = q -> lease_of j = Some x -> now < x.
Proof.
  intros Hinv Hexp Hi <- Hx. pose proof (lease_set_elem J i j x Hi Hx) as Hin. destruct (qi_leases _ _ Hinv) as [Hc Hm].
  specialize (Hm (jb_queue j)). unfold queue_has_expired_leases in Hexp.
  destruct (pe_queue_lease_expirations e !! jb_queue j) as [m|]; cbn [mbind option_bind] in Hexp.
  2: { rewrite Hm in Hin. multiset_solver. }
  destruct Hm as [_ Hm]. rewrite elem_of_multiplicity in Hin.
  assert (Hlook : (x, Z.of_nat (multiplicity x (lease_set J (jb_queue j)))) ∈ btree_iter m).
  { apply elem_of_btree_iter. rewrite (Hm x). apply nonzero_pos. lia. }
  unfold first_key_value in Hexp. pose proof (btree_keys_sorted m) as Hs. unfold btree_keys in Hs.
  destruct (btree_iter m) as [|[x0 n0] l]; [by apply elem_of_nil in Hlook|]. cbn [head] in Hexp. apply Z.leb_gt in Hexp.
  apply elem_of_cons in Hlook as [[= -> _]|Hlook]; [done|]. rewrite fmap_cons in Hs. apply StronglySorted_inv in Hs as [_ Hall].
  rewrite Forall_forall in Hall. assert (Hlt : x0 ≺ x) by (apply Hall; by apply (list_elem_of_fmap_2 fst _ _ Hlook)).
  rewrite Z_lt_key in Hlt. lia.
Qed.

(** *** The abstract release *)

Definition release_queue now q j : QueueJob := if bool_decide (jb_queue j = q) then release_if_expired now j else j.
Definition release_all now q J : Jobs := release_queue now q <$> J.

Lemma lookup_release_jobs J js i :
  NoDup ((fun j => (jb_queue j, jb_id j)) <$> js) ->
  release_jobs J js !! i = match List.find (fun j => bool_decide ((jb_queue j, jb_id j) = i)) js with
                           | Some j => Some (release_lease j) | None => J !! i end.
Proof.
  revert J. induction js as [|j js IH]; intros J Hnd; [done|]. rewrite fmap_cons in Hnd. apply NoDup_cons in Hnd as [Hnin Hnd].
  unfold release_jobs in *. cbn [foldl List.find]. rewrite IH by done. case_bool_decide as Hi.
  - destruct (List.find _ js) as [j'|] eqn:Hf; [|by rewrite Hi, lookup_insert_eq].
    apply List.find_some in Hf as [Hin Hi']. apply bool_decide_eq_true in Hi'. destruct Hnin. rewrite Hi, <-Hi'.
    apply list_elem_of_In in Hin. by apply (list_elem_of_fmap_2 (fun j => (jb_queue j, jb_id j))).
  - destruct (List.find _ js); [done|]. by rewrite lookup_insert_ne.
Qed.

Lemma release_jobs_all J q now js :
  (forall i j, J !! i = Some j -> i = (jb_queue j, jb_id j)) -> NoDup (jb_id <$> js) ->
  (forall j, j ∈ js <-> J !! (q, jb_id j) = Some j /\ jb_queue j = q /\ lease_expired now j = true) ->
  release_jobs J js = release_all now q J.
Proof.
  intros Hn Hnd Hjs. apply map_eq. intros i. rewrite lookup_release_jobs.
  2: { assert (Heq : (fun j => (jb_queue j, jb_id j)) <$> js = pair q <$> (jb_id <$> js)).
       { rewrite <-list_fmap_compose. apply list_fmap_ext. intros n j Hj. cbn. f_equal. apply list_elem_of_lookup_2, Hjs in Hj. tauto. }
       rewrite Heq. apply NoDup_fmap_2; [by intros ??[=]|done]. }
  unfold release_all. rewrite lookup_fmap.
  destruct (List.find _ js) as [j|] eqn:Hf.
  - apply List.find_some in Hf as [Hin Hi%bool_decide_eq_true]. apply list_elem_of_In, Hjs in Hin as (Hj&Hq&Hx).
    rewrite <-Hi, Hq, Hj. cbn. unfold release_queue, release_if_expired. by rewrite bool_decide_true, Hx.
  - destruct (J !! i) as [j|] eqn:Hj; cbn; [|done]. f_equal. unfold release_queue, release_if_expired.
    case_bool_decide as Hq; [|done]. destruct (lease_expired now j) eqn:Hx; [|done].
    assert (Hin : j ∈ js). { apply Hjs. pose proof (Hn _ _ Hj) as ->. by rewrite Hq in Hj. }
    apply list_elem_of_In in Hin. apply (List.find_none _ _ Hf) in Hin. apply bool_decide_eq_false in Hin.
    destruct Hin. symmetry. by apply Hn.
Qed.

Lemma expire_fold js acc :
  es_count acc + zlen js <= U64_MAX ->
  foldl expire acc js =
  mkExpiry (foldl release_batch (es_batch acc) js) (es_writes acc || negb (bool_decide (js = []))) (es_count acc + zlen js)
    (es_expirations acc ++ ((fun j => default 0 (lease_of j)) <$> js))
    (es_ready acc ++ ((fun j => (job_ready_key raw_codec j, queue_id_text (jb_id j))) <$> js)).
Proof.
  revert acc. induction js as [|j js IH]; intros acc Hs; cbn [foldl length] in *.
  { rewrite bool_decide_true by done. cbn [negb fmap list_fmap]. rewrite orb_false_r, !app_nil_r, Z.add_0_r. by destruct acc. }
  rewrite IH; cbn [expire es_batch es_writes es_count es_expirations es_ready]; unfold u64_saturating_add; [|lia].
  rewrite !fmap_cons, <-!app_assoc, (bool_decide_false (j :: js = [])) by done. cbn [negb app orb].
  rewrite orb_true_r. f_equal. lia.
Qed.

Lemma cache_mins_cursors e q entries q' :
  pe_queue_ready_cursors (foldl (fun e entry => cache_queue_ready_min e q entry) e entries) !! q' =
  if decide (q' = q) then (fun c => foldl cursor_min c entries) <$> pe_queue_ready_cursors e !! q
  else pe_queue_ready_cursors e !! q'.
Proof.
  revert e. induction entries as [|x entries IH]; intros e; cbn [foldl].
  { destruct (decide (q' = q)) as [->|]; [|done]. by destruct (pe_queue_ready_cursors e !! q). }
  rewrite IH, !cache_min_cursors. destruct (decide (q' = q)) as [->|Hne].
  - rewrite decide_True by done. by destruct (pe_queue_ready_cursors e !! q).
  - by rewrite ?decide_False by done.
Qed.

Lemma cache_mins_frame e q entries :
  pe_db (foldl (fun e entry => cache_queue_ready_min e q entry) e entries) = pe_db e /\
  pe_codec (foldl (fun e entry => cache_queue_ready_min e q entry) e entries) = pe_codec e /\
  pe_queue_lease_counts (foldl (fun e entry => cache_queue_ready_min e q entry) e entries) = pe_queue_lease_counts e /\
  pe_queue_lease_expirations (foldl (fun e entry => cache_queue_ready_min e q entry) e entries) = pe_queue_lease_expirations e.
Proof.
  revert e. induction entries as [|x entries IH]; intros e; [done|]. cbn [foldl].
  destruct (IH (cache_queue_ready_min e q x)) as (->&->&->&->). apply cache_min_frame.
Qed.

Lemma cache_min_mode e q entry : pe_queue_claim_mode (cache_queue_ready_min e q entry) = pe_queue_claim_mode e.
Proof. unfold cache_queue_ready_min. destruct (pe_queue_ready_cursors e !! q) as [[[k0 v0]|]|]; [destruct (key_ltb entry.1 k0)|..]; done. Qed.

Lemma lease_deltas_mode e q removed added rs bs :
  pe_queue_claim_mode (apply_queue_lease_expiration_delta (apply_queue_lease_delta e q removed added) q rs bs) = pe_queue_claim_mode e.
Proof.
  unfold apply_queue_lease_expiration_delta, apply_queue_lease_delta.
  destruct (bool_decide _ && _), ((_ =? _) && _); done.
Qed.

Lemma cache_mins_mode e q removed added rs bs entries :
  pe_queue_claim_mode (foldl (fun e entry => cache_queue_ready_min e q entry)
    (apply_queue_lease_expiration_delta (apply_queue_lease_delta e q removed added) q rs bs) entries) = pe_queue_claim_mode e.
Proof.
  induction entries as [|x entries IH] using rev_ind; [apply lease_deltas_mode|].
  rewrite foldl_app. cbn [foldl]. by rewrite cache_min_mode.
Qed.

Lemma scan_fuel_enough e ks p :
  kv_ok (pe_db e) -> valid_name ks -> (length (entries_of (pe_db e) ks p) < scan_fuel e ks)%nat.
Proof.
  intros Hkv Hks. unfold scan_fuel. rewrite kv_iter_entries by done. unfold entries_of, prefix_entries.
  pose proof (sublist_length _ _ (filter_sublist (fun x => starts_with p x.1) (btree_iter (kv_view (pe_db e) ks)))). lia.
Qed.

(** The expired leases of the queue, in the order of the lease index. *)
Lemma expired_leases e J q now :
  queue_inv e J -> name_ok q ->
  exists js ex, Forall2 (entry_job lease_index J q) (entries_of (pe_db e) "lease_jobs" (make_lease_prefix raw_codec q)) js /\
    take_while (lease_expired now) js = ex /\ NoDup (jb_id <$> ex) /\ Forall (leased_in J q) ex /\
    (forall j, j ∈ ex <-> J !! (q, jb_id j) = Some j /\ jb_queue j = q /\ lease_expired now j = true) /\
    (queue_has_expired_leases e q now = false -> ex = []).
Proof.
  intros Hinv Hq. pose proof Hinv as [Hc Hkv Hst Hls Hcur Hsz].
  destruct (lease_entries_jobs _ J q Hst (proj1 Hq)) as [js Hjs].
  pose proof (entry_jobs_NoDup _ _ _ _ _ (prefix_entries_sorted _ _) Hjs) as Hnd.
  assert (Hin : forall j, j ∈ js -> leased_in J q j).
  { intros j Hj. apply list_elem_of_lookup in Hj as [n Hn]. destruct (Forall2_lookup_r _ _ _ _ _ Hjs Hn) as (x&_&Hj&Hjq&Hf).
    split_and!; [done..|]. unfold lease_index in Hf. destruct (lease_of j) as [y|]; [by exists y|done]. }
  exists js, (List.filter (lease_expired now) js). pose proof (filter_sublist (lease_expired now) js) as Hsub. split_and!.
  - done.
  - by apply (expired_prefix _ J q now js Hst (proj1 Hq)).
  - eapply sublist_NoDup; [exact Hnd|]. by apply fmap_sublist.
  - eapply sublist_all; [done|]. apply Forall_forall. auto.
  - intros j. rewrite elem_of_filter_bool. split.
    + intros [Hj Hx]. destruct (Hin j Hj) as (?&?&_). done.
    + intros (Hj&Hjq&Hx). split; [|done]. assert (Hl : exists x, lease_of j = Some x).
      { unfold lease_expired in Hx. apply andb_true_iff in Hx as [Hs%bool_decide_eq_true Hx].
        destruct (jb_lease_expires_at_ms j) as [x|] eqn:Hxx; [|done]. exists x. by apply lease_of_Some. }
      destruct Hl as [x Hl].
      eapply (entries_complete lease_index _ _ _ _ _ j (make_lease_key raw_codec q x (jb_id j), queue_id_text (jb_id j)));
        eauto using st_ok, st_leases, lease_index_inj.
      * unfold lease_index. by rewrite Hl, Hjq.
      * cbn [fst]. apply make_lease_key_prefix; [apply Hq..|done].
  - intros Hexp. apply filter_none. intros j Hj. destruct (Hin j Hj) as (Hi&Hjq&x&Hx).
    pose proof (no_expired_leases e J q now j _ x Hinv Hexp Hi Hjq Hx). rewrite (lease_expired_of now j x Hx). lia.
Qed.

(** Jobs of a queue with distinct ids are no more than the jobs of the map. *)
Lemma distinct_jobs_bound J q js :
  NoDup (jb_id <$> js) -> (forall j, j ∈ js -> J !! (q, jb_id j) = Some j) -> zlen js <= Z.of_nat (size J).
Proof.
  intros Hnd Hin. assert (Hle : (length ((pair q : string -> string * string) <$> (jb_id <$> js)) <= size J)%nat).
  { rewrite <-size_dom. rewrite <-(size_list_to_set (C := gset (string * string))) by (apply NoDup_fmap_2; [by intros ??[=]|done]).
    apply subseteq_size. intros i Hi. apply elem_of_list_to_set, list_elem_of_fmap in Hi as (id&->&Hid).
    apply list_elem_of_fmap in Hid as (j&->&Hj). apply Hin in Hj. by apply elem_of_dom_2 in Hj. }
  rewrite !length_fmap in Hle. lia.
Qed.

(** The lease loop collects exactly the expired leases of the queue. *)
Lemma expiry_scan e J q now :
  queue_inv e J -> name_ok q ->
  exists js, NoDup (jb_id <$> js) /\ Forall (leased_in J q) js /\ release_jobs J js = release_all now q J /\
    zlen js <= Z.of_nat (size J) /\
    expiry_loop (scan_fuel e "lease_jobs") e q now None (mkExpiry [] false 0 [] []) = Ok (foldl expire (mkExpiry [] false 0 [] []) js).
Proof.
  intros Hinv Hq. pose proof Hinv as [Hc Hkv Hst Hls Hcur Hsz].
  destruct (expired_leases e J q now Hinv Hq) as (js&ex&Hjs&Htw&Hnd&Hall&Hex&Hnone). exists ex. split_and!; [done..| | |].
  - apply release_jobs_all; [|done..]. intros i j Hi. by destruct (st_ok _ _ Hst _ _ Hi).
  - apply (distinct_jobs_bound J q); [done|]. intros j Hj. by apply Hex.
  - destruct (queue_has_expired_leases e q now) eqn:Hexp.
    + change None with (fst <$> last ([] : list (bytes * bytes))).
      rewrite (expiry_loop_spec e J q now (entries_of (pe_db e) "lease_jobs" (make_lease_prefix raw_codec q)) js []);
        [by rewrite Htw|done..|]. apply scan_fuel_enough; [done|apply queue_keyspaces_valid].
    + rewrite Hnone by done. unfold scan_fuel. cbn [expiry_loop]. by rewrite Hexp.
Qed.

Lemma stored_ext V V' J :
  stored V J -> (forall n, valid_name n -> V' n = V n) -> stored V' J.
Proof.
  intros [Hok H1 H2 H3] Heq. destruct queue_keyspaces_valid as (Hv1&Hv2&Hv3). split; rewrite ?Heq by done; done.
Qed.

Lemma ready_entries_ext V V' q : (forall n, valid_name n -> V' n = V n) -> ready_entries V' q = ready_entries V q.
Proof. intros Heq. unfold ready_entries. by rewrite Heq by apply queue_keyspaces_valid. Qed.

Lemma release_leases_refines e J q now r e' :
  queue_inv e J -> name_ok q -> release_leases q now e = (r, e') ->
  pe_queue_claim_mode e' = pe_queue_claim_mode e /\
  match r with
  | Ok _ => queue_inv e' (release_all now q J)
  | Err err => commit_failed err /\ queue_inv e' J
  end.
Proof.
  intros Hinv Hq. destruct (expiry_scan e J q now Hinv Hq) as (js&Hnd&Hall&HJ&Hlen&Hscan).
  pose proof Hinv as [Hc Hkv Hst Hls Hcur Hsz].
  unfold release_leases, pbind, pget, plift, pret, pmodify. cbv beta zeta. rewrite Hscan.
  rewrite expire_fold by (cbn; lia). cbn [es_batch es_writes es_count es_expirations es_ready app orb]. rewrite Z.add_0_l.
  destruct (decide (js = [])) as [->|Hne].
  { cbn. intros [= <- <-]. split; [done|]. by rewrite <-HJ. }
  rewrite bool_decide_false by done. cbn [negb].
  destruct (commit (foldl release_batch [] js) e) as [rc ec] eqn:Hcommit.
  destruct (commit_cases e _ rc ec Hkv (release_batches_ok js [] writes_ok_nil) Hcommit)
    as (db&->&Hkv'&[[-> Hview]|(err&->&Hfail&Hview)]); intros [= <- <-].
  2: { split; [done|]. split; [done|]. by apply queue_inv_same_view. }
  destruct (release_fold _ J q js Hst Hnd Hall) as (H1&H2&H3&H4&H5&H6&H7). rewrite HJ in *.
  set (e1 := apply_queue_lease_delta (set_db e db) q (zlen js) 0).
  set (e2 := apply_queue_lease_expiration_delta e1 q ((fun j => default 0 (lease_of j)) <$> js) []).
  set (entries := (fun j => (job_ready_key raw_codec j, queue_id_text (jb_id j))) <$> js) in *.
  destruct (cache_mins_frame e2 q entries) as (Hg1&Hg2&Hg3&Hg4).
  destruct (expiration_delta_frame e1 q ((fun j => default 0 (lease_of j)) <$> js) []) as (Hf1&Hf2&Hf3).
  destruct (lease_delta_frame (set_db e db) q (zlen js) 0) as (Hd1&Hd2&Hd3). fold e1 in Hd1, Hd2, Hd3. fold e2 in Hf1, Hf2, Hf3.
  assert (HV : forall n, valid_name n -> kv_view db n = release_view (kv_view (pe_db e)) js n).
  { intros n Hn. rewrite Hview by done. by rewrite apply_release_batches. }
  split; [exact (cache_mins_mode (set_db e db) _ _ _ _ _ _)|]. split.
  - by rewrite Hg2, Hf2, Hd2.
  - by rewrite Hg1, Hf1, Hd1.
  - rewrite Hg1, Hf1, Hd1. eapply stored_ext; [exact H1|]. done.
  - eapply leases_repr_ext; [|done..]. unfold e2, e1.
    rewrite <-(length_fmap (fun j => default 0 (lease_of j)) js). change 0 with (zlen ([] : list Z)).
    apply (leases_delta (set_db e db) q (lease_set J)); [by eapply leases_repr_ext|done| |done|].
    + rewrite H3. change (list_ms []) with (∅ : gmultiset Z). multiset_solver.
    + pose proof (lease_set_size J q). cbn [length]. lia.
  - intros q' c Hq' Hlook. rewrite cache_mins_cursors in Hlook. rewrite Hg1, Hf1, Hd1. cbn [pe_db set_db].
    rewrite (ready_entries_ext _ _ _ HV). rewrite Hf3, Hd3 in Hlook. cbn [pe_queue_ready_cursors set_db] in Hlook.
    destruct (decide (q' = q)) as [->|Hneq].
    + apply fmap_Some in Hlook as (c0&Hc0&->). rewrite H7 by apply Hq. f_equal. by apply Hcur.
    + rewrite H6 by (done || apply Hq'). by apply Hcur.
  - lia.
Qed.

(** ** Claiming the first available job *)

Lemma set_cursor_inv e J q : queue_inv e J -> queue_inv (set_cursor e q (head (ready_entries (kv_view (pe_db e)) q))) J.
Proof.
  intros [Hc Hkv Hst Hls Hcur Hsz]. split; try done; [by eapply leases_repr_ext|].
  intros q' c Hq'. cbn. destruct (decide (q' = q)) as [->|Hne].
  - rewrite lookup_insert_eq. by intros [= <-].
  - rewrite lookup_insert_ne by done. by apply Hcur.
Qed.

Lemma first_queue_ready_entry_spec e J q :
  queue_inv e J -> name_ok q ->
  exists e1, first_queue_ready_entry q e = (Ok (head (ready_entries (kv_view (pe_db e)) q)), e1) /\ queue_inv e1 J /\
    pe_db e1 = pe_db e /\ pe_codec e1 = pe_codec e.
Proof.
  intros Hinv Hq. pose proof Hinv as [Hc Hkv Hst Hls Hcur Hsz].
  unfold first_queue_ready_entry, pbind, pget, plift, pret, pmodify. cbv beta zeta.
  destruct (pe_queue_ready_cursors e !! q) as [c|] eqn:Hlook.
  - exists e. rewrite (Hcur q c Hq Hlook). done.
  - rewrite Hc, first_prefix_entries by (done || apply queue_keyspaces_valid).
    exists (set_cursor e q (head (ready_entries (kv_view (pe_db e)) q))). split_and!; [done|by apply set_cursor_inv|done..].
Qed.

(** The first lookup reads the cursor, which is where the scan starts anyway. *)
Lemma claim_ready_loop_first fuel e J q options now ack :
  queue_inv e J -> name_ok q ->
  exists e1, queue_inv e1 J /\ pe_db e1 = pe_db e /\ 
    claim_ready_loop (S fuel) q options now ack None true None e = claim_ready_loop (S fuel) q options now ack None false None e1.
Proof.
  intros Hinv Hq. destruct (first_queue_ready_entry_spec e J q Hinv Hq) as (e1&Hfirst&Hinv1&Hdb&Hcodec).
  exists e1. split_and!; [done..|]. cbn [claim_ready_loop]. rewrite !pbind_pget. cbv zeta.
  rewrite (pbind_Ok _ _ _ _ _ Hfirst), Hdb, Hcodec, (qi_codec _ _ Hinv).
  rewrite (first_prefix_entries (pe_db e) "ready_jobs") by (apply Hinv || apply queue_keyspaces_valid).
  cbn [storage_error]. by rewrite pbind_plift.
Qed.

Lemma ready_job_id_raw id k : is_str id -> ready_job_id raw_codec k (queue_id_text id) = Ok (Some id).
Proof. intros Hid. unfold ready_job_id. rewrite bool_decide_false by done. by rewrite decode_queue_id_raw. Qed.

Lemma ready_index_Some j x :
  ready_index j = Some x <-> jb_status j = Ready /\ x = (job_ready_key raw_codec j, queue_id_text (jb_id j)).
Proof. unfold ready_index. case_bool_decide; naive_solver. Qed.

Lemma claimable_ready now j : jb_status j = Ready -> claimable now j = negb (now <? jb_available_at_ms j).
Proof. intros Hs. unfold claimable. rewrite bool_decide_true by done. cbn. lia. Qed.

Lemma claim_ready_loop_spec e J q options now ack post js pre fuel :
  queue_inv e J -> name_ok q -> ready_entries (kv_view (pe_db e)) q = pre ++ post ->
  Forall2 (entry_job ready_index J q) post js -> (length post < fuel)%nat ->
  match List.find (claimable now) js with
  | None => claim_ready_loop fuel q options now ack (fst <$> last pre) false (head pre) e = (Ok None, set_cursor e q (head (pre ++ post)))
  | Some j => exists pre' x post', pre ++ post = pre' ++ x :: post' /\ entry_job ready_index J q x j /\
      claim_ready_loop fuel q options now ack (fst <$> last pre) false (head pre) e
      = claim_entry q options now ack x.1 (queue_key j) j (head pre') e
  end.
Proof.
  intros Hinv Hq Hent Hjs. pose proof Hinv as [Hc Hkv Hst _ _ _].
  revert pre fuel Hent. induction Hjs as [|[k v] j post js Hentry Hjs IH]; intros pre fuel Hent Hfuel;
    (destruct fuel as [|fuel]; [cbn [length] in Hfuel; lia|]).
  { cbn [List.find]. cbn [claim_ready_loop]. unfold pbind, pget, plift, pret, pmodify. cbv beta zeta. rewrite Hc.
    rewrite (next_entry (pe_db e) "ready_jobs" _ pre [] Hkv) by (done || apply queue_keyspaces_valid). cbn. by rewrite app_nil_r. }
  pose proof Hentry as (Hj&Hjq&Hf). apply ready_index_Some in Hf as [Hs [= -> ->]].
  destruct (st_ok _ _ Hst _ _ Hj) as [Hwt _ _ _ _].
  assert (Hloop : claim_ready_loop (S fuel) q options now ack (fst <$> last pre) false (head pre) e =
    if now <? jb_available_at_ms j
    then claim_ready_loop fuel q options now ack (Some (job_ready_key raw_codec j)) false
           (match head pre with Some k => Some k | None => Some (job_ready_key raw_codec j, queue_id_text (jb_id j)) end) e
    else claim_entry q options now ack (job_ready_key raw_codec j) (queue_key j) j (head pre) e).
  { cbn [claim_ready_loop]. rewrite pbind_pget. cbv zeta. rewrite Hc.
    rewrite (next_entry (pe_db e) "ready_jobs" _ pre _ Hkv) by (done || apply queue_keyspaces_valid). cbn [head storage_error].
    rewrite pbind_plift, ready_job_id_raw by apply Hwt. rewrite pbind_plift, (kv_get_record e J) by (done || apply Hq).
    rewrite Hj. cbn [fmap option_fmap option_map storage_error]. rewrite pbind_plift, deserialize_raw by done. rewrite pbind_plift.
    assert (Hrel : release_if_expired now j = j).
    { unfold release_if_expired, lease_expired. by rewrite Hs. }
    rewrite Hrel, bool_decide_false by (intros Hn; by apply Hn). unfold queue_key. rewrite Hjq. by destruct (now <? jb_available_at_ms j). }
  cbn [List.find]. rewrite claimable_ready by done. rewrite Hloop. destruct (now <? jb_available_at_ms j) eqn:Hav; cbn [negb].
  - specialize (IH (pre ++ [(job_ready_key raw_codec j, queue_id_text (jb_id j))]) fuel). rewrite last_snoc in IH.
    cbn [fmap option_fmap option_map fst] in IH.
    assert (Hhead : head (pre ++ [(job_ready_key raw_codec j, queue_id_text (jb_id j))]) =
      match head pre with Some k => Some k | None => Some (job_ready_key raw_codec j, queue_id_text (jb_id j)) end) by (by destruct pre).
    rewrite Hhead, <-app_assoc in IH. cbn [app] in IH. apply IH; [done|cbn [length] in Hfuel; lia].
  - by exists pre, (job_ready_key raw_codec j, queue_id_text (jb_id j)), post.
Qed.

(** *** One claim *)

Definition claim_expires now (options : QueueClaimOptions) : Z := i64_saturating_add now (u64_to_i64 (qc_lease_ms options)).
Definition lease_ms_ok (options : QueueClaimOptions) : Prop := in_u64 (qc_lease_ms options).

Lemma claim_expires_ok now options : in_expiry now -> lease_ms_ok options -> in_expiry (claim_expires now options).
Proof.
  unfold in_expiry, lease_ms_ok, in_u64, claim_expires, i64_saturating_add, u64_to_i64, I64_MAX, I64_MIN.
  intros. destruct (_ <=? _) eqn:?; lia.
Qed.

Lemma saturating_attempts a : in_u32 a -> in_u32 (u32_saturating_add a 1).
Proof. unfold in_u32, u32_saturating_add, U32_MAX. lia. Qed.

Lemma claim_transition_lease ack now options j :
  lease_of (claim_transition ack now options j) = if ack then None else Some (claim_expires now options).
Proof. by destruct ack. Qed.

Lemma claim_transition_ok i j ack now options :
  in_expiry now -> lease_ms_ok options -> job_ok i j -> job_ok i (claim_transition ack now options j).
Proof.
  intros Hnow Hms [Hw Hn Hq Hcr Hl]. pose proof (claim_expires_ok now options Hnow Hms) as Hx.
  assert (Hi : forall z, in_expiry z -> in_i64 z) by (unfold in_expiry, in_i64, I64_MIN, I64_MAX; lia).
  split; [|destruct ack; done..|].
  - destruct Hw. destruct ack; split; cbn; auto using saturating_attempts.
  - intros x. rewrite claim_transition_lease. destruct ack; [done|]. by intros [= <-].
Qed.

Lemma lease_added_repr e J i j0 j x :
  leases_repr e (lease_set J) -> Z.of_nat (size J) <= U64_MAX -> J !! i = Some j0 -> lease_of j0 = None -> lease_of j = Some x ->
  jb_queue j = jb_queue j0 -> leases_repr (apply_queue_lease_expiration_delta (apply_queue_lease_delta e (jb_queue j) 0 1) (jb_queue j) [] [x])
    (lease_set (<[i := j]> J)).
Proof.
  intros Hls Hsz Hi Hl0 Hl Hq. pose proof (lease_set_size (<[i := j]> J) (jb_queue j)) as Hsize.
  rewrite map_size_insert_Some in Hsize by (by eexists).
  assert (Hset : forall q, lease_set (<[i := j]> J) q = lease_set J q ⊎ option_ms (lease_in q j)).
  { intros q. destruct (lease_set_update J i j0 j q Hi) as [-> _]. unfold lease_in at 1. rewrite Hl0.
    case_bool_decide; cbn [option_ms]; multiset_solver. }
  change 1 with (zlen [x]). change 0 with (zlen ([] : list Z)). apply (leases_delta e (jb_queue j) (lease_set J)); [done|..].
  - intros q Hne. rewrite Hset, lease_in_queue by done. cbn [option_ms]. multiset_solver.
  - rewrite Hset, lease_in_same, Hl. cbn [option_ms]. change (list_ms []) with (∅ : gmultiset Z).
    change (list_ms [x]) with ({[+ x +]} ⊎ (∅ : gmultiset Z)). multiset_solver.
  - change (list_ms []) with (∅ : gmultiset Z). multiset_solver.
  - rewrite Hset, gmultiset_size_disj_union, lease_in_same, Hl in Hsize. cbn [option_ms] in Hsize.
    rewrite gmultiset_size_singleton in Hsize. cbn [length]. lia.
Qed.

Lemma lease_unchanged_repr e J i j0 j :
  leases_repr e (lease_set J) -> J !! i = Some j0 -> lease_of j0 = None -> lease_of j = None -> leases_repr e (lease_set (<[i := j]> J)).
Proof.
  intros [Hc Hx] Hi Hl0 Hl. assert (Hset : forall q, lease_set (<[i := j]> J) q = lease_set J q).
  { intros q. destruct (lease_set_update J i j0 j q Hi) as [-> _]. unfold lease_in. rewrite Hl0, Hl.
    repeat case_bool_decide; cbn [option_ms]; multiset_solver. }
  split; intros q; rewrite Hset; [apply Hc|apply Hx].
Qed.

(** The batch of a claim, and what it does to the keyspaces. *)
Definition claim_writes (ack : bool) now (options : QueueClaimOptions) q j : list BatchWrite :=
  let j' := claim_transition ack now options j in
  let batch := batch_insert (batch_remove [] "ready_jobs" (job_ready_key raw_codec j)) "queue_jobs" (queue_key j) (json_text j') in
  if ack then batch
  else batch_insert batch "lease_jobs" (make_lease_key raw_codec q (claim_expires now options) (jb_id j')) (queue_id_text (jb_id j')).

Lemma claim_transition_fields ack now options j :
  let j' := claim_transition ack now options j in
  jb_queue j' = jb_queue j /\ jb_id j' = jb_id j /\ jb_lease_expires_at_ms j' = Some (claim_expires now options) /\ jb_status j' <> Ready.
Proof. by destruct ack. Qed.

Lemma claim_writes_ok ack now options q j : Forall write_ok (claim_writes ack now options q j).
Proof.
  destruct queue_keyspaces_valid as (Hv1&Hv2&Hv3). unfold claim_writes, queue_key, job_ready_key. destruct ack; writes_ok.
Qed.

Lemma claim_writes_view V V' J q options now ack j pre x post :
  entry_job ready_index J q x j -> ready_entries V q = pre ++ x :: post ->
  (forall n, valid_name n -> V' n = apply_writes n (claim_writes ack now options q j) (V n)) ->
  transition_view (J !! (q, jb_id j)) (claim_transition ack now options j) V V' /\
  head (ready_entries V' q) = match head pre with Some k => Some k | None => head post end.
Proof.
  intros (Hj&Hjq&Hf) Hent Hview. destruct queue_keyspaces_valid as (Hv1&Hv2&Hv3).
  pose proof Hf as [Hs ->]%ready_index_Some. destruct (claim_transition_fields ack now options j) as (Hq'&Hid'&_&Hst').
  assert (Hl0 : lease_of j = None) by (unfold lease_of; rewrite bool_decide_false; congruence).
  assert (Hrd : V' "ready_jobs" = delete (job_ready_key raw_codec j) (V "ready_jobs")).
  { rewrite Hview by done. unfold claim_writes. destruct ack; by writes_simpl. }
  split.
  - rewrite Hj. unfold transition_view, drop_entry, add_entry. cbn [mbind option_bind]. rewrite Hf, Hrd, !Hview by done.
    unfold lease_index. rewrite Hl0, claim_transition_lease. unfold ready_index. rewrite bool_decide_false by done.
    unfold claim_writes, record_entry, queue_key. rewrite Hq', Hid', Hjq.
    destruct ack; cbn [fmap option_fmap option_map]; writes_simpl; by rewrite ?insert_delete_eq.
  - unfold ready_entries in *. rewrite Hrd. pose proof (prefix_entries_delete_mid _ _ _ _ _ Hent) as Hdel.
    cbn [fst] in Hdel. rewrite Hdel. by destruct pre.
Qed.

(** The caches after a claim. *)
Definition claim_caches (ack : bool) now (options : QueueClaimOptions) q (cursor : QueueReadyCursor) e : PersistentEngine D :=
  let e := set_cursor e q cursor in
  if ack then e
  else apply_queue_lease_expiration_delta (apply_queue_lease_delta e q 0 1) q [] [claim_expires now options].

Lemma claim_caches_frame ack now options q cursor e :
  pe_db (claim_caches ack now options q cursor e) = pe_db e /\ pe_codec (claim_caches ack now options q cursor e) = pe_codec e /\
  pe_queue_ready_cursors (claim_caches ack now options q cursor e) = <[q := cursor]> (pe_queue_ready_cursors e).
Proof.
  unfold claim_caches. destruct ack; [done|].
  destruct (expiration_delta_frame (apply_queue_lease_delta (set_cursor e q cursor) q 0 1) q [] [claim_expires now options]) as (->&->&->).
  destruct (lease_delta_frame (set_cursor e q cursor) q 0 1) as (->&->&->). done.
Qed.

Lemma claim_caches_leases ack now options cursor e J i j :
  leases_repr e (lease_set J) -> Z.of_nat (size J) <= U64_MAX -> J !! i = Some j -> jb_status j = Ready ->
  leases_repr (claim_caches ack now options (jb_queue j) cursor e) (lease_set (<[i := claim_transition ack now options j]> J)).
Proof.
  intros Hls Hsz Hi Hs. assert (Hl0 : lease_of j = None) by (unfold lease_of; rewrite bool_decide_false; congruence).
  destruct (claim_transition_fields ack now options j) as (Hq'&_).
  unfold claim_caches. destruct ack.
  - apply (lease_unchanged_repr _ _ _ j); [|done..]. by eapply leases_repr_ext.
  - rewrite <-Hq'. apply (lease_added_repr _ _ _ j); try done. by eapply leases_repr_ext.
Qed.

(** [queue_inv_transition] for a job given by its queue and id. *)
Lemma queue_inv_step e e' J q id j :
  jb_queue j = q -> jb_id j = id ->
  queue_inv e J -> pe_codec e' = raw_codec -> kv_ok (pe_db e') -> job_ok (q, id) j ->
  transition_view (J !! (q, id)) j (kv_view (pe_db e)) (kv_view (pe_db e')) ->
  leases_repr e' (lease_set (<[(q, id) := j]> J)) ->
  (forall q', q' <> q -> pe_queue_ready_cursors e' !! q' = pe_queue_ready_cursors e !! q') ->
  (forall c, name_ok q -> pe_queue_ready_cursors e' !! q = Some c -> c = head (ready_entries (kv_view (pe_db e')) q)) ->
  is_Some (J !! (q, id)) -> queue_inv e' (<[(q, id) := j]> J).
Proof.
  intros <- <- Hinv Hc Hkv Hj Htv Hls Ho Hs Hi. eapply queue_inv_transition; try done.
  rewrite map_size_insert_Some by done. apply Hinv.
Qed.

Lemma claim_entry_refines e J q options now ack j pre x post r e' :
  queue_inv e J -> name_ok q -> in_expiry now -> lease_ms_ok options ->
  ready_entries (kv_view (pe_db e)) q = pre ++ x :: post -> entry_job ready_index J q x j ->
  claim_entry q options now ack x.1 (queue_key j) j (head pre) e = (r, e') ->
  match r with
  | Ok o => o = Some (claim_transition ack now options j) /\ queue_inv e' (<[(q, jb_id j) := claim_transition ack now options j]> J)
  | Err err => commit_failed err /\ queue_inv e' J
  end.
Proof.
  intros Hinv Hq Hnow Hms Hent Hentry. pose proof Hinv as [Hc Hkv Hst Hls Hcur Hsz]. pose proof Hentry as (Hj&Hjq&Hf).
  apply ready_index_Some in Hf as [Hs ->]. cbn [fst]. pose proof (claim_transition_fields ack now options j) as (Hqj'&Hidj'&Hexp&Hst').
  set (j' := claim_transition ack now options j) in *.
  assert (Hok : job_ok (q, jb_id j) j') by (apply claim_transition_ok; [done..|by apply (st_ok _ _ Hst)]).
  unfold claim_entry. rewrite pbind_pget. cbv zeta. fold j'. rewrite Hc, serialize_raw by apply Hok. rewrite pbind_plift.
  change (Some (job_ready_key raw_codec j)) with (fst <$> Some (job_ready_key raw_codec j, queue_id_text (jb_id j))).
  rewrite <-(last_snoc (job_ready_key raw_codec j, queue_id_text (jb_id j)) pre).
  rewrite (next_entry (pe_db e) "ready_jobs" _ _ post Hkv) by (apply queue_keyspaces_valid || (rewrite <-app_assoc; exact Hent)).
  cbn [storage_error]. rewrite pbind_plift. rewrite Hexp. cbn [default].
  replace (if ack then Ok _ else _) with (Ok (E := ThingdError) (claim_writes ack now options q j)) by (unfold claim_writes; by destruct ack).
  rewrite pbind_plift. destruct (commit (claim_writes ack now options q j) e) as [rc ec] eqn:Hcommit.
  destruct (commit_cases e _ rc ec Hkv (claim_writes_ok ack now options q j) Hcommit)
    as (db&->&Hkv'&[[-> Hview]|(err&->&Hfail&Hview)]).
  2: { rewrite (pbind_Err _ _ _ _ _ Hcommit). intros [= <- <-]. split; [done|]. by apply queue_inv_same_view. }
  rewrite (pbind_Ok _ _ _ _ _ Hcommit). unfold pbind, pmodify, pret. intros [= <- <-]. split; [done|].
  destruct (claim_writes_view _ _ J q options now ack j pre _ post Hentry Hent Hview) as [Htv Hhead]. fold j' in Htv.
  set (cursor := match head pre with Some k => Some k | None => head post end) in *.
  change (queue_inv (claim_caches ack now options q cursor (set_db e db)) (<[(q, jb_id j) := j']> J)).
  destruct (claim_caches_frame ack now options q cursor (set_db e db)) as (Hf1&Hf2&Hf3).
  apply (queue_inv_step e); rewrite ?Hf1, ?Hf2, ?Hf3; try done; [congruence| | |].
  - rewrite <-Hjq. apply claim_caches_leases; [by eapply leases_repr_ext|done..|by rewrite Hjq|done].
  - intros q' Hne. by rewrite lookup_insert_ne.
  - intros c _. rewrite lookup_insert_eq. intros [= <-]. symmetry. exact Hhead.
Qed.

(** *** The job that is claimed *)

Definition job_rank j := ready_rank (jb_priority j) (jb_created_at j) (jb_id j).

(** The first available job of the queue: highest priority, then oldest, then smallest id. *)
Definition first_claimable J q now j : Prop :=
  J !! (q, jb_id j) = Some j /\ jb_queue j = q /\ claimable now j = true /\
  forall j', J !! (q, jb_id j') = Some j' -> claimable now j' = true -> ~ job_rank j' ≺ job_rank j.

Definition none_claimable J q now : Prop := forall j, J !! (q, jb_id j) = Some j -> claimable now j = false.

Lemma ready_jobs_sorted V J q js :
  stored V J -> Forall2 (entry_job ready_index J q) (ready_entries V q) js -> StronglySorted (fun j j' => job_rank j ≺ job_rank j') js.
Proof.
  intros Hst Hjs. eapply Forall2_sorted; [apply prefix_entries_sorted|exact Hjs|].
  intros x y j j' (Hj&Hjq&Hf) (Hj'&Hjq'&Hf') Hlt. apply ready_index_Some in Hf as [_ ->]. apply ready_index_Some in Hf' as [_ ->].
  cbn [fst] in Hlt. unfold job_ready_key in Hlt. rewrite Hjq, Hjq' in Hlt.
  destruct (st_ok _ _ Hst _ _ Hj) as [Hw _ _ Hcr _]. destruct (st_ok _ _ Hst _ _ Hj') as [Hw' _ _ Hcr' _].
  apply make_ready_key_order in Hlt; auto using jw_priority.
Qed.

Lemma ready_job_listed V J q js j now :
  stored V J -> no_nul q -> Forall2 (entry_job ready_index J q) (ready_entries V q) js ->
  J !! (q, jb_id j) = Some j -> claimable now j = true -> j ∈ js.
Proof.
  intros Hst Hq Hjs Hj Hcl. apply andb_true_iff in Hcl as [Hs%bool_decide_eq_true _].
  destruct (st_ok _ _ Hst _ _ Hj) as [_ Hn Hqj _ _]. injection Hn as Hqj'.
  eapply (entries_complete ready_index _ _ _ _ _ j (job_ready_key raw_codec j, queue_id_text (jb_id j)));
    eauto using st_ok, st_ready, ready_index_inj.
  - by apply ready_index_Some.
  - cbn [fst]. by apply ready_prefix_job.
Qed.

Lemma find_claimable V J q now js :
  stored V J -> no_nul q -> Forall2 (entry_job ready_index J q) (ready_entries V q) js ->
  match List.find (claimable now) js with
  | Some j => first_claimable J q now j
  | None => none_claimable J q now
  end.
Proof.
  intros Hst Hq Hjs. pose proof (ready_jobs_sorted V J q js Hst Hjs) as Hs.
  assert (Hlisted : forall j, J !! (q, jb_id j) = Some j -> claimable now j = true -> j ∈ js)
    by (intros j; by apply (ready_job_listed V J q)).
  assert (Hin : forall j, j ∈ js -> J !! (q, jb_id j) = Some j /\ jb_queue j = q).
  { intros j Hj. apply list_elem_of_lookup in Hj as [n Hn]. by destruct (Forall2_lookup_r _ _ _ _ _ Hjs Hn) as (x&_&Hj&Hjq&_). }
  destruct (List.find (claimable now) js) as [j|] eqn:Hf.
  - pose proof Hf as [Hj Hcl]%List.find_some. apply list_elem_of_In in Hj. destruct (Hin j Hj) as [HJ Hjq].
    split_and!; [done..|]. intros j' HJ' Hcl'. specialize (Hlisted j' HJ' Hcl'). clear -Hs Hf Hcl Hcl' Hlisted.
    induction Hs as [|k js Hs IH Hall]; [by apply elem_of_nil in Hlisted|]. cbn [List.find] in Hf.
    rewrite Forall_forall in Hall. destruct (claimable now k) eqn:Hk.
    + injection Hf as ->. apply elem_of_cons in Hlisted as [->|Hin]; [apply key_lt_irrefl|]. by apply key_lt_asym, Hall.
    + apply elem_of_cons in Hlisted as [->|Hin]; [congruence|]. by apply IH.
  - intros j HJ. apply not_true_iff_false. intros Hcl. specialize (Hlisted j HJ Hcl). apply list_elem_of_In in Hlisted.
    by rewrite (List.find_none _ _ Hf j Hlisted) in Hcl.
Qed.

(** What a claim may do to the map. *)
Definition claim_spec (ack : bool) now (options : QueueClaimOptions) q J (o : option QueueJob) J' : Prop :=
  let J1 := release_all now q J in
  match o with
  | None => none_claimable J1 q now /\ J' = J1
  | Some j' => exists j, first_claimable J1 q now j /\ j' = claim_transition ack now options j /\ J' = <[(q, jb_id j) := j']> J1
  end.

Lemma claim_job_refines e J q options now r e' :
  queue_inv e J -> name_ok q -> in_expiry now -> lease_ms_ok options -> pe_claim_job_with_options q options now e = (r, e') ->
  match r with
  | Ok o => exists J', claim_spec (bool_decide (pe_queue_claim_mode e = ClaimAndAck)) now options q J o J' /\ queue_inv e' J'
  | Err err => commit_failed err /\ (queue_inv e' J \/ queue_inv e' (release_all now q J))
  end.
Proof.
  intros Hinv Hq Hnow Hms. unfold pe_claim_job_with_options. rewrite pbind_pget. cbv zeta.
  set (ack := bool_decide (pe_queue_claim_mode e = ClaimAndAck)).
  destruct (release_leases q now e) as [rr e1] eqn:Hrel.
  destruct (release_leases_refines e J q now rr e1 Hinv Hq Hrel) as [_ Hrr]. destruct rr as [[]|err].
  2: { rewrite (pbind_Err _ _ _ _ _ Hrel). intros [= <- <-]. destruct Hrr. split; [done|by left]. }
  rewrite (pbind_Ok _ _ _ _ _ Hrel), pbind_pget. set (J1 := release_all now q J) in *.
  destruct (claim_ready_loop_first (scan_fuel e1 "ready_jobs") e1 J1 q options now ack Hrr Hq) as (e2&Hinv2&Hdb&->).
  pose proof (qi_stored _ _ Hinv2) as Hst. destruct (ready_entries_jobs _ J1 q Hst (proj1 Hq)) as [js Hjs].
  pose proof (find_claimable _ J1 q now js Hst (proj1 Hq) Hjs) as Hfind.
  assert (Hfuel : (length (ready_entries (kv_view (pe_db e2)) q) < S (scan_fuel e1 "ready_jobs"))%nat).
  { pose proof (scan_fuel_enough e1 "ready_jobs" (make_ready_prefix raw_codec q) (qi_kv _ _ Hrr) (proj1 (proj2 queue_keyspaces_valid))) as Hlt.
    rewrite Hdb. unfold entries_of in Hlt. unfold ready_entries. lia. }
  pose proof (claim_ready_loop_spec e2 J1 q options now ack _ js [] (S (scan_fuel e1 "ready_jobs")) Hinv2 Hq eq_refl Hjs Hfuel) as Hloop.
  cbn [last fmap option_fmap option_map head app] in Hloop. destruct (List.find (claimable now) js) as [j|].
  - destruct Hloop as (pre&x&post&Hent&Hentry&->). intros Hclaim.
    pose proof (claim_entry_refines e2 J1 q options now ack j pre x post r e' Hinv2 Hq Hnow Hms Hent Hentry Hclaim) as Hc.
    destruct r as [o|err].
    + destruct Hc as [-> Hc]. exists (<[(q, jb_id j) := claim_transition ack now options j]> J1). split; [|done]. by exists j.
    + destruct Hc. split; [done|by right].
  - rewrite Hloop. intros [= <- <-]. exists J1. split; [done|]. by apply set_cursor_inv.
Qed.
End claim.
