(* ===== verification/PQueueOpen.v ===== *)
(** * thingd: opening a database rebuilds the lease index

    [rebuild_lease_index] drops every lease entry and writes one per leased job record;
    the lease counters are recomputed.  Whatever the lease index held, the queues are
    represented exactly afterwards. *)

From stdpp Require Import gmultiset.
From S2P Require Import Prelude Wal Table Layer Database ThingDb Keyspace RamScan Model Queue Storage Persistent PSample PStore PQueue PQueueSpec PQueueClaim.

Section rebuild.
Context `{KvLaws D} `{!Serde QueueJob job_wt} `{!Serde string is_str}.
Implicit Types (e : PersistentEngine D) (J : Jobs) (j : QueueJob) (q : string) (V : string -> bmap bytes).

Definition job_key j : string * string := (jb_queue j, jb_id j).

(** What one record adds to the rebuilt index. *)
Definition rebuild_one (acc : LeaseRebuild) j : LeaseRebuild :=
  match lease_of j with
  | Some x =>
      mkRebuild (batch_insert (lr_batch acc) "lease_jobs" (lease_key j) (queue_id_text (jb_id j)))
        (<[jb_queue j := u64_wrapping_add (default 0 (lr_counts acc !! jb_queue j)) 1]> (lr_counts acc))
        (<[jb_queue j := add_expiration (default ∅ (lr_expirations acc !! jb_queue j)) x]> (lr_expirations acc))
  | None => acc
  end.

Lemma rebuild_job_raw acc j : rebuild_job raw_codec acc j = Ok (rebuild_one acc j).
Proof.
  unfold rebuild_job, rebuild_one, lease_key, lease_of. destruct (jb_status j) eqn:Hs, (jb_lease_expires_at_ms j) eqn:Hx; try done;
    rewrite ?bool_decide_true, ?bool_decide_false by done; cbn [default]; done.
Qed.

(** The rebuilt index of the jobs read so far. *)
Record rebuilt (acc : LeaseRebuild) (m : bmap bytes) J : Prop := {
  rb_index : indexed lease_index (apply_writes "lease_jobs" (lr_batch acc) m) J;
  rb_others : forall n, n <> "lease_jobs" -> forall m, apply_writes n (lr_batch acc) m = m;
  rb_writes : Forall write_ok (lr_batch acc);
  rb_counts : forall q, lr_counts acc !! q = nonzero (Z.of_nat (size (lease_set J q)));
  rb_expirations : forall q, match lr_expirations acc !! q with
                             | Some m => lease_set J q <> ∅ /\ counts_of m (lease_set J q)
                             | None => lease_set J q = ∅
                             end;
}.

Lemma rebuild_step acc m J j :
  (forall i j, J !! i = Some j -> job_ok i j) -> job_ok (job_key j) j -> J !! job_key j = None ->
  Z.of_nat (size J) < U64_MAX -> rebuilt acc m J -> rebuilt (rebuild_one acc j) m (<[job_key j := j]> J).
Proof.
  intros Hok Hj Hnew Hsz [Hix Hoth Hws Hcn Hex].
  assert (Hset : forall q, lease_set (<[job_key j := j]> J) q = option_ms (lease_in q j) ⊎ lease_set J q)
    by (intros q; by apply lease_set_insert).
  pose proof (indexed_add lease_index job_ok lease_index_inj _ J (job_key j) j Hok Hj Hnew Hix) as Hadd.
  unfold add_entry in Hadd. unfold rebuild_one. destruct (lease_of j) as [x|] eqn:Hx.
  - assert (Hli : lease_index j = Some (lease_key j, queue_id_text (jb_id j))) by (unfold lease_index, lease_key; by rewrite Hx).
    rewrite Hli in Hadd. pose proof (lease_set_size J (jb_queue j)) as Hsize.
    split; cbn [lr_batch lr_counts lr_expirations].
    + by writes_simpl.
    + intros n Hn m'. rewrite apply_insert, bool_decide_false by congruence. by apply Hoth.
    + apply insert_ok; [done|apply queue_keyspaces_valid|apply make_lease_key_ok].
    + intros q. rewrite Hset. destruct (decide (q = jb_queue j)) as [->|Hne].
      * rewrite lookup_insert_eq, Hcn, nonzero_default, lease_in_same, Hx. cbn [option_ms].
        rewrite gmultiset_size_disj_union, gmultiset_size_singleton, nonzero_pos by lia. unfold u64_wrapping_add.
        rewrite Z.mod_small by (unfold U64_MAX in *; lia). f_equal. lia.
      * rewrite lookup_insert_ne, Hcn, lease_in_queue by done. cbn [option_ms]. by rewrite (left_id_L ∅ (⊎)).
    + intros q. rewrite Hset. specialize (Hex q). destruct (decide (q = jb_queue j)) as [->|Hne].
      * rewrite lookup_insert_eq, lease_in_same, Hx. cbn [option_ms]. split; [multiset_solver|]. apply counts_of_add; [|lia].
        destruct (lr_expirations acc !! jb_queue j); cbn [default]; [by destruct Hex|]. rewrite Hex.
        intros y. by rewrite lookup_empty, multiplicity_empty.
      * rewrite lookup_insert_ne, lease_in_queue by done. cbn [option_ms]. by rewrite (left_id_L ∅ (⊎)).
  - assert (Hsame : forall q, lease_set (<[job_key j := j]> J) q = lease_set J q).
    { intros q. rewrite Hset. unfold lease_in. rewrite Hx. case_bool_decide; cbn [option_ms]; by rewrite (left_id_L ∅ (⊎)). }
    assert (Hli : lease_index j = None) by (unfold lease_index; by rewrite Hx). rewrite Hli in Hadd.
    split; try done; intros q; rewrite Hsame; [apply Hcn|apply Hex].
Qed.

Lemma rebuild_fold m js acc J :
  (forall i j, J !! i = Some j -> job_ok i j) -> Forall (fun j => job_ok (job_key j) j) js -> NoDup (job_key <$> js) ->
  (forall j, j ∈ js -> J !! job_key j = None) -> Z.of_nat (size J) + zlen js <= U64_MAX -> rebuilt acc m J ->
  rebuilt (foldl rebuild_one acc js) m (foldl (fun J j => <[job_key j := j]> J) J js).
Proof.
  revert acc J. induction js as [|j js IH]; intros acc J Hok Hall Hnd Hnew Hsz Hr; cbn [foldl]; [done|].
  apply Forall_cons in Hall as [Hj Hall]. rewrite fmap_cons in Hnd. apply NoDup_cons in Hnd as [Hnin Hnd]. cbn [length] in Hsz.
  assert (Hjn : J !! job_key j = None) by (apply Hnew; by left). apply IH; try done.
  - intros i k Hk. apply lookup_insert_Some in Hk as [[<- <-]|[_ ?]]; auto.
  - intros k Hk. rewrite lookup_insert_ne; [apply Hnew; by right|]. intros Heq. apply Hnin. rewrite Heq. by apply (list_elem_of_fmap_2 job_key).
  - rewrite map_size_insert_None by done. lia.
  - apply rebuild_step; try done. lia.
Qed.

(** Removing every entry leaves nothing. *)
Lemma clear_writes (m : bmap bytes) (l : list (bytes * bytes)) ws :
  (forall k v, m !! k = Some v -> k ∈ l.*1 \/ apply_writes "lease_jobs" ws m !! k = None) ->
  (forall k, m !! k = None -> apply_writes "lease_jobs" ws m !! k = None) ->
  apply_writes "lease_jobs" (foldl (fun b kv => batch_remove b "lease_jobs" kv.1) ws l) m = ∅.
Proof.
  revert ws. induction l as [|x l IH]; intros ws Hin Hout; cbn [foldl].
  - apply map_eq. intros k. rewrite lookup_empty. destruct (m !! k) as [v|] eqn:Hk; [|auto].
    destruct (Hin k v Hk) as [Hin'|]; [by apply elem_of_nil in Hin'|done].
  - apply IH; rewrite apply_remove, bool_decide_true by done.
    + intros k v Hk. rewrite lookup_delete_None. destruct (Hin k v Hk) as [Hin'|]; [|by right; right].
      rewrite fmap_cons in Hin'. apply elem_of_cons in Hin' as [->|]; [by right; left|by left].
    + intros k Hk. rewrite lookup_delete_None. right. auto.
Qed.

Lemma removes_other n (l : list (bytes * bytes)) ws m :
  n <> "lease_jobs" -> apply_writes n (foldl (fun b kv => batch_remove b "lease_jobs" kv.1) ws l) m = apply_writes n ws m.
Proof.
  intros Hn. revert ws. induction l as [|x l IH]; intros ws; cbn [foldl]; [done|].
  rewrite IH, apply_remove, bool_decide_false; congruence.
Qed.

Lemma removes_ok (l : list (bytes * bytes)) ws :
  Forall (fun x => bytes_ok x.1) l -> Forall write_ok ws -> Forall write_ok (foldl (fun b kv => batch_remove b "lease_jobs" kv.1) ws l).
Proof.
  intros Hl. revert ws. induction Hl as [|x l Hx _ IH]; intros ws Hws; cbn [foldl]; [done|].
  apply IH, remove_ok; [done|apply queue_keyspaces_valid|done].
Qed.

(** The records of the map, in key order. *)
Lemma record_jobs V J :
  (forall i j, J !! i = Some j -> job_ok i j) -> indexed record_entry (V "queue_jobs") J ->
  exists js, Forall2 (fun x j => J !! job_key j = Some j /\ record_entry j = Some x) (btree_iter (V "queue_jobs")) js /\
    NoDup (job_key <$> js) /\ foldl (fun J j => <[job_key j := j]> J) ∅ js = J.
Proof.
  intros Hok Hrec.
  assert (Hchoose : exists js, Forall2 (fun x j => J !! job_key j = Some j /\ record_entry j = Some x) (btree_iter (V "queue_jobs")) js).
  { apply Forall2_choose. intros [k v] Hin. apply elem_of_btree_iter, Hrec in Hin as (i&j&Hi&Hf). exists j.
    destruct (Hok _ _ Hi) as [_ -> _ _ _]. done. }
  destruct Hchoose as [js Hjs]. exists js.
  assert (Hnd : NoDup (job_key <$> js)).
  { assert (Hne : StronglySorted (fun j j' => job_key j <> job_key j') js).
    { eapply Forall2_sorted; [apply btree_iter_sorted|exact Hjs|]. intros x y j j' (Hj&Hf) (Hj'&Hf') Hlt Heq.
      rewrite Heq in Hj. assert (j = j') as -> by congruence. assert (x = y) as -> by congruence. by apply key_lt_irrefl in Hlt. }
    clear -Hne. induction Hne as [|j js _ IH Hj]; [constructor|]. rewrite fmap_cons. constructor; [|done].
    rewrite list_elem_of_fmap. intros (j'&Heq&Hin). rewrite Forall_forall in Hj. by apply (Hj j'). }
  split_and!; [done..|].
  assert (Hfold : forall J0 i, foldl (fun J j => <[job_key j := j]> J) J0 js !! i =
    match List.find (fun j => bool_decide (job_key j = i)) js with Some j => Some j | None => J0 !! i end).
  { clear -Hnd. induction js as [|j js IH]; intros J0 i; cbn [foldl List.find]; [done|].
    rewrite fmap_cons in Hnd. apply NoDup_cons in Hnd as [Hnin Hnd]. rewrite IH by done. case_bool_decide as Hi.
    - destruct (List.find _ js) as [j'|] eqn:Hf; [|by rewrite Hi, lookup_insert_eq].
      apply List.find_some in Hf as [Hin Hi'%bool_decide_eq_true]. destruct Hnin. rewrite Hi, <-Hi'.
      apply list_elem_of_In in Hin. by apply (list_elem_of_fmap_2 job_key).
    - destruct (List.find _ js); [done|]. by rewrite lookup_insert_ne. }
  apply map_eq. intros i. rewrite Hfold, lookup_empty. destruct (List.find _ js) as [j|] eqn:Hf.
  - apply List.find_some in Hf as [Hin <-%bool_decide_eq_true]. apply list_elem_of_In, list_elem_of_lookup in Hin as [n Hn].
    by destruct (Forall2_lookup_r _ _ _ _ _ Hjs Hn) as (x&_&Hj&_).
  - destruct (J !! i) as [j|] eqn:Hi; [|done]. destruct (Hok _ _ Hi) as [_ Hn _ _ _].
    assert (Hx : (make_queue_key raw_codec (jb_queue j) (jb_id j), json_text j) ∈ btree_iter (V "queue_jobs")).
    { apply elem_of_btree_iter, Hrec. by exists i, j. }
    apply list_elem_of_lookup in Hx as [n Hx]. destruct (Forall2_lookup_l _ _ _ _ _ Hjs Hx) as (j'&Hn'&Hj'&Hf').
    assert (Hii : i = job_key j').
    { exact (record_entry_inj i j (job_key j') j' _ _ _ (Hok _ _ Hi) (Hok _ _ Hj') eq_refl Hf'). }
    apply list_elem_of_lookup_2, list_elem_of_In in Hn'. apply (List.find_none _ _ Hf) in Hn'.
    by rewrite bool_decide_true in Hn'.
Qed.

Lemma rebuild_records (l : list (bytes * bytes)) js acc :
  Forall2 (fun x j => job_wt j /\ record_entry j = Some x) l js ->
  fold_res (fun acc kv => job ← deserialize (A := QueueJob) raw_codec kv.2; rebuild_job raw_codec acc job) acc l
  = Ok (foldl rebuild_one acc js).
Proof.
  intros Hall. revert acc. induction Hall as [|x j l js [Hw Hx] _ IH]; intros acc; [done|]. cbn [fold_res foldl].
  injection Hx as <-. cbn [snd]. rewrite deserialize_raw by done. rewrite bind_Ok, rebuild_job_raw. apply IH.
Qed.

(** The records and the ready index represent the map; the lease index may hold anything. *)
Record records_stored e J : Prop := {
  rs_codec : pe_codec e = raw_codec;
  rs_kv : kv_ok (pe_db e);
  rs_jobs : forall i j, J !! i = Some j -> job_ok i j;
  rs_records : indexed record_entry (kv_view (pe_db e) "queue_jobs") J;
  rs_ready : indexed ready_index (kv_view (pe_db e) "ready_jobs") J;
  rs_size : Z.of_nat (size J) <= U64_MAX;
}.

End rebuild.
