(* ===== verification/PQueueBatch.v ===== *)
(** * thingd: batches of the persistent queues

    [ack_jobs] completes all of its jobs in one commit or none; [push_jobs_batch]
    stores all of its jobs in one commit. *)

From stdpp Require Import gmultiset.
From S2P Require Import Prelude Wal Table Layer Database ThingDb Keyspace RamScan Model Queue Storage Persistent PSample PStore PQueue PQueueSpec PQueueClaim PQueueOpen.

Section batch.
Context `{KvLaws D} `{!Serde QueueJob job_wt} `{!Serde string is_str}.
Implicit Types (e : PersistentEngine D) (J : Jobs) (j : QueueJob) (q : string) (V : string -> bmap bytes) (now : Z).

(** ** Completing several jobs *)

Definition complete_batch now q (ws : list BatchWrite) j : list BatchWrite :=
  remove_lease_write raw_codec q (jb_id j) (jb_lease_expires_at_ms j)
    (batch_insert ws "queue_jobs" (make_queue_key raw_codec q (jb_id j)) (json_text (set_completed now j))).

Definition complete_jobs now J (js : list QueueJob) : Jobs :=
  foldl (fun J j => <[(jb_queue j, jb_id j) := set_completed now j]> J) J js.
Definition complete_view now q V (js : list QueueJob) (n : string) : bmap bytes :=
  foldl (fun m j => apply_writes n (complete_batch now q [] j) m) (V n) js.

Lemma apply_complete_batch now q n ws j m :
  apply_writes n (complete_batch now q ws j) m = apply_writes n (complete_batch now q [] j) (apply_writes n ws m).
Proof.
  unfold complete_batch, remove_lease_write. destruct (jb_lease_expires_at_ms j); rewrite ?apply_remove, !apply_insert; done.
Qed.

Lemma apply_complete_batches now q n js ws m :
  apply_writes n (foldl (complete_batch now q) ws js) m =
  foldl (fun m j => apply_writes n (complete_batch now q [] j) m) (apply_writes n ws m) js.
Proof. revert ws. induction js as [|j js IH]; intros ws; cbn [foldl]; [done|]. by rewrite IH, apply_complete_batch. Qed.

Lemma complete_batches_ok now q js ws : Forall write_ok ws -> Forall write_ok (foldl (complete_batch now q) ws js).
Proof.
  destruct queue_keyspaces_valid as (Hv1&Hv2&Hv3). revert ws.
  induction js as [|j js IH]; intros ws Hws; cbn [foldl]; [done|]. apply IH. unfold complete_batch, remove_lease_write.
  destruct (jb_lease_expires_at_ms j); writes_ok.
Qed.

Definition leased_job J q j : Prop := J !! (q, jb_id j) = Some j /\ jb_queue j = q /\ jb_status j = Leased.

Lemma complete_transition V J now q j :
  leased_job J q j -> transition_view (J !! (q, jb_id j)) (set_completed now j) V (complete_view now q V [j]).
Proof.
  intros (Hj&Hq&Hs). rewrite Hj. unfold transition_view, complete_view, complete_batch, remove_lease_write. cbn [foldl].
  unfold drop_entry, add_entry. cbn [mbind option_bind]. unfold ready_index, lease_index. rewrite Hs.
  replace (lease_of (set_completed now j)) with (None : option Z) by done.
  assert (Hl : lease_of j = jb_lease_expires_at_ms j) by (unfold lease_of; by rewrite bool_decide_true).
  rewrite Hl, !bool_decide_false by done. unfold record_entry. cbn [jb_queue jb_id set_completed]. rewrite Hq.
  destruct (jb_lease_expires_at_ms j); cbn [fmap option_fmap option_map]; writes_simpl; by rewrite ?insert_delete_eq.
Qed.

Lemma complete_fold V J now q js :
  in_i64 now -> stored V J -> NoDup (jb_id <$> js) -> Forall (leased_job J q) js ->
  stored (complete_view now q V js) (complete_jobs now J js) /\
  (forall q', q' <> q -> lease_set (complete_jobs now J js) q' = lease_set J q') /\
  lease_set (complete_jobs now J js) q = lease_set J q ∖ list_ms (omap jb_lease_expires_at_ms js) /\
  list_ms (omap jb_lease_expires_at_ms js) ⊆ lease_set J q /\
  size (complete_jobs now J js) = size J /\
  (forall q', no_nul q' -> ready_entries (complete_view now q V js) q' = ready_entries V q').
Proof.
  intros Hnow. revert V J. induction js as [|j js IH]; intros V J Hst Hnd Hall.
  { cbn. split_and!; try done; [|multiset_solver]. change (list_ms []) with (∅ : gmultiset Z). multiset_solver. }
  apply Forall_cons in Hall as [Hj Hall]. rewrite fmap_cons in Hnd. apply NoDup_cons in Hnd as [Hnin Hnd].
  pose proof (complete_transition V J now q j Hj) as Htv. destruct Hj as (Hj&Hq&Hs).
  destruct (set_completed_ok (q, jb_id j) j now Hnow) as [Hok Hnl]; [by apply (st_ok _ _ Hst)|].
  set (J1 := <[(q, jb_id j) := set_completed now j]> J).
  assert (Hst1 : stored (complete_view now q V [j]) J1) by (by eapply stored_transition).
  assert (Hall1 : Forall (leased_job J1 q) js).
  { rewrite Forall_forall in Hall |- *. intros j' Hj'. destruct (Hall j' Hj') as (Hj1&Hq1&Hx1). split_and!; [|done..].
    unfold J1. rewrite lookup_insert_ne; [done|]. intros [= Heq]. apply Hnin. rewrite Heq. by apply list_elem_of_fmap_2. }
  destruct (IH _ _ Hst1 Hnd Hall1) as (H1&H2&H3&H4&H5&H6).
  assert (HJ : complete_jobs now J (j :: js) = complete_jobs now J1 js) by (unfold complete_jobs, J1; cbn [foldl]; by rewrite Hq).
  assert (Hl : lease_of j = jb_lease_expires_at_ms j) by (unfold lease_of; by rewrite bool_decide_true).
  assert (Hset : forall q, lease_set J1 q = lease_set J q ∖ option_ms (lease_in q j) /\ option_ms (lease_in q j) ⊆ lease_set J q).
  { intros q'. unfold J1. destruct (lease_set_update J _ j (set_completed now j) q' Hj) as [-> Hsub]. split; [|done].
    unfold lease_in at 2. rewrite Hnl. case_bool_decide; cbn [option_ms]; multiset_solver. }
  destruct (Hset q) as [Hs1 Hs2]. rewrite <-Hq in Hs1, Hs2. rewrite lease_in_same, Hl in Hs1, Hs2. rewrite Hq in Hs1, Hs2.
  assert (Homap : list_ms (omap jb_lease_expires_at_ms (j :: js)) = option_ms (jb_lease_expires_at_ms j) ⊎ list_ms (omap jb_lease_expires_at_ms js)).
  { cbn [omap list_omap]. destruct (jb_lease_expires_at_ms j); cbn [option_ms]; [done|]. by rewrite (left_id_L ∅ (⊎)). }
  rewrite HJ, Homap. change (complete_view now q V (j :: js)) with (complete_view now q (complete_view now q V [j]) js).
  split_and!.
  - done.
  - intros q' Hne. rewrite H2 by done. destruct (Hset q') as [-> _]. rewrite lease_in_queue by congruence. cbn [option_ms]. multiset_solver.
  - rewrite H3, Hs1. multiset_solver.
  - rewrite Hs1 in H4. multiset_solver.
  - rewrite H5. unfold J1. by rewrite map_size_insert_Some by (by eexists).
  - intros q' Hq'. rewrite H6 by done. subst q. eapply (ready_entries_same V _ J (set_completed now j)); [exact Htv| |done].
    cbn [jb_queue jb_id set_completed]. rewrite Hj. cbn. unfold ready_index. by rewrite bool_decide_false by congruence.
Qed.

(** ** [ack_jobs] *)

(** The jobs of the ids, all of which must be leased. *)
Fixpoint leased_jobs J q (ids : list string) : thingd_result (list QueueJob) :=
  match ids with
  | [] => Ok []
  | id :: ids =>
      match J !! (q, id) with
      | None => Err (Conflict ("job " +:+ id +:+ " was not found in queue '" +:+ q +:+ "'"))
      | Some j =>
          if bool_decide (jb_status j <> Leased) then Err (Conflict ("job " +:+ id +:+ " must be leased before batch ack")) else
          js ← leased_jobs J q ids; Ok (j :: js)
      end
  end.

Definition ack_jobs_spec J q (ids : list string) now : thingd_result (list QueueJob * Jobs) :=
  if MAX_QUEUE_BATCH_ITEMS <? zlen ids then Err (InvalidInput "queue ack batch exceeds the maximum of 1000 jobs") else
  if has_duplicate ∅ ids then Err (InvalidInput "queue ack batch contains duplicate job IDs") else
  js ← leased_jobs J q ids; Ok (set_completed now <$> js, complete_jobs now J js).

Lemma leased_jobs_Ok J q ids js :
  (forall i j, J !! i = Some j -> job_ok i j) -> leased_jobs J q ids = Ok js -> ids = jb_id <$> js /\ Forall (leased_job J q) js.
Proof.
  intros Hok. revert js. induction ids as [|id ids IH]; intros js; cbn [leased_jobs]; [by intros [= <-]|].
  destruct (J !! (q, id)) as [j|] eqn:Hj; [|done]. case_bool_decide as Hs; [done|].
  intros (js'&Hjs'&[= <-])%bind_Ok_inv. destruct (IH js' Hjs') as [-> Hall]. destruct (Hok _ _ Hj) as [_ Hn _ _ _].
  injection Hn as -> ->. split; [done|]. constructor; [|done]. split_and!; [done..|]. by destruct (decide (jb_status j = Leased)).
Qed.

Definition ack_entry now q j : bytes * bytes * QueueJob :=
  (make_queue_key raw_codec q (jb_id j), json_text (set_completed now j), set_completed now j).

Lemma ack_jobs_loop_spec e J q now ids :
  queue_inv e J -> no_nul q -> in_i64 now ->
  ack_jobs_loop e q now ids =
  match leased_jobs J q ids with Ok js => Ok (ack_entry now q <$> js) | Err err => Err err end.
Proof.
  intros Hinv Hq Hnow. induction ids as [|id ids IH]; cbn [ack_jobs_loop leased_jobs]; [done|].
  rewrite (qi_codec _ _ Hinv), (read_job_spec e J) by done. rewrite bind_Ok. destruct (J !! (q, id)) as [j|] eqn:Hj; [|done].
  case_bool_decide; [done|]. pose proof (st_ok _ _ (qi_stored _ _ Hinv) _ _ Hj) as Hok.
  rewrite serialize_raw by (by apply (set_completed_ok (q, id) j)). rewrite bind_Ok, IH.
  destruct (leased_jobs J q ids); [|done]. destruct Hok as [_ Hn _ _ _]. injection Hn as -> ->. done.
Qed.

Lemma ack_batch_writes now q js ws :
  foldl (fun batch '((key, value, job), id) =>
           remove_lease_write raw_codec q id (jb_lease_expires_at_ms job) (batch_insert batch "queue_jobs" key value))
    ws (zip (ack_entry now q <$> js) (jb_id <$> js)) = foldl (complete_batch now q) ws js.
Proof. revert ws. induction js as [|j js IH]; intros ws; [done|]. rewrite !fmap_cons. cbn [zip zip_with foldl]. apply IH. Qed.

Lemma ack_jobs_refines e J q ids now r e' :
  queue_inv e J -> no_nul q -> in_i64 now -> pe_ack_jobs q ids now e = (r, e') ->
  match ack_jobs_spec J q ids now with
  | Err err => r = Err err /\ e' = e
  | Ok (jobs, J') => r = Ok jobs /\ queue_inv e' J' \/ exists err, r = Err err /\ commit_failed err /\ queue_inv e' J
  end.
Proof.
  intros Hinv Hq Hnow. unfold pe_ack_jobs, ack_jobs_spec. destruct (MAX_QUEUE_BATCH_ITEMS <? zlen ids) eqn:Hmax; [by intros [= <- <-]|].
  destruct (has_duplicate ∅ ids) eqn:Hdup; [by intros [= <- <-]|]. apply has_duplicate_false in Hdup as [Hnd _].
  destruct (decide (ids = [])) as [->|Hne]; [intros [= <- <-]; by left|]. rewrite bool_decide_false by done.
  rewrite pbind_pget, (ack_jobs_loop_spec e J) by done. pose proof Hinv as [Hc Hkv Hst Hls Hcur Hsz].
  destruct (leased_jobs J q ids) as [js|err] eqn:Hjs; [|by intros [= <- <-]].
  destruct (leased_jobs_Ok J q ids js (st_ok _ _ Hst) Hjs) as [-> Hall]. rewrite pbind_plift. cbv zeta.
  rewrite Hc, ack_batch_writes. rewrite bind_Ok.
  destruct (complete_fold _ J now q js Hnow Hst Hnd Hall) as (H1&H2&H3&H4&H5&H6).
  destruct (commit (foldl (complete_batch now q) [] js) e) as [rc ec] eqn:Hcommit.
  destruct (commit_cases e _ rc ec Hkv (complete_batches_ok now q js [] writes_ok_nil) Hcommit)
    as (db&->&Hkv'&[[-> Hview]|(err&->&Hfail&Hview)]).
  2: { rewrite (pbind_Err _ _ _ _ _ Hcommit). intros [= <- <-]. right. exists err. split_and!; [done..|]. by apply queue_inv_same_view. }
  rewrite (pbind_Ok _ _ _ _ _ Hcommit). unfold pbind, pmodify, pret. intros [= <- <-]. left.
  split; [by rewrite <-list_fmap_compose|].
  assert (Hrem : omap (fun p : bytes * bytes * QueueJob => jb_lease_expires_at_ms p.2) (ack_entry now q <$> js) = omap jb_lease_expires_at_ms js).
  { clear. induction js as [|j js IH]; [done|]. rewrite fmap_cons. cbn [omap list_omap snd ack_entry]. rewrite IH. done. }
  rewrite Hrem. set (removed := omap jb_lease_expires_at_ms js) in *.
  assert (HV : forall n, valid_name n -> kv_view db n = complete_view now q (kv_view (pe_db e)) js n).
  { intros n Hn. rewrite Hview by done. by rewrite apply_complete_batches. }
  destruct (expiration_delta_frame (apply_queue_lease_delta (set_db e db) q (zlen removed) 0) q removed []) as (Hf1&Hf2&Hf3).
  destruct (lease_delta_frame (set_db e db) q (zlen removed) 0) as (Hd1&Hd2&Hd3).
  split; rewrite ?Hf1, ?Hf2, ?Hf3, ?Hd1, ?Hd2, ?Hd3; try done.
  - by eapply stored_ext.
  - change 0 with (zlen ([] : list Z)). apply (leases_delta (set_db e db) q (lease_set J)); [by eapply leases_repr_ext|done| |done|].
    + rewrite H3. change (list_ms []) with (∅ : gmultiset Z). multiset_solver.
    + pose proof (lease_set_size J q). cbn [length]. lia.
  - intros q' c Hq' Hlook. cbn [pe_db set_db]. rewrite (ready_entries_ext _ _ _ HV), H6 by apply Hq'. by apply Hcur.
  - by rewrite H5.
Qed.

(** ** [push_jobs_batch] *)

Definition push_batch (ws : list BatchWrite) j : list BatchWrite :=
  let ws := batch_insert ws "queue_jobs" (queue_key j) (json_text j) in
  match ready_index j with Some (k, v) => batch_insert ws "ready_jobs" k v | None => ws end.
Definition push_cache e j : PersistentEngine D :=
  match ready_index j with Some entry => cache_queue_ready_min e (jb_queue j) entry | None => e end.
Definition push_view V j (n : string) : bmap bytes := apply_writes n (push_batch [] j) (V n).

(** The part of the invariant that speaks of the keyspaces' contents. *)
Record represents V e J : Prop := {
  rp_stored : stored V J;
  rp_leases : leases_repr e (lease_set J);
  rp_cursors : forall q c, name_ok q -> pe_queue_ready_cursors e !! q = Some c -> c = head (ready_entries V q);
  rp_size : Z.of_nat (size J) <= U64_MAX;
}.

(** A job [push_jobs_batch] may store. *)
Record pushable J j : Prop := {
  pu_ok : job_ok (job_key j) j;
  pu_lease : lease_of j = None;
  pu_new : J !! job_key j = None;
}.

Lemma push_step V e J j :
  represents V e J -> pushable J j -> Z.of_nat (size J) < U64_MAX -> represents (push_view V j) (push_cache e j) (<[job_key j := j]> J).
Proof.
  intros [Hst Hls Hcur Hsz] [Hj Hl Hnew] Hlt.
  assert (Htv : transition_view (J !! job_key j) j V (push_view V j)).
  { rewrite Hnew. unfold transition_view, push_view, push_batch, add_entry, drop_entry, lease_index. rewrite Hl.
    cbn [mbind option_bind fmap option_fmap option_map record_entry]. destruct (ready_index j) as [[k v]|]; by writes_simpl. }
  assert (Hset : forall q, lease_set (<[job_key j := j]> J) q = lease_set J q).
  { intros q. rewrite lease_set_insert by done. unfold lease_in. rewrite Hl. case_bool_decide; cbn [option_ms]; by rewrite (left_id_L ∅ (⊎)). }
  split.
  - by eapply stored_transition.
  - assert (Hls' : leases_repr e (lease_set (<[job_key j := j]> J))).
    { destruct Hls as [H1 H2]. split; intros q; rewrite Hset; [apply H1|apply H2]. }
    unfold push_cache. destruct (ready_index j) as [x|]; [|done].
    destruct (cache_min_frame e (jb_queue j) x) as (_&_&H3&H4). by eapply leases_repr_ext.
  - intros q c Hq Hlook. unfold push_cache in Hlook. destruct (ready_index j) as [x|] eqn:Hx.
    + apply ready_index_Some in Hx as [Hs ->]. rewrite cache_min_cursors in Hlook. destruct (decide (q = jb_queue j)) as [->|Hne].
      * apply fmap_Some in Hlook as (c0&Hc0&->). rewrite (ready_head_add V _ J j Htv) by (done || by (unfold job_key in Hnew; rewrite Hnew)).
        f_equal. by apply Hcur.
      * rewrite (ready_entries_other V _ J j q Htv) by (done || apply Hq). by apply Hcur.
    + rewrite (ready_entries_same V _ J j q Htv); [by apply Hcur|by (unfold job_key in Hnew; rewrite Hnew)|].
      intros Hs. unfold ready_index in Hx. by rewrite bool_decide_true in Hx.
  - rewrite map_size_insert_None by done. lia.
Qed.

Definition insert_jobs J (js : list QueueJob) : Jobs := foldl (fun J j => <[job_key j := j]> J) J js.

Lemma push_fold V e J js :
  represents V e J -> Forall (pushable J) js -> NoDup (job_key <$> js) -> Z.of_nat (size J) + zlen js <= U64_MAX ->
  represents (foldl push_view V js) (foldl push_cache e js) (insert_jobs J js).
Proof.
  unfold insert_jobs. revert V e J. induction js as [|j js IH]; intros V e J Hr Hall Hnd Hsz; cbn [foldl]; [done|].
  apply Forall_cons in Hall as [Hj Hall]. rewrite fmap_cons in Hnd. apply NoDup_cons in Hnd as [Hnin Hnd]. cbn [length] in Hsz.
  apply IH; [apply push_step; [done..|lia]| |done|rewrite map_size_insert_None by apply Hj; lia].
  rewrite Forall_forall in Hall |- *. intros k Hk. destruct (Hall k Hk) as [H1 H2 H3]. split; [done..|].
  rewrite lookup_insert_ne; [done|]. intros Heq. apply Hnin. rewrite Heq. by apply (list_elem_of_fmap_2 job_key).
Qed.

Lemma apply_push_batch n ws j m :
  apply_writes n (push_batch ws j) m = apply_writes n (push_batch [] j) (apply_writes n ws m).
Proof. unfold push_batch. destruct (ready_index j) as [[k v]|]; by rewrite !apply_insert. Qed.

Lemma apply_push_batches n js ws V :
  apply_writes n (foldl push_batch ws js) (V n) = foldl push_view (fun n => apply_writes n ws (V n)) js n.
Proof.
  assert (Hext : forall js (V V' : string -> bmap bytes), (forall n, V n = V' n) -> foldl push_view V js n = foldl push_view V' js n).
  { clear. induction js as [|j js IH]; intros V V' Heq; cbn [foldl]; [apply Heq|]. apply IH. intros n'. unfold push_view. by rewrite Heq. }
  revert ws. induction js as [|j js IH]; intros ws; cbn [foldl]; [done|]. rewrite IH. apply Hext.
  intros n'. unfold push_view. apply apply_push_batch.
Qed.

Lemma push_batches_ok js ws : Forall write_ok ws -> Forall write_ok (foldl push_batch ws js).
Proof.
  destruct queue_keyspaces_valid as (Hv1&Hv2&Hv3). revert ws. induction js as [|j js IH]; intros ws Hws; cbn [foldl]; [done|].
  apply IH. unfold push_batch, ready_index, job_ready_key, queue_key. case_bool_decide; writes_ok.
Qed.

Definition ready_key_of j : option (string * (bytes * bytes)) := pair (jb_queue j) <$> ready_index j.

(** A job of a batch with the reading of the clock at its turn. *)
Definition stamped (p : string * QueueJob) : QueueJob := stamp_job p.1 p.2.

Lemma push_jobs_loop_spec jobs batch ready_keys results :
  Forall (fun p => job_wt (stamped p)) jobs ->
  push_jobs_loop raw_codec jobs batch ready_keys results =
  Ok (foldl push_batch batch (stamped <$> jobs), ready_keys ++ omap ready_key_of (stamped <$> jobs),
      results ++ (stamped <$> jobs)).
Proof.
  intros Hall. revert batch ready_keys results. induction Hall as [|[now_iso j] jobs Hj _ IH]; intros batch ready_keys results; cbn [push_jobs_loop].
  { by rewrite !app_nil_r. }
  change (stamped (now_iso, j)) with (stamp_job now_iso j) in Hj.
  rewrite serialize_raw by done. rewrite bind_Ok, ready_entry_raw, bind_Ok. rewrite fmap_cons. change (stamped (now_iso, j)) with (stamp_job now_iso j). cbn [foldl omap list_omap].
  assert (Hrk : ready_key_of (stamp_job now_iso j) = pair (jb_queue (stamp_job now_iso j)) <$> ready_index (stamp_job now_iso j)) by done.
  rewrite Hrk. unfold push_batch at 2. fold (queue_key (stamp_job now_iso j)).
  destruct (ready_index (stamp_job now_iso j)) as [[k v]|]; cbn [fmap option_fmap option_map]; rewrite IH, <-!app_assoc; done.
Qed.

Lemma push_caches js e :
  foldl (fun e p => cache_queue_ready_min e p.1 p.2) e (omap ready_key_of js) = foldl push_cache e js.
Proof.
  revert e. induction js as [|j js IH]; intros e; [done|]. cbn [omap list_omap foldl].
  assert (Hrk : ready_key_of j = pair (jb_queue j) <$> ready_index j) by done. rewrite Hrk. unfold push_cache at 2.
  destruct (ready_index j) as [x|]; cbn [fmap option_fmap option_map foldl]; apply IH.
Qed.

Lemma push_caches_frame js e : pe_db (foldl push_cache e js) = pe_db e /\ pe_codec (foldl push_cache e js) = pe_codec e.
Proof.
  revert e. induction js as [|j js IH]; intros e; [done|]. cbn [foldl]. destruct (IH (push_cache e j)) as [-> ->].
  unfold push_cache. destruct (ready_index j) as [x|]; [|done]. by destruct (cache_min_frame e (jb_queue j) x) as (?&?&_).
Qed.

Lemma push_jobs_refines e J jobs r e' :
  let js := stamped <$> jobs in
  queue_inv e J -> Forall (pushable J) js -> NoDup (job_key <$> js) -> Z.of_nat (size J) + zlen js <= U64_MAX ->
  pe_push_jobs_batch jobs e = (r, e') ->
  match r with
  | Ok results => results = js /\ queue_inv e' (insert_jobs J js)
  | Err err => commit_failed err /\ queue_inv e' J
  end.
Proof.
  intros js Hinv Hall Hnd Hsz. pose proof Hinv as [Hc Hkv Hst Hls Hcur Hsz0].
  unfold pe_push_jobs_batch. rewrite pbind_pget, Hc, push_jobs_loop_spec.
  2: { unfold js in Hall. rewrite Forall_fmap in Hall. eapply Forall_impl; [exact Hall|]. intros j Hj. apply Hj. }
  fold js. rewrite pbind_plift. cbn [app].
  destruct (commit (foldl push_batch [] js) e) as [rc ec] eqn:Hcommit.
  destruct (commit_cases e _ rc ec Hkv (push_batches_ok js [] writes_ok_nil) Hcommit)
    as (db&->&Hkv'&[[-> Hview]|(err&->&Hfail&Hview)]).
  2: { rewrite (pbind_Err _ _ _ _ _ Hcommit). intros [= <- <-]. split; [done|]. by apply queue_inv_same_view. }
  rewrite (pbind_Ok _ _ _ _ _ Hcommit). unfold pbind, pmodify, pret. intros [= <- <-]. split; [done|].
  rewrite push_caches. destruct (push_caches_frame js (set_db e db)) as [Hf1 Hf2].
  assert (Hr : represents (kv_view (pe_db e)) (set_db e db) J) by (split; try done; by eapply leases_repr_ext).
  destruct (push_fold _ _ _ js Hr Hall Hnd Hsz) as [H1 H2 H3 H4].
  assert (HV : forall n, valid_name n -> kv_view db n = foldl push_view (kv_view (pe_db e)) js n).
  { intros n Hn. rewrite Hview by done. apply apply_push_batches. }
  split; rewrite ?Hf1, ?Hf2; try done.
  - by eapply stored_ext.
  - intros q c Hq Hlook. cbn [pe_db set_db]. rewrite (ready_entries_ext _ _ _ HV). by apply H3.
Qed.
End batch.
