(* ===== verification/PQueueClaimBatch.v ===== *)
(** * thingd: claiming a batch of jobs

    [claim_batch_atomic] scans the ready index page by page, adds the expired leases,
    sorts the candidates by claim order, claims the first [limit] of them and requeues
    the expired leases that are left over, all in one commit. *)

From stdpp Require Import gmultiset.
From S2P Require Import Prelude Wal Table Layer Database ThingDb Keyspace RamScan Model Queue Storage Persistent PSample PStore PQueue PQueueSpec PQueueClaim PQueueOpen PQueueBatch.

Section batch_claim.
Context `{KvLaws D} `{!Serde QueueJob job_wt} `{!Serde string is_str}.
Implicit Types (e : PersistentEngine D) (J : Jobs) (j : QueueJob) (q : string) (V : string -> bmap bytes) (now limit : Z).

(** ** Scanning the ready index *)

Definition candidate j : QueueBatchCandidate :=
  (job_ready_key raw_codec j, queue_key j, (if bool_decide (jb_status j = Leased) then Some (lease_key j) else None), j).

Definition ready_pair j : bytes * bytes := (job_ready_key raw_codec j, queue_id_text (jb_id j)).

(** A list of ready jobs, as the entries of the index. *)
Definition ready_list J q (js : list QueueJob) : Prop :=
  Forall (fun j => J !! (q, jb_id j) = Some j /\ jb_queue j = q /\ jb_status j = Ready) js.

(** What one entry does to the state of the scan when the limit is not reached. *)
Definition scan_entry now (st : ReadyScan) j : ReadyScan :=
  if claimable now j
  then mkReadyScan (rs_batch st) (rs_operations st) (rs_candidates st ++ [candidate j]) (Some (job_ready_key raw_codec j))
         (rs_delayed st) (rs_next st)
  else mkReadyScan (rs_batch st) (rs_operations st) (rs_candidates st) (Some (job_ready_key raw_codec j))
         (match rs_delayed st with Some d => Some d | None => Some (ready_pair j) end) (rs_next st).

(** The jobs of a page up to the one that reaches the limit. *)
Fixpoint scan_cut now limit (n : Z) (js : list QueueJob) : option (list QueueJob * list QueueJob) :=
  match js with
  | [] => None
  | j :: js =>
      let n := if claimable now j then n + 1 else n in
      if claimable now j && (limit <=? n) then Some ([j], js)
      else '(l, r) ← scan_cut now limit n js; Some (j :: l, r)
  end.

Lemma ready_page_loop_spec e J q now limit js st :
  queue_inv e J -> name_ok q -> ready_list J q js ->
  ready_page_loop e q now limit ((fun j => (ready_pair j, Some (jb_id j))) <$> js) st =
  match scan_cut now limit (zlen (rs_candidates st)) js with
  | None => Ok (false, foldl (scan_entry now) st js)
  | Some (l, r) =>
      let st := foldl (scan_entry now) st l in
      Ok (true, mkReadyScan (rs_batch st) (rs_operations st) (rs_candidates st) (rs_after st) (rs_delayed st) (ready_pair <$> head r))
  end.
Proof.
  intros Hinv Hq Hall. revert st. induction Hall as [|j js (Hj&Hjq&Hs) Hall IH]; intros st; [done|].
  rewrite fmap_cons. cbn [ready_page_loop]. rewrite (qi_codec _ _ Hinv). unfold ready_pair at 1.
  rewrite (kv_get_record e J) by (done || apply Hq). rewrite Hj. cbn [fmap option_fmap option_map storage_error]. rewrite bind_Ok.
  destruct (st_ok _ _ (qi_stored _ _ Hinv) _ _ Hj) as [Hwt _ _ _ _]. rewrite deserialize_raw by done. rewrite bind_Ok.
  rewrite bool_decide_false by (intros Hn; by apply Hn). cbn [rs_batch rs_operations rs_candidates rs_after rs_delayed rs_next].
  assert (Hcand : (job_ready_key raw_codec j, make_queue_key raw_codec q (jb_id j), None, j) = candidate j).
  { unfold candidate, queue_key. rewrite bool_decide_false by congruence. by rewrite Hjq. }
  cbn [scan_cut]. rewrite claimable_ready by done. destruct (now <? jb_available_at_ms j) eqn:Hav; cbn [negb andb].
  - rewrite IH. cbn [rs_candidates].
    assert (Hse : scan_entry now st j = mkReadyScan (rs_batch st) (rs_operations st) (rs_candidates st) (Some (job_ready_key raw_codec j))
       (match rs_delayed st with Some d => Some d | None => Some (ready_pair j) end) (rs_next st)).
    { unfold scan_entry. rewrite claimable_ready, Hav by done. done. }
    destruct (scan_cut now limit (zlen (rs_candidates st)) js) as [[l r]|]; cbn [mbind option_bind foldl]; rewrite Hse; done.
  - rewrite Hcand.
    assert (Hse : scan_entry now st j = mkReadyScan (rs_batch st) (rs_operations st) (rs_candidates st ++ [candidate j])
       (Some (job_ready_key raw_codec j)) (rs_delayed st) (rs_next st)).
    { unfold scan_entry. rewrite claimable_ready, Hav by done. done. }
    rewrite length_app. cbn [length]. replace (Z.of_nat (length (rs_candidates st) + 1)) with (zlen (rs_candidates st) + 1) by lia.
    destruct (limit <=? zlen (rs_candidates st) + 1) eqn:Hlim.
    + cbn [foldl]. rewrite Hse. cbn. f_equal. f_equal. f_equal. by destruct js.
    + rewrite IH. cbn [rs_candidates]. rewrite length_app. cbn [length].
      replace (Z.of_nat (length (rs_candidates st) + 1)) with (zlen (rs_candidates st) + 1) by lia.
      destruct (scan_cut now limit (zlen (rs_candidates st) + 1) js) as [[l r]|]; cbn [mbind option_bind foldl]; rewrite Hse; done.
Qed.

(** *** Pages *)

Definition claim_count now (js : list QueueJob) : Z := zlen (List.filter (claimable now) js).

Lemma scan_cut_app now limit n js1 js2 :
  scan_cut now limit n (js1 ++ js2) =
  match scan_cut now limit n js1 with
  | Some (l, r) => Some (l, r ++ js2)
  | None => '(l, r) ← scan_cut now limit (n + claim_count now js1) js2; Some (js1 ++ l, r)
  end.
Proof.
  unfold claim_count. revert n. induction js1 as [|j js1 IH]; intros n; cbn [scan_cut app List.filter length].
  { rewrite Z.add_0_r. by destruct (scan_cut now limit n js2) as [[]|]. }
  destruct (claimable now j) eqn:Hc; cbn [andb].
  - destruct (limit <=? n + 1); [done|]. rewrite IH. destruct (scan_cut now limit (n + 1) js1) as [[]|]; [done|].
    cbn [length]. replace (n + Z.of_nat (S (length (List.filter (claimable now) js1)))) with (n + 1 + zlen (List.filter (claimable now) js1)) by lia.
    by destruct (scan_cut now limit _ js2) as [[]|].
  - rewrite IH. destruct (scan_cut now limit n js1) as [[]|]; [done|]. by destruct (scan_cut now limit _ js2) as [[]|].
Qed.

Lemma scan_candidates now st js :
  rs_candidates (foldl (scan_entry now) st js) = rs_candidates st ++ (candidate <$> List.filter (claimable now) js).
Proof.
  revert st. induction js as [|j js IH]; intros st; cbn [foldl List.filter]; [by rewrite app_nil_r|].
  rewrite IH. unfold scan_entry. destruct (claimable now j); cbn [rs_candidates]; [|done]. rewrite fmap_cons, <-app_assoc. done.
Qed.

Lemma scan_after_key now st js :
  rs_after (foldl (scan_entry now) st js) = match last js with Some j => Some (job_ready_key raw_codec j) | None => rs_after st end.
Proof.
  induction js as [|j js _] using rev_ind; [done|]. rewrite foldl_app, last_snoc. cbn [foldl]. unfold scan_entry. by destruct (claimable now j).
Qed.

Lemma ready_page_spec e q limit (cached : option (bytes * bytes)) (pre js : list QueueJob) :
  kv_ok (pe_db e) -> pe_codec e = raw_codec -> 0 < limit ->
  ready_entries (kv_view (pe_db e)) q = ready_pair <$> (pre ++ js) ->
  match cached with Some x => pre = [] /\ head (ready_pair <$> js) = Some x | None => True end ->
  ready_page e q (limit + 1) cached (match last pre with Some j => Some (job_ready_key raw_codec j) | None => None end)
  = Ok (ready_pair <$> take (Z.to_nat (limit + 1)) js).
Proof.
  intros Hkv Hc Hlim Hent Hcached. destruct queue_keyspaces_valid as (_&Hv2&_). unfold ready_page. rewrite Hc.
  rewrite fmap_app in Hent. destruct cached as [x|].
  - destruct Hcached as [-> Hx]. destruct (Z.ltb_spec 1 (limit + 1)); [|lia].
    destruct js as [|j js]; [done|]. rewrite fmap_cons in Hx, Hent. cbn [head app fmap list_fmap] in Hx, Hent. injection Hx as <-.
    change (Some (ready_pair j).1) with (fst <$> last [ready_pair j]).
    rewrite (next_page_entries (pe_db e) "ready_jobs" _ _ [ready_pair j] (ready_pair <$> js) Hkv Hv2) by (lia || exact Hent).
    cbn [storage_error]. rewrite bind_Ok. replace (Z.to_nat (limit + 1)) with (S (Z.to_nat (limit + 1 - 1))) by lia.
    cbn [take]. rewrite fmap_cons, fmap_take. done.
  - replace (match last pre with Some j => Some (job_ready_key raw_codec j) | None => None end) with (fst <$> last (ready_pair <$> pre)).
    2: { rewrite fmap_last. by destruct (last pre). }
    rewrite (next_page_entries (pe_db e) "ready_jobs" _ _ (ready_pair <$> pre) (ready_pair <$> js) Hkv Hv2) by (lia || exact Hent).
    cbn [storage_error]. by rewrite fmap_take.
Qed.

Lemma ready_ids_spec (js : list QueueJob) :
  Forall job_wt js -> map_res (fun kv => ready_job_id raw_codec kv.1 kv.2) (ready_pair <$> js) = Ok ((fun j => Some (jb_id j)) <$> js).
Proof.
  induction 1 as [|j js Hj _ IH]; [done|]. rewrite !fmap_cons. cbn [map_res].
  change ((ready_pair j).2) with (queue_id_text (jb_id j)). rewrite ready_job_id_raw by apply Hj. rewrite bind_Ok, IH. done.
Qed.

Lemma zip_fmap {A B C} (f : A -> B) (g : A -> C) l : zip (f <$> l) (g <$> l) = (fun x => (f x, g x)) <$> l.
Proof. induction l as [|x l IH]; [done|]. rewrite !fmap_cons. cbn [zip zip_with]. by rewrite IH. Qed.

Lemma ready_scan_loop_spec e J q now limit (js pre : list QueueJob) fuel cached st :
  queue_inv e J -> name_ok q -> 0 < limit -> ready_entries (kv_view (pe_db e)) q = ready_pair <$> (pre ++ js) -> ready_list J q js ->
  match cached with Some x => pre = [] /\ head (ready_pair <$> js) = Some x | None => True end ->
  rs_after st = match last pre with Some j => Some (job_ready_key raw_codec j) | None => None end ->
  (length js < fuel)%nat ->
  match scan_cut now limit (zlen (rs_candidates st)) js with
  | None => ready_scan_loop fuel e q now limit cached st = Ok (true, foldl (scan_entry now) st js)
  | Some (l, r) => exists next, (next = None \/ next = ready_pair <$> head r) /\
      let st' := foldl (scan_entry now) st l in
      ready_scan_loop fuel e q now limit cached st
      = Ok (false, mkReadyScan (rs_batch st') (rs_operations st') (rs_candidates st') (rs_after st') (rs_delayed st') next)
  end.
Proof.
  intros Hinv Hq Hlim. pose proof Hinv as [Hc Hkv Hst _ _ _].
  revert js pre cached st. induction fuel as [|fuel IH]; intros js pre cached st Hent Hall Hcached Hafter Hfuel; [lia|].
  cbn [ready_scan_loop]. rewrite Hafter, (ready_page_spec e q limit cached pre js) by done. rewrite bind_Ok.
  set (k := Z.to_nat (limit + 1)). assert (Hk : (0 < k)%nat) by lia.
  destruct (decide (js = [])) as [->|Hne]; [by rewrite take_nil|].
  assert (Hpage : take k js <> []) by (destruct js, k; [done..|lia|done]).
  rewrite bool_decide_false by (by intros ?%fmap_nil_inv). rewrite Hc.
  assert (Hallk : ready_list J q (take k js)) by (by apply Forall_take).
  rewrite ready_ids_spec.
  2: { eapply Forall_impl; [exact Hallk|]. intros j (Hj&_). by destruct (st_ok _ _ Hst _ _ Hj). }
  rewrite bind_Ok, zip_fmap, (ready_page_loop_spec e J) by done.
  pose proof (scan_cut_app now limit (zlen (rs_candidates st)) (take k js) (drop k js)) as Happ. rewrite take_drop in Happ. rewrite Happ.
  destruct (scan_cut now limit (zlen (rs_candidates st)) (take k js)) as [[l r]|] eqn:Hcut.
  - exists (ready_pair <$> head r). split; [|done]. destruct r; [by left|by right].
  - set (st1 := foldl (scan_entry now) st (take k js)).
    assert (Hcount : zlen (rs_candidates st1) = zlen (rs_candidates st) + claim_count now (take k js)).
    { unfold st1, claim_count. rewrite scan_candidates, length_app, length_fmap. lia. }
    assert (Hafter1 : rs_after st1 = match last (pre ++ take k js) with Some j => Some (job_ready_key raw_codec j) | None => None end).
    { unfold st1. rewrite scan_after_key. rewrite last_app. by destruct (last (take k js)) eqn:Hl; [|apply last_None in Hl]. }
    assert (Hdrop : ready_list J q (drop k js)) by (by apply Forall_drop).
    specialize (IH (drop k js) (pre ++ take k js) None st1). rewrite <-app_assoc, take_drop, Hcount in IH.
    specialize (IH Hent Hdrop I Hafter1). rewrite length_drop in IH.
    assert (Hlen : (length js - k < fuel)%nat) by (destruct js; [done|cbn [length] in *; lia]). specialize (IH Hlen).
    destruct (scan_cut now limit _ (drop k js)) as [[l r]|]; cbn [mbind option_bind].
    + destruct IH as (next&Hnext&IH). exists next. split; [done|]. rewrite foldl_app. exact IH.
    + rewrite IH. unfold st1. by rewrite <-foldl_app, take_drop.
Qed.

(** ** Expired leases *)

Lemma batch_lease_loop_spec e J q now post js pre fuel acc :
  queue_inv e J -> name_ok q -> queue_has_expired_leases e q now = true ->
  entries_of (pe_db e) "lease_jobs" (make_lease_prefix raw_codec q) = pre ++ post ->
  Forall2 (entry_job lease_index J q) post js -> (length post < fuel)%nat ->
  batch_lease_loop fuel e q now (fst <$> last pre) acc =
  Ok (mkBatchScan (bs_batch acc) (bs_operations acc) (bs_removed acc) (bs_expirations acc)
        (bs_expired acc ++ (candidate <$> take_while (lease_expired now) js))).
Proof.
  intros Hinv [Hq Hqs] Hexp Hent Hjs. pose proof Hinv as [Hc Hkv Hst _ _ _].
  destruct queue_keyspaces_valid as (Hv1&Hv2&Hv3).
  revert pre fuel acc Hent. induction Hjs as [|[k v] j post js (Hj&Hjq&Hf) Hjs IH]; intros pre fuel acc Hent Hfuel;
    (destruct fuel as [|fuel]; [cbn [length] in Hfuel; lia|]); cbn [batch_lease_loop]; rewrite Hexp, Hc; cbn [negb];
    rewrite (next_entry (pe_db e) "lease_jobs" _ pre _ Hkv Hv3 Hent); cbn [storage_error]; rewrite bind_Ok; cbn [head].
  { cbn. rewrite app_nil_r. by destruct acc. }
  destruct (st_ok _ _ Hst _ _ Hj) as [Hwt _ _ _ Hlx].
  unfold lease_index in Hf. destruct (lease_of j) as [x|] eqn:Hx; [|done]. injection Hf as <- <-. rewrite Hjq.
  rewrite lease_expiration_key by auto. rewrite bind_Ok. cbn [take_while]. rewrite (lease_expired_of now j x Hx).
  destruct (Z.ltb_spec now x), (Z.leb_spec x now); [lia| | |lia].
  { cbn. rewrite app_nil_r. by destruct acc. }
  rewrite decode_queue_id_raw by apply Hwt. rewrite bind_Ok. rewrite (kv_get_record e J) by done.
  cbn [storage_error]. rewrite bind_Ok, Hj. cbn [fmap option_fmap option_map]. rewrite deserialize_raw by done. rewrite bind_Ok.
  rewrite (lease_expired_of now j x Hx). destruct (Z.leb_spec x now); [|lia]. cbn [negb].
  replace (Some (make_lease_key raw_codec q x (jb_id j)))
    with (fst <$> last (pre ++ [(make_lease_key raw_codec q x (jb_id j), queue_id_text (jb_id j))])) at 1 by (by rewrite last_snoc).
  rewrite IH; [|rewrite Hent, <-app_assoc; cbn [app]; by rewrite Hjq|cbn [length] in Hfuel; lia].
  cbn [bs_batch bs_operations bs_removed bs_expirations bs_expired]. rewrite <-app_assoc. do 3 f_equal.
  cbn [app fmap list_fmap]. f_equal. unfold candidate, lease_key, queue_key, job_ready_key. apply lease_of_Some in Hx as Hs.
  destruct Hs as [Hs _]. rewrite (bool_decide_true (jb_status j = Leased)) by done. by rewrite Hx, Hjq.
Qed.

(** ** Claiming and requeueing the candidates *)

Definition lease_removal j (ws : list BatchWrite) : list BatchWrite :=
  if bool_decide (jb_status j = Leased) then batch_remove ws "lease_jobs" (lease_key j) else ws.

Definition claim_batch (ack : bool) now (options : QueueClaimOptions) q (ws : list BatchWrite) j : list BatchWrite :=
  let j' := set_batch_leased ack now options j in
  let ws := batch_insert (batch_remove (lease_removal j ws) "ready_jobs" (job_ready_key raw_codec j)) "queue_jobs" (queue_key j) (json_text j') in
  if ack then ws else batch_insert ws "lease_jobs" (make_lease_key raw_codec q (claim_expires now options) (jb_id j)) (queue_id_text (jb_id j)).

Lemma set_batch_leased_fields ack now options j :
  let j' := set_batch_leased ack now options j in
  jb_queue j' = jb_queue j /\ jb_id j' = jb_id j /\ jb_lease_expires_at_ms j' = Some (claim_expires now options) /\
  jb_status j' <> Ready /\ lease_of j' = if ack then None else Some (claim_expires now options).
Proof. by destruct ack. Qed.

Lemma set_batch_leased_ok i j ack now options :
  in_expiry now -> lease_ms_ok options -> job_ok i j -> job_ok i (set_batch_leased ack now options j).
Proof.
  intros Hnow Hms [Hw Hn Hq Hcr Hl]. pose proof (claim_expires_ok now options Hnow Hms) as Hx.
  assert (Hi : forall z, in_expiry z -> in_i64 z) by (unfold in_expiry, in_i64, I64_MIN, I64_MAX; lia).
  split; [|destruct ack; done..|].
  - destruct Hw. destruct ack; split; cbn; auto using saturating_attempts.
  - intros x. destruct (set_batch_leased_fields ack now options j) as (_&_&_&_&->). destruct ack; [done|]. by intros [= <-].
Qed.

(** A candidate: ready, or leased until an expiry. *)
Definition candidate_of J q j : Prop :=
  J !! (q, jb_id j) = Some j /\ jb_queue j = q /\ (jb_status j = Ready \/ exists x, lease_of j = Some x).

(** The effect of one claimed candidate. *)
Lemma claim_batch_transition V J q ack now options j :
  stored V J -> candidate_of J q j ->
  transition_view (J !! (q, jb_id j)) (set_batch_leased ack now options j) V (fun n => apply_writes n (claim_batch ack now options q [] j) (V n)).
Proof.
  intros Hst (Hj&Hq&Hcase). destruct (set_batch_leased_fields ack now options j) as (Hq'&Hid'&_&Hs'&Hl').
  set (j' := set_batch_leased ack now options j) in *.
  assert (Hrd : delete (job_ready_key raw_codec j) (V "ready_jobs") = drop_entry ready_index (Some j) (V "ready_jobs")).
  { unfold drop_entry. cbn [mbind option_bind]. destruct Hcase as [Hs|[x Hx]].
    - unfold ready_index. by rewrite bool_decide_true.
    - apply lease_of_Some in Hx as [Hs _]. unfold ready_index. rewrite bool_decide_false by congruence. apply delete_id.
      eapply (indexed_absent ready_index job_ok ready_index_inj _ J (q, jb_id j) (release_lease j));
        [by apply (st_ok _ _ Hst)|by apply (st_ready _ _ Hst)| |by apply ready_index_Some|].
      { by apply release_lease_ok, (st_ok _ _ Hst). }
      rewrite Hj. cbn. unfold ready_index. by rewrite bool_decide_false by congruence. }
  rewrite Hj. unfold transition_view. rewrite <-Hrd. unfold drop_entry, add_entry. cbn [mbind option_bind].
  unfold lease_index. rewrite Hl'. unfold ready_index. rewrite bool_decide_false by done. unfold record_entry, claim_batch, lease_removal, lease_key, queue_key.
  fold j'. rewrite Hq', Hid', Hq. destruct Hcase as [Hs|[x Hx]].
  - assert (Hl0 : lease_of j = None) by (unfold lease_of; rewrite bool_decide_false; congruence).
    rewrite Hl0, bool_decide_false by congruence. destruct ack; cbn [fmap option_fmap option_map]; writes_simpl; by rewrite ?insert_delete_eq.
  - pose proof Hx as [Hs _]%lease_of_Some. rewrite Hx, bool_decide_true by done.
    destruct ack; cbn [fmap option_fmap option_map default]; writes_simpl; by rewrite ?insert_delete_eq.
Qed.
(** *** Claiming several candidates *)

Definition claim_jobs (ack : bool) now (options : QueueClaimOptions) J (cs : list QueueJob) : Jobs :=
  foldl (fun J j => <[(jb_queue j, jb_id j) := set_batch_leased ack now options j]> J) J cs.
Definition claim_view (ack : bool) now (options : QueueClaimOptions) q V (cs : list QueueJob) (n : string) : bmap bytes :=
  foldl (fun m j => apply_writes n (claim_batch ack now options q [] j) m) (V n) cs.
Definition expiries (cs : list QueueJob) : list Z := omap lease_of cs.
Definition new_expiries (ack : bool) now (options : QueueClaimOptions) (cs : list QueueJob) : list Z :=
  if ack then [] else (fun _ => claim_expires now options) <$> cs.

Lemma apply_claim_batch n ack now options q ws j m :
  apply_writes n (claim_batch ack now options q ws j) m = apply_writes n (claim_batch ack now options q [] j) (apply_writes n ws m).
Proof. unfold claim_batch, lease_removal. destruct ack; case_bool_decide; rewrite ?apply_insert, ?apply_remove, ?apply_insert, ?apply_remove; done. Qed.

Lemma apply_claim_batches n ack now options q cs ws m :
  apply_writes n (foldl (claim_batch ack now options q) ws cs) m =
  foldl (fun m j => apply_writes n (claim_batch ack now options q [] j) m) (apply_writes n ws m) cs.
Proof. revert ws. induction cs as [|j cs IH]; intros ws; cbn [foldl]; [done|]. by rewrite IH, apply_claim_batch. Qed.

Lemma claim_batches_ok ack now options q cs ws : Forall write_ok ws -> Forall write_ok (foldl (claim_batch ack now options q) ws cs).
Proof.
  destruct queue_keyspaces_valid as (Hv1&Hv2&Hv3). revert ws. induction cs as [|j cs IH]; intros ws Hws; cbn [foldl]; [done|].
  apply IH. unfold claim_batch, lease_removal, lease_key, queue_key, job_ready_key. case_bool_decide; destruct ack; writes_ok.
Qed.

Lemma list_ms_cons x l : list_ms (x :: l) = {[+ x +]} ⊎ list_ms l.
Proof. done. Qed.
Lemma list_ms_app l k : list_ms (l ++ k) = list_ms l ⊎ list_ms k.
Proof. induction l as [|x l IH]; cbn [app]; [change (list_ms []) with (∅ : gmultiset Z); multiset_solver|]. rewrite !list_ms_cons, IH. multiset_solver. Qed.
Lemma expiries_cons j cs : list_ms (expiries (j :: cs)) = option_ms (lease_of j) ⊎ list_ms (expiries cs).
Proof. unfold expiries. cbn. destruct (lease_of j); [done|]. cbn [option_ms]. multiset_solver. Qed.

Lemma multiset_move (L L' o E X N : gmultiset Z) :
  L' ⊎ E = ((L ∖ o) ⊎ X) ⊎ N -> o ⊆ L -> L' ⊎ (o ⊎ E) = L ⊎ (X ⊎ N).
Proof.
  intros Heq Hsub. rewrite (gmultiset_disj_union_difference o L Hsub) at 1. multiset_solver.
Qed.

Lemma claim_fold V J q ack now options cs :
  stored V J -> no_nul q -> in_expiry now -> lease_ms_ok options -> NoDup (jb_id <$> cs) -> Forall (candidate_of J q) cs ->
  let J' := claim_jobs ack now options J cs in
  let V' := claim_view ack now options q V cs in
  stored V' J' /\
  (forall q', q' <> q -> lease_set J' q' = lease_set J q') /\
  lease_set J' q ⊎ list_ms (expiries cs) = lease_set J q ⊎ list_ms (new_expiries ack now options cs) /\
  size J' = size J /\
  (forall q', no_nul q' -> q' <> q -> ready_entries V' q' = ready_entries V q') /\
  ready_entries V' q = List.filter (fun x => bool_decide (x.1 ∉ (job_ready_key raw_codec <$> cs))) (ready_entries V q).
Proof.
  intros Hst Hq Hnow Hms. revert V J Hst. induction cs as [|j cs IH]; intros V J Hst Hnd Hall; cbv zeta.
  { unfold new_expiries. cbn. split_and!; try done.
    - by destruct ack.
    - symmetry. apply filter_all. intros x _. by apply bool_decide_eq_true, not_elem_of_nil. }
  apply Forall_cons in Hall as [Hc Hall]. rewrite fmap_cons in Hnd. apply NoDup_cons in Hnd as [Hnin Hnd].
  pose proof (claim_batch_transition V J q ack now options j Hst Hc) as Htv. pose proof Hc as (Hj&Hjq&Hcase).
  destruct (set_batch_leased_fields ack now options j) as (Hq'&Hid'&_&Hs'&Hl').
  assert (Hok : job_ok (q, jb_id j) (set_batch_leased ack now options j)) by (apply set_batch_leased_ok; [done..|by apply (st_ok _ _ Hst)]).
  set (V1 := fun n => apply_writes n (claim_batch ack now options q [] j) (V n)) in *.
  set (J1 := <[(q, jb_id j) := set_batch_leased ack now options j]> J).
  assert (Hst1 : stored V1 J1) by (by eapply stored_transition).
  assert (Hall1 : Forall (candidate_of J1 q) cs).
  { rewrite Forall_forall in Hall |- *. intros j' Hj'. destruct (Hall j' Hj') as (Hj1&Hq1&Hx1). split_and!; [|done..].
    unfold J1. rewrite lookup_insert_ne; [done|]. intros [= Heq]. apply Hnin. rewrite Heq. by apply list_elem_of_fmap_2. }
  destruct (IH V1 J1 Hst1 Hnd Hall1) as (H1&H2&H3&H5&H6&H7).
  assert (HJ : claim_jobs ack now options J (j :: cs) = claim_jobs ack now options J1 cs) by (unfold claim_jobs, J1; cbn [foldl]; by rewrite Hjq).
  rewrite HJ. change (claim_view ack now options q V (j :: cs)) with (claim_view ack now options q V1 cs).
  assert (Hset : forall p, lease_set J1 p = (lease_set J p ∖ option_ms (lease_in p j)) ⊎ option_ms (lease_in p (set_batch_leased ack now options j))
      /\ option_ms (lease_in p j) ⊆ lease_set J p) by (intros p; by apply lease_set_update).
  split_and!; [done|..].
  - intros q' Hne. rewrite H2 by done. destruct (Hset q') as [-> _]. rewrite !lease_in_queue by congruence. cbn [option_ms]. multiset_solver.
  - destruct (Hset q) as [Hs1 Hs2]. unfold lease_in in Hs1, Hs2. rewrite (bool_decide_true (jb_queue j = q)) in Hs1, Hs2 by done.
    rewrite (bool_decide_true (jb_queue (set_batch_leased _ _ _ _) = q)), Hl' in Hs1 by congruence.
    rewrite expiries_cons. unfold new_expiries in *. rewrite fmap_cons. rewrite Hs1 in H3.
    rewrite (multiset_move _ _ _ _ _ _ H3 Hs2). destruct ack; cbn [option_ms]; [by rewrite (left_id_L ∅ (⊎))|]. by rewrite list_ms_cons.
  - rewrite H5. unfold J1. by rewrite map_size_insert_Some by (by eexists).
  - intros q' Hn Hne. rewrite H6 by done. eapply (ready_entries_other V V1 J (set_batch_leased ack now options j)).
    + by rewrite Hq', Hid', Hjq.
    + done.
    + by rewrite Hq', Hid', Hjq.
    + done.
    + congruence.
  - rewrite H7. unfold ready_entries. assert (Hrd : V1 "ready_jobs" = delete (job_ready_key raw_codec j) (V "ready_jobs")).
    { unfold V1, claim_batch, lease_removal. destruct ack; case_bool_decide; by writes_simpl. }
    rewrite Hrd, prefix_entries_delete, filter_filter. apply filter_ext_in. intros x _. rewrite fmap_cons.
    rewrite <-bool_decide_and. apply bool_decide_ext. rewrite not_elem_of_cons. tauto.
Qed.

(** *** The fold over the candidates *)

Lemma candidate_lease J q j :
  candidate_of J q j -> (if bool_decide (jb_status j = Leased) then Some (lease_key j) else None) = (fun _ => lease_key j) <$> lease_of j.
Proof.
  intros (_&_&[Hs|[x Hx]]).
  - unfold lease_of. by rewrite bool_decide_false by congruence.
  - rewrite Hx. apply lease_of_Some in Hx as [Hs _]. by rewrite bool_decide_true.
Qed.

Lemma lease_expiries J q j :
  candidate_of J q j -> bool_decide (jb_status j = Leased) = true ->
  match jb_lease_expires_at_ms j with Some x => [x] | None => [] end = expiries [j] /\ zlen (expiries [j]) = 1.
Proof.
  intros (_&_&[Hs|[x Hx]]) Hl; apply bool_decide_eq_true in Hl; [congruence|]. unfold expiries. cbn. rewrite Hx.
  by apply lease_of_Some in Hx as [_ ->].
Qed.

Lemma ready_expiries j : bool_decide (jb_status j = Leased) = false -> expiries [j] = [].
Proof. intros Hl. unfold expiries, lease_of. cbn. by rewrite Hl. Qed.

Lemma expiries_app cs cs' : expiries (cs ++ cs') = expiries cs ++ expiries cs'.
Proof. unfold expiries. induction cs as [|j cs IH]; [done|]. cbn. destruct (lease_of j); cbn; by rewrite IH. Qed.

Lemma expiries_length cs : zlen (expiries cs) <= zlen cs.
Proof. unfold expiries. induction cs as [|j cs IH]; cbn [omap list_omap length]; [lia|]. destruct (lease_of j); cbn [length]; lia. Qed.

(** The state of the fold after claiming [claimed] and requeueing [back]. *)
Definition fold_state (ack : bool) now (options : QueueClaimOptions) q (claimed back : list QueueJob) (ops : Z) : ClaimFold :=
  mkClaimFold (foldl release_batch (foldl (claim_batch ack now options q) [] claimed) back) ops
    (zlen (expiries (claimed ++ back))) (zlen (new_expiries ack now options claimed))
    (expiries (claimed ++ back)) (new_expiries ack now options claimed)
    (set_batch_leased ack now options <$> claimed) (ready_pair <$> back).

Lemma claim_candidate_claims J q options now limit ack claimed ops j :
  candidate_of J q j -> job_ok (q, jb_id j) j -> in_expiry now -> lease_ms_ok options -> 0 <= ops ->
  zlen claimed < limit -> zlen claimed < U64_MAX ->
  exists ops', 0 < ops' /\
    claim_candidate raw_codec q options now limit ack (fold_state ack now options q claimed [] ops) (candidate j)
    = Ok (fold_state ack now options q (claimed ++ [j]) [] ops').
Proof.
  intros Hc Hok Hnow Hms Hops Hlim Hmax. pose proof (set_batch_leased_ok _ _ ack now options Hnow Hms Hok) as Hok'.
  destruct (set_batch_leased_fields ack now options j) as (Hq'&Hid'&Hx'&_&_).
  pose proof (expiries_length claimed) as Hexp.
  assert (Hnew : zlen (new_expiries ack now options claimed) <= zlen claimed)
    by (unfold new_expiries; destruct ack; [cbn; lia|rewrite length_fmap; lia]).
  unfold claim_candidate, candidate, fold_state. rewrite !app_nil_r. cbn [foldl fmap list_fmap].
  assert (Hbatch : foldl (claim_batch ack now options q) [] (claimed ++ [j])
     = claim_batch ack now options q (foldl (claim_batch ack now options q) [] claimed) j) by (by rewrite foldl_app).
  rewrite Hbatch, expiries_app, fmap_app, length_app. set (ws := foldl (claim_batch ack now options q) [] claimed).
  unfold claim_batch, lease_removal. clear Hbatch.
  assert (Hcomp : forall st, cf_completed st = set_batch_leased ack now options <$> claimed -> zlen (cf_completed st) <? limit = true).
  { intros st ->. rewrite length_fmap. lia. }
  assert (Hnewapp : new_expiries ack now options (claimed ++ [j]) = new_expiries ack now options claimed ++ (if ack then [] else [claim_expires now options])).
  { unfold new_expiries. destruct ack; [done|]. by rewrite fmap_app. }
  destruct (bool_decide (jb_status j = Leased)) eqn:Hl.
  - destruct (lease_expiries J q j Hc Hl) as [He1 He2]. unfold drop_expired. rewrite Hcomp by done. rewrite serialize_raw by apply Hok'. rewrite bind_Ok, Hx'.
    cbn [cf_batch cf_operations cf_removed cf_added cf_expirations_removed cf_expirations_added cf_completed cf_requeued default].
    rewrite He1, Hnewapp, length_app. unfold u64_saturating_add. destruct ack; cbn [length].
    + eexists. split; [|f_equal; f_equal; rewrite ?app_nil_r; (reflexivity || lia)]. lia.
    + rewrite Hid', encode_queue_id_raw, bind_Ok. eexists. split; [|f_equal; f_equal; (reflexivity || lia)]. lia.
  - rewrite (ready_expiries j Hl), app_nil_r. rewrite Hcomp by done. rewrite serialize_raw by apply Hok'. rewrite bind_Ok, Hx'.
    cbn [cf_batch cf_operations cf_removed cf_added cf_expirations_removed cf_expirations_added cf_completed cf_requeued default].
    rewrite Hnewapp, length_app. unfold u64_saturating_add. destruct ack; cbn [length].
    + eexists. split; [|f_equal; f_equal; rewrite ?app_nil_r; (reflexivity || lia)]. lia.
    + rewrite Hid', encode_queue_id_raw, bind_Ok. eexists. split; [|f_equal; f_equal; (reflexivity || lia)]. lia.
Qed.

Lemma candidate_requeues J q options now limit ack claimed back ops j :
  candidate_of J q j -> job_ok (q, jb_id j) j -> 0 < ops -> limit <= zlen claimed -> zlen (expiries (claimed ++ back)) < U64_MAX ->
  exists ops', 0 < ops' /\
    claim_candidate raw_codec q options now limit ack (fold_state ack now options q claimed back ops) (candidate j)
    = Ok (fold_state ack now options q claimed (back ++ List.filter (fun j => bool_decide (jb_status j = Leased)) [j]) ops').
Proof.
  intros Hc Hok Hops Hlim Hmax. destruct (release_lease_ok _ _ Hok) as [Hok' _].
  unfold claim_candidate, candidate, fold_state.
  assert (Hcomp : forall st, cf_completed st = set_batch_leased ack now options <$> claimed -> zlen (cf_completed st) <? limit = false).
  { intros st ->. rewrite length_fmap. lia. }
  cbn [List.filter]. destruct (bool_decide (jb_status j = Leased)) eqn:Hl.
  - destruct (lease_expiries J q j Hc Hl) as [He1 He2]. unfold drop_expired. rewrite Hcomp, bool_decide_true by done. rewrite serialize_raw by apply Hok'.
    rewrite bind_Ok. change (jb_id (release_lease j)) with (jb_id j). rewrite encode_queue_id_raw, bind_Ok.
    cbn [cf_batch cf_operations cf_removed cf_added cf_expirations_removed cf_expirations_added cf_completed cf_requeued].
    rewrite He1, app_assoc, (expiries_app (claimed ++ back)), length_app, fmap_app, foldl_app. unfold u64_saturating_add. cbn [foldl].
    eexists. split; [|f_equal; f_equal; (reflexivity || lia)]. lia.
  - rewrite Hcomp by done. rewrite bool_decide_false by (by intros [? ?]). rewrite app_nil_r. by exists ops.
Qed.

Lemma claim_candidates_fold J q options now limit ack cs claimed ops :
  Forall (candidate_of J q) cs -> Forall (fun j => job_ok (q, jb_id j) j) cs -> in_expiry now -> lease_ms_ok options -> 0 <= ops ->
  zlen claimed + zlen cs <= limit -> zlen claimed + zlen cs <= U64_MAX ->
  exists ops', 0 <= ops' /\ (cs <> [] -> 0 < ops') /\ (cs = [] -> ops' = ops) /\
    fold_res (claim_candidate raw_codec q options now limit ack) (fold_state ack now options q claimed [] ops) (candidate <$> cs)
    = Ok (fold_state ack now options q (claimed ++ cs) [] ops').
Proof.
  intros Hcs Hoks Hnow Hms. revert claimed ops. induction Hcs as [|j cs Hc Hcs IH]; intros claimed ops Hops Hlim Hmax.
  { exists ops. by rewrite app_nil_r. }
  apply Forall_cons in Hoks as [Hok Hoks]. cbn [length] in *. rewrite fmap_cons. cbn [fold_res].
  destruct (claim_candidate_claims J q options now limit ack claimed ops j Hc Hok Hnow Hms) as (ops1&Hops1&->); [lia..|].
  rewrite bind_Ok. destruct (IH Hoks (claimed ++ [j]) ops1) as (ops2&?&Hne&He&->); [lia|rewrite length_app; cbn [length]; lia..|].
  exists ops2. rewrite <-app_assoc. split_and!; [lia| |done|done]. intros _. destruct cs; [rewrite He by done; lia|by apply Hne].
Qed.

Lemma requeue_candidates_fold J q options now limit ack cs claimed back ops :
  Forall (candidate_of J q) cs -> Forall (fun j => job_ok (q, jb_id j) j) cs -> 0 < ops -> limit <= zlen claimed ->
  zlen (expiries (claimed ++ back)) + zlen cs <= U64_MAX ->
  exists ops', 0 < ops' /\
    fold_res (claim_candidate raw_codec q options now limit ack) (fold_state ack now options q claimed back ops) (candidate <$> cs)
    = Ok (fold_state ack now options q claimed (back ++ List.filter (fun j => bool_decide (jb_status j = Leased)) cs) ops').
Proof.
  intros Hcs Hoks. revert back ops. induction Hcs as [|j cs Hc Hcs IH]; intros back ops Hops Hlim Hmax.
  { exists ops. by rewrite app_nil_r. }
  apply Forall_cons in Hoks as [Hok Hoks]. cbn [length] in *. rewrite fmap_cons. cbn [fold_res].
  destruct (candidate_requeues J q options now limit ack claimed back ops j Hc Hok) as (ops1&Hops1&->); [lia..|].
  rewrite bind_Ok. destruct (IH Hoks (back ++ List.filter (fun j => bool_decide (jb_status j = Leased)) [j]) ops1) as (ops2&?&->); [lia..| |].
  - rewrite app_assoc, expiries_app, length_app. cbn [List.filter].
    assert (Hle : zlen (expiries (if bool_decide (jb_status j = Leased) then [j] else [])) <= 1).
    { case_bool_decide; [|done]. unfold expiries. cbn. destruct (lease_of j); cbn; lia. }
    lia.
  - exists ops2. split; [done|]. rewrite <-app_assoc. cbn [List.filter app]. by destruct (bool_decide _).
Qed.

(** *** Sorting *)

Definition ready_key_cmp (a b : QueueJob) : comparison := key_cmp (job_ready_key raw_codec a) (job_ready_key raw_codec b).

Lemma sort_by_fmap {A B} (f : A -> B) (cmp : B -> B -> comparison) (cmp' : A -> A -> comparison) l :
  (forall x y, cmp (f x) (f y) = cmp' x y) -> sort_by cmp (f <$> l) = f <$> sort_by cmp' l.
Proof.
  intros Hf. assert (Hins : forall x l, insert_by cmp (f x) (f <$> l) = f <$> insert_by cmp' x l).
  { intros x k. induction k as [|y k IH]; [done|]. rewrite fmap_cons. cbn [insert_by]. rewrite Hf, IH. by destruct (cmp' x y). }
  induction l as [|x l IH]; [done|]. rewrite fmap_cons. change (insert_by cmp (f x) (sort_by cmp (f <$> l)) = f <$> insert_by cmp' x (sort_by cmp' l)).
  by rewrite IH, Hins.
Qed.

(** *** The scan of the ready index *)

Lemma scan_cut_Some now limit n js l r :
  n < limit -> scan_cut now limit n js = Some (l, r) -> js = l ++ r /\ n + claim_count now l = limit /\ l <> [].
Proof.
  revert n l r. induction js as [|j js IH]; intros n l r Hn; cbn [scan_cut]; [done|]. unfold claim_count.
  destruct (claimable now j) eqn:Hc; cbn [andb].
  - destruct (Z.leb_spec limit (n + 1)).
    + intros [= <- <-]. cbn. rewrite Hc. cbn. split_and!; [done|lia|done].
    + destruct (scan_cut now limit (n + 1) js) as [[l1 r1]|] eqn:Hs; [|done]. intros [= <- <-].
      apply IH in Hs as (->&Hs&_); [|lia]. unfold claim_count in Hs. cbn [List.filter]. rewrite Hc. cbn [length]. split_and!; [done|lia|done].
  - destruct (scan_cut now limit n js) as [[l1 r1]|] eqn:Hs; [|done]. intros [= <- <-].
    apply IH in Hs as (->&Hs&_); [|lia]. unfold claim_count in Hs. cbn [List.filter]. rewrite Hc. split_and!; [done|lia|done].
Qed.

Lemma scan_cut_None now limit n js : n < limit -> scan_cut now limit n js = None -> n + claim_count now js < limit.
Proof.
  revert n. unfold claim_count. induction js as [|j js IH]; intros n Hn; cbn [scan_cut]; [cbn; lia|]. cbn [List.filter].
  destruct (claimable now j) eqn:Hc; cbn [andb].
  - destruct (Z.leb_spec limit (n + 1)); [done|]. destruct (scan_cut now limit (n + 1) js) as [[]|] eqn:Hs; [done|]. intros _.
    apply IH in Hs; [|lia]. cbn [length]. lia.
  - destruct (scan_cut now limit n js) as [[]|] eqn:Hs; [done|]. intros _. by apply IH in Hs.
Qed.

Lemma scan_rest now st js :
  let st' := foldl (scan_entry now) st js in
  rs_batch st' = rs_batch st /\ rs_operations st' = rs_operations st /\ rs_next st' = rs_next st /\
  rs_delayed st' = match rs_delayed st with Some d => Some d | None => ready_pair <$> head (List.filter (fun j => negb (claimable now j)) js) end.
Proof.
  revert st. induction js as [|j js IH]; intros st; cbv zeta; cbn [foldl List.filter head fmap option_fmap option_map]; [by destruct (rs_delayed st)|].
  destruct (IH (scan_entry now st j)) as (->&->&->&->). unfold scan_entry. destruct (claimable now j); cbn; [done|].
  by destruct (rs_delayed st).
Qed.

(** The scan reads the claimable jobs up to the limit; the cursor it leaves is the first job it did not take. *)
Lemma batch_scan_spec e J q now limit (L : list QueueJob) :
  queue_inv e J -> name_ok q -> 0 < limit -> ready_entries (kv_view (pe_db e)) q = ready_pair <$> L -> ready_list J q L ->
  exists l r reached st, L = l ++ r /\ claim_count now l <= limit /\ (r <> [] -> claim_count now l = limit) /\
    ready_scan_loop (S (scan_fuel e "ready_jobs")) e q now limit
      (match pe_queue_ready_cursors e !! q with Some cursor => cursor | None => None end) (mkReadyScan [] 0 [] None None None) = Ok (reached, st) /\
    rs_batch st = [] /\ rs_operations st = 0 /\ rs_candidates st = candidate <$> List.filter (claimable now) l /\
    rs_delayed st = ready_pair <$> head (List.filter (fun j => negb (claimable now j)) l) /\
    (if (limit <=? zlen (rs_candidates st)) && bool_decide (rs_next st = None) && negb reached
     then storage_error (first_prefix_after (pe_db e) "ready_jobs" (make_ready_prefix raw_codec q) (rs_after st))
     else Ok (rs_next st)) = Ok (ready_pair <$> head r).
Proof.
  intros Hinv Hq Hlim Hent Hall. pose proof Hinv as [Hc Hkv Hst _ Hcur _]. destruct queue_keyspaces_valid as (_&Hv2&_).
  assert (Hfuel : (length L < S (scan_fuel e "ready_jobs"))%nat).
  { pose proof (scan_fuel_enough e "ready_jobs" (make_ready_prefix raw_codec q) Hkv Hv2) as Hlt.
    change (entries_of (pe_db e) "ready_jobs" (make_ready_prefix raw_codec q)) with (ready_entries (kv_view (pe_db e)) q) in Hlt.
    rewrite Hent, length_fmap in Hlt. lia. }
  set (cached := match pe_queue_ready_cursors e !! q with Some cursor => cursor | None => None end).
  assert (Hcached : match cached with Some x => ([] : list QueueJob) = [] /\ head (ready_pair <$> L) = Some x | None => True end).
  { unfold cached. destruct (pe_queue_ready_cursors e !! q) as [[x|]|] eqn:Hlook; [|done..]. split; [done|].
    rewrite <-Hent. symmetry. by apply (Hcur q). }
  set (st0 := mkReadyScan [] 0 [] None None None).
  pose proof (ready_scan_loop_spec e J q now limit L [] (S (scan_fuel e "ready_jobs")) cached st0 Hinv Hq Hlim Hent Hall Hcached eq_refl Hfuel) as Hloop.
  change (zlen (rs_candidates st0)) with 0 in Hloop. destruct (scan_cut now limit 0 L) as [[l r]|] eqn:Hcut.
  - apply scan_cut_Some in Hcut as (->&Hcount&Hne); [|lia]. destruct Hloop as (next&Hnext&Hloop).
    destruct (scan_rest now st0 l) as (H1&H2&H3&H4). eexists l, r, false, _. split_and!; [done|lia|lia|exact Hloop|done..| | |]; cbn [rs_candidates rs_after rs_delayed rs_next].
    + by rewrite scan_candidates.
    + by rewrite H4.
    + rewrite scan_candidates. cbn [app rs_candidates st0]. rewrite length_fmap. unfold claim_count in Hcount.
      destruct (Z.leb_spec limit (zlen (List.filter (claimable now) l))); [|lia]. rewrite andb_true_r. cbn [andb].
      case_bool_decide as Hn; [|destruct Hnext; [done|by f_equal]]. rewrite scan_after_key.
      destruct (last l) as [jl|] eqn:Hl; [|by apply last_None in Hl].
      rewrite fmap_app in Hent. assert (Hlast : Some (job_ready_key raw_codec jl) = fst <$> last (ready_pair <$> l)) by (by rewrite fmap_last, Hl).
      rewrite Hlast. rewrite (next_entry (pe_db e) "ready_jobs" _ _ (ready_pair <$> r) Hkv Hv2 Hent). cbn [storage_error]. by destruct r.
  - apply scan_cut_None in Hcut; [|lia]. destruct (scan_rest now st0 L) as (H1&H2&H3&H4).
    eexists L, [], true, _. rewrite app_nil_r. split_and!; [done|lia|done|exact Hloop|done..| |by rewrite H4|].
    + by rewrite scan_candidates.
    + rewrite andb_false_r, H3. done.
Qed.
End batch_claim.
