(* ===== verification/PQueueClaimMany.v ===== *)
(** * thingd: what a batch claim promises

    [claim_batch_atomic] claims the first [limit] eligible jobs in claim order, an
    expired lease counting as eligible, and releases the expired leases it does not
    claim.  The records, the indexes and the lease counters stay exact.  The ready
    cursor of the queue stays exact unless a full batch took an expired lease. *)

From stdpp Require Import gmultiset.
From S2P Require Import Prelude Wal Table Layer Database ThingDb Keyspace RamScan Model Queue Storage Persistent PSample PStore PQueue PQueueSpec PQueueClaim PQueueOpen PQueueBatch PQueueClaimBatch.

Section claim_many.
Context `{KvLaws D} `{!Serde QueueJob job_wt} `{!Serde string is_str}.
Implicit Types (e : PersistentEngine D) (J : Jobs) (j : QueueJob) (q : string) (V : string -> bmap bytes) (now limit : Z).

(** ** The invariant but for one cursor *)

Record queue_inv_but q0 e J : Prop := {
  qb_codec : pe_codec e = raw_codec;
  qb_kv : kv_ok (pe_db e);
  qb_stored : stored (kv_view (pe_db e)) J;
  qb_leases : leases_repr e (lease_set J);
  qb_cursors : forall q c, name_ok q -> q <> q0 -> pe_queue_ready_cursors e !! q = Some c ->
    c = head (ready_entries (kv_view (pe_db e)) q);
  qb_size : Z.of_nat (size J) <= U64_MAX;
}.

Lemma queue_inv_but_full q e J c :
  queue_inv_but q e J -> pe_queue_ready_cursors e !! q = Some c -> c = head (ready_entries (kv_view (pe_db e)) q) -> queue_inv e J.
Proof.
  intros [H1 H2 H3 H4 H5 H6] Hc Hhead. split; try done. intros q' c' Hq' Hc'.
  destruct (decide (q' = q)) as [->|Hne]; [congruence|by apply H5].
Qed.

Lemma cursor_lookup e q c q' :
  pe_queue_ready_cursors (set_cursor e q c) !! q' = if decide (q' = q) then Some c else pe_queue_ready_cursors e !! q'.
Proof. cbn. destruct (decide (q' = q)) as [->|]; [apply lookup_insert_eq|by apply lookup_insert_ne]. Qed.

(** ** The jobs that are claimed *)

Definition eligible now q J j : Prop :=
  J !! (q, jb_id j) = Some j /\ jb_queue j = q /\ (claimable now j = true \/ lease_expired now j = true).

(** The first [limit] eligible jobs in claim order. *)
Record claims_first now q J limit (cs : list QueueJob) : Prop := {
  cl_sorted : StronglySorted (fun j j' => job_rank j ≺ job_rank j') cs;
  cl_eligible : Forall (eligible now q J) cs;
  cl_length : zlen cs <= limit;
  cl_first : forall j, eligible now q J j -> j ∉ cs -> zlen cs = limit /\ Forall (fun j' => job_rank j' ≺ job_rank j) cs;
}.

#[local] Instance ready_key_cmp_preorder : CmpPreorder ready_key_cmp := cmp_on_preorder (job_ready_key raw_codec).

Lemma rank_sorted J q (cs : list QueueJob) :
  StronglySorted (fun j j' => ready_key_cmp j j' <> Gt) cs -> NoDup (jb_id <$> cs) ->
  Forall (fun j => job_ok (q, jb_id j) j) cs -> StronglySorted (fun j j' => job_rank j ≺ job_rank j') cs.
Proof.
  induction 1 as [|j cs Hs IH Hall]; [constructor|]. rewrite fmap_cons. intros Hnd Hok.
  apply NoDup_cons in Hnd as [Hnin Hnd]. apply Forall_cons in Hok as [Hj Hok]. constructor; [auto|].
  rewrite Forall_forall in Hall, Hok |- *. intros j' Hj'. destruct Hj as [Hw Hn Hq Hcr _]. destruct (Hok j' Hj') as [Hw' Hn' Hq' Hcr' _].
  injection Hn as Hqj. injection Hn' as Hqj'. specialize (Hall j' Hj').
  destruct (key_lt_total (job_ready_key raw_codec j) (job_ready_key raw_codec j')) as [Hlt|[Heq|Hgt]].
  - unfold job_ready_key in Hlt. rewrite <-Hqj, <-Hqj' in Hlt. apply make_ready_key_order in Hlt; auto using jw_priority.
  - apply make_ready_key_inj in Heq as (_&_&_&Heq); auto using jw_priority. destruct Hnin. rewrite Heq. by apply list_elem_of_fmap_2.
  - unfold key_lt in Hgt. unfold ready_key_cmp in Hall. by rewrite key_cmp_antisym, Hgt in Hall.
Qed.

Lemma sorted_before {A} (R : A -> A -> Prop) (l k : list A) x y : StronglySorted R (l ++ k) -> x ∈ l -> y ∈ k -> R x y.
Proof.
  intros Hs Hx Hy. apply list_elem_of_split in Hx as (l1&l2&->). rewrite <-app_assoc in Hs. cbn [app] in Hs.
  assert (Hs2 : StronglySorted R (x :: l2 ++ k)) by (induction l1; [done|]; apply StronglySorted_inv in Hs as [Hs _]; auto).
  apply StronglySorted_inv in Hs2 as [_ Hall]. rewrite Forall_forall in Hall. apply Hall. apply elem_of_app. by right.
Qed.

(** A list of [n] elements below [j] in a sorted list leaves none of its first [n] elements above [j]. *)
Lemma first_below (cs C : list QueueJob) j n :
  StronglySorted (fun j j' => job_rank j ≺ job_rank j') cs -> NoDup C -> C ⊆ cs -> length C = n ->
  (forall c, c ∈ C -> job_rank c ≺ job_rank j) -> Forall (fun x => job_rank x ≺ job_rank j) (take n cs).
Proof.
  intros Hs Hnd Hsub Hlen Hbelow. apply Forall_forall. intros x Hx.
  destruct (key_lt_total (job_rank x) (job_rank j)) as [?|Hge]; [done|exfalso].
  apply list_elem_of_lookup in Hx as [k Hk]. apply lookup_take_Some in Hk as [Hk Hkn].
  assert (Hin : C ⊆ take k cs).
  { intros c Hc. assert (Hcx : job_rank c ≺ job_rank x).
    { specialize (Hbelow c Hc). destruct Hge as [Heq|Hgt]; [by rewrite Heq|by eapply key_lt_trans]. }
    pose proof (Hsub c Hc) as Hcs. rewrite <-(take_drop_middle cs k x Hk) in Hs, Hcs. rewrite elem_of_app, elem_of_cons in Hcs.
    destruct Hcs as [?|[->|Hd]]; [done|by apply key_lt_irrefl in Hcx|]. exfalso. apply (key_lt_asym _ _ Hcx).
    assert (Hs' : StronglySorted (fun j j' => job_rank j ≺ job_rank j') ((take k cs ++ [x]) ++ drop (S k) cs)) by (by rewrite <-app_assoc).
    apply (sorted_before _ _ _ _ _ Hs'); [set_solver|done]. }
  apply NoDup_submseteq in Hin; [|done]. apply submseteq_length in Hin. rewrite length_take in Hin. lia.
Qed.

(** ** The candidates *)

Lemma take_length_min (cs : list QueueJob) limit : 0 < limit -> zlen (take (Z.to_nat limit) cs) = Z.min limit (zlen cs).
Proof. intros. rewrite length_take. lia. Qed.

Lemma claims_first_candidates J q now limit (l r ex : list QueueJob) :
  let C := List.filter (claimable now) l in
  let cs := sort_by ready_key_cmp (C ++ ex) in
  0 < limit -> (forall i j, J !! i = Some j -> job_ok i j) -> ready_list J q (l ++ r) ->
  StronglySorted (fun j j' => job_rank j ≺ job_rank j') (l ++ r) ->
  (forall j, J !! (q, jb_id j) = Some j -> claimable now j = true -> j ∈ l ++ r) ->
  claim_count now l <= limit -> (r <> [] -> claim_count now l = limit) -> NoDup (jb_id <$> cs) ->
  (forall j, j ∈ ex <-> J !! (q, jb_id j) = Some j /\ jb_queue j = q /\ lease_expired now j = true) ->
  claims_first now q J limit (take (Z.to_nat limit) cs).
Proof.
  intros C cs Hlim Hok Hall HL Hlisted Hcount Hr Hnd Hex. unfold claim_count in Hcount, Hr. fold C in Hcount, Hr.
  assert (Hin : forall j, j ∈ cs <-> j ∈ C \/ j ∈ ex) by (intros j; unfold cs; by rewrite elem_of_sort_by, elem_of_app).
  assert (HC : forall j, j ∈ C <-> j ∈ l /\ claimable now j = true) by (intros j; apply elem_of_filter_bool).
  unfold ready_list in Hall. rewrite Forall_forall in Hall.
  assert (Helig : forall j, j ∈ cs -> eligible now q J j).
  { intros j [Hj|Hj]%Hin; [apply HC in Hj as [Hj Hcl]; destruct (Hall j) as (?&?&_); [set_solver|]|apply Hex in Hj as (?&?&?)];
      split_and!; auto. }
  assert (Hs : StronglySorted (fun j j' => job_rank j ≺ job_rank j') cs).
  { apply (rank_sorted J q); [apply sort_by_sorted; apply ready_key_cmp_preorder|done|].
    apply Forall_forall. intros j Hj. destruct (Helig j Hj) as (HJ&_). by apply Hok. }
  assert (Hlen : zlen cs = zlen C + zlen ex) by (unfold cs; rewrite length_sort_by, length_app; lia).
  split.
  - eapply StronglySorted_sublist; [apply sublist_take|exact Hs].
  - apply Forall_take, Forall_forall. exact Helig.
  - rewrite take_length_min by done. lia.
  - intros j Hj Hnot. rewrite take_length_min by done. destruct (decide (j ∈ cs)) as [Hjcs|Hjcs].
    + rewrite <-(take_drop (Z.to_nat limit) cs), elem_of_app in Hjcs. destruct Hjcs as [?|Hd]; [done|]. split.
      * assert (Hdl : length (drop (Z.to_nat limit) cs) <> 0%nat) by (intros Hz%nil_length_inv; rewrite Hz in Hd; by apply elem_of_nil in Hd).
        rewrite length_drop in Hdl. lia.
      * apply Forall_forall. intros x Hx. rewrite <-(take_drop (Z.to_nat limit) cs) in Hs. by apply (sorted_before _ _ _ _ _ Hs).
    + rewrite Hin in Hjcs. destruct Hj as (HJ&Hjq&Hcase). destruct Hcase as [Hcl|Hx]; [|exfalso; apply Hjcs; right; by apply Hex].
      assert (Hjr : j ∈ r) by (pose proof (Hlisted j HJ Hcl) as [?|?]%elem_of_app; [exfalso; apply Hjcs; left; by apply HC|done]).
      assert (Hne : r <> []) by (intros ->; by apply elem_of_nil in Hjr). specialize (Hr Hne). split; [lia|].
      apply (first_below cs C j); [done| | |lia|].
      * apply NoDup_fmap_1 in Hnd. unfold cs in Hnd. rewrite (sort_by_perm ready_key_cmp (C ++ ex)) in Hnd. by apply NoDup_app in Hnd as [? _].
      * intros c Hc. apply Hin. by left.
      * intros c Hc. apply HC in Hc as [Hc _]. by apply (sorted_before _ _ _ _ _ HL).
Qed.

(** ** Folded updates of the map *)

Definition job_name j : string * string := (jb_queue j, jb_id j).

Lemma lookup_updates_notin (f : QueueJob -> QueueJob) (js : list QueueJob) J i :
  i ∉ (job_name <$> js) -> foldl (fun J j => <[(jb_queue j, jb_id j) := f j]> J) J js !! i = J !! i.
Proof.
  revert J. induction js as [|j js IH]; intros J Hi; cbn [foldl]; [done|]. rewrite fmap_cons in Hi. apply not_elem_of_cons in Hi as [Hne Hi].
  rewrite IH by done. by apply lookup_insert_ne.
Qed.

Lemma lookup_updates_in (f : QueueJob -> QueueJob) (js : list QueueJob) J j :
  NoDup (job_name <$> js) -> j ∈ js -> foldl (fun J j => <[(jb_queue j, jb_id j) := f j]> J) J js !! job_name j = Some (f j).
Proof.
  revert J. induction js as [|j' js IH]; intros J Hnd Hj; [by apply elem_of_nil in Hj|]. rewrite fmap_cons in Hnd.
  apply NoDup_cons in Hnd as [Hnin Hnd]. cbn [foldl]. apply elem_of_cons in Hj as [->|Hj]; [|by apply IH].
  rewrite lookup_updates_notin by done. apply lookup_insert_eq.
Qed.

Lemma job_names_NoDup q (js : list QueueJob) : NoDup (jb_id <$> js) -> NoDup (job_name <$> js).
Proof.
  induction js as [|j js IH]; [constructor|]. rewrite !fmap_cons. intros [Hnin Hnd]%NoDup_cons. constructor; [|auto].
  intros Hin. apply Hnin. apply list_elem_of_fmap in Hin as (j'&[= _ Hid]&Hj'). rewrite Hid. by apply list_elem_of_fmap_2.
Qed.

(** Claiming the first candidates and releasing the other expired leases is releasing every expired lease and then claiming. *)
Lemma claim_then_release J q now ack options (cs1 back ex : list QueueJob) :
  NoDup (jb_id <$> (cs1 ++ back)) -> (forall i j, J !! i = Some j -> i = job_name j) ->
  Forall (fun j => J !! job_name j = Some j) (cs1 ++ back) ->
  (forall j, j ∈ ex <-> J !! (q, jb_id j) = Some j /\ jb_queue j = q /\ lease_expired now j = true) ->
  (forall j, j ∈ ex -> j ∈ cs1 ++ back) -> (forall j, j ∈ back -> j ∈ ex) ->
  release_jobs (claim_jobs ack now options J cs1) back = claim_jobs ack now options (release_all now q J) cs1.
Proof.
  intros Hnd Hname Hall Hex Hcov Hback. apply (job_names_NoDup q) in Hnd. rewrite fmap_app in Hnd. apply NoDup_app in Hnd as (Hnd1&Hdis&Hnd2).
  rewrite Forall_forall in Hall. apply map_eq. intros i. unfold release_jobs, claim_jobs.
  destruct (decide (i ∈ (job_name <$> back))) as [Hi|Hi].
  - apply list_elem_of_fmap in Hi as (j&->&Hj). rewrite lookup_updates_in by done.
    assert (Hn1 : job_name j ∉ (job_name <$> cs1)) by (intros Hin; apply (Hdis _ Hin); by apply list_elem_of_fmap_2).
    rewrite lookup_updates_notin by done. unfold release_all. rewrite lookup_fmap, Hall by set_solver. cbn.
    apply Hback, Hex in Hj as (_&Hq&Hx). unfold release_queue, release_if_expired. by rewrite bool_decide_true, Hx.
  - rewrite lookup_updates_notin by done. destruct (decide (i ∈ (job_name <$> cs1))) as [Hi1|Hi1].
    + apply list_elem_of_fmap in Hi1 as (j&->&Hj). by rewrite !lookup_updates_in by done.
    + rewrite !lookup_updates_notin by done. unfold release_all. rewrite lookup_fmap. destruct (J !! i) as [j|] eqn:Hj; [|done]. cbn. f_equal.
      unfold release_queue, release_if_expired. case_bool_decide as Hq; [|done]. destruct (lease_expired now j) eqn:Hx; [|done].
      pose proof (Hname _ _ Hj) as ->. assert (Hin : j ∈ cs1 ++ back).
      { apply Hcov, Hex. unfold job_name in Hj. by rewrite Hq in Hj. }
      apply elem_of_app in Hin as [Hin|Hin]; apply (list_elem_of_fmap_2 job_name) in Hin; done.
Qed.

(** ** The plan of a batch claim *)

(** The ready jobs up to the limit, the ready jobs after them, and the expired leases. *)
Record plan e J q now limit (l r ex : list QueueJob) : Prop := {
  pl_entries : ready_entries (kv_view (pe_db e)) q = ready_pair <$> (l ++ r);
  pl_ready : ready_list J q (l ++ r);
  pl_sorted : StronglySorted (fun j j' => job_rank j ≺ job_rank j') (l ++ r);
  pl_listed : forall j, J !! (q, jb_id j) = Some j -> claimable now j = true -> j ∈ l ++ r;
  pl_count : claim_count now l <= limit;
  pl_full : r <> [] -> claim_count now l = limit;
  pl_expired : forall j, j ∈ ex <-> J !! (q, jb_id j) = Some j /\ jb_queue j = q /\ lease_expired now j = true;
  pl_leased : Forall (leased_in J q) ex;
  pl_NoDup : NoDup (jb_id <$> (l ++ r));
  pl_NoDup_expired : NoDup (jb_id <$> ex);
}.

Definition plan_candidates now (l ex : list QueueJob) : list QueueJob := sort_by ready_key_cmp (List.filter (claimable now) l ++ ex).
Definition plan_claimed now limit (l ex : list QueueJob) : list QueueJob := take (Z.to_nat limit) (plan_candidates now l ex).
Definition plan_back now limit (l ex : list QueueJob) : list QueueJob :=
  List.filter (fun j => bool_decide (jb_status j = Leased)) (drop (Z.to_nat limit) (plan_candidates now l ex)).

Lemma elem_of_candidates now (l ex : list QueueJob) j : j ∈ plan_candidates now l ex <-> (j ∈ l /\ claimable now j = true) \/ j ∈ ex.
Proof. unfold plan_candidates. rewrite elem_of_sort_by, elem_of_app, elem_of_filter_bool. done. Qed.

Lemma plan_ready_job e J q now limit l r ex j : plan e J q now limit l r ex -> j ∈ l ++ r ->
  J !! (q, jb_id j) = Some j /\ jb_queue j = q /\ jb_status j = Ready.
Proof. intros Hp Hj. pose proof (pl_ready _ _ _ _ _ _ _ _ Hp) as Hall. unfold ready_list in Hall. rewrite Forall_forall in Hall. by apply Hall. Qed.

Lemma plan_leased_job e J q now limit l r ex j : plan e J q now limit l r ex -> j ∈ ex ->
  J !! (q, jb_id j) = Some j /\ jb_queue j = q /\ jb_status j = Leased /\ exists x, lease_of j = Some x.
Proof.
  intros Hp Hj. pose proof (pl_leased _ _ _ _ _ _ _ _ Hp) as Hall. rewrite Forall_forall in Hall. destruct (Hall j Hj) as (?&?&x&Hx).
  split_and!; [done..|by apply lease_of_Some in Hx as []|by exists x].
Qed.

Lemma plan_candidate_of e J q now limit l r ex : plan e J q now limit l r ex -> Forall (candidate_of J q) (plan_candidates now l ex).
Proof.
  intros Hp. apply Forall_forall. intros j [[Hj _]|Hj]%elem_of_candidates.
  - destruct (plan_ready_job _ _ _ _ _ _ _ _ j Hp) as (?&?&?); [set_solver|]. split_and!; auto.
  - destruct (plan_leased_job _ _ _ _ _ _ _ _ j Hp Hj) as (?&?&_&?). split_and!; auto.
Qed.

Lemma plan_NoDup e J q now limit l r ex : plan e J q now limit l r ex -> NoDup (jb_id <$> plan_candidates now l ex).
Proof.
  intros Hp. unfold plan_candidates. rewrite (sort_by_perm ready_key_cmp), fmap_app. apply NoDup_app. split_and!.
  - eapply sublist_NoDup; [apply (pl_NoDup _ _ _ _ _ _ _ _ Hp)|]. apply fmap_sublist.
    etrans; [apply filter_sublist|]. apply sublist_inserts_r. done.
  - intros i Hi Hi'. apply list_elem_of_fmap in Hi as (j&->&[Hj _]%elem_of_filter_bool). apply list_elem_of_fmap in Hi' as (j'&Hid&Hj').
    destruct (plan_ready_job _ _ _ _ _ _ _ _ j Hp) as (HJ&_&Hs); [set_solver|].
    destruct (plan_leased_job _ _ _ _ _ _ _ _ j' Hp Hj') as (HJ'&_&Hs'&_). rewrite Hid in HJ. congruence.
  - apply (pl_NoDup_expired _ _ _ _ _ _ _ _ Hp).
Qed.

Lemma plan_claims_first e J q now limit l r ex :
  queue_inv e J -> 0 < limit -> plan e J q now limit l r ex -> claims_first now q J limit (plan_claimed now limit l ex).
Proof.
  intros Hinv Hlim Hp. pose proof (plan_NoDup _ _ _ _ _ _ _ _ Hp) as Hnd. destruct Hp.
  apply (claims_first_candidates J q now limit l r ex); try done. apply (st_ok _ _ (qi_stored _ _ Hinv)).
Qed.

(** The two loops find a plan. *)
Lemma plan_scan e J q now limit :
  queue_inv e J -> name_ok q -> 0 < limit ->
  exists l r ex reached st, plan e J q now limit l r ex /\
    batch_lease_loop (scan_fuel e "lease_jobs") e q now None (mkBatchScan [] 0 0 [] []) = Ok (mkBatchScan [] 0 0 [] (candidate <$> ex)) /\
    ready_scan_loop (S (scan_fuel e "ready_jobs")) e q now limit
      (match pe_queue_ready_cursors e !! q with Some cursor => cursor | None => None end) (mkReadyScan [] 0 [] None None None) = Ok (reached, st) /\
    rs_batch st = [] /\ rs_operations st = 0 /\ rs_candidates st = candidate <$> List.filter (claimable now) l /\
    rs_delayed st = ready_pair <$> head (List.filter (fun j => negb (claimable now j)) l) /\
    (if (limit <=? zlen (rs_candidates st)) && bool_decide (rs_next st = None) && negb reached
     then storage_error (first_prefix_after (pe_db e) "ready_jobs" (make_ready_prefix raw_codec q) (rs_after st))
     else Ok (rs_next st)) = Ok (ready_pair <$> head r).
Proof.
  intros Hinv Hq Hlim. pose proof Hinv as [Hc Hkv Hst _ _ _].
  destruct (expired_leases e J q now Hinv Hq) as (js&ex&Hjs&Htw&Hnd&Hall&Hex&Hnone).
  destruct (ready_entries_jobs _ J q Hst (proj1 Hq)) as [L HL].
  assert (Hent : ready_entries (kv_view (pe_db e)) q = ready_pair <$> L).
  { clear -HL. induction HL as [|x j l L (_&_&Hf) _ IH]; [done|]. rewrite fmap_cons, IH. apply ready_index_Some in Hf as [_ ->]. done. }
  assert (Hready : ready_list J q L).
  { apply Forall_forall. intros j Hj. apply list_elem_of_lookup in Hj as [n Hn].
    destruct (Forall2_lookup_r _ _ _ _ _ HL Hn) as (x&_&Hj&Hjq&Hf). by apply ready_index_Some in Hf as [? _]. }
  destruct (batch_scan_spec e J q now limit L Hinv Hq Hlim Hent Hready) as (l&r&reached&st&HLr&Hcount&Hfull&Hloop&H1&H2&H3&H4&H5).
  exists l, r, ex, reached, st. split_and!; try done.
  - split; try done; rewrite <-?HLr; try done.
    + by eapply ready_jobs_sorted.
    + intros j HJ Hcl. by apply (ready_job_listed _ J q L j now Hst (proj1 Hq)).
    + by eapply entry_jobs_NoDup; [apply prefix_entries_sorted|exact HL].
  - destruct (queue_has_expired_leases e q now) eqn:Hexp.
    + change None with (fst <$> last ([] : list (bytes * bytes))).
      rewrite (batch_lease_loop_spec e J q now (entries_of (pe_db e) "lease_jobs" (make_lease_prefix raw_codec q)) js []);
        [by rewrite Htw|done..|]. apply scan_fuel_enough; [done|apply queue_keyspaces_valid].
    + rewrite Hnone by done. unfold scan_fuel. cbn [batch_lease_loop]. by rewrite Hexp.
Qed.

(** ** The state after a batch claim *)

Lemma expiries_leased (cs : list QueueJob) :
  Forall (fun j => jb_status j = Leased -> exists x, lease_of j = Some x) cs ->
  expiries cs = (fun j => default 0 (lease_of j)) <$> List.filter (fun j => bool_decide (jb_status j = Leased)) cs.
Proof.
  unfold expiries. induction 1 as [|j cs Hj _ IH]; [done|]. cbn [omap list_omap List.filter]. case_bool_decide as Hs.
  - destruct (Hj Hs) as [x Hx]. rewrite fmap_cons, Hx, IH. done.
  - unfold lease_of at 1. rewrite bool_decide_false by done. exact IH.
Qed.

Lemma multiset_leases (L L1 L2 E1 E2 N : gmultiset Z) :
  L1 ⊎ E1 = L ⊎ N -> L2 = L1 ∖ E2 -> E2 ⊆ L1 -> E1 ⊎ E2 ⊆ L -> L2 = (L ∖ (E1 ⊎ E2)) ⊎ N.
Proof.
  intros H1 -> H3 H4. set (R := L ∖ (E1 ⊎ E2)). assert (HL : L = (E1 ⊎ E2) ⊎ R) by (by apply gmultiset_disj_union_difference).
  clearbody R. subst L. assert (L1 = E2 ⊎ (R ⊎ N)) as ->; multiset_solver.
Qed.

Lemma plan_state e J q now limit l r ex ack options :
  let cs := plan_claimed now limit l ex in
  let back := plan_back now limit l ex in
  let V' := release_view (claim_view ack now options q (kv_view (pe_db e)) cs) back in
  let J' := claim_jobs ack now options (release_all now q J) cs in
  queue_inv e J -> no_nul q -> in_expiry now -> lease_ms_ok options -> 0 < limit -> plan e J q now limit l r ex ->
  stored V' J' /\
  (forall q', q' <> q -> lease_set J' q' = lease_set J q') /\
  lease_set J' q = (lease_set J q ∖ list_ms (expiries (cs ++ back))) ⊎ list_ms (new_expiries ack now options cs) /\
  list_ms (expiries (cs ++ back)) ⊆ lease_set J q /\
  size J' = size J /\
  (forall q', no_nul q' -> q' <> q -> ready_entries V' q' = ready_entries (kv_view (pe_db e)) q') /\
  head (ready_entries V' q) =
    foldl cursor_min (head (List.filter (fun x => bool_decide (x.1 ∉ (job_ready_key raw_codec <$> cs))) (ready_pair <$> (l ++ r)))) (ready_pair <$> back).
Proof.
  intros cs back V' J' Hinv Hq Hnow Hms Hlim Hp. pose proof Hinv as [Hc Hkv Hst _ _ _].
  set (all := plan_candidates now l ex) in *.
  pose proof (plan_NoDup _ _ _ _ _ _ _ _ Hp) as Hnd. pose proof (plan_candidate_of _ _ _ _ _ _ _ _ Hp) as Hcand. fold all in Hnd, Hcand.
  assert (Hall : all = cs ++ drop (Z.to_nat limit) all) by (symmetry; apply take_drop).
  assert (Hsub : sublist (cs ++ back) all) by (rewrite Hall; apply sublist_app; [done|apply filter_sublist]).
  assert (Hnd' : NoDup (jb_id <$> (cs ++ back))) by (eapply sublist_NoDup; [exact Hnd|by apply fmap_sublist]).
  assert (Hcand' : Forall (candidate_of J q) (cs ++ back)) by (by eapply sublist_all).
  pose proof Hnd' as Hnd12. rewrite fmap_app in Hnd12. apply NoDup_app in Hnd12 as (Hnd1&Hdis&Hnd2).
  apply Forall_app in Hcand' as [Hc1 Hc2].
  destruct (claim_fold _ J q ack now options cs Hst Hq Hnow Hms Hnd1 Hc1) as (H1&H2&H3&H5&H6&H7).
  assert (Hback : forall j, j ∈ back -> j ∈ ex).
  { intros j [Hj Hs%bool_decide_eq_true]%elem_of_filter_bool. assert (Hja : j ∈ all) by (rewrite Hall; set_solver).
    apply elem_of_candidates in Hja as [[Hl _]|?]; [|done]. destruct (plan_ready_job _ _ _ _ _ _ _ _ j Hp) as (_&_&?); [set_solver|congruence]. }
  assert (Hl2 : Forall (leased_in (claim_jobs ack now options J cs) q) back).
  { apply Forall_forall. intros j Hj. destruct (plan_leased_job _ _ _ _ _ _ _ _ j Hp (Hback j Hj)) as (HJ&Hjq&_&Hx). split_and!; [|done..].
    unfold claim_jobs. rewrite lookup_updates_notin; [done|]. intros Hin. apply list_elem_of_fmap in Hin as (j'&[= _ Hid]&Hj').
    apply (Hdis (jb_id j)); [rewrite Hid; by apply list_elem_of_fmap_2|by apply list_elem_of_fmap_2]. }
  destruct (release_fold _ _ q back H1 Hnd2 Hl2) as (G1&G2&G3&G4&G5&G6&G7).
  assert (HJ' : release_jobs (claim_jobs ack now options J cs) back = J').
  { apply (claim_then_release _ _ _ _ _ _ _ ex); try done.
    - intros i j Hi. by destruct (st_ok _ _ Hst _ _ Hi).
    - apply Forall_app. split; [eapply Forall_impl; [exact Hc1|]|eapply Forall_impl; [exact Hc2|]]; intros j (HJ&<-&_); done.
    - apply (pl_expired _ _ _ _ _ _ _ _ Hp).
    - intros j Hj. assert (Hja : j ∈ all) by (apply elem_of_candidates; by right). rewrite Hall, elem_of_app in Hja.
      rewrite elem_of_app. destruct Hja as [?|Hd]; [by left|right]. apply elem_of_filter_bool. split; [done|].
      destruct (plan_leased_job _ _ _ _ _ _ _ _ j Hp Hj) as (_&_&?&_). by apply bool_decide_eq_true. }
  rewrite HJ' in *.
  assert (Hleased : forall (ds : list QueueJob), Forall (candidate_of J q) ds -> expiries ds = (fun j => default 0 (lease_of j)) <$> List.filter (fun j => bool_decide (jb_status j = Leased)) ds).
  { intros ds Hds. apply expiries_leased. eapply Forall_impl; [exact Hds|]. intros j (_&_&[Hs|Hx]) ?; [congruence|done]. }
  assert (Hbk : expiries back = (fun j => default 0 (lease_of j)) <$> back).
  { rewrite Hleased by done. f_equal. apply filter_all. intros j Hj. by apply elem_of_filter_bool in Hj as [_ ?]. }
  assert (Hincl : list_ms (expiries (cs ++ back)) ⊆ lease_set J q).
  { rewrite Hleased by (by apply Forall_app). eapply (release_fold _ J q _ Hst).
    - eapply sublist_NoDup; [exact Hnd'|]. apply fmap_sublist, filter_sublist.
    - apply Forall_forall. intros j [Hj Hs%bool_decide_eq_true]%elem_of_filter_bool. pose proof (Forall_app_2 _ _ _ Hc1 Hc2) as Hcc.
      rewrite Forall_forall in Hcc. destruct (Hcc j Hj) as (?&?&[?|?]); [congruence|]. done. }
  split_and!; try done.
  - intros q' Hne. by rewrite G2, H2.
  - rewrite expiries_app, list_ms_app in Hincl |- *. rewrite <-Hbk in G3, G4. by apply (multiset_leases _ _ _ _ _ _ H3 G3 G4 Hincl).
  - by rewrite G5.
  - intros q' Hq' Hne. by rewrite G6, H6.
  - unfold V'. rewrite (G7 Hq), H7, (pl_entries _ _ _ _ _ _ _ _ Hp). done.
Qed.

(** ** The cursor after a batch claim *)

(** No ready job was displaced by an expired lease. *)
Lemma plan_takes_ready e J q now limit l r ex :
  plan e J q now limit l r ex -> 0 < limit ->
  Forall (fun j => jb_status j = Ready) (plan_claimed now limit l ex) \/ zlen (plan_claimed now limit l ex) < limit ->
  List.filter (claimable now) l ⊆ plan_claimed now limit l ex.
Proof.
  intros Hp Hlim Hcase. set (all := plan_candidates now l ex). set (C := List.filter (claimable now) l).
  assert (HCall : C ⊆ all) by (intros j Hj; apply elem_of_candidates; left; by apply elem_of_filter_bool in Hj).
  assert (Hlen : zlen (plan_claimed now limit l ex) = Z.min limit (zlen all)) by (by apply take_length_min).
  destruct (Z.le_gt_cases (zlen all) limit) as [Hle|Hgt].
  { unfold plan_claimed. fold all. rewrite take_ge by lia. done. }
  destruct Hcase as [Hready|?]; [|lia].
  assert (Hsub : plan_claimed now limit l ex ⊆ C).
  { intros j Hj. rewrite Forall_forall in Hready. pose proof (Hready j Hj) as Hs. apply subseteq_take in Hj.
    apply elem_of_candidates in Hj as [?|Hj]; [by apply elem_of_filter_bool|].
    destruct (plan_leased_job _ _ _ _ _ _ _ _ j Hp Hj) as (_&_&?&_). congruence. }
  assert (Hnd : NoDup (plan_claimed now limit l ex)).
  { eapply sublist_NoDup; [|apply sublist_take]. eapply NoDup_fmap_1, plan_NoDup. exact Hp. }
  pose proof (pl_count _ _ _ _ _ _ _ _ Hp) as Hcount. unfold claim_count in Hcount. fold C in Hcount.
  apply NoDup_submseteq in Hsub; [|done]. apply submseteq_length_Permutation in Hsub; [|lia]. intros j Hj. by rewrite Hsub.
Qed.

Lemma plan_cursor e J q now limit l r ex :
  let cs := plan_claimed now limit l ex in
  queue_inv e J -> plan e J q now limit l r ex -> List.filter (claimable now) l ⊆ cs ->
  head (List.filter (fun x => bool_decide (x.1 ∉ (job_ready_key raw_codec <$> cs))) (ready_pair <$> (l ++ r))) =
  match ready_pair <$> head (List.filter (fun j => negb (claimable now j)) l) with Some d => Some d | None => ready_pair <$> head r end.
Proof.
  intros cs Hinv Hp Htake. pose proof (qi_stored _ _ Hinv) as Hst. rewrite filter_fmap, List.filter_app. cbn [ready_pair fst].
  assert (Hinl : forall j, j ∈ l -> j ∈ l ++ r) by (intros; apply elem_of_app; by left).
  assert (Hinr : forall j, j ∈ r -> j ∈ l ++ r) by (intros; apply elem_of_app; by right).
  assert (Hcs : forall j, j ∈ cs -> (j ∈ l /\ claimable now j = true) \/ j ∈ ex)
    by (intros j Hj; by apply elem_of_candidates, (subseteq_take (Z.to_nat limit))).
  assert (Hcsq : forall j, j ∈ cs -> J !! (q, jb_id j) = Some j).
  { intros j [[Hj _]|Hj]%Hcs; [by destruct (plan_ready_job _ _ _ _ _ _ _ _ j Hp (Hinl j Hj))|by destruct (plan_leased_job _ _ _ _ _ _ _ _ j Hp Hj)]. }
  assert (Hkey : forall j, j ∈ l ++ r -> job_ready_key raw_codec j ∈ (job_ready_key raw_codec <$> cs) <-> j ∈ cs).
  { intros j Hj. split; [|apply list_elem_of_fmap_2]. intros Hin. apply list_elem_of_fmap in Hin as (j'&Heq&Hj').
    destruct (plan_ready_job _ _ _ _ _ _ _ _ j Hp Hj) as (HJ&_&_). pose proof (Hcsq j' Hj') as HJ'.
    destruct (st_ok _ _ Hst _ _ HJ) as [Hw _ Hq Hcr _]. destruct (st_ok _ _ Hst _ _ HJ') as [Hw' _ Hq' Hcr' _].
    apply make_ready_key_inj in Heq as (_&_&_&Hid); auto using jw_priority. rewrite Hid in HJ. assert (j = j') as -> by congruence. done. }
  assert (Hnotex : forall j, j ∈ l ++ r -> j ∉ ex).
  { intros j Hj Hx. destruct (plan_ready_job _ _ _ _ _ _ _ _ j Hp Hj) as (_&_&?). destruct (plan_leased_job _ _ _ _ _ _ _ _ j Hp Hx) as (_&_&?&_). congruence. }
  assert (Hl : List.filter (fun j => bool_decide (job_ready_key raw_codec j ∉ (job_ready_key raw_codec <$> cs))) l
             = List.filter (fun j => negb (claimable now j)) l).
  { apply filter_ext_in. intros j Hj. destruct (claimable now j) eqn:Hcl; cbn [negb].
    - apply bool_decide_eq_false. intros Hn. apply Hn, (Hkey j (Hinl j Hj)), Htake. by apply elem_of_filter_bool.
    - apply bool_decide_eq_true. rewrite Hkey by (by apply Hinl). intros [[_ ?]|Hx]%Hcs; [congruence|]. by apply (Hnotex j); [apply Hinl|]. }
  assert (Hr : List.filter (fun j => bool_decide (job_ready_key raw_codec j ∉ (job_ready_key raw_codec <$> cs))) r = r).
  { apply filter_all. intros j Hj. apply bool_decide_eq_true. rewrite Hkey by (by apply Hinr). intros [[Hjl _]|Hx]%Hcs.
    - pose proof (pl_sorted _ _ _ _ _ _ _ _ Hp) as Hs. apply (key_lt_irrefl (job_rank j)). by apply (sorted_before _ _ _ _ _ Hs).
    - by apply (Hnotex j); [apply Hinr|]. }
  cbn [fst] in *. unfold ready_pair at 1. rewrite Hl, Hr. destruct (List.filter (fun j => negb (claimable now j)) l); [by destruct r|done].
Qed.

(** ** The batch claim *)

Lemma plan_fold e J q options now limit ack l r ex :
  queue_inv e J -> plan e J q now limit l r ex -> in_expiry now -> lease_ms_ok options -> 0 < limit ->
  exists ops, (0 < ops \/ (ops = 0 /\ plan_candidates now l ex = [])) /\
    fold_res (claim_candidate raw_codec q options now limit ack) (mkClaimFold [] 0 0 0 [] [] [] [])
      (candidate <$> plan_candidates now l ex)
    = Ok (fold_state ack now options q (plan_claimed now limit l ex) (plan_back now limit l ex) ops).
Proof.
  intros Hinv Hp Hnow Hms Hlim. set (all := plan_candidates now l ex).
  pose proof (plan_candidate_of _ _ _ _ _ _ _ _ Hp) as Hcand. fold all in Hcand.
  assert (Hok : Forall (fun j => job_ok (q, jb_id j) j) all).
  { eapply Forall_impl; [exact Hcand|]. intros j (HJ&_). by apply (st_ok _ _ (qi_stored _ _ Hinv)). }
  assert (Hbound : zlen all <= U64_MAX).
  { etrans; [|apply (qi_size _ _ Hinv)]. apply (distinct_jobs_bound J q); [eapply plan_NoDup; exact Hp|].
    intros j Hj. rewrite Forall_forall in Hcand. by destruct (Hcand j Hj). }
  replace (mkClaimFold [] 0 0 0 [] [] [] []) with (fold_state ack now options q [] [] 0)
    by (unfold fold_state, new_expiries; by destruct ack).
  assert (Hall : candidate <$> all = (candidate <$> take (Z.to_nat limit) all) ++ (candidate <$> drop (Z.to_nat limit) all))
    by (by rewrite <-fmap_app, take_drop).
  rewrite <-(take_drop (Z.to_nat limit) all) in Hcand. rewrite <-(take_drop (Z.to_nat limit) all) in Hok. apply Forall_app in Hcand as [Hc1 Hc2]. apply Forall_app in Hok as [Hk1 Hk2].
  assert (Hl1 : zlen (take (Z.to_nat limit) all) = Z.min limit (zlen all)) by (by apply take_length_min).
  destruct (claim_candidates_fold J q options now limit ack (take (Z.to_nat limit) all) [] 0 Hc1 Hk1 Hnow Hms) as (ops&Hnn&Hpos&Hz&Hfold); [lia|cbn;lia..|].
  rewrite Hall, fold_res_app, Hfold, bind_Ok. cbn [app]. unfold plan_claimed, plan_back. fold all.
  destruct (Z.le_gt_cases (zlen all) limit) as [Hle|Hgt].
  - rewrite (drop_ge all) by lia. exists ops. split; [|done]. destruct (decide (all = [])) as [->|Hne].
    + right. split; [|done]. rewrite Hz; [done|]. by rewrite take_nil.
    + left. apply Hpos. rewrite take_ge by lia. done.
  - destruct (requeue_candidates_fold J q options now limit ack (drop (Z.to_nat limit) all) (take (Z.to_nat limit) all) [] ops Hc2 Hk2) as (ops'&?&->).
    + apply Hpos. intros Hn. rewrite Hn in Hl1. cbn in Hl1. lia.
    + lia.
    + rewrite app_nil_r, length_drop. assert (Hexp : zlen (expiries (take (Z.to_nat limit) all)) <= zlen (take (Z.to_nat limit) all)) by apply expiries_length. lia.
    + exists ops'. split; [by left|done].
Qed.

Definition batch_claim_spec q options limit ack now J (jobs : list QueueJob) e' : Prop :=
  exists cs, claims_first now q J limit cs /\ jobs = set_batch_leased ack now options <$> cs /\
    let J' := claim_jobs ack now options (release_all now q J) cs in
    queue_inv_but q e' J' /\ (Forall (fun j => jb_status j = Ready) cs \/ zlen cs < limit -> queue_inv e' J').

(** The caches after a batch claim. *)
Definition batch_caches (ack : bool) now (options : QueueClaimOptions) q (cs back : list QueueJob) e : PersistentEngine D :=
  apply_queue_lease_expiration_delta
    (apply_queue_lease_delta e q (zlen (expiries (cs ++ back))) (zlen (new_expiries ack now options cs)))
    q (expiries (cs ++ back)) (new_expiries ack now options cs).

Lemma plan_inv e J q now limit l r ex ack options db cursor :
  let cs := plan_claimed now limit l ex in
  let back := plan_back now limit l ex in
  queue_inv e J -> name_ok q -> in_expiry now -> lease_ms_ok options -> 0 < limit -> plan e J q now limit l r ex -> kv_ok db ->
  (forall n, valid_name n -> kv_view db n = release_view (claim_view ack now options q (kv_view (pe_db e)) cs) back n) ->
  cursor = match ready_pair <$> head (List.filter (fun j => negb (claimable now j)) l) with Some d => Some d | None => ready_pair <$> head r end ->
  batch_claim_spec q options limit ack now J (set_batch_leased ack now options <$> cs)
    (set_cursor (batch_caches ack now options q cs back (set_db e db)) q (foldl cursor_min cursor (ready_pair <$> back))).
Proof.
  intros cs back Hinv Hq Hnow Hms Hlim Hp Hkv' HV ->. pose proof Hinv as [Hc Hkv Hst Hls Hcur Hsz].
  destruct (plan_state e J q now limit l r ex ack options Hinv (proj1 Hq) Hnow Hms Hlim Hp) as (G1&G2&G3&G4&G5&G6&G7).
  fold cs back in G1, G2, G3, G4, G5, G6, G7. set (J' := claim_jobs ack now options (release_all now q J) cs) in *.
  set (e1 := apply_queue_lease_delta (set_db e db) q (zlen (expiries (cs ++ back))) (zlen (new_expiries ack now options cs))).
  destruct (expiration_delta_frame e1 q (expiries (cs ++ back)) (new_expiries ack now options cs)) as (Hf1&Hf2&Hf3).
  destruct (lease_delta_frame (set_db e db) q (zlen (expiries (cs ++ back))) (zlen (new_expiries ack now options cs))) as (Hd1&Hd2&Hd3).
  fold e1 in Hd1, Hd2, Hd3. change (apply_queue_lease_expiration_delta e1 q _ _) with (batch_caches ack now options q cs back (set_db e db)) in Hf1, Hf2, Hf3.
  exists cs. split_and!; [by eapply plan_claims_first|done|]. cbv zeta. fold J'. match goal with |- queue_inv_but _ ?e2 _ /\ _ => set (e' := e2) end.
  assert (Hdb : pe_db e' = db) by (exact (eq_trans Hf1 Hd1)).
  assert (Hbut : queue_inv_but q e' J').
  { split.
    - exact (eq_trans Hf2 (eq_trans Hd2 Hc)).
    - by rewrite Hdb.
    - rewrite Hdb. eapply stored_ext; [exact G1|done].
    - apply (leases_repr_ext (batch_caches ack now options q cs back (set_db e db))); [|done..]. unfold batch_caches. apply (leases_delta (set_db e db) q (lease_set J)); [by eapply leases_repr_ext|done..|].
      pose proof (lease_set_size J' q) as Hsize. rewrite G3, gmultiset_size_disj_union, gmultiset_size_difference, !list_ms_size in Hsize by done. lia.
    - intros q' c Hq' Hne. unfold e' at 1. rewrite cursor_lookup, decide_False, Hf3, Hd3 by done. intros Hlook.
      rewrite Hdb, (ready_entries_ext _ _ _ HV), G6 by (done || apply Hq'). by apply Hcur.
    - lia. }
  split; [done|]. intros Hcase. eapply (queue_inv_but_full q e' J'); [done|unfold e'; by rewrite cursor_lookup, decide_True|].
  rewrite Hdb, (ready_entries_ext _ _ _ HV), G7. f_equal. symmetry.
  apply (plan_cursor e J q now limit l r ex Hinv Hp). by apply (plan_takes_ready e J q now limit l r ex).
Qed.

Lemma claim_batch_refines e J q options limit ack now r e' :
  queue_inv e J -> name_ok q -> in_expiry now -> lease_ms_ok options -> 0 < limit <= MAX_QUEUE_BATCH_ITEMS ->
  claim_batch_atomic q options limit ack now e = (r, e') ->
  match r with
  | Ok jobs => batch_claim_spec q options limit ack now J jobs e'
  | Err err => commit_failed err /\ queue_inv e' J
  end.
Proof.
  intros Hinv Hq Hnow Hms [Hlim Hmax]. pose proof Hinv as [Hc Hkv _ _ _ _]. unfold claim_batch_atomic.
  destruct (Z.ltb_spec MAX_QUEUE_BATCH_ITEMS limit); [lia|]. destruct (Z.eqb_spec limit 0); [lia|].
  rewrite pbind_pget. cbv zeta. rewrite Hc.
  destruct (plan_scan e J q now limit Hinv Hq Hlim) as (l&rest&ex&reached&st&Hp&Hlease&Hscan&Hb&Hop&Hca&Hde&Hne).
  rewrite Hlease, pbind_plift. cbn [bs_batch bs_operations bs_removed bs_expirations bs_expired]. rewrite Hscan, pbind_plift, Hne, pbind_plift.
  rewrite Hb, Hop, Hca, Hde, <-fmap_app.
  rewrite (sort_by_fmap candidate candidate_cmp ready_key_cmp) by done. fold (plan_candidates now l ex).
  destruct (plan_fold e J q options now limit ack l rest ex Hinv Hp Hnow Hms Hlim) as (ops&Hops&->). rewrite pbind_plift.
  unfold fold_state. cbn [cf_batch cf_operations cf_removed cf_added cf_expirations_removed cf_expirations_added cf_completed cf_requeued].
  set (cs := plan_claimed now limit l ex). set (back := plan_back now limit l ex). destruct Hops as [Hops|[-> Hnil]].
  - destruct (Z.ltb_spec 0 ops); [|lia]. set (ws := foldl release_batch (foldl (claim_batch ack now options q) [] cs) back).
    assert (Hws : Forall write_ok ws) by (by apply release_batches_ok, claim_batches_ok, writes_ok_nil).
    destruct (commit ws e) as [rc ec] eqn:Hcommit.
    destruct (commit_cases e _ rc ec Hkv Hws Hcommit) as (db&->&Hkv'&[[-> Hview]|(err&->&Hfail&Hview)]).
    2: { unfold pbind at 1. rewrite (pbind_Err _ _ _ _ _ Hcommit). intros [= <- <-]. split; [done|]. by apply queue_inv_same_view. }
    unfold pbind at 1. rewrite (pbind_Ok _ _ _ _ _ Hcommit). unfold pbind, pmodify, pret. intros [= <- <-].
    apply (plan_inv e J q now limit l rest ex ack options db); try done. intros ks Hks. rewrite Hview by done.
    unfold ws, release_view, claim_view. rewrite apply_release_batches, apply_claim_batches. done.
  - cbn. unfold pbind, pmodify, pret. intros [= <- <-].
    assert (Hcs : cs = []) by (unfold cs, plan_claimed; by rewrite Hnil, take_nil).
    assert (Hback : back = []) by (unfold back, plan_back; by rewrite Hnil, drop_nil).
    pose proof (plan_inv e J q now limit l rest ex ack options (pe_db e)) as Hpi. cbv zeta in Hpi. fold cs back in Hpi. rewrite Hcs, Hback in *.
    specialize (Hpi _ Hinv Hq Hnow Hms Hlim Hp Hkv ltac:(done) eq_refl).
    replace (batch_caches ack now options q [] [] (set_db e (pe_db e))) with e in Hpi; [exact Hpi|].
    unfold batch_caches, apply_queue_lease_expiration_delta, apply_queue_lease_delta, new_expiries. destruct ack; cbn; by destruct e.
Qed.
End claim_many.
