(* ===== verification/PQueueRun.v ===== *)
(** * thingd: runs of the persistent queues

    The operations of the queue store as one step function, the map of jobs as its
    specification, and the simulation between them: whatever sequence of operations is
    run, the engine represents the map the specification reaches.  A queue that is
    claimed often enough is drained. *)

From stdpp Require Import gmultiset.
From S2P Require Import Prelude Wal Table Layer Database ThingDb Keyspace RamScan Model Queue Storage Persistent PSample PStore PQueue PQueueSpec PQueueClaim PQueueOpen PQueueBatch PQueueClaimBatch PQueueClaimMany.

(** ** The claim mode

    Only [claim_and_ack] touches the claim mode, and it restores it. *)
Section mode.
Context `{KvLaws D} `{!Serde QueueJob job_wt} `{!Serde string is_str}.
Implicit Types (e : PersistentEngine D).

Definition keeps_mode {A} (m : PM D A) : Prop := forall e, pe_queue_claim_mode (m e).2 = pe_queue_claim_mode e.

Lemma keeps_pret {A} (a : A) : keeps_mode (pret a).
Proof. done. Qed.
Lemma keeps_plift {A} (r : thingd_result A) : keeps_mode (plift r).
Proof. done. Qed.
Lemma keeps_pget : keeps_mode pget.
Proof. done. Qed.
Lemma keeps_commit ws : keeps_mode (commit ws).
Proof. intros e. unfold commit. by destruct (kv_commit (pe_db e) ws). Qed.
Lemma keeps_pmodify (f : PersistentEngine D -> PersistentEngine D) :
  (forall e, pe_queue_claim_mode (f e) = pe_queue_claim_mode e) -> keeps_mode (pmodify f).
Proof. done. Qed.
Lemma keeps_pbind {A B} (m : PM D A) (f : A -> PM D B) : keeps_mode m -> (forall a, keeps_mode (f a)) -> keeps_mode (pbind m f).
Proof. intros Hm Hf e. unfold pbind. specialize (Hm e). destruct (m e) as [[a|err] e1]; [|done]. cbn in Hm. by rewrite Hf. Qed.

Lemma delta_mode e q removed added : pe_queue_claim_mode (apply_queue_lease_delta e q removed added) = pe_queue_claim_mode e.
Proof. unfold apply_queue_lease_delta. by destruct (_ && _). Qed.
Lemma expiration_mode e q removed added : pe_queue_claim_mode (apply_queue_lease_expiration_delta e q removed added) = pe_queue_claim_mode e.
Proof. unfold apply_queue_lease_expiration_delta. by destruct (_ && _). Qed.
Lemma forget_mode e q x : pe_queue_claim_mode (forget_lease q x e) = pe_queue_claim_mode e.
Proof. unfold forget_lease. destruct x; [|done]. by rewrite expiration_mode, delta_mode. Qed.
Lemma cache_fold_mode {A} (f : A -> string) (g : A -> bytes * bytes) l e :
  pe_queue_claim_mode (foldl (fun e x => cache_queue_ready_min e (f x) (g x)) e l) = pe_queue_claim_mode e.
Proof. revert e. induction l as [|x l IH]; intros e; [done|]. cbn [foldl]. by rewrite IH, cache_min_mode. Qed.
End mode.

Create HintDb queue_mode.
#[export] Hint Resolve keeps_pret keeps_plift keeps_pget keeps_commit keeps_pmodify : queue_mode.

Ltac keeps :=
  repeat first
    [ match goal with |- forall _, _ => intro end
    | match goal with |- keeps_mode (match ?x with _ => _ end) => destruct x end
    | solve [auto with queue_mode]
    | apply keeps_pbind
    | apply keeps_pmodify
    | rewrite ?cache_min_mode, ?expiration_mode, ?delta_mode, ?forget_mode; done
    | case_match ].

Section run.
Context `{KvLaws D} `{!Serde QueueJob job_wt} `{!Serde string is_str}.
Implicit Types (e : PersistentEngine D) (J : Jobs) (j : QueueJob) (q : string) (now limit : Z).

Lemma first_entry_mode q : keeps_mode (first_queue_ready_entry q).
Proof. intros e. unfold first_queue_ready_entry. rewrite pbind_pget. destruct (pe_queue_ready_cursors e !! q); [done|]. revert e. keeps. Qed.

Lemma claim_mode q options now : keeps_mode (pe_claim_job_with_options q options now).
Proof.
  assert (Hentry : forall ack k k' j d, keeps_mode (claim_entry q options now ack k k' j d)) by (intros; unfold claim_entry; keeps).
  assert (Hrepair : forall k, keeps_mode (repair_ready q k)) by (intros; unfold repair_ready; keeps).
  assert (Hloop : forall fuel ack a b c, keeps_mode (claim_ready_loop fuel q options now ack a b c)).
  { intros fuel ack. induction fuel as [|fuel IH]; intros a b c; [done|]. cbn [claim_ready_loop].
    pose proof first_entry_mode. repeat first [match goal with |- forall _, _ => intro end|apply keeps_pbind|by auto with queue_mode|case_match|by apply keeps_pmodify]. }
  assert (Hrel : keeps_mode (release_leases q now)).
  { unfold release_leases. apply keeps_pbind; [done|]. intros e. apply keeps_pbind; [done|]. intros scan.
    destruct (es_writes scan); [|done]. apply keeps_pbind; [apply keeps_commit|]. intros []. apply keeps_pmodify. intros e0.
    rewrite (cache_fold_mode (fun _ => q) id). by rewrite expiration_mode, delta_mode. }
  unfold pe_claim_job_with_options. keeps.
Qed.

(** ** Operations and their specification *)

Inductive PeOp :=
  | PePush (now_iso : string) (job : QueueJob)
  | PePushBatch (jobs : list (string * QueueJob))
  | PeClaim q (options : QueueClaimOptions) now
  | PeClaimAndAck q (options : QueueClaimOptions) now
  | PeClaimBatch (acknowledge_immediately : bool) q (options : QueueClaimOptions) limit now
  | PeAck q (id : string) now
  | PeAckBatch q (ids : list string) now
  | PeNack q (id : string) (options : QueueNackOptions) now.

Definition opt_list {A} (o : option A) : list A := match o with Some a => [a] | None => [] end.

Definition pmap {A B} (f : A -> B) (m : PM D A) : PM D B := let* a := m in pret (f a).

Definition run_op (op : PeOp) : PM D (list QueueJob) :=
  match op with
  | PePush now_iso job => pmap (fun j => [j]) (pe_push_job now_iso job)
  | PePushBatch jobs => pe_push_jobs_batch jobs
  | PeClaim q options now => pmap opt_list (pe_claim_job_with_options q options now)
  | PeClaimAndAck q options now => pmap opt_list (pe_claim_and_ack q options now)
  | PeClaimBatch ack q options limit now => claim_batch_atomic q options limit ack now
  | PeAck q id now => pmap opt_list (pe_ack_job q id now)
  | PeAckBatch q ids now => pe_ack_jobs q ids now
  | PeNack q id options now => pmap opt_list (pe_nack_job_with_options q id options now)
  end.

(** The arguments an operation may be given when the map is [J]: names without the key
    separator, times and counts of their machine width, new ids for new jobs, and no
    batch claim while a lease of the queue has expired. *)
Definition op_ok (op : PeOp) J : Prop :=
  match op with
  | PePush now_iso job => pushable J (stamp_job now_iso job) /\ Z.of_nat (size J) < U64_MAX
  | PePushBatch jobs =>
      Forall (pushable J) (stamped <$> jobs) /\ NoDup (job_key <$> (stamped <$> jobs)) /\
      Z.of_nat (size J) + zlen jobs <= U64_MAX
  | PeClaim q options now | PeClaimAndAck q options now => name_ok q /\ in_expiry now /\ lease_ms_ok options
  | PeClaimBatch _ q options limit now =>
      name_ok q /\ in_expiry now /\ lease_ms_ok options /\ 0 < limit <= MAX_QUEUE_BATCH_ITEMS /\
      forall j, J !! (q, jb_id j) = Some j -> lease_expired now j = false
  | PeAck q _ now | PeAckBatch q _ now => no_nul q /\ in_i64 now
  | PeNack q _ options now => no_nul q /\ in_i64 now /\ is_str (qn_error options)
  end.

Definition op_spec (op : PeOp) J (reply : list QueueJob) J' : Prop :=
  match op with
  | PePush now_iso job => let j := stamp_job now_iso job in reply = [j] /\ J' = <[job_key j := j]> J
  | PePushBatch jobs => let js := stamped <$> jobs in reply = js /\ J' = insert_jobs J js
  | PeClaim q options now => exists o, reply = opt_list o /\ claim_spec false now options q J o J'
  | PeClaimAndAck q options now => exists o, reply = opt_list o /\ claim_spec true now options q J o J'
  | PeClaimBatch ack q options limit now =>
      exists cs, claims_first now q J limit cs /\ reply = set_batch_leased ack now options <$> cs /\
        J' = claim_jobs ack now options (release_all now q J) cs
  | PeAck q id now => exists o, reply = opt_list o /\ finish_spec (set_completed now) J (q, id) = (o, J')
  | PeAckBatch q ids now => ack_jobs_spec J q ids now = Ok (reply, J')
  | PeNack q id options now => exists o, reply = opt_list o /\ finish_spec (nack_transition now options) J (q, id) = (o, J')
  end.

(** An operation fails when the storage refuses its batch, which leaves the map as it
    was or with the expired leases released, or when the batch of an acknowledgement is
    invalid. *)
Definition op_fails (op : PeOp) J (err : ThingdError) J' : Prop :=
  match op with
  | PeClaim q _ now | PeClaimAndAck q _ now => commit_failed err /\ (J' = J \/ J' = release_all now q J)
  | PeAckBatch q ids now => J' = J /\ (commit_failed err \/ ack_jobs_spec J q ids now = Err err)
  | _ => commit_failed err /\ J' = J
  end.

Definition op_step (op : PeOp) J (r : thingd_result (list QueueJob)) J' : Prop :=
  match r with Ok reply => op_spec op J reply J' | Err err => op_fails op J err J' end.

(** ** One operation *)

Record sim e J : Prop := { sim_inv : queue_inv e J; sim_mode : pe_queue_claim_mode e = Claim }.

Lemma queue_inv_mode e J mode : queue_inv e J -> queue_inv (set_claim_mode e mode) J.
Proof. intros [Ha Hb Hc Hd He Hf]. split; try done. by eapply leases_repr_ext. Qed.

Lemma run_op_mode op e : pe_queue_claim_mode e = Claim -> pe_queue_claim_mode (run_op op e).2 = Claim.
Proof.
  intros Hmode. assert (Hkeeps : keeps_mode (run_op op) -> pe_queue_claim_mode (run_op op e).2 = Claim) by (intros Hk; by rewrite Hk).
  destruct op.
  all: lazymatch goal with
       | |- context [PeClaimAndAck] => idtac
       | _ => apply Hkeeps; cbn [run_op]; unfold pmap; try (apply keeps_pbind; [|by intros])
       end.
  - unfold pe_push_job. keeps.
  - unfold pe_push_jobs_batch. apply keeps_pbind; [done|]. intros e0. apply keeps_pbind; [done|]. intros [[batch keys] results].
    apply keeps_pbind; [apply keeps_commit|]. intros []. apply keeps_pbind; [|done]. apply keeps_pmodify. intros e1.
    apply (cache_fold_mode fst snd).
  - apply claim_mode.
  - cbn [run_op]. unfold pmap, pbind, pe_claim_and_ack. by destruct (pe_claim_job_with_options q options now (set_claim_mode e ClaimAndAck)) as [[] ?].
  - unfold claim_batch_atomic. keeps.
  - unfold pe_ack_job. keeps.
  - unfold pe_ack_jobs. keeps.
  - unfold pe_nack_job_with_options. keeps.
Qed.

Lemma pmap_inv {A B} (f : A -> B) (m : PM D A) e r e' :
  pmap f m e = (r, e') -> exists r0, m e = (r0, e') /\ r = match r0 with Ok a => Ok (f a) | Err err => Err err end.
Proof. unfold pmap, pbind, pret. destruct (m e) as [[a|err] e1]; intros [= <- <-]; by eexists. Qed.

Lemma claim_step (ack : bool) q options now e J r0 e' :
  name_ok q -> in_expiry now -> lease_ms_ok options -> queue_inv e J -> pe_queue_claim_mode e = (if ack then ClaimAndAck else Claim) ->
  pe_claim_job_with_options q options now e = (r0, e') ->
  exists J', queue_inv e' J' /\
    match r0 with
    | Ok o => claim_spec ack now options q J o J'
    | Err err => commit_failed err /\ (J' = J \/ J' = release_all now q J)
    end.
Proof.
  intros Hq Hnow Hms Hinv Hmode Hrun. pose proof (claim_job_refines e J q options now r0 e' Hinv Hq Hnow Hms Hrun) as Hc.
  rewrite Hmode in Hc. replace (bool_decide ((if ack then ClaimAndAck else Claim) = ClaimAndAck)) with ack in Hc by (by destruct ack).
  destruct r0 as [o|err]; [destruct Hc as (J'&?&?); eauto|]. destruct Hc as [Hf [Hi|Hi]]; eexists; (split; [exact Hi|]); auto.
Qed.

Lemma finish_step f J i r0 e' : refines r0 e' J (finish_spec f J i) ->
  exists J', queue_inv e' J' /\
    match r0 with Ok o => finish_spec f J i = (o, J') | Err err => commit_failed err /\ J' = J end.
Proof.
  unfold refines. destruct (finish_spec f J i) as [o1 J1] eqn:Hs. cbn. destruct r0 as [o|err]; intros [Hr Hi]; [subst o; eauto|].
  exists J. auto.
Qed.

(** Every operation refines its specification. *)
Lemma op_refines op e J r e' :
  sim e J -> op_ok op J -> run_op op e = (r, e') -> exists J', op_step op J r J' /\ sim e' J'.
Proof.
  intros [Hinv Hmode] Hok Hrun. pose proof (run_op_mode op e Hmode) as Hmode'. rewrite Hrun in Hmode'. cbn in Hmode'.
  assert (Hgoal : (exists J', queue_inv e' J' /\ op_step op J r J') -> exists J', op_step op J r J' /\ sim e' J')
    by (intros (J'&?&?); exists J'; by split).
  apply Hgoal. clear Hgoal. destruct op; cbn [run_op op_ok] in *.
  - apply pmap_inv in Hrun as (r0&Hrun&->). destruct Hok as [[Hj Hl Hnew] Hsz].
    pose proof (push_refines_inv e J now_iso job r0 e' Hinv Hj Hl Hnew Hsz Hrun) as Hp. destruct r0 as [j'|err].
    + destruct Hp as [-> Hp]. eexists. by split.
    + destruct Hp. by exists J.
  - destruct Hok as (Hall&Hnd&Hsz). rewrite <-(length_fmap stamped jobs) in Hsz.
    pose proof (push_jobs_refines e J jobs r e' Hinv Hall Hnd Hsz Hrun) as Hp. destruct r as [js|err].
    + destruct Hp as [-> Hp]. eexists. by split.
    + destruct Hp. by exists J.
  - apply pmap_inv in Hrun as (r0&Hrun&->). destruct Hok as (Hq&Hnow&Hms).
    destruct (claim_step false q options now e J r0 e' Hq Hnow Hms Hinv Hmode Hrun) as (J'&Hi&Hs). exists J'. split; [done|].
    destruct r0; [by eexists|done].
  - apply pmap_inv in Hrun as (r0&Hrun&->). destruct Hok as (Hq&Hnow&Hms). unfold pe_claim_and_ack in Hrun.
    destruct (pe_claim_job_with_options q options now (set_claim_mode e ClaimAndAck)) as [r1 e1] eqn:Hc. injection Hrun as -> <-.
    destruct (claim_step true q options now _ J r0 e1 Hq Hnow Hms (queue_inv_mode _ _ _ Hinv) eq_refl Hc) as (J'&Hi&Hs).
    exists J'. split; [by apply queue_inv_mode|]. destruct r0; [by eexists|done].
  - destruct Hok as (Hq&Hnow&Hms&Hlim&Hfresh).
    pose proof (claim_batch_refines e J q options limit acknowledge_immediately now r e' Hinv Hq Hnow Hms Hlim Hrun) as Hc.
    destruct r as [jobs|err]; [|by destruct Hc; exists J]. destruct Hc as (cs&Hcs&->&_&Hfull).
    eexists. split; [|by exists cs]. apply Hfull. left. eapply Forall_impl; [apply (cl_eligible _ _ _ _ _ Hcs)|].
    intros j (HJ&_&[Hcl|Hx]); [|by rewrite Hfresh in Hx]. by apply andb_true_iff in Hcl as [?%bool_decide_eq_true _].
  - apply pmap_inv in Hrun as (r0&Hrun&->). destruct Hok as (Hq&Hnow).
    destruct (finish_step _ _ _ _ _ (ack_refines e J q id now r0 e' Hinv Hq Hnow Hrun)) as (J'&Hi&Hs). exists J'. split; [done|].
    destruct r0; [by eexists|done].
  - destruct Hok as (Hq&Hnow). pose proof (ack_jobs_refines e J q ids now r e' Hinv Hq Hnow Hrun) as Ha.
    destruct (ack_jobs_spec J q ids now) as [[jobs J']|err] eqn:Hs.
    + destruct Ha as [[-> Hi]|(err&->&Hf&Hi)]; [by exists J'|]. exists J. split; [done|]. split; [done|by left].
    + destruct Ha as [-> ->]. exists J. split; [done|]. split; [done|by right].
  - apply pmap_inv in Hrun as (r0&Hrun&->). destruct Hok as (Hq&Hnow&Herr).
    destruct (finish_step _ _ _ _ _ (nack_refines e J q id options now r0 e' Hinv Hq Hnow Herr Hrun)) as (J'&Hi&Hs). exists J'. split; [done|].
    destruct r0; [by eexists|done].
Qed.

(** ** Runs *)

Fixpoint run_ops (ops : list PeOp) e : list (thingd_result (list QueueJob)) * PersistentEngine D :=
  match ops with
  | [] => ([], e)
  | op :: ops => let '(r, e) := run_op op e in let '(rs, e) := run_ops ops e in (r :: rs, e)
  end.

(** The runs of the specification. *)
Inductive spec_run : Jobs -> list PeOp -> list (thingd_result (list QueueJob)) -> Jobs -> Prop :=
  | spec_nil J : spec_run J [] [] J
  | spec_cons J op r J1 ops rs J2 : op_step op J r J1 -> spec_run J1 ops rs J2 -> spec_run J (op :: ops) (r :: rs) J2.

(** The arguments are right whatever the earlier operations answered. *)
Fixpoint ops_ok (ops : list PeOp) J : Prop :=
  match ops with
  | [] => True
  | op :: ops => op_ok op J /\ forall r J', op_step op J r J' -> ops_ok ops J'
  end.

(** ** Histories: what may happen to a job *)

(** What an operation may make of a job: its identity stays, its attempts never fall,
    and a job that is completed or dead stays as it is. *)
Record job_le (j j' : QueueJob) : Prop := {
  le_name : job_key j' = job_key j;
  le_body : jb_body j' = jb_body j;
  le_priority : jb_priority j' = jb_priority j;
  le_created : jb_created_at j' = jb_created_at j;
  le_attempts : jb_attempts j <= jb_attempts j';
  le_final : jb_status j = Completed \/ jb_status j = Dead -> j' = j;
}.

Definition evolves J J' : Prop := forall i j, J !! i = Some j -> exists j', J' !! i = Some j' /\ job_le j j'.

#[global] Instance job_le_preorder : PreOrder job_le.
Proof.
  split; [by intros j; split|]. intros a b c [H1 H2 H3 H4 H5 H6] [G1 G2 G3 G4 G5 G6]. split; [congruence..|lia|].
  intros Hs. specialize (H6 Hs). subst b. by apply G6.
Qed.

#[global] Instance evolves_preorder : PreOrder evolves.
Proof.
  split; [intros J i j Hj; exists j; by split|]. intros J1 J2 J3 H12 H23 i j Hj.
  destruct (H12 i j Hj) as (j2&Hj2&Hle). destruct (H23 i j2 Hj2) as (j3&Hj3&Hle'). exists j3. split; [done|]. by etrans.
Qed.

Lemma evolves_insert J i j0 j : J !! i = Some j0 -> job_le j0 j -> evolves J (<[i := j]> J).
Proof.
  intros Hi Hle i' j' Hj'. destruct (decide (i' = i)) as [->|Hne].
  - exists j. rewrite lookup_insert_eq. split; [done|]. congruence.
  - exists j'. rewrite lookup_insert_ne by done. by split.
Qed.

Lemma evolves_new J i j : J !! i = None -> evolves J (<[i := j]> J).
Proof. intros Hi i' j' Hj'. exists j'. rewrite lookup_insert_ne by congruence. by split. Qed.

Lemma release_le j : jb_status j = Leased -> job_le j (release_lease j).
Proof. intros Hs. split; try done. cbn. rewrite Hs. by intros []. Qed.

Lemma evolves_release now q J : evolves J (release_all now q J).
Proof.
  intros i j Hj. unfold release_all. exists (release_queue now q j). rewrite lookup_fmap, Hj. split; [done|].
  unfold release_queue, release_if_expired. case_bool_decide; [|done]. destruct (lease_expired now j) eqn:Hx; [|done].
  apply release_le. by apply andb_true_iff in Hx as [?%bool_decide_eq_true _].
Qed.

Lemma claim_le (ack : bool) now options j : in_u32 (jb_attempts j) -> jb_status j = Ready \/ jb_status j = Leased ->
  job_le j (claim_transition ack now options j) /\ job_le j (set_batch_leased ack now options j).
Proof.
  unfold in_u32. intros Ha Hs. assert (Hf : ~ (jb_status j = Completed \/ jb_status j = Dead)) by (by destruct Hs as [-> | ->]; intros []).
  assert (Hat : jb_attempts j <= u32_saturating_add (jb_attempts j) 1) by (unfold u32_saturating_add; lia).
  split; (split; [by destruct ack..| |done]); by destruct ack.
Qed.

Lemma finish_le now options j : jb_status j = Leased -> job_le j (set_completed now j) /\ job_le j (nack_transition now options j).
Proof.
  intros Hs. assert (Hf : ~ (jb_status j = Completed \/ jb_status j = Dead)) by (rewrite Hs; by intros []).
  unfold nack_transition. destruct (_ <=? _); by split; split.
Qed.

Lemma evolves_finish f J i o J' :
  (forall j, jb_status j = Leased -> job_le j (f j)) -> finish_spec f J i = (o, J') -> evolves J J'.
Proof.
  intros Hf. unfold finish_spec. destruct (J !! i) as [j|] eqn:Hj; [|by intros [= _ <-]]. case_bool_decide; intros [= _ <-]; [|done].
  eapply evolves_insert; [done|]. by apply Hf.
Qed.

(** Updating listed jobs of the map. *)
Lemma evolves_updates f J J1 (js : list QueueJob) :
  evolves J J1 -> NoDup (job_name <$> js) -> Forall (fun j => J !! job_name j = Some j /\ job_le j (f j)) js ->
  evolves J (foldl (fun J j => <[(jb_queue j, jb_id j) := f j]> J) J1 js).
Proof.
  intros HJ Hnd Hall i j Hj. rewrite Forall_forall in Hall. destruct (decide (i ∈ (job_name <$> js))) as [Hi|Hi].
  - apply list_elem_of_fmap in Hi as (j0&->&Hj0). rewrite lookup_updates_in by done. destruct (Hall j0 Hj0) as [HJ0 Hle].
    exists (f j0). split; [done|]. congruence.
  - rewrite lookup_updates_notin by done. by apply HJ.
Qed.

Lemma sorted_names_NoDup (cs : list QueueJob) :
  StronglySorted (fun j j' => job_rank j ≺ job_rank j') cs -> Forall (fun j => forall j', j' ∈ cs -> job_name j = job_name j' -> j = j') cs ->
  NoDup (job_name <$> cs).
Proof.
  intros Hs Hinj. apply NoDup_fmap_2_strong.
  - intros j j' Hj Hj' Heq. rewrite Forall_forall in Hinj. by apply Hinj.
  - clear Hinj. induction Hs as [|j cs _ IH Hall]; constructor; [|done]. intros Hin. rewrite Forall_forall in Hall.
    apply (key_lt_irrefl (job_rank j)). by apply Hall.
Qed.

Lemma op_step_evolves op J r J' :
  (forall i j, J !! i = Some j -> job_ok i j) -> op_ok op J -> op_step op J r J' -> evolves J J'.
Proof.
  intros Hjobs Hok. destruct r as [reply|err]; cbn [op_step].
  2: { destruct op; cbn [op_fails]; try (by intros [_ ->]); try (by intros [-> _]); intros [_ [->| ->]]; (done || apply evolves_release). }
  assert (Hclaim : forall (ack : bool) q options now o, claim_spec ack now options q J o J' -> evolves J J').
  { intros ack q options now o. unfold claim_spec. destruct o as [j'|]; [|intros [_ ->]; apply evolves_release].
    intros (j&(Hj&_&Hcl&_)&->&->). etrans; [apply (evolves_release now q)|]. eapply evolves_insert; [exact Hj|]. apply claim_le.
    - unfold release_all in Hj. rewrite lookup_fmap in Hj. apply fmap_Some in Hj as (j0&Hj0&->). unfold release_queue, release_if_expired.
      repeat case_match; by destruct (Hjobs _ _ Hj0) as [[]].
    - left. by apply andb_true_iff in Hcl as [?%bool_decide_eq_true _]. }
  destruct op; cbn [op_spec op_ok] in *.
  - intros [_ ->]. destruct Hok as [[_ _ Hnew] _]. by apply evolves_new.
  - intros [_ ->]. destruct Hok as (Hall&Hnd&_). unfold insert_jobs. intros i j Hj. exists j. split; [|done].
    assert (Hi : i ∉ (job_key <$> (stamped <$> jobs))).
    { intros (j'&->&Hj')%list_elem_of_fmap. rewrite Forall_forall in Hall. destruct (Hall j' Hj') as [_ _ Hnew]. congruence. }
    rewrite <-Hj. by apply (lookup_updates_notin (fun j => j)).
  - intros (o&_&Hc). by eapply Hclaim.
  - intros (o&_&Hc). by eapply Hclaim.
  - intros (cs&[Hs Hel _ _]&_&->). unfold claim_jobs. rewrite Forall_forall in Hel. apply (evolves_updates _ J); [apply evolves_release| |].
    + apply sorted_names_NoDup; [done|]. apply Forall_forall. intros j Hj j' Hj' [= _ Heq]. destruct (Hel j Hj) as (H1&_), (Hel j' Hj') as (H2&_).
      rewrite Heq in H1. congruence.
    + apply Forall_forall. intros j Hj. destruct (Hel j Hj) as (HJ&Hq&Hcase). split; [unfold job_name; by rewrite Hq|]. apply claim_le.
      * by destruct (Hjobs _ _ HJ) as [[]].
      * destruct Hcase as [Hc|Hc]; apply andb_true_iff in Hc as [?%bool_decide_eq_true _]; auto.
  - intros (o&_&Hf). eapply evolves_finish; [|exact Hf]. intros j Hj. by apply (finish_le now (mkNackOptions 0 "")).
  - unfold ack_jobs_spec. destruct (_ <? _); [done|]. destruct (has_duplicate ∅ ids) eqn:Hd; [done|]. apply has_duplicate_false in Hd as [Hnd _].
    intros (js&Hjs&[= _ <-])%bind_Ok_inv. destruct (leased_jobs_Ok J q ids js Hjobs Hjs) as [-> Hall]. unfold complete_jobs.
    apply (evolves_updates _ J); [done|by apply (job_names_NoDup q)|]. eapply Forall_impl; [exact Hall|]. intros j (HJ&Hq&Hs).
    split; [unfold job_name; by rewrite Hq|]. by apply (finish_le now (mkNackOptions 0 "")).
  - intros (o&_&Hf). eapply evolves_finish; [|exact Hf]. intros j Hj. by apply finish_le.
Qed.

(** ** Draining a queue *)

(** The jobs a claim could take. *)
Definition waiting now q J : Jobs := filter (fun p => p.1.1 = q /\ claimable now p.2 = true) J.

Lemma release_all_idemp now q J : release_all now q (release_all now q J) = release_all now q J.
Proof.
  unfold release_all. apply map_eq. intros i. rewrite !lookup_fmap. destruct (J !! i) as [j|]; [|done]. cbn. f_equal.
  unfold release_queue, release_if_expired. destruct (lease_expired now j) eqn:Hx.
  - destruct (decide (jb_queue j = q)); [rewrite (bool_decide_true (jb_queue j = q)) by done; by case_bool_decide|].
    by rewrite !(bool_decide_false (jb_queue j = q)) by done.
  - repeat case_bool_decide; rewrite ?Hx; done.
Qed.

Lemma release_all_insert now q J i j :
  release_all now q J = J -> lease_expired now j = false -> release_all now q (<[i := j]> J) = <[i := j]> J.
Proof.
  intros HJ Hx. unfold release_all in *. rewrite fmap_insert, HJ. f_equal. unfold release_queue, release_if_expired. rewrite Hx. by case_bool_decide.
Qed.

Lemma waiting_none now q J : waiting now q J = ∅ -> none_claimable J q now.
Proof.
  intros He j Hj. apply not_true_iff_false. intros Hcl. assert (Hw : waiting now q J !! (q, jb_id j) = Some j) by (by apply map_lookup_filter_Some).
  by rewrite He, lookup_empty in Hw.
Qed.

Lemma none_waiting now q J : (forall i j, J !! i = Some j -> job_ok i j) -> none_claimable J q now -> waiting now q J = ∅.
Proof.
  intros Hok Hnone. apply map_empty. intros i. apply eq_None_not_Some. intros [j Hj]. apply map_lookup_filter_Some in Hj as [Hj [Hq Hcl]].
  cbn [fst snd] in Hq, Hcl. destruct (Hok _ _ Hj) as [_ -> _ _ _]. cbn [fst] in Hq. rewrite Hq in Hj. by rewrite (Hnone j Hj) in Hcl.
Qed.

Lemma waiting_claimed now q J j j' :
  J !! (q, jb_id j) = Some j -> claimable now j = true -> claimable now j' = false ->
  S (size (waiting now q (<[(q, jb_id j) := j']> J))) = size (waiting now q J).
Proof.
  intros Hj Hcl Hcl'. unfold waiting. rewrite map_filter_insert_False by (intros [_ Hc]; cbn [snd] in Hc; congruence).
  rewrite map_filter_delete, map_size_delete_Some by (exists j; by apply map_lookup_filter_Some).
  assert (Hne : size (filter (fun p : string * string * QueueJob => p.1.1 = q /\ claimable now p.2 = true) J) <> 0%nat); [|lia].
  intros Hz%map_size_empty_inv. assert (Hw : waiting now q J !! (q, jb_id j) = Some j) by (by apply map_lookup_filter_Some).
  unfold waiting in Hw. by rewrite Hz, lookup_empty in Hw.
Qed.

(** ** Listing and counting *)

Lemma decode_jobs_spec e (l : list (bytes * bytes)) (js : list QueueJob) :
  pe_codec e = raw_codec -> Forall2 (fun x j => job_wt j /\ record_entry j = Some x) l js -> decode_jobs e l = Ok js.
Proof.
  intros Hc. unfold decode_jobs. rewrite Hc. induction 1 as [|x j l js [Hw Hx] _ IH]; [done|]. cbn [map_res]. injection Hx as <-. cbn [snd].
  rewrite deserialize_raw by done. by rewrite bind_Ok, IH.
Qed.

Lemma counted_jobs e J (p : QueueJob -> bool) :
  queue_inv e J ->
  (fun jobs => zlen (List.filter p jobs)) <$> decode_jobs e (kv_iter (pe_db e) "queue_jobs")
  = Ok (Z.of_nat (size (filter (fun x => p x.2 = true) J))).
Proof.
  intros Hinv. pose proof Hinv as [Hc Hkv Hst _ _ _]. destruct queue_keyspaces_valid as (Hv1&_&_).
  destruct (record_jobs _ J (st_ok _ _ Hst) (st_records _ _ Hst)) as (js&Hjs&Hnd&HJ). rewrite kv_iter_entries by done.
  rewrite (decode_jobs_spec e _ js Hc).
  2: { eapply Forall2_impl; [exact Hjs|]. intros x j [Hj Hx]. split; [|done]. by destruct (st_ok _ _ Hst _ _ Hj). }
  cbn. f_equal. rewrite <-HJ. clear Hjs HJ. assert (Hgen : forall J0, Forall (fun j => J0 !! job_key j = None) js ->
    (size (filter (fun x : string * string * QueueJob => p x.2 = true) (foldl (fun J j => <[job_key j := j]> J) J0 js))
     = size (filter (fun x : string * string * QueueJob => p x.2 = true) J0) + length (List.filter p js))%nat).
  2: { rewrite Hgen by (by apply Forall_forall). rewrite map_filter_empty, map_size_empty. lia. }
  induction js as [|j js IH]; intros J0 Hall; cbn [foldl List.filter length]; [lia|]. apply Forall_cons in Hall as [Hj Hall].
  rewrite fmap_cons in Hnd. apply NoDup_cons in Hnd as [Hnin Hnd]. rewrite IH; [|done|].
  - destruct (p j) eqn:Hp.
    + rewrite map_filter_insert_True by done. rewrite map_size_insert_None by (apply map_lookup_filter_None; left; done). cbn [length]. lia.
    + rewrite map_filter_insert_False by (cbn [snd]; congruence). rewrite delete_id by done. lia.
  - rewrite Forall_forall in Hall |- *. intros k Hk. rewrite lookup_insert_ne; [by apply Hall|]. intros Heq. apply Hnin. rewrite Heq.
    by apply (list_elem_of_fmap_2 job_key).
Qed.

Lemma leased_jobs_list J q ids js :
  leased_jobs J q ids = Ok js -> js = omap (fun id => J !! (q, id)) ids /\
    Forall (fun id => exists j, J !! (q, id) = Some j /\ jb_status j = Leased) ids.
Proof.
  revert js. induction ids as [|id ids IH]; intros js; cbn [leased_jobs omap list_omap]; [by intros [= <-]|].
  destruct (J !! (q, id)) as [j|] eqn:Hj; [|done]. case_bool_decide as Hs; [done|]. intros (js'&Hjs'&[= <-])%bind_Ok_inv.
  destruct (IH js' Hjs') as [-> Hall]. split; [done|]. constructor; [|done]. exists j. split; [done|]. by destruct (decide (jb_status j = Leased)).
Qed.
End run.
