(* ===== verification/PQueueTheorems.v ===== *)
(** * thingd: the persistent queues are correct

    The theorems about the queue store of the persistent engine, over any key-value
    store that satisfies the storage interface, and their instances on the in-memory
    store of the database. *)

From stdpp Require Import gmultiset.
From S2P Require Import Prelude Wal Table Layer Database ThingDb Keyspace RamScan Model Queue Storage Persistent PSample PStore PQueue PQueueSpec PQueueClaim PQueueOpen PQueueBatch PQueueClaimBatch PQueueClaimMany PQueueRun.

Section theorems.
Context `{KvLaws D} `{!Serde QueueJob job_wt} `{!Serde string is_str}.
Implicit Types (e : PersistentEngine D) (J : Jobs) (j : QueueJob) (q : string) (now limit : Z).

(** ** Runs *)

(** C16. Every run of queue operations (pushes, batch pushes, claims, claim-and-ack, batch
    claims, acknowledgements, batch acknowledgements, rejections) whose arguments satisfy [op_ok]
    answers what the map of jobs allows, and the engine's records, ready index, lease index, lease
    counters and ready cursors represent the map that run reaches; a run in which the storage
    refuses some commits included.  [op_ok] asks for names without a zero byte and numbers of
    their machine width, that a push uses an id its queue does not hold (a push under the id of a
    leased job hands it out twice, [push_replaces_leased_job]), and that no lease of the queue
    has expired when a batch is claimed (such a claim can misplace the ready cursor,
    [batch_claim_starves_ready_job]). *)
Theorem queue_runs_refine ops e J rs e' :
  sim e J -> ops_ok ops J -> run_ops ops e = (rs, e') -> exists J', spec_run J ops rs J' /\ sim e' J'.
Proof.
  revert e J rs. induction ops as [|op ops IH]; intros e J rs Hsim Hok; cbn [run_ops].
  { intros [= <- <-]. exists J. split; [constructor|done]. }
  destruct (run_op op e) as [r e1] eqn:Hop. destruct (run_ops ops e1) as [rs1 e2] eqn:Hops. intros [= <- <-]. destruct Hok as [Hok Hnext].
  destruct (op_refines op e J r e1 Hsim Hok Hop) as (J1&Hstep&Hsim1). destruct (IH e1 J1 rs1 Hsim1 (Hnext r J1 Hstep) Hops) as (J2&Hrun&Hsim2).
  exists J2. split; [by econstructor|done].
Qed.

(** No run of queue operations loses a job: every job stays stored under its queue and id
    with its body, priority and creation time, its attempts never fall, and once it is completed
    or dead it never changes again. *)
Theorem queue_jobs_kept ops e J rs e' :
  sim e J -> ops_ok ops J -> run_ops ops e = (rs, e') -> exists J', sim e' J' /\ evolves J J'.
Proof.
  revert e J rs. induction ops as [|op ops IH]; intros e J rs Hsim Hok; cbn [run_ops].
  { intros [= <- <-]. exists J. by split. }
  destruct (run_op op e) as [r e1] eqn:Hop. destruct (run_ops ops e1) as [rs1 e2] eqn:Hops. intros [= <- <-]. destruct Hok as [Hok Hnext].
  destruct (op_refines op e J r e1 Hsim Hok Hop) as (J1&Hstep&Hsim1). destruct (IH e1 J1 rs1 Hsim1 (Hnext r J1 Hstep) Hops) as (J2&Hsim2&Hev).
  exists J2. split; [done|]. etrans; [|exact Hev]. eapply op_step_evolves; [|done..]. apply (st_ok _ _ (qi_stored _ _ (sim_inv _ _ Hsim))).
Qed.

(** C17. Liveness of claiming: as many claims as there are available jobs, none refused by the
    storage, hand out every job that was available or whose lease had expired, and leave nothing
    to claim.  The claims are made at one time and with leases that end after it, and start from an
    engine whose ready cursors are exact ([sim]), as after opening and after the runs of
    [queue_runs_refine]; after a batch claim of an expired lease a waiting job can be
    missed ([batch_claim_starves_ready_job]). *)
Theorem queue_claims_drain n e J q options now rs e' :
  sim e J -> name_ok q -> in_expiry now -> lease_ms_ok options -> now < claim_expires now options ->
  (size (waiting now q (release_all now q J)) <= n)%nat ->
  run_ops (replicate n (PeClaim q options now)) e = (rs, e') -> Forall (fun r => exists reply, r = Ok reply) rs ->
  (forall j, release_all now q J !! (q, jb_id j) = Some j -> claimable now j = true -> Ok [claim_transition false now options j] ∈ rs) /\
  exists J', sim e' J' /\ none_claimable (release_all now q J') q now.
Proof.
  intros Hsim Hq Hnow Hms Hlease. revert e J rs Hsim. induction n as [|n IH]; intros e J rs Hsim Hn; cbn [replicate run_ops].
  { intros [= <- <-] _. assert (Hnone : none_claimable (release_all now q J) q now) by (apply waiting_none, map_size_empty_inv; lia).
    split; [|by exists J]. intros j Hj Hcl. by rewrite (Hnone j Hj) in Hcl. }
  destruct (run_op (PeClaim q options now) e) as [r e1] eqn:Hop. destruct (run_ops _ e1) as [rs1 e2] eqn:Hops. intros [= <- <-] Hall.
  apply Forall_cons in Hall as [[reply ->] Hall]. set (J1 := release_all now q J) in *.
  destruct (op_refines _ _ _ _ _ Hsim (conj Hq (conj Hnow Hms) : op_ok (PeClaim q options now) J) Hop) as (J'&(o&->&Hspec)&Hsim1).
  unfold claim_spec in Hspec. fold J1 in Hspec. pose proof (release_all_idemp now q J) as Hidem. fold J1 in Hidem.
  destruct o as [j'|].
  - destruct Hspec as (j&(Hj&_&Hcl&_)&->&->). set (j' := claim_transition false now options j).
    assert (Hrel : release_all now q (<[(q, jb_id j) := j']> J1) = <[(q, jb_id j) := j']> J1).
    { apply release_all_insert; [done|]. unfold lease_expired. cbn. unfold claim_expires in Hlease. lia. }
    pose proof (waiting_claimed now q J1 j j' Hj Hcl eq_refl) as Hsize.
    destruct (IH e1 (<[(q, jb_id j) := j']> J1) rs1 Hsim1 ltac:(rewrite Hrel; lia) Hops Hall) as [Hgot Hend]. split; [|done].
    intros k Hk Hkcl. destruct (decide (jb_id k = jb_id j)) as [Heq|Hne].
    + rewrite Heq, Hj in Hk. injection Hk as ->. by left.
    + right. apply Hgot; [|done]. fold j'. rewrite Hrel, lookup_insert_ne by congruence. done.
  - destruct Hspec as [Hnone ->]. destruct (IH e1 J1 rs1 Hsim1 ltac:(rewrite Hidem; rewrite (none_waiting now q J1), map_size_empty by (done || apply (st_ok _ _ (qi_stored _ _ (sim_inv _ _ Hsim1)))); lia) Hops Hall) as [Hgot Hend].
    split; [|done]. intros k Hk Hkcl. by rewrite (Hnone k Hk) in Hkcl.
Qed.

(** ** Single operations *)

(** A claim first returns the expired leases of the queue to the ready state and then hands
    out the first available job by priority, creation time and id, leased (or, in claim-and-ack
    mode, completed); it returns nothing exactly when no job is available, and a refused commit
    changes nothing but the release of expired leases. *)
Theorem claim_takes_first_job e J q options now r e' :
  queue_inv e J -> name_ok q -> in_expiry now -> lease_ms_ok options ->
  pe_claim_job_with_options q options now e = (r, e') ->
  match r with
  | Ok o => exists J', claim_spec (bool_decide (pe_queue_claim_mode e = ClaimAndAck)) now options q J o J' /\ queue_inv e' J'
  | Err err => commit_failed err /\ (queue_inv e' J \/ queue_inv e' (release_all now q J))
  end.
Proof. apply claim_job_refines. Qed.

(** A batch claim hands out the first limit eligible jobs in claim order, where an expired
    lease counts as eligible, and releases the expired leases it leaves behind, in one commit;
    records, indexes and lease counters stay exact, and the ready cursor stays exact unless a
    full batch took an expired lease. *)
Theorem batch_claim_takes_first_jobs e J q options limit (ack : bool) now r e' :
  queue_inv e J -> name_ok q -> in_expiry now -> lease_ms_ok options -> 0 < limit <= MAX_QUEUE_BATCH_ITEMS ->
  (if ack then pe_claim_and_ack_batch else pe_claim_jobs_with_options) q options limit now e = (r, e') ->
  match r with
  | Ok jobs => exists cs, claims_first now q J limit cs /\ jobs = set_batch_leased ack now options <$> cs /\
      let J' := claim_jobs ack now options (release_all now q J) cs in
      queue_inv_but q e' J' /\ (Forall (fun j => jb_status j = Ready) cs \/ zlen cs < limit -> queue_inv e' J')
  | Err err => commit_failed err /\ queue_inv e' J
  end.
Proof. intros Hinv Hq Hnow Hms Hlim Hrun. destruct ack; by apply (claim_batch_refines e J q options limit _ now r e'). Qed.

(** A batch acknowledgement completes exactly the listed jobs, all of which were leased and
    listed once, or it fails and changes no job. *)
Theorem ack_batch_all_or_nothing e J q ids now r e' :
  queue_inv e J -> no_nul q -> in_i64 now -> pe_ack_jobs q ids now e = (r, e') ->
  match r with
  | Ok jobs => NoDup ids /\ queue_inv e' (complete_jobs now J (omap (fun id => J !! (q, id)) ids)) /\
      jobs = set_completed now <$> omap (fun id => J !! (q, id)) ids /\
      Forall (fun id => exists j, J !! (q, id) = Some j /\ jb_status j = Leased) ids
  | Err _ => queue_inv e' J
  end.
Proof.
  intros Hinv Hq Hnow Hrun. pose proof (ack_jobs_refines e J q ids now r e' Hinv Hq Hnow Hrun) as Ha. unfold ack_jobs_spec in Ha.
  destruct (_ <? _); [by destruct Ha as [-> ->]|]. destruct (has_duplicate ∅ ids) eqn:Hd; [by destruct Ha as [-> ->]|].
  apply has_duplicate_false in Hd as [Hnd _]. destruct (leased_jobs J q ids) as [js|err] eqn:Hjs; [|by destruct Ha as [-> ->]].
  rewrite bind_Ok in Ha. destruct Ha as [[-> Hi]|(err&->&_&Hi)]; [|done]. destruct (leased_jobs_list J q ids js Hjs) as [Hjs' Hall].
  rewrite <-Hjs'. by split_and!.
Qed.

(** C18. Listing a queue always decodes, and returns exactly the jobs stored for that queue, in
    the order of their ids. *)
Theorem list_jobs_exact e J q :
  queue_inv e J -> no_nul q ->
  exists js, pe_list_jobs e q = Ok js /\ StronglySorted (fun j j' => jb_id j ≺ jb_id j') js /\
    forall j, j ∈ js <-> J !! (q, jb_id j) = Some j.
Proof.
  intros Hinv Hq. pose proof Hinv as [Hc Hkv Hst _ _ _]. destruct queue_keyspaces_valid as (Hv1&_&_).
  unfold pe_list_jobs. rewrite Hc, kv_prefix_entries by done. unfold entries_of.
  destruct (Forall2_choose (entry_job record_entry J q) (prefix_entries (make_queue_prefix raw_codec q) (kv_view (pe_db e) "queue_jobs"))) as [js Hjs].
  { intros [k v] [Hk Hp]%elem_of_prefix_entries. apply (st_records _ _ Hst) in Hk as (i&j&Hi&Hf). exists j.
    destruct (st_ok _ _ Hst _ _ Hi) as [_ -> Hqj _ _]. assert (Hqj' : q = jb_queue j).
    { injection Hf as Hk _. rewrite <-Hk in Hp. unfold make_queue_prefix, make_queue_key in Hp. by apply scoped_key_prefix in Hp. }
    split_and!; [by rewrite Hqj'|done|done]. }
  exists js. split_and!.
  - apply decode_jobs_spec; [done|]. eapply Forall2_impl; [exact Hjs|]. intros x j (Hj&_&Hf). split; [by destruct (st_ok _ _ Hst _ _ Hj)|done].
  - eapply Forall2_sorted; [apply prefix_entries_sorted|exact Hjs|]. intros x y j j' (Hj&Hjq&Hf) (Hj'&Hjq'&Hf') Hlt.
    injection Hf as <-. injection Hf' as <-. cbn [fst] in Hlt. unfold make_queue_key in Hlt. rewrite Hjq, Hjq' in Hlt.
    apply scoped_key_order in Hlt; [|done..]. rewrite prod_lt in Hlt. destruct Hlt as [Hlt|[_ Hlt]]; [by apply key_lt_irrefl in Hlt|done].
  - intros j. split.
    + intros Hj. apply list_elem_of_lookup in Hj as [n Hn]. by destruct (Forall2_lookup_r _ _ _ _ _ Hjs Hn) as (x&_&Hj&_).
    + intros Hj. eapply (entries_complete record_entry _ _ _ _ _ j (queue_key j, json_text j)); eauto using st_ok, st_records, record_entry_inj.
      cbn [fst]. destruct (st_ok _ _ Hst _ _ Hj) as [_ Hn Hqj _ _]. injection Hn as Hn. apply scoped_key_prefix; done.
Qed.

Theorem count_jobs_exact e J :
  queue_inv e J ->
  pe_count_active_jobs e = Ok (Z.of_nat (size (filter (fun x => is_active x.2 = true) J))) /\
  pe_count_dead_jobs e = Ok (Z.of_nat (size (filter (fun x => is_dead x.2 = true) J))).
Proof. intros Hinv. by split; apply counted_jobs. Qed.

(** Rebuilding the lease index when the database is opened restores the whole queue state
    from the job records, whatever the lease index held before; if the storage refuses the
    rebuild the records are untouched. *)
Theorem reopen_restores_queues e J r e' :
  records_stored e J -> pe_queue_ready_cursors e = ∅ -> rebuild_lease_index e = (r, e') ->
  match r with
  | Ok _ => queue_inv e' J
  | Err err => commit_failed err /\ records_stored e' J
  end.
Proof.
  intros [Hc Hkv Hok Hrec Hrd Hsz] Hcur. destruct queue_keyspaces_valid as (Hv1&Hv2&Hv3).
  destruct (record_jobs _ J Hok Hrec) as (js&Hjs&Hnd&HJ).
  assert (Hjs' : Forall2 (fun x j => job_wt j /\ record_entry j = Some x) (btree_iter (kv_view (pe_db e) "queue_jobs")) js).
  { eapply Forall2_impl; [exact Hjs|]. intros x j [Hj Hx]. split; [|done]. by destruct (Hok _ _ Hj). }
  unfold rebuild_lease_index. rewrite pbind_pget, Hc, !kv_iter_entries by done.
  set (m := kv_view (pe_db e) "lease_jobs"). set (batch := foldl _ [] (btree_iter m)).
  rewrite (rebuild_records _ js) by done. rewrite pbind_plift.
  assert (Hstart : rebuilt (mkRebuild batch ∅ ∅) m ∅).
  { assert (Hempty : forall q, lease_set ∅ q = ∅) by (intros q; unfold lease_set; by rewrite map_to_list_empty).
    split; cbn [lr_batch lr_counts lr_expirations]; try (intros q; by rewrite Hempty, lookup_empty).
    - unfold batch. rewrite clear_writes.
      + intros k v. rewrite lookup_empty. split; [done|]. intros (i&j&Hi&_). by rewrite lookup_empty in Hi.
      + intros k v Hk. left. apply elem_of_btree_keys. by eexists.
      + done.
    - intros n Hn m'. unfold batch. by rewrite removes_other.
    - unfold batch. apply removes_ok; [|constructor]. apply Forall_forall. intros [k v] Hk. apply elem_of_btree_iter in Hk.
      by apply (kv_keys_ok (pe_db e) "lease_jobs" k v). }
  assert (Hjok : Forall (fun j => job_ok (job_key j) j) js).
  { apply Forall_forall. intros j Hj. apply list_elem_of_lookup in Hj as [n Hn].
    destruct (Forall2_lookup_r _ _ _ _ _ Hjs Hn) as (x&_&Hj&_). by apply Hok. }
  assert (Hlen : zlen js <= U64_MAX).
  { rewrite <-(length_fmap job_key js). assert (Hle : (length (job_key <$> js) <= size J)%nat); [|lia].
    rewrite <-size_dom, <-(size_list_to_set (C := gset (string * string))) by done. apply subseteq_size. intros i Hi.
    apply elem_of_list_to_set, list_elem_of_fmap in Hi as (j&->&Hj). apply list_elem_of_lookup in Hj as [n Hn].
    destruct (Forall2_lookup_r _ _ _ _ _ Hjs Hn) as (x&_&Hj&_). by apply elem_of_dom_2 in Hj. }
  pose proof (rebuild_fold m js _ ∅ ltac:(by intros i j; rewrite lookup_empty) Hjok Hnd ltac:(done) ltac:(rewrite map_size_empty; lia) Hstart) as Hend.
  rewrite HJ in Hend. destruct Hend as [Hix Hoth Hws Hcn Hex]. set (acc := foldl rebuild_one _ js) in *.
  destruct (commit (lr_batch acc) e) as [rc ec] eqn:Hcommit.
  destruct (commit_cases e _ rc ec Hkv Hws Hcommit) as (db&->&Hkv'&[[-> Hview]|(err&->&Hfail&Hview)]).
  2: { rewrite (pbind_Err _ _ _ _ _ Hcommit). intros [= <- <-]. split; [done|]. split; try done; cbn [pe_db set_db]; by rewrite Hview. }
  rewrite (pbind_Ok _ _ _ _ _ Hcommit). intros [= <- <-]. split; try done.
  - split; cbn [pe_db set_db set_leases]; rewrite ?Hview by done; [done|by rewrite Hoth|by rewrite Hoth|done].
  - intros q c _. cbn [pe_queue_ready_cursors set_leases set_db]. by rewrite Hcur, lookup_empty.
Qed.
End theorems.

(** ** On the in-memory store *)

#[local] Existing Instance sample_crc32.
#[local] Existing Instance sample_codec.

Definition empty_engine : PersistentEngine RamKeyspaces := mkPersistent ∅ raw_codec true 1 ∅ ∅ ∅ ∅ ∅ [] ∅ true Claim.
Definition sample_claim : QueueClaimOptions := mkClaimOptions 100.
Definition sample_job (id : string) (priority : Z) : QueueJob := with_priority (new_job "q" id "{}" 3) priority.
Definition stamped_job (id : string) (priority : Z) : QueueJob := stamp_job "2024" (sample_job id priority).

Lemma empty_sim : sim empty_engine ∅.
Proof.
  assert (Hv : forall n, kv_view (pe_db empty_engine) n = ∅) by done.
  split; [|done]. split; try done.
  split; [intros i j Hi; by rewrite lookup_empty in Hi|..];
    intros k v; rewrite Hv, lookup_empty; (split; [done|]; intros (i&j&Hi&_); by rewrite lookup_empty in Hi).
Qed.

Lemma stamped_job_ok id p : is_str id -> in_i32 p -> job_ok ("q", id) (stamped_job id p).
Proof.
  intros Hid Hp. split; try done; unfold no_nul; by apply (bool_decide_unpack _).
Qed.

Lemma stamped_pushable J id p : is_str id -> in_i32 p -> J !! ("q", id) = None -> pushable J (stamped_job id p).
Proof. intros Hid Hp HJ. split; [by apply stamped_job_ok|done..]. Qed.

(** The engine after one push. *)
Definition engine_a : PersistentEngine RamKeyspaces := (run_op (PePush "2024" (sample_job "a" 5)) empty_engine).2.
Definition jobs_a : Jobs := {[("q", "a") := stamped_job "a" 5]}.

Lemma engine_a_sim : sim engine_a jobs_a.
Proof.
  unfold engine_a. destruct (run_op (PePush "2024" (sample_job "a" 5)) empty_engine) as [r e'] eqn:Hrun.
  assert (Hr : (run_op (PePush "2024" (sample_job "a" 5)) empty_engine).1 = Ok [stamped_job "a" 5]) by (vm_compute; reflexivity).
  rewrite Hrun in Hr. cbn [fst] in Hr. subst r.
  assert (Hok : op_ok (PePush "2024" (sample_job "a" 5)) ∅) by (split; [by apply stamped_pushable|by rewrite map_size_empty]).
  destruct (op_refines _ _ _ _ _ empty_sim Hok Hrun) as (J'&[_ ->]&Hs).
  by rewrite insert_empty in Hs.
Qed.

Lemma name_ok_q : name_ok "q".
Proof. split; [unfold no_nul; by apply (bool_decide_unpack _)|done]. Qed.

Lemma sample_claim_ok : in_expiry 0 /\ lease_ms_ok sample_claim.
Proof. done. Qed.

Lemma queue_runs_refine_witness :
  let run := run_ops [PeClaim "q" sample_claim 0; PeAck "q" "a" 1] engine_a in
  exists J', spec_run jobs_a [PeClaim "q" sample_claim 0; PeAck "q" "a" 1] run.1 J' /\ sim run.2 J'.
Proof.
  apply (queue_runs_refine _ engine_a jobs_a); [apply engine_a_sim| |apply surjective_pairing].
  split; [split; [apply name_ok_q|apply sample_claim_ok]|]. intros r J' _. split; [|done]. split; [apply name_ok_q|done].
Defined.

Lemma queue_jobs_kept_witness :
  let run := run_ops [PeClaim "q" sample_claim 0; PeAck "q" "a" 1] engine_a in
  exists J', sim run.2 J' /\ evolves jobs_a J'.
Proof.
  eapply (queue_jobs_kept [PeClaim "q" sample_claim 0; PeAck "q" "a" 1] engine_a jobs_a); [apply engine_a_sim| |apply surjective_pairing].
  split; [split; [apply name_ok_q|apply sample_claim_ok]|]. intros r J' _. split; [|done]. split; [apply name_ok_q|done].
Defined.

Lemma queue_claims_drain_witness :
  Ok [claim_transition false 0 sample_claim (stamped_job "a" 5)] ∈ (run_ops (replicate 1 (PeClaim "q" sample_claim 0)) engine_a).1.
Proof.
  eapply (proj1 (queue_claims_drain 1 engine_a jobs_a "q" sample_claim 0 _ _ engine_a_sim name_ok_q (proj1 sample_claim_ok)
    (proj2 sample_claim_ok) ltac:(done) ltac:(vm_compute; lia) (surjective_pairing _) _)); [|reflexivity].
  vm_compute. reflexivity.
  Unshelve. vm_compute. repeat constructor. by eexists.
Defined.

Lemma claim_takes_first_job_witness :
  let run := pe_claim_job_with_options "q" sample_claim 0 engine_a in
  match run.1 with
  | Ok o => exists J', claim_spec false 0 sample_claim "q" jobs_a o J' /\ queue_inv run.2 J'
  | Err err => commit_failed err /\ (queue_inv run.2 jobs_a \/ queue_inv run.2 (release_all 0 "q" jobs_a))
  end.
Proof.
  apply (claim_takes_first_job engine_a jobs_a "q" sample_claim 0 _ _ (sim_inv _ _ engine_a_sim) name_ok_q
    (proj1 sample_claim_ok) (proj2 sample_claim_ok) (surjective_pairing _)).
Defined.

Lemma batch_claim_takes_first_jobs_witness :
  let run := pe_claim_jobs_with_options "q" sample_claim 2 0 engine_a in
  match run.1 with
  | Ok jobs => exists cs, claims_first 0 "q" jobs_a 2 cs /\ jobs = set_batch_leased false 0 sample_claim <$> cs /\
      let J' := claim_jobs false 0 sample_claim (release_all 0 "q" jobs_a) cs in
      queue_inv_but "q" run.2 J' /\ (Forall (fun j => jb_status j = Ready) cs \/ zlen cs < 2 -> queue_inv run.2 J')
  | Err err => commit_failed err /\ queue_inv run.2 jobs_a
  end.
Proof.
  apply (batch_claim_takes_first_jobs engine_a jobs_a "q" sample_claim 2 false 0 _ _ (sim_inv _ _ engine_a_sim) name_ok_q
    (proj1 sample_claim_ok) (proj2 sample_claim_ok) ltac:(done) (surjective_pairing _)).
Defined.

Lemma ack_batch_all_or_nothing_witness :
  queue_inv (pe_ack_jobs "q" ["a"] 1 engine_a).2 jobs_a.
Proof.
  pose proof (ack_batch_all_or_nothing engine_a jobs_a "q" ["a"] 1 _ _ (sim_inv _ _ engine_a_sim) (proj1 name_ok_q) ltac:(done)
    (surjective_pairing _)) as Hack.
  assert (Hr : exists err, (pe_ack_jobs "q" ["a"] 1 engine_a).1 = Err err) by (vm_compute; by eexists).
  destruct Hr as [err Hr]. rewrite Hr in Hack. exact Hack.
Defined.

Lemma list_jobs_exact_witness :
  exists js, pe_list_jobs engine_a "q" = Ok js /\ StronglySorted (fun j j' => jb_id j ≺ jb_id j') js /\
    forall j, j ∈ js <-> jobs_a !! ("q", jb_id j) = Some j.
Proof. apply (list_jobs_exact engine_a jobs_a "q" (sim_inv _ _ engine_a_sim) (proj1 name_ok_q)). Defined.

Lemma count_jobs_exact_witness :
  pe_count_active_jobs engine_a = Ok (Z.of_nat (size (filter (fun x => is_active x.2 = true) jobs_a))) /\
  pe_count_dead_jobs engine_a = Ok (Z.of_nat (size (filter (fun x => is_dead x.2 = true) jobs_a))).
Proof. apply (count_jobs_exact engine_a jobs_a (sim_inv _ _ engine_a_sim)). Defined.

Lemma engine_a_stored : records_stored engine_a jobs_a.
Proof. destruct engine_a_sim as [[H1 H2 [H3 H4 H5 _] _ _ H6] _]. by split. Qed.

Lemma reopen_restores_queues_witness :
  let run := rebuild_lease_index engine_a in
  match run.1 with Ok _ => queue_inv run.2 jobs_a | Err err => commit_failed err /\ records_stored run.2 jobs_a end.
Proof. apply (reopen_restores_queues engine_a jobs_a _ _ engine_a_stored eq_refl (surjective_pairing _)). Defined.

(** ** Where the engine departs from its contract *)

Definition reply_ids (r : thingd_result (list QueueJob)) : option (list string) :=
  match r with Ok js => Some (jb_id <$> js) | Err _ => None end.

(** Job [x] is leased until 100; [a] and [b] wait behind it when a batch of one is
    claimed at 1000. *)
Definition starving_run : list (thingd_result (list QueueJob)) * PersistentEngine RamKeyspaces :=
  run_ops [PePush "2024" (sample_job "x" 9); PeClaim "q" sample_claim 0; PePush "2024" (sample_job "a" 5);
           PePush "2024" (sample_job "b" 4); PeClaimBatch false "q" sample_claim 1 1000;
           PeClaim "q" sample_claim 1001; PeClaim "q" sample_claim 1002; PeClaim "q" sample_claim 1003] empty_engine.

(** A batch of one that takes an expired lease moves the ready cursor past the ready job it
    displaced: the next single claim returns a job of lower priority, and later claims return
    nothing although the displaced job is ready and available. *)
Example batch_claim_starves_ready_job :
  reply_ids <$> starving_run.1 =
    [Some ["x"]; Some ["x"]; Some ["a"]; Some ["b"]; Some ["x"]; Some ["b"]; Some []; Some []] /\
  exists jobs, pe_list_jobs starving_run.2 "q" = Ok jobs /\
    jb_id <$> List.filter (claimable 1003) jobs = ["a"].
Proof. split; [vm_compute; reflexivity|]. eexists. split; vm_compute; reflexivity. Qed.

(** C19. The delay of a rejected job with attempts left is added to the time in 64-bit arithmetic:
    the job becomes available exactly after its delay if and only if the sum is an [i64];
    for a longer delay the sum wraps around into the past and the job can be claimed at once
    (the build that panics on overflow apart). *)
Theorem nack_delay_wraps now delay error j :
  0 <= now <= I64_MAX -> 0 <= delay <= U64_MAX -> jb_attempts j < jb_max_attempts j ->
  let j' := nack_transition now (mkNackOptions delay error) j in
  jb_status j' = Ready /\
  (jb_available_at_ms j' = now + delay <-> now + delay <= I64_MAX) /\
  (I64_MAX < now + delay -> jb_available_at_ms j' = now + delay - 2 ^ 64 /\ claimable now j' = true).
Proof.
  intros Hnow Hd Ha j'. assert (Hj : jb_status j' = Ready /\ jb_available_at_ms j' = i64_wrap (now + i64_wrap delay)).
  { unfold j', nack_transition. destruct (Z.leb_spec (jb_max_attempts j) (jb_attempts j)); [lia|]. done. }
  destruct Hj as [Hst Hav].
  assert (Hw : i64_wrap (now + i64_wrap delay) = if now + delay <=? I64_MAX then now + delay else now + delay - 2 ^ 64).
  { unfold i64_wrap, I64_MIN, I64_MAX, U64_MAX in *. destruct (Z.leb_spec (now + delay) 9223372036854775807).
    - rewrite (Z.mod_small (delay - _)) by lia. rewrite Z.mod_small; lia.
    - destruct (Z.le_gt_cases delay 9223372036854775807).
      + rewrite (Z.mod_small (delay - _)) by lia. rewrite <-(Z.mod_unique_pos _ _ 1 (now + delay - 9223372036854775808)); lia.
      + rewrite <-(Z.mod_unique_pos (delay - _) _ 1 (delay - 9223372036854775808)) by lia. rewrite Z.mod_small; lia. }
  rewrite Hav, Hw. unfold I64_MAX, U64_MAX in *. split_and!; [done|destruct (Z.leb_spec (now + delay) 9223372036854775807); lia|].
  intros Hlong. destruct (Z.leb_spec (now + delay) 9223372036854775807); [lia|]. split; [done|].
  unfold claimable. rewrite Hst, bool_decide_true by done. cbn. rewrite Hav, Hw. unfold I64_MAX. destruct (Z.leb_spec (now + delay) 9223372036854775807); [lia|]. lia.
Qed.

Lemma nack_delay_wraps_witness :
  let j' := nack_transition 50 (mkNackOptions I64_MAX "late") (sample_job "a" 5) in
  jb_status j' = Ready /\ (jb_available_at_ms j' = 50 + I64_MAX <-> 50 + I64_MAX <= I64_MAX) /\
  (I64_MAX < 50 + I64_MAX -> jb_available_at_ms j' = 50 + I64_MAX - 2 ^ 64 /\ claimable 50 j' = true).
Proof. apply (nack_delay_wraps 50 I64_MAX "late" (sample_job "a" 5)); done. Defined.

(** A push under the id of a leased job hands the job out twice. *)
Example push_replaces_leased_job :
  reply_ids <$> (run_ops [PePush "2024" (sample_job "a" 5); PeClaim "q" sample_claim 0; PePush "2024" (sample_job "a" 5);
                          PeClaim "q" sample_claim 1] empty_engine).1
  = [Some ["a"]; Some ["a"]; Some ["a"]; Some ["a"]].
Proof. vm_compute. reflexivity. Qed.
