(* ===== verification/PEvents.v ===== *)
(** * thingd: event log of the persistent engine

    Models [impl EventLog for PersistentEngine] of [crates/thingd/src/persistent.rs] and
    the part of [open_from_database] that restores its state.  Events live in the keyspace
    [events] under their stream and sequence number; the next sequence number of a stream
    and its idempotency keys are kept in memory and, for a durable database, written as
    one metadata record per stream in the same batch as the event. *)

From S2P Require Import Prelude Wal Table Layer Database Keyspace RamScan Model Objects Events Storage Persistent PSample PQueue.

(** ** Metadata of a stream *)

Record EventMetadata := mkMeta {
  em_stream : string;
  em_max_sequence : Z;
  em_idempotency_keys : gmap string Z;
}.

Record meta_wt (md : EventMetadata) : Prop := {
  mw_stream : is_str (em_stream md);
  mw_max : in_u64 (em_max_sequence md);
  mw_keys : forall k n, em_idempotency_keys md !! k = Some n -> is_str k /\ in_u64 n;
}.

Abbreviation Counters := (gmap string Z).
Abbreviation IdemKeys := (gmap (string * string) Z).

(** The idempotency keys of one stream. *)
Definition stream_keys (keys : IdemKeys) (stream : string) : gmap string Z :=
  list_to_map (omap (fun entry : string * string * Z =>
                       let '(stored_stream, key, sequence) := entry in
                       if bool_decide (stored_stream = stream) then Some (key, sequence) else None)
                 (map_to_list keys)).

Definition advance_event_sequence (counters : Counters) (stream : string) : Z * Counters :=
  match counters !! stream with
  | Some sequence => let sequence := u64_wrapping_add sequence 1 in (sequence, <[stream := sequence]> counters)
  | None => (1, <[stream := 1]> counters)
  end.

Definition pe_is_protected_stream (stream : string) : bool :=
  String.prefix "__thingd:" stream.

Section events.
Context `{Kv D} `{!Serde MemoryEvent event_wt} `{!Serde EventMetadata meta_wt}.
Implicit Types (e : PersistentEngine D) (stream now : string) (ev : MemoryEvent).

Definition make_event_metadata (counters : Counters) (keys : IdemKeys) stream : EventMetadata :=
  mkMeta stream (default 0 (counters !! stream)) (stream_keys keys stream).

Definition metadata_key (c : StorageCodec) stream : bytes := encode_key c "event_metadata.stream" (str_bytes stream).

Definition encode_event_metadata (c : StorageCodec) (counters : Counters) (keys : IdemKeys) stream
    : thingd_result (bytes * bytes) :=
  raw ← storage_error (json_to_vec (make_event_metadata counters keys stream));
  encoded ← encode_value c "event_metadata" raw;
  Ok (metadata_key c stream, encoded).

Definition persist_event_metadata stream : PM D unit :=
  let* e := pget in
  if pe_in_memory e then pret () else
  let* kv := plift (encode_event_metadata (pe_codec e) (pe_event_seq_counters e) (pe_event_idempotency_keys e) stream) in
  ks_insert "event_meta" kv.1 kv.2.

Fixpoint persist_all_event_metadata (streams : list string) : PM D unit :=
  match streams with
  | [] => pret ()
  | stream :: streams => let* _ := persist_event_metadata stream in persist_all_event_metadata streams
  end.

(** ** Appending *)

(** The event stored under a sequence number. *)
Definition event_at e stream (sequence : Z) : thingd_result (option MemoryEvent) :=
  data ← storage_error (kv_get (pe_db e) "events" (make_event_key (pe_codec e) stream sequence));
  match data with
  | Some data => Some <$> deserialize (pe_codec e) data
  | None => Ok None
  end.

(** The event already stored under the idempotency key. *)
Definition stored_event e (keys : IdemKeys) ev : thingd_result (option MemoryEvent) :=
  if bool_decide (ev_idempotency_key ev = "") then Ok None else
  match keys !! (ev_stream ev, ev_idempotency_key ev) with
  | Some existing_seq => event_at e (ev_stream ev) existing_seq
  | None => Ok None
  end.

Definition remember_key (keys : IdemKeys) ev : IdemKeys :=
  if bool_decide (ev_idempotency_key ev = "") then keys
  else <[(ev_stream ev, ev_idempotency_key ev) := ev_sequence ev]> keys.

(** What a refused commit undoes. *)
Definition rollback_append (previous_sequence : option Z) ev e : PersistentEngine D :=
  let keys := pe_event_idempotency_keys e in
  set_event_state e
    (match previous_sequence with
     | Some previous => <[ev_stream ev := previous]> (pe_event_seq_counters e)
     | None => delete (ev_stream ev) (pe_event_seq_counters e)
     end)
    (if bool_decide (ev_idempotency_key ev = "") then keys
     else delete (ev_stream ev, ev_idempotency_key ev) keys).

Definition commit_append (batch : list BatchWrite) (previous_sequence : option Z) ev : PM D MemoryEvent :=
  fun e => match commit batch e with
           | (Ok _, e) => (Ok ev, e)
           | (Err err, e) => (Err err, rollback_append previous_sequence ev e)
           end.

Definition pe_append_event now ev : PM D MemoryEvent :=
  let* e := pget in
  let c := pe_codec e in
  let* existing := plift (stored_event e (pe_event_idempotency_keys e) ev) in
  match existing with
  | Some existing => pret existing
  | None =>
      let previous_sequence := pe_event_seq_counters e !! ev_stream ev in
      let '(sequence, counters) := advance_event_sequence (pe_event_seq_counters e) (ev_stream ev) in
      let* _ := pmodify (fun e => set_event_state e counters (pe_event_idempotency_keys e)) in
      let ev := with_sequence ev sequence now in
      let* data := plift (serialize c ev) in
      let keys := remember_key (pe_event_idempotency_keys e) ev in
      let* _ := pmodify (fun e => set_event_state e (pe_event_seq_counters e) keys) in
      let batch := batch_insert [] "events" (make_event_key c (ev_stream ev) sequence) data in
      let* batch := plift (
        if pe_in_memory e then Ok batch else
        kv ← encode_event_metadata c counters keys (ev_stream ev);
        Ok (batch_insert batch "event_meta" kv.1 kv.2)) in
      commit_append batch previous_sequence ev
  end.

(** The state of the loop of [append_events_batch].  [BTreeSet] is the keys of a map. *)
Record AppendFold := mkAppend {
  af_results : list MemoryEvent;
  af_pending : list MemoryEvent;
  af_pending_idempotency : gmap (string * string) MemoryEvent;
  af_sequences : Counters;
  af_idempotency : IdemKeys;
  af_affected : gmap string unit;
  af_batch : list BatchWrite;
}.

(** The event stored, or appended earlier in the batch, under the idempotency key. *)
Definition batch_existing e (acc : AppendFold) ev : thingd_result (option MemoryEvent) :=
  stored ← stored_event e (af_idempotency acc) ev;
  match stored with
  | Some existing => Ok (Some existing)
  | None =>
      if bool_decide (ev_idempotency_key ev = "") then Ok None else
      match af_idempotency acc !! (ev_stream ev, ev_idempotency_key ev) with
      | Some _ => Ok (af_pending_idempotency acc !! (ev_stream ev, ev_idempotency_key ev))
      | None => Ok None
      end
  end.

Definition append_one e (acc : AppendFold) (x : string * MemoryEvent) : thingd_result AppendFold :=
  let '(now, ev) := x in
  let c := pe_codec e in
  existing ← batch_existing e acc ev;
  match existing with
  | Some existing =>
      Ok (mkAppend (af_results acc ++ [existing]) (af_pending acc) (af_pending_idempotency acc) (af_sequences acc)
            (af_idempotency acc) (af_affected acc) (af_batch acc))
  | None =>
      let '(sequence, sequences) := advance_event_sequence (af_sequences acc) (ev_stream ev) in
      let ev := with_sequence ev sequence now in
      data ← serialize c ev;
      Ok (mkAppend (af_results acc ++ [ev]) (af_pending acc ++ [ev])
            (if bool_decide (ev_idempotency_key ev = "") then af_pending_idempotency acc
             else <[(ev_stream ev, ev_idempotency_key ev) := ev]> (af_pending_idempotency acc))
            sequences (remember_key (af_idempotency acc) ev) (<[ev_stream ev := ()]> (af_affected acc))
            (batch_insert (af_batch acc) "events" (make_event_key c (ev_stream ev) sequence) data))
  end.

Definition add_metadata (c : StorageCodec) (acc : AppendFold) (batch : list BatchWrite) stream
    : thingd_result (list BatchWrite) :=
  kv ← encode_event_metadata c (af_sequences acc) (af_idempotency acc) stream;
  Ok (batch_insert batch "event_meta" kv.1 kv.2).

(** Each event with the clock reading of its append. *)
Definition pe_append_events_batch (evs : list (string * MemoryEvent)) : PM D (list MemoryEvent) :=
  let* e := pget in
  let* acc := plift (fold_res (append_one e)
    (mkAppend [] [] ∅ (pe_event_seq_counters e) (pe_event_idempotency_keys e) ∅ []) evs) in
  if bool_decide (af_pending acc = []) then pret (af_results acc) else
  let* batch := plift (
    if pe_in_memory e then Ok (af_batch acc)
    else fold_res (add_metadata (pe_codec e) acc) (af_batch acc) (btree_iter (af_affected acc)).*1) in
  let* _ := commit batch in
  let* _ := pmodify (fun e => set_event_state e (af_sequences acc) (af_idempotency acc)) in
  pret (af_results acc).

(** ** Listing *)

Definition EVENT_SCAN_PAGE_SIZE : Z := 1024.
Definition RAM_EVENT_SCAN_PAGE_SIZE : Z := 128.

(** Whether the loop of [list_events] keeps an event. *)
Definition event_listed (stream : option string) (options : ListEventsOptions) ev : bool :=
  in_stream stream ev
  && (match stream with Some _ => after_sequence (le_from_sequence options) ev | None => true end)
  && created_since (le_since options) ev.

Definition limit_reached (options : ListEventsOptions) (results : list MemoryEvent) : bool :=
  match le_limit options with Some limit => limit <=? zlen results | None => false end.

(** One page: whether the limit was reached, the last key read and the results so far. *)
Fixpoint scan_event_page (c : StorageCodec) (stream : option string) (options : ListEventsOptions)
    (after : option bytes) (results : list MemoryEvent) (entries : list (bytes * bytes))
    : thingd_result (bool * option bytes * list MemoryEvent) :=
  match entries with
  | [] => Ok (false, after, results)
  | (key, value) :: entries =>
      ev ← deserialize c value;
      if event_listed stream options ev then
        let results := results ++ [ev] in
        if limit_reached options results then Ok (true, Some key, results)
        else scan_event_page c stream options (Some key) results entries
      else scan_event_page c stream options (Some key) results entries
  end.

Fixpoint list_events_loop (fuel : nat) e (prefix : bytes) (page_size : Z) (stream : option string)
    (options : ListEventsOptions) (after : option bytes) (results : list MemoryEvent)
    : thingd_result (list MemoryEvent) :=
  match fuel with
  | O => Err out_of_fuel
  | S fuel =>
      entries ← storage_error (prefix_page_after (pe_db e) "events" prefix after page_size);
      if bool_decide (entries = []) then Ok results else
      scanned ← scan_event_page (pe_codec e) stream options after results entries;
      let '(reached, after, results) := scanned in
      if (reached : bool) then Ok results
      else if zlen entries <? page_size then Ok results
      else list_events_loop fuel e prefix page_size stream options after results
  end.

Definition event_page_size e (options : ListEventsOptions) : Z :=
  let default_page_size := if pe_in_memory e then RAM_EVENT_SCAN_PAGE_SIZE else EVENT_SCAN_PAGE_SIZE in
  match le_since options, le_limit options with
  | None, Some limit => Z.min limit default_page_size
  | _, _ => default_page_size
  end.

Definition pe_list_events e (stream : option string) (options : ListEventsOptions) : thingd_result (list MemoryEvent) :=
  if bool_decide (le_limit options = Some 0) then Ok [] else
  let c := pe_codec e in
  let prefix := match stream with Some stream => make_event_prefix c stream | None => [] end in
  let after := match stream, le_from_sequence options with
               | Some stream, Some sequence => Some (make_event_key c stream sequence)
               | _, _ => None
               end in
  list_events_loop (scan_fuel e "events") e prefix (event_page_size e options) stream options after [].

(** ** Deleting *)

Definition later_event stream (last : option (bytes * MemoryEvent)) (key : bytes) ev : option (bytes * MemoryEvent) :=
  if bool_decide (ev_stream ev = stream) &&
     match last with Some (_, l) => ev_sequence l <? ev_sequence ev | None => true end
  then Some (key, ev) else last.

Definition pe_delete_last_event stream : PM D (option MemoryEvent) :=
  if pe_is_protected_stream stream then plift (Err (protected_error stream)) else
  let* e := pget in
  let* last := plift (fold_res (fun last kv => ev ← deserialize (pe_codec e) kv.2; Ok (later_event stream last kv.1 ev))
                        None (kv_iter (pe_db e) "events")) in
  match last with
  | Some (key, ev) =>
      let* _ := ks_remove "events" key in
      let* _ := pmodify (fun e => set_event_state e (pe_event_seq_counters e)
        (filter (fun x : string * string * Z => x.1.1 <> stream \/ x.2 <> ev_sequence ev) (pe_event_idempotency_keys e))) in
      let* _ := persist_event_metadata stream in
      pret (Some ev)
  | None => pret None
  end.

Fixpoint remove_keys (ks : string) (keys : list bytes) : PM D unit :=
  match keys with
  | [] => pret ()
  | key :: keys => let* _ := ks_remove ks key in remove_keys ks keys
  end.

Definition pe_delete_stream stream : PM D Z :=
  if pe_is_protected_stream stream then plift (Err (protected_error stream)) else
  let* e := pget in
  let* entries := plift (fold_res (fun entries kv =>
      ev ← deserialize (A := MemoryEvent) (pe_codec e) kv.2;
      Ok (if bool_decide (ev_stream ev = stream) then entries ++ [kv.1] else entries)) [] (kv_iter (pe_db e) "events")) in
  let count := zlen entries in
  let* _ := remove_keys "events" entries in
  let* _ := pmodify (fun e => set_event_state e (delete stream (pe_event_seq_counters e))
    (filter (fun x : string * string * Z => x.1.1 <> stream) (pe_event_idempotency_keys e))) in
  let* _ := ks_remove "event_meta" (metadata_key (pe_codec e) stream) in
  pret count.

(** ** Counting *)

Definition pe_count_events e : thingd_result Z := storage_error (kv_count (pe_db e) "events").

Definition push_stream (streams : list string) ev : list string :=
  if bool_decide (ev_stream ev ∈ streams) then streams else streams ++ [ev_stream ev].

Definition pe_list_streams e : thingd_result (list string) :=
  foldl push_stream [] <$> map_res (fun kv => deserialize (A := MemoryEvent) (pe_codec e) kv.2) (kv_iter (pe_db e) "events").

(** ** Opening *)

Definition load_metadata (state : Counters * IdemKeys) (md : EventMetadata) : Counters * IdemKeys :=
  (<[em_stream md := em_max_sequence md]> state.1,
   map_fold (fun key sequence keys => <[(em_stream md, key) := sequence]> keys) state.2 (em_idempotency_keys md)).

Definition load_event (state : Counters * IdemKeys) ev : Counters * IdemKeys :=
  (<[ev_stream ev := match state.1 !! ev_stream ev with
                     | Some max => Z.max max (ev_sequence ev)
                     | None => ev_sequence ev
                     end]> state.1,
   remember_key state.2 ev).

(** The counters and keys a database holds, and whether they come from metadata. *)
Definition load_event_state (c : StorageCodec) (db : D) : thingd_result (bool * (Counters * IdemKeys)) :=
  let entries := kv_iter db "event_meta" in
  loaded ← fold_res (fun state kv =>
      decoded ← decode_value c "event_metadata" kv.2;
      md ← storage_error (json_from_slice decoded);
      Ok (load_metadata state md)) (∅, ∅) entries;
  if bool_decide (entries = []) then
    scanned ← fold_res (fun state kv => ev ← deserialize c kv.2; Ok (load_event state ev)) loaded (kv_iter db "events");
    Ok (false, scanned)
  else Ok (true, loaded).

(** [hash_order] is the order in which the hash map of counters is iterated. *)
Definition open_events (hash_order : Counters -> list string) : PM D unit :=
  let* e := pget in
  let* loaded := plift (load_event_state (pe_codec e) (pe_db e)) in
  let* _ := pmodify (fun e => set_event_state e loaded.2.1 loaded.2.2) in
  if (loaded.1 : bool) then pret () else persist_all_event_metadata (hash_order loaded.2.1).
End events.
