(* ===== verification/PEventSpec.v ===== *)
(** * thingd: what the persistent event log promises

    The abstract state of the log: the events by stream and sequence number, the counters
    and idempotency keys the engine holds in memory, and the metadata records a durable
    database holds for reopening.  [log_ok] says that counters and keys, in memory and in
    the metadata, agree with the events; every operation is proved to implement a
    transition of the abstract state that keeps it, also when a commit is refused.  Keys
    are those of the unencrypted codec. *)

From S2P Require Import Prelude Wal Table Layer Database ThingDb Keyspace RamScan Model Objects Events Storage Persistent PSample PStore PQueue PEvents.

Abbreviation EventMap := (gmap (string * Z) MemoryEvent).

Record Log := mkLog {
  lg_ram : bool;
  lg_events : EventMap;
  lg_counters : Counters;
  lg_keys : IdemKeys;
  lg_meta : gmap string EventMetadata;
}.

(** ** Keys of a stream *)

Lemma stream_keys_lookup (K : IdemKeys) s k : stream_keys K s !! k = K !! (s, k).
Proof.
  unfold stream_keys. set (g := fun entry : string * string * Z => _).
  assert (Hg : forall k' n, (k', n) ∈ omap g (map_to_list K) <-> K !! (s, k') = Some n).
  { intros k' n. rewrite list_elem_of_omap. split.
    - intros ([[s' k''] n']&Hin&Hx). unfold g in Hx. case_bool_decide; [|done]. injection Hx as -> ->. subst s'.
      by apply elem_of_map_to_list in Hin.
    - intros Hk. exists (s, k', n). split; [by apply elem_of_map_to_list|]. unfold g. by rewrite bool_decide_true. }
  assert (Hnd : NoDup (omap g (map_to_list K)).*1).
  { assert (Hkey : (omap g (map_to_list K)).*1 = omap (fun i : string * string => if bool_decide (i.1 = s) then Some i.2 else None) (map_to_list K).*1).
    { clear Hg. induction (map_to_list K) as [|[[s' k'] n] l IH]; [done|]. cbn [omap list_omap fmap list_fmap fst snd g].
      rewrite <-IH. by case_bool_decide. }
    rewrite Hkey. clear Hg Hkey. pose proof (NoDup_fst_map_to_list K) as Hn. induction Hn as [|[s' k'] l Hx _ IH]; cbn [omap list_omap fst snd]; [constructor|].
    case_bool_decide; [|done]. subst s'. constructor; [|done]. rewrite list_elem_of_omap. intros ([s'' k'']&Hin&Hk).
    cbn [fst snd] in Hk. case_bool_decide; [|done]. injection Hk as ->. by subst s''. }
  apply option_eq. intros n. rewrite <-elem_of_list_to_map by done. apply Hg.
Qed.

Lemma stream_keys_ext (K K' : IdemKeys) s : (forall k, K !! (s, k) = K' !! (s, k)) -> stream_keys K s = stream_keys K' s.
Proof. intros Hk. apply map_eq. intros k. rewrite !stream_keys_lookup. apply Hk. Qed.

(** ** Agreement of counters and keys with the events *)

Record stream_ok (E : EventMap) (s : string) (c : option Z) (K : gmap string Z) : Prop := {
  so_sequence : forall n ev, E !! (s, n) = Some ev -> 0 < n <= default 0 c;
  so_keyed : forall n ev, E !! (s, n) = Some ev -> keyed ev -> K !! ev_idempotency_key ev = Some n;
  so_back : forall k n ev, K !! k = Some n -> E !! (s, n) = Some ev -> ev_idempotency_key ev = k;
  so_range : forall k n, K !! k = Some n -> is_str k /\ 0 < n <= default 0 c;
  so_counter : 0 <= default 0 c <= U64_MAX;
}.

Definition meta_keys (M : gmap string EventMetadata) (s : string) : gmap string Z :=
  default ∅ (em_idempotency_keys <$> M !! s).

Record event_ok (i : string * Z) (ev : MemoryEvent) : Prop := {
  eo_stream : ev_stream ev = i.1;
  eo_sequence : ev_sequence ev = i.2;
  eo_typed : event_wt ev;
  eo_name : no_nul (ev_stream ev);
}.

Record meta_ok (s : string) (md : EventMetadata) : Prop := {
  mo_stream : em_stream md = s;
  mo_typed : meta_wt md;
}.

Record log_ok (L : Log) : Prop := {
  lo_events : forall i ev, lg_events L !! i = Some ev -> event_ok i ev;
  lo_memory : forall s, stream_ok (lg_events L) s (lg_counters L !! s) (stream_keys (lg_keys L) s);
  lo_records : forall s md, lg_meta L !! s = Some md -> meta_ok s md;
  lo_stored : lg_ram L = false ->
    forall s, stream_ok (lg_events L) s (em_max_sequence <$> lg_meta L !! s) (meta_keys (lg_meta L) s);
}.

Lemma stream_ok_ext E E' s c K :
  (forall n, E !! (s, n) = E' !! (s, n)) -> stream_ok E s c K -> stream_ok E' s c K.
Proof.
  intros HE [H1 H2 H3 H4 H5]. split; intros *; rewrite <-?HE; eauto.
Qed.

(** Fewer events. *)
Lemma stream_ok_sub E E' s c K : (forall i ev, E' !! i = Some ev -> E !! i = Some ev) -> stream_ok E s c K -> stream_ok E' s c K.
Proof. intros HE [H1 H2 H3 H4 H5]. split; intros *; eauto. Qed.

(** A key that leads to no event may be forgotten. *)
Lemma stream_ok_forget E s c K K' :
  (forall k n, K' !! k = Some n -> K !! k = Some n) ->
  (forall k n ev, K !! k = Some n -> E !! (s, n) = Some ev -> K' !! k = Some n) ->
  stream_ok E s c K -> stream_ok E s c K'.
Proof. intros Hsub Hkeep [H1 H2 H3 H4 H5]. split; intros *; eauto. Qed.

(** ** Transitions *)

Definition find_event (E : EventMap) (K : IdemKeys) (ev : MemoryEvent) : option MemoryEvent :=
  if bool_decide (ev_idempotency_key ev = "") then None
  else n ← K !! (ev_stream ev, ev_idempotency_key ev); E !! (ev_stream ev, n).

(** A durable database writes the metadata of the stream. *)
Definition note_meta (L : Log) (s : string) : Log :=
  if lg_ram L then L else
  mkLog false (lg_events L) (lg_counters L) (lg_keys L)
    (<[s := make_event_metadata (lg_counters L) (lg_keys L) s]> (lg_meta L)).

Definition add_event (now : string) (ev : MemoryEvent) (L : Log) : MemoryEvent * Log :=
  let '(n, C) := advance_event_sequence (lg_counters L) (ev_stream ev) in
  let ev := with_sequence ev n now in
  (ev, mkLog (lg_ram L) (<[(ev_stream ev, n) := ev]> (lg_events L)) C (remember_key (lg_keys L) ev) (lg_meta L)).

Definition spec_append (now : string) (ev : MemoryEvent) (L : Log) : MemoryEvent * Log :=
  match find_event (lg_events L) (lg_keys L) ev with
  | Some existing => (existing, L)
  | None => let '(ev', L') := add_event now ev L in (ev', note_meta L' (ev_stream ev))
  end.

Fixpoint spec_append_all (evs : list (string * MemoryEvent)) (L : Log) : list MemoryEvent * Log :=
  match evs with
  | [] => ([], L)
  | (now, ev) :: evs =>
      let '(ev, L) := spec_append now ev L in
      let '(results, L) := spec_append_all evs L in (ev :: results, L)
  end.

(** The state after a refused append: a key that led to no event is forgotten. *)
Definition forget_key (ev : MemoryEvent) (L : Log) : Log :=
  mkLog (lg_ram L) (lg_events L) (lg_counters L)
    (if bool_decide (ev_idempotency_key ev = "") then lg_keys L
     else delete (ev_stream ev, ev_idempotency_key ev) (lg_keys L)) (lg_meta L).

Definition remove_event (s : string) (n : Z) (L : Log) : Log :=
  mkLog (lg_ram L) (delete (s, n) (lg_events L)) (lg_counters L)
    (filter (fun x : string * string * Z => x.1.1 <> s \/ x.2 <> n) (lg_keys L)) (lg_meta L).

Definition forget_stream (s : string) (L : Log) : Log :=
  mkLog (lg_ram L) (lg_events L) (delete s (lg_counters L))
    (filter (fun x : string * string * Z => x.1.1 <> s) (lg_keys L)) (lg_meta L).

Definition with_events (L : Log) (E : EventMap) : Log := mkLog (lg_ram L) E (lg_counters L) (lg_keys L) (lg_meta L).
Definition with_meta (L : Log) (M : gmap string EventMetadata) : Log :=
  mkLog (lg_ram L) (lg_events L) (lg_counters L) (lg_keys L) M.

Definition outside (s : string) (E : EventMap) : EventMap := filter (fun x => x.1.1 <> s) E.
Definition within (s : string) (E : EventMap) : EventMap := filter (fun x => x.1.1 = s) E.

(** The last event of a stream, if it has one. *)
Definition is_last (E : EventMap) (s : string) (o : option MemoryEvent) : Prop :=
  match o with
  | Some ev => E !! (s, ev_sequence ev) = Some ev /\ forall n ev', E !! (s, n) = Some ev' -> n <= ev_sequence ev
  | None => forall n, E !! (s, n) = None
  end.

(** What reopening reads: counters and keys from the metadata. *)
Definition reopened (L L' : Log) : Prop :=
  lg_ram L' = lg_ram L /\ lg_events L' = lg_events L /\ lg_meta L' = lg_meta L /\
  lg_counters L' = em_max_sequence <$> lg_meta L /\
  forall s k, lg_keys L' !! (s, k) = meta_keys (lg_meta L) s !! k.

(** ** The transitions keep the agreement *)

(** An event that may be appended. *)
Record event_ready (now : string) (ev : MemoryEvent) : Prop := {
  er_stream : is_str (ev_stream ev);
  er_type : is_str (ev_event_type ev);
  er_body : is_str (ev_body ev);
  er_created : is_str (ev_created_at ev);
  er_now : is_str now;
  er_key : is_str (ev_idempotency_key ev);
  er_name : no_nul (ev_stream ev);
}.

Lemma with_sequence_ok now ev n : event_ready now ev -> in_u64 n -> event_ok (ev_stream ev, n) (with_sequence ev n now).
Proof. intros [] Hn. split; try done. split; cbn; try done. by case_bool_decide. Qed.

Definition next_sequence (C : Counters) (s : string) : Z := default 0 (C !! s) + 1.

Lemma advance_next C s : default 0 (C !! s) < U64_MAX -> 0 <= default 0 (C !! s) ->
  advance_event_sequence C s = (next_sequence C s, <[s := next_sequence C s]> C).
Proof.
  intros Hmax Hpos. unfold advance_event_sequence, next_sequence. destruct (C !! s) as [c|]; cbn in Hmax, Hpos |- *; [|done].
  unfold u64_wrapping_add. by rewrite Z.mod_small by (unfold U64_MAX in *; lia).
Qed.

Lemma remember_key_lookup K ev s k :
  remember_key K ev !! (s, k) =
  if bool_decide (s = ev_stream ev /\ k = ev_idempotency_key ev /\ keyed ev) then Some (ev_sequence ev) else K !! (s, k).
Proof.
  unfold remember_key, keyed. destruct (decide (ev_idempotency_key ev = "")) as [He|He].
  - rewrite bool_decide_true by done. rewrite bool_decide_false; [done|]. naive_solver.
  - rewrite (bool_decide_false (ev_idempotency_key ev = "")) by done. case_bool_decide as Hk.
    + destruct Hk as (->&->&_). by rewrite lookup_insert_eq.
    + rewrite lookup_insert_ne; [done|]. intros [= <- <-]. by apply Hk.
Qed.

(** The stream of the new event. *)
Lemma stream_ok_add E s c K K' ev :
  stream_ok E s c K -> default 0 c < U64_MAX -> is_str (ev_idempotency_key ev) ->
  (forall n, K !! ev_idempotency_key ev = Some n -> keyed ev -> E !! (s, n) = None) ->
  (forall k, K' !! k = if bool_decide (k = ev_idempotency_key ev /\ keyed ev) then Some (default 0 c + 1) else K !! k) ->
  stream_ok (<[(s, default 0 c + 1) := ev]> E) s (Some (default 0 c + 1)) K'.
Proof.
  intros [H1 H2 H3 H4 H5] Hmax Hstr Hdead HK'. remember (default 0 c + 1) as n0 eqn:Hn0. split; cbn [default from_option id].
  - intros n x. rewrite lookup_insert_Some. intros [[[= <-] <-]|[_ Hx]]; [lia|]. apply H1 in Hx. lia.
  - intros n x. rewrite lookup_insert_Some, HK'. intros [[[= <-] <-]|[_ Hx]] Hkey; [by rewrite bool_decide_true|].
    pose proof (H2 _ _ Hx Hkey) as Hn. rewrite bool_decide_false; [done|]. intros [Heq Hke].
    rewrite Heq in Hn. by rewrite (Hdead _ Hn Hke) in Hx.
  - intros k n x. rewrite lookup_insert_Some, HK'. case_bool_decide as Hk.
    + destruct Hk as [-> Hk]. intros [= <-] [[_ <-]|[Hne Hx]]; [done|]. by destruct Hne.
    + intros Hn [[[= <-] <-]|[_ Hx]]; [|by eapply H3]. apply H4 in Hn as [_ Hn]. lia.
  - intros k n. rewrite HK'. case_bool_decide as Hk.
    + destruct Hk as [-> _]. intros [= <-]. split; [done|lia].
    + intros Hn. apply H4 in Hn as [? ?]. split; [done|lia].
  - lia.
Qed.

Lemma find_event_dead E K ev n :
  find_event E K ev = None -> K !! (ev_stream ev, ev_idempotency_key ev) = Some n -> keyed ev -> E !! (ev_stream ev, n) = None.
Proof.
  unfold find_event, keyed. intros Hf Hn Hk. rewrite bool_decide_false in Hf by done. by rewrite Hn in Hf.
Qed.

Lemma make_metadata_ok L s : is_str s -> log_ok L -> meta_ok s (make_event_metadata (lg_counters L) (lg_keys L) s).
Proof.
  intros Hs [_ Hmem _ _]. destruct (Hmem s) as [_ _ _ Hrange Hc]. split; [done|]. split; cbn; [done|done|].
  intros k n Hk. apply Hrange in Hk as [? ?]. split; [done|]. unfold in_u64. lia.
Qed.

(** Metadata written from the engine's memory agrees like the memory. *)
Lemma note_meta_ok L s : is_str s ->
  (forall i ev, lg_events L !! i = Some ev -> event_ok i ev) ->
  (forall s, stream_ok (lg_events L) s (lg_counters L !! s) (stream_keys (lg_keys L) s)) ->
  (forall s md, lg_meta L !! s = Some md -> meta_ok s md) ->
  (lg_ram L = false -> forall s', s' <> s ->
    stream_ok (lg_events L) s' (em_max_sequence <$> lg_meta L !! s') (meta_keys (lg_meta L) s')) ->
  log_ok (note_meta L s).
Proof.
  intros Hs Hev Hmem Hrec Hst. unfold note_meta. destruct (lg_ram L) eqn:Hram.
  { split; [done..|]. by rewrite Hram. }
  split; cbn [lg_events lg_counters lg_keys lg_meta lg_ram]; [done..| |].
  - intros s' md. rewrite lookup_insert_Some. intros [[<- <-]|[_ ?]]; [|auto]. split; [done|].
    destruct (Hmem s) as [_ _ _ Hrange Hc]. split; cbn; [done|done|]. intros k n Hk. apply Hrange in Hk as [? ?].
    split; [done|]. unfold in_u64. lia.
  - intros _ s'. unfold meta_keys. destruct (decide (s' = s)) as [->|Hne].
    + rewrite lookup_insert_eq. cbn. destruct (Hmem s) as [H1 H2 H3 H4 H5]. by split.
    + rewrite lookup_insert_ne by done. by apply Hst.
Qed.

(** Appending to one stream leaves the others as they are. *)
Lemma stream_ok_other E i ev s c K : i.1 <> s -> stream_ok E s c K -> stream_ok (<[i := ev]> E) s c K.
Proof. intros Hne. apply stream_ok_ext. intros n. rewrite lookup_insert_ne; [done|]. intros ->. by apply Hne. Qed.

Lemma add_event_eq now ev L :
  log_ok L -> default 0 (lg_counters L !! ev_stream ev) < U64_MAX ->
  let n := next_sequence (lg_counters L) (ev_stream ev) in
  let ev' := with_sequence ev n now in
  add_event now ev L =
  (ev', mkLog (lg_ram L) (<[(ev_stream ev, n) := ev']> (lg_events L)) (<[ev_stream ev := n]> (lg_counters L))
          (remember_key (lg_keys L) ev') (lg_meta L)).
Proof.
  intros HL Hmax. destruct (lo_memory L HL (ev_stream ev)) as [_ _ _ _ Hc]. unfold add_event.
  by rewrite advance_next by lia.
Qed.

Lemma add_event_memory now ev L :
  log_ok L -> event_ready now ev -> default 0 (lg_counters L !! ev_stream ev) < U64_MAX ->
  find_event (lg_events L) (lg_keys L) ev = None ->
  let L' := (add_event now ev L).2 in
  (forall i x, lg_events L' !! i = Some x -> event_ok i x) /\
  forall s, stream_ok (lg_events L') s (lg_counters L' !! s) (stream_keys (lg_keys L') s).
Proof.
  intros HL Hev Hmax Hfind. rewrite add_event_eq by done. cbn [snd lg_events lg_counters lg_keys].
  pose proof (lo_memory L HL) as Hmem. pose proof (Hmem (ev_stream ev)) as Hs. pose proof (so_counter _ _ _ _ Hs) as Hc.
  set (n := next_sequence (lg_counters L) (ev_stream ev)). set (ev' := with_sequence ev n now).
  assert (Hok : event_ok (ev_stream ev, n) ev') by (apply with_sequence_ok; [done|]; unfold in_u64, n, next_sequence; lia). split.
  - intros i x. rewrite lookup_insert_Some. intros [[<- <-]|[_ Hx]]; [done|]. by apply (lo_events L HL).
  - intros s. destruct (decide (s = ev_stream ev)) as [->|Hne].
    + rewrite lookup_insert_eq. apply stream_ok_add with (K := stream_keys (lg_keys L) (ev_stream ev)); [done..|by destruct Hev| |].
      * intros m Hm Hk. rewrite stream_keys_lookup in Hm. by eapply find_event_dead.
      * intros k. rewrite !stream_keys_lookup, remember_key_lookup. cbn [ev_stream ev_idempotency_key ev' with_sequence ev_sequence].
        repeat case_bool_decide; naive_solver.
    + rewrite lookup_insert_ne by done. apply stream_ok_other; [done|]. rewrite (stream_keys_ext _ (lg_keys L)); [apply Hmem|].
      intros k. rewrite remember_key_lookup, bool_decide_false; [done|]. by intros [? _].
Qed.

Lemma spec_append_ok now ev L :
  log_ok L -> event_ready now ev -> default 0 (lg_counters L !! ev_stream ev) < U64_MAX -> log_ok (spec_append now ev L).2.
Proof.
  intros HL Hev Hmax. unfold spec_append. destruct (find_event _ _ _) eqn:Hfind; [done|].
  destruct (add_event_memory now ev L HL Hev Hmax Hfind) as [Hevs Hmem]. revert Hevs Hmem. rewrite add_event_eq by done. cbn [snd].
  intros Hevs Hmem. apply note_meta_ok; [by destruct Hev|done..| |].
  - apply (lo_records L HL).
  - cbn [lg_ram lg_events lg_meta]. intros Hram s' Hne. apply stream_ok_other; [done|]. by apply (lo_stored L HL).
Qed.

Lemma forget_key_ok ev L : log_ok L -> find_event (lg_events L) (lg_keys L) ev = None -> log_ok (forget_key ev L).
Proof.
  intros [H1 H2 H3 H4] Hfind. split; cbn [forget_key lg_events lg_counters lg_keys lg_meta lg_ram]; try done.
  intros s. eapply stream_ok_forget; [| |apply H2]; intros k n; rewrite !stream_keys_lookup.
  - case_bool_decide; [done|]. rewrite lookup_delete_Some. tauto.
  - intros x Hk Hx. case_bool_decide as He; [done|]. rewrite lookup_delete_Some. split; [|done].
    intros [= <- <-]. by rewrite (find_event_dead _ _ _ _ Hfind Hk He) in Hx.
Qed.

(** Events may be removed, with or without the keys that lead to them. *)
Lemma with_events_ok L E : log_ok L -> (forall i ev, E !! i = Some ev -> lg_events L !! i = Some ev) -> log_ok (with_events L E).
Proof.
  intros [H1 H2 H3 H4] HE. split; cbn [with_events lg_events lg_counters lg_keys lg_meta lg_ram]; eauto using stream_ok_sub.
Qed.

Lemma remove_event_ok s n L : log_ok L -> log_ok (remove_event s n L).
Proof.
  intros HL. assert (HE : log_ok (with_events L (delete (s, n) (lg_events L)))).
  { apply with_events_ok; [done|]. intros i ev. rewrite lookup_delete_Some. tauto. }
  destruct HE as [H1 H2 H3 H4]. split; try done. intros s'.
  eapply stream_ok_forget; [| |apply H2]; intros k m; rewrite !stream_keys_lookup; cbn [remove_event lg_keys with_events].
  - rewrite map_lookup_filter_Some. tauto.
  - intros x Hk Hx. apply map_lookup_filter_Some. split; [done|]. cbn [fst snd].
    destruct (decide (s' = s)) as [->|]; [|by left]. right. intros ->. cbn in Hx. by rewrite lookup_delete_eq in Hx.
Qed.

Lemma stream_ok_empty E s K : (forall n, E !! (s, n) = None) -> K = ∅ -> stream_ok E s None K.
Proof. intros HE ->. split; cbn; try done; intros *; rewrite ?HE, ?lookup_empty; done. Qed.

Lemma forget_stream_ok s L : log_ok L -> (forall n, lg_events L !! (s, n) = None) -> log_ok (forget_stream s L).
Proof.
  intros [H1 H2 H3 H4] HE. split; cbn [forget_stream lg_events lg_counters lg_keys lg_meta lg_ram]; try done.
  intros s'. destruct (decide (s' = s)) as [->|Hne].
  - rewrite lookup_delete_eq. apply stream_ok_empty; [done|]. apply map_eq. intros k. rewrite stream_keys_lookup, lookup_empty.
    apply map_lookup_filter_None. right. intros n _ Hn. by apply Hn.
  - rewrite lookup_delete_ne by done. rewrite (stream_keys_ext _ (lg_keys L)); [apply H2|]. intros k. apply option_eq. intros n.
    rewrite map_lookup_filter_Some. cbn [fst]. tauto.
Qed.

Lemma drop_meta_ok s L : log_ok L -> (forall n, lg_events L !! (s, n) = None) -> log_ok (with_meta L (delete s (lg_meta L))).
Proof.
  intros [H1 H2 H3 H4] HE. split; cbn [with_meta lg_events lg_counters lg_keys lg_meta lg_ram]; try done.
  - intros s' md. rewrite lookup_delete_Some. intros [_ ?]. auto.
  - intros Hram s'. unfold meta_keys. destruct (decide (s' = s)) as [->|Hne].
    + rewrite lookup_delete_eq. cbn. by apply stream_ok_empty.
    + rewrite lookup_delete_ne by done. by apply H4.
Qed.

Lemma reopened_ok L L' : log_ok L -> lg_ram L = false -> reopened L L' -> log_ok L'.
Proof.
  intros [H1 H2 H3 H4] Hram (Hr&He&Hm&Hc&Hk). split; rewrite ?He, ?Hm, ?Hr; auto.
  intros s. rewrite Hc, lookup_fmap. replace (stream_keys (lg_keys L') s) with (meta_keys (lg_meta L) s); [by apply H4|].
  apply map_eq. intros k. by rewrite stream_keys_lookup, Hk.
Qed.
