(* ===== verification/PEventOps.v ===== *)
(** * thingd: the event operations implement the transitions of the log

    [event_sim] relates the engine to the abstract log: the keyspaces [events] and
    [event_meta] hold one record per event and per metadata record, the engine's memory
    holds the counters and keys. *)

From S2P Require Import Prelude Wal Table Layer Database ThingDb Keyspace RamScan Model Objects Events Storage Persistent PSample PStore PQueue PEvents PEventSpec.

(** ** Event keys *)

Lemma make_event_key_raw s n : make_event_key raw_codec s n = (str_bytes s ++ [0]) ++ digits 256 8 n.
Proof. done. Qed.

Lemma u64_digits n : in_u64 n -> 0 <= n < 256 ^ Z.of_nat 8.
Proof. unfold in_u64, U64_MAX. lia. Qed.

Lemma make_event_key_inj s n s' n' :
  no_nul s -> no_nul s' -> in_u64 n -> in_u64 n' -> make_event_key raw_codec s n = make_event_key raw_codec s' n' -> s = s' /\ n = n'.
Proof.
  intros Hs Hs' Hn Hn'. rewrite !make_event_key_raw, <-!app_assoc. cbn [app]. intros Heq.
  apply terminated_inj in Heq as [Hq Heq]; [|done..]. split; [by apply str_bytes_inj|].
  rewrite <-(app_nil_r (digits 256 8 n)), <-(app_nil_r (digits 256 8 n')) in Heq.
  apply digits_inj_app in Heq as [-> _]; [done|by apply u64_digits..].
Qed.

Lemma make_event_key_ok s n : bytes_ok (make_event_key raw_codec s n).
Proof. rewrite make_event_key_raw. keys_ok. Qed.

Lemma make_event_key_prefix s s' n :
  no_nul s -> no_nul s' -> starts_with (make_event_prefix raw_codec s) (make_event_key raw_codec s' n) = true <-> s = s'.
Proof. intros. rewrite make_event_key_raw, <-app_assoc. cbn [app]. by apply starts_with_name. Qed.

(** Streams in the order of their names, events of a stream by sequence number. *)
Lemma make_event_key_order s n s' n' :
  no_nul s -> no_nul s' -> in_u64 n -> in_u64 n' ->
  make_event_key raw_codec s n ≺ make_event_key raw_codec s' n' <-> (s, n) ≺ (s', n').
Proof.
  intros Hs Hs' Hn Hn'. rewrite !make_event_key_raw, <-!app_assoc. cbn [app].
  rewrite terminated_lt_iff by (try done; keys_ok). rewrite prod_lt, !str_lt_bytes, Z_lt_key.
  rewrite <-(app_nil_r (digits 256 8 n)), <-(app_nil_r (digits 256 8 n')).
  rewrite digits_app_lt by (by apply u64_digits). split; (intros [?|[He Hd]]; [by left|right]).
  - split; [by apply str_bytes_inj|]. destruct Hd as [?|[_ Hd]]; [done|by apply key_lt_irrefl in Hd].
  - split; [by rewrite He|by left].
Qed.

Lemma event_keyspaces_valid : valid_name "events" /\ valid_name "event_meta".
Proof. by split; apply (bool_decide_unpack _). Qed.

Section ops.
Context `{KvLaws D} `{!Serde MemoryEvent event_wt} `{!Serde EventMetadata meta_wt}.
Implicit Types (e : PersistentEngine D) (L : Log) (ev : MemoryEvent) (E : EventMap) (s : string) (V : bmap bytes) (M : gmap string EventMetadata).

Definition event_entry ev : option (bytes * bytes) :=
  Some (make_event_key raw_codec (ev_stream ev) (ev_sequence ev), json_text ev).
Definition meta_entry (md : EventMetadata) : option (bytes * bytes) := Some (str_bytes (em_stream md), json_text md).

Lemma event_entry_inj i ev i' ev' k v v' :
  event_ok i ev -> event_ok i' ev' -> event_entry ev = Some (k, v) -> event_entry ev' = Some (k, v') -> i = i'.
Proof.
  unfold event_entry. intros [Hs Hn Ht Hz] [Hs' Hn' Ht' Hz'] [= <- _] [= Heq _].
  apply make_event_key_inj in Heq as [? ?]; [|done|done|by destruct Ht'|by destruct Ht].
  destruct i, i'; cbn in *. congruence.
Qed.

Lemma meta_entry_inj i md i' md' k v v' :
  meta_ok i md -> meta_ok i' md' -> meta_entry md = Some (k, v) -> meta_entry md' = Some (k, v') -> i = i'.
Proof.
  unfold meta_entry. intros [<- _] [<- _] [= <- _] [= Heq _]. by apply str_bytes_inj in Heq.
Qed.

Record event_sim e L : Prop := {
  es_codec : pe_codec e = raw_codec;
  es_kv : kv_ok (pe_db e);
  es_ram : pe_in_memory e = lg_ram L;
  es_counters : pe_event_seq_counters e = lg_counters L;
  es_keys : pe_event_idempotency_keys e = lg_keys L;
  es_events : indexed event_entry (kv_view (pe_db e) "events") (lg_events L);
  es_meta : indexed meta_entry (kv_view (pe_db e) "event_meta") (lg_meta L);
  es_log : log_ok L;
}.

(** ** Reading *)

Lemma indexed_event V E i ev :
  (forall i ev, E !! i = Some ev -> event_ok i ev) -> indexed event_entry V E -> E !! i = Some ev ->
  V !! make_event_key raw_codec i.1 i.2 = Some (json_text ev).
Proof. intros Hok HV Hi. destruct (Hok i ev Hi) as [Hs Hn _ _]. apply HV. exists i, ev. split; [done|]. unfold event_entry. by rewrite Hs, Hn. Qed.

Lemma event_at_spec e L s n :
  event_sim e L -> no_nul s -> in_u64 n -> event_at e s n = Ok (lg_events L !! (s, n)).
Proof.
  intros [Hc Hkv _ _ _ HE _ HL] Hs Hn. unfold event_at. rewrite Hc, kv_get_view by (done || apply event_keyspaces_valid). cbn [storage_error]. run.
  destruct (lg_events L !! (s, n)) as [ev|] eqn:Hi.
  - pose proof (indexed_event _ _ (s, n) ev (lo_events L HL) HE Hi) as Hv. cbn [fst snd] in Hv. rewrite Hv, deserialize_raw; [done|]. by destruct (lo_events L HL _ _ Hi).
  - destruct (kv_view (pe_db e) "events" !! make_event_key raw_codec s n) as [v|] eqn:Hv; [|done].
    apply HE in Hv as ([s' n']&ev&Hi'&Hent). destruct (lo_events L HL _ _ Hi') as [Hs' Hn' Ht Hz]. injection Hent as Hk _.
    apply make_event_key_inj in Hk as [<- <-]; [|done|done|by destruct Ht|done]. cbn in Hs', Hn'. congruence.
Qed.

Lemma stored_event_spec e L K ev :
  event_sim e L -> no_nul (ev_stream ev) -> (forall k n, K !! (ev_stream ev, k) = Some n -> in_u64 n) ->
  stored_event e K ev = Ok (find_event (lg_events L) K ev).
Proof.
  intros Hsim Hs HK. unfold stored_event, find_event. case_bool_decide; [done|].
  destruct (K !! (ev_stream ev, ev_idempotency_key ev)) as [n|] eqn:Hn; [|done]. cbn [mbind option_bind].
  by apply event_at_spec; eauto.
Qed.

Lemma keys_in_u64 L s k n : log_ok L -> lg_keys L !! (s, k) = Some n -> in_u64 n.
Proof.
  intros HL Hn. destruct (lo_memory L HL s) as [_ _ _ Hr Hc]. rewrite <-stream_keys_lookup in Hn. apply Hr in Hn as [_ Hn].
  unfold in_u64. lia.
Qed.

Lemma encode_metadata_raw (C : Counters) (K : IdemKeys) s :
  meta_ok s (make_event_metadata C K s) ->
  encode_event_metadata raw_codec C K s = Ok (str_bytes s, json_text (make_event_metadata C K s)).
Proof. intros [_ Hwt]. unfold encode_event_metadata. by rewrite json_to_vec_text. Qed.

(** ** Writing one record *)

Lemma indexed_insert_event V E s n ev :
  (forall i ev, E !! i = Some ev -> event_ok i ev) -> event_ok (s, n) ev -> E !! (s, n) = None -> indexed event_entry V E ->
  indexed event_entry (<[make_event_key raw_codec s n := json_text ev]> V) (<[(s, n) := ev]> E).
Proof.
  intros HE Hev Hnew HV. pose proof (indexed_add event_entry event_ok event_entry_inj V E (s, n) ev HE Hev Hnew HV) as Ha.
  destruct Hev as [Hs Hn _ _]. unfold add_entry, event_entry in Ha. by rewrite Hs, Hn in Ha.
Qed.

Lemma indexed_delete_event V E i ev :
  (forall i ev, E !! i = Some ev -> event_ok i ev) -> indexed event_entry V E -> E !! i = Some ev ->
  indexed event_entry (delete (make_event_key raw_codec (ev_stream ev) (ev_sequence ev)) V) (delete i E).
Proof.
  intros HE HV Hi. pose proof (indexed_drop event_entry event_ok event_entry_inj V E i HE HV) as Hd.
  rewrite Hi in Hd. exact Hd.
Qed.

Lemma indexed_insert_meta V M s md :
  (forall s md, M !! s = Some md -> meta_ok s md) -> meta_ok s md -> indexed meta_entry V M ->
  indexed meta_entry (<[str_bytes s := json_text md]> V) (<[s := md]> M).
Proof.
  intros HM Hmd HV. pose proof (indexed_update meta_entry meta_ok meta_entry_inj V M s md HM Hmd HV) as Hu.
  destruct Hmd as [Hs _]. unfold add_entry, drop_entry, meta_entry in Hu. rewrite Hs in Hu.
  destruct (M !! s) as [md0|] eqn:Hm0; cbn [mbind option_bind] in Hu; [|done].
  destruct (HM s md0 Hm0) as [Hs0 _]. by rewrite Hs0, insert_delete_eq in Hu.
Qed.

Lemma indexed_delete_meta V M s :
  (forall s md, M !! s = Some md -> meta_ok s md) -> indexed meta_entry V M ->
  indexed meta_entry (delete (str_bytes s) V) (delete s M).
Proof.
  intros HM HV. pose proof (indexed_drop meta_entry meta_ok meta_entry_inj V M s HM HV) as Hd. unfold drop_entry, meta_entry in Hd.
  destruct (M !! s) as [md|] eqn:Hm; cbn [mbind option_bind] in Hd; [by destruct (HM s md Hm) as [<- _]|].
  rewrite delete_id; [done|]. destruct (V !! str_bytes s) as [v|] eqn:Hv; [|done].
  apply HV in Hv as (s'&md&Hs'&[= Hk _]). apply str_bytes_inj in Hk. destruct (HM s' md Hs') as [Hs0 _]. congruence.
Qed.

(** ** A commit that touches only the two keyspaces *)

Lemma event_sim_commit e L db L' :
  event_sim e L -> kv_ok db -> lg_ram L' = lg_ram L ->
  indexed event_entry (kv_view db "events") (lg_events L') -> indexed meta_entry (kv_view db "event_meta") (lg_meta L') ->
  log_ok L' -> event_sim (set_event_state (set_db e db) (lg_counters L') (lg_keys L')) L'.
Proof. intros [Hc Hkv Hr _ _ _ _ _] Hkv' HR HV1 HV2 HL. split; try done. cbn. congruence. Qed.

(** The memory of the engine may follow the log in two steps. *)
Lemma set_event_state_twice e C K C' K' : set_event_state (set_event_state e C K) C' K' = set_event_state e C' K'.
Proof. done. Qed.
Lemma set_db_event_state e C K db : set_db (set_event_state e C K) db = set_event_state (set_db e db) C K.
Proof. done. Qed.

(** ** Appending *)

Lemma pbind_pmodify {A} f (g : unit -> PM D A) e : pbind (pmodify f) g e = g () (f e).
Proof. done. Qed.

(** The batch of one append: the event, and the metadata of a durable database. *)
Definition append_batch L s n ev C K : list BatchWrite :=
  let batch := batch_insert [] "events" (make_event_key raw_codec s n) (json_text ev) in
  if lg_ram L then batch else batch_insert batch "event_meta" (str_bytes s) (json_text (make_event_metadata C K s)).

Lemma append_batch_ok L s n ev C K : Forall write_ok (append_batch L s n ev C K).
Proof.
  destruct event_keyspaces_valid. unfold append_batch. pose proof writes_ok_nil.
  destruct (lg_ram L); auto using insert_ok, make_event_key_ok, str_bytes_ok.
Qed.

Lemma append_new_event now ev e L :
  event_sim e L -> event_ready now ev -> default 0 (lg_counters L !! ev_stream ev) < U64_MAX ->
  find_event (lg_events L) (lg_keys L) ev = None ->
  let n := next_sequence (lg_counters L) (ev_stream ev) in
  let ev' := with_sequence ev n now in
  let C := <[ev_stream ev := n]> (lg_counters L) in
  let K := remember_key (lg_keys L) ev' in
  pe_append_event now ev e =
  commit_append (append_batch L (ev_stream ev) n ev' C K) (lg_counters L !! ev_stream ev) ev' (set_event_state e C K).
Proof.
  intros Hsim Hev Hmax Hfind n ev' C K. pose proof Hsim as [Hc Hkv Hram HC HK _ _ HL].
  destruct (add_event_memory now ev L HL Hev Hmax Hfind) as [Hevs Hmem]. rewrite add_event_eq in Hevs, Hmem by done.
  cbn [snd lg_events lg_counters lg_keys] in Hevs, Hmem. fold n in Hevs, Hmem. fold ev' in Hevs, Hmem. fold C K in Hmem.
  pose proof (so_counter _ _ _ _ (lo_memory L HL (ev_stream ev))) as Hcount.
  unfold pe_append_event. rewrite pbind_pget, Hc, HK, HC, Hram.
  rewrite (stored_event_spec e L); [|done|by destruct Hev|intros k m; by apply keys_in_u64]. rewrite pbind_plift, Hfind.
  rewrite advance_next by lia. rewrite pbind_pmodify. fold n. cbv zeta. fold ev'.
  destruct (Hevs (ev_stream ev, n) ev' (lookup_insert_eq _ _ _)) as [_ _ Hwt _]. rewrite serialize_raw by done.
  rewrite pbind_plift, pbind_pmodify. fold K C. change (ev_stream ev') with (ev_stream ev).
  unfold append_batch. destruct (lg_ram L); [done|]. rewrite encode_metadata_raw; [done|].
  split; [done|]. destruct (Hmem (ev_stream ev)) as [_ _ _ Hr Hcc]. split; [by destruct Hev|done|].
  intros k m Hm. apply Hr in Hm as [??]. split; [done|]. unfold in_u64. lia.
Qed.

Lemma rollback_restores now ev e L db :
  let n := next_sequence (lg_counters L) (ev_stream ev) in
  let ev' := with_sequence ev n now in
  pe_event_seq_counters e = lg_counters L ->
  find_event (lg_events L) (lg_keys L) ev = None ->
  rollback_append (lg_counters L !! ev_stream ev) ev'
    (set_db (set_event_state e (<[ev_stream ev := n]> (lg_counters L)) (remember_key (lg_keys L) ev')) db) =
  set_event_state (set_db e db) (lg_counters L) (lg_keys (forget_key ev L)).
Proof.
  intros n ev' HC Hfind. unfold rollback_append. cbn [pe_event_idempotency_keys pe_event_seq_counters set_db set_event_state].
  unfold set_event_state, set_db. cbn. f_equal.
  - destruct (lg_counters L !! ev_stream ev) as [c|] eqn:Hc; cbn; [by rewrite insert_insert_eq, insert_id|by rewrite delete_insert_id].
  - unfold remember_key. cbn. case_bool_decide; [done|]. by rewrite delete_insert_eq.
Qed.

Theorem append_refines now ev e L r e' :
  event_sim e L -> event_ready now ev -> default 0 (lg_counters L !! ev_stream ev) < U64_MAX ->
  pe_append_event now ev e = (r, e') ->
  match r with
  | Ok x => x = (spec_append now ev L).1 /\ event_sim e' (spec_append now ev L).2
  | Err err => commit_failed err /\ event_sim e' (forget_key ev L)
  end.
Proof.
  intros Hsim Hev Hmax. pose proof Hsim as [Hc Hkv Hram HC HK HE HM HL]. pose proof (spec_append_ok now ev L HL Hev Hmax) as HL'.
  destruct (find_event (lg_events L) (lg_keys L) ev) as [x|] eqn:Hfind.
  { unfold pe_append_event. rewrite pbind_pget, (stored_event_spec e L), pbind_plift, HK, Hfind; [|done|by destruct Hev|].
    2: { rewrite HK. intros k m. by apply keys_in_u64. }
    intros [= <- <-]. unfold spec_append. rewrite Hfind. done. }
  rewrite (append_new_event now ev e L) by done. unfold commit_append.
  set (n := next_sequence (lg_counters L) (ev_stream ev)). set (ev' := with_sequence ev n now).
  set (C := <[ev_stream ev := n]> (lg_counters L)). set (K := remember_key (lg_keys L) ev').
  set (ws := append_batch L (ev_stream ev) n ev' C K).
  destruct (commit ws (set_event_state e C K)) as [rc ec] eqn:Hcommit.
  destruct (commit_cases (set_event_state e C K) ws rc ec Hkv (append_batch_ok _ _ _ _ _ _) Hcommit) as (db&->&Hkv'&Hcase).
  destruct event_keyspaces_valid as [Hv1 Hv2]. destruct Hcase as [[-> Hview]|(err&->&Hfail&Hview)]; intros [= <- <-].
  - pose proof Hview as Hview2. specialize (Hview _ Hv1). specialize (Hview2 _ Hv2). cbn [pe_db set_event_state] in Hview, Hview2.
    destruct (add_event_memory now ev L HL Hev Hmax Hfind) as [Hevs _]. rewrite add_event_eq in Hevs by done. cbn [snd lg_events] in Hevs.
    pose proof (so_sequence _ _ _ _ (lo_memory L HL (ev_stream ev))) as Hseq.
    assert (Hnew : lg_events L !! (ev_stream ev, n) = None).
    { destruct (lg_events L !! (ev_stream ev, n)) as [y|] eqn:Hy; [|done]. apply Hseq in Hy. unfold n, next_sequence in Hy. lia. }
    assert (Hidx : indexed event_entry (kv_view db "events") (<[(ev_stream ev, n) := ev']> (lg_events L))).
    { rewrite Hview. replace (apply_writes "events" ws _) with (<[make_event_key raw_codec (ev_stream ev) n := json_text ev']> (kv_view (pe_db e) "events"));
        [|unfold ws, append_batch; destruct (lg_ram L); by writes_simpl].
      apply indexed_insert_event; [apply (lo_events L HL)|apply (Hevs _ _ (lookup_insert_eq _ _ _))|done..]. }
    unfold spec_append in *. rewrite Hfind in *. rewrite add_event_eq in * by done. cbn [fst snd] in *. split; [done|].
    fold n in HL' |- *. fold ev' in HL' |- *. fold C K in HL' |- *. rewrite set_db_event_state.
    set (L1 := mkLog _ _ C K _) in HL' |- *.
    assert (HC1 : C = lg_counters (note_meta L1 (ev_stream ev))) by (unfold note_meta; by destruct (lg_ram L1)).
    assert (HK1 : K = lg_keys (note_meta L1 (ev_stream ev))) by (unfold note_meta; by destruct (lg_ram L1)).
    rewrite HC1, HK1 at 1. apply (event_sim_commit e L); try done; unfold note_meta in *; cbn [L1 lg_ram] in *;
      destruct (lg_ram L) eqn:HR; try done; rewrite Hview2; unfold ws, append_batch; rewrite HR; writes_simpl; [done|].
    apply indexed_insert_meta; [apply (lo_records L HL)| |done].
    apply (lo_records _ HL' (ev_stream ev)). cbn [lg_meta]. by rewrite lookup_insert_eq.
  - split; [done|]. subst K C ev' n. rewrite (rollback_restores now ev e L) by done. apply (event_sim_commit e L db (forget_key ev L)); try done.
    + by rewrite Hview.
    + by rewrite Hview.
    + by apply forget_key_ok.
Qed.
End ops.
