(* ===== verification/PEventBatch.v ===== *)
(** * thingd: a batch of events is appended like its events one by one

    [append_events_batch] collects the events of the batch and writes them, with the
    metadata of the streams they belong to, in one commit.  The state of its loop is
    related to the log the single appends would have reached. *)

From S2P Require Import Prelude Wal Table Layer Database ThingDb Keyspace RamScan Model Objects Events Storage Persistent PSample PStore PQueue PEvents PEventSpec PEventOps.

Section batch.
Context `{KvLaws D} `{!Serde MemoryEvent event_wt} `{!Serde EventMetadata meta_wt}.
Implicit Types (e : PersistentEngine D) (L : Log) (ev : MemoryEvent) (E : EventMap) (s : string) (V : bmap bytes) (acc : AppendFold).

Record append_inv L0 acc (results : list MemoryEvent) L : Prop := {
  ai_results : af_results acc = results;
  ai_sequences : af_sequences acc = lg_counters L;
  ai_keys : af_idempotency acc = lg_keys L;
  ai_ram : lg_ram L = lg_ram L0;
  ai_log : log_ok L;
  ai_old : forall i ev, lg_events L0 !! i = Some ev -> lg_events L !! i = Some ev;
  ai_pending : forall s k n, lg_keys L !! (s, k) = Some n -> lg_events L0 !! (s, n) = None ->
    af_pending_idempotency acc !! (s, k) = lg_events L !! (s, n);
  ai_index : forall V, indexed event_entry V (lg_events L0) ->
    indexed event_entry (apply_writes "events" (af_batch acc) V) (lg_events L);
  ai_others : forall n m, n <> "events" -> apply_writes n (af_batch acc) m = m;
  ai_writes : Forall write_ok (af_batch acc);
  ai_names : forall s, is_Some (af_affected acc !! s) -> is_str s;
  ai_meta : forall s, lg_meta L !! s =
    if negb (lg_ram L0) && bool_decide (is_Some (af_affected acc !! s))
    then Some (make_event_metadata (lg_counters L) (lg_keys L) s) else lg_meta L0 !! s;
  ai_none : af_pending acc = [] -> L = L0;
}.

Lemma append_inv_start L : log_ok L -> append_inv L (mkAppend [] [] ∅ (lg_counters L) (lg_keys L) ∅ []) [] L.
Proof.
  intros HL. split; cbn; try done.
  - intros s. rewrite lookup_empty. by intros [].
  - intros s. rewrite lookup_empty, bool_decide_false, andb_false_r; [done|]. by intros [].
Qed.

(** The lookup in the store and then in the batch finds what the log holds. *)
Lemma batch_existing_spec e L0 acc results L now ev :
  event_sim e L0 -> append_inv L0 acc results L -> event_ready now ev ->
  batch_existing e acc ev = Ok (find_event (lg_events L) (lg_keys L) ev).
Proof.
  intros Hsim Ha Hev. unfold batch_existing. rewrite (ai_keys _ _ _ _ Ha).
  rewrite (stored_event_spec e L0); [|done|by destruct Hev|intros k n; by apply keys_in_u64, (ai_log _ _ _ _ Ha)]. run.
  unfold find_event. case_bool_decide as Hk; [done|].
  destruct (lg_keys L !! (ev_stream ev, ev_idempotency_key ev)) as [n|] eqn:Hn; cbn [mbind option_bind]; [|done].
  destruct (lg_events L0 !! (ev_stream ev, n)) as [x|] eqn:Hx; [by rewrite (ai_old _ _ _ _ Ha _ _ Hx)|].
  by rewrite (ai_pending _ _ _ _ Ha _ _ _ Hn Hx).
Qed.

Lemma metadata_other L ev n now s :
  s <> ev_stream ev ->
  make_event_metadata (<[ev_stream ev := n]> (lg_counters L)) (remember_key (lg_keys L) (with_sequence ev n now)) s =
  make_event_metadata (lg_counters L) (lg_keys L) s.
Proof.
  intros Hne. unfold make_event_metadata. rewrite lookup_insert_ne by done. f_equal. apply stream_keys_ext. intros k.
  rewrite remember_key_lookup, bool_decide_false; [done|]. by intros [? _].
Qed.

Lemma append_one_new e L0 acc results L now ev :
  event_sim e L0 -> append_inv L0 acc results L -> event_ready now ev ->
  default 0 (lg_counters L !! ev_stream ev) < U64_MAX -> find_event (lg_events L) (lg_keys L) ev = None ->
  let n := next_sequence (lg_counters L) (ev_stream ev) in
  let ev' := with_sequence ev n now in
  append_one e acc (now, ev) = Ok (mkAppend (results ++ [ev']) (af_pending acc ++ [ev'])
    (if bool_decide (ev_idempotency_key ev = "") then af_pending_idempotency acc
     else <[(ev_stream ev, ev_idempotency_key ev) := ev']> (af_pending_idempotency acc))
    (<[ev_stream ev := n]> (lg_counters L)) (remember_key (lg_keys L) ev') (<[ev_stream ev := ()]> (af_affected acc))
    (batch_insert (af_batch acc) "events" (make_event_key raw_codec (ev_stream ev) n) (json_text ev'))).
Proof.
  intros Hsim Ha Hev Hmax Hfind n ev'. pose proof (ai_log _ _ _ _ Ha) as HL. destruct Hsim as [Hc Hkv Hram HC HK HE HM HL0] eqn:Hs.
  pose proof (so_counter _ _ _ _ (lo_memory L HL (ev_stream ev))) as Hcount.
  unfold append_one. rewrite (batch_existing_spec e L0 acc results L now) by done. rewrite Hfind, Hc. run.
  rewrite (ai_sequences _ _ _ _ Ha), advance_next by lia. cbv zeta. fold n. fold ev'.
  rewrite serialize_raw; [run; by rewrite (ai_results _ _ _ _ Ha), (ai_keys _ _ _ _ Ha)|].
  apply (with_sequence_ok now ev n); [done|]. unfold in_u64, n, next_sequence. lia.
Qed.

Lemma append_one_spec e L0 acc results L now ev :
  event_sim e L0 -> append_inv L0 acc results L -> event_ready now ev ->
  default 0 (lg_counters L !! ev_stream ev) < U64_MAX ->
  exists acc', append_one e acc (now, ev) = Ok acc' /\
    append_inv L0 acc' (results ++ [(spec_append now ev L).1]) (spec_append now ev L).2.
Proof.
  intros Hsim Ha Hev Hmax. pose proof (ai_log _ _ _ _ Ha) as HL.
  pose proof (spec_append_ok now ev L HL Hev Hmax) as HL'.
  destruct (find_event (lg_events L) (lg_keys L) ev) as [x|] eqn:Hfind.
  { eexists. unfold append_one. rewrite (batch_existing_spec e L0 acc results L now) by done. unfold spec_append.
    rewrite Hfind. run. split; [done|]. destruct Ha. split; cbn; try done. by rewrite ai_results0. }
  eexists. split; [by apply (append_one_new e L0 acc results L now ev)|]. set (n := next_sequence (lg_counters L) (ev_stream ev)).
  set (ev' := with_sequence ev n now).
  pose proof (so_sequence _ _ _ _ (lo_memory L HL (ev_stream ev))) as Hseq.
  assert (Hnew : lg_events L !! (ev_stream ev, n) = None).
  { destruct (lg_events L !! (ev_stream ev, n)) as [y|] eqn:Hy; [|done]. apply Hseq in Hy. unfold n, next_sequence in Hy. lia. }
  assert (Hev' : event_ok (ev_stream ev, n) ev').
  { pose proof (so_counter _ _ _ _ (lo_memory L HL (ev_stream ev))). apply with_sequence_ok; [done|]. unfold in_u64, n, next_sequence. lia. }
  unfold spec_append in *. rewrite Hfind in *. rewrite add_event_eq in * by done. cbn [fst snd] in *. fold n in HL' |- *. fold ev' in HL' |- *.
  set (C := <[ev_stream ev := n]> (lg_counters L)) in *. set (K := remember_key (lg_keys L) ev') in *.
  set (L1 := mkLog (lg_ram L) _ C K _) in HL' |- *.
  assert (Hnote : forall s, lg_ram (note_meta L1 s) = lg_ram L /\ lg_events (note_meta L1 s) = <[(ev_stream ev, n) := ev']> (lg_events L) /\
    lg_counters (note_meta L1 s) = C /\ lg_keys (note_meta L1 s) = K).
  { intros s. unfold note_meta. cbn [L1 lg_ram]. by destruct (lg_ram L). }
  destruct (Hnote (ev_stream ev)) as (Hn1&Hn2&Hn3&Hn4). destruct Ha as [Hres Hsq Hky Hram _ Hold Hpend Hix Hoth Hws Hnm Hmt Hnone].
  split; rewrite ?Hn1, ?Hn2, ?Hn3, ?Hn4; cbn [af_results af_sequences af_idempotency af_pending_idempotency af_batch af_affected af_pending]; try done.
  - intros i x Hx. rewrite lookup_insert_ne; [by apply Hold|]. intros <-. by rewrite (Hold _ _ Hx) in Hnew.
  - intros s k m Hm Hm0. unfold K in Hm. rewrite remember_key_lookup in Hm. case_bool_decide as Hk.
    + destruct Hk as (->&->&Hk). cbn in Hk, Hm. injection Hm as <-. rewrite bool_decide_false by done. cbn. by rewrite !lookup_insert_eq.
    + assert (Hm' : m <= default 0 (lg_counters L !! s)).
      { rewrite <-stream_keys_lookup in Hm. apply (so_range _ _ _ _ (lo_memory L HL s)) in Hm as [_ ?]. lia. }
      rewrite lookup_insert_ne; [|intros [= <- Heq]; unfold n, next_sequence in Heq; lia].
      rewrite <-(Hpend s k m) by done. case_bool_decide as Hz; [done|]. rewrite lookup_insert_ne; [done|]. intros [= <- <-]. by apply Hk.
  - intros V HV. rewrite apply_insert, bool_decide_true by done. apply indexed_insert_event; [apply (lo_events L HL)|done..|by apply Hix].
  - intros ks m Hks. rewrite apply_insert, bool_decide_false by congruence. by apply Hoth.
  - apply insert_ok; [done|apply event_keyspaces_valid|apply make_event_key_ok].
  - intros s [u Hs]. apply lookup_insert_Some in Hs as [[<- _]|[_ Hs]]; [by destruct Hev|]. by apply Hnm.
  - intros s. unfold note_meta. cbn [L1 lg_ram]. destruct (decide (s = ev_stream ev)) as [->|Hne].
    + rewrite lookup_insert_eq, (bool_decide_true (is_Some _)), andb_true_r by done. destruct (lg_ram L) eqn:HR; rewrite <-Hram; cbn [negb lg_meta].
      * cbn [L1 lg_meta]. rewrite (Hmt (ev_stream ev)). by rewrite <-Hram.
      * by rewrite lookup_insert_eq.
    + rewrite lookup_insert_ne by done. assert (Hms : lg_meta L1 !! s = lg_meta L !! s) by done.
      unfold C, K, ev'. rewrite metadata_other by done. rewrite <-Hmt, <-Hms. destruct (lg_ram L); cbn [lg_meta]; [done|by rewrite lookup_insert_ne].
  - intros Hp. by destruct (af_pending acc).
Qed.

(** The counters leave room for the events of the batch. *)
Definition room L (k : Z) : Prop := forall s, default 0 (lg_counters L !! s) + k <= U64_MAX.

Lemma room_append now ev L k : log_ok L -> 0 <= k -> room L (k + 1) -> room (spec_append now ev L).2 k.
Proof.
  intros HL Hk Hr s. pose proof (so_counter _ _ _ _ (lo_memory L HL s)) as Hc. unfold spec_append.
  destruct (find_event _ _ _); [specialize (Hr s); cbn; lia|]. rewrite add_event_eq; [|done|specialize (Hr (ev_stream ev)); lia]. cbn [fst snd].
  assert (Hn : forall L1 s', lg_counters (note_meta L1 s') = lg_counters L1) by (intros L1 s'; unfold note_meta; by destruct (lg_ram L1)).
  rewrite Hn. cbn [lg_counters]. destruct (decide (s = ev_stream ev)) as [->|Hne].
  - rewrite lookup_insert_eq. cbn. unfold next_sequence. specialize (Hr (ev_stream ev)). lia.
  - rewrite lookup_insert_ne by done. specialize (Hr s). lia.
Qed.

Lemma append_fold_spec e L0 evs acc results L :
  event_sim e L0 -> append_inv L0 acc results L -> Forall (fun x => event_ready x.1 x.2) evs -> room L (zlen evs) ->
  exists acc', fold_res (append_one e) acc evs = Ok acc' /\
    append_inv L0 acc' (results ++ (spec_append_all evs L).1) (spec_append_all evs L).2.
Proof.
  intros Hsim. revert acc results L. induction evs as [|[now ev] evs IH]; intros acc results L Ha Hall Hroom.
  { exists acc. cbn. by rewrite app_nil_r. }
  apply Forall_cons in Hall as [Hev Hall]. cbn [fst snd length] in *.
  destruct (append_one_spec e L0 acc results L now ev Hsim Ha Hev) as (acc1&Hone&Ha1); [specialize (Hroom (ev_stream ev)); lia|].
  assert (Hroom' : room (spec_append now ev L).2 (zlen evs)).
  { apply room_append; [by destruct Ha|lia|]. intros s. specialize (Hroom s). lia. }
  destruct (IH _ _ _ Ha1 Hall Hroom') as (acc2&Hfold&Ha2). exists acc2. cbn [fold_res]. rewrite Hone, bind_Ok. split; [done|].
  cbn [spec_append_all]. destruct (spec_append now ev L) as [x L1]. cbn [fst snd] in *.
  destruct (spec_append_all evs L1) as [xs L2]. cbn [fst snd] in *. by rewrite <-app_assoc in Ha2.
Qed.


(** ** The metadata of the affected streams *)

Definition meta_writes acc (batch : list BatchWrite) (streams : list string) : list BatchWrite :=
  foldl (fun batch s => batch_insert batch "event_meta" (str_bytes s)
           (json_text (make_event_metadata (af_sequences acc) (af_idempotency acc) s))) batch streams.

Lemma add_metadata_fold acc batch streams :
  Forall (fun s => meta_ok s (make_event_metadata (af_sequences acc) (af_idempotency acc) s)) streams ->
  fold_res (add_metadata raw_codec acc) batch streams = Ok (meta_writes acc batch streams).
Proof.
  intros Hall. revert batch. induction Hall as [|s streams Hs _ IH]; intros batch; [done|]. cbn [fold_res meta_writes foldl].
  assert (Hone : add_metadata raw_codec acc batch s = Ok (batch_insert batch "event_meta" (str_bytes s)
    (json_text (make_event_metadata (af_sequences acc) (af_idempotency acc) s))))
    by (unfold add_metadata; by rewrite encode_metadata_raw).
  rewrite Hone, bind_Ok. apply IH.
Qed.

Lemma meta_writes_ok acc batch streams : Forall write_ok batch -> Forall write_ok (meta_writes acc batch streams).
Proof.
  revert batch. induction streams as [|s streams IH]; intros batch Hb; [done|]. apply IH.
  apply insert_ok; [done|apply event_keyspaces_valid|apply str_bytes_ok].
Qed.

Lemma meta_writes_events acc batch streams m : apply_writes "events" (meta_writes acc batch streams) m = apply_writes "events" batch m.
Proof.
  revert batch. induction streams as [|s streams IH]; intros batch; [done|]. cbn [meta_writes foldl]. unfold meta_writes in IH. rewrite IH.
  by rewrite apply_insert, bool_decide_false.
Qed.

Lemma meta_writes_index acc batch streams V M :
  Forall (fun s => meta_ok s (make_event_metadata (af_sequences acc) (af_idempotency acc) s)) streams ->
  (forall s md, M !! s = Some md -> meta_ok s md) ->
  indexed meta_entry (apply_writes "event_meta" batch V) M ->
  indexed meta_entry (apply_writes "event_meta" (meta_writes acc batch streams) V)
    (foldl (fun M s => <[s := make_event_metadata (af_sequences acc) (af_idempotency acc) s]> M) M streams).
Proof.
  intros Hall. revert batch M. induction Hall as [|s streams Hs _ IH]; intros batch M HM Hix; [done|]. apply IH.
  - intros s' md. rewrite lookup_insert_Some. intros [[<- <-]|[_ ?]]; auto.
  - rewrite apply_insert, bool_decide_true by done. by apply indexed_insert_meta.
Qed.

Lemma foldl_insert_lookup {A} (g : string -> A) (streams : list string) (M : gmap string A) s :
  foldl (fun M s => <[s := g s]> M) M streams !! s = if bool_decide (s ∈ streams) then Some (g s) else M !! s.
Proof.
  revert M. induction streams as [|s' streams IH]; intros M; cbn [foldl]; [done|]. rewrite IH.
  destruct (decide (s = s')) as [->|Hne].
  - rewrite lookup_insert_eq, (bool_decide_true (s' ∈ s' :: streams)) by (by left). by case_bool_decide.
  - rewrite lookup_insert_ne by done. assert (Hiff : s ∈ s' :: streams <-> s ∈ streams) by (rewrite elem_of_cons; tauto).
    by rewrite (bool_decide_ext _ _ Hiff).
Qed.

Lemma affected_streams acc s : s ∈ (btree_iter (af_affected acc)).*1 <-> is_Some (af_affected acc !! s).
Proof.
  rewrite list_elem_of_fmap. split.
  - intros ([s' u]&->&Hin). apply elem_of_btree_iter in Hin. by eexists.
  - intros [u Hu]. exists (s, u). split; [done|]. by apply elem_of_btree_iter.
Qed.

(** The batch that is committed takes the store to the log of the single appends. *)
Lemma append_commit_index e L0 acc results L :
  event_sim e L0 -> append_inv L0 acc results L ->
  exists ws, (if pe_in_memory e then Ok (af_batch acc)
              else fold_res (add_metadata (pe_codec e) acc) (af_batch acc) (btree_iter (af_affected acc)).*1) = Ok ws /\
    Forall write_ok ws /\
    indexed event_entry (apply_writes "events" ws (kv_view (pe_db e) "events")) (lg_events L) /\
    indexed meta_entry (apply_writes "event_meta" ws (kv_view (pe_db e) "event_meta")) (lg_meta L).
Proof.
  intros [Hc Hkv Hram HC HK HE HM HL0] Ha. rewrite Hram, Hc. pose proof (ai_meta _ _ _ _ Ha) as Hmeta.
  destruct Ha as [Hres Hsq Hky Hr HL Hold Hpend Hix Hoth Hws Hnm _ Hnone]. destruct (lg_ram L0) eqn:HR.
  - exists (af_batch acc). split_and!; [done..|by apply Hix|]. rewrite Hoth by done.
    assert (Heq : lg_meta L = lg_meta L0) by (apply map_eq; intros s; by rewrite Hmeta). by rewrite Heq.
  - assert (Hok : Forall (fun s => meta_ok s (make_event_metadata (af_sequences acc) (af_idempotency acc) s)) (btree_iter (af_affected acc)).*1).
    { apply Forall_forall. intros s Hs. rewrite Hsq, Hky. apply make_metadata_ok; [|done]. by apply Hnm, affected_streams. }
    exists (meta_writes acc (af_batch acc) (btree_iter (af_affected acc)).*1). split_and!; [by apply add_metadata_fold|by apply meta_writes_ok| |].
    + rewrite meta_writes_events. by apply Hix.
    + replace (lg_meta L) with (foldl (fun M s => <[s := make_event_metadata (af_sequences acc) (af_idempotency acc) s]> M)
        (lg_meta L0) (btree_iter (af_affected acc)).*1).
      * apply meta_writes_index; [done|apply (lo_records L0 HL0)|by rewrite Hoth].
      * apply map_eq. intros s. rewrite foldl_insert_lookup, Hmeta, Hsq, Hky. cbn [negb andb].
        by rewrite (bool_decide_ext _ _ (affected_streams acc s)).
Qed.

Theorem append_batch_refines evs e L r e' :
  event_sim e L -> Forall (fun x => event_ready x.1 x.2) evs -> room L (zlen evs) ->
  pe_append_events_batch evs e = (r, e') ->
  match r with
  | Ok xs => xs = (spec_append_all evs L).1 /\ event_sim e' (spec_append_all evs L).2
  | Err err => commit_failed err /\ event_sim e' L
  end.
Proof.
  intros Hsim Hall Hroom. pose proof Hsim as [Hc Hkv Hram HC HK HE HM HL].
  destruct (append_fold_spec e L evs _ _ L Hsim (append_inv_start L HL) Hall Hroom) as (acc&Hfold&Ha). cbn [app] in Ha.
  unfold pe_append_events_batch. rewrite pbind_pget, HC, HK, Hfold, pbind_plift.
  destruct (append_commit_index e L acc _ _ Hsim Ha) as (ws&Hws&Hok&Hie&Him).
  case_bool_decide as Hp.
  { intros [= <- <-]. split; [by apply (ai_results _ _ _ _ Ha)|]. by rewrite (ai_none _ _ _ _ Ha Hp). }
  rewrite Hws, pbind_plift. destruct event_keyspaces_valid as [Hv1 Hv2]. destruct (commit ws e) as [rc ec] eqn:Hcommit.
  destruct (commit_cases e ws rc ec Hkv Hok Hcommit) as (db&->&Hkv'&[[-> Hview]|(err&->&Hfail&Hview)]).
  - rewrite (pbind_Ok _ _ _ _ _ Hcommit), pbind_pmodify. intros [= <- <-]. split; [by apply (ai_results _ _ _ _ Ha)|].
    rewrite (ai_sequences _ _ _ _ Ha), (ai_keys _ _ _ _ Ha). apply (event_sim_commit e L); try done.
    + apply (ai_ram _ _ _ _ Ha).
    + by rewrite Hview.
    + by rewrite Hview.
    + apply (ai_log _ _ _ _ Ha).
  - rewrite (pbind_Err _ _ _ _ _ Hcommit). intros [= <- <-]. split; [done|]. by split; cbn; rewrite ?Hview.
Qed.
End batch.
