(* ===== verification/PEventDelete.v ===== *)
(** * thingd: deleting events, and opening the log

    [delete_last_event] and [delete_stream] read every event record and remove the ones
    they find, one commit each; [open_events] restores counters and keys from the
    metadata records, or from the events of a database that has none. *)

From S2P Require Import Prelude Wal Table Layer Database ThingDb Keyspace RamScan Model Objects Events Storage Persistent PSample PStore PQueue PEvents PEventSpec PEventOps PEventBatch.

Lemma prefix_entries_all m : prefix_entries [] m = btree_iter m.
Proof. unfold prefix_entries. by apply filter_all. Qed.

Section delete.
Context `{KvLaws D} `{!Serde MemoryEvent event_wt} `{!Serde EventMetadata meta_wt}.
Implicit Types (e : PersistentEngine D) (L : Log) (ev : MemoryEvent) (E : EventMap) (s : string) (V : bmap bytes) (M : gmap string EventMetadata).

Definition event_index ev : string * Z := (ev_stream ev, ev_sequence ev).
Definition event_pair ev : bytes * bytes := (make_event_key raw_codec (ev_stream ev) (ev_sequence ev), json_text ev).

Lemma event_ok_index i ev : event_ok i ev -> event_index ev = i.
Proof. intros [H1 H2 _ _]. destruct i. unfold event_index. cbn in *. congruence. Qed.

(** The events with a key prefix, as the keyspace lists them: by stream and sequence. *)
Lemma event_records V E p :
  (forall i ev, E !! i = Some ev -> event_ok i ev) -> indexed event_entry V E ->
  exists evs, prefix_entries p V = event_pair <$> evs /\
    (forall ev, ev ∈ evs <-> E !! event_index ev = Some ev /\ starts_with p (event_pair ev).1 = true) /\
    StronglySorted (fun a b => event_index a ≺ event_index b) evs.
Proof.
  intros HE HV. destruct (indexed_list event_entry event_ok event_entry_inj V E p HE HV) as (evs&Hall&Hin).
  assert (Hin' : forall ev, ev ∈ evs <-> E !! event_index ev = Some ev /\ starts_with p (event_pair ev).1 = true).
  { intros ev. rewrite Hin. split.
    - intros (i&x&Hi&[= <-]&Hp). split; [|done]. by rewrite (event_ok_index i ev (HE i ev Hi)).
    - intros [Hi Hp]. by exists (event_index ev), (event_pair ev). }
  exists evs. split_and!; [|done|].
  - clear -Hall. induction Hall as [|x ev l evs Hx _ IH]; [done|]. injection Hx as <-. by rewrite fmap_cons, <-IH.
  - eapply (Forall2_sorted _ _ (fun x ev => event_entry ev = Some x /\ exists i, E !! i = Some ev)); [apply prefix_entries_sorted| |].
    + apply Forall2_same_length_lookup_2; [by eapply Forall2_length|]. intros n x ev Hx Hev.
      destruct (Forall2_lookup_l _ _ _ _ _ Hall Hx) as (ev0&Hev0&Hent). assert (ev0 = ev) as -> by congruence.
      split; [done|]. apply list_elem_of_lookup_2, Hin in Hev as (i&_&Hi&_). by exists i.
    + intros x y a b [[= <-] (i&Hi)] [[= <-] (j&Hj)] Hlt. destruct (HE i a Hi) as [_ _ Ha Hna], (HE j b Hj) as [_ _ Hb Hnb].
      apply make_event_key_order in Hlt; [done|done|done|by destruct Ha|by destruct Hb].
Qed.

Lemma decode_events {S} (f : S -> bytes -> MemoryEvent -> S) evs acc :
  Forall event_wt evs ->
  fold_res (fun acc kv => ev ← deserialize raw_codec kv.2; Ok (f acc kv.1 ev)) acc (event_pair <$> evs) =
  Ok (foldl (fun acc ev => f acc (event_pair ev).1 ev) acc evs).
Proof.
  intros Hall. revert acc. induction Hall as [|ev evs Hev _ IH]; intros acc; [done|]. rewrite fmap_cons. cbn [fold_res foldl].
  cbn [event_pair snd fst]. rewrite deserialize_raw by done. run. apply IH.
Qed.

Lemma all_events e L : event_sim e L ->
  exists evs, kv_iter (pe_db e) "events" = event_pair <$> evs /\ Forall event_wt evs /\
    (forall ev, ev ∈ evs <-> lg_events L !! event_index ev = Some ev) /\
    StronglySorted (fun a b => event_index a ≺ event_index b) evs.
Proof.
  intros [Hc Hkv Hram HC HK HE HM HL]. destruct (event_records _ _ [] (lo_events L HL) HE) as (evs&Hev&Hin&Hs).
  exists evs. assert (Hin' : forall ev, ev ∈ evs <-> lg_events L !! event_index ev = Some ev) by (intros ev; rewrite Hin; naive_solver).
  split_and!; [|..|done|done].
  - rewrite kv_iter_entries by (done || apply event_keyspaces_valid). by rewrite <-prefix_entries_all.
  - apply Forall_forall. intros ev Hv. apply Hin' in Hv. by destruct (lo_events L HL _ _ Hv).
Qed.

(** ** One record removed *)

Lemma sim_set_memory e L L' :
  event_sim e L -> lg_ram L' = lg_ram L -> lg_events L' = lg_events L -> lg_meta L' = lg_meta L -> log_ok L' ->
  event_sim (set_event_state e (lg_counters L') (lg_keys L')) L'.
Proof. intros [Hc Hkv Hram HC HK HE HM HL] H1 H2 H3 HL'. split; cbn; try done; by rewrite ?H1, ?H2, ?H3. Qed.

Lemma remove_record e L ev r e' :
  event_sim e L -> lg_events L !! event_index ev = Some ev -> ks_remove "events" (event_pair ev).1 e = (r, e') ->
  match r with
  | Ok _ => event_sim e' (with_events L (delete (event_index ev) (lg_events L)))
  | Err err => commit_failed err /\ event_sim e' L
  end.
Proof.
  intros Hsim Hev. pose proof Hsim as [Hc Hkv Hram HC HK HE HM HL]. unfold ks_remove. intros Hcommit. destruct event_keyspaces_valid as [Hv1 Hv2].
  apply commit_cases in Hcommit as (db&->&Hkv'&[[-> Hview]|(err&->&Hfail&Hview)]); [..|done|].
  - split; cbn; try done.
    + rewrite Hview by done. writes_simpl. by apply indexed_delete_event; [apply (lo_events L HL)|..].
    + rewrite Hview by done. by writes_simpl.
    + apply with_events_ok; [done|]. intros i x. rewrite lookup_delete_Some. tauto.
  - split; [done|]. by split; cbn; rewrite ?Hview.
  - apply remove_ok; [apply writes_ok_nil|done|apply make_event_key_ok].
Qed.

Lemma persist_metadata_refines s e L r e' :
  event_sim e L -> is_str s -> persist_event_metadata s e = (r, e') ->
  match r with
  | Ok _ => event_sim e' (note_meta L s)
  | Err err => commit_failed err /\ event_sim e' L
  end.
Proof.
  intros Hsim Hs. pose proof Hsim as [Hc Hkv Hram HC HK HE HM HL]. unfold persist_event_metadata. rewrite pbind_pget, Hram, Hc, HC, HK.
  assert (HL' : log_ok (note_meta L s)) by (destruct HL; apply note_meta_ok; auto).
  unfold note_meta in *. destruct (lg_ram L) eqn:HR; [by intros [= <- <-]|].
  rewrite encode_metadata_raw by (by apply make_metadata_ok). rewrite pbind_plift. cbn [fst snd]. unfold ks_insert. intros Hcommit.
  destruct event_keyspaces_valid as [Hv1 Hv2]. apply commit_cases in Hcommit as (db&->&Hkv'&[[-> Hview]|(err&->&Hfail&Hview)]); [..|done|].
  - split; cbn; try done.
    + rewrite Hview by done. by writes_simpl.
    + rewrite Hview by done. writes_simpl. apply indexed_insert_meta; [apply (lo_records L HL)|by apply make_metadata_ok|done].
  - split; [done|]. split; cbn; rewrite ?Hview; done || congruence.
  - apply insert_ok; [apply writes_ok_nil|done|apply str_bytes_ok].
Qed.

(** ** The last event of a stream *)

Definition last_found s (evs : list MemoryEvent) (o : option (bytes * MemoryEvent)) : Prop :=
  match o with
  | Some (k, ev) => k = (event_pair ev).1 /\ ev ∈ evs /\ ev_stream ev = s /\
      forall x, x ∈ evs -> ev_stream x = s -> ev_sequence x <= ev_sequence ev
  | None => forall x, x ∈ evs -> ev_stream x <> s
  end.

Lemma fold_last s evs : last_found s evs (foldl (fun last ev => later_event s last (event_pair ev).1 ev) None evs).
Proof.
  induction evs as [|ev evs IH] using rev_ind; [by intros x ?%elem_of_nil|]. rewrite foldl_app. cbn [foldl].
  set (o := foldl _ None evs) in *. unfold later_event. destruct (decide (ev_stream ev = s)) as [Hs|Hs].
  - rewrite bool_decide_true by done. cbn [andb]. destruct o as [[k l]|]; cbn in IH.
    + destruct IH as (->&Hl&Hls&Hmax). destruct (Z.ltb_spec (ev_sequence l) (ev_sequence ev)); cbn [last_found].
      * split_and!; [done|apply elem_of_app; right; by left|done|]. intros x Hx Hxs. apply elem_of_app in Hx as [Hx|Hx].
        -- specialize (Hmax x Hx Hxs). lia.
        -- apply list_elem_of_singleton in Hx as ->. lia.
      * split_and!; [done|apply elem_of_app; by left|done|]. intros x Hx Hxs. apply elem_of_app in Hx as [Hx|Hx]; [by apply Hmax|].
        apply list_elem_of_singleton in Hx as ->. lia.
    + split_and!; [done|apply elem_of_app; right; by left|done|]. intros x Hx Hxs. apply elem_of_app in Hx as [Hx|Hx]; [by destruct (IH x Hx)|].
      apply list_elem_of_singleton in Hx as ->. lia.
  - rewrite bool_decide_false by done. cbn [andb]. destruct o as [[k l]|]; cbn in IH |- *.
    + destruct IH as (->&Hl&Hls&Hmax). split_and!; [done|apply elem_of_app; by left|done|]. intros x Hx Hxs.
      apply elem_of_app in Hx as [Hx|Hx]; [by apply Hmax|]. by apply list_elem_of_singleton in Hx as ->.
    + intros x Hx. apply elem_of_app in Hx as [Hx|Hx]; [by apply IH|]. by apply list_elem_of_singleton in Hx as ->.
Qed.

(** [delete_last_event] removes the last event, then rewrites the metadata. *)
Theorem delete_last_refines s e L r e' :
  event_sim e L -> pe_is_protected_stream s = false -> pe_delete_last_event s e = (r, e') ->
  exists last, is_last (lg_events L) s last /\
  match r, last with
  | Ok o, None => o = None /\ event_sim e' L
  | Ok o, Some ev => o = Some ev /\ event_sim e' (note_meta (remove_event s (ev_sequence ev) L) s)
  | Err err, Some ev => commit_failed err /\ (event_sim e' L \/ event_sim e' (remove_event s (ev_sequence ev) L))
  | Err _, None => False
  end.
Proof.
  intros Hsim Hp. pose proof Hsim as [Hc Hkv Hram HC HK HE HM HL]. destruct (all_events e L Hsim) as (evs&Hiter&Hwt&Hin&_).
  unfold pe_delete_last_event. rewrite Hp, pbind_pget, Hiter, Hc, (decode_events (fun last k ev => later_event s last k ev)), pbind_plift by done.
  pose proof (fold_last s evs) as Hlast. destruct (foldl _ None evs) as [[k ev]|]; cbn in Hlast.
  2: { intros [= <- <-]. exists None. split; [|done]. intros n. destruct (lg_events L !! (s, n)) as [x|] eqn:Hx; [|done].
       pose proof (event_ok_index _ _ (lo_events L HL _ _ Hx)) as Hi. rewrite <-Hi in Hx. apply Hin in Hx. apply Hlast in Hx.
       unfold event_index in Hi. congruence. }
  destruct Hlast as (->&Hev&Hs&Hmax). apply Hin in Hev. assert (Hidx : event_index ev = (s, ev_sequence ev)) by (unfold event_index; by rewrite Hs).
  destruct (ks_remove "events" (event_pair ev).1 e) as [r1 e1] eqn:Hrm. pose proof (remove_record e L ev r1 e1 Hsim Hev Hrm) as H1.
  intros Hrun. exists (Some ev). split.
  { split; [by rewrite <-Hidx|]. intros n x Hx. pose proof (lo_events L HL _ _ Hx) as Hok.
    pose proof (event_ok_index _ _ Hok) as Hi. destruct Hok as [Hxs Hxn _ _]. cbn in Hxs, Hxn. rewrite <-Hi in Hx. apply Hin in Hx. rewrite <-Hxn. by apply Hmax. }
  destruct r1 as [[]|err].
  2: { rewrite (pbind_Err _ _ _ _ _ Hrm) in Hrun. injection Hrun as <- <-. destruct H1 as [? ?]. split; [done|by left]. }
  rewrite (pbind_Ok _ _ _ _ _ Hrm), pbind_pmodify in Hrun.
  set (e2 := set_event_state e1 _ _) in Hrun.
  assert (H2 : event_sim e2 (remove_event s (ev_sequence ev) L)).
  { assert (He2 : e2 = set_event_state e1 (lg_counters (remove_event s (ev_sequence ev) L)) (lg_keys (remove_event s (ev_sequence ev) L)))
      by (unfold e2; destruct H1 as [_ _ _ HC1 HK1 _ _ _]; by rewrite HC1, HK1).
    rewrite He2. apply (sim_set_memory e1 _ (remove_event s (ev_sequence ev) L) H1); [done| |done|by apply remove_event_ok].
    cbn. by rewrite Hidx. }
  assert (Hstr : is_str s) by (destruct (lo_events L HL _ _ Hev) as [_ _ [Hstr _ _ _ _ _] _]; by rewrite Hs in Hstr).
  destruct (persist_event_metadata s e2) as [r3 e3] eqn:Hper. pose proof (persist_metadata_refines s e2 _ r3 e3 H2 Hstr Hper) as H3.
  destruct r3 as [[]|err].
  - rewrite (pbind_Ok _ _ _ _ _ Hper) in Hrun. by injection Hrun as <- <-.
  - rewrite (pbind_Err _ _ _ _ _ Hper) in Hrun. injection Hrun as <- <-. destruct H3 as [? ?]. split; [done|by right].
Qed.


(** ** A whole stream *)

(** Some events of the stream are gone, the others are as they were. *)
Definition part_of s E E' : Prop :=
  (forall i ev, E' !! i = Some ev -> E !! i = Some ev) /\ outside s E' = outside s E.

Lemma outside_lookup s E i ev : outside s E !! i = Some ev <-> E !! i = Some ev /\ i.1 <> s.
Proof. apply map_lookup_filter_Some. Qed.

Lemma outside_delete s n E : outside s (delete (s, n) E) = outside s E.
Proof.
  apply map_eq. intros i. apply option_eq. intros ev. rewrite !outside_lookup, lookup_delete_Some. naive_solver.
Qed.

Lemma remove_keys_refines s evs e L r e' :
  event_sim e L -> Forall (fun ev => ev_stream ev = s /\ lg_events L !! event_index ev = Some ev) evs -> NoDup (event_index <$> evs) ->
  remove_keys "events" (fst ∘ event_pair <$> evs) e = (r, e') ->
  match r with
  | Ok _ => event_sim e' (with_events L (foldl (fun E ev => delete (event_index ev) E) (lg_events L) evs))
  | Err err => commit_failed err /\ exists E', part_of s (lg_events L) E' /\ event_sim e' (with_events L E')
  end.
Proof.
  revert e L. induction evs as [|ev evs IH]; intros e L Hsim Hall Hnd.
  { intros [= <- <-]. by destruct L. }
  apply Forall_cons in Hall as [[Hs Hev] Hall]. rewrite fmap_cons in Hnd. apply NoDup_cons in Hnd as [Hnin Hnd].
  rewrite fmap_cons. cbn [remove_keys foldl]. intros Hrun. change ((fst ∘ event_pair) ev) with (event_pair ev).1 in Hrun.
  destruct (ks_remove "events" (event_pair ev).1 e) as [r1 e1] eqn:Hrm. pose proof (remove_record e L ev r1 e1 Hsim Hev Hrm) as H1.
  destruct r1 as [[]|err].
  2: { rewrite (pbind_Err _ _ _ _ _ Hrm) in Hrun. injection Hrun as <- <-. destruct H1 as [Hf ?]. split; [done|]. exists (lg_events L).
       split; [done|by destruct L]. }
  rewrite (pbind_Ok _ _ _ _ _ Hrm) in Hrun.
  assert (Hall' : Forall (fun x => ev_stream x = s /\ lg_events (with_events L (delete (event_index ev) (lg_events L))) !! event_index x = Some x) evs).
  { apply Forall_forall. intros x Hx. rewrite Forall_forall in Hall. destruct (Hall x Hx) as [??]. split; [done|]. cbn.
    rewrite lookup_delete_ne; [done|]. intros Heq. apply Hnin. rewrite Heq. by apply list_elem_of_fmap_2. }
  specialize (IH e1 _ H1 Hall' Hnd Hrun). cbn [with_events lg_events lg_ram lg_counters lg_keys lg_meta] in IH.
  destruct r as [[]|err]; [done|]. destruct IH as (Hf&E'&[Hsub Hout]&Hsim'). split; [done|]. exists E'. split; [|done]. split.
  - intros i x Hx. apply Hsub in Hx. by apply lookup_delete_Some in Hx as [_ ?].
  - rewrite Hout. unfold event_index. by rewrite Hs, outside_delete.
Qed.

Lemma collect_stream_keys s evs acc :
  foldl (fun entries ev => if bool_decide (ev_stream ev = s) then entries ++ [(event_pair ev).1] else entries) acc evs =
  acc ++ (fst ∘ event_pair <$> List.filter (in_stream (Some s)) evs).
Proof.
  revert acc. induction evs as [|ev evs IH]; intros acc; cbn [foldl]; [by rewrite app_nil_r|]. rewrite IH. cbn [List.filter in_stream].
  case_bool_decide; [|done]. by rewrite fmap_cons, <-app_assoc.
Qed.

Lemma deleted_stream s E evs :
  (forall ev, ev ∈ evs <-> ev_stream ev = s /\ E !! event_index ev = Some ev) ->
  (forall i ev, E !! i = Some ev -> event_ok i ev) -> foldl (fun E ev => delete (event_index ev) E) E evs = outside s E.
Proof.
  intros Hin HE. assert (Hd : forall E0, foldl (fun E ev => delete (event_index ev) E) E0 evs = filter (fun x => x.1 ∉ event_index <$> evs) E0).
  { clear Hin HE. induction evs as [|ev evs IH]; intros E0; cbn [foldl].
    - symmetry. apply map_filter_id. intros i x _. apply not_elem_of_nil.
    - rewrite IH. apply map_eq. intros i. apply option_eq. intros x. rewrite !map_lookup_filter_Some, lookup_delete_Some, fmap_cons.
      cbn [fst]. rewrite not_elem_of_cons. naive_solver. }
  rewrite Hd. apply map_filter_ext. intros i x Hx. cbn [fst]. rewrite list_elem_of_fmap. pose proof (event_ok_index _ _ (HE _ _ Hx)) as Hi. split.
  - intros Hn Hs. apply Hn. exists x. split; [done|]. apply Hin. rewrite Hi. split; [|done]. by destruct (HE _ _ Hx) as [-> _ _ _].
  - intros Hs (y&Hy&Hyin). apply Hin in Hyin as [Hys Hy']. rewrite Hy in Hs. unfold event_index in Hs. by cbn in Hs.
Qed.

Definition delete_stream_log s L : Log := forget_stream s (with_events L (outside s (lg_events L))).

Lemma sorted_index_NoDup evs : StronglySorted (fun a b => event_index a ≺ event_index b) evs -> NoDup (event_index <$> evs).
Proof.
  induction 1 as [|ev evs _ IH Hall]; [constructor|]. rewrite fmap_cons. constructor; [|done]. rewrite list_elem_of_fmap. intros (x&Hx&Hin).
  rewrite Forall_forall in Hall. specialize (Hall x Hin). rewrite Hx in Hall. by apply key_lt_irrefl in Hall.
Qed.

Theorem delete_stream_refines s e L r e' :
  event_sim e L -> pe_is_protected_stream s = false -> pe_delete_stream s e = (r, e') ->
  match r with
  | Ok n => n = Z.of_nat (size (within s (lg_events L))) /\
            event_sim e' (with_meta (delete_stream_log s L) (delete s (lg_meta L)))
  | Err err => commit_failed err /\
      ((exists E', part_of s (lg_events L) E' /\ event_sim e' (with_events L E')) \/ event_sim e' (delete_stream_log s L))
  end.
Proof.
  intros Hsim Hp. pose proof Hsim as [Hc Hkv Hram HC HK HE HM HL]. destruct (all_events e L Hsim) as (evs&Hiter&Hwt&Hin&Hsort).
  unfold pe_delete_stream. rewrite Hp, pbind_pget, Hiter, Hc.
  rewrite (decode_events (fun entries k ev => if bool_decide (ev_stream ev = s) then entries ++ [k] else entries)), pbind_plift by done.
  rewrite collect_stream_keys. cbn [app]. set (mine := List.filter (in_stream (Some s)) evs).
  assert (Hmine : forall ev, ev ∈ mine <-> ev_stream ev = s /\ lg_events L !! event_index ev = Some ev).
  { intros ev. unfold mine. rewrite elem_of_filter_bool, Hin. cbn [in_stream]. rewrite bool_decide_eq_true. tauto. }
  assert (Hnd : NoDup (event_index <$> mine)).
  { apply sorted_index_NoDup. eapply StronglySorted_sublist; [apply filter_sublist|done]. }
  assert (Hcount : zlen (fst ∘ event_pair <$> mine) = Z.of_nat (size (within s (lg_events L)))).
  { rewrite length_fmap. f_equal. rewrite <-(length_fmap event_index mine). rewrite <-size_dom, <-(size_list_to_set (C := gset (string * Z))) by done.
    f_equal. apply set_eq. intros i. rewrite elem_of_list_to_set, list_elem_of_fmap, elem_of_dom. split.
    - intros (ev&->&Hev). apply Hmine in Hev as [Hs Hev]. exists ev. by apply map_lookup_filter_Some.
    - intros [ev Hev]. apply map_lookup_filter_Some in Hev as [Hev Hs]. cbn in Hs. pose proof (lo_events L HL _ _ Hev) as Hok.
      exists ev. pose proof (event_ok_index _ _ Hok) as Hi. split; [done|]. apply Hmine. rewrite Hi. split; [|done]. by destruct Hok as [-> _ _ _]. }
  intros Hrun. destruct (remove_keys "events" (fst ∘ event_pair <$> mine) e) as [r1 e1] eqn:Hrm.
  assert (Hall : Forall (fun ev => ev_stream ev = s /\ lg_events L !! event_index ev = Some ev) mine) by (apply Forall_forall; intros ev; apply Hmine).
  pose proof (remove_keys_refines s mine e L r1 e1 Hsim Hall Hnd Hrm) as H1. destruct r1 as [[]|err].
  2: { rewrite (pbind_Err _ _ _ _ _ Hrm) in Hrun. injection Hrun as <- <-. destruct H1 as [? ?]. split; [done|by left]. }
  rewrite (pbind_Ok _ _ _ _ _ Hrm), pbind_pmodify in Hrun. rewrite (deleted_stream s) in H1 by (done || apply (lo_events L HL)).
  set (e2 := set_event_state e1 _ _) in Hrun.
  assert (Hgone : forall n, outside s (lg_events L) !! (s, n) = None).
  { intros n. apply map_lookup_filter_None. right. intros x _ Hx. by apply Hx. }
  assert (H2 : event_sim e2 (delete_stream_log s L)).
  { assert (He2 : e2 = set_event_state e1 (lg_counters (delete_stream_log s L)) (lg_keys (delete_stream_log s L)))
      by (unfold e2; destruct H1 as [_ _ _ HC1 HK1 _ _ _]; by rewrite HC1, HK1).
    rewrite He2. apply (sim_set_memory e1 _ (delete_stream_log s L) H1); [done..|]. apply forget_stream_ok; [by destruct H1|done]. }
  clearbody e2. pose proof H2 as [_ Hkv2 _ _ _ HE2 HM2 HL2]. unfold ks_remove in Hrun. set (ws := batch_remove [] _ _) in Hrun.
  assert (Hws : Forall write_ok ws) by (apply remove_ok; [apply writes_ok_nil|apply event_keyspaces_valid|apply str_bytes_ok]).
  destruct event_keyspaces_valid as [Hv1 Hv2]. destruct (commit ws e2) as [r3 e3] eqn:Hcommit.
  destruct (commit_cases e2 ws r3 e3 Hkv2 Hws Hcommit) as (db&->&Hkv3&[[-> Hview]|(err&->&Hfail&Hview)]).
  - rewrite (pbind_Ok _ _ _ _ _ Hcommit) in Hrun. injection Hrun as <- <-. split; [done|]. destruct H2. split; cbn; try done.
    + rewrite Hview by done. unfold ws. by writes_simpl.
    + rewrite Hview by done. unfold ws. writes_simpl. apply indexed_delete_meta; [apply (lo_records _ HL2)|done].
    + by apply (drop_meta_ok s (delete_stream_log s L)).
  - rewrite (pbind_Err _ _ _ _ _ Hcommit) in Hrun. injection Hrun as <- <-. split; [done|]. right. destruct H2. by split; cbn; rewrite ?Hview.
Qed.
End delete.
