(* ===== verification/PEventOpen.v ===== *)
(** * thingd: opening the event log

    Opening a database reads the counters and idempotency keys of every stream from the
    metadata records.  A database without any is scanned once, and the metadata derived
    from its events is written. *)

From S2P Require Import Prelude Wal Table Layer Database ThingDb Keyspace RamScan Model Objects Events Storage Persistent PSample PStore PQueue PEvents PEventSpec PEventOps PEventBatch PEventDelete.

Section reopen.
Context `{KvLaws D} `{!Serde MemoryEvent event_wt} `{!Serde EventMetadata meta_wt}.
Implicit Types (e : PersistentEngine D) (L : Log) (ev : MemoryEvent) (E : EventMap) (s : string) (V : bmap bytes) (M : gmap string EventMetadata).

(** ** Loading metadata records *)

Lemma load_keys_lookup (m : gmap string Z) (K : IdemKeys) s s' k :
  map_fold (fun key n K => <[(s, key) := n]> K) K m !! (s', k) =
  if bool_decide (s' = s) then match m !! k with Some n => Some n | None => K !! (s', k) end else K !! (s', k).
Proof.
  revert K. induction m as [|i x m Hi Hfirst IH] using map_first_key_ind; intros K.
  { rewrite map_fold_empty, lookup_empty. by case_bool_decide. }
  rewrite map_fold_insert_first_key by done. destruct (decide ((s, i) = (s', k))) as [[= -> ->]|Hne].
  - by rewrite lookup_insert_eq, bool_decide_true, lookup_insert_eq.
  - rewrite lookup_insert_ne, IH by done. case_bool_decide as Hs; [|done]. subst s'. rewrite lookup_insert_ne; congruence.
Qed.

Lemma load_all_metadata (mds : list EventMetadata) st :
  NoDup (em_stream <$> mds) ->
  let st' := foldl load_metadata st mds in
  forall s, match List.find (fun md => bool_decide (em_stream md = s)) mds with
            | Some md => st'.1 !! s = Some (em_max_sequence md) /\
                forall k, st'.2 !! (s, k) = match em_idempotency_keys md !! k with Some n => Some n | None => st.2 !! (s, k) end
            | None => st'.1 !! s = st.1 !! s /\ forall k, st'.2 !! (s, k) = st.2 !! (s, k)
            end.
Proof.
  revert st. induction mds as [|md mds IH]; intros st Hnd; cbn [foldl List.find]; [done|]. rewrite fmap_cons in Hnd.
  apply NoDup_cons in Hnd as [Hnin Hnd]. intros s. specialize (IH (load_metadata st md) Hnd s).
  assert (Hkeys : forall k, (load_metadata st md).2 !! (s, k) =
    if bool_decide (s = em_stream md) then match em_idempotency_keys md !! k with Some n => Some n | None => st.2 !! (s, k) end else st.2 !! (s, k))
    by (intros k; apply load_keys_lookup).
  destruct (decide (em_stream md = s)) as [Hs|Hs]; [rewrite bool_decide_true by done|rewrite bool_decide_false by done].
  - assert (Hnone : List.find (fun md => bool_decide (em_stream md = s)) mds = None).
    { destruct (List.find _ mds) as [md'|] eqn:Hf; [|done]. apply List.find_some in Hf as [Hin Hb]. apply bool_decide_eq_true in Hb.
      destruct Hnin. rewrite Hs, <-Hb. apply list_elem_of_fmap_2, list_elem_of_In, Hin. }
    rewrite Hnone in IH. destruct IH as [-> IH]. split; [cbn; by rewrite Hs, lookup_insert_eq|]. intros k.
    by rewrite IH, Hkeys, bool_decide_true.
  - destruct (List.find _ mds) as [md'|]; destruct IH as [-> IH].
    + split; [done|]. intros k. rewrite IH, Hkeys, bool_decide_false; [done|congruence].
    + split; [cbn; by rewrite lookup_insert_ne|]. intros k. rewrite IH, Hkeys, bool_decide_false; [done|congruence].
Qed.

Definition meta_pair (md : EventMetadata) : bytes * bytes := (str_bytes (em_stream md), json_text md).

Lemma meta_records V M :
  (forall s md, M !! s = Some md -> meta_ok s md) -> indexed meta_entry V M ->
  exists mds, btree_iter V = meta_pair <$> mds /\ (forall md, md ∈ mds <-> M !! em_stream md = Some md) /\ NoDup (em_stream <$> mds).
Proof.
  intros HM HV. destruct (indexed_list meta_entry meta_ok meta_entry_inj V M [] HM HV) as (mds&Hall&Hin).
  rewrite prefix_entries_all in Hall.
  assert (Hiter : btree_iter V = meta_pair <$> mds).
  { clear -Hall. induction Hall as [|x md l mds Hx _ IH]; [done|]. injection Hx as <-. by rewrite fmap_cons, <-IH. }
  exists mds. split_and!; [done| |].
  - intros md. rewrite Hin. split.
    + intros (s&x&Hs&_&_). by destruct (HM s md Hs) as [-> _].
    + intros Hs. by exists (em_stream md), (meta_pair md).
  - pose proof (btree_iter_sorted V) as Hs. rewrite Hiter in Hs. clear -Hs.
    induction mds as [|md mds IH]; [constructor|]. rewrite fmap_cons. apply StronglySorted_inv in Hs as [Hs Hall].
    constructor; [|by apply IH]. rewrite list_elem_of_fmap. intros (x&Hx&Hin). rewrite Forall_forall in Hall.
    specialize (Hall (meta_pair x) (list_elem_of_fmap_2 _ _ _ Hin)). cbn in Hall. rewrite Hx in Hall. by apply key_lt_irrefl in Hall.
Qed.

Lemma decode_metadata (mds : list EventMetadata) st :
  Forall meta_wt mds ->
  fold_res (fun st kv => decoded ← decode_value raw_codec "event_metadata" kv.2; md ← storage_error (json_from_slice decoded);
                         Ok (load_metadata st md)) st (meta_pair <$> mds) = Ok (foldl load_metadata st mds).
Proof.
  intros Hall. revert st. induction Hall as [|md mds Hmd _ IH]; intros st; [done|]. rewrite fmap_cons. cbn [fold_res foldl].
  cbn [meta_pair snd decode_value raw_codec]. run. rewrite json_from_text by done. cbn [storage_error]. run. apply IH.
Qed.

(** ** Opening a database that has metadata *)

(** The database of a log: what is left of [event_sim] when the engine is closed. *)
Record event_stored e L : Prop := {
  sd_codec : pe_codec e = raw_codec;
  sd_kv : kv_ok (pe_db e);
  sd_durable : pe_in_memory e = false /\ lg_ram L = false;
  sd_events : indexed event_entry (kv_view (pe_db e) "events") (lg_events L);
  sd_meta : indexed meta_entry (kv_view (pe_db e) "event_meta") (lg_meta L);
  sd_log : log_ok L;
}.

Lemma sim_stored e L : event_sim e L -> lg_ram L = false -> event_stored e L.
Proof. intros [] HR. split; try done. split; congruence. Qed.

(** A hash map is iterated over its keys, in some order. *)
Definition iterates (hash_order : Counters -> list string) : Prop := forall C, hash_order C ≡ₚ (map_to_list C).*1.

Lemma load_state_meta e L :
  event_stored e L ->
  exists loaded C K, load_event_state (pe_codec e) (pe_db e) = Ok (loaded, (C, K)) /\
    C = em_max_sequence <$> lg_meta L /\ (forall s k, K !! (s, k) = meta_keys (lg_meta L) s !! k) /\
    (loaded = false -> C = ∅).
Proof.
  intros [Hc Hkv [Hd HR] HE HM HL]. destruct event_keyspaces_valid as [Hv1 Hv2].
  destruct (meta_records _ _ (lo_records L HL) HM) as (mds&Hiter&Hin&Hnd).
  assert (Hwt : Forall meta_wt mds).
  { apply Forall_forall. intros md Hmd. apply Hin in Hmd. by destruct (lo_records L HL _ _ Hmd). }
  pose proof (load_all_metadata mds (∅, ∅) Hnd) as Hload. cbn zeta in Hload. set (st := foldl load_metadata (∅, ∅) mds) in *.
  assert (Hfind : forall s, List.find (fun md => bool_decide (em_stream md = s)) mds = lg_meta L !! s).
  { intros s. destruct (List.find _ mds) as [md|] eqn:Hf.
    - apply List.find_some in Hf as [Hmd Hb]. apply bool_decide_eq_true in Hb. apply list_elem_of_In, Hin in Hmd. congruence.
    - destruct (lg_meta L !! s) as [md|] eqn:Hs; [|done]. destruct (lo_records L HL _ _ Hs) as [Hst _].
      assert (Hmd : md ∈ mds) by (apply Hin; congruence). apply list_elem_of_In in Hmd. apply (List.find_none _ _ Hf) in Hmd.
      by rewrite bool_decide_true in Hmd. }
  assert (HC : st.1 = em_max_sequence <$> lg_meta L).
  { apply map_eq. intros s. specialize (Hload s). rewrite Hfind in Hload. rewrite lookup_fmap.
    destruct (lg_meta L !! s); destruct Hload as [-> _]; [done|]. cbn. apply lookup_empty. }
  assert (HK : forall s k, st.2 !! (s, k) = meta_keys (lg_meta L) s !! k).
  { intros s k. specialize (Hload s). rewrite Hfind in Hload. unfold meta_keys.
    destruct (lg_meta L !! s) as [md|]; destruct Hload as [_ ->]; cbn; [|done]. by destruct (em_idempotency_keys md !! k). }
  unfold load_event_state. rewrite Hc, !kv_iter_entries, Hiter, decode_metadata by done. fold st. run.
  case_bool_decide as He; [|exists true, st.1, st.2; by destruct st].
  assert (Hempty : lg_meta L = ∅).
  { apply map_eq. intros s. rewrite <-Hfind, lookup_empty. apply fmap_nil_inv in He as ->. done. }
  assert (Hnoev : lg_events L = ∅).
  { apply map_eq. intros [s n]. rewrite lookup_empty. destruct (lg_events L !! (s, n)) as [ev|] eqn:Hev; [|done].
    apply (so_sequence _ _ _ _ (lo_stored L HL HR s)) in Hev. rewrite Hempty, lookup_empty in Hev. cbn in Hev. lia. }
  assert (Hni : btree_iter (kv_view (pe_db e) "events") = []).
  { destruct (btree_iter (kv_view (pe_db e) "events")) as [|[k v] l] eqn:Hb; [done|].
    assert (Hkv' : (k, v) ∈ btree_iter (kv_view (pe_db e) "events")) by (rewrite Hb; by left).
    apply elem_of_btree_iter, HE in Hkv' as (i&ev&Hi&_). by rewrite Hnoev, lookup_empty in Hi. }
  rewrite Hni. cbn [fold_res]. run. exists false, st.1, st.2. split_and!; [by destruct st|done..|]. intros _. by rewrite HC, Hempty, fmap_empty.
Qed.

Theorem open_refines hash_order e L r e' :
  event_stored e L -> iterates hash_order -> open_events hash_order e = (r, e') ->
  exists L', r = Ok () /\ reopened L L' /\ event_sim e' L'.
Proof.
  intros Hst Hord. destruct (load_state_meta e L Hst) as (loaded&C&K&Hload&HC&HK&Hnone).
  unfold open_events. rewrite pbind_pget, Hload, pbind_plift, pbind_pmodify. cbn [fst snd]. intros Hrun.
  set (L' := mkLog false (lg_events L) C K (lg_meta L)). pose proof Hst as [Hc Hkv [Hd HR] HE HM HL].
  assert (Hre : reopened L L') by (by split_and!). exists L'.
  assert (Hsim : event_sim (set_event_state e C K) L') by (split; try done; by apply (reopened_ok L L')).
  destruct loaded; [by injection Hrun as <- <-|]. assert (Hnil : hash_order C = []).
  { apply Permutation_nil_r. rewrite (Hord C), (Hnone eq_refl). by rewrite map_to_list_empty. }
  rewrite Hnil in Hrun. by injection Hrun as <- <-.
Qed.


(** ** Opening a database without metadata *)

(** What the scan of the events has gathered. *)
Record scanned (evs : list MemoryEvent) (st : Counters * IdemKeys) : Prop := {
  sc_counter : forall s c, st.1 !! s = Some c -> exists ev, ev ∈ evs /\ ev_stream ev = s /\ ev_sequence ev = c;
  sc_max : forall ev, ev ∈ evs -> exists c, st.1 !! ev_stream ev = Some c /\ ev_sequence ev <= c;
  sc_key : forall s k n, st.2 !! (s, k) = Some n ->
    exists ev, ev ∈ evs /\ ev_stream ev = s /\ ev_idempotency_key ev = k /\ ev_sequence ev = n;
  sc_keyed : forall ev, ev ∈ evs -> keyed ev -> is_Some (st.2 !! (ev_stream ev, ev_idempotency_key ev));
}.

Lemma scanned_step evs st ev : scanned evs st -> scanned (evs ++ [ev]) (load_event st ev).
Proof.
  intros [H1 H2 H3 H4]. split; cbn [load_event fst snd].
  - intros s c. rewrite lookup_insert_Some. intros [[<- <-]|[_ Hc]].
    + destruct (st.1 !! ev_stream ev) as [m|] eqn:Hm; [|exists ev; split; [apply elem_of_app; right; by left|done]].
      destruct (Z.max_spec m (ev_sequence ev)) as [[_ ->]|[_ ->]]; [exists ev; split; [apply elem_of_app; right; by left|done]|].
      destruct (H1 _ _ Hm) as (x&Hx&?&?). exists x. split; [apply elem_of_app; by left|done].
    + destruct (H1 _ _ Hc) as (x&Hx&?&?). exists x. split; [apply elem_of_app; by left|done].
  - intros x Hx. destruct (decide (ev_stream x = ev_stream ev)) as [Heq|Hne].
    + rewrite Heq, lookup_insert_eq. eexists. split; [done|]. apply elem_of_app in Hx as [Hx|Hx].
      * destruct (H2 x Hx) as (c&Hc&?). rewrite Heq in Hc. rewrite Hc. lia.
      * apply list_elem_of_singleton in Hx as ->. destruct (st.1 !! ev_stream ev); lia.
    + rewrite lookup_insert_ne by done. apply elem_of_app in Hx as [Hx|Hx]; [by apply H2|]. by apply list_elem_of_singleton in Hx as ->.
  - intros s k n. rewrite remember_key_lookup. case_bool_decide as Hk.
    + destruct Hk as (->&->&_). intros [= <-]. exists ev. split; [apply elem_of_app; right; by left|done].
    + intros Hn. destruct (H3 _ _ _ Hn) as (x&Hx&?). exists x. split; [apply elem_of_app; by left|done].
  - intros x Hx Hkx. rewrite remember_key_lookup. case_bool_decide as Hk; [by eexists|]. apply elem_of_app in Hx as [Hx|Hx]; [by apply H4|].
    apply list_elem_of_singleton in Hx as ->. by destruct Hk.
Qed.

Lemma scanned_all evs : scanned evs (foldl load_event (∅, ∅) evs).
Proof.
  induction evs as [|ev evs IH] using rev_ind; [split; cbn; intros *; rewrite ?lookup_empty; (done || by intros ?%elem_of_nil)|].
  rewrite foldl_app. by apply scanned_step.
Qed.

(** A database of the version without metadata: its events come from counters and keys
    that were kept in memory only. *)
Record legacy e E : Prop := {
  lg_codec : pe_codec e = raw_codec;
  lg_kv : kv_ok (pe_db e);
  lg_durable : pe_in_memory e = false;
  lg_index : indexed event_entry (kv_view (pe_db e) "events") E;
  lg_bare : kv_view (pe_db e) "event_meta" = ∅;
  lg_history : exists C K, log_ok (mkLog true E C K ∅);
}.

Lemma scanned_stream E C K evs st s :
  log_ok (mkLog true E C K ∅) -> (forall ev, ev ∈ evs <-> E !! event_index ev = Some ev) -> scanned evs st ->
  stream_ok E s (st.1 !! s) (stream_keys st.2 s).
Proof.
  intros HL Hin [H1 H2 H3 H4]. pose proof (lo_events _ HL) as HE. cbn in HE. destruct (lo_memory _ HL s) as [G1 G2 G3 G4 G5]. cbn in G1, G2, G3, G4, G5.
  assert (Hmem : forall n ev, E !! (s, n) = Some ev -> ev ∈ evs /\ ev_stream ev = s /\ ev_sequence ev = n).
  { intros n ev Hev. destruct (HE _ _ Hev) as [Hs Hn _ _]. split_and!; [|done..]. apply Hin. unfold event_index. cbn in Hs, Hn. by rewrite Hs, Hn. }
  assert (Hrec : forall ev, ev ∈ evs -> ev_stream ev = s -> E !! (s, ev_sequence ev) = Some ev).
  { intros ev Hev <-. by apply Hin. }
  assert (Hseq : forall n ev, E !! (s, n) = Some ev -> 0 < n <= default 0 (st.1 !! s)).
  { intros n ev Hev. destruct (Hmem _ _ Hev) as (Hx&Hxs&Hxn). destruct (H2 _ Hx) as (c&Hc&Hle). rewrite Hxs in Hc. rewrite Hc. cbn.
    pose proof (G1 _ _ Hev). lia. }
  assert (Hkey : forall k n, stream_keys st.2 s !! k = Some n -> exists ev, E !! (s, n) = Some ev /\ ev_idempotency_key ev = k).
  { intros k n. rewrite stream_keys_lookup. intros Hn. destruct (H3 _ _ _ Hn) as (ev&Hev&Hs&Hk&<-). exists ev. split; [|done]. by apply Hrec. }
  split; [done|..].
  - intros n ev Hev Hk. destruct (Hmem _ _ Hev) as (Hx&Hxs&Hxn). destruct (H4 _ Hx Hk) as [m Hm]. rewrite Hxs, <-stream_keys_lookup in Hm.
    rewrite Hm. destruct (Hkey _ _ Hm) as (ev'&Hev'&Heq). f_equal.
    pose proof (G2 _ _ Hev Hk) as Ha. assert (Hk' : keyed ev') by (unfold keyed; by rewrite Heq). pose proof (G2 _ _ Hev' Hk') as Hb.
    rewrite Heq in Hb. congruence.
  - intros k n ev Hn Hev. destruct (Hkey _ _ Hn) as (ev'&Hev'&<-). congruence.
  - intros k n Hn. destruct (Hkey _ _ Hn) as (ev&Hev&<-). split; [|pose proof (Hseq _ _ Hev); lia].
    destruct (HE _ _ Hev) as [_ _ [] _]. done.
  - destruct (st.1 !! s) as [c|] eqn:Hc; cbn; [|done]. destruct (H1 _ _ Hc) as (ev&Hev&Hs&<-). pose proof (G1 _ _ (Hrec _ Hev Hs)). lia.
Qed.

Lemma persist_all_meta streams e M r e' :
  pe_codec e = raw_codec -> kv_ok (pe_db e) -> pe_in_memory e = false ->
  let md s := make_event_metadata (pe_event_seq_counters e) (pe_event_idempotency_keys e) s in
  Forall (fun s => meta_ok s (md s)) streams -> (forall s md, M !! s = Some md -> meta_ok s md) ->
  indexed meta_entry (kv_view (pe_db e) "event_meta") M -> persist_all_event_metadata streams e = (r, e') ->
  match r with
  | Ok _ => exists db, e' = set_db e db /\ kv_ok db /\ kv_view db "events" = kv_view (pe_db e) "events" /\
      indexed meta_entry (kv_view db "event_meta") (foldl (fun M s => <[s := md s]> M) M streams)
  | Err err => commit_failed err
  end.
Proof.
  intros Hc Hkv Hd md Hall. revert e M Hc Hkv Hd md Hall. induction streams as [|s streams IH]; intros e M Hc Hkv Hd md Hall HM Hix.
  { intros [= <- <-]. exists (pe_db e). by destruct e. }
  apply Forall_cons in Hall as [Hs Hall]. cbn [persist_all_event_metadata foldl]. intros Hrun.
  assert (Hper : persist_event_metadata s e = ks_insert "event_meta" (str_bytes s) (json_text (md s)) e).
  { unfold persist_event_metadata. rewrite pbind_pget, Hd, Hc, encode_metadata_raw by done. done. }
  unfold ks_insert in Hper. set (ws := batch_insert [] _ _ _) in Hper. destruct event_keyspaces_valid as [Hv1 Hv2].
  assert (Hws : Forall write_ok ws) by (apply insert_ok; [apply writes_ok_nil|done|apply str_bytes_ok]).
  destruct (commit ws e) as [r1 e1] eqn:Hcommit. destruct (commit_cases e ws r1 e1 Hkv Hws Hcommit) as (db&->&Hkv1&[[-> Hview]|(err&->&Hfail&Hview)]).
  - rewrite (pbind_Ok _ _ _ _ _ Hper) in Hrun. specialize (IH (set_db e db) (<[s := md s]> M) Hc Hkv1 Hd Hall).
    assert (Hi : indexed meta_entry (kv_view (pe_db (set_db e db)) "event_meta") (<[s := md s]> M)).
    { cbn. rewrite Hview by done. unfold ws. writes_simpl. by apply indexed_insert_meta. }
    specialize (IH ltac:(intros s' md'; rewrite lookup_insert_Some; intros [[<- <-]|[_ ?]]; auto) Hi Hrun).
    destruct r as [[]|err]; [|done]. destruct IH as (db'&->&Hkv'&Hev&Hm). exists db'. split_and!; [done..| |done].
    rewrite Hev. cbn. rewrite Hview by done. unfold ws. by writes_simpl.
  - rewrite (pbind_Err _ _ _ _ _ Hper) in Hrun. by injection Hrun as <- <-.
Qed.

Theorem migration_refines hash_order e E r e' :
  legacy e E -> iterates hash_order -> open_events hash_order e = (r, e') ->
  match r with
  | Ok _ => exists L, lg_events L = E /\ event_sim e' L
  | Err err => commit_failed err
  end.
Proof.
  intros [Hc Hkv Hd Hix Hbare (C0&K0&HL)] Hord. destruct event_keyspaces_valid as [Hv1 Hv2].
  destruct (event_records _ _ [] (lo_events _ HL) Hix) as (evs&Hev&Hin&_). rewrite prefix_entries_all in Hev. cbn [lg_events] in Hin.
  assert (Hin' : forall ev, ev ∈ evs <-> E !! event_index ev = Some ev) by (intros ev; rewrite Hin; naive_solver).
  assert (Hwt : Forall event_wt evs).
  { apply Forall_forall. intros ev Hv. apply Hin' in Hv. by destruct (lo_events _ HL _ _ Hv). }
  assert (Hload : load_event_state (pe_codec e) (pe_db e) = Ok (false, foldl load_event (∅, ∅) evs)).
  { unfold load_event_state. rewrite Hc, !kv_iter_entries, Hbare, btree_iter_empty, Hev by done. cbn [fold_res]. run.
    rewrite bool_decide_true by done. rewrite (decode_events (fun st _ ev => load_event st ev)) by done. by run. }
  unfold open_events. rewrite pbind_pget, Hload, pbind_plift, pbind_pmodify. cbn [fst snd]. pose proof (scanned_all evs) as Hscan.
  set (st := foldl load_event (∅, ∅) evs) in *. pose proof (fun s => scanned_stream E C0 K0 evs st s HL Hin' Hscan) as Hst.
  intros Hrun.
  assert (Hstr : forall s, is_Some (st.1 !! s) -> is_str s).
  { intros s [c Hcs]. destruct (sc_counter _ _ Hscan _ _ Hcs) as (ev&Hv&<-&_). rewrite Forall_forall in Hwt. by destruct (Hwt ev Hv). }
  assert (Hdom : forall s, s ∈ hash_order st.1 <-> is_Some (st.1 !! s)).
  { intros s. rewrite (Hord st.1), list_elem_of_fmap. split; [intros ([s' c]&->&Hs); apply elem_of_map_to_list in Hs; by eexists|].
    intros [c Hs]. exists (s, c). split; [done|]. by apply elem_of_map_to_list. }
  assert (Hmd : forall s, is_str s -> meta_ok s (make_event_metadata st.1 st.2 s)).
  { intros s Hs. destruct (Hst s) as [_ _ _ Hr Hcc]. split; [done|]. split; cbn; [done|done|]. intros k n Hk. apply Hr in Hk as [??].
    split; [done|]. unfold in_u64. lia. }
  apply (persist_all_meta _ _ ∅) in Hrun; cbn [pe_codec pe_db pe_in_memory set_event_state pe_event_seq_counters pe_event_idempotency_keys]; try done.
  2: { apply Forall_forall. intros s Hs. by apply Hmd, Hstr, Hdom. }
  2: { intros k v. rewrite Hbare, lookup_empty. split; [done|]. intros (i&md&Hi&_). by rewrite lookup_empty in Hi. }
  destruct r as [[]|err]; [|done]. destruct Hrun as (db&->&Hkv'&Hvev&Hvm).
  cbn [pe_db set_event_state pe_event_seq_counters pe_event_idempotency_keys] in Hvev, Hvm. set (M := foldl _ ∅ _) in Hvm.
  assert (HM : forall s, M !! s = if bool_decide (is_Some (st.1 !! s)) then Some (make_event_metadata st.1 st.2 s) else None).
  { intros s. unfold M. rewrite (foldl_insert_lookup (make_event_metadata st.1 st.2)), lookup_empty. by rewrite (bool_decide_ext _ _ (Hdom s)). }
  exists (mkLog false E st.1 st.2 M). split; [done|]. split; try done.
  - cbn. by rewrite Hvev.
  - split; cbn [lg_events lg_counters lg_keys lg_meta lg_ram]; [apply (lo_events _ HL)|done|..].
    + intros s md. rewrite HM. case_bool_decide as Hs; [|done]. intros [= <-]. by apply Hmd, Hstr.
    + intros _ s. unfold meta_keys. rewrite HM. case_bool_decide as Hs; cbn.
      * destruct (Hst s) as [G1 G2 G3 G4 G5]. by split.
      * apply stream_ok_empty; [|done]. intros n. destruct (E !! (s, n)) as [ev|] eqn:Hn; [|done]. destruct Hs.
        apply (so_sequence _ _ _ _ (Hst s)) in Hn. destruct (st.1 !! s); [by eexists|]. cbn in Hn. lia.
Qed.
End reopen.
