(* ===== verification/PEventList.v ===== *)
(** * thingd: listing events

    [list_events] reads the keyspace page by page after a cursor, decodes every record and
    keeps the events that match.  The loop ends, and what it returns is the matching
    events of the log in order, cut at the limit. *)

From S2P Require Import Prelude Wal Table Layer Database ThingDb Keyspace RamScan Model Objects Events Storage Persistent PSample PStore PQueue PEvents PEventSpec PEventOps PEventBatch PEventDelete.

(** The entries after any cursor that has the prefix. *)
Lemma page_after_cursor `{KvLaws D} (db : D) ks p after limit :
  kv_ok db -> valid_name ks -> bytes_ok after -> starts_with p after = true -> 0 < limit ->
  prefix_page_after db ks p (Some after) limit =
  Ok (take (Z.to_nat limit) (List.filter (fun x => key_ltb after x.1) (entries_of db ks p))).
Proof.
  intros Hok Hks Ha Hp Hl. unfold prefix_page_after. destruct (Z.eqb_spec limit 0); [lia|]. cbn [fmap option_fmap option_map].
  rewrite kv_scan_view; [|done..|by repeat split; cbn; try lia].
  unfold page, matches_bounds, in_range. cbn [sb_limit sb_offset sb_prefix sb_start sb_end cut]. rewrite drop_0. do 2 f_equal.
  unfold entries_of, prefix_entries. rewrite filter_filter. apply filter_ext_in. intros x _. rewrite andb_true_r. apply andb_comm.
Qed.

Section list.
Context `{KvLaws D} `{!Serde MemoryEvent event_wt} `{!Serde EventMetadata meta_wt}.
Implicit Types (e : PersistentEngine D) (L : Log) (ev : MemoryEvent) (E : EventMap) (s : string) (evs : list MemoryEvent)
  (stream : option string) (options : ListEventsOptions).

(** The events of the log by stream and sequence number. *)
Definition log_events L : list MemoryEvent := btree_values (lg_events L).

Lemma sorted_events_eq E evs :
  (forall i ev, E !! i = Some ev -> event_ok i ev) -> (forall ev, ev ∈ evs <-> E !! event_index ev = Some ev) ->
  StronglySorted (fun a b => event_index a ≺ event_index b) evs -> btree_values E = evs.
Proof.
  intros HE Hin Hs. set (l := (fun ev => (event_index ev, ev)) <$> evs).
  assert (Hk : l.*1 = event_index <$> evs) by (unfold l; rewrite <-list_fmap_compose; done).
  assert (Hsort : StronglySorted key_lt l.*1).
  { rewrite Hk. clear -Hs. induction Hs as [|ev evs _ IH Hall]; [constructor|]. rewrite fmap_cons. constructor; [done|].
    apply Forall_fmap. eapply Forall_impl; [exact Hall|]. done. }
  assert (Hmap : list_to_map l = E).
  { apply map_eq. intros i. apply option_eq. intros ev. rewrite <-elem_of_list_to_map by (by apply strictly_sorted_NoDup).
    unfold l. rewrite list_elem_of_fmap. split.
    - intros (ev'&[= -> ->]&Hev). by apply Hin.
    - intros Hev. exists ev. pose proof (event_ok_index _ _ (HE _ _ Hev)) as Hi. split; [by rewrite Hi|]. apply Hin. by rewrite Hi. }
  unfold btree_values. rewrite <-Hmap, btree_iter_list_to_map by done. unfold l. rewrite <-list_fmap_compose. apply list_fmap_id.
Qed.

(** ** One page *)

Lemma scan_page_spec stream options after results evs :
  Forall event_wt evs -> limit_reached options results = false ->
  let out := results ++ List.filter (event_listed stream options) evs in
  if limit_reached options out
  then exists after', scan_event_page raw_codec stream options after results (event_pair <$> evs) = Ok (true, after', cut (le_limit options) out)
  else scan_event_page raw_codec stream options after results (event_pair <$> evs) =
       Ok (false, match last evs with Some ev => Some (event_pair ev).1 | None => after end, out).
Proof.
  intros Hwt. revert after results. induction Hwt as [|ev evs Hev _ IH]; intros after results Hlim.
  { cbn [List.filter fmap list_fmap scan_event_page last]. rewrite app_nil_r, Hlim. done. }
  rewrite fmap_cons. cbn [List.filter scan_event_page event_pair]. rewrite deserialize_raw by done. run.
  assert (Hlast : forall d, match last (ev :: evs) with Some x => Some (event_pair x).1 | None => d end =
    match last evs with Some x => Some (event_pair x).1 | None => Some (event_pair ev).1 end).
  { intros d. rewrite last_cons. by destruct (last evs). }
  destruct (event_listed stream options ev).
  - cbn zeta. replace (results ++ ev :: List.filter (event_listed stream options) evs)
      with ((results ++ [ev]) ++ List.filter (event_listed stream options) evs) by (by rewrite <-app_assoc).
    destruct (limit_reached options (results ++ [ev])) eqn:Hr.
    + unfold limit_reached in *. destruct (le_limit options) as [n|]; [|done]. cbn [cut].
      rewrite !Z.leb_le, !Z.leb_gt, !length_app in *. cbn [length] in *.
      replace (n <=? _) with true by (symmetry; apply Z.leb_le; lia). eexists. do 2 f_equal.
      rewrite take_app_le by (rewrite length_app; cbn [length]; lia). rewrite take_ge; [done|]. rewrite length_app. cbn [length]. lia.
    + specialize (IH (Some (event_pair ev).1) _ Hr). cbn zeta in IH. rewrite Hlast. destruct (limit_reached _ _); exact IH.
  - specialize (IH (Some (event_pair ev).1) _ Hlim). cbn zeta in IH |- *. rewrite Hlast. destruct (limit_reached _ _); exact IH.
Qed.

(** A limit that is not reached cuts nothing. *)
Lemma cut_unreached options evs : limit_reached options evs = false -> cut (le_limit options) evs = evs.
Proof.
  unfold limit_reached. destruct (le_limit options) as [n|]; [|done]. intros Hn%Z.leb_gt. cbn [cut]. apply take_ge. lia.
Qed.

Lemma cut_reached options evs more : limit_reached options evs = true -> cut (le_limit options) (evs ++ more) = cut (le_limit options) evs.
Proof.
  unfold limit_reached. destruct (le_limit options) as [n|]; [|done]. intros Hn%Z.leb_le. cbn [cut]. apply take_app_le. lia.
Qed.

(** ** The loop *)

Lemma list_loop_spec fuel e p n stream options after results pre post :
  pe_codec e = raw_codec -> kv_ok (pe_db e) -> 0 < n ->
  entries_of (pe_db e) "events" p = event_pair <$> (pre ++ post) -> Forall event_wt post -> limit_reached options results = false ->
  prefix_page_after (pe_db e) "events" p after n = Ok (take (Z.to_nat n) (event_pair <$> post)) ->
  (length post < fuel)%nat ->
  list_events_loop fuel e p n stream options after results =
  Ok (cut (le_limit options) (results ++ List.filter (event_listed stream options) post)).
Proof.
  intros Hc Hkv Hn. revert after results pre post. induction fuel as [|fuel IH]; intros after results pre post Hent Hwt Hlim Hpage Hfuel; [lia|].
  cbn [list_events_loop]. rewrite Hpage. cbn [storage_error]. run. rewrite <-fmap_take.
  set (now := take (Z.to_nat n) post). set (rest := drop (Z.to_nat n) post). assert (Hpost : post = now ++ rest) by (symmetry; apply take_drop).
  case_bool_decide as He.
  { assert (Hnil : post = []).
    { apply fmap_nil_inv in He. unfold now in He. destruct post as [|x post]; [done|]. destruct (Z.to_nat n) eqn:Hz; [lia|done]. }
    rewrite Hnil. cbn [List.filter]. by rewrite app_nil_r, cut_unreached. }
  assert (Hwt1 : Forall event_wt now) by (by apply Forall_take). rewrite Hc.
  pose proof (scan_page_spec stream options after results now Hwt1 Hlim) as Hscan. cbn zeta in Hscan.
  rewrite Hpost, List.filter_app, app_assoc. set (out := results ++ List.filter _ now) in *. destruct (limit_reached options out) eqn:Hr.
  { destruct Hscan as [after' ->]. run. by rewrite cut_reached. }
  rewrite Hscan. run. rewrite length_fmap. destruct (Z.ltb_spec (zlen now) n) as [Hlt|Hge].
  { assert (Hrest : rest = []).
    { unfold rest. apply drop_ge. unfold now in Hlt. rewrite length_take in Hlt. lia. }
    rewrite Hrest. cbn [List.filter]. by rewrite app_nil_r, cut_unreached. }
  assert (Hlen : length now = Z.to_nat n) by (unfold now in *; rewrite length_take in *; lia).
  assert (Hne : now <> []) by (intros Hz; rewrite Hz in Hlen; cbn in Hlen; lia).
  apply (IH _ _ (pre ++ now) rest).
  - by rewrite Hent, Hpost, app_assoc.
  - by apply Forall_drop.
  - done.
  - rewrite <-(next_page_entries (pe_db e) "events" p n (event_pair <$> (pre ++ now)) (event_pair <$> rest)).
    + f_equal. rewrite fmap_last, last_app. destruct (last now) as [x|] eqn:Hl; [done|]. by apply last_None in Hl.
    + done.
    + apply event_keyspaces_valid.
    + lia.
    + rewrite <-fmap_app, <-app_assoc, <-Hpost. done.
  - rewrite Hpost, length_app in Hfuel. destruct now; [done|]. cbn [length] in Hfuel. lia.
Qed.

(** ** The whole listing *)

(** The options a caller can express: unsigned numbers. *)
Definition list_options_ok stream options : Prop :=
  match stream with Some s => no_nul s | None => True end /\
  match le_limit options with Some n => 0 <= n | None => True end /\
  match le_from_sequence options with Some n => in_u64 n | None => True end.

Lemma page_size_pos e stream options : list_options_ok stream options -> le_limit options <> Some 0 -> 0 < event_page_size e options.
Proof.
  intros (_&Hl&_) Hz. unfold event_page_size, RAM_EVENT_SCAN_PAGE_SIZE, EVENT_SCAN_PAGE_SIZE.
  assert (Hd : 0 < (if pe_in_memory e then 128 else 1024)) by (by destruct (pe_in_memory e)).
  destruct (le_since options), (le_limit options) as [l|]; try lia. assert (l <> 0) by congruence. lia.
Qed.

(** After the cursor of [from_sequence] come the events with larger numbers. *)
Lemma cursor_split s n evs :
  Forall (fun ev => ev_stream ev = s /\ in_u64 (ev_sequence ev)) evs -> no_nul s -> in_u64 n ->
  StronglySorted (fun a b => event_index a ≺ event_index b) evs ->
  exists pre post, evs = pre ++ post /\ List.filter (fun x => key_ltb (make_event_key raw_codec s n) x.1) (event_pair <$> evs) = event_pair <$> post /\
    Forall (fun ev => ev_sequence ev <= n) pre.
Proof.
  intros Hall Hs Hn Hsort. assert (Hlt : forall ev, ev_stream ev = s -> in_u64 (ev_sequence ev) ->
    key_ltb (make_event_key raw_codec s n) (event_pair ev).1 = (n <? ev_sequence ev)).
  { intros ev Hes Hen. cbn [event_pair fst]. rewrite Hes. apply eq_true_iff_eq. rewrite key_ltb_lt, Z.ltb_lt, make_event_key_order by done.
    rewrite prod_lt, Z_lt_key. split; [intros [Hx|[_ ?]]; [by apply key_lt_irrefl in Hx|done]|by right]. }
  induction Hsort as [|ev evs Hsort IH Hhd]; [by exists [], []|]. apply Forall_cons in Hall as [[Hes Hen] Hall].
  destruct (IH Hall) as (pre&post&Heq&Hf&Hp). rewrite fmap_cons. cbn [List.filter]. rewrite Hlt by done.
  destruct (Z.ltb_spec n (ev_sequence ev)) as [Hgt|Hle].
  - assert (Hpre : pre = []).
    { destruct pre as [|x pre]; [done|]. apply Forall_cons in Hp as [Hx _]. rewrite Heq in Hhd, Hall. cbn [app] in Hhd, Hall.
      apply Forall_cons in Hhd as [Hx' _]. apply Forall_cons in Hall as [[Hxs _] _]. unfold event_index in Hx'. rewrite prod_lt, Z_lt_key in Hx'.
      rewrite Hes, Hxs in Hx'. destruct Hx' as [Hb|[_ ?]]; [by apply key_lt_irrefl in Hb|lia]. }
    subst pre. cbn [app] in Heq. subst post. exists [], (ev :: evs). by rewrite Hf.
  - exists (ev :: pre), post. rewrite Heq. split_and!; [done|by rewrite Heq in Hf|]. by constructor.
Qed.

(** The events with a key prefix, of all events. *)
Lemma prefix_events e L p evs :
  event_sim e L -> (forall ev, ev ∈ evs <-> lg_events L !! event_index ev = Some ev /\ starts_with p (event_pair ev).1 = true) ->
  StronglySorted (fun a b => event_index a ≺ event_index b) evs ->
  evs = List.filter (fun ev => starts_with p (event_pair ev).1) (log_events L).
Proof.
  intros Hsim Hin Hsort. pose proof (lo_events L (es_log _ _ Hsim)) as Hok. destruct (all_events e L Hsim) as (all&_&_&Hall&Hallsort).
  unfold log_events. rewrite (sorted_events_eq _ all Hok Hall Hallsort). set (E := filter (fun x => starts_with p (event_pair x.2).1 = true) (lg_events L)).
  assert (HE : forall i ev, E !! i = Some ev -> event_ok i ev) by (intros i ev [Hi _]%map_lookup_filter_Some; by apply Hok).
  etrans; [symmetry; apply (sorted_events_eq E evs HE)|apply (sorted_events_eq E _ HE)]; [|done| |].
  - intros ev. unfold E. by rewrite Hin, map_lookup_filter_Some.
  - intros ev. unfold E. by rewrite elem_of_filter_bool, Hall, map_lookup_filter_Some.
  - eapply StronglySorted_sublist; [apply filter_sublist|done].
Qed.

Definition list_prefix stream : bytes := match stream with Some s => make_event_prefix raw_codec s | None => [] end.
Definition list_cursor stream options : option bytes :=
  match stream, le_from_sequence options with Some s, Some n => Some (make_event_key raw_codec s n) | _, _ => None end.

(** No event outside the prefix is listed. *)
Lemma listed_events e L stream options :
  event_sim e L -> list_options_ok stream options ->
  List.filter (event_listed stream options) (List.filter (fun ev => starts_with (list_prefix stream) (event_pair ev).1) (log_events L)) =
  List.filter (event_listed stream options) (log_events L).
Proof.
  intros Hsim (Hs&_&_). rewrite filter_filter. apply filter_ext_in. intros ev Hv. unfold log_events in Hv. apply elem_of_btree_values in Hv as [i Hi].
  destruct (lo_events L (es_log _ _ Hsim) _ _ Hi) as [_ _ _ Hnul]. unfold list_prefix. destruct stream as [s|]; [|by rewrite andb_true_r].
  unfold event_listed. cbn [in_stream event_pair fst]. case_bool_decide as Hes; [|done].
  rewrite (proj2 (make_event_key_prefix s (ev_stream ev) (ev_sequence ev) Hs Hnul)) by done. by rewrite andb_true_r.
Qed.

(** The first page starts after the events the cursor excludes. *)
Lemma first_page e stream options evs n :
  kv_ok (pe_db e) -> list_options_ok stream options -> 0 < n ->
  Forall (fun ev => event_ok (event_index ev) ev /\ starts_with (list_prefix stream) (event_pair ev).1 = true) evs ->
  StronglySorted (fun a b => event_index a ≺ event_index b) evs -> entries_of (pe_db e) "events" (list_prefix stream) = event_pair <$> evs ->
  exists pre post, evs = pre ++ post /\ List.filter (event_listed stream options) pre = [] /\
    prefix_page_after (pe_db e) "events" (list_prefix stream) (list_cursor stream options) n = Ok (take (Z.to_nat n) (event_pair <$> post)).
Proof.
  intros Hkv (Hs&_&Hn0) Hn Hall Hsort Hent. destruct event_keyspaces_valid as [Hv1 _].
  assert (Hnone : exists pre post, evs = pre ++ post /\ List.filter (event_listed stream options) pre = [] /\
    prefix_page_after (pe_db e) "events" (list_prefix stream) None n = Ok (take (Z.to_nat n) (event_pair <$> post))).
  { exists [], evs. split_and!; [done..|]. rewrite prefix_page_after_entries by (done || lia). by rewrite Hent. }
  unfold list_cursor. destruct stream as [s|]; [|done]. destruct (le_from_sequence options) as [from|] eqn:Hfrom; [|done].
  destruct (cursor_split s from evs) as (pre&post&Heq&Hf&Hp); [|done..|].
  - eapply Forall_impl; [exact Hall|]. cbn beta. intros ev [[_ _ Ht Hnul] Hpre]. split; [|by destruct Ht]. cbn [event_pair fst list_prefix] in Hpre.
    apply make_event_key_prefix in Hpre; done.
  - exists pre, post. split_and!; [done| |].
    + apply filter_none. intros ev Hv. rewrite Forall_forall in Hp. specialize (Hp ev Hv). unfold event_listed, after_sequence. rewrite Hfrom.
      replace (from <? ev_sequence ev) with false by (symmetry; apply Z.ltb_ge; lia). by rewrite andb_false_r.
    + rewrite page_after_cursor; [|done|done|apply make_event_key_ok|by apply make_event_key_prefix|done]. by rewrite Hent, Hf.
Qed.

Lemma list_events_spec e L stream options :
  event_sim e L -> list_options_ok stream options ->
  pe_list_events e stream options = Ok (cut (le_limit options) (List.filter (event_listed stream options) (log_events L))).
Proof.
  intros Hsim Hopt. pose proof Hsim as [Hc Hkv Hram HC HK HE HM HL]. unfold pe_list_events.
  destruct (decide (le_limit options = Some 0)) as [Hz|Hz]; [by rewrite bool_decide_true, Hz by done|].
  rewrite bool_decide_false, Hc by done. fold (list_prefix stream) (list_cursor stream options).
  destruct (event_records _ _ (list_prefix stream) (lo_events L HL) HE) as (evs&Hev&Hin&Hsort).
  assert (Hok : Forall (fun ev => event_ok (event_index ev) ev /\ starts_with (list_prefix stream) (event_pair ev).1 = true) evs).
  { apply Forall_forall. intros ev Hv. apply Hin in Hv as [Hv ?]. split; [by apply (lo_events L HL)|done]. }
  assert (Hwt : Forall event_wt evs) by (eapply Forall_impl; [exact Hok|]; by intros ev [[] _]).
  rewrite <-(listed_events e L stream options Hsim Hopt), <-(prefix_events e L _ evs Hsim Hin Hsort).
  pose proof (page_size_pos e stream options Hopt Hz) as Hn.
  destruct (first_page e stream options evs _ Hkv Hopt Hn Hok Hsort Hev) as (pre&post&Heq&Hpre&Hpage).
  rewrite (list_loop_spec _ e (list_prefix stream) _ stream options _ [] pre post); try done.
  - cbn [app]. by rewrite Heq, List.filter_app, Hpre.
  - unfold entries_of. by rewrite Hev, Heq.
  - rewrite Heq in Hwt. by apply Forall_app in Hwt as [_ ?].
  - unfold limit_reached. destruct (le_limit options) as [l|] eqn:Hl; [|done]. destruct Hopt as (_&Hl0&_). rewrite Hl in Hl0. cbn [length].
    apply Z.leb_gt. assert (l <> 0) by congruence. lia.
  - unfold scan_fuel. rewrite kv_iter_entries by (done || apply event_keyspaces_valid). apply Nat.lt_succ_r.
    assert (Hle : (length evs <= length (btree_iter (kv_view (pe_db e) "events")))%nat).
    { rewrite <-(length_fmap event_pair evs), <-Hev. unfold prefix_entries. apply sublist_length, filter_sublist. }
    rewrite Heq, length_app in Hle. lia.
Qed.
End list.
