(* ===== verification/PEventRun.v ===== *)
(** * thingd: runs of the persistent event log

    The operations of the log and reopening the database as one step function, and the
    transitions of the abstract log as its specification. *)

From S2P Require Import Prelude Wal Table Layer Database ThingDb Keyspace RamScan Model Objects Events Storage Persistent PSample PStore PQueue PEvents PEventSpec PEventOps PEventBatch PEventDelete PEventOpen PEventList.

Inductive EvOp :=
  | EvAppend (now : string) (ev : MemoryEvent)
  | EvAppendBatch (evs : list (string * MemoryEvent))
  | EvDeleteLast (s : string)
  | EvDeleteStream (s : string)
  | EvReopen (hash_order : Counters -> list string).

Inductive EvReply :=
  | Stored (evs : list MemoryEvent)
  | Removed (n : Z)
  | Opened.

Section run.
Context `{KvLaws D} `{!Serde MemoryEvent event_wt} `{!Serde EventMetadata meta_wt}.
Implicit Types (e : PersistentEngine D) (L : Log) (ev : MemoryEvent) (s : string).

Definition reply_map {A B} (f : A -> B) (x : thingd_result A * PersistentEngine D) : thingd_result B * PersistentEngine D :=
  (f <$> x.1, x.2).

(** Reopening starts from the database alone. *)
Definition reopen (hash_order : Counters -> list string) : PM D unit :=
  fun e => open_events hash_order (set_event_state e ∅ ∅).

Definition run_ev_op (op : EvOp) e : thingd_result EvReply * PersistentEngine D :=
  match op with
  | EvAppend now ev => reply_map (fun ev => Stored [ev]) (pe_append_event now ev e)
  | EvAppendBatch evs => reply_map Stored (pe_append_events_batch evs e)
  | EvDeleteLast s => reply_map (fun o => Stored (option_list o)) (pe_delete_last_event s e)
  | EvDeleteStream s => reply_map Removed (pe_delete_stream s e)
  | EvReopen hash_order => reply_map (fun _ => Opened) (reopen hash_order e)
  end.

(** The arguments an operation may be given: names without the key separator, room in the
    counters; only a durable database is reopened. *)
Definition ev_op_ok (op : EvOp) L : Prop :=
  match op with
  | EvAppend now ev => event_ready now ev /\ default 0 (lg_counters L !! ev_stream ev) < U64_MAX
  | EvAppendBatch evs => Forall (fun x => event_ready x.1 x.2) evs /\ room L (zlen evs)
  | EvDeleteLast _ | EvDeleteStream _ => True
  | EvReopen hash_order => lg_ram L = false /\ iterates hash_order
  end.

Definition ev_op_spec (op : EvOp) L (reply : EvReply) L' : Prop :=
  match op with
  | EvAppend now ev => reply = Stored [(spec_append now ev L).1] /\ L' = (spec_append now ev L).2
  | EvAppendBatch evs => reply = Stored (spec_append_all evs L).1 /\ L' = (spec_append_all evs L).2
  | EvDeleteLast s => pe_is_protected_stream s = false /\
      exists last, is_last (lg_events L) s last /\ reply = Stored (option_list last) /\
        L' = match last with Some ev => note_meta (remove_event s (ev_sequence ev) L) s | None => L end
  | EvDeleteStream s => pe_is_protected_stream s = false /\ reply = Removed (Z.of_nat (size (within s (lg_events L)))) /\
      L' = with_meta (delete_stream_log s L) (delete s (lg_meta L))
  | EvReopen _ => reply = Opened /\ reopened L L'
  end.

(** A failed operation: the storage refused a commit, or the stream is protected. *)
Definition ev_op_fails (op : EvOp) L (err : ThingdError) L' : Prop :=
  match op with
  | EvAppend now ev => commit_failed err /\ find_event (lg_events L) (lg_keys L) ev = None /\ L' = forget_key ev L
  | EvAppendBatch evs => commit_failed err /\ L' = L
  | EvDeleteLast s =>
      (pe_is_protected_stream s = true /\ err = protected_error s /\ L' = L) \/
      (pe_is_protected_stream s = false /\ commit_failed err /\
       exists ev, is_last (lg_events L) s (Some ev) /\ (L' = L \/ L' = remove_event s (ev_sequence ev) L))
  | EvDeleteStream s =>
      (pe_is_protected_stream s = true /\ err = protected_error s /\ L' = L) \/
      (pe_is_protected_stream s = false /\ commit_failed err /\
       ((exists E, part_of s (lg_events L) E /\ L' = with_events L E) \/ L' = delete_stream_log s L))
  | EvReopen _ => False
  end.

Definition ev_step (op : EvOp) L (r : thingd_result EvReply) L' : Prop :=
  match r with Ok reply => ev_op_spec op L reply L' | Err err => ev_op_fails op L err L' end.

Lemma append_failed now ev e L err e' :
  event_sim e L -> event_ready now ev -> pe_append_event now ev e = (Err err, e') ->
  find_event (lg_events L) (lg_keys L) ev = None.
Proof.
  intros Hsim Hev. destruct (find_event (lg_events L) (lg_keys L) ev) as [x|] eqn:Hfind; [|done].
  pose proof Hsim as [Hc Hkv Hram HC HK HE HM HL]. unfold pe_append_event.
  rewrite pbind_pget, (stored_event_spec e L), pbind_plift, HK, Hfind; [done|done|by destruct Hev|].
  rewrite HK. intros k m. by apply keys_in_u64.
Qed.

Lemma protected_err {A} s (m : PM D A) e r e' :
  (if pe_is_protected_stream s then plift (Err (protected_error s)) else m) e = (r, e') -> pe_is_protected_stream s = true ->
  r = Err (protected_error s) /\ e' = e.
Proof. intros Hrun Hp. rewrite Hp in Hrun. by injection Hrun as <- <-. Qed.

(** Every operation refines its specification. *)
Lemma ev_op_refines op e L r e' :
  event_sim e L -> ev_op_ok op L -> run_ev_op op e = (r, e') -> exists L', ev_step op L r L' /\ event_sim e' L'.
Proof.
  intros Hsim Hok. destruct op as [now ev|evs|s|s|hash_order]; cbn [run_ev_op ev_op_ok] in *; unfold reply_map.
  - destruct Hok as [Hev Hmax]. destruct (pe_append_event now ev e) as [r0 e0] eqn:Hrun.
    pose proof (append_refines now ev e L r0 e0 Hsim Hev Hmax Hrun) as Hr. intros [= <- <-]. destruct r0 as [x|err].
    + destruct Hr as [-> Hr]. eexists. by split.
    + destruct Hr as [Hf Hr]. exists (forget_key ev L). split; [|done]. split_and!; [done| |done]. by eapply append_failed.
  - destruct Hok as [Hall Hroom]. destruct (pe_append_events_batch evs e) as [r0 e0] eqn:Hrun.
    pose proof (append_batch_refines evs e L r0 e0 Hsim Hall Hroom Hrun) as Hr. intros [= <- <-]. destruct r0 as [xs|err].
    + destruct Hr as [-> Hr]. eexists. by split.
    + destruct Hr as [Hf Hr]. by exists L.
  - destruct (pe_delete_last_event s e) as [r0 e0] eqn:Hrun. intros [= <- <-]. destruct (pe_is_protected_stream s) eqn:Hp.
    + pose proof (protected_err s _ _ _ _ Hrun Hp) as [-> ->]. exists L. split; [|done]. by left.
    + destruct (delete_last_refines s e L r0 e0 Hsim Hp Hrun) as (last&Hlast&Hr). destruct r0 as [o|err], last as [ev|]; try done.
      * destruct Hr as [-> Hr]. eexists. split; [|exact Hr]. split; [done|]. by exists (Some ev).
      * destruct Hr as [-> Hr]. exists L. split; [|done]. split; [done|]. by exists None.
      * destruct Hr as [Hf [Hr|Hr]]; eexists; (split; [|exact Hr]); right; (split; [done|]); split; [done|eauto|done|eauto].
  - destruct (pe_delete_stream s e) as [r0 e0] eqn:Hrun. intros [= <- <-]. destruct (pe_is_protected_stream s) eqn:Hp.
    + pose proof (protected_err s _ _ _ _ Hrun Hp) as [-> ->]. exists L. split; [|done]. by left.
    + pose proof (delete_stream_refines s e L r0 e0 Hsim Hp Hrun) as Hr. destruct r0 as [n|err].
      * destruct Hr as [-> Hr]. eexists. by split.
      * destruct Hr as [Hf [(E&HE&Hr)|Hr]]; eexists; (split; [|exact Hr]); right; split_and!; eauto.
  - destruct Hok as [HR Hord]. destruct (reopen hash_order e) as [r0 e0] eqn:Hrun. intros [= <- <-].
    assert (Hst : event_stored (set_event_state e ∅ ∅) L).
    { destruct (sim_stored e L Hsim HR). by split. }
    destruct (open_refines hash_order _ L r0 e0 Hst Hord Hrun) as (L'&->&Hre&Hs). by exists L'.
Qed.

(** ** Runs *)

Fixpoint run_ev_ops (ops : list EvOp) e : list (thingd_result EvReply) * PersistentEngine D :=
  match ops with
  | [] => ([], e)
  | op :: ops => let '(r, e) := run_ev_op op e in let '(rs, e) := run_ev_ops ops e in (r :: rs, e)
  end.

Inductive ev_run : Log -> list EvOp -> list (thingd_result EvReply) -> Log -> Prop :=
  | ev_run_nil L : ev_run L [] [] L
  | ev_run_cons L op r L1 ops rs L2 : ev_step op L r L1 -> ev_run L1 ops rs L2 -> ev_run L (op :: ops) (r :: rs) L2.

(** The arguments are right whatever the earlier operations answered. *)
Fixpoint ev_ops_ok (ops : list EvOp) L : Prop :=
  match ops with
  | [] => True
  | op :: ops => ev_op_ok op L /\ forall r L', ev_step op L r L' -> ev_ops_ok ops L'
  end.

Lemma ev_ops_refine ops e L rs e' :
  event_sim e L -> ev_ops_ok ops L -> run_ev_ops ops e = (rs, e') -> exists L', ev_run L ops rs L' /\ event_sim e' L'.
Proof.
  revert e L rs. induction ops as [|op ops IH]; intros e L rs Hsim Hok; cbn [run_ev_ops].
  { intros [= <- <-]. exists L. split; [constructor|done]. }
  destruct Hok as [Hop Hops]. destruct (run_ev_op op e) as [r e1] eqn:Hrun. destruct (run_ev_ops ops e1) as [rs1 e2] eqn:Hrest. intros [= <- <-].
  destruct (ev_op_refines op e L r e1 Hsim Hop Hrun) as (L1&Hstep&Hs1). destruct (IH e1 L1 rs1 Hs1 (Hops r L1 Hstep) Hrest) as (L2&Hr&Hs2).
  exists L2. split; [by econstructor|done].
Qed.

(** ** What stays *)

(** The operation does not delete events of the stream: it is another operation, or of
    another stream, or the stream is protected. *)
Definition spares s (op : EvOp) : Prop :=
  match op with EvDeleteLast s' | EvDeleteStream s' => s' <> s \/ pe_is_protected_stream s = true | _ => True end.

Definition keeps_events s L L' : Prop :=
  forall n ev, lg_events L !! (s, n) = Some ev -> lg_events L' !! (s, n) = Some ev.

#[global] Instance keeps_events_preorder s : PreOrder (keeps_events s).
Proof. split; [by intros L n ev|]. intros A B C HA HB n ev Hn. by apply HB, HA. Qed.

Lemma note_meta_events L s : lg_events (note_meta L s) = lg_events L.
Proof. unfold note_meta. by destruct (lg_ram L). Qed.

Lemma spec_append_keeps s now ev L :
  log_ok L -> default 0 (lg_counters L !! ev_stream ev) < U64_MAX -> keeps_events s L (spec_append now ev L).2.
Proof.
  intros HL Hmax n x Hx. unfold spec_append. destruct (find_event _ _ _); [done|]. rewrite add_event_eq by done. cbn [snd].
  rewrite note_meta_events. cbn [lg_events]. rewrite lookup_insert_ne; [done|]. intros [= <- Hn].
  pose proof (so_sequence _ _ _ _ (lo_memory L HL (ev_stream ev)) _ _ Hx) as Hs. unfold next_sequence in Hn. lia.
Qed.

Lemma spec_append_all_keeps s evs L :
  log_ok L -> Forall (fun x => event_ready x.1 x.2) evs -> room L (zlen evs) -> keeps_events s L (spec_append_all evs L).2.
Proof.
  revert L. induction evs as [|[now ev] evs IH]; intros L HL Hall Hroom; [done|]. apply Forall_cons in Hall as [Hev Hall]. cbn [fst snd length] in *.
  assert (Hmax : default 0 (lg_counters L !! ev_stream ev) < U64_MAX) by (specialize (Hroom (ev_stream ev)); lia).
  cbn [spec_append_all]. pose proof (spec_append_keeps s now ev L HL Hmax) as Hk. pose proof (spec_append_ok now ev L HL Hev Hmax) as HL'.
  assert (Hroom' : room (spec_append now ev L).2 (zlen evs)) by (apply room_append; [done|lia|]; intros s'; specialize (Hroom s'); lia).
  specialize (IH _ HL' Hall Hroom'). destruct (spec_append now ev L) as [x L1]. cbn [snd] in *.
  destruct (spec_append_all evs L1) as [xs L2]. cbn [snd] in *. by etrans.
Qed.

Lemma ev_step_keeps s op L r L' :
  log_ok L -> ev_op_ok op L -> spares s op -> ev_step op L r L' -> keeps_events s L L'.
Proof.
  intros HL Hok Hsp. destruct r as [reply|err]; destruct op as [now ev|evs|s'|s'|hash_order]; cbn [ev_step ev_op_spec ev_op_fails ev_op_ok spares] in *.
  - intros [_ ->]. destruct Hok. by apply spec_append_keeps.
  - intros [_ ->]. destruct Hok. by apply spec_append_all_keeps.
  - intros (Hp&last&Hlast&_&->). destruct last as [ev|]; [|done]. intros n x Hx. rewrite note_meta_events. cbn.
    rewrite lookup_delete_ne; [done|]. destruct Hsp; congruence.
  - intros (Hp&_&->) n x Hx. apply outside_lookup. split; [done|]. cbn. destruct Hsp; congruence.
  - intros (_&_&He&_) n x. by rewrite He.
  - by intros (_&_&->) n x Hx.
  - by intros [_ ->] n x Hx.
  - intros [(_&_&->)|(Hp&_&ev&_&[->| ->])]; [done..|]. intros n x Hx. cbn. rewrite lookup_delete_ne; [done|]. destruct Hsp; congruence.
  - intros [(_&_&->)|(Hp&_&[(E&[_ Hout]&->)| ->])]; [done|..]; intros n x Hx; cbn.
    + assert (Hin : outside s' (lg_events L) !! (s, n) = Some x) by (apply outside_lookup; split; [done|]; cbn; destruct Hsp; congruence).
      rewrite <-Hout in Hin. by apply outside_lookup in Hin as [? _].
    + apply outside_lookup. split; [done|]. cbn. destruct Hsp; congruence.
  - done.
Qed.
End run.
