(* ===== verification/PEventTheorems.v ===== *)
(** * thingd: theorems about the persistent event log

    The theorems hold for any store that satisfies [KvLaws]; the witnesses evaluate the
    operations on the RAM store and on a store that stops taking commits. *)

From S2P Require Import Prelude Wal Table Layer Database ThingDb Keyspace RamScan Model Objects Events Storage Persistent PSample PStore PQueue PEvents PEventSpec PEventOps PEventBatch PEventDelete PEventOpen PEventList PEventRun.

(** ** Metadata that is exact *)

(** The metadata records hold what the engine has in memory. *)
Definition recorded (L : Log) : Prop :=
  forall s, lg_meta L !! s = (fun _ => make_event_metadata (lg_counters L) (lg_keys L) s) <$> lg_counters L !! s.

Lemma recorded_reopened L L' : log_ok L -> recorded L -> reopened L L' -> L' = L.
Proof.
  intros HL Hrec (Hr&He&Hm&Hc&Hk). destruct L as [ram E C K M], L' as [ram' E' C' K' M']. cbn in *. subst.
  unfold recorded in Hrec. cbn [lg_meta lg_counters lg_keys] in Hrec. f_equal.
  - apply map_eq. intros s. rewrite lookup_fmap, (Hrec s). cbn. by destruct (C !! s) as [c|] eqn:Hs; cbn; rewrite ?Hs.
  - apply map_eq. intros [s k]. rewrite Hk. unfold meta_keys. rewrite (Hrec s). cbn. destruct (C !! s) as [c|] eqn:Hs; cbn; [apply stream_keys_lookup|].
    rewrite lookup_empty. destruct (K !! (s, k)) as [n|] eqn:Hn; [|done]. rewrite <-stream_keys_lookup in Hn.
    apply (so_range _ _ _ _ (lo_memory _ HL s)) in Hn as [_ Hn]. cbn in Hn. rewrite Hs in Hn. cbn in Hn. lia.
Qed.

Lemma note_recorded L s :
  lg_ram L = false -> is_Some (lg_counters L !! s) ->
  (forall s', s' <> s -> lg_meta L !! s' = (fun _ => make_event_metadata (lg_counters L) (lg_keys L) s') <$> lg_counters L !! s') ->
  recorded (note_meta L s).
Proof.
  intros HR [c Hc] Hrec s'. unfold note_meta. rewrite HR. cbn [lg_meta lg_counters lg_keys]. destruct (decide (s' = s)) as [->|Hne].
  - by rewrite lookup_insert_eq, Hc.
  - rewrite lookup_insert_ne by done. by apply Hrec.
Qed.

Lemma metadata_ext (C C' : Counters) (K K' : IdemKeys) s :
  C !! s = C' !! s -> (forall k, K !! (s, k) = K' !! (s, k)) -> make_event_metadata C K s = make_event_metadata C' K' s.
Proof. intros HC HK. unfold make_event_metadata. by rewrite HC, (stream_keys_ext _ _ _ HK). Qed.

Lemma append_recorded now ev L :
  log_ok L -> lg_ram L = false -> default 0 (lg_counters L !! ev_stream ev) < U64_MAX -> recorded L ->
  recorded (spec_append now ev L).2 /\ lg_ram (spec_append now ev L).2 = false.
Proof.
  intros HL HR Hmax Hrec. unfold spec_append. destruct (find_event _ _ _); [done|]. rewrite add_event_eq by done. cbn [snd]. split.
  - apply note_recorded; cbn [lg_ram lg_counters lg_meta lg_keys]; [done|by rewrite lookup_insert_eq|].
    intros s' Hne. rewrite lookup_insert_ne, metadata_other by done. apply Hrec.
  - unfold note_meta. by rewrite HR.
Qed.

Lemma append_all_recorded evs L :
  log_ok L -> lg_ram L = false -> Forall (fun x => event_ready x.1 x.2) evs -> room L (zlen evs) -> recorded L ->
  recorded (spec_append_all evs L).2 /\ lg_ram (spec_append_all evs L).2 = false.
Proof.
  revert L. induction evs as [|[now ev] evs IH]; intros L HL HR Hall Hroom Hrec; [done|]. apply Forall_cons in Hall as [Hev Hall]. cbn [fst snd length] in *.
  assert (Hmax : default 0 (lg_counters L !! ev_stream ev) < U64_MAX) by (specialize (Hroom (ev_stream ev)); lia).
  destruct (append_recorded now ev L HL HR Hmax Hrec) as [Hr1 HR1]. pose proof (spec_append_ok now ev L HL Hev Hmax) as HL'.
  assert (Hroom' : room (spec_append now ev L).2 (zlen evs)) by (apply room_append; [done|lia|]; intros s'; specialize (Hroom s'); lia).
  specialize (IH _ HL' HR1 Hall Hroom' Hr1). cbn [spec_append_all]. destruct (spec_append now ev L) as [x L1]. cbn [snd] in *.
  by destruct (spec_append_all evs L1).
Qed.

Lemma delete_last_recorded s ev L :
  log_ok L -> lg_ram L = false -> lg_events L !! (s, ev_sequence ev) = Some ev -> recorded L ->
  recorded (note_meta (remove_event s (ev_sequence ev) L) s).
Proof.
  intros HL HR Hev Hrec. apply note_recorded; [done| |]; cbn [remove_event lg_counters lg_meta lg_keys].
  - apply (so_sequence _ _ _ _ (lo_memory L HL s)) in Hev. destruct (lg_counters L !! s); [done|]. cbn in Hev. lia.
  - intros s' Hne. rewrite (Hrec s'). destruct (lg_counters L !! s'); cbn; [|done]. f_equal. apply metadata_ext; [done|]. intros k.
    apply option_eq. intros n. rewrite map_lookup_filter_Some. cbn. tauto.
Qed.

Lemma delete_stream_recorded s L : recorded L -> recorded (with_meta (delete_stream_log s L) (delete s (lg_meta L))).
Proof.
  intros Hrec s'. cbn. destruct (decide (s' = s)) as [->|Hne]; [by rewrite !lookup_delete_eq|]. rewrite !lookup_delete_ne, (Hrec s') by done.
  destruct (lg_counters L !! s') eqn:Hs; cbn; [|done]. f_equal. apply metadata_ext; [by rewrite lookup_delete_ne|]. intros k.
  apply option_eq. intros n. rewrite map_lookup_filter_Some. cbn. tauto.
Qed.

Section theorems.
Context `{KvLaws D} `{!Serde MemoryEvent event_wt} `{!Serde EventMetadata meta_wt}.
Implicit Types (e : PersistentEngine D) (L : Log) (ev : MemoryEvent) (s : string) (hash_order : Counters -> list string).

Lemma step_recorded op L reply L' :
  log_ok L -> lg_ram L = false -> ev_op_ok op L -> recorded L -> ev_op_spec op L reply L' -> recorded L' /\ lg_ram L' = false.
Proof.
  intros HL HR Hok Hrec. destruct op as [now ev|evs|s|s|hash_order]; cbn [ev_op_ok ev_op_spec] in *.
  - intros [_ ->]. destruct Hok. by apply append_recorded.
  - intros [_ ->]. destruct Hok. by apply append_all_recorded.
  - intros (_&last&Hlast&_&->). destruct last as [ev|]; [|done]. destruct Hlast as [Hev _]. split; [by apply delete_last_recorded|].
    unfold note_meta. cbn. by rewrite HR.
  - intros (_&_&->). split; [by apply delete_stream_recorded|done].
  - intros [_ Hre]. rewrite (recorded_reopened L L') by done. done.
Qed.

Lemma run_recorded ops e L rs e' :
  event_sim e L -> lg_ram L = false -> ev_ops_ok ops L -> recorded L -> run_ev_ops ops e = (rs, e') ->
  Forall (fun r => exists reply, r = Ok reply) rs -> exists L', event_sim e' L' /\ recorded L' /\ lg_ram L' = false.
Proof.
  revert e L rs. induction ops as [|op ops IH]; intros e L rs Hsim HR Hok Hrec; cbn [run_ev_ops].
  { intros [= <- <-] _. by exists L. }
  destruct Hok as [Hop Hops]. destruct (run_ev_op op e) as [r e1] eqn:Hrun. destruct (run_ev_ops ops e1) as [rs1 e2] eqn:Hrest. intros [= <- <-] Hall.
  apply Forall_cons in Hall as [[reply ->] Hall]. destruct (ev_op_refines op e L _ e1 Hsim Hop Hrun) as (L1&Hstep&Hs1).
  destruct (step_recorded op L reply L1 (es_log _ _ Hsim) HR Hop Hrec Hstep) as [Hr1 HR1].
  by apply (IH e1 L1 rs1 Hs1 HR1 (Hops _ L1 Hstep) Hr1 Hrest).
Qed.

Lemma run_keeps s ops e L rs e' :
  event_sim e L -> ev_ops_ok ops L -> Forall (spares s) ops -> run_ev_ops ops e = (rs, e') ->
  exists L', event_sim e' L' /\ keeps_events s L L'.
Proof.
  revert e L rs. induction ops as [|op ops IH]; intros e L rs Hsim Hok Hsp; cbn [run_ev_ops].
  { intros [= <- <-]. by exists L. }
  destruct Hok as [Hop Hops]. apply Forall_cons in Hsp as [Hsp1 Hsp]. destruct (run_ev_op op e) as [r e1] eqn:Hrun.
  destruct (run_ev_ops ops e1) as [rs1 e2] eqn:Hrest. intros [= <- <-].
  destruct (ev_op_refines op e L r e1 Hsim Hop Hrun) as (L1&Hstep&Hs1). pose proof (ev_step_keeps s op L r L1 (es_log _ _ Hsim) Hop Hsp1 Hstep) as Hk.
  destruct (IH e1 L1 rs1 Hs1 (Hops _ L1 Hstep) Hsp Hrest) as (L2&Hs2&Hk2). exists L2. split; [done|]. by etrans.
Qed.

(** An append whose idempotency key is taken returns the event and changes nothing. *)
Lemma append_known now ev e L n x :
  event_sim e L -> event_ready now ev -> lg_events L !! (ev_stream ev, n) = Some x -> keyed x ->
  ev_idempotency_key x = ev_idempotency_key ev -> pe_append_event now ev e = (Ok x, e).
Proof.
  intros Hsim Hev Hx Hk Heq. pose proof Hsim as [Hc Hkv Hram HC HK HE HM HL]. unfold pe_append_event.
  assert (Hfind : find_event (lg_events L) (lg_keys L) ev = Some x).
  { unfold find_event. rewrite bool_decide_false by (rewrite <-Heq; done). pose proof (so_keyed _ _ _ _ (lo_memory L HL _) _ _ Hx Hk) as Hn.
    rewrite stream_keys_lookup, Heq in Hn. by rewrite Hn. }
  rewrite pbind_pget, (stored_event_spec e L), pbind_plift, HK, Hfind; [done|done|by destruct Hev|].
  rewrite HK. intros k m. by apply keys_in_u64.
Qed.

(** The views of a log determine its keyspaces. *)
Lemma indexed_unique {K A} `{Countable K} (f : A -> option (bytes * bytes)) m m' (J : gmap K A) : indexed f m J -> indexed f m' J -> m = m'.
Proof. intros Hm Hm'. apply map_eq. intros k. apply option_eq. intros v. by rewrite (Hm k v), (Hm' k v). Qed.

(** ** The theorems *)

(** C20. Every run of appends, batch appends, deletions and reopenings of the persistent
    event log, with any commits refused by the storage, refines the abstract log: the
    answers and the final state are those of the specification, and the engine's memory,
    the event records and the stream metadata represent that state. *)
Theorem event_runs_refine ops e L rs e' :
  event_sim e L -> ev_ops_ok ops L -> run_ev_ops ops e = (rs, e') -> exists L', ev_run L ops rs L' /\ event_sim e' L'.
Proof. apply ev_ops_refine. Qed.

(** No event is lost or changed: through any run of operations, refused commits and
    reopenings, every stored event of a stream is still listed as it was, as long as no
    operation deletes from the stream; for a protected stream, whatever the operations are. *)
Theorem stored_events_kept s ops e L rs e' ev :
  event_sim e L -> ev_ops_ok ops L -> Forall (spares s) ops -> run_ev_ops ops e = (rs, e') ->
  lg_events L !! (s, ev_sequence ev) = Some ev ->
  exists evs, pe_list_events e' (Some s) (mkListEvents None None None) = Ok evs /\ ev ∈ evs.
Proof.
  intros Hsim Hok Hsp Hrun Hev. destruct (run_keeps s ops e L rs e' Hsim Hok Hsp Hrun) as (L'&Hs'&Hk).
  pose proof (lo_events L (es_log _ _ Hsim) _ _ Hev) as [Hs _ _ Hnul]. cbn in Hs. rewrite (list_events_spec e' L'); [|done|by rewrite <-Hs].
  eexists. split; [done|]. cbn [cut le_limit]. apply elem_of_filter_bool. split.
  - unfold log_events. apply elem_of_btree_values. exists (s, ev_sequence ev). by apply Hk.
  - unfold event_listed. cbn. by rewrite bool_decide_true.
Qed.

(** C21. Retries are safe: once an event with an idempotency key is stored, appending to
    the same stream with the same key returns the stored event and changes nothing, also
    after any run of operations, refused commits and reopenings that spares the stream. *)
Theorem append_retry_idempotent ops e L rs e' now ev n x :
  event_sim e L -> lg_events L !! (ev_stream ev, n) = Some x -> keyed x -> ev_idempotency_key x = ev_idempotency_key ev ->
  ev_ops_ok ops L -> Forall (spares (ev_stream ev)) ops -> run_ev_ops ops e = (rs, e') -> event_ready now ev ->
  pe_append_event now ev e' = (Ok x, e').
Proof.
  intros Hsim Hx Hk Heq Hok Hsp Hrun Hev. destruct (run_keeps _ ops e L rs e' Hsim Hok Hsp Hrun) as (L'&Hs'&Hkeep).
  by eapply append_known; [exact Hs'|done|by apply Hkeep|..].
Qed.

(** C22. Restarting is exact: after a run in which every operation succeeded, reopening
    the database restores the sequence counters and the idempotency keys of every stream
    as the engine had them. *)
Theorem restart_restores_events ops e L rs e' hash_order r e'' :
  event_sim e L -> lg_ram L = false -> recorded L -> ev_ops_ok ops L -> run_ev_ops ops e = (rs, e') ->
  Forall (fun r => exists reply, r = Ok reply) rs -> iterates hash_order -> reopen hash_order e' = (r, e'') ->
  r = Ok () /\ pe_event_seq_counters e'' = pe_event_seq_counters e' /\
  pe_event_idempotency_keys e'' = pe_event_idempotency_keys e' /\ exists L', event_sim e' L' /\ event_sim e'' L'.
Proof.
  intros Hsim HR Hrec Hok Hrun Hall Hord Hre. destruct (run_recorded ops e L rs e' Hsim HR Hok Hrec Hrun Hall) as (L'&Hs'&Hrec'&HR').
  assert (Hst : event_stored (set_event_state e' ∅ ∅) L') by (destruct (sim_stored e' L' Hs' HR'); by split).
  destruct (open_refines hash_order _ L' r e'' Hst Hord Hre) as (L''&->&Hreo&Hs'').
  rewrite (recorded_reopened L' L'' (es_log _ _ Hs') Hrec' Hreo) in Hs''.
  split_and!; [done|by rewrite (es_counters _ _ Hs''), (es_counters _ _ Hs')|by rewrite (es_keys _ _ Hs''), (es_keys _ _ Hs')|by exists L'].
Qed.

(** Listing is exact: [list_events] terminates and returns the events of the log that
    match the stream, the cursor and the time, ordered by stream and sequence number, cut
    at the limit, whatever the page size. *)
Theorem list_events_exact e L stream options :
  event_sim e L -> list_options_ok stream options ->
  pe_list_events e stream options = Ok (cut (le_limit options) (List.filter (event_listed stream options) (log_events L))).
Proof. apply list_events_spec. Qed.

(** A batch is its events one after the other: when both succeed, appending a batch
    and appending its events singly return the same events and leave the same counters,
    idempotency keys, event records and metadata. *)
Theorem append_batch_sequential evs e L xs e1 rs e2 :
  event_sim e L -> Forall (fun x => event_ready x.1 x.2) evs -> room L (zlen evs) ->
  pe_append_events_batch evs e = (Ok xs, e1) ->
  run_ev_ops (map (fun x => EvAppend x.1 x.2) evs) e = (rs, e2) -> Forall (fun r => exists reply, r = Ok reply) rs ->
  rs = map (fun x => Ok (Stored [x])) xs /\
  pe_event_seq_counters e1 = pe_event_seq_counters e2 /\ pe_event_idempotency_keys e1 = pe_event_idempotency_keys e2 /\
  kv_view (pe_db e1) "events" = kv_view (pe_db e2) "events" /\ kv_view (pe_db e1) "event_meta" = kv_view (pe_db e2) "event_meta".
Proof.
  intros Hsim Hall Hroom Hbatch Hrun Hok. destruct (append_batch_refines evs e L _ e1 Hsim Hall Hroom Hbatch) as [-> H1].
  assert (Hseq : rs = map (fun x => Ok (Stored [x])) (spec_append_all evs L).1 /\ event_sim e2 (spec_append_all evs L).2).
  { clear Hbatch H1. revert e L rs Hsim Hroom Hrun Hok. induction evs as [|[now ev] evs IH]; intros e L rs Hsim Hroom Hrun Hok.
    { injection Hrun as <- <-. done. }
    apply Forall_cons in Hall as [Hev Hall]. cbn [map fst snd length run_ev_ops] in *. destruct (run_ev_op (EvAppend now ev) e) as [r e3] eqn:Hop.
    destruct (run_ev_ops _ e3) as [rs1 e4] eqn:Hrest. injection Hrun as <- <-. apply Forall_cons in Hok as [[reply ->] Hok].
    assert (Hmax : default 0 (lg_counters L !! ev_stream ev) < U64_MAX) by (specialize (Hroom (ev_stream ev)); lia).
    destruct (ev_op_refines (EvAppend now ev) e L _ e3 Hsim (conj Hev Hmax) Hop) as (L1&[-> ->]&Hs1).
    assert (Hroom' : room (spec_append now ev L).2 (zlen evs)).
    { apply room_append; [by destruct Hsim|lia|]. intros s'. specialize (Hroom s'). lia. }
    destruct (IH Hall e3 _ rs1 Hs1 Hroom' Hrest Hok) as [-> Hs2]. cbn [spec_append_all]. destruct (spec_append now ev L) as [x L1]. cbn [fst snd] in *.
    by destruct (spec_append_all evs L1). }
  destruct Hseq as [-> H2]. destruct H1 as [_ _ _ HC1 HK1 HE1 HM1 _], H2 as [_ _ _ HC2 HK2 HE2 HM2 _].
  split_and!; [done|congruence|congruence|by eapply indexed_unique|by eapply indexed_unique].
Qed.

(** Opening a database without metadata: when all its commits are taken, every event
    is kept and the metadata that is derived from the events represents them; so appends
    go on after the last event of each stream and known idempotency keys stay known. *)
Theorem open_migrates_legacy hash_order e E r e' :
  legacy e E -> iterates hash_order -> open_events hash_order e = (r, e') ->
  match r with
  | Ok _ => exists L, lg_events L = E /\ event_sim e' L
  | Err err => commit_failed err
  end.
Proof. apply migration_refines. Qed.

(** Deleting a stream restarts its sequence numbers: the next event appended to it has
    the number 1 again, so a reader that resumes after a number it has seen does not get
    the event. *)
Theorem delete_stream_restarts e L s n e1 now ev x e2 from :
  event_sim e L -> pe_delete_stream s e = (Ok n, e1) -> event_ready now ev -> ev_stream ev = s ->
  pe_append_event now ev e1 = (Ok x, e2) -> 1 <= from -> in_u64 from ->
  ev_sequence x = 1 /\ pe_list_events e2 (Some s) (mkListEvents (Some from) None None) = Ok [].
Proof.
  intros Hsim Hdel Hev Hs Happ Hfrom Hin. destruct (pe_is_protected_stream s) eqn:Hp; [unfold pe_delete_stream in Hdel; by rewrite Hp in Hdel|].
  destruct (delete_stream_refines s e L _ e1 Hsim Hp Hdel) as [_ H1]. set (L1 := with_meta _ _) in H1.
  assert (HC : lg_counters L1 !! s = None) by apply lookup_delete_eq.
  assert (HE : forall m, lg_events L1 !! (s, m) = None) by (intros m; apply map_lookup_filter_None; right; intros y _ Hy; by apply Hy).
  assert (Hmax : default 0 (lg_counters L1 !! ev_stream ev) < U64_MAX) by (rewrite Hs, HC; done).
  destruct (append_refines now ev e1 L1 _ e2 H1 Hev Hmax Happ) as [Hx H2].
  assert (Hfind : find_event (lg_events L1) (lg_keys L1) ev = None).
  { unfold find_event. case_bool_decide; [done|]. rewrite Hs. destruct (lg_keys L1 !! _); cbn; [apply HE|done]. }
  unfold spec_append in Hx, H2. rewrite Hfind, add_event_eq in Hx, H2 by (done || apply (es_log _ _ H1)). cbn [fst snd] in Hx, H2.
  unfold next_sequence in Hx, H2. rewrite Hs, HC in Hx, H2. cbn in Hx, H2. subst x. split; [done|].
  rewrite (list_events_spec e2 _ (Some s) _ H2); [|split_and!; [by rewrite <-Hs; destruct Hev|done|done]]. cbn [cut le_limit]. f_equal.
  apply filter_none. intros y Hy. unfold log_events in Hy. apply elem_of_btree_values in Hy as [[s' m] Hy]. rewrite note_meta_events in Hy. cbn [lg_events] in Hy.
  unfold event_listed. cbn [in_stream after_sequence le_from_sequence le_since created_since]. rewrite andb_true_r.
  apply lookup_insert_Some in Hy as [[_ <-]|[_ Hy]]; cbn.
  - rewrite andb_false_iff. right. apply Z.ltb_ge. lia.
  - rewrite andb_false_iff. left. apply bool_decide_eq_false. intros Hys.
    destruct (lo_events L1 (es_log _ _ H1) _ _ Hy) as [Hst _ _ _]. cbn in Hst. rewrite <-Hst, Hys, HE in Hy. done.
Qed.
End theorems.

(** ** Samples *)

#[local] Existing Instance sample_crc32.
#[local] Existing Instance sample_codec.

Fixpoint put_keys (l : list (string * Z)) : bytes :=
  match l with [] => [] | (k, n) :: l => put_str k ++ n :: put_keys l end.
Fixpoint get_keys (count : nat) : reader (list (string * Z)) := fun b =>
  match count with
  | O => Some ([], b)
  | S count => '(k, b) ← get_str b; '(n, b) ← get_int b; '(l, b) ← get_keys count b; Some ((k, n) :: l, b)
  end.

Lemma get_put_keys l : get_keys (length l) (put_keys l) = Some (l, []).
Proof.
  induction l as [|[k n] l IH]; [done|]. cbn [length get_keys put_keys]. rewrite get_put_str. cbn [mbind option_bind].
  rewrite get_put_int. cbn [mbind option_bind]. by rewrite IH.
Qed.

Definition put_meta (md : EventMetadata) : bytes :=
  put_str (em_stream md) ++ em_max_sequence md :: zlen (map_to_list (em_idempotency_keys md)) :: put_keys (map_to_list (em_idempotency_keys md)).
Definition get_meta : reader EventMetadata := fun b =>
  '(stream, b) ← get_str b; '(max, b) ← get_int b; '(count, b) ← get_int b; '(l, b) ← get_keys (Z.to_nat count) b;
  Some (mkMeta stream max (list_to_map l), b).

Lemma get_put_meta md : get_meta (put_meta md) = Some (md, []).
Proof.
  unfold get_meta, put_meta. rewrite get_put_str. cbn [mbind option_bind]. rewrite !get_put_int. cbn [mbind option_bind].
  rewrite !get_put_int. cbn [mbind option_bind]. rewrite Nat2Z.id, get_put_keys. cbn [mbind option_bind]. rewrite list_to_map_to_list. by destruct md.
Qed.

#[local, refine] Instance sample_serde_meta : Serde EventMetadata meta_wt := {|
  json_to_vec md := Ok (put_meta md);
  json_from_slice b := finish (get_meta b);
|}.
Proof. intros md _. eexists. split; [done|]. by rewrite get_put_meta. Defined.

(** A durable engine over an empty store, and one that holds an event. *)
Definition durable_engine : PersistentEngine RamKeyspaces := store_engine ∅ false.
Definition empty_log : Log := mkLog false ∅ ∅ ∅ ∅.
Definition paid : MemoryEvent := mkEvent "orders" "paid" "{}" 0 "" "k1".
Definition shipped : MemoryEvent := mkEvent "orders" "shipped" "{}" 0 "" "".
Definition everything : ListEventsOptions := mkListEvents None None None.

Lemma empty_log_ok ram : log_ok (mkLog ram ∅ ∅ ∅ ∅).
Proof.
  assert (Hs : forall s, stream_ok ∅ s None ∅) by (intros s; by apply stream_ok_empty).
  split; cbn; try done; intros *; rewrite ?lookup_empty; done.
Qed.

Lemma durable_engine_sim : event_sim durable_engine empty_log.
Proof.
  assert (Hv : forall n, kv_view (pe_db durable_engine) n = ∅) by done.
  split; try done; rewrite ?Hv; first [apply indexed_empty|apply empty_log_ok].
Qed.

Lemma sample_ready ev now : is_str now ->
  Forall is_str [ev_stream ev; ev_event_type ev; ev_body ev; ev_created_at ev; ev_idempotency_key ev] -> no_nul (ev_stream ev) -> event_ready now ev.
Proof. intros Hn Hall Hz. rewrite !Forall_cons in Hall. destruct Hall as (?&?&?&?&?&_). by split. Qed.

Lemma orders_nul : no_nul "orders".
Proof. unfold no_nul. by apply (bool_decide_unpack _). Qed.
Lemma paid_ready : event_ready "2024" paid.
Proof. apply sample_ready; [done|repeat constructor; done|apply orders_nul]. Qed.
Lemma shipped_ready : event_ready "2024" shipped.
Proof. apply sample_ready; [done|repeat constructor; done|apply orders_nul]. Qed.

Definition paid_log : Log := (spec_append "2024" paid empty_log).2.
Definition paid_engine : PersistentEngine RamKeyspaces := (pe_append_event "2024" paid durable_engine).2.

Lemma paid_engine_sim : event_sim paid_engine paid_log.
Proof.
  unfold paid_engine. destruct (pe_append_event "2024" paid durable_engine) as [r e'] eqn:Hrun.
  assert (Hr : is_Some (match r with Ok x => Some x | Err _ => None end)).
  { change r with ((r, e').1). rewrite <-Hrun. vm_compute. by eexists. }
  pose proof (append_refines "2024" paid durable_engine empty_log r e' durable_engine_sim paid_ready ltac:(done) Hrun) as Ha.
  destruct r as [x|]; [by destruct Ha|by destruct Hr].
Qed.

Lemma paid_log_recorded : recorded paid_log /\ lg_ram paid_log = false.
Proof.
  apply append_recorded; [apply empty_log_ok|done|done|]. intros s. cbn. by rewrite !lookup_empty.
Qed.

Definition sample_ops : list EvOp := [EvAppend "2024" shipped; EvReopen btree_keys].

Lemma btree_keys_iterates : iterates btree_keys.
Proof. intros C. unfold btree_keys. by rewrite btree_iter_perm. Qed.

Lemma sample_ops_ok : ev_ops_ok sample_ops paid_log.
Proof.
  split; [split; [apply shipped_ready|done]|]. intros r L' Hstep. split; [|done]. split; [|apply btree_keys_iterates].
  destruct r; [destruct Hstep as [_ ->]|destruct Hstep as (_&_&->)]; done.
Qed.

Lemma event_runs_refine_witness :
  let run := run_ev_ops sample_ops paid_engine in
  exists L', ev_run paid_log sample_ops run.1 L' /\ event_sim run.2 L'.
Proof. apply (event_runs_refine sample_ops paid_engine paid_log); [apply paid_engine_sim|apply sample_ops_ok|apply surjective_pairing]. Defined.

Definition paid_stored : MemoryEvent := with_sequence paid 1 "2024".

Lemma stored_events_kept_witness :
  let run := run_ev_ops sample_ops paid_engine in
  exists evs, pe_list_events run.2 (Some "orders") everything = Ok evs /\ paid_stored ∈ evs.
Proof.
  eapply (stored_events_kept "orders" sample_ops paid_engine paid_log);
    [apply paid_engine_sim|apply sample_ops_ok|repeat constructor|apply surjective_pairing|done].
Defined.

Lemma append_retry_idempotent_witness :
  let run := run_ev_ops sample_ops paid_engine in pe_append_event "2025" paid run.2 = (Ok paid_stored, run.2).
Proof.
  eapply (append_retry_idempotent sample_ops paid_engine paid_log _ _ "2025" paid 1 paid_stored);
    [apply paid_engine_sim|done|done|done|apply sample_ops_ok|repeat constructor|apply surjective_pairing|].
  apply sample_ready; [done|repeat constructor; done|apply orders_nul].
Defined.

Lemma restart_restores_events_witness :
  let run := run_ev_ops sample_ops paid_engine in
  let again := reopen btree_keys run.2 in
  again.1 = Ok () /\ pe_event_seq_counters again.2 = pe_event_seq_counters run.2 /\
  pe_event_idempotency_keys again.2 = pe_event_idempotency_keys run.2 /\ exists L', event_sim run.2 L' /\ event_sim again.2 L'.
Proof.
  eapply (restart_restores_events sample_ops paid_engine paid_log _ _ btree_keys);
    [apply paid_engine_sim|apply paid_log_recorded|apply paid_log_recorded|apply sample_ops_ok|apply surjective_pairing| |
     apply btree_keys_iterates|apply surjective_pairing].
  vm_compute. repeat constructor; by eexists.
Defined.

Lemma list_events_exact_witness :
  pe_list_events paid_engine (Some "orders") everything =
  Ok (List.filter (event_listed (Some "orders") everything) (log_events paid_log)).
Proof. apply (list_events_exact paid_engine paid_log (Some "orders") everything); [apply paid_engine_sim|]. split; [apply orders_nul|done]. Defined.

Definition sample_batch : list (string * MemoryEvent) := [("2024", shipped); ("2024", paid); ("2025", shipped)].

Lemma append_batch_sequential_witness :
  let batch := pe_append_events_batch sample_batch paid_engine in
  let run := run_ev_ops (map (fun x => EvAppend x.1 x.2) sample_batch) paid_engine in
  let xs := [with_sequence shipped 2 "2024"; paid_stored; with_sequence shipped 3 "2025"] in
  run.1 = map (fun x => Ok (Stored [x])) xs /\
  pe_event_seq_counters batch.2 = pe_event_seq_counters run.2 /\ pe_event_idempotency_keys batch.2 = pe_event_idempotency_keys run.2 /\
  kv_view (pe_db batch.2) "events" = kv_view (pe_db run.2) "events" /\ kv_view (pe_db batch.2) "event_meta" = kv_view (pe_db run.2) "event_meta".
Proof.
  eapply (append_batch_sequential sample_batch paid_engine paid_log); [apply paid_engine_sim| | | |apply surjective_pairing|].
  - assert (Hlater : event_ready "2025" shipped) by (apply sample_ready; [done|repeat constructor; done|apply orders_nul]).
    repeat (constructor; [first [apply shipped_ready|apply paid_ready|exact Hlater]|]). constructor.
  - apply (room_append "2024" paid empty_log 3); [apply empty_log_ok|done|]. intros s. done.
  - rewrite surjective_pairing at 1. f_equal.
  - vm_compute. repeat constructor; by eexists.
Defined.

Definition cancelled : MemoryEvent := mkEvent "orders" "cancelled" "{}" 0 "" "".

Lemma delete_stream_restarts_witness :
  let deleted := pe_delete_stream "orders" paid_engine in
  let appended := pe_append_event "2025" cancelled deleted.2 in
  ev_sequence (with_sequence cancelled 1 "2025") = 1 /\
  pe_list_events appended.2 (Some "orders") (mkListEvents (Some 1) None None) = Ok [].
Proof.
  eapply (delete_stream_restarts paid_engine paid_log "orders" 1 _ "2025" cancelled); [apply paid_engine_sim| | |done| |done|done].
  - rewrite surjective_pairing at 1. f_equal.
  - apply sample_ready; [done|repeat constructor; done|apply orders_nul].
  - rewrite surjective_pairing at 1. f_equal.
Defined.

(** A database of the version without metadata: written by an engine that keeps counters
    and keys in memory only. *)
Definition refund : MemoryEvent := mkEvent "refunds" "paid" "{}" 0 "" "".
Definition legacy_log : Log := (spec_append "2024" paid (mkLog true ∅ ∅ ∅ ∅)).2.
Definition legacy_engine : PersistentEngine RamKeyspaces :=
  store_engine (pe_db (pe_append_event "2024" paid (store_engine ∅ true)).2) false.

Lemma legacy_engine_legacy : legacy legacy_engine (lg_events legacy_log).
Proof.
  assert (Hsim0 : event_sim (store_engine (∅ : RamKeyspaces) true) (mkLog true ∅ ∅ ∅ ∅)).
  { assert (Hv : forall n, kv_view (pe_db (store_engine (∅ : RamKeyspaces) true)) n = ∅) by done.
    split; try done; rewrite ?Hv; first [apply indexed_empty|apply empty_log_ok]. }
  unfold legacy_engine. destruct (pe_append_event "2024" paid (store_engine ∅ true)) as [r e'] eqn:Hrun.
  assert (Hr : is_Some (match r with Ok x => Some x | Err _ => None end)).
  { change r with ((r, e').1). rewrite <-Hrun. vm_compute. by eexists. }
  pose proof (append_refines "2024" paid _ _ r e' Hsim0 paid_ready ltac:(done) Hrun) as Ha.
  destruct r as [x|]; [|by destruct Hr]. destruct Ha as [_ [Hc Hkv Hram HC HK HE HM HL]]. split; try done.
  - cbn [snd pe_db store_engine]. apply map_eq. intros k. rewrite lookup_empty. destruct (kv_view (pe_db e') "event_meta" !! k) as [v|] eqn:Hk; [|done].
    apply HM in Hk as (i&md&Hi&_). cbn in Hi. done.
  - exists (lg_counters legacy_log), (lg_keys legacy_log). exact HL.
Qed.

Lemma open_migrates_legacy_witness :
  let run := open_events btree_keys legacy_engine in
  match run.1 with Ok _ => exists L, lg_events L = lg_events legacy_log /\ event_sim run.2 L | Err err => commit_failed (D := RamKeyspaces) err end.
Proof.
  apply (open_migrates_legacy btree_keys legacy_engine (lg_events legacy_log));
    [apply legacy_engine_legacy|apply btree_keys_iterates|apply surjective_pairing].
Defined.

(** ** A migration that is interrupted *)

#[local] Existing Instance limited_kv.

(** A database with two streams and no metadata, on a store that takes [n] more commits. *)
Definition two_streams : RamKeyspaces :=
  pe_db (pe_append_event "2024" refund (pe_append_event "2024" paid (store_engine (∅ : RamKeyspaces) true)).2).2.
Definition on_disk (db : RamKeyspaces) (n : nat) : PersistentEngine (RamKeyspaces * nat) := store_engine (db, n) false.

(** An interrupted migration loses events: when the storage refuses a commit while the
    metadata of a database without any is written, opening fails with one stream recorded;
    the next opening finds metadata and does not scan the events, so the other stream
    starts again at sequence 1 and its next append overwrites the stored event. *)
Theorem interrupted_migration_overwrites :
  let first := open_events btree_keys (on_disk two_streams 1) in
  let second := open_events btree_keys (on_disk (pe_db first.2).1 9) in
  let third := pe_append_event "2025" (mkEvent "refunds" "sent" "{}" 0 "" "") second.2 in
  pe_list_events (on_disk two_streams 1) (Some "refunds") everything = Ok [with_sequence refund 1 "2024"] /\
  first.1 = Err (Model.Storage "no space left on device") /\ second.1 = Ok () /\
  third.1 = Ok (mkEvent "refunds" "sent" "{}" 1 "2025" "") /\
  pe_list_events third.2 (Some "refunds") everything = Ok [mkEvent "refunds" "sent" "{}" 1 "2025" ""].
Proof. vm_compute. done. Qed.
