(* ===== verification/PLinks.v ===== *)
(** * thingd: graph links of the persistent engine

    Models [impl LinkStore for PersistentEngine] of [crates/thingd/src/persistent.rs] and
    the part of [open_from_database] that restores its id counter.  A link is a record
    under its id and an entry in two indexes, by its source and by its target; the three
    are written one after the other. *)

From S2P Require Import Prelude Wal Table Layer Database Keyspace RamScan Model Links Storage Persistent.
From Stdlib Require Import SpecFloat.

#[export] Instance LinkDirection_eq_dec : EqDecision LinkDirection.
Proof. solve_decision. Defined.

(** The weights that [serde_json] reads back as it printed them are a parameter: by default
    it does not promise this of every number. *)
Record link_wt (weight_ok : spec_float -> Prop) (l : Link) : Prop := {
  lw_id : is_str (lk_id l);
  lw_from : is_str (lk_from_ref l);
  lw_type : is_str (lk_link_type l);
  lw_to : is_str (lk_to_ref l);
  lw_weight : match lk_weight l with Some w => weight_ok w | None => True end;
  lw_metadata : is_str (lk_metadata_json l);
  lw_created : is_str (lk_created_at l);
}.

Section links.
Context `{Kv D} {weight_ok : spec_float -> Prop} `{!Serde Link (link_wt weight_ok)} `{!Serde string is_str}.
Implicit Types (e : PersistentEngine D) (c : StorageCodec) (link : Link).

(** ** Writing *)

Definition link_from_key c link : bytes := make_link_from_key c (lk_from_ref link) (lk_link_type link) (lk_id link).
Definition link_to_key c link : bytes := make_link_to_key c (lk_to_ref link) (lk_link_type link) (lk_id link).

(** The three inserts of [create_link] and [import_link]. *)
Definition store_link link : PM D unit :=
  let* e := pget in
  let c := pe_codec e in
  let* data := plift (serialize c link) in
  let* index_data := plift (serialize c (lk_id link)) in
  let* _ := ks_insert "links_by_id" (make_link_id_key c (lk_id link)) data in
  let* _ := ks_insert "links_from" (link_from_key c link) index_data in
  ks_insert "links_to" (link_to_key c link) index_data.

(** [AtomicU64::fetch_add] wraps around. *)
Definition pe_create_link (now : string) link : PM D Link :=
  let* e := pget in
  let id := pe_next_link_id e in
  let* _ := pmodify (fun e => set_next_link_id e (u64_wrapping_add id 1)) in
  let link := mkLink (link_name id) (lk_from_ref link) (lk_link_type link) (lk_to_ref link) (lk_weight link)
                (lk_metadata_json link)
                (if bool_decide (lk_created_at link = "") then now else lk_created_at link) in
  let* _ := store_link link in
  pret link.

Definition pe_get_link e (id : string) : thingd_result (option Link) :=
  data ← storage_error (kv_get (pe_db e) "links_by_id" (make_link_id_key (pe_codec e) id));
  match data with
  | Some data => Some <$> deserialize (pe_codec e) data
  | None => Ok None
  end.

Definition raise_link_id link e : PersistentEngine D :=
  match link_sequence (lk_id link) with
  | Some sequence => set_next_link_id e (Z.max (pe_next_link_id e) (u64_wrapping_add sequence 1))
  | None => e
  end.

Definition pe_import_link link : PM D Link :=
  if bool_decide (lk_id link = "") then plift (Err (InvalidInput "Link id is required for import")) else
  let* e := pget in
  let* existing := plift (pe_get_link e (lk_id link)) in
  match existing with
  | Some existing =>
      if link_eqb existing link then pret link
      else plift (Err (Conflict ("Link '" +:+ lk_id link +:+ "' already exists with different data")))
  | None =>
      let* _ := store_link link in
      let* _ := pmodify (raise_link_id link) in
      pret link
  end.

Definition pe_delete_link (id : string) : PM D bool :=
  let* e := pget in
  let c := pe_codec e in
  let* found := plift (pe_get_link e id) in
  match found with
  | Some link =>
      let* _ := ks_remove "links_by_id" (make_link_id_key c id) in
      let* _ := ks_remove "links_from" (make_link_from_key c (lk_from_ref link) (lk_link_type link) id) in
      let* _ := ks_remove "links_to" (make_link_to_key c (lk_to_ref link) (lk_link_type link) id) in
      pret true
  | None => pret false
  end.

(** ** Reading *)

Fixpoint list_links_loop c (offset limit index : Z) (links : list Link) (entries : list (bytes * bytes))
    : thingd_result (list Link) :=
  match entries with
  | [] => Ok links
  | (_, value) :: entries =>
      if index <? offset then list_links_loop c offset limit (index + 1) links entries
      else if limit <=? zlen links then Ok links
      else
        links ← (if bool_decide (value = []) then Ok links
                 else link ← deserialize c value; Ok (links ++ [link]));
        list_links_loop c offset limit (index + 1) links entries
  end.

Definition pe_list_links e (offset limit : Z) : thingd_result (list Link) :=
  sort_by id_cmp <$> list_links_loop (pe_codec e) offset limit 0 [] (kv_iter (pe_db e) "links_by_id").

(** The id behind an index entry; older stores left the value empty. *)
Definition neighbor_id c (key value : bytes) : thingd_result string :=
  if bool_decide (value = []) then Ok (bytes_str (default [] (splitn 3 0 (from_utf8_lossy key) !! 2%nat)))
  else deserialize c value.

Definition push_neighbor e (options : LinkQueryOptions) (results : list Link) (kv : bytes * bytes)
    : thingd_result (list Link) :=
  link_id ← neighbor_id (pe_codec e) kv.1 kv.2;
  found ← pe_get_link e link_id;
  Ok (match found with
      | Some link => if matches_type (lq_link_type options) link then results ++ [link] else results
      | None => results
      end).

Definition pe_get_neighbors e (reference : string) (direction : LinkDirection) (options : LinkQueryOptions)
    : thingd_result (list Link) :=
  let c := pe_codec e in
  results ← (if bool_decide (direction = Outgoing) || bool_decide (direction = Both)
             then fold_res (push_neighbor e options) [] (kv_prefix (pe_db e) "links_from" (make_link_from_prefix c reference))
             else Ok []);
  results ← (if bool_decide (direction = Incoming) || bool_decide (direction = Both)
             then fold_res (push_neighbor e options) results (kv_prefix (pe_db e) "links_to" (make_link_to_prefix c reference))
             else Ok results);
  Ok (match lq_limit options with Some limit => take (Z.to_nat limit) results | None => results end).

Definition pe_count_links e : thingd_result Z := Ok (zlen (kv_iter (pe_db e) "links_by_id")).

(** ** Opening *)

Definition load_link_id (next : Z) link : Z :=
  match link_sequence (lk_id link) with
  | Some id => if next <? id then id else next
  | None => next
  end.

Definition open_links : PM D unit :=
  let* e := pget in
  let* next := plift (fold_res (fun next kv => link ← deserialize (pe_codec e) kv.2; Ok (load_link_id next link)) 0
                        (kv_iter (pe_db e) "links_by_id")) in
  pmodify (fun e => set_next_link_id e (u64_wrapping_add next 1)).
End links.
