(* ===== verification/PLinkSpec.v ===== *)
(** * thingd: the persistent links against the in-memory engine

    The in-memory engine is the reference implementation of the storage traits.  [link_sim]
    relates the two engines: the persistent one holds, under each of its three keyspaces,
    one entry per link of the in-memory one, and its counter is one ahead.  Every operation
    gives the same answer on related engines and leaves them related, unless the store
    refuses a commit.  Listing, counting and neighbours agree too, and opening restores the id
    counter. *)

From S2P Require Import Prelude Wal Table Layer Database ThingDb Keyspace RamScan Model Links Storage Persistent PSample PStore PLinks.
From Stdlib Require Import SpecFloat.

(** ** Keys *)

Lemma link_from_key_raw l :
  link_from_key raw_codec l = str_bytes (lk_from_ref l) ++ 0 :: str_bytes (lk_link_type l) ++ 0 :: str_bytes (lk_id l).
Proof. unfold link_from_key, make_link_from_key. cbn [encode_scoped_key raw_codec]. by rewrite !str_bytes_app. Qed.

Lemma link_to_key_raw l :
  link_to_key raw_codec l = str_bytes (lk_to_ref l) ++ 0 :: str_bytes (lk_link_type l) ++ 0 :: str_bytes (lk_id l).
Proof. unfold link_to_key, make_link_to_key. cbn [encode_scoped_key raw_codec]. by rewrite !str_bytes_app. Qed.

Lemma link_keyspaces_valid : valid_name "links_by_id" /\ valid_name "links_from" /\ valid_name "links_to".
Proof. by repeat split; apply (bool_decide_unpack _). Qed.

(** ** Names *)

Lemma ascii_valid (b : bytes) : Forall (fun x => x < 128) b -> utf8_valid b = true.
Proof.
  unfold utf8_valid. induction 1 as [|x b Hx _ IH]; [done|]. cbn [length utf8_valid_fuel utf8_chunk].
  rewrite (proj2 (Z.ltb_lt x 128)) by done. cbn [andb drop]. done.
Qed.

Lemma digits_ascii l : Forall (fun d => 0 <= d < 10) l -> Forall (fun x => x < 128) (str_bytes (string_of_digits l)).
Proof.
  induction 1 as [|d l Hd _ IH]; cbn [string_of_digits str_bytes]; constructor; [|done].
  unfold digit_char. rewrite Ascii.N_ascii_embedding by lia. lia.
Qed.

Lemma length_str_digits l : length (str_bytes (string_of_digits l)) = length l.
Proof. induction l as [|d l IH]; [done|]. cbn [string_of_digits str_bytes length]. by rewrite IH. Qed.

Lemma decimal_length_le fuel z : (decimal_length fuel z <= S fuel)%nat.
Proof. revert z. induction fuel as [|fuel IH]; intros z; cbn [decimal_length]; [done|]. destruct (z <? 10); [lia|]. specialize (IH (z / 10)). lia. Qed.

Lemma link_name_str n : 0 <= n <= U64_MAX -> is_str (link_name n).
Proof.
  intros Hn. assert (Hlog : Z.log2 n < 64) by (pose proof (Z.log2_le_mono n U64_MAX); change (Z.log2 U64_MAX) with 63 in *; lia).
  assert (Hd : exists k, (k <= 65)%nat /\ format_pad 1 n = string_of_digits (digits 10 k n)).
  { unfold format_pad. destruct (_ <? _); [exists 1%nat; split; [lia|done]|]. eexists. split; [|done].
    pose proof (decimal_length_le (Z.to_nat (Z.log2 n)) n). lia. }
  destruct Hd as (k&Hk&Hf). unfold is_str, link_name. rewrite Hf, str_bytes_app. split.
  - apply ascii_valid. apply Forall_app. split; [repeat constructor; done|]. apply digits_ascii, digits_range. lia.
  - rewrite length_app, length_str_digits, length_digits. cbn [length str_bytes]. unfold I64_MAX. lia.
Qed.

Section spec.
Context `{KvLaws D} {weight_ok : spec_float -> Prop} `{!Serde Link (link_wt weight_ok)} `{!Serde string is_str}.
Implicit Types (e : PersistentEngine D) (l : Link) (J : gmap string Link) (m : MemoryEngine).

Record link_ok (id : string) l : Prop := {
  lo_id : lk_id l = id;
  lo_wt : link_wt weight_ok l;
  lo_from : no_nul (lk_from_ref l);
  lo_type : no_nul (lk_link_type l);
  lo_to : no_nul (lk_to_ref l);
}.

Definition id_entry l : option (bytes * bytes) := Some (str_bytes (lk_id l), json_text l).
Definition from_entry l : option (bytes * bytes) := Some (link_from_key raw_codec l, json_text (lk_id l)).
Definition to_entry l : option (bytes * bytes) := Some (link_to_key raw_codec l, json_text (lk_id l)).

Lemma id_entry_inj i l i' l' k v v' :
  link_ok i l -> link_ok i' l' -> id_entry l = Some (k, v) -> id_entry l' = Some (k, v') -> i = i'.
Proof. intros [<- _ _ _ _] [<- _ _ _ _] [= <- _] [= Heq _]. by apply str_bytes_inj in Heq. Qed.

(** Three parts, the first two without the separator. *)
Lemma three_parts_inj a b i a' b' i' :
  no_nul a -> no_nul a' -> no_nul b -> no_nul b' ->
  str_bytes a ++ 0 :: str_bytes b ++ 0 :: str_bytes i = str_bytes a' ++ 0 :: str_bytes b' ++ 0 :: str_bytes i' -> i = i'.
Proof.
  intros Ha Ha' Hb Hb' Heq. apply terminated_inj in Heq as [_ Heq]; [|done..].
  apply terminated_inj in Heq as [_ Heq]; [|done..]. by apply str_bytes_inj.
Qed.

Lemma from_entry_inj i l i' l' k v v' :
  link_ok i l -> link_ok i' l' -> from_entry l = Some (k, v) -> from_entry l' = Some (k, v') -> i = i'.
Proof.
  intros [<- _ ? ? _] [<- _ ? ? _] H1 H2. assert (Heq : link_from_key raw_codec l = link_from_key raw_codec l') by (unfold from_entry in *; congruence).
  rewrite !link_from_key_raw in Heq. by apply three_parts_inj in Heq.
Qed.

Lemma to_entry_inj i l i' l' k v v' :
  link_ok i l -> link_ok i' l' -> to_entry l = Some (k, v) -> to_entry l' = Some (k, v') -> i = i'.
Proof.
  intros [<- _ _ ? ?] [<- _ _ ? ?] H1 H2. assert (Heq : link_to_key raw_codec l = link_to_key raw_codec l') by (unfold to_entry in *; congruence).
  rewrite !link_to_key_raw in Heq. by apply three_parts_inj in Heq.
Qed.

(** ** The links of a store *)

Record links_stored (view : string -> bmap bytes) J : Prop := {
  st_by_id : indexed id_entry (view "links_by_id") J;
  st_from : indexed from_entry (view "links_from") J;
  st_to : indexed to_entry (view "links_to") J;
  st_links : forall id l, J !! id = Some l -> link_ok id l;
}.

Lemma links_stored_ext (view view' : string -> bmap bytes) J :
  (forall n, valid_name n -> view' n = view n) -> links_stored view J -> links_stored view' J.
Proof. intros Hv []. destruct link_keyspaces_valid as (?&?&?). split; rewrite ?Hv by done; done. Qed.

Definition link_added l (view : string -> bmap bytes) : string -> bmap bytes :=
  put_view "links_to" (link_to_key raw_codec l) (json_text (lk_id l))
    (put_view "links_from" (link_from_key raw_codec l) (json_text (lk_id l))
      (put_view "links_by_id" (str_bytes (lk_id l)) (json_text l) view)).

Definition link_removed l (view : string -> bmap bytes) : string -> bmap bytes :=
  drop_view "links_to" (link_to_key raw_codec l)
    (drop_view "links_from" (link_from_key raw_codec l)
      (drop_view "links_by_id" (str_bytes (lk_id l)) view)).

Lemma links_stored_add view J l :
  links_stored view J -> link_ok (lk_id l) l -> J !! lk_id l = None ->
  links_stored (link_added l view) (<[lk_id l := l]> J).
Proof.
  intros [H1 H2 H3 H4] Hl Hnew. split.
  - apply (indexed_add id_entry link_ok id_entry_inj _ _ _ _ H4 Hl Hnew H1).
  - apply (indexed_add from_entry link_ok from_entry_inj _ _ _ _ H4 Hl Hnew H2).
  - apply (indexed_add to_entry link_ok to_entry_inj _ _ _ _ H4 Hl Hnew H3).
  - intros id l'. rewrite lookup_insert_Some. intros [[<- <-]|[_ ?]]; [done|by apply H4].
Qed.

Lemma links_stored_remove view J l :
  links_stored view J -> J !! lk_id l = Some l -> links_stored (link_removed l view) (delete (lk_id l) J).
Proof.
  intros [H1 H2 H3 H4] Hl. split.
  - pose proof (indexed_drop id_entry link_ok id_entry_inj _ _ (lk_id l) H4 H1) as Hd. by rewrite Hl in Hd.
  - pose proof (indexed_drop from_entry link_ok from_entry_inj _ _ (lk_id l) H4 H2) as Hd. by rewrite Hl in Hd.
  - pose proof (indexed_drop to_entry link_ok to_entry_inj _ _ (lk_id l) H4 H3) as Hd. by rewrite Hl in Hd.
  - intros id l' [_ ?]%lookup_delete_Some. by apply H4.
Qed.

Lemma link_from_key_ok l : bytes_ok (link_from_key raw_codec l).
Proof. rewrite link_from_key_raw. keys_ok. Qed.
Lemma link_to_key_ok l : bytes_ok (link_to_key raw_codec l).
Proof. rewrite link_to_key_raw. keys_ok. Qed.

(** ** Writing *)

Lemma store_link_cases e l r e' :
  kv_ok (pe_db e) -> pe_codec e = raw_codec -> link_wt weight_ok l -> store_link l e = (r, e') ->
  exists db, e' = set_db e db /\ kv_ok db /\
    ((r = Ok () /\ forall n, valid_name n -> kv_view db n = link_added l (kv_view (pe_db e)) n) \/
     (exists err, r = Err err /\ commit_failed err)).
Proof.
  intros Hkv Hc Hwt. destruct link_keyspaces_valid as (Hv1&Hv2&Hv3). unfold store_link. rewrite pbind_pget. cbv zeta.
  rewrite Hc, serialize_raw by done. rewrite pbind_plift, (serialize_raw (lk_id l)) by apply Hwt. rewrite pbind_plift.
  unfold pbind at 1. destruct (ks_insert "links_by_id" _ _ e) as [r1 e1] eqn:H1.
  destruct (ks_insert_cases _ _ _ _ _ _ Hkv Hv1 (str_bytes_ok _) H1) as (db1&->&Hok1&[[-> Hw1]|(err&->&Hf)]).
  2: { intros [= <- <-]. exists db1. split_and!; [done..|]. right. eauto. }
  unfold pbind at 1. destruct (ks_insert "links_from" _ _ _) as [r2 e2] eqn:H2.
  destruct (ks_insert_cases (set_db e db1) _ _ _ _ _ Hok1 Hv2 (link_from_key_ok l) H2) as (db2&->&Hok2&[[-> Hw2]|(err&->&Hf)]).
  2: { intros [= <- <-]. exists db2. split_and!; [done..|]. right. eauto. }
  intros H3. destruct (ks_insert_cases (set_db e db2) _ _ _ _ _ Hok2 Hv3 (link_to_key_ok l) H3) as (db3&->&Hok3&[[-> Hw3]|(err&->&Hf)]).
  2: { exists db3. split_and!; [done..|]. right. eauto. }
  exists db3. split_and!; [done..|]. left. split; [done|]. intros n Hn. rewrite Hw3 by done.
  apply put_view_ext. cbn [pe_db set_db]. rewrite Hw2 by done. apply put_view_ext. by apply Hw1.
Qed.

(** ** Related engines *)

Definition links_map (ls : list Link) : gmap string Link := list_to_map ((fun l => (lk_id l, l)) <$> ls).

Lemma links_map_keys (ls : list Link) : ((fun l => (lk_id l, l)) <$> ls).*1 = map lk_id ls.
Proof. rewrite <-list_fmap_compose. by apply list_fmap_ext. Qed.

Lemma links_map_find ls id : NoDup (map lk_id ls) -> links_map ls !! id = List.find (has_link_id id) ls.
Proof.
  intros Hnd. apply option_eq. intros l. rewrite find_link_iff by done. unfold links_map.
  rewrite <-elem_of_list_to_map by (by rewrite links_map_keys). rewrite list_elem_of_fmap. split.
  - by intros (?&[= -> <-]&?).
  - intros [? <-]. by exists l.
Qed.

Lemma links_map_snoc ls l : lk_id l ∉ map lk_id ls -> links_map (ls ++ [l]) = <[lk_id l := l]> (links_map ls).
Proof. intros Hnew. unfold links_map. rewrite fmap_app. cbn [fmap list_fmap]. apply list_to_map_snoc. by rewrite links_map_keys. Qed.

Lemma links_map_filter ls id :
  NoDup (map lk_id ls) -> links_map (List.filter (fun l => negb (has_link_id id l)) ls) = delete id (links_map ls).
Proof.
  intros Hnd. assert (Hnd' : NoDup (map lk_id (List.filter (fun l => negb (has_link_id id l)) ls))).
  { eapply sublist_NoDup; [exact Hnd|]. apply (fmap_sublist lk_id), filter_sublist. }
  apply map_eq. intros i. apply option_eq. intros l. rewrite links_map_find, find_link_iff by done.
  rewrite lookup_delete_Some, links_map_find, find_link_iff, elem_of_filter_bool by done.
  unfold has_link_id. rewrite negb_true_iff, bool_decide_eq_false. naive_solver.
Qed.

Record link_sim e m : Prop := {
  ls_codec : pe_codec e = raw_codec;
  ls_kv : kv_ok (pe_db e);
  ls_stored : links_stored (kv_view (pe_db e)) (links_map (links m));
  ls_memory : link_inv m;
  ls_next : pe_next_link_id e = next_link_id m + 1;
}.

Lemma lookup_link (view : string -> bmap bytes) J id :
  links_stored view J -> view "links_by_id" !! str_bytes id = json_text <$> J !! id.
Proof.
  intros [Hid _ _ Hok]. destruct (J !! id) as [l|] eqn:Hl.
  - apply Hid. exists id, l. split; [done|]. destruct (Hok _ _ Hl) as [Heq _ _ _ _]. unfold id_entry. by rewrite Heq.
  - destruct (view "links_by_id" !! str_bytes id) as [v|] eqn:Hv; [|done]. apply Hid in Hv as (i&l&Hi&Hent).
    destruct (Hok _ _ Hi) as [Heq _ _ _ _]. injection Hent as Hk _. apply str_bytes_inj in Hk. congruence.
Qed.

Lemma pe_get_link_stored e J id :
  pe_codec e = raw_codec -> kv_ok (pe_db e) -> links_stored (kv_view (pe_db e)) J -> pe_get_link e id = Ok (J !! id).
Proof.
  intros Hc Hkv Hst. unfold pe_get_link. rewrite kv_get_view by (done || apply link_keyspaces_valid). cbn [storage_error]. run.
  rewrite Hc. cbn [make_link_id_key encode_key raw_codec]. change (make_link_id_key raw_codec id) with (str_bytes id).
  rewrite (lookup_link _ _ _ Hst). destruct (J !! id) as [l|] eqn:Hl; [|done]. cbn [fmap option_fmap option_map].
  rewrite deserialize_raw; [done|]. by destruct (st_links _ _ Hst _ _ Hl).
Qed.

Lemma get_link_sim e m id : link_sim e m -> pe_get_link e id = get_link m id.
Proof.
  intros [Hc Hkv Hst Hm _]. rewrite (pe_get_link_stored e _ id Hc Hkv Hst). unfold get_link.
  by rewrite links_map_find by apply Hm.
Qed.

(** ** Operations on related engines *)

(** The fields of a link given to [create_link]: everything but its id. *)
Record link_fields l : Prop := {
  lf_from : is_str (lk_from_ref l) /\ no_nul (lk_from_ref l);
  lf_type : is_str (lk_link_type l) /\ no_nul (lk_link_type l);
  lf_to : is_str (lk_to_ref l) /\ no_nul (lk_to_ref l);
  lf_weight : match lk_weight l with Some w => weight_ok w | None => True end;
  lf_metadata : is_str (lk_metadata_json l);
  lf_created : is_str (lk_created_at l);
}.

Lemma link_fields_ok l id created :
  link_fields l -> is_str id -> is_str created ->
  link_ok id (mkLink id (lk_from_ref l) (lk_link_type l) (lk_to_ref l) (lk_weight l) (lk_metadata_json l) created).
Proof. intros [[] [] [] ? ? ?] ? ?. split; [done|by split|done..]. Qed.

(** The links with one more. *)
Lemma add_link_sim e m db next l :
  link_sim e m -> kv_ok db -> link_ok (lk_id l) l -> lk_id l ∉ map lk_id (links m) ->
  (forall n, valid_name n -> kv_view db n = link_added l (kv_view (pe_db e)) n) ->
  link_inv (set_links m (links m ++ [l]) next) ->
  link_sim (set_next_link_id (set_db e db) (next + 1)) (set_links m (links m ++ [l]) next).
Proof.
  intros [Hc Hkv Hst Hm _] Hdb Hl Hnew Hview Hinv. split; [done|done| |done|done].
  cbn [links set_links pe_db set_db set_next_link_id]. rewrite links_map_snoc by done. eapply links_stored_ext; [exact Hview|]. apply links_stored_add; [done..|].
  rewrite links_map_find by apply Hm. by apply find_link_None.
Qed.

Lemma create_link_sim e m now l r e' :
  link_sim e m -> next_link_id m + 1 < U64_MAX -> link_fields l -> is_str now -> pe_create_link now l e = (r, e') ->
  (r = (create_link m now l).1 /\ link_sim e' (create_link m now l).2) \/ refused (D := D) r.
Proof.
  intros Hsim Hroom Hl Hnow. pose proof Hsim as [Hc Hkv Hst Hm Hnext]. pose proof (li_next m Hm) as Hn.
  unfold pe_create_link. rewrite pbind_pget. cbv zeta. rewrite Hnext. unfold pbind at 1, pmodify.
  assert (Hw1 : u64_wrapping_add (next_link_id m + 1) 1 = next_link_id m + 1 + 1).
  { unfold u64_wrapping_add. rewrite Z.mod_small; unfold_ints; lia. }
  assert (Hw : u64_wrapping_add (next_link_id m) 1 = next_link_id m + 1).
  { unfold u64_wrapping_add. rewrite Z.mod_small; unfold_ints; lia. }
  rewrite Hw1. unfold create_link. rewrite Hw. cbv zeta. cbn [fst snd].
  set (l' := mkLink (link_name (next_link_id m + 1)) _ _ _ _ _ _).
  assert (Hok : link_ok (lk_id l') l').
  { apply link_fields_ok; [done|apply link_name_str; lia|]. case_bool_decide; [done|apply Hl]. }
  destruct (create_link_inv m now l Hm ltac:(lia)) as [Hinv _]. unfold create_link in Hinv. rewrite Hw in Hinv. cbn [snd] in Hinv. fold l' in Hinv.
  unfold pbind. destruct (store_link l' _) as [rs es] eqn:Hs.
  destruct (store_link_cases (set_next_link_id e (next_link_id m + 1 + 1)) _ _ _ Hkv Hc (lo_wt _ _ Hok) Hs)
    as (db&->&Hdb&[[-> Hview]|(err&->&Hf)]); intros [= <- <-].
  - left. split; [done|]. apply (add_link_sim e m db _ l'); [done..| |done|done].
    pose proof (li_ids _ Hinv) as Hnd. cbn [links set_links] in Hnd. rewrite map_app in Hnd.
    apply NoDup_app in Hnd as (_&Hnd&_). intros Hin. apply (Hnd _ Hin). by left.
  - right. by exists err.
Qed.

Lemma import_link_sim e m l r e' :
  link_sim e m -> (forall n, link_sequence (lk_id l) = Some n -> n < U64_MAX) -> link_ok (lk_id l) l ->
  pe_import_link l e = (r, e') ->
  (r = (import_link m l).1 /\ link_sim e' (import_link m l).2) \/ refused (D := D) r.
Proof.
  intros Hsim Hroom Hl. pose proof Hsim as [Hc Hkv Hst Hm Hnext]. unfold pe_import_link, import_link.
  case_bool_decide as Hid; [intros [= <- <-]; by left|]. rewrite pbind_pget, (get_link_sim e m) by done. unfold get_link.
  rewrite pbind_plift. destruct (List.find _ (links m)) as [x|] eqn:Hf.
  { destruct (link_eqb x l); intros [= <- <-]; by left. }
  apply find_link_None in Hf. destruct (import_link_inv m l Hm) as [Hinv _].
  destruct (import_link_new m l Hid Hf) as (next&Himp&Hle&Hsq&Hor). rewrite Himp in Hinv. cbn [snd] in Hinv.
  pose proof (f_equal (fun p => next_link_id p.2) Himp) as Hnx. unfold import_link in Hnx.
  rewrite bool_decide_false in Hnx by done. rewrite (proj2 (find_link_None _ _) Hf) in Hnx. cbn [fst snd next_link_id set_links] in Hnx |- *.
  rewrite Hnx.
  unfold pbind. destruct (store_link l e) as [rs es] eqn:Hs.
  destruct (store_link_cases e _ _ _ Hkv Hc (lo_wt _ _ Hl) Hs) as (db&->&Hdb&[[-> Hview]|(err&->&Hfail)]); intros [= <- <-].
  2: { right. by exists err. }
  left. split; [done|]. pose proof (add_link_sim e m db next l Hsim Hdb Hl Hf Hview Hinv) as Hadd.
  replace (raise_link_id l (set_db e db)) with (set_next_link_id (set_db e db) (next + 1)); [done|].
  unfold raise_link_id. destruct (link_sequence (lk_id l)) as [n|] eqn:Hn.
  - pose proof (link_sequence_bound _ _ Hn). specialize (Hroom n eq_refl). cbn [pe_next_link_id set_db]. f_equal.
    unfold u64_wrapping_add. rewrite Z.mod_small by (unfold_ints; lia). lia.
  - subst next. rewrite <-Hnext. by destruct e.
Qed.

Lemma remove_link_cases e l id r e' :
  kv_ok (pe_db e) -> lk_id l = id ->
  (let* _ := ks_remove "links_by_id" (make_link_id_key raw_codec id) in
   let* _ := ks_remove "links_from" (make_link_from_key raw_codec (lk_from_ref l) (lk_link_type l) id) in
   let* _ := ks_remove "links_to" (make_link_to_key raw_codec (lk_to_ref l) (lk_link_type l) id) in pret true) e = (r, e') ->
  exists db, e' = set_db e db /\ kv_ok db /\
    ((r = Ok true /\ forall n, valid_name n -> kv_view db n = link_removed l (kv_view (pe_db e)) n) \/ refused (D := D) r).
Proof.
  intros Hkv <-. destruct link_keyspaces_valid as (Hv1&Hv2&Hv3).
  unfold pbind at 1. destruct (ks_remove "links_by_id" _ e) as [r1 e1] eqn:H1.
  destruct (ks_remove_cases _ _ _ _ _ Hkv Hv1 (str_bytes_ok _) H1) as (db1&->&Hok1&[[-> Hw1]|(err&->&Hf)]).
  2: { intros [= <- <-]. exists db1. split_and!; [done..|]. right. by exists err. }
  unfold pbind at 1. destruct (ks_remove "links_from" _ _) as [r2 e2] eqn:H2.
  destruct (ks_remove_cases (set_db e db1) _ _ _ _ Hok1 Hv2 (link_from_key_ok l) H2) as (db2&->&Hok2&[[-> Hw2]|(err&->&Hf)]).
  2: { intros [= <- <-]. exists db2. split_and!; [done..|]. right. by exists err. }
  unfold pbind at 1. destruct (ks_remove "links_to" _ _) as [r3 e3] eqn:H3.
  destruct (ks_remove_cases (set_db e db2) _ _ _ _ Hok2 Hv3 (link_to_key_ok l) H3) as (db3&->&Hok3&[[-> Hw3]|(err&->&Hf)]).
  2: { intros [= <- <-]. exists db3. split_and!; [done..|]. right. by exists err. }
  intros [= <- <-]. exists db3. split_and!; [done..|]. left. split; [done|]. intros n Hn. rewrite Hw3 by done.
  apply drop_view_ext. cbn [pe_db set_db]. rewrite Hw2 by done. apply drop_view_ext. by apply Hw1.
Qed.

Lemma delete_link_sim e m id r e' :
  link_sim e m -> pe_delete_link id e = (r, e') ->
  (r = (delete_link m id).1 /\ link_sim e' (delete_link m id).2) \/ refused (D := D) r.
Proof.
  intros Hsim. pose proof Hsim as [Hc Hkv Hst Hm Hnext]. pose proof (li_ids _ Hm) as Hnd. unfold pe_delete_link.
  rewrite pbind_pget. cbv zeta. rewrite (get_link_sim e m) by done. unfold get_link. rewrite pbind_plift.
  pose proof (delete_link_inv m id Hm) as Hinv. unfold delete_link in *. cbn [fst snd] in *.
  assert (Hmap := links_map_filter (links m) id Hnd). set (kept := List.filter _ (links m)) in *.
  assert (Hlen : zlen kept <? zlen (links m) = bool_decide (is_Some (List.find (has_link_id id) (links m)))).
  { pose proof (filter_length_le (fun l => negb (has_link_id id l)) (links m)) as Hle. fold kept in Hle. case_bool_decide as Hs.
    - destruct Hs as [x Hx]. apply find_some in Hx as [Hx Hid]. apply Z.ltb_lt. apply Nat2Z.inj_lt.
      apply Nat.le_neq. split; [done|]. intros Heq. apply filter_length_forallb in Heq. rewrite forallb_forall in Heq.
      specialize (Heq x Hx). by rewrite Hid in Heq.
    - assert (Hk : kept = links m); [|by rewrite Hk, Z.ltb_irrefl]. apply filter_all. intros x Hx%list_elem_of_In.
      destruct (List.find _ _) eqn:Hf; [by destruct Hs; eauto|]. by rewrite (find_none _ _ Hf x Hx). }
  rewrite Hlen. destruct (List.find (has_link_id id) (links m)) as [l|] eqn:Hf; cycle 1.
  - intros [= <- <-]. left. rewrite bool_decide_false by (by intros []). split; [done|]. apply find_link_None in Hf.
    split; [done..| |done|done]. cbn [links set_links]. rewrite Hmap, delete_id; [done|]. rewrite links_map_find by done. by apply find_link_None.
  - rewrite bool_decide_true by eauto. apply find_link_iff in Hf as [Hl Hid]; [|done]. rewrite Hc. intros Hrun.
    destruct (remove_link_cases e l id r e' Hkv Hid Hrun) as (db&->&Hdb&[[-> Hview]|Href]); [left|by right].
    split; [done|]. split; [done..| |done|done]. cbn [links set_links pe_db set_db]. rewrite Hmap, <-Hid.
    eapply links_stored_ext; [exact Hview|]. apply links_stored_remove; [done|]. rewrite links_map_find by done. by apply find_link_iff.
Qed.
End spec.

(** ** Reading links *)

(** The order of the index entries of one reference. *)
Definition rank_cmp (a b : Link) : comparison := key_cmp (lk_link_type a, lk_id a) (lk_link_type b, lk_id b).

(** The neighbours the indexes give: the links from the reference, then those to it. *)
Definition neighbors_of (m : MemoryEngine) (reference : string) (direction : LinkDirection) (link_type : option string) : list Link :=
  (if bool_decide (direction = Outgoing) || bool_decide (direction = Both)
   then List.filter (matches_type link_type) (sort_by rank_cmp (List.filter (matches_direction reference Outgoing) (links m))) else []) ++
  (if bool_decide (direction = Incoming) || bool_decide (direction = Both)
   then List.filter (matches_type link_type) (sort_by rank_cmp (List.filter (matches_direction reference Incoming) (links m))) else []).

Section read.
Context `{KvLaws D} {weight_ok : spec_float -> Prop} `{!Serde Link (link_wt weight_ok)} `{!Serde string is_str}.
(** An empty text is no JSON. *)
Context (link_text : forall l, json_from_slice (A := Link) [] <> Ok l) (id_text : forall s, json_from_slice (A := string) [] <> Ok s).
Implicit Types (e : PersistentEngine D) (l : Link) (m : MemoryEngine).

Lemma text_not_empty `{Serde A wt} (a : A) : (forall x, json_from_slice (A := A) [] <> Ok x) -> wt a -> json_text a <> [].
Proof. intros Hne Ha Heq. apply (Hne a). rewrite <-Heq. by apply json_from_text. Qed.

Lemma sim_link e m l : link_sim e m -> l ∈ links m -> link_ok (weight_ok := weight_ok) (lk_id l) l.
Proof.
  intros [_ _ Hst Hm _] Hl. apply (st_links _ _ Hst). rewrite links_map_find by apply Hm. by apply find_link_iff; [apply Hm|].
Qed.

Lemma sim_entries (f : Link -> bytes * bytes) e m ks p :
  link_sim e m -> valid_name ks -> indexed (fun l => Some (f l)) (kv_view (pe_db e) ks) (links_map (links m)) ->
  forall x, x ∈ prefix_entries p (kv_view (pe_db e) ks) <-> exists l, l ∈ List.filter (fun l => starts_with p (f l).1) (links m) /\ f l = x.
Proof.
  intros [_ _ Hst Hm _] Hks Hidx [k v]. pose proof (li_ids _ Hm) as Hnd. rewrite elem_of_prefix_entries, (Hidx k v). split.
  - intros [(id&l&Hl&[= Heq]) Hp]. rewrite links_map_find in Hl by done. apply find_link_iff in Hl as [Hl _]; [|done].
    exists l. rewrite elem_of_filter_bool, Heq. done.
  - intros (l&[Hl Hp]%elem_of_filter_bool&Heq). rewrite Heq in Hp. split; [|done]. exists (lk_id l), l. split; [|by rewrite Heq].
    rewrite links_map_find by done. by apply find_link_iff.
Qed.

Lemma by_id_entries e m :
  link_sim e m -> kv_iter (pe_db e) "links_by_id" = (fun l => (str_bytes (lk_id l), json_text l)) <$> sort_by id_cmp (links m).
Proof.
  intros Hsim. pose proof Hsim as [Hc Hkv Hst Hm _]. destruct link_keyspaces_valid as (Hv&_&_).
  rewrite kv_iter_entries, <-prefix_entries_nil by done. apply (entries_by_rank lk_id); [apply Hm|done|].
  intros x. rewrite (sim_entries (fun l => (str_bytes (lk_id l), json_text l)) e m _ [] Hsim Hv (st_by_id _ _ Hst)).
  by rewrite filter_all.
Qed.

Lemma count_links_sim e m : link_sim e m -> pe_count_links e = count_links m.
Proof. intros Hsim. unfold pe_count_links, count_links. rewrite (by_id_entries e m Hsim), length_fmap, length_sort_by. done. Qed.

Lemma list_links_loop_spec ls : forall offset limit index acc,
  Forall (link_wt weight_ok) ls -> index <= offset \/ offset <= index -> 0 <= index ->
  list_links_loop raw_codec offset limit index acc ((fun l => (str_bytes (lk_id l), json_text l)) <$> ls)
  = Ok (acc ++ take (Z.to_nat (limit - zlen acc)) (drop (Z.to_nat (offset - index)) ls)).
Proof using link_text.
  induction ls as [|l ls IH]; intros offset limit index acc Hls Hidx Hi.
  { cbn [fmap list_fmap list_links_loop]. by rewrite drop_nil, take_nil, app_nil_r. }
  apply Forall_cons in Hls as [Hl Hls]. rewrite fmap_cons. cbn [list_links_loop]. destruct (Z.ltb_spec index offset).
  { rewrite IH by (done || lia). do 3 f_equal. replace (Z.to_nat (offset - index)) with (S (Z.to_nat (offset - (index + 1)))) by lia. done. }
  replace (Z.to_nat (offset - index)) with 0%nat by lia. cbn [drop]. destruct (Z.leb_spec limit (zlen acc)).
  { replace (Z.to_nat (limit - zlen acc)) with 0%nat by lia. by rewrite take_0, app_nil_r. }
  rewrite bool_decide_false by (by apply text_not_empty). rewrite deserialize_raw by done. run. rewrite IH by (done || lia). f_equal.
  replace (Z.to_nat (offset - (index + 1))) with 0%nat by lia. rewrite <-app_assoc. f_equal. rewrite drop_0, length_app. cbn [length].
  replace (Z.to_nat (limit - zlen acc)) with (S (Z.to_nat (limit - Z.of_nat (length acc + 1)))) by lia. done.
Qed.

Lemma id_sorted m : link_inv m -> StronglySorted (fun a b => id_cmp a b <> Gt) (sort_by id_cmp (links m)).
Proof. intros _. apply (sort_by_sorted id_cmp (CmpPreorder0 := cmp_on_preorder lk_id)). Qed.

Lemma list_links_sim e m offset limit :
  link_sim e m -> 0 <= offset -> 0 <= limit -> pe_list_links e offset limit = list_links m offset limit.
Proof using link_text.
  intros Hsim Ho Hl. unfold pe_list_links. rewrite (ls_codec _ _ Hsim), (by_id_entries e m Hsim), list_links_loop_spec; [|..|lia|lia].
  - run. cbn [app length]. rewrite !Z.sub_0_r. unfold list_links. f_equal. apply sort_by_id.
    eapply StronglySorted_sublist; [|by apply id_sorted, (ls_memory _ _ Hsim)].
    etrans; [apply sublist_take|apply sublist_drop].
  - apply Forall_forall. intros l. rewrite elem_of_sort_by. intros Hin. by destruct (sim_link e m l Hsim Hin).
Qed.

(** ** Neighbours *)

Lemma ranked_entries (f : Link -> bytes * bytes) (keep : Link -> bool) e m ks p :
  link_sim e m -> valid_name ks -> indexed (fun l => Some (f l)) (kv_view (pe_db e) ks) (links_map (links m)) ->
  (forall l, l ∈ links m -> starts_with p (f l).1 = keep l) ->
  (forall a b, a ∈ List.filter keep (links m) -> b ∈ List.filter keep (links m) ->
     (lk_link_type a, lk_id a) ≺ (lk_link_type b, lk_id b) -> (f a).1 ≺ (f b).1) ->
  kv_prefix (pe_db e) ks p = f <$> sort_by rank_cmp (List.filter keep (links m)).
Proof.
  intros Hsim Hks Hidx Hkeep Hmono. rewrite kv_prefix_entries by (done || apply Hsim).
  apply (entries_by_rank (fun l => (lk_link_type l, lk_id l))); [|exact Hmono|].
  - apply (NoDup_fmap_1 snd). rewrite <-list_fmap_compose. eapply sublist_NoDup; [apply (li_ids _ (ls_memory _ _ Hsim))|].
    apply (fmap_sublist lk_id), filter_sublist.
  - intros x. rewrite (sim_entries f e m ks p Hsim Hks Hidx).
    assert (Hf : List.filter (fun l => starts_with p (f l).1) (links m) = List.filter keep (links m)); [|by rewrite Hf].
    apply filter_ext_in. intros l Hl. by apply Hkeep.
Qed.

(** Keys with the same first part, in the order of the other two. *)
Lemma parts_lt (a : bytes) t i t' i' :
  no_nul t -> no_nul t' -> (t, i) ≺ (t', i') ->
  (a ++ 0 :: str_bytes t ++ 0 :: str_bytes i) ≺ (a ++ 0 :: str_bytes t' ++ 0 :: str_bytes i').
Proof.
  intros Ht Ht' Hlt. rewrite key_lt_app_l, key_lt_cons. right. split; [done|]. apply terminated_lt_iff; [keys_ok..|done|done|].
  apply prod_lt in Hlt as [?|[-> ?]]; [by left|by right].
Qed.

Lemma from_entries e m reference :
  link_sim e m -> no_nul reference ->
  kv_prefix (pe_db e) "links_from" (make_link_from_prefix raw_codec reference)
  = (fun l => (link_from_key raw_codec l, json_text (lk_id l))) <$> sort_by rank_cmp (List.filter (matches_direction reference Outgoing) (links m)).
Proof.
  intros Hsim Hr. apply (ranked_entries _ (matches_direction reference Outgoing) e m); [done|apply link_keyspaces_valid|apply (ls_stored _ _ Hsim)|..].
  - intros l Hl. destruct (sim_link e m l Hsim Hl) as [_ _ Hf _ _]. apply eq_bool_prop_intro. cbn [fst]. rewrite link_from_key_raw.
    rewrite !Is_true_true. cbn [matches_direction]. rewrite bool_decide_eq_true.
    split; [intros Hs; apply starts_with_name in Hs; done|intros <-; by apply starts_with_name].
  - cbn [fst]. intros a b [Ha Hfa%bool_decide_eq_true]%elem_of_filter_bool [Hb Hfb%bool_decide_eq_true]%elem_of_filter_bool Hlt.
    rewrite !link_from_key_raw, Hfa, Hfb. destruct (sim_link e m a Hsim Ha), (sim_link e m b Hsim Hb). by apply parts_lt.
Qed.

Lemma to_entries e m reference :
  link_sim e m -> no_nul reference ->
  kv_prefix (pe_db e) "links_to" (make_link_to_prefix raw_codec reference)
  = (fun l => (link_to_key raw_codec l, json_text (lk_id l))) <$> sort_by rank_cmp (List.filter (matches_direction reference Incoming) (links m)).
Proof.
  intros Hsim Hr. apply (ranked_entries _ (matches_direction reference Incoming) e m); [done|apply link_keyspaces_valid|apply (ls_stored _ _ Hsim)|..].
  - intros l Hl. destruct (sim_link e m l Hsim Hl) as [_ _ _ _ Hf]. apply eq_bool_prop_intro. cbn [fst]. rewrite link_to_key_raw.
    rewrite !Is_true_true. cbn [matches_direction]. rewrite bool_decide_eq_true.
    split; [intros Hs; apply starts_with_name in Hs; done|intros <-; by apply starts_with_name].
  - cbn [fst]. intros a b [Ha Hfa%bool_decide_eq_true]%elem_of_filter_bool [Hb Hfb%bool_decide_eq_true]%elem_of_filter_bool Hlt.
    rewrite !link_to_key_raw, Hfa, Hfb. destruct (sim_link e m a Hsim Ha), (sim_link e m b Hsim Hb). by apply parts_lt.
Qed.

Lemma push_neighbor_spec e m key options acc l :
  link_sim e m -> l ∈ links m ->
  push_neighbor e options acc (key, json_text (lk_id l))
  = Ok (acc ++ if matches_type (lq_link_type options) l then [l] else []).
Proof using id_text.
  intros Hsim Hl. unfold push_neighbor, neighbor_id. cbn [fst snd].
  destruct (sim_link e m l Hsim Hl) as [_ Hwt _ _ _]. rewrite bool_decide_false by (apply text_not_empty; [done|apply Hwt]).
  rewrite (ls_codec _ _ Hsim), deserialize_raw by apply Hwt. run. rewrite (get_link_sim e m) by done. unfold get_link. run.
  rewrite (proj2 (find_link_iff (links m) (lk_id l) l (li_ids _ (ls_memory _ _ Hsim)))) by done.
  destruct (matches_type _ l); [done|by rewrite app_nil_r].
Qed.

Lemma push_neighbors_spec e m (key : Link -> bytes) options ks : forall acc,
  link_sim e m -> Forall (fun l => l ∈ links m) ks ->
  fold_res (push_neighbor e options) acc ((fun l => (key l, json_text (lk_id l))) <$> ks)
  = Ok (acc ++ List.filter (matches_type (lq_link_type options)) ks).
Proof using id_text.
  induction ks as [|l ks IH]; intros acc Hsim Hks; [cbn; by rewrite app_nil_r|]. apply Forall_cons in Hks as [Hl Hks].
  rewrite fmap_cons. cbn [fold_res List.filter]. rewrite (push_neighbor_spec e m) by done. run. rewrite IH by done.
  rewrite <-app_assoc. by destruct (matches_type _ l).
Qed.

Lemma neighbors_sim e m reference direction options :
  link_sim e m -> no_nul reference ->
  pe_get_neighbors e reference direction options
  = Ok (let ls := neighbors_of m reference direction (lq_link_type options) in
        match lq_limit options with Some limit => take (Z.to_nat limit) ls | None => ls end).
Proof using id_text.
  intros Hsim Hr. unfold pe_get_neighbors, neighbors_of. cbv zeta. rewrite (ls_codec _ _ Hsim), (from_entries e m), (to_entries e m) by done.
  assert (Hsub : forall dir, Forall (fun l => l ∈ links m) (sort_by rank_cmp (List.filter (matches_direction reference dir) (links m)))).
  { intros dir. apply Forall_forall. intros l. rewrite elem_of_sort_by. by intros [? _]%elem_of_filter_bool. }
  destruct (bool_decide (direction = Outgoing) || bool_decide (direction = Both)),
    (bool_decide (direction = Incoming) || bool_decide (direction = Both)); cbn [app];
    repeat (run; rewrite (push_neighbors_spec e m) by done); run; rewrite ?app_nil_r; done.
Qed.

Lemma filter_permutation {A} (p : A -> bool) (l l' : list A) : l ≡ₚ l' -> List.filter p l ≡ₚ List.filter p l'.
Proof.
  induction 1 as [|x l l' _ IH|x y l|l1 l2 l3 _ IH1 _ IH2]; cbn [List.filter]; [done| | |by etrans].
  - destruct (p x); [by rewrite IH|done].
  - destruct (p x), (p y); [apply Permutation_swap|done..].
Qed.

Lemma neighbors_of_cases m reference direction link_type :
  let found dir := List.filter (matches_type link_type) (sort_by rank_cmp (List.filter (matches_direction reference dir) (links m))) in
  neighbors_of m reference direction link_type
  = match direction with Both => found Outgoing ++ found Incoming | _ => found direction end.
Proof. intros found. destruct direction; [apply app_nil_r|reflexivity|reflexivity]. Qed.

(** The same links as the in-memory engine finds, except that a link from the reference to
    itself shows once per direction. *)
Lemma neighbors_of_perm m reference direction link_type :
  (direction = Both -> forall l, l ∈ links m -> ~ (lk_from_ref l = reference /\ lk_to_ref l = reference)) ->
  neighbors_of m reference direction link_type
  ≡ₚ List.filter (fun l => matches_direction reference direction l && matches_type link_type l) (links m).
Proof.
  intros Hself. assert (Hone : forall dir, List.filter (matches_type link_type) (sort_by rank_cmp (List.filter (matches_direction reference dir) (links m)))
    ≡ₚ List.filter (fun l => matches_direction reference dir l && matches_type link_type l) (links m)).
  { intros dir. rewrite (filter_ext (fun l => matches_direction reference dir l && matches_type link_type l) (fun l => matches_type link_type l && matches_direction reference dir l)) by (intros l; apply andb_comm).
    rewrite filter_andb. apply filter_permutation, sort_by_perm. }
  rewrite neighbors_of_cases. destruct direction; [apply Hone|apply Hone|].
  rewrite !Hone. specialize (Hself eq_refl). clear Hone. induction (links m) as [|l ls IH]; [done|].
  assert (Hl := Hself l ltac:(by left)). specialize (IH ltac:(intros x Hx; apply Hself; by right)). cbn [List.filter matches_direction].
  destruct (bool_decide_reflect (lk_from_ref l = reference)), (bool_decide_reflect (lk_to_ref l = reference)); cbn [orb andb]; [by destruct Hl| | |done];
    destruct (matches_type link_type l); cbn [app]; rewrite ?IH; try done. by rewrite <-Permutation_middle, IH.
Qed.
End read.
