(* ===== verification/PLinkTheorems.v ===== *)
(** * thingd: the properties of the persistent links

    The persistent links agree with the in-memory ones, reopening keeps them, and two ways
    in which they differ. *)

From S2P Require Import Prelude Wal Table Layer Database ThingDb Keyspace RamScan Model Links Storage Persistent PSample PStore PLinks PLinkSpec.
From Stdlib Require Import SpecFloat.

(** ** Runs of both engines *)

Inductive LinkAnswer := Linked (l : Link) | Unlinked (existed : bool).

Definition answer {A} (f : A -> LinkAnswer) (r : thingd_result A) : thingd_result LinkAnswer := f <$> r.

Definition memory_link_step (m : MemoryEngine) (op : LinkOp) : thingd_result LinkAnswer * MemoryEngine :=
  match op with
  | OpCreateLink now l => let '(r, m) := create_link m now l in (answer Linked r, m)
  | OpImportLink l => let '(r, m) := import_link m l in (answer Linked r, m)
  | OpDeleteLink id => let '(r, m) := delete_link m id in (answer Unlinked r, m)
  end.

Fixpoint memory_link_run (ops : list LinkOp) (m : MemoryEngine) : list (thingd_result LinkAnswer) * MemoryEngine :=
  match ops with
  | [] => ([], m)
  | op :: ops => let '(r, m) := memory_link_step m op in let '(rs, m) := memory_link_run ops m in (r :: rs, m)
  end.

Section runs.
Context `{KvLaws D} {weight_ok : spec_float -> Prop} `{!Serde Link (link_wt weight_ok)} `{!Serde string is_str}.
Implicit Types (e : PersistentEngine D) (m : MemoryEngine).

Definition pe_link_step (op : LinkOp) e : thingd_result LinkAnswer * PersistentEngine D :=
  match op with
  | OpCreateLink now l => let '(r, e) := pe_create_link now l e in (answer Linked r, e)
  | OpImportLink l => let '(r, e) := pe_import_link l e in (answer Linked r, e)
  | OpDeleteLink id => let '(r, e) := pe_delete_link id e in (answer Unlinked r, e)
  end.

Fixpoint pe_link_run (ops : list LinkOp) e : list (thingd_result LinkAnswer) * PersistentEngine D :=
  match ops with
  | [] => ([], e)
  | op :: ops => let '(r, e) := pe_link_step op e in let '(rs, e) := pe_link_run ops e in (r :: rs, e)
  end.

(** Links given by a caller: typed, with names that have no zero byte. *)
Definition link_op_ok (op : LinkOp) : Prop :=
  match op with
  | OpCreateLink now l => link_fields (weight_ok := weight_ok) l /\ is_str now
  | OpImportLink l => link_ok (weight_ok := weight_ok) (lk_id l) l
  | OpDeleteLink _ => True
  end.

Lemma answer_refused {A} (f : A -> LinkAnswer) (r : thingd_result A) : refused (D := D) r -> refused (D := D) (answer f r).
Proof. intros (err&->&Hf). by exists err. Qed.

Lemma link_step_sim e m op r e' bound :
  link_sim e m -> link_op_ok op -> imports_below bound op -> next_link_id m <= bound -> bound + creates op < U64_MAX ->
  pe_link_step op e = (r, e') -> ~ refused (D := D) r ->
  memory_link_step m op = (r, (memory_link_step m op).2) /\ link_sim e' (memory_link_step m op).2 /\
  next_link_id (memory_link_step m op).2 <= bound + creates op.
Proof.
  intros Hsim Hop Himp Hle Hmax. pose proof (ls_memory _ _ Hsim) as Hinv. pose proof (li_next _ Hinv) as Hn.
  destruct op as [now l|l|id]; cbn [pe_link_step memory_link_step creates link_op_ok imports_below] in *.
  - destruct (pe_create_link now l e) as [rc ec] eqn:Hrun. intros [= <- <-] Hnot. destruct Hop as [Hl Hnow].
    destruct (create_link_inv m now l Hinv ltac:(lia)) as [_ Hnx].
    destruct (create_link_sim e m now l rc ec Hsim ltac:(lia) Hl Hnow Hrun) as [[Hr Hs]|Href]; [|by destruct Hnot; apply answer_refused].
    destruct (create_link m now l) as [rm mm]. cbn [fst snd] in *. subst rc. split_and!; [done..|lia].
  - destruct (pe_import_link l e) as [rc ec] eqn:Hrun. intros [= <- <-] Hnot.
    destruct (import_link_inv m l Hinv) as [_ Hnx].
    destruct (import_link_sim e m l rc ec Hsim) as [[Hr Hs]|Href]; [|done|done| |by destruct Hnot; apply answer_refused].
    { intros n Hs. specialize (Himp n Hs). lia. }
    destruct (import_link m l) as [rm mm]. cbn [fst snd] in *. subst rc. split_and!; [done..|].
    destruct Hnx as [-> |Hs']; [lia|]. specialize (Himp _ Hs'). lia.
  - destruct (pe_delete_link id e) as [rc ec] eqn:Hrun. intros [= <- <-] Hnot.
    destruct (delete_link_sim e m id rc ec Hsim Hrun) as [[Hr Hs]|Href]; [|by destruct Hnot; apply answer_refused].
    unfold delete_link in *. cbn [fst snd] in *. subst rc. split_and!; [done..|]. cbn [next_link_id set_links]. lia.
Qed.

Lemma total_creates_nonneg ops : 0 <= total_creates ops.
Proof. unfold total_creates. induction ops as [|[] ops IH]; cbn [fold_right creates]; lia. Qed.

Lemma link_run_sim ops : forall e m bound,
  link_sim e m -> Forall link_op_ok ops -> Forall (imports_below bound) ops -> next_link_id m <= bound ->
  bound + total_creates ops < U64_MAX -> Forall (fun r => ~ refused (D := D) r) (pe_link_run ops e).1 ->
  (pe_link_run ops e).1 = (memory_link_run ops m).1 /\ link_sim (pe_link_run ops e).2 (memory_link_run ops m).2.
Proof.
  induction ops as [|op ops IH]; intros e m bound Hsim Hops Himp Hle Hmax Href; [done|].
  apply Forall_cons in Hops as [Hop Hops]. apply Forall_cons in Himp as [Hi Himp].
  pose proof (total_creates_nonneg ops) as Hc. unfold total_creates in *. cbn [fold_right] in Hmax.
  cbn [pe_link_run memory_link_run] in *. destruct (pe_link_step op e) as [r e1] eqn:Hstep.
  destruct (pe_link_run ops e1) as [rs e2] eqn:Hrun. cbn [fst snd] in *. apply Forall_cons in Href as [Hr Hrs].
  destruct (link_step_sim e m op r e1 bound Hsim Hop Hi Hle ltac:(lia) Hstep Hr) as (Hm&Hsim1&Hnx).
  destruct (memory_link_step m op) as [rm m1]. cbn [fst snd] in *. injection Hm as ->.
  destruct (IH e1 m1 (bound + creates op) Hsim1 Hops) as [Heq Hsim2]; [|lia|lia|by rewrite Hrun|].
  - eapply Forall_impl; [exact Himp|]. assert (0 <= creates op) by (destruct op; cbn; lia).
    intros []; cbn; try done. intros Hb n Hn. specialize (Hb n Hn). lia.
  - rewrite Hrun in Heq, Hsim2. destruct (memory_link_run ops m1) as [rs' m2]. cbn [fst snd] in *. by rewrite Heq.
Qed.
End runs.

(** ** The counter after opening *)

Section reopen.
Context `{KvLaws D} {weight_ok : spec_float -> Prop} `{!Serde Link (link_wt weight_ok)} `{!Serde string is_str}.
Implicit Types (e : PersistentEngine D) (m : MemoryEngine).

Lemma load_link_ids ls : forall next, 0 <= next <= U64_MAX ->
  next <= foldl load_link_id next ls <= U64_MAX /\
  (forall l n, l ∈ ls -> link_sequence (lk_id l) = Some n -> n <= foldl load_link_id next ls) /\
  (foldl load_link_id next ls = next \/ exists l, l ∈ ls /\ link_sequence (lk_id l) = Some (foldl load_link_id next ls)).
Proof.
  induction ls as [|x ls IH]; intros next Hnext; cbn [foldl].
  { split_and!; [lia..| |by left]. intros l n Hl. by apply elem_of_nil in Hl. }
  assert (Hx : next <= load_link_id next x <= U64_MAX /\ (forall n, link_sequence (lk_id x) = Some n -> n <= load_link_id next x) /\
    (load_link_id next x = next \/ link_sequence (lk_id x) = Some (load_link_id next x))).
  { unfold load_link_id. destruct (link_sequence (lk_id x)) as [n|] eqn:Hs; [|by split_and!; [lia..| |by left]].
    pose proof (link_sequence_bound _ _ Hs). destruct (Z.ltb_spec next n); (split_and!; [lia..|intros k [= <-]; lia|]); [by right|by left]. }
  destruct Hx as (Hle&Hmax&Hor). destruct (IH (load_link_id next x)) as (Hle'&Hmax'&Hor'); [lia|]. split_and!; [lia..| |].
  - intros l n [->|Hl]%elem_of_cons Hs; [specialize (Hmax n Hs); lia|by eapply Hmax'].
  - destruct Hor' as [->|(l&Hl&Hs)]; [|right; exists l; split; [by right|done]].
    destruct Hor as [->|Hs]; [by left|]. right. exists x. split; [by left|done].
Qed.

Lemma open_links_run e m :
  link_sim e m ->
  open_links (D := D) e = (Ok (), set_next_link_id e (u64_wrapping_add (foldl load_link_id 0 (sort_by id_cmp (links m))) 1)).
Proof.
  intros Hsim. unfold open_links. rewrite pbind_pget, (ls_codec _ _ Hsim), (by_id_entries e m Hsim).
  assert (Hfold : forall ls next, Forall (link_wt weight_ok) ls ->
    fold_res (fun next kv => link ← deserialize raw_codec kv.2; Ok (load_link_id next link)) next
      ((fun l => (str_bytes (lk_id l), json_text l)) <$> ls) = Ok (foldl load_link_id next ls)).
  { induction ls as [|l ls IH]; intros next Hls; [done|]. apply Forall_cons in Hls as [Hl Hls]. rewrite fmap_cons.
    cbn [fold_res snd]. rewrite deserialize_raw by done. run. by apply IH. }
  rewrite Hfold; [done|]. apply Forall_forall. intros l. rewrite elem_of_sort_by. intros Hl. by destruct (sim_link e m l Hsim Hl).
Qed.
End reopen.

(** ** Properties *)

Section properties.
Context `{KvLaws D} {weight_ok : spec_float -> Prop} `{!Serde Link (link_wt weight_ok)} `{!Serde string is_str}.
Context (link_text : forall l, json_from_slice (A := Link) [] <> Ok l) (id_text : forall s, json_from_slice (A := string) [] <> Ok s).

(** The first links of a list, as a query with a limit takes them. *)
Definition limited (limit : option Z) (ls : list Link) : list Link :=
  match limit with Some limit => take (Z.to_nat limit) ls | None => ls end.

(** C25. The persistent links agree with the in-memory engine: run the same creations, imports and
    deletions on related engines, with no commit refused, and every operation returns the
    same result; afterwards lookups, listings and counts are equal, and the neighbours of a
    reference are the same links in an order of each engine's own, so that a query with a
    limit takes the first links of the two orders.  The references have no zero byte, the
    neighbours in both directions are compared where no link leads from the reference to
    itself ([self_link_listed_twice]), and the numbers of the ids, those of imported links
    included, stay below 2^64 - 1 while the run gives them out: at 2^64 - 1 the counters of
    the engines part ([last_id_imported]). *)
Theorem persistent_links_agree (e : PersistentEngine D) m ops bound :
  link_sim e m -> Forall (link_op_ok (weight_ok := weight_ok)) ops -> Forall (imports_below bound) ops -> next_link_id m <= bound ->
  bound + total_creates ops < U64_MAX -> Forall (fun r => ~ refused (D := D) r) (pe_link_run ops e).1 ->
  let e' := (pe_link_run ops e).2 in let m' := (memory_link_run ops m).2 in
  (pe_link_run ops e).1 = (memory_link_run ops m).1 /\
  (forall id, pe_get_link e' id = get_link m' id) /\ pe_count_links e' = count_links m' /\
  (forall offset limit, 0 <= offset -> 0 <= limit -> pe_list_links e' offset limit = list_links m' offset limit) /\
  (forall reference direction link_type, no_nul reference ->
     (direction = Both -> forall l, l ∈ links m' -> ~ (lk_from_ref l = reference /\ lk_to_ref l = reference)) ->
     exists ls ls', ls ≡ₚ ls' /\ forall limit,
       pe_get_neighbors e' reference direction (mkLinkQuery link_type limit) = Ok (limited limit ls) /\
       get_neighbors m' reference direction (mkLinkQuery link_type limit) = Ok (limited limit ls')).
Proof using link_text id_text.
  intros Hsim Hops Himp Hle Hmax Href e' m'. destruct (link_run_sim ops e m bound Hsim Hops Himp Hle Hmax Href) as [Heq Hsim'].
  fold e' m' in Hsim'. split_and!; [done|intros id; by apply get_link_sim|by apply count_links_sim|intros; by apply list_links_sim|].
  intros reference direction link_type Hr Hself. eexists _, _. split; [by apply (neighbors_of_perm m' reference direction link_type)|]. intros limit. split; [|reflexivity].
  by rewrite (neighbors_sim id_text e' m').
Qed.

(** Reopening keeps the links and gives out no id in use: from the stored records alone, opening
    restores an engine related to the same links, whose counter lies beyond every numbered
    link, and no further than before. *)
Theorem reopen_restores_links (e : PersistentEngine D) m counter :
  link_sim e m -> next_link_id m < U64_MAX ->
  exists e' next, open_links (D := D) (set_next_link_id e counter) = (Ok (), e') /\
    link_sim e' (set_links m (links m) next) /\ 0 <= next <= next_link_id m /\
    (forall l, l ∈ links m -> lk_id l <> link_name (pe_next_link_id e')).
Proof.
  intros Hsim Hn. pose proof Hsim as [Hc Hkv Hst Hm _]. pose proof (li_next _ Hm) as Hb.
  set (next := foldl load_link_id 0 (sort_by id_cmp (links m))).
  destruct (load_link_ids (sort_by id_cmp (links m)) 0) as (Hle&Hmax&Hor); [unfold_ints; lia|]. fold next in Hle, Hmax, Hor.
  assert (Hup : next <= next_link_id m).
  { destruct Hor as [->|(l&Hl&Hs)]; [lia|]. rewrite elem_of_sort_by in Hl. by apply (li_sequence _ Hm l). }
  assert (Hw : u64_wrapping_add next 1 = next + 1) by (unfold u64_wrapping_add; rewrite Z.mod_small; unfold_ints; lia).
  assert (Hstored : forall c, link_sim (set_next_link_id e (c + 1)) (set_links m (links m) c) <-> link_inv (set_links m (links m) c)).
  { intros c. split; [by intros []|]. intros Hinv. by split. }
  assert (Hinv : link_inv (set_links m (links m) next)).
  { destruct Hm as [H1 H2 H3 H4]. split; cbn [links next_link_id set_links]; [done|done| |lia].
    intros l n Hl. apply Hmax. by rewrite elem_of_sort_by. }
  assert (Hrun : open_links (D := D) (set_next_link_id e counter) = (Ok (), set_next_link_id e (next + 1))).
  { pose proof (open_links_run (set_next_link_id e (next_link_id m + 1)) m) as Hopen. fold next in Hopen. rewrite Hw in Hopen.
    assert (Hs : link_sim (set_next_link_id e (next_link_id m + 1)) m) by by split.
    specialize (Hopen Hs). unfold open_links in *. rewrite pbind_pget in *. cbn [pe_codec pe_db set_next_link_id] in *.
    unfold pbind, plift, pmodify in *. destruct (fold_res _ _ _) as [n|err]; [|done]. injection Hopen as Hn'.
    f_equal. unfold set_next_link_id. cbn. f_equal. exact Hn'. }
  exists (set_next_link_id e (next + 1)), next. split_and!; [done|by apply Hstored|lia|lia|].
  intros l Hl Heq. cbn [pe_next_link_id set_next_link_id] in Heq. assert (Hs : link_sequence (lk_id l) = Some (next + 1)).
  { rewrite Heq. apply link_sequence_name. lia. }
  pose proof (Hmax l (next + 1) ltac:(by rewrite elem_of_sort_by) Hs). lia.
Qed.
End properties.

(** ** Samples *)

#[local] Existing Instance sample_crc32.
#[local] Existing Instance sample_codec.

Definition put_weight (w : option spec_float) : bytes :=
  match w with
  | None => [0; 0; 0; 0]
  | Some (S754_zero s) => [1; Z.b2z s; 0; 0]
  | Some (S754_infinity s) => [2; Z.b2z s; 0; 0]
  | Some S754_nan => [3; 0; 0; 0]
  | Some (S754_finite s m x) => [4; Z.b2z s; Z.pos m; x]
  end.
Definition get_weight : reader (option spec_float) := fun b =>
  match b with
  | tag :: sign :: mantissa :: exponent :: b =>
      let s := sign =? 1 in
      Some (if tag =? 1 then Some (S754_zero s) else if tag =? 2 then Some (S754_infinity s)
            else if tag =? 3 then Some S754_nan
            else if tag =? 4 then Some (S754_finite s (Z.to_pos mantissa) exponent) else None, b)
  | _ => None
  end.

Lemma get_put_weight w r : get_weight (put_weight w ++ r) = Some (w, r).
Proof. by destruct w as [[[]|[]| |[]]|]. Qed.

Definition put_link (l : Link) : bytes :=
  put_str (lk_id l) ++ put_str (lk_from_ref l) ++ put_str (lk_link_type l) ++ put_str (lk_to_ref l) ++
  put_weight (lk_weight l) ++ put_str (lk_metadata_json l) ++ put_str (lk_created_at l).
Definition get_link_text : reader Link := fun b =>
  '(id, b) ← get_str b; '(from, b) ← get_str b; '(type, b) ← get_str b; '(to, b) ← get_str b;
  '(weight, b) ← get_weight b; '(metadata, b) ← get_str b; '(created, b) ← get_str b;
  Some (mkLink id from type to weight metadata created, b).

Lemma get_put_link l : get_link_text (put_link l) = Some (l, []).
Proof.
  unfold get_link_text, put_link. rewrite <-(app_nil_r (put_str (lk_created_at l))).
  repeat (rewrite ?get_put_str, ?get_put_weight; cbn [mbind option_bind]). by destruct l.
Qed.

#[local, refine] Instance sample_serde_link : Serde Link (link_wt (fun _ => True)) := {|
  json_to_vec l := Ok (put_link l);
  json_from_slice b := finish (get_link_text b);
|}.
Proof. intros l _. eexists. split; [done|]. by rewrite get_put_link. Defined.

Definition link_engine : PersistentEngine RamKeyspaces := store_engine ∅ false.
Definition knows : Link := new_link "alice" "knows" "bob".
Definition likes : Link := mkLink "link-7" "bob" "likes" "alice" None "{}" "2024".
Definition sample_link_ops : list LinkOp :=
  [OpCreateLink "2024" knows; OpImportLink likes; OpDeleteLink "link-1"; OpCreateLink "2024" knows].

Lemma link_engine_sim : link_sim (weight_ok := fun _ => True) link_engine new_engine.
Proof.
  assert (Hv : forall n, kv_view (pe_db link_engine) n = ∅) by done. split; [done|done| | |done].
  - split; rewrite ?Hv; try apply indexed_empty. intros id l Hl. cbn in Hl. by rewrite lookup_empty in Hl.
  - split; cbn [links next_link_id new_engine]; [constructor|constructor| |unfold_ints; lia]. intros l n Hl. by apply elem_of_nil in Hl.
Qed.

Lemma sample_link_text l : json_from_slice (A := Link) [] <> Ok l.
Proof. intros Hl. discriminate Hl. Qed.

Lemma sample_id_text s : json_from_slice (A := string) [] <> Ok s.
Proof. intros Hs. discriminate Hs. Qed.

Lemma knows_fields : link_fields (weight_ok := fun _ => True) knows.
Proof. split; try split; (done || by apply sample_str || by apply sample_nul). Qed.

Lemma likes_ok : link_ok (weight_ok := fun _ => True) "link-7" likes.
Proof. split; [done| |by apply sample_nul..]. split; (done || by apply sample_str). Qed.

Lemma sample_link_ops_ok : Forall (link_op_ok (weight_ok := fun _ => True)) sample_link_ops.
Proof.
  apply Forall_cons. split; [split; [apply knows_fields|by apply sample_str]|].
  apply Forall_cons. split; [apply likes_ok|]. apply Forall_cons. split; [done|].
  apply Forall_cons. split; [split; [apply knows_fields|by apply sample_str]|by apply Forall_nil].
Qed.

Lemma sample_not_refused : Forall (fun r => ~ refused (D := RamKeyspaces) r) (pe_link_run sample_link_ops link_engine).1.
Proof.
  assert (Hok : forallb (fun r => match r with Ok _ => true | Err _ => false end) (pe_link_run sample_link_ops link_engine).1 = true) by (vm_compute; done).
  revert Hok. generalize (pe_link_run sample_link_ops link_engine).1 as rs. intros rs Hok. rewrite forallb_forall in Hok.
  apply Forall_forall. intros r Hr%list_elem_of_In (err&->&_). by specialize (Hok _ Hr).
Qed.

Lemma persistent_links_agree_witness :
  let e' := (pe_link_run sample_link_ops link_engine).2 in let m' := (memory_link_run sample_link_ops new_engine).2 in
  (pe_link_run sample_link_ops link_engine).1 = (memory_link_run sample_link_ops new_engine).1 /\
  (forall id, pe_get_link e' id = get_link m' id) /\ pe_count_links e' = count_links m' /\
  (forall offset limit, 0 <= offset -> 0 <= limit -> pe_list_links e' offset limit = list_links m' offset limit) /\
  (forall reference direction link_type, no_nul reference ->
     (direction = Both -> forall l, l ∈ links m' -> ~ (lk_from_ref l = reference /\ lk_to_ref l = reference)) ->
     exists ls ls', ls ≡ₚ ls' /\ forall limit,
       pe_get_neighbors e' reference direction (mkLinkQuery link_type limit) = Ok (limited limit ls) /\
       get_neighbors m' reference direction (mkLinkQuery link_type limit) = Ok (limited limit ls')).
Proof.
  apply (persistent_links_agree (D := RamKeyspaces) (weight_ok := fun _ => True) sample_link_text sample_id_text link_engine new_engine sample_link_ops 7);
    [apply link_engine_sim|apply sample_link_ops_ok| |cbn; lia|vm_compute; done|apply sample_not_refused].
  apply Forall_cons. split; [done|]. apply Forall_cons. split; [vm_compute; intros n [= <-]; done|].
  apply Forall_cons. split; [done|]. apply Forall_cons. split; [done|by apply Forall_nil].
Defined.

Lemma reopen_restores_links_witness :
  exists e' next, open_links (D := RamKeyspaces) (set_next_link_id link_engine 0) = (Ok (), e') /\
    link_sim (weight_ok := fun _ => True) e' (set_links new_engine (links new_engine) next) /\ 0 <= next <= next_link_id new_engine /\
    (forall l, l ∈ links new_engine -> lk_id l <> link_name (pe_next_link_id e')).
Proof. apply (reopen_restores_links link_engine new_engine 0); [apply link_engine_sim|done]. Defined.

(** A link from a reference to itself is listed twice in both directions, and once by the
    in-memory engine. *)
Lemma self_link_listed_twice :
  let self := new_link "alice" "is" "alice" in
  let stored := mkLink "link-1" "alice" "is" "alice" None "{}" "2024" in
  pe_get_neighbors (pe_create_link "2024" self link_engine).2 "alice" Both (mkLinkQuery None None) = Ok [stored; stored] /\
  get_neighbors (create_link new_engine "2024" self).2 "alice" Both (mkLinkQuery None None) = Ok [stored].
Proof. vm_compute. done. Qed.

(** After the import of the last id the in-memory counter wraps to 0 at the next link, and the
    persistent one, whose increment wrapped at the import, goes on with 1. *)
Example last_id_imported :
  let last := mkLink "link-18446744073709551615" "bob" "likes" "alice" None "{}" "2024" in
  lk_id <$> (pe_create_link "2024" knows (pe_import_link last link_engine).2).1 = Ok "link-1" /\
  lk_id <$> (create_link (import_link new_engine last).2 "2024" knows).1 = Ok "link-0".
Proof. vm_compute. done. Qed.

#[local] Existing Instance limited_kv.

(** Creating a link is not atomic: when the store refuses the second of its three writes,
    [create_link] fails, and yet the link is stored under its id; it is missing from the
    neighbours of both ends, and a retry creates a second link. *)
Theorem create_link_not_atomic :
  let first := pe_create_link "2024" knows (store_engine (∅ : RamKeyspaces, 1%nat) false) in
  let engine := set_db first.2 ((pe_db first.2).1, 9%nat) in
  let second := pe_create_link "2024" knows engine in
  let stored n := mkLink (link_name n) "alice" "knows" "bob" None "{}" "2024" in
  first.1 = Err (Model.Storage "no space left on device") /\ pe_get_link engine "link-1" = Ok (Some (stored 1)) /\
  pe_get_neighbors engine "alice" Both (mkLinkQuery None None) = Ok [] /\
  pe_get_neighbors engine "bob" Both (mkLinkQuery None None) = Ok [] /\
  second.1 = Ok (stored 2) /\ pe_list_links second.2 0 9 = Ok [stored 1; stored 2] /\
  pe_get_neighbors second.2 "alice" Both (mkLinkQuery None None) = Ok [stored 2].
Proof. vm_compute. done. Qed.
