(* ===== verification/PObjects.v ===== *)
(** * thingd: objects of the persistent engine

    Models [impl ObjectStore for PersistentEngine] of [crates/thingd/src/persistent.rs],
    except [retain], and the part of [open_from_database] that restores index definitions
    and the cache of unique values.  Objects live in the keyspace [objects] under their
    collection and id.  The values of uniquely indexed fields are cached in memory, by
    their JSON text; the cache is complete unless some body could not be parsed or a value
    was seen twice.  Vectors and search, which are optional features, are left out. *)

From S2P Require Import Prelude Wal Table Layer Database Keyspace RamScan Model Objects Storage Persistent PSample PQueue.
From Stdlib Require Import SpecFloat.

(** ** Stored records *)

Record object_wt (vector_ok : list spec_float -> Prop) (o : MemoryObject) : Prop := {
  ow_collection : is_str (ob_key o).1;
  ow_id : is_str (ob_key o).2;
  ow_body : is_str (ob_body o);
  ow_version : in_u64 (ob_version o);
  ow_created : is_str (ob_created_at o);
  ow_updated : is_str (ob_updated_at o);
  ow_vector : match ob_vector o with Some v => vector_ok v | None => True end;
}.

Record index_wt (ix : IndexDefinition) : Prop := {
  iw_collection : is_str (ix_collection ix);
  iw_field : is_str (ix_field ix);
}.

Record ObjectWriteMetadata := mkWriteMetadata { wm_version : Z; wm_created_at : string }.

(** [ObjectWriteMetadata] reads two fields of the text of an object and skips the others. *)
Class ReadMetadata {vector_ok} `{!Serde MemoryObject (object_wt vector_ok)} := {
  metadata_from_slice : bytes -> storage_result ObjectWriteMetadata;
  metadata_of_object o : object_wt vector_ok o ->
    metadata_from_slice (json_text o) = Ok (mkWriteMetadata (ob_version o) (ob_created_at o));
}.

Abbreviation UniqueCache := (gmap (string * string * string) ObjectKey).

Section objects.
Context `{Kv D} `{SerdeJson} {vector_ok : list spec_float -> Prop}.
Context `{!Serde MemoryObject (object_wt vector_ok)} `{!ReadMetadata} `{!Serde IndexDefinition index_wt}.
Implicit Types (e : PersistentEngine D) (c : StorageCodec) (o : MemoryObject) (now : string) (ix : IndexDefinition).

(** ** Index definitions and the cache of unique values *)

(** [body.get(field).filter(|value| !value.is_null())]. *)
Definition present_field (body : Value number) (field : string) : option (Value number) :=
  value ← value_get body field; if is_null value then None else Some value.

(** [to_string] of a JSON value does not fail. *)
Definition unique_cache_key (collection field : string) (value : Value number) : string * string * string :=
  (collection, field, display_value value).

Definition index_cache_key ix (value : Value number) := unique_cache_key (ix_collection ix) (ix_field ix) value.

Definition cache_index (key : ObjectKey) (body : Value number) (acc : UniqueCache * bool) ix : UniqueCache * bool :=
  match present_field body (ix_field ix) with
  | None => acc
  | Some value =>
      let cache_key := index_cache_key ix value in
      (<[cache_key := key]> acc.1, acc.2 && negb (bool_decide (is_Some (acc.1 !! cache_key))))
  end.

Definition in_collection (collection : string) ix : bool := bool_decide (ix_collection ix = collection).

Definition cache_object (uniques : list IndexDefinition) (acc : UniqueCache * bool) o : UniqueCache * bool :=
  match from_str (ob_body o) with
  | None => (acc.1, false)
  | Some body => foldl (cache_index (ob_key o) body) acc (List.filter (in_collection (ob_key o).1) uniques)
  end.

Definition build_unique_index_cache c (db : D) : thingd_result (UniqueCache * bool) :=
  definitions ← map_res (fun kv => deserialize c kv.2) (kv_iter db "indexes");
  let uniques := List.filter ix_unique definitions in
  if bool_decide (uniques = []) then Ok (∅, true) else
  fold_res (fun acc kv => o ← deserialize c kv.2; Ok (cache_object uniques acc o)) (∅, true) (kv_iter db "objects").

Definition definition_cmp (a b : IndexDefinition) : comparison :=
  key_cmp (ix_collection a, ix_field a) (ix_collection b, ix_field b).

Definition load_index_definitions c (db : D) : thingd_result (list IndexDefinition) :=
  sort_by definition_cmp <$> map_res (fun kv => deserialize c kv.2) (kv_iter db "indexes").

Definition refresh_unique_index_cache : PM D unit :=
  let* e := pget in
  let* definitions := plift (load_index_definitions (pe_codec e) (pe_db e)) in
  let* _ := pmodify (fun e => set_index_state e definitions (pe_unique_index_values e) (pe_unique_index_cache_complete e)) in
  let* built := plift (build_unique_index_cache (pe_codec e) (pe_db e)) in
  pmodify (fun e => set_index_state e (pe_index_definitions e) built.1 built.2).

(** Opening builds the cache and loads the definitions. *)
Definition open_objects : PM D unit :=
  let* e := pget in
  let* built := plift (build_unique_index_cache (pe_codec e) (pe_db e)) in
  let* definitions := plift (load_index_definitions (pe_codec e) (pe_db e)) in
  pmodify (fun e => set_index_state e definitions built.1 built.2).

Definition has_unique_indexes e : bool := existsb ix_unique (pe_index_definitions e).
Definition unique_indexes_of e (collection : string) : list IndexDefinition :=
  List.filter (fun ix => ix_unique ix && in_collection collection ix) (pe_index_definitions e).

(** The cached key of an object under an index. *)
Definition cached_under o ix : option (string * string * string) :=
  body ← from_str (ob_body o); index_cache_key ix <$> present_field body (ix_field ix).

Definition replace_cached o (previous : option MemoryObject) (cache : UniqueCache) ix : UniqueCache :=
  let cache := match previous ≫= fun previous => cached_under previous ix with
               | Some key => delete key cache
               | None => cache
               end in
  match cached_under o ix with Some key => <[key := ob_key o]> cache | None => cache end.

Definition update_unique_index_cache_for_object o (previous : option MemoryObject) e : PersistentEngine D :=
  if negb (pe_unique_index_cache_complete e) || negb (has_unique_indexes e) then e
  else set_index_state e (pe_index_definitions e)
         (foldl (replace_cached o previous) (pe_unique_index_values e) (unique_indexes_of e (ob_key o).1))
         (pe_unique_index_cache_complete e).

Definition drop_cached o (cache : UniqueCache) ix : UniqueCache :=
  match cached_under o ix with Some key => delete key cache | None => cache end.

Definition remove_unique_index_cache_for_object o e : PersistentEngine D :=
  if negb (pe_unique_index_cache_complete e) || negb (has_unique_indexes e) then e
  else set_index_state e (pe_index_definitions e)
         (foldl (drop_cached o) (pe_unique_index_values e) (unique_indexes_of e (ob_key o).1))
         (pe_unique_index_cache_complete e).

(** ** Listing *)

(** [persistent.rs] has its own copy of the filter test of [in_memory.rs]. *)
Definition matches_object_filters (filters : list (string * Value number)) o : bool := matches_filter filters o.

(** The loop of the unsorted listing: filter, skip, push, stop at the limit. *)
Fixpoint scan_objects c (keep : MemoryObject -> bool) (offset limit skipped : Z) (results : list MemoryObject)
    (entries : list (bytes * bytes)) : thingd_result (list MemoryObject) :=
  match entries with
  | [] => Ok results
  | (_, value) :: entries =>
      o ← deserialize c value;
      if negb (keep o) then scan_objects c keep offset limit skipped results entries
      else if skipped <? offset then scan_objects c keep offset limit (skipped + 1) results entries
      else
        let results := results ++ [o] in
        if limit <=? zlen results then Ok results
        else scan_objects c keep offset limit skipped results entries
  end.

Definition read_objects c (entries : list (bytes * bytes)) : thingd_result (list MemoryObject) :=
  map_res (fun kv => deserialize c kv.2) entries.

Definition list_unsorted e (collections : option (list string)) (options : ListObjectsOptions)
    : thingd_result (list MemoryObject) :=
  let c := pe_codec e in
  if bool_decide (lo_limit options = Some 0) then Ok [] else
  let offset := default 0 (lo_offset options) in
  let limit := default U64_MAX (lo_limit options) in
  match collections with
  | Some [collection] =>
      let prefix := make_object_prefix c collection in
      if bool_decide (length (lo_filter options) = 0%nat) && (bool_decide (is_Some (lo_offset options)) || bool_decide (is_Some (lo_limit options)))
      then page ← storage_error (prefix_page (pe_db e) "objects" prefix offset limit); read_objects c page
      else scan_objects c (matches_object_filters (lo_filter options)) offset limit 0 [] (kv_prefix (pe_db e) "objects" prefix)
  | _ => scan_objects c (fun o => in_collections collections o && matches_object_filters (lo_filter options) o)
           offset limit 0 [] (kv_iter (pe_db e) "objects")
  end.

Definition list_sorted e (collections : option (list string)) (sort : SortBy) (options : ListObjectsOptions)
    : thingd_result (list MemoryObject) :=
  let c := pe_codec e in
  os ← read_objects c
         match collections with
         | Some [collection] => kv_prefix (pe_db e) "objects" (make_object_prefix c collection)
         | _ => kv_iter (pe_db e) "objects"
         end;
  let os := match collections with
            | Some [_] | None => os
            | Some _ => List.filter (in_collections collections) os
            end in
  let os := if bool_decide (length (lo_filter options) = 0%nat) then os
            else List.filter (matches_object_filters (lo_filter options)) os in
  let os := sort_by (sort_cmp sort) os in
  let os := match lo_offset options with Some n => drop (Z.to_nat n) os | None => os end in
  Ok (match lo_limit options with Some n => take (Z.to_nat n) os | None => os end).

Definition pe_list_objects e (collections : option (list string)) (options : ListObjectsOptions)
    : thingd_result (list MemoryObject) :=
  match lo_sort_by options with
  | None => list_unsorted e collections options
  | Some sort => list_sorted e collections sort options
  end.

Definition default_listing : ListObjectsOptions := mkListObjects [] None None None.

(** ** Unique indexes on a put *)

(** The parsed bodies of the collection, for a cache that is not complete. *)
Definition parsed_body o : option (ObjectKey * Value number) := pair (ob_key o) <$> from_str (ob_body o).

Definition existing_bodies e o : thingd_result (option (list (ObjectKey * Value number))) :=
  if pe_unique_index_cache_complete e then Ok None else
  (fun os : list MemoryObject => Some (omap parsed_body os)) <$> pe_list_objects e (Some [(ob_key o).1]) default_listing.

Definition pe_check_index e o (body : Value number) (bodies : option (list (ObjectKey * Value number))) ix
    : thingd_result unit :=
  match value_get body (ix_field ix) with
  | None => Ok ()
  | Some value =>
      if is_null value then Ok ()
      else if pe_unique_index_cache_complete e then
        match pe_unique_index_values e !! index_cache_key ix value with
        | Some existing_key => if bool_decide (existing_key = ob_key o) then Ok () else Err (unique_conflict ix)
        | None => Ok ()
        end
      else if existsb (fun existing : ObjectKey * Value number =>
                negb (bool_decide (existing.1 = ob_key o)) &&
                match value_get existing.2 (ix_field ix) with
                | Some existing_value => bool_decide (existing_value = value)
                | None => false
                end) (default [] bodies)
      then Err (unique_conflict ix) else Ok ()
  end.

(** The message of the JSON error is left out. *)
Definition invalid_json : ThingdError := InvalidInput "invalid object JSON".

Definition pe_validate_unique_indexes e o : thingd_result unit :=
  let uniques := unique_indexes_of e (ob_key o).1 in
  if bool_decide (uniques = []) then Ok () else
  body ← ok_or (from_str (ob_body o)) invalid_json;
  bodies ← existing_bodies e o;
  fold_res (fun _ ix => pe_check_index e o body bodies ix) () uniques.

(** ** Puts *)

Definition read_object_at_key e (key : bytes) : thingd_result (option MemoryObject) :=
  value ← storage_error (kv_get (pe_db e) "objects" key);
  match value with
  | Some data => Some <$> deserialize (pe_codec e) data
  | None => Ok None
  end.

Definition read_object_write_metadata_at_key e (key : bytes) : thingd_result (option ObjectWriteMetadata) :=
  value ← storage_error (kv_get (pe_db e) "objects" key);
  match value with
  | Some data =>
      decoded ← decode_value (pe_codec e) "record" data;
      Some <$> storage_error (metadata_from_slice decoded)
  | None => Ok None
  end.

Definition write_metadata o : ObjectWriteMetadata := mkWriteMetadata (ob_version o) (ob_created_at o).

(** What a put reads of the object it replaces: all of it when there are unique indexes,
    its version and creation time otherwise. *)
Definition read_previous e (key : bytes) : thingd_result (option MemoryObject * option ObjectWriteMetadata) :=
  if has_unique_indexes e
  then (fun previous : option MemoryObject => (previous, write_metadata <$> previous)) <$> read_object_at_key e key
  else (fun metadata : option ObjectWriteMetadata => (None, metadata)) <$> read_object_write_metadata_at_key e key.

(** The object as it is stored. *)
Definition stamp now o (previous : option ObjectWriteMetadata) : MemoryObject :=
  mkObject (ob_key o) (ob_body o)
    (match previous with Some m => u64_wrapping_add (wm_version m) 1 | None => 1 end)
    (match previous with
     | Some m => wm_created_at m
     | None => if bool_decide (ob_created_at o = "") then now else ob_created_at o
     end) now (ob_vector o).

Definition object_key c o : bytes := make_object_key c (ob_key o).1 (ob_key o).2.

Definition pe_put_object now o : PM D MemoryObject :=
  let* e := pget in
  let* _ := plift (pe_validate_unique_indexes e o) in
  let key := object_key (pe_codec e) o in
  let* previous := plift (read_previous e key) in
  let o := stamp now o previous.2 in
  let* data := plift (serialize (pe_codec e) o) in
  let* _ := commit (batch_insert [] "objects" key data) in
  let* _ := pmodify (update_unique_index_cache_for_object o previous.1) in
  pret o.

Definition absent_conflict o : ThingdError :=
  Conflict ("object '" +:+ (ob_key o).1 +:+ "/" +:+ (ob_key o).2 +:+ "' does not exist").
Definition present_conflict o : ThingdError :=
  Conflict ("expected object '" +:+ (ob_key o).1 +:+ "/" +:+ (ob_key o).2 +:+ "' to be absent").
Definition expected_conflict (expected current : Z) : ThingdError :=
  Conflict ("expected version " +:+ format_pad 1 expected +:+ " but current version is " +:+ format_pad 1 current).

Definition check_expected o (expected : Z) (current : option MemoryObject) : thingd_result unit :=
  match current with
  | Some existing => if ob_version existing =? expected then Ok () else Err (expected_conflict expected (ob_version existing))
  | None => Err (absent_conflict o)
  end.

Definition pe_put_object_with_options now o (options : PutObjectOptions) : PM D MemoryObject :=
  let* e := pget in
  let* _ := plift match po_expected_version options with
                  | None => Ok ()
                  | Some expected =>
                      current ← read_object_at_key e (object_key (pe_codec e) o);
                      if expected =? 0
                      then match current with Some _ => Err (present_conflict o) | None => Ok () end
                      else check_expected o expected current
                  end in
  pe_put_object now o.

(** The metadata that the replication source supplies replaces what was stored. *)
Definition with_source_metadata o (stored : MemoryObject) : MemoryObject :=
  mkObject (ob_key stored) (ob_body stored)
    (if 0 <? ob_version o then ob_version o else ob_version stored)
    (if bool_decide (ob_created_at o = "") then ob_created_at stored else ob_created_at o)
    (if bool_decide (ob_updated_at o = "") then ob_updated_at stored else ob_updated_at o)
    (ob_vector stored).

Definition pe_put_object_with_source_metadata now o (options : PutObjectOptions) : PM D MemoryObject :=
  let* e := pget in
  let key := object_key (pe_codec e) o in
  let* _ := plift match po_expected_version options with
                  | None => Ok ()
                  | Some expected => current ← read_object_at_key e key; check_expected o expected current
                  end in
  let* stored := pe_put_object now o in
  let replicated := with_source_metadata o stored in
  let* data := plift (serialize (pe_codec e) replicated) in
  let* _ := commit (batch_insert [] "objects" key data) in
  pret replicated.

(** ** Batch puts *)

Definition read_many e (keys : list bytes) : thingd_result (list (option bytes)) :=
  map_res (fun key => storage_error (kv_get (pe_db e) "objects" key)) keys.

Definition parse_stored c (value : option bytes) : thingd_result (option MemoryObject) :=
  match value with
  | Some data => Some <$> deserialize c data
  | None => Ok None
  end.

(** A replaced object gives up the values it owns. *)
Definition release_value (previous : MemoryObject) (virtual : UniqueCache) ix : UniqueCache :=
  match cached_under previous ix with
  | Some key => if bool_decide (virtual !! key = Some (ob_key previous)) then delete key virtual else virtual
  | None => virtual
  end.

Definition release_values (uniques : list IndexDefinition) (virtual : UniqueCache) (previous : option MemoryObject) : UniqueCache :=
  match previous with
  | Some previous => foldl (release_value previous) virtual (List.filter (in_collection (ob_key previous).1) uniques)
  | None => virtual
  end.

Record PutFold := mkPut {
  pf_prepared : list (MemoryObject * option MemoryObject);
  pf_by_key : gmap bytes nat;
  pf_virtual : UniqueCache;
  pf_batch : list BatchWrite;
}.

Definition claim_value o (virtual : UniqueCache) ix : thingd_result UniqueCache :=
  match cached_under o ix with
  | None => Ok virtual
  | Some key =>
      match virtual !! key with
      | Some owner => if bool_decide (owner = ob_key o) then Ok (<[key := ob_key o]> virtual) else Err (unique_conflict ix)
      | None => Ok (<[key := ob_key o]> virtual)
      end
  end.

Definition prepare_put e (uniques : list IndexDefinition) (acc : PutFold)
    (input : string * MemoryObject * bytes * option MemoryObject) : thingd_result PutFold :=
  let '(now, o, key, original) := input in
  let previous := match pf_by_key acc !! key with
                  | Some index => fst <$> pf_prepared acc !! index
                  | None => original
                  end in
  _ ← (if pe_unique_index_cache_complete e then Ok () else pe_validate_unique_indexes e o);
  let o := stamp now o (write_metadata <$> previous) in
  virtual ← fold_res (claim_value o) (pf_virtual acc) (List.filter (in_collection (ob_key o).1) uniques);
  data ← serialize (pe_codec e) o;
  Ok (mkPut (pf_prepared acc ++ [(o, previous)]) (<[key := length (pf_prepared acc)]> (pf_by_key acc)) virtual
        (batch_insert (pf_batch acc) "objects" key data)).

(** Each object with the clock reading of its put. *)
Definition pe_put_objects_batch (os : list (string * MemoryObject)) : PM D (list MemoryObject) :=
  if bool_decide (length os = 0%nat) then pret [] else
  let* e := pget in
  let c := pe_codec e in
  let uniques := List.filter ix_unique (pe_index_definitions e) in
  let keys := (fun x => object_key c x.2) <$> os in
  let* values := plift (read_many e keys) in
  let* previous := plift (map_res (parse_stored c) values) in
  let virtual := if bool_decide (uniques = []) then ∅
                 else foldl (release_values uniques) (pe_unique_index_values e) previous in
  let* acc := plift (fold_res (prepare_put e uniques) (mkPut [] ∅ virtual []) (zip (zip os keys) previous)) in
  let* _ := commit (pf_batch acc) in
  let* _ := pmodify (fun e => foldl (fun e x => update_unique_index_cache_for_object x.1 x.2 e) e (pf_prepared acc)) in
  pret (pf_prepared acc).*1.

(** ** Reads *)

Definition pe_get_object e (collection id : string) : thingd_result (option MemoryObject) :=
  read_object_at_key e (make_object_key (pe_codec e) collection id).

Definition pe_get_objects_batch e (collection : string) (ids : list string) : thingd_result (list (option MemoryObject)) :=
  map_res (pe_get_object e collection) ids.

Definition pe_count_objects e : thingd_result Z := storage_error (kv_count (pe_db e) "objects").
Definition pe_count_objects_in_collection e (collection : string) : thingd_result Z :=
  storage_error (count_prefix (pe_db e) "objects" (make_object_prefix (pe_codec e) collection)).

Definition push_collection (collections : list string) o : list string :=
  if bool_decide ((ob_key o).1 ∈ collections) then collections else collections ++ [(ob_key o).1].
Definition pe_list_collections e : thingd_result (list string) :=
  foldl push_collection [] <$> read_objects (pe_codec e) (kv_iter (pe_db e) "objects").

(** ** Deletes *)

Definition pe_delete_object (collection id : string) : PM D bool :=
  let* e := pget in
  let key := make_object_key (pe_codec e) collection id in
  let* existing := plift (read_object_at_key e key) in
  let* _ := commit (batch_remove [] "objects" key) in
  let* _ := pmodify (fun e => match existing with Some o => remove_unique_index_cache_for_object o e | None => e end) in
  pret (bool_decide (is_Some existing)).

Definition pe_delete_objects_batch (keys : list (string * string)) : PM D Z :=
  let* e := pget in
  let c := pe_codec e in
  let object_keys := (fun k : string * string => make_object_key c k.1 k.2) <$> keys in
  let* values := plift (read_many e object_keys) in
  let* found := plift (fold_res (fun (acc : list MemoryObject * list BatchWrite) (x : bytes * option bytes) =>
      match x.2 with
      | Some data => o ← deserialize c data; Ok (acc.1 ++ [o], batch_remove acc.2 "objects" x.1)
      | None => Ok acc
      end) ([], []) (zip object_keys values)) in
  let* _ := (if bool_decide (found.1 = []) then pret () else commit found.2) in
  let* _ := pmodify (fun e => foldl (fun e o => remove_unique_index_cache_for_object o e) e found.1) in
  pret (zlen found.1).

(** ** Indexes *)

(** The comparison is that of [SerdeJson]. *)
Definition check_duplicates ix (values : list (Value number)) o : thingd_result (list (Value number)) :=
  body ← ok_or (from_str (ob_body o)) invalid_json;
  match present_field body (ix_field ix) with
  | Some value =>
      if existsb (fun existing => bool_decide (existing = value)) values
      then Err (Conflict ("cannot create unique index " +:+ ix_collection ix +:+ "." +:+ ix_field ix
                            +:+ ": existing values are duplicated"))
      else Ok (values ++ [value])
  | None => Ok values
  end.

Definition pe_create_index_definition ix : PM D unit :=
  if bool_decide (ix_collection ix = "") || bool_decide (ix_field ix = "")
  then plift (Err (InvalidInput "index collection and field are required")) else
  let* e := pget in
  let* _ := plift (if ix_unique ix then
                     os ← pe_list_objects e (Some [ix_collection ix]) default_listing;
                     _ ← fold_res (check_duplicates ix) [] os; Ok ()
                   else Ok ()) in
  let* data := plift (serialize (pe_codec e) ix) in
  let* _ := ks_insert "indexes" (make_index_key (pe_codec e) (ix_collection ix) (ix_field ix)) data in
  refresh_unique_index_cache.

Definition pe_create_index (collection field : string) : PM D unit :=
  pe_create_index_definition (mkIndex collection field false).

Definition pe_delete_index (collection field : string) : PM D bool :=
  let* e := pget in
  let key := make_index_key (pe_codec e) collection field in
  let* found := plift (storage_error (kv_get (pe_db e) "indexes" key)) in
  if bool_decide (is_Some found) then
    let* _ := ks_remove "indexes" key in
    let* _ := refresh_unique_index_cache in
    pret true
  else pret false.

Definition pe_list_index_definitions e : thingd_result (list IndexDefinition) := Ok (pe_index_definitions e).
Definition pe_list_indexes e : thingd_result (list (string * string)) :=
  Ok ((fun ix => (ix_collection ix, ix_field ix)) <$> pe_index_definitions e).
End objects.
