(* ===== verification/PObjectSpec.v ===== *)
(** * thingd: the objects of a store, and reading them

    [objects_stored] relates the keyspaces [objects] and [indexes] to a finite map of
    objects and one of index definitions.  Reads, counts and listings of the persistent
    engine are those of the in-memory engine on the same objects. *)

From S2P Require Import Prelude Wal Table Layer Database ThingDb Keyspace RamScan Model Objects Storage Persistent PSample PStore PQueue PObjects.
From Stdlib Require Import SpecFloat.

Abbreviation ObjectMap := (gmap ObjectKey MemoryObject).
Abbreviation IndexMap := (gmap (string * string) IndexDefinition).

Lemma object_keyspaces_valid : valid_name "objects" /\ valid_name "indexes".
Proof. by split; apply (bool_decide_unpack _). Qed.

Lemma object_key_raw o : object_key raw_codec o = str_bytes (ob_key o).1 ++ 0 :: str_bytes (ob_key o).2.
Proof. done. Qed.

Lemma object_key_ok o : bytes_ok (object_key raw_codec o).
Proof. rewrite object_key_raw. keys_ok. Qed.

Lemma index_key_ok collection field : bytes_ok (make_index_key raw_codec collection field).
Proof. unfold make_index_key. cbn [encode_key raw_codec]. keys_ok. Qed.

Section spec.
Context `{KvLaws D} `{SerdeJson} {vector_ok : list spec_float -> Prop}.
Context `{!Serde MemoryObject (object_wt vector_ok)} `{!ReadMetadata} `{!Serde IndexDefinition index_wt}.
Implicit Types (e : PersistentEngine D) (o : MemoryObject) (O : ObjectMap) (X : IndexMap) (ix : IndexDefinition).

Record object_ok (k : ObjectKey) o : Prop := {
  ok_key : ob_key o = k;
  ok_wt : object_wt vector_ok o;
  ok_nul : no_nul k.1;
}.

Record index_ok (k : string * string) ix : Prop := {
  xk_key : (ix_collection ix, ix_field ix) = k;
  xk_wt : index_wt ix;
  xk_nul : no_nul k.1;
}.

Definition object_pair o : bytes * bytes := (object_key raw_codec o, json_text o).
Definition object_entry o : option (bytes * bytes) := Some (object_pair o).
Definition index_pair ix : bytes * bytes := (make_index_key raw_codec (ix_collection ix) (ix_field ix), json_text ix).
Definition index_entry ix : option (bytes * bytes) := Some (index_pair ix).

Lemma pair_key_inj (a b a' b' : string) : no_nul a -> no_nul a' -> str_bytes a ++ 0 :: str_bytes b = str_bytes a' ++ 0 :: str_bytes b' -> (a, b) = (a', b').
Proof.
  intros Ha Ha' Heq. apply terminated_inj in Heq as [Hx Hy]; [|done..]. apply str_bytes_inj in Hx. apply str_bytes_inj in Hy. congruence.
Qed.

Lemma object_entry_inj k o k' o' b v v' :
  object_ok k o -> object_ok k' o' -> object_entry o = Some (b, v) -> object_entry o' = Some (b, v') -> k = k'.
Proof.
  intros [Hk _ Hn] [Hk' _ Hn'] Hx Hy. assert (Heq : object_key raw_codec o = object_key raw_codec o') by (unfold object_entry, object_pair in *; congruence).
  rewrite !object_key_raw, Hk, Hk' in Heq. apply pair_key_inj in Heq; [|done..]. by destruct k, k'.
Qed.

Lemma index_entry_inj k ix k' ix' b v v' :
  index_ok k ix -> index_ok k' ix' -> index_entry ix = Some (b, v) -> index_entry ix' = Some (b, v') -> k = k'.
Proof.
  intros [<- _ Hn] [<- _ Hn'] Hx Hy. cbn [fst] in *.
  assert (Heq : make_index_key raw_codec (ix_collection ix) (ix_field ix) = make_index_key raw_codec (ix_collection ix') (ix_field ix')).
  { unfold index_entry, index_pair in *. congruence. }
  unfold make_index_key in Heq. cbn [encode_key raw_codec app] in Heq. by apply pair_key_inj in Heq.
Qed.

Record objects_stored (view : string -> bmap bytes) O X : Prop := {
  os_objects : indexed object_entry (view "objects") O;
  os_indexes : indexed index_entry (view "indexes") X;
  os_object_ok : forall k o, O !! k = Some o -> object_ok k o;
  os_index_ok : forall k ix, X !! k = Some ix -> index_ok k ix;
}.

(** ** Entries in key order *)

(** Records under two-part keys, in the order of the parts. *)
Lemma stored_in_order {A} (f : A -> bytes * bytes) (J : gmap (string * string) A) (V : bmap bytes) :
  indexed (fun a => Some (f a)) V J ->
  (forall k a, J !! k = Some a -> no_nul k.1 /\ (f a).1 = str_bytes k.1 ++ 0 :: str_bytes k.2) ->
  btree_iter V = f <$> btree_values J.
Proof.
  intros Hidx Hkey. rewrite <-prefix_entries_nil. unfold btree_values. rewrite <-list_fmap_compose.
  assert (Hin : forall k a, (k, a) ∈ btree_iter J <-> J !! k = Some a) by (intros; apply elem_of_btree_iter).
  apply sorted_entries_ext; [apply prefix_entries_sorted| |].
  - assert (Hall : Forall (fun p => J !! p.1 = Some p.2) (btree_iter J)).
    { apply Forall_forall. intros [k a]. apply Hin. }
    pose proof (btree_iter_strict J) as Hs. clear Hin. induction Hs as [|[k a] l _ IH Hlt]; [constructor|].
    apply Forall_cons in Hall as [Hk Hall]. rewrite fmap_cons. constructor; [by apply IH|].
    apply Forall_forall. intros x ([k' a']&->&Hx)%list_elem_of_fmap. rewrite Forall_forall in Hlt. rewrite Forall_forall in Hall.
    specialize (Hlt _ Hx). specialize (Hall _ Hx). cbn [fst snd compose] in *. unfold compose. cbn [snd].
    destruct (Hkey _ _ Hk) as [Hn ->], (Hkey _ _ Hall) as [Hn' ->]. destruct k as [k1 k2], k' as [k1' k2']. cbn [fst snd] in *.
    apply terminated_lt_iff; [keys_ok..|done|done|]. apply prod_lt in Hlt as [?|[-> ?]]; [by left|by right].
  - intros [b v]. rewrite elem_of_prefix_entries, (Hidx b v), list_elem_of_fmap. split.
    + intros [(k&a&Hk&[= Heq]) _]. exists (k, a). split; [by rewrite <-Heq|]. by apply Hin.
    + intros ([k a]&Heq&Hk%Hin). split; [|done]. exists k, a. split; [done|]. by rewrite Heq.
Qed.

Section reading.
Context (e : PersistentEngine D) (O : ObjectMap) (X : IndexMap).
Context (Hcodec : pe_codec e = raw_codec) (Hkv : kv_ok (pe_db e)) (Hst : objects_stored (kv_view (pe_db e)) O X).

Lemma objects_iter : kv_iter (pe_db e) "objects" = object_pair <$> btree_values O.
Proof.
  rewrite kv_iter_entries by (done || apply object_keyspaces_valid). apply stored_in_order; [apply Hst|].
  intros k o Ho. destruct (os_object_ok _ _ _ Hst _ _ Ho) as [Hk _ Hn]. split; [done|]. unfold object_pair. cbn [fst]. by rewrite object_key_raw, Hk.
Qed.

Lemma indexes_iter : kv_iter (pe_db e) "indexes" = index_pair <$> btree_values X.
Proof.
  rewrite kv_iter_entries by (done || apply object_keyspaces_valid). apply stored_in_order; [apply Hst|].
  intros k ix Hix. by destruct (os_index_ok _ _ _ Hst _ _ Hix) as [<- _ Hn].
Qed.

Lemma objects_typed : Forall (object_wt vector_ok) (btree_values O).
Proof. apply Forall_forall. intros o (k&Ho)%elem_of_btree_values. by destruct (os_object_ok _ _ _ Hst _ _ Ho). Qed.

Lemma indexes_typed : Forall index_wt (btree_values X).
Proof. apply Forall_forall. intros ix (k&Hix)%elem_of_btree_values. by destruct (os_index_ok _ _ _ Hst _ _ Hix). Qed.

Lemma collection_prefix collection o :
  o ∈ btree_values O -> no_nul collection ->
  starts_with (make_object_prefix raw_codec collection) (object_pair o).1 = bool_decide (collection = (ob_key o).1).
Proof.
  intros (k&Ho)%elem_of_btree_values Hc. destruct (os_object_ok _ _ _ Hst _ _ Ho) as [Hk _ Hn]. rewrite <-Hk in Hn.
  apply eq_bool_prop_intro. rewrite !Is_true_true, bool_decide_eq_true. unfold object_pair. cbn [fst]. rewrite object_key_raw.
  by apply starts_with_name.
Qed.

Lemma collection_entries collection :
  no_nul collection ->
  kv_prefix (pe_db e) "objects" (make_object_prefix raw_codec collection)
  = object_pair <$> List.filter (in_collections (Some [collection])) (btree_values O).
Proof.
  intros Hc. rewrite kv_prefix_entries by (done || apply object_keyspaces_valid). unfold entries_of, prefix_entries.
  rewrite <-(kv_iter_entries (pe_db e) "objects") by (done || apply object_keyspaces_valid). rewrite objects_iter, filter_fmap.
  f_equal. apply filter_ext_in. intros o Ho. rewrite collection_prefix by done. cbn. by rewrite orb_false_r.
Qed.

(** ** Listing *)

Lemma read_objects_pairs os : Forall (object_wt vector_ok) os -> read_objects raw_codec (object_pair <$> os) = Ok os.
Proof.
  unfold read_objects. induction 1 as [|o os Ho _ IH]; [done|]. rewrite fmap_cons. cbn [map_res object_pair snd].
  rewrite deserialize_raw by done. run. rewrite IH. done.
Qed.

Lemma scan_objects_spec keep os : forall offset limit skipped results,
  Forall (object_wt vector_ok) os -> 0 <= skipped <= offset -> (skipped < offset -> results = []) -> zlen results < limit ->
  scan_objects raw_codec keep offset limit skipped results (object_pair <$> os)
  = Ok (results ++ take (Z.to_nat (limit - zlen results)) (drop (Z.to_nat (offset - skipped)) (List.filter keep os))).
Proof.
  induction os as [|o os IH]; intros offset limit skipped results Hos Hsk Hres Hlim.
  { cbn [fmap list_fmap scan_objects List.filter]. by rewrite drop_nil, take_nil, app_nil_r. }
  apply Forall_cons in Hos as [Ho Hos]. rewrite fmap_cons. cbn [scan_objects object_pair]. rewrite deserialize_raw by done. run.
  cbn [List.filter]. destruct (keep o); cbn [negb]; [|by apply IH]. destruct (Z.ltb_spec skipped offset) as [Hlt|Hge].
  { rewrite IH; [|done|lia|intros _; by apply Hres|done]. do 3 f_equal.
    replace (Z.to_nat (offset - skipped)) with (S (Z.to_nat (offset - (skipped + 1)))) by lia. done. }
  replace (Z.to_nat (offset - skipped)) with 0%nat by lia. cbn [drop].
  replace (Z.to_nat (limit - zlen results)) with (S (Z.to_nat (limit - (zlen results + 1)))) by lia. cbn [take].
  assert (Hlen : zlen (results ++ [o]) = zlen results + 1) by (rewrite length_app; cbn; lia). rewrite Hlen.
  destruct (Z.leb_spec limit (zlen results + 1)).
  - replace (Z.to_nat (limit - (zlen results + 1))) with 0%nat by lia. done.
  - rewrite IH by (done || lia). rewrite Hlen. replace (Z.to_nat (offset - skipped)) with 0%nat by lia. cbn [drop]. by rewrite <-app_assoc.
Qed.

Lemma page_bounds {A} (l : list A) (offset limit : option Z) :
  zlen l <= U64_MAX ->
  take (Z.to_nat (default U64_MAX limit)) (drop (Z.to_nat (default 0 offset)) l)
  = let l := match offset with Some n => drop (Z.to_nat n) l | None => l end in
    match limit with Some n => take (Z.to_nat n) l | None => l end.
Proof.
  intros Hl. assert (Hd : drop (Z.to_nat (default 0 offset)) l = match offset with Some n => drop (Z.to_nat n) l | None => l end).
  { destruct offset; [done|]. apply drop_0. }
  rewrite Hd. clear Hd. destruct limit as [n|]; [done|]. change (default U64_MAX None) with U64_MAX. cbv zeta. apply take_ge.
  destruct offset; [rewrite length_drop|]; lia.
Qed.

(** The options of a listing are machine numbers. *)
Record listing_ok (options : ListObjectsOptions) : Prop := {
  lk_limit : match lo_limit options with Some n => 0 <= n | None => True end;
  lk_offset : match lo_offset options with Some n => 0 <= n | None => True end;
}.

Lemma kept_size (keep : MemoryObject -> bool) : Z.of_nat (size O) <= U64_MAX -> zlen (List.filter keep (btree_values O)) <= U64_MAX.
Proof.
  intros Hs. pose proof (filter_length_le keep (btree_values O)) as Hle. unfold btree_values in *. rewrite length_fmap, length_btree_iter in Hle. lia.
Qed.

Lemma default_offset options : listing_ok options -> 0 <= default 0 (lo_offset options).
Proof. intros [_ Ho]. by destruct (lo_offset options). Qed.

Lemma default_limit options : listing_ok options -> lo_limit options <> Some 0 -> 0 < default U64_MAX (lo_limit options).
Proof. intros [Hl _] Hne. destruct (lo_limit options) as [n|]; cbn in *; [|unfold U64_MAX; lia]. assert (n <> 0) by congruence. lia. Qed.

(** One list of objects, filtered and paged. *)
Lemma scan_page os keep options :
  Forall (object_wt vector_ok) os -> zlen (List.filter keep os) <= U64_MAX -> listing_ok options -> lo_limit options <> Some 0 ->
  scan_objects raw_codec keep (default 0 (lo_offset options)) (default U64_MAX (lo_limit options)) 0 [] (object_pair <$> os)
  = Ok (let l := List.filter keep os in
        let l := match lo_offset options with Some n => drop (Z.to_nat n) l | None => l end in
        match lo_limit options with Some n => take (Z.to_nat n) l | None => l end).
Proof.
  intros Hos Hsize Hopt Hne. pose proof (default_offset _ Hopt). pose proof (default_limit _ Hopt Hne).
  rewrite scan_objects_spec; [|done|lia|done|done]. cbn [app]. rewrite !Z.sub_0_r. f_equal. by apply page_bounds.
Qed.

Lemma matches_nothing filters o : length filters = 0%nat -> matches_object_filters filters o = true.
Proof. intros Hf. unfold matches_object_filters, matches_filter. by rewrite bool_decide_true. Qed.

(** The collections of a listing, with names that have no zero byte. *)
Definition collections_ok (collections : option (list string)) : Prop :=
  match collections with Some [collection] => no_nul collection | _ => True end.

Lemma list_unsorted_spec m collections options :
  objects m = O -> Z.of_nat (size O) <= U64_MAX -> collections_ok collections -> listing_ok options -> lo_sort_by options = None ->
  list_unsorted e collections options = list_objects m collections options.
Proof using Hcodec Hkv Hst.
  intros Hm Hsize Hcol Hopt Hsort. unfold list_unsorted, list_objects. rewrite Hcodec, Hsort, Hm.
  case_bool_decide as Hz; [rewrite Hz; by destruct (lo_offset options); rewrite take_0|].
  assert (Hgen : scan_objects raw_codec (fun o => in_collections collections o && matches_object_filters (lo_filter options) o)
    (default 0 (lo_offset options)) (default U64_MAX (lo_limit options)) 0 [] (kv_iter (pe_db e) "objects")
    = Ok (let l := List.filter (matches_filter (lo_filter options)) (List.filter (in_collections collections) (btree_values O)) in
          let l := match lo_offset options with Some n => drop (Z.to_nat n) l | None => l end in
          match lo_limit options with Some n => take (Z.to_nat n) l | None => l end)).
  { rewrite objects_iter, scan_page; [|apply objects_typed|by apply kept_size|done|done]. f_equal. cbv zeta.
    rewrite <-filter_andb. by rewrite (filter_ext _ (fun o => matches_filter (lo_filter options) o && in_collections collections o)) by (intros; apply andb_comm). }
  destruct collections as [[|collection [|x l]]|]; [exact Hgen| |exact Hgen|exact Hgen].
  clear Hgen. cbn [collections_ok] in Hcol.
  assert (Htyped : Forall (object_wt vector_ok) (List.filter (in_collections (Some [collection])) (btree_values O))).
  { eapply sublist_all; [apply filter_sublist|apply objects_typed]. }
  case_bool_decide as Hf; cbn [andb].
  2: { rewrite collection_entries, scan_page; [done|done| |done|done|done].
       rewrite <-filter_andb. by apply kept_size. }
  rewrite (filter_all (matches_filter (lo_filter options))) by (intros o _; by apply matches_nothing).
  destruct (bool_decide (is_Some (lo_offset options)) || bool_decide (is_Some (lo_limit options))) eqn:Hp.
  - pose proof (default_offset _ Hopt). pose proof (default_limit _ Hopt Hz).
    rewrite prefix_page_entries by (done || apply object_keyspaces_valid || lia).
    rewrite <-(kv_prefix_entries (pe_db e) "objects") by (done || apply object_keyspaces_valid). rewrite collection_entries by done.
    cbn [storage_error]. run. rewrite <-fmap_drop, <-fmap_take, read_objects_pairs; [|by apply Forall_take, Forall_drop].
    f_equal. apply page_bounds. by apply kept_size.
  - rewrite collection_entries, scan_page; [|done| |done|done|done].
    + by rewrite (filter_all (matches_object_filters (lo_filter options))) by (intros o _; by apply matches_nothing).
    + rewrite <-filter_andb. by apply kept_size.
Qed.

Lemma listing_agrees m collections options :
  objects m = O -> Z.of_nat (size O) <= U64_MAX -> collections_ok collections -> listing_ok options ->
  pe_list_objects e collections options = list_objects m collections options.
Proof using Hcodec Hkv Hst.
  intros Hm Hsize Hcol Hopt. unfold pe_list_objects. destruct (lo_sort_by options) as [sort|] eqn:Hsort; [|by apply list_unsorted_spec].
  unfold list_sorted, list_objects. rewrite Hcodec, Hsort, Hm. cbv zeta.
  assert (Hone : forall c, no_nul c -> read_objects raw_codec (kv_prefix (pe_db e) "objects" (make_object_prefix raw_codec c))
    = Ok (List.filter (in_collections (Some [c])) (btree_values O))).
  { intros c Hc. rewrite collection_entries by done. apply read_objects_pairs. eapply sublist_all; [apply filter_sublist|apply objects_typed]. }
  assert (Hall : read_objects raw_codec (kv_iter (pe_db e) "objects") = Ok (btree_values O)).
  { rewrite objects_iter. apply read_objects_pairs, objects_typed. }
  assert (Hf : forall os, (if bool_decide (length (lo_filter options) = 0%nat) then os else List.filter (matches_object_filters (lo_filter options)) os)
    = List.filter (matches_filter (lo_filter options)) os).
  { intros os. case_bool_decide; [|done]. symmetry. apply filter_all. intros o _. by apply matches_nothing. }
  destruct collections as [[|collection [|x l]]|]; rewrite ?Hone, ?Hall by done; run; rewrite Hf; try done.
  by rewrite (filter_all (in_collections None)).
Qed.

(** ** Single objects and counts *)

Lemma lookup_object (k : ObjectKey) :
  no_nul k.1 -> kv_view (pe_db e) "objects" !! (str_bytes k.1 ++ 0 :: str_bytes k.2) = json_text <$> O !! k.
Proof using Hst.
  intros Hn. destruct (O !! k) as [o|] eqn:Ho.
  - apply (os_objects _ _ _ Hst). exists k, o. split; [done|]. destruct (os_object_ok _ _ _ Hst _ _ Ho) as [Hk _ _].
    unfold object_entry, object_pair. by rewrite object_key_raw, Hk.
  - destruct (kv_view (pe_db e) "objects" !! (str_bytes k.1 ++ 0 :: str_bytes k.2)) as [v|] eqn:Hv; [|reflexivity]. apply (os_objects _ _ _ Hst) in Hv as (k'&o&Ho'&Hent).
    destruct (os_object_ok _ _ _ Hst _ _ Ho') as [Hk _ Hn']. assert (Heq : object_key raw_codec o = str_bytes k.1 ++ 0 :: str_bytes k.2).
    { unfold object_entry, object_pair in Hent. congruence. }
    rewrite object_key_raw, Hk in Heq. apply pair_key_inj in Heq; [|done..]. destruct k, k'. cbn in *. congruence.
Qed.

Lemma read_object (k : ObjectKey) :
  no_nul k.1 -> read_object_at_key e (make_object_key raw_codec k.1 k.2) = Ok (O !! k).
Proof using Hcodec Hkv Hst.
  intros Hn. unfold read_object_at_key. rewrite kv_get_view by (done || apply object_keyspaces_valid). cbn [storage_error]. run.
  change (make_object_key raw_codec k.1 k.2) with (str_bytes k.1 ++ 0 :: str_bytes k.2). rewrite lookup_object by done.
  destruct (O !! k) as [o|] eqn:Ho; [|done]. cbn [fmap option_fmap option_map]. rewrite Hcodec, deserialize_raw; [done|].
  by destruct (os_object_ok _ _ _ Hst _ _ Ho).
Qed.

Lemma read_metadata (k : ObjectKey) :
  no_nul k.1 -> read_object_write_metadata_at_key e (make_object_key raw_codec k.1 k.2) = Ok (write_metadata <$> O !! k).
Proof using Hcodec Hkv Hst.
  intros Hn. unfold read_object_write_metadata_at_key. rewrite kv_get_view by (done || apply object_keyspaces_valid). cbn [storage_error]. run.
  change (make_object_key raw_codec k.1 k.2) with (str_bytes k.1 ++ 0 :: str_bytes k.2). rewrite lookup_object by done.
  destruct (O !! k) as [o|] eqn:Ho; [|done]. cbn [fmap option_fmap option_map]. rewrite Hcodec. cbn [decode_value raw_codec]. run.
  rewrite metadata_of_object; [done|]. by destruct (os_object_ok _ _ _ Hst _ _ Ho).
Qed.

Lemma count_objects_spec m : objects m = O -> pe_count_objects e = count_objects m.
Proof using Hcodec Hkv Hst.
  intros Hm. unfold pe_count_objects, kv_count, count_objects. rewrite kv_count_view by (done || apply object_keyspaces_valid).
  cbn [storage_error]. f_equal. fold (prefix_entries [] (kv_view (pe_db e) "objects")).
  rewrite prefix_entries_nil, <-kv_iter_entries by (done || apply object_keyspaces_valid).
  rewrite objects_iter, length_fmap. unfold btree_values. by rewrite length_fmap, length_btree_iter, Hm.
Qed.

Lemma count_collection_spec m collection :
  objects m = O -> no_nul collection -> pe_count_objects_in_collection e collection = count_objects_in_collection m collection.
Proof using Hcodec Hkv Hst.
  intros Hm Hc. unfold pe_count_objects_in_collection, count_prefix, count_objects_in_collection.
  rewrite kv_count_view by (done || apply object_keyspaces_valid). cbn [storage_error]. f_equal. rewrite Hcodec.
  fold (prefix_entries (make_object_prefix raw_codec collection) (kv_view (pe_db e) "objects")).
  fold (entries_of (pe_db e) "objects" (make_object_prefix raw_codec collection)).
  rewrite <-(kv_prefix_entries (pe_db e) "objects") by (done || apply object_keyspaces_valid).
  rewrite collection_entries, length_fmap, Hm by done. unfold btree_keys, btree_values. rewrite !filter_fmap, !length_fmap.
  do 2 f_equal. apply filter_ext_in. intros [k o] Ho%elem_of_btree_iter. cbn [fst snd].
  destruct (os_object_ok _ _ _ Hst _ _ Ho) as [Hk _ _]. cbn. rewrite orb_false_r, Hk. by apply bool_decide_ext.
Qed.

Lemma push_sorted (x : string) l : forall before,
  Forall (fun y => y ≺ x) before -> StronglySorted (fun a b => key_cmp a b <> Gt) (x :: l) ->
  foldl (fun cs y => if bool_decide (y ∈ cs) then cs else cs ++ [y]) (before ++ [x]) l = before ++ dedup (x :: l).
Proof.
  revert x. induction l as [|y l IH]; intros x before Hb Hs; [done|]. cbn [foldl]. apply StronglySorted_inv in Hs as [Hs Hall].
  apply Forall_cons in Hall as [Hxy Hall]. cbn [dedup]. case_bool_decide as Hin.
  - assert (y = x) as ->.
    { apply elem_of_app in Hin as [Hin|Hin%list_elem_of_singleton]; [|done]. rewrite Forall_forall in Hb. specialize (Hb _ Hin).
      unfold key_lt in Hb. by rewrite key_cmp_antisym, Hb in Hxy. }
    rewrite bool_decide_true by done. by apply IH.
  - rewrite not_elem_of_app, not_elem_of_cons in Hin. destruct Hin as (_&Hne&_). rewrite bool_decide_false by congruence.
    rewrite (IH y (before ++ [x])); [by rewrite <-app_assoc| |done]. assert (Hlt : x ≺ y).
    { destruct (key_lt_total x y) as [?|[?|Hyx]]; [done|congruence|]. unfold key_lt in Hyx. by rewrite key_cmp_antisym, Hyx in Hxy. }
    apply Forall_app. split; [|by apply Forall_singleton]. eapply Forall_impl; [exact Hb|]. cbn. intros z Hz. by eapply key_lt_trans.
Qed.

Lemma collections_sorted : StronglySorted (fun a b => key_cmp a b <> Gt) (btree_keys O).*1.
Proof.
  pose proof (btree_keys_sorted O) as Hs. induction Hs as [|k l _ IH Hall]; [constructor|]. rewrite fmap_cons. constructor; [done|].
  apply Forall_forall. intros c (k'&->&Hk)%list_elem_of_fmap. rewrite Forall_forall in Hall. specialize (Hall _ Hk).
  destruct k as [a b], k' as [a' b']. apply prod_lt in Hall as [Hlt|[-> _]]; cbn [fst].
  - unfold key_lt in Hlt. by rewrite Hlt.
  - assert (Hr : key_cmp a' a' = Eq) by by apply key_cmp_eq. by rewrite Hr.
Qed.

Lemma list_collections_spec m : objects m = O -> pe_list_collections e = list_collections m.
Proof using Hcodec Hkv Hst.
  intros Hm. unfold pe_list_collections, list_collections. rewrite Hcodec, objects_iter, read_objects_pairs by apply objects_typed. run.
  f_equal. rewrite Hm. unfold sort_strings. rewrite sort_by_id by apply collections_sorted.
  assert (Hfold : forall l acc, Forall (fun p => ob_key p.2 = p.1) l -> foldl push_collection acc l.*2
    = foldl (fun cs y => if bool_decide (y ∈ cs) then cs else cs ++ [y]) acc l.*1.*1).
  { induction l as [|[k o] l IH]; intros acc Hl; [done|]. apply Forall_cons in Hl as [Hk Hl]. cbn [fst snd] in Hk. rewrite !fmap_cons. cbn [foldl fst snd].
    rewrite IH by done. f_equal. unfold push_collection. by rewrite Hk. }
  unfold btree_values. rewrite Hfold.
  - pose proof collections_sorted as Hs. unfold btree_keys in *. destruct (btree_iter O).*1.*1 as [|x l]; [done|]. cbn [foldl].
    rewrite bool_decide_false by (by apply not_elem_of_nil). by apply (push_sorted x l []).
  - apply Forall_forall. intros [k o] Ho%elem_of_btree_iter. by destruct (os_object_ok _ _ _ Hst _ _ Ho).
Qed.
End reading.
End spec.
