(* ===== verification/PObjectCache.v ===== *)
(** * thingd: the cache of unique values

    The engine keeps, for each value of a uniquely indexed field, the key of the object
    that has it.  [cache_exact] says that the cache holds exactly the values of the
    objects; puts and deletes keep it exact, and a cache built from the store is exact
    unless it is marked incomplete. *)

From S2P Require Import Prelude Wal Table Layer Database ThingDb Keyspace RamScan Model Objects Storage Persistent PSample PStore PQueue PObjects PObjectSpec.
From Stdlib Require Import SpecFloat.

Section cache.
Context `{SerdeJson}.
Implicit Types (o : MemoryObject) (O : ObjectMap) (ix : IndexDefinition) (us : list IndexDefinition) (cache : UniqueCache) (t : string * string * string).

Definition ix_key ix : string * string := (ix_collection ix, ix_field ix).

(** The text of an object under an index is that of its indexed value. *)
Lemma cached_value o ix : cached_under o ix = index_cache_key ix <$> index_value o ix.
Proof.
  unfold cached_under, index_value, body_field, present_field. destruct (from_str (ob_body o)) as [body|]; [|done]. cbn [mbind option_bind].
  destruct (value_get body (ix_field ix)) as [v|]; [|done]. cbn [mbind option_bind]. by destruct (is_null v).
Qed.

Lemma cached_key o ix t : cached_under o ix = Some t -> ix_key ix = t.1.
Proof. rewrite cached_value. destruct (index_value o ix); [|done]. by intros [= <-]. Qed.

Lemma cached_body o o' ix : ob_body o = ob_body o' -> cached_under o ix = cached_under o' ix.
Proof. unfold cached_under. by intros ->. Qed.

(** An index key of [us] belongs to one index. *)
Lemma ix_key_inj us ix ix' : NoDup (ix_key <$> us) -> ix ∈ us -> ix' ∈ us -> ix_key ix = ix_key ix' -> ix = ix'.
Proof.
  intros Hnd (i&Hi)%list_elem_of_lookup (j&Hj)%list_elem_of_lookup Heq.
  assert (i = j) as <-; [|congruence]. eapply NoDup_lookup; [exact Hnd|by rewrite list_lookup_fmap, Hi|by rewrite list_lookup_fmap, Hj, Heq].
Qed.

Definition cache_exact us O cache : Prop := forall t k,
  cache !! t = Some k <-> exists ix o, ix ∈ us /\ O !! k = Some o /\ k.1 = ix_collection ix /\ cached_under o ix = Some t.

(** ** Updates, one index at a time *)

Lemma fold_lookup (f : UniqueCache -> IndexDefinition -> UniqueCache) (g : IndexDefinition -> option ObjectKey -> option ObjectKey) t :
  (forall cache ix, f cache ix !! t = g ix (cache !! t)) ->
  forall us cache, foldl f cache us !! t = foldl (fun v ix => g ix v) (cache !! t) us.
Proof. intros Hf us. induction us as [|ix us IH]; intros cache; [done|]. cbn [foldl]. by rewrite IH, Hf. Qed.

(** A text is touched by the index it names, if that is among those updated. *)
Lemma fold_local (g : IndexDefinition -> option ObjectKey -> option ObjectKey) t us : forall v,
  NoDup (ix_key <$> us) -> (forall ix v, ix_key ix <> t.1 -> g ix v = v) ->
  (exists ix, ix ∈ us /\ ix_key ix = t.1 /\ foldl (fun v ix => g ix v) v us = g ix v) \/
  ((forall ix, ix ∈ us -> ix_key ix <> t.1) /\ foldl (fun v ix => g ix v) v us = v).
Proof.
  induction us as [|ix us IH]; intros v Hnd Hloc; [right; split; [|done]; by intros ? ?%elem_of_nil|].
  rewrite fmap_cons in Hnd. apply NoDup_cons in Hnd as [Hx Hnd]. cbn [foldl]. destruct (decide (ix_key ix = t.1)) as [Heq|Hne].
  - left. exists ix. split_and!; [by left|done|]. destruct (IH (g ix v) Hnd Hloc) as [(ix'&Hin&Heq'&_)|[_ ->]]; [|done].
    destruct Hx. rewrite Heq, <-Heq'. by apply list_elem_of_fmap_2.
  - rewrite Hloc by done. destruct (IH v Hnd Hloc) as [(ix'&Hin&Heq'&->)|[Hall ->]].
    + left. exists ix'. split_and!; [by right|done..].
    + right. split; [|done]. intros ix' [->|Hin]%elem_of_cons; [done|by apply Hall].
Qed.

Lemma filtered_indexes us collection : NoDup (ix_key <$> us) -> NoDup (ix_key <$> List.filter (in_collection collection) us).
Proof. intros Hnd. eapply sublist_NoDup; [exact Hnd|]. apply fmap_sublist, filter_sublist. Qed.

Lemma in_collection_elem us collection ix : ix ∈ List.filter (in_collection collection) us <-> ix ∈ us /\ ix_collection ix = collection.
Proof. rewrite elem_of_filter_bool. unfold in_collection. by rewrite bool_decide_eq_true. Qed.

Definition replaced_value o (previous : option MemoryObject) t ix (v : option ObjectKey) : option ObjectKey :=
  if bool_decide (cached_under o ix = Some t) then Some (ob_key o)
  else if bool_decide ((previous ≫= fun previous => cached_under previous ix) = Some t) then None else v.

Lemma replace_cached_lookup o previous cache ix t : replace_cached o previous cache ix !! t = replaced_value o previous t ix (cache !! t).
Proof.
  unfold replace_cached, replaced_value. destruct (cached_under o ix) as [n|].
  - destruct (decide (n = t)) as [->|Hne]; [by rewrite lookup_insert_eq, bool_decide_true|].
    rewrite lookup_insert_ne, (bool_decide_false (Some n = Some t)) by congruence.
    destruct (previous ≫= _) as [p|]; [|done]. destruct (decide (p = t)) as [->|Hp]; [by rewrite lookup_delete_eq, bool_decide_true|].
    by rewrite lookup_delete_ne, bool_decide_false by congruence.
  - rewrite (bool_decide_false (None = Some t)) by done. destruct (previous ≫= _) as [p|]; [|done].
    destruct (decide (p = t)) as [->|Hp]; [by rewrite lookup_delete_eq, bool_decide_true|].
    by rewrite lookup_delete_ne, bool_decide_false by congruence.
Qed.

Lemma replaced_value_local o previous t ix v : ix_key ix <> t.1 -> replaced_value o previous t ix v = v.
Proof.
  intros Hne. unfold replaced_value. rewrite bool_decide_false by (by intros ?%cached_key). rewrite bool_decide_false; [done|].
  destruct previous as [p|]; cbn [mbind option_bind]; [by intros ?%cached_key|done].
Qed.

(** A put that takes no value of another object. *)
Lemma cache_put us O cache o :
  NoDup (ix_key <$> us) -> cache_exact us O cache ->
  (forall ix t k, ix ∈ us -> ix_collection ix = (ob_key o).1 -> cached_under o ix = Some t -> cache !! t = Some k -> k = ob_key o) ->
  cache_exact us (<[ob_key o := o]> O)
    (foldl (replace_cached o (O !! ob_key o)) cache (List.filter (in_collection (ob_key o).1) us)).
Proof.
  intros Hnd Hex Hfree t k. rewrite (fold_lookup _ _ t (fun cache ix => replace_cached_lookup o (O !! ob_key o) cache ix t)).
  destruct (fold_local (replaced_value o (O !! ob_key o) t) t _ (cache !! t) (filtered_indexes us (ob_key o).1 Hnd)
    (replaced_value_local o (O !! ob_key o) t)) as [(ix&[Hix Hc]%in_collection_elem&Hk&->)|[Hnone ->]].
  - assert (Hone : forall ix' o', ix' ∈ us -> cached_under o' ix' = Some t -> ix' = ix).
    { intros ix' o' Hin Ht. apply (ix_key_inj us); [done..|]. by rewrite (cached_key _ _ _ Ht), Hk. }
    unfold replaced_value. destruct (decide (cached_under o ix = Some t)) as [Ho|Ho]; [rewrite bool_decide_true by done|rewrite bool_decide_false by done].
    { split.
      - intros [= <-]. exists ix, o. by rewrite lookup_insert_eq.
      - intros (ix'&o'&Hin&Hl&Hc'&Ht). apply lookup_insert_Some in Hl as [[-> _]|[Hne Hl]]; [done|].
        assert (Hck : cache !! t = Some k) by (apply Hex; eauto 8). by rewrite (Hfree ix t k Hix Hc Ho Hck). }
    case_bool_decide as Hp.
    + split; [done|]. intros (ix'&o'&Hin&Hl&Hc'&Ht). pose proof (Hone _ _ Hin Ht) as ->.
      apply lookup_insert_Some in Hl as [[_ <-]|[Hne Hl]]; [done|]. destruct (O !! ob_key o) as [p|] eqn:Hprev; [|done].
      assert (cache !! t = Some k) by (apply Hex; eauto 8). assert (cache !! t = Some (ob_key o)) by (apply Hex; eauto 8). congruence.
    + rewrite (Hex t k). split.
      * intros (ix'&o'&Hin&Hl&Hc'&Ht). exists ix', o'. split_and!; [done| |done..]. pose proof (Hone _ _ Hin Ht) as ->.
        rewrite lookup_insert_ne; [done|]. intros <-. destruct Hp. by rewrite Hl.
      * intros (ix'&o'&Hin&Hl&Hc'&Ht). exists ix', o'. split_and!; [done| |done..]. pose proof (Hone _ _ Hin Ht) as ->.
        apply lookup_insert_Some in Hl as [[_ <-]|[_ Hl]]; done.
  - rewrite (Hex t k). assert (Hother : forall ix o', ix ∈ us -> cached_under o' ix = Some t -> ix_collection ix <> (ob_key o).1).
    { intros ix o' Hin Ht Hc. apply (Hnone ix); [by apply in_collection_elem|by eapply cached_key]. }
    split; intros (ix&o'&Hin&Hl&Hc&Ht); exists ix, o'; specialize (Hother _ _ Hin Ht); (split_and!; [done| |done..]);
      [rewrite lookup_insert_ne; [done|congruence]|]. apply lookup_insert_Some in Hl as [[<- _]|[_ Hl]]; [congruence|done].
Qed.

Lemma cache_rewrite us O cache o o' :
  O !! ob_key o = Some o' -> ob_body o' = ob_body o -> cache_exact us O cache -> cache_exact us (<[ob_key o := o]> O) cache.
Proof.
  intros Ho Hb Hex t k. rewrite (Hex t k). destruct (decide (k = ob_key o)) as [->|Hne]; [|by setoid_rewrite lookup_insert_ne; [|congruence..]].
  setoid_rewrite Ho. setoid_rewrite lookup_insert_eq.
  split; intros (ix&x&Hin&[= <-]&Hc&Ht); eexists ix, _; (split_and!; [done..|]); [by rewrite <-(cached_body o' o)|by rewrite (cached_body o' o)].
Qed.

(** ** Deletes *)

Definition dropped_value o t ix (v : option ObjectKey) : option ObjectKey := if bool_decide (cached_under o ix = Some t) then None else v.

Lemma drop_cached_lookup o cache ix t : drop_cached o cache ix !! t = dropped_value o t ix (cache !! t).
Proof.
  unfold drop_cached, dropped_value. destruct (cached_under o ix) as [n|]; [|done].
  destruct (decide (n = t)) as [->|Hne]; [by rewrite lookup_delete_eq, bool_decide_true|].
  by rewrite lookup_delete_ne, bool_decide_false by congruence.
Qed.

Lemma dropped_value_local o t ix v : ix_key ix <> t.1 -> dropped_value o t ix v = v.
Proof. intros Hne. unfold dropped_value. by rewrite bool_decide_false by (by intros ?%cached_key). Qed.

(** Dropping the texts of an object that no other object has, whether or not it is still there. *)
Lemma cache_delete us O cache o :
  NoDup (ix_key <$> us) -> cache_exact us O cache -> (forall o', O !! ob_key o = Some o' -> o' = o) ->
  (forall ix k o' t, ix ∈ us -> O !! k = Some o' -> k.1 = ix_collection ix -> cached_under o' ix = Some t ->
     ix_collection ix = (ob_key o).1 -> cached_under o ix = Some t -> k = ob_key o) ->
  cache_exact us (delete (ob_key o) O) (foldl (drop_cached o) cache (List.filter (in_collection (ob_key o).1) us)).
Proof.
  intros Hnd Hex Ho Halone t k. rewrite (fold_lookup _ _ t (fun cache ix => drop_cached_lookup o cache ix t)).
  destruct (fold_local (dropped_value o t) t _ (cache !! t) (filtered_indexes us (ob_key o).1 Hnd)
    (dropped_value_local o t)) as [(ix&[Hix Hc]%in_collection_elem&Hk&->)|[Hnone ->]].
  - assert (Hone : forall ix' o', ix' ∈ us -> cached_under o' ix' = Some t -> ix' = ix).
    { intros ix' o' Hin Ht. apply (ix_key_inj us); [done..|]. by rewrite (cached_key _ _ _ Ht), Hk. }
    unfold dropped_value. case_bool_decide as Hp.
    + split; [done|]. intros (ix'&o'&Hin&Hl&Hc'&Ht). apply lookup_delete_Some in Hl as [Hne Hl].
      pose proof (Hone _ _ Hin Ht) as ->. destruct Hne. by rewrite (Halone ix k o' t).
    + rewrite (Hex t k). split; intros (ix'&o'&Hin&Hl&Hc'&Ht); exists ix', o'; pose proof (Hone _ _ Hin Ht) as ->; (split_and!; [done| |done..]).
      * rewrite lookup_delete_ne; [done|]. intros <-. destruct Hp. by rewrite <-(Ho _ Hl).
      * by apply lookup_delete_Some in Hl as [_ ?].
  - rewrite (Hex t k). split; intros (ix&o'&Hin&Hl&Hc&Ht); exists ix, o'; (split_and!; [done| |done..]).
    + rewrite lookup_delete_ne; [done|]. intros <-. apply (Hnone ix); [by apply in_collection_elem|by eapply cached_key].
    + by apply lookup_delete_Some in Hl as [_ ?].
Qed.

(** ** Building *)

Lemma cache_indexes (key : ObjectKey) (body : Value number) us : forall acc,
  NoDup (ix_key <$> us) -> (foldl (cache_index key body) acc us).2 = true ->
  acc.2 = true /\
  (forall ix t, ix ∈ us -> index_cache_key ix <$> present_field body (ix_field ix) = Some t ->
     (foldl (cache_index key body) acc us).1 !! t = Some key /\ acc.1 !! t = None) /\
  (forall t, (forall ix, ix ∈ us -> index_cache_key ix <$> present_field body (ix_field ix) <> Some t) ->
     (foldl (cache_index key body) acc us).1 !! t = acc.1 !! t).
Proof.
  induction us as [|ix us IH]; intros acc Hnd Hflag; [split_and!; [done| |done]; by intros ?? ?%elem_of_nil|].
  rewrite fmap_cons in Hnd. apply NoDup_cons in Hnd as [Hx Hnd]. cbn [foldl] in *. destruct (IH _ Hnd Hflag) as (Hacc&Hin&Hout).
  assert (Hkey : forall ix t, index_cache_key ix <$> present_field body (ix_field ix) = Some t -> ix_key ix = t.1).
  { intros ix' t. destruct (present_field body (ix_field ix')); [|done]. by intros [= <-]. }
  assert (Hstep : acc.2 = true /\ forall t, (index_cache_key ix <$> present_field body (ix_field ix) = Some t ->
      (cache_index key body acc ix).1 !! t = Some key /\ acc.1 !! t = None) /\
    (index_cache_key ix <$> present_field body (ix_field ix) <> Some t -> (cache_index key body acc ix).1 !! t = acc.1 !! t)).
  { clear IH Hin Hout Hflag. unfold cache_index in *. destruct (present_field body (ix_field ix)) as [v|]; cbn [fmap option_fmap option_map fst snd] in *.
    - apply andb_true_iff in Hacc as [Hacc Hn]. apply negb_true_iff, bool_decide_eq_false in Hn. split; [done|]. intros t. split.
      + intros [= <-]. rewrite lookup_insert_eq. split; [done|]. by apply eq_None_not_Some.
      + intros Hne. by rewrite lookup_insert_ne by congruence.
    - split; [done|]. by intros t. }
  destruct Hstep as [Hacc1 Hstep]. split_and!; [done| |].
  - intros ix' t [->|Hin']%elem_of_cons Ht.
    + destruct (proj1 (Hstep t) Ht) as [Hs1 Hs2]. split; [|done]. rewrite Hout; [done|]. intros ix2 Hin2 Ht2. destruct Hx.
      rewrite (Hkey _ _ Ht), <-(Hkey _ _ Ht2). by apply list_elem_of_fmap_2.
    + destruct (Hin _ _ Hin' Ht) as [Hr Hn]. split; [done|]. destruct (decide (index_cache_key ix <$> present_field body (ix_field ix) = Some t)) as [Heq|Hne].
      * by destruct (proj1 (Hstep t) Heq).
      * by rewrite <-(proj2 (Hstep t) Hne).
  - intros t Hnone. rewrite Hout by (intros; apply Hnone; by right). apply Hstep, Hnone. by left.
Qed.

Definition list_exact us (os : list MemoryObject) cache : Prop := forall t k,
  cache !! t = Some k <-> exists ix o, ix ∈ us /\ o ∈ os /\ ob_key o = k /\ k.1 = ix_collection ix /\ cached_under o ix = Some t.

Lemma cache_object_exact us os acc o :
  NoDup (ix_key <$> us) -> (acc.2 = true -> list_exact us os acc.1) -> (cache_object us acc o).2 = true ->
  list_exact us (os ++ [o]) (cache_object us acc o).1.
Proof.
  intros Hnd Hex Hflag t k. unfold cache_object in *. destruct (from_str (ob_body o)) as [body|] eqn:Hb; [|done].
  assert (Hcu : forall ix, cached_under o ix = index_cache_key ix <$> present_field body (ix_field ix)) by (intros ix; unfold cached_under; by rewrite Hb).
  destruct (cache_indexes _ _ _ _ (filtered_indexes us (ob_key o).1 Hnd) Hflag) as (Hacc&Hin&Hout). specialize (Hex Hacc).
  assert (Hsplit : (exists ix o', ix ∈ us /\ o' ∈ os ++ [o] /\ ob_key o' = k /\ k.1 = ix_collection ix /\ cached_under o' ix = Some t) <->
    acc.1 !! t = Some k \/ (k = ob_key o /\ exists ix, ix ∈ List.filter (in_collection (ob_key o).1) us /\ cached_under o ix = Some t)).
  { rewrite (Hex t k). setoid_rewrite elem_of_app. setoid_rewrite list_elem_of_singleton. setoid_rewrite in_collection_elem. split.
    - intros (ix&o'&Hix&[Hl| ->]&Hk&Hc&Ht); [left; eauto 8|right]. split; [done|]. exists ix. by rewrite Hk.
    - intros [(ix&o'&Hix&Hl&Hk&Hc&Ht)|(->&ix&[Hix Hc]&Ht)]; [exists ix, o'; by split_and!; [|left|..]|]. exists ix, o. by split_and!; [|right|..]. }
  rewrite Hsplit. destruct (decide (Exists (fun ix => cached_under o ix = Some t) (List.filter (in_collection (ob_key o).1) us))) as [(ix&Hix&Ht)%Exists_exists|Hno].
  - destruct (Hin ix t Hix) as [-> ->]; [by rewrite <-Hcu|]. naive_solver.
  - rewrite Exists_exists in Hno. rewrite Hout; [naive_solver|]. intros ix Hix Ht. apply Hno. exists ix. by rewrite Hcu.
Qed.

Lemma cache_objects_exact us os : forall before acc,
  NoDup (ix_key <$> us) -> (acc.2 = true -> list_exact us before acc.1) -> (foldl (cache_object us) acc os).2 = true ->
  list_exact us (before ++ os) (foldl (cache_object us) acc os).1.
Proof.
  induction os as [|o os IH]; intros before acc Hnd Hex Hflag; [rewrite app_nil_r; by apply Hex|]. cbn [foldl] in *.
  rewrite cons_middle, app_assoc. apply IH; [done| |done]. by apply cache_object_exact.
Qed.
End cache.
