(* ===== verification/PObjectPut.v ===== *)
(** * thingd: writing objects

    [object_sim] relates the persistent engine to an in-memory one with the same objects and
    indexes.  The check of unique indexes through the cache gives the verdict of the
    in-memory engine's scan; a put stores what [put_spec] says, and a delete is that of the
    in-memory engine. *)

From S2P Require Import Prelude Wal Table Layer Database ThingDb Keyspace RamScan Model Objects Storage Persistent PSample PStore PQueue PObjects PObjectSpec PObjectCache.
From Stdlib Require Import SpecFloat.

Lemma fold_res_skip {E A} (f : A -> result E unit) (p : A -> bool) l :
  (forall x, x ∈ l -> p x = false -> f x = Ok ()) -> fold_res (fun _ x => f x) () l = fold_res (fun _ x => f x) () (List.filter p l).
Proof.
  induction l as [|x l IH]; intros Hskip; [done|]. assert (Htail : forall y, y ∈ l -> p y = false -> f y = Ok ()) by (intros; apply Hskip; [by right|done]).
  cbn [List.filter]. destruct (p x) eqn:Hp; cbn [fold_res].
  - destruct (f x) as [[]|]; [|done]. rewrite !bind_Ok. by apply IH.
  - rewrite Hskip, bind_Ok by (done || by left). by apply IH.
Qed.

Lemma fold_res_ext {E A} (f g : A -> result E unit) l :
  (forall x, x ∈ l -> f x = g x) -> fold_res (fun _ x => f x) () l = fold_res (fun _ x => g x) () l.
Proof.
  induction l as [|x l IH]; intros Heq; [done|]. cbn [fold_res]. rewrite Heq by (by left). destruct (g x) as [[]|]; [|done].
  rewrite !bind_Ok. apply IH. intros; apply Heq; by right.
Qed.

Lemma in_one collection o : in_collections (Some [collection]) o = bool_decide (collection = (ob_key o).1).
Proof. apply orb_false_r. Qed.

(** Values that occur in a parsed body, and the law of [serde_json] the cache relies on:
    different values are written differently. *)
Definition parsed_value `{SerdeJson} (v : Value number) : Prop :=
  exists (text field : string) (body : Value number), from_str text = Some body /\ value_get body field = Some v.

Class DisplayInjective `{SerdeJson} : Prop :=
  display_injective : forall v w, parsed_value v -> parsed_value w -> display_value v = display_value w -> v = w.

Lemma index_value_parsed `{SerdeJson} o ix v : index_value o ix = Some v -> parsed_value v.
Proof.
  intros [Hv _]%index_value_Some. unfold body_field in Hv. destruct (from_str (ob_body o)) as [body|] eqn:Hb; [|done]. by exists (ob_body o), (ix_field ix), body.
Qed.

Lemma cached_indexed `{SerdeJson} o ix t : cached_under o ix = Some t -> exists v, index_value o ix = Some v.
Proof. rewrite cached_value. destruct (index_value o ix); [eauto|done]. Qed.

(** Two indexed values with the same text under an index. *)
Lemma cached_text_inj `{DisplayInjective} o o' ix t v w :
  index_value o ix = Some v -> index_value o' ix = Some w -> cached_under o ix = Some t -> cached_under o' ix = Some t -> w = v.
Proof.
  intros Hv Hw. rewrite !cached_value, Hv, Hw. unfold index_cache_key, unique_cache_key. cbn. intros [= <-] [= Heq].
  apply display_injective; [by eapply index_value_parsed..|done].
Qed.

Section writes.
Context `{KvLaws D} `{SerdeJson} {vector_ok : list spec_float -> Prop}.
Context `{!Serde MemoryObject (object_wt vector_ok)} `{!ReadMetadata} `{!Serde IndexDefinition index_wt}.
Context {display_inj : DisplayInjective}.
Implicit Types (e : PersistentEngine D) (m : MemoryEngine) (o : MemoryObject) (ix : IndexDefinition) (now : string).

Definition uniques m : list IndexDefinition := List.filter ix_unique (btree_values (indexes m)).

Record object_sim e m : Prop := {
  sm_codec : pe_codec e = raw_codec;
  sm_kv : kv_ok (pe_db e);
  sm_stored : objects_stored (vector_ok := vector_ok) (kv_view (pe_db e)) (objects m) (indexes m);
  sm_memory : object_inv m;
  sm_definitions : pe_index_definitions e = btree_values (indexes m);
  sm_cache : pe_unique_index_cache_complete e = true -> cache_exact (uniques m) (objects m) (pe_unique_index_values e);
}.

Definition few_objects m : Prop := Z.of_nat (size (objects m)) <= U64_MAX.

Lemma index_keys m : object_inv m -> NoDup (ix_key <$> btree_values (indexes m)).
Proof.
  intros Hinv. assert (Heq : ix_key <$> btree_values (indexes m) = btree_keys (indexes m)).
  { unfold btree_values, btree_keys. rewrite <-list_fmap_compose. apply list_fmap_ext. intros i [k ix] Hi.
    apply list_elem_of_lookup_2, elem_of_btree_iter in Hi. cbn. symmetry. by apply Hinv. }
  rewrite Heq. apply btree_keys_NoDup.
Qed.

Lemma unique_keys m : object_inv m -> NoDup (ix_key <$> uniques m).
Proof. intros Hinv. eapply sublist_NoDup; [by apply index_keys|]. apply fmap_sublist, filter_sublist. Qed.

Lemma unique_indexes_eq e m collection : object_sim e m -> unique_indexes_of e collection = List.filter (in_collection collection) (uniques m).
Proof. intros Hsim. unfold unique_indexes_of, uniques. rewrite (sm_definitions _ _ Hsim), <-filter_andb. apply filter_ext. intros ix. apply andb_comm. Qed.

(** ** The check of unique indexes *)

Lemma duplicate_iff m o ix v : object_inv m ->
  duplicate_of m o ix v = true <->
  exists k o', objects m !! k = Some o' /\ k <> ob_key o /\ k.1 = (ob_key o).1 /\ body_field (ob_body o') (ix_field ix) = Some v.
Proof.
  intros Hinv. unfold duplicate_of. rewrite existsb_exists. setoid_rewrite <-list_elem_of_In. setoid_rewrite elem_of_btree_values.
  setoid_rewrite andb_true_iff. setoid_rewrite andb_true_iff. setoid_rewrite negb_true_iff. split.
  - intros (o'&(k&Hk)&[Hne%bool_decide_eq_false Hc%bool_decide_eq_true]&Hv). pose proof (oi_keys _ Hinv _ _ Hk) as <-.
    exists (ob_key o'), o'. split_and!; [done..|]. destruct (body_field _ _); [|done]. apply bool_decide_eq_true in Hv. congruence.
  - intros (k&o'&Hk&Hne&Hc&Hv). pose proof (oi_keys _ Hinv _ _ Hk) as <-. exists o'. split_and!; [eauto|by apply bool_decide_eq_false|by apply bool_decide_eq_true|].
    rewrite Hv. by apply bool_decide_eq_true.
Qed.

Lemma existing_bodies_spec e m o :
  object_sim e m -> few_objects m -> no_nul (ob_key o).1 -> pe_unique_index_cache_complete e = false ->
  existing_bodies e o = Ok (Some (omap parsed_body (List.filter (in_collections (Some [(ob_key o).1])) (btree_values (objects m))))).
Proof using.
  intros Hsim Hfew Hn Hc. unfold existing_bodies. rewrite Hc.
  rewrite (listing_agrees e (objects m) (indexes m) (sm_codec _ _ Hsim) (sm_kv _ _ Hsim) (sm_stored _ _ Hsim) m) by (done || by split).
  unfold list_objects, default_listing. cbn [lo_filter lo_sort_by lo_offset lo_limit fmap result_fmap].
  by rewrite (filter_all (matches_filter [])) by (intros; by apply matches_nothing).
Qed.

Lemma parsed_duplicate m o ix v :
  object_inv m ->
  existsb (fun existing : ObjectKey * Value number =>
      negb (bool_decide (existing.1 = ob_key o)) &&
      match value_get existing.2 (ix_field ix) with Some existing_value => bool_decide (existing_value = v) | None => false end)
    (omap parsed_body (List.filter (in_collections (Some [(ob_key o).1])) (btree_values (objects m))))
  = duplicate_of m o ix v.
Proof.
  intros Hinv. apply eq_bool_prop_intro. rewrite !Is_true_true, duplicate_iff, existsb_exists by done.
  setoid_rewrite <-list_elem_of_In. setoid_rewrite list_elem_of_omap. setoid_rewrite elem_of_filter_bool. setoid_rewrite in_one. setoid_rewrite elem_of_btree_values.
  setoid_rewrite andb_true_iff. setoid_rewrite negb_true_iff. unfold parsed_body, body_field. split.
  - intros ([k b]&(o'&[(k'&Hk) Hc]&Hp)&Hne%bool_decide_eq_false&Hv). destruct (from_str (ob_body o')) as [body|] eqn:Hb; [|done].
    injection Hp as <- <-. cbn [fst snd] in *. pose proof (oi_keys _ Hinv _ _ Hk) as <-. exists (ob_key o'), o'. rewrite Hb.
    apply bool_decide_eq_true in Hc. split_and!; [done..|].
    destruct (value_get body (ix_field ix)); [|done]. apply bool_decide_eq_true in Hv. congruence.
  - intros (k&o'&Hk&Hne&Hc&Hv). pose proof (oi_keys _ Hinv _ _ Hk) as <-. destruct (from_str (ob_body o')) as [body|] eqn:Hb; [|done].
    exists (ob_key o', body). cbn [fst snd]. split_and!; [|by apply bool_decide_eq_false|rewrite Hv; by apply bool_decide_eq_true].
    exists o'. rewrite Hb. split_and!; [eauto| |done]. by apply bool_decide_eq_true.
Qed.

Lemma cached_duplicate e m o ix v :
  object_sim e m -> pe_unique_index_cache_complete e = true -> ix ∈ uniques m -> ix_collection ix = (ob_key o).1 -> is_null v = false -> parsed_value v ->
  duplicate_of m o ix v = true <-> exists k, pe_unique_index_values e !! index_cache_key ix v = Some k /\ k <> ob_key o.
Proof using display_inj.
  intros Hsim Hcomp Hix Hc Hnull Hparsed. rewrite duplicate_iff by apply Hsim. pose proof (sm_cache _ _ Hsim Hcomp) as Hex.
  unfold cache_exact in Hex. setoid_rewrite Hex. split.
  - intros (k&o'&Hk&Hne&Hc'&Hv). exists k. split; [|done]. exists ix, o'. split_and!; [done..|congruence|]. rewrite cached_value.
    by rewrite (proj2 (index_value_Some o' ix v)).
  - intros (k&(ix'&o'&Hix'&Hk&Hc'&Ht)&Hne). assert (ix' = ix) as ->.
    { eapply ix_key_inj; [apply unique_keys, Hsim|done..|]. by rewrite (cached_key _ _ _ Ht). }
    exists k, o'. split_and!; [done..|congruence|]. rewrite cached_value in Ht. destruct (index_value o' ix) as [w|] eqn:Hw; [|done].
    pose proof (index_value_parsed _ _ _ Hw) as Hp. apply index_value_Some in Hw as [Hw _]. unfold index_cache_key, unique_cache_key in Ht.
    injection Ht as Ht. apply display_injective in Ht; [by subst|done..].
Qed.

Lemma check_index_agrees e m o body bodies ix :
  object_sim e m -> few_objects m -> no_nul (ob_key o).1 -> from_str (ob_body o) = Some body -> existing_bodies e o = Ok bodies ->
  ix ∈ uniques m -> ix_collection ix = (ob_key o).1 ->
  pe_check_index e o body bodies ix = check_index m o body ix.
Proof using display_inj.
  intros Hsim Hfew Hn Hbody Hb Hix Hc. unfold pe_check_index, check_index. assert (Hu : ix_unique ix = true) by (by apply elem_of_filter_bool in Hix as [_ ?]).
  rewrite Hu, bool_decide_true by done. cbn [andb]. destruct (value_get body (ix_field ix)) as [v|] eqn:Hget; [|done]. destruct (is_null v) eqn:Hv; [done|].
  assert (Hp : parsed_value v) by (by exists (ob_body o), (ix_field ix), body). destruct (pe_unique_index_cache_complete e) eqn:Hcomp.
  - pose proof (cached_duplicate e m o ix v Hsim Hcomp Hix Hc Hv Hp) as Hd. destruct (duplicate_of m o ix v).
    + destruct (proj1 Hd eq_refl) as (k&->&Hne). by rewrite bool_decide_false.
    + destruct (_ !! _) as [k|] eqn:Hk; [|done]. case_bool_decide as Heq; [done|]. exfalso. assert (false = true) by (apply Hd; eauto). done.
  - rewrite (existing_bodies_spec e m o Hsim Hfew Hn Hcomp) in Hb. injection Hb as <-. cbn [from_option id default]. by rewrite parsed_duplicate by apply Hsim.
Qed.

(** The engine refuses a body that is not JSON where the collection has a unique index. *)
Definition rejects_text m o : bool :=
  negb (bool_decide (List.filter (in_collection (ob_key o).1) (uniques m) = [])) && negb (bool_decide (is_Some (from_str (ob_body o)))).

Lemma validate_agrees e m o :
  object_sim e m -> few_objects m -> no_nul (ob_key o).1 ->
  pe_validate_unique_indexes e o = if rejects_text m o then Err invalid_json else validate_unique_indexes m o.
Proof using display_inj.
  intros Hsim Hfew Hn. unfold pe_validate_unique_indexes, rejects_text, validate_unique_indexes. rewrite (unique_indexes_eq e m) by done.
  assert (Hskip : forall body, fold_res (fun _ ix => check_index m o body ix) () (btree_values (indexes m))
    = fold_res (fun _ ix => check_index m o body ix) () (List.filter (in_collection (ob_key o).1) (uniques m))).
  { intros body. unfold uniques. rewrite <-filter_andb. apply fold_res_skip. intros ix _ Hix. unfold check_index, in_collection in *.
    rewrite andb_comm. by rewrite Hix. }
  case_bool_decide as Hnone; cbn [negb andb].
  { destruct (from_str (ob_body o)) as [body|]; [|done]. rewrite Hskip, Hnone. done. }
  destruct (from_str (ob_body o)) as [body|] eqn:Hb; cbn [ok_or].
  2: { rewrite bool_decide_false by (by intros []). done. }
  rewrite bool_decide_true by done. cbn [negb]. run.
  assert (Hbodies : exists bodies, existing_bodies e o = Ok bodies).
  { destruct (pe_unique_index_cache_complete e) eqn:Hcomp; [unfold existing_bodies; rewrite Hcomp; eauto|]. rewrite (existing_bodies_spec e m o) by done. eauto. }
  destruct Hbodies as [bodies Hbodies]. rewrite Hbodies. run. rewrite Hskip. apply fold_res_ext. intros ix [Hix Hc]%in_collection_elem.
  by apply check_index_agrees.
Qed.

(** ** Puts *)

Definition put_spec m now o : thingd_result MemoryObject * MemoryEngine :=
  if rejects_text m o then (Err invalid_json, m) else
  match validate_unique_indexes m o with
  | Err error => (Err error, m)
  | Ok _ =>
      let stored := stamp now o (write_metadata <$> objects m !! ob_key o) in
      (Ok stored, set_objects m (<[ob_key o := stored]> (objects m)) (vectors m))
  end.

(** An object that a caller may give. *)
Record object_in o : Prop := {
  in_wt : object_wt vector_ok o;
  in_nul : no_nul (ob_key o).1;
}.

Lemma stamp_wt now o (previous : option MemoryObject) :
  object_wt vector_ok o -> is_str now -> (forall p, previous = Some p -> object_wt vector_ok p) ->
  object_wt vector_ok (stamp now o (write_metadata <$> previous)).
Proof.
  intros [] Hnow Hprev. unfold stamp. split; cbn; try done.
  - destruct previous as [p|]; cbn; [unfold u64_wrapping_add|]; unfold in_u64, U64_MAX; [|lia].
    pose proof (Z.mod_pos_bound (ob_version p + 1) (18446744073709551615 + 1) ltac:(lia)). lia.
  - destruct previous as [p|]; cbn; [by destruct (Hprev p eq_refl)|]. by case_bool_decide.
Qed.

Lemma stamp_key now o previous : ob_key (stamp now o previous) = ob_key o /\ ob_body (stamp now o previous) = ob_body o.
Proof. done. Qed.

Lemma objects_stored_put (view : string -> bmap bytes) (O : ObjectMap) (X : IndexMap) o :
  objects_stored (vector_ok := vector_ok) view O X -> object_ok (vector_ok := vector_ok) (ob_key o) o ->
  objects_stored (vector_ok := vector_ok) (put_view "objects" (object_key raw_codec o) (json_text o) view) (<[ob_key o := o]> O) X.
Proof.
  intros [Hs1 Hs2 Hs3 Hs4] Ho. split; [|done| |done].
  - pose proof (indexed_update object_entry object_ok object_entry_inj _ _ (ob_key o) o Hs3 Ho Hs1) as Hu.
    unfold add_entry, drop_entry, object_entry in Hu. unfold put_view. rewrite bool_decide_true by done. cbn [object_pair] in Hu.
    destruct (O !! ob_key o) as [p|] eqn:Hp; [|exact Hu]. cbn [mbind option_bind object_pair] in Hu.
    assert (Hk : object_key raw_codec p = object_key raw_codec o) by (rewrite !object_key_raw; by rewrite (ok_key _ _ (Hs3 _ _ Hp))).
    by rewrite Hk, insert_delete_eq in Hu.
  - intros k o'. rewrite lookup_insert_Some. intros [[<- <-]|[_ ?]]; [done|by apply Hs3].
Qed.

Lemma objects_stored_delete (view : string -> bmap bytes) (O : ObjectMap) (X : IndexMap) (k : ObjectKey) :
  objects_stored (vector_ok := vector_ok) view O X -> no_nul k.1 ->
  objects_stored (vector_ok := vector_ok) (drop_view "objects" (make_object_key raw_codec k.1 k.2) view) (delete k O) X.
Proof.
  intros [Hs1 Hs2 Hs3 Hs4] Hn. split; [|done| |done].
  - pose proof (indexed_drop object_entry object_ok object_entry_inj _ _ k Hs3 Hs1) as Hd. unfold drop_entry, object_entry in Hd.
    unfold drop_view. rewrite bool_decide_true by done. destruct (O !! k) as [p|] eqn:Hp; cbn [mbind option_bind object_pair] in Hd.
    + assert (Hk : object_key raw_codec p = make_object_key raw_codec k.1 k.2) by (unfold object_key; by rewrite (ok_key _ _ (Hs3 _ _ Hp))).
      by rewrite Hk in Hd.
    + rewrite delete_id; [done|]. destruct (view "objects" !! make_object_key raw_codec k.1 k.2) as [v|] eqn:Hv; [|done].
      apply Hs1 in Hv as (k'&o&Ho&Hent). destruct (Hs3 _ _ Ho) as [Hk _ Hn'].
      assert (Heq : object_key raw_codec o = make_object_key raw_codec k.1 k.2) by (unfold object_entry, object_pair in Hent; congruence).
      rewrite object_key_raw, Hk in Heq. change (make_object_key raw_codec k.1 k.2) with (str_bytes k.1 ++ 0 :: str_bytes k.2) in Heq.
      apply pair_key_inj in Heq; [|done..]. destruct k, k'. cbn in *. congruence.
  - intros k' o' [_ ?]%lookup_delete_Some. by apply Hs3.
Qed.

Lemma objects_stored_ext (view view' : string -> bmap bytes) (O : ObjectMap) (X : IndexMap) :
  (forall n, valid_name n -> view' n = view n) -> objects_stored (vector_ok := vector_ok) view O X -> objects_stored (vector_ok := vector_ok) view' O X.
Proof. intros Hv []. destruct object_keyspaces_valid as [? ?]. split; rewrite ?Hv by done; done. Qed.

(** The engine after a refused commit. *)
Lemma sim_refused e m db : object_sim e m -> kv_ok db -> (forall n, valid_name n -> kv_view db n = kv_view (pe_db e) n) -> object_sim (set_db e db) m.
Proof. intros [] Hdb Hv. split; try done. by eapply objects_stored_ext. Qed.

Lemma has_unique_false e m : object_sim e m -> has_unique_indexes e = false -> uniques m = [].
Proof.
  intros Hsim Hu. unfold has_unique_indexes in Hu. rewrite (sm_definitions _ _ Hsim) in Hu. unfold uniques. apply filter_none.
  intros ix Hix. apply not_true_iff_false. intros Ht. apply not_true_iff_false in Hu. apply Hu, existsb_exists. exists ix.
  by rewrite <-list_elem_of_In.
Qed.

Lemma sim_read e m (k : ObjectKey) : object_sim e m -> no_nul k.1 -> read_object_at_key e (make_object_key raw_codec k.1 k.2) = Ok (objects m !! k).
Proof using. intros Hsim Hn. by eapply read_object; [apply Hsim..|]. Qed.

Definition previous_read e m o : option MemoryObject := if has_unique_indexes e then objects m !! ob_key o else None.

Lemma read_previous_spec e m o :
  object_sim e m -> no_nul (ob_key o).1 ->
  read_previous e (object_key raw_codec o) = Ok (previous_read e m o, write_metadata <$> objects m !! ob_key o).
Proof using.
  intros Hsim Hn. unfold read_previous, previous_read, object_key. destruct (has_unique_indexes e).
  - by rewrite (sim_read e m) by done.
  - erewrite read_metadata; [done|apply Hsim..|done].
Qed.

(** A validated object takes no value of another one. *)
Lemma validated_free e m o stored ix t k :
  object_sim e m -> pe_unique_index_cache_complete e = true -> validate_unique_indexes m o = Ok () -> ob_body stored = ob_body o ->
  ix ∈ uniques m -> ix_collection ix = (ob_key o).1 -> cached_under stored ix = Some t -> pe_unique_index_values e !! t = Some k -> k = ob_key o.
Proof using display_inj.
  intros Hsim Hcomp Hval Hb Hix Hc Ht Hk. apply (sm_cache _ _ Hsim Hcomp) in Hk as (ix'&o'&Hix'&Hk&Hc'&Ht'). pose proof (sm_memory _ _ Hsim) as Hinv.
  assert (ix' = ix) as ->.
  { eapply ix_key_inj; [by apply unique_keys|done..|]. by rewrite (cached_key _ _ _ Ht), (cached_key _ _ _ Ht'). }
  rewrite (cached_body stored o) in Ht by done. destruct (cached_indexed _ _ _ Ht) as [v Hv]. destruct (cached_indexed _ _ _ Ht') as [w Hw].
  pose proof (cached_text_inj o o' ix t v w Hv Hw Ht Ht') as ->.
  apply elem_of_filter_bool in Hix as [(kx&Hkx)%elem_of_btree_values Hu]. pose proof (oi_indexes _ Hinv _ _ Hkx) as ->.
  by eapply (validate_unique_ok m o ix v k o').
Qed.

Lemma put_sim e m o stored db :
  object_sim e m -> object_ok (vector_ok := vector_ok) (ob_key o) stored -> ob_body stored = ob_body o ->
  validate_unique_indexes m o = Ok () -> kv_ok db ->
  (forall n, valid_name n -> kv_view db n = put_view "objects" (object_key raw_codec stored) (json_text stored) (kv_view (pe_db e)) n) ->
  object_sim (update_unique_index_cache_for_object stored (previous_read e m o) (set_db e db))
    (set_objects m (<[ob_key o := stored]> (objects m)) (vectors m)).
Proof using display_inj.
  intros Hsim Hok Hb Hval Hdb Hview. pose proof (ok_key _ _ Hok) as Hkey.
  assert (Hinv : object_inv (set_objects m (<[ob_key o := stored]> (objects m)) (vectors m))) by (apply put_objects_inv; [apply Hsim|done..]).
  assert (Hst : objects_stored (vector_ok := vector_ok) (kv_view db) (<[ob_key o := stored]> (objects m)) (indexes m)).
  { eapply objects_stored_ext; [exact Hview|]. rewrite <-Hkey. apply objects_stored_put; [apply Hsim|by rewrite Hkey]. }
  unfold update_unique_index_cache_for_object, previous_read. change (has_unique_indexes (set_db e db)) with (has_unique_indexes e).
  cbn [pe_unique_index_cache_complete set_db]. destruct (pe_unique_index_cache_complete e) eqn:Hcomp; cbn [negb orb].
  2: { split; try done; try apply Hsim. cbn [pe_unique_index_cache_complete set_db]. by rewrite Hcomp. }
  assert (Hcache : cache_exact (uniques m) (<[ob_key o := stored]> (objects m))
    (foldl (replace_cached stored (objects m !! ob_key o)) (pe_unique_index_values e) (List.filter (in_collection (ob_key stored).1) (uniques m)))).
  { rewrite <-Hkey. apply cache_put; [apply unique_keys, Hsim|by apply Hsim|]. intros ix t k Hix Hc Ht Hk. rewrite Hkey in *.
    by eapply (validated_free e m o stored ix t k). }
  destruct (has_unique_indexes e) eqn:Hu; cbn [negb].
  - split; try done; try apply Hsim. intros _. cbn [pe_unique_index_values set_index_state].
    change (unique_indexes_of (set_db e db) (ob_key stored).1) with (unique_indexes_of e (ob_key stored).1).
    by rewrite (unique_indexes_eq e m) by done.
  - split; try done; try apply Hsim. intros _. change (cache_exact (uniques m) (<[ob_key o := stored]> (objects m)) (pe_unique_index_values e)).
    by rewrite (has_unique_false e m Hsim Hu) in Hcache |- *.
Qed.

Lemma put_object_sim e m now o r e' :
  object_sim e m -> few_objects m -> object_in o -> is_str now -> pe_put_object now o e = (r, e') ->
  (r = (put_spec m now o).1 /\ object_sim e' (put_spec m now o).2) \/ (refused (D := D) r /\ object_sim e' m).
Proof using display_inj.
  intros Hsim Hfew [Hwt Hn] Hnow. unfold pe_put_object, put_spec. rewrite pbind_pget, (sm_codec _ _ Hsim), (validate_agrees e m) by done.
  destruct (rejects_text m o); [intros [= <- <-]; by left|]. destruct (validate_unique_indexes m o) as [[]|err] eqn:Hval; [|intros [= <- <-]; by left].
  rewrite pbind_plift. cbv zeta. rewrite (read_previous_spec e m) by done. rewrite pbind_plift. cbn [fst snd].
  set (stored := stamp now o (write_metadata <$> objects m !! ob_key o)).
  assert (Hswt : object_wt vector_ok stored).
  { apply stamp_wt; [done..|]. intros p Hp. by destruct (os_object_ok _ _ _ (sm_stored _ _ Hsim) _ _ Hp). }
  rewrite serialize_raw by done. rewrite pbind_plift. unfold pbind at 1. destruct (commit _ e) as [rc ec] eqn:Hc.
  destruct (ks_insert_atomic e "objects" (object_key raw_codec o) (json_text stored) rc ec (sm_kv _ _ Hsim)
    (proj1 object_keyspaces_valid) (object_key_ok o) Hc) as (db&->&Hdb&[[-> Hview]|(err&->&Hf&Hview)]).
  - intros [= <- <-]. left. split; [done|]. cbn [snd]. by apply put_sim.
  - intros [= <- <-]. right. split; [by exists err|by apply sim_refused].
Qed.
End writes.
