(* ===== verification/PObjectWrite.v ===== *)
(** * thingd: conditional and replicated puts, deletes, and index definitions

    The other writes of objects against the in-memory engine: the puts that check the
    version or keep the metadata of a replication source, single and batch deletes, and
    creating and deleting indexes, which rebuild the cache of unique values. *)

From S2P Require Import Prelude Wal Table Layer Database ThingDb Keyspace RamScan Model Objects Storage Persistent PSample PStore PQueue PObjects PObjectSpec PObjectCache PObjectPut.
From Stdlib Require Import SpecFloat.

Section writes.
Context `{KvLaws D} `{SerdeJson} {vector_ok : list spec_float -> Prop}.
Context `{!Serde MemoryObject (object_wt vector_ok)} `{!ReadMetadata} `{!Serde IndexDefinition index_wt}.
Context {display_inj : DisplayInjective}.
Implicit Types (e : PersistentEngine D) (m : MemoryEngine) (o : MemoryObject) (ix : IndexDefinition) (now : string).

(** ** Conditional puts *)

Definition expected_spec m o (options : PutObjectOptions) : thingd_result unit :=
  match po_expected_version options with
  | None => Ok ()
  | Some expected =>
      if expected =? 0 then match objects m !! ob_key o with Some _ => Err (present_conflict o) | None => Ok () end
      else check_expected o expected (objects m !! ob_key o)
  end.

Definition put_options_spec m now o (options : PutObjectOptions) : thingd_result MemoryObject * MemoryEngine :=
  match expected_spec m o options with
  | Err err => (Err err, m)
  | Ok _ => put_spec m now o
  end.

Lemma put_options_sim e m now o options r e' :
  object_sim (vector_ok := vector_ok) e m -> few_objects m -> object_in (vector_ok := vector_ok) o -> is_str now ->
  pe_put_object_with_options now o options e = (r, e') ->
  (r = (put_options_spec m now o options).1 /\ object_sim (vector_ok := vector_ok) e' (put_options_spec m now o options).2) \/
  (refused (D := D) r /\ object_sim (vector_ok := vector_ok) e' m).
Proof using display_inj.
  intros Hsim Hfew Hin Hnow. unfold pe_put_object_with_options, put_options_spec. rewrite pbind_pget, (sm_codec _ _ Hsim).
  assert (Heq : match po_expected_version options with
    | None => Ok ()
    | Some expected =>
        current ← read_object_at_key e (object_key raw_codec o);
        if expected =? 0 then match current with Some _ => Err (present_conflict o) | None => Ok () end
        else check_expected o expected current
    end = expected_spec m o options).
  { unfold expected_spec. destruct (po_expected_version options) as [expected|]; [|done]. unfold object_key.
    by rewrite (sim_read e m) by (done || by destruct Hin). }
  rewrite Heq. destruct (expected_spec m o options) as [[]|err]; [rewrite pbind_plift; by apply put_object_sim|].
  intros [= <- <-]. by left.
Qed.

(** ** Replicated puts *)

Lemma rewrite_inv m o (stored : MemoryObject) (vs : gmap (string * string) (list spec_float)) :
  object_inv m -> objects m !! ob_key o = Some stored -> ob_body stored = ob_body o ->
  object_inv (set_objects m (<[ob_key o := o]> (objects m)) vs).
Proof.
  intros Hinv Hs Hb. assert (Hval : forall k o1, <[ob_key o := o]> (objects m) !! k = Some o1 ->
    exists o2, objects m !! k = Some o2 /\ forall ix, index_value o1 ix = index_value o2 ix).
  { intros k o1 [[<- <-]|[_ Hk]]%lookup_insert_Some; [|by exists o1]. exists stored. split; [done|]. intros ix. unfold index_value. by rewrite Hb. }
  split; cbn [objects indexes set_objects].
  - intros k o1 [[<- <-]|[_ Hk]]%lookup_insert_Some; [done|]. by apply Hinv.
  - apply Hinv.
  - intros k ix Hix Hu o1 o2 k1 k2 v Hk1 Hk2 Hc1 Hc2 Hv1 Hv2. destruct (Hval _ _ Hk1) as (o1'&Hk1'&Hq1). destruct (Hval _ _ Hk2) as (o2'&Hk2'&Hq2).
    rewrite Hq1 in Hv1. rewrite Hq2 in Hv2. by eapply (oi_unique _ Hinv k ix Hix Hu o1' o2' k1 k2 v).
Qed.

Lemma rewrite_sim e m o (stored : MemoryObject) db :
  object_sim (vector_ok := vector_ok) e m -> objects m !! ob_key o = Some stored -> ob_body stored = ob_body o ->
  object_ok (vector_ok := vector_ok) (ob_key o) o -> kv_ok db ->
  (forall n, valid_name n -> kv_view db n = put_view "objects" (object_key raw_codec o) (json_text o) (kv_view (pe_db e)) n) ->
  object_sim (vector_ok := vector_ok) (set_db e db) (set_objects m (<[ob_key o := o]> (objects m)) (vectors m)).
Proof.
  intros Hsim Hs Hb Hok Hdb Hview. split; try done; try apply Hsim.
  - eapply objects_stored_ext; [exact Hview|]. by apply objects_stored_put; [apply Hsim|].
  - eapply rewrite_inv; [apply Hsim|done..].
  - intros Hcomp. eapply (cache_rewrite (uniques m) (objects m)); [done..|]. by apply (sm_cache _ _ Hsim).
Qed.

Definition expected_source m o (options : PutObjectOptions) : thingd_result unit :=
  match po_expected_version options with None => Ok () | Some expected => check_expected o expected (objects m !! ob_key o) end.

Definition put_source_spec m now o (options : PutObjectOptions) : thingd_result MemoryObject * MemoryEngine :=
  match expected_source m o options with
  | Err err => (Err err, m)
  | Ok _ =>
      match put_spec m now o with
      | (Err err, m) => (Err err, m)
      | (Ok stored, m) =>
          let replicated := with_source_metadata o stored in
          (Ok replicated, set_objects m (<[ob_key replicated := replicated]> (objects m)) (vectors m))
      end
  end.

Lemma put_spec_Ok m now o stored m' : put_spec m now o = (Ok stored, m') ->
  stored = stamp now o (write_metadata <$> objects m !! ob_key o) /\ objects m' !! ob_key o = Some stored.
Proof.
  unfold put_spec. destruct (rejects_text m o); [done|]. destruct (validate_unique_indexes m o); [|done]. intros [= <- <-].
  split; [done|]. cbn [objects set_objects]. apply lookup_insert_eq.
Qed.

Lemma with_source_wt o stored : object_wt vector_ok o -> object_wt vector_ok stored -> object_wt vector_ok (with_source_metadata o stored).
Proof. intros [] []. unfold with_source_metadata. split; cbn; try done; [by destruct (0 <? ob_version o)|by case_bool_decide..]. Qed.

(** The second commit may be refused after the first one is done. *)
Lemma put_source_sim e m now o options r e' :
  object_sim (vector_ok := vector_ok) e m -> few_objects m -> object_in (vector_ok := vector_ok) o -> is_str now ->
  pe_put_object_with_source_metadata now o options e = (r, e') ->
  (r = (put_source_spec m now o options).1 /\ object_sim (vector_ok := vector_ok) e' (put_source_spec m now o options).2) \/
  (refused (D := D) r /\ (object_sim (vector_ok := vector_ok) e' m \/ object_sim (vector_ok := vector_ok) e' (put_spec m now o).2)).
Proof using display_inj.
  intros Hsim Hfew Hin Hnow. unfold pe_put_object_with_source_metadata, put_source_spec. rewrite pbind_pget, (sm_codec _ _ Hsim). cbv zeta.
  assert (Heq : match po_expected_version options with
    | None => Ok ()
    | Some expected => current ← read_object_at_key e (object_key raw_codec o); check_expected o expected current
    end = expected_source m o options).
  { unfold expected_source. destruct (po_expected_version options) as [expected|]; [|done]. unfold object_key.
    by rewrite (sim_read e m) by (done || by destruct Hin). }
  rewrite Heq. destruct (expected_source m o options) as [[]|err]; [rewrite pbind_plift|intros [= <- <-]; by left].
  unfold pbind at 1. destruct (pe_put_object now o e) as [rp ep] eqn:Hput.
  destruct (put_object_sim e m now o rp ep Hsim Hfew Hin Hnow Hput) as [[-> Hsimp]|[(err&->&Hf) Hsimp]].
  2: { intros [= <- <-]. right. split; [by exists err|by left]. }
  destruct (put_spec m now o) as [[stored|err] m1] eqn:Hspec; cbn [fst snd] in *; [|intros [= <- <-]; by left].
  destruct (put_spec_Ok _ _ _ _ _ Hspec) as [Hst Hk]. assert (Hkey : ob_key (with_source_metadata o stored) = ob_key o) by (by rewrite Hst).
  destruct (os_object_ok _ _ _ (sm_stored _ _ Hsimp) _ _ Hk) as [_ Hswt Hn].
  assert (Hwt : object_wt vector_ok (with_source_metadata o stored)) by (apply with_source_wt; [by destruct Hin|done]).
  rewrite serialize_raw by done. rewrite pbind_plift. unfold pbind at 1. destruct (commit _ ep) as [rc ec] eqn:Hc.
  destruct (ks_insert_atomic ep "objects" (object_key raw_codec o) _ rc ec (sm_kv _ _ Hsimp)
    (proj1 object_keyspaces_valid) (object_key_ok o) Hc) as (db&->&Hdb&[[-> Hview]|(err&->&Hf&Hview)]).
  - intros [= <- <-]. left. split; [done|]. cbn [snd]. eapply rewrite_sim; [done|by rewrite Hkey|done| |done|].
    + rewrite Hkey. by split.
    + unfold object_key in *. by rewrite Hkey.
  - intros [= <- <-]. right. split; [by exists err|]. right. cbn [snd]. by apply sim_refused.
Qed.

(** ** Deletes *)

(** Indexed values are unique, so no other object has the texts of an object. *)
Lemma texts_alone m o ix k o' t :
  object_inv m -> objects m !! ob_key o = Some o -> ix ∈ uniques m -> objects m !! k = Some o' -> k.1 = ix_collection ix ->
  cached_under o' ix = Some t -> ix_collection ix = (ob_key o).1 -> cached_under o ix = Some t -> k = ob_key o.
Proof using display_inj.
  intros Hinv Ho [(kx&Hkx)%elem_of_btree_values Hu]%elem_of_filter_bool Hk Hc Ht' Hco Ht. 
  destruct (cached_indexed _ _ _ Ht) as [v Hv]. destruct (cached_indexed _ _ _ Ht') as [w Hw].
  pose proof (cached_text_inj o o' ix t v w Hv Hw Ht Ht') as ->.
  by eapply (oi_unique _ Hinv kx ix Hkx Hu o' o k (ob_key o) v).
Qed.

(** The cache after removing objects that were in the store. *)
Lemma remove_cached e m us db :
  object_sim (vector_ok := vector_ok) e m -> us = uniques m ->
  forall os (O : ObjectMap) cache, O ⊆ objects m -> Forall (fun o => objects m !! ob_key o = Some o) os ->
  (pe_unique_index_cache_complete e = true -> cache_exact us O cache) ->
  exists cache', foldl (fun e o => remove_unique_index_cache_for_object o e)
      (set_index_state (set_db e db) (pe_index_definitions e) cache (pe_unique_index_cache_complete e)) os
    = set_index_state (set_db e db) (pe_index_definitions e) cache' (pe_unique_index_cache_complete e) /\
    (pe_unique_index_cache_complete e = true -> cache_exact us (foldl (fun O o => delete (ob_key o) O) O os) cache').
Proof using display_inj.
  intros Hsim ->. induction os as [|o os IH]; intros O cache Hsub Hos Hex; [by exists cache|]. apply Forall_cons in Hos as [Ho Hos].
  cbn [foldl]. assert (Hsub' : delete (ob_key o) O ⊆ objects m) by (etrans; [apply delete_subseteq|done]).
  assert (Hdel : pe_unique_index_cache_complete e = true -> cache_exact (uniques m) (delete (ob_key o) O)
    (foldl (drop_cached o) cache (List.filter (in_collection (ob_key o).1) (uniques m)))).
  { intros Hcomp. apply cache_delete; [apply unique_keys, Hsim|by apply Hex| |].
    - intros o' Ho'. eapply lookup_weaken in Ho'; [|exact Hsub]. congruence.
    - intros ix k o' t Hix Hk. eapply lookup_weaken in Hk; [|exact Hsub]. eapply texts_alone; [apply Hsim|done..]. }
  unfold remove_unique_index_cache_for_object at 2. cbn [pe_unique_index_cache_complete set_index_state].
  destruct (pe_unique_index_cache_complete e) eqn:Hcomp; cbn [negb orb]; [|by apply IH].
  change (has_unique_indexes (set_index_state (set_db e db) (pe_index_definitions e) cache true)) with (has_unique_indexes e).
  destruct (has_unique_indexes e) eqn:Hu; cbn [negb].
  - destruct (IH _ (foldl (drop_cached o) cache (List.filter (in_collection (ob_key o).1) (uniques m))) Hsub' Hos Hdel) as (cache'&Heq&Hex').
    exists cache'. split; [|done]. rewrite <-Heq. f_equal. cbn [pe_index_definitions set_index_state pe_unique_index_values].
    change (unique_indexes_of (set_index_state (set_db e db) (pe_index_definitions e) cache true) (ob_key o).1) with (unique_indexes_of e (ob_key o).1).
    by rewrite (unique_indexes_eq e m _ Hsim).
  - apply IH; [done..|]. intros _. specialize (Hdel eq_refl). by rewrite (has_unique_false e m Hsim Hu) in Hdel |- *.
Qed.

(** The engine after its objects were removed from the store. *)
Lemma removed_sim e m (db : D) (os : list MemoryObject) (O : ObjectMap) (vs : gmap (string * string) (list spec_float)) :
  object_sim (vector_ok := vector_ok) e m -> kv_ok db -> Forall (fun o => objects m !! ob_key o = Some o) os ->
  O = foldl (fun O o => delete (ob_key o) O) (objects m) os ->
  objects_stored (vector_ok := vector_ok) (kv_view db) O (indexes m) ->
  object_sim (vector_ok := vector_ok) (foldl (fun e o => remove_unique_index_cache_for_object o e) (set_db e db) os) (set_objects m O vs).
Proof using display_inj.
  intros Hsim Hdb Hos -> Hst.
  destruct (remove_cached e m _ db Hsim eq_refl os (objects m) (pe_unique_index_values e)) as (cache'&Heq&Hex); [done|done|apply Hsim|].
  change (set_index_state (set_db e db) (pe_index_definitions e) (pe_unique_index_values e) (pe_unique_index_cache_complete e)) with (set_db e db) in Heq.
  rewrite Heq. split; try done; try apply Hsim.
  assert (Hsub : foldl (fun O o => delete (ob_key o) O) (objects m) os ⊆ objects m).
  { clear. generalize (objects m) as M. induction os as [|o os IH]; intros M; [done|]. cbn [foldl]. etrans; [apply IH|apply delete_subseteq]. }
  pose proof (sm_memory _ _ Hsim) as Hinv. split; cbn [objects indexes set_objects].
  - intros k o Ho. eapply (oi_keys _ Hinv), lookup_weaken; done.
  - apply Hinv.
  - intros k ix Hix Hu o1 o2 k1 k2 v Hk1 Hk2. eapply (oi_unique _ Hinv k ix Hix Hu); by eapply lookup_weaken.
Qed.

Lemma object_key_pair_ok (k : ObjectKey) : bytes_ok (make_object_key raw_codec k.1 k.2).
Proof. change (bytes_ok (str_bytes k.1 ++ 0 :: str_bytes k.2)). keys_ok. Qed.

Lemma delete_object_sim e m collection id r e' :
  object_sim (vector_ok := vector_ok) e m -> no_nul collection -> pe_delete_object collection id e = (r, e') ->
  (r = (delete_object m collection id).1 /\ object_sim (vector_ok := vector_ok) e' (delete_object m collection id).2) \/
  (refused (D := D) r /\ object_sim (vector_ok := vector_ok) e' m).
Proof using display_inj.
  intros Hsim Hn. unfold pe_delete_object, delete_object. rewrite pbind_pget, (sm_codec _ _ Hsim). cbv zeta.
  pose proof (sim_read e m (collection, id) Hsim Hn) as Hread. cbn [fst snd] in Hread. rewrite Hread, pbind_plift. unfold pbind at 1. destruct (commit _ e) as [rc ec] eqn:Hc.
  destruct (ks_remove_atomic e "objects" _ rc ec (sm_kv _ _ Hsim) (proj1 object_keyspaces_valid) (object_key_pair_ok (collection, id)) Hc)
    as (db&->&Hdb&[[-> Hview]|(err&->&Hf&Hview)]); intros [= <- <-].
  2: { right. split; [by exists err|by apply sim_refused]. }
  left. split; [done|]. cbn [snd].
  assert (Hst : objects_stored (vector_ok := vector_ok) (kv_view db) (delete (collection, id) (objects m)) (indexes m)).
  { eapply objects_stored_ext; [exact Hview|]. by apply (objects_stored_delete _ _ _ (collection, id)); [apply Hsim|]. }
  destruct (objects m !! (collection, id)) as [o|] eqn:Ho.
  - pose proof (oi_keys _ (sm_memory _ _ Hsim) _ _ Ho) as Hk. apply (removed_sim e m db [o]); [done..| | |done].
    + constructor; [by rewrite Hk|constructor].
    + cbn [foldl]. by rewrite Hk.
  - apply (removed_sim e m db []); [done..|by constructor| |done]. cbn [foldl]. by apply delete_id.
Qed.

(** ** Batch deletes *)

Definition found_objects m (keys : list (string * string)) : list MemoryObject := omap (fun k => objects m !! k) keys.

Definition delete_batch_spec m (keys : list (string * string)) : thingd_result Z * MemoryEngine :=
  (Ok (zlen (found_objects m keys)), set_objects m (foldl (fun O k => delete k O) (objects m) keys) (vectors m)).

Lemma read_many_spec e m keys :
  object_sim (vector_ok := vector_ok) e m -> Forall (fun k : string * string => no_nul k.1) keys ->
  read_many e ((fun k : string * string => make_object_key raw_codec k.1 k.2) <$> keys) = Ok ((fun k => json_text <$> objects m !! k) <$> keys).
Proof.
  intros Hsim. unfold read_many. induction 1 as [|k keys Hk _ IH]; [done|]. rewrite !fmap_cons. cbn [map_res].
  rewrite kv_get_view by (apply Hsim || apply object_keyspaces_valid). cbn [storage_error]. run. rewrite IH. run.
  change (make_object_key raw_codec k.1 k.2) with (str_bytes k.1 ++ 0 :: str_bytes k.2). by rewrite (lookup_object e _ _ (sm_stored _ _ Hsim)).
Qed.

Lemma delete_fold e m keys : forall os ws (O : ObjectMap),
  object_sim (vector_ok := vector_ok) e m -> Forall (fun k : string * string => no_nul k.1) keys -> Forall write_ok ws -> O ⊆ objects m ->
  objects_stored (vector_ok := vector_ok) (fun n => apply_writes n ws (kv_view (pe_db e) n)) O (indexes m) ->
  exists ws', fold_res (fun (acc : list MemoryObject * list BatchWrite) (x : bytes * option bytes) =>
      match x.2 with
      | Some data => o ← deserialize raw_codec data; Ok (acc.1 ++ [o], batch_remove acc.2 "objects" x.1)
      | None => Ok acc
      end) (os, ws) (zip ((fun k : string * string => make_object_key raw_codec k.1 k.2) <$> keys) ((fun k => json_text <$> objects m !! k) <$> keys))
    = Ok (os ++ found_objects m keys, ws') /\ Forall write_ok ws' /\
    objects_stored (vector_ok := vector_ok) (fun n => apply_writes n ws' (kv_view (pe_db e) n)) (foldl (fun O k => delete k O) O keys) (indexes m).
Proof.
  induction keys as [|k keys IH]; intros os ws O Hsim Hn Hws Hsub Hst; [exists ws; by rewrite app_nil_r|].
  apply Forall_cons in Hn as [Hk Hn]. rewrite !fmap_cons. cbn [zip zip_with fold_res snd]. destruct (objects m !! k) as [o|] eqn:Ho; cbn [fmap option_fmap option_map].
  - destruct (os_object_ok _ _ _ (sm_stored _ _ Hsim) _ _ Ho) as [_ Hwt _]. rewrite deserialize_raw by done. run.
    destruct (IH (os ++ [o]) (batch_remove ws "objects" (make_object_key raw_codec k.1 k.2)) (delete k O)) as (ws'&Hrun&Hws'&Hst'); [done|done| | | |].
    + apply remove_ok; [done|apply object_keyspaces_valid|apply object_key_pair_ok].
    + etrans; [apply delete_subseteq|done].
    + eapply objects_stored_ext; [|by apply objects_stored_delete]. intros n _. rewrite apply_remove. unfold drop_view.
      destruct (decide (n = "objects")) as [->|Hne]; [by rewrite !bool_decide_true|by rewrite !bool_decide_false by congruence].
    + exists ws'. split_and!; [|done..]. rewrite Hrun. unfold found_objects. cbn [omap list_omap]. rewrite Ho. by rewrite <-app_assoc.
  - assert (HO : O !! k = None) by (eapply lookup_weaken_None; done). cbn [fst snd]. run.
    destruct (IH os ws O Hsim Hn Hws Hsub Hst) as (ws'&Hrun&Hws'&Hst'). exists ws'. unfold found_objects in *. cbn [omap list_omap foldl].
    rewrite Ho, delete_id by done. done.
Qed.

Lemma delete_found m keys : object_inv m ->
  foldl (fun O k => delete k O) (objects m) keys = foldl (fun O o => delete (ob_key o) O) (objects m) (found_objects m keys).
Proof.
  intros Hinv. unfold found_objects. assert (Hsub : objects m ⊆ objects m) by done. revert Hsub. generalize (objects m) at 1 3 4 as O.
  induction keys as [|k keys IH]; intros O Hsub; [done|]. cbn [foldl omap list_omap]. destruct (objects m !! k) as [o|] eqn:Ho; cbn [foldl].
  - rewrite (oi_keys _ Hinv _ _ Ho). apply IH. etrans; [apply delete_subseteq|done].
  - rewrite delete_id by (eapply lookup_weaken_None; done). by apply IH.
Qed.

Lemma delete_batch_sim e m keys r e' :
  object_sim (vector_ok := vector_ok) e m -> Forall (fun k : string * string => no_nul k.1) keys ->
  pe_delete_objects_batch keys e = (r, e') ->
  (r = (delete_batch_spec m keys).1 /\ object_sim (vector_ok := vector_ok) e' (delete_batch_spec m keys).2) \/
  (refused (D := D) r /\ object_sim (vector_ok := vector_ok) e' m).
Proof using display_inj.
  intros Hsim Hn. unfold pe_delete_objects_batch, delete_batch_spec. rewrite pbind_pget, (sm_codec _ _ Hsim). cbv zeta.
  rewrite (read_many_spec e m) by done. rewrite pbind_plift.
  destruct (delete_fold e m keys [] [] (objects m) Hsim Hn writes_ok_nil ltac:(done) (sm_stored _ _ Hsim)) as (ws&->&Hws&Hst).
  rewrite pbind_plift. cbn [app fst snd].
  assert (Hos : Forall (fun o => objects m !! ob_key o = Some o) (found_objects m keys)).
  { apply Forall_forall. intros o (k&_&Hk)%list_elem_of_omap. by rewrite (oi_keys _ (sm_memory _ _ Hsim) _ _ Hk). }
  pose proof (delete_found m keys (sm_memory _ _ Hsim)) as Hdel. case_bool_decide as Hnil.
  - intros [= <- <-]. left. split; [done|]. rewrite Hnil in *. assert (Heta : set_db e (pe_db e) = e) by (by destruct e). cbn [snd].
    rewrite <-Heta. apply (removed_sim e m (pe_db e) []); [done|apply Hsim|done|done|].
    rewrite Hdel. apply Hsim.
  - unfold pbind at 1. destruct (commit ws e) as [rc ec] eqn:Hc.
    destruct (commit_cases e ws rc ec (sm_kv _ _ Hsim) Hws Hc) as (db&->&Hdb&[[-> Hview]|(err&->&Hf&Hview)]); intros [= <- <-].
    + left. split; [done|]. apply (removed_sim e m db (found_objects m keys)); [done..|]. eapply objects_stored_ext; [exact Hview|exact Hst].
    + right. split; [by exists err|by apply sim_refused].
Qed.

(** ** Rebuilding the cache *)

Lemma read_definitions (X : IndexMap) :
  Forall index_wt (btree_values X) -> map_res (fun kv : bytes * bytes => deserialize raw_codec kv.2) (index_pair <$> btree_values X) = Ok (btree_values X).
Proof.
  induction 1 as [|ix ixs Hix _ IH]; [done|]. rewrite fmap_cons. cbn [map_res index_pair snd]. rewrite deserialize_raw by done. run. by rewrite IH.
Qed.

Lemma definitions_sorted m : object_inv m -> sort_by definition_cmp (btree_values (indexes m)) = btree_values (indexes m).
Proof.
  intros Hinv. apply sort_by_id. assert (Hall : Forall (fun p => p.1 = (ix_collection p.2, ix_field p.2)) (btree_iter (indexes m))).
  { apply Forall_forall. intros [k ix] Hk%elem_of_btree_iter. by apply Hinv. }
  pose proof (btree_iter_strict (indexes m)) as Hs. unfold btree_values. induction Hs as [|[k ix] l _ IH Hlt]; [constructor|].
  apply Forall_cons in Hall as [Hk Hall]. rewrite fmap_cons. constructor; [by apply IH|]. apply Forall_forall.
  intros ix' ([k' ?]&->&Hx)%list_elem_of_fmap. rewrite Forall_forall in Hlt. rewrite Forall_forall in Hall. specialize (Hlt _ Hx). specialize (Hall _ Hx).
  cbn [fst snd] in *. subst. unfold definition_cmp. unfold key_lt in Hlt. by rewrite Hlt.
Qed.

Definition built_cache m : UniqueCache * bool :=
  if bool_decide (uniques m = []) then (∅, true) else foldl (cache_object (uniques m)) (∅, true) (btree_values (objects m)).

Lemma built_exact m : object_inv m -> (built_cache m).2 = true -> cache_exact (uniques m) (objects m) (built_cache m).1.
Proof.
  intros Hinv. unfold built_cache. case_bool_decide as Hnil.
  { intros _ t k. cbn [fst]. rewrite Hnil, lookup_empty. split; [done|]. by intros (ix&o&?%elem_of_nil&_). }
  intros Hflag t k.
  assert (Hempty : list_exact (uniques m) [] ∅) by (intros t' k'; rewrite lookup_empty; split; [done|]; by intros (ix&o&_&?%elem_of_nil&_)).
  pose proof (cache_objects_exact (uniques m) (btree_values (objects m)) [] (∅, true) (unique_keys m Hinv) (fun _ => Hempty) Hflag t k) as Hex.
  rewrite Hex. split.
  - intros (ix&o&Hix&(k'&Ho)%elem_of_btree_values&Hk&Hc&Ht). pose proof (oi_keys _ Hinv _ _ Ho) as Hk'. exists ix, o. split_and!; [done|congruence|done..].
  - intros (ix&o&Hix&Ho&Hc&Ht). exists ix, o. split_and!; [done| |by apply Hinv|done..]. apply elem_of_btree_values. eauto.
Qed.

Section loading.
Context e m (Hcodec : pe_codec e = raw_codec) (Hkv : kv_ok (pe_db e)).
Context (Hst : objects_stored (vector_ok := vector_ok) (kv_view (pe_db e)) (objects m) (indexes m)) (Hinv : object_inv m).

Lemma load_definitions_spec : load_index_definitions raw_codec (pe_db e) = Ok (btree_values (indexes m)).
Proof using Hkv Hst Hinv.
  unfold load_index_definitions. rewrite (indexes_iter e _ _ Hkv Hst), read_definitions by (by eapply indexes_typed).
  cbn [fmap result_fmap]. by rewrite definitions_sorted.
Qed.

Lemma build_cache_spec : build_unique_index_cache raw_codec (pe_db e) = Ok (built_cache m).
Proof using Hkv Hst Hinv.
  unfold build_unique_index_cache, built_cache, uniques. rewrite (indexes_iter e _ _ Hkv Hst), read_definitions by (by eapply indexes_typed). run.
  case_bool_decide; [done|]. rewrite (objects_iter e _ _ Hkv Hst).
  assert (Hall : Forall (object_wt vector_ok) (btree_values (objects m))) by (by eapply objects_typed). revert Hall.
  generalize (btree_values (objects m)) as os. generalize (∅ : UniqueCache, true) as acc. intros acc os Hall. revert acc.
  induction Hall as [|o os Ho _ IH]; intros acc; [done|]. rewrite fmap_cons. cbn [fold_res object_pair snd foldl]. rewrite deserialize_raw by done. run. apply IH.
Qed.

Lemma refreshed_sim : object_sim (vector_ok := vector_ok)
  (set_index_state e (btree_values (indexes m)) (built_cache m).1 (built_cache m).2) m.
Proof using Hcodec Hkv Hst Hinv. split; try done. cbn [pe_unique_index_cache_complete set_index_state]. intros Hflag. by apply built_exact. Qed.

Lemma refresh_spec : exists e', refresh_unique_index_cache e = (Ok (), e') /\ object_sim (vector_ok := vector_ok) e' m.
Proof using Hcodec Hkv Hst Hinv.
  eexists. split; [|exact refreshed_sim]. unfold refresh_unique_index_cache. rewrite pbind_pget, Hcodec, load_definitions_spec, pbind_plift.
  rewrite (pbind_Ok (pmodify _) _ e () _ eq_refl). by rewrite build_cache_spec.
Qed.

Lemma open_objects_spec : exists e', open_objects e = (Ok (), e') /\ object_sim (vector_ok := vector_ok) e' m.
Proof using Hcodec Hkv Hst Hinv.
  eexists. split; [|exact refreshed_sim]. unfold open_objects. rewrite pbind_pget, Hcodec, build_cache_spec, pbind_plift.
  by rewrite load_definitions_spec.
Qed.
End loading.
End writes.
