(* ===== verification/PObjectIndex.v ===== *)
(** * thingd: creating and deleting indexes

    A unique index is admitted only when the scan of its collection finds no value twice;
    defining or deleting an index rebuilds the cache of unique values. *)

From S2P Require Import Prelude Wal Table Layer Database ThingDb Keyspace RamScan Model Objects Storage Persistent PSample PStore PQueue PObjects PObjectSpec PObjectCache PObjectPut PObjectWrite.
From Stdlib Require Import SpecFloat.

Section index.
Context `{KvLaws D} `{SerdeJson} {vector_ok : list spec_float -> Prop}.
Context `{!Serde MemoryObject (object_wt vector_ok)} `{!ReadMetadata} `{!Serde IndexDefinition index_wt}.
Implicit Types (e : PersistentEngine D) (m : MemoryEngine) (o : MemoryObject) (ix : IndexDefinition).

Lemma objects_stored_index (view : string -> bmap bytes) (O : ObjectMap) (X : IndexMap) ix :
  objects_stored (vector_ok := vector_ok) view O X -> index_ok (ix_collection ix, ix_field ix) ix ->
  objects_stored (vector_ok := vector_ok)
    (put_view "indexes" (make_index_key raw_codec (ix_collection ix) (ix_field ix)) (json_text ix) view) O
    (<[(ix_collection ix, ix_field ix) := ix]> X).
Proof.
  intros [Hs1 Hs2 Hs3 Hs4] Hix. split; [done| |done|].
  - pose proof (indexed_update index_entry index_ok index_entry_inj _ _ _ ix Hs4 Hix Hs2) as Hu.
    unfold add_entry, drop_entry, index_entry in Hu. unfold put_view. rewrite bool_decide_true by done. cbn [index_pair] in Hu.
    destruct (X !! (ix_collection ix, ix_field ix)) as [p|] eqn:Hp; [|exact Hu]. cbn [mbind option_bind index_pair] in Hu.
    destruct (Hs4 _ _ Hp) as [[= Hc Hf] _ _]. by rewrite Hc, Hf, insert_delete_eq in Hu.
  - intros k ix'. rewrite lookup_insert_Some. intros [[<- <-]|[_ ?]]; [done|by apply Hs4].
Qed.

Lemma lookup_index (view : string -> bmap bytes) (O : ObjectMap) (X : IndexMap) collection field :
  objects_stored (vector_ok := vector_ok) view O X -> no_nul collection ->
  view "indexes" !! make_index_key raw_codec collection field = json_text <$> X !! (collection, field).
Proof.
  intros Hst Hn. destruct (X !! (collection, field)) as [ix|] eqn:Hix.
  - apply (os_indexes _ _ _ Hst). exists (collection, field), ix. split; [done|]. destruct (os_index_ok _ _ _ Hst _ _ Hix) as [[= <- <-] _ _]. done.
  - destruct (view "indexes" !! make_index_key raw_codec collection field) as [v|] eqn:Hv; [|reflexivity].
    apply (os_indexes _ _ _ Hst) in Hv as (k'&ix&Hix'&Hent). destruct (os_index_ok _ _ _ Hst _ _ Hix') as [Hk _ Hn'].
    assert (Heq : make_index_key raw_codec (ix_collection ix) (ix_field ix) = make_index_key raw_codec collection field).
    { unfold index_entry, index_pair in Hent. congruence. }
    unfold make_index_key in Heq. cbn [encode_key raw_codec app] in Heq. rewrite <-Hk in Hn'. cbn [fst] in Hn'.
    apply pair_key_inj in Heq; [|done..]. congruence.
Qed.

Lemma objects_stored_unindex (view : string -> bmap bytes) (O : ObjectMap) (X : IndexMap) collection field :
  objects_stored (vector_ok := vector_ok) view O X -> is_Some (X !! (collection, field)) ->
  objects_stored (vector_ok := vector_ok) (drop_view "indexes" (make_index_key raw_codec collection field) view) O (delete (collection, field) X).
Proof.
  intros [Hs1 Hs2 Hs3 Hs4] [ix Hix]. split; [done| |done|].
  - pose proof (indexed_drop index_entry index_ok index_entry_inj _ _ (collection, field) Hs4 Hs2) as Hd. unfold drop_entry, index_entry in Hd.
    unfold drop_view. rewrite bool_decide_true by done. rewrite Hix in Hd. cbn [mbind option_bind index_pair] in Hd.
    destruct (Hs4 _ _ Hix) as [[= Hc Hf] _ _]. by rewrite Hc, Hf in Hd.
  - intros k ix' [_ ?]%lookup_delete_Some. by apply Hs4.
Qed.

(** ** The scan for duplicates *)

Definition memory_scan ix (values : list (Value number)) o : thingd_result (list (Value number)) :=
  if bool_decide ((ob_key o).1 = ix_collection ix) then
    match body_field (ob_body o) (ix_field ix) with
    | Some value =>
        if is_null value then Ok values
        else if existsb (fun existing => bool_decide (existing = value)) values
        then Err (Conflict ("cannot create unique index " +:+ ix_collection ix +:+ "." +:+ ix_field ix +:+ ": existing values are duplicated"))
        else Ok (values ++ [value])
    | None => Ok values
    end
  else Ok values.

(** The scan of the persistent engine reads the body of every object of the collection and
    fails on the first that is not JSON; the in-memory engine passes over such a body. *)
Definition strict_scan ix (values : list (Value number)) o : thingd_result (list (Value number)) :=
  if bool_decide ((ob_key o).1 = ix_collection ix) && negb (bool_decide (is_Some (from_str (ob_body o))))
  then Err invalid_json else memory_scan ix values o.

(** The creation of an index as the persistent engine specifies it: that of the in-memory
    engine with the stricter scan. *)
Definition create_index_spec m ix : thingd_result unit * MemoryEngine :=
  if bool_decide (ix_collection ix = "") || bool_decide (ix_field ix = "")
  then (Err (InvalidInput "index collection and field are required"), m) else
  match (if ix_unique ix then _ ← fold_res (strict_scan ix) [] (btree_values (objects m)); Ok () else Ok ()) with
  | Err err => (Err err, m)
  | Ok _ => (Ok (), set_indexes m (<[(ix_collection ix, ix_field ix) := ix]> (indexes m)))
  end.

Lemma strict_scan_unfold ix values o :
  strict_scan ix values o = if bool_decide ((ob_key o).1 = ix_collection ix) && negb (bool_decide (is_Some (from_str (ob_body o))))
                            then Err invalid_json else memory_scan ix values o.
Proof. done. Qed.

Lemma scan_agrees ix os : forall values,
  fold_res (check_duplicates ix) values (List.filter (in_collections (Some [ix_collection ix])) os) = fold_res (strict_scan ix) values os.
Proof.
  induction os as [|o os IH]; intros values; [done|]. cbn [List.filter fold_res]. rewrite in_one, strict_scan_unfold.
  destruct (decide (ix_collection ix = (ob_key o).1)) as [Hc|Hc].
  2: { rewrite (bool_decide_false (ix_collection ix = _)), (bool_decide_false (_ = ix_collection ix)) by congruence.
       assert (Hs : memory_scan ix values o = Ok values) by (unfold memory_scan; by rewrite bool_decide_false by congruence).
       cbn [andb]. rewrite Hs, bind_Ok. apply IH. }
  rewrite !bool_decide_true by done. cbn [fold_res andb].
  assert (Hs : check_duplicates ix values o = if negb (bool_decide (is_Some (from_str (ob_body o)))) then Err invalid_json else memory_scan ix values o).
  { unfold check_duplicates, memory_scan, body_field, present_field. rewrite (bool_decide_true ((ob_key o).1 = ix_collection ix)) by done.
    destruct (from_str (ob_body o)) as [body|]; [|done]. rewrite bool_decide_true by done. cbn [ok_or negb]. run.
    destruct (value_get body (ix_field ix)) as [v|]; [|done]. cbn [mbind option_bind]. by destruct (is_null v). }
  rewrite Hs. destruct (negb _); [done|]. destruct (memory_scan ix values o) as [vs|err]; [rewrite !bind_Ok; apply IH|done].
Qed.

Lemma strict_scan_Ok ix os : forall values vs, fold_res (strict_scan ix) values os = Ok vs -> fold_res (memory_scan ix) values os = Ok vs.
Proof.
  induction os as [|o os IH]; intros values vs; [done|]. cbn [fold_res]. rewrite strict_scan_unfold. destruct (_ && _); [done|].
  destruct (memory_scan ix values o); [rewrite !bind_Ok; apply IH|done].
Qed.

Lemma strict_scan_json ix os : forall values,
  Forall (fun o => (ob_key o).1 = ix_collection ix -> is_Some (from_str (ob_body o))) os ->
  fold_res (strict_scan ix) values os = fold_res (memory_scan ix) values os.
Proof.
  induction os as [|o os IH]; intros values; [done|]. intros [Ho Hos]%Forall_cons. cbn [fold_res]. rewrite strict_scan_unfold.
  assert (Hf : bool_decide ((ob_key o).1 = ix_collection ix) && negb (bool_decide (is_Some (from_str (ob_body o)))) = false).
  { case_bool_decide as Hc; [|done]. by rewrite bool_decide_true by auto. }
  rewrite Hf. destruct (memory_scan ix values o); [rewrite !bind_Ok; by apply IH|done].
Qed.

Lemma validate_existing_scan m ix :
  validate_existing_unique_index m ix = (_ ← fold_res (memory_scan ix) [] (btree_values (objects m)); Ok ()).
Proof. done. Qed.

(** Where the bodies of the collection are JSON, the creation is that of the in-memory engine. *)
Lemma create_index_spec_json m ix :
  Forall (fun o => (ob_key o).1 = ix_collection ix -> is_Some (from_str (ob_body o))) (btree_values (objects m)) ->
  create_index_spec m ix = create_index_definition m ix.
Proof. intros Hj. unfold create_index_spec, create_index_definition. by rewrite strict_scan_json, <-validate_existing_scan. Qed.

Lemma create_index_spec_inv m ix : object_inv m -> object_inv (create_index_spec m ix).2.
Proof.
  intros Hinv. pose proof (create_index_inv m ix Hinv) as Hc. unfold create_index_spec, create_index_definition in *.
  destruct (_ || _); [done|]. destruct (ix_unique ix); [|done]. rewrite validate_existing_scan in Hc.
  destruct (fold_res (strict_scan ix) [] _) as [vs|err] eqn:Hs; [|done]. by rewrite (strict_scan_Ok _ _ _ _ Hs) in Hc.
Qed.

(** ** Operations *)

Record index_in ix : Prop := {
  ii_wt : index_wt ix;
  ii_nul : no_nul (ix_collection ix);
}.

Lemma admitted e m ix :
  object_sim (vector_ok := vector_ok) e m -> few_objects m -> no_nul (ix_collection ix) ->
  (os ← pe_list_objects e (Some [ix_collection ix]) default_listing; _ ← fold_res (check_duplicates ix) [] os; Ok ())
  = (_ ← fold_res (strict_scan ix) [] (btree_values (objects m)); Ok ()).
Proof using.
  intros Hsim Hfew Hn.
  rewrite (listing_agrees e (objects m) (indexes m) (sm_codec _ _ Hsim) (sm_kv _ _ Hsim) (sm_stored _ _ Hsim) m) by (done || by split).
  unfold list_objects, default_listing. cbn [lo_filter lo_sort_by lo_offset lo_limit]. run.
  rewrite (filter_all (matches_filter [])) by (intros; by apply matches_nothing). by rewrite scan_agrees.
Qed.

Lemma create_index_sim e m ix r e' :
  object_sim (vector_ok := vector_ok) e m -> few_objects m -> index_in ix -> pe_create_index_definition ix e = (r, e') ->
  (r = (create_index_spec m ix).1 /\ object_sim (vector_ok := vector_ok) e' (create_index_spec m ix).2) \/
  (refused (D := D) r /\ object_sim (vector_ok := vector_ok) e' m).
Proof using.
  intros Hsim Hfew [Hwt Hn]. pose proof (create_index_spec_inv m ix (sm_memory _ _ Hsim)) as Hinv. unfold pe_create_index_definition, create_index_spec in *.
  destruct (_ || _); [intros [= <- <-]; by left|]. rewrite pbind_pget, (admitted e m ix Hsim Hfew Hn).
  destruct (if ix_unique ix then _ else _) as [[]|err]; [|intros [= <- <-]; by left].
  cbn [fst snd] in *. rewrite pbind_plift, (sm_codec _ _ Hsim), serialize_raw, pbind_plift by done.
  unfold pbind at 1. destruct (ks_insert _ _ _ e) as [rc ec] eqn:Hc.
  destruct (ks_insert_atomic e _ _ _ rc ec (sm_kv _ _ Hsim) (proj2 object_keyspaces_valid) (index_key_ok _ _) Hc)
    as (db&->&Hdb&[[-> Hview]|(err&->&Hf&Hview)]).
  2: { intros [= <- <-]. right. split; [by exists err|by apply sim_refused]. }
  intros Hrun. left. destruct (refresh_spec (set_db e db) (set_indexes m (<[(ix_collection ix, ix_field ix) := ix]> (indexes m)))) as (e2&Hr&Hsim2);
    [apply Hsim|done| |done|].
  - eapply objects_stored_ext; [exact Hview|]. apply objects_stored_index; [apply Hsim|by split].
  - rewrite Hr in Hrun. injection Hrun as <- <-. done.
Qed.

Lemma delete_index_sim e m collection field r e' :
  object_sim (vector_ok := vector_ok) e m -> no_nul collection -> pe_delete_index collection field e = (r, e') ->
  (r = (delete_index m collection field).1 /\ object_sim (vector_ok := vector_ok) e' (delete_index m collection field).2) \/
  (refused (D := D) r /\ object_sim (vector_ok := vector_ok) e' m).
Proof using.
  intros Hsim Hn. unfold pe_delete_index. pose proof (delete_index_inv m collection field (sm_memory _ _ Hsim)) as Hinv. unfold delete_index in *.
  rewrite pbind_pget, (sm_codec _ _ Hsim). cbv zeta. rewrite kv_get_view by (apply Hsim || apply object_keyspaces_valid). cbn [storage_error].
  rewrite pbind_plift, (lookup_index _ _ _ _ _ (sm_stored _ _ Hsim)) by done. cbn [fst snd] in *.
  destruct (indexes m !! (collection, field)) as [ix|] eqn:Hix; cbn [fmap option_fmap option_map].
  2: { rewrite !bool_decide_false by (by intros []). intros [= <- <-]. left. split; [done|]. rewrite delete_id in Hinv |- * by done. by destruct m, Hsim. }
  rewrite !bool_decide_true by done. unfold pbind at 1. destruct (ks_remove _ _ e) as [rc ec] eqn:Hc.
  destruct (ks_remove_atomic e _ _ rc ec (sm_kv _ _ Hsim) (proj2 object_keyspaces_valid) (index_key_ok _ _) Hc)
    as (db&->&Hdb&[[-> Hview]|(err&->&Hf&Hview)]).
  2: { intros [= <- <-]. right. split; [by exists err|by apply sim_refused]. }
  intros Hrun. left. destruct (refresh_spec (set_db e db) (set_indexes m (delete (collection, field) (indexes m)))) as (e2&Hr&Hsim2);
    [apply Hsim|done| |done|].
  - eapply objects_stored_ext; [exact Hview|]. apply objects_stored_unindex; [apply Hsim|by rewrite Hix].
  - rewrite (pbind_Ok _ _ _ _ _ Hr) in Hrun. injection Hrun as <- <-. done.
Qed.
End index.
