(* ===== verification/PObjectBatch.v ===== *)
(** * thingd: batch puts

    Without unique indexes a batch of puts stores what the same puts store one after the
    other, in one commit: later puts of a key see the earlier ones through the list of
    prepared objects. *)

From S2P Require Import Prelude Wal Table Layer Database ThingDb Keyspace RamScan Model Objects Storage Persistent PSample PStore PQueue PObjects PObjectSpec PObjectCache PObjectPut PObjectWrite.
From Stdlib Require Import SpecFloat.

Section batch.
Context `{KvLaws D} `{SerdeJson} {vector_ok : list spec_float -> Prop}.
Context `{!Serde MemoryObject (object_wt vector_ok)} `{!ReadMetadata} `{!Serde IndexDefinition index_wt}.
Implicit Types (e : PersistentEngine D) (m : MemoryEngine) (o : MemoryObject) (now : string).

(** One put after the other, up to the first error. *)
Fixpoint put_batch_spec m (os : list (string * MemoryObject)) : thingd_result (list MemoryObject) * MemoryEngine :=
  match os with
  | [] => (Ok [], m)
  | (now, o) :: os =>
      match put_spec m now o with
      | (Err err, m) => (Err err, m)
      | (Ok stored, m) =>
          match put_batch_spec m os with
          | (Err err, m) => (Err err, m)
          | (Ok rest, m) => (Ok (stored :: rest), m)
          end
      end
  end.

Lemma not_unique m ix : uniques m = [] -> ix ∈ btree_values (indexes m) -> ix_unique ix = false.
Proof. intros Hu Hix. apply not_true_iff_false. intros Ht. apply (elem_of_nil ix). rewrite <-Hu. by apply elem_of_filter_bool. Qed.

Lemma put_spec_free m now o : uniques m = [] ->
  put_spec m now o = (Ok (stamp now o (write_metadata <$> objects m !! ob_key o)),
    set_objects m (<[ob_key o := stamp now o (write_metadata <$> objects m !! ob_key o)]> (objects m)) (vectors m)).
Proof.
  intros Hu. unfold put_spec, rejects_text. rewrite Hu. cbn [List.filter]. rewrite bool_decide_true by done. cbn [negb andb].
  assert (Hval : validate_unique_indexes m o = Ok ()).
  { unfold validate_unique_indexes. destruct (from_str (ob_body o)) as [body|]; [|done].
    rewrite (fold_res_skip _ (fun _ => false)); [by rewrite filter_none|]. intros ix Hix _. unfold check_index. by rewrite (not_unique m). }
  by rewrite Hval.
Qed.

Lemma put_spec_indexes m now o : indexes (put_spec m now o).2 = indexes m.
Proof. unfold put_spec. destruct (rejects_text m o); [done|]. by destruct (validate_unique_indexes m o). Qed.

(** The prepared part of a batch: what the store will hold, and where the last put of each
    key is. *)
Record prepared_ok e m (acc : PutFold) m' : Prop := {
  pp_indexes : indexes m' = indexes m;
  pp_writes : Forall write_ok (pf_batch acc);
  pp_stored : objects_stored (vector_ok := vector_ok) (fun n => apply_writes n (pf_batch acc) (kv_view (pe_db e) n)) (objects m') (indexes m);
  pp_last : forall k : ObjectKey, no_nul k.1 -> objects m' !! k =
    match pf_by_key acc !! make_object_key raw_codec k.1 k.2 with Some i => fst <$> pf_prepared acc !! i | None => objects m !! k end;
  pp_bound : forall key i, pf_by_key acc !! key = Some i -> (i < length (pf_prepared acc))%nat;
}.

Lemma prepare_one e m acc m' now o :
  object_sim (vector_ok := vector_ok) e m -> uniques m = [] -> prepared_ok e m acc m' -> object_in (vector_ok := vector_ok) o -> is_str now ->
  exists acc' stored previous m2, prepare_put e [] acc (now, o, object_key raw_codec o, objects m !! ob_key o) = Ok acc' /\
    pf_prepared acc' = pf_prepared acc ++ [(stored, previous)] /\ put_spec m' now o = (Ok stored, m2) /\ prepared_ok e m acc' m2.
Proof.
  intros Hsim Hu Hok [Hwt Hn] Hnow. pose proof (pp_last _ _ _ _ Hok (ob_key o) Hn) as Hlast.
  assert (Hu' : uniques m' = []) by (unfold uniques in *; by rewrite (pp_indexes _ _ _ _ Hok)).
  assert (Hval : pe_validate_unique_indexes e o = Ok ()).
  { unfold pe_validate_unique_indexes. rewrite (unique_indexes_eq e m), Hu by done. done. }
  unfold prepare_put. fold (object_key raw_codec o) in Hlast. rewrite <-Hlast, (put_spec_free m') by done. set (stored := stamp now o _).
  assert (Hswt : object_wt vector_ok stored).
  { apply stamp_wt; [done..|]. intros p Hp. by destruct (os_object_ok _ _ _ (pp_stored _ _ _ _ Hok) _ _ Hp). }
  assert (Hgate : (if pe_unique_index_cache_complete e then Ok () else pe_validate_unique_indexes e o) = Ok () :> thingd_result unit) by (by rewrite Hval; destruct (pe_unique_index_cache_complete e)).
  rewrite Hgate, bind_Ok. cbn [List.filter fold_res]. rewrite bind_Ok, (sm_codec _ _ Hsim), serialize_raw, bind_Ok by done.
  eexists _, stored, _, _. split_and!; [done..|]. destruct Hok as [Hi Hw Hst Hl Hb]. split; cbn [pf_batch pf_by_key pf_prepared objects indexes set_objects].
  - done.
  - apply insert_ok; [done|apply object_keyspaces_valid|apply object_key_ok].
  - eapply objects_stored_ext; [|apply (objects_stored_put _ _ _ stored Hst); by split]. intros n _. rewrite apply_insert. unfold put_view.
    destruct (decide (n = "objects")) as [->|Hne]; [by rewrite !bool_decide_true|by rewrite !bool_decide_false by congruence].
  - intros k Hk. destruct (decide (k = ob_key o)) as [->|Hne].
    + unfold object_key. rewrite !lookup_insert_eq. by rewrite list_lookup_middle.
    + rewrite lookup_insert_ne by congruence. rewrite lookup_insert_ne.
      * rewrite Hl by done. destruct (pf_by_key acc !! make_object_key raw_codec k.1 k.2) as [i|] eqn:Hi'; [|reflexivity]. rewrite lookup_app_l; [reflexivity|by eapply Hb].
      * intros Heq. rewrite object_key_raw in Heq. change (make_object_key raw_codec k.1 k.2) with (str_bytes k.1 ++ 0 :: str_bytes k.2) in Heq.
        apply pair_key_inj in Heq; [|done..]. destruct k, (ob_key o). cbn in *. congruence.
  - intros key i. rewrite length_app. cbn [length]. intros [[_ <-]|[_ Hi']]%lookup_insert_Some; [lia|]. specialize (Hb _ _ Hi'). lia.
Qed.

Definition put_in (x : string * MemoryObject) : Prop := object_in (vector_ok := vector_ok) x.2 /\ is_str x.1.

Lemma prepare_all e m os : forall acc m',
  object_sim (vector_ok := vector_ok) e m -> uniques m = [] -> prepared_ok e m acc m' -> Forall put_in os ->
  exists acc' rs m2,
    fold_res (prepare_put e []) acc (zip (zip os ((fun x => object_key raw_codec x.2) <$> os)) ((fun x => objects m !! ob_key x.2) <$> os)) = Ok acc' /\
    (pf_prepared acc').*1 = (pf_prepared acc).*1 ++ rs /\ put_batch_spec m' os = (Ok rs, m2) /\ prepared_ok e m acc' m2.
Proof.
  induction os as [|[now o] os IH]; intros acc m' Hsim Hu Hok Hin; [exists acc, [], m'; by rewrite app_nil_r|].
  apply Forall_cons in Hin as [[Ho Hnow] Hin]. rewrite !fmap_cons. cbn [zip zip_with fold_res put_batch_spec fst snd].
  destruct (prepare_one e m acc m' now o Hsim Hu Hok Ho Hnow) as (acc1&stored&previous&m1&Hrun&Hp&Hspec&Hok1).
  destruct (IH acc1 m1 Hsim Hu Hok1 Hin) as (acc2&rs&m2&Hrun2&Hp2&Hspec2&Hok2). exists acc2, (stored :: rs), m2.
  rewrite Hrun, bind_Ok, Hrun2, Hspec, Hspec2. split_and!; [done| |done..]. rewrite Hp2, Hp, fmap_app. cbn [fmap list_fmap fst]. by rewrite <-app_assoc.
Qed.

Lemma update_free e m os : object_sim (vector_ok := vector_ok) e m -> uniques m = [] -> forall db,
  foldl (fun e (x : MemoryObject * option MemoryObject) => update_unique_index_cache_for_object x.1 x.2 e) (set_db e db) os = set_db e db.
Proof.
  intros Hsim Hu db. assert (Hno : has_unique_indexes e = false).
  { unfold has_unique_indexes. rewrite (sm_definitions _ _ Hsim). apply not_true_iff_false. intros (ix&Hix%list_elem_of_In&Ht)%existsb_exists.
    by rewrite (not_unique m ix) in Ht. }
  induction os as [|x os IH]; [done|]. cbn [foldl]. rewrite <-IH at 2. f_equal. unfold update_unique_index_cache_for_object.
  change (has_unique_indexes (set_db e db)) with (has_unique_indexes e). by rewrite Hno, orb_true_r.
Qed.

Lemma free_inv e m m' : object_sim (vector_ok := vector_ok) e m -> uniques m = [] -> indexes m' = indexes m ->
  (forall k o, objects m' !! k = Some o -> ob_key o = k) -> object_inv m'.
Proof.
  intros Hsim Hu Hi Hkeys. split; [done|rewrite Hi; apply Hsim|]. intros k ix Hix Ht. rewrite Hi in Hix.
  rewrite (not_unique m ix) in Ht; [done..|]. apply elem_of_btree_values. eauto.
Qed.

Lemma parse_stored_spec e m (k : ObjectKey) : object_sim (vector_ok := vector_ok) e m ->
  parse_stored raw_codec (json_text <$> objects m !! k) = Ok (objects m !! k).
Proof.
  intros Hsim. destruct (objects m !! k) as [o|] eqn:Ho; [|done]. unfold parse_stored. cbn [fmap option_fmap option_map].
  rewrite deserialize_raw; [done|]. by destruct (os_object_ok _ _ _ (sm_stored _ _ Hsim) _ _ Ho).
Qed.

Lemma put_batch_sim e m os r e' :
  object_sim (vector_ok := vector_ok) e m -> uniques m = [] -> Forall put_in os -> pe_put_objects_batch os e = (r, e') ->
  (r = (put_batch_spec m os).1 /\ object_sim (vector_ok := vector_ok) e' (put_batch_spec m os).2) \/
  (refused (D := D) r /\ object_sim (vector_ok := vector_ok) e' m).
Proof.
  intros Hsim Hu Hin. unfold pe_put_objects_batch. case_bool_decide as Hnil.
  { intros [= <- <-]. apply nil_length_inv in Hnil as ->. by left. }
  rewrite pbind_pget, (sm_codec _ _ Hsim), (sm_definitions _ _ Hsim). cbv zeta. fold (uniques m). rewrite Hu.
  assert (Hread : read_many e ((fun x => object_key raw_codec x.2) <$> os) = Ok ((fun x => json_text <$> objects m !! ob_key x.2) <$> os)).
  { pose proof (read_many_spec e m ((fun x => ob_key x.2) <$> os) Hsim) as Hr. rewrite <-!list_fmap_compose in Hr. apply Hr.
    apply Forall_fmap. eapply Forall_impl; [exact Hin|]. by intros x [[_ ?] _]. }
  assert (Hparse : map_res (parse_stored raw_codec) ((fun x : string * MemoryObject => json_text <$> objects m !! ob_key x.2) <$> os)
    = Ok ((fun x => objects m !! ob_key x.2) <$> os)).
  { clear Hread Hnil Hin. induction os as [|x os IH]; [done|]. rewrite !fmap_cons. cbn [map_res]. by rewrite (parse_stored_spec e m), bind_Ok, IH by done. }
  rewrite Hread, pbind_plift, Hparse, pbind_plift, bool_decide_true by done.
  destruct (prepare_all e m os (mkPut [] ∅ ∅ []) m Hsim Hu) as (acc&rs&m2&Hrun&Hp&Hspec&Hok); [|done|].
  { split; [done|apply writes_ok_nil|apply Hsim|done|]. intros key i Hi. cbn [pf_by_key] in Hi. by rewrite lookup_empty in Hi. }
  rewrite Hrun, pbind_plift, Hspec. cbn [fst snd]. cbn [pf_prepared fmap list_fmap app] in Hp. unfold pbind at 1. destruct (commit _ e) as [rc ec] eqn:Hc.
  destruct (commit_cases e _ rc ec (sm_kv _ _ Hsim) (pp_writes _ _ _ _ Hok) Hc) as (db&->&Hdb&[[-> Hview]|(err&->&Hf&Hview)]); intros [= <- <-].
  2: { right. split; [by exists err|by apply sim_refused]. }
  left. split; [by rewrite Hp|]. rewrite (update_free e m) by done. destruct Hok as [Hi _ Hst _ _].
  assert (Hst' : objects_stored (vector_ok := vector_ok) (kv_view db) (objects m2) (indexes m)) by (eapply objects_stored_ext; [exact Hview|exact Hst]).
  split; try done; try apply Hsim.
  - by rewrite Hi.
  - eapply free_inv; [done..|]. intros k o Ho. by destruct (os_object_ok _ _ _ Hst' _ _ Ho).
  - rewrite Hi. apply Hsim.
  - intros Hcomp t k. assert (Hu2 : uniques m2 = []) by (unfold uniques in *; by rewrite Hi). rewrite Hu2.
    rewrite (sm_cache _ _ Hsim Hcomp t k), Hu. split; intros (ix&o&Hix&_); by apply elem_of_nil in Hix.
Qed.
End batch.
