(* ===== verification/PObjectTheorems.v ===== *)
(** * thingd: the properties of the persistent objects

    The persistent objects follow their specification on an in-memory engine, unique
    indexes hold whatever the store refuses, the cached check of unique values is the scan
    of the in-memory engine, and a batch of puts that breaks a unique index. *)

From S2P Require Import Prelude Wal Table Layer Database ThingDb Keyspace RamScan Model Objects Storage Persistent PSample PStore PQueue PObjects PObjectSpec PObjectCache PObjectPut PObjectWrite PObjectIndex PObjectBatch.
From Stdlib Require Import SpecFloat.

(** ** Runs *)

Inductive PObjectOp :=
| PutOne (now : string) (o : MemoryObject)
| PutExpected (now : string) (o : MemoryObject) (options : PutObjectOptions)
| PutReplicated (now : string) (o : MemoryObject) (options : PutObjectOptions)
| DeleteOne (collection id : string)
| DeleteMany (keys : list (string * string))
| CreateIndex (ix : IndexDefinition)
| DeleteIndex (collection field : string)
| Reopen.

Inductive ObjectAnswer := Stored (o : MemoryObject) | Deleted (existed : bool) | Removed (count : Z) | Done.

Section runs.
Context `{KvLaws D} `{SerdeJson} {vector_ok : list spec_float -> Prop}.
Context `{!Serde MemoryObject (object_wt vector_ok)} `{!ReadMetadata} `{!Serde IndexDefinition index_wt} {display_inj : DisplayInjective}.
Implicit Types (e : PersistentEngine D) (m : MemoryEngine) (o : MemoryObject) (op : PObjectOp).

Definition answer_with {A S} (f : A -> ObjectAnswer) (x : thingd_result A * S) : thingd_result ObjectAnswer * S := (f <$> x.1, x.2).

Definition pe_object_step op e : thingd_result ObjectAnswer * PersistentEngine D :=
  match op with
  | PutOne now o => answer_with Stored (pe_put_object now o e)
  | PutExpected now o options => answer_with Stored (pe_put_object_with_options now o options e)
  | PutReplicated now o options => answer_with Stored (pe_put_object_with_source_metadata now o options e)
  | DeleteOne collection id => answer_with Deleted (pe_delete_object collection id e)
  | DeleteMany keys => answer_with Removed (pe_delete_objects_batch keys e)
  | CreateIndex ix => answer_with (fun _ => Done) (pe_create_index_definition ix e)
  | DeleteIndex collection field => answer_with Deleted (pe_delete_index collection field e)
  | Reopen => answer_with (fun _ => Done) (open_objects e)
  end.

(** The operations on the in-memory engine.  Deletes and index deletions are its own; puts
    keep the creation time of the object they replace and refuse a body that is not JSON
    where the collection has a unique index, and the creation of a unique index refuses a
    collection with a body that is not JSON. *)
Definition object_spec_step op m : thingd_result ObjectAnswer * MemoryEngine :=
  match op with
  | PutOne now o => answer_with Stored (put_spec m now o)
  | PutExpected now o options => answer_with Stored (put_options_spec m now o options)
  | PutReplicated now o options => answer_with Stored (put_source_spec m now o options)
  | DeleteOne collection id => answer_with Deleted (delete_object m collection id)
  | DeleteMany keys => answer_with Removed (delete_batch_spec m keys)
  | CreateIndex ix => answer_with (fun _ => Done) (create_index_spec m ix)
  | DeleteIndex collection field => answer_with Deleted (delete_index m collection field)
  | Reopen => (Ok Done, m)
  end.

Definition object_op_ok op : Prop :=
  match op with
  | PutOne now o | PutExpected now o _ | PutReplicated now o _ => object_in (vector_ok := vector_ok) o /\ is_str now
  | DeleteOne collection _ | DeleteIndex collection _ => no_nul collection
  | DeleteMany keys => Forall (fun k : string * string => no_nul k.1) keys
  | CreateIndex ix => index_in ix
  | Reopen => True
  end.

Lemma put_spec_size m now o : (size (objects (put_spec m now o).2) <= S (size (objects m)))%nat.
Proof.
  unfold put_spec. destruct (rejects_text m o); [cbn; lia|]. destruct (validate_unique_indexes m o); [|cbn; lia]. cbn [snd objects set_objects].
  rewrite map_size_insert. destruct (objects m !! ob_key o); cbn; lia.
Qed.

Lemma spec_step_size op m : (size (objects (object_spec_step op m).2) <= S (size (objects m)))%nat.
Proof.
  destruct op as [now o|now o options|now o options|c i|keys|ix|c f|]; cbn [object_spec_step answer_with snd]; try lia.
  - apply put_spec_size.
  - unfold put_options_spec. destruct (expected_spec m o options); [apply put_spec_size|cbn; lia].
  - unfold put_source_spec. destruct (expected_source m o options); [|cbn; lia]. pose proof (put_spec_size m now o) as Hs.
    destruct (put_spec m now o) as [[stored|err] m1] eqn:Hspec; [|done]. destruct (put_spec_Ok _ _ _ _ _ Hspec) as [-> Hk]. cbn [snd objects set_objects] in *.
    rewrite map_size_insert. unfold with_source_metadata. cbn [ob_key stamp]. by rewrite Hk.
  - cbn [delete_object snd objects set_objects]. rewrite map_size_delete. destruct (objects m !! (c, i)); cbn; lia.
  - cbn [delete_batch_spec snd objects set_objects]. generalize (objects m) as O. induction keys as [|k keys IH]; intros O; cbn [foldl]; [lia|].
    etrans; [apply IH|]. rewrite map_size_delete. destruct (O !! k); cbn; lia.
  - unfold create_index_spec. destruct (_ || _); [cbn; lia|]. destruct (if ix_unique ix then _ else _); cbn; lia.
  - cbn. lia.
Qed.

(** Every outcome of a step leaves the engine related to some in-memory engine: that of the
    specification unless the store refused a commit. *)
Lemma object_step_sim op e m r e' :
  object_sim (vector_ok := vector_ok) e m -> few_objects m -> object_op_ok op -> pe_object_step op e = (r, e') ->
  (r = (object_spec_step op m).1 /\ object_sim (vector_ok := vector_ok) e' (object_spec_step op m).2) \/
  (refused (D := D) r /\
   exists m', object_sim (vector_ok := vector_ok) e' m' /\ (size (objects m') <= S (size (objects m)))%nat).
Proof using display_inj.
  intros Hsim Hfew Hok. assert (Href : forall A (f : A -> ObjectAnswer) (x : thingd_result A), refused (D := D) x -> refused (D := D) (f <$> x)) by (intros A f x (err&->&?); by exists err).
  destruct op as [now o|now o options|now o options|c i|keys|ix|c f|]; cbn [pe_object_step object_spec_step object_op_ok answer_with fst snd] in *; intros [= <- <-].
  - destruct Hok as [Ho Hn]. destruct (put_object_sim e m now o _ _ Hsim Hfew Ho Hn (surjective_pairing _)) as [[Hr Hs]|[Hr Hs]]; [left; by rewrite Hr|right; eauto 8].
  - destruct Hok as [Ho Hn]. destruct (put_options_sim e m now o options _ _ Hsim Hfew Ho Hn (surjective_pairing _)) as [[Hr Hs]|[Hr Hs]]; [left; by rewrite Hr|right; eauto 8].
  - destruct Hok as [Ho Hn]. destruct (put_source_sim e m now o options _ _ Hsim Hfew Ho Hn (surjective_pairing _)) as [[Hr Hs]|[Hr Hs]]; [left; by rewrite Hr|right].
    split; [by apply Href|]. destruct Hs as [Hs|Hs]; [eauto|]. eexists. split; [exact Hs|]. apply put_spec_size.
  - destruct (delete_object_sim e m c i _ _ Hsim Hok (surjective_pairing _)) as [[Hr Hs]|[Hr Hs]]; [left; by rewrite Hr|right; eauto 8].
  - destruct (delete_batch_sim e m keys _ _ Hsim Hok (surjective_pairing _)) as [[Hr Hs]|[Hr Hs]]; [left; by rewrite Hr|right; eauto 8].
  - destruct (create_index_sim e m ix _ _ Hsim Hfew Hok (surjective_pairing _)) as [[Hr Hs]|[Hr Hs]]; [left; by rewrite Hr|right; eauto 8].
  - destruct (delete_index_sim e m c f _ _ Hsim Hok (surjective_pairing _)) as [[Hr Hs]|[Hr Hs]]; [left; by rewrite Hr|right; eauto 8].
  - left. destruct (open_objects_spec e m) as (e'&Hopen&Hs); [apply Hsim..|]. by rewrite Hopen.
Qed.

Definition run_objects (ops : list PObjectOp) e : PersistentEngine D := foldl (fun e op => (pe_object_step op e).2) e ops.

Lemma run_sim ops : forall e m,
  object_sim (vector_ok := vector_ok) e m -> Forall object_op_ok ops -> Z.of_nat (size (objects m) + length ops) <= U64_MAX ->
  exists m', object_sim (vector_ok := vector_ok) (run_objects ops e) m'.
Proof using display_inj.
  unfold run_objects. induction ops as [|op ops IH]; intros e m Hsim Hops Hsize; [eauto|]. apply Forall_cons in Hops as [Hop Hops]. cbn [foldl length] in *.
  destruct (object_step_sim op e m _ _ Hsim ltac:(unfold few_objects; lia) Hop (surjective_pairing _)) as [[_ Hs]|(_&m'&Hs&Hm)].
  - eapply IH; [exact Hs|done|]. pose proof (spec_step_size op m). lia.
  - eapply IH; [exact Hs|done|]. lia.
Qed.

(** ** Runs that the store does not refuse *)

Fixpoint pe_object_run (ops : list PObjectOp) e : list (thingd_result ObjectAnswer) * PersistentEngine D :=
  match ops with
  | [] => ([], e)
  | op :: ops => let '(r, e) := pe_object_step op e in let '(rs, e) := pe_object_run ops e in (r :: rs, e)
  end.

Fixpoint object_spec_run (ops : list PObjectOp) m : list (thingd_result ObjectAnswer) * MemoryEngine :=
  match ops with
  | [] => ([], m)
  | op :: ops => let '(r, m) := object_spec_step op m in let '(rs, m) := object_spec_run ops m in (r :: rs, m)
  end.

(** The store took the commits. *)
Definition taken (r : thingd_result ObjectAnswer) : Prop := ~ refused (D := D) r.

Lemma object_run_sim ops : forall e m,
  object_sim (vector_ok := vector_ok) e m -> Forall object_op_ok ops -> Z.of_nat (size (objects m) + length ops) <= U64_MAX ->
  Forall taken (pe_object_run ops e).1 ->
  (pe_object_run ops e).1 = (object_spec_run ops m).1 /\ object_sim (vector_ok := vector_ok) (pe_object_run ops e).2 (object_spec_run ops m).2 /\
  (size (objects (object_spec_run ops m).2) <= size (objects m) + length ops)%nat.
Proof using display_inj.
  induction ops as [|op ops IH]; intros e m Hsim Hops Hsize Htaken; [cbn; split_and!; [done..|lia]|]. apply Forall_cons in Hops as [Hop Hops].
  cbn [pe_object_run object_spec_run length] in *. destruct (pe_object_step op e) as [r e1] eqn:Hstep. pose proof (spec_step_size op m) as Hsz.
  destruct (object_step_sim op e m r e1 Hsim ltac:(unfold few_objects; lia) Hop Hstep) as [[-> Hs]|[Hbad _]].
  - destruct (object_spec_step op m) as [rm m1]. cbn [fst snd] in *. specialize (IH e1 m1 Hs Hops ltac:(lia)).
    destruct (pe_object_run ops e1) as [rs e2], (object_spec_run ops m1) as [rs' m2]. cbn [fst snd] in *. apply Forall_cons in Htaken as [_ Ht].
    destruct (IH Ht) as (->&Hs2&Hsz2). split_and!; [done..|lia].
  - exfalso. destruct (pe_object_run ops e1) as [rs e2]. cbn [fst] in Htaken. apply Forall_cons in Htaken as [Hnr _]. by apply Hnr.
Qed.
End runs.

(** ** Properties *)

Section properties.
Context `{KvLaws D} `{SerdeJson} {vector_ok : list spec_float -> Prop}.
Context `{!Serde MemoryObject (object_wt vector_ok)} `{!ReadMetadata} `{!Serde IndexDefinition index_wt} {display_inj : DisplayInjective}.

(** C24. Unique indexes hold: after any run of puts, conditional and replicated puts, deletes,
    batch deletes, index definitions, index deletions and restarts, whichever commits the
    store refuses, two stored objects with the same value of a uniquely indexed field are
    the same object.  Values are the same when they are written alike: a zero and a negative
    zero are two values. *)
Theorem persistent_unique_indexes (e : PersistentEngine D) m ops ix id1 id2 o1 o2 v :
  object_sim (vector_ok := vector_ok) e m -> Forall (object_op_ok (vector_ok := vector_ok)) ops ->
  Z.of_nat (size (objects m) + length ops) <= U64_MAX -> no_nul (ix_collection ix) ->
  ix ∈ pe_index_definitions (run_objects ops e) -> ix_unique ix = true ->
  pe_get_object (run_objects ops e) (ix_collection ix) id1 = Ok (Some o1) ->
  pe_get_object (run_objects ops e) (ix_collection ix) id2 = Ok (Some o2) ->
  index_value o1 ix = Some v -> index_value o2 ix = Some v -> id1 = id2.
Proof using display_inj.
  intros Hsim Hops Hsize Hn Hix Hu Hget1 Hget2 Hv1 Hv2. destruct (run_sim ops e m Hsim Hops Hsize) as [m' Hs]. unfold pe_get_object in *.
  rewrite (sm_codec _ _ Hs) in *. rewrite (sm_definitions _ _ Hs), elem_of_btree_values in Hix. destruct Hix as [k Hk].
  pose proof (sim_read _ _ (ix_collection ix, id1) Hs Hn) as Hr1. pose proof (sim_read _ _ (ix_collection ix, id2) Hs Hn) as Hr2. cbn [fst snd] in *.
  assert (Hl1 : objects m' !! (ix_collection ix, id1) = Some o1) by congruence. assert (Hl2 : objects m' !! (ix_collection ix, id2) = Some o2) by congruence.
  pose proof (oi_unique _ (sm_memory _ _ Hs) k ix Hk Hu o1 o2 _ _ v Hl1 Hl2 eq_refl eq_refl Hv1 Hv2). congruence.
Qed.


(** The cached check of unique values is the scan: whether the cache is complete or not, the
    engine accepts a put exactly when the in-memory engine, which compares with every
    object, does, and names the same index, except that it also refuses a body that is not
    JSON where the collection has a unique index. *)
Theorem unique_check_agrees (e : PersistentEngine D) m o :
  object_sim (vector_ok := vector_ok) e m -> few_objects m -> no_nul (ob_key o).1 ->
  pe_validate_unique_indexes e o = if rejects_text m o then Err invalid_json else validate_unique_indexes m o.
Proof using display_inj. apply validate_agrees. Qed.

(** A batch of puts is its puts in order, in one commit: without unique indexes the batch
    returns what the puts return one after the other, repeated keys included, or the store
    refuses it and nothing is stored. *)
Theorem put_batch_sequential (e : PersistentEngine D) m os r e' :
  object_sim (vector_ok := vector_ok) e m -> uniques m = [] -> Forall (put_in (vector_ok := vector_ok)) os ->
  pe_put_objects_batch os e = (r, e') ->
  (r = (put_batch_spec m os).1 /\ object_sim (vector_ok := vector_ok) e' (put_batch_spec m os).2) \/
  (refused (D := D) r /\ object_sim (vector_ok := vector_ok) e' m).
Proof. apply put_batch_sim. Qed.
End properties.

(** ** Samples *)

#[local] Existing Instance sample_crc32.
#[local] Existing Instance sample_codec.

(** Every text but the empty one is an object whose field [email] is the text. *)
Definition email_json : SerdeJson := {|
  number := Z;
  as_f64 := fun _ => None;
  from_str := fun s => if bool_decide (s = "") then None else Some (JObject [("email", JString s)]);
  display_value := fun v => match v with JString s => s | _ => "" end;
|}.
#[local] Existing Instance email_json.

Lemma email_display : DisplayInjective.
Proof.
  assert (Hp : forall v, parsed_value v -> exists s, v = JString s).
  { intros v (text&field&body&Hb&Hv). cbn in Hb. case_bool_decide; [done|]. injection Hb as <-. cbn in Hv.
    destruct (decide ("email" = field)); [|done]. injection Hv as <-. eauto. }
  intros v w (s&->)%Hp (s'&->)%Hp. cbn. by intros ->.
Qed.
#[local] Existing Instance email_display.

Definition no_vectors : list spec_float -> Prop := fun _ => False.

Definition put_object_text (o : MemoryObject) : bytes :=
  put_str (ob_key o).1 ++ put_str (ob_key o).2 ++ put_str (ob_body o) ++ ob_version o :: put_str (ob_created_at o) ++ put_str (ob_updated_at o).
Definition get_object_text : reader MemoryObject := fun b =>
  '(collection, b) ← get_str b; '(id, b) ← get_str b; '(body, b) ← get_str b; '(version, b) ← get_int b;
  '(created, b) ← get_str b; '(updated, b) ← get_str b;
  Some (mkObject (collection, id) body version created updated None, b).

Lemma get_put_object o : object_wt no_vectors o -> get_object_text (put_object_text o) = Some (o, []).
Proof.
  intros [_ _ _ _ _ _ Hv]. unfold get_object_text, put_object_text. rewrite <-(app_nil_r (put_str (ob_updated_at o))).
  repeat (rewrite ?get_put_str, ?get_put_int; cbn [mbind option_bind]). destruct o as [[] ???? []]; cbn in *; done.
Qed.

#[local, refine] Instance sample_serde_object : Serde MemoryObject (object_wt no_vectors) := {|
  json_to_vec o := Ok (put_object_text o);
  json_from_slice b := finish (get_object_text b);
|}.
Proof. intros o Ho. eexists. split; [done|]. by rewrite get_put_object. Defined.

#[local, refine] Instance sample_metadata : ReadMetadata := {|
  metadata_from_slice b := write_metadata <$> finish (get_object_text b);
|}.
Proof. intros o Ho. change (json_text o) with (put_object_text o). by rewrite get_put_object. Defined.

Definition put_index_text (ix : IndexDefinition) : bytes := put_str (ix_collection ix) ++ put_str (ix_field ix) ++ [Z.b2z (ix_unique ix)].
Definition get_index_text : reader IndexDefinition := fun b =>
  '(collection, b) ← get_str b; '(field, b) ← get_str b; '(unique, b) ← get_int b;
  Some (mkIndex collection field (unique =? 1), b).

#[local, refine] Instance sample_serde_index : Serde IndexDefinition index_wt := {|
  json_to_vec ix := Ok (put_index_text ix);
  json_from_slice b := finish (get_index_text b);
|}.
Proof.
  intros ix _. eexists. split; [done|]. unfold get_index_text, put_index_text.
  repeat (rewrite ?get_put_str, ?get_put_int; cbn [mbind option_bind]). by destruct ix as [?? []].
Defined.

Definition object_engine : PersistentEngine RamKeyspaces := store_engine ∅ false.
Definition user (id email : string) : MemoryObject := mkObject ("users", id) email 0 "" "" None.
Definition email_index : IndexDefinition := mkIndex "users" "email" true.

Lemma object_engine_sim : object_sim (vector_ok := no_vectors) object_engine new_engine.
Proof.
  assert (Hv : forall n, kv_view (pe_db object_engine) n = ∅) by done. split; [done|done| |apply new_engine_inv|done|].
  - split; rewrite ?Hv; try apply indexed_empty; intros k x Hx; cbn in Hx; by rewrite lookup_empty in Hx.
  - intros _ t k. change (pe_unique_index_values object_engine) with (∅ : UniqueCache). rewrite lookup_empty. split; [done|].
    by intros (ix&o&Hix%elem_of_nil&_).
Qed.

Lemma user_in id email :
  (utf8_valid (str_bytes id) && (zlen (str_bytes id) <=? I64_MAX)) = true -> (utf8_valid (str_bytes email) && (zlen (str_bytes email) <=? I64_MAX)) = true ->
  object_in (vector_ok := no_vectors) (user id email).
Proof.
  intros Hid Hemail. split; [|by apply sample_nul]. split; try (by apply sample_str); [|done]. cbn. unfold in_u64, U64_MAX. lia.
Qed.

Definition sample_object_ops : list PObjectOp :=
  [PutOne "t1" (user "a" "x"); CreateIndex email_index; PutOne "t2" (user "b" "x"); PutExpected "t3" (user "a" "y") (mkPutOptions true (Some 1));
   PutReplicated "t4" (user "b" "x") (mkPutOptions true None); DeleteMany [("users", "a"); ("users", "c")]; Reopen; PutOne "t5" (user "c" "x")].

Lemma sample_object_ops_ok : Forall (object_op_ok (vector_ok := no_vectors)) sample_object_ops.
Proof.
  repeat (apply Forall_cons; split); try apply Forall_nil; try (split; [by apply user_in|by apply sample_str]); try done.
  - split; [split; by apply sample_str|by apply sample_nul].
  - by apply sample_nul.
  - by apply sample_nul.
Qed.

Lemma taken_Ok a : taken (D := RamKeyspaces) (Ok a).
Proof. by intros (err&?&_). Qed.
Lemma taken_conflict msg : taken (D := RamKeyspaces) (Err (Conflict msg)).
Proof. intros (err&[= <-]&(db&ws&db'&text&_&_&_&Hs)). discriminate Hs. Qed.

Lemma sample_object_taken : Forall (taken (D := RamKeyspaces)) (pe_object_run sample_object_ops object_engine).1.
Proof.
  assert (Hrun : (pe_object_run sample_object_ops object_engine).1 =
    [Ok (Stored (mkObject ("users", "a") "x" 1 "t1" "t1" None)); Ok Done; Err (unique_conflict email_index);
     Ok (Stored (mkObject ("users", "a") "y" 2 "t1" "t3" None)); Ok (Stored (mkObject ("users", "b") "x" 1 "t4" "t4" None));
     Ok (Removed 1); Ok Done; Err (unique_conflict email_index)]) by (vm_compute; done).
  rewrite Hrun. clear Hrun. unfold unique_conflict.
  repeat (apply Forall_cons; split); try apply Forall_nil; first [apply taken_Ok|apply taken_conflict|done].
Qed.


Lemma persistent_unique_indexes_witness : "b" = "b".
Proof.
  refine (persistent_unique_indexes (vector_ok := no_vectors) object_engine new_engine sample_object_ops email_index "b" "b"
    (mkObject ("users", "b") "x" 1 "t4" "t4" None) (mkObject ("users", "b") "x" 1 "t4" "t4" None) (JString "x")
    object_engine_sim sample_object_ops_ok _ _ _ _ _ _ _ _); try (vm_compute; done).
  - by apply sample_nul.
  - apply list_elem_of_In. vm_compute. by left.
Defined.

Definition indexed_engine : PersistentEngine RamKeyspaces := (pe_create_index_definition email_index object_engine).2.
Definition indexed_memory : MemoryEngine := (create_index_spec new_engine email_index).2.

Lemma indexed_engine_sim : object_sim (vector_ok := no_vectors) indexed_engine indexed_memory.
Proof.
  assert (Hrun : (pe_create_index_definition email_index object_engine).1 = Ok ()) by (vm_compute; reflexivity).
  assert (Hin : index_in email_index) by (split; [split; by apply sample_str|by apply sample_nul]).
  assert (Hfew : few_objects new_engine) by (vm_compute; done).
  pose proof (create_index_sim object_engine new_engine email_index _ _ object_engine_sim Hfew Hin (surjective_pairing _)) as Hor.
  fold indexed_engine indexed_memory in Hor. rewrite Hrun in Hor. destruct Hor as [[_ Hs]|[(err&Hr&_) _]]; [exact Hs|discriminate Hr].
Qed.

Lemma unique_check_agrees_witness :
  pe_validate_unique_indexes indexed_engine (user "a" "x")
  = if rejects_text indexed_memory (user "a" "x") then Err invalid_json else validate_unique_indexes indexed_memory (user "a" "x").
Proof. apply (unique_check_agrees (vector_ok := no_vectors)); [apply indexed_engine_sim|vm_compute; done|by apply sample_nul]. Defined.

Lemma put_batch_sequential_witness :
  let os := [("t1", user "a" "x"); ("t2", user "a" "y")] in let '(r, e') := pe_put_objects_batch os object_engine in
  (r = (put_batch_spec new_engine os).1 /\ object_sim (vector_ok := no_vectors) e' (put_batch_spec new_engine os).2) \/
  (refused (D := RamKeyspaces) r /\ object_sim (vector_ok := no_vectors) e' new_engine).
Proof.
  intros os. destruct (pe_put_objects_batch os object_engine) as [r e'] eqn:Hrun.
  apply (put_batch_sequential (vector_ok := no_vectors) object_engine new_engine os r e'); [apply object_engine_sim|done| |done].
  repeat (apply Forall_cons; split); try apply Forall_nil; split; (by apply user_in || by apply sample_str).
Defined.

(** A batch of puts can break a unique index: users a and b have the values x and y, and one batch
    gives x to b and z to a.  Replacing a's entry of the cache then removes the text x, which
    now belongs to b, so that a later put of x by c is accepted and b and c share the value;
    put one at a time, the same objects leave the entry of b and c is refused. *)
Theorem batch_put_breaks_unique :
  let puts := run_objects [PutOne "t1" (user "a" "x"); PutOne "t1" (user "b" "y")] indexed_engine in
  let '(r, batched) := pe_put_objects_batch [("t2", user "b" "x"); ("t2", user "a" "z")] puts in
  let '(r', broken) := pe_put_object "t3" (user "c" "x") batched in
  let stepped := run_objects [PutOne "t2" (user "a" "z"); PutOne "t2" (user "b" "x")] puts in
  (exists os, r = Ok os) /\ pe_unique_index_cache_complete batched = true /\
  r' = Ok (mkObject ("users", "c") "x" 1 "t3" "t3" None) /\
  pe_get_object broken "users" "b" = Ok (Some (mkObject ("users", "b") "x" 2 "t1" "t2" None)) /\
  pe_get_object broken "users" "c" = Ok (Some (mkObject ("users", "c") "x" 1 "t3" "t3" None)) /\
  (pe_put_object "t3" (user "c" "x") stepped).1 = Err (unique_conflict email_index).
Proof. vm_compute. split; [eexists; reflexivity|]. split_and!; reflexivity. Qed.
