(* ===== verification/PSchema.v ===== *)
(** * thingd: schema documents and migrations of the persistent engine

    Models [impl SchemaStore for PersistentEngine] of [crates/thingd/src/persistent.rs]:
    the current schema document under one key, and the migrations under their ids.
    [schema_sim] relates them to the in-memory engine, with which every operation agrees. *)

From S2P Require Import Prelude Wal Table Layer Database ThingDb Keyspace RamScan Model Objects Storage Persistent PStore PQueue.

Record schema_wt (s : StoredSchema) : Prop := {
  sw_json : is_str (ss_schema_json s);
  sw_hash : is_str (ss_hash s);
  sw_updated : is_str (ss_updated_at s);
}.

Record migration_wt (r : MigrationRecord) : Prop := {
  mw_id : is_str (mr_id r);
  mw_hash : is_str (mr_hash r);
  mw_applied : is_str (mr_applied_at r);
}.

Section operations.
Context `{Kv D} `{!Serde StoredSchema schema_wt} `{!Serde MigrationRecord migration_wt}.
Implicit Types (e : PersistentEngine D).

Definition pe_get_schema_document e : thingd_result (option StoredSchema) :=
  value ← storage_error (kv_get (pe_db e) "schemas" (make_schema_key (pe_codec e)));
  match value with
  | Some data => Some <$> deserialize (pe_codec e) data
  | None => Ok None
  end.

Definition pe_put_schema_document (s : StoredSchema) : PM D unit :=
  let* e := pget in
  let* data := plift (serialize (pe_codec e) s) in
  ks_insert "schemas" (make_schema_key (pe_codec e)) data.

Definition migration_cmp (a b : MigrationRecord) : comparison := key_cmp (mr_id a) (mr_id b).

Definition pe_list_migrations e : thingd_result (list MigrationRecord) :=
  sort_by migration_cmp <$> map_res (fun kv => deserialize (pe_codec e) kv.2) (kv_iter (pe_db e) "migrations").

Definition pe_record_migration (r : MigrationRecord) : PM D unit :=
  let* e := pget in
  let* data := plift (serialize (pe_codec e) r) in
  ks_insert "migrations" (make_migration_key (pe_codec e) (mr_id r)) data.
End operations.

Lemma schema_keyspaces_valid : valid_name "schemas" /\ valid_name "migrations".
Proof. by split; apply (bool_decide_unpack _). Qed.

Section agree.
Context `{KvLaws D} `{!Serde StoredSchema schema_wt} `{!Serde MigrationRecord migration_wt}.
Implicit Types (e : PersistentEngine D) (m : MemoryEngine).

Definition migration_pair (r : MigrationRecord) : bytes * bytes := (str_bytes (mr_id r), json_text r).

Record migration_ok (id : string) (r : MigrationRecord) : Prop := { mo_id : mr_id r = id; mo_wt : migration_wt r }.

Record schema_sim e m : Prop := {
  ss_codec : pe_codec e = raw_codec;
  ss_kv : kv_ok (pe_db e);
  ss_schema : kv_view (pe_db e) "schemas" !! str_bytes "current" = json_text <$> schema m;
  ss_schema_wt : forall s, schema m = Some s -> schema_wt s;
  ss_migrations : indexed (fun r => Some (migration_pair r)) (kv_view (pe_db e) "migrations") (migrations m);
  ss_migration_ok : forall id r, migrations m !! id = Some r -> migration_ok id r;
}.

Lemma migration_inj i r i' r' k v v' :
  migration_ok i r -> migration_ok i' r' -> Some (migration_pair r) = Some (k, v) -> Some (migration_pair r') = Some (k, v') -> i = i'.
Proof. intros [<- _] [<- _] [= <- _] [= Heq _]. by apply str_bytes_inj in Heq. Qed.

Lemma get_schema_sim e m : schema_sim e m -> pe_get_schema_document e = get_schema_document m.
Proof.
  intros Hsim. unfold pe_get_schema_document, get_schema_document. rewrite kv_get_view by (apply Hsim || apply schema_keyspaces_valid).
  cbn [storage_error]. run. rewrite (ss_codec _ _ Hsim). change (make_schema_key raw_codec) with (str_bytes "current"). rewrite (ss_schema _ _ Hsim).
  destruct (schema m) as [s|] eqn:Hs; [|done]. cbn [fmap option_fmap option_map]. by rewrite deserialize_raw by (by apply (ss_schema_wt _ _ Hsim)).
Qed.

Lemma put_schema_sim e m s r e' :
  schema_sim e m -> schema_wt s -> pe_put_schema_document s e = (r, e') ->
  (r = (put_schema_document m s).1 /\ schema_sim e' (put_schema_document m s).2) \/ (refused (D := D) r /\ schema_sim e' m).
Proof.
  intros Hsim Hs. unfold pe_put_schema_document. rewrite pbind_pget, (ss_codec _ _ Hsim), serialize_raw, pbind_plift by done. intros Hrun.
  destruct schema_keyspaces_valid as [Hv1 Hv2]. destruct Hsim as [Hc Hkv Hsch Hswt Hmig Hmok].
  destruct (ks_insert_atomic e _ _ _ r e' Hkv Hv1 (str_bytes_ok "current") Hrun) as (db&->&Hdb&[[-> Hview]|(err&->&Hf&Hview)]).
  - left. split; [done|]. split; try done; cbn [pe_db set_db schema migrations set_schema put_schema_document snd].
    + rewrite Hview by done. unfold put_view. rewrite bool_decide_true by done. apply lookup_insert_eq.
    + by intros s' [= <-].
    + by rewrite Hview.
  - right. split; [by exists err|]. split; try done; cbn [pe_db set_db]; by rewrite Hview.
Qed.

Lemma list_migrations_sim e m : schema_sim e m -> pe_list_migrations e = list_migrations m.
Proof.
  intros Hsim. unfold pe_list_migrations, list_migrations. rewrite (ss_codec _ _ Hsim).
  assert (Hin : forall k r, (k, r) ∈ btree_iter (migrations m) <-> migrations m !! k = Some r) by (intros; apply elem_of_btree_iter).
  assert (Hkeys : Forall (fun p => mr_id p.2 = p.1 /\ migration_wt p.2) (btree_iter (migrations m))).
  { apply Forall_forall. intros [k r] Hk%Hin. by destruct (ss_migration_ok _ _ Hsim _ _ Hk). }
  pose proof (btree_iter_strict (migrations m)) as Hstrict.
  assert (Hiter : kv_iter (pe_db e) "migrations" = (fun p => migration_pair p.2) <$> btree_iter (migrations m)).
  { rewrite kv_iter_entries, <-prefix_entries_nil by (apply Hsim || apply schema_keyspaces_valid).
    apply sorted_entries_ext; [apply prefix_entries_sorted| |].
    - clear Hin. induction Hstrict as [|[k r] l _ IH Hlt]; [constructor|]. apply Forall_cons in Hkeys as [[Hk _] Hkeys]. rewrite fmap_cons.
      constructor; [by apply IH|]. apply Forall_forall. intros x ([k' r']&->&Hx)%list_elem_of_fmap. rewrite Forall_forall in Hlt. rewrite Forall_forall in Hkeys.
      specialize (Hlt _ Hx). destruct (Hkeys _ Hx) as [Hk' _]. cbn [fst snd migration_pair] in *. by rewrite Hk, Hk'.
    - intros [b v]. rewrite elem_of_prefix_entries, (ss_migrations _ _ Hsim b v), list_elem_of_fmap. split.
      + intros [(k&r&Hk&[= <- <-]) _]. exists (k, r). split; [done|]. by apply Hin.
      + intros ([k r]&[= -> ->]&Hk%Hin). split; [by exists k, r|done]. }
  rewrite Hiter.
  assert (Hread : map_res (fun kv : bytes * bytes => deserialize raw_codec kv.2) ((fun p : string * MigrationRecord => migration_pair p.2) <$> btree_iter (migrations m))
    = Ok (btree_values (migrations m))).
  { clear Hiter Hin Hstrict. unfold btree_values. induction Hkeys as [|[k r] l [_ Hr] _ IH]; [done|]. rewrite !fmap_cons. cbn [map_res migration_pair snd].
    rewrite deserialize_raw by done. run. by rewrite IH. }
  rewrite Hread. cbn [fmap result_fmap]. f_equal. apply sort_by_id. unfold btree_values. clear Hiter Hread Hin.
  induction Hstrict as [|[k r] l _ IH Hlt]; [constructor|]. apply Forall_cons in Hkeys as [[Hk _] Hkeys]. rewrite fmap_cons. constructor; [by apply IH|].
  apply Forall_forall. intros r' ([k' ?]&->&Hx)%list_elem_of_fmap. rewrite Forall_forall in Hlt. rewrite Forall_forall in Hkeys.
  specialize (Hlt _ Hx). destruct (Hkeys _ Hx) as [Hk' _]. cbn [fst snd] in *. unfold migration_cmp. rewrite Hk, Hk'. unfold key_lt in Hlt. by rewrite Hlt.
Qed.

Lemma record_migration_sim e m record r e' :
  schema_sim e m -> migration_wt record -> pe_record_migration record e = (r, e') ->
  (r = (record_migration m record).1 /\ schema_sim e' (record_migration m record).2) \/ (refused (D := D) r /\ schema_sim e' m).
Proof.
  intros Hsim Hr. unfold pe_record_migration. rewrite pbind_pget, (ss_codec _ _ Hsim), serialize_raw, pbind_plift by done. intros Hrun.
  destruct schema_keyspaces_valid as [Hv1 Hv2]. destruct Hsim as [Hc Hkv Hsch Hswt Hmig Hmok].
  destruct (ks_insert_atomic e _ _ _ r e' Hkv Hv2 (str_bytes_ok (mr_id record)) Hrun) as (db&->&Hdb&[[-> Hview]|(err&->&Hf&Hview)]).
  - left. split; [done|]. split; try done; cbn [pe_db set_db schema migrations set_schema record_migration snd].
    + by rewrite Hview.
    + rewrite Hview by done. unfold put_view. rewrite bool_decide_true by done.
      pose proof (indexed_update _ migration_ok migration_inj _ _ (mr_id record) record Hmok ltac:(by split) Hmig) as Hu. unfold add_entry, drop_entry in Hu.
      cbn [migration_pair] in Hu. destruct (migrations m !! mr_id record) as [old|] eqn:Hold; [|exact Hu]. cbn [mbind option_bind migration_pair] in Hu.
      destruct (Hmok _ _ Hold) as [Hid _]. by rewrite Hid, insert_delete_eq in Hu.
    + intros id r. rewrite lookup_insert_Some. intros [[<- <-]|[_ ?]]; [by split|by apply Hmok].
  - right. split; [by exists err|]. split; try done; cbn [pe_db set_db]; by rewrite Hview.
Qed.
End agree.
