(* ===== verification/Replication.v ===== *)
(** * thingd: replication

    Models [crates/thingd/src/replication.rs]: the feed of changes that a source records as
    events of a protected stream, its pages and snapshots, and how a replica applies them,
    with a checkpoint, provenance records, tombstones and quarantined conflicts kept as
    objects of protected collections.  The service works over any [ThingStore]; each
    operation of a store that reads the clock does so by itself.

    [serde_json] keeps the fields of an object sorted by name, so the values that [json!]
    builds are written here with sorted fields. *)

From S2P Require Import Prelude Model Objects Events.

(** ** Stores *)

Abbreviation SM S A := (S -> thingd_result A * S).

(** The operations of [ThingStore] that replication uses. *)
Class ThingStore `{SerdeJson} (S : Type) := {
  ts_put_object : MemoryObject -> SM S MemoryObject;
  ts_put_object_with_source_metadata : MemoryObject -> PutObjectOptions -> SM S MemoryObject;
  ts_get_object : S -> string -> string -> thingd_result (option MemoryObject);
  ts_delete_object : string -> string -> SM S bool;
  ts_list_objects : S -> option (list string) -> ListObjectsOptions -> thingd_result (list MemoryObject);
  ts_append_event : MemoryEvent -> SM S MemoryEvent;
  ts_list_events : S -> option string -> ListEventsOptions -> thingd_result (list MemoryEvent);
}.

(** The in-memory engine with the number of times it has read the clock. *)
Definition memory_store `{SerdeJson} (clock : nat -> string) : ThingStore (MemoryEngine * nat) := {|
  ts_put_object o s := let '(r, e) := put_object s.1 (clock s.2) o in (r, (e, S s.2));
  ts_put_object_with_source_metadata o options s :=
    let '(r, e) := put_object_with_source_metadata s.1 (clock s.2) o options in (r, (e, S s.2));
  ts_get_object s collection id := get_object s.1 collection id;
  ts_delete_object collection id s := let '(r, e) := delete_object s.1 collection id in (r, (e, s.2));
  ts_list_objects s collections options := list_objects s.1 collections options;
  ts_append_event ev s := let '(r, e) := append_event s.1 (clock s.2) ev in (r, (e, S s.2));
  ts_list_events s stream options := list_events s.1 stream options;
|}.

(** [u64] numbers of a JSON value. *)
Class JsonNumbers `{SerdeJson} := {
  number_from_u64 : Z -> number;
  number_as_u64 : number -> option Z;
  as_from_u64 n : 0 <= n <= U64_MAX -> number_as_u64 (number_from_u64 n) = Some n;
}.

Section monad.
Context {S : Type}.

Definition sret {A} (a : A) : SM S A := fun s => (Ok a, s).
Definition slift {A} (r : thingd_result A) : SM S A := fun s => (r, s).
Definition sbind {A B} (m : SM S A) (f : A -> SM S B) : SM S B :=
  fun s => match m s with (Ok a, s) => f a s | (Err err, s) => (Err err, s) end.
(** A read of the store. *)
Definition sread {A} (f : S -> thingd_result A) : SM S A := fun s => (f s, s).

Fixpoint sfold {A X} (f : X -> A -> SM S X) (x : X) (l : list A) : SM S X :=
  match l with
  | [] => sret x
  | a :: l => sbind (f x a) (fun x => sfold f x l)
  end.
End monad.

Notation "'do*' x ':=' m 'in' k" := (sbind m (fun x => k))
  (at level 200, x name, m at level 100, k at level 200, right associativity) : thingd_scope.

(** ** Configuration and records *)

Definition REPLICATION_STREAM : string := "__thingd:system:replication".
Definition REPLICATION_STATE_COLLECTION : string := "__thingd:sync_state".
Definition REPLICATION_PROVENANCE_COLLECTION : string := "__thingd:sync_provenance".
Definition REPLICATION_TOMBSTONE_COLLECTION : string := "__thingd:sync_tombstones".
Definition REPLICATION_QUARANTINE_COLLECTION : string := "__thingd:sync_conflicts".

Inductive ReplicationRole := Source | Replica.

#[export] Instance ReplicationRole_eq_dec : EqDecision ReplicationRole.
Proof. solve_decision. Defined.

Record ReplicationConfig := mkReplication {
  rc_source_id : string;
  rc_role : ReplicationRole;
  rc_collections : list string;
}.

Definition source_config (source_id : string) : ReplicationConfig := mkReplication source_id Source [].
Definition replica_config (source_id : string) : ReplicationConfig := mkReplication source_id Replica [].

(** [str::starts_with] of the internal prefix. *)
Definition internal_name (name : string) : bool := String.prefix "__thingd" name.

Definition allowed (config : ReplicationConfig) (collection : string) : bool :=
  negb (internal_name collection)
  && (bool_decide (rc_collections config = []) || existsb (fun c => bool_decide (c = collection)) (rc_collections config)).

Record ReplicationApplyResult := mkApplied {
  ra_applied : Z;
  ra_skipped : Z;
  ra_conflicts : Z;
  ra_last_applied_cursor : Z;
}.
Definition no_changes : ReplicationApplyResult := mkApplied 0 0 0 0.

Record ReplicationSnapshot := mkSnapshot {
  sn_source_id : string;
  sn_cursor : Z;
  sn_objects : list MemoryObject;
  sn_events : list MemoryEvent;
}.

Record ReplicationStatus := mkStatus {
  rs_source_id : string;
  rs_role : ReplicationRole;
  rs_latest_cursor : Z;
  rs_change_count : Z;
  rs_last_applied_cursor : Z;
  rs_quarantined_conflicts : Z;
}.

Definition replication_metadata_id (source_id collection id : string) : string :=
  source_id +:+ ":" +:+ collection +:+ ":" +:+ id.

(** [format!] of a [u64]. *)
Definition show_u64 (n : Z) : string := format_pad 1 n.

Section service.
Context `{SerdeJson} `{!JsonNumbers}.

Record ReplicationChange := mkChange {
  ch_source_id : string;
  ch_cursor : Z;
  ch_idempotency_key : string;
  ch_change : Value number;
}.

Record ReplicationPage := mkPage {
  pg_source_id : string;
  pg_after : Z;
  pg_next : Z;
  pg_changes : list ReplicationChange;
}.

Definition as_str (v : Value number) : option string := match v with JString s => Some s | _ => None end.
Definition as_u64 (v : Value number) : option Z := match v with JNumber n => number_as_u64 n | _ => None end.
Definition str_field (v : Value number) (key : string) : option string := value_get v key ≫= as_str.
Definition u64_field (v : Value number) (key : string) : option Z := value_get v key ≫= as_u64.
Definition json_u64 (n : Z) : Value number := JNumber (number_from_u64 n).

(** [serde_json::from_str(text).unwrap_or(Value::Null)]. *)
Definition parse_or_null (text : string) : Value number := default JNull (from_str text).

Definition upsert_change (o : MemoryObject) : Value number :=
  JObject [("collection", JString (ob_key o).1); ("id", JString (ob_key o).2); ("operation", JString "object.upsert");
    ("payload", JObject [("body", parse_or_null (ob_body o)); ("collection", JString (ob_key o).1);
       ("createdAt", JString (ob_created_at o)); ("id", JString (ob_key o).2); ("updatedAt", JString (ob_updated_at o));
       ("version", json_u64 (ob_version o))])].
Definition delete_change (collection id : string) : Value number :=
  JObject [("collection", JString collection); ("id", JString id); ("operation", JString "object.delete"); ("payload", JNull)].
Definition event_change (ev : MemoryEvent) : Value number :=
  JObject [("collection", JNull); ("id", JNull); ("operation", JString "event.append");
    ("payload", JObject [("body", parse_or_null (ev_body ev)); ("idempotencyKey", JString (ev_idempotency_key ev));
       ("stream", JString (ev_stream ev)); ("type", JString (ev_event_type ev))])].

Section operations.
Context {S : Type} `{!ThingStore S}.
Implicit Types (s : S) (config : ReplicationConfig) (item : ReplicationChange).

(** ** The source *)

Definition record_change config (change : Value number) : SM S unit :=
  if bool_decide (rc_role config = Source) then
    do* _ := ts_append_event (new_event REPLICATION_STREAM (default "change" (str_field change "operation")) (display_value change)) in
    sret ()
  else slift (Err (InvalidInput "replication changes can only be recorded by a source")).

Definition record_object_upsert config (o : MemoryObject) : SM S unit :=
  if allowed config (ob_key o).1 then record_change config (upsert_change o) else sret ().
Definition record_object_delete config (collection id : string) : SM S unit :=
  if allowed config collection then record_change config (delete_change collection id) else sret ().
Definition record_event_append config (ev : MemoryEvent) : SM S unit :=
  if internal_name (ev_stream ev) then sret () else record_change config (event_change ev).

Definition cursor_expired : ThingdError :=
  Conflict "replication cursor is no longer available; bootstrap from a snapshot".

Definition change_of config (ev : MemoryEvent) : option ReplicationChange :=
  (fun change => mkChange (rc_source_id config) (ev_sequence ev) (rc_source_id config +:+ ":" +:+ show_u64 (ev_sequence ev)) change)
    <$> from_str (ev_body ev).

Definition feed_events config s (after limit : Z) : thingd_result ReplicationPage :=
  let limit := Z.max 1 (Z.min limit 1000) in
  _ ← (if 0 <? after then
         first ← ts_list_events s (Some REPLICATION_STREAM) (mkListEvents None (Some 1) None);
         match first with
         | first :: _ => if u64_saturating_add after 1 <? ev_sequence first then Err cursor_expired else Ok ()
         | [] => Ok ()
         end
       else Ok ());
  events ← ts_list_events s (Some REPLICATION_STREAM) (mkListEvents (Some after) (Some limit) None);
  Ok (mkPage (rc_source_id config) after (match last events with Some ev => ev_sequence ev | None => after end)
        (omap (change_of config) events)).

Definition snapshot_limit : Z := 100000.

Definition take_snapshot config s : thingd_result ReplicationSnapshot :=
  objects ← ts_list_objects s None (mkListObjects [] None (Some snapshot_limit) None);
  events ← ts_list_events s None (mkListEvents None (Some snapshot_limit) None);
  changes ← ts_list_events s (Some REPLICATION_STREAM) (mkListEvents None (Some snapshot_limit) None);
  Ok (mkSnapshot (rc_source_id config) (match last changes with Some ev => ev_sequence ev | None => 0 end)
        (List.filter (fun o => allowed config (ob_key o).1) objects)
        (List.filter (fun ev => negb (internal_name (ev_stream ev))) events)).

(** ** Metadata of a replica *)

Definition read_applied_cursor s (source_id : string) : thingd_result Z :=
  found ← ts_get_object s REPLICATION_STATE_COLLECTION ("source:" +:+ source_id);
  Ok (default 0 (o ← found; body ← from_str (ob_body o); u64_field body "lastAppliedCursor")).

Definition cursor_json (source_id : string) (cursor : Z) : Value number :=
  JObject [("lastAppliedCursor", json_u64 cursor); ("sourceId", JString source_id)].
Definition write_applied_cursor (source_id : string) (cursor : Z) : SM S unit :=
  do* _ := ts_put_object (new_object REPLICATION_STATE_COLLECTION ("source:" +:+ source_id) (display_value (cursor_json source_id cursor))) in
  sret ().

Definition provenance_json (source_id : string) (cursor : Z) (collection id : string) (payload : Value number) : Value number :=
  JObject [("collection", JString collection); ("createdAt", JString (default "" (str_field payload "createdAt")));
    ("cursor", json_u64 cursor); ("deleted", JBool false); ("id", JString id); ("sourceId", JString source_id);
    ("sourceVersion", json_u64 (default 0 (u64_field payload "version"))); ("updatedAt", JString (default "" (str_field payload "updatedAt")))].
Definition write_provenance (source_id : string) (cursor : Z) (collection id : string) (payload : Value number) : SM S unit :=
  do* _ := ts_put_object (new_object REPLICATION_PROVENANCE_COLLECTION (replication_metadata_id source_id collection id)
             (display_value (provenance_json source_id cursor collection id payload))) in
  sret ().

Definition conflict_json (collection id : string) : Value number :=
  JObject [("collection", JString collection); ("id", JString id); ("operation", JString "object.upsert");
    ("reason", JString "target_object_has_no_replication_provenance")].
Definition quarantine_json (source_id : string) (cursor : Z) (conflict : Value number) : Value number :=
  JObject [("conflict", conflict); ("cursor", json_u64 cursor); ("sourceId", JString source_id); ("status", JString "quarantined")].
Definition write_conflict (source_id : string) (cursor : Z) (conflict : Value number) : SM S unit :=
  do* _ := ts_put_object (new_object REPLICATION_QUARANTINE_COLLECTION (source_id +:+ ":" +:+ show_u64 cursor)
             (display_value (quarantine_json source_id cursor conflict))) in
  sret ().

(** ** Applying changes *)

Definition replication_conflict (collection id : string) : ThingdError :=
  Conflict ("replication conflict for " +:+ collection +:+ "/" +:+ id).

(** The object that a payload describes. *)
Definition payload_object (collection id : string) (payload : Value number) : MemoryObject :=
  mkObject (collection, id) (display_value (default JNull (value_get payload "body"))) (default 0 (u64_field payload "version"))
    (default "" (str_field payload "createdAt")) (default "" (str_field payload "updatedAt")) None.

Definition apply_object item (collection : option string) : SM S unit :=
  do* collection := slift (ok_or collection (InvalidInput "missing collection")) in
  do* id := slift (ok_or (str_field (ch_change item) "id") (InvalidInput "missing object id")) in
  let payload := default JNull (value_get (ch_change item) "payload") in
  do* existing := sread (fun s => ts_get_object s collection id) in
  let metadata_id := replication_metadata_id (ch_source_id item) collection id in
  do* unknown := (if bool_decide (is_Some existing) then
                    do* provenance := sread (fun s => ts_get_object s REPLICATION_PROVENANCE_COLLECTION metadata_id) in
                    sret (negb (bool_decide (is_Some provenance)))
                  else sret false) in
  if unknown : bool then
    do* _ := write_conflict (ch_source_id item) (ch_cursor item) (conflict_json collection id) in
    slift (Err (replication_conflict collection id))
  else
    do* _ := ts_put_object_with_source_metadata (payload_object collection id payload)
               (mkPutOptions true (ob_version <$> existing)) in
    write_provenance (ch_source_id item) (ch_cursor item) collection id payload.

Definition tombstone_json (source_id : string) (cursor : Z) (collection id : string) : Value number :=
  JObject [("collection", JString collection); ("cursor", json_u64 cursor); ("deleted", JBool true); ("id", JString id);
    ("sourceId", JString source_id)].

Definition apply_delete item (collection : option string) : SM S unit :=
  do* collection := slift (ok_or collection (InvalidInput "missing collection")) in
  do* id := slift (ok_or (str_field (ch_change item) "id") (InvalidInput "missing object id")) in
  do* _ := ts_delete_object collection id in
  do* _ := ts_put_object (new_object REPLICATION_TOMBSTONE_COLLECTION
             (replication_metadata_id (ch_source_id item) collection id)
             (display_value (tombstone_json (ch_source_id item) (ch_cursor item) collection id))) in
  sret ().

Definition with_key (ev : MemoryEvent) (key : string) : MemoryEvent :=
  mkEvent (ev_stream ev) (ev_event_type ev) (ev_body ev) (ev_sequence ev) (ev_created_at ev) key.

Definition apply_event item : SM S unit :=
  do* payload := slift (ok_or (value_get (ch_change item) "payload") (InvalidInput "missing event payload")) in
  do* stream := slift (ok_or (str_field payload "stream") (InvalidInput "missing event stream")) in
  do* event_type := slift (ok_or (str_field payload "type") (InvalidInput "missing event type")) in
  let ev := new_event stream event_type (display_value (default JNull (value_get payload "body"))) in
  do* _ := ts_append_event (with_key ev (ch_idempotency_key item)) in
  sret ().

Definition apply_operation_of item (operation : string) (collection : option string) : SM S unit :=
  if bool_decide (operation = "object.upsert") then apply_object item collection
  else if bool_decide (operation = "object.delete") then apply_delete item collection
  else if bool_decide (operation = "event.append") then apply_event item
  else slift (Err (InvalidInput ("unknown replication operation: " +:+ operation))).

Record ApplyState := mkApply {
  as_result : ReplicationApplyResult;
  as_source_id : option string;
  as_checkpoint : Z;
}.

Definition skip_change (r : ReplicationApplyResult) (last : Z) : ReplicationApplyResult :=
  mkApplied (ra_applied r) (ra_skipped r + 1) (ra_conflicts r) last.
Definition count_change (r : ReplicationApplyResult) (last : Z) : ReplicationApplyResult :=
  mkApplied (ra_applied r + 1) (ra_skipped r) (ra_conflicts r) last.

Definition multiple_sources : ThingdError := InvalidInput "a replication batch cannot contain multiple source IDs".

Definition apply_change config (acc : ApplyState) item : SM S ApplyState :=
  do* _ := slift (match as_source_id acc with
                  | Some existing => if bool_decide (existing = ch_source_id item) then Ok () else Err multiple_sources
                  | None => Ok ()
                  end) in
  let source_id := Some (ch_source_id item) in
  do* checkpoint := (if as_checkpoint acc =? 0 then sread (fun s => read_applied_cursor s (ch_source_id item)) else sret (as_checkpoint acc)) in
  let r := as_result acc in
  if (0 <? ch_cursor item) && (ch_cursor item <=? checkpoint)
  then sret (mkApply (skip_change r (ra_last_applied_cursor r)) source_id checkpoint) else
  do* operation := slift (ok_or (str_field (ch_change item) "operation") (InvalidInput "replication change is missing operation")) in
  let collection := str_field (ch_change item) "collection" in
  let last := Z.max (ra_last_applied_cursor r) (ch_cursor item) in
  if match collection with Some collection => negb (allowed config collection) | None => false end
  then sret (mkApply (skip_change r last) source_id checkpoint) else
  do* _ := apply_operation_of item operation collection in
  sret (mkApply (count_change r last) source_id checkpoint).

Definition apply_changes config (changes : list ReplicationChange) : SM S ReplicationApplyResult :=
  if bool_decide (rc_role config = Replica) then
    do* acc := sfold (apply_change config) (mkApply no_changes None 0) changes in
    do* _ := match as_source_id acc with
             | Some source_id =>
                 if as_checkpoint acc <? ra_last_applied_cursor (as_result acc)
                 then write_applied_cursor source_id (ra_last_applied_cursor (as_result acc)) else sret ()
             | None => sret ()
             end in
    sret (as_result acc)
  else slift (Err (InvalidInput "replication apply requires a replica role")).

(** ** Snapshots on a replica, status *)

Definition apply_snapshot config (snapshot : ReplicationSnapshot) (replace : bool) : SM S ReplicationApplyResult :=
  if bool_decide (rc_role config = Replica) then
    do* _ := (if replace then
                do* existing := sread (fun s => ts_list_objects s None (mkListObjects [] None (Some snapshot_limit) None)) in
                sfold (fun _ o => if allowed config (ob_key o).1
                                  then do* _ := ts_delete_object (ob_key o).1 (ob_key o).2 in sret () else sret ()) () existing
              else sret ()) in
    do* applied := sfold (fun n o => if allowed config (ob_key o).1
                                     then do* _ := ts_put_object_with_source_metadata o default_put_options in sret (n + 1)
                                     else sret n) 0 (sn_objects snapshot) in
    do* _ := sfold (fun _ ev => if negb (internal_name (ev_stream ev)) then do* _ := ts_append_event ev in sret () else sret ())
               () (sn_events snapshot) in
    do* _ := write_applied_cursor (sn_source_id snapshot) (sn_cursor snapshot) in
    sret (mkApplied applied 0 0 (sn_cursor snapshot))
  else slift (Err (InvalidInput "snapshot apply requires a replica role")).

Definition conflict_limit : Z := 10000.

Definition replication_conflicts s : thingd_result (list MemoryObject) :=
  ts_list_objects s (Some [REPLICATION_QUARANTINE_COLLECTION]) (mkListObjects [] None (Some conflict_limit) None).

Definition replication_status config s : thingd_result ReplicationStatus :=
  changes ← ts_list_events s (Some REPLICATION_STREAM) (mkListEvents None None None);
  conflicts ← replication_conflicts s;
  cursor ← read_applied_cursor s (rc_source_id config);
  Ok (mkStatus (rc_source_id config) (rc_role config) (match last changes with Some ev => ev_sequence ev | None => 0 end)
        (zlen changes) cursor (zlen conflicts)).
End operations.
End service.
