(* ===== verification/ReplicaSpec.v ===== *)
(** * thingd: what a replica promises

    [ReplicaStore] states what replication relies on of a store; the in-memory engine
    without unique indexes satisfies it.  [replay] is the meaning of a feed: a map of objects
    and a log of events.  Applying changes to a replica in step with a feed keeps it in
    step. *)

From S2P Require Import Prelude Wal Table Layer Database Keyspace RamScan Model Objects Events Storage Persistent Replication.

(** ** The interface *)

(** An event without its number and time: stream, type, body, idempotency key. *)
Abbreviation LogEntry := (string * string * string * string)%type.
Definition log_entry (ev : MemoryEvent) : LogEntry := (ev_stream ev, ev_event_type ev, ev_body ev, ev_idempotency_key ev).
Definition same_append (x y : LogEntry) : bool := bool_decide (x.1.1.1 = y.1.1.1) && bool_decide (x.2 = y.2).
Definition log_append (x : LogEntry) (log : list LogEntry) : list LogEntry :=
  if negb (bool_decide (x.2 = "")) && existsb (same_append x) log then log else log ++ [x].

Class ReplicaStore `{SerdeJson} (S : Type) `{!ThingStore S} := {
  rep_ok : S -> Prop;
  rep_objects : S -> gmap ObjectKey MemoryObject;
  rep_log : S -> list LogEntry;
  (** How many more events can be numbered. *)
  rep_room : S -> Z;
  rep_get s collection id : rep_ok s -> ts_get_object s collection id = Ok (rep_objects s !! (collection, id));
  rep_list s limit : rep_ok s -> 0 <= limit ->
    ts_list_objects s None (mkListObjects [] None (Some limit) None) = Ok (take (Z.to_nat limit) (btree_values (rep_objects s)));
  rep_put s o : rep_ok s -> exists stored s', ts_put_object o s = (Ok stored, s') /\ rep_ok s' /\
    rep_log s' = rep_log s /\ rep_room s' = rep_room s /\ ob_key stored = ob_key o /\ ob_body stored = ob_body o /\
    rep_objects s' = <[ob_key o := stored]> (rep_objects s);
  rep_put_source s o options : rep_ok s -> 0 < ob_version o -> ob_created_at o <> "" -> ob_updated_at o <> "" ->
    (po_expected_version options = None \/ po_expected_version options = ob_version <$> rep_objects s !! ob_key o) ->
    exists s', ts_put_object_with_source_metadata o options s = (Ok o, s') /\ rep_ok s' /\
      rep_log s' = rep_log s /\ rep_room s' = rep_room s /\ rep_objects s' = <[ob_key o := o]> (rep_objects s);
  rep_delete s collection id : rep_ok s -> exists existed s', ts_delete_object collection id s = (Ok existed, s') /\ rep_ok s' /\
    rep_log s' = rep_log s /\ rep_room s' = rep_room s /\ rep_objects s' = delete (collection, id) (rep_objects s);
  rep_append s ev : rep_ok s -> 0 < rep_room s -> exists stored s', ts_append_event ev s = (Ok stored, s') /\ rep_ok s' /\
    rep_objects s' = rep_objects s /\ rep_room s - 1 <= rep_room s' /\ rep_log s' = log_append (log_entry ev) (rep_log s);
}.

(** ** The in-memory engine *)

Section memory.
Context `{SerdeJson} (clock : nat -> string).

Record memory_ok (s : MemoryEngine * nat) : Prop := {
  mok_events : event_inv s.1;
  mok_free : forall k ix, indexes s.1 !! k = Some ix -> ix_unique ix = false;
}.

Lemma free_validates (e : MemoryEngine) o :
  (forall k ix, indexes e !! k = Some ix -> ix_unique ix = false) -> validate_unique_indexes e o = Ok ().
Proof.
  intros Hfree. unfold validate_unique_indexes. destruct (from_str (ob_body o)) as [body|]; [|done]. apply fold_res_unit, Forall_forall.
  intros ix (k&Hk)%elem_of_btree_values. unfold check_index. by rewrite (Hfree k ix Hk).
Qed.

Lemma memory_known e ev :
  event_inv e -> bool_decide (ev_idempotency_key ev = "") = false ->
  existsb (same_append (log_entry ev)) (log_entry <$> events e) = bool_decide (is_Some (known_event e ev)).
Proof.
  intros Hinv Hk. apply bool_decide_eq_false in Hk. apply eq_bool_prop_intro. rewrite !Is_true_true, bool_decide_eq_true, existsb_exists. split.
  - intros (x&Hx&Hs). apply list_elem_of_In, list_elem_of_fmap in Hx as (y&->&Hy). unfold same_append, log_entry in Hs. cbn in Hs.
    apply andb_true_iff in Hs as [Hs1%bool_decide_eq_true Hs2%bool_decide_eq_true]. exists y. by apply known_event_iff.
  - intros [y Hy]. apply known_event_iff in Hy as (_&Hy&Hs&Hkey); [|done]. exists (log_entry y). split; [by apply list_elem_of_In, list_elem_of_fmap_2|].
    unfold same_append, log_entry. cbn. by rewrite !bool_decide_true.
Qed.

Lemma set_objects_ok (e : MemoryEngine) (n n' : nat) (os : gmap ObjectKey MemoryObject) (vs : gmap (string * string) (list SpecFloat.spec_float)) :
  memory_ok (e, n) -> memory_ok (set_objects e os vs, n').
Proof. intros [[] Hf]. by split. Qed.

Lemma memory_append e n ev :
  memory_ok (e, n) -> 0 < U64_MAX - next_event_sequence e ->
  memory_ok ((append_event e (clock n) ev).2, S n) /\ objects (append_event e (clock n) ev).2 = objects e /\
  U64_MAX - next_event_sequence e - 1 <= U64_MAX - next_event_sequence (append_event e (clock n) ev).2 /\
  log_entry <$> events (append_event e (clock n) ev).2 = log_append (log_entry ev) (log_entry <$> events e) /\
  exists stored, (append_event e (clock n) ev).1 = Ok stored.
Proof.
  intros [Hinv Hf] Hroom. cbn [fst] in *. destruct (append_event_inv e (clock n) ev Hinv) as [Hinv' Hnext]; [lia|].
  unfold log_append. destruct (append_event_cases e (clock n) ev) as [(x&Hx&Hrun)|(Hnone&keys&Hrun&_)]; rewrite Hrun in *; cbn [fst snd] in *.
  - split_and!; [by split|done|lia| |eauto]. pose proof Hx as (Hkey&_)%known_event_iff; [|done]. unfold keyed in Hkey. cbn [log_entry snd].
    rewrite bool_decide_false by done. rewrite memory_known; [|done|by apply bool_decide_eq_false]. by rewrite Hx, bool_decide_true.
  - split_and!; [by split|done|lia| |eauto]. cbn [events set_events]. rewrite fmap_app. cbn [fmap list_fmap log_entry with_sequence].
    destruct (bool_decide (ev_idempotency_key ev = "")) eqn:Hkey.
    + apply bool_decide_eq_true in Hkey. rewrite (bool_decide_true ((log_entry ev).2 = "")) by done. done.
    + rewrite memory_known, Hnone by done. rewrite (bool_decide_false (is_Some None)) by (by intros []). by rewrite andb_false_r.
Qed.
End memory.

#[refine] Definition memory_replica `{SerdeJson} (clock : nat -> string) : ReplicaStore (ThingStore0 := memory_store clock) (MemoryEngine * nat) :=
  @Build_ReplicaStore _ _ (memory_store clock) memory_ok (fun s => objects s.1) (fun s => log_entry <$> events s.1)
    (fun s => U64_MAX - next_event_sequence s.1) _ _ _ _ _ _.
Proof.
  - done.
  - intros [e n] limit _ Hl. cbn [ts_list_objects memory_store fst]. unfold list_objects. cbn [lo_filter lo_sort_by lo_offset lo_limit].
    by rewrite (filter_all (in_collections None)), (filter_all (matches_filter [])).
  - intros [e n] o Hok. destruct (put_object_cases e (clock n) o) as [(err&Hval&_)|(Hval&stored&vs&Hrun&Hk&Hb&_)].
    { by rewrite (free_validates e o (mok_free _ Hok)) in Hval. }
    cbn [ts_put_object memory_store fst snd]. rewrite Hrun. eexists stored, _. split_and!; [done|by eapply set_objects_ok|done..].
  - intros [e n] o options Hok Hv Hc Hu Hexp. cbn [ts_put_object_with_source_metadata memory_store fst snd] in *. unfold put_object_with_source_metadata.
    assert (Hput : match put_object e (clock n) o with
      | (Err error, e) => (Err error, e)
      | (Ok stored, e) =>
        let replicated := mkObject (ob_key stored) (ob_body stored) (if 0 <? ob_version o then ob_version o else ob_version stored)
          (if bool_decide (ob_created_at o = "") then ob_created_at stored else ob_created_at o)
          (if bool_decide (ob_updated_at o = "") then ob_updated_at stored else ob_updated_at o) (ob_vector stored) in
        (Ok replicated, set_objects e (<[ob_key o := replicated]> (objects e)) (vectors e))
      end = (Ok o, set_objects e (<[ob_key o := o]> (objects e)) (vectors (put_object e (clock n) o).2))).
    { destruct (put_object_cases e (clock n) o) as [(err&Hval&_)|(Hval&stored&vs&Hrun&Hk&Hb&Hvec&_)].
      { by rewrite (free_validates e o (mok_free _ Hok)) in Hval. }
      rewrite Hrun, Hk, Hb, Hvec. rewrite (proj2 (Z.ltb_lt 0 (ob_version o))) by done. rewrite !bool_decide_false by done. cbn.
      rewrite insert_insert_eq. by destruct o. }
    exists (set_objects e (<[ob_key o := o]> (objects e)) (vectors (put_object e (clock n) o).2), S n). cbn zeta in Hput.
    assert (Hgo : match po_expected_version options with
      | Some expected => if bool_decide (ob_version <$> objects e !! ob_key o = Some expected) then
          (Ok o, set_objects e (<[ob_key o := o]> (objects e)) (vectors (put_object e (clock n) o).2))
          else (Err (version_conflict e o expected), e)
      | None => (Ok o, set_objects e (<[ob_key o := o]> (objects e)) (vectors (put_object e (clock n) o).2))
      end = (Ok o, set_objects e (<[ob_key o := o]> (objects e)) (vectors (put_object e (clock n) o).2))).
    { destruct (po_expected_version options) as [x|]; [|done]. destruct Hexp as [?|Hexp]; [done|]. by rewrite bool_decide_true by congruence. }
    rewrite Hput, Hgo. split_and!; [done|by eapply set_objects_ok|done..].
  - intros [e n] collection id Hok. cbn. eexists _, _. split_and!; [done|by eapply set_objects_ok|done..].
  - intros [e n] ev Hok Hroom. cbn [ts_append_event memory_store fst snd] in *. destruct (memory_append clock e n ev Hok Hroom) as (Hok'&Ho&Hr&Hl&stored&Hs).
    destruct (append_event e (clock n) ev) as [r e']. cbn [fst snd] in *. exists stored, (e', S n). by rewrite Hs.
Defined.

(** ** JSON texts *)

Lemma value_get_cons `{SerdeJson} (k key : string) (v : Value number) fields :
  value_get (JObject ((k, v) :: fields)) key = if String.eqb k key then Some v else value_get (JObject fields) key.
Proof.
  cbn. destruct (decide (k = key)) as [->|Hne]; [by rewrite String.eqb_refl|]. apply String.eqb_neq in Hne. rewrite Hne. by destruct (list_find _ fields).
Qed.

(** Fields of a value written out. *)
Ltac json_fields := unfold str_field, u64_field; repeat rewrite value_get_cons; cbn [String.eqb Ascii.eqb Bool.eqb mbind option_bind as_str as_u64 json_u64].

Section plain.
Context `{SerdeJson} `{!JsonNumbers}.

(** Values that nest at most [depth] arrays and objects, with sorted field names, whose
    numbers are in a class. *)
Fixpoint shaped (numbers : number -> Prop) (depth : nat) (v : Value number) {struct v} : Prop :=
  match v with
  | JNull | JBool _ => True
  | JNumber n => numbers n
  | JString s => is_str s
  | JArray items =>
      match depth with
      | O => False
      | S depth => (fix all l := match l with [] => True | x :: l => shaped numbers depth x /\ all l end) items
      end
  | JObject fields =>
      match depth with
      | O => False
      | S depth => StronglySorted key_lt fields.*1 /\
          (fix all l := match l with [] => True | x :: l => (is_str x.1 /\ shaped numbers depth x.2) /\ all l end) fields
      end
  end.

(** How deep the parser of [serde_json] goes: it fails on the 128th nested value.  The body of
    an object or event lies two levels down in a change. *)
Definition body_depth : nat := 125.
Definition parse_depth : nat := S (S body_depth).

(** Values are read back as they were printed, within the depth of the parser, if their
    numbers are: the integers of a [u64] and of an [i64] are, and so is a fractional number
    unless the parser, which does not promise the closest value, is off by a digit. *)
Class JsonText := {
  exact_number : number -> Prop;
  exact_u64 z : in_u64 z -> exact_number (number_from_u64 z);
  print_parse v : shaped exact_number parse_depth v -> from_str (display_value v) = Some v;
}.
End plain.
Arguments JsonText {_} _.

(** ** The meaning of a feed *)

(** What a source records. *)
Inductive FeedOp :=
| FeedUpsert (o : MemoryObject)
| FeedDelete (collection id : string)
| FeedEvent (ev : MemoryEvent).

Section feed.
Context `{SerdeJson} `{!JsonNumbers}.
Implicit Types (op : FeedOp) (config : ReplicationConfig) (source : string).

Definition feed_change op : Value number :=
  match op with
  | FeedUpsert o => upsert_change o
  | FeedDelete collection id => delete_change collection id
  | FeedEvent ev => event_change ev
  end.

Definition item_key source (cursor : Z) : string := source +:+ ":" +:+ show_u64 cursor.
Definition feed_item source (x : Z * FeedOp) : ReplicationChange := mkChange source x.1 (item_key source x.1) (feed_change x.2).

(** Objects as the engines store them. *)
Definition feed_ok op : Prop :=
  match op with
  | FeedUpsert o => 0 < ob_version o <= U64_MAX /\ ob_created_at o <> "" /\ ob_updated_at o <> ""
  | _ => True
  end.

Definition passes config op : bool :=
  match op with
  | FeedUpsert o => allowed config (ob_key o).1
  | FeedDelete collection _ => allowed config collection
  | FeedEvent _ => true
  end.

(** The body is parsed and printed on its way. *)
Definition replica_object (o : MemoryObject) : MemoryObject :=
  mkObject (ob_key o) (display_value (parse_or_null (ob_body o))) (ob_version o) (ob_created_at o) (ob_updated_at o) None.

Abbreviation View := (gmap ObjectKey MemoryObject * list LogEntry)%type.

Definition replay_op source (cursor : Z) (w : View) op : View :=
  match op with
  | FeedUpsert o => (<[ob_key o := replica_object o]> w.1, w.2)
  | FeedDelete collection id => (delete (collection, id) w.1, w.2)
  | FeedEvent ev => (w.1, log_append (ev_stream ev, ev_event_type ev, display_value (parse_or_null (ev_body ev)), item_key source cursor) w.2)
  end.

Definition replay_step config source (w : View) (x : Z * FeedOp) : View :=
  if passes config x.2 then replay_op source x.1 w x.2 else w.
Definition replay config source : View -> list (Z * FeedOp) -> View := foldl (replay_step config source).

(** The changes beyond a checkpoint. *)
Definition beyond (checkpoint : Z) (x : Z * FeedOp) : bool := checkpoint <? x.1.

(** ** A replica in step with a view *)

Section replica.
Context {S : Type} `{!ThingStore S} `{!ReplicaStore S}.
Implicit Types s : S.

Record in_step config source s (w : View) : Prop := {
  st_ok : rep_ok s;
  st_objects : forall k, allowed config k.1 = true -> rep_objects s !! k = w.1 !! k;
  st_allowed : forall k o, w.1 !! k = Some o -> allowed config k.1 = true;
  st_known : forall k o, w.1 !! k = Some o ->
    is_Some (rep_objects s !! (REPLICATION_PROVENANCE_COLLECTION, replication_metadata_id source k.1 k.2));
  st_log : rep_log s = w.2;
}.

(** Writes outside the replicated collections leave a replica in step. *)
Lemma internal_not_allowed config collection : internal_name collection = true -> allowed config collection = false.
Proof. unfold allowed. by intros ->. Qed.

Lemma in_step_internal config source s s' w k (o : MemoryObject) :
  in_step config source s w -> rep_ok s' -> rep_log s' = rep_log s -> internal_name k.1 = true ->
  rep_objects s' = <[k := o]> (rep_objects s) -> in_step config source s' w.
Proof.
  intros [Hok Ho Ha Hk Hl] Hok' Hlog Hint Hobj. split; [done| |done| |congruence].
  - intros k' Hk'. rewrite Hobj, lookup_insert_ne; [by apply Ho|]. intros <-. by rewrite internal_not_allowed in Hk'.
  - intros k' o' Hw. rewrite Hobj. destruct (decide (k = (REPLICATION_PROVENANCE_COLLECTION, replication_metadata_id source k'.1 k'.2))) as [->|Hne].
    + by rewrite lookup_insert_eq.
    + rewrite lookup_insert_ne by done. by eapply Hk.
Qed.

(** The collection of checkpoints. *)
Definition same_state s s' : Prop := forall id, rep_objects s' !! (REPLICATION_STATE_COLLECTION, id) = rep_objects s !! (REPLICATION_STATE_COLLECTION, id).

Lemma same_cursor s s' source : rep_ok s -> rep_ok s' -> same_state s s' -> read_applied_cursor s' source = read_applied_cursor s source.
Proof. intros Hok Hok' Hs. unfold read_applied_cursor. by rewrite !rep_get, (Hs _) by done. Qed.

Lemma allowed_not_internal config collection : allowed config collection = true -> internal_name collection = false.
Proof. unfold allowed. intros [?%negb_true_iff _]%andb_true_iff. done. Qed.

Lemma sbind_Ok {A B} (m : SM S A) (f : A -> SM S B) s a s' : m s = (Ok a, s') -> sbind m f s = f a s'.
Proof. unfold sbind. by intros ->. Qed.

Lemma sbind_slift {A B} (a : A) (f : A -> SM S B) s : sbind (slift (Ok a)) f s = f a s.
Proof. done. Qed.

Lemma sbind_get {B} (collection id : string) (f : option MemoryObject -> SM S B) s :
  rep_ok s -> sbind (sread (fun s => ts_get_object s collection id)) f s = f (rep_objects s !! (collection, id)) s.
Proof. intros Hok. unfold sbind, sread. by rewrite rep_get. Qed.

(** Where the local object, if there is one, came from the source. *)
Definition accepts source s (k : ObjectKey) : Prop :=
  is_Some (rep_objects s !! k) -> is_Some (rep_objects s !! (REPLICATION_PROVENANCE_COLLECTION, replication_metadata_id source k.1 k.2)).

(** What each kind of change does to a store. *)
Lemma upsert_applied source cursor o s :
  rep_ok s -> feed_ok (FeedUpsert o) -> accepts source s (ob_key o) ->
  exists stored s', apply_object (feed_item source (cursor, FeedUpsert o)) (Some (ob_key o).1) s = (Ok (), s') /\
    rep_ok s' /\ rep_log s' = rep_log s /\ rep_room s' = rep_room s /\
    rep_objects s' = <[(REPLICATION_PROVENANCE_COLLECTION, replication_metadata_id source (ob_key o).1 (ob_key o).2) := stored]>
      (<[ob_key o := replica_object o]> (rep_objects s)).
Proof.
  intros Hok (Hv&Hc&Hu) Hacc.
  assert (Hnum : number_as_u64 (number_from_u64 (ob_version o)) = Some (ob_version o)) by (apply as_from_u64; lia).
  assert (Hpay : payload_object (ob_key o).1 (ob_key o).2 (JObject [("body", parse_or_null (ob_body o)); ("collection", JString (ob_key o).1);
       ("createdAt", JString (ob_created_at o)); ("id", JString (ob_key o).2); ("updatedAt", JString (ob_updated_at o));
       ("version", json_u64 (ob_version o))]) = replica_object o).
  { unfold payload_object. json_fields. rewrite Hnum. by destruct o as [[] ?????]. }
  unfold apply_object. cbn [ok_or feed_item ch_change ch_source_id ch_cursor feed_change fst snd]. unfold upsert_change. json_fields.
  cbn [ok_or]. rewrite !sbind_slift, sbind_get, <-surjective_pairing by done. cbn [from_option id default]. rewrite Hpay.
  assert (Hgate : (if bool_decide (is_Some (rep_objects s !! ob_key o))
    then do* provenance := sread (fun s => ts_get_object s REPLICATION_PROVENANCE_COLLECTION (replication_metadata_id source (ob_key o).1 (ob_key o).2)) in
         sret (negb (bool_decide (is_Some provenance)))
    else sret false) s = (Ok false, s)).
  { case_bool_decide as Hex; [|done]. rewrite sbind_get by done. by rewrite bool_decide_true by (by apply Hacc). }
  rewrite (sbind_Ok _ _ _ _ _ Hgate).
  destruct (rep_put_source s (replica_object o) (mkPutOptions true (ob_version <$> rep_objects s !! ob_key o)) Hok) as (s1&Hrun&Hok1&Hlog1&Hroom1&Hobj1);
    [cbn; lia|done|done|by right|].
  rewrite (sbind_Ok _ _ _ _ _ Hrun). unfold write_provenance.
  destruct (rep_put s1 (new_object REPLICATION_PROVENANCE_COLLECTION (replication_metadata_id source (ob_key o).1 (ob_key o).2)
    (display_value (provenance_json source cursor (ob_key o).1 (ob_key o).2
      (JObject [("body", parse_or_null (ob_body o)); ("collection", JString (ob_key o).1); ("createdAt", JString (ob_created_at o));
         ("id", JString (ob_key o).2); ("updatedAt", JString (ob_updated_at o)); ("version", json_u64 (ob_version o))])))) Hok1)
    as (stored&s2&Hrun2&Hok2&Hlog2&Hroom2&_&_&Hobj2).
  rewrite (sbind_Ok _ _ _ _ _ Hrun2). exists stored, s2. cbn [ob_key new_object replica_object] in *. split_and!; [done..|congruence|congruence|congruence].
Qed.

Lemma delete_applied source cursor collection i s :
  rep_ok s -> exists stored s', apply_delete (feed_item source (cursor, FeedDelete collection i)) (Some collection) s = (Ok (), s') /\
    rep_ok s' /\ rep_log s' = rep_log s /\ rep_room s' = rep_room s /\
    rep_objects s' = <[(REPLICATION_TOMBSTONE_COLLECTION, replication_metadata_id source collection i) := stored]> (delete (collection, i) (rep_objects s)).
Proof.
  intros Hok. unfold apply_delete. cbn [ok_or feed_item ch_change ch_source_id ch_cursor feed_change fst snd]. unfold delete_change. json_fields.
  cbn [ok_or]. rewrite !sbind_slift. destruct (rep_delete s collection i Hok) as (existed&s1&Hrun&Hok1&Hlog1&Hroom1&Hobj1).
  rewrite (sbind_Ok _ _ _ _ _ Hrun).
  destruct (rep_put s1 (new_object REPLICATION_TOMBSTONE_COLLECTION (replication_metadata_id source collection i)
    (display_value (tombstone_json source cursor collection i))) Hok1) as (stored&s2&Hrun2&Hok2&Hlog2&Hroom2&_&_&Hobj2).
  rewrite (sbind_Ok _ _ _ _ _ Hrun2). exists stored, s2. cbn [ob_key new_object] in *. split_and!; [done..|congruence|congruence|congruence].
Qed.

Lemma event_applied source cursor ev s :
  rep_ok s -> 0 < rep_room s -> exists s', apply_event (feed_item source (cursor, FeedEvent ev)) s = (Ok (), s') /\
    rep_ok s' /\ rep_objects s' = rep_objects s /\ rep_room s - 1 <= rep_room s' /\
    rep_log s' = log_append (ev_stream ev, ev_event_type ev, display_value (parse_or_null (ev_body ev)), item_key source cursor) (rep_log s).
Proof.
  intros Hok Hroom. unfold apply_event. cbn [feed_item ch_change ch_idempotency_key feed_change fst snd]. unfold event_change. json_fields. cbn [ok_or].
  rewrite sbind_slift. json_fields. cbn [ok_or]. rewrite !sbind_slift. cbn [from_option id default].
  destruct (rep_append s (with_key (new_event (ev_stream ev) (ev_event_type ev) (display_value (parse_or_null (ev_body ev)))) (item_key source cursor)) Hok Hroom)
    as (stored&s1&Hrun&Hok1&Hobj1&Hroom1&Hlog1).
  rewrite (sbind_Ok _ _ _ _ _ Hrun). by exists s1.
Qed.

Lemma apply_upsert_step config source cursor o s w :
  in_step config source s w -> feed_ok (FeedUpsert o) -> allowed config (ob_key o).1 = true ->
  exists s', apply_object (feed_item source (cursor, FeedUpsert o)) (Some (ob_key o).1) s = (Ok (), s') /\
    in_step config source s' (replay_op source cursor w (FeedUpsert o)) /\ rep_room s' = rep_room s /\ same_state s s'.
Proof.
  intros [Hok Hobj Hall Hknown Hlog] Hf Ha. pose proof (allowed_not_internal _ _ Ha) as Hint.
  assert (Hne : forall n i, internal_name n = true -> (n, i) <> ob_key o) by (intros n i Hn Heq; rewrite <-Heq in Hint; cbn [fst] in Hint; congruence).
  destruct (upsert_applied source cursor o s Hok Hf) as (stored&s2&Hrun&Hok2&Hlog2&Hroom2&Hobj2).
  { intros [x Hx]. rewrite Hobj in Hx by done. by eapply Hknown. }
  exists s2. split_and!; [done| |done|].
  - split; cbn [replay_op fst snd]; [done| | | |congruence].
    + intros k Hk. rewrite Hobj2, lookup_insert_ne by (intros <-; by rewrite internal_not_allowed in Hk).
      destruct (decide (k = ob_key o)) as [->|Hk']; [by rewrite !lookup_insert_eq|]. rewrite !lookup_insert_ne by done. by apply Hobj.
    + intros k x [[<- _]|[_ Hw]]%lookup_insert_Some; [done|by eapply Hall].
    + intros k x Hw. rewrite Hobj2.
      destruct (decide ((REPLICATION_PROVENANCE_COLLECTION, replication_metadata_id source (ob_key o).1 (ob_key o).2)
        = (REPLICATION_PROVENANCE_COLLECTION, replication_metadata_id source k.1 k.2))) as [Heq|Hne']; [by rewrite Heq, lookup_insert_eq|].
      rewrite lookup_insert_ne by done. apply lookup_insert_Some in Hw as [[<- _]|[Hk Hw]]; [done|].
      rewrite lookup_insert_ne by (symmetry; by apply Hne). by eapply Hknown.
  - intros x. rewrite Hobj2, lookup_insert_ne by done. rewrite lookup_insert_ne by (symmetry; by apply Hne). done.
Qed.

Lemma apply_delete_step config source cursor collection i s w :
  in_step config source s w -> allowed config collection = true ->
  exists s', apply_delete (feed_item source (cursor, FeedDelete collection i)) (Some collection) s = (Ok (), s') /\
    in_step config source s' (replay_op source cursor w (FeedDelete collection i)) /\ rep_room s' = rep_room s /\ same_state s s'.
Proof.
  intros [Hok Hobj Hall Hknown Hlog] Ha. pose proof (allowed_not_internal _ _ Ha) as Hint.
  destruct (delete_applied source cursor collection i s Hok) as (stored&s2&Hrun&Hok2&Hlog2&Hroom2&Hobj2).
  exists s2. split_and!; [done| |done|].
  - split; cbn [replay_op fst snd]; [done| | | |congruence].
    + intros k Hk. rewrite Hobj2, lookup_insert_ne by (intros <-; by rewrite internal_not_allowed in Hk).
      destruct (decide (k = (collection, i))) as [->|Hne]; [by rewrite !lookup_delete_eq|]. rewrite !lookup_delete_ne by done. by apply Hobj.
    + intros k x [_ Hw]%lookup_delete_Some. by eapply Hall.
    + intros k x [_ Hw]%lookup_delete_Some. rewrite Hobj2, lookup_insert_ne, lookup_delete_ne; [by eapply Hknown| |done]. intros [= Heq _]. rewrite Heq in Hint. done.
  - intros x. rewrite Hobj2, lookup_insert_ne, lookup_delete_ne; [done| |done]. intros [= Heq _]. rewrite Heq in Hint. done.
Qed.

Lemma apply_event_step config source cursor ev s w :
  in_step config source s w -> 0 < rep_room s ->
  exists s', apply_event (feed_item source (cursor, FeedEvent ev)) s = (Ok (), s') /\
    in_step config source s' (replay_op source cursor w (FeedEvent ev)) /\ rep_room s - 1 <= rep_room s' /\ same_state s s'.
Proof.
  intros [Hok Hobj Hall Hknown Hlog] Hroom. destruct (event_applied source cursor ev s Hok Hroom) as (s1&Hrun&Hok1&Hobj1&Hroom1&Hlog1).
  exists s1. split_and!; [done| |lia|intros x; by rewrite Hobj1].
  split; cbn [replay_op fst snd]; [done|by rewrite Hobj1|done|by rewrite Hobj1|]. by rewrite Hlog1, Hlog.
Qed.
End replica.
End feed.
