(* ===== verification/ReplicaRun.v ===== *)
(** * thingd: batches of changes on a replica, and the feed of a source

    Applying a batch replays the changes beyond the checkpoint and moves the checkpoint; a
    page of the feed holds the recorded changes in order; pulling pages brings a replica in
    step with everything the source recorded. *)

From S2P Require Import Prelude Wal Table Layer Database Keyspace RamScan Model Objects Events Storage Persistent Replication ReplicaSpec.

(** ** Batches *)

Lemma sample_text (name : string) : (utf8_valid (str_bytes name) && (zlen (str_bytes name) <=? I64_MAX)) = true -> is_str name.
Proof. intros [Hv Hl%Z.leb_le]%andb_true_iff. by split. Qed.

Section batches.
Context `{SerdeJson} `{!JsonNumbers} `{!JsonText _} {S : Type} `{!ThingStore S} `{!ReplicaStore S}.
Implicit Types (config : ReplicationConfig) (source : string) (s : S) (x : Z * FeedOp) (xs : list (Z * FeedOp)).

Definition item_ok x : Prop := 0 < x.1 <= U64_MAX /\ feed_ok x.2.

(** The source and the checkpoint that a batch has seen so far. *)
Definition acc_ok source (c : Z) (acc : ApplyState) : Prop :=
  (as_source_id acc = None \/ as_source_id acc = Some source) /\ (as_checkpoint acc = 0 \/ as_checkpoint acc = c).

Definition counted config (c : Z) (r : ReplicationApplyResult) x : ReplicationApplyResult :=
  if beyond c x then
    let last := Z.max (ra_last_applied_cursor r) x.1 in
    if passes config x.2 then count_change r last else skip_change r last
  else skip_change r (ra_last_applied_cursor r).

Lemma feed_operation op : exists name, str_field (feed_change op) "operation" = Some name.
Proof. destruct op as [o|? ?|ev]; [unfold feed_change, upsert_change|unfold feed_change, delete_change|unfold feed_change, event_change]; json_fields; eauto. Qed.

(** The operation of a change. *)
Definition operation source x : SM S unit :=
  match x.2 with
  | FeedUpsert o => apply_object (feed_item source x) (Some (ob_key o).1)
  | FeedDelete collection _ => apply_delete (feed_item source x) (Some collection)
  | FeedEvent _ => apply_event (feed_item source x)
  end.

Lemma feed_dispatch source x :
  apply_operation_of (S := S) (feed_item source x) (default "" (str_field (feed_change x.2) "operation")) (str_field (feed_change x.2) "collection")
  = operation source x.
Proof.
  destruct x as [cursor [o|? ?|ev]]; cbn [snd feed_change]; [unfold upsert_change at 1 2|unfold delete_change at 1 2|unfold event_change at 1 2]; json_fields; done.
Qed.

Lemma feed_filtered config op :
  match str_field (feed_change op) "collection" with Some collection => negb (allowed config collection) | None => false end = negb (passes config op).
Proof. destruct op as [o|? ?|ev]; [unfold feed_change, upsert_change|unfold feed_change, delete_change|unfold feed_change, event_change]; json_fields; done. Qed.

(** A change is applied beyond the checkpoint, in a collection that is replicated, and skipped
    otherwise. *)
Lemma change_cases config source c x acc s :
  0 < x.1 -> read_applied_cursor s source = Ok c -> acc_ok source c acc ->
  apply_change config acc (feed_item source x) s =
    if beyond c x && passes config x.2
    then sbind (operation source x) (fun _ => sret (mkApply (counted config c (as_result acc) x) (Some source) c)) s
    else (Ok (mkApply (counted config c (as_result acc) x) (Some source) c), s).
Proof.
  intros Hpos Hc [Hsrc Hchk]. unfold apply_change. cbn [ch_source_id ch_cursor ch_change feed_item].
  assert (Hgate : match as_source_id acc with
    | Some existing => if bool_decide (existing = source) then Ok () else Err multiple_sources
    | None => Ok () end = Ok () :> thingd_result unit).
  { destruct Hsrc as [->| ->]; [done|]. by rewrite bool_decide_true. }
  rewrite Hgate, sbind_slift.
  assert (Hread : (if as_checkpoint acc =? 0 then sread (fun s => read_applied_cursor s source) else sret (as_checkpoint acc)) s = (Ok c, s)).
  { destruct (Z.eqb_spec (as_checkpoint acc) 0); [unfold sread; by rewrite Hc|]. destruct Hchk; [done|]. unfold sret. congruence. }
  rewrite (sbind_Ok _ _ _ _ _ Hread). unfold counted, beyond. rewrite (proj2 (Z.ltb_lt 0 x.1)) by done. cbn [andb].
  destruct (Z.leb_spec x.1 c) as [Hle|Hgt]; [by rewrite (proj2 (Z.ltb_ge c x.1)) by done|rewrite (proj2 (Z.ltb_lt c x.1)) by done]. cbn [andb].
  destruct (feed_operation x.2) as [name Hname]. pose proof (feed_dispatch source x) as Hdis. rewrite Hname in *. cbn [ok_or from_option id default] in *.
  rewrite sbind_slift, feed_filtered. destruct (passes config x.2); cbn [negb]; [|done]. by rewrite <-Hdis.
Qed.

Lemma operation_step config source x s w :
  in_step config source s w -> item_ok x -> passes config x.2 = true -> 0 < rep_room s ->
  exists s', operation source x s = (Ok (), s') /\
    in_step config source s' (replay_op source x.1 w x.2) /\ rep_room s - 1 <= rep_room s' /\ same_state s s'.
Proof.
  intros Hs [_ Hok] Hp Hroom. destruct x as [cursor [o|collection i|ev]]; cbn [fst snd] in *.
  - destruct (apply_upsert_step config source cursor o s w Hs Hok Hp) as (s'&?&?&?&?). exists s'. split_and!; [done..|lia|done].
  - destruct (apply_delete_step config source cursor collection i s w Hs Hp) as (s'&?&?&?&?). exists s'. split_and!; [done..|lia|done].
  - by apply apply_event_step.
Qed.

Lemma apply_change_step config source c x acc s w :
  in_step config source s w -> item_ok x -> 0 < rep_room s -> read_applied_cursor s source = Ok c -> acc_ok source c acc ->
  exists s', apply_change config acc (feed_item source x) s = (Ok (mkApply (counted config c (as_result acc) x) (Some source) c), s') /\
    in_step config source s' (if beyond c x then replay_step config source w x else w) /\ rep_room s - 1 <= rep_room s' /\ same_state s s'.
Proof.
  intros Hs Hx Hroom Hc Hacc. rewrite (change_cases config source c) by (done || by destruct Hx; lia). unfold replay_step.
  destruct (beyond c x); cbn [andb]; [|exists s; split_and!; [done..|lia|done]]. destruct (passes config x.2) eqn:Hp; [|exists s; split_and!; [done..|lia|done]].
  destruct (operation_step config source x s w Hs Hx Hp Hroom) as (s'&Hrun&Hs'&Hr&Hst). exists s'. by rewrite (sbind_Ok _ _ _ _ _ Hrun).
Qed.

Lemma apply_fold config source c xs : forall acc s w,
  in_step config source s w -> Forall item_ok xs -> Z.of_nat (length xs) <= rep_room s -> read_applied_cursor s source = Ok c -> acc_ok source c acc ->
  exists s' acc', sfold (apply_change config) acc (feed_item source <$> xs) s = (Ok acc', s') /\
    in_step config source s' (replay config source w (List.filter (beyond c) xs)) /\ read_applied_cursor s' source = Ok c /\
    rep_room s - Z.of_nat (length xs) <= rep_room s' /\
    as_result acc' = foldl (counted config c) (as_result acc) xs /\ acc_ok source c acc' /\
    (xs <> [] -> as_source_id acc' = Some source /\ as_checkpoint acc' = c).
Proof.
  induction xs as [|x xs IH]; intros acc s w Hs Hok Hroom Hc Hacc.
  { exists s, acc. split_and!; try done; cbn; lia. }
  apply Forall_cons in Hok as [Hx Hok]. cbn [length] in Hroom.
  destruct (apply_change_step config source c x acc s w Hs Hx ltac:(lia) Hc Hacc) as (s1&Hrun&Hs1&Hr1&Hst).
  assert (Hc1 : read_applied_cursor s1 source = Ok c).
  { rewrite (same_cursor s s1) by (done || apply (st_ok _ _ _ _ Hs) || apply (st_ok _ _ _ _ Hs1)). done. }
  destruct (IH (mkApply (counted config c (as_result acc) x) (Some source) c) s1 _ Hs1 Hok ltac:(lia) Hc1) as (s2&acc2&Hrun2&Hs2&Hc2&Hr2&Hres&Hacc2&Hne).
  { split; by right. }
  exists s2, acc2. rewrite fmap_cons. cbn [sfold foldl length]. rewrite (sbind_Ok _ _ _ _ _ Hrun), Hrun2. split_and!; try done.
  - cbn [List.filter]. unfold replay in *. destruct (beyond c x); cbn [foldl]; done.
  - lia.
  - intros _. destruct xs as [|y xs]; [|by apply Hne]. cbn [fmap list_fmap sfold] in Hrun2. injection Hrun2 as <- <-. done.
Qed.

Definition reached (c : Z) xs : Z := foldl (fun l x => Z.max l x.1) c xs.

Lemma reached_ge c xs : c <= reached c xs.
Proof. unfold reached. revert c. induction xs as [|x xs IH]; intros c; cbn [foldl]; [lia|]. specialize (IH (Z.max c x.1)). lia. Qed.

Lemma reached_max c d xs : reached (Z.max c d) xs = Z.max c (reached d xs).
Proof.
  unfold reached. revert d. induction xs as [|x xs IH]; intros d; cbn [foldl]; [done|]. rewrite <-IH. f_equal. lia.
Qed.

Lemma reached_bound c xs : c <= U64_MAX -> Forall item_ok xs -> reached c xs <= U64_MAX.
Proof.
  unfold reached. intros Hc Hxs. revert c Hc. induction Hxs as [|x xs [Hx _] _ IH]; intros c Hc; cbn [foldl]; [done|]. apply IH. lia.
Qed.

Lemma counted_last config c xs : forall r,
  Z.max c (ra_last_applied_cursor (foldl (counted config c) r xs)) = reached (Z.max c (ra_last_applied_cursor r)) xs.
Proof.
  unfold reached. induction xs as [|x xs IH]; intros r; cbn [foldl]; [done|]. rewrite IH. f_equal. unfold counted, beyond.
  destruct (Z.ltb_spec c x.1); [destruct (passes config x.2); cbn; lia|cbn; lia].
Qed.

Lemma counted_total config c xs : forall r,
  ra_applied (foldl (counted config c) r xs) = ra_applied r + zlen (List.filter (fun x => beyond c x && passes config x.2) xs) /\
  ra_applied (foldl (counted config c) r xs) + ra_skipped (foldl (counted config c) r xs) = ra_applied r + ra_skipped r + zlen xs /\
  ra_conflicts (foldl (counted config c) r xs) = ra_conflicts r.
Proof.
  induction xs as [|x xs IH]; intros r; cbn [foldl List.filter length]; [split_and!; lia|].
  destruct (IH (counted config c r x)) as (H1'&H2'&H3'). unfold counted in *. destruct (beyond c x); cbn [andb] in *; [|cbn in *; lia].
  destruct (passes config x.2); cbn in *; lia.
Qed.

(** The checkpoint as it is read back. *)
Lemma cursor_read_back source cursor (stored : MemoryObject) :
  in_u64 cursor -> is_str source -> ob_body stored = display_value (cursor_json source cursor) ->
  default 0 (o ← Some stored; body ← from_str (ob_body o); u64_field body "lastAppliedCursor") = cursor.
Proof.
  intros Hc Hs Hb. cbn [mbind option_bind]. rewrite Hb, print_parse.
  - cbn [mbind option_bind]. unfold cursor_json. json_fields. rewrite as_from_u64 by done. done.
  - cbn. split; [|split_and!; [by apply (sample_text "lastAppliedCursor")|by apply exact_u64|by apply (sample_text "sourceId")|done|done]].
    repeat constructor.
Qed.

Lemma write_cursor_step config source cursor s w :
  in_step config source s w -> in_u64 cursor -> is_str source ->
  exists s', write_applied_cursor source cursor s = (Ok (), s') /\ in_step config source s' w /\ rep_room s' = rep_room s /\
    read_applied_cursor s' source = Ok cursor.
Proof.
  intros Hs Hc Hsrc. unfold write_applied_cursor.
  destruct (rep_put s (new_object REPLICATION_STATE_COLLECTION ("source:" +:+ source) (display_value (cursor_json source cursor))) (st_ok _ _ _ _ Hs))
    as (stored&s'&Hrun&Hok&Hlog&Hroom&_&Hbody&Hobj).
  rewrite (sbind_Ok _ _ _ _ _ Hrun). exists s'. split_and!; [done| |done|].
  - by apply (in_step_internal config source s s' w (REPLICATION_STATE_COLLECTION, "source:" +:+ source) stored).
  - unfold read_applied_cursor. rewrite rep_get, Hobj, lookup_insert_eq by done. rewrite bind_Ok. f_equal. by apply (cursor_read_back source).
Qed.

Lemma apply_batch config source c xs s w :
  rc_role config = Replica -> is_str source -> in_step config source s w -> Forall item_ok xs -> Z.of_nat (length xs) <= rep_room s ->
  0 <= c <= U64_MAX -> read_applied_cursor s source = Ok c ->
  exists res s', apply_changes config (feed_item source <$> xs) s = (Ok res, s') /\
    in_step config source s' (replay config source w (List.filter (beyond c) xs)) /\
    read_applied_cursor s' source = Ok (reached c xs) /\ rep_room s - Z.of_nat (length xs) <= rep_room s' /\
    res = foldl (counted config c) no_changes xs.
Proof.
  intros Hrole Hsrc Hs Hxs Hroom Hc Hread. unfold apply_changes. rewrite bool_decide_true by done.
  destruct (apply_fold config source c xs (mkApply no_changes None 0) s w Hs Hxs Hroom Hread) as (s1&acc&Hrun&Hs1&Hc1&Hr1&Hres&_&Hne); [split; by left|].
  rewrite (sbind_Ok _ _ _ _ _ Hrun). pose proof (counted_last config c xs no_changes) as Hlast. cbn [as_result] in Hres. rewrite <-Hres in Hlast.
  assert (Hreach : Z.max c (ra_last_applied_cursor (as_result acc)) = reached c xs) by (rewrite Hlast; f_equal; cbn; lia).
  pose proof (reached_bound c xs ltac:(lia) Hxs) as Hb. pose proof (reached_ge c xs) as Hge.
  assert (Hend : exists s', match as_source_id acc with
      | Some source_id => if as_checkpoint acc <? ra_last_applied_cursor (as_result acc)
                          then write_applied_cursor source_id (ra_last_applied_cursor (as_result acc)) else sret ()
      | None => sret () end s1 = (Ok (), s') /\ in_step config source s' (replay config source w (List.filter (beyond c) xs)) /\
      rep_room s' = rep_room s1 /\ read_applied_cursor s' source = Ok (reached c xs)).
  { destruct xs as [|x xs]; [cbn in Hrun; injection Hrun as <- <-; by exists s|]. destruct (Hne ltac:(done)) as [-> ->].
    destruct (Z.ltb_spec c (ra_last_applied_cursor (as_result acc))) as [Hlt|Hle].
    - replace (ra_last_applied_cursor (as_result acc)) with (reached c (x :: xs)) by lia. apply write_cursor_step; [done|split; lia|done].
    - exists s1. split_and!; [done..|]. rewrite Hc1. f_equal. lia. }
  destruct Hend as (s2&Hend&Hs2&Hr2&Hc2). rewrite (sbind_Ok _ _ _ _ _ Hend). exists (as_result acc), s2. split_and!; [done..|lia|done].
Qed.
End batches.
