(* ===== verification/ReplicaSource.v ===== *)
(** * thingd: the feed of a source

    A source on the in-memory engine that records every change after it has made it, as
    [docs/api-spec/replication.md] asks of embedded callers.  The feed then holds the
    recorded changes in order, replaying it gives the objects of the source, and a page of
    the feed is the next part of it. *)

From S2P Require Import Prelude Wal Table Layer Database Keyspace RamScan Model Objects Events Links Storage Persistent Replication ReplicaSpec ReplicaRun.

(** ** Changes made and recorded *)

Inductive SourceOp :=
| SrcPut (o : MemoryObject)
| SrcDelete (collection id : string)
| SrcAppend (ev : MemoryEvent).

Section plain_changes.
Context `{SerdeJson} `{!JsonNumbers} `{!JsonText _}.

(** A change is readable in the feed; a body is where it lies two levels down in a change. *)
Definition plain (v : Value number) : Prop := shaped exact_number parse_depth v.
Definition plain_text (text : string) : Prop := shaped exact_number body_depth (parse_or_null text).
Definition plain_object (o : MemoryObject) : Prop :=
  is_str (ob_key o).1 /\ is_str (ob_key o).2 /\ is_str (ob_created_at o) /\ plain_text (ob_body o).
Definition plain_event (ev : MemoryEvent) : Prop :=
  is_str (ev_stream ev) /\ is_str (ev_event_type ev) /\ is_str (ev_idempotency_key ev) /\ plain_text (ev_body ev).

(** Changes that reach the feed as JSON texts that are read back: the body is no JSON at all,
    and travels as null, or it has exact numbers and is nested at most 125 deep. *)
Definition source_ok (op : SourceOp) : Prop :=
  match op with
  | SrcPut o => plain_object o
  | SrcDelete collection i => is_str collection /\ is_str i
  | SrcAppend ev => plain_event ev /\ ev_stream ev <> REPLICATION_STREAM
  end.

Ltac plain_field :=
  lazymatch goal with
  | |- True => exact I
  | |- _ /\ _ => split
  | |- StronglySorted _ _ => repeat constructor
  | |- is_str _ => first [assumption | apply sample_text; reflexivity]
  | |- shaped _ _ (JString ?s) => change (is_str s)
  | |- shaped _ _ (JNumber ?n) => change (exact_number n)
  | |- exact_number _ => by apply exact_u64
  | |- _ => assumption
  end.
Ltac plain_fields := unfold plain, plain_text in *; unfold parse_depth; generalize dependent body_depth; intros; cbn [shaped fst snd fmap list_fmap]; repeat plain_field.

Lemma plain_upsert o : plain_object o -> is_str (ob_updated_at o) -> in_u64 (ob_version o) -> plain (upsert_change o).
Proof. intros (Hc&Hi&Hcr&Hb) Hu Hv. unfold upsert_change, json_u64. plain_fields. Qed.

Lemma plain_delete collection i : is_str collection -> is_str i -> plain (delete_change collection i).
Proof. intros. unfold delete_change. plain_fields. Qed.

Lemma plain_append ev : plain_event ev -> plain (event_change ev).
Proof. intros (Hs&Ht&Hk&Hb). unfold event_change. plain_fields. Qed.
End plain_changes.

Section source.
Context `{SerdeJson} `{!JsonNumbers} `{!JsonText _}.
Context (clock : nat -> string) (clock_ok : forall n, is_str (clock n) /\ clock n <> "").
#[local] Instance source_store : ThingStore (MemoryEngine * nat) := memory_store clock.
Implicit Types (config : ReplicationConfig) (s : MemoryEngine * nat) (xs : list (Z * FeedOp)).

(** A change of the source, recorded once it has succeeded. *)
Definition source_op config (op : SourceOp) : SM (MemoryEngine * nat) unit :=
  match op with
  | SrcPut o => do* stored := ts_put_object o in record_object_upsert config stored
  | SrcDelete collection i => do* _ := ts_delete_object collection i in record_object_delete config collection i
  | SrcAppend ev => do* stored := ts_append_event ev in record_event_append config stored
  end.
Definition source_run config : MemoryEngine * nat -> list SourceOp -> MemoryEngine * nat :=
  foldl (fun s op => (source_op config op s).2).

(** An event of the feed carries a change. *)
Definition carries (ev : MemoryEvent) (x : Z * FeedOp) : Prop :=
  ev_sequence ev = x.1 /\ ev_body ev = display_value (feed_change x.2).

Definition empty_view : gmap ObjectKey MemoryObject * list LogEntry := (∅, []).

Record stored_ok (n : nat) (o : MemoryObject) : Prop := {
  so_plain : plain_object o;
  so_updated : is_str (ob_updated_at o) /\ ob_updated_at o <> "";
  so_created : ob_created_at o <> "";
  so_version : 0 < ob_version o <= Z.of_nat n;
}.

Record feeds s xs : Prop := {
  fd_events : event_inv s.1;
  fd_next : next_event_sequence s.1 <= Z.of_nat s.2;
  fd_feed : Forall2 carries (stream_events s.1 REPLICATION_STREAM) xs;
  fd_items : Forall (fun x => item_ok x /\ plain (feed_change x.2)) xs;
  fd_keys : forall k o, objects s.1 !! k = Some o -> ob_key o = k;
  fd_stored : forall k o, objects s.1 !! k = Some o -> stored_ok s.2 o;
  fd_logged : Forall (fun ev => ev_stream ev <> REPLICATION_STREAM -> plain_event ev) (events s.1);
}.

(** Replaying the feed gives the objects of the source. *)
Definition mirrors config (source : string) s xs : Prop :=
  forall k, allowed config k.1 = true -> (replay config source empty_view xs).1 !! k = replica_object <$> objects s.1 !! k.

Lemma stored_later n m o : stored_ok n o -> (n <= m)%nat -> stored_ok m o.
Proof. intros []. split; [done..|lia]. Qed.

(** An event without an idempotency key is always added. *)
Lemma append_new e now (ev : MemoryEvent) :
  ev_idempotency_key ev = "" -> 0 <= next_event_sequence e < U64_MAX ->
  append_event e now ev = (Ok (with_sequence ev (next_event_sequence e + 1) now),
    set_events e (events e ++ [with_sequence ev (next_event_sequence e + 1) now]) (next_event_sequence e + 1) (event_idempotency_keys e)).
Proof.
  intros Hk Hn. unfold append_event, known_event. rewrite Hk, bool_decide_true by done. cbn [with_sequence ev_idempotency_key].
  unfold u64_wrapping_add. rewrite Z.mod_small by (unfold_ints; lia). by rewrite Hk, bool_decide_true.
Qed.

(** Recording one change extends the feed by it. *)
Lemma record_feeds config s xs op :
  rc_role config = Source -> feeds s xs -> Z.of_nat s.2 < U64_MAX -> feed_ok op -> plain (feed_change op) ->
  exists s', record_change config (feed_change op) s = (Ok (), s') /\ feeds s' (xs ++ [(next_event_sequence s.1 + 1, op)]) /\
    objects s'.1 = objects s.1 /\ s'.2 = S s.2.
Proof.
  intros Hrole [Hev Hnext Hfeed Hitems Hkeys Hstored Hlogged] Hmax Hok Hplain. unfold record_change. rewrite bool_decide_true by done.
  set (ev := new_event REPLICATION_STREAM (default "change" (str_field (feed_change op) "operation")) (display_value (feed_change op))).
  pose proof (ei_next _ Hev) as Hn.
  assert (Hrun : ts_append_event ev s = (Ok (with_sequence ev (next_event_sequence s.1 + 1) (clock s.2)),
    ((append_event s.1 (clock s.2) ev).2, S s.2))) by (cbn; rewrite append_new by (done || lia); done).
  rewrite (sbind_Ok _ _ _ _ _ Hrun). eexists. split; [reflexivity|]. rewrite append_new by (done || lia). split; [|done].
  destruct (append_event_inv s.1 (clock s.2) ev Hev) as [Hev' Hnext']; [lia|]. rewrite append_new in * by (done || lia).
  split; cbn [fst snd events set_events objects next_event_sequence] in *; [done|lia| | |done| |].
  - rewrite List.filter_app. apply Forall2_app; [done|]. cbn. rewrite bool_decide_true by done. repeat constructor.
  - apply Forall_app. split; [done|]. constructor; [|done]. split; [|done]. split; [cbn; lia|done].
  - intros k o Ho. apply (stored_later s.2); [by eapply Hstored|lia].
  - apply Forall_app. split; [done|]. constructor; [by intros []|done].
Qed.

(** The changes themselves keep the feed. *)
Lemma put_feeds s xs o : feeds s xs -> plain_object o -> Z.of_nat s.2 < U64_MAX ->
  (exists err, ts_put_object o s = (Err err, (s.1, S s.2)) /\ feeds (s.1, S s.2) xs) \/
  exists stored s', ts_put_object o s = (Ok stored, s') /\ feeds s' xs /\ objects s'.1 = <[ob_key o := stored]> (objects s.1) /\
    s'.2 = S s.2 /\ stored_ok (S s.2) stored /\ ob_key stored = ob_key o.
Proof.
  intros [Hev Hnext Hfeed Hitems Hkeys Hstored Hlogged] Hplain Hmax. cbn.
  destruct (put_object_cases s.1 (clock s.2) o) as [(err&_&->)|(_&stored&vs&Hrun&Hk&Hb&_&Hu&Hv&_)]; [left|right].
  { exists err. split; [done|]. split; cbn [fst snd]; try done; [lia|]. intros k x Hx. apply (stored_later s.2); [by eapply Hstored|lia]. }
  pose proof (clock_ok s.2) as [Hc1 Hc2]. destruct Hplain as (Hp1&Hp2&Hp3&Hp4).
  assert (Hcr : ob_created_at stored = if bool_decide (ob_created_at o = "") then clock s.2 else ob_created_at o).
  { revert Hrun. unfold put_object. destruct (validate_unique_indexes s.1 o); [|done]. by intros [= <- _]. }
  assert (Hsok : stored_ok (S s.2) stored).
  { split.
    - split_and!; [by rewrite Hk..| |by rewrite Hb]. rewrite Hcr. by case_bool_decide.
    - by rewrite Hu.
    - rewrite Hcr. by case_bool_decide.
    - rewrite Hv. destruct (objects s.1 !! ob_key o) as [x|] eqn:Hx; [|lia]. destruct (Hstored _ _ Hx) as [_ _ _ Hxv].
      unfold u64_wrapping_add. rewrite Z.mod_small by (unfold_ints; lia). lia. }
  rewrite Hrun. exists stored, (set_objects s.1 (<[ob_key o := stored]> (objects s.1)) vs, S s.2). split_and!; try done.
  split; cbn [fst snd events set_objects objects next_event_sequence] in *; try done; [by destruct Hev|lia| |].
  - intros k x [[<- <-]|[_ Hx]]%lookup_insert_Some; [done|by apply Hkeys].
  - intros k x [[<- <-]|[_ Hx]]%lookup_insert_Some; [done|]. apply (stored_later s.2); [by eapply Hstored|lia].
Qed.

Lemma delete_feeds s xs collection i : feeds s xs ->
  exists existed s', ts_delete_object collection i s = (Ok existed, s') /\ feeds s' xs /\
    objects s'.1 = delete (collection, i) (objects s.1) /\ s'.2 = s.2.
Proof.
  intros [Hev Hnext Hfeed Hitems Hkeys Hstored Hlogged]. cbn. eexists _, _. split; [reflexivity|]. split_and!; try done.
  split; cbn [fst snd events set_objects objects next_event_sequence] in *; try done; [by destruct Hev| |].
  - intros k x [_ Hx]%lookup_delete_Some. by apply Hkeys.
  - intros k x [_ Hx]%lookup_delete_Some. by eapply Hstored.
Qed.

Lemma append_feeds s xs ev : feeds s xs -> plain_event ev -> ev_stream ev <> REPLICATION_STREAM -> Z.of_nat s.2 < U64_MAX ->
  exists stored s', ts_append_event ev s = (Ok stored, s') /\ feeds s' xs /\ objects s'.1 = objects s.1 /\ s'.2 = S s.2 /\
    plain_event stored /\ ev_stream stored = ev_stream ev.
Proof.
  intros [Hev Hnext Hfeed Hitems Hkeys Hstored Hlogged] Hplain Hne Hmax. cbn.
  destruct (append_event_inv s.1 (clock s.2) ev Hev) as [Hev' Hnext']; [lia|].
  destruct (append_event_cases s.1 (clock s.2) ev) as [(x&Hx&Hrun)|(_&keys&Hrun&_)]; rewrite Hrun in *; cbn [fst snd] in *.
  - exists x, (s.1, S s.2). apply known_event_iff in Hx as (_&Hin&Hst&_); [|done]. rewrite Forall_forall in Hlogged. split_and!; try done; [|by apply Hlogged; rewrite ?Hst].
    split; cbn [fst snd]; try done; [lia| |by apply Forall_forall]. intros k y Hy. apply (stored_later s.2); [by eapply Hstored|lia].
  - eexists _, _. split; [reflexivity|]. split_and!; try done.
    split; cbn [fst snd events set_events objects next_event_sequence] in *; try done; [lia| | |].
    + rewrite List.filter_app. cbn. rewrite bool_decide_false by done. by rewrite app_nil_r.
    + intros k y Hy. apply (stored_later s.2); [by eapply Hstored|lia].
    + apply Forall_app. split; [done|]. constructor; [|done]. done.
Qed.

Lemma replay_snoc config source w xs x : replay config source w (xs ++ [x]) = replay_step config source (replay config source w xs) x.
Proof. unfold replay. by rewrite foldl_app. Qed.

(** A recorded put or delete keeps the mirror, and so does one outside the mirrored collections. *)
Lemma mirrors_put config source s s' xs c (o : MemoryObject) :
  mirrors config source s xs -> objects s'.1 = <[ob_key o := o]> (objects s.1) -> mirrors config source s' (xs ++ [(c, FeedUpsert o)]).
Proof.
  intros Hm Ho k Hk. rewrite replay_snoc, Ho. unfold replay_step. cbn [passes fst snd]. destruct (decide (k = ob_key o)) as [->|Hne].
  - rewrite Hk. cbn. by rewrite !lookup_insert_eq.
  - rewrite lookup_insert_ne by done. destruct (allowed config (ob_key o).1); [|by apply Hm]. cbn. rewrite lookup_insert_ne by done. by apply Hm.
Qed.

Lemma mirrors_delete config source s s' xs c collection i :
  mirrors config source s xs -> objects s'.1 = delete (collection, i) (objects s.1) -> mirrors config source s' (xs ++ [(c, FeedDelete collection i)]).
Proof.
  intros Hm Ho k Hk. rewrite replay_snoc, Ho. unfold replay_step. cbn [passes fst snd]. destruct (decide (k = (collection, i))) as [->|Hne].
  - cbn [fst] in Hk. rewrite Hk. cbn. by rewrite !lookup_delete_eq.
  - rewrite lookup_delete_ne by done. destruct (allowed config collection); [|by apply Hm]. cbn. rewrite lookup_delete_ne by done. by apply Hm.
Qed.

Lemma mirrors_outside config source s s' xs k :
  mirrors config source s xs -> allowed config k.1 = false -> (forall k', k' <> k -> objects s'.1 !! k' = objects s.1 !! k') -> mirrors config source s' xs.
Proof. intros Hm Hk Ho k' Hk'. rewrite Ho; [by apply Hm|]. intros ->. congruence. Qed.

Lemma mirrors_same config source s s' xs : mirrors config source s xs -> objects s'.1 = objects s.1 -> mirrors config source s' xs.
Proof. intros Hm Ho k Hk. rewrite Ho. by apply Hm. Qed.

Lemma mirrors_event config source s xs c (ev : MemoryEvent) : mirrors config source s xs -> mirrors config source s (xs ++ [(c, FeedEvent ev)]).
Proof. intros Hm k Hk. rewrite replay_snoc. unfold replay_step. cbn. by apply Hm. Qed.

Lemma source_op_feeds scfg config source op s xs :
  rc_role scfg = Source -> (forall c, allowed config c = true -> allowed scfg c = true) ->
  feeds s xs -> mirrors config source s xs -> source_ok op -> Z.of_nat s.2 + 2 <= U64_MAX ->
  exists new, feeds (source_op scfg op s).2 (xs ++ new) /\ mirrors config source (source_op scfg op s).2 (xs ++ new) /\
    ((source_op scfg op s).2.2 <= s.2 + 2)%nat /\ (length new <= 1)%nat.
Proof.
  intros Hrole Hsub Hf Hm Hok Hmax. assert (Hout : forall c, allowed scfg c = false -> allowed config c = false).
  { intros c Hc. destruct (allowed config c) eqn:Ha; [|done]. rewrite Hsub in Hc by done. done. }
  destruct op as [o|collection i|ev]; cbn [source_op source_ok] in *.
  - destruct (put_feeds s xs o Hf Hok ltac:(lia)) as [(err&Hrun&Hf')|(stored&s'&Hrun&Hf'&Ho&Hn&Hsok&Hk)]; unfold sbind; rewrite Hrun.
    { exists []. rewrite app_nil_r. cbn [snd]. split_and!; [done|by apply (mirrors_same config source s)|lia|cbn; lia]. }
    unfold record_object_upsert. rewrite Hk. rewrite <-Hk in Ho. destruct (allowed scfg (ob_key o).1) eqn:Ha.
    + destruct (record_feeds scfg s' xs (FeedUpsert stored) Hrole Hf' ltac:(lia)) as (s2&Hrun2&Hf2&Ho2&Hn2).
      * destruct Hsok. cbn. split_and!; [lia..|done|by destruct so_updated0].
      * destruct Hsok. apply plain_upsert; [done|by destruct so_updated0|split; lia].
      * cbn [feed_change] in Hrun2. rewrite Hrun2. eexists. split_and!; [done| |cbn; lia|done]. apply (mirrors_put config source s); [done|]. cbn [snd]. congruence.
    + exists []. rewrite app_nil_r. cbn [snd sret]. split_and!; [done| |lia|cbn; lia]. apply (mirrors_outside config source s _ _ (ob_key stored)); [done|rewrite Hk; auto|].
      intros k Hne. by rewrite Ho, lookup_insert_ne.
  - destruct Hok as [Hc Hi]. destruct (delete_feeds s xs collection i Hf) as (existed&s'&Hrun&Hf'&Ho&Hn). unfold sbind; rewrite Hrun.
    unfold record_object_delete. destruct (allowed scfg collection) eqn:Ha.
    + destruct (record_feeds scfg s' xs (FeedDelete collection i) Hrole Hf' ltac:(lia) I) as (s2&Hrun2&Hf2&Ho2&Hn2); [by apply plain_delete|].
      cbn [feed_change] in Hrun2. rewrite Hrun2. eexists. split_and!; [done| |cbn; lia|done]. apply (mirrors_delete config source s); [done|]. cbn [snd]. congruence.
    + exists []. rewrite app_nil_r. cbn [snd sret]. split_and!; [done| |lia|cbn; lia]. apply (mirrors_outside config source s _ _ (collection, i)); [done|auto|].
      intros k Hne. by rewrite Ho, lookup_delete_ne.
  - destruct Hok as [Hp Hne]. destruct (append_feeds s xs ev Hf Hp Hne ltac:(lia)) as (stored&s'&Hrun&Hf'&Ho&Hn&Hps&Hst). unfold sbind; rewrite Hrun.
    unfold record_event_append. destruct (internal_name (ev_stream stored)).
    + exists []. rewrite app_nil_r. cbn [snd sret]. split_and!; [done|by apply (mirrors_same config source s)|lia|cbn; lia].
    + destruct (record_feeds scfg s' xs (FeedEvent stored) Hrole Hf' ltac:(lia) I) as (s2&Hrun2&Hf2&Ho2&Hn2); [by apply plain_append|].
      cbn [feed_change] in Hrun2. rewrite Hrun2. eexists. split_and!; [done| |cbn; lia|done]. apply mirrors_event, (mirrors_same config source s); [done|cbn [snd]; congruence].
Qed.

Lemma source_run_feeds scfg config source ops : rc_role scfg = Source -> (forall c, allowed config c = true -> allowed scfg c = true) ->
  forall s xs, feeds s xs -> mirrors config source s xs -> Forall source_ok ops -> Z.of_nat s.2 + 2 * Z.of_nat (length ops) <= U64_MAX ->
  exists new, feeds (source_run scfg s ops) (xs ++ new) /\ mirrors config source (source_run scfg s ops) (xs ++ new) /\
    ((source_run scfg s ops).2 <= s.2 + 2 * length ops)%nat /\ (length new <= length ops)%nat.
Proof.
  intros Hrole Hsub. induction ops as [|op ops IH]; intros s xs Hf Hm Hok Hmax; cbn [source_run foldl].
  { exists []. rewrite app_nil_r. split_and!; [done..|cbn; lia|cbn; lia]. }
  apply Forall_cons in Hok as [Hop Hok]. cbn [length] in Hmax.
  destruct (source_op_feeds scfg config source op s xs Hrole Hsub Hf Hm Hop ltac:(lia)) as (new1&Hf1&Hm1&Hn1&Hl1).
  destruct (IH _ _ Hf1 Hm1 Hok ltac:(lia)) as (new2&Hf2&Hm2&Hn2&Hl2).
  exists (new1 ++ new2). rewrite app_assoc. split_and!; [done..|unfold source_run in *; cbn [length foldl] in *; lia|rewrite length_app; cbn [length]; lia].
Qed.

Lemma feeds_empty : feeds (new_engine, 0%nat) [].
Proof. split; cbn; try done; exact new_engine_event_inv. Qed.

Lemma mirrors_empty config source : mirrors config source (new_engine, 0%nat) [].
Proof. intros k _. done. Qed.

(** ** Pages *)

Definition later (x y : Z * FeedOp) : Prop := x.1 < y.1.

Lemma feed_sorted s xs : feeds s xs -> StronglySorted later xs.
Proof.
  intros [Hev _ Hfeed _ _ _ _].
  assert (Hs : StronglySorted (fun a b => ev_sequence a < ev_sequence b) (stream_events s.1 REPLICATION_STREAM)).
  { eapply StronglySorted_sublist; [apply filter_sublist|apply (ei_sorted _ Hev)]. }
  revert Hs. induction Hfeed as [|ev x evs xs [Hseq _] Hrest IH]; intros Hs; [constructor|]. apply StronglySorted_inv in Hs as [Hs Hall].
  constructor; [by apply IH|]. clear IH Hs. induction Hrest as [|ev' x' evs xs [Hseq' _] _ IH]; [done|]. apply Forall_cons in Hall as [Hlt Hall].
  constructor; [unfold later; lia|by apply IH].
Qed.

Lemma feed_bound s xs : feeds s xs -> Forall (fun x => 0 < x.1 <= next_event_sequence s.1) xs.
Proof.
  intros [Hev _ Hfeed _ _ _ _]. eapply Forall2_Forall_r; [exact Hfeed|]. apply Forall_forall. intros ev [Hin _]%elem_of_filter_bool x [Hseq _].
  pose proof (ei_range _ Hev) as Hr. rewrite Forall_forall in Hr. specialize (Hr ev Hin). lia.
Qed.

Lemma carried_after after evs xs :
  Forall2 carries evs xs -> Forall2 carries (List.filter (after_sequence (Some after)) evs) (List.filter (beyond after) xs).
Proof.
  induction 1 as [|ev x evs xs Hc Hrest IH]; [constructor|]. cbn [List.filter after_sequence]. unfold beyond at 1. destruct Hc as [Hseq Hbody]. rewrite Hseq.
  destruct (after <? x.1); [constructor; [by split|done]|done].
Qed.

Lemma carried_changes config evs xs :
  Forall2 carries evs xs -> Forall (fun x => plain (feed_change x.2)) xs -> omap (change_of config) evs = feed_item (rc_source_id config) <$> xs.
Proof.
  induction 1 as [|ev x evs xs [Hseq Hbody] _ IH]; intros Hp; [done|]. apply Forall_cons in Hp as [Hx Hp]. cbn. unfold change_of at 1.
  rewrite Hbody, print_parse by done. cbn. rewrite Hseq. by rewrite IH.
Qed.

Definition page_limit (limit : Z) : nat := Z.to_nat (Z.max 1 (Z.min limit 1000)).

(** A page holds the next changes after its cursor, unless the feed no longer reaches back to it. *)
Lemma feed_page config s xs after limit :
  feeds s xs -> (0 < after -> match xs with x :: _ => x.1 <= after + 1 | [] => True end) -> 0 <= after < U64_MAX ->
  exists next, feed_events config s after limit
    = Ok (mkPage (rc_source_id config) after next (feed_item (rc_source_id config) <$> take (page_limit limit) (List.filter (beyond after) xs))).
Proof.
  intros Hf Hwin Hafter. pose proof Hf as [_ _ Hfeed Hitems _ _ _]. unfold feed_events.
  assert (Hgate : (if 0 <? after then
      first ← ts_list_events s (Some REPLICATION_STREAM) (mkListEvents None (Some 1) None);
      match first with
      | first :: _ => if u64_saturating_add after 1 <? ev_sequence first then Err cursor_expired else Ok ()
      | [] => Ok ()
      end
    else Ok ()) = Ok () :> thingd_result unit).
  { destruct (Z.ltb_spec 0 after) as [Hpos|]; [|done]. cbn [ts_list_events memory_store source_store]. unfold list_events. cbn [le_since le_from_sequence le_limit]. rewrite bind_Ok. unfold after_sequence, created_since.
    rewrite !(filter_all (fun _ => true)) by done. destruct Hfeed as [|ev x evs xs [Hseq _] _]; [done|]. cbn. specialize (Hwin Hpos). unfold u64_saturating_add.
    rewrite Z.min_l by lia. change (Z.to_nat 1) with 1%nat. cbn [take]. rewrite Hseq. by rewrite (proj2 (Z.ltb_ge _ _)). }
  rewrite Hgate, bind_Ok. cbn [ts_list_events memory_store source_store]. unfold list_events. cbn [le_since le_from_sequence le_limit]. rewrite bind_Ok.
  unfold created_since. rewrite (filter_all (fun _ => true)) by done.
  eexists. do 2 f_equal. apply carried_changes; [by apply Forall2_take, carried_after|]. apply Forall_take, Forall_forall.
  intros x [Hx _]%elem_of_filter_bool. rewrite Forall_forall in Hitems. by apply Hitems.
Qed.
End source.
