(* ===== verification/ReplicaSync.v ===== *)
(** * thingd: a replica that follows a source

    Rounds of reading a page after the checkpoint and applying it bring a replica in step
    with the whole feed; replaying changes twice is replaying them once, so a batch that was
    interrupted before its checkpoint was written can be applied again. *)

From S2P Require Import Prelude Wal Table Layer Database Keyspace RamScan Model Objects Events Links Storage Persistent Replication ReplicaSpec ReplicaRun ReplicaSource.

(** ** Parts of a feed *)

Section parts.
Context `{SerdeJson} `{!JsonNumbers}.
Implicit Types (x : Z * FeedOp) (xs : list (Z * FeedOp)).

Lemma reached_in c xs : reached c xs = c \/ exists x, x ∈ xs /\ x.1 = reached c xs.
Proof.
  unfold reached. revert c. induction xs as [|x xs IH]; intros c; cbn [foldl]; [by left|].
  destruct (IH (Z.max c x.1)) as [Heq|(y&Hy&Heq)]; [|right; exists y; split; [set_solver|done]].
  destruct (Z.max_spec c x.1) as [[? Hm]|[? Hm]]; [right; exists x; split; [set_solver|congruence]|left; congruence].
Qed.

Lemma reached_above c xs x : x ∈ xs -> x.1 <= reached c xs.
Proof.
  unfold reached. revert c. induction xs as [|y xs IH]; intros c Hx; [by apply elem_of_nil in Hx|]. cbn [foldl].
  apply elem_of_cons in Hx as [->|Hx]; [|by apply IH]. pose proof (reached_ge (Z.max c y.1) xs) as Hge. unfold reached in Hge. lia.
Qed.

Lemma reached_app c xs ys : reached c (xs ++ ys) = reached (reached c xs) ys.
Proof. unfold reached. apply foldl_app. Qed.

(** The changes beyond the checkpoint of an applied prefix are the rest. *)
Lemma beyond_prefix xs ys :
  StronglySorted later (xs ++ ys) -> Forall item_ok (xs ++ ys) -> List.filter (beyond (reached 0 xs)) (xs ++ ys) = ys.
Proof.
  intros Hs Hok. rewrite List.filter_app.
  assert (Hxs : List.filter (beyond (reached 0 xs)) xs = []).
  { apply filter_none. intros x Hx. unfold beyond. apply Z.ltb_ge. by apply reached_above. }
  rewrite Hxs. cbn. apply filter_all. intros y Hy. unfold beyond. apply Z.ltb_lt.
  destruct (reached_in 0 xs) as [->|(x&Hx&<-)].
  - apply Forall_app in Hok as [_ Hok]. rewrite Forall_forall in Hok. by destruct (Hok y Hy) as [? _]; lia.
  - by apply (StronglySorted_app_1_elem_of later xs ys x y Hs).
Qed.
End parts.

(** ** Rounds *)

Section rounds.
Context `{SerdeJson} `{!JsonNumbers} `{!JsonText _} (clock : nat -> string).
Context {R : Type} `{!ThingStore R} `{!ReplicaStore R}.
Implicit Types (src : MemoryEngine * nat) (s : R).

(** One round: read the page of the source after the checkpoint, apply it. *)
Definition pull (scfg config : ReplicationConfig) (limit : Z) src : SM R unit :=
  do* cursor := sread (fun s => read_applied_cursor s (rc_source_id scfg)) in
  do* page := slift (feed_events (ThingStore0 := memory_store clock) scfg src cursor limit) in
  do* _ := apply_changes config (pg_changes page) in
  sret ().

Fixpoint pulls (n : nat) (scfg config : ReplicationConfig) (limit : Z) src : SM R unit :=
  match n with
  | O => sret ()
  | S n => do* _ := pull scfg config limit src in pulls n scfg config limit src
  end.

(** A replica that began with events of its own and has applied a prefix of the feed. *)
Record follows config source (log : list LogEntry) s (past : list (Z * FeedOp)) : Prop := {
  fo_step : in_step config source s (replay config source (∅, log) past);
  fo_cursor : read_applied_cursor s source = Ok (reached 0 past);
}.

Lemma pull_follows scfg config limit src log s past rest :
  rc_role config = Replica -> is_str (rc_source_id scfg) -> feeds src (past ++ rest) -> follows config (rc_source_id scfg) log s past ->
  next_event_sequence src.1 < U64_MAX -> Z.of_nat (length rest) <= rep_room s ->
  exists s', pull scfg config limit src s = (Ok (), s') /\
    follows config (rc_source_id scfg) log s' (past ++ take (page_limit limit) rest) /\
    Z.of_nat (length (drop (page_limit limit) rest)) <= rep_room s'.
Proof.
  intros Hrole Hsrc Hf [Hs Hc] Hnext Hroom. pose proof (feed_sorted _ _ Hf) as Hsort.
  assert (Hitems : Forall item_ok (past ++ rest)) by (eapply Forall_impl; [apply (fd_items _ _ Hf)|by intros x []]).
  pose proof (feed_bound _ _ Hf) as Hbound. rewrite Forall_forall in Hbound.
  assert (Hcur : 0 <= reached 0 past < U64_MAX).
  { split; [apply reached_ge|]. destruct (reached_in 0 past) as [->|(x&Hx&<-)]; [done|]. specialize (Hbound x ltac:(set_solver)). lia. }
  assert (Hwin : 0 < reached 0 past -> match past ++ rest with x :: _ => x.1 <= reached 0 past + 1 | [] => True end).
  { destruct past as [|x past]; [done|]. intros _. cbn [app]. pose proof (reached_above 0 (x :: past) x ltac:(set_solver)). lia. }
  destruct (feed_page clock scfg src (past ++ rest) (reached 0 past) limit Hf Hwin Hcur) as [next Hpage]. rewrite beyond_prefix in Hpage by done.
  unfold pull. assert (Hread : sread (fun s => read_applied_cursor s (rc_source_id scfg)) s = (Ok (reached 0 past), s)) by (unfold sread; by rewrite Hc).
  rewrite (sbind_Ok _ _ _ _ _ Hread). unfold source_store in Hpage. rewrite Hpage, sbind_slift. cbn [pg_changes].
  set (page := take (page_limit limit) rest) in *.
  assert (Hsplit : past ++ rest = (past ++ page) ++ drop (page_limit limit) rest) by (unfold page; by rewrite <-app_assoc, take_drop).
  destruct (apply_batch config (rc_source_id scfg) (reached 0 past) page s _ Hrole Hsrc Hs) as (res&s'&Hrun&Hs'&Hc'&Hr'&_).
  { apply Forall_take. by apply Forall_app in Hitems as [_ ?]. }
  { unfold page. rewrite length_take. lia. }
  { lia. }
  { done. }
  rewrite (sbind_Ok _ _ _ _ _ Hrun). exists s'. split; [done|]. split.
  - split; [|by rewrite reached_app]. unfold replay in *. rewrite foldl_app.
    rewrite (filter_all (beyond (reached 0 past)) page) in Hs'; [done|].
    intros x Hx. assert (Hin : x ∈ List.filter (beyond (reached 0 past)) (past ++ rest)).
    { rewrite beyond_prefix by done. rewrite <-(take_drop (page_limit limit) rest). apply elem_of_app. by left. }
    by apply elem_of_filter_bool in Hin as [_ ?].
  - rewrite length_drop. unfold page in Hr'. rewrite length_take in Hr'. lia.
Qed.

Lemma pulls_follow scfg config limit src log n : forall s past rest,
  rc_role config = Replica -> is_str (rc_source_id scfg) -> feeds src (past ++ rest) -> follows config (rc_source_id scfg) log s past ->
  next_event_sequence src.1 < U64_MAX -> Z.of_nat (length rest) <= rep_room s -> (length rest <= n * page_limit limit)%nat ->
  exists s', pulls n scfg config limit src s = (Ok (), s') /\ follows config (rc_source_id scfg) log s' (past ++ rest).
Proof.
  induction n as [|n IH]; intros s past rest Hrole Hsrc Hf Hs Hnext Hroom Hn.
  - destruct rest as [|]; [|cbn in Hn; lia]. exists s. by rewrite app_nil_r.
  - destruct (pull_follows scfg config limit src log s past rest Hrole Hsrc Hf Hs Hnext Hroom) as (s1&Hrun&Hs1&Hr1).
    cbn [pulls]. rewrite (sbind_Ok _ _ _ _ _ Hrun).
    assert (Hsplit : past ++ rest = (past ++ take (page_limit limit) rest) ++ drop (page_limit limit) rest) by (by rewrite <-app_assoc, take_drop).
    rewrite Hsplit in *. apply IH; try done. rewrite length_drop. lia.
Qed.
End rounds.

(** ** Replaying twice *)

Section twice.
Context `{SerdeJson} `{!JsonNumbers}.
Implicit Types (config : ReplicationConfig) (source : string) (x : Z * FeedOp) (xs : list (Z * FeedOp)).

Definition event_entry source x : option LogEntry :=
  match x.2 with
  | FeedEvent ev => Some (ev_stream ev, ev_event_type ev, display_value (parse_or_null (ev_body ev)), item_key source x.1)
  | _ => None
  end.

(** What a change leaves of the object under a key. *)
Definition write_of config (k : ObjectKey) x : option (option MemoryObject) :=
  if passes config x.2 then
    match x.2 with
    | FeedUpsert o => if decide (k = ob_key o) then Some (Some (replica_object o)) else None
    | FeedDelete collection i => if decide (k = (collection, i)) then Some None else None
    | FeedEvent _ => None
    end
  else None.
Definition last_write config (k : ObjectKey) xs : option (option MemoryObject) := last (omap (write_of config k) xs).

Lemma replay_step_object config source w x k :
  (replay_step config source w x).1 !! k = match write_of config k x with Some v => v | None => w.1 !! k end.
Proof.
  unfold replay_step, write_of. destruct (passes config x.2); [|done]. destruct x as [c [o|collection i|ev]]; cbn; [| |done].
  - destruct (decide (k = ob_key o)) as [->|Hne]; [by rewrite lookup_insert_eq|by rewrite lookup_insert_ne].
  - destruct (decide (k = (collection, i))) as [->|Hne]; [by rewrite lookup_delete_eq|by rewrite lookup_delete_ne].
Qed.

(** The last change of a key decides. *)
Lemma replay_object config source w xs k :
  (replay config source w xs).1 !! k = match last_write config k xs with Some v => v | None => w.1 !! k end.
Proof.
  unfold last_write. induction xs as [|x xs IH] using rev_ind; [done|].
  rewrite replay_snoc, replay_step_object, omap_app, IH. cbn. destruct (write_of config k x); [by rewrite last_snoc|by rewrite app_nil_r].
Qed.

Definition logged (log : list LogEntry) (y : LogEntry) : Prop := existsb (same_append y) log = true.

Lemma logged_append log y z : logged log y -> logged (log_append z log) y.
Proof. unfold logged, log_append. destruct (_ && _); [done|]. rewrite existsb_app. by intros ->. Qed.

Lemma logged_self log y : logged (log_append y log) y.
Proof.
  unfold logged, log_append. destruct (negb _ && _) eqn:Hd; [by apply andb_true_iff in Hd as [_ ?]|].
  rewrite existsb_app. cbn. unfold same_append at 2. rewrite !bool_decide_true by done. cbn. by rewrite orb_true_r.
Qed.

Lemma replay_step_log config source w x :
  (replay_step config source w x).2 = match event_entry source x with Some y => log_append y w.2 | None => w.2 end.
Proof. unfold replay_step, event_entry. destruct x as [c [o|collection i|ev]]; cbn; [by destruct (allowed _ _)|by destruct (allowed _ _)|done]. Qed.

Lemma replay_logged config source w xs y : logged w.2 y -> logged (replay config source w xs).2 y.
Proof.
  revert w. induction xs as [|x xs IH]; intros w Hy; [done|]. unfold replay in *. cbn [foldl]. apply IH. rewrite replay_step_log.
  destruct (event_entry source x); [by apply logged_append|done].
Qed.

Lemma replay_covers config source w xs x y : x ∈ xs -> event_entry source x = Some y -> logged (replay config source w xs).2 y.
Proof.
  intros (pre&post&->)%list_elem_of_split Hy. unfold replay. rewrite foldl_app. cbn [foldl]. apply (replay_logged config source _ post).
  rewrite replay_step_log, Hy. apply logged_self.
Qed.

Lemma item_key_nonempty source c : item_key source c <> "".
Proof. unfold item_key. by destruct source. Qed.

Lemma replay_covered config source xs : forall w,
  (forall x y, x ∈ xs -> event_entry source x = Some y -> logged w.2 y) -> (replay config source w xs).2 = w.2.
Proof.
  induction xs as [|x xs IH]; intros w Hcov; [done|]. unfold replay in *. cbn [foldl].
  assert (Hsame : (replay_step config source w x).2 = w.2).
  { rewrite replay_step_log. destruct (event_entry source x) as [y|] eqn:Hy; [|done]. unfold log_append.
    rewrite (Hcov x y) by (done || set_solver). rewrite bool_decide_false; [done|]. destruct x as [c [| |ev]]; try done. injection Hy as <-. apply item_key_nonempty. }
  rewrite IH; [done|]. intros x' y Hx Hy. rewrite Hsame. eapply Hcov; [|exact Hy]. set_solver.
Qed.

Lemma replay_app config source w xs ys : replay config source w (xs ++ ys) = replay config source (replay config source w xs) ys.
Proof. apply foldl_app. Qed.

(** Changes that were replayed already change nothing. *)
Lemma replay_again config source w pre post : replay config source (replay config source w pre) (pre ++ post) = replay config source w (pre ++ post).
Proof.
  rewrite !replay_app. f_equal. apply injective_projections.
  - apply map_eq. intros k. rewrite !(replay_object config source). by destruct (last_write config k pre).
  - apply replay_covered. intros x y Hx Hy. by eapply replay_covers.
Qed.

(** ** Events in order *)

Lemma item_key_inj source c d : in_u64 c -> in_u64 d -> item_key source c = item_key source d -> c = d.
Proof.
  intros Hc Hd Heq. unfold item_key, show_u64 in Heq. apply (inj (String.append source)), (inj (String.append ":")) in Heq.
  apply (f_equal parse_u64) in Heq. rewrite !parse_format in Heq by done. congruence.
Qed.

(** Events that do not bear the keys a feed gives its events. *)
Definition foreign source (log : list LogEntry) : Prop := Forall (fun y => forall c, in_u64 c -> y.2 <> item_key source c) log.

(** Every event of a feed is logged once, in the order of the feed, after the events that
    were there. *)
Lemma replay_log config source (os : gmap ObjectKey MemoryObject) log xs :
  foreign source log -> StronglySorted later xs -> Forall item_ok xs -> (replay config source (os, log) xs).2 = log ++ omap (event_entry source) xs.
Proof.
  intros Hlog. induction xs as [|x xs IH] using rev_ind; intros Hs Hok; [cbn; by rewrite app_nil_r|]. apply Forall_app in Hok as [Hok Hx]. apply Forall_cons in Hx as [Hx _].
  rewrite replay_snoc, replay_step_log, omap_app, IH; [|by apply StronglySorted_app_1_l in Hs|done]. cbn.
  destruct (event_entry source x) as [y|] eqn:Hy; [|by rewrite app_nil_r]. unfold log_append.
  assert (Hk : forall u v, event_entry source u = Some v -> v.2 = item_key source u.1) by (intros [? []] v; unfold event_entry; cbn; [done|done|by intros [= <-]]).
  replace (existsb _ _) with false; [by rewrite andb_false_r, app_assoc|]. symmetry. rewrite existsb_app. apply orb_false_iff. split.
  { apply not_true_iff_false. intros (z&Hz&Hsame)%existsb_exists. apply andb_true_iff in Hsame as [_ Hkey%bool_decide_eq_true].
    unfold foreign in Hlog. rewrite Forall_forall in Hlog. apply list_elem_of_In in Hz. destruct Hx as [Hr _].
    apply (Hlog z Hz x.1); [split; lia|]. by rewrite <-Hkey, (Hk _ _ Hy). } apply not_true_iff_false. intros (z&Hz&Hsame)%existsb_exists.
  apply list_elem_of_In, list_elem_of_omap in Hz as (x'&Hx'&Hz). apply andb_true_iff in Hsame as [_ Hkey%bool_decide_eq_true].
  pose proof (StronglySorted_app_1_elem_of later xs [x] x' x Hs Hx' ltac:(set_solver)) as Hlt. rewrite Forall_forall in Hok.
  destruct (Hok x' Hx') as [Hr' _], Hx as [Hr _].
  rewrite (Hk _ _ Hy), (Hk _ _ Hz) in Hkey. apply item_key_inj in Hkey; [|split; lia..]. unfold later in Hlt. lia.
Qed.
End twice.
