(* ===== verification/ReplicaSnapshot.v ===== *)
(** * thingd: snapshots of a source on a replica

    What [snapshot] collects on the in-memory engine and what [apply_snapshot] makes of it. *)

From S2P Require Import Prelude Wal Table Layer Database Keyspace RamScan Model Objects Events Links Storage Persistent Replication ReplicaSpec ReplicaRun ReplicaSource ReplicaSync.

(** ** On the replica *)

Definition put_allowed (config : ReplicationConfig) (m : gmap ObjectKey MemoryObject) (o : MemoryObject) : gmap ObjectKey MemoryObject :=
  if allowed config (ob_key o).1 then <[ob_key o := o]> m else m.

Lemma put_allowed_other config os : forall m k, (forall o, o ∈ os -> ob_key o <> k) -> foldl (put_allowed config) m os !! k = m !! k.
Proof.
  induction os as [|o os IH]; intros m k Hne; [done|]. cbn [foldl]. rewrite IH by set_solver. unfold put_allowed.
  destruct (allowed config (ob_key o).1); [|done]. apply lookup_insert_ne. apply Hne. set_solver.
Qed.

Lemma put_allowed_refused config os k : allowed config k.1 = false -> forall m, foldl (put_allowed config) m os !! k = m !! k.
Proof.
  intros Hk. induction os as [|o os IH]; intros m; [done|]. cbn [foldl]. rewrite IH. unfold put_allowed.
  destruct (allowed config (ob_key o).1) eqn:Ha; [|done]. apply lookup_insert_ne. intros <-. congruence.
Qed.

Lemma put_allowed_found config os o : forall m, o ∈ os -> allowed config (ob_key o).1 = true -> (forall o', o' ∈ os -> ob_key o' = ob_key o -> o' = o) ->
  foldl (put_allowed config) m os !! ob_key o = Some o.
Proof.
  induction os as [|x os IH] using rev_ind; intros m Hin Ha Huniq; [by apply elem_of_nil in Hin|]. rewrite foldl_app. cbn [foldl]. unfold put_allowed at 1.
  destruct (decide (ob_key x = ob_key o)) as [Hk|Hk]; [rewrite (Huniq x) by (done || set_solver); rewrite Ha; apply lookup_insert_eq|].
  assert (Hin' : o ∈ os) by (apply elem_of_app in Hin as [?|Hx%list_elem_of_singleton]; [done|by rewrite Hx in Hk]).
  destruct (allowed config (ob_key x).1); [rewrite lookup_insert_ne by done|]; apply IH; try done; set_solver.
Qed.

(** What replacing removes. *)
Definition drop_allowed (config : ReplicationConfig) (m : gmap ObjectKey MemoryObject) (o : MemoryObject) : gmap ObjectKey MemoryObject :=
  if allowed config (ob_key o).1 then delete (ob_key o) m else m.

Lemma drop_allowed_lookup config os : forall m k, foldl (drop_allowed config) m os !! k =
  if allowed config k.1 && existsb (fun o => bool_decide (ob_key o = k)) os then None else m !! k.
Proof.
  induction os as [|o os IH]; intros m k; [by rewrite andb_false_r|]. cbn [foldl existsb]. rewrite IH. unfold drop_allowed.
  destruct (bool_decide_reflect (ob_key o = k)) as [<-|Hne]; cbn [orb].
  - destruct (allowed config (ob_key o).1); [|done]. cbn [andb]. rewrite lookup_delete_eq. by destruct (existsb _ _).
  - destruct (allowed config k.1); cbn [andb]; [destruct (existsb _ _); [done|]|]; (destruct (allowed config (ob_key o).1); [by rewrite lookup_delete_ne|done]).
Qed.

(** The objects of a replica whose replicated collections are emptied if they are replaced. *)
Definition emptied (config : ReplicationConfig) (replace : bool) (m : gmap ObjectKey MemoryObject) : gmap ObjectKey MemoryObject :=
  if replace then foldl (drop_allowed config) m (btree_values m) else m.

Lemma emptied_lookup config replace m k : (replace = true -> forall k o, m !! k = Some o -> ob_key o = k) ->
  emptied config replace m !! k = if replace && allowed config k.1 then None else m !! k.
Proof.
  intros Hkeys. unfold emptied. destruct replace; [|done]. rewrite drop_allowed_lookup. cbn [andb]. destruct (allowed config k.1); [|done]. cbn [andb].
  destruct (existsb _ _) eqn:Hex; [done|]. destruct (m !! k) as [o|] eqn:Hk; [|done]. exfalso. apply not_true_iff_false in Hex. apply Hex, existsb_exists.
  exists o. split; [apply list_elem_of_In, elem_of_btree_values; eauto|]. apply bool_decide_eq_true. by apply Hkeys.
Qed.

Section replica.
Context `{SerdeJson} `{!JsonNumbers} `{!JsonText _} {R : Type} `{!ThingStore R} `{!ReplicaStore R}.
Implicit Types (config : ReplicationConfig) (s : R).

Definition replicable (o : MemoryObject) : Prop := 0 < ob_version o /\ ob_created_at o <> "" /\ ob_updated_at o <> "".

Lemma apply_objects_step config os : forall n s, rep_ok s -> Forall replicable os ->
  exists s', sfold (fun n o => if allowed config (ob_key o).1 then do* _ := ts_put_object_with_source_metadata o default_put_options in sret (n + 1) else sret n) n os s
      = (Ok (n + Z.of_nat (length (List.filter (fun o => allowed config (ob_key o).1) os))), s') /\ rep_ok s' /\ rep_log s' = rep_log s /\ rep_room s' = rep_room s /\
    rep_objects s' = foldl (put_allowed config) (rep_objects s) os.
Proof.
  induction os as [|o os IH]; intros n s Hok Hos; cbn [sfold List.filter foldl]; [exists s; split_and!; try done; unfold sret; repeat f_equal; cbn; lia|].
  apply Forall_cons in Hos as [(Hv&Hc&Hu) Hos]. unfold put_allowed at 2. destruct (allowed config (ob_key o).1).
  - destruct (rep_put_source s o default_put_options Hok Hv Hc Hu) as (s1&Hrun&Hok1&Hlog1&Hroom1&Hobj1); [by left|].
    destruct (IH (n + 1) s1 Hok1 Hos) as (s2&Hrun2&Hok2&Hlog2&Hroom2&Hobj2). exists s2. rewrite <-Hobj1. split_and!; try congruence.
    unfold sbind. rewrite Hrun. unfold sret at 1. unfold sbind in Hrun2. rewrite Hrun2. do 2 f_equal. cbn [length]. lia.
  - destruct (IH n s Hok Hos) as (s2&Hrun2&?&?&?&?). exists s2. by rewrite (sbind_Ok _ _ s n s).
Qed.

Lemma drop_objects_step config os : forall s, rep_ok s ->
  exists s', sfold (fun _ o => if allowed config (ob_key o).1 then do* _ := ts_delete_object (ob_key o).1 (ob_key o).2 in sret () else sret ()) () os s = (Ok (), s') /\
    rep_ok s' /\ rep_log s' = rep_log s /\ rep_room s' = rep_room s /\ rep_objects s' = foldl (drop_allowed config) (rep_objects s) os.
Proof.
  induction os as [|o os IH]; intros s Hok; [by exists s|]. cbn [sfold foldl]. unfold drop_allowed at 2. destruct (allowed config (ob_key o).1).
  - destruct (rep_delete s (ob_key o).1 (ob_key o).2 Hok) as (existed&s1&Hrun&Hok1&Hlog1&Hroom1&Hobj1). rewrite <-surjective_pairing in Hobj1.
    destruct (IH s1 Hok1) as (s2&Hrun2&Hok2&Hlog2&Hroom2&Hobj2). exists s2. rewrite <-Hobj1. split_and!; try congruence.
    unfold sbind. rewrite Hrun. unfold sret at 1. exact Hrun2.
  - destruct (IH s Hok) as (s2&Hrun2&?&?&?&?). exists s2. by rewrite (sbind_Ok _ _ s () s).
Qed.

Lemma replace_step config replace s : rep_ok s -> (replace = true -> Z.of_nat (length (btree_values (rep_objects s))) <= snapshot_limit) ->
  exists s', (if replace then
      do* existing := sread (fun s => ts_list_objects s None (mkListObjects [] None (Some snapshot_limit) None)) in
      sfold (fun _ o => if allowed config (ob_key o).1 then do* _ := ts_delete_object (ob_key o).1 (ob_key o).2 in sret () else sret ()) () existing
    else sret ()) s = (Ok (), s') /\ rep_ok s' /\ rep_log s' = rep_log s /\ rep_room s' = rep_room s /\ rep_objects s' = emptied config replace (rep_objects s).
Proof.
  intros Hok Hlim. destruct replace; [|by exists s]. unfold emptied. unfold sbind at 1, sread at 1.
  rewrite rep_list by done. rewrite take_ge by (specialize (Hlim eq_refl); lia). by apply drop_objects_step.
Qed.

Lemma apply_events_step evs : forall s, rep_ok s -> Z.of_nat (length evs) <= rep_room s -> Forall (fun ev => internal_name (ev_stream ev) = false) evs ->
  exists s', sfold (fun _ ev => if negb (internal_name (ev_stream ev)) then do* _ := ts_append_event ev in sret () else sret ()) () evs s = (Ok (), s') /\
    rep_ok s' /\ rep_objects s' = rep_objects s /\ rep_log s' = foldl (fun log ev => log_append (log_entry ev) log) (rep_log s) evs.
Proof.
  induction evs as [|ev evs IH]; intros s Hok Hroom Hevs; [by exists s|]. apply Forall_cons in Hevs as [Hev Hevs]. cbn [sfold foldl length] in *. rewrite Hev. cbn [negb].
  destruct (rep_append s ev Hok ltac:(lia)) as (stored&s1&Hrun&Hok1&Hobj1&Hroom1&Hlog1).
  destruct (IH s1 Hok1 ltac:(lia) Hevs) as (s2&Hrun2&Hok2&Hobj2&Hlog2). exists s2. rewrite <-Hlog1. split_and!; try congruence.
  unfold sbind. rewrite Hrun. unfold sret at 1. exact Hrun2.
Qed.

Lemma write_cursor_on source cursor s : rep_ok s -> in_u64 cursor -> is_str source ->
  exists stored s', write_applied_cursor source cursor s = (Ok (), s') /\ rep_ok s' /\ rep_log s' = rep_log s /\ read_applied_cursor s' source = Ok cursor /\
    rep_objects s' = <[(REPLICATION_STATE_COLLECTION, "source:" +:+ source) := stored]> (rep_objects s).
Proof.
  intros Hok Hc Hs. unfold write_applied_cursor.
  destruct (rep_put s (new_object REPLICATION_STATE_COLLECTION ("source:" +:+ source) (display_value (cursor_json source cursor))) Hok)
    as (stored&s'&Hrun&Hok'&Hlog&_&_&Hbody&Hobj).
  rewrite (sbind_Ok _ _ _ _ _ Hrun). exists stored, s'. split_and!; try done.
  unfold read_applied_cursor. rewrite rep_get, Hobj, lookup_insert_eq by done. rewrite bind_Ok. f_equal. by apply (cursor_read_back source).
Qed.

(** Applying a snapshot. *)
Lemma apply_snapshot_step config sn replace s : (replace = true -> Z.of_nat (length (btree_values (rep_objects s))) <= snapshot_limit) -> rc_role config = Replica -> rep_ok s -> is_str (sn_source_id sn) -> in_u64 (sn_cursor sn) ->
  Forall replicable (sn_objects sn) -> Forall (fun ev => internal_name (ev_stream ev) = false) (sn_events sn) ->
  Z.of_nat (length (sn_events sn)) <= rep_room s ->
  exists res stored s', apply_snapshot config sn replace s = (Ok res, s') /\ rep_ok s' /\ ra_last_applied_cursor res = sn_cursor sn /\
    rep_log s' = foldl (fun log ev => log_append (log_entry ev) log) (rep_log s) (sn_events sn) /\
    read_applied_cursor s' (sn_source_id sn) = Ok (sn_cursor sn) /\
    rep_objects s' = <[(REPLICATION_STATE_COLLECTION, "source:" +:+ sn_source_id sn) := stored]> (foldl (put_allowed config) (emptied config replace (rep_objects s)) (sn_objects sn)).
Proof.
  intros Hlim Hrole Hok Hsrc Hcur Hos Hevs Hroom. unfold apply_snapshot. rewrite bool_decide_true by done.
  destruct (replace_step config replace s Hok Hlim) as (s0&Hrun0&Hok0&Hlog0&Hroom0&Hobj0).
  destruct (apply_objects_step config (sn_objects sn) 0 s0 Hok0 Hos) as (s1&Hrun1&Hok1&Hlog1&Hroom1&Hobj1).
  destruct (apply_events_step (sn_events sn) s1 Hok1 ltac:(lia) Hevs) as (s2&Hrun2&Hok2&Hobj2&Hlog2).
  destruct (write_cursor_on (sn_source_id sn) (sn_cursor sn) s2 Hok2 Hcur Hsrc) as (stored&s3&Hrun3&Hok3&Hlog3&Hread&Hobj3).
  eexists _, stored, s3. rewrite (sbind_Ok _ _ _ _ _ Hrun0), (sbind_Ok _ _ _ _ _ Hrun1), (sbind_Ok _ _ _ _ _ Hrun2), (sbind_Ok _ _ _ _ _ Hrun3).
  split_and!; [reflexivity|done|done|congruence|done|congruence].
Qed.
End replica.

(** ** On the source *)

Section source.
Context `{SerdeJson} `{!JsonNumbers} `{!JsonText _} (clock : nat -> string).
Implicit Types (config : ReplicationConfig) (src : MemoryEngine * nat).

Definition latest (evs : list MemoryEvent) : Z := match last evs with Some ev => ev_sequence ev | None => 0 end.

Lemma take_within {A} (l : list A) limit : Z.of_nat (length l) <= limit -> take (Z.to_nat limit) l = l.
Proof. intros Hl. apply take_ge. lia. Qed.

Lemma snapshot_exact config src :
  Z.of_nat (length (btree_values (objects src.1))) <= snapshot_limit -> Z.of_nat (length (events src.1)) <= snapshot_limit ->
  take_snapshot (ThingStore0 := memory_store clock) config src = Ok (mkSnapshot (rc_source_id config) (latest (stream_events src.1 REPLICATION_STREAM))
    (List.filter (fun o => allowed config (ob_key o).1) (btree_values (objects src.1)))
    (List.filter (fun ev => negb (internal_name (ev_stream ev))) (events src.1))).
Proof.
  intros Ho He. unfold take_snapshot. cbn [ts_list_objects ts_list_events memory_store]. unfold list_objects, list_events.
  cbn [lo_filter lo_sort_by lo_offset lo_limit le_since le_from_sequence le_limit]. rewrite !bind_Ok.
  assert (Hall : forall A (p : A -> bool) l, (forall x, p x = true) -> List.filter p l = l) by (intros A p l Hp; apply filter_all; auto).
  rewrite (Hall _ (in_collections None)), (Hall _ (matches_filter [])) by done.
  rewrite (Hall _ (in_stream None)), !(Hall _ (after_sequence None)), ?(Hall _ (created_since None)) by done.
  rewrite !take_within; try done.
  pose proof (sublist_length _ _ (filter_sublist (in_stream (Some REPLICATION_STREAM)) (events src.1))). lia.
Qed.

Lemma latest_reached evs xs : Forall2 carries evs xs -> StronglySorted later xs -> Forall item_ok xs -> latest evs = reached 0 xs.
Proof.
  intros Hc Hs Hok. unfold latest. destruct (last evs) as [ev|] eqn:Hev.
  - apply last_Some in Hev as [pre ->]. apply Forall2_app_inv_l in Hc as (xpre&xlast&_&Hc&->). apply Forall2_cons_inv_l in Hc as (x&?&[Hseq _]&Hnil&->).
    apply Forall2_nil_inv_l in Hnil as ->. rewrite Hseq, reached_app. unfold reached at 1. cbn [foldl].
    destruct (reached_in 0 xpre) as [->|(y&Hy&<-)].
    + apply Forall_app in Hok as [_ Hok]. apply Forall_cons in Hok as [[? _] _]. lia.
    + pose proof (StronglySorted_app_1_elem_of later xpre [x] y x Hs Hy ltac:(set_solver)) as Hlt. unfold later in Hlt. lia.
  - apply last_None in Hev as ->. by apply Forall2_nil_inv_l in Hc as ->.
Qed.
End source.
