(* ===== verification/ReplicaSample.v ===== *)
(** * A text format for JSON values

    A concrete [SerdeJson] with integers, negative ones included, whose texts are read back as
    they were printed: the samples of the replication theorems use it. *)

From Stdlib Require Import Ascii.
From S2P Require Import Prelude Wal Table Layer Database Keyspace RamScan Model Objects Events Storage Persistent Replication ReplicaSpec.

(** ** Printing, in front of a rest *)

Fixpoint text_pos (p : positive) (rest : string) : string :=
  match p with
  | xH => String ";"%char rest
  | xO p => String "0"%char (text_pos p rest)
  | xI p => String "1"%char (text_pos p rest)
  end.
Definition text_number (z : Z) (rest : string) : string :=
  match z with
  | Z0 => String "z"%char rest
  | Zpos p => String "p"%char (text_pos p rest)
  | Zneg p => String "m"%char (text_pos p rest)
  end.
Fixpoint text_string (s rest : string) : string :=
  match s with
  | EmptyString => String "-"%char rest
  | String c s => String "+"%char (String c (text_string s rest))
  end.
Fixpoint text_value (v : Value Z) (rest : string) : string :=
  match v with
  | JNull => String "n"%char rest
  | JBool true => String "t"%char rest
  | JBool false => String "f"%char rest
  | JNumber z => String "#"%char (text_number z rest)
  | JString s => String "s"%char (text_string s rest)
  | JArray items => String "["%char ((fix go l := match l with [] => String "]"%char rest | x :: l => String ","%char (text_value x (go l)) end) items)
  | JObject fields =>
      String "{"%char ((fix go l := match l with [] => String "}"%char rest | x :: l => String ":"%char (text_string x.1 (text_value x.2 (go l))) end) fields)
  end.

(** ** Reading *)

Fixpoint read_pos (s : string) : option (positive * string) :=
  match s with
  | String c s =>
      if Ascii.eqb c ";"%char then Some (xH, s)
      else if Ascii.eqb c "0"%char then '(p, s) ← read_pos s; Some (xO p, s)
      else if Ascii.eqb c "1"%char then '(p, s) ← read_pos s; Some (xI p, s)
      else None
  | EmptyString => None
  end.
Definition read_number (s : string) : option (Z * string) :=
  match s with
  | String c s =>
      if Ascii.eqb c "z"%char then Some (0, s)
      else if Ascii.eqb c "p"%char then '(p, s) ← read_pos s; Some (Zpos p, s)
      else if Ascii.eqb c "m"%char then '(p, s) ← read_pos s; Some (Zneg p, s)
      else None
  | EmptyString => None
  end.
Fixpoint read_string (s : string) : option (string * string) :=
  match s with
  | String c s =>
      if Ascii.eqb c "-"%char then Some (EmptyString, s)
      else if Ascii.eqb c "+"%char then match s with String c s => '(t, s) ← read_string s; Some (String c t, s) | EmptyString => None end
      else None
  | EmptyString => None
  end.

Fixpoint read_value (fuel : nat) (s : string) : option (Value Z * string) :=
  match fuel, s with
  | S fuel, String c s =>
      if Ascii.eqb c "n"%char then Some (JNull, s)
      else if Ascii.eqb c "t"%char then Some (JBool true, s)
      else if Ascii.eqb c "f"%char then Some (JBool false, s)
      else if Ascii.eqb c "#"%char then '(z, s) ← read_number s; Some (JNumber z, s)
      else if Ascii.eqb c "s"%char then '(t, s) ← read_string s; Some (JString t, s)
      else if Ascii.eqb c "["%char then '(l, s) ← read_items fuel s; Some (JArray l, s)
      else if Ascii.eqb c "{"%char then '(l, s) ← read_fields fuel s; Some (JObject l, s)
      else None
  | _, _ => None
  end
with read_items (fuel : nat) (s : string) : option (list (Value Z) * string) :=
  match fuel, s with
  | S fuel, String c s =>
      if Ascii.eqb c "]"%char then Some ([], s)
      else if Ascii.eqb c ","%char then '(v, s) ← read_value fuel s; '(l, s) ← read_items fuel s; Some (v :: l, s)
      else None
  | _, _ => None
  end
with read_fields (fuel : nat) (s : string) : option (list (string * Value Z) * string) :=
  match fuel, s with
  | S fuel, String c s =>
      if Ascii.eqb c "}"%char then Some ([], s)
      else if Ascii.eqb c ":"%char then
        '(k, s) ← read_string s; '(v, s) ← read_value fuel s; '(l, s) ← read_fields fuel s; Some ((k, v) :: l, s)
      else None
  | _, _ => None
  end.

Definition read_text (s : string) : option (Value Z) :=
  match read_value (String.length s) s with Some (v, EmptyString) => Some v | _ => None end.

(** ** Round trip *)

Lemma read_text_pos p rest : read_pos (text_pos p rest) = Some (p, rest).
Proof. induction p as [p IH|p IH|]; cbn; [by rewrite IH..|done]. Qed.

Lemma read_text_number z rest : read_number (text_number z rest) = Some (z, rest).
Proof. destruct z as [|p|p]; cbn; [done|by rewrite read_text_pos..]. Qed.

Lemma read_text_string s rest : read_string (text_string s rest) = Some (s, rest).
Proof. induction s as [|c s IH]; cbn; [done|by rewrite IH]. Qed.

Lemma length_text_string s rest : (String.length rest <= String.length (text_string s rest))%nat.
Proof. induction s as [|c s IH]; cbn; lia. Qed.

Lemma length_text_number z rest : (String.length rest <= String.length (text_number z rest))%nat.
Proof.
  assert (Hp : forall p, (String.length rest <= String.length (text_pos p rest))%nat) by (intros p; induction p; cbn; lia).
  destruct z as [|p|p]; cbn; [lia|specialize (Hp p); lia..].
Qed.

Lemma value_rect' (P : Value Z -> Prop) :
  P JNull -> (forall b, P (JBool b)) -> (forall z, P (JNumber z)) -> (forall s, P (JString s)) ->
  (forall l, Forall P l -> P (JArray l)) -> (forall l, Forall (fun x => P x.2) l -> P (JObject l)) -> forall v, P v.
Proof.
  intros Hn Hb Hz Hs Ha Ho. fix go 1. intros [|b|z|s|l|l]; [done|apply Hb|apply Hz|apply Hs|apply Ha|apply Ho].
  - induction l as [|x l IH]; constructor; [apply go|exact IH].
  - induction l as [|x l IH]; constructor; [apply go|exact IH].
Qed.

(** A text is longer than its rest by at least the fuel that reading it takes. *)
Definition reads_back (v : Value Z) : Prop := forall rest fuel,
  (String.length (text_value v rest) <= fuel + String.length rest)%nat ->
  read_value fuel (text_value v rest) = Some (v, rest) /\ (String.length rest < String.length (text_value v rest))%nat.

Definition text_items (rest : string) : list (Value Z) -> string :=
  fix go l := match l with [] => String "]"%char rest | x :: l => String ","%char (text_value x (go l)) end.
Definition text_fields (rest : string) : list (string * Value Z) -> string :=
  fix go l := match l with [] => String "}"%char rest | x :: l => String ":"%char (text_string x.1 (text_value x.2 (go l))) end.

Lemma reads_items rest : forall l fuel, Forall reads_back l ->
  (String.length (text_items rest l) <= fuel + String.length rest)%nat ->
  read_items fuel (text_items rest l) = Some (l, rest) /\
  (String.length rest < String.length (text_items rest l))%nat.
Proof.
  induction l as [|x l IH]; intros fuel Hl Hf; [destruct fuel; cbn in *; [lia|split; [done|lia]]|]. apply Forall_cons in Hl as [Hx Hl]. cbn in Hf |- *.
  destruct (Hx (text_items rest l) (String.length (text_value x (text_items rest l)))) as [_ Hlen]; [lia|].
  destruct fuel as [|fuel]; [|]. { destruct (IH (String.length (text_items rest l)) Hl ltac:(lia)) as [_ ?]. lia. }
  destruct (IH fuel Hl ltac:(lia)) as [Hrun Hlt]. destruct (Hx (text_items rest l) fuel ltac:(lia)) as [Hrunx _]. cbn. rewrite Hrunx. cbn. rewrite Hrun. cbn. split; [done|lia].
Qed.

Lemma reads_fields rest : forall l fuel, Forall (fun x : string * Value Z => reads_back x.2) l ->
  (String.length (text_fields rest l) <= fuel + String.length rest)%nat ->
  read_fields fuel (text_fields rest l) = Some (l, rest) /\
  (String.length rest < String.length (text_fields rest l))%nat.
Proof.
  induction l as [|[k x] l IH]; intros fuel Hl Hf; [destruct fuel; cbn in *; [lia|split; [done|lia]]|]. apply Forall_cons in Hl as [Hx Hl]. cbn in Hf |- *.
  destruct (Hx (text_fields rest l) (String.length (text_value x (text_fields rest l)))) as [_ Hlen]; [cbn; lia|]. cbn in Hlen. pose proof (length_text_string k (text_value x (text_fields rest l))) as Hk.
  destruct fuel as [|fuel]. { destruct (IH (String.length (text_fields rest l)) Hl ltac:(lia)) as [_ ?]. lia. }
  destruct (IH fuel Hl ltac:(lia)) as [Hrun Hlt]. destruct (Hx (text_fields rest l) fuel ltac:(cbn; lia)) as [Hrunx _]. cbn in Hrunx |- *. rewrite read_text_string. cbn.
  rewrite Hrunx. cbn. rewrite Hrun. cbn. split; [done|lia].
Qed.

Lemma all_read_back v : reads_back v.
Proof.
  induction v as [|[]|z|s|l Hl|l Hl] using value_rect'; intros rest fuel Hf; (destruct fuel as [|fuel];
    [exfalso; cbn in Hf|cbn in Hf |- *]).
  all: try (split; [done|cbn; lia]).
  all: try lia.
  all: try fold (text_items rest) in *; try fold (text_fields rest) in *.
  - pose proof (length_text_number z rest). lia.
  - rewrite read_text_number. pose proof (length_text_number z rest). cbn. split; [done|lia].
  - pose proof (length_text_string s rest). lia.
  - rewrite read_text_string. pose proof (length_text_string s rest). cbn. split; [done|lia].
  - destruct (reads_items rest l (String.length (text_items rest l)) Hl); lia.
  - destruct (reads_items rest l fuel Hl ltac:(lia)) as [-> ?]. cbn. split; [done|lia].
  - destruct (reads_fields rest l (String.length (text_fields rest l)) Hl); lia.
  - destruct (reads_fields rest l fuel Hl ltac:(lia)) as [-> ?]. cbn. split; [done|lia].
Qed.

(** ** The instance *)

Definition text_json : SerdeJson := {|
  number := Z;
  as_f64 := fun _ => None;
  from_str := read_text;
  display_value := fun v => text_value v "";
|}.

#[refine] Definition text_numbers : @JsonNumbers text_json :=
  @Build_JsonNumbers text_json (fun z => z) (fun z => if (0 <=? z) && (z <=? U64_MAX) then Some z else None) _.
Proof. cbn. intros n [H1%Z.leb_le H2%Z.leb_le]. by rewrite H1, H2. Defined.

#[refine] Definition text_roundtrip : @JsonText text_json text_numbers :=
  @Build_JsonText text_json text_numbers (fun _ => True) _ _.
Proof.
  - done.
  - intros v _. unfold from_str, display_value, text_json, read_text. destruct (all_read_back v "" (String.length (text_value v ""))) as [-> _]; [cbn; lia|done].
Defined.
