(* ===== verification/ReplicaTheorems.v ===== *)
(** * thingd: theorems about replication

    A replica that pulls pages converges to its source, batches are applied once and can be
    retried after an interruption, objects that did not come from the source are never
    overwritten by it; and where the last promise fails or blocks the replica. *)

From S2P Require Import Prelude Wal Table Layer Database Keyspace RamScan Model Objects Events Links Storage Persistent Replication ReplicaSpec ReplicaRun ReplicaSource ReplicaSync ReplicaSnapshot ReplicaSample.

Section properties.
Context `{SerdeJson} `{!JsonNumbers} `{!JsonText _}.
Context {R : Type} `{!ThingStore R} `{!ReplicaStore R}.
Implicit Types (config scfg : ReplicationConfig) (source : string) (s : R) (xs : list (Z * FeedOp)).

(** C26. Convergence.  An application runs object puts, deletes and event appends on an
    in-memory source and records each; a replica then pulls pages.  The bodies are any texts:
    one that is not JSON travels as null, a JSON one has numbers that survive printing and
    parsing and nests at most 125 deep ([source_ok]).  The replica has no unique index
    ([rep_ok]), accepts only collections that the source replicates, holds no object of them
    and has applied nothing; its own events do not bear the keys of the feed.  After enough
    rounds for the number of changes every round has succeeded, the replica holds exactly
    the objects of the source in the collections it accepts, with versions and times of the
    source and the body as its JSON text, and after its own events the events of the feed
    once each and in order. *)
Theorem replica_converges (clock : nat -> string) scfg config ops limit n s :
  (forall n, is_str (clock n) /\ clock n <> "") ->
  rc_role scfg = Source -> rc_role config = Replica -> is_str (rc_source_id scfg) ->
  (forall collection, allowed config collection = true -> allowed scfg collection = true) ->
  Forall source_ok ops -> 2 * Z.of_nat (length ops) < U64_MAX ->
  in_step config (rc_source_id scfg) s (∅, rep_log s) -> foreign (rc_source_id scfg) (rep_log s) ->
  read_applied_cursor s (rc_source_id scfg) = Ok 0 ->
  Z.of_nat (length ops) <= rep_room s -> (length ops <= n * page_limit limit)%nat ->
  let src := source_run clock scfg (new_engine, 0%nat) ops in
  exists s' xs, pulls clock n scfg config limit src s = (Ok (), s') /\
    (forall k, allowed config k.1 = true -> rep_objects s' !! k = replica_object <$> objects src.1 !! k) /\
    Forall2 carries (stream_events src.1 REPLICATION_STREAM) xs /\ rep_log s' = rep_log s ++ omap (event_entry (rc_source_id scfg)) xs /\
    read_applied_cursor s' (rc_source_id scfg) = Ok (reached 0 xs).
Proof.
  intros Hclock Hrole Hrep Hsrc Hsub Hok Hlen Hs Hlog Hc Hroom Hn. cbn zeta.
  destruct (source_run_feeds clock Hclock scfg config (rc_source_id scfg) ops Hrole Hsub (new_engine, 0%nat) []) as (xs&Hf&Hm&Hbound&Hl);
    [apply feeds_empty|apply mirrors_empty|done|cbn; lia|]. cbn [app] in *.
  destruct (pulls_follow clock scfg config limit _ (rep_log s) n s [] xs Hrep Hsrc Hf) as (s'&Hrun&[Hs' Hc']); [by split| | |lia|].
  { pose proof (fd_next _ _ Hf). cbn [snd] in *. lia. }
  { lia. }
  exists s', xs. split_and!; [done| |by apply Hf| |done].
  - intros k Hk. rewrite (st_objects _ _ _ _ Hs'), <-Hm, !(replay_object config) by done. done.
  - rewrite (st_log _ _ _ _ Hs'). apply replay_log; [done|by eapply feed_sorted|]. eapply Forall_impl; [apply (fd_items _ _ Hf)|by intros x []].
Qed.

(** C27. A batch on a replica in step applies exactly the changes beyond the checkpoint, moves
    the checkpoint to the last of them and reports every change as applied or skipped;
    applying the same batch again skips all of it and changes nothing of the replicated
    objects and events. *)
Theorem apply_exactly_once config source c xs s w :
  rc_role config = Replica -> is_str source -> in_step config source s w -> Forall item_ok xs ->
  2 * Z.of_nat (length xs) <= rep_room s -> 0 <= c <= U64_MAX -> read_applied_cursor s source = Ok c ->
  exists res s' res' s'', apply_changes config (feed_item source <$> xs) s = (Ok res, s') /\
    in_step config source s' (replay config source w (List.filter (beyond c) xs)) /\ read_applied_cursor s' source = Ok (reached c xs) /\
    ra_applied res = Z.of_nat (length (List.filter (fun x => beyond c x && passes config x.2) xs)) /\
    ra_applied res + ra_skipped res = Z.of_nat (length xs) /\ ra_conflicts res = 0 /\
    apply_changes config (feed_item source <$> xs) s' = (Ok res', s'') /\
    in_step config source s'' (replay config source w (List.filter (beyond c) xs)) /\ ra_applied res' = 0 /\ ra_skipped res' = Z.of_nat (length xs).
Proof.
  intros Hrole Hsrc Hs Hxs Hroom Hc Hread.
  destruct (apply_batch config source c xs s w Hrole Hsrc Hs Hxs ltac:(lia) Hc Hread) as (res&s'&Hrun&Hs'&Hread'&Hr'&Hres).
  pose proof (reached_bound c xs ltac:(lia) Hxs) as Hb. pose proof (reached_ge c xs) as Hge.
  destruct (apply_batch config source (reached c xs) xs s' _ Hrole Hsrc Hs' Hxs ltac:(lia) ltac:(lia) Hread') as (res'&s''&Hrun'&Hs''&_&_&Hres').
  assert (Hdone : forall x, x ∈ xs -> beyond (reached c xs) x = false) by (intros x Hx; apply Z.ltb_ge; by apply reached_above).
  rewrite (filter_none (beyond (reached c xs)) xs Hdone) in Hs''. exists res, s', res', s''.
  destruct (counted_total config c xs no_changes) as (Hr1&Hr2&Hr3). destruct (counted_total config (reached c xs) xs no_changes) as (Hr4&Hr5&_).
  rewrite <-Hres in *. rewrite <-Hres' in *. rewrite (filter_none (fun x => beyond (reached c xs) x && _) xs) in Hr4 by (intros x Hx; by rewrite Hdone).
  cbn in *. split_and!; try done; lia.
Qed.

(** C28. A batch that is interrupted between two of its changes, before its checkpoint is
    written, can be sent again: on a replica in step with the feed ([in_step]: no unique
    index, and every object of the replicated collections came from the source), applying
    the whole batch again succeeds and ends as if it had been applied once without
    interruption, events included.  An interruption within a change, after the object was
    written and before its provenance record was, is not covered: the change is then refused
    ([interrupted_upsert_refused]). *)
Theorem interrupted_batch_retries config source c pre post s w :
  rc_role config = Replica -> is_str source -> in_step config source s w -> Forall item_ok (pre ++ post) ->
  2 * Z.of_nat (length (pre ++ post)) <= rep_room s -> 0 <= c <= U64_MAX -> read_applied_cursor s source = Ok c ->
  exists acc s1 res s2, sfold (apply_change config) (mkApply no_changes None 0) (feed_item source <$> pre) s = (Ok acc, s1) /\
    apply_changes config (feed_item source <$> pre ++ post) s1 = (Ok res, s2) /\
    in_step config source s2 (replay config source w (List.filter (beyond c) (pre ++ post))) /\ read_applied_cursor s2 source = Ok (reached c (pre ++ post)).
Proof.
  intros Hrole Hsrc Hs Hxs Hroom Hc Hread. rewrite length_app in Hroom.
  destruct (apply_fold config source c pre (mkApply no_changes None 0) s w Hs) as (s1&acc&Hrun&Hs1&Hc1&Hr1&_);
    [by apply Forall_app in Hxs as []|lia|done|split; by left|].
  destruct (apply_batch config source c (pre ++ post) s1 _ Hrole Hsrc Hs1 Hxs) as (res&s2&Hrun2&Hs2&Hc2&_); [rewrite length_app; lia|done|done|].
  rewrite List.filter_app, replay_again, <-List.filter_app in Hs2. by exists acc, s1, res, s2.
Qed.

(** An upsert of an object that did not come from the source. *)
Lemma upsert_refused config source c o s :
  rep_ok s -> is_Some (rep_objects s !! ob_key o) ->
  rep_objects s !! (REPLICATION_PROVENANCE_COLLECTION, replication_metadata_id source (ob_key o).1 (ob_key o).2) = None ->
  exists stored s', apply_object (feed_item source (c, FeedUpsert o)) (Some (ob_key o).1) s
      = (Err (replication_conflict (ob_key o).1 (ob_key o).2), s') /\ rep_ok s' /\ rep_log s' = rep_log s /\ rep_room s' = rep_room s /\
    ob_body stored = display_value (quarantine_json source c (conflict_json (ob_key o).1 (ob_key o).2)) /\
    rep_objects s' = <[(REPLICATION_QUARANTINE_COLLECTION, item_key source c) := stored]> (rep_objects s).
Proof.
  intros Hok Hex Hprov. unfold apply_object. cbn [ok_or feed_item ch_change ch_source_id ch_cursor feed_change fst snd]. unfold upsert_change. json_fields.
  cbn [ok_or]. rewrite !sbind_slift, sbind_get, <-surjective_pairing by done. rewrite bool_decide_true by done.
  assert (Hgate : (do* provenance := sread (fun s => ts_get_object s REPLICATION_PROVENANCE_COLLECTION
      (replication_metadata_id source (ob_key o).1 (ob_key o).2)) in sret (negb (bool_decide (is_Some provenance)))) s = (Ok true, s)).
  { rewrite sbind_get, Hprov, (bool_decide_false (is_Some None)) by (done || by intros []). done. }
  rewrite (sbind_Ok _ _ _ _ _ Hgate). cbn [ch_source_id ch_cursor]. unfold write_conflict.
  destruct (rep_put s (new_object REPLICATION_QUARANTINE_COLLECTION (item_key source c)
    (display_value (quarantine_json source c (conflict_json (ob_key o).1 (ob_key o).2)))) Hok) as (stored&s'&Hrun&Hok'&Hlog&Hroom&_&Hbody&Hobj).
  exists stored, s'. split_and!; try done. unfold item_key in Hrun. unfold sbind. by rewrite Hrun.
Qed.

Lemma sbind_Err {A B} (m : SM R A) (f : A -> SM R B) s err s' : m s = (Err err, s') -> sbind m f s = (Err err, s').
Proof. unfold sbind. by intros ->. Qed.

Lemma sfold_app {A X} (f : X -> A -> SM R X) l l' : forall x s, sfold f x (l ++ l') s = sbind (sfold f x l) (fun x => sfold f x l') s.
Proof.
  induction l as [|a l IH]; intros x s; [done|]. cbn [app sfold]. unfold sbind at 1 2 3. destruct (f x a s) as [[x1|err] s1]; [|done]. apply IH.
Qed.

(** The key that a change writes. *)
Definition written (op : FeedOp) : option ObjectKey :=
  match op with FeedUpsert o => Some (ob_key o) | FeedDelete collection i => Some (collection, i) | FeedEvent _ => None end.

(** The error of a refused change. *)
Definition conflict_of (op : FeedOp) : option ThingdError :=
  match op with FeedUpsert o => Some (replication_conflict (ob_key o).1 (ob_key o).2) | _ => None end.

Abbreviation provenance source k := (REPLICATION_PROVENANCE_COLLECTION, replication_metadata_id source k.1 k.2).
Abbreviation quarantine source x := (REPLICATION_QUARANTINE_COLLECTION, item_key source x.1).

(** What a change, applied or refused, leaves alone. *)
Record leaves_alone source (x : Z * FeedOp) s s' : Prop := {
  la_ok : rep_ok s';
  la_room : rep_room s - 1 <= rep_room s';
  la_state : same_state s s';
  la_objects : forall k, internal_name k.1 = false -> written x.2 <> Some k -> rep_objects s' !! k = rep_objects s !! k;
  la_provenance : forall k, (forall o, x.2 = FeedUpsert o -> provenance source (ob_key o) <> provenance source k) ->
    rep_objects s !! provenance source k = None -> rep_objects s' !! provenance source k = None;
}.

Lemma leaves_same source x s : rep_ok s -> leaves_alone source x s s.
Proof. intros Hok. split; try done. lia. Qed.

Lemma any_operation config source x s :
  rep_ok s -> item_ok x -> 0 < rep_room s -> passes config x.2 = true ->
  exists r s', operation source x s = (r, s') /\ leaves_alone source x s s' /\
  match r with Ok _ => True | Err err => conflict_of x.2 = Some err /\ is_Some (rep_objects s' !! quarantine source x) end.
Proof.
  intros Hok [Hpos Hf] Hroom Hp. destruct x as [c [o|collection i|ev]]; cbn [fst snd passes] in *; [pose proof (allowed_not_internal _ _ Hp) as Hint..|].
  - assert (Hne : forall n j, internal_name n = true -> ob_key o <> (n, j)) by (intros n j Hn Heq; rewrite Heq in Hint; cbn [fst] in Hint; congruence).
    destruct (decide (is_Some (rep_objects s !! ob_key o))) as [Hex|Hex].
    + destruct (rep_objects s !! provenance source (ob_key o)) as [pv|] eqn:Hprov.
      2: { destruct (upsert_refused config source c o s Hok Hex Hprov) as (stored&s'&Hrun&Hok'&_&Hroom'&_&Hobj). exists (Err (replication_conflict (ob_key o).1 (ob_key o).2)), s'.
           split; [done|]. split; [|split; [done|rewrite Hobj, lookup_insert_eq; eauto]]. split; [done|lia|intros j; by rewrite Hobj, lookup_insert_ne| |].
           - intros k Hk _. rewrite Hobj, lookup_insert_ne; [done|]. intros <-. done.
           - intros k _ Hk. by rewrite Hobj, lookup_insert_ne. }
      destruct (upsert_applied source c o s Hok Hf) as (stored&s'&Hrun&Hok'&_&Hroom'&Hobj); [by intros _; rewrite Hprov|].
      exists (Ok ()), s'. split; [done|]. split; [|done]. split; [done|lia| | |].
      * intros j. rewrite Hobj, !lookup_insert_ne; [done|by apply Hne|done].
      * intros k Hk Hw. cbn in Hw. rewrite Hobj, !lookup_insert_ne; [done|congruence|intros <-; done].
      * intros k Hk Hnone. rewrite Hobj, lookup_insert_ne, lookup_insert_ne by (done || by apply Hne || by apply Hk). done.
    + destruct (upsert_applied source c o s Hok Hf) as (stored&s'&Hrun&Hok'&_&Hroom'&Hobj); [by intros ?|].
      exists (Ok ()), s'. split; [done|]. split; [|done]. split; [done|lia| | |].
      * intros j. rewrite Hobj, !lookup_insert_ne; [done|by apply Hne|done].
      * intros k Hk Hw. cbn in Hw. rewrite Hobj, !lookup_insert_ne; [done|congruence|intros <-; done].
      * intros k Hk Hnone. rewrite Hobj, lookup_insert_ne, lookup_insert_ne by (done || by apply Hne || by apply Hk). done.
  - destruct (delete_applied source c collection i s Hok) as (stored&s'&Hrun&Hok'&_&Hroom'&Hobj). exists (Ok ()), s'. split; [done|]. split; [|done].
    split; [done|lia| | |].
    + intros j. rewrite Hobj, lookup_insert_ne, lookup_delete_ne; [done| |done]. intros [= Heq _]. rewrite Heq in Hint. done.
    + intros k Hk Hw. rewrite Hobj, lookup_insert_ne, lookup_delete_ne; [done|cbn in Hw; congruence|]. intros <-. done.
    + intros k _ Hnone. rewrite Hobj, lookup_insert_ne by done. apply lookup_delete_None. by right.
  - destruct (event_applied source c ev s Hok Hroom) as (s'&Hrun&Hok'&Hobj&Hroom'&_). exists (Ok ()), s'. split; [done|]. split; [|done].
    split; [done|lia|intros j; by rewrite Hobj|intros; by rewrite Hobj|intros; by rewrite Hobj].
Qed.

Lemma any_change config source c acc x s :
  rep_ok s -> item_ok x -> 0 < rep_room s -> read_applied_cursor s source = Ok c -> acc_ok source c acc ->
  exists r s', apply_change config acc (feed_item source x) s = (r, s') /\ leaves_alone source x s s' /\
  match r with Ok acc' => acc_ok source c acc' | Err err => conflict_of x.2 = Some err /\ is_Some (rep_objects s' !! quarantine source x) end.
Proof.
  intros Hok Hx Hroom Hc Hacc. rewrite (change_cases config source c) by (done || by destruct Hx; lia).
  destruct (beyond c x && passes config x.2) eqn:Hp; [|eexists _, s; split; [done|]; split; [by apply leaves_same|split; by right]].
  apply andb_true_iff in Hp as [_ Hp]. destruct (any_operation config source x s Hok Hx Hroom Hp) as (r&s'&Hrun&Hla&Hr). unfold sbind. rewrite Hrun.
  destruct r; (eexists _, s'; split; [done|]; split; [done|]); [split; by right|done].
Qed.

(** A change that neither writes a key nor gives it a provenance record. *)
Definition passes_by source (k : ObjectKey) (x : Z * FeedOp) : Prop :=
  written x.2 <> Some k /\ forall o, x.2 = FeedUpsert o -> provenance source (ob_key o) <> provenance source k.

(** Changes in front of a refused one: they are applied, or one of them is refused. *)
Lemma changes_before config source c pre k : forall acc s,
  rep_ok s -> Forall item_ok pre -> Z.of_nat (length pre) <= rep_room s -> read_applied_cursor s source = Ok c -> acc_ok source c acc ->
  Forall (passes_by source k) pre -> internal_name k.1 = false -> rep_objects s !! provenance source k = None ->
  exists r s', sfold (apply_change config) acc (feed_item source <$> pre) s = (r, s') /\ rep_ok s' /\ read_applied_cursor s' source = Ok c /\
    rep_objects s' !! k = rep_objects s !! k /\
    (forall k', internal_name k'.1 = false -> Forall (fun x => written x.2 <> Some k') pre -> rep_objects s' !! k' = rep_objects s !! k') /\
    match r with
    | Ok acc' => acc_ok source c acc' /\ rep_objects s' !! provenance source k = None
    | Err err => exists x, x ∈ pre /\ conflict_of x.2 = Some err /\ is_Some (rep_objects s' !! quarantine source x)
    end.
Proof.
  induction pre as [|x pre IH]; intros acc s Hok Hpre Hroom Hc Hacc Hby Hk Hnone; [eexists _, s; split_and!; done|].
  apply Forall_cons in Hpre as [Hx Hpre]. apply Forall_cons in Hby as [[Hw Hp] Hby]. cbn [length] in Hroom. rewrite fmap_cons. cbn [sfold].
  destruct (any_change config source c acc x s Hok Hx ltac:(lia) Hc Hacc) as (r&s1&Hrun&[Hok1 Hroom1 Hst1 Hobj1 Hprov1]&Hr).
  assert (Hc1 : read_applied_cursor s1 source = Ok c) by (by rewrite (same_cursor s s1)). unfold sbind. rewrite Hrun. destruct r as [acc1|err].
  - destruct (IH acc1 s1 Hok1 Hpre ltac:(lia) Hc1 Hr Hby Hk) as (r&s'&Hrun'&Hok'&Hc'&Hk'&Hall&Hend); [by apply Hprov1|].
    exists r, s'. split_and!; [done..|by rewrite Hk', Hobj1| |].
    + intros k' Hk1 [Hw' Hrest]%Forall_cons. rewrite Hall, Hobj1 by done. done.
    + destruct r as [acc'|err]; [done|]. destruct Hend as (y&Hy&Hend). exists y. split; [by right|done].
  - eexists _, s1. split_and!; [done..|by apply Hobj1|by intros k' Hk1 [Hw' _]%Forall_cons; apply Hobj1|]. exists x. split; [by left|done].
Qed.

(** C29. An object that the replica did not receive from the source (it has no provenance
    record) is not overwritten by an upsert of the source, wherever it stands in a batch, as
    long as no earlier change of the batch writes the object or gives it a provenance
    record: a delete of the source does remove a local object, after which an upsert is
    taken ([delete_removes_local]), and a record named alike vouches for it
    ([provenance_collision]).  The batch fails with the conflict of this upsert or of an
    earlier one, which is recorded in quarantine; the local object and every object of the
    application that no earlier change writes stay as they were, and so does the checkpoint.
    Where the upsert comes first, the record of the conflict is the only change. *)
Theorem local_objects_protected config source c o pre rest s checkpoint :
  rc_role config = Replica -> rep_ok s -> Forall item_ok pre -> Z.of_nat (length pre) <= rep_room s ->
  0 < c <= U64_MAX -> allowed config (ob_key o).1 = true -> Forall (passes_by source (ob_key o)) pre ->
  read_applied_cursor s source = Ok checkpoint -> checkpoint < c -> is_Some (rep_objects s !! ob_key o) ->
  rep_objects s !! provenance source (ob_key o) = None ->
  exists x err s', apply_changes config ((feed_item source <$> pre) ++ feed_item source (c, FeedUpsert o) :: rest) s = (Err err, s') /\
    x ∈ pre ++ [(c, FeedUpsert o)] /\ conflict_of x.2 = Some err /\ is_Some (rep_objects s' !! quarantine source x) /\
    rep_objects s' !! ob_key o = rep_objects s !! ob_key o /\
    (forall k, internal_name k.1 = false -> Forall (fun y => written y.2 <> Some k) pre -> rep_objects s' !! k = rep_objects s !! k) /\
    read_applied_cursor s' source = Ok checkpoint /\
    (pre = [] -> exists stored, rep_objects s' = <[quarantine source (c, FeedUpsert o) := stored]> (rep_objects s) /\
      ob_body stored = display_value (quarantine_json source c (conflict_json (ob_key o).1 (ob_key o).2)) /\ rep_log s' = rep_log s).
Proof.
  intros Hrole Hok Hpre Hroom Hc Ha Hby Hread Hlt Hex Hprov. pose proof (allowed_not_internal _ _ Ha) as Hint.
  destruct (changes_before config source checkpoint pre (ob_key o) (mkApply no_changes None 0) s Hok Hpre Hroom Hread) as (r&s1&Hrun&Hok1&Hc1&Hk1&Hall1&Hr);
    [split; by left|done..|]. unfold apply_changes. rewrite bool_decide_true by done. unfold sbind at 1. rewrite sfold_app. destruct r as [acc|err].
  2: { destruct Hr as (x&Hx&Hconf&Hq). exists x, err, s1. rewrite (sbind_Err _ _ _ _ _ Hrun). split_and!; try done; [set_solver|].
       intros ->. by apply elem_of_nil in Hx. }
  destruct Hr as [Hacc Hprov1]. rewrite <-Hk1 in Hex.
  destruct (upsert_refused config source c o s1 Hok1 Hex Hprov1) as (stored&s'&Hrun'&Hok'&Hlog&_&Hbody&Hobj).
  assert (Hstep : apply_change config acc (feed_item source (c, FeedUpsert o)) s1 = (Err (replication_conflict (ob_key o).1 (ob_key o).2), s')).
  { rewrite (change_cases config source checkpoint) by (done || cbn; lia). unfold beyond. cbn [fst snd passes]. rewrite (proj2 (Z.ltb_lt checkpoint c)), Ha by lia. cbn [andb].
    by apply sbind_Err. }
  exists (c, FeedUpsert o), (replication_conflict (ob_key o).1 (ob_key o).2), s'.
  assert (Hout : forall k, internal_name k.1 = false -> rep_objects s' !! k = rep_objects s1 !! k).
  { intros k Hk. rewrite Hobj, lookup_insert_ne; [done|]. intros <-. done. }
  split_and!; [|set_solver|done|by rewrite Hobj, lookup_insert_eq|by rewrite Hout|by intros k Hk Hw; rewrite Hout; auto| |].
  - rewrite (sbind_Ok _ _ _ _ _ Hrun). cbn [sfold]. by rewrite (sbind_Err _ _ _ _ _ Hstep).
  - rewrite (same_cursor s1 s'); [done|done|done|]. intros j. rewrite Hobj, lookup_insert_ne; done.
  - intros ->. cbn in Hrun. injection Hrun as <- <-. by exists stored.
Qed.

(** An upsert that is interrupted after the object was written and before its provenance was
    is refused when it is retried. *)
Lemma interrupted_upsert_refused config source c o s :
  rep_ok s -> feed_ok (FeedUpsert o) -> allowed config (ob_key o).1 = true -> rep_objects s !! ob_key o = None ->
  rep_objects s !! (REPLICATION_PROVENANCE_COLLECTION, replication_metadata_id source (ob_key o).1 (ob_key o).2) = None ->
  exists s1 s2, ts_put_object_with_source_metadata (replica_object o) (mkPutOptions true None) s = (Ok (replica_object o), s1) /\
    apply_object (feed_item source (c, FeedUpsert o)) (Some (ob_key o).1) s1 = (Err (replication_conflict (ob_key o).1 (ob_key o).2), s2).
Proof.
  intros Hok (Hv&Hc&Hu) Ha Hnone Hprov. pose proof (allowed_not_internal _ _ Ha) as Hint.
  destruct (rep_put_source s (replica_object o) (mkPutOptions true None) Hok) as (s1&Hrun&Hok1&_&_&Hobj1); [cbn; lia|done|done|by left|]. cbn [ob_key replica_object] in Hobj1.
  destruct (upsert_refused config source c o s1 Hok1) as (q&s2&Hrun2&_); [by rewrite Hobj1, lookup_insert_eq| |by exists s1, s2].
  rewrite Hobj1, lookup_insert_ne; [done|]. intros Heq. rewrite Heq in Hint. done.
Qed.

(** C30. Bootstrap.  Applying a snapshot of an in-memory source that has run puts, deletes and
    event appends with the bodies of [source_ok] (not JSON, or JSON with numbers that survive
    printing and parsing and nested at most 125 deep), and holds at most 100000 objects and
    events, to a replica without unique indexes ([rep_ok]) gives the replica every object of
    the source in the collections that both accept, exactly as the source holds it, the
    events outside the internal streams, and the checkpoint of the last recorded change.
    With [replace], on a replica of at most 100000 objects stored under their keys, the other
    objects of the collections that the replica accepts are removed; without it they stay.
    Every object outside those collections stays, but for the record of the checkpoint. *)
Theorem snapshot_bootstraps (clock : nat -> string) scfg config ops replace s :
  (forall n, is_str (clock n) /\ clock n <> "") -> rc_role scfg = Source -> rc_role config = Replica -> is_str (rc_source_id scfg) ->
  Forall source_ok ops -> 2 * Z.of_nat (length ops) < U64_MAX -> rep_ok s ->
  let src := source_run clock scfg (new_engine, 0%nat) ops in
  Z.of_nat (length (btree_values (objects src.1))) <= snapshot_limit -> Z.of_nat (length (events src.1)) <= snapshot_limit ->
  snapshot_limit <= rep_room s ->
  (replace = true -> Z.of_nat (length (btree_values (rep_objects s))) <= snapshot_limit /\ forall k o, rep_objects s !! k = Some o -> ob_key o = k) ->
  exists sn res s' xs, take_snapshot (ThingStore0 := memory_store clock) scfg src = Ok sn /\ apply_snapshot config sn replace s = (Ok res, s') /\
    (forall k, k <> (REPLICATION_STATE_COLLECTION, "source:" +:+ rc_source_id scfg) ->
      rep_objects s' !! k = match (if allowed config k.1 && allowed scfg k.1 then objects src.1 !! k else None) with
                            | Some o => Some o
                            | None => if replace && allowed config k.1 then None else rep_objects s !! k
                            end) /\
    rep_log s' = foldl (fun log ev => log_append (log_entry ev) log) (rep_log s)
      (List.filter (fun ev => negb (internal_name (ev_stream ev))) (events src.1)) /\
    Forall2 carries (stream_events src.1 REPLICATION_STREAM) xs /\ read_applied_cursor s' (rc_source_id scfg) = Ok (reached 0 xs).
Proof.
  intros Hclock Hrole Hrep Hsrc Hok Hlen Hs src Ho He Hroom Hreplace.
  destruct (source_run_feeds clock Hclock scfg scfg (rc_source_id scfg) ops Hrole ltac:(done) (new_engine, 0%nat) []) as (xs&Hf&_&Hbound&_);
    [apply feeds_empty|apply mirrors_empty|done|cbn; lia|]. cbn [app] in *. fold src in Hf.
  assert (Hitems : Forall item_ok xs) by (eapply Forall_impl; [apply (fd_items _ _ Hf)|by intros x []]).
  pose proof (latest_reached _ _ (fd_feed _ _ Hf) (feed_sorted _ _ Hf) Hitems) as Hlatest.
  pose proof (reached_bound 0 xs ltac:(unfold_ints; lia) Hitems) as Hmax. pose proof (reached_ge 0 xs) as Hmin.
  assert (Hin : forall o, o ∈ btree_values (objects src.1) -> objects src.1 !! ob_key o = Some o).
  { intros o (k&Hk)%elem_of_btree_values. by rewrite (fd_keys _ _ Hf _ _ Hk). }
  pose proof (snapshot_exact clock scfg src Ho He) as Hsn. rewrite Hlatest in Hsn.
  destruct (apply_snapshot_step config (mkSnapshot (rc_source_id scfg) (reached 0 xs)
    (List.filter (fun o => allowed scfg (ob_key o).1) (btree_values (objects src.1)))
    (List.filter (fun ev => negb (internal_name (ev_stream ev))) (events src.1))) replace s ltac:(intros Hr; by destruct (Hreplace Hr)) Hrep Hs Hsrc ltac:(split; cbn; lia)) as (res&stored&s'&Hrun&Hs'&_&Hlog&Hc&Hobj).
  { apply Forall_forall. intros o [Hx%Hin _]%elem_of_filter_bool. destruct (fd_stored _ _ Hf _ _ Hx) as [_ [_ ?] ? [? _]]. done. }
  { apply Forall_forall. by intros ev [_ Hx%negb_true_iff]%elem_of_filter_bool. }
  { cbn [sn_events]. pose proof (sublist_length _ _ (filter_sublist (fun ev => negb (internal_name (ev_stream ev))) (events src.1))). lia. }
  eexists _, res, s', xs. cbn [sn_source_id sn_cursor sn_objects sn_events] in *. split_and!; [exact Hsn|exact Hrun| |done|by apply Hf|done].
  intros k Hk. rewrite Hobj, lookup_insert_ne by done.
  rewrite <-emptied_lookup by (intros Hr; by destruct (Hreplace Hr)). clear Hobj. destruct (allowed config k.1) eqn:Ha; cbn [andb].
  2: { apply put_allowed_refused, Ha. }
  destruct (allowed scfg k.1) eqn:Ha'; [|apply put_allowed_other; intros o [_ Ho']%elem_of_filter_bool <-; congruence].
  destruct (objects src.1 !! k) as [o|] eqn:Hx.
  - pose proof (fd_keys _ _ Hf _ _ Hx) as <-. apply put_allowed_found; [|done|].
    + apply elem_of_filter_bool. split; [apply elem_of_btree_values; eauto|done].
    + intros o' [Ho'%Hin _]%elem_of_filter_bool Heq. rewrite Heq in Ho'. congruence.
  - apply put_allowed_other. intros o [Ho'%Hin _]%elem_of_filter_bool <-. congruence.
Qed.

(** A replica bootstrapped from a snapshot refuses the next change of a snapshotted object:
    the snapshot is applied without provenance records, so the change of the source counts
    as a conflict with a local object and every batch that starts with it fails. *)
Theorem snapshot_blocks_updates config sn o o' c rest s :
  rc_role config = Replica -> rep_ok s -> is_str (sn_source_id sn) -> in_u64 (sn_cursor sn) -> sn_objects sn = [o] -> sn_events sn = [] -> replicable o ->
  allowed config (ob_key o).1 = true -> ob_key o' = ob_key o -> sn_cursor sn < c <= U64_MAX -> 0 <= rep_room s ->
  rep_objects s !! (REPLICATION_PROVENANCE_COLLECTION, replication_metadata_id (sn_source_id sn) (ob_key o).1 (ob_key o).2) = None ->
  exists res s1 s2, apply_snapshot config sn false s = (Ok res, s1) /\
    apply_changes config (feed_item (sn_source_id sn) (c, FeedUpsert o') :: rest) s1 = (Err (replication_conflict (ob_key o).1 (ob_key o).2), s2) /\
    rep_objects s2 !! ob_key o = Some o.
Proof.
  intros Hrole Hok Hsrc Hcur Hos Hevs Hrep Ha Hkey Hc Hroom Hprov. pose proof (allowed_not_internal _ _ Ha) as Hint.
  destruct (apply_snapshot_step config sn false s ltac:(done) Hrole Hok Hsrc Hcur) as (res&stored&s1&Hrun&Hok1&_&_&Hread&Hobj);
    [rewrite Hos; by constructor|rewrite Hevs; constructor|rewrite Hevs; done|].
  rewrite Hos in Hobj. cbn [foldl] in Hobj. unfold put_allowed in Hobj. rewrite Ha in Hobj.
  assert (Hne : forall n i, internal_name n = true -> ob_key o <> (n, i)) by (intros n i Hn Heq; rewrite Heq in Hint; cbn [fst] in Hint; congruence).
  assert (Ho1 : rep_objects s1 !! ob_key o = Some o) by (rewrite Hobj, lookup_insert_ne by (symmetry; by apply Hne); apply lookup_insert_eq).
  destruct Hcur as [Hcur _]. rewrite <-Hkey in *.
  destruct (upsert_refused config (sn_source_id sn) c o' s1 Hok1) as (q&s2&Hrun2&_&_&_&_&Hobj2);
    [by rewrite Ho1|rewrite Hobj, lookup_insert_ne, lookup_insert_ne by (done || by apply Hne); done|].
  exists res, s1, s2. split_and!; [done| |rewrite Hobj2, lookup_insert_ne by (symmetry; by apply Hne); done].
  unfold apply_changes. rewrite bool_decide_true by done. cbn [sfold]. rewrite (sbind_Err _ _ s1 (replication_conflict (ob_key o').1 (ob_key o').2) s2); [done|].
  apply sbind_Err. rewrite (change_cases config (sn_source_id sn) (sn_cursor sn)) by (done || (cbn; lia) || split; by left). unfold beyond. cbn [fst snd passes].
  rewrite (proj2 (Z.ltb_lt (sn_cursor sn) c)), Ha by lia. by apply sbind_Err.
Qed.
End properties.

(** ** Samples *)

#[local] Existing Instance text_json.
#[local] Existing Instance text_numbers.
#[local] Existing Instance text_roundtrip.

Definition sample_clock : nat -> string := fun _ => "2026-01-01T00:00:00Z".
#[local] Instance sample_store : ThingStore (MemoryEngine * nat) := memory_store sample_clock.
#[local] Instance sample_replica : ReplicaStore (MemoryEngine * nat) := memory_replica sample_clock.

Definition sample_source : ReplicationConfig := source_config "a".
Definition sample_target : ReplicationConfig := replica_config "a".
Definition sample_text_body (s : string) : string := display_value (JString s).
Definition sample_user : MemoryObject := new_object "users" "1" (sample_text_body "x").
Definition sample_changes : list SourceOp :=
  [SrcPut sample_user; SrcPut (new_object "users" "2" (display_value (JNumber (-3)))); SrcPut (new_object "users" "3" "not JSON"); SrcAppend (new_event "s" "t" (sample_text_body "z"));
   SrcDelete "users" "2"; SrcPut sample_user].
Definition sample_fresh : MemoryEngine * nat := (new_engine, 0%nat).

Lemma sample_clock_ok n : is_str (sample_clock n) /\ sample_clock n <> "".
Proof. split; [by apply sample_text|done]. Qed.

Lemma sample_fresh_ok : rep_ok sample_fresh.
Proof. split; [exact new_engine_event_inv|]. intros k ix Hix. done. Qed.

Lemma sample_fresh_step config source : in_step config source sample_fresh empty_view.
Proof. split; [exact sample_fresh_ok|done..]. Qed.

Lemma sample_changes_ok : Forall source_ok sample_changes.
Proof.
  assert (Hb : forall b, is_str b -> plain_text (sample_text_body b)) by (intros b Hb; unfold plain_text, parse_or_null, sample_text_body; by rewrite (print_parse (JString b))).
  assert (Hn : plain_text (display_value (JNumber (-3)))) by done. assert (Hnull : plain_text "not JSON") by (vm_compute; done).
  repeat constructor; try (apply sample_text; reflexivity); try (apply Hb, sample_text; reflexivity); done.
Qed.

(** The provenance record of an object is named by joining source, collection and id with
    colons, so an object of collection a:b with id c vouches for the local object of
    collection a with id b:c: a change of the source then overwrites that local object. *)
Lemma provenance_collision :
  let local := new_object "a" "b:c" (sample_text_body "local") in
  let remote := mkObject ("a", "b:c") (sample_text_body "remote") 7 "t" "t" None in
  let other := mkObject ("a:b", "c") (sample_text_body "other") 1 "t" "t" None in
  let '(r1, s1) := ts_put_object local sample_fresh in
  let '(r2, s2) := apply_changes sample_target [feed_item "a" (1, FeedUpsert remote)] s1 in
  let '(r3, s3) := apply_changes sample_target [feed_item "a" (1, FeedUpsert other); feed_item "a" (2, FeedUpsert remote)] s1 in
  r2 = Err (replication_conflict "a" "b:c") /\ (ob_body <$> objects s2.1 !! ("a", "b:c")) = Some (sample_text_body "local") /\
  r3 = Ok (mkApplied 2 0 0 2) /\ objects s3.1 !! ("a", "b:c") = Some remote.
Proof. vm_compute. done. Qed.

(** A delete of the source removes an object that was written on the replica. *)
Lemma delete_removes_local :
  let '(r1, s1) := ts_put_object sample_user sample_fresh in
  let '(r2, s2) := apply_changes sample_target [feed_item "a" (1, FeedDelete "users" "1")] s1 in
  is_Some (objects s1.1 !! ("users", "1")) /\ r2 = Ok (mkApplied 1 0 0 1) /\ objects s2.1 !! ("users", "1") = None.
Proof. vm_compute. eauto. Qed.

(** A retried append is recorded twice, and the replica logs it twice: the idempotency key of
    the event travels in the payload but is not used. *)
Lemma retried_append_duplicated :
  let ev := mkEvent "s" "t" (sample_text_body "z") 0 "" "k" in
  let src := source_run sample_clock sample_source sample_fresh [SrcAppend ev; SrcAppend ev] in
  let '(r, s) := pulls sample_clock 1 sample_source sample_target 10 src sample_fresh in
  r = Ok () /\ length (stream_events src.1 "s") = 1%nat /\ length (stream_events s.1 "s") = 2%nat.
Proof. vm_compute. done. Qed.

(** ** Witnesses *)

Lemma replica_converges_witness :
  let src := source_run sample_clock sample_source sample_fresh sample_changes in
  exists s', pulls sample_clock 6 sample_source sample_target 1 src sample_fresh = (Ok (), s') /\
    objects s'.1 !! ("users", "1") = replica_object <$> objects src.1 !! ("users", "1").
Proof.
  destruct (replica_converges sample_clock sample_source sample_target sample_changes 1 6 sample_fresh sample_clock_ok) as (s'&xs&Hrun&Hobj&_);
    [done|done|by apply sample_text|done|exact sample_changes_ok|done|apply sample_fresh_step|by constructor|done|vm_compute; discriminate|vm_compute; lia|].
  exists s'. split; [exact Hrun|]. by apply (Hobj ("users", "1")).
Defined.

Definition sample_feed : list (Z * FeedOp) :=
  [(1, FeedUpsert (mkObject ("users", "1") (sample_text_body "x") 1 "t" "t" None)); (2, FeedEvent (new_event "s" "t" (sample_text_body "z")));
   (3, FeedDelete "users" "1")].

Lemma sample_feed_ok : Forall item_ok sample_feed.
Proof. repeat constructor; done. Qed.

Lemma apply_exactly_once_witness :
  exists res s', apply_changes sample_target (feed_item "a" <$> sample_feed) sample_fresh = (Ok res, s') /\ ra_applied res = 3 /\
    read_applied_cursor s' "a" = Ok 3.
Proof.
  destruct (apply_exactly_once sample_target "a" 0 sample_feed sample_fresh empty_view) as (res&s'&_&_&Hrun&_&Hc&Ha&_);
    [done|by apply sample_text|apply sample_fresh_step|exact sample_feed_ok|vm_compute; discriminate|vm_compute; split; discriminate|done|].
  exists res, s'. split_and!; [exact Hrun|exact Ha|exact Hc].
Defined.

Lemma interrupted_batch_retries_witness :
  exists acc s1 res s2, sfold (apply_change sample_target) (mkApply no_changes None 0) (feed_item "a" <$> take 2 sample_feed) sample_fresh = (Ok acc, s1) /\
    apply_changes sample_target (feed_item "a" <$> take 2 sample_feed ++ drop 2 sample_feed) s1 = (Ok res, s2) /\ read_applied_cursor s2 "a" = Ok 3.
Proof.
  destruct (interrupted_batch_retries sample_target "a" 0 (take 2 sample_feed) (drop 2 sample_feed) sample_fresh empty_view) as (acc&s1&res&s2&Hrun&Hrun2&_&Hc);
    [done|by apply sample_text|apply sample_fresh_step|exact sample_feed_ok|vm_compute; discriminate|vm_compute; split; discriminate|done|].
  exists acc, s1, res, s2. split_and!; [exact Hrun|exact Hrun2|exact Hc].
Defined.

Definition sample_local : MemoryEngine * nat := (ts_put_object sample_user sample_fresh).2.

Lemma sample_local_ok : rep_ok sample_local.
Proof. destruct (rep_put sample_fresh sample_user sample_fresh_ok) as (stored&s'&Hrun&Hok&_). unfold sample_local. by rewrite Hrun. Qed.

Lemma sample_local_keys k o : rep_objects sample_local !! k = Some o -> ob_key o = k.
Proof.
  destruct (rep_put sample_fresh sample_user sample_fresh_ok) as (stored&s'&Hrun&_&_&_&Hkey&_&Hobj). unfold sample_local. rewrite Hrun. cbn [snd].
  rewrite Hobj. intros [[<- <-]|[_ Ho]]%lookup_insert_Some; [done|]. exact (False_ind _ (lookup_empty_Some k o Ho)).
Qed.

Definition sample_before : list (Z * FeedOp) :=
  [(1, FeedUpsert (mkObject ("users", "9") (sample_text_body "x") 1 "t" "t" None)); (2, FeedDelete "users" "9")].

Lemma local_objects_protected_witness :
  exists err s', apply_changes sample_target ((feed_item "a" <$> sample_before) ++ [feed_item "a" (3, FeedUpsert sample_user)]) sample_local = (Err err, s') /\
    rep_objects s' !! ("users", "1") = rep_objects sample_local !! ("users", "1") /\ read_applied_cursor s' "a" = Ok 0.
Proof.
  destruct (local_objects_protected sample_target "a" 3 sample_user sample_before [] sample_local 0) as (x&err&s'&Hrun&_&_&_&Hk&_&Hc&_);
    [done|exact sample_local_ok|repeat constructor; done|vm_compute; discriminate|vm_compute; split; [reflexivity|discriminate]|done| |done|lia|vm_compute; eauto|done|].
  { repeat constructor; try done. intros o [= <-]. done. }
  exists err, s'. split_and!; [exact Hrun|exact Hk|exact Hc].
Defined.

Lemma snapshot_bootstraps_witness :
  let src := source_run sample_clock sample_source sample_fresh sample_changes in
  exists sn res s', take_snapshot sample_source src = Ok sn /\ apply_snapshot sample_target sn true sample_local = (Ok res, s') /\
    is_Some (rep_objects s' !! ("users", "1")).
Proof.
  destruct (snapshot_bootstraps sample_clock sample_source sample_target sample_changes true sample_local sample_clock_ok) as (sn&res&s'&xs&Hsn&Hrun&Hobj&_);
    [done|done|by apply sample_text|exact sample_changes_ok|done|exact sample_local_ok|vm_compute; discriminate..| |].
  { intros _. split; [vm_compute; discriminate|]. exact sample_local_keys. }
  exists sn, res, s'. split_and!; [exact Hsn|exact Hrun|]. rewrite (Hobj ("users", "1") ltac:(done)).
  assert (Hx : is_Some (objects (source_run sample_clock sample_source (new_engine, 0%nat) sample_changes).1 !! ("users", "1"))) by (vm_compute; eauto).
  destruct Hx as [o Hx]. rewrite Hx. eauto.
Defined.

Definition sample_stored : MemoryObject := mkObject ("users", "1") (sample_text_body "x") 1 "t" "t" None.

Lemma snapshot_blocks_updates_witness :
  exists res s1 s2, apply_snapshot sample_target (mkSnapshot "a" 4 [sample_stored] []) false sample_fresh = (Ok res, s1) /\
    apply_changes sample_target [feed_item "a" (5, FeedUpsert (mkObject ("users", "1") (sample_text_body "y") 2 "t" "t" None))] s1
      = (Err (replication_conflict "users" "1"), s2).
Proof.
  destruct (snapshot_blocks_updates sample_target (mkSnapshot "a" 4 [sample_stored] []) sample_stored
    (mkObject ("users", "1") (sample_text_body "y") 2 "t" "t" None) 5 [] sample_fresh) as (res&s1&s2&Hrun&Hrun2&_);
    [done|exact sample_fresh_ok|by apply sample_text|vm_compute; split; discriminate|done|done|by vm_compute|done|done|vm_compute; split; [reflexivity|discriminate]
    |vm_compute; discriminate|done|].
  exists res, s1, s2. split; [exact Hrun|exact Hrun2].
Defined.
