(* ===== verification/BlockCache.v ===== *)
(** * ThingDB: the cache of table blocks

    Models [TableBlockCache] of [crates/thingdb/src/lib.rs]: verified blocks of immutable
    table files, each with its decoded records once a scan has decoded them, evicted by least
    recent use under a bound on the resident bytes; and the two block reads that go through
    it.  The capacities of the decoded vectors are the allocator's choice and parameters. *)

From S2P Require Import Prelude Wal Table Layer.

(** Path of the table file and offset of the block. *)
Abbreviation TableBlockCacheKey := (string * Z)%type.

Record CachedTableBlock := mkCachedBlock {
  cb_bytes : bytes;
  cb_records : option (list TableScanRecord);
  cb_decoded_bytes : Z;
  cb_last_access : Z;
}.

Record TableBlockCacheState := mkBlockCache {
  bc_capacity_bytes : Z;
  bc_resident_bytes : Z;
  bc_access_clock : Z;
  bc_hits : Z;
  bc_misses : Z;
  bc_decoded_hits : Z;
  bc_decoded_misses : Z;
  bc_evictions : Z;
  bc_entries : gmap TableBlockCacheKey CachedTableBlock;
  bc_lru : gmap Z TableBlockCacheKey;
}.

Definition with_capacity (capacity_bytes : Z) : TableBlockCacheState :=
  mkBlockCache capacity_bytes 0 0 0 0 0 0 0 ∅ ∅.
Definition TABLE_BLOCK_CACHE_BYTES : Z := 8 * 1024 * 1024.
Definition default_block_cache : TableBlockCacheState := with_capacity TABLE_BLOCK_CACHE_BYTES.

(** ** Field updates *)

Definition set_blocks (s : TableBlockCacheState) (resident clock : Z) es l : TableBlockCacheState :=
  mkBlockCache (bc_capacity_bytes s) resident clock (bc_hits s) (bc_misses s) (bc_decoded_hits s) (bc_decoded_misses s) (bc_evictions s) es l.
Definition set_lru (s : TableBlockCacheState) l := set_blocks s (bc_resident_bytes s) (bc_access_clock s) (bc_entries s) l.
Definition add_hit (s : TableBlockCacheState) : TableBlockCacheState :=
  mkBlockCache (bc_capacity_bytes s) (bc_resident_bytes s) (bc_access_clock s) (u64_saturating_add (bc_hits s) 1) (bc_misses s)
    (bc_decoded_hits s) (bc_decoded_misses s) (bc_evictions s) (bc_entries s) (bc_lru s).
Definition add_miss (s : TableBlockCacheState) : TableBlockCacheState :=
  mkBlockCache (bc_capacity_bytes s) (bc_resident_bytes s) (bc_access_clock s) (bc_hits s) (u64_saturating_add (bc_misses s) 1)
    (bc_decoded_hits s) (bc_decoded_misses s) (bc_evictions s) (bc_entries s) (bc_lru s).
Definition add_decoded_hit (s : TableBlockCacheState) : TableBlockCacheState :=
  mkBlockCache (bc_capacity_bytes s) (bc_resident_bytes s) (bc_access_clock s) (bc_hits s) (bc_misses s)
    (u64_saturating_add (bc_decoded_hits s) 1) (bc_decoded_misses s) (bc_evictions s) (bc_entries s) (bc_lru s).
Definition add_decoded_miss (s : TableBlockCacheState) : TableBlockCacheState :=
  mkBlockCache (bc_capacity_bytes s) (bc_resident_bytes s) (bc_access_clock s) (bc_hits s) (bc_misses s)
    (bc_decoded_hits s) (u64_saturating_add (bc_decoded_misses s) 1) (bc_evictions s) (bc_entries s) (bc_lru s).
Definition add_eviction (s : TableBlockCacheState) : TableBlockCacheState :=
  mkBlockCache (bc_capacity_bytes s) (bc_resident_bytes s) (bc_access_clock s) (bc_hits s) (bc_misses s)
    (bc_decoded_hits s) (bc_decoded_misses s) (u64_saturating_add (bc_evictions s) 1) (bc_entries s) (bc_lru s).

(** Bytes that an entry accounts for. *)
Definition resident_size (en : CachedTableBlock) : Z := u64_saturating_add (zlen (cb_bytes en)) (cb_decoded_bytes en).
Definition set_access (en : CachedTableBlock) (last_access : Z) : CachedTableBlock :=
  mkCachedBlock (cb_bytes en) (cb_records en) (cb_decoded_bytes en) last_access.

(** ** Operations *)

(** The entry becomes the most recently used one. *)
Definition touch (s : TableBlockCacheState) (key : TableBlockCacheKey) (en : CachedTableBlock) : TableBlockCacheState :=
  let last_access := u64_wrapping_add (bc_access_clock s) 1 in
  set_blocks s (bc_resident_bytes s) last_access (<[key := set_access en last_access]> (bc_entries s))
    (<[last_access := key]> (delete (cb_last_access en) (bc_lru s))).

Definition block_get (s : TableBlockCacheState) (key : TableBlockCacheKey) : option bytes * TableBlockCacheState :=
  match bc_entries s !! key with
  | None => (None, add_miss s)
  | Some en => (Some (cb_bytes en), add_hit (touch s key en))
  end.

Definition block_get_records (s : TableBlockCacheState) (key : TableBlockCacheKey) : option (list TableScanRecord) * TableBlockCacheState :=
  match bc_entries s !! key with
  | None => (None, add_decoded_miss s)
  | Some en =>
      match cb_records en with
      | None => (None, add_decoded_miss s)
      | Some records => (Some records, add_decoded_hit (touch s key en))
      end
  end.

(** [BTreeMap::pop_first]. *)
Definition pop_first (l : gmap Z TableBlockCacheKey) : option (Z * TableBlockCacheKey * gmap Z TableBlockCacheKey) :=
  match head (btree_iter l) with
  | Some (access, key) => Some (access, key, delete access l)
  | None => None
  end.

(** [state.entries.remove(&oldest_key)] in an eviction loop. *)
Definition evict_block (s : TableBlockCacheState) (oldest_key : TableBlockCacheKey) : TableBlockCacheState :=
  match bc_entries s !! oldest_key with
  | Some oldest =>
      add_eviction (set_blocks s (u64_saturating_sub (bc_resident_bytes s) (resident_size oldest)) (bc_access_clock s)
        (delete oldest_key (bc_entries s)) (bc_lru s))
  | None => s
  end.

(** The loop of [insert]; each round takes an entry from the index, whose size bounds the rounds. *)
Fixpoint evict_for (fuel : nat) (s : TableBlockCacheState) (length : Z) : option TableBlockCacheState :=
  match fuel with
  | O => None
  | S fuel =>
      if bc_capacity_bytes s <? u64_saturating_add (bc_resident_bytes s) length then
        match pop_first (bc_lru s) with
        | None => Some s
        | Some (_, oldest_key, l) => evict_for fuel (evict_block (set_lru s l) oldest_key) length
        end
      else Some s
  end.

(** The replaced entry of [insert]. *)
Definition drop_previous (s : TableBlockCacheState) (key : TableBlockCacheKey) : TableBlockCacheState :=
  match bc_entries s !! key with
  | Some previous =>
      set_blocks s (u64_saturating_sub (bc_resident_bytes s) (resident_size previous)) (bc_access_clock s)
        (delete key (bc_entries s)) (delete (cb_last_access previous) (bc_lru s))
  | None => s
  end.

Definition block_insert (s : TableBlockCacheState) (key : TableBlockCacheKey) (b : bytes) : option TableBlockCacheState :=
  if (bc_capacity_bytes s <? zlen b) || (bc_capacity_bytes s =? 0) then Some s else
  let s := drop_previous s key in
  s ← evict_for (S (size (bc_lru s))) s (zlen b);
  let last_access := u64_wrapping_add (bc_access_clock s) 1 in
  Some (set_blocks s (u64_saturating_add (bc_resident_bytes s) (zlen b)) last_access
    (<[key := mkCachedBlock b None 0 last_access]> (bc_entries s)) (<[last_access := key]> (bc_lru s))).

Definition restore_deferred (s : TableBlockCacheState) (deferred : option (Z * TableBlockCacheKey)) : TableBlockCacheState :=
  match deferred with Some (access, key) => set_lru s (<[access := key]> (bc_lru s)) | None => s end.

(** The loop of [insert_records]: the block itself is set aside, not evicted.  [false] is the
    early return when no other block is left. *)
Fixpoint make_room (fuel : nat) (s : TableBlockCacheState) (key : TableBlockCacheKey) (decoded_bytes : Z)
    (deferred : option (Z * TableBlockCacheKey)) : option (bool * TableBlockCacheState) :=
  match fuel with
  | O => None
  | S fuel =>
      if bc_capacity_bytes s <? u64_saturating_add (bc_resident_bytes s) decoded_bytes then
        match pop_first (bc_lru s) with
        | None => Some (false, restore_deferred s deferred)
        | Some (access, oldest_key, l) =>
            if bool_decide (oldest_key = key) then make_room fuel (set_lru s l) key decoded_bytes (Some (access, oldest_key))
            else make_room fuel (evict_block (set_lru s l) oldest_key) key decoded_bytes deferred
        end
      else Some (true, restore_deferred s deferred)
  end.

Definition attach_records (s : TableBlockCacheState) (key : TableBlockCacheKey) (records : list TableScanRecord) (decoded_bytes : Z)
    : TableBlockCacheState :=
  match bc_entries s !! key with
  | Some en =>
      if bool_decide (is_Some (cb_records en)) then s
      else set_blocks s (u64_saturating_add (bc_resident_bytes s) decoded_bytes) (bc_access_clock s)
             (<[key := mkCachedBlock (cb_bytes en) (Some records) decoded_bytes (cb_last_access en)]> (bc_entries s)) (bc_lru s)
  | None => s
  end.

Section capacities.
(** [Vec::capacity] of the decoded vectors, [size_of::<TableScanRecord>()]. *)
Context (records_capacity : list TableScanRecord -> Z) (bytes_capacity : bytes -> Z) (record_size : Z).

Definition decoded_size (records : list TableScanRecord) : Z :=
  u64_saturating_add (u64_saturating_mul (records_capacity records) record_size)
    (foldl (fun n r => u64_saturating_add (u64_saturating_add n (bytes_capacity (sr_key r)))
                         (match sr_value r with Some v => bytes_capacity v | None => 0 end)) 0 records).

Definition block_insert_records (s : TableBlockCacheState) (key : TableBlockCacheKey) (records : list TableScanRecord)
    : option TableBlockCacheState :=
  let decoded_bytes := decoded_size records in
  if (decoded_bytes =? 0) || (bc_capacity_bytes s <? decoded_bytes)
     || match bc_entries s !! key with
        | None => true
        | Some en => bool_decide (is_Some (cb_records en))
                     || (bc_capacity_bytes s <? u64_saturating_add (zlen (cb_bytes en)) decoded_bytes)
        end
  then Some s else
  '(room, s) ← make_room (S (size (bc_lru s))) s key decoded_bytes None;
  if room : bool then Some (attach_records s key records decoded_bytes) else Some s.
End capacities.

Record TableBlockCacheDiagnostics := mkBlockDiagnostics {
  bd_capacity_bytes : Z; bd_resident_bytes : Z; bd_entries : Z; bd_hits : Z; bd_misses : Z;
  bd_decoded_hits : Z; bd_decoded_misses : Z; bd_evictions : Z;
}.
Definition block_diagnostics (s : TableBlockCacheState) : TableBlockCacheDiagnostics :=
  mkBlockDiagnostics (bc_capacity_bytes s) (bc_resident_bytes s) (Z.of_nat (size (bc_entries s))) (bc_hits s) (bc_misses s)
    (bc_decoded_hits s) (bc_decoded_misses s) (bc_evictions s).

(** ** The invariant *)

Definition resident_total (es : gmap TableBlockCacheKey CachedTableBlock) : Z := map_fold (fun _ en n => resident_size en + n) 0 es.

(** The use index lists exactly the entries, and the byte count is exact. *)
Record blocks_core (s : TableBlockCacheState) : Prop := {
  bk_lru : forall a k, bc_lru s !! a = Some k <-> exists en, bc_entries s !! k = Some en /\ cb_last_access en = a;
  bk_clock : forall k en, bc_entries s !! k = Some en -> 0 < cb_last_access en <= bc_access_clock s;
  bk_size : forall k en, bc_entries s !! k = Some en -> 0 <= cb_decoded_bytes en /\ zlen (cb_bytes en) + cb_decoded_bytes en <= bc_capacity_bytes s /\
    (cb_records en = None -> cb_decoded_bytes en = 0);
  bk_resident : bc_resident_bytes s = resident_total (bc_entries s);
  bk_capacity : 0 <= bc_capacity_bytes s <= I64_MAX;
  bk_now : 0 <= bc_access_clock s;
}.

Record blocks_inv (s : TableBlockCacheState) : Prop := {
  bv_core : blocks_core s;
  bv_bound : bc_resident_bytes s <= bc_capacity_bytes s;
}.

Lemma resident_insert es k en : es !! k = None -> resident_total (<[k := en]> es) = resident_size en + resident_total es.
Proof. intros Hk. unfold resident_total. rewrite map_fold_insert_L; [done|intros; cbn; lia|done]. Qed.

Lemma resident_delete es k en : es !! k = Some en -> resident_total es = resident_size en + resident_total (delete k es).
Proof. intros Hk. unfold resident_total. rewrite (map_fold_delete_L _ _ k en es); [done|intros; cbn; lia|done]. Qed.

Lemma resident_replace es k en en' :
  es !! k = Some en -> resident_total (<[k := en']> es) = resident_total es - resident_size en + resident_size en'.
Proof. intros Hk. rewrite <-insert_delete_eq, resident_insert by apply lookup_delete_eq. rewrite (resident_delete es k en) by done. lia. Qed.

Lemma core_size s k en : blocks_core s -> bc_entries s !! k = Some en ->
  resident_size en = zlen (cb_bytes en) + cb_decoded_bytes en /\ 0 <= resident_size en.
Proof.
  intros Hc Hk. destruct (bk_size s Hc k en Hk) as (H1&H2&_). pose proof (bk_capacity s Hc). unfold resident_size, u64_saturating_add.
  pose proof (Zle_0_nat (length (cb_bytes en))). rewrite Z.min_l by (unfold_ints; lia). lia.
Qed.

Lemma resident_nonneg s es : blocks_core s -> es ⊆ bc_entries s -> 0 <= resident_total es.
Proof.
  intros Hc. induction es as [|k en es Hk IH] using map_ind; intros Hsub; [unfold resident_total; by rewrite map_fold_empty|].
  rewrite resident_insert by done. destruct (core_size s k en Hc) as [_ ?]; [eapply lookup_weaken; [apply lookup_insert_eq|done]|].
  specialize (IH ltac:(etrans; [by apply insert_subseteq|done])). lia.
Qed.

Lemma core_stats s s' : bc_capacity_bytes s' = bc_capacity_bytes s -> bc_resident_bytes s' = bc_resident_bytes s -> bc_access_clock s' = bc_access_clock s ->
  bc_entries s' = bc_entries s -> bc_lru s' = bc_lru s -> blocks_core s -> blocks_core s'.
Proof. intros H1 H2 H3 H4 H5 []. split; rewrite ?H1, ?H2, ?H3, ?H4, ?H5; done. Qed.

(** *** Use *)

Lemma touch_core s key en : blocks_core s -> bc_entries s !! key = Some en -> bc_access_clock s < U64_MAX -> blocks_core (touch s key en).
Proof.
  intros Hc Hk Hmax. pose proof Hc as [Hl Hcl Hsz Hr Hcap Hnow]. unfold touch, u64_wrapping_add. rewrite Z.mod_small by (unfold_ints; lia).
  set (now := bc_access_clock s + 1).
  assert (Hold : forall k e, bc_entries s !! k = Some e -> k <> key -> cb_last_access e <> cb_last_access en /\ cb_last_access e <> now).
  { intros k e He Hne. split; [|specialize (Hcl k e He); unfold now; lia]. intros Heq. apply Hne.
    assert (Hk1 : bc_lru s !! cb_last_access e = Some k) by (apply Hl; eauto). assert (Hk2 : bc_lru s !! cb_last_access en = Some key) by (apply Hl; eauto).
    rewrite Heq in Hk1. congruence. }
  split; cbn [bc_lru bc_entries bc_access_clock bc_capacity_bytes bc_resident_bytes set_blocks]; try done; [| | | |lia].
  - intros a k. destruct (decide (a = now)) as [->|Ha].
    + rewrite lookup_insert_eq. split; [intros [= <-]; exists (set_access en now); by rewrite lookup_insert_eq|].
      intros (e&He&Hea). apply lookup_insert_Some in He as [[<- <-]|[Hne He]]; [done|]. destruct (Hold k e He ltac:(done)) as [_ ?]. done.
    + rewrite lookup_insert_ne by done. destruct (decide (k = key)) as [->|Hkne].
      * rewrite lookup_insert_eq. split.
        { intros [Hne Ha']%lookup_delete_Some. apply Hl in Ha' as (e&He&<-). congruence. }
        intros (e&[= <-]&Hea). cbn in Hea. congruence.
      * rewrite lookup_insert_ne by done. rewrite lookup_delete_Some, Hl. split; [by intros [_ ?]|].
        intros (e&He&<-). split; [|eauto]. destruct (Hold k e He Hkne) as [? _]. done.
  - intros k e [[<- <-]|[Hne He]]%lookup_insert_Some; [cbn; unfold now; lia|]. specialize (Hcl k e He). unfold now. lia.
  - intros k e [[<- <-]|[Hne He]]%lookup_insert_Some; [exact (Hsz key en Hk)|exact (Hsz k e He)].
  - rewrite (resident_replace _ _ en) by done. rewrite Hr. unfold resident_size, set_access. cbn. lia.
Qed.

(** *** Eviction *)

Lemma pop_first_Some l a k l' : pop_first l = Some (a, k, l') -> l !! a = Some k /\ l' = delete a l.
Proof.
  unfold pop_first. destruct (head (btree_iter l)) as [[a' k']|] eqn:Hh; [|done]. intros [= <- <- <-]. split; [|done].
  apply elem_of_btree_iter. destruct (btree_iter l); [done|]. injection Hh as ->. by left.
Qed.

Lemma pop_first_size l a k l' : pop_first l = Some (a, k, l') -> size l = S (size l').
Proof. intros [Ha ->]%pop_first_Some. rewrite <-(insert_delete_id l a k Ha) at 1. apply map_size_insert_None, lookup_delete_eq. Qed.

Lemma pop_first_None l : pop_first l = None -> l = ∅.
Proof.
  unfold pop_first. destruct (head (btree_iter l)) as [[]|] eqn:Hh; [done|]. intros _. apply map_empty. intros a. destruct (l !! a) as [k|] eqn:Ha; [|done].
  apply elem_of_btree_iter in Ha. destruct (btree_iter l); [by apply elem_of_nil in Ha|done].
Qed.

(** Removing one entry with its place in the index. *)
Lemma core_remove s k en s' :
  blocks_core s -> bc_entries s !! k = Some en -> bc_capacity_bytes s' = bc_capacity_bytes s -> bc_access_clock s' = bc_access_clock s ->
  bc_entries s' = delete k (bc_entries s) -> bc_lru s' = delete (cb_last_access en) (bc_lru s) ->
  bc_resident_bytes s' = u64_saturating_sub (bc_resident_bytes s) (resident_size en) ->
  blocks_core s' /\ bc_resident_bytes s' = bc_resident_bytes s - resident_size en.
Proof.
  intros Hc Hk H1 H2 H3 H4 H5. pose proof Hc as [Hl Hcl Hsz Hr Hcap Hnow].
  assert (Hres : bc_resident_bytes s' = bc_resident_bytes s - resident_size en).
  { rewrite H5, Hr, (resident_delete _ k en) by done. unfold u64_saturating_sub.
    pose proof (resident_nonneg s (delete k (bc_entries s)) Hc ltac:(apply delete_subseteq)). lia. }
  split; [|done]. split; rewrite ?H1, ?H2, ?H3, ?H4; try done.
  - intros a k'. rewrite lookup_delete_Some, Hl. split.
    + intros (Hne&e&He&<-). exists e. rewrite lookup_delete_ne; [done|]. intros ->. congruence.
    + intros (e&[Hne He]%lookup_delete_Some&<-). split; [|eauto]. intros Heq. apply Hne.
      assert (Hk1 : bc_lru s !! cb_last_access e = Some k') by (apply Hl; eauto). assert (Hk2 : bc_lru s !! cb_last_access en = Some k) by (apply Hl; eauto).
      rewrite <-Heq in Hk1. congruence.
  - intros k' e [_ He]%lookup_delete_Some. by eapply Hcl.
  - intros k' e [_ He]%lookup_delete_Some. by eapply Hsz.
  - rewrite Hres, Hr, (resident_delete _ k en) by done. lia.
Qed.

(** What a loop of evictions keeps. *)
Record shrinks (s s' : TableBlockCacheState) : Prop := {
  sk_capacity : bc_capacity_bytes s' = bc_capacity_bytes s;
  sk_clock : bc_access_clock s' = bc_access_clock s;
  sk_entries : bc_entries s' ⊆ bc_entries s;
}.

#[export] Instance shrinks_preorder : PreOrder shrinks.
Proof. split; [by intros s|]. intros s1 s2 s3 [] []. split; [congruence..|by etrans]. Qed.

Lemma evict_step s a k l : blocks_core s -> pop_first (bc_lru s) = Some (a, k, l) ->
  exists en, bc_entries s !! k = Some en /\ cb_last_access en = a /\ blocks_core (evict_block (set_lru s l) k) /\ shrinks s (evict_block (set_lru s l) k) /\
    bc_entries (evict_block (set_lru s l) k) = delete k (bc_entries s) /\ bc_lru (evict_block (set_lru s l) k) = l /\
    bc_resident_bytes (evict_block (set_lru s l) k) = bc_resident_bytes s - resident_size en.
Proof.
  intros Hc [Ha ->]%pop_first_Some. apply (bk_lru s Hc) in Ha as (en&Hk&<-). exists en. unfold evict_block. cbn [bc_entries set_lru set_blocks]. rewrite Hk.
  destruct (core_remove s k en (add_eviction (set_blocks (set_lru s (delete (cb_last_access en) (bc_lru s)))
    (u64_saturating_sub (bc_resident_bytes s) (resident_size en)) (bc_access_clock s) (delete k (bc_entries s)) (delete (cb_last_access en) (bc_lru s)))))
    as [Hc' Hr]; try done.
  split_and!; try done. split; [done..|]. apply delete_subseteq.
Qed.

Lemma core_empty s : blocks_core s -> bc_lru s = ∅ -> bc_entries s = ∅.
Proof.
  intros Hc Hl. apply map_empty. intros k. destruct (bc_entries s !! k) as [en|] eqn:Hk; [|done].
  assert (Hx : bc_lru s !! cb_last_access en = Some k) by (apply (bk_lru s Hc); eauto). rewrite Hl in Hx. done.
Qed.

Lemma saturating_exact a b c : 0 <= a -> c <= I64_MAX -> u64_saturating_add a b <= c <-> a + b <= c.
Proof. unfold u64_saturating_add. unfold_ints. lia. Qed.

Lemma evict_for_run fuel : forall s n, blocks_core s -> 0 <= n <= bc_capacity_bytes s -> (size (bc_lru s) < fuel)%nat ->
  exists s', evict_for fuel s n = Some s' /\ blocks_core s' /\ shrinks s s' /\ bc_resident_bytes s' + n <= bc_capacity_bytes s'.
Proof.
  induction fuel as [|fuel IH]; intros s n Hc Hn Hf; [lia|]. cbn [evict_for]. pose proof (bk_capacity s Hc) as Hcap.
  pose proof (resident_nonneg s _ Hc (reflexivity _)) as Hpos. rewrite <-(bk_resident s Hc) in Hpos.
  destruct (Z.ltb_spec (bc_capacity_bytes s) (u64_saturating_add (bc_resident_bytes s) n)) as [Hlt|Hle].
  - destruct (pop_first (bc_lru s)) as [[[a k] l]|] eqn:Hp.
    + destruct (evict_step s a k l Hc Hp) as (en&Hk&Ha&Hc'&Hsk&He&Hl&Hr).
      destruct (IH (evict_block (set_lru s l) k) n Hc') as (s'&Hrun&Hc2&Hsk2&Hb).
      { by rewrite (sk_capacity _ _ Hsk). }
      { rewrite Hl. apply pop_first_size in Hp. lia. }
      exists s'. split_and!; [done..|by etrans|done].
    + exfalso. apply pop_first_None in Hp. apply core_empty in Hp; [|done]. rewrite (bk_resident s Hc), Hp in Hlt.
      unfold resident_total in Hlt. rewrite map_fold_empty in Hlt. unfold u64_saturating_add in Hlt. lia.
  - exists s. split_and!; [done..|]. by apply saturating_exact in Hle; [|lia..].
Qed.

(** *** Insertion *)

Lemma drop_previous_core s key : blocks_inv s -> blocks_inv (drop_previous s key) /\ shrinks s (drop_previous s key) /\ bc_entries (drop_previous s key) !! key = None.
Proof.
  intros [Hc Hb]. unfold drop_previous. destruct (bc_entries s !! key) as [en|] eqn:Hk; [|by split_and!].
  destruct (core_remove s key en (set_blocks s (u64_saturating_sub (bc_resident_bytes s) (resident_size en)) (bc_access_clock s)
    (delete key (bc_entries s)) (delete (cb_last_access en) (bc_lru s)))) as [Hc' Hr]; try done.
  destruct (core_size s key en Hc Hk) as [_ Hpos]. split_and!; [|split; [done..|apply delete_subseteq]|cbn; apply lookup_delete_eq].
  split; [done|]. rewrite Hr. cbn [bc_capacity_bytes set_blocks]. lia.
Qed.

Lemma fresh_size b now : zlen b <= I64_MAX -> resident_size (mkCachedBlock b None 0 now) = zlen b.
Proof.
  intros Hb. unfold resident_size, u64_saturating_add. cbn [cb_bytes cb_decoded_bytes]. rewrite Z.add_0_r. apply Z.min_l.
  assert (Hle : I64_MAX <= U64_MAX) by (by vm_compute). lia.
Qed.

(** Entering a new block under the next clock value. *)
Lemma core_enter s key b : blocks_core s -> bc_entries s !! key = None -> zlen b <= bc_capacity_bytes s -> bc_access_clock s < U64_MAX ->
  bc_resident_bytes s + zlen b <= bc_capacity_bytes s ->
  blocks_inv (set_blocks s (u64_saturating_add (bc_resident_bytes s) (zlen b)) (bc_access_clock s + 1)
    (<[key := mkCachedBlock b None 0 (bc_access_clock s + 1)]> (bc_entries s)) (<[bc_access_clock s + 1 := key]> (bc_lru s))).
Proof.
  intros Hc Hk Hz Hmax Hb. pose proof Hc as [Hl Hcl Hsz Hr Hcap Hnow]. pose proof (resident_nonneg s _ Hc (reflexivity _)) as Hpos.
  assert (Hsat : u64_saturating_add (bc_resident_bytes s) (zlen b) = bc_resident_bytes s + zlen b) by (unfold u64_saturating_add; unfold_ints; lia).
  split; [split|]; cbn [bc_lru bc_entries bc_access_clock bc_capacity_bytes bc_resident_bytes set_blocks]; try done; [| | | |lia|lia].
  - intros a k. destruct (decide (a = bc_access_clock s + 1)) as [->|Ha].
    + rewrite lookup_insert_eq. split; [intros [= <-]; eexists; by rewrite lookup_insert_eq|].
      intros (e&[[<- _]|[_ He]]%lookup_insert_Some&Hea); [done|]. specialize (Hcl k e He). lia.
    + rewrite lookup_insert_ne by done. rewrite Hl. split; intros (e&He&Hea).
      * exists e. rewrite lookup_insert_ne; [done|]. intros ->. congruence.
      * apply lookup_insert_Some in He as [[<- <-]|[_ He]]; [cbn in Hea; congruence|eauto].
  - intros k e [[<- <-]|[_ He]]%lookup_insert_Some; [cbn; lia|]. specialize (Hcl k e He). lia.
  - intros k e [[<- <-]|[_ He]]%lookup_insert_Some; [cbn; split_and!; [lia|lia|done]|exact (Hsz k e He)].
  - rewrite resident_insert, <-Hr, Hsat by done. rewrite fresh_size by lia. lia.
Qed.

Lemma block_insert_run s key b : blocks_inv s -> bc_access_clock s < U64_MAX ->
  exists s', block_insert s key b = Some s' /\ blocks_inv s' /\ bc_access_clock s' <= bc_access_clock s + 1 /\
    (forall k en, bc_entries s' !! k = Some en -> bc_entries s !! k = Some en \/ (k = key /\ cb_bytes en = b /\ cb_records en = None)).
Proof.
  intros Hinv Hmax. unfold block_insert. destruct ((bc_capacity_bytes s <? zlen b) || (bc_capacity_bytes s =? 0)) eqn:Hg.
  { exists s. split_and!; [done..|lia|auto]. }
  apply orb_false_iff in Hg as [Hg%Z.ltb_ge _]. destruct (drop_previous_core s key Hinv) as ([Hc1 _]&Hsk1&Hk1).
  destruct (evict_for_run (S (size (bc_lru (drop_previous s key)))) (drop_previous s key) (zlen b) Hc1) as (s2&Hrun&Hc2&Hsk2&Hb2).
  { rewrite (sk_capacity _ _ Hsk1). lia. }
  { lia. }
  cbv zeta. rewrite Hrun. cbn [mbind option_bind]. pose proof (transitivity Hsk1 Hsk2) as Hsk.
  unfold u64_wrapping_add. rewrite Z.mod_small by (pose proof (bk_now s2 Hc2); rewrite (sk_clock _ _ Hsk) in *; unfold_ints; lia).
  eexists. split; [reflexivity|]. split_and!.
  - apply core_enter; try done; [|rewrite (sk_capacity _ _ Hsk); lia|rewrite (sk_clock _ _ Hsk); lia].
    destruct (bc_entries s2 !! key) as [e|] eqn:He; [|done]. by rewrite (lookup_weaken _ _ _ _ He (sk_entries _ _ Hsk2)) in Hk1.
  - cbn. rewrite (sk_clock _ _ Hsk). lia.
  - cbn. intros k en [[<- <-]|[_ He]]%lookup_insert_Some; [by right|]. left. by apply (lookup_weaken _ _ _ _ He (sk_entries _ _ Hsk)).
Qed.

(** *** Decoded records *)

Lemma restore_fields s deferred :
  bc_capacity_bytes (restore_deferred s deferred) = bc_capacity_bytes s /\ bc_resident_bytes (restore_deferred s deferred) = bc_resident_bytes s /\
  bc_access_clock (restore_deferred s deferred) = bc_access_clock s /\ bc_entries (restore_deferred s deferred) = bc_entries s.
Proof. by destruct deferred as [[]|]. Qed.

Definition deferred_ok (s : TableBlockCacheState) (key : TableBlockCacheKey) (deferred : option (Z * TableBlockCacheKey)) : Prop :=
  match deferred with Some (a, k) => k = key /\ bc_lru s !! a = None | None => True end.

Lemma restore_lookup s key deferred a k : deferred_ok s key deferred -> bc_lru s !! a = Some k -> bc_lru (restore_deferred s deferred) !! a = Some k.
Proof. destruct deferred as [[a' k']|]; [|done]. intros [_ Hn] Ha. cbn. rewrite lookup_insert_ne; [done|]. intros ->. congruence. Qed.

Lemma access_unique s a a' k : blocks_core s -> bc_lru s !! a = Some k -> bc_lru s !! a' = Some k -> a = a'.
Proof. intros Hc (en&Hk&<-)%(bk_lru s Hc) (en'&Hk'&<-)%(bk_lru s Hc). congruence. Qed.

(** Setting the block itself aside. *)
Lemma defer_step s key deferred a l : blocks_core (restore_deferred s deferred) -> deferred_ok s key deferred -> pop_first (bc_lru s) = Some (a, key, l) ->
  deferred = None /\ blocks_core (restore_deferred (set_lru s l) (Some (a, key))) /\ deferred_ok (set_lru s l) key (Some (a, key)).
Proof.
  intros Hc Hd [Ha ->]%pop_first_Some. assert (Hnone : deferred = None).
  { destruct deferred as [[a' k']|]; [|done]. exfalso. pose proof (restore_lookup s key (Some (a', k')) a key Hd Ha) as H1. destruct Hd as [-> Hn].
    assert (H2 : bc_lru (restore_deferred s (Some (a', key))) !! a' = Some key) by apply lookup_insert_eq.
    rewrite (access_unique _ a a' key Hc H1 H2) in Ha. congruence. }
  subst deferred. split_and!; [done| |split; [done|cbn; apply lookup_delete_eq]]. apply (core_stats s); try done. cbn. by apply insert_delete_id.
Qed.

(** Evicting another block. *)
Lemma evict_other_step s key deferred a k l : blocks_core (restore_deferred s deferred) -> deferred_ok s key deferred -> pop_first (bc_lru s) = Some (a, k, l) ->
  k <> key ->
  blocks_core (restore_deferred (evict_block (set_lru s l) k) deferred) /\ deferred_ok (evict_block (set_lru s l) k) key deferred /\
  shrinks s (evict_block (set_lru s l) k) /\ bc_entries (evict_block (set_lru s l) k) = delete k (bc_entries s) /\ bc_lru (evict_block (set_lru s l) k) = l /\
  bc_resident_bytes (evict_block (set_lru s l) k) <= bc_resident_bytes s.
Proof.
  intros Hc Hd [Ha ->]%pop_first_Some Hne. pose proof (restore_lookup s key deferred a k Hd Ha) as Har. pose proof (restore_fields s deferred) as (F1&F2&F3&F4).
  apply (bk_lru _ Hc) in Har as (en&Hk&Hacc). destruct (core_size _ k en Hc Hk) as [_ Hpos]. rewrite F4 in Hk. unfold evict_block. cbn [bc_entries set_lru set_blocks]. rewrite Hk.
  set (s' := add_eviction (set_blocks (set_lru s (delete a (bc_lru s))) (u64_saturating_sub (bc_resident_bytes s) (resident_size en)) (bc_access_clock s)
    (delete k (bc_entries s)) (delete a (bc_lru s)))).
  change (add_eviction _) with s'. pose proof (restore_fields s' deferred) as (G1&G2&G3&G4).
  assert (Hl : bc_lru (restore_deferred s' deferred) = delete (cb_last_access en) (bc_lru (restore_deferred s deferred))).
  { rewrite Hacc. destruct deferred as [[a' k']|]; [|done]. destruct Hd as [_ Hn]. cbn. rewrite delete_insert_ne; [done|]. intros ->. congruence. }
  destruct (core_remove _ k en (restore_deferred s' deferred) Hc) as [Hc' Hr]; [by rewrite F4|by rewrite G1, F1|by rewrite G3, F3|by rewrite G4, F4|done|by rewrite G2, F2|].
  rewrite G2, F2 in Hr. split_and!; try done.
  - destruct deferred as [[a' k']|]; [|done]. destruct Hd as [-> Hn]. split; [done|]. cbn. rewrite lookup_delete_ne; [done|]. intros ->. congruence.
  - split; [done..|]. apply delete_subseteq.
  - lia.
Qed.

Lemma make_room_run fuel key n en : forall s deferred,
  blocks_core (restore_deferred s deferred) -> deferred_ok s key deferred -> bc_entries s !! key = Some en -> cb_records en = None ->
  0 <= n -> zlen (cb_bytes en) + n <= bc_capacity_bytes s -> (size (bc_lru s) < fuel)%nat ->
  exists s', make_room fuel s key n deferred = Some (true, s') /\ blocks_core s' /\ shrinks s s' /\ bc_entries s' !! key = Some en /\
    bc_resident_bytes s' + n <= bc_capacity_bytes s'.
Proof.
  induction fuel as [|fuel IH]; intros s deferred Hc Hd Hk Hrec Hn Hfit Hf; [lia|]. cbn [make_room]. pose proof (restore_fields s deferred) as (F1&F2&F3&F4).
  pose proof (bk_capacity _ Hc) as Hcap. pose proof (bk_resident _ Hc) as Hres. rewrite F1 in Hcap. rewrite F2, F4 in Hres.
  pose proof (resident_nonneg _ (bc_entries s) Hc ltac:(by rewrite F4)) as Hpos.
  destruct (Z.ltb_spec (bc_capacity_bytes s) (u64_saturating_add (bc_resident_bytes s) n)) as [Hlt|Hle].
  2: { exists (restore_deferred s deferred). rewrite F4, F2, F1. split_and!; try done; [by split; rewrite ?F1, ?F3, ?F4|]. apply saturating_exact in Hle; lia. }
  destruct (pop_first (bc_lru s)) as [[[a k] l]|] eqn:Hp.
  - pose proof (pop_first_size _ _ _ _ Hp) as Hsz. case_bool_decide as Hkey.
    + subst k. destruct (defer_step s key deferred a l Hc Hd Hp) as (->&Hc'&Hd').
      destruct (IH (set_lru s l) (Some (a, key)) Hc' Hd' Hk Hrec Hn Hfit ltac:(cbn; lia)) as (s'&Hrun&Hc2&[]&He2&Hb). exists s'. by split_and!.
    + destruct (evict_other_step s key deferred a k l Hc Hd Hp Hkey) as (Hc'&Hd'&Hsk&He&Hl&_).
      destruct (IH (evict_block (set_lru s l) k) deferred Hc' Hd') as (s'&Hrun&Hc2&Hsk2&He2&Hb);
        [by rewrite He, lookup_delete_ne|done|done|by rewrite (sk_capacity _ _ Hsk)|rewrite Hl; lia|]. exists s'. split_and!; [done..|by etrans|done|done].
  - exfalso. apply pop_first_None in Hp. assert (Hone : bc_entries s = {[key := en]}).
    { apply map_eq. intros k. destruct (decide (k = key)) as [->|Hne]; [by rewrite lookup_singleton_eq|]. rewrite lookup_singleton_ne by done.
      destruct (bc_entries s !! k) as [e|] eqn:He; [|done]. exfalso.
      assert (Hx : bc_lru (restore_deferred s deferred) !! cb_last_access e = Some k) by (apply (bk_lru _ Hc); rewrite F4; eauto).
      destruct deferred as [[a' k']|]; cbn in Hx; rewrite Hp in Hx; [|done]. destruct Hd as [-> _]. rewrite insert_empty in Hx.
      apply lookup_singleton_Some in Hx as [_ ?]. congruence. }
    destruct (core_size _ key en Hc ltac:(by rewrite F4)) as [Hsize _]. destruct (bk_size _ Hc key en ltac:(by rewrite F4)) as (_&_&Hz). rewrite Hz in Hsize by done.
    rewrite Hres, Hone, <-insert_empty, resident_insert in Hlt by done. unfold resident_total in Hlt. rewrite map_fold_empty in Hlt.
    unfold u64_saturating_add in Hlt. lia.
Qed.

(** ** Reads through the cache *)

Section reads.
Context `{Crc32} (records_capacity : list TableScanRecord -> Z) (bytes_capacity : bytes -> Z) (record_size : Z).
Context (records_capacity_nonneg : forall l, 0 <= records_capacity l) (bytes_capacity_nonneg : forall b, 0 <= bytes_capacity b)
  (record_size_nonneg : 0 <= record_size).

Abbreviation insert_decoded := (block_insert_records records_capacity bytes_capacity record_size).

Definition block_key (layer : TableLayer) (block : TableBlock) : TableBlockCacheKey := (tl_path layer, tb_offset block).

Definition read_cached_table_block (layer : TableLayer) (block : TableBlock) (s : TableBlockCacheState) : option (tdb_result bytes * TableBlockCacheState) :=
  match block_get s (block_key layer block) with
  | (Some b, s) => Some (Ok b, s)
  | (None, s) =>
      match read_table_block (tl_file layer) block with
      | Err err => Some (Err err, s)
      | Ok b => s ← block_insert s (block_key layer block) b; Some (Ok b, s)
      end
  end.

(** Decoding of the bytes of a block and the check of its key range. *)
Definition decode_block (block : TableBlock) (include_values : bool) (b : bytes) : tdb_result (list TableScanRecord) :=
  records ← decode_block_records (length b) b include_values 0 None;
  if negb (bool_decide (sr_key <$> head records = Some (tb_first_key block)))
     || negb (bool_decide (sr_key <$> last records = Some (tb_last_key block)))
  then Err (message "ThingDB table block key range does not match its index")
  else Ok records.

Definition read_cached_block_records (layer : TableLayer) (block : TableBlock) (include_values : bool) (s : TableBlockCacheState)
    : option (tdb_result (list TableScanRecord) * TableBlockCacheState) :=
  match block_get_records s (block_key layer block) with
  | (Some records, s) => Some (Ok records, s)
  | (None, s) =>
      '(bytes, s) ← read_cached_table_block layer block s;
      match (b ← bytes; decode_block block include_values b) with
      | Err err => Some (Err err, s)
      | Ok records =>
          s ← (if include_values then insert_decoded s (block_key layer block) records else Some s);
          Some (Ok records, s)
      end
  end.

Lemma decoded_nonneg records : 0 <= decoded_size records_capacity bytes_capacity record_size records.
Proof.
  assert (Hadd : forall a b, 0 <= a -> 0 <= b -> 0 <= u64_saturating_add a b) by (intros a b Ha Hb; unfold u64_saturating_add; apply Z.min_glb; [lia|by vm_compute]).
  apply Hadd; [apply Z.min_glb; [by apply Z.mul_nonneg_nonneg|by vm_compute]|].
  match goal with |- 0 <= foldl ?f 0 records => assert (Hf : forall n, 0 <= n -> 0 <= foldl f n records); [|by apply Hf] end.
  induction records as [|r rs IH]; intros n Hn; cbn [foldl]; [done|]. apply IH. apply Hadd; [by apply Hadd|]. by destruct (sr_value r).
Qed.

Lemma attach_run s key en records n : blocks_core s -> bc_entries s !! key = Some en -> cb_records en = None -> 0 <= n ->
  zlen (cb_bytes en) + n <= bc_capacity_bytes s -> bc_resident_bytes s + n <= bc_capacity_bytes s -> blocks_inv (attach_records s key records n).
Proof.
  intros Hc Hk Hrec Hn Hfit Hb. pose proof Hc as [Hl Hcl Hsz Hr Hcap Hnow]. unfold attach_records. rewrite Hk, Hrec. rewrite bool_decide_false by (by intros []).
  pose proof (resident_nonneg s _ Hc (reflexivity _)) as Hpos. destruct (core_size s key en Hc Hk) as [Hsize _]. destruct (Hsz key en Hk) as (_&_&Hz). rewrite Hz in Hsize by done.
  assert (Hle : I64_MAX <= U64_MAX) by (by vm_compute).
  assert (Hsat : u64_saturating_add (bc_resident_bytes s) n = bc_resident_bytes s + n) by (unfold u64_saturating_add; lia).
  assert (Hnew : resident_size (mkCachedBlock (cb_bytes en) (Some records) n (cb_last_access en)) = zlen (cb_bytes en) + n).
  { unfold resident_size, u64_saturating_add. cbn [cb_bytes cb_decoded_bytes]. apply Z.min_l. lia. }
  split; [split|]; cbn [bc_lru bc_entries bc_access_clock bc_capacity_bytes bc_resident_bytes set_blocks]; try done; [| | | |lia].
  - intros a k. rewrite Hl. destruct (decide (k = key)) as [->|Hne]; [|by rewrite lookup_insert_ne]. rewrite lookup_insert_eq, Hk. split; intros (e&[= <-]&?); eauto.
  - intros k e [[<- <-]|[_ He]]%lookup_insert_Some; [exact (Hcl key en Hk)|exact (Hcl k e He)].
  - intros k e [[<- <-]|[_ He]]%lookup_insert_Some; [by cbn|exact (Hsz k e He)].
  - rewrite (resident_replace _ _ en) by done. rewrite Hnew, Hsat, Hr. lia.
Qed.

Lemma insert_records_run s key records : blocks_inv s ->
  exists s', insert_decoded s key records = Some s' /\ blocks_inv s' /\ bc_access_clock s' = bc_access_clock s /\
    (forall k en, bc_entries s' !! k = Some en -> bc_entries s !! k = Some en \/
       exists old, k = key /\ bc_entries s !! k = Some old /\ cb_bytes en = cb_bytes old /\ cb_records en = Some records).
Proof.
  intros Hinv. unfold block_insert_records. pose proof (decoded_nonneg records) as Hn. set (n := decoded_size _ _ _ records) in *. cbv zeta.
  destruct (_ || _) eqn:Hg; [exists s; split_and!; auto|]. apply orb_false_iff in Hg as [_ Hg]. destruct (bc_entries s !! key) as [en|] eqn:Hk; [|done].
  apply orb_false_iff in Hg as [Hrec%bool_decide_eq_false Hfit%Z.ltb_ge]. assert (Hrec' : cb_records en = None) by (destruct (cb_records en); [by destruct Hrec|done]).
  destruct Hinv as [Hc Hb]. apply saturating_exact in Hfit; [|lia|apply (bk_capacity s Hc)].
  destruct (make_room_run (S (size (bc_lru s))) key n en s None Hc I Hk Hrec' Hn Hfit ltac:(lia)) as (s1&Hrun&Hc1&Hsk&Hk1&Hb1).
  rewrite Hrun. cbn [mbind option_bind]. eexists. split; [reflexivity|]. split_and!.
  - apply (attach_run s1 key en); try done. by rewrite (sk_capacity _ _ Hsk).
  - unfold attach_records. rewrite Hk1. rewrite bool_decide_false by done. cbn. apply (sk_clock _ _ Hsk).
  - unfold attach_records. rewrite Hk1. rewrite bool_decide_false by done. cbn.
    intros k e [[<- <-]|[_ He]]%lookup_insert_Some; [right; eauto|]. left. apply (lookup_weaken _ _ _ _ He (sk_entries _ _ Hsk)).
Qed.

(** *** Records without values *)

Definition erase (r : TableScanRecord) : TableScanRecord :=
  mkScanRecord (sr_key r) (match sr_value r with Some _ => Some [] | None => None end) (sr_priority r).

Lemma skip_of_read b cursor v stop : read_bytes b cursor = Ok (v, stop) -> skip_bytes b cursor = Ok stop.
Proof.
  unfold read_bytes, skip_bytes. destruct (read_u64 b cursor) as [[n c]|]; [|done]. rewrite !bind_Ok. destruct (u64_checked_add c n) as [e|]; [|done]. cbn.
  destruct (slice b c e) as [v'|] eqn:Hs; [|done]. cbn. intros [= <- <-]. unfold slice in Hs. destruct (_ && _) eqn:Hg; [|done].
  destruct (Z.ltb_spec (zlen b) e); [|done]. exfalso. lia.
Qed.

(** The value of a record under its kind byte. *)
Abbreviation kind_value kind cursor read :=
  (match kind with
   | 1 => read
   | 2 => Ok (None, cursor)
   | _ => Err (message "invalid ThingDB table operation")
   end).
Abbreviation value_read b kind cursor := (kind_value kind cursor ('(value, cursor) ← read_bytes b cursor; Ok (Some value, cursor))).
Abbreviation value_skip b kind cursor := (kind_value kind cursor (cursor ← skip_bytes b cursor; Ok (Some [], cursor))).

Lemma record_value_erased b kind cursor v c :
  (value_read b kind cursor : tdb_result (option bytes * Z)) = Ok (v, c) -> (value_skip b kind cursor : tdb_result (option bytes * Z)) = Ok (match v with Some _ => Some [] | None => None end, c).
Proof.
  destruct kind as [|[p|[p|p|]|]|]; try done; [by intros [= <- <-]|]. destruct (read_bytes b cursor) as [[v' c']|] eqn:Hr; [|done]. rewrite bind_Ok.
  intros [= <- <-]. by rewrite (skip_of_read _ _ _ _ Hr), bind_Ok.
Qed.

Lemma record_value_plain b kind cursor v c : (value_skip b kind cursor : tdb_result (option bytes * Z)) = Ok (v, c) -> match v with Some _ => Some [] | None => None end = v.
Proof. destruct kind as [|[p|[p|p|]|]|]; try done; [by intros [= <- <-]|]. destruct (skip_bytes b cursor); [|done]. rewrite bind_Ok. by intros [= <- <-]. Qed.

Lemma decode_erased fuel b : forall cursor last records,
  decode_block_records fuel b true cursor last = Ok records -> decode_block_records fuel b false cursor last = Ok (erase <$> records).
Proof.
  induction fuel as [|fuel IH]; intros cursor last records; unfold decode_block_records; fold decode_block_records; destruct (cursor <? zlen b); try done; try by intros [= <-].
  destruct (read_bytes b cursor) as [[key c1]|]; [|done]. rewrite !bind_Ok. destruct (read_byte b c1) as [[kind c2]|]; [|done]. rewrite !bind_Ok.
  destruct (value_read b kind c2 : tdb_result (option bytes * Z)) as [[v c3]|] eqn:Hv; [|done]. rewrite (record_value_erased _ _ _ _ _ Hv), !bind_Ok.
  destruct (read_u32 b c3) as [[stored c4]|]; [|done]. rewrite !bind_Ok. destruct (ok_or _ _) as [data|]; [|done]. rewrite !bind_Ok.
  destruct (negb _); [done|]. destruct (match last with Some k => key_leb key k | None => false end); [done|].
  destruct (decode_block_records fuel b true c4 (Some key)) as [rest|] eqn:Hrest; [|done]. rewrite (IH _ _ _ Hrest), !bind_Ok. by intros [= <-].
Qed.

Lemma decode_plain fuel b : forall cursor last records, decode_block_records fuel b false cursor last = Ok records -> erase <$> records = records.
Proof.
  induction fuel as [|fuel IH]; intros cursor last records; unfold decode_block_records; fold decode_block_records; destruct (cursor <? zlen b); try done; try by intros [= <-].
  destruct (read_bytes b cursor) as [[key c1]|]; [|done]. rewrite !bind_Ok. destruct (read_byte b c1) as [[kind c2]|]; [|done]. rewrite !bind_Ok.
  destruct (value_skip b kind c2 : tdb_result (option bytes * Z)) as [[v c3]|] eqn:Hv; [|done]. rewrite !bind_Ok.
  destruct (read_u32 b c3) as [[stored c4]|]; [|done]. rewrite !bind_Ok. destruct (ok_or _ _) as [data|]; [|done]. rewrite !bind_Ok.
  destruct (negb _); [done|]. destruct (match last with Some k => key_leb key k | None => false end); [done|].
  destruct (decode_block_records fuel b false c4 (Some key)) as [rest|] eqn:Hrest; [|done]. rewrite !bind_Ok. intros [= <-]. rewrite fmap_cons, (IH _ _ _ Hrest).
  unfold erase at 1. cbn. by rewrite (record_value_plain _ _ _ _ _ Hv).
Qed.

Lemma decode_block_erased block b records : decode_block block true b = Ok records -> decode_block block false b = Ok (erase <$> records).
Proof.
  unfold decode_block. destruct (decode_block_records (length b) b true 0 None) as [rs|] eqn:Hd; [|done]. rewrite (decode_erased _ _ _ _ _ Hd), !bind_Ok.
  assert (Hh : sr_key <$> head (erase <$> rs) = sr_key <$> head rs) by (by destruct rs).
  assert (Hl : sr_key <$> last (erase <$> rs) = sr_key <$> last rs) by (rewrite fmap_last; by destruct (last rs)).
  rewrite Hh, Hl. destruct (_ || _); [done|]. by intros [= <-].
Qed.

Lemma decode_block_plain block b records : decode_block block false b = Ok records -> erase <$> records = records.
Proof.
  unfold decode_block. destruct (decode_block_records (length b) b false 0 None) as [rs|] eqn:Hd; [|done]. rewrite bind_Ok. destruct (_ || _); [done|].
  intros [= <-]. by eapply decode_plain.
Qed.

(** *** Transparency *)

(** The blocks of the table files, which never change. *)
Context (known : TableBlockCacheKey -> option (bytes * TableBlock)).

Definition cached_ok (s : TableBlockCacheState) : Prop := forall k en, bc_entries s !! k = Some en ->
  exists file block, known k = Some (file, block) /\ read_table_block file block = Ok (cb_bytes en) /\
    (forall records, cb_records en = Some records -> read_table_block_records file block true = Ok records).

Record cache_at (n : Z) (s : TableBlockCacheState) : Prop := {
  ca_inv : blocks_inv s;
  ca_ok : cached_ok s;
  ca_clock : bc_access_clock s <= n;
}.

Lemma records_decode file block iv b : read_table_block file block = Ok b -> read_table_block_records file block iv = decode_block block iv b.
Proof. unfold read_table_block_records. by intros ->. Qed.

Lemma cache_at_weaken n m s : cache_at n s -> n <= m -> cache_at m s.
Proof. intros []. split; [done..|lia]. Qed.

(** Counters do not matter. *)
Lemma cache_at_counters n s s' : bc_capacity_bytes s' = bc_capacity_bytes s -> bc_resident_bytes s' = bc_resident_bytes s ->
  bc_access_clock s' = bc_access_clock s -> bc_entries s' = bc_entries s -> bc_lru s' = bc_lru s -> cache_at n s -> cache_at n s'.
Proof.
  intros H1 H2 H3 H4 H5 [[Hc Hb] Hok Hcl]. split; [split; [by apply (core_stats s)|by rewrite H1, H2]| |by rewrite H3]. intros k en. rewrite H4. apply Hok.
Qed.

Lemma touch_at n s key en : cache_at n s -> n < U64_MAX -> bc_entries s !! key = Some en -> cache_at (n + 1) (touch s key en).
Proof.
  intros [[Hc Hb] Hok Hcl] Hn Hk. split; [split; [apply touch_core; [done|done|lia]|exact Hb]| |].
  - intros k e. cbn. intros [[<- <-]|[_ He]]%lookup_insert_Some; [exact (Hok key en Hk)|exact (Hok k e He)].
  - cbn. unfold u64_wrapping_add. rewrite Z.mod_small; [lia|]. pose proof (bk_now s Hc). lia.
Qed.

Lemma cached_block_read n s layer block :
  cache_at n s -> n < U64_MAX -> known (block_key layer block) = Some (tl_file layer, block) ->
  exists s', read_cached_table_block layer block s = Some (read_table_block (tl_file layer) block, s') /\ cache_at (n + 1) s'.
Proof.
  intros Hs Hn Hkn. unfold read_cached_table_block, block_get. destruct (bc_entries s !! block_key layer block) as [en|] eqn:Hk.
  - destruct (ca_ok n s Hs _ _ Hk) as (file&blk&Hkn'&Hread&_). rewrite Hkn in Hkn'. injection Hkn' as <- <-. rewrite Hread.
    eexists. split; [reflexivity|]. by apply (cache_at_counters _ (touch s (block_key layer block) en)), touch_at.
  - assert (Hs1 : cache_at n (add_miss s)) by (by apply (cache_at_counters _ s)).
    destruct (read_table_block (tl_file layer) block) as [b|err] eqn:Hread; [|eexists; split; [reflexivity|apply (cache_at_weaken n); [done|lia]]].
    destruct Hs1 as [Hinv Hok Hcl]. destruct (block_insert_run (add_miss s) (block_key layer block) b Hinv ltac:(lia)) as (s'&Hrun&Hinv'&Hcl'&Hnew).
    rewrite Hrun. cbn [mbind option_bind]. exists s'. split; [done|]. split; [done| |lia]. intros k en Hen.
    destruct (Hnew k en Hen) as [Hold|(->&Hb&Hr)]; [by apply Hok|]. exists (tl_file layer), block. rewrite Hb, Hr. by split_and!.
Qed.

(** What a caller that asked for no values may look at. *)
Definition seen (include_values : bool) (records : list TableScanRecord) : list TableScanRecord := if include_values then records else erase <$> records.

(** With values the cached records are those of the file; without, they may carry values. *)
Lemma cached_records_read n s layer block iv :
  cache_at n s -> n + 1 < U64_MAX -> known (block_key layer block) = Some (tl_file layer, block) ->
  exists r s', read_cached_block_records layer block iv s = Some (r, s') /\ cache_at (n + 2) s' /\
    (seen iv <$> r) = read_table_block_records (tl_file layer) block iv.
Proof.
  intros Hs Hn Hkn. unfold read_cached_block_records, block_get_records.
  assert (Hmiss : exists r s', ('(bytes, s) ← read_cached_table_block layer block (add_decoded_miss s);
      match (b ← bytes; decode_block block iv b) with
      | Err err => Some (Err err, s)
      | Ok records => s ← (if iv then insert_decoded s (block_key layer block) records else Some s); Some (Ok records, s)
      end) = Some (r, s') /\ cache_at (n + 2) s' /\
      (seen iv <$> r) = read_table_block_records (tl_file layer) block iv).
  { destruct (cached_block_read n (add_decoded_miss s) layer block) as (s1&Hrun&Hs1); [by apply (cache_at_counters _ s)|lia|done|].
    rewrite Hrun. cbn [mbind option_bind]. unfold read_table_block_records. fold (decode_block block iv).
    destruct (read_table_block (tl_file layer) block) as [b|err] eqn:Hread; [|eexists _, s1; split_and!; [reflexivity|apply (cache_at_weaken (n + 1)); [done|lia]|done]].
    rewrite !bind_Ok. change (decode_block_records (length b) b iv 0 None ≫= _) with (decode_block block iv b).
    destruct (decode_block block iv b) as [rs|err] eqn:Hd; [|eexists _, s1; split_and!; [reflexivity|apply (cache_at_weaken (n + 1)); [done|lia]|done]].
    destruct iv.
    - destruct Hs1 as [Hinv Hok Hcl]. destruct (insert_records_run s1 (block_key layer block) rs Hinv) as (s2&Hrun2&Hinv2&Hcl2&Hnew). rewrite Hrun2. cbn [mbind option_bind].
      eexists _, s2. split_and!; [reflexivity| |done]. split; [done| |lia]. intros k en Hen. destruct (Hnew k en Hen) as [Hold|(old&->&Hold&Hb&Hr)]; [by apply Hok|].
      destruct (Hok _ _ Hold) as (file&blk&Hkn'&Hr'&_). rewrite Hkn in Hkn'. injection Hkn' as <- <-. exists (tl_file layer), block. rewrite Hb, Hr. split_and!; [done..|].
      intros records [= <-]. by rewrite (records_decode _ _ _ b).
    - eexists _, s1. split_and!; [reflexivity|apply (cache_at_weaken (n + 1)); [done|lia]|]. cbn. f_equal. by eapply decode_block_plain. }
  destruct (bc_entries s !! block_key layer block) as [en|] eqn:Hk; [|exact Hmiss]. destruct (cb_records en) as [rs|] eqn:Hrec; [|exact Hmiss]. clear Hmiss.
  destruct (ca_ok n s Hs _ _ Hk) as (file&blk&Hkn'&Hread&Hrecs). rewrite Hkn in Hkn'. injection Hkn' as <- <-. specialize (Hrecs rs Hrec).
  eexists _, _. split_and!; [reflexivity| |].
  - apply (cache_at_weaken (n + 1)); [|lia]. apply (cache_at_counters _ (touch s (block_key layer block) en)); try done. apply touch_at; [done|lia|done].
  - destruct iv; [done|]. rewrite (records_decode _ _ _ _ Hread) in Hrecs. by rewrite (records_decode _ _ _ _ Hread), (decode_block_erased _ _ _ Hrecs).
Qed.

Inductive BlockRead :=
| ReadBlock (layer : TableLayer) (block : TableBlock)
| ReadRecords (layer : TableLayer) (block : TableBlock) (include_values : bool).

Definition read_layer (r : BlockRead) : TableLayer := match r with ReadBlock layer _ | ReadRecords layer _ _ => layer end.
Definition read_block (r : BlockRead) : TableBlock := match r with ReadBlock _ block | ReadRecords _ block _ => block end.

(** A read without a cache. *)
Definition direct_read (r : BlockRead) : tdb_result (bytes + list TableScanRecord) :=
  match r with
  | ReadBlock layer block => inl <$> read_table_block (tl_file layer) block
  | ReadRecords layer block iv => inr <$> read_table_block_records (tl_file layer) block iv
  end.
Definition cached_read (r : BlockRead) (s : TableBlockCacheState) : option (tdb_result (bytes + list TableScanRecord) * TableBlockCacheState) :=
  match r with
  | ReadBlock layer block =>
      match read_cached_table_block layer block s with Some (Ok b, s) => Some (Ok (inl b), s) | Some (Err err, s) => Some (Err err, s) | None => None end
  | ReadRecords layer block iv =>
      match read_cached_block_records layer block iv s with
      | Some (Ok records, s) => Some (Ok (inr (seen iv records)), s)
      | Some (Err err, s) => Some (Err err, s)
      | None => None
      end
  end.
Fixpoint cached_reads (rs : list BlockRead) (s : TableBlockCacheState)
    : option (list (tdb_result (bytes + list TableScanRecord)) * TableBlockCacheState) :=
  match rs with
  | [] => Some ([], s)
  | r :: rs => '(x, s) ← cached_read r s; '(xs, s) ← cached_reads rs s; Some (x :: xs, s)
  end.

Lemma cached_read_run n s r : cache_at n s -> n + 1 < U64_MAX -> known (block_key (read_layer r) (read_block r)) = Some (tl_file (read_layer r), read_block r) ->
  exists s', cached_read r s = Some (direct_read r, s') /\ cache_at (n + 2) s'.
Proof.
  intros Hs Hn Hkn. destruct r as [layer block|layer block iv]; cbn [read_layer read_block cached_read direct_read] in *.
  - destruct (cached_block_read n s layer block Hs ltac:(lia) Hkn) as (s'&Hrun&Hs'). rewrite Hrun. exists s'. split; [by destruct (read_table_block _ _)|].
    apply (cache_at_weaken (n + 1)); [done|lia].
  - destruct (cached_records_read n s layer block iv Hs Hn Hkn) as (r&s'&Hrun&Hs'&Heq). rewrite Hrun, <-Heq. exists s'. split; [by destruct r|done].
Qed.

Lemma cached_reads_run rs : forall n s, cache_at n s -> n + 2 * Z.of_nat (length rs) < U64_MAX ->
  Forall (fun r => known (block_key (read_layer r) (read_block r)) = Some (tl_file (read_layer r), read_block r)) rs ->
  exists s', cached_reads rs s = Some (direct_read <$> rs, s') /\ blocks_inv s'.
Proof.
  induction rs as [|r rs IH]; intros n s Hs Hn Hkn; [exists s; split; [done|apply Hs]|]. apply Forall_cons in Hkn as [Hr Hkn]. cbn [length] in Hn.
  destruct (cached_read_run n s r Hs ltac:(lia) Hr) as (s1&Hrun&Hs1). destruct (IH (n + 2) s1 Hs1 ltac:(lia) Hkn) as (s2&Hrun2&Hinv).
  exists s2. cbn [cached_reads]. rewrite Hrun. cbn [mbind option_bind]. rewrite Hrun2. done.
Qed.

(** C34. Any sequence of block and record reads through a cache of any capacity gives exactly
    what the reads of the immutable table files give, errors included (of records read
    without values only keys and deletions are compared); the eviction loops end, and
    afterwards the cache accounts for every resident byte, stays within its capacity, and
    its use index lists exactly its entries. *)
Theorem block_cache_transparent capacity rs :
  0 <= capacity <= I64_MAX -> 2 * Z.of_nat (length rs) < U64_MAX ->
  Forall (fun r => known (block_key (read_layer r) (read_block r)) = Some (tl_file (read_layer r), read_block r)) rs ->
  exists s, cached_reads rs (with_capacity capacity) = Some (direct_read <$> rs, s) /\
    bc_resident_bytes s = resident_total (bc_entries s) /\ bc_resident_bytes s <= bc_capacity_bytes s /\
    (forall a k, bc_lru s !! a = Some k <-> exists en, bc_entries s !! k = Some en /\ cb_last_access en = a).
Proof.
  intros Hcap Hn Hkn. destruct (cached_reads_run rs 0 (with_capacity capacity)) as (s&Hrun&[[] Hb]); [|lia|done|by exists s].
  split; [split; [split|]|done|done]; try done; [|cbn; lia]. intros a k. cbn. split; [done|]. by intros (en&?&_).
Qed.
End reads.

(** ** Witness *)

#[local] Existing Instance sample_crc32.

(** A vector without spare room. *)
Definition sample_capacity {A} (l : list A) : Z := Z.of_nat (length l).

Definition sample_block_records : list entry := [([97], Some [1]); ([98], None)].
Definition sample_block : TableBlock := chunk_block 0 sample_block_records.
Definition sample_table_layer : TableLayer := mkLayer (records_layout sample_block_records) "t" None [sample_block] true.
Definition sample_reads : list BlockRead :=
  [ReadRecords sample_table_layer sample_block true; ReadBlock sample_table_layer sample_block; ReadRecords sample_table_layer sample_block false].

Lemma block_cache_transparent_witness :
  exists s, cached_reads sample_capacity sample_capacity 48 sample_reads (with_capacity 1000) = Some (direct_read <$> sample_reads, s) /\ bc_resident_bytes s <= bc_capacity_bytes s.
Proof.
  destruct (block_cache_transparent sample_capacity sample_capacity 48 (fun l => Zle_0_nat (length l)) (fun b => Zle_0_nat (length b)) ltac:(lia)
    (fun k => if bool_decide (k = ("t", 0)) then Some (records_layout sample_block_records, sample_block) else None) 1000 sample_reads)
    as (s&Hrun&_&Hb&_); [vm_compute; split; discriminate|vm_compute; reflexivity|repeat constructor|].
  exists s. split; [exact Hrun|exact Hb].
Defined.
