(* ===== verification/Server.v ===== *)
(** * thingd-server: admission of requests

    Models the authentication middleware with the cache of signing keys ([auth.rs]), the
    tenant part of the configuration ([config.rs]) and the path of a tenant's database, up to the
    point where a handler has chosen the database.
    [jsonwebtoken] and the HTTP client are parameters; a lock is never poisoned. *)

From S2P Require Import Prelude Wal Table Layer Database Keyspace RamScan Model Objects Storage RustStd.

(** ** Strings and headers *)

Inductive AppError := Unauthorized (detail : string) | BadRequest (detail : string).

Abbreviation app_result := (result AppError).

(** Bytes that [HeaderValue::to_str] and [HeaderValue::from_str] accept. *)
Definition visible_ascii (b : Z) : bool := ((32 <=? b) && (b <? 127)) || (b =? 9).
Definition ascii_lower (b : Z) : Z := if (65 <=? b) && (b <=? 90) then b + 32 else b.
(** Header names compare without regard to case. *)
Definition header_name (name : string) : string := bytes_str (ascii_lower <$> str_bytes name).

(** First value of each name, as [HeaderMap::get] returns it. *)
Abbreviation HeaderMap := (gmap string bytes).

Definition header_str (headers : HeaderMap) (name : string) : option string :=
  value ← headers !! header_name name;
  if forallb visible_ascii value then Some (bytes_str value) else None.

(** [str::trim] on text of visible ASCII: blanks and tabs. *)
Definition blank (b : Z) : bool := (b =? 32) || (b =? 9).
Fixpoint trim_front (b : bytes) : bytes := match b with x :: b' => if blank x then trim_front b' else b | [] => [] end.
Definition trim (s : string) : string := bytes_str (rev (trim_front (rev (trim_front (str_bytes s))))).

(** [str::strip_prefix]. *)
Fixpoint strip_prefix (p s : bytes) : option bytes :=
  match p, s with
  | [], _ => Some s
  | x :: p, y :: s => if x =? y then strip_prefix p s else None
  | _ :: _, [] => None
  end.

(** ** Configuration *)

Inductive TenantMode := Single | MultiTenant.
#[export] Instance TenantMode_eq_dec : EqDecision TenantMode.
Proof. solve_decision. Defined.
Inductive AuthMode := Bearer | TenantJwt.
#[export] Instance AuthMode_eq_dec : EqDecision AuthMode.
Proof. solve_decision. Defined.

Record TenantConfig := mkTenant { tc_mode : TenantMode; tc_header : string; tc_database_prefix : string }.

Definition resolve_db_path (c : TenantConfig) (tenant_id : option string) : string :=
  match tc_mode c with
  | Single => ""
  | MultiTenant => match tenant_id with Some tid => tc_database_prefix c +:+ tid +:+ "/thingd.db" | None => "" end
  end.

Record AuthConfig := mkAuth {
  au_mode : AuthMode;
  au_allow_unauthenticated : bool;
  au_tenant_tokens : gmap string string;
  au_jwks_url : string;
  au_issuer : string;
  au_audience : string;
  au_tenant_claim : string;
  au_jwks_cache_secs : Z;
}.

(** The checks of [Config::validate] on tenants and their credentials. *)
Definition validate_tenants (tenant : TenantConfig) (auth : AuthConfig) : result string unit :=
  _ ← (if bool_decide (tc_mode tenant = MultiTenant) && str_contains (tc_database_prefix tenant) ".."
       then Err "tenant.database_prefix must not contain '..'" else Ok ());
  _ ← (if bool_decide (tc_mode tenant = MultiTenant) then
         if au_allow_unauthenticated auth then Err "multi-tenant mode disallows unauthenticated access" else
         match au_mode auth with
         | Bearer => if bool_decide (au_tenant_tokens auth = ∅) then Err "multi-tenant bearer mode requires authenticated tenant_tokens" else Ok ()
         | TenantJwt =>
             if bool_decide (au_jwks_url auth = "") || bool_decide (au_issuer auth = "") || bool_decide (au_audience auth = "")
             then Err "tenant-jwt mode requires auth.jwks_url, auth.issuer, and auth.audience" else Ok ()
         end
       else Ok ());
  if bool_decide (au_mode auth = Bearer)
     && existsb (fun tt => bool_decide (tt.1 = "") || (zlen (str_bytes tt.2) <? 16)) (map_to_list (au_tenant_tokens auth))
  then Err "auth.tenant_tokens require non-empty tenant IDs and tokens of at least 16 characters" else Ok ().

(** ** Tenants *)

Section tenants.
Context `{UnicodeTables}.

Definition tenant_char (c : Z) : bool := is_alphanumeric c || (c =? 45) || (c =? 95).

Definition validate_tenant_id (tenant_id : string) : app_result string :=
  if bool_decide (tenant_id = "") || str_contains tenant_id ".." || str_contains tenant_id "/"
  then Err (Unauthorized "Invalid tenant identity")
  else if negb (forallb tenant_char (chars (str_bytes tenant_id))) then Err (Unauthorized "Invalid tenant identity")
  else Ok tenant_id.

Definition extract_tenant_id (headers : HeaderMap) (config : TenantConfig) : app_result (option string) :=
  if bool_decide (tc_mode config = MultiTenant) then
    match trim <$> header_str headers (tc_header config) with
    | Some tid =>
        if bool_decide (tid = "") then Err (BadRequest "X-Tenant-Id header is empty")
        else tid ← validate_tenant_id tid; Ok (Some tid)
    | None => Err (BadRequest "X-Tenant-Id header is required in multi-tenant mode")
    end
  else Ok None.
End tenants.

(** ** Bearer tokens *)

Definition xor_bytes (a b : bytes) : Z := foldl (fun acc xy => Z.lor acc (Z.lxor xy.1 xy.2)) 0 (zip a b).
Definition constant_time_eq (a b : string) : bool :=
  if negb (zlen (str_bytes a) =? zlen (str_bytes b)) then false else xor_bytes (str_bytes a) (str_bytes b) =? 0.

Definition PUBLIC_PATH_PREFIXES : list string := ["/healthz"; "/ready"; "/metrics"].
Definition skip_auth_for_path (path : string) : bool := existsb (fun p => String.prefix p path) PUBLIC_PATH_PREFIXES.

(** ** Signing keys *)

Record JsonWebKey := mkJwk { jwk_kid : string; jwk_kty : string; jwk_n : option string; jwk_e : option string }.

(** The answer of the key server. *)
Inductive JwksResponse := JwksFailed | JwksInvalid | JwksKeys (keys : list JsonWebKey).

(** [jsonwebtoken]: the header of a token (whether its algorithm is RS256, and its key id), keys
    from RSA components, and the verified claims of a token under a key, issuer and audience. *)
Class JsonWebTokens `{SerdeJson} := {
  DecodingKey : Type;
  from_rsa_components : string -> string -> option DecodingKey;
  decode_header : string -> option (bool * option string);
  decode_claims : string -> DecodingKey -> string -> string -> option (Value number);
}.

Section auth.
Context `{SerdeJson} `{!JsonWebTokens} `{UnicodeTables}.
(** The answers of the key server, in order, and the clock in nanoseconds. *)
Context (key_server : nat -> JwksResponse).

Record KeyCache := mkKeyCache { kc_fetched_at : option Z; kc_keys : gmap string DecodingKey; kc_fetches : nat }.
Definition empty_key_cache : KeyCache := mkKeyCache None ∅ 0.

Record AuthVerifier := mkVerifier {
  av_issuer : string;
  av_audience : string;
  av_tenant_claim : string;
  av_cache_ttl : Z;
}.
Definition new_verifier (config : AuthConfig) : result string AuthVerifier :=
  if bool_decide (au_mode config = TenantJwt) then
    if bool_decide (au_jwks_url config = "") || bool_decide (au_issuer config = "") || bool_decide (au_audience config = "")
    then Err "tenant-jwt auth requires JWKS URL, issuer, and audience"
    else Ok (mkVerifier (au_issuer config) (au_audience config) (au_tenant_claim config) (Z.max (au_jwks_cache_secs config) 1 * 1000000000))
  else Err "JWT verifier requires tenant-jwt auth mode".

(** The RSA keys of an answer. *)
Fixpoint collect_keys (keys : gmap string DecodingKey) (jwks : list JsonWebKey) : app_result (gmap string DecodingKey) :=
  match jwks with
  | [] => Ok keys
  | jwk :: jwks =>
      if negb (bool_decide (jwk_kty jwk = "RSA")) then collect_keys keys jwks else
      match jwk_n jwk, jwk_e jwk with
      | Some n, Some e =>
          key ← ok_or (from_rsa_components n e) (Unauthorized "Invalid runtime signing key");
          collect_keys (<[jwk_kid jwk := key]> keys) jwks
      | _, _ => collect_keys keys jwks
      end
  end.

Definition fetch_keys (now : Z) (c : KeyCache) : app_result unit * KeyCache :=
  let response := key_server (kc_fetches c) in
  let c := mkKeyCache (kc_fetched_at c) (kc_keys c) (S (kc_fetches c)) in
  match response with
  | JwksFailed => (Err (Unauthorized "Unable to load runtime signing keys"), c)
  | JwksInvalid => (Err (Unauthorized "Invalid runtime signing-key response"), c)
  | JwksKeys jwks =>
      match collect_keys ∅ jwks with
      | Err err => (Err err, c)
      | Ok keys =>
          if bool_decide (keys = ∅) then (Err (Unauthorized "Runtime signing keys are unavailable"), c)
          else (Ok (), mkKeyCache (Some now) keys (kc_fetches c))
      end
  end.

Definition fresh (v : AuthVerifier) (now : Z) (c : KeyCache) : bool :=
  match kc_fetched_at c with Some fetched => now - fetched <? av_cache_ttl v | None => false end.

Definition key_for (v : AuthVerifier) (now : Z) (kid : string) (c : KeyCache) : app_result DecodingKey * KeyCache :=
  let '(refreshed, c) :=
    if fresh v now c || bool_decide (is_Some (kc_keys c !! kid)) then (Ok (), c) else fetch_keys now c in
  match refreshed with
  | Err err => (Err err, c)
  | Ok _ =>
      match kc_keys c !! kid with
      | Some key => (Ok key, c)
      | None =>
          match fetch_keys now c with
          | (Err err, c) => (Err err, c)
          | (Ok _, c) => (ok_or (kc_keys c !! kid) (Unauthorized "Unknown runtime signing key"), c)
          end
      end
  end.

Definition token_tenant_id (v : AuthVerifier) (now : Z) (token : string) (c : KeyCache) : app_result string * KeyCache :=
  match decode_header token with
  | None => (Err (Unauthorized "Invalid runtime token"), c)
  | Some (rs256, kid) =>
      if negb rs256 then (Err (Unauthorized "Unsupported runtime token algorithm"), c) else
      match kid with
      | None => (Err (Unauthorized "Runtime token has no key ID"), c)
      | Some kid =>
          match key_for v now kid c with
          | (Err err, c) => (Err err, c)
          | (Ok key, c) =>
              (claims ← ok_or (decode_claims token key (av_issuer v) (av_audience v)) (Unauthorized "Invalid runtime token");
               tenant_id ← ok_or (match value_get claims (av_tenant_claim v) with Some (JString s) => Some s | _ => None end)
                                 (Unauthorized "Runtime token has no tenant identity");
               validate_tenant_id tenant_id, c)
          end
      end
  end.

(** ** The middleware *)

Record AppState := mkState {
  ap_tenant_config : TenantConfig;
  ap_auth_token : string;
  ap_tenant_tokens : gmap string string;
  ap_auth_verifier : option AuthVerifier;
  ap_allow_unauthenticated : bool;
}.

Record Request := mkRequest { rq_options_method : bool; rq_path : string; rq_headers : HeaderMap }.

(** [Authorization: Bearer token]. *)
Definition provided_token (headers : HeaderMap) : option string :=
  value ← header_str headers "authorization"; bytes_str <$> strip_prefix (str_bytes "Bearer ") (str_bytes value).

(** [HeaderValue::from_str]. *)
Definition header_value (s : string) : option bytes := if forallb visible_ascii (str_bytes s) then Some (str_bytes s) else None.

(** A [HeaderName] is a token of RFC 9110. *)
Definition header_name_char (b : Z) : bool :=
  ((48 <=? b) && (b <=? 57)) || ((65 <=? b) && (b <=? 90)) || ((97 <=? b) && (b <=? 122))
  || existsb (fun c => b =? c) [33; 35; 36; 37; 38; 39; 42; 43; 45; 46; 94; 95; 96; 124; 126].
Definition valid_header_name (name : string) : bool := negb (bool_decide (name = "")) && forallb header_name_char (str_bytes name).

Definition jwt_middleware (state : AppState) (v : AuthVerifier) (now : Z) (req : Request) (c : KeyCache) : app_result Request * KeyCache :=
  match provided_token (rq_headers req) with
  | None => (Err (Unauthorized "Missing or invalid Bearer token"), c)
  | Some token =>
      match token_tenant_id v now token c with
      | (Err err, c) => (Err err, c)
      | (Ok tenant_id, c) =>
          if match header_str (rq_headers req) (tc_header (ap_tenant_config state)) with
             | Some header_tenant => negb (bool_decide (trim header_tenant = tenant_id))
             | None => false
             end
          then (Err (Unauthorized "Tenant identity does not match token"), c)
          else if negb (valid_header_name (tc_header (ap_tenant_config state)))
          then (Err (Unauthorized "Invalid tenant header configuration"), c)
          else match header_value tenant_id with
               | None => (Err (Unauthorized "Invalid tenant identity"), c)
               | Some value =>
                   (Ok (mkRequest (rq_options_method req) (rq_path req)
                          (<[header_name (tc_header (ap_tenant_config state)) := value]> (rq_headers req))), c)
               end
      end
  end.

Definition expected_token (state : AppState) (req : Request) : app_result string :=
  if bool_decide (tc_mode (ap_tenant_config state) = MultiTenant) then
    tenant_id ← extract_tenant_id (rq_headers req) (ap_tenant_config state);
    tenant_id ← ok_or tenant_id (Unauthorized "Tenant identity is required");
    ok_or (ap_tenant_tokens state !! tenant_id) (Unauthorized "Tenant is not authorized")
  else Ok (ap_auth_token state).

Definition bearer_middleware (state : AppState) (req : Request) : app_result Request :=
  expected ← expected_token state req;
  if match provided_token (rq_headers req) with Some p => constant_time_eq p expected | None => false end
     || ap_allow_unauthenticated state
  then Ok req else Err (Unauthorized "Missing or invalid Bearer token").

(** The request as the next handler sees it. *)
Definition auth_middleware (state : AppState) (now : Z) (req : Request) (c : KeyCache) : app_result Request * KeyCache :=
  let multi := bool_decide (tc_mode (ap_tenant_config state) = MultiTenant) in
  if (bool_decide (ap_auth_token state = "") && negb multi) || rq_options_method req || skip_auth_for_path (rq_path req)
  then (Ok req, c) else
  match (if multi then ap_auth_verifier state else None) with
  | Some v => jwt_middleware state v now req c
  | None => (bearer_middleware state req, c)
  end.

(** The database that a handler works on. *)
Definition request_database (state : AppState) (req : Request) : app_result string :=
  tenant_id ← extract_tenant_id (rq_headers req) (ap_tenant_config state);
  Ok (resolve_db_path (ap_tenant_config state) tenant_id).
End auth.

(** ** Tokens and tenant names *)

Lemma xor_bytes_eq : forall a b, length a = length b -> xor_bytes a b = 0 <-> a = b.
Proof.
  unfold xor_bytes. intros a b Hl.
  assert (Hacc : forall l acc, foldl (fun acc (xy : Z * Z) => Z.lor acc (Z.lxor xy.1 xy.2)) acc l = 0 <-> acc = 0 /\ Forall (fun xy => xy.1 = xy.2) l).
  { induction l as [|[x y] l IH]; intros acc; cbn [foldl fst snd]; [split; [by split|by intros []]|]. rewrite IH, Z.lor_eq_0_iff, Z.lxor_eq_0_iff, Forall_cons. cbn. tauto. }
  rewrite Hacc. revert b Hl. induction a as [|x a IH]; intros [|y b] Hl; try done. cbn [zip_with]. rewrite Forall_cons. cbn [fst snd]. specialize (IH b ltac:(cbn in Hl; lia)).
  split; [intros (_&->&Hf); f_equal; by apply IH|]. intros [= -> ->]. split; [done|]. split; [done|]. by apply IH.
Qed.

Lemma constant_time_eq_spec a b : constant_time_eq a b = true <-> a = b.
Proof.
  unfold constant_time_eq. destruct (Z.eqb_spec (zlen (str_bytes a)) (zlen (str_bytes b))) as [Hl|Hl]; cbn [negb].
  - rewrite Z.eqb_eq, xor_bytes_eq by lia. split; [apply str_bytes_inj|by intros ->].
  - split; [done|]. intros ->. done.
Qed.

Lemma chars_ascii b : Forall (fun x => x < 128) b -> chars b = b.
Proof. induction 1 as [|x b Hx _ IH]; [done|]. cbn [chars]. rewrite (proj2 (Z.ltb_lt x 128)) by done. by rewrite IH. Qed.

(** The ASCII bytes of UTF-8 text are characters of it. *)
Lemma ascii_in_chars fuel : forall b x, utf8_valid_fuel fuel b = true -> x ∈ b -> x < 128 -> x ∈ chars b.
Proof.
  induction fuel as [|fuel IH]; intros [|a b] x Hv Hx Hlt; try (by apply elem_of_nil in Hx); [done|]. cbn [utf8_valid_fuel] in Hv.
  destruct (utf8_chunk (a :: b)) as [valid n] eqn:Hc. apply andb_true_iff in Hv as [-> Hv]. unfold utf8_chunk in Hc. cbn [chars].
  destruct (Z.ltb_spec a 128) as [Ha|Ha].
  { injection Hc as <-. cbn [drop] in Hv. apply elem_of_cons in Hx as [->|Hx]; [by left|]. right. by apply IH. }
  destruct (utf8_lead a) as [[[lo hi] k]|] eqn:Hl; [|done]. destruct b as [|y b]; [done|]. destruct ((lo <=? y) && (y <=? hi)) eqn:Hy; [|done].
  injection Hc as Hk <-. apply Nat.eqb_eq in Hk. rewrite Hk in Hv. apply elem_of_cons in Hx as [->|Hx]; [lia|].
  assert (Hlead : 128 <= lo /\ (k = 1%nat /\ a < 224 \/ k = 2%nat /\ 224 <= a < 240 \/ k = 3%nat /\ 240 <= a)).
  { unfold utf8_lead in Hl. repeat match type of Hl with (if ?c then _ else _) = _ => destruct c eqn:? end; try done; injection Hl as <- <- <-; lia. }
  destruct Hlead as [Hlo Hlead]. apply elem_of_cons in Hx as [->|Hx]; [lia|]. destruct Hlead as [[-> Har]|[[-> Har]|[-> Har]]]; cbn [Nat.sub cont_run Nat.add drop] in *.
  - rewrite (proj2 (Z.ltb_lt a 224)) by done. right. by apply IH.
  - rewrite (proj2 (Z.ltb_ge a 224)) by lia. destruct b as [|z b]; [done|]. destruct (is_cont z) eqn:Hz; [|done]. rewrite (proj2 (Z.ltb_lt a 240)) by lia.
    unfold is_cont in Hz. apply elem_of_cons in Hx as [->|Hx]; [lia|]. right. by apply IH.
  - rewrite (proj2 (Z.ltb_ge a 224)) by lia. destruct b as [|z b]; [done|]. destruct (is_cont z) eqn:Hz; [|done]. rewrite (proj2 (Z.ltb_ge a 240)) by lia.
    destruct b as [|w b]; [done|]. destruct (is_cont w) eqn:Hw; [|done]. unfold is_cont in Hz, Hw. apply elem_of_cons in Hx as [->|Hx]; [lia|].
    apply elem_of_cons in Hx as [->|Hx]; [lia|]. right. by apply IH.
Qed.

Section tenant_names.
Context `{UnicodeTables}.

(** Bytes of a path component that no file system interprets. *)
Definition plain_name_byte (b : Z) : Prop :=
  128 <= b \/ 48 <= b <= 57 \/ 65 <= b <= 90 \/ 97 <= b <= 122 \/ b = 45 \/ b = 95.

Lemma tenant_char_ascii c : 0 <= c < 128 -> tenant_char c = true -> plain_name_byte c.
Proof. intros Hc. unfold tenant_char. rewrite is_alphanumeric_ascii by done. unfold plain_name_byte. intros Ht. lia. Qed.

Lemma validate_tenant_inv t t' : validate_tenant_id t = Ok t' -> t' = t /\ t <> "" /\ forallb tenant_char (chars (str_bytes t)) = true.
Proof.
  unfold validate_tenant_id. destruct (bool_decide (t = "")) eqn:Hne; [done|]. destruct (_ || _); [done|]. destruct (forallb _ _) eqn:Hall; [|done].
  intros [= <-]. apply bool_decide_eq_false in Hne. done.
Qed.

(** An accepted tenant name is one component of a path. *)
Lemma tenant_component t t' : is_str t -> validate_tenant_id t = Ok t' -> t' = t /\ t <> "" /\ Forall plain_name_byte (str_bytes t).
Proof.
  intros [Hv _] (->&Hne&Hall)%validate_tenant_inv. split_and!; [done..|]. apply Forall_forall. intros b Hb.
  pose proof (str_bytes_ok t) as Hok. unfold bytes_ok in Hok. rewrite Forall_forall in Hok. specialize (Hok b Hb).
  destruct (Z_lt_le_dec b 128) as [Hlt|]; [|by left]. apply tenant_char_ascii; [lia|]. rewrite forallb_forall in Hall. apply Hall, list_elem_of_In.
  by apply (ascii_in_chars (length (str_bytes t))).
Qed.

Lemma trim_front_plain b : Forall (fun x => blank x = false) b -> trim_front b = b.
Proof. destruct 1 as [|x b Hx _]; cbn; [done|by rewrite Hx]. Qed.

(** The header written for a tenant is read back as the tenant. *)
Lemma tenant_header_back t value : validate_tenant_id t = Ok t -> header_value t = Some value ->
  forallb visible_ascii value = true /\ trim (bytes_str value) = t.
Proof.
  intros (_&_&Hall)%validate_tenant_inv. unfold header_value. destruct (forallb visible_ascii (str_bytes t)) eqn:Hvis; [|done]. intros [= <-].
  split; [done|]. rewrite bytes_str_bytes. unfold trim. rewrite forallb_forall in Hvis.
  assert (Hascii : Forall (fun x => x < 128) (str_bytes t)).
  { apply Forall_forall. intros b Hb%list_elem_of_In. specialize (Hvis b Hb). unfold visible_ascii in Hvis. lia. }
  rewrite (chars_ascii _ Hascii), forallb_forall in Hall.
  assert (Hplain : Forall (fun x => blank x = false) (str_bytes t)).
  { pose proof (str_bytes_ok t) as Hok. unfold bytes_ok in Hok. rewrite Forall_forall in Hok, Hascii. apply Forall_forall. intros b Hb. specialize (Hok b Hb). specialize (Hascii b Hb).
    pose proof (tenant_char_ascii b ltac:(lia) ltac:(by apply Hall, list_elem_of_In)) as Hp. unfold plain_name_byte in Hp. unfold blank. lia. }
  rewrite (trim_front_plain (str_bytes t)) by done. rewrite trim_front_plain by (by apply Forall_rev). by rewrite rev_involutive, bytes_str_bytes.
Qed.
End tenant_names.

(** ** Isolation of tenants *)

Section isolation.
Context `{SerdeJson} `{!JsonWebTokens} `{UnicodeTables} (key_server : nat -> JwksResponse).
Implicit Types (state : AppState) (req : Request) (c : KeyCache).

Lemma key_for_cached v now kid c key c' : key_for key_server v now kid c = (Ok key, c') -> kc_keys c' !! kid = Some key.
Proof.
  unfold key_for. destruct (if _ || _ then _ else _) as [[[]|err] c1]; [|done]. destruct (kc_keys c1 !! kid) as [k|] eqn:Hk; [by intros [= <- <-]|].
  destruct (fetch_keys key_server now c1) as [[[]|err] c2]; [|done]. destruct (kc_keys c2 !! kid) as [k|] eqn:Hk2; [|done]. cbn. by intros [= <- <-].
Qed.

(** A bearer token that a signing key of the cache vouches for. *)
Definition signed_for (v : AuthVerifier) (keys : gmap string DecodingKey) (headers : HeaderMap) (tenant : string) : Prop :=
  exists token kid key claims, provided_token headers = Some token /\ decode_header token = Some (true, Some kid) /\ keys !! kid = Some key /\
    decode_claims token key (av_issuer v) (av_audience v) = Some claims /\ value_get claims (av_tenant_claim v) = Some (JString tenant).

(** The credential of a tenant. *)
Definition credential_for state (keys : gmap string DecodingKey) (headers : HeaderMap) (tenant : string) : Prop :=
  match ap_auth_verifier state with
  | Some v => signed_for v keys headers tenant
  | None => exists token, ap_tenant_tokens state !! tenant = Some token /\ provided_token headers = Some token
  end.

Lemma token_tenant_signed v now token c tenant c' headers :
  provided_token headers = Some token -> token_tenant_id key_server v now token c = (Ok tenant, c') ->
  signed_for v (kc_keys c') headers tenant /\ validate_tenant_id tenant = Ok tenant.
Proof.
  intros Hp. unfold token_tenant_id. destruct (decode_header token) as [[[] [kid|]]|] eqn:Hh; try done. cbn [negb].
  destruct (key_for key_server v now kid c) as [[key|err] c1] eqn:Hkey; [|done].
  destruct (decode_claims token key (av_issuer v) (av_audience v)) as [claims|] eqn:Hcl; cbn [ok_or]; [|done]. rewrite bind_Ok.
  destruct (value_get claims (av_tenant_claim v)) as [[| | |t| |]|] eqn:Hv; cbn [ok_or]; try done. rewrite bind_Ok. intros [= Hval <-].
  pose proof (validate_tenant_inv _ _ Hval) as (->&_&_). split; [|done]. exists token, kid, key, claims. split_and!; try done. by eapply key_for_cached.
Qed.

Lemma jwt_forwards state v now req c req' c' :
  tc_mode (ap_tenant_config state) = MultiTenant -> jwt_middleware key_server state v now req c = (Ok req', c') ->
  exists tenant, signed_for v (kc_keys c') (rq_headers req) tenant /\ validate_tenant_id tenant = Ok tenant /\
    extract_tenant_id (rq_headers req') (ap_tenant_config state) = Ok (Some tenant).
Proof.
  intros Hmode. unfold jwt_middleware. destruct (provided_token (rq_headers req)) as [token|] eqn:Hp; [|done].
  destruct (token_tenant_id key_server v now token c) as [[tenant|err] c1] eqn:Ht; [|done].
  destruct (match header_str _ _ with Some _ => _ | None => _ end); [done|]. destruct (negb _); [done|].
  destruct (header_value tenant) as [value|] eqn:Hv; [|done]. intros [= <- <-]. destruct (token_tenant_signed _ _ _ _ _ _ _ Hp Ht) as [Hs Hval].
  exists tenant. split_and!; try done. destruct (tenant_header_back _ _ Hval Hv) as [Hvis Htrim]. unfold extract_tenant_id. rewrite bool_decide_true by done.
  unfold header_str. cbn [rq_headers]. rewrite lookup_insert_eq. cbn [mbind option_bind]. rewrite Hvis. cbn [fmap option_fmap option_map]. rewrite Htrim.
  destruct (validate_tenant_inv _ _ Hval) as (_&Hne&_). rewrite bool_decide_false by done. by rewrite Hval, bind_Ok.
Qed.

Lemma bearer_forwards state req req' :
  tc_mode (ap_tenant_config state) = MultiTenant -> ap_allow_unauthenticated state = false -> bearer_middleware state req = Ok req' ->
  req' = req /\ exists tenant token, ap_tenant_tokens state !! tenant = Some token /\ provided_token (rq_headers req) = Some token /\
    extract_tenant_id (rq_headers req) (ap_tenant_config state) = Ok (Some tenant).
Proof.
  intros Hmode Hallow. unfold bearer_middleware, expected_token. rewrite bool_decide_true by done.
  destruct (extract_tenant_id (rq_headers req) (ap_tenant_config state)) as [[tenant|]|] eqn:Hx; try done. rewrite bind_Ok. cbn [ok_or]. rewrite bind_Ok.
  destruct (ap_tenant_tokens state !! tenant) as [token|] eqn:Htok; [|done]. cbn [ok_or]. rewrite bind_Ok, Hallow, orb_false_r.
  destruct (provided_token (rq_headers req)) as [p|] eqn:Hp; [|done]. destruct (constant_time_eq p token) eqn:Heq; [|done]. apply constant_time_eq_spec in Heq as ->.
  intros [= <-]. eauto 8.
Qed.


(** A signing key that is in the cache is accepted at any later time: once the time to live
    has passed the key server is asked only for key ids that are not cached, so a key that
    the server has withdrawn keeps verifying tokens until some other key id is looked up. *)
Theorem cached_key_never_expires v now kid key c : kc_keys c !! kid = Some key -> key_for key_server v now kid c = (Ok key, c).
Proof. intros Hk. unfold key_for. rewrite Hk, (bool_decide_true (is_Some (Some key))) by eauto. by rewrite orb_true_r, Hk. Qed.
End isolation.

(** ** Samples *)

Definition claim_json : SerdeJson := {|
  number := Z; as_f64 := fun _ => None; from_str := fun s => Some (JString s); display_value := fun _ => "";
|}.

(** A key is its number, a token the tenant it was issued for. *)
Definition sample_tokens : @JsonWebTokens claim_json := {|
  DecodingKey := string;
  from_rsa_components := fun n _ => Some n;
  decode_header := fun _ => Some (true, Some "k");
  decode_claims := fun token key issuer audience =>
    if bool_decide (key = "n" /\ issuer = "i" /\ audience = "a") then Some (JObject [("tenant_id", JString token)]) else None;
|}.
#[local] Existing Instance ascii_tables.
#[local] Existing Instance claim_json.
#[local] Existing Instance sample_tokens.

Definition sample_key_server : nat -> JwksResponse := fun _ => JwksKeys [mkJwk "k" "RSA" (Some "n") (Some "e")].
Definition sample_auth : AuthConfig := mkAuth TenantJwt false ∅ "https://keys" "i" "a" "tenant_id" 300.
Definition sample_state : AppState :=
  mkState (mkTenant MultiTenant "X-Tenant-Id" "/data/") "" ∅ (Some (mkVerifier "i" "a" "tenant_id" 300000000000)) false.
Definition sample_request : Request := mkRequest false "/v1/objects" {["authorization" := str_bytes "Bearer acme"]}.


(** A key server that has withdrawn its only key; the clock is far beyond the time to live. *)
Definition sample_key : DecodingKey := "n"%string.
Definition stale_cache : KeyCache := mkKeyCache (Some 0) {["k" := sample_key]} 1.

Lemma cached_key_never_expires_witness :
  key_for (fun _ => JwksKeys []) (mkVerifier "i" "a" "tenant_id" 300000000000) 1000000000000000000 "k" stale_cache = (Ok sample_key, stale_cache).
Proof. apply (cached_key_never_expires (fun _ => JwksKeys [])). vm_compute. reflexivity. Defined.
