(* ===== verification/ServerLimit.v ===== *)
(** * thingd-server: the rate limiter and encryption keys

    Models [RateLimiter] of [rate_limit.rs] (a bucket of tokens per client key, refilled by
    elapsed time in 64-bit floating point) and [parse_hex_key] of [engine.rs].  Times are
    nanoseconds of a monotonic clock. *)

From Stdlib Require Import SpecFloat.
From S2P Require Import Prelude Wal Table Layer Database Keyspace RamScan Model Objects Links Storage RustStd.

(** ** 64-bit floating point *)

(** [x.floor() as u64], which saturates. *)
Definition f64_floor_u64 (x : spec_float) : Z :=
  match x with
  | S754_zero _ | S754_nan => 0
  | S754_infinity s => if s then 0 else U64_MAX
  | S754_finite s m e =>
      if s then 0 else Z.min U64_MAX (if 0 <=? e then Zpos m * 2 ^ e else Zpos m / 2 ^ (- e))
  end.

(** [Duration::as_secs_f64]. *)
Definition as_secs_f64 (nanos : Z) : spec_float :=
  f64_add (f64_of_u64 (nanos / 1000000000)) (f64_div (f64_of_u64 (nanos mod 1000000000)) (f64_of_u64 1000000000)).

(** ** The limiter *)

Record Bucket := mkBucket { bk_tokens : Z; bk_last_refill : Z }.
Record RateLimiter := mkLimiter { rl_max_tokens : Z; rl_refill_interval : Z; rl_buckets : gmap string Bucket }.

Definition new_limiter (rpm : Z) : RateLimiter := mkLimiter rpm (60 * 1000000000) ∅.

Definition tokens_to_add (l : RateLimiter) (elapsed : Z) : spec_float :=
  f64_mul (f64_div (as_secs_f64 elapsed) (as_secs_f64 (rl_refill_interval l))) (f64_of_u64 (rl_max_tokens l)).

(** Buckets that are kept when the map has grown large. *)
Definition prune (now : Z) (buckets : gmap string Bucket) : gmap string Bucket :=
  if 10000 <? Z.of_nat (size buckets) then base.filter (fun kb => now - 120 * 1000000000 < bk_last_refill kb.2) buckets else buckets.

Definition refill (l : RateLimiter) (now : Z) (b : Bucket) : Bucket :=
  let add := tokens_to_add l (Z.max 0 (now - bk_last_refill b)) in
  if f64_ge add (f64_of_u64 1)
  then mkBucket (Z.min (u64_wrapping_add (bk_tokens b) (f64_floor_u64 add)) (rl_max_tokens l)) now else b.

Definition check (l : RateLimiter) (now : Z) (key : string) : bool * RateLimiter :=
  let buckets := prune now (rl_buckets l) in
  let b := refill l now (default (mkBucket (rl_max_tokens l) now) (buckets !! key)) in
  let put b := mkLimiter (rl_max_tokens l) (rl_refill_interval l) (<[key := b]> buckets) in
  if 0 <? bk_tokens b then (true, put (mkBucket (bk_tokens b - 1) (bk_last_refill b))) else (false, put b).

(** [SocketAddr] with its address as it is displayed. *)
Record SocketAddr := mkAddr { sa_ip : string; sa_port : Z }.
Definition client_key (connection : option SocketAddr) : string :=
  match connection with Some a => sa_ip a +:+ ":" +:+ format_pad 1 (sa_port a) | None => "default" end.

Fixpoint checks (l : RateLimiter) (now : Z) (keys : list string) : list bool * RateLimiter :=
  match keys with
  | [] => ([], l)
  | k :: keys => let '(r, l) := check l now k in let '(rs, l) := checks l now keys in (r :: rs, l)
  end.

(** ** Encryption keys *)

(** [u8::from_str_radix(pair, 16)]: a plus sign is accepted before digits. *)
Definition hex_digit (b : Z) : option Z :=
  if (48 <=? b) && (b <=? 57) then Some (b - 48) else if (65 <=? b) && (b <=? 70) then Some (b - 55)
  else if (97 <=? b) && (b <=? 102) then Some (b - 87) else None.
Definition hex_pair (a b : Z) : option Z :=
  if a =? 43 then hex_digit b else x ← hex_digit a; y ← hex_digit b; Some (x * 16 + y).

(** A slice that starts or ends inside a character panics ([None]); a continuation byte marks one. *)
Fixpoint hex_bytes (b : bytes) : option (result string bytes) :=
  match b with
  | [] => Some (Ok [])
  | x :: y :: rest =>
      if is_cont x || match rest with z :: _ => is_cont z | [] => false end then None else
      match hex_pair x y with
      | None => Some (Err "encryption key must contain hexadecimal characters")
      | Some v => r ← hex_bytes rest; Some (vs ← r; Ok (v :: vs))
      end
  | [_] => None
  end.
Definition parse_hex_key (value : string) : option (result string bytes) :=
  if negb (zlen (str_bytes value) =? 64) then Some (Err "encryption key must contain 64 hexadecimal characters")
  else hex_bytes (str_bytes value).

(** ** Bursts *)

(** No token is added when no time has passed. *)
Lemma no_time_no_tokens l : rl_refill_interval l = 60 * 1000000000 -> f64_ge (tokens_to_add l 0) (f64_of_u64 1) = false.
Proof.
  intros Hi. unfold tokens_to_add. rewrite Hi. replace (f64_div (as_secs_f64 0) (as_secs_f64 (60 * 1000000000))) with (S754_zero false) by (vm_compute; reflexivity).
  destruct (f64_of_u64 (rl_max_tokens l)); by vm_compute.
Qed.

Lemma refill_now l now b : rl_refill_interval l = 60 * 1000000000 -> bk_last_refill b = now -> refill l now b = b.
Proof. intros Hi Hb. unfold refill. rewrite Hb, Z.sub_diag. cbn [Z.max Z.compare]. by rewrite no_time_no_tokens. Qed.

Lemma prune_now now buckets k b : buckets !! k = Some b -> bk_last_refill b = now -> prune now buckets !! k = Some b.
Proof. intros Hk Hb. unfold prune. destruct (_ <? _); [|done]. apply map_lookup_filter_Some. split; [done|]. cbn. lia. Qed.

Lemma prune_None now buckets k : buckets !! k = None -> prune now buckets !! k = None.
Proof. intros Hk. unfold prune. destruct (_ <? _); [|done]. apply map_lookup_filter_None. by left. Qed.

(** The tokens that a key has at an instant at which it was last refilled or is new. *)
Definition tokens_now (l : RateLimiter) (now : Z) (key : string) (n : Z) : Prop :=
  rl_buckets l !! key = Some (mkBucket n now) \/ rl_buckets l !! key = None /\ n = rl_max_tokens l.

Lemma check_now l now key n : rl_refill_interval l = 60 * 1000000000 -> tokens_now l now key n ->
  exists l', check l now key = (0 <? n, l') /\ rl_refill_interval l' = rl_refill_interval l /\ rl_max_tokens l' = rl_max_tokens l /\
    tokens_now l' now key (if 0 <? n then n - 1 else n) /\
    (forall k' n', k' <> key -> tokens_now l now k' n' -> tokens_now l' now k' n').
Proof.
  intros Hi Hn. unfold check. assert (Hb : default (mkBucket (rl_max_tokens l) now) (prune now (rl_buckets l) !! key) = mkBucket n now).
  { destruct Hn as [Hk|[Hk ->]]; [by rewrite (prune_now now _ _ _ Hk)|by rewrite prune_None]. }
  rewrite Hb, refill_now by done. cbn [bk_tokens bk_last_refill].
  assert (Hother : forall b k' n', k' <> key -> tokens_now l now k' n' -> tokens_now (mkLimiter (rl_max_tokens l) (rl_refill_interval l) (<[key := b]> (prune now (rl_buckets l)))) now k' n').
  { intros b k' n' Hne [Hk|[Hk ->]]; [left|right]; cbn; rewrite lookup_insert_ne by done; [by rewrite (prune_now now _ _ _ Hk)|by rewrite prune_None]. }
  destruct (0 <? n); eexists; (split; [reflexivity|]); split_and!; try done; try (left; apply lookup_insert_eq); auto.
Qed.

(** However many requests of one client key arrive at an instant, exactly as many pass as the
    bucket has tokens (the whole allowance for a new key), and the rest are refused. *)
Theorem burst_limited l now key n count :
  rl_refill_interval l = 60 * 1000000000 -> tokens_now l now key n -> 0 <= n ->
  (checks l now (replicate count key)).1 = replicate (Nat.min count (Z.to_nat n)) true ++ replicate (count - Z.to_nat n) false.
Proof.
  revert l n. induction count as [|count IH]; intros l n Hi Hn Hpos; [done|]. cbn [replicate checks].
  destruct (check_now l now key n Hi Hn) as (l'&Hrun&Hi'&_&Hn'&_). rewrite Hrun. specialize (IH l' (if 0 <? n then n - 1 else n) ltac:(congruence) Hn').
  destruct (checks l' now (replicate count key)) as [rs l2]. cbn [fst] in *. destruct (Z.ltb_spec 0 n).
  - rewrite IH by lia. destruct (Z.to_nat n) as [|m] eqn:Hm; [lia|]. replace (Z.to_nat (n - 1)) with m by lia. done.
  - rewrite IH by lia. replace (Z.to_nat n) with 0%nat by lia. cbn. by rewrite Nat.min_0_r, Nat.sub_0_r.
Qed.

(** C35. The limit is kept per connection, not per address: the key of a client includes its port,
    so any number of requests from one address pass at one instant when each uses a new port. *)
Theorem ports_evade_limit rpm now ip ports :
  0 < rpm -> NoDup ports -> Forall (fun p => 0 <= p <= 65535) ports ->
  (checks (new_limiter rpm) now ((fun p => client_key (Some (mkAddr ip p))) <$> ports)).1 = replicate (length ports) true.
Proof.
  intros Hrpm Hnd Hports. assert (Hstart : forall p, p ∈ ports -> tokens_now (new_limiter rpm) now (client_key (Some (mkAddr ip p))) rpm) by (intros p _; by right).
  assert (Hi : rl_refill_interval (new_limiter rpm) = 60 * 1000000000) by done. revert Hstart Hi. generalize (new_limiter rpm) as l.
  induction ports as [|p ports IH]; intros l Hstart Hi; [done|]. apply NoDup_cons in Hnd as [Hp Hnd]. apply Forall_cons in Hports as [Hrange Hports].
  rewrite fmap_cons. cbn [checks length]. destruct (check_now l now (client_key (Some (mkAddr ip p))) rpm Hi (Hstart p ltac:(by left))) as (l'&Hrun&Hi'&_&_&Hother).
  rewrite Hrun. assert (Hpos : (0 <? rpm) = true) by (by apply Z.ltb_lt). rewrite Hpos.
  destruct (checks l' now _) as [rs l2] eqn:Hrest. cbn [fst]. specialize (IH Hnd Hports l').
  rewrite Hrest in IH. cbn [fst] in IH. rewrite IH; [done| |congruence]. intros q Hq. apply Hother; [|apply Hstart; by right].
  unfold client_key. cbn [sa_ip sa_port]. intros Heq%(inj (String.append ip))%(inj (String.append ":")). apply Hp. rewrite Forall_forall in Hports. specialize (Hports q Hq).
  apply (f_equal parse_u64) in Heq. rewrite !parse_format in Heq by (unfold_ints; lia). injection Heq as ->. done.
Qed.

(** ** Keys *)

Definition hex_char (d : Z) : Z := if d <? 10 then 48 + d else 87 + d.
Definition hex_text (b : bytes) : bytes := b ≫= fun x => [hex_char (x / 16); hex_char (x mod 16)].

Lemma hex_pair_char x : 0 <= x <= 255 ->
  hex_pair (hex_char (x / 16)) (hex_char (x mod 16)) = Some x /\ is_cont (hex_char (x / 16)) = false.
Proof.
  intros Hx. pose proof (Z.div_mod x 16 ltac:(lia)) as Hd. pose proof (Z.mod_pos_bound x 16 ltac:(lia)) as Hm. set (h := x / 16) in *. set (m := x mod 16) in *. clearbody h m.
  assert (Hhex : forall d, 0 <= d < 16 -> hex_digit (hex_char d) = Some d /\ hex_char d <> 43 /\ is_cont (hex_char d) = false).
  { intros d Hr. assert (Hall : Forall (fun d => hex_digit (hex_char d) = Some d /\ hex_char d <> 43 /\ is_cont (hex_char d) = false) [0;1;2;3;4;5;6;7;8;9;10;11;12;13;14;15])
      by (repeat constructor; done). rewrite Forall_forall in Hall. apply Hall. assert (Hin : d ∈ seqZ 0 16) by (apply elem_of_seqZ; lia). exact Hin. }
  destruct (Hhex h ltac:(lia)) as (H1&H2&H3). destruct (Hhex m ltac:(lia)) as (H4&_&_). split; [|done]. unfold hex_pair.
  destruct (Z.eqb_spec (hex_char h) 43); [done|]. rewrite H1, H4. cbn. f_equal. lia.
Qed.

(** The hexadecimal text of a key is read back as the key. *)
Lemma hex_roundtrip b : Forall (fun x => 0 <= x <= 255) b -> hex_bytes (hex_text b) = Some (Ok b).
Proof.
  induction 1 as [|x b Hx Hb IH]; [done|]. change (hex_text (x :: b)) with (hex_char (x / 16) :: hex_char (x mod 16) :: hex_text b).
  destruct (hex_pair_char x Hx) as [Hp Hc]. cbn [hex_bytes]. rewrite Hc.
  assert (Hnext : match hex_text b with z :: _ => is_cont z | [] => false end = false).
  { destruct Hb as [|y b Hy _]; [done|]. by destruct (hex_pair_char y Hy) as [_ ?]. }
  rewrite Hnext. cbn [orb]. rewrite Hp, IH. cbn. done.
Qed.

(** A text with plus signs is a key, and one with other characters can panic. *)
Lemma hex_key_plus : parse_hex_key (bytes_str (concat (replicate 32 [43; 49]))) = Some (Ok (replicate 32 1)) /\
  parse_hex_key (bytes_str (48 :: concat (replicate 31 [195; 169]) ++ [48])) = None.
Proof. by vm_compute. Qed.

Lemma burst_limited_witness :
  (checks (new_limiter 2) 5 (replicate 3 "c")).1 = [true; true; false].
Proof. apply (burst_limited (new_limiter 2) 5 "c" 2 3); [reflexivity|right; split; reflexivity|lia]. Defined.

Lemma ports_evade_limit_witness :
  (checks (new_limiter 1) 5 ((fun p => client_key (Some (mkAddr "10.0.0.1" p))) <$> [4000; 4001; 4002])).1 = [true; true; true].
Proof.
  apply (ports_evade_limit 1 5 "10.0.0.1" [4000; 4001; 4002]); [lia| |repeat constructor; lia].
  repeat constructor; set_solver by lia.
Defined.
