(* ===== verification/Schema.v ===== *)
(** * thingd-schema: the schema language

    Models [crates/thingd-schema/src/lib.rs]: the schema document, its construction from the
    parse tree of the grammar, validation and the canonical form that is hashed.  The parser
    that pest generates from the grammar, [serde_json] and SHA-256 are parameters. *)

From S2P Require Import Prelude Wal Table Layer Database Keyspace RamScan Model Objects Links Storage RustStd.

(** ** Documents *)

Inductive FieldType :=
| FString | FNumber | FBoolean | FDatetime | FJson
| FVector (dimensions : Z)
| FEnum (values : list string)
| FArray (element : string)
| FNamed (name : string).

Record Annotation := mkAnnotation { an_name : string; an_arguments : list string }.
Record Field := mkField {
  fi_name : string;
  fi_field_type : FieldType;
  fi_optional : bool;
  fi_annotations : list Annotation;
  fi_default : option string;
}.
Record Collection := mkCollection { co_name : string; co_fields : list Field }.
Record SchemaLink := mkSchemaLink { sl_name : string; sl_from : string; sl_to : string; sl_link_type : string; sl_cardinality : string }.
Record Schema := mkSchema { sc_version : Z; sc_project : option string; sc_collections : list Collection; sc_links : list SchemaLink }.

Inductive SchemaError := ParseError (text : string) | ValidationError (text : string).
Definition display_schema_error (e : SchemaError) : string :=
  match e with
  | ParseError text => "schema parse error: " +:+ text
  | ValidationError text => "schema validation error: " +:+ text
  end.

(** A panic ([expect] on a parse tree that the grammar does not produce) is not an error value. *)
Inductive Failure := Failed (error : SchemaError) | Panicked.
Abbreviation schema_result := (result Failure).
Abbreviation parse_error m := (Err (Failed (ParseError m))).
Abbreviation validation_error m := (Err (Failed (ValidationError m))).

(** ** Validation *)

Definition validate_field (collection : string) (names : gset string) (f : Field) : schema_result (gset string) :=
  if bool_decide (fi_name f ∈ names) then validation_error ("duplicate field `" +:+ collection +:+ "." +:+ fi_name f +:+ "`") else
  if match fi_field_type f with FVector dimensions => dimensions =? 0 | _ => false end
  then validation_error ("vector field `" +:+ collection +:+ "." +:+ fi_name f +:+ "` must have positive dimensions")
  else Ok ({[fi_name f]} ∪ names).

Definition validate_collection (names : gset string) (c : Collection) : schema_result (gset string) :=
  if bool_decide (co_name c ∈ names) then validation_error ("duplicate collection `" +:+ co_name c +:+ "`") else
  _ ← fold_res (validate_field (co_name c)) ∅ (co_fields c);
  Ok ({[co_name c]} ∪ names).

Definition validate_link (names : gset string) (l : SchemaLink) : schema_result unit :=
  if bool_decide (sl_from l ∈ names) && bool_decide (sl_to l ∈ names) then Ok ()
  else validation_error ("link `" +:+ sl_name l +:+ "` references an unknown collection").

Definition validate (s : Schema) : schema_result unit :=
  names ← fold_res validate_collection ∅ (sc_collections s);
  fold_res (fun _ l => validate_link names l) () (sc_links s).

(** ** The canonical form *)

Definition canonical_field (f : Field) : Field :=
  mkField (fi_name f) (fi_field_type f) (fi_optional f) (sort_by (by_name an_name) (fi_annotations f)) (fi_default f).
Definition canonical_collection (c : Collection) : Collection :=
  mkCollection (co_name c) (canonical_field <$> sort_by (by_name fi_name) (co_fields c)).
Definition canonical (s : Schema) : Schema :=
  mkSchema (sc_version s) (sc_project s) (canonical_collection <$> sort_by (by_name co_name) (sc_collections s))
    (sort_by (by_name sl_name) (sc_links s)).

(** ** Parse trees *)

Inductive Rule :=
| R_file | R_version_decl | R_project_decl | R_collection | R_field | R_vector_type | R_enum_type | R_array_type | R_optional
| R_annotation | R_annotation_args | R_default_value | R_link | R_link_property | R_link_key | R_ident | R_integer | R_boolean
| R_string | R_EOI.
#[export] Instance Rule_eq_dec : EqDecision Rule.
Proof. solve_decision. Defined.

Inductive Pair := mkPair (rule : Rule) (text : string) (inner : list Pair).
Definition pair_rule (p : Pair) : Rule := let '(mkPair r _ _) := p in r.
Definition pair_text (p : Pair) : string := let '(mkPair _ t _) := p in t.
Definition pair_inner (p : Pair) : list Pair := let '(mkPair _ _ i) := p in i.
Definition has_rule (r : Rule) (p : Pair) : bool := bool_decide (pair_rule p = r).

Definition parse_u32 (s : string) : option Z := n ← parse_u64 s; if n <=? U32_MAX then Some n else None.

Fixpoint map_res {E A B} (f : A -> result E B) (l : list A) : result E (list B) :=
  match l with
  | [] => Ok []
  | x :: l => y ← f x; ys ← map_res f l; Ok (y :: ys)
  end.

(** What the language takes from its libraries: the parser of the grammar, JSON strings with the
    text of an error, the JSON of a document and SHA-256. *)
Class SchemaLibraries := {
  pest_parse : string -> result string (list Pair);
  json_string : string -> result string string;
  to_json : Schema -> string;
  sha256 : bytes -> bytes;
}.

Section parsing.
Context `{SchemaLibraries}.

Definition parse_string (value : string) : schema_result string :=
  match json_string value with Ok s => Ok s | Err error => parse_error ("invalid string: " +:+ error) end.
Definition parse_value (value : string) : schema_result string :=
  match str_bytes value with 34 :: _ => parse_string value | _ => Ok value end.

(** [expect]. *)
Definition expect {A} (o : option A) : schema_result A := ok_or o Panicked.

Definition parse_annotation (pair : Pair) : schema_result Annotation :=
  name ← expect (head (pair_inner pair));
  arguments ← map_res (fun value => parse_value (pair_text value)) (tail (pair_inner pair) ≫= pair_inner);
  Ok (mkAnnotation (pair_text name) arguments).

Definition scalar_type (text : string) : FieldType :=
  if bool_decide (text = "string") then FString else if bool_decide (text = "number") then FNumber
  else if bool_decide (text = "boolean") then FBoolean else if bool_decide (text = "datetime") then FDatetime
  else if bool_decide (text = "json") then FJson else FNamed text.

Definition parse_type (pair : Pair) : schema_result FieldType :=
  match pair_rule pair with
  | R_vector_type =>
      dimensions ← ok_or (value ← head (pair_inner pair); parse_u32 (pair_text value)) (Failed (ParseError "invalid vector dimensions"));
      Ok (FVector dimensions)
  | R_enum_type =>
      values ← map_res (fun value => parse_string (pair_text value)) (List.filter (has_rule R_string) (pair_inner pair));
      Ok (FEnum values)
  | R_array_type =>
      value ← ok_or (head (pair_inner pair)) (Failed (ParseError "invalid array type"));
      Ok (FArray (pair_text value))
  | R_ident => Ok (scalar_type (pair_text pair))
  | _ => parse_error ("unsupported field type `" +:+ pair_text pair +:+ "`")
  end.

(** One child after the type. *)
Definition field_part (f : Field) (pair : Pair) : schema_result Field :=
  match pair_rule pair with
  | R_optional => Ok (mkField (fi_name f) (fi_field_type f) true (fi_annotations f) (fi_default f))
  | R_annotation =>
      annotation ← parse_annotation pair;
      Ok (mkField (fi_name f) (fi_field_type f) (fi_optional f) (fi_annotations f ++ [annotation]) (fi_default f))
  | R_default_value =>
      default ← match head (pair_inner pair) with Some value => v ← parse_value (pair_text value); Ok (Some v) | None => Ok None end;
      Ok (mkField (fi_name f) (fi_field_type f) (fi_optional f) (fi_annotations f) default)
  | _ => Ok f
  end.

Definition parse_field (pair : Pair) : schema_result Field :=
  name ← expect (head (pair_inner pair));
  type_pair ← ok_or (head (tail (pair_inner pair))) (Failed (ParseError ("field `" +:+ pair_text name +:+ "` is missing a type")));
  field_type ← parse_type type_pair;
  fold_res field_part (mkField (pair_text name) field_type false [] None) (tail (tail (pair_inner pair))).

Definition parse_collection (pair : Pair) : schema_result Collection :=
  name ← ok_or (head (pair_inner pair)) (Failed (ParseError "collection is missing a name"));
  fields ← map_res parse_field (List.filter (has_rule R_field) (tail (pair_inner pair)));
  Ok (mkCollection (pair_text name) fields).

Definition link_part (l : SchemaLink) (property : Pair) : schema_result SchemaLink :=
  key ← expect (head (pair_inner property));
  value ← expect (head (tail (pair_inner property)));
  value ← (if has_rule R_string value then parse_string (pair_text value) else Ok (pair_text value));
  let key := pair_text key in
  Ok (if bool_decide (key = "from") then mkSchemaLink (sl_name l) value (sl_to l) (sl_link_type l) (sl_cardinality l)
      else if bool_decide (key = "to") then mkSchemaLink (sl_name l) (sl_from l) value (sl_link_type l) (sl_cardinality l)
      else if bool_decide (key = "type") then mkSchemaLink (sl_name l) (sl_from l) (sl_to l) value (sl_cardinality l)
      else if bool_decide (key = "cardinality") then mkSchemaLink (sl_name l) (sl_from l) (sl_to l) (sl_link_type l) value
      else l).

Definition parse_link (pair : Pair) : schema_result SchemaLink :=
  name ← expect (head (pair_inner pair));
  link ← fold_res link_part (mkSchemaLink (pair_text name) "" "" "" "") (List.filter (has_rule R_link_property) (tail (pair_inner pair)));
  if bool_decide (sl_from link = "") || bool_decide (sl_to link = "")
  then validation_error ("link `" +:+ sl_name link +:+ "` must define `from` and `to`") else Ok link.

(** One declaration of the file. *)
Definition parse_item (s : Schema) (pair : Pair) : schema_result Schema :=
  match pair_rule pair with
  | R_project_decl =>
      value ← ok_or (List.find (has_rule R_string) (pair_inner pair)) (Failed (ParseError "invalid project declaration"));
      project ← parse_string (pair_text value);
      Ok (mkSchema (sc_version s) (Some project) (sc_collections s) (sc_links s))
  | R_collection => c ← parse_collection pair; Ok (mkSchema (sc_version s) (sc_project s) (sc_collections s ++ [c]) (sc_links s))
  | R_link => l ← parse_link pair; Ok (mkSchema (sc_version s) (sc_project s) (sc_collections s) (sc_links s ++ [l]))
  | _ => Ok s
  end.

Definition parse (source : string) : schema_result Schema :=
  pairs ← match pest_parse source with Ok pairs => Ok pairs | Err error => parse_error error end;
  file ← ok_or (head pairs) (Failed (ParseError "empty schema"));
  version_pair ← ok_or (head (pair_inner file)) (Failed (ParseError "missing version declaration"));
  version ← ok_or (pair ← List.find (has_rule R_integer) (pair_inner version_pair); parse_u32 (pair_text pair))
                  (Failed (ParseError "invalid schema version"));
  schema ← fold_res parse_item (mkSchema version None [] []) (tail (pair_inner file));
  _ ← validate schema;
  Ok schema.

(** ** Hashes *)

Definition canonical_json (s : Schema) : string := to_json (canonical s).
Definition hex_lower (b : bytes) : bytes :=
  b ≫= fun x => (fun d => if d <? 10 then 48 + d else 87 + d) <$> [x / 16; x mod 16].
Definition schema_hash (s : Schema) : string := "sha256:" +:+ bytes_str (hex_lower (sha256 (str_bytes (canonical_json s)))).
End parsing.

(** ** What validation accepts *)

Record valid_schema (s : Schema) : Prop := {
  vs_collections : NoDup (co_name <$> sc_collections s);
  vs_fields : Forall (fun c => NoDup (fi_name <$> co_fields c)) (sc_collections s);
  vs_vectors : Forall (fun c => Forall (fun f => fi_field_type f <> FVector 0) (co_fields c)) (sc_collections s);
  vs_links : Forall (fun l => sl_from l ∈ co_name <$> sc_collections s /\ sl_to l ∈ co_name <$> sc_collections s) (sc_links s);
}.

Lemma validate_fields_iff collection fs : forall names out, fold_res (validate_field collection) names fs = Ok out <->
  NoDup (fi_name <$> fs) /\ Forall (fun f => fi_name f ∉ names) fs /\ Forall (fun f => fi_field_type f <> FVector 0) fs /\
  out = list_to_set (fi_name <$> fs) ∪ names.
Proof.
  induction fs as [|f fs IH]; intros names out; cbn [fold_res].
  { split; [intros [= <-]; split_and!; [constructor..|set_solver]|]. intros (_&_&_&->). f_equal. set_solver. }
  rewrite bind_Ok_inv, fmap_cons, NoDup_cons, !Forall_cons. unfold validate_field at 1.
  assert (Hvec : (match fi_field_type f with FVector d => d =? 0 | _ => false end = true) <-> fi_field_type f = FVector 0).
  { destruct (fi_field_type f) as [| | | | |d| | |]; try (split; [done|by intros]). rewrite Z.eqb_eq. split; congruence. }
  split.
  - intros (names'&Hf&Hrest). case_bool_decide as Hin; [done|]. destruct (match fi_field_type f with FVector d => d =? 0 | _ => false end) eqn:Hv; [done|].
    injection Hf as <-. apply IH in Hrest as (Hnd&Hout&Hvs&->). rewrite Forall_forall in Hout. split_and!; try done.
    + intros (g&Hg&Hgin)%list_elem_of_fmap. specialize (Hout g Hgin). set_solver.
    + apply Forall_forall. intros g Hg. specialize (Hout g Hg). set_solver.
    + intros Hx%Hvec. congruence.
    + set_solver.
  - intros ((Hnin&Hnd)&(Hf&Hfs)&(Hv&Hvs)&->). exists ({[fi_name f]} ∪ names). rewrite bool_decide_false by done.
    destruct (match fi_field_type f with FVector d => d =? 0 | _ => false end); [by destruct Hv; apply Hvec|]. split; [done|]. apply IH. split_and!; [done| |done|set_solver].
    rewrite Forall_forall in Hfs |- *. intros g Hg. specialize (Hfs g Hg). assert (fi_name g <> fi_name f) by (intros Heq; apply Hnin; rewrite <-Heq; by apply list_elem_of_fmap_2).
    set_solver.
Qed.

Lemma validate_collections_iff cs : forall names out, fold_res validate_collection names cs = Ok out <->
  NoDup (co_name <$> cs) /\ Forall (fun c => co_name c ∉ names) cs /\ Forall (fun c => NoDup (fi_name <$> co_fields c)) cs /\
  Forall (fun c => Forall (fun f => fi_field_type f <> FVector 0) (co_fields c)) cs /\ out = list_to_set (co_name <$> cs) ∪ names.
Proof.
  induction cs as [|c cs IH]; intros names out; cbn [fold_res].
  { split; [intros [= <-]; split_and!; [constructor..|set_solver]|]. intros (_&_&_&_&->). f_equal. set_solver. }
  rewrite bind_Ok_inv, fmap_cons, NoDup_cons, !Forall_cons. unfold validate_collection at 1. split.
  - intros (names'&Hc&Hrest). case_bool_decide as Hin; [done|]. apply bind_Ok_inv in Hc as (fields&Hfs&[= <-]).
    apply validate_fields_iff in Hfs as (Hnf&_&Hvf&_). apply IH in Hrest as (Hnd&Hout&Hfs&Hvs&->). rewrite Forall_forall in Hout. split_and!; try done.
    + intros (g&Hg&Hgin)%list_elem_of_fmap. specialize (Hout g Hgin). set_solver.
    + apply Forall_forall. intros g Hg. specialize (Hout g Hg). set_solver.
    + set_solver.
  - intros ((Hnin&Hnd)&(Hc&Hcs)&(Hf&Hfs)&(Hv&Hvs)&->). exists ({[co_name c]} ∪ names). rewrite bool_decide_false by done. split.
    + apply bind_Ok_inv. eexists. split; [|reflexivity]. apply validate_fields_iff. split_and!; [done|apply Forall_forall; set_solver|done|reflexivity].
    + apply IH. split_and!; [done| |done|done|set_solver]. rewrite Forall_forall in Hcs |- *. intros g Hg. specialize (Hcs g Hg).
      assert (co_name g <> co_name c) by (intros Heq; apply Hnin; rewrite <-Heq; by apply list_elem_of_fmap_2). set_solver.
Qed.

Lemma validate_iff s : validate s = Ok () <-> valid_schema s.
Proof.
  unfold validate. rewrite bind_Ok_inv. split.
  - intros (names&(Hnd&_&Hf&Hv&->)%validate_collections_iff&Hl). split; [done..|]. apply fold_res_unit in Hl. eapply Forall_impl; [exact Hl|]. intros l Hx. unfold validate_link in Hx.
    destruct (_ && _) eqn:Hb; [|done]. apply andb_true_iff in Hb as [H1%bool_decide_eq_true H2%bool_decide_eq_true]. set_solver.
  - intros [Hnd Hf Hv Hl]. eexists. split; [apply validate_collections_iff; split_and!; [done|apply Forall_forall; set_solver|done|done|reflexivity]|].
    apply fold_res_unit. eapply Forall_impl; [exact Hl|]. intros l [H1 H2]. unfold validate_link. by rewrite !bool_decide_true by set_solver.
Qed.

(** ** Documents up to the order of declarations *)

Record same_field (f g : Field) : Prop := {
  sf_name : fi_name f = fi_name g;
  sf_type : fi_field_type f = fi_field_type g;
  sf_optional : fi_optional f = fi_optional g;
  sf_default : fi_default f = fi_default g;
  sf_annotations : fi_annotations f ≡ₚ fi_annotations g;
}.
Record same_collection (c d : Collection) : Prop := {
  sd_name : co_name c = co_name d;
  sd_fields : exists fs, co_fields c ≡ₚ fs /\ Forall2 same_field fs (co_fields d);
}.
Record same_schema (s t : Schema) : Prop := {
  ss_version : sc_version s = sc_version t;
  ss_project : sc_project s = sc_project t;
  ss_collections : exists cs, sc_collections s ≡ₚ cs /\ Forall2 same_collection cs (sc_collections t);
  ss_links : sc_links s ≡ₚ sc_links t;
}.

(** Annotations and links under different names. *)
Record distinct_names (s : Schema) : Prop := {
  dn_annotations : Forall (fun c => Forall (fun f => NoDup (an_name <$> fi_annotations f)) (co_fields c)) (sc_collections s);
  dn_links : NoDup (sl_name <$> sc_links s);
}.

Section by_name.
Context {A : Type} (name : A -> string).

Lemma insert_Forall2 (P : A -> A -> Prop) x y l l' : (forall x y, P x y -> name x = name y) -> P x y -> Forall2 P l l' ->
  Forall2 P (insert_by (by_name name) x l) (insert_by (by_name name) y l').
Proof.
  intros Hn Hxy. induction 1 as [|a b l l' Hab Hl IH]; cbn [insert_by]; [by repeat constructor|]. assert (Hc : by_name name x a = by_name name y b) by (unfold by_name; by rewrite (Hn _ _ Hxy), (Hn _ _ Hab)). rewrite Hc.
  destruct (by_name name y b); by repeat constructor.
Qed.

Lemma sort_Forall2 (P : A -> A -> Prop) l l' : (forall x y, P x y -> name x = name y) -> Forall2 P l l' ->
  Forall2 P (sort_by (by_name name) l) (sort_by (by_name name) l').
Proof. intros Hn. induction 1 as [|x y l l' Hxy _ IH]; [constructor|]. cbn. by apply insert_Forall2. Qed.
End by_name.

Lemma map_Forall2_eq {A B} (f : A -> B) l l' : Forall2 (fun x y => f x = f y) l l' -> f <$> l = f <$> l'.
Proof. induction 1 as [|x y l l' Hxy _ IH]; [done|]. by rewrite !fmap_cons, Hxy, IH. Qed.

Lemma Forall2_with {A} (P : A -> A -> Prop) (Q : A -> Prop) l l' : Forall Q l -> Forall2 P l l' -> Forall2 (fun x y => Q x /\ P x y) l l'.
Proof. intros HQ HP. induction HP as [|x y l l' Hxy _ IH]; [constructor|]. apply Forall_cons in HQ as [Hx HQ]. constructor; [done|by apply IH]. Qed.

Lemma canonical_field_same f g : NoDup (an_name <$> fi_annotations f) -> same_field f g -> canonical_field f = canonical_field g.
Proof. intros Hnd [Hn Ht Ho Hd Ha]. unfold canonical_field. rewrite Hn, Ht, Ho, Hd. f_equal. by apply sort_unique. Qed.

Lemma canonical_collection_same c d :
  NoDup (fi_name <$> co_fields c) -> Forall (fun f => NoDup (an_name <$> fi_annotations f)) (co_fields c) -> same_collection c d ->
  canonical_collection c = canonical_collection d.
Proof.
  intros Hnd Hann [Hn (fs&Hp&Hfs)]. unfold canonical_collection. rewrite Hn. f_equal. rewrite (sort_unique fi_name _ fs Hp Hnd). apply map_Forall2_eq.
  rewrite Hp in Hann. eapply Forall2_impl; [apply sort_Forall2; [|exact (Forall2_with _ _ _ _ Hann Hfs)]; by intros x y [_ []]|].
  intros f g [Ha Hf]. by apply canonical_field_same.
Qed.

(** C39. The canonical form, and with it the hash of a schema, does not depend on the order in which
    collections, fields, annotations and links are declared, for documents that validation
    accepts and in which annotations of a field, and links, have different names. *)
Theorem canonical_order_insensitive `{SchemaLibraries} s t :
  validate s = Ok () -> distinct_names s -> same_schema s t -> canonical t = canonical s /\ schema_hash t = schema_hash s.
Proof.
  intros [Hnd Hf _ _]%validate_iff [Hann Hlinks] [Hv Hp (cs&Hcs&Hsame) Hl].
  assert (Heq : canonical t = canonical s).
  { unfold canonical. rewrite Hv, Hp, (sort_unique sl_name _ _ Hl Hlinks), (sort_unique co_name _ _ Hcs Hnd). f_equal. symmetry. apply map_Forall2_eq.
    rewrite Hcs in Hf, Hann. assert (Hboth : Forall (fun c => NoDup (fi_name <$> co_fields c) /\ Forall (fun f => NoDup (an_name <$> fi_annotations f)) (co_fields c)) cs) by (by apply Forall_and).
    eapply Forall2_impl; [apply sort_Forall2; [|exact (Forall2_with _ _ _ _ Hboth Hsame)]; by intros x y [_ []]|].
    intros c d [[Hc1 Hc2] Hcd]. by apply canonical_collection_same. }
  split; [done|]. unfold schema_hash, canonical_json. by rewrite Heq.
Qed.

(** A document that the parser returns is valid: collection names and the fields of a collection
    are unique, vectors have dimensions, and links join declared collections. *)
Theorem parsed_schema_valid `{SchemaLibraries} source s : parse source = Ok s -> valid_schema s.
Proof.
  unfold parse. intros (pairs&_&Hp)%bind_Ok_inv. apply bind_Ok_inv in Hp as (file&_&Hp). apply bind_Ok_inv in Hp as (version_pair&_&Hp).
  apply bind_Ok_inv in Hp as (version&_&Hp). apply bind_Ok_inv in Hp as (schema&_&Hp). apply bind_Ok_inv in Hp as ([]&Hval&Hs). injection Hs as <-. by apply validate_iff.
Qed.

(** Links of one name are accepted, and their order decides the canonical form. *)
Lemma link_order_changes_canonical :
  let s links := mkSchema 1 None [mkCollection "a" []; mkCollection "b" []] links in
  let ab := mkSchemaLink "l" "a" "b" "" "" in
  let ba := mkSchemaLink "l" "b" "a" "" "" in
  validate (s [ab; ba]) = Ok () /\ canonical (s [ab; ba]) <> canonical (s [ba; ab]).
Proof. split; [vm_compute; reflexivity|]. vm_compute. done. Qed.

(** ** Witnesses *)

(** The parse tree of [version 1], [collection b] with field [f], [collection a]. *)
Definition sample_pairs : list Pair :=
  [mkPair R_file "" [mkPair R_version_decl "version 1" [mkPair R_integer "1" []];
     mkPair R_collection "" [mkPair R_ident "b" []; mkPair R_field "" [mkPair R_ident "f" []; mkPair R_vector_type "" [mkPair R_integer "3" []]]];
     mkPair R_collection "" [mkPair R_ident "a" []];
     mkPair R_link "" [mkPair R_ident "l" []; mkPair R_link_property "" [mkPair R_link_key "from" []; mkPair R_ident "a" []];
       mkPair R_link_property "" [mkPair R_link_key "to" []; mkPair R_ident "b" []]]]].
Definition sample_libraries : SchemaLibraries := {|
  pest_parse := fun _ => Ok sample_pairs; json_string := fun s => Ok s; to_json := fun s => default "" (sc_project s); sha256 := fun b => b;
|}.
Definition sample_schema : Schema :=
  mkSchema 1 None [mkCollection "b" [mkField "f" (FVector 3) false [] None]; mkCollection "a" []] [mkSchemaLink "l" "a" "b" "" ""].

Lemma parsed_schema_valid_witness : valid_schema sample_schema.
Proof. apply (@parsed_schema_valid sample_libraries "source"). vm_compute. reflexivity. Defined.

Definition sample_reordered : Schema :=
  mkSchema 1 None [mkCollection "a" []; mkCollection "b" [mkField "f" (FVector 3) false [] None]] [mkSchemaLink "l" "a" "b" "" ""].

Lemma canonical_order_insensitive_witness : canonical sample_reordered = canonical sample_schema.
Proof.
  refine (proj1 (@canonical_order_insensitive sample_libraries sample_schema sample_reordered _ _ _)).
  - vm_compute. reflexivity.
  - split; [repeat constructor|]. cbn. apply NoDup_singleton.
  - split; [reflexivity|reflexivity| |reflexivity]. exists (sc_collections sample_reordered). split; [apply Permutation_swap|].
    repeat constructor; eexists; (split; [reflexivity|repeat constructor]).
Defined.
