(* ===== verification/Analytics.v ===== *)
(** * thingd: search and analytics of the in-memory engine

    Models [Searcher], [AggregateStore] and [VectorStore] for [MemoryEngine] and the inference of
    collection schemas ([crates/thingd/src/in_memory.rs]), with [cosine_similarity] of [lib.rs] and
    the options and results of [model.rs].  Dates belong to the [chrono] crate and are the
    parameter [Chrono]; the order in which a [HashMap] is iterated is an argument. *)

From S2P Require Import Prelude Wal Table Layer Database Keyspace RamScan Model Objects Storage RustStd.
From Stdlib Require Import SpecFloat.

(** ** Options and results *)

Inductive AggregateFunction := Count | Sum | Avg | Min | Max.
#[export] Instance AggregateFunction_eq_dec : EqDecision AggregateFunction.
Proof. solve_decision. Defined.

Record AggregateOptions `{SerdeJson} := mkAggregateOptions {
  ao_filter : list (string * Value number);
  ao_group_by : option string;
  ao_function : AggregateFunction;
  ao_field : option string;
}.
Arguments mkAggregateOptions {_} _ _ _ _.

Record AggregateGroupResult := mkGroup { gr_key : string; gr_value : spec_float }.
Record AggregateResult := mkAggregate { ar_total : spec_float; ar_groups : list AggregateGroupResult }.

Inductive TimeBucket := Hour | Day | Week | Month.
Definition strftime_format (b : TimeBucket) : string :=
  match b with Hour => "%Y-%m-%dT%H:00:00Z" | Day => "%Y-%m-%d" | Week => "%Y-W%W" | Month => "%Y-%m" end.

Record TimeSeriesOptions `{SerdeJson} := mkTimeSeriesOptions {
  ts_filter : list (string * Value number);
  ts_bucket : TimeBucket;
  ts_function : AggregateFunction;
  ts_field : option string;
  ts_from : option string;
  ts_to : option string;
}.
Arguments mkTimeSeriesOptions {_} _ _ _ _ _ _.

Record TimeSeriesBucket := mkTimeBucket { tb_label : string; tb_value : spec_float }.
Record TimeSeriesResult := mkTimeSeries { tr_buckets : list TimeSeriesBucket }.

Record FieldSchema `{SerdeJson} := mkFieldSchema {
  fs_name : string;
  fs_field_type : string;
  fs_nullable : bool;
  fs_sample_values : list (Value number);
}.
Arguments mkFieldSchema {_} _ _ _ _.
Record CollectionSchema `{SerdeJson} := mkCollectionSchema { cs_name : string; cs_object_count : Z; cs_fields : list FieldSchema }.
Arguments mkCollectionSchema {_} _ _ _.
Record SchemaOptions := mkSchemaOptions { so_sample_size : option Z }.
Definition default_schema_options : SchemaOptions := mkSchemaOptions (Some 50).

Record SearchOptions `{SerdeJson} := mkSearchOptions {
  se_collections : option (list string);
  se_limit : option Z;
  se_filter : option (Value number);
}.
Arguments mkSearchOptions {_} _ _ _.

Record SearchHit := mkHit {
  sh_kind : string;
  sh_collection : string;
  sh_id : string;
  sh_text : string;
  sh_score : spec_float;
  sh_body : string;
  sh_version : option Z;
  sh_created_at : string;
  sh_updated_at : option string;
  sh_event_type : option string;
}.

Record VectorSearchOptions `{SerdeJson} := mkVectorOptions { vo_top_k : option Z; vo_filter : option (Value number) }.
Arguments mkVectorOptions {_} _ _.
Record VectorSearchHit := mkVectorHit { vh_id : string; vh_score : spec_float; vh_value : MemoryObject }.

(** [chrono]: reading RFC 3339 and the more lenient [DateTime<Utc>] from text, the change to UTC,
    and [strftime] formats. *)
Class Chrono := {
  DateTime : Type;
  parse_from_rfc3339 : string -> option DateTime;
  parse_datetime_utc : string -> option DateTime;
  with_timezone_utc : DateTime -> DateTime;
  format_datetime : DateTime -> string -> string;
  timestamp_millis : DateTime -> Z;
}.

(** [take(n)] and [truncate(n)] with an optional bound. *)
Definition truncate {A} (limit : option Z) (l : list A) : list A := match limit with Some n => take (Z.to_nat n) l | None => l end.

(** ** Grouping *)

(** [entry(key).or_default()] and an update, for each element. *)
Definition fold_by {A B} (key : A -> string) (step : option B -> A -> B) (g : gmap string B) (l : list A) : gmap string B :=
  foldl (fun g a => <[key a := step (g !! key a) a]> g) g l.

Definition push_group {A} (g : option (list A)) (a : A) : list A := default [] g ++ [a].
Definition group_by {A} (key : A -> string) (l : list A) : gmap string (list A) := fold_by key push_group ∅ l.

Definition with_key {A} (key : A -> string) (k : string) (l : list A) : list A := List.filter (fun a => bool_decide (key a = k)) l.

Section analytics.
Context `{SerdeJson} `{Chrono} `{UnicodeTables}.
Implicit Types (e : MemoryEngine) (o : MemoryObject).

(** ** Filters and fields *)

Definition field_matches (body : Value number) (kv : string * Value number) : bool :=
  match value_get body kv.1 with Some v => bool_decide (v = kv.2) | None => false end.

(** The filter of aggregates and time series. *)
Definition matches_fields (filter : list (string * Value number)) o : bool :=
  if bool_decide (length filter = 0%nat) then true else
  match from_str (ob_body o) with Some body => forallb (field_matches body) filter | None => false end.

Definition matches_filter_memory (body_str : string) (filter : Value number) : bool :=
  match from_str body_str with
  | None => false
  | Some body => match filter with JObject fields => forallb (field_matches body) fields | _ => true end
  end.

Definition passes (filter : option (Value number)) (body : string) : bool :=
  match filter with Some f => matches_filter_memory body f | None => true end.

Definition extract_field_str (body_str field : string) : string :=
  match from_str body_str with
  | None => ""
  | Some body => match value_get body field with Some (JString s) => s | Some v => display_value v | None => "" end
  end.

Definition extract_field_f64 (body_str field : string) : option spec_float :=
  body ← from_str body_str;
  match value_get body field with
  | Some (JNumber n) => as_f64 n
  | Some (JString s) => parse_f64 s
  | _ => None
  end.

Definition average (values : list spec_float) : spec_float :=
  if bool_decide (length values = 0%nat) then f64_zero else f64_div (f64_sum values) (f64_of_u64 (zlen values)).

Definition compute_aggregate (os : list MemoryObject) (function : AggregateFunction) (field : option string) : spec_float :=
  let values := omap (fun o => extract_field_f64 (ob_body o) (default "" field)) os in
  match function with
  | Count => f64_of_u64 (zlen os)
  | Sum => f64_sum values
  | Avg => average values
  | Min => foldl f64_min f64_INFINITY values
  | Max => foldl f64_max f64_NEG_INFINITY values
  end.

(** ** Aggregates *)

Definition collection_objects e (collection : string) : list MemoryObject :=
  List.filter (fun o => bool_decide ((ob_key o).1 = collection)) (btree_values (objects e)).

Definition by_group_key (a b : AggregateGroupResult) : comparison := key_cmp (gr_key a) (gr_key b).

Definition aggregate (hash_order : gmap string (list MemoryObject) -> list (string * list MemoryObject)) e
    (collection : string) (options : AggregateOptions) : thingd_result AggregateResult :=
  let os := List.filter (matches_fields (ao_filter options)) (collection_objects e collection) in
  match ao_group_by options with
  | Some group_field =>
      let groups := group_by (fun o => extract_field_str (ob_body o) group_field) os in
      let results := (fun g => mkGroup g.1 (compute_aggregate g.2 (ao_function options) (ao_field options))) <$> hash_order groups in
      let results := sort_by by_group_key results in
      Ok (mkAggregate (f64_sum (gr_value <$> results)) results)
  | None => Ok (mkAggregate (compute_aggregate os (ao_function options) (ao_field options)) [])
  end.

(** ** Time series *)

Definition format_timestamp (ts format : string) : string :=
  match parse_from_rfc3339 ts with
  | Some dt => format_datetime (with_timezone_utc dt) format
  | None => ts
  end.

Definition in_range (from to : option string) (ts : string) : bool :=
  match from with Some from => bool_decide (key_cmp ts from <> Lt) | None => true end
  && match to with Some to => bool_decide (key_cmp ts to = Lt) | None => true end.

Definition by_label (a b : TimeSeriesBucket) : comparison := key_cmp (tb_label a) (tb_label b).

Definition timeseries (hash_order : gmap string (list MemoryObject) -> list (string * list MemoryObject)) e
    (collection : string) (options : TimeSeriesOptions) : thingd_result TimeSeriesResult :=
  let format := strftime_format (ts_bucket options) in
  let os := List.filter (fun o => in_range (ts_from options) (ts_to options) (ob_created_at o))
              (List.filter (matches_fields (ts_filter options)) (collection_objects e collection)) in
  let buckets := group_by (fun o => format_timestamp (ob_created_at o) format) os in
  let results := (fun g => mkTimeBucket g.1 (compute_aggregate g.2 (ts_function options) (ts_field options))) <$> hash_order buckets in
  Ok (mkTimeSeries (sort_by by_label results)).

(** ** Schema inference *)

Definition infer_json_type (value : Value number) : string :=
  match value with
  | JNull => "null"
  | JBool _ => "boolean"
  | JNumber _ => "number"
  | JString s =>
      if (10 <? zlen (str_bytes s)) && (str_contains s "T" || str_contains s "-") && bool_decide (is_Some (parse_from_rfc3339 s))
      then "date" else "string"
  | JArray _ => "array"
  | JObject _ => "object"
  end.

(** What is known of a field: its type, whether it was null, and sample values. *)
Abbreviation FieldInfo := (string * bool * list (Value number))%type.

Definition see_value (known : option FieldInfo) (kv : string * Value number) : FieldInfo :=
  let '(t, nullable, samples) := default (infer_json_type kv.2, false, []) known in
  let nullable := if is_null kv.2 then true else nullable in
  let samples := if (zlen samples <? 3) && negb (is_null kv.2) then samples ++ [kv.2] else samples in
  let t := if negb (bool_decide (t = infer_json_type kv.2)) && negb (is_null kv.2) then "unknown" else t in
  (t, nullable, samples).

Definition body_fields o : list (string * Value number) :=
  match from_str (ob_body o) with Some (JObject fields) => fields | _ => [] end.

Definition infer_fields (os : list MemoryObject) : list FieldSchema :=
  let field_map := foldl (fun g o => fold_by fst see_value g (body_fields o)) ∅ os in
  (fun f : string * FieldInfo => mkFieldSchema f.1 f.2.1.1 f.2.1.2 f.2.2) <$> btree_iter field_map.

Definition infer_collection e (options : SchemaOptions) (name : string) : option CollectionSchema :=
  let os := collection_objects e name in
  if bool_decide (length os = 0%nat) then None
  else Some (mkCollectionSchema name (zlen os) (infer_fields (take (Z.to_nat (default 50 (so_sample_size options))) os))).

Definition infer_schema e (collection : option string) (options : SchemaOptions) : thingd_result (list CollectionSchema) :=
  let collections := match collection with Some name => [name] | None => dedup (sort_strings (fst <$> btree_keys (objects e))) end in
  Ok (omap (infer_collection e options) collections).

(** ** Text search *)

Definition query_word (w : string) : string := collect_chars (List.filter (fun c => is_alphanumeric c.1) (str_chars (to_lowercase w))).
Definition query_words (query : string) : list string :=
  List.filter (fun w => negb (bool_decide (w = ""))) (query_word <$> split_whitespace query).

Definition listed (collections : option (list string)) (name : string) : bool :=
  match collections with Some l => bool_decide (name ∈ l) | None => true end.

Definition contains_words (words : list string) (text : string) : bool := forallb (str_contains text) words.

Definition object_text o : string := (ob_key o).1 +:+ " " +:+ (ob_key o).2 +:+ " " +:+ ob_body o.
Definition event_text (ev : MemoryEvent) : string := ev_stream ev +:+ " " +:+ ev_event_type ev +:+ " " +:+ ev_body ev.

Definition object_hit o : SearchHit :=
  mkHit "object" (ob_key o).1 (ob_key o).2 (ob_body o) (f64_of_u64 1) (ob_body o) (Some (ob_version o)) (ob_created_at o) (Some (ob_updated_at o)) None.
Definition event_hit (ev : MemoryEvent) : SearchHit :=
  mkHit "event" (ev_stream ev) (format_pad 1 (ev_sequence ev)) (ev_body ev) (f64_of_u64 1) (ev_body ev) None (ev_created_at ev) None (Some (ev_event_type ev)).

Definition search e (query : string) (options : SearchOptions) : thingd_result (list SearchHit) :=
  let words := query_words query in
  if bool_decide (length words = 0%nat) then Ok [] else
  let found_object o := listed (se_collections options) (ob_key o).1 && passes (se_filter options) (ob_body o)
                        && contains_words words (to_lowercase (object_text o)) in
  let found_event ev := listed (se_collections options) (ev_stream ev) && passes (se_filter options) (ev_body ev)
                        && contains_words words (to_lowercase (event_text ev)) in
  let hits := (object_hit <$> List.filter found_object (btree_values (objects e))) ++ (event_hit <$> List.filter found_event (events e)) in
  Ok (truncate (se_limit options) hits).

(** ** Vector search *)

Definition cosine_similarity (a b : list spec_float) : spec_float :=
  if negb (bool_decide (length a = length b)) || bool_decide (length a = 0%nat) then f64_zero else
  let dot := f32_sum ((fun p => f32_mul p.1 p.2) <$> zip a b) in
  let norm_a := f32_sqrt (f32_sum ((fun x => f32_mul x x) <$> a)) in
  let norm_b := f32_sqrt (f32_sum ((fun x => f32_mul x x) <$> b)) in
  if is_zero norm_a || is_zero norm_b then f64_zero else f64_from_f32 (f32_div dot (f32_mul norm_a norm_b)).

Definition dimension_error (query vec : list spec_float) : ThingdError :=
  InvalidInput ("query vector dimension " +:+ format_pad 1 (zlen query) +:+ " does not match stored vector dimension " +:+ format_pad 1 (zlen vec)).

(** One round of the loop over the vectors. *)
Definition vector_hit e (collection : string) (query : list spec_float) (filter : option (Value number))
    (hits : list VectorSearchHit) (entry : (string * string) * list spec_float) : thingd_result (list VectorSearchHit) :=
  let '((col, id), vec) := entry in
  if negb (bool_decide (col = collection)) then Ok hits else
  match objects e !! (col, id) with
  | None => Ok hits
  | Some o =>
      if negb (bool_decide (length vec = length query)) then Err (dimension_error query vec)
      else if negb (passes filter (ob_body o)) then Ok hits
      else Ok (hits ++ [mkVectorHit id (cosine_similarity query vec) o])
  end.

Definition by_score (a b : VectorSearchHit) : comparison := default Eq (f64_partial_cmp (vh_score b) (vh_score a)).

(** [hash_order] is the content of [vectors] in the order of iteration. *)
Definition vector_search (hash_order : list ((string * string) * list spec_float)) e (collection : string) (query : list spec_float)
    (options : VectorSearchOptions) : thingd_result (list VectorSearchHit) :=
  if bool_decide (length query = 0%nat) then Err (InvalidInput "query vector must not be empty") else
  hits ← fold_res (vector_hit e collection query (vo_filter options)) [] hash_order;
  Ok (truncate (vo_top_k options) (sort_by by_score hits)).

Definition add_vector e (collection id : string) (vector : list spec_float) : thingd_result unit * MemoryEngine :=
  (Ok (), set_objects e (objects e) (<[(collection, id) := vector]> (vectors e))).
Definition remove_vector e (collection id : string) : thingd_result unit * MemoryEngine :=
  (Ok (), set_objects e (objects e) (delete (collection, id) (vectors e))).
End analytics.

(** ** Grouping *)

Section grouping.
Context {A B : Type} (key : A -> string) (step : option B -> A -> B).

Lemma fold_by_lookup l : forall g k, fold_by key step g l !! k = foldl (fun b a => Some (step b a)) (g !! k) (with_key key k l).
Proof.
  induction l as [|a l IH]; intros g k; [done|]. unfold fold_by in *. cbn [foldl]. rewrite IH. unfold with_key. cbn [List.filter].
  case_bool_decide as Hk; cbn [foldl]; [by rewrite Hk, lookup_insert_eq|by rewrite lookup_insert_ne].
Qed.

Lemma fold_by_app l l' g : fold_by key step g (l ++ l') = fold_by key step (fold_by key step g l) l'.
Proof. apply foldl_app. Qed.

Lemma with_key_nil k l : with_key key k l = [] <-> k ∉ (key <$> l).
Proof.
  rewrite list_elem_of_fmap. split.
  - intros Hnil (a&->&Ha). assert (Hin : a ∈ with_key key (key a) l) by (apply elem_of_filter_bool; by rewrite bool_decide_eq_true). rewrite Hnil in Hin. by apply not_elem_of_nil in Hin.
  - intros Hno. destruct (with_key key k l) as [|a l'] eqn:Hl; [done|]. exfalso. apply Hno. exists a.
    assert (Hin : a ∈ with_key key k l) by (rewrite Hl; left). apply elem_of_filter_bool in Hin as [Ha Hin]. by rewrite bool_decide_eq_true in Hin.
Qed.
End grouping.

Lemma foldl_push {A} (l : list A) : forall g, foldl (fun b a => Some (push_group b a)) (Some g) l = Some (g ++ l).
Proof. induction l as [|a l IH]; intros g; cbn [foldl]; [by rewrite app_nil_r|]. rewrite IH. unfold push_group. cbn [default]. by rewrite <-app_assoc. Qed.

(** The group of a key holds the elements of that key, in order. *)
Lemma group_by_lookup {A} (key : A -> string) l k :
  group_by key l !! k = match with_key key k l with [] => None | g => Some g end.
Proof.
  unfold group_by. rewrite fold_by_lookup, lookup_empty. destruct (with_key key k l) as [|a g]; [done|]. cbn [foldl].
  unfold push_group at 2. cbn [default app]. by rewrite foldl_push.
Qed.

(** The distinct keys in order. *)
Definition distinct_keys {A} (key : A -> string) (l : list A) : list string := btree_keys (group_by key l).

Lemma elem_of_distinct_keys {A} (key : A -> string) l k : k ∈ distinct_keys key l <-> k ∈ (key <$> l).
Proof.
  unfold distinct_keys. rewrite elem_of_btree_keys, group_by_lookup. pose proof (with_key_nil key k l) as Hn. destruct (with_key key k l) as [|a g].
  - split; [by intros [? ?]|]. intros Hk. by apply Hn in Hk.
  - split; [|eauto]. intros _. destruct (decide (k ∈ (key <$> l))) as [?|Hno]; [done|]. by apply Hn in Hno.
Qed.

Lemma StronglySorted_names {A} (name : A -> string) l : StronglySorted key_lt (name <$> l) -> StronglySorted (fun x y => key_cmp (name x) (name y) = Lt) l.
Proof.
  induction l as [|x l IH]; intros Hs; [constructor|]. rewrite fmap_cons in Hs. apply StronglySorted_inv in Hs as [Hs Hall]. constructor; [by apply IH|].
  by rewrite Forall_fmap in Hall.
Qed.

(** Sorting the results of groups by their keys: the order of iteration of the map does not matter. *)
Lemma sorted_groups {A R} (key : A -> string) (l : list A) (f : string * list A -> R) (name : R -> string) order :
  (forall g, name (f g) = g.1) -> order ≡ₚ map_to_list (group_by key l) ->
  sort_by (fun a b => key_cmp (name a) (name b)) (f <$> order) = (fun k => f (k, with_key key k l)) <$> distinct_keys key l.
Proof.
  intros Hname Hord. set (m := group_by key l) in *. assert (Hnames : forall k, name <$> (f <$> k) = k.*1).
  { intros k. rewrite <-list_fmap_compose. apply list_fmap_ext. intros i g _. apply Hname. }
  transitivity (f <$> btree_iter m).
  - change (sort_by (by_name name) (f <$> order) = f <$> btree_iter m). rewrite (sort_unique name _ (f <$> btree_iter m)).
    + apply sort_by_id. pose proof (btree_keys_sorted m) as Hs. unfold btree_keys in Hs. rewrite <-(Hnames (btree_iter m)) in Hs.
      apply StronglySorted_names in Hs. eapply StronglySorted_impl_elem; [exact Hs|]. intros x y _ _ Hlt. unfold by_name. cbn beta in Hlt. by rewrite Hlt.
    + by rewrite Hord, btree_iter_perm.
    + rewrite Hnames, Hord. apply NoDup_fst_map_to_list.
  - unfold distinct_keys, btree_keys. rewrite <-list_fmap_compose. apply list_fmap_ext. intros i [k g] Hi.
    unfold compose. cbn [fst]. apply list_elem_of_lookup_2, elem_of_btree_iter in Hi. unfold m in Hi. rewrite group_by_lookup in Hi.
    destruct (with_key key k l); congruence.
Qed.

(** Every element is in exactly one group. *)
Lemma groups_partition {A} (key : A -> string) (l : list A) : l ≡ₚ concat ((fun k => with_key key k l) <$> distinct_keys key l).
Proof.
  assert (Hgen : forall ks, NoDup ks -> concat ((fun k => with_key key k l) <$> ks) ≡ₚ List.filter (fun a => bool_decide (key a ∈ ks)) l).
  { induction ks as [|k ks IH]; intros Hnd; [by rewrite filter_none by (intros; by apply bool_decide_eq_false, not_elem_of_nil)|].
    apply NoDup_cons in Hnd as [Hk Hnd]. rewrite fmap_cons. cbn [concat]. rewrite (IH Hnd). clear IH. induction l as [|a l' IHl]; [done|].
    unfold with_key in *. cbn [List.filter]. destruct (bool_decide_reflect (key a = k)) as [<-|Hne].
    - rewrite (bool_decide_false (key a ∈ ks)), (bool_decide_true (key a ∈ key a :: ks)) by (done || by left). cbn [app]. by rewrite IHl.
    - assert (Heq : bool_decide (key a ∈ k :: ks) = bool_decide (key a ∈ ks)) by (apply bool_decide_ext; rewrite elem_of_cons; naive_solver).
      rewrite Heq. destruct (bool_decide (key a ∈ ks)); [|done]. by rewrite <-Permutation_middle, IHl. }
  rewrite Hgen by apply btree_keys_NoDup. symmetry. rewrite filter_all; [done|]. intros a Ha. apply bool_decide_eq_true, elem_of_distinct_keys. by apply list_elem_of_fmap_2.
Qed.

Section theorems.
Context `{SerdeJson} `{Chrono} `{UnicodeTables}.
Implicit Types (e : MemoryEngine) (o : MemoryObject).

(** The objects of a query. *)
Definition aggregated e (collection : string) (options : AggregateOptions) : list MemoryObject :=
  List.filter (matches_fields (ao_filter options)) (collection_objects e collection).

(** Grouped aggregates.  Whatever order the hash map of groups is iterated in, an aggregate with
    a group field returns one result per value of the field, in order, each computed over exactly
    the matching objects with that value in the order of their keys, and every matching object of
    the collection counts in exactly one of them. *)
Theorem aggregate_groups_exact hash_order e collection options group_field :
  (forall m, hash_order m ≡ₚ map_to_list m) -> ao_group_by options = Some group_field ->
  let os := aggregated e collection options in
  let group k := with_key (fun o => extract_field_str (ob_body o) group_field) k os in
  let keys := distinct_keys (fun o => extract_field_str (ob_body o) group_field) os in
  (exists r, aggregate hash_order e collection options = Ok r /\
    ar_groups r = (fun k => mkGroup k (compute_aggregate (group k) (ao_function options) (ao_field options))) <$> keys) /\
  StronglySorted key_lt keys /\ os ≡ₚ concat (group <$> keys).
Proof.
  intros Hord Hg os group keys. split_and!; [|apply btree_keys_sorted|apply groups_partition]. unfold aggregate. rewrite Hg. fold (aggregated e collection options). fold os.
  eexists. split; [reflexivity|]. cbn [ar_groups].
  exact (sorted_groups _ os (fun g => mkGroup g.1 (compute_aggregate g.2 (ao_function options) (ao_field options))) gr_key _ (fun g => eq_refl) (Hord _)).
Qed.

(** A time series has one bucket per label, in order, over the objects in its range. *)
Lemma timeseries_exact hash_order e collection options :
  (forall m, hash_order m ≡ₚ map_to_list m) ->
  let os := List.filter (fun o => in_range (ts_from options) (ts_to options) (ob_created_at o))
              (List.filter (matches_fields (ts_filter options)) (collection_objects e collection)) in
  let label o := format_timestamp (ob_created_at o) (strftime_format (ts_bucket options)) in
  timeseries hash_order e collection options
  = Ok (mkTimeSeries ((fun k => mkTimeBucket k (compute_aggregate (with_key label k os) (ts_function options) (ts_field options))) <$> distinct_keys label os)).
Proof.
  intros Hord os label. unfold timeseries. do 2 f_equal.
  exact (sorted_groups label os (fun g => mkTimeBucket g.1 (compute_aggregate g.2 (ts_function options) (ts_field options))) tb_label _ (fun g => eq_refl) (Hord _)).
Qed.

(** ** Inferred fields *)

(** The values of a field in the sampled objects, in order. *)
Definition values_of (name : string) (os : list MemoryObject) : list (Value number) := snd <$> with_key fst name (os ≫= body_fields).

Definition present (vs : list (Value number)) : list (Value number) := List.filter (fun v => negb (is_null v)) vs.

(** The type of the first value, unless a value that is not null has another type. *)
Definition common_type (vs : list (Value number)) : string :=
  match vs with
  | [] => "unknown"
  | v :: _ => if forallb (fun w => bool_decide (infer_json_type w = infer_json_type v)) (present vs) then infer_json_type v else "unknown"
  end.

Definition field_info (vs : list (Value number)) : string * bool * list (Value number) := (common_type vs, existsb is_null vs, take 3 (present vs)).

Lemma present_snoc vs v : present (vs ++ [v]) = present vs ++ (if is_null v then [] else [v]).
Proof. unfold present. rewrite List.filter_app. cbn. by destruct (is_null v). Qed.

Lemma common_type_snoc vs v : vs <> [] ->
  common_type (vs ++ [v]) = (if negb (bool_decide (common_type vs = infer_json_type v)) && negb (is_null v) then "unknown" else common_type vs).
Proof.
  destruct vs as [|w vs]; [done|]. intros _. unfold common_type. rewrite <-app_comm_cons, app_comm_cons, present_snoc.
  destruct (is_null v); [by rewrite app_nil_r, andb_false_r|]. rewrite forallb_app. cbn [forallb negb]. rewrite !andb_true_r.
  destruct (forallb _ (present (w :: vs))); cbn [andb].
  - rewrite (bool_decide_ext (infer_json_type v = infer_json_type w) (infer_json_type w = infer_json_type v)) by done. by destruct (bool_decide _).
  - by destruct (bool_decide _).
Qed.

Lemma see_value_snoc vs k v : vs <> [] -> see_value (Some (field_info vs)) (k, v) = field_info (vs ++ [v]).
Proof.
  intros Hvs. unfold see_value, field_info. cbn [default snd]. rewrite common_type_snoc by done. f_equal; [f_equal|].
  - rewrite existsb_app. cbn. rewrite orb_false_r. destruct (is_null v); [by rewrite orb_true_r|by rewrite orb_false_r].
  - rewrite present_snoc. destruct (is_null v); cbn [negb]; [by rewrite andb_false_r, app_nil_r|]. rewrite andb_true_r.
    destruct (decide (3 <= length (present vs))%nat) as [Hge|Hlt].
    + rewrite take_app_le by done. rewrite (proj2 (Z.ltb_ge _ _)); [done|]. rewrite length_take. lia.
    + rewrite !take_ge by (rewrite ?length_app; cbn; lia). rewrite (proj2 (Z.ltb_lt _ _)); [done|]. lia.
Qed.

Lemma see_values l : l <> [] -> foldl (fun b a => Some (see_value b a)) None l = Some (field_info (snd <$> l)).
Proof.
  induction l as [|[k v] l IH] using rev_ind; [done|]. intros _. rewrite foldl_app, fmap_app. cbn [foldl fmap list_fmap].
  destruct (decide (l = [])) as [->|Hne].
  - cbn. unfold see_value, field_info, common_type, present. cbn. destruct (is_null v) eqn:Hn; cbn; rewrite ?bool_decide_true by done; done.
  - rewrite (IH Hne), see_value_snoc; [done|]. by destruct l.
Qed.

Lemma btree_keys_dom {B C} (m : gmap string B) (m' : gmap string C) : (forall k, is_Some (m !! k) <-> is_Some (m' !! k)) -> btree_keys m = btree_keys m'.
Proof.
  intros Hdom. apply (StronglySorted_unique_strong key_lt).
  - intros x y _ _ Hx Hy. exfalso. apply (key_lt_irrefl x). by eapply key_lt_trans.
  - apply btree_keys_sorted.
  - apply btree_keys_sorted.
  - apply NoDup_Permutation; [apply btree_keys_NoDup..|]. intros k. by rewrite !elem_of_btree_keys.
Qed.

(** C38. Schema inference.  The fields inferred from a sample are the names that occur in it, in
    order; the type of a field is that of its first value when every value that is not null has
    that type and unknown otherwise, and its samples are the first three values that are not
    null.  A field is nullable exactly when one of the values it has in the sample is null:
    objects of the sample that lack the field do not count, although the documentation of
    [FieldSchema::nullable] says absent or null ([absent_field_not_nullable]). *)
Theorem inferred_fields_exact os :
  infer_fields os = (fun name => let vs := values_of name os in mkFieldSchema name (common_type vs) (existsb is_null vs) (take 3 (present vs)))
                    <$> distinct_keys fst (os ≫= body_fields).
Proof.
  unfold infer_fields. assert (Hfold : forall g, foldl (fun g o => fold_by fst see_value g (body_fields o)) g os = fold_by fst see_value g (os ≫= body_fields)).
  { induction os as [|o os' IH]; intros g; [done|]. cbn [foldl mbind list_bind]. by rewrite IH, fold_by_app. }
  rewrite Hfold. set (l := os ≫= body_fields). set (m := fold_by fst see_value ∅ l).
  assert (Hm : forall k, m !! k = match with_key fst k l with [] => None | _ => Some (field_info (values_of k os)) end).
  { intros k. unfold m. rewrite fold_by_lookup, lookup_empty. unfold values_of. fold l. destruct (with_key fst k l) as [|a g] eqn:Hl; [done|]. by rewrite <-Hl, see_values by (by rewrite Hl). }
  unfold distinct_keys. rewrite <-(btree_keys_dom m).
  - unfold btree_keys. rewrite <-list_fmap_compose. apply list_fmap_ext. intros i [k info] Hi. apply list_elem_of_lookup_2, elem_of_btree_iter in Hi.
    rewrite Hm in Hi. destruct (with_key fst k l); [done|]. by injection Hi as <-.
  - intros k. rewrite Hm, group_by_lookup. by destruct (with_key fst k l).
Qed.

(** ** Ranked vectors *)

Lemma sort_by_ext {A} (cmp cmp' : A -> A -> comparison) l :
  (forall x y, x ∈ l -> y ∈ l -> cmp x y = cmp' x y) -> sort_by cmp l = sort_by cmp' l.
Proof.
  induction l as [|x l IH]; intros Hext; [done|]. change (insert_by cmp x (sort_by cmp l) = insert_by cmp' x (sort_by cmp' l)).
  rewrite IH by (intros; apply Hext; by right). assert (Hin : forall y, y ∈ sort_by cmp' l -> cmp x y = cmp' x y).
  { intros y Hy%elem_of_sort_by. apply Hext; [left|by right]. }
  clear -Hin. induction (sort_by cmp' l) as [|y k IHk]; [done|]. cbn [insert_by]. rewrite (Hin y) by left. rewrite IHk; [done|]. intros z Hz. apply Hin. by right.
Qed.

(** The object and the score of a stored vector, when it counts. *)
Definition candidate e (collection : string) (query : list spec_float) (filter : option (Value number))
    (entry : (string * string) * list spec_float) : option VectorSearchHit :=
  let '((col, id), vec) := entry in
  if bool_decide (col = collection) then
    o ← objects e !! (col, id);
    if passes filter (ob_body o) then Some (mkVectorHit id (cosine_similarity query vec) o) else None
  else None.

Lemma vector_hits_candidates e collection query filter order : forall hits,
  Forall (fun entry => entry.1.1 = collection -> is_Some (objects e !! entry.1) -> length entry.2 = length query) order ->
  fold_res (vector_hit e collection query filter) hits order = Ok (hits ++ omap (candidate e collection query filter) order).
Proof.
  induction order as [|[[col id] vec] order IH]; intros hits Hdim; [by rewrite app_nil_r|]. apply Forall_cons in Hdim as [Hd Hdim].
  assert (Hstep : vector_hit e collection query filter hits ((col, id), vec) = Ok (hits ++ option_list (candidate e collection query filter ((col, id), vec)))).
  { unfold vector_hit, candidate. destruct (bool_decide_reflect (col = collection)) as [->|Hne]; cbn [negb]; [|by rewrite app_nil_r].
    destruct (objects e !! (collection, id)) as [o|] eqn:Ho; [|by rewrite app_nil_r]. rewrite bool_decide_true by (apply Hd; cbn; eauto).
    cbn. destruct (passes filter (ob_body o)); cbn; [done|by rewrite app_nil_r]. }
  cbn [fold_res]. rewrite Hstep, bind_Ok, IH, <-app_assoc by done. cbn [omap list_omap]. by destruct (candidate _ _ _ _ _).
Qed.

Definition ranked (hits : list VectorSearchHit) : Prop := StronglySorted (fun a b => f64_ge (vh_score a) (vh_score b) = true) hits.

Lemma by_score_ranked hits : Forall (fun h => is_nan (vh_score h) = false) hits -> ranked (sort_by by_score hits).
Proof.
  intros Hn. rewrite Forall_forall in Hn. set (cmp := fun a b => key_cmp (float_rank (vh_score b)) (float_rank (vh_score a))).
  assert (Hcmp : forall x y, x ∈ hits -> y ∈ hits -> by_score x y = cmp x y).
  { intros x y Hx Hy. unfold by_score, f64_partial_cmp. by rewrite SFcompare_rank by (by apply Hn). }
  rewrite (sort_by_ext by_score cmp) by done. eapply StronglySorted_impl_elem.
  - apply (sort_by_sorted cmp).
  - intros x y Hx%elem_of_sort_by Hy%elem_of_sort_by Hle. unfold f64_ge. rewrite SFcompare_rank by (by apply Hn).
    unfold cmp in Hle. unfold float_cmp. rewrite key_cmp_antisym. by destruct (key_cmp (float_rank (vh_score y)) _).
Qed.

(** Vector search.  When the stored vectors of the collection have the dimension of the query and
    no score is NaN, the search succeeds whatever order the vectors are iterated in: it finds
    exactly the stored objects with a vector that pass the filter, each with its similarity,
    ranked from the highest score down, and returns the first [top_k] of them. *)
Theorem vector_search_ranked order e collection query options :
  order ≡ₚ map_to_list (vectors e) -> query <> [] ->
  (forall id vec, vectors e !! (collection, id) = Some vec -> is_Some (objects e !! (collection, id)) ->
     length vec = length query /\ is_nan (cosine_similarity query vec) = false) ->
  exists hits, vector_search order e collection query options = Ok (truncate (vo_top_k options) hits) /\ ranked hits /\
    (forall h, h ∈ hits <-> exists id vec o, vectors e !! (collection, id) = Some vec /\ objects e !! (collection, id) = Some o /\
       passes (vo_filter options) (ob_body o) = true /\ h = mkVectorHit id (cosine_similarity query vec) o).
Proof.
  intros Hord Hq Hvec. unfold vector_search. rewrite bool_decide_false by (by destruct query).
  assert (Hin : forall k vec, (k, vec) ∈ order <-> vectors e !! k = Some vec) by (intros; by rewrite Hord, elem_of_map_to_list).
  rewrite vector_hits_candidates, bind_Ok.
  2: { apply Forall_forall. intros [[col id] vec] Hentry%Hin. cbn [fst snd]. intros -> Ho. by destruct (Hvec _ _ Hentry Ho). }
  cbn [app]. set (hits := omap _ order). assert (Hiff : forall h, h ∈ hits <-> exists id vec o, vectors e !! (collection, id) = Some vec /\ objects e !! (collection, id) = Some o /\
       passes (vo_filter options) (ob_body o) = true /\ h = mkVectorHit id (cosine_similarity query vec) o).
  { intros h. unfold hits. rewrite list_elem_of_omap. split.
    - intros ([[col id] vec]&Hentry%Hin&Hc). unfold candidate in Hc. case_bool_decide as Hcol; [|done]. subst col.
      destruct (objects e !! (collection, id)) as [o|] eqn:Ho; [|done]. cbn in Hc. destruct (passes _ _) eqn:Hp; [|done]. injection Hc as <-. eauto 8.
    - intros (id&vec&o&Hv&Ho&Hp&->). exists ((collection, id), vec). split; [by apply Hin|]. unfold candidate. rewrite bool_decide_true, Ho by done. cbn. by rewrite Hp. }
  exists (sort_by by_score hits). split_and!; [done| |intros h; by rewrite elem_of_sort_by].
  apply by_score_ranked, Forall_forall. intros h (id&vec&o&Hv&Ho&_&->)%Hiff. cbn [vh_score]. by destruct (Hvec _ _ Hv ltac:(eauto)).
Qed.
End theorems.

(** ** Samples *)

(** Bodies: a number, or an object whose only field [f] is the text after a marker. *)
Definition sample_body (s : string) : option (Value Z) :=
  match str_bytes s with
  | 110 :: ds => Some (JObject [("f", JNumber (digits_value ds))])
  | 115 :: t => Some (JObject [("f", JString (bytes_str t))])
  | 48 :: _ => Some (JObject [("f", JNull)])
  | _ => None
  end.

Definition analytics_json : SerdeJson := {|
  number := Z; as_f64 n := Some (f64_of_u64 n); from_str := sample_body;
  display_value v := match v with JNumber n => format_pad 1 n | _ => "null" end;
|}.
Definition no_dates : Chrono := {|
  DateTime := unit; parse_from_rfc3339 _ := None; parse_datetime_utc _ := None; with_timezone_utc d := d; format_datetime _ _ := ""; timestamp_millis _ := 0;
|}.
#[local] Existing Instance analytics_json.
#[local] Existing Instance no_dates.
#[local] Existing Instance ascii_tables.

Definition sample_object (id body : string) : MemoryObject := mkObject ("c", id) body 1 "t" "t" None.
Definition sample_objects (bodies : list (string * string)) : gmap ObjectKey MemoryObject :=
  list_to_map ((fun p => (("c", p.1), sample_object p.1 p.2)) <$> bodies).
Definition sample_analytics : MemoryEngine :=
  set_objects new_engine (sample_objects [("1", "n4"); ("2", "sx"); ("3", "n4"); ("4", "s7")])
    {[("c", "1") := [f64_of_u64 1; f64_of_u64 0]; ("c", "3") := [f64_of_u64 1; f64_of_u64 1]]}.

Definition field_facts (f : FieldSchema) : string * string * bool * list (Value Z) :=
  (fs_name f, fs_field_type f, fs_nullable f, fs_sample_values f).

Lemma inferred_fields_exact_witness :
  field_facts <$> infer_fields [sample_object "1" "n4"; sample_object "2" "0"; sample_object "3" "n5"] = [("f", "number", true, [JNumber 4; JNumber 5])].
Proof. rewrite inferred_fields_exact. vm_compute. reflexivity. Defined.

(** The third object has no field at all; the field is not nullable. *)
Example absent_field_not_nullable :
  field_facts <$> infer_fields [sample_object "1" "n4"; sample_object "2" "n5"; sample_object "3" ""] = [("f", "number", false, [JNumber 4; JNumber 5])].
Proof. vm_compute. reflexivity. Qed.

Definition f32_of (z : Z) : spec_float := binary_normalize 24 128 z 0 false.

Lemma aggregate_groups_exact_witness :
  let options := mkAggregateOptions [] (Some "f") Count None in
  ar_groups <$> aggregate map_to_list sample_analytics "c" options
  = Ok [mkGroup "4" (f64_of_u64 2); mkGroup "7" (f64_of_u64 1); mkGroup "x" (f64_of_u64 1)] /\
  let os := aggregated sample_analytics "c" options in
  let group k := with_key (fun o => extract_field_str (ob_body o) "f") k os in
  let keys := distinct_keys (fun o => extract_field_str (ob_body o) "f") os in
  (exists r, aggregate map_to_list sample_analytics "c" options = Ok r /\
    ar_groups r = (fun k => mkGroup k (compute_aggregate (group k) Count None)) <$> keys) /\
  StronglySorted key_lt keys /\ os ≡ₚ concat (group <$> keys).
Proof.
  split; [vm_compute; reflexivity|]. apply (aggregate_groups_exact map_to_list sample_analytics "c" (mkAggregateOptions [] (Some "f") Count None) "f"); done.
Defined.

Definition sample_query : list spec_float := [f32_of 1; f32_of 0].
Definition sample_vectors : MemoryEngine :=
  set_objects new_engine (sample_objects [("1", "n4"); ("3", "n4")]) {[("c", "1") := [f32_of 1; f32_of 1]; ("c", "3") := [f32_of 2; f32_of 0]]}.

Lemma sample_scores id vec : vectors sample_vectors !! ("c", id) = Some vec -> is_Some (objects sample_vectors !! ("c", id)) ->
  length vec = length sample_query /\ is_nan (cosine_similarity sample_query vec) = false.
Proof.
  unfold sample_vectors. cbn [vectors set_objects]. intros Hv _. destruct (decide (id = "1")) as [->|H1]; [|destruct (decide (id = "3")) as [->|H3]].
  - rewrite lookup_insert_eq in Hv. injection Hv as <-. split; vm_compute; reflexivity.
  - rewrite lookup_insert_ne, lookup_singleton_eq in Hv by congruence. injection Hv as <-. split; vm_compute; reflexivity.
  - rewrite lookup_insert_ne, lookup_singleton_ne in Hv by congruence. done.
Qed.

Lemma vector_search_ranked_witness :
  let options := mkVectorOptions (Some 1) None in
  let order := map_to_list (vectors sample_vectors) in
  ((fun hits : list VectorSearchHit => vh_id <$> hits) <$> vector_search order sample_vectors "c" sample_query options) = Ok ["3"]%list /\
  exists hits, vector_search order sample_vectors "c" sample_query options = Ok (truncate (Some 1) hits) /\ ranked hits /\
    (forall h, h ∈ hits <-> exists id vec o, vectors sample_vectors !! ("c", id) = Some vec /\ objects sample_vectors !! ("c", id) = Some o /\
       passes None (ob_body o) = true /\ h = mkVectorHit id (cosine_similarity sample_query vec) o).
Proof.
  split; [vm_compute; reflexivity|].
  apply (vector_search_ranked (map_to_list (vectors sample_vectors)) sample_vectors "c" sample_query (mkVectorOptions (Some 1) None)); [done|done|apply sample_scores].
Defined.

(** A score outside the documented range: the squares of large components overflow [f32]. *)
Lemma cosine_not_a_number : cosine_similarity [f32_of (10 ^ 20)] [f32_of (10 ^ 20)] = S754_nan.
Proof. vm_compute. reflexivity. Qed.

(** Punctuation is removed from the query but not from the text that is searched. *)
Lemma hyphenated_word_not_found :
  let e := set_objects new_engine (sample_objects [("1", "sleft-right")]) ∅ in
  search e "left-right" (mkSearchOptions None None None) = Ok [] /\
  ((fun hits : list SearchHit => sh_id <$> hits) <$> search e "left" (mkSearchOptions None None None)) = Ok ["1"].
Proof. split; vm_compute; reflexivity. Qed.

(** A field that is null in the first sampled object is reported as unknown. *)
Lemma null_first_unknown :
  fs_field_type <$> infer_fields [sample_object "1" "0"; sample_object "2" "n1"; sample_object "3" "n2"] = ["unknown"] /\
  fs_field_type <$> infer_fields [sample_object "1" "n1"; sample_object "2" "0"; sample_object "3" "n2"] = ["number"].
Proof. split; vm_compute; reflexivity. Qed.
