(* ===== verification/PAnalytics.v ===== *)
(** * thingd: search and analytics of the persistent engine

    Models [AggregateStore], the fallback search [search_naive] and the inference of collection
    schemas for [PersistentEngine] ([crates/thingd/src/persistent.rs]), which has its own copies of
    the helper functions of the in-memory engine, and compares the two. *)

From S2P Require Import Prelude Wal Table Layer Database ThingDb Keyspace RamScan Model Objects Storage RustStd Analytics Persistent PSample PStore PQueue PEvents PObjects PObjectSpec PObjectCache PObjectPut PObjectWrite PObjectTheorems.
From Stdlib Require Import SpecFloat.

Section analytics.
Context `{Kv D} `{SerdeJson} `{Chrono} `{UnicodeTables} {vector_ok : list spec_float -> Prop}.
Context `{!Serde MemoryObject (object_wt vector_ok)} `{!Serde MemoryEvent event_wt}.
Implicit Types (e : PersistentEngine D) (o : MemoryObject).

(** ** Helpers *)

Definition pe_matches_filter_memory (body_str : string) (filter : Value number) : bool :=
  match from_str body_str with
  | None => false
  | Some body => match filter with JObject fields => forallb (field_matches body) fields | _ => false end
  end.

Definition pe_extract_field_str (body_str field : string) : string :=
  match (body ← from_str body_str; value_get body field) with
  | Some (JString s) => s
  | Some v => display_value v
  | None => ""
  end.

Definition value_as_f64 (v : Value number) : option spec_float := match v with JNumber n => as_f64 n | _ => None end.

Definition numeric_field (field : string) o : option spec_float :=
  body ← from_str (ob_body o); v ← value_get body field; value_as_f64 v.

Definition aggregate_values (function : AggregateFunction) (values : list spec_float) : spec_float :=
  match function with
  | Sum => f64_sum values
  | Avg => average values
  | Min => foldl f64_min f64_MAX values
  | Max => foldl f64_max f64_NEG_INFINITY values
  | Count => f64_of_u64 (zlen values)
  end.

Definition pe_compute_aggregate (os : list MemoryObject) (function : AggregateFunction) (field : option string) : spec_float :=
  if bool_decide (function = Count) then f64_of_u64 (zlen os)
  else aggregate_values function (omap (fun o => f ← field; numeric_field f o) os).

Definition pe_infer_json_type (value : Value number) : string :=
  match value with
  | JNull => "null"
  | JBool _ => "boolean"
  | JNumber _ => "number"
  | JString s => if bool_decide (is_Some (parse_datetime_utc s)) then "date" else "string"
  | JArray _ => "array"
  | JObject _ => "object"
  end.

Definition bucket_label_for_date (iso_date : string) (bucket : TimeBucket) : string :=
  match parse_from_rfc3339 iso_date with
  | Some dt => format_datetime dt match bucket with
                                  | Hour => "%Y-%m-%dT%H:00:00Z"
                                  | Day => "%Y-%m-%d"
                                  | Week => "%Y-W%V"
                                  | Month => "%Y-%m"
                                  end
  | None => iso_date
  end.

(** ** Aggregates *)

Definition by_group_value (a b : AggregateGroupResult) : comparison := default Eq (f64_partial_cmp (gr_value b) (gr_value a)).

Definition pe_aggregate (hash_order : gmap string (list MemoryObject) -> list (string * list MemoryObject)) e
    (collection : string) (options : AggregateOptions) : thingd_result AggregateResult :=
  os ← read_objects (pe_codec e) (kv_prefix (pe_db e) "objects" (make_object_prefix (pe_codec e) collection));
  let os := List.filter (matches_fields (ao_filter options)) os in
  match ao_group_by options with
  | Some group_field =>
      let groups := group_by (fun o => pe_extract_field_str (ob_body o) group_field) os in
      let results := (fun g => mkGroup g.1 (pe_compute_aggregate g.2 (ao_function options) (ao_field options))) <$> hash_order groups in
      let results := sort_by by_group_value results in
      Ok (mkAggregate (f64_sum (gr_value <$> results)) results)
  | None => Ok (mkAggregate (pe_compute_aggregate os (ao_function options) (ao_field options)) [])
  end.

(** ** Time series *)

(** What an object adds to its bucket, if it counts. *)
Definition bucket_value (options : TimeSeriesOptions) o : option (string * spec_float) :=
  if negb (matches_fields (ts_filter options) o) then None else
  let label := bucket_label_for_date (ob_created_at o) (ts_bucket options) in
  if match ts_from options with Some from => bool_decide (key_cmp label from = Lt) | None => false end then None else
  if match ts_to options with Some to => bool_decide (key_cmp label to = Gt) | None => false end then None else
  if bool_decide (ts_function options = Count) then Some (label, f64_of_u64 1) else
  field ← ts_field options; v ← numeric_field field o; Some (label, v).

Definition pe_timeseries (hash_order : gmap string (list (string * spec_float)) -> list (string * list (string * spec_float))) e
    (collection : string) (options : TimeSeriesOptions) : thingd_result TimeSeriesResult :=
  os ← read_objects (pe_codec e) (kv_prefix (pe_db e) "objects" (make_object_prefix (pe_codec e) collection));
  let bucket_map := group_by fst (omap (bucket_value options) os) in
  let buckets := (fun g => mkTimeBucket g.1 (aggregate_values (ts_function options) g.2.*2)) <$> hash_order bucket_map in
  Ok (mkTimeSeries (sort_by by_label buckets)).

(** ** Schema inference *)

Definition pe_see_value (known : option (string * list (Value number))) (kv : string * Value number) : string * list (Value number) :=
  let '(t, samples) := default ("unknown", []) known in
  let seen := pe_infer_json_type kv.2 in
  let t := if bool_decide (t = "unknown") then seen else if negb (bool_decide (t = seen)) then "string" else t in
  let samples := if negb (is_null kv.2) && (zlen samples <? 3) then samples ++ [kv.2] else samples in
  (t, samples).

(** The fields are collected in a hash map and then sorted by name. *)
Definition pe_infer_fields (os : list MemoryObject) : list FieldSchema :=
  let field_types := foldl (fun g o => fold_by fst pe_see_value g (body_fields o)) ∅ os in
  (fun f : string * (string * list (Value number)) => mkFieldSchema f.1 f.2.1 false f.2.2) <$> btree_iter field_types.

Definition pe_infer_collection e (sample_size : Z) (col : string) : thingd_result CollectionSchema :=
  let entries := kv_prefix (pe_db e) "objects" (make_object_prefix (pe_codec e) col) in
  os ← read_objects (pe_codec e) (take (Z.to_nat sample_size) entries);
  Ok (mkCollectionSchema col (zlen entries) (pe_infer_fields os)).

Definition pe_infer_schema e (collection : option string) (options : SchemaOptions) : thingd_result (list CollectionSchema) :=
  collections ← match collection with Some c => Ok [c] | None => pe_list_collections e end;
  map_res (pe_infer_collection e (default 50 (so_sample_size options))) collections.

(** ** Fallback search *)

(** [char::is_alphanumeric] characters of the lower-case text, others as spaces. *)
Definition normalize_search_text (text : string) : string :=
  collect_chars ((fun c => if is_alphanumeric c.1 then c else (32, [32])) <$> str_chars (to_lowercase text)).

Definition naive_words (query : string) : list string :=
  List.filter (fun w => negb (bool_decide (w = ""))) (normalize_search_text <$> split_whitespace query).

Definition pe_passes (filter : option (Value number)) (body : string) : bool :=
  match filter with Some f => pe_matches_filter_memory body f | None => true end.

Definition search_naive e (query : string) (options : SearchOptions) : thingd_result (list SearchHit) :=
  let words := naive_words query in
  if bool_decide (length words = 0%nat) then Ok [] else
  os ← read_objects (pe_codec e) (kv_iter (pe_db e) "objects");
  evs ← map_res (fun kv => deserialize (pe_codec e) kv.2) (kv_iter (pe_db e) "events");
  let found_object o := listed (se_collections options) (ob_key o).1 && pe_passes (se_filter options) (ob_body o)
                        && contains_words words (normalize_search_text (object_text o)) in
  let found_event ev := listed (se_collections options) (ev_stream ev) && pe_passes (se_filter options) (ev_body ev)
                        && contains_words words (normalize_search_text (event_text ev)) in
  let hits := (object_hit <$> List.filter found_object os) ++ (event_hit <$> List.filter found_event evs) in
  Ok (truncate (se_limit options) hits).
End analytics.

(** Numbers of [serde_json] are finite. *)
Class FiniteNumbers `{SerdeJson} : Prop :=
  finite_number n x : as_f64 n = Some x -> is_nan x = false /\ float_cmp x f64_MAX <> Gt.

(** ** The two engines *)

Section agreement.
Context `{KvLaws D} `{SerdeJson} `{!FiniteNumbers} {vector_ok : list spec_float -> Prop}.
Context `{!Serde MemoryObject (object_wt vector_ok)} `{!ReadMetadata} `{!Serde IndexDefinition index_wt}.
Implicit Types (e : PersistentEngine D) (m : MemoryEngine) (o : MemoryObject).

Lemma read_collection e m collection : object_sim (vector_ok := vector_ok) e m -> no_nul collection ->
  read_objects (pe_codec e) (kv_prefix (pe_db e) "objects" (make_object_prefix (pe_codec e) collection)) = Ok (collection_objects m collection).
Proof.
  intros Hs Hc. destruct Hs as [Hcodec Hkv Hst _ _ _]. rewrite Hcodec, (collection_entries e _ _ Hkv Hst) by done.
  rewrite read_objects_pairs by (eapply sublist_all; [apply filter_sublist|by eapply objects_typed]).
  f_equal. unfold collection_objects. apply filter_ext. intros o. cbn. rewrite orb_false_r. by apply bool_decide_ext.
Qed.

Lemma extract_field_str_same body field : pe_extract_field_str body field = extract_field_str body field.
Proof. unfold pe_extract_field_str, extract_field_str. by destruct (from_str body). Qed.

Lemma numeric_extract field o : is_Some (numeric_field field o) -> extract_field_f64 (ob_body o) field = numeric_field field o.
Proof.
  unfold numeric_field, extract_field_f64. destruct (from_str (ob_body o)) as [body|]; cbn; [|done].
  destruct (value_get body field) as [[]|]; cbn; try done; by intros [].
Qed.

Lemma numeric_finite field o x : numeric_field field o = Some x -> is_nan x = false /\ float_cmp x f64_MAX <> Gt.
Proof.
  unfold numeric_field. destruct (from_str (ob_body o)) as [body|]; cbn; [|done]. destruct (value_get body field) as [[]|]; cbn; try done. apply finite_number.
Qed.

Lemma min_starts x : is_nan x = false -> float_cmp x f64_MAX <> Gt -> f64_min f64_MAX x = f64_min f64_INFINITY x.
Proof.
  intros Hn Hle. unfold f64_min. cbn [is_nan f64_MAX f64_INFINITY]. rewrite !SFcompare_rank by done.
  destruct (float_cmp x f64_MAX) eqn:Hc; [| |done].
  - unfold float_cmp in Hc. apply key_cmp_eq in Hc. destruct x as [s|[]| |[] mm ee]; try done. cbn in Hc. by injection Hc as -> ->.
  - destruct x as [s|[]| |[] mm ee]; done.
Qed.

(** Over objects that carry a number under the field the two computations agree, but for the
    minimum of nothing. *)
Lemma compute_aggregate_same os function field :
  function = Count \/ (exists f, field = Some f /\ Forall (fun o => is_Some (numeric_field f o)) os) -> (function = Min -> os <> []) ->
  pe_compute_aggregate os function field = compute_aggregate os function field.
Proof.
  intros Hf Hmin. unfold pe_compute_aggregate. destruct (bool_decide_reflect (function = Count)) as [->|Hne]; [done|].
  destruct Hf as [?|(f&->&Hnum)]; [done|]. unfold compute_aggregate. change (default "" (Some f)) with f. cbv zeta. cbn [mbind option_bind].
  assert (Hvals : omap (fun o => extract_field_f64 (ob_body o) f) os = omap (fun o => numeric_field f o) os).
  { clear Hmin. induction Hnum as [|o os Ho _ IH]; [done|]. cbn [omap list_omap]. by rewrite numeric_extract, IH. }
  rewrite Hvals. destruct function; try done. cbn [aggregate_values]. destruct os as [|o os]; [by destruct (Hmin eq_refl)|].
  apply Forall_cons in Hnum as [[x Hx] _]. cbn [omap list_omap]. rewrite Hx. cbn [foldl]. destruct (numeric_finite _ _ _ Hx). by rewrite min_starts.
Qed.

Lemma group_by_ext {A} (key key' : A -> string) l : (forall a, key a = key' a) -> group_by key l = group_by key' l.
Proof.
  intros Hk. unfold group_by, fold_by. generalize (∅ : gmap string (list A)). induction l as [|a l IH]; intros g; [done|]. cbn [foldl]. by rewrite Hk, IH.
Qed.

(** C37. Aggregates of the persistent engine.  On the same objects, and when the aggregate is a count or
    every matching object carries a number under the field, the persistent engine computes the
    aggregate of the in-memory engine: the same total, or with a group field the same groups, which
    it orders by value instead of by key.  The minimum of no objects is excluded. *)
Theorem persistent_aggregate_agrees hash_order hash_order' e m collection options :
  object_sim (vector_ok := vector_ok) e m -> no_nul collection ->
  (forall g, hash_order g ≡ₚ map_to_list g) -> (forall g, hash_order' g ≡ₚ map_to_list g) ->
  (ao_function options = Count \/ exists f, ao_field options = Some f /\ Forall (fun o => is_Some (numeric_field f o)) (aggregated m collection options)) ->
  (ao_function options = Min -> aggregated m collection options <> []) ->
  exists r r', aggregate hash_order m collection options = Ok r /\ pe_aggregate hash_order' e collection options = Ok r' /\
    ar_groups r' ≡ₚ ar_groups r /\ (ao_group_by options = None -> r' = r).
Proof.
  intros Hs Hc Hord Hord' Hf Hmin. unfold pe_aggregate. rewrite (read_collection e m) by done. rewrite bind_Ok. unfold aggregate.
  fold (aggregated m collection options). set (os := aggregated m collection options) in *. destruct (ao_group_by options) as [g|].
  - do 2 eexists. split_and!; [reflexivity|reflexivity| |done]. cbn [ar_groups]. rewrite !sort_by_perm.
    rewrite (group_by_ext _ (fun o => extract_field_str (ob_body o) g)) by (intros; apply extract_field_str_same).
    rewrite Hord, Hord'. match goal with |- ?a ≡ₚ ?b => assert (Heq : a = b); [|by rewrite Heq] end. apply list_fmap_ext. intros i [k l] Hl. apply list_elem_of_lookup_2, elem_of_map_to_list in Hl.
    rewrite group_by_lookup in Hl. cbn [fst snd]. f_equal. destruct (with_key _ k os) as [|x xs] eqn:Hw; [done|]. injection Hl as <-.
    apply compute_aggregate_same; [|done]. destruct Hf as [Hcount|(f&Hfield&Hnum)]; [by left|]. right. exists f. split; [done|].
    rewrite <-Hw. eapply sublist_all; [apply filter_sublist|done].
  - do 2 eexists. split_and!; [reflexivity|reflexivity|done|]. intros _. by rewrite compute_aggregate_same.
Qed.
End agreement.

(** ** Samples *)

#[local] Existing Instance sample_crc32.
#[local] Existing Instance sample_codec.
#[local] Existing Instance email_json.
#[local] Existing Instance email_display.
#[local] Existing Instance sample_serde_object.
#[local] Existing Instance sample_metadata.
#[local] Existing Instance sample_serde_index.
#[local] Existing Instance no_dates.
#[local] Existing Instance ascii_tables.

Lemma email_finite : FiniteNumbers.
Proof. done. Qed.
#[local] Existing Instance email_finite.

Definition sample_users : list PObjectOp := [PutOne "t1" (user "a" "x"); PutOne "t2" (user "b" "left-right"); PutOne "t3" (user "c" "x")].
Definition user_store : PersistentEngine RamKeyspaces := (pe_object_run sample_users object_engine).2.
Definition user_memory : MemoryEngine := (object_spec_run sample_users new_engine).2.

Lemma user_store_sim : object_sim (vector_ok := no_vectors) user_store user_memory.
Proof.
  apply (object_run_sim sample_users object_engine new_engine object_engine_sim).
  - repeat (apply Forall_cons; split); try apply Forall_nil; try (split; [by apply user_in|by apply sample_str]); done.
  - vm_compute. done.
  - assert (Hrun : (pe_object_run sample_users object_engine).1 =
      [Ok (Stored (mkObject ("users", "a") "x" 1 "t1" "t1" None)); Ok (Stored (mkObject ("users", "b") "left-right" 1 "t2" "t2" None));
       Ok (Stored (mkObject ("users", "c") "x" 1 "t3" "t3" None))]) by (vm_compute; done).
    rewrite Hrun. repeat (apply Forall_cons; split); try apply Forall_nil; first [apply taken_Ok|done].
Qed.

Lemma persistent_aggregate_agrees_witness :
  (ar_groups <$> pe_aggregate map_to_list user_store "users" (mkAggregateOptions [] (Some "email") Count None)) = Ok [mkGroup "x" (f64_of_u64 2); mkGroup "left-right" (f64_of_u64 1)] /\
  let options := mkAggregateOptions [] (Some "email") Count None in
  exists r r', aggregate map_to_list user_memory "users" options = Ok r /\ pe_aggregate map_to_list user_store "users" options = Ok r' /\
    ar_groups r' ≡ₚ ar_groups r /\ (ao_group_by options = None -> r' = r).
Proof.
  split; [vm_compute; reflexivity|]. intros options.
  refine (persistent_aggregate_agrees (vector_ok := no_vectors) map_to_list map_to_list user_store user_memory "users" options user_store_sim _ _ _ _ _).
  - by apply sample_nul.
  - by intros g.
  - by intros g.
  - by left.
  - intros Hm. discriminate Hm.
Defined.

(** The fallback search of the persistent engine finds a word with a hyphen, which the in-memory
    search does not. *)
Lemma searches_differ :
  let options := mkSearchOptions None None None in
  ((fun hits : list SearchHit => sh_id <$> hits) <$> search_naive user_store "left-right" options) = Ok ["b"] /\ search user_memory "left-right" options = Ok [].
Proof. split; vm_compute; reflexivity. Qed.

Section differences.
#[local] Existing Instance analytics_json.

(** The minimum of no values, and a number in a string. *)
Lemma aggregates_differ :
  pe_compute_aggregate [] Min (Some "f") = f64_MAX /\ compute_aggregate [] Min (Some "f") = f64_INFINITY /\
  pe_compute_aggregate [sample_object "1" "s7"] Sum (Some "f") = S754_zero true /\
  compute_aggregate [sample_object "1" "s7"] Sum (Some "f") = f64_of_u64 7.
Proof. do 3 (split; [vm_compute; reflexivity|]). vm_compute. reflexivity. Qed.

(** A number that is null in one object is inferred to be a string that is never null. *)
Lemma nullable_number_is_string :
  let summary f := (fs_field_type f, fs_nullable f) in
  summary <$> pe_infer_fields [sample_object "1" "n1"; sample_object "2" "0"] = [("string", false)] /\
  summary <$> infer_fields [sample_object "1" "n1"; sample_object "2" "0"] = [("number", true)].
Proof. split; vm_compute; reflexivity. Qed.
End differences.
