(* ===== verification/PRetain.v ===== *)
(** * thingd: retention of the persistent engine

    Models [retain] of [ObjectStore for PersistentEngine] ([crates/thingd/src/persistent.rs]) with
    [safe_replication_cursor] and [timestamp_before]: old events and finished jobs are removed in one
    batch, the idempotency keys of removed events are forgotten, the metadata of the streams is
    written again, and the store is compacted on request.  The search index is left out.  The order
    in which the hash set of streams is iterated is an argument. *)

From S2P Require Import Prelude Wal Table Layer Database ThingDb Keyspace RamScan Model Objects Events Storage RustStd Analytics Persistent PSample PStore PQueue PQueueSpec PEvents PEventSpec PEventOps PEventBatch PEventDelete PEventTheorems PObjects PObjectTheorems Replication.
From Stdlib Require Import SpecFloat.

Record RetentionOptions := mkRetention {
  ro_before_unix_ms : Z;
  ro_dry_run : bool;
  ro_compact : bool;
  ro_include_replication : bool;
}.

Record RetentionReport := mkReport {
  rr_events : Z;
  rr_completed_jobs : Z;
  rr_dead_jobs : Z;
  rr_skipped_replication_events : Z;
  rr_safe_replication_cursor : option Z;
  rr_compacted : bool;
  rr_dry_run : bool;
}.

(** [Keyspace::major_compact], which rewrites the files of the store. *)
Class KvCompact (D : Type) := { kv_compact : D -> string -> storage_result unit * D }.

Class KvCompactLaws (D : Type) `{KvLaws D} `{!KvCompact D} : Prop :=
  kv_compact_view s n r s' : kv_ok s -> kv_compact s n = (r, s') -> kv_ok s' /\ forall m, valid_name m -> kv_view s' m = kv_view s m.

Section retain.
Context `{Kv D} `{!KvCompact D} `{SerdeJson} `{!JsonNumbers} `{Chrono} {vector_ok : list spec_float -> Prop}.
Context `{!Serde MemoryObject (object_wt vector_ok)} `{!Serde MemoryEvent event_wt} `{!Serde EventMetadata meta_wt} `{!Serde QueueJob job_wt}.
Implicit Types (e : PersistentEngine D) (options : RetentionOptions) (ev : MemoryEvent) (j : QueueJob).

Definition timestamp_before (value : string) (cutoff_ms : Z) : bool :=
  match parse_from_rfc3339 value with Some timestamp => timestamp_millis timestamp <? cutoff_ms | None => false end.

(** The smallest cursor recorded in the collection of replication states. *)
Definition applied_cursor (o : MemoryObject) : option Z :=
  if bool_decide ((ob_key o).1 = REPLICATION_STATE_COLLECTION)
  then body ← from_str (ob_body o); u64_field body "lastAppliedCursor" else None.
Definition min_cursor (minimum : option Z) (cursor : Z) : option Z :=
  Some (match minimum with Some current => Z.min current cursor | None => cursor end).
Definition safe_replication_cursor e : thingd_result (option Z) :=
  (fun os => foldl min_cursor None (omap applied_cursor os)) <$> read_objects (pe_codec e) (kv_iter (pe_db e) "objects").

Definition retention_cursor options e : thingd_result (option Z) :=
  if ro_include_replication options then safe_replication_cursor e else Ok None.

Definition old_event options ev : bool := timestamp_before (ev_created_at ev) (ro_before_unix_ms options).

Definition expired_event options (cursor : option Z) ev : bool :=
  if bool_decide (ev_stream ev = REPLICATION_STREAM)
  then old_event options ev && ro_include_replication options && match cursor with Some c => ev_sequence ev <=? c | None => false end
  else negb (pe_is_protected_stream (ev_stream ev)) && old_event options ev.

(** One round of the loop over the events: the deletions and the skipped replication events. *)
Definition retain_event options cursor (acc : list (bytes * MemoryEvent) * Z) (key : bytes) ev : list (bytes * MemoryEvent) * Z :=
  if expired_event options cursor ev then (acc.1 ++ [(key, ev)], acc.2)
  else if bool_decide (ev_stream ev = REPLICATION_STREAM) && old_event options ev then (acc.1, acc.2 + 1) else acc.

Definition expired_job options j : bool :=
  match jb_status j with
  | Completed => match jb_completed_at_ms j with Some timestamp => timestamp <? ro_before_unix_ms options | None => false end
  | Dead => match jb_dead_at_ms j with Some timestamp => timestamp <? ro_before_unix_ms options | None => false end
  | _ => false
  end.

Definition retain_job options (acc : list (bytes * QueueJob)) (key : bytes) j : list (bytes * QueueJob) :=
  if expired_job options j then acc ++ [(key, j)] else acc.

Definition with_status (s : QueueJobStatus) (jobs : list (bytes * QueueJob)) : Z :=
  zlen (List.filter (fun x => bool_decide (jb_status x.2 = s)) jobs).

Definition retention_batch (events : list (bytes * MemoryEvent)) (jobs : list (bytes * QueueJob)) : list BatchWrite :=
  let batch := foldl (fun b x => batch_remove b "events" x.1) [] events in
  foldl (fun b x => batch_remove b "queue_jobs" x.1) batch jobs.

(** [event_idempotency_keys.retain] for a removed event. *)
Definition forget_event (keys : IdemKeys) ev : IdemKeys :=
  filter (fun x : string * string * Z => x.1.1 <> ev_stream ev \/ x.2 <> ev_sequence ev) keys.

Fixpoint persist_streams (streams : list string) : PM D unit :=
  match streams with
  | [] => pret ()
  | stream :: streams => let* _ := persist_event_metadata stream in persist_streams streams
  end.

Definition major_compact (ks : string) : PM D unit :=
  fun e => let '(r, db) := kv_compact (pe_db e) ks in (storage_error r, set_db e db).

(** The steps after the batch: keys are forgotten, metadata is written, files are compacted. *)
Definition after_removal (hash_order : gset string -> list string) options (evs : list MemoryEvent) (something : bool) (report : bool -> RetentionReport)
    : PM D RetentionReport :=
  let* _ := pmodify (fun e => set_event_state e (pe_event_seq_counters e) (foldl forget_event (pe_event_idempotency_keys e) evs)) in
  let* _ := persist_streams (hash_order (list_to_set (ev_stream <$> evs))) in
  if ro_compact options && something then
    let* _ := major_compact "events" in
    let* _ := major_compact "queue_jobs" in
    pret (report true)
  else pret (report false).

Definition retention_report options cursor (evs : list (bytes * MemoryEvent) * Z) (jobs : list (bytes * QueueJob)) (compacted : bool) : RetentionReport :=
  mkReport (zlen evs.1) (with_status Completed jobs) (with_status Dead jobs) evs.2 cursor compacted (ro_dry_run options).

Definition retain (hash_order : gset string -> list string) options : PM D RetentionReport :=
  let* e := pget in
  let* cursor := plift (retention_cursor options e) in
  let* evs := plift (fold_res (fun acc kv => ev ← deserialize (pe_codec e) kv.2; Ok (retain_event options cursor acc kv.1 ev))
                       ([], 0) (kv_iter (pe_db e) "events")) in
  let* jobs := plift (fold_res (fun acc kv => j ← deserialize (pe_codec e) kv.2; Ok (retain_job options acc kv.1 j))
                        [] (kv_iter (pe_db e) "queue_jobs")) in
  if ro_dry_run options then pret (retention_report options cursor evs jobs false) else
  let nothing := bool_decide (length evs.1 = 0%nat) && bool_decide (length jobs = 0%nat) in
  let* _ := (if nothing then pret () else commit (retention_batch evs.1 jobs)) in
  after_removal hash_order options evs.1.*2 (negb nothing) (retention_report options cursor evs jobs).
End retain.

(** ** Removing records in one batch *)

Lemma apply_removes {A} ks (l : list (bytes * A)) n : forall ws m,
  apply_writes n (foldl (fun b x => batch_remove b ks x.1) ws l) m
  = if bool_decide (ks = n) then foldl (fun m k => delete k m) (apply_writes n ws m) l.*1 else apply_writes n ws m.
Proof.
  induction l as [|x l IH]; intros ws m; cbn [foldl fmap list_fmap]; [by case_bool_decide|]. rewrite IH, apply_remove. by case_bool_decide.
Qed.

Lemma remove_writes_ok {A} ks (l : list (bytes * A)) : forall ws, valid_name ks -> Forall (fun x => bytes_ok x.1) l -> Forall write_ok ws ->
  Forall write_ok (foldl (fun b x => batch_remove b ks x.1) ws l).
Proof. induction l as [|x l IH]; intros ws Hks Hl Hws; [done|]. apply Forall_cons in Hl as [Hx Hl]. cbn [foldl]. apply IH; [done..|]. by apply remove_ok. Qed.

Lemma lookup_deletes (ks : list bytes) : forall (m : bmap bytes) k v, foldl (fun m k => delete k m) m ks !! k = Some v <-> m !! k = Some v /\ k ∉ ks.
Proof.
  induction ks as [|k' ks IH]; intros m k v; cbn [foldl]; [split; [|by intros [? _]]; split; [done|apply not_elem_of_nil]|].
  rewrite IH, lookup_delete_Some, not_elem_of_cons. naive_solver.
Qed.

Section kept.
Context {K A : Type} `{Countable K} (f : A -> option (bytes * bytes)) (P : K -> A -> Prop).
Context (f_inj : forall i j i' j' k v v', P i j -> P i' j' -> f j = Some (k, v) -> f j' = Some (k, v') -> i = i').
Implicit Types (J : gmap K A) (drop : A -> bool).

Definition kept drop J : gmap K A := filter (fun x => drop x.2 = false) J.

Lemma kept_lookup drop J i j : kept drop J !! i = Some j <-> J !! i = Some j /\ drop j = false.
Proof. apply map_lookup_filter_Some. Qed.

Lemma indexed_remove V J drop ks :
  (forall i j, J !! i = Some j -> P i j) -> indexed f V J ->
  (forall k, k ∈ ks <-> exists i j v, J !! i = Some j /\ drop j = true /\ f j = Some (k, v)) ->
  indexed f (foldl (fun m k => delete k m) V ks) (kept drop J).
Proof using f_inj.
  intros HP HV Hks k v. rewrite lookup_deletes, (HV k v). split.
  - intros [(i&j&Hi&Hf) Hk]. exists i, j. split; [|done]. apply kept_lookup. split; [done|].
    destruct (drop j) eqn:Hd; [|done]. destruct Hk. apply Hks. eauto 8.
  - intros (i&j&[Hi Hd]%kept_lookup&Hf). split; [eauto|]. intros (i'&j'&v'&Hi'&Hd'&Hf')%Hks.
    assert (i = i') as <- by (eapply f_inj; eauto). congruence.
Qed.

Lemma indexed_unlisted V J drop : (forall i j, J !! i = Some j -> drop j = true -> f j = None) -> indexed f V J -> indexed f V (kept drop J).
Proof.
  intros Hd HV k v. rewrite (HV k v). split.
  - intros (i&j&Hi&Hf). exists i, j. split; [|done]. apply kept_lookup. split; [done|]. destruct (drop j) eqn:He; [|done]. by rewrite (Hd i j Hi He) in Hf.
  - intros (i&j&[Hi _]%kept_lookup&Hf). eauto.
Qed.

(** As many as the records of the map that are listed once each under their own keys. *)
Lemma count_listed (g : A -> K) (p : A -> bool) (l : list A) J :
  NoDup (g <$> l) -> (forall j, j ∈ l <-> J !! g j = Some j) -> (forall i j, J !! i = Some j -> i = g j) ->
  zlen (List.filter p l) = Z.of_nat (size (filter (fun x => p x.2 = true) J)).
Proof.
  intros Hnd Hin Hkey. assert (Hnd' : NoDup (g <$> List.filter p l)) by (eapply sublist_NoDup; [exact Hnd|apply fmap_sublist, filter_sublist]).
  rewrite <-(length_fmap g), <-size_dom, <-(size_list_to_set (C := gset K)) by done. do 2 f_equal. apply set_eq. intros i.
  rewrite elem_of_list_to_set, list_elem_of_fmap, elem_of_dom. split.
  - intros (j&->&[Hj Hp]%elem_of_filter_bool). exists j. apply map_lookup_filter_Some. split; [by apply Hin|done].
  - intros [j [Hj Hp]%map_lookup_filter_Some]. exists j. pose proof (Hkey _ _ Hj) as ->. split; [done|]. apply elem_of_filter_bool. split; [by apply Hin|done].
Qed.
End kept.

(** ** Jobs *)

Section jobs.
Context `{KvLaws D} `{!Serde QueueJob job_wt} `{!Serde string is_str}.
Implicit Types (e : PersistentEngine D) (J : gmap (string * string) QueueJob).

Lemma lease_set_kept drop J q : (forall i j, J !! i = Some j -> drop j = true -> lease_of j = None) -> lease_set (kept drop J) q = lease_set J q.
Proof.
  induction J as [|i j J Hi IH] using map_ind; intros Hd; [by unfold kept; rewrite map_filter_empty|]. unfold kept in *.
  assert (Hrest : lease_set (filter (fun x => drop x.2 = false) J) q = lease_set J q).
  { apply IH. intros i' j' Hj'. apply (Hd i'). rewrite lookup_insert_ne; [done|]. intros ->. congruence. }
  rewrite (lease_set_insert J i j q Hi), map_filter_insert. cbn [snd]. destruct (decide (drop j = false)) as [Hk|Hk].
  - rewrite lease_set_insert; [by rewrite Hrest|]. apply map_lookup_filter_None. by left.
  - rewrite delete_id by (done || (apply map_lookup_filter_None; by left)). rewrite Hrest. unfold lease_in.
    rewrite (Hd i j) by (apply lookup_insert_eq || by destruct (drop j)). case_bool_decide; cbn [option_ms]; by rewrite (left_id_L ∅ (⊎)).
Qed.

(** The queues see their own keyspaces and counters only. *)
Lemma queue_inv_frame e e' J :
  queue_inv e J -> pe_codec e' = pe_codec e -> kv_ok (pe_db e') ->
  (forall n, n ∈ ["queue_jobs"; "ready_jobs"; "lease_jobs"] -> kv_view (pe_db e') n = kv_view (pe_db e) n) ->
  pe_queue_lease_counts e' = pe_queue_lease_counts e -> pe_queue_lease_expirations e' = pe_queue_lease_expirations e ->
  pe_queue_ready_cursors e' = pe_queue_ready_cursors e -> queue_inv e' J.
Proof.
  intros [Hc Hkv [S1 S2 S3 S4] [R1 R2] Hcur Hsz] Hc' Hkv' Hv E1 E2 E3. split; [congruence|done| | | |done].
  - split; rewrite ?Hv by set_solver; done.
  - split; rewrite ?E1, ?E2; done.
  - intros q c. rewrite E3. unfold ready_entries. rewrite Hv by set_solver. apply Hcur.
Qed.

Definition job_index (j : QueueJob) : string * string := (jb_queue j, jb_id j).
Definition job_pair (j : QueueJob) : bytes * bytes := (make_queue_key raw_codec (jb_queue j) (jb_id j), json_text j).

Lemma all_jobs e J : queue_inv e J ->
  exists js, kv_iter (pe_db e) "queue_jobs" = job_pair <$> js /\ Forall job_wt js /\ (forall j, j ∈ js <-> J !! job_index j = Some j) /\ NoDup (job_index <$> js).
Proof.
  intros [Hc Hkv [Hok Hrec _ _] _ _ _]. destruct queue_keyspaces_valid as (Hv1&_&_).
  destruct (indexed_list record_entry job_ok record_entry_inj (kv_view (pe_db e) "queue_jobs") J [] Hok Hrec) as (js&Hall&Hin).
  assert (Hin' : forall j, j ∈ js <-> J !! job_index j = Some j).
  { intros j. rewrite Hin. split.
    - intros (i&x&Hi&_&_). by destruct (Hok i j Hi) as [_ -> _ _ _].
    - intros Hj. by exists (job_index j), (job_pair j). }
  assert (Heq : btree_iter (kv_view (pe_db e) "queue_jobs") = job_pair <$> js).
  { rewrite <-prefix_entries_nil. clear -Hall. induction Hall as [|x j l js Hx _ IH]; [done|]. injection Hx as <-. by rewrite fmap_cons, <-IH. }
  exists js. split_and!; [by rewrite kv_iter_entries| |done|].
  - apply Forall_forall. intros j Hj%Hin'. by destruct (Hok _ _ Hj).
  - apply (NoDup_fmap_1 (fun i => make_queue_key raw_codec i.1 i.2)). rewrite <-list_fmap_compose.
    assert (Hk : (fun i => make_queue_key raw_codec i.1 i.2) ∘ job_index <$> js = (job_pair <$> js).*1) by (by rewrite <-list_fmap_compose).
    rewrite Hk, <-Heq. apply btree_keys_NoDup.
Qed.

Lemma decode_jobs {S} (f : S -> bytes -> QueueJob -> S) js acc :
  Forall job_wt js ->
  fold_res (fun acc kv => j ← deserialize raw_codec kv.2; Ok (f acc kv.1 j)) acc (job_pair <$> js) = Ok (foldl (fun acc j => f acc (job_pair j).1 j) acc js).
Proof.
  intros Hall. revert acc. induction Hall as [|j js Hj _ IH]; intros acc; [done|]. rewrite fmap_cons. cbn [fold_res foldl].
  cbn [job_pair snd fst]. rewrite deserialize_raw by done. run. apply IH.
Qed.
End jobs.

(** ** Events *)

Section proofs.
Context `{KvLaws D} `{!KvCompact D} `{!KvCompactLaws D} `{SerdeJson} `{!JsonNumbers} `{Chrono} {vector_ok : list spec_float -> Prop}.
Context `{!Serde MemoryObject (object_wt vector_ok)} `{!Serde MemoryEvent event_wt} `{!Serde EventMetadata meta_wt}.
Context `{!Serde QueueJob job_wt} `{!Serde string is_str}.
Implicit Types (e : PersistentEngine D) (options : RetentionOptions) (ev : MemoryEvent) (L : Log) (J : gmap (string * string) QueueJob).

Definition event_deletion ev : bytes * MemoryEvent := ((event_pair ev).1, ev).
Definition job_deletion (j : QueueJob) : bytes * QueueJob := ((job_pair j).1, j).

Lemma retain_events options cursor evs : forall acc, exists skipped,
  foldl (fun acc ev => retain_event options cursor acc (event_pair ev).1 ev) acc evs
  = (acc.1 ++ (event_deletion <$> List.filter (expired_event options cursor) evs), skipped).
Proof.
  induction evs as [|ev evs IH]; intros acc; cbn [foldl List.filter]; [exists acc.2; cbn; by rewrite app_nil_r; destruct acc|].
  unfold retain_event at 2. destruct (expired_event options cursor ev).
  - destruct (IH (acc.1 ++ [event_deletion ev], acc.2)) as (n&Hn). exists n. unfold event_deletion at 1 in Hn. rewrite Hn. cbn [fst]. by rewrite fmap_cons, <-app_assoc.
  - destruct (_ && _); [destruct (IH (acc.1, acc.2 + 1)) as (n&Hn)|destruct (IH acc) as (n&Hn)]; exists n; by rewrite Hn.
Qed.

Lemma retain_jobs options js : forall acc,
  foldl (fun acc j => retain_job options acc (job_pair j).1 j) acc js = acc ++ (job_deletion <$> List.filter (expired_job options) js).
Proof.
  induction js as [|j js IH]; intros acc; cbn [foldl List.filter]; [by rewrite app_nil_r|]. rewrite IH. unfold retain_job. destruct (expired_job options j); [|done].
  by rewrite fmap_cons, <-app_assoc.
Qed.

Lemma with_status_kept options s js :
  with_status s (job_deletion <$> List.filter (expired_job options) js)
  = zlen (List.filter (fun j => bool_decide (jb_status j = s) && expired_job options j) js).
Proof. unfold with_status. rewrite filter_fmap, length_fmap. cbn [job_deletion snd]. by rewrite filter_filter. Qed.

Lemma forget_events_lookup dels : forall (K : IdemKeys) i n,
  foldl forget_event K dels !! i = Some n <-> K !! i = Some n /\ forall ev, ev ∈ dels -> i.1 <> ev_stream ev \/ n <> ev_sequence ev.
Proof.
  induction dels as [|ev dels IH]; intros K i n; cbn [foldl]; [split; [intros ?; split; [done|]; by intros ev ?%elem_of_nil|by intros [? _]]|].
  rewrite IH. unfold forget_event. rewrite map_lookup_filter_Some. cbn [fst snd]. setoid_rewrite elem_of_cons. naive_solver.
Qed.

(** The log without the events of a batch and the keys that led to them. *)
Definition retained_log drop (dels : list MemoryEvent) L : Log :=
  mkLog (lg_ram L) (kept drop (lg_events L)) (lg_counters L) (foldl forget_event (lg_keys L) dels) (lg_meta L).

Lemma retained_log_ok drop dels L :
  log_ok L -> (forall ev, ev ∈ dels -> lg_events L !! event_index ev = Some ev /\ drop ev = true) -> log_ok (retained_log drop dels L).
Proof.
  intros HL Hdels. assert (HE : log_ok (with_events L (kept drop (lg_events L)))).
  { apply with_events_ok; [done|]. intros i ev. rewrite kept_lookup. tauto. }
  destruct HE as [H1' H2' H3' H4']. split; try done. intros s. eapply stream_ok_forget; [| |apply H2']; intros k n; rewrite !stream_keys_lookup; cbn [retained_log lg_keys with_events].
  - rewrite forget_events_lookup. tauto.
  - intros x Hk Hx. apply forget_events_lookup. split; [done|]. intros ev Hev. cbn [fst]. destruct (Hdels ev Hev) as [Hi Hd].
    destruct (decide (s = ev_stream ev)) as [->|]; [|by left]. right. intros ->. cbn [lg_events with_events] in Hx. apply kept_lookup in Hx as [Hx Hf].
    change (ev_stream ev, ev_sequence ev) with (event_index ev) in Hx. congruence.
Qed.

Lemma event_sim_frame e e' L :
  event_sim e L -> pe_codec e' = pe_codec e -> kv_ok (pe_db e') -> pe_in_memory e' = pe_in_memory e ->
  pe_event_seq_counters e' = pe_event_seq_counters e -> pe_event_idempotency_keys e' = pe_event_idempotency_keys e ->
  (forall n, n ∈ ["events"; "event_meta"] -> kv_view (pe_db e') n = kv_view (pe_db e) n) -> event_sim e' L.
Proof. intros [] E1 E2 E3 E4 E5 Hv. split; rewrite ?Hv by set_solver; congruence || done. Qed.

(** Both parts of the store. *)
Definition both e L J : Prop := event_sim e L /\ queue_inv e J.

Lemma both_db e L J db : both e L J -> kv_ok db -> (forall n, valid_name n -> kv_view db n = kv_view (pe_db e) n) -> both (set_db e db) L J.
Proof.
  intros [He Hq] Hkv Hv. destruct event_keyspaces_valid as [V1 V2], queue_keyspaces_valid as (V3&V4&V5).
  assert (Hn : forall n, n ∈ ["events"; "event_meta"; "queue_jobs"; "ready_jobs"; "lease_jobs"] -> kv_view db n = kv_view (pe_db e) n).
  { intros n Hn. apply Hv. repeat (apply elem_of_cons in Hn as [->|Hn]; [done|]). by apply elem_of_nil in Hn. }
  split; [eapply event_sim_frame|eapply queue_inv_frame]; try done; cbn; intros n Hin; apply Hn; set_solver.
Qed.

Lemma major_compact_both ks e L J r e' : both e L J -> major_compact ks e = (r, e') -> both e' L J.
Proof using KvCompactLaws0.
  intros Hb. unfold major_compact. destruct (kv_compact (pe_db e) ks) as [r0 db] eqn:Hc. intros [= <- <-].
  destruct (kv_compact_view _ _ _ _ (es_kv _ _ (proj1 Hb)) Hc). by apply both_db.
Qed.

(** Writing the metadata of a stream touches nothing but the metadata. *)
Lemma persist_metadata_both s e L J r e' : both e L J -> is_str s -> persist_event_metadata s e = (r, e') ->
  both e' (match r with Ok _ => note_meta L s | Err _ => L end) J.
Proof.
  intros [He Hq] Hs Hrun. pose proof (persist_metadata_refines s e L r e' He Hs Hrun) as Hsim. split; [destruct r; [done|by destruct Hsim]|].
  revert Hrun. clear Hsim. pose proof He as [Hc Hkv Hram HC HK _ _ HL]. unfold persist_event_metadata. rewrite pbind_pget, Hram, Hc, HC, HK.
  destruct (lg_ram L); [by intros [= _ <-]|]. rewrite encode_metadata_raw by (by apply make_metadata_ok). rewrite pbind_plift. cbn [fst snd]. intros Hins.
  destruct event_keyspaces_valid as [V1 V2], queue_keyspaces_valid as (V3&V4&V5).
  apply ks_insert_atomic in Hins as (db&->&Hkv'&Hview); [|done|done|apply str_bytes_ok]. eapply queue_inv_frame; try done; cbn. intros n Hn.
  assert (Hvn : valid_name n /\ n <> "event_meta") by (repeat (apply elem_of_cons in Hn as [->|Hn]; [done|]); by apply elem_of_nil in Hn).
  destruct Hview as [[_ Hview]|(err&_&_&Hview)]; rewrite Hview by apply Hvn; [|done]. unfold put_view. by rewrite bool_decide_false by apply Hvn.
Qed.

Lemma persist_streams_both streams : forall e L J r e', both e L J -> Forall is_str streams -> persist_streams streams e = (r, e') ->
  exists L', both e' L' J /\ lg_events L' = lg_events L /\ lg_counters L' = lg_counters L.
Proof.
  induction streams as [|s streams IH]; intros e L J r e' Hb Hs; cbn [persist_streams]; [intros [= _ <-]; by exists L|].
  apply Forall_cons in Hs as [Hs Hss]. destruct (persist_event_metadata s e) as [r1 e1] eqn:Hp. pose proof (persist_metadata_both s e L J r1 e1 Hb Hs Hp) as H1'.
  assert (Hnote : lg_events (note_meta L s) = lg_events L /\ lg_counters (note_meta L s) = lg_counters L) by (unfold note_meta; by destruct (lg_ram L)).
  destruct r1 as [[]|err].
  - rewrite (pbind_Ok _ _ _ _ _ Hp). intros Hrun. destruct (IH _ _ _ _ _ H1' Hss Hrun) as (L'&Hb'&HE'&HC'). exists L'. split; [done|]. destruct Hnote. split; congruence.
  - rewrite (pbind_Err _ _ _ _ _ Hp). intros [= _ <-]. by exists L.
Qed.

Lemma retention_batch_ok evs js : Forall write_ok (retention_batch (event_deletion <$> evs) (job_deletion <$> js)).
Proof.
  destruct event_keyspaces_valid as [V1 V2], queue_keyspaces_valid as (V3&V4&V5). unfold retention_batch.
  apply remove_writes_ok; [done|apply Forall_fmap, Forall_forall; intros j _; apply scoped_key_ok|].
  apply remove_writes_ok; [done|apply Forall_fmap, Forall_forall; intros ev _; apply make_event_key_ok|apply writes_ok_nil].
Qed.

(** The batch removes exactly the records of the dropped events and jobs. *)
Lemma retention_batch_both options cursor e L J evs js r e' :
  both e L J -> (forall ev, ev ∈ evs <-> lg_events L !! event_index ev = Some ev) -> (forall j, j ∈ js <-> J !! job_index j = Some j) ->
  commit (retention_batch (event_deletion <$> List.filter (expired_event options cursor) evs) (job_deletion <$> List.filter (expired_job options) js)) e = (r, e') ->
  match r with
  | Ok _ => both e' (with_events L (kept (expired_event options cursor) (lg_events L))) (kept (expired_job options) J)
  | Err _ => both e' L J
  end.
Proof.
  intros [He Hq] Hevs Hjs. set (dels := event_deletion <$> _). set (jdels := job_deletion <$> _).
  pose proof He as [Hc Hkv Hram HC HK HE HM HL]. pose proof Hq as [_ _ [Q1 Q2 Q3 Q4] Q5 Q6 Q7].
  destruct event_keyspaces_valid as [V1 V2], queue_keyspaces_valid as (V3&V4&V5).
  assert (Hws : Forall write_ok (retention_batch dels jdels)) by apply retention_batch_ok.
  intros Hcommit. apply commit_cases in Hcommit as (db&->&Hkv'&[[-> Hview]|(err&->&_&Hview)]); [|by apply both_db|done|done].
  assert (Hev : kv_view db "events" = foldl (fun m k => delete k m) (kv_view (pe_db e) "events") dels.*1).
  { rewrite Hview by done. unfold retention_batch. rewrite !apply_removes. by rewrite bool_decide_false, bool_decide_true by done. }
  assert (Hjb : kv_view db "queue_jobs" = foldl (fun m k => delete k m) (kv_view (pe_db e) "queue_jobs") jdels.*1).
  { rewrite Hview by done. unfold retention_batch. rewrite !apply_removes. by rewrite bool_decide_true, bool_decide_false by done. }
  assert (Hother : forall n, valid_name n -> n <> "events" -> n <> "queue_jobs" -> kv_view db n = kv_view (pe_db e) n).
  { intros n Hn N1 N2. rewrite Hview by done. unfold retention_batch. rewrite !apply_removes. by rewrite !bool_decide_false by done. }
  split.
  - split; cbn; try done; [|by rewrite Hother|apply with_events_ok; [done|]; intros i ev; rewrite kept_lookup; tauto].
    rewrite Hev. eapply (indexed_remove event_entry event_ok event_entry_inj); [apply (lo_events L HL)|done|]. intros k. unfold dels. rewrite <-list_fmap_compose, list_elem_of_fmap. split.
    + intros (ev&->&[Hin Hx]%elem_of_filter_bool). exists (event_index ev), ev, (json_text ev). split_and!; [by apply Hevs|done|done].
    + intros (i&ev&v&Hi&Hx&[= <- _]). exists ev. split; [done|]. apply elem_of_filter_bool. split; [|done]. apply Hevs. by rewrite (event_ok_index i ev (lo_events L HL i ev Hi)).
  - assert (Hfin : forall i j, J !! i = Some j -> expired_job options j = true -> jb_status j <> Ready /\ lease_of j = None).
    { intros i j _. unfold expired_job, lease_of. destruct (jb_status j); done. }
    assert (Hlease : forall q, lease_set (kept (expired_job options) J) q = lease_set J q) by (intros q; apply lease_set_kept; intros i j Hi Hx; by destruct (Hfin i j Hi Hx)).
    split; cbn; try done.
    + split.
      * intros i j [Hi _]%kept_lookup. auto.
      * rewrite Hjb. eapply (indexed_remove record_entry job_ok record_entry_inj); [done|done|]. intros k. unfold jdels. rewrite <-list_fmap_compose, list_elem_of_fmap. split.
        -- intros (j&->&[Hin Hx]%elem_of_filter_bool). exists (job_index j), j, (json_text j). split_and!; [by apply Hjs|done|done].
        -- intros (i&j&v&Hi&Hx&[= <- _]). exists j. split; [done|]. apply elem_of_filter_bool. split; [|done]. apply Hjs. destruct (Q1 i j Hi) as [_ Hname _ _ _]. unfold job_index. by rewrite <-Hname.
      * rewrite Hother by done. apply indexed_unlisted; [|done]. intros i j Hi Hx. unfold ready_index. by rewrite bool_decide_false by (by destruct (Hfin i j Hi Hx)).
      * rewrite Hother by done. apply indexed_unlisted; [|done]. intros i j Hi Hx. unfold lease_index. by destruct (Hfin i j Hi Hx) as [_ ->].
    + destruct Q5 as [R1 R2]. split; intros q; cbn; rewrite Hlease; [apply R1|apply R2].
    + intros q c Hn Hcur. unfold ready_entries. rewrite Hother by done. by apply Q6.
    + pose proof (map_size_filter (fun x : (string * string) * QueueJob => expired_job options x.2 = false) J). unfold kept. lia.
Qed.

Lemma compacted_both options e L J something (report : bool -> RetentionReport) r e' :
  both e L J ->
  (if ro_compact options && something then
     let* _ := major_compact "events" in
     let* _ := major_compact "queue_jobs" in
     pret (report true)
   else pret (report false)) e = (r, e') ->
  both e' L J /\ match r with Ok a => exists b, a = report b | Err _ => True end.
Proof using KvCompactLaws0.
  intros Hb. destruct (ro_compact options && something); [|intros [= <- <-]; eauto].
  destruct (major_compact "events" e) as [r1 e1] eqn:H1'. pose proof (major_compact_both _ _ _ _ _ _ Hb H1') as Hb1. destruct r1 as [[]|err].
  2: { rewrite (pbind_Err _ _ _ _ _ H1'). by intros [= <- <-]. }
  rewrite (pbind_Ok _ _ _ _ _ H1'). destruct (major_compact "queue_jobs" e1) as [r2 e2] eqn:H2'. pose proof (major_compact_both _ _ _ _ _ _ Hb1 H2') as Hb2.
  destruct r2 as [[]|err]; [rewrite (pbind_Ok _ _ _ _ _ H2')|rewrite (pbind_Err _ _ _ _ _ H2')]; intros [= <- <-]; eauto.
Qed.

Lemma after_removal_both hash_order options drop e L J evs something report r e' :
  (forall X, hash_order X ≡ₚ elements X) -> log_ok L -> both e (with_events L (kept drop (lg_events L))) J ->
  (forall ev, ev ∈ evs -> lg_events L !! event_index ev = Some ev /\ drop ev = true) ->
  after_removal hash_order options evs something report e = (r, e') ->
  exists L', both e' L' J /\ lg_events L' = kept drop (lg_events L) /\ lg_counters L' = lg_counters L /\ match r with Ok a => exists b, a = report b | Err _ => True end.
Proof using KvCompactLaws0.
  intros Hord HL [He Hq] Hevs. unfold after_removal. rewrite pbind_pmodify. set (e1 := set_event_state e (pe_event_seq_counters e) (foldl forget_event (pe_event_idempotency_keys e) evs)).
  assert (Hb1 : both e1 (retained_log drop evs L) J).
  { pose proof (retained_log_ok drop evs L HL Hevs) as HL'. split; [|by eapply queue_inv_frame; try done; by destruct Hq]. destruct He as [Hc Hkv Hram HC HK HE HM _]. split; try done. cbn. by rewrite HK. }
  assert (Hstr : Forall is_str (hash_order (list_to_set (ev_stream <$> evs)))).
  { rewrite Hord. apply Forall_forall. intros s. rewrite elem_of_elements, elem_of_list_to_set, list_elem_of_fmap. intros (ev&->&Hev).
    destruct (Hevs ev Hev) as [Hi _]. by destruct (lo_events L HL _ _ Hi) as [_ _ [Hs _ _ _ _ _] _]. }
  destruct (persist_streams (hash_order (list_to_set (ev_stream <$> evs))) e1) as [r2 e2] eqn:Hp. destruct (persist_streams_both _ _ _ _ _ _ Hb1 Hstr Hp) as (L'&Hb2&HE'&HC'). destruct r2 as [[]|err].
  - rewrite (pbind_Ok _ _ _ _ _ Hp). intros Hrun. destruct (compacted_both _ _ _ _ _ _ _ _ Hb2 Hrun) as [Hb3 Hr]. exists L'. by split_and!.
  - rewrite (pbind_Err _ _ _ _ _ Hp). intros [= <- <-]. exists L'. by split_and!.
Qed.

Lemma kept_none {K A} `{Countable K} (g : A -> K) (drop : A -> bool) l (J : gmap K A) :
  List.filter drop l = [] -> (forall j, j ∈ l <-> J !! g j = Some j) -> (forall i j, J !! i = Some j -> i = g j) -> kept drop J = J.
Proof.
  intros Hnil Hin Hkey. apply map_filter_id. intros i j Hi. cbn. destruct (drop j) eqn:Hd; [|done]. assert (Hbad : j ∈ List.filter drop l).
  { apply elem_of_filter_bool. split; [|done]. apply Hin. by rewrite <-(Hkey i j Hi). }
  rewrite Hnil in Hbad. by apply elem_of_nil in Hbad.
Qed.

Lemma event_keys e L i ev : event_sim e L -> lg_events L !! i = Some ev -> i = event_index ev.
Proof. intros [_ _ _ _ _ _ _ HL] Hi. symmetry. by apply event_ok_index, (lo_events L HL). Qed.
Lemma job_keys e J i j : queue_inv e J -> J !! i = Some j -> i = job_index j.
Proof. intros Hq Hi. by destruct (st_ok _ _ (qi_stored _ _ Hq) i j Hi). Qed.

Definition report_counts options cursor L J (report : RetentionReport) : Prop :=
  rr_events report = Z.of_nat (size (filter (fun x => expired_event options cursor x.2 = true) (lg_events L))) /\
  rr_completed_jobs report = Z.of_nat (size (filter (fun x => bool_decide (jb_status x.2 = Completed) && expired_job options x.2 = true) J)) /\
  rr_dead_jobs report = Z.of_nat (size (filter (fun x => bool_decide (jb_status x.2 = Dead) && expired_job options x.2 = true) J)).

Lemma report_exact options cursor e L J evs js skipped b :
  both e L J -> NoDup (event_index <$> evs) -> (forall ev, ev ∈ evs <-> lg_events L !! event_index ev = Some ev) ->
  NoDup (job_index <$> js) -> (forall j, j ∈ js <-> J !! job_index j = Some j) ->
  report_counts options cursor L J (retention_report options cursor (event_deletion <$> List.filter (expired_event options cursor) evs, skipped)
    (job_deletion <$> List.filter (expired_job options) js) b).
Proof.
  intros [He Hq] Hnd Hin Hjnd Hjin. assert (Hids : forall i j, J !! i = Some j -> i = job_index j) by (intros; by eapply job_keys).
  unfold report_counts, retention_report. cbn [rr_events rr_completed_jobs rr_dead_jobs fst]. rewrite !with_status_kept, length_fmap. split_and!.
  - apply (count_listed event_index); [done|done|]. intros; by eapply event_keys.
  - by apply (count_listed job_index (fun j => bool_decide (jb_status j = Completed) && expired_job options j)).
  - by apply (count_listed job_index (fun j => bool_decide (jb_status j = Dead) && expired_job options j)).
Qed.

(** What a call leaves, by its answer. *)
Definition retained_outcome options cursor e L J (r : thingd_result RetentionReport) e' : Prop :=
  let E' := kept (expired_event options cursor) (lg_events L) in
  let J' := kept (expired_job options) J in
  match r with
  | Ok report =>
      report_counts options cursor L J report /\
      if ro_dry_run options then e' = e
      else exists L', event_sim e' L' /\ lg_events L' = E' /\ lg_counters L' = lg_counters L /\ queue_inv e' J'
  | Err _ =>
      exists L', event_sim e' L' /\ lg_counters L' = lg_counters L /\
        ((lg_events L' = lg_events L /\ queue_inv e' J) \/ (lg_events L' = E' /\ queue_inv e' J'))
  end.

(** C36. Retention.  [retain] deletes exactly the old events of unprotected streams, the old replication
    events up to the safe cursor, and the jobs that were completed or died before the cut-off; its
    report counts them, and a dry run changes nothing.  Sequence counters stay, so numbers are not
    given out again, and the queues stay consistent with their indexes and lease counters.  If it
    fails, events and jobs are either all as before or all as after: nothing is removed partly. *)
Theorem retention_exact hash_order options e L J r e' :
  (forall X, hash_order X ≡ₚ elements X) -> event_sim e L -> queue_inv e J -> retain hash_order options e = (r, e') ->
  retained_outcome options (match retention_cursor options e with Ok c => c | Err _ => None end) e L J r e'.
Proof using KvCompactLaws0.
  intros Hord He Hq. pose proof He as [Hc Hkv Hram HC HK HE HM HL]. unfold retain. rewrite pbind_pget.
  destruct (retention_cursor options e) as [cursor|err]; [|intros [= <- <-]; exists L; eauto]. rewrite pbind_plift.
  destruct (all_events e L He) as (evs&Hiter&Hwt&Hin&Hsort). destruct (all_jobs e J Hq) as (js&Hjiter&Hjwt&Hjin&Hjnd).
  rewrite Hiter, Hjiter, Hc, decode_events, pbind_plift, decode_jobs, pbind_plift by done. rewrite (retain_jobs options js []).
  destruct (retain_events options cursor evs ([], 0)) as (skipped&->). cbn [fst snd app].
  set (xs := List.filter (expired_event options cursor) evs). set (ys := List.filter (expired_job options) js).
  assert (Hxs : forall ev, ev ∈ xs -> lg_events L !! event_index ev = Some ev /\ expired_event options cursor ev = true) by (intros ev [Hev Hx]%elem_of_filter_bool; by rewrite <-Hin).
  set (report := retention_report options cursor (event_deletion <$> xs, skipped) (job_deletion <$> ys)).
  assert (Hrep : forall b, report_counts options cursor L J (report b)) by (intros b; apply (report_exact options cursor e); [done|by apply sorted_index_NoDup|done..]).
  unfold retained_outcome. destruct (ro_dry_run options) eqn:Hdry; [by intros [= <- <-]|].
  assert (Hdels : (event_deletion <$> xs).*2 = xs) by (rewrite <-list_fmap_compose; apply list_fmap_id). rewrite Hdels, !length_fmap.
  set (E' := kept (expired_event options cursor) (lg_events L)). set (J' := kept (expired_job options) J).
  assert (Hdone : forall e1 b, both e1 (with_events L E') J' -> after_removal hash_order options xs b report e1 = (r, e') ->
    retained_outcome options cursor e L J r e').
  { intros e1 b Hb1 Hrun. destruct (after_removal_both hash_order options (expired_event options cursor) e1 L J' xs b report r e' Hord HL Hb1 Hxs Hrun) as (L'&[Hs' Hq']&HE'&HC'&Hr).
    unfold retained_outcome. rewrite Hdry. destruct r as [a|err]; [|exists L'; eauto 8]. destruct Hr as [c ->]. split; [done|]. by exists L'. }
  unfold retained_outcome in Hdone. rewrite Hdry in Hdone. destruct (bool_decide (length xs = 0%nat) && _) eqn:Hnone.
  - apply andb_true_iff in Hnone as [Hx%bool_decide_eq_true Hy%bool_decide_eq_true]. apply length_zero_iff_nil in Hx, Hy. intros Hrun. apply (Hdone e false); [|exact Hrun].
    assert (HE0 : E' = lg_events L) by (apply (kept_none event_index _ evs); [done|done|by intros; eapply event_keys]).
    assert (HJ0 : J' = J) by (apply (kept_none job_index _ js); [done|done|by intros; eapply job_keys]).
    rewrite HE0, HJ0. split; [|done]. by destruct L.
  - intros Hrun. destruct (commit (retention_batch (event_deletion <$> xs) (job_deletion <$> ys)) e) as [r1 e1] eqn:Hcommit. pose proof (retention_batch_both options cursor e L J evs js r1 e1 (conj He Hq) Hin Hjin Hcommit) as Hb1. destruct r1 as [[]|err].
    + rewrite (pbind_Ok _ _ _ _ _ Hcommit) in Hrun. by apply (Hdone e1 true).
    + rewrite (pbind_Err _ _ _ _ _ Hcommit) in Hrun. injection Hrun as <- <-. destruct Hb1. exists L. eauto 8.
Qed.
End proofs.

(** ** Samples *)

#[local] Existing Instance sample_crc32.
#[local] Existing Instance sample_codec.
#[local] Existing Instance sample_serde_meta.
#[local] Existing Instance sample_serde_object.
#[local] Existing Instance email_json.

(** Compaction of a database in memory. *)
#[local] Instance ram_compact : KvCompact RamKeyspaces := {|
  kv_compact s _ := (Err "ThingDB in-memory databases do not support compaction", s);
|}.
#[local] Instance ram_compact_laws : KvCompactLaws RamKeyspaces.
Proof. intros s n r s' Hs [= <- <-]. done. Qed.

#[local, refine] Instance email_numbers : JsonNumbers := {| number_from_u64 n := n; number_as_u64 n := Some n |}.
Proof. done. Defined.

(** Timestamps are the years before 2025. *)
#[local] Instance year_dates : Chrono := {|
  DateTime := unit; parse_from_rfc3339 s := if bool_decide (s = "2024") then Some () else None; parse_datetime_utc _ := None;
  with_timezone_utc d := d; format_datetime _ _ := ""; timestamp_millis _ := 2024;
|}.

Lemma paid_engine_queues : queue_inv paid_engine ∅.
Proof.
  assert (Hv : kv_view (pe_db paid_engine) "queue_jobs" = ∅ /\ kv_view (pe_db paid_engine) "ready_jobs" = ∅ /\ kv_view (pe_db paid_engine) "lease_jobs" = ∅) by (split_and!; vm_compute; reflexivity).
  destruct Hv as (V1&V2&V3). assert (Hmem : pe_queue_lease_counts paid_engine = ∅ /\ pe_queue_lease_expirations paid_engine = ∅ /\ pe_queue_ready_cursors paid_engine = ∅) by (split_and!; vm_compute; reflexivity).
  destruct Hmem as (M1&M2&M3). split.
  - apply paid_engine_sim.
  - apply paid_engine_sim.
  - split; [intros i j Hi; by rewrite lookup_empty in Hi|rewrite V1|rewrite V2|rewrite V3]; apply indexed_empty.
  - split; intros q; rewrite ?M1, ?M2; by rewrite lookup_empty.
  - intros q c _. by rewrite M3, lookup_empty.
  - vm_compute. done.
Qed.

Definition drop_2024 : RetentionOptions := mkRetention 2025 false false false.

Lemma retention_exact_witness :
  rr_events <$> (retain elements drop_2024 paid_engine).1 = Ok 1 /\
  retained_outcome drop_2024 None paid_engine paid_log ∅ (retain elements drop_2024 paid_engine).1 (retain elements drop_2024 paid_engine).2.
Proof.
  split; [vm_compute; reflexivity|].
  apply (retention_exact elements drop_2024 paid_engine paid_log ∅); [done|apply paid_engine_sim|apply paid_engine_queues|apply surjective_pairing].
Defined.

(** Compaction is requested after the deletion: a database in memory has lost its events when the
    call fails. *)
Lemma failed_compaction_deletes :
  let run := retain elements (mkRetention 2025 false true false) paid_engine in
  run.1 = Err (Storage "ThingDB in-memory databases do not support compaction") /\ kv_iter (pe_db paid_engine) "events" <> [] /\ kv_iter (pe_db run.2) "events" = [].
Proof. cbv zeta. split; [vm_compute; reflexivity|]. split; [vm_compute; done|vm_compute; reflexivity]. Qed.
