(* ===== verification/Search.v ===== *)
(** * thingd: the search index of the persistent engine

    Models the full-text search of [PersistentEngine] ([crates/thingd/src/persistent.rs]): the
    documents of objects and events, the bounded queue of mutations that writes fill and a worker
    thread drains in batches ([SearchMutationQueue]), the rebuild of the index in bounded steps
    with the replay of what was written meanwhile ([search_rebuild_step]), the maintenance state,
    opening, and the query itself with its bounded heap of hits ([search_tantivy]).

    Tantivy is a parameter (class [TextIndex]): the index, its writer and its reader in one value.
    Results of file operations, hash orders and clock readings are arguments.  The field
    [si_ignored] does not exist in the source: it is set where the source drops an error of the
    index, or has no writer to write a document with. *)

From S2P Require Import Prelude Wal Table Layer Database ThingDb Keyspace RamScan Model Objects Events Links Storage RustStd Analytics Persistent PStore PQueue PEvents PObjects PAnalytics PRetain.
From Stdlib Require Import SpecFloat.

(** ** Documents *)

Record Document := mkDocument {
  dc_doc_key : string;
  dc_collection : string;
  dc_id : string;
  dc_body : string;
  dc_kind : string;
}.

#[export] Instance Document_eq_dec : EqDecision Document.
Proof. solve_decision. Defined.

Inductive SearchIndexMutation :=
| UpsertObject (collection id body : string)
| DeleteObject (collection id : string)
| UpsertEvent (stream : string) (sequence : Z) (body : string)
| DeleteEvent (stream : string) (sequence : Z).

Definition object_doc_key (collection id : string) : string := collection +:+ "/" +:+ id.
Definition event_doc_key (stream : string) (sequence : Z) : string := "event:" +:+ stream +:+ "/" +:+ format_pad 1 sequence.

Definition object_document (collection id body : string) : Document :=
  mkDocument (object_doc_key collection id) collection id body "object".
Definition event_document (stream : string) (sequence : Z) (body : string) : Document :=
  mkDocument (event_doc_key stream sequence) stream (format_pad 1 sequence) body "event".

(** ** The index

    A document is written to the writer, becomes durable with a commit and visible to queries when
    the reader is reloaded.  [tx_parse_query] tells whether a text is a query, and [tx_matching]
    gives the visible documents that match it, with their scores and addresses. *)

Abbreviation DocAddress := (Z * Z)%type.

Record RankedSearchDoc := mkRanked { rk_score : spec_float; rk_address : DocAddress }.

Class TextIndex := {
  tx : Type;
  tx_create : tx;
  tx_reopen : tx -> tx;
  tx_delete_term : string -> tx -> tx;
  tx_add_document : Document -> tx -> storage_result unit * tx;
  tx_commit : tx -> storage_result unit * tx;
  tx_reload : tx -> storage_result unit * tx;
  tx_parse_query : tx -> string -> storage_result unit;
  tx_matching : tx -> string -> storage_result (list (RankedSearchDoc * Document));
}.

Class TextIndexLaws `{TextIndex} := {
  tx_live : tx -> list Document;
  tx_committed : tx -> list Document;
  tx_visible : tx -> list Document;
  tx_create_docs : tx_live tx_create = [] /\ tx_committed tx_create = [] /\ tx_visible tx_create = [];
  tx_reopen_docs t : let t' := tx_reopen t in
    tx_live t' = tx_committed t /\ tx_committed t' = tx_committed t /\ tx_visible t' = tx_committed t;
  tx_delete_docs k t : let t' := tx_delete_term k t in
    tx_live t' = List.filter (fun d => negb (bool_decide (dc_doc_key d = k))) (tx_live t) /\
    tx_committed t' = tx_committed t /\ tx_visible t' = tx_visible t;
  tx_add_docs d t t' : tx_add_document d t = (Ok (), t') ->
    tx_live t' = tx_live t ++ [d] /\ tx_committed t' = tx_committed t /\ tx_visible t' = tx_visible t;
  tx_commit_docs t t' : tx_commit t = (Ok (), t') ->
    tx_live t' = tx_live t /\ tx_committed t' = tx_live t /\ tx_visible t' = tx_visible t;
  tx_reload_docs t t' : tx_reload t = (Ok (), t') ->
    tx_live t' = tx_live t /\ tx_committed t' = tx_committed t /\ tx_visible t' = tx_committed t;
  tx_matching_docs t q l : tx_matching t q = Ok l ->
    (forall x, x ∈ l -> x.2 ∈ tx_visible t) /\ NoDup (rk_address ∘ fst <$> l);
}.

(** ** The queue of mutations *)

Record SearchQueueState := mkSearchQueue {
  sq_pending : gmap string SearchIndexMutation;
  sq_in_flight : bool;
  sq_queued : Z;
  sq_coalesced : Z;
  sq_committed : Z;
  sq_last_commit_unix_ms : option Z;
  sq_last_commit_duration_ms : option Z;
  sq_last_error : option string;
  sq_retry_count : Z;
  sq_stale : bool;
}.

Record SearchMutationQueue := mkMutationQueue { mq_state : SearchQueueState; mq_max_keys : Z; mq_shutdown : bool }.

Definition empty_search_queue : SearchQueueState := mkSearchQueue ∅ false 0 0 0 None None None 0 false.
Definition new_search_queue (max_keys : Z) : SearchMutationQueue := mkMutationQueue empty_search_queue (Z.max max_keys 1) false.

Definition pending_len (q : SearchQueueState) : Z := Z.of_nat (size (sq_pending q)).

Definition with_pending (q : SearchQueueState) (pending : gmap string SearchIndexMutation) (coalesced : Z) : SearchQueueState :=
  mkSearchQueue pending (sq_in_flight q) (u64_saturating_add (sq_queued q) 1) coalesced (sq_committed q) (sq_last_commit_unix_ms q)
    (sq_last_commit_duration_ms q) (sq_last_error q) (sq_retry_count q) (sq_stale q).

Definition enqueue (key : string) (mutation : SearchIndexMutation) (mq : SearchMutationQueue) : bool * SearchMutationQueue :=
  let q := mq_state mq in
  if bool_decide (is_Some (sq_pending q !! key)) then
    (true, mkMutationQueue (with_pending q (<[key := mutation]> (sq_pending q)) (u64_saturating_add (sq_coalesced q) 1)) (mq_max_keys mq) (mq_shutdown mq))
  else if mq_max_keys mq <=? pending_len q then
    (false, mkMutationQueue (mkSearchQueue ∅ (sq_in_flight q) (u64_saturating_add (sq_queued q) 1) (sq_coalesced q) (sq_committed q)
       (sq_last_commit_unix_ms q) (sq_last_commit_duration_ms q) (Some "search mutation queue capacity reached") (sq_retry_count q) true)
       (mq_max_keys mq) (mq_shutdown mq))
  else (true, mkMutationQueue (with_pending q (<[key := mutation]> (sq_pending q)) (sq_coalesced q)) (mq_max_keys mq) (mq_shutdown mq)).

(** [take_batch] releases the lock while it waits.  It is cut at its two waits: entering, waking
    with something pending, and waking after waiting for a full batch. *)
Inductive TakeOutcome :=
| Returned (batch : list SearchIndexMutation) (q : SearchQueueState)
| WaitPending
| WaitBatch.

Fixpoint remove_pending (keys : list string) (pending : gmap string SearchIndexMutation) : list SearchIndexMutation * gmap string SearchIndexMutation :=
  match keys with
  | [] => ([], pending)
  | key :: keys =>
      let '(batch, rest) := remove_pending keys (delete key pending) in
      (match pending !! key with Some m => m :: batch | None => batch end, rest)
  end.

Section take.
Context (order : gmap string SearchIndexMutation -> list string) (batch_size : Z).

Definition take_filled (q : SearchQueueState) : list SearchIndexMutation * SearchQueueState :=
  let keys := take (Z.to_nat (Z.max batch_size 1)) (order (sq_pending q)) in
  let '(batch, rest) := remove_pending keys (sq_pending q) in
  (batch, mkSearchQueue rest (negb (bool_decide (keys = []))) (sq_queued q) (sq_coalesced q) (sq_committed q) (sq_last_commit_unix_ms q)
     (sq_last_commit_duration_ms q) (sq_last_error q) (sq_retry_count q) (sq_stale q)).

Definition returned (r : list SearchIndexMutation * SearchQueueState) : TakeOutcome := Returned r.1 r.2.

(** From the check of the batch size on. *)
Definition take_rest (mq : SearchMutationQueue) : TakeOutcome :=
  let q := mq_state mq in
  if pending_len q <? Z.max batch_size 1 then if mq_shutdown mq then returned (take_filled q) else WaitBatch
  else returned (take_filled q).

Definition take_enter (mq : SearchMutationQueue) : TakeOutcome :=
  let q := mq_state mq in
  if sq_stale q then Returned [] q
  else if bool_decide (sq_pending q = ∅) then if mq_shutdown mq then Returned [] q else WaitPending
  else take_rest mq.

Definition take_woken (mq : SearchMutationQueue) : TakeOutcome :=
  let q := mq_state mq in
  if mq_shutdown mq || sq_stale q || bool_decide (sq_pending q = ∅) then Returned [] q else take_rest mq.
End take.

Definition record_commit (now duration count : Z) (q : SearchQueueState) : SearchQueueState :=
  mkSearchQueue (sq_pending q) false (sq_queued q) (sq_coalesced q) (u64_saturating_add (sq_committed q) count) (Some now)
    (Some (Z.min duration U64_MAX)) None 0 (sq_stale q).

Definition record_error (error : string) (q : SearchQueueState) : SearchQueueState :=
  mkSearchQueue (sq_pending q) false (sq_queued q) (sq_coalesced q) (sq_committed q) (sq_last_commit_unix_ms q)
    (sq_last_commit_duration_ms q) (Some error) (u64_saturating_add (sq_retry_count q) 1) true.

Definition needs_fallback (mq : SearchMutationQueue) : bool :=
  let q := mq_state mq in sq_in_flight q || negb (bool_decide (sq_pending q = ∅)) || sq_stale q.
Definition is_stale (mq : SearchMutationQueue) : bool := sq_stale (mq_state mq).
Definition shutdown (mq : SearchMutationQueue) : SearchMutationQueue := mkMutationQueue (mq_state mq) (mq_max_keys mq) true.
Definition with_queue_state (mq : SearchMutationQueue) (q : SearchQueueState) : SearchMutationQueue :=
  mkMutationQueue q (mq_max_keys mq) (mq_shutdown mq).

(** ** Rebuilding and maintenance *)

Inductive PersistentSearchMode := PersistentMode | PersistentNoRebuild | PersistentAsync | PersistentRecovery | Disabled.

#[export] Instance PersistentSearchMode_eq_dec : EqDecision PersistentSearchMode.
Proof. solve_decision. Defined.

Inductive SearchRebuildPhase := ObjectsPhase | EventsPhase | ReplayPhase.

Inductive SearchReplayMutation := ReplayUpsertObject | ReplayDeleteObject | ReplayUpsertEvent | ReplayDeleteEvent.

Record SearchRebuildProgress := mkProgress {
  sp_generation : Z;
  sp_phase : SearchRebuildPhase;
  sp_object_cursor : option bytes;
  sp_event_cursor : option bytes;
  sp_processed : Z;
  sp_total : Z;
  sp_replay : gmap string SearchReplayMutation;
  sp_replay_overflow : bool;
  sp_error : option string;
}.

Definition SEARCH_REBUILD_REPLAY_LIMIT : Z := 100000.

(** The fields of [StorageMaintenanceStatus] that the engine keeps; the others are filled in from
    the queue and the journal when the status is asked for. *)
Record Maintenance := mkMaintenance {
  mt_state : string;
  mt_generation : Z;
  mt_retry_count : Z;
  mt_error : option string;
  mt_phase : string;
  mt_processed : Z;
  mt_total : Z;
}.

(** What the worker thread is about to do. *)
Inductive Worker :=
| NoWorker
| TakeBatch
| AwaitPending
| AwaitBatch
| GotNothing
| Apply (batch : list SearchIndexMutation)
| RecordCommit (count : nat)
| RecordError (error : string).

Inductive IndexPlace := InMemory | SearchDirectory | RebuildDirectory.

Record SearchConfig := mkSearchConfig {
  cf_mode : PersistentSearchMode;
  cf_in_memory : bool;
  cf_encrypted : bool;
  cf_commit_batch_size : Z;
  cf_queue_max_keys : Z;
  cf_recovery_max_retries : Z;
  cf_max_journal_bytes : Z;
}.

(** Outcomes of the calls that create or open an index and its files. *)
Record IndexIo `{TextIndex} := mkIo {
  io_create : thingd_result unit;
  io_existing : option tx;
  io_marker : thingd_result unit;
  io_writer : thingd_result unit;
  io_reader : thingd_result unit;
  io_promote : thingd_result unit;
  io_reopen_writer : thingd_result unit;
  io_reopen_reader : thingd_result unit;
  io_spawn : bool;
}.
Arguments mkIo {_} _ _ _ _ _ _ _ _ _.

Record SearchState `{TextIndex} := mkSearch {
  si_index : option tx;
  si_place : IndexPlace;
  si_writer : bool;
  si_reader : bool;
  si_queue : option SearchMutationQueue;
  si_worker : Worker;
  si_rebuild : option SearchRebuildProgress;
  si_rebuild_required : bool;
  si_rebuild_path : bool;
  si_maintenance : Maintenance;
  si_ignored : bool;
}.
Arguments mkSearch {_} _ _ _ _ _ _ _ _ _ _ _.

Section state.
Context `{TextIndex}.
Implicit Types (s : SearchState) (t : tx).

Definition set_index s (index : option tx) (place : IndexPlace) (writer reader : bool) : SearchState :=
  mkSearch index place writer reader (si_queue s) (si_worker s) (si_rebuild s) (si_rebuild_required s) (si_rebuild_path s) (si_maintenance s) (si_ignored s).
Definition set_contents s t (ignored : bool) : SearchState :=
  mkSearch (Some t) (si_place s) (si_writer s) (si_reader s) (si_queue s) (si_worker s) (si_rebuild s) (si_rebuild_required s) (si_rebuild_path s)
    (si_maintenance s) (si_ignored s || ignored).
Definition set_ignored s : SearchState :=
  mkSearch (si_index s) (si_place s) (si_writer s) (si_reader s) (si_queue s) (si_worker s) (si_rebuild s) (si_rebuild_required s) (si_rebuild_path s)
    (si_maintenance s) true.
Definition set_queue s (q : option SearchMutationQueue) (w : Worker) : SearchState :=
  mkSearch (si_index s) (si_place s) (si_writer s) (si_reader s) q w (si_rebuild s) (si_rebuild_required s) (si_rebuild_path s)
    (si_maintenance s) (si_ignored s).
Definition set_rebuild s (p : option SearchRebuildProgress) (required path : bool) : SearchState :=
  mkSearch (si_index s) (si_place s) (si_writer s) (si_reader s) (si_queue s) (si_worker s) p required path (si_maintenance s) (si_ignored s).
Definition set_maintenance s (m : Maintenance) : SearchState :=
  mkSearch (si_index s) (si_place s) (si_writer s) (si_reader s) (si_queue s) (si_worker s) (si_rebuild s) (si_rebuild_required s) (si_rebuild_path s) m (si_ignored s).
Definition set_phase s (state phase : string) : SearchState :=
  let m := si_maintenance s in
  set_maintenance s (mkMaintenance state (mt_generation m) (mt_retry_count m) (mt_error m) phase (mt_processed m) (mt_total m)).
Definition set_state s (state : string) : SearchState := set_phase s state (mt_phase (si_maintenance s)).

(** Whether a dropped result was an error. *)
Definition failed {A} (r : storage_result A) : bool := match r with Ok _ => false | Err _ => true end.

(** ** The worker *)

(** The schema of the index has the fields of a document. *)
Definition apply_search_mutation (mutation : SearchIndexMutation) t : thingd_result unit * tx :=
  match mutation with
  | UpsertObject collection id body =>
      let '(r, t) := tx_add_document (object_document collection id body) (tx_delete_term (object_doc_key collection id) t) in (storage_error r, t)
  | UpsertEvent stream sequence body =>
      let '(r, t) := tx_add_document (event_document stream sequence body) (tx_delete_term (event_doc_key stream sequence) t) in (storage_error r, t)
  | DeleteObject collection id => (Ok (), tx_delete_term (object_doc_key collection id) t)
  | DeleteEvent stream sequence => (Ok (), tx_delete_term (event_doc_key stream sequence) t)
  end.

Fixpoint apply_mutations (batch : list SearchIndexMutation) t : thingd_result unit * tx :=
  match batch with
  | [] => (Ok (), t)
  | mutation :: batch =>
      match apply_search_mutation mutation t with (Ok _, t) => apply_mutations batch t | (Err err, t) => (Err err, t) end
  end.

Definition apply_and_commit (batch : list SearchIndexMutation) t : thingd_result unit * tx :=
  match apply_mutations batch t with
  | (Ok _, t) => let '(r, t) := tx_commit t in (storage_error r, t)
  | (Err err, t) => (Err err, t)
  end.

(** The worker has the writer from taking its lock to the commit, and reloads the reader. *)
Definition worker_apply (batch : list SearchIndexMutation) s : SearchState :=
  match si_index s with
  | None => s
  | Some t =>
      match apply_and_commit batch t with
      | (Ok _, t) =>
          let '(r, t) := tx_reload t in
          set_queue (set_contents s t (failed r)) (si_queue s) (RecordCommit (length batch))
      | (Err err, t) => set_queue (set_contents s t false) (si_queue s) (RecordError (display_error err))
      end
  end.

Definition worker_took (mq : SearchMutationQueue) (o : TakeOutcome) s : SearchState :=
  match o with
  | Returned [] q => set_queue s (Some (with_queue_state mq q)) GotNothing
  | Returned batch q => set_queue s (Some (with_queue_state mq q)) (Apply batch)
  | WaitPending => set_queue s (Some mq) AwaitPending
  | WaitBatch => set_queue s (Some mq) AwaitBatch
  end.

(** The next action of the worker; the queue is the one it was started with. *)
Definition worker_step (order : gmap string SearchIndexMutation -> list string) (cfg : SearchConfig) (now duration : Z) s : SearchState :=
  match si_queue s with
  | None => s
  | Some mq =>
      match si_worker s with
      | NoWorker => s
      | TakeBatch => worker_took mq (take_enter order (cf_commit_batch_size cfg) mq) s
      | AwaitPending => worker_took mq (take_woken order (cf_commit_batch_size cfg) mq) s
      | AwaitBatch => worker_took mq (returned (take_filled order (cf_commit_batch_size cfg) (mq_state mq))) s
      | GotNothing => set_queue s (Some mq) (if mq_shutdown mq then NoWorker else TakeBatch)
      | Apply batch => worker_apply batch s
      | RecordCommit count => set_queue s (Some (with_queue_state mq (record_commit now duration (Z.of_nat count) (mq_state mq)))) TakeBatch
      | RecordError error => set_queue s (Some (with_queue_state mq (record_error error (mq_state mq)))) TakeBatch
      end
  end.

Definition should_run_async_search_worker (cfg : SearchConfig) s : bool :=
  bool_decide (is_Some (si_index s)) && si_writer s && si_reader s && negb (bool_decide (cf_mode cfg = PersistentNoRebuild)) && negb (si_rebuild_required s).

(** [search_worker_started] is whether there is a queue. *)
Definition start_search_worker (cfg : SearchConfig) (spawn : bool) s : SearchState :=
  if bool_decide (is_Some (si_queue s)) || negb (should_run_async_search_worker cfg s) then s
  else set_queue s (Some (new_search_queue (cf_queue_max_keys cfg))) (if spawn then TakeBatch else NoWorker).

(** The worker is joined: what it still writes goes to an index that the callers drop. *)
Definition stop_search_worker s : SearchState := set_queue s None NoWorker.
Definition drop_index s : SearchState := set_index s None (si_place s) false false.

(** ** What writes tell the index *)

Definition search_mutation_key (m : SearchIndexMutation) : string :=
  match m with
  | UpsertObject collection id _ | DeleteObject collection id => "object:" +:+ object_doc_key collection id
  | UpsertEvent stream sequence _ | DeleteEvent stream sequence => event_doc_key stream sequence
  end.
Definition replay_kind (m : SearchIndexMutation) : SearchReplayMutation :=
  match m with
  | UpsertObject _ _ _ => ReplayUpsertObject
  | DeleteObject _ _ => ReplayDeleteObject
  | UpsertEvent _ _ _ => ReplayUpsertEvent
  | DeleteEvent _ _ => ReplayDeleteEvent
  end.

Definition record_search_mutation (key : string) (mutation : SearchReplayMutation) s : SearchState :=
  match si_rebuild s with
  | None => s
  | Some p =>
      let record replay overflow := set_rebuild s (Some (mkProgress (sp_generation p) (sp_phase p) (sp_object_cursor p) (sp_event_cursor p)
        (sp_processed p) (sp_total p) replay overflow (sp_error p))) (si_rebuild_required s) (si_rebuild_path s) in
      if (SEARCH_REBUILD_REPLAY_LIMIT <=? Z.of_nat (size (sp_replay p))) && negb (bool_decide (is_Some (sp_replay p !! key)))
      then record (sp_replay p) true else record (<[key := mutation]> (sp_replay p)) (sp_replay_overflow p)
  end.

(** [index_object_for_search], [index_event_for_search] and the two deletions. *)
Definition enqueue_for_search (cfg : SearchConfig) (m : SearchIndexMutation) s : SearchState :=
  if bool_decide (cf_mode cfg = PersistentNoRebuild) then s else
  match si_queue s with
  | Some mq => set_queue s (Some (enqueue (search_mutation_key m) m mq).2) (si_worker s)
  | None => s
  end.

(** A write that changed a record. *)
Definition notify (cfg : SearchConfig) (m : SearchIndexMutation) s : SearchState :=
  enqueue_for_search cfg m (record_search_mutation (search_mutation_key m) (replay_kind m) s).
End state.

(** ** Writing documents during a rebuild *)

Section documents.
Context `{TextIndex}.
Implicit Types (s : SearchState) (t : tx) (o : MemoryObject) (ev : MemoryEvent).

Definition with_writer (f : tx -> SearchState) s : SearchState :=
  match si_index s with Some t => if si_writer s then f t else set_ignored s | None => set_ignored s end.

Definition reload_search_reader s : SearchState :=
  match si_index s with
  | Some t => if si_reader s then let '(r, t) := tx_reload t in set_contents s t (failed r) else s
  | None => s
  end.

Definition commit_search_index s : SearchState :=
  with_writer (fun t => let '(r, t) := tx_commit t in reload_search_reader (set_contents s t (failed r))) s.

Definition add_to_index (d : Document) t s : SearchState :=
  let '(r, t) := tx_add_document d t in set_contents s t (failed r).

(** Both are called without a commit. *)
Definition index_object_for_search_with_commit o s : SearchState :=
  let '(collection, id) := ob_key o in
  with_writer (fun t => add_to_index (object_document collection id (ob_body o)) (tx_delete_term (object_doc_key collection id) t) s) s.
Definition index_event_for_search_with_commit ev s : SearchState :=
  with_writer (fun t => add_to_index (event_document (ev_stream ev) (ev_sequence ev) (ev_body ev)) t s) s.

Definition delete_document (doc_key : string) s : SearchState :=
  with_writer (fun t => let '(r, t) := tx_commit (tx_delete_term doc_key t) in reload_search_reader (set_contents s t (failed r))) s.
Definition delete_object_from_search_index (collection id : string) s : SearchState := delete_document (object_doc_key collection id) s.
Definition delete_event_from_search_index (stream : string) (sequence : Z) s : SearchState := delete_document (event_doc_key stream sequence) s.
End documents.

(** [str::split_once] and [str::rsplit_once] at a slash. *)
Fixpoint split_once (s : string) : option (string * string) :=
  match s with
  | EmptyString => None
  | String c s => if bool_decide (Ascii.nat_of_ascii c = 47%nat) then Some ("", s) else (fun x => (String c x.1, x.2)) <$> split_once s
  end.
Fixpoint rsplit_once (s : string) : option (string * string) :=
  match s with
  | EmptyString => None
  | String c s =>
      match rsplit_once s with
      | Some (a, b) => Some (String c a, b)
      | None => if bool_decide (Ascii.nat_of_ascii c = 47%nat) then Some ("", s) else None
      end
  end.

(** ** The rebuild *)

Section rebuild.
Context `{TextIndex} `{Kv D} {vector_ok : list spec_float -> Prop}.
Context `{!Serde MemoryObject (object_wt vector_ok)} `{!Serde MemoryEvent event_wt}.
Implicit Types (s : SearchState) (p : SearchRebuildProgress) (e : PersistentEngine D) (cfg : SearchConfig) (io : IndexIo).

Definition index_object_entry e (value : bytes) s : thingd_result SearchState :=
  o ← deserialize (pe_codec e) value; Ok (index_object_for_search_with_commit o s).
Definition index_event_entry e (value : bytes) s : thingd_result SearchState :=
  ev ← deserialize (pe_codec e) value; Ok (index_event_for_search_with_commit ev s).

(** The loop over a page: the key of the last entry, or the error that stopped it. *)
Fixpoint index_entries (index_entry : bytes -> SearchState -> thingd_result SearchState) (entries : list (bytes * bytes))
    (last_key : option bytes) (processed : Z) s : thingd_result (option bytes) * Z * SearchState :=
  match entries with
  | [] => (Ok last_key, processed, s)
  | (key, value) :: entries =>
      match index_entry value s with
      | Ok s => index_entries index_entry entries (Some key) (processed + 1) s
      | Err err => (Err err, processed, s)
      end
  end.

Definition entries_after e (ks : string) (cursor : option bytes) : list (bytes * bytes) :=
  match cursor with Some c => kv_after (pe_db e) ks c | None => kv_iter (pe_db e) ks end.
Definition exhausted e (ks : string) (cursor : option bytes) : bool :=
  match cursor with Some c => bool_decide (length (kv_after (pe_db e) ks c) = 0%nat) | None => true end.

Definition with_processed p (processed : Z) : SearchRebuildProgress :=
  mkProgress (sp_generation p) (sp_phase p) (sp_object_cursor p) (sp_event_cursor p) processed (sp_total p) (sp_replay p) (sp_replay_overflow p) (sp_error p).
Definition with_object_cursor p (cursor : option bytes) (phase : SearchRebuildPhase) : SearchRebuildProgress :=
  mkProgress (sp_generation p) phase cursor (sp_event_cursor p) (sp_processed p) (sp_total p) (sp_replay p) (sp_replay_overflow p) (sp_error p).
Definition with_event_cursor p (cursor : option bytes) (phase : SearchRebuildPhase) : SearchRebuildProgress :=
  mkProgress (sp_generation p) phase (sp_object_cursor p) cursor (sp_processed p) (sp_total p) (sp_replay p) (sp_replay_overflow p) (sp_error p).
Definition with_replay p (replay : gmap string SearchReplayMutation) : SearchRebuildProgress :=
  mkProgress (sp_generation p) (sp_phase p) (sp_object_cursor p) (sp_event_cursor p) (sp_processed p) (sp_total p) replay (sp_replay_overflow p) (sp_error p).
Definition with_error p (error : string) : SearchRebuildProgress :=
  mkProgress (sp_generation p) (sp_phase p) (sp_object_cursor p) (sp_event_cursor p) (sp_processed p) (sp_total p) (sp_replay p) (sp_replay_overflow p) (Some error).

Abbreviation StepResult := (thingd_result bool * SearchRebuildProgress * SearchState)%type.

Definition rebuild_objects e (batch_size : nat) p s : StepResult :=
  let items := take batch_size (entries_after e "objects" (sp_object_cursor p)) in
  let '(r, processed, s) := index_entries (index_object_entry e) items None (sp_processed p) s in
  let p := with_processed p processed in
  match r with
  | Err err => (Err err, p, s)
  | Ok last_key =>
      (Ok false, with_object_cursor p last_key (if exhausted e "objects" last_key then EventsPhase else ObjectsPhase), commit_search_index s)
  end.

Definition rebuild_events e (batch_size : nat) p s : StepResult :=
  let items := take batch_size (entries_after e "events" (sp_event_cursor p)) in
  let '(r, processed, s) := index_entries (index_event_entry e) items None (sp_processed p) s in
  let p := with_processed p processed in
  match r with
  | Err err => (Err err, p, s)
  | Ok last_key =>
      (Ok false, with_event_cursor p last_key (if exhausted e "events" last_key then ReplayPhase else EventsPhase), commit_search_index s)
  end.

(** [objects.get] and [events.get] of the record a replayed key names. *)
Definition get_stored_object e (collection id : string) : thingd_result (option MemoryObject) :=
  v ← storage_error (kv_get (pe_db e) "objects" (make_object_key (pe_codec e) collection id));
  match v with Some data => Some <$> deserialize (pe_codec e) data | None => Ok None end.
Definition get_stored_event e (stream : string) (sequence : Z) : thingd_result (option MemoryEvent) :=
  v ← storage_error (kv_get (pe_db e) "events" (make_event_key (pe_codec e) stream sequence));
  match v with Some data => Some <$> deserialize (pe_codec e) data | None => Ok None end.

Definition replay_object_key (key : string) : option (string * string) := value ← Links.strip_prefix "object:" key; split_once value.
Definition replay_event_key (key : string) : option (string * Z) :=
  value ← Links.strip_prefix "event:" key; x ← rsplit_once value; n ← parse_u64 x.2; Some (x.1, n).

Definition replay_search_mutation e (key : string) (m : SearchReplayMutation) s : thingd_result SearchState :=
  match m with
  | ReplayUpsertObject =>
      match replay_object_key key with
      | None => Ok s
      | Some (collection, id) =>
          o ← get_stored_object e collection id;
          Ok (match o with Some o => index_object_for_search_with_commit o s | None => delete_object_from_search_index collection id s end)
      end
  | ReplayDeleteObject =>
      Ok (match replay_object_key key with Some (collection, id) => delete_object_from_search_index collection id s | None => s end)
  | ReplayUpsertEvent =>
      match replay_event_key key with
      | None => Ok s
      | Some (stream, sequence) =>
          ev ← get_stored_event e stream sequence;
          Ok (match ev with Some ev => index_event_for_search_with_commit ev s | None => delete_event_from_search_index stream sequence s end)
      end
  | ReplayDeleteEvent =>
      Ok (match replay_event_key key with Some (stream, sequence) => delete_event_from_search_index stream sequence s | None => s end)
  end.

Fixpoint replay_all e (replay : list (string * SearchReplayMutation)) s : thingd_result unit * SearchState :=
  match replay with
  | [] => (Ok (), s)
  | (key, m) :: replay =>
      match replay_search_mutation e key m s with Ok s => replay_all e replay s | Err err => (Err err, s) end
  end.

(** The rebuilt directory takes the place of the old one and is opened again. *)
Definition promote_search_generation io s : thingd_result unit * SearchState :=
  if negb (si_rebuild_path s) then (Ok (), s) else
  let rebuilt := si_index s in
  let s := drop_index (stop_search_worker (set_rebuild s (si_rebuild s) (si_rebuild_required s) false)) in
  match io_promote io with
  | Err err => (Err err, s)
  | Ok _ =>
      let index := tx_reopen <$> rebuilt in
      match io_reopen_writer io with
      | Err err => (Err err, set_index s index SearchDirectory false false)
      | Ok _ =>
          match io_reopen_reader io with
          | Err err => (Err err, set_index s index SearchDirectory true false)
          | Ok _ => (Ok (), set_index s index SearchDirectory true true)
          end
      end
  end.

Definition finish_rebuild cfg io s : SearchState :=
  let s := start_search_worker cfg (io_spawn io) (set_rebuild s None false (si_rebuild_path s)) in
  let m := si_maintenance s in
  set_maintenance s (mkMaintenance "idle" (u64_saturating_add (mt_generation m) 1) (mt_retry_count m) (mt_error m) "complete" (mt_processed m) (mt_total m)).

Definition rebuild_replay cfg e (order : gmap string SearchReplayMutation -> list (string * SearchReplayMutation)) io p s : StepResult :=
  if sp_replay_overflow p then
    let m := si_maintenance s in
    (Ok false, with_error p "search rebuild mutation replay exceeded 100000 keys",
     set_maintenance s (mkMaintenance "degraded" (mt_generation m) (u64_saturating_add (mt_retry_count m) 1) (mt_error m) "search-replay" (mt_processed m) (mt_total m)))
  else
    let '(r, s) := replay_all e (order (sp_replay p)) s in
    let p := with_replay p ∅ in
    match r with
    | Err err => (Err err, p, s)
    | Ok _ =>
        let s := commit_search_index s in
        let '(r, s) := if cf_in_memory cfg then (Ok (), set_rebuild s (si_rebuild s) (si_rebuild_required s) false) else promote_search_generation io s in
        match r with
        | Err err => (Err err, p, s)
        | Ok _ => (Ok true, p, finish_rebuild cfg io s)
        end
    end.

(** A new index, its marker file, its writer and its reader. *)
Definition create_rebuild_index cfg io s : thingd_result unit * SearchState :=
  match (if cf_in_memory cfg then Ok (tx_create, InMemory)
         else if cf_encrypted cfg then
           match io_existing io with Some t => Ok (t, SearchDirectory) | None => (fun _ => (tx_create, SearchDirectory)) <$> io_create io end
         else (fun _ => (tx_create, RebuildDirectory)) <$> io_create io) with
  | Err err => (Err err, s)
  | Ok (t, place) =>
      let s := set_index s (Some t) place (si_writer s) (si_reader s) in
      let s := set_rebuild s (si_rebuild s) (si_rebuild_required s) (negb (cf_in_memory cfg) && negb (cf_encrypted cfg)) in
      match (if cf_in_memory cfg then Ok () else io_marker io) with
      | Err err => (Err err, s)
      | Ok _ =>
          match io_writer io with
          | Err err => (Err err, s)
          | Ok _ =>
              let s := set_index s (si_index s) place true (si_reader s) in
              match io_reader io with
              | Err err => (Err err, s)
              | Ok _ => (Ok (), set_index s (si_index s) place true true)
              end
          end
      end
  end.

Definition start_rebuild cfg e io s : thingd_result SearchRebuildProgress * SearchState :=
  match si_rebuild s with
  | Some p => (Ok p, s)
  | None =>
      let '(r, s) := match si_index s with Some _ => (Ok (), s) | None => create_rebuild_index cfg io s end in
      match r with
      | Err err => (Err err, s)
      | Ok _ =>
          (Ok (mkProgress (Z.max (mt_generation (si_maintenance s)) 1) ObjectsPhase None None 0
                 (zlen (kv_iter (pe_db e) "objects") + zlen (kv_iter (pe_db e) "events")) ∅ false None), s)
      end
  end.

(** A stale queue is dropped with its worker and its index. *)
Definition discard_stale s : SearchState :=
  match si_queue s, si_rebuild s with
  | Some mq, None => if is_stale mq then drop_index (stop_search_worker (set_rebuild s None true (si_rebuild_path s))) else s
  | _, _ => s
  end.

Definition stopped_rebuild s : option SearchRebuildProgress :=
  p ← si_rebuild s; if bool_decide (is_Some (sp_error p)) || sp_replay_overflow p then Some p else None.

Definition search_rebuild_step cfg e (order : gmap string SearchReplayMutation -> list (string * SearchReplayMutation)) io (batch_size : Z) s
    : thingd_result bool * SearchState :=
  let s := discard_stale s in
  if negb (si_rebuild_required s) then (Ok true, s) else
  match stopped_rebuild s with
  | Some p => (Ok false, if sp_replay_overflow p then set_state s "degraded" else s)
  | None =>
      match start_rebuild cfg e io s with
      | (Err err, s) => (Err err, s)
      | (Ok p, s) =>
          let n := Z.to_nat (Z.max batch_size 1) in
          let '(r, p, s) := match sp_phase p with
                            | ObjectsPhase => rebuild_objects e n p s
                            | EventsPhase => rebuild_events e n p s
                            | ReplayPhase => rebuild_replay cfg e order io p s
                            end in
          match r with
          | Ok true => (Ok true, s)
          | Ok false => (Ok false, set_rebuild s (Some p) (si_rebuild_required s) (si_rebuild_path s))
          | Err err => (Err err, set_phase (set_rebuild s (Some (with_error p (display_error err))) (si_rebuild_required s) (si_rebuild_path s)) "failed" "failed")
          end
      end
  end.

Definition retry_search_rebuild cfg s : bool * SearchState :=
  let m := si_maintenance s in
  if negb (bool_decide (mt_state m = "degraded")) || (cf_recovery_max_retries cfg <=? mt_retry_count m) then (false, s)
  else
    let s := set_rebuild (drop_index (stop_search_worker s)) None true false in
    (true, set_maintenance s (mkMaintenance "rebuilding_search" (u64_saturating_add (mt_generation m) 1) (mt_retry_count m) None "search" (mt_processed m) (mt_total m))).
End rebuild.

(** ** Maintenance of the primary store *)

(** [Database::persist]. *)
Class KvPersist (D : Type) := { kv_persist : D -> storage_result unit }.

Section maintenance.
Context `{TextIndex} `{Kv D} `{!KvCompact D} `{!KvPersist D}.
Implicit Types (s : SearchState) (cfg : SearchConfig).

Definition primary_keyspaces : list string :=
  ["objects"; "events"; "event_meta"; "queue_jobs"; "ready_jobs"; "lease_jobs"; "links_by_id"; "links_from"; "links_to"; "schemas"; "migrations"; "indexes"]%list.

Definition persist_primary : PM D unit := fun e => (storage_error (kv_persist (pe_db e)), e).
Fixpoint compact_all (keyspaces : list string) : PM D unit :=
  match keyspaces with
  | [] => pret ()
  | ks :: keyspaces => let* _ := major_compact ks in compact_all keyspaces
  end.

Definition compact_storage cfg (e : PersistentEngine D) s : thingd_result unit * PersistentEngine D * SearchState :=
  if cf_in_memory cfg then (Err (Storage "in-memory ThingDB does not support persistence or compaction"), e, s) else
  let m := si_maintenance s in
  let s := set_maintenance s (mkMaintenance "compacting" (mt_generation m) (mt_retry_count m) None "primary" 0 0) in
  let '(r, e) := (let* _ := persist_primary in let* _ := compact_all primary_keyspaces in persist_primary) e in
  match r with
  | Ok _ => (Ok (), e, if si_rebuild_required s then set_phase s "rebuilding_search" "search" else set_phase s "idle" "complete")
  | Err err =>
      (Err err, e, set_maintenance s (mkMaintenance "failed" (mt_generation m) (mt_retry_count m) (Some (display_error err)) "failed" 0 0))
  end.

Definition request_storage_recovery cfg (journal_bytes : Z) s : bool * SearchState :=
  let m := si_maintenance s in
  if cf_in_memory cfg || (cf_max_journal_bytes cfg =? 0) || negb (bool_decide (mt_state m = "idle")) || (journal_bytes <? cf_max_journal_bytes cfg)
  then (false, s)
  else (true, set_maintenance s (mkMaintenance "compacting" (u64_saturating_add (mt_generation m) 1) (mt_retry_count m) None "primary" 0 0)).

Definition fail_storage_recovery (text : string) s : SearchState :=
  let m := si_maintenance s in
  set_maintenance s (mkMaintenance "failed" (mt_generation m) (mt_retry_count m) (Some text) (mt_phase m) (mt_processed m) (mt_total m)).

Definition needs_search_rebuild s : bool := si_rebuild_required s.
Definition search_rebuild_required s : bool :=
  si_rebuild_required s || match si_queue s with Some mq => is_stale mq | None => false end.
End maintenance.

(** ** Opening *)

Section opening.
Context `{TextIndex} `{Kv D} {vector_ok : list spec_float -> Prop}.
Context `{!Serde MemoryObject (object_wt vector_ok)} `{!Serde MemoryEvent event_wt}.
Implicit Types (s : SearchState) (e : PersistentEngine D) (cfg : SearchConfig) (io : IndexIo).

(** [io_existing] is the compatible index in the search directory, [marker] whether the marker file
    of a rebuild is there. *)
Definition init_search_index io (marker rebuild_incompatible : bool) : thingd_result (option tx * bool) :=
  if marker && negb rebuild_incompatible then Ok (None, true) else
  match io_existing io with
  | Some t => Ok (Some t, false)
  | None => if negb rebuild_incompatible then Ok (None, false) else (fun _ => (Some tx_create, true)) <$> io_create io
  end.

Definition open_index cfg io (marker : bool) : thingd_result (option tx * bool * IndexPlace) :=
  if cf_in_memory cfg then
    Ok match cf_mode cfg with Disabled | PersistentNoRebuild => (None, false, InMemory) | _ => (Some tx_create, true, InMemory) end
  else
    let on_disk r := (fun x : option tx * bool => (x, SearchDirectory)) <$> r in
    match cf_mode cfg, cf_encrypted cfg with
    | Disabled, _ => Ok (None, false, InMemory)
    | (PersistentMode | PersistentAsync), true => Ok (Some tx_create, true, InMemory)
    | PersistentNoRebuild, true => Ok (None, false, InMemory)
    | PersistentMode, false => on_disk (init_search_index io marker true)
    | PersistentRecovery, true => Ok (None, true, InMemory)
    | (PersistentAsync | PersistentRecovery), false =>
        on_disk ((fun x : option tx * bool => (x.1, bool_decide (x.1 = None))) <$> init_search_index io marker false)
    | PersistentNoRebuild, false => on_disk (init_search_index io marker false)
    end.

Definition open_maintenance cfg (rebuild : bool) (journal_bytes : Z) : Maintenance :=
  let compaction := (0 <? cf_max_journal_bytes cfg) && (cf_max_journal_bytes cfg <=? journal_bytes) in
  mkMaintenance (if rebuild then "rebuilding_search" else if compaction then "compacting" else "idle") (if rebuild then 1 else 0) 0 None
    (if rebuild || compaction then "primary" else "complete") 0 0.

(** The rebuild while opening: every object, then every event. *)
Definition index_everything e s : thingd_result SearchState :=
  let '(r, _, s) := index_entries (index_object_entry e) (kv_iter (pe_db e) "objects") None 0 s in
  _ ← r;
  let '(r, _, s) := index_entries (index_event_entry e) (kv_iter (pe_db e) "events") None 0 s in
  _ ← r; Ok (commit_search_index s).

Definition open_search cfg e io (marker : bool) (journal_bytes : Z) : thingd_result SearchState :=
  x ← open_index cfg io marker;
  let '(index, rebuild, place) := x in
  let present := bool_decide (is_Some index) in
  let writer := present && negb (bool_decide (cf_mode cfg = PersistentNoRebuild)) in
  _ ← (if writer then io_writer io else Ok ());
  _ ← (if present then io_reader io else Ok ());
  let s := mkSearch index place writer present None NoWorker None rebuild false (open_maintenance cfg rebuild journal_bytes) false in
  let s := start_search_worker cfg (io_spawn io) s in
  if rebuild then
    if bool_decide (cf_mode cfg = PersistentAsync) || bool_decide (cf_mode cfg = PersistentRecovery) then Ok s
    else
      s ← index_everything e s;
      Ok (start_search_worker cfg (io_spawn io) (set_state (set_rebuild s (si_rebuild s) false (si_rebuild_path s)) "idle"))
  else Ok (start_search_worker cfg (io_spawn io) s).
End opening.

(** ** Queries *)

(** [f32::total_cmp]: negative numbers, zeros by sign, positive numbers, and a NaN last. *)
Definition total_rank (x : spec_float) : Z * (Z * Z) :=
  match x with
  | S754_nan => (3, (0, 0))
  | S754_zero s => (0, (if s then 0 else 1, 0))
  | _ => float_rank x
  end.
Definition total_cmp (a b : spec_float) : comparison := key_cmp (total_rank a) (total_rank b).

(** [Ord for RankedSearchDoc]: the less relevant hit is the greater. *)
Definition ranked_cmp (a b : RankedSearchDoc) : comparison :=
  match total_cmp (rk_score b) (rk_score a) with Eq => key_cmp (rk_address a) (rk_address b) | c => c end.

Section heap.
Context {A : Type} (rank : A -> RankedSearchDoc).

Definition by_rank (a b : A) : comparison := ranked_cmp (rank a) (rank b).

(** The greatest element of a [BinaryHeap], and the others. *)
Fixpoint pop_worst (heap : list A) : option (A * list A) :=
  match heap with
  | [] => None
  | a :: heap =>
      match pop_worst heap with
      | None => Some (a, [])
      | Some (w, rest) => if bool_decide (by_rank w a = Lt) then Some (a, w :: rest) else Some (w, a :: rest)
      end
  end.

Definition retain_top_search_hit (limit : nat) (heap : list A) (candidate : A) : list A :=
  if bool_decide (length heap < limit)%nat then candidate :: heap
  else
    match pop_worst heap with
    | Some (worst, rest) => if bool_decide (by_rank candidate worst = Lt) then candidate :: rest else heap
    | None => heap
    end.
End heap.

Section query.
Context `{TextIndex} `{Kv D} `{SerdeJson} {vector_ok : list spec_float -> Prop}.
Context `{!Serde MemoryObject (object_wt vector_ok)} `{!Serde MemoryEvent event_wt}.
Implicit Types (s : SearchState) (e : PersistentEngine D) (cfg : SearchConfig) (d : Document).

(** The filters of [FilteredSearchSegmentCollector::collect]; the stored document is the one indexed. *)
Definition collected (options : SearchOptions) (x : RankedSearchDoc * Document) : bool :=
  listed (se_collections options) (dc_collection x.2) && pe_passes (se_filter options) (dc_body x.2).

Definition search_limit (options : SearchOptions) : Z := Z.min (default 10 (se_limit options)) 1000.

(** The hits of all segments go through one heap; [collected_order] is the order in which the
    segments hand over the matching documents. *)
Definition collect_hits (options : SearchOptions) (matching : list (RankedSearchDoc * Document)) : list (RankedSearchDoc * Document) :=
  sort_by (by_rank fst) (foldl (retain_top_search_hit fst (Z.to_nat (search_limit options))) [] (List.filter (collected options) matching)).

(** The hit of a document whose record is still there. *)
Definition document_hit e (x : RankedSearchDoc * Document) : option SearchHit :=
  let d := x.2 in
  let hit version created_at updated_at event_type id :=
    mkHit (dc_kind d) (dc_collection d) id (dc_body d) (rk_score x.1) (dc_body d) version created_at updated_at event_type in
  if bool_decide (dc_kind d = "object") then
    match get_stored_object e (dc_collection d) (dc_id d) with
    | Ok (Some o) => Some (hit (Some (ob_version o)) (ob_created_at o) (Some (ob_updated_at o)) None (dc_id d))
    | _ => None
    end
  else if bool_decide (dc_kind d = "event") then
    match parse_u64 (dc_id d) with
    | Some sequence =>
        match get_stored_event e (dc_collection d) sequence with
        | Ok (Some ev) => Some (hit None (ev_created_at ev) None (Some (ev_event_type ev)) (format_pad 1 sequence))
        | _ => None
        end
    | None => None
    end
  else None.

Definition search_tantivy (arrival : list (RankedSearchDoc * Document) -> list (RankedSearchDoc * Document)) e (t : tx) (query : string)
    (options : SearchOptions) : thingd_result (list SearchHit) :=
  match tx_parse_query t query with
  | Err err => Err (InvalidInput err)
  | Ok _ =>
      if search_limit options =? 0 then Ok [] else
      matching ← storage_error (tx_matching t query);
      Ok (omap (document_hit e) (collect_hits options (arrival matching)))
  end.

Definition uses_index cfg s : bool :=
  bool_decide (mt_state (si_maintenance s) = "idle") && bool_decide (si_rebuild s = None) && negb (bool_decide (cf_mode cfg = PersistentNoRebuild))
  && match si_queue s with Some mq => negb (needs_fallback mq) | None => true end && bool_decide (is_Some (si_index s)) && si_reader s.

Definition pe_search `{UnicodeTables} (arrival : list (RankedSearchDoc * Document) -> list (RankedSearchDoc * Document)) cfg e s (query : string)
    (options : SearchOptions) : thingd_result (list SearchHit) :=
  match si_index s with
  | Some t => if uses_index cfg s then search_tantivy arrival e t query options else search_naive e query options
  | None => search_naive e query options
  end.
End query.
