(* ===== verification/SearchSpec.v ===== *)
(** * thingd: documents of the search index

    What an index that agrees with the store holds: for every record its document, under a document
    key that belongs to one record.  Keys of different records differ when collection names hold no
    slash and do not start with [event:].  The bounded heap of [FilteredSearchCollector] keeps the
    best hits whatever the order in which the segments of the index hand them over. *)

From S2P Require Import Prelude Wal Table Layer Database Durable ThingDb Keyspace RamScan Model Objects Events Links Storage RustStd Analytics Persistent PStore PQueue PEvents PEventSpec PEventOps PObjects PObjectSpec PAnalytics PRetain Search.
From Stdlib Require Import SpecFloat.

(** ** Names in keys *)

Lemma string_app_cons c (s t : string) : String c s +:+ t = String c (s +:+ t).
Proof. done. Qed.

Lemma strip_prefix_app (p s : string) : Links.strip_prefix p (p +:+ s) = Some s.
Proof. induction p as [|c p IH]; [done|]. rewrite string_app_cons. cbn [Links.strip_prefix]. by rewrite bool_decide_true. Qed.

Lemma split_once_app (c id : string) : no_slash c -> split_once (c +:+ "/" +:+ id) = Some (c, id).
Proof.
  induction c as [|x c IH]; [done|]. intros [Hx Hc]. rewrite string_app_cons. cbn [split_once]. rewrite bool_decide_false by done. by rewrite IH.
Qed.

Lemma rsplit_once_none (t : string) : no_slash t -> rsplit_once t = None.
Proof. induction t as [|x t IH]; [done|]. intros [Hx Ht]. cbn [rsplit_once]. rewrite IH by done. by rewrite bool_decide_false. Qed.

Lemma rsplit_once_app (s t : string) : no_slash t -> rsplit_once (s +:+ "/" +:+ t) = Some (s, t).
Proof.
  intros Ht. induction s as [|x s IH].
  - change ("" +:+ "/" +:+ t) with (String (Ascii.ascii_of_nat 47) t). cbn [rsplit_once]. by rewrite rsplit_once_none.
  - rewrite string_app_cons. cbn [rsplit_once]. by rewrite IH.
Qed.

Lemma strip_prefix_slash (p c id : string) :
  no_slash p -> Links.strip_prefix p c = None -> Links.strip_prefix p (c +:+ "/" +:+ id) = None.
Proof.
  revert c. induction p as [|a p IH]; intros c; [done|]. intros [Ha Hp]. destruct c as [|b c].
  - intros _. change ("" +:+ "/" +:+ id) with (String (Ascii.ascii_of_nat 47) id). cbn [Links.strip_prefix]. rewrite bool_decide_false; [done|]. by intros ->.
  - rewrite string_app_cons. cbn [Links.strip_prefix]. case_bool_decide; [|done]. by apply IH.
Qed.

(** ** Records and their documents *)

Inductive DocId := ObjectDoc (collection id : string) | EventDoc (stream : string) (sequence : Z).

#[export] Instance DocId_eq_dec : EqDecision DocId.
Proof. solve_decision. Defined.

Definition plain (i : DocId) : Prop :=
  match i with
  | ObjectDoc collection _ => no_nul collection /\ no_slash collection /\ Links.strip_prefix "event:" collection = None
  | EventDoc stream sequence => no_nul stream /\ 0 <= sequence <= U64_MAX
  end.

Definition doc_key (i : DocId) : string :=
  match i with ObjectDoc collection id => object_doc_key collection id | EventDoc stream sequence => event_doc_key stream sequence end.
Definition document (i : DocId) (body : string) : Document :=
  match i with ObjectDoc collection id => object_document collection id body | EventDoc stream sequence => event_document stream sequence body end.
Definition queue_key (i : DocId) : string :=
  match i with ObjectDoc collection id => "object:" +:+ object_doc_key collection id | EventDoc stream sequence => event_doc_key stream sequence end.

Definition mutation_id (m : SearchIndexMutation) : DocId :=
  match m with
  | UpsertObject collection id _ | DeleteObject collection id => ObjectDoc collection id
  | UpsertEvent stream sequence _ | DeleteEvent stream sequence => EventDoc stream sequence
  end.
Definition mutation_body (m : SearchIndexMutation) : option string :=
  match m with UpsertObject _ _ body | UpsertEvent _ _ body => Some body | _ => None end.

Lemma mutation_key m : search_mutation_key m = queue_key (mutation_id m).
Proof. by destruct m. Qed.

Lemma document_key i b : dc_doc_key (document i b) = doc_key i.
Proof. by destruct i. Qed.

Lemma event_key_inj s n s' n' : 0 <= n <= U64_MAX -> 0 <= n' <= U64_MAX -> event_doc_key s n = event_doc_key s' n' -> (s, n) = (s', n').
Proof.
  intros Hn Hn' Heq. apply (f_equal (fun x => Links.strip_prefix "event:" x ≫= rsplit_once)) in Heq. unfold event_doc_key in Heq.
  rewrite !strip_prefix_app in Heq. cbn [mbind option_bind] in Heq. rewrite !rsplit_once_app in Heq by apply no_slash_pad. injection Heq as -> Heq.
  apply (f_equal parse_u64) in Heq. rewrite !parse_format in Heq by done. congruence.
Qed.

Lemma object_key_inj c id c' id' : no_slash c -> no_slash c' -> object_doc_key c id = object_doc_key c' id' -> (c, id) = (c', id').
Proof. intros Hc Hc' Heq. apply (f_equal split_once) in Heq. unfold object_doc_key in Heq. rewrite !split_once_app in Heq by done. congruence. Qed.

Lemma object_not_event c id s n : plain (ObjectDoc c id) -> object_doc_key c id <> event_doc_key s n.
Proof.
  intros (_&Hc&Hp) Heq. apply (f_equal (Links.strip_prefix "event:")) in Heq. unfold object_doc_key, event_doc_key in Heq.
  rewrite strip_prefix_app, strip_prefix_slash in Heq; [done| |done]. repeat (split; [discriminate|]). done.
Qed.

Lemma doc_key_inj i j : plain i -> plain j -> doc_key i = doc_key j -> i = j.
Proof.
  destruct i as [c id|s n], j as [c' id'|s' n']; cbn [doc_key]; intros Hi Hj Heq.
  - destruct Hi as (_&Hc&_), Hj as (_&Hc'&_). assert (H : (c, id) = (c', id')) by (by apply object_key_inj). by injection H as -> ->.
  - by apply object_not_event in Heq.
  - symmetry in Heq. by apply object_not_event in Heq.
  - destruct Hi as [_ Hn], Hj as [_ Hn']. assert (H : (s, n) = (s', n')) by (by apply event_key_inj). by injection H as -> ->.
Qed.

Lemma queue_key_inj i j : plain i -> plain j -> queue_key i = queue_key j -> i = j.
Proof.
  intros Hi Hj Heq. apply doc_key_inj; [done..|]. destruct i as [c id|s n], j as [c' id'|s' n']; cbn [queue_key] in Heq; [|discriminate..|done].
  cbn [doc_key]. apply (f_equal (Links.strip_prefix "object:")) in Heq. rewrite !strip_prefix_app in Heq. congruence.
Qed.

Lemma replay_object_key_of c id : no_slash c -> replay_object_key (queue_key (ObjectDoc c id)) = Some (c, id).
Proof. intros Hc. unfold replay_object_key, queue_key. rewrite strip_prefix_app. cbn [mbind option_bind]. by apply split_once_app. Qed.

Lemma replay_event_key_of s n : 0 <= n <= U64_MAX -> replay_event_key (queue_key (EventDoc s n)) = Some (s, n).
Proof.
  intros Hn. unfold replay_event_key, queue_key, event_doc_key. rewrite strip_prefix_app. cbn [mbind option_bind].
  rewrite rsplit_once_app by apply no_slash_pad. cbn [mbind option_bind fst snd]. by rewrite parse_format.
Qed.

(** ** Documents under a key *)

Definition at_key (k : string) (l : list Document) : list Document := List.filter (fun d => bool_decide (dc_doc_key d = k)) l.
Definition without_key (k : string) (l : list Document) : list Document := List.filter (fun d => negb (bool_decide (dc_doc_key d = k))) l.

Lemma at_key_app k l l' : at_key k (l ++ l') = at_key k l ++ at_key k l'.
Proof. apply List.filter_app. Qed.

Lemma at_key_without k l : at_key k (without_key k l) = [].
Proof.
  unfold at_key, without_key. induction l as [|d l IH]; [done|]. cbn [List.filter]. case_bool_decide as Hd; cbn [negb]; [done|]. cbn [List.filter].
  by rewrite bool_decide_false.
Qed.

Lemma at_key_other k k' l : k <> k' -> at_key k (without_key k' l) = at_key k l.
Proof.
  intros Hne. unfold at_key, without_key. induction l as [|d l IH]; [done|]. cbn [List.filter]. case_bool_decide as Hd; cbn [negb].
  - rewrite IH. rewrite bool_decide_false by congruence. done.
  - cbn [List.filter]. by rewrite IH.
Qed.

Lemma at_key_document k i b : at_key k [document i b] = if bool_decide (doc_key i = k) then [document i b] else [].
Proof. unfold at_key. cbn [List.filter]. by rewrite document_key. Qed.

Lemma elem_of_at_key k l d : d ∈ at_key k l <-> d ∈ l /\ dc_doc_key d = k.
Proof. unfold at_key. by rewrite elem_of_filter_bool, bool_decide_eq_true. Qed.

(** The documents of a record with the given body. *)
Definition exact_at (l : list Document) (i : DocId) (body : option string) : Prop :=
  at_key (doc_key i) l = match body with Some b => [document i b] | None => [] end.

(** A record without a body has no document.  An object has its document once; an event has it, but
    may have others. *)
Definition shown_at (l : list Document) (i : DocId) (body : option string) : Prop :=
  match i, body with
  | EventDoc _ _, Some b => document i b ∈ l
  | _, _ => exact_at l i body
  end.

(** Every document belongs to a record with a plain name. *)
Definition known (l : list Document) : Prop := forall d, d ∈ l -> exists i b, plain i /\ d = document i b.

Lemma exact_shown l i body : exact_at l i body -> shown_at l i body.
Proof.
  destruct i as [c id|s n]; [done|]. destruct body as [b|]; [|done]. intros He. unfold exact_at in He. cbn [shown_at].
  apply (elem_of_at_key (doc_key (EventDoc s n))). rewrite He. by left.
Qed.

Lemma shown_ext l l' i body : at_key (doc_key i) l = at_key (doc_key i) l' -> shown_at l i body -> shown_at l' i body.
Proof.
  intros Hk. unfold shown_at, exact_at. destruct i as [c id|s n]; [by rewrite Hk|]. destruct body as [b|]; [|by rewrite Hk].
  intros Hd. assert (H : document (EventDoc s n) b ∈ at_key (doc_key (EventDoc s n)) l') by (rewrite <-Hk; by apply elem_of_at_key).
  by apply elem_of_at_key in H as [? _].
Qed.

Lemma known_sub l l' : known l -> (forall d, d ∈ l' -> d ∈ l) -> known l'.
Proof. intros Hl Hs d Hd. by apply Hl, Hs. Qed.

Lemma known_without k l : known l -> known (without_key k l).
Proof. intros Hl. apply (known_sub l); [done|]. intros d Hd. unfold without_key in Hd. by apply elem_of_filter_bool in Hd as [? _]. Qed.

Lemma known_add l i b : known l -> plain i -> known (l ++ [document i b]).
Proof. intros Hl Hi d [Hd|Hd]%elem_of_app; [by apply Hl|]. apply list_elem_of_singleton in Hd as ->. eauto. Qed.

Lemma known_nil : known [].
Proof. intros d Hd. by apply not_elem_of_nil in Hd. Qed.

(** ** Changes *)

(** The last change of a list that concerns a record. *)
Fixpoint last_change (ms : list SearchIndexMutation) (i : DocId) : option SearchIndexMutation :=
  match ms with
  | [] => None
  | m :: ms => match last_change ms i with Some m' => Some m' | None => if bool_decide (mutation_id m = i) then Some m else None end
  end.

Lemma last_change_in ms i m : last_change ms i = Some m -> m ∈ ms /\ mutation_id m = i.
Proof.
  induction ms as [|m' ms IH]; [done|]. cbn [last_change]. destruct (last_change ms i) as [m''|] eqn:Hl.
  - intros [= ->]. destruct (IH eq_refl). split; [by right|done].
  - case_bool_decide; [|done]. intros [= ->]. split; [by left|done].
Qed.

Lemma last_change_none ms i : last_change ms i = None <-> forall m, m ∈ ms -> mutation_id m <> i.
Proof.
  induction ms as [|m' ms IH]; cbn [last_change]; [split; [intros _ m Hm; by apply not_elem_of_nil in Hm|done]|].
  destruct (last_change ms i) as [m''|] eqn:Hl.
  - split; [done|]. intros Hall. apply last_change_in in Hl as [Hin Hid]. by destruct (Hall m''); [right|].
  - case_bool_decide as Hd.
    + split; [done|]. intros Hall. by destruct (Hall m'); [left|].
    + split; [|done]. intros _ m [->|Hm]%elem_of_cons; [done|]. by apply IH.
Qed.

(** ** Writing to the index *)

Section index.
Context `{TextIndexLaws}.
Implicit Types (t : tx) (m : SearchIndexMutation).

(** Replacing the documents of a record. *)
Definition put_document (i : DocId) (body : option string) (l : list Document) : list Document :=
  without_key (doc_key i) l ++ match body with Some b => [document i b] | None => [] end.

Lemma put_document_exact i body l : exact_at (put_document i body l) i body.
Proof.
  unfold exact_at, put_document. rewrite at_key_app, at_key_without. destruct body as [b|]; [|done]. cbn [app]. rewrite at_key_document. by rewrite bool_decide_true.
Qed.

Lemma put_document_other i j body l : plain i -> plain j -> i <> j -> at_key (doc_key j) (put_document i body l) = at_key (doc_key j) l.
Proof.
  intros Hi Hj Hne. assert (Hk : doc_key i <> doc_key j) by (intros Heq; by apply Hne, doc_key_inj). unfold put_document. rewrite at_key_app, at_key_other by done.
  destruct body as [b|]; [|by rewrite app_nil_r]. rewrite at_key_document, bool_decide_false by done. apply app_nil_r.
Qed.

Lemma put_document_known i body l : plain i -> known l -> known (put_document i body l).
Proof.
  intros Hi Hl. unfold put_document. destruct body as [b|]; [|rewrite app_nil_r]; [apply known_add; [|done]|]; by apply known_without.
Qed.

Lemma apply_mutation_docs m t t' :
  apply_search_mutation m t = (Ok (), t') ->
  tx_live t' = put_document (mutation_id m) (mutation_body m) (tx_live t) /\ tx_committed t' = tx_committed t /\ tx_visible t' = tx_visible t.
Proof.
  unfold put_document, without_key. destruct m as [c id b|c id|s n b|s n]; cbn [apply_search_mutation mutation_id mutation_body doc_key document].
  2, 4: intros [= <-]; rewrite app_nil_r; apply tx_delete_docs.
  all: destruct (tx_add_document _ _) as [r t1] eqn:Ha; intros [= Hr <-]; destruct r as [[]|]; [|done].
  all: destruct (tx_add_docs _ _ _ Ha) as (Hl&Hc&Hv); rewrite Hl, Hc, Hv.
  - destruct (tx_delete_docs (object_doc_key c id) t) as (->&->&->). done.
  - destruct (tx_delete_docs (event_doc_key s n) t) as (->&->&->). done.
Qed.

Lemma apply_mutations_docs batch : forall t t',
  apply_mutations batch t = (Ok (), t') ->
  tx_live t' = foldl (fun l m => put_document (mutation_id m) (mutation_body m) l) (tx_live t) batch /\
  tx_committed t' = tx_committed t /\ tx_visible t' = tx_visible t.
Proof.
  induction batch as [|m batch IH]; intros t t'; cbn [apply_mutations foldl]; [by intros [= <-]|].
  destruct (apply_search_mutation m t) as [[[]|] t1] eqn:Ha; [|done]. intros Hr. destruct (apply_mutation_docs m t t1 Ha) as (<-&<-&<-). by apply IH.
Qed.

Lemma put_documents_known batch l :
  Forall (fun m => plain (mutation_id m)) batch -> known l -> known (foldl (fun l m => put_document (mutation_id m) (mutation_body m) l) l batch).
Proof. intros Hb. revert l. induction Hb as [|m batch Hm _ IH]; intros l Hl; [done|]. by apply IH, put_document_known. Qed.

Lemma put_documents_at batch i : forall l,
  Forall (fun m => plain (mutation_id m)) batch -> plain i ->
  let l' := foldl (fun l m => put_document (mutation_id m) (mutation_body m) l) l batch in
  match last_change batch i with Some m => exact_at l' i (mutation_body m) | None => at_key (doc_key i) l' = at_key (doc_key i) l end.
Proof.
  induction batch as [|m batch IH]; intros l Hb Hi; [done|]. apply Forall_cons in Hb as [Hm Hb]. cbn [foldl last_change].
  specialize (IH (put_document (mutation_id m) (mutation_body m) l) Hb Hi). cbv zeta in *. destruct (last_change batch i) as [m'|]; [done|].
  unfold exact_at. rewrite IH. case_bool_decide as Hid; [subst i; apply put_document_exact|by apply put_document_other].
Qed.

Lemma apply_and_commit_docs batch t t' :
  apply_and_commit batch t = (Ok (), t') ->
  tx_live t' = foldl (fun l m => put_document (mutation_id m) (mutation_body m) l) (tx_live t) batch /\ tx_committed t' = tx_live t'.
Proof.
  unfold apply_and_commit. destruct (apply_mutations batch t) as [[[]|] t1] eqn:Ha; [|done]. destruct (apply_mutations_docs _ _ _ Ha) as (Hl&_&_).
  destruct (tx_commit t1) as [r t2] eqn:Hc. intros [= Hr <-]. destruct r as [[]|]; [|done]. destruct (tx_commit_docs _ _ Hc) as (->&->&_). done.
Qed.
End index.

(** ** The best hits *)

(** ** A bounded heap *)

Section best.
Context {A : Type} (cmp : A -> A -> comparison) `{!CmpPreorder cmp}.
Implicit Types (l : list A).

Lemma cmp_refl_le x : cmp x x <> Gt.
Proof. intros Hx. pose proof (cmp_antisym x x) as Ha. by rewrite Hx in Ha. Qed.

Lemma take_pred (l r : list A) w n : (S n <= length l)%nat -> take (S n) l = r ++ [w] -> take n l = r.
Proof.
  intros Hn Ht. assert (Hr : length r = n) by (apply (f_equal length) in Ht; rewrite length_take, length_app in Ht; cbn [length] in Ht; lia).
  replace (take n l) with (take n (take (S n) l)) by (rewrite take_take; f_equal; lia). rewrite Ht. by apply take_app_length'.
Qed.

(** Inserting into a sorted list and cutting it again drops the last element or the new one. *)
Lemma take_insert c w l : StronglySorted (fun x y => cmp x y <> Gt) l -> forall r n,
  (n <= length l)%nat -> take n l = r ++ [w] ->
  (cmp c w = Lt -> take n (insert_by cmp c l) ≡ₚ c :: r) /\ (cmp c w = Gt -> take n (insert_by cmp c l) = r ++ [w]).
Proof.
  induction 1 as [|y l Hs IH Hall]; intros r n Hn Ht; [rewrite take_nil in Ht; by destruct r|].
  destruct n as [|n]; [by destruct r|]. pose proof (take_pred _ _ _ _ Hn Ht) as Hr. cbn [take] in Ht. cbn [length] in Hn.
  assert (Hle : cmp c y <> Gt -> cmp c w <> Gt).
  { intros Hcy. assert (Hw : w ∈ y :: take n l) by (rewrite Ht; apply elem_of_app; right; left). apply elem_of_cons in Hw as [->|Hw]; [done|].
    apply (cmp_le_trans c y w); [done|]. rewrite Forall_forall in Hall. apply Hall. apply elem_of_take in Hw as (j&Hj&_). by eapply list_elem_of_lookup_2. }
  cbn [insert_by]. destruct (cmp c y) eqn:Hcy.
  1, 2: split; [intros _; change (take (S n) (c :: y :: l)) with (c :: take n (y :: l)); by rewrite Hr|intros Hg; by destruct Hle].
  cbn [take]. destruct n as [|n].
  - cbn [take] in *. destruct r as [|z r]; [|injection Ht as _ Ht; by destruct r]. injection Ht as ->. split; [congruence|done].
  - destruct r as [|z r]; [injection Ht as _ Ht; destruct l; [cbn in Hn; lia|done]|]. injection Ht as <- Ht. destruct (IH r (S n) ltac:(lia) Ht) as [Hlt Hgt]. split.
    + intros Hc. rewrite (Hlt Hc). apply Permutation_swap.
    + intros Hc. by rewrite (Hgt Hc).
Qed.

(** [pop_worst] with any comparison. *)
Fixpoint pop_greatest (heap : list A) : option (A * list A) :=
  match heap with
  | [] => None
  | a :: heap =>
      match pop_greatest heap with
      | None => Some (a, [])
      | Some (w, rest) => if bool_decide (cmp w a = Lt) then Some (a, w :: rest) else Some (w, a :: rest)
      end
  end.

Lemma pop_greatest_spec heap : match pop_greatest heap with
  | None => heap = []
  | Some (w, rest) => heap ≡ₚ w :: rest /\ forall x, x ∈ rest -> cmp x w <> Gt end.
Proof using CmpPreorder0.
  induction heap as [|a heap IH]; [done|]. cbn [pop_greatest]. destruct (pop_greatest heap) as [[w rest]|].
  - destruct IH as [Hp Hw]. case_bool_decide as Hc.
    + split; [by rewrite Hp|]. intros x [->|Hx]%elem_of_cons; [congruence|]. apply (cmp_le_trans x w a); [by apply Hw|congruence].
    + split; [rewrite Hp; apply Permutation_swap|]. intros x [->|Hx]%elem_of_cons; [|by apply Hw]. intros Hg. apply Hc. rewrite cmp_antisym, Hg. done.
  - subst heap. split; [done|]. intros x Hx. by apply not_elem_of_nil in Hx.
Qed.

Definition keep_best (n : nat) (heap : list A) (c : A) : list A :=
  if bool_decide (length heap < n)%nat then c :: heap
  else match pop_greatest heap with
       | Some (w, rest) => if bool_decide (cmp c w = Lt) then c :: rest else heap
       | None => heap
       end.

(** The elements are told apart by the comparison. *)
Definition separated l : Prop := forall x y, x ∈ l -> y ∈ l -> cmp x y = Eq -> x = y.

Lemma sort_separated l l' : l ≡ₚ l' -> separated l -> sort_by cmp l = sort_by cmp l'.
Proof using CmpPreorder0.
  intros Hp Hsep. apply (StronglySorted_unique_strong (fun x y => cmp x y <> Gt)); [|apply sort_by_sorted; apply _..|by rewrite !sort_by_perm].
  intros x y Hx%elem_of_sort_by Hy%elem_of_sort_by Hxy Hyx. rewrite <-Hp in Hy. apply Hsep; [done..|]. rewrite cmp_antisym in Hyx. by destruct (cmp x y).
Qed.

Lemma keep_best_step n heap c l :
  NoDup (c :: l) -> separated (c :: l) -> heap ≡ₚ take n (sort_by cmp l) -> keep_best n heap c ≡ₚ take n (sort_by cmp (c :: l)).
Proof using CmpPreorder0.
  intros Hnd Hsep Hh. change (sort_by cmp (c :: l)) with (insert_by cmp c (sort_by cmp l)). unfold keep_best. pose proof (sort_by_sorted cmp l) as Hs.
  set (S := sort_by cmp l) in *. assert (Hlen : length heap = (n `min` length S)%nat) by (by rewrite Hh, length_take). case_bool_decide as Hn.
  - rewrite take_ge; [|rewrite insert_by_perm; cbn [length]; lia]. rewrite insert_by_perm. rewrite take_ge in Hh by lia. by rewrite Hh.
  - pose proof (pop_greatest_spec heap) as Hpop. destruct (pop_greatest heap) as [[w rest]|].
    2: { subst heap. cbn [length] in Hn. assert (n = 0)%nat as -> by lia. done. }
    destruct Hpop as [Hp Hw]. destruct (exists_last (l := take n S)) as (R&z&HR); [intros Hnil; rewrite Hh, Hnil in Hp; by apply Permutation_nil_cons in Hp|].
    assert (Hin : forall x, x ∈ R ++ [z] -> x ∈ l).
    { intros x Hx. rewrite <-HR in Hx. apply elem_of_take in Hx as (j&Hj&_). apply list_elem_of_lookup_2 in Hj. by apply elem_of_sort_by in Hj. }
    assert (Hlast : forall x, x ∈ R -> cmp x z <> Gt).
    { intros x Hx. assert (Hsr : StronglySorted (fun x y => cmp x y <> Gt) (R ++ [z])) by (rewrite <-HR; eapply StronglySorted_sublist; [apply sublist_take|done]).
      apply list_elem_of_split in Hx as (R1&R2&->). clear -Hsr. induction R1 as [|a R1 IH]; cbn [app] in Hsr; apply StronglySorted_inv in Hsr as [Hsr Hall]; [|by apply IH].
      rewrite Forall_forall in Hall. apply Hall, elem_of_app. right. left. }
    assert (Hwz : w = z).
    { assert (Hw1 : w ∈ R ++ [z]) by (rewrite <-HR, <-Hh, Hp; left). assert (Hz1 : z ∈ w :: rest) by (rewrite <-Hp, Hh, HR; apply elem_of_app; right; left).
      pose proof Hw1 as Hw2. apply elem_of_app in Hw2 as [Hw2|Hw2]; [|by apply list_elem_of_singleton in Hw2]. apply elem_of_cons in Hz1 as [->|Hz1]; [done|].
      apply Hsep; [right; by apply Hin|right; apply Hin, elem_of_app; right; left|]. pose proof (Hlast w Hw2) as Ha. pose proof (Hw z Hz1) as Hb.
      rewrite cmp_antisym in Hb. by destruct (cmp w z). }
    subst w. assert (Hrest : rest ≡ₚ R) by (apply (Permutation_cons_inv (a := z)); rewrite <-Hp, Hh, HR; symmetry; apply Permutation_cons_append).
    assert (HnS : (n <= length S)%nat) by lia. destruct (take_insert c z S Hs R n HnS HR) as [Hlt Hgt]. case_bool_decide as Hc.
    + by rewrite (Hlt Hc), Hrest.
    + destruct (cmp c z) eqn:Hcz; [|done|].
      * apply NoDup_cons in Hnd as [Hcl _]. destruct Hcl. assert (Hz : z ∈ l) by (apply Hin, elem_of_app; right; left). rewrite (Hsep c z); [done|left|by right|done].
      * by rewrite (Hgt eq_refl), Hh, HR.
Qed.

Lemma keep_best_all n l : NoDup l -> separated l -> foldl (keep_best n) [] l ≡ₚ take n (sort_by cmp l).
Proof using CmpPreorder0.
  induction l as [|c l IH] using rev_ind; intros Hnd Hsep; [by destruct n|]. rewrite foldl_app. cbn [foldl].
  assert (Hperm : l ++ [c] ≡ₚ c :: l) by (symmetry; apply Permutation_cons_append).
  assert (Hnd' : NoDup (c :: l)) by (by rewrite <-Hperm). assert (Hsep' : separated (c :: l)) by (intros x y; rewrite <-Hperm; apply Hsep).
  rewrite (keep_best_step n (foldl (keep_best n) [] l) c l Hnd' Hsep').
  - rewrite (sort_separated (c :: l) (l ++ [c])) by (done || by rewrite Hperm). done.
  - apply IH; [by apply NoDup_cons in Hnd' as [_ ?]|]. intros x y Hx Hy. apply Hsep'; by right.
Qed.
End best.

(** ** Ranks *)

Definition opp3 (x : Z * (Z * Z)) : Z * (Z * Z) := (- x.1, (- x.2.1, - x.2.2)).
Definition rank_key (r : RankedSearchDoc) : Z * (Z * Z) * DocAddress := (opp3 (total_rank (rk_score r)), rk_address r).

Lemma opp3_cmp x y : key_cmp (opp3 x) (opp3 y) = key_cmp y x.
Proof.
  destruct x as [a [b c]], y as [a' [b' c']]. change (key_cmp (opp3 (a, (b, c))) (opp3 (a', (b', c')))) with (match - a ?= - a' with Eq => match - b ?= - b' with Eq => - c ?= - c' | r => r end | r => r end).
  change (key_cmp (a', (b', c')) (a, (b, c))) with (match a' ?= a with Eq => match b' ?= b with Eq => c' ?= c | r => r end | r => r end). by rewrite !Z.compare_opp.
Qed.

Lemma ranked_cmp_key a b : ranked_cmp a b = key_cmp (rank_key a) (rank_key b).
Proof.
  change (key_cmp (rank_key a) (rank_key b)) with (match key_cmp (opp3 (total_rank (rk_score a))) (opp3 (total_rank (rk_score b))) with Eq => key_cmp (rk_address a) (rk_address b) | r => r end).
  unfold ranked_cmp, total_cmp. by rewrite opp3_cmp.
Qed.

#[export] Instance by_rank_preorder {A} (rank : A -> RankedSearchDoc) : CmpPreorder (by_rank rank).
Proof.
  split; unfold by_rank.
  - intros x y. rewrite !ranked_cmp_key. apply key_cmp_antisym.
  - intros x y z. rewrite !ranked_cmp_key. apply ord_le_trans.
Qed.

Lemma ranked_separated (l : list (RankedSearchDoc * Document)) : NoDup (rk_address ∘ fst <$> l) -> separated (by_rank fst) l.
Proof.
  intros Hnd x y Hx Hy Heq. unfold by_rank in Heq. rewrite ranked_cmp_key in Heq. apply key_cmp_eq in Heq. unfold rank_key in Heq.
  assert (Hk : rk_address x.1 = rk_address y.1) by congruence. apply list_elem_of_lookup in Hx as [i Hi], Hy as [j Hj].
  assert (Hij : i = j) by (eapply NoDup_lookup; [exact Hnd|rewrite list_lookup_fmap, Hi; reflexivity|rewrite list_lookup_fmap, Hj; cbn; by f_equal]). congruence.
Qed.

Lemma retain_keep_best {A} (rank : A -> RankedSearchDoc) n heap c : retain_top_search_hit rank n heap c = keep_best (by_rank rank) n heap c.
Proof.
  assert (Hpop : forall h : list A, pop_worst rank h = pop_greatest (by_rank rank) h).
  { induction h as [|a h IH]; [done|]. cbn [pop_worst pop_greatest]. by rewrite IH. }
  unfold retain_top_search_hit, keep_best. by rewrite Hpop.
Qed.

Section hits.
Context `{TextIndexLaws} `{SerdeJson}.

(** The hits that are kept are the first of all matching documents in rank order. *)
Lemma collect_hits_best options (matching arrived : list (RankedSearchDoc * Document)) :
  NoDup (rk_address ∘ fst <$> matching) -> arrived ≡ₚ matching ->
  collect_hits options arrived = take (Z.to_nat (search_limit options)) (sort_by (by_rank fst) (List.filter (collected options) matching)).
Proof.
  intros Hnd Hp. unfold collect_hits. set (n := Z.to_nat (search_limit options)). set (found := List.filter (collected options) matching).
  assert (Hpf : List.filter (collected options) arrived ≡ₚ found).
  { unfold found. clear -Hp. induction Hp as [|x l l' _ IH|x y l|l l' l'' _ IH1 _ IH2]; cbn [List.filter]; [done|by destruct (collected options x); rewrite IH| |by rewrite IH1].
    destruct (collected options x), (collected options y); try done. apply Permutation_swap. }
  assert (Hsep : separated (by_rank fst) found) by (intros x y Hx Hy; apply (ranked_separated matching Hnd); by apply elem_of_filter_bool in Hx as [? _], Hy as [? _]).
  assert (Hndf : NoDup found).
  { apply (sublist_NoDup _ matching); [by apply NoDup_fmap_1 in Hnd|apply filter_sublist]. }
  assert (Hfold : foldl (retain_top_search_hit fst n) [] (List.filter (collected options) arrived) ≡ₚ take n (sort_by (by_rank fst) found)).
  { assert (Hext : forall l heap, foldl (retain_top_search_hit fst n) heap l = foldl (keep_best (by_rank (A := RankedSearchDoc * Document) fst) n) heap l).
    { induction l as [|x l IH]; intros heap; [done|]. cbn [foldl]. by rewrite retain_keep_best, IH. }
    assert (Hsepa : separated (by_rank fst) (List.filter (collected options) arrived)) by (intros x y; rewrite Hpf; apply Hsep).
    assert (Hnda : NoDup (List.filter (collected options) arrived)) by (by rewrite Hpf).
    rewrite Hext, (keep_best_all (by_rank fst) n _ Hnda Hsepa). by rewrite (sort_separated (by_rank fst) _ found Hpf Hsepa). }
  rewrite (sort_separated (by_rank fst) _ _ Hfold).
  - apply sort_by_id. eapply StronglySorted_sublist; [apply sublist_take|apply sort_by_sorted; apply _].
  - intros x y. rewrite Hfold. intros Hx Hy. apply elem_of_take in Hx as (i&Hi&_), Hy as (j&Hj&_). apply list_elem_of_lookup_2 in Hi, Hj.
    apply elem_of_sort_by in Hi, Hj. by apply Hsep.
Qed.
End hits.
