(* ===== verification/SearchRebuild.v ===== *)
(** * thingd: rebuilding the search index

    The pages a rebuild indexes and the replay of the mutations recorded meanwhile: at the end every
    record has its document, whatever was written while the rebuild went on. *)

From S2P Require Import Prelude Wal Table Layer Database Durable ThingDb Keyspace RamScan Model Objects Events Links Storage RustStd Analytics Persistent PStore PQueue PEvents PEventSpec PEventOps PEventDelete PObjects PObjectSpec PAnalytics PRetain Search SearchSpec.
From Stdlib Require Import SpecFloat.

(** ** Pages *)

(** Whether a cursor has passed a key; no cursor has passed none. *)
Definition passed (cursor : option bytes) (k : bytes) : bool :=
  match cursor with Some c => negb (key_ltb c k) | None => false end.

Lemma passed_mono c k k' : passed c k = true -> k' ≺ k -> passed c k' = true.
Proof.
  destruct c as [c|]; [|done]. cbn [passed]. rewrite !negb_true_iff, !key_ltb_false. intros [Hk| ->] Hlt; left; [by eapply key_lt_trans|done].
Qed.

Section page.
Context (L : list (bytes * bytes)) (cursor : option bytes) (n : nat).
Context (Hs : StronglySorted (fun x y => x.1 ≺ y.1) L) (Hn : (0 < n)%nat).

Definition ahead : list (bytes * bytes) := List.filter (fun x => negb (passed cursor x.1)) L.
Definition page_of : list (bytes * bytes) := take n ahead.
Definition page_end : option bytes := fst <$> last page_of.

Lemma ahead_sorted : StronglySorted (fun x y => x.1 ≺ y.1) ahead.
Proof. eapply StronglySorted_sublist; [apply filter_sublist|done]. Qed.

Lemma elem_of_ahead x : x ∈ ahead <-> x ∈ L /\ passed cursor x.1 = false.
Proof. unfold ahead. by rewrite elem_of_filter_bool, negb_true_iff. Qed.

Lemma last_greatest (l : list (bytes * bytes)) x y :
  StronglySorted (fun x y => x.1 ≺ y.1) l -> last l = Some y -> x ∈ l -> passed (Some y.1) x.1 = true.
Proof.
  intros Hl Hy Hx. cbn [passed]. apply negb_true_iff, key_ltb_false. induction Hl as [|z l Hl IH Hall]; [done|].
  destruct l as [|w l]; [cbn in Hy; injection Hy as ->; apply list_elem_of_singleton in Hx as ->; by right|].
  rewrite last_cons_cons in Hy. apply elem_of_cons in Hx as [->|Hx]; [|by apply IH].
  left. rewrite Forall_forall in Hall. apply Hall. by apply last_Some_elem_of.
Qed.

Lemma page_elements x : x ∈ L -> x ∈ page_of <-> passed cursor x.1 = false /\ passed page_end x.1 = true.
Proof using Hs.
  intros Hx. unfold page_end. split.
  - intros Hp. split; [by apply elem_of_take in Hp as (i&Hi&_); apply list_elem_of_lookup_2, elem_of_ahead in Hi as [_ ?]|].
    destruct (last page_of) as [y|] eqn:Hl; [|apply last_None in Hl; rewrite Hl in Hp; by apply not_elem_of_nil in Hp].
    cbn [fmap option_fmap option_map]. apply (last_greatest page_of); [|done..]. eapply StronglySorted_sublist; [apply sublist_take|apply ahead_sorted].
  - intros [Hc He]. destruct (last page_of) as [y|] eqn:Hl; [|done]. cbn [fmap option_fmap option_map passed] in He.
    assert (Ha : x ∈ ahead) by (by apply elem_of_ahead). pose proof ahead_sorted as Hsort. rewrite <-(take_drop n ahead) in Ha, Hsort.
    apply elem_of_app in Ha as [Ha|Ha]; [done|]. exfalso. apply negb_true_iff, key_ltb_false in He.
    assert (Hlt : y.1 ≺ x.1).
    { apply last_Some in Hl as [l' Hl]. fold page_of in Hsort. rewrite Hl, <-app_assoc in Hsort. clear -Hsort Ha.
      induction l' as [|z l' IH]; cbn [app] in Hsort; apply StronglySorted_inv in Hsort as [Hsort Hall]; [|by apply IH].
      rewrite Forall_forall in Hall. by apply Hall. }
    destruct He as [He|He]; [by apply (key_lt_asym y.1 x.1)|rewrite He in Hlt; by apply key_lt_irrefl in Hlt].
Qed.

(** Nothing ahead of the end of the page means that all was passed. *)
Lemma page_exhausted x :
  (forall c, page_end = Some c -> List.filter (fun x => key_ltb c x.1) L = []) -> x ∈ L -> passed cursor x.1 = true \/ x ∈ page_of.
Proof using Hs Hn.
  intros Hend Hx. destruct (passed cursor x.1) eqn:Hp; [by left|]. right. rewrite page_elements by done. split; [done|].
  assert (Ha : x ∈ ahead) by (by apply elem_of_ahead). unfold page_end in *. destruct (last page_of) as [y|] eqn:Hl.
  - cbn [fmap option_fmap option_map passed] in *. apply negb_true_iff, not_true_iff_false. intros Hlt. specialize (Hend y.1 eq_refl).
    assert (Hin : x ∈ List.filter (fun x => key_ltb y.1 x.1) L) by (by apply elem_of_filter_bool). rewrite Hend in Hin. by apply not_elem_of_nil in Hin.
  - apply last_None in Hl. unfold page_of in Hl. destruct ahead as [|z l]; [by apply not_elem_of_nil in Ha|]. by destruct n as [|n']; [lia|].
Qed.

Definition page_done : bool := match page_end with Some c => bool_decide (length (List.filter (fun x => key_ltb c x.1) L) = 0%nat) | None => true end.

(** After the page, an entry counts as passed if it was passed before or is on the page. *)
Lemma page_progress x : x ∈ L -> page_done || passed page_end x.1 = passed cursor x.1 || bool_decide (x ∈ page_of).
Proof using Hs Hn.
  intros Hx. pose proof (page_elements x Hx) as Hel. destruct (passed cursor x.1) eqn:Hc; cbn [orb].
  - destruct page_end as [c|] eqn:He; [|by unfold page_done; rewrite He]. apply orb_true_iff. right.
    unfold page_end in He. destruct (last page_of) as [y|] eqn:Hl; [|done]. cbn in He. injection He as <-.
    assert (Hy : y ∈ page_of) by (by apply last_Some_elem_of). apply elem_of_take in Hy as (i&Hi&_). apply list_elem_of_lookup_2, elem_of_ahead in Hi as [_ Hy].
    cbn [passed]. apply negb_true_iff, key_ltb_false. left. destruct (key_lt_total x.1 y.1) as [?|[Heq|Hlt]]; [done|congruence|].
    rewrite (passed_mono cursor x.1 y.1) in Hy; done.
  - case_bool_decide as Hp.
    + apply Hel in Hp as [_ ->]. apply orb_true_r.
    + apply orb_false_iff. split; [|apply not_true_iff_false; intros He; by apply Hp, Hel].
      apply not_true_iff_false. intros Hd. destruct (page_exhausted x) as [?|?]; [|done|congruence|done].
      intros c He. unfold page_done in Hd. rewrite He in Hd. apply bool_decide_eq_true in Hd. by apply length_zero_iff_nil.
Qed.
End page.

(** ** The records of the store *)

Section rebuild.
Context `{TextIndexLaws} `{KvLaws D} {vector_ok : list spec_float -> Prop}.
Context `{!Serde MemoryObject (object_wt vector_ok)} `{!Serde MemoryEvent event_wt}.
Implicit Types (s : SearchState) (p : SearchRebuildProgress) (e : PersistentEngine D) (O : ObjectMap) (E : EventMap) (l : list Document).

Record primary e O E : Prop := {
  pr_codec : pe_codec e = raw_codec;
  pr_kv : kv_ok (pe_db e);
  pr_objects : indexed object_entry (kv_view (pe_db e) "objects") O;
  pr_events : indexed event_entry (kv_view (pe_db e) "events") E;
  pr_object_ok : forall k o, O !! k = Some o -> object_ok (vector_ok := vector_ok) k o /\ plain (ObjectDoc k.1 k.2);
  pr_event_ok : forall i ev, E !! i = Some ev -> event_ok i ev;
}.

Definition body_of O E (i : DocId) : option string :=
  match i with ObjectDoc c id => ob_body <$> O !! (c, id) | EventDoc stream n => ev_body <$> E !! (stream, n) end.

Lemma event_plain i ev : event_ok i ev -> plain (EventDoc i.1 i.2).
Proof. intros [<- <- Hw Hn]. split; [done|]. by destruct Hw. Qed.

Definition object_id (o : MemoryObject) : DocId := ObjectDoc (ob_key o).1 (ob_key o).2.
Definition event_id (ev : MemoryEvent) : DocId := EventDoc (ev_stream ev) (ev_sequence ev).

Lemma keyspace_entries e ks {K A} `{Countable K} (f : A -> option (bytes * bytes)) (P : K -> A -> Prop) (J : gmap K A) (g : A -> bytes * bytes) :
  (forall i j i' j' k v v', P i j -> P i' j' -> f j = Some (k, v) -> f j' = Some (k, v') -> i = i') ->
  (forall a, f a = Some (g a)) -> indexed f (kv_view (pe_db e) ks) J -> (forall i j, J !! i = Some j -> P i j) ->
  exists js, btree_iter (kv_view (pe_db e) ks) = g <$> js /\ forall j, j ∈ js <-> exists i, J !! i = Some j.
Proof.
  intros Hinj Hg Hidx HP. destruct (indexed_list f P Hinj (kv_view (pe_db e) ks) J [] HP Hidx) as (js&Hall&Hin).
  exists js. split.
  - rewrite <-prefix_entries_nil. clear -Hall Hg. induction Hall as [|x j l js Hx _ IH]; [done|]. rewrite Hg in Hx. injection Hx as <-. by rewrite fmap_cons, IH.
  - intros j. rewrite Hin. split; [intros (i&x&Hi&_); by exists i|]. intros [i Hi]. exists i, (g j). by rewrite Hg.
Qed.

Lemma object_entries e O E : primary e O E ->
  exists os, btree_iter (kv_view (pe_db e) "objects") = object_pair <$> os /\ forall o, o ∈ os <-> O !! ob_key o = Some o.
Proof.
  intros [_ _ Ho _ Hok _]. destruct (keyspace_entries e "objects" object_entry object_ok O object_pair object_entry_inj (fun _ => eq_refl) Ho) as (os&Heq&Hin).
  { intros k o Hk. by apply Hok. }
  exists os. split; [done|]. intros o. rewrite Hin. split; [|by eauto]. intros [k Hk]. destruct (Hok k o Hk) as [[<- _ _] _]. done.
Qed.

Lemma event_entries e O E : primary e O E ->
  exists evs, btree_iter (kv_view (pe_db e) "events") = event_pair <$> evs /\ forall ev, ev ∈ evs <-> E !! event_index ev = Some ev.
Proof.
  intros [_ _ _ He _ Hok]. destruct (keyspace_entries e "events" event_entry event_ok E event_pair event_entry_inj (fun _ => eq_refl) He Hok) as (evs&Heq&Hin).
  exists evs. split; [done|]. intros ev. rewrite Hin. split; [|by eauto]. intros [i Hi]. destruct (Hok i ev Hi) as [Hs Hn _ _]. unfold event_index. rewrite Hs, Hn. by destruct i.
Qed.

Lemma get_stored_object_of e O E c id : primary e O E -> no_nul c -> get_stored_object e c id = Ok (O !! (c, id)).
Proof.
  intros Hp Hc. destruct Hp as [Hcodec Hkv Ho _ Hok _]. unfold get_stored_object. rewrite Hcodec, kv_get_view by (done || apply object_keyspaces_valid). cbn [storage_error]. run.
  destruct (O !! (c, id)) as [o|] eqn:Hid.
  - destruct (Hok _ _ Hid) as [[Hk Hw _] _]. assert (Hv : kv_view (pe_db e) "objects" !! make_object_key raw_codec c id = Some (json_text o)).
    { apply Ho. exists (c, id), o. split; [done|]. unfold object_entry, object_pair, object_key. by rewrite Hk. }
    rewrite Hv, deserialize_raw by done. done.
  - destruct (kv_view (pe_db e) "objects" !! make_object_key raw_codec c id) as [v|] eqn:Hv; [|done]. apply Ho in Hv as (k&o&Hk&Heq). exfalso.
    destruct (Hok _ _ Hk) as [[Hkey _ Hn] _]. 
    assert (Hb : object_key raw_codec o = make_object_key raw_codec c id) by (unfold object_entry, object_pair in Heq; congruence).
    rewrite object_key_raw, Hkey in Hb. change (make_object_key raw_codec c id) with (str_bytes c ++ 0 :: str_bytes id) in Hb. clear Heq. rename Hb into Heq.
    apply (pair_key_inj k.1 k.2 c id Hn Hc) in Heq. rewrite <-(surjective_pairing k) in Heq. congruence.
Qed.

Lemma get_stored_event_of e O E st n : primary e O E -> plain (EventDoc st n) -> get_stored_event e st n = Ok (E !! (st, n)).
Proof.
  intros Hp [Hst Hn]. destruct Hp as [Hcodec Hkv _ He _ Hok]. unfold get_stored_event. rewrite Hcodec, kv_get_view by (done || apply event_keyspaces_valid). cbn [storage_error]. run.
  destruct (E !! (st, n)) as [ev|] eqn:Hid.
  - pose proof (indexed_event _ _ (st, n) ev Hok He Hid) as Hv. cbn [fst snd] in Hv. rewrite Hv. destruct (Hok _ _ Hid) as [_ _ Hw _]. rewrite deserialize_raw by done. done.
  - destruct (kv_view (pe_db e) "events" !! make_event_key raw_codec st n) as [v|] eqn:Hv; [|done]. apply He in Hv as (i&ev&Hi&Heq). exfalso.
    destruct (Hok _ _ Hi) as [Hs Hq Hw Hz]. unfold event_entry in Heq. injection Heq as Heq _. apply make_event_key_inj in Heq as [Hx Hy]; [|done|done|by destruct Hw|done].
    rewrite <-Hx, <-Hy, Hs, Hq, <-surjective_pairing in Hid. congruence.
Qed.

(** ** Writing documents *)

Definition wrote s s' (f : list Document -> list Document) : Prop :=
  exists t t', si_index s = Some t /\ si_writer s = true /\ si_ignored s = false /\ s' = set_contents s t' false /\ tx_live t' = f (tx_live t).

Lemma set_contents_twice s t t' b : set_contents (set_contents s t false) t' b = set_contents s t' b.
Proof. unfold set_contents. cbn. by rewrite orb_false_r. Qed.

Lemma set_contents_id s t : si_index s = Some t -> set_contents s t false = s.
Proof. destruct s. cbn. intros ->. unfold set_contents. cbn. by rewrite orb_false_r. Qed.

Lemma with_writer_ok (f : tx -> SearchState) s :
  si_ignored (with_writer f s) = false -> exists t, si_index s = Some t /\ si_writer s = true /\ with_writer f s = f t.
Proof. unfold with_writer. destruct (si_index s) as [t|]; [|done]. destruct (si_writer s); [|done]. by exists t. Qed.

Lemma contents_ok s t r : si_ignored (set_contents s t (failed r)) = false -> si_ignored s = false /\ exists u : unit, r = Ok u.
Proof. cbn. intros [Hs Hr]%orb_false_iff. split; [done|]. destruct r as [u|]; [by exists u|done]. Qed.

Lemma reload_ok s : si_ignored (reload_search_reader s) = false -> forall t, si_index s = Some t ->
  si_ignored s = false /\ exists t', reload_search_reader s = set_contents s t' false /\ tx_live t' = tx_live t /\ tx_committed t' = tx_committed t /\
  (si_reader s = true -> tx_visible t' = tx_committed t).
Proof.
  unfold reload_search_reader. intros Hi t Ht. rewrite Ht in *. destruct (si_reader s).
  - destruct (tx_reload t) as [r t'] eqn:Hr. apply contents_ok in Hi as [Hs [[] ->]]. destruct (tx_reload_docs _ _ Hr) as (Hl&Hc&Hv). split; [done|]. by exists t'.
  - split; [done|]. exists t. by rewrite set_contents_id.
Qed.

Lemma commit_ok s : si_ignored (commit_search_index s) = false ->
  exists t t', si_index s = Some t /\ si_writer s = true /\ si_ignored s = false /\ commit_search_index s = set_contents s t' false /\
    tx_live t' = tx_live t /\ tx_committed t' = tx_live t /\ (si_reader s = true -> tx_visible t' = tx_live t).
Proof.
  intros Hi. destruct (with_writer_ok _ _ Hi) as (t&Ht&Hw&Heq). unfold commit_search_index in *. rewrite Heq in *. clear Heq.
  destruct (tx_commit t) as [r t1] eqn:Hc. destruct (reload_ok _ Hi t1 eq_refl) as (Hi'&t'&->&Hl&Hco&Hv).
  apply contents_ok in Hi' as [Hs [[] ->]]. destruct (tx_commit_docs _ _ Hc) as (Hl1&Hc1&Hv1). exists t, t'. rewrite set_contents_twice.
  split_and!; try done; [congruence..|]. intros Hr. rewrite Hv; [congruence|done].
Qed.

Lemma wrote_object o s :
  si_ignored (index_object_for_search_with_commit o s) = false ->
  wrote s (index_object_for_search_with_commit o s) (put_document (object_id o) (Some (ob_body o))).
Proof.
  unfold index_object_for_search_with_commit, object_id. destruct (ob_key o) as [c id] eqn:Hk. intros Hi. destruct (with_writer_ok _ _ Hi) as (t&Ht&Hw&Heq).
  rewrite Heq in *. clear Heq. unfold add_to_index in *. destruct (tx_add_document _ _) as [r t'] eqn:Ha. apply contents_ok in Hi as [Hs [[] ->]].
  exists t, t'. split_and!; [done..|]. destruct (tx_add_docs _ _ _ Ha) as (->&_&_). destruct (tx_delete_docs (object_doc_key c id) t) as (->&_&_). done.
Qed.

Lemma wrote_event ev s :
  si_ignored (index_event_for_search_with_commit ev s) = false ->
  wrote s (index_event_for_search_with_commit ev s) (fun l => l ++ [document (event_id ev) (ev_body ev)]).
Proof.
  unfold index_event_for_search_with_commit. intros Hi. destruct (with_writer_ok _ _ Hi) as (t&Ht&Hw&Heq). rewrite Heq in *. clear Heq.
  unfold add_to_index in *. destruct (tx_add_document _ _) as [r t'] eqn:Ha. apply contents_ok in Hi as [Hs [[] ->]].
  exists t, t'. split_and!; [done..|]. by destruct (tx_add_docs _ _ _ Ha) as (->&_&_).
Qed.

Lemma wrote_delete i s :
  si_ignored (delete_document (doc_key i) s) = false -> wrote s (delete_document (doc_key i) s) (put_document i None).
Proof.
  unfold delete_document. intros Hi. destruct (with_writer_ok _ _ Hi) as (t&Ht&Hw&Heq). rewrite Heq in *. clear Heq.
  destruct (tx_commit _) as [r t1] eqn:Hc. destruct (reload_ok _ Hi t1 eq_refl) as (Hi'&t'&->&Hl&_&_). apply contents_ok in Hi' as [Hs [[] ->]].
  exists t, t'. rewrite set_contents_twice. split_and!; [done..|]. rewrite Hl. destruct (tx_commit_docs _ _ Hc) as (->&_&_).
  destruct (tx_delete_docs (doc_key i) t) as (->&_&_). unfold put_document. by rewrite app_nil_r.
Qed.

(** A run of writes, none of which was lost. *)
Lemma foldl_wrote {A} (op : A -> SearchState -> SearchState) (F : A -> list Document -> list Document) xs : forall s,
  (forall x s, si_ignored (op x s) = false -> wrote s (op x s) (F x)) ->
  si_ignored (foldl (fun s x => op x s) s xs) = false -> forall t, si_index s = Some t ->
  si_ignored s = false /\ exists t', foldl (fun s x => op x s) s xs = set_contents s t' false /\ tx_live t' = foldl (fun l x => F x l) (tx_live t) xs.
Proof.
  induction xs as [|x xs IH] using rev_ind; intros s Hop Hi t Ht.
  - split; [done|]. exists t. cbn. by rewrite set_contents_id.
  - rewrite !foldl_app in *. cbn [foldl] in *. destruct (Hop _ _ Hi) as (t1&t2&Ht1&_&Hs&->&Hl).
    destruct (IH s Hop Hs t Ht) as (Hs'&t3&Heq&Hl3). rewrite Heq in Ht1. injection Ht1 as <-. split; [done|]. exists t2.
    rewrite Heq, set_contents_twice. split; [done|]. by rewrite Hl, Hl3.
Qed.

Lemma index_entries_ok {A} (f : bytes -> SearchState -> thingd_result SearchState) (g : A -> bytes * bytes) (h : A -> SearchState -> SearchState) xs :
  (forall x s, x ∈ xs -> f (g x).2 s = Ok (h x s)) -> forall last_key n s,
  index_entries f (g <$> xs) last_key n s
  = (Ok (match last (g <$> xs) with Some y => Some y.1 | None => last_key end), n + zlen xs, foldl (fun s x => h x s) s xs).
Proof.
  induction xs as [|x xs IH]; intros Hf last_key n s.
  - cbn [fmap list_fmap index_entries foldl last]. repeat f_equal. cbn. lia.
  - rewrite fmap_cons. destruct (g x) as [k v] eqn:Hg. cbn [index_entries foldl]. pose proof (Hf x s ltac:(by left)) as Hx. rewrite Hg in Hx. cbn [snd] in Hx. rewrite Hx.
    rewrite IH by (intros; apply Hf; by right).
    assert (Hlast : match last (g <$> xs) with Some y => Some y.1 | None => Some k end = match last ((k, v) :: (g <$> xs)) with Some y => Some y.1 | None => last_key end).
    { destruct xs as [|y xs]; [done|]. rewrite fmap_cons, last_cons_cons, <-fmap_cons. destruct (last (g <$> y :: xs)) eqn:Hl; [done|]. by apply last_None in Hl. }
    rewrite Hlast. assert (Hn : n + 1 + zlen xs = n + zlen (x :: xs)) by (cbn [length]; lia). by rewrite Hn.
Qed.

(** ** Pages of a rebuild *)

Definition scanned p (i : DocId) : bool :=
  match i, sp_phase p with
  | ObjectDoc c id, ObjectsPhase => passed (sp_object_cursor p) (make_object_key raw_codec c id)
  | ObjectDoc _ _, _ => true
  | EventDoc st n, EventsPhase => passed (sp_event_cursor p) (make_event_key raw_codec st n)
  | EventDoc _ _, ReplayPhase => true
  | EventDoc _ _, ObjectsPhase => false
  end.

Definition replays (m : SearchReplayMutation) (i : DocId) : Prop :=
  match i, m with
  | ObjectDoc _ _, (ReplayUpsertObject | ReplayDeleteObject) | EventDoc _ _, (ReplayUpsertEvent | ReplayDeleteEvent) => True
  | _, _ => False
  end.
Definition replays_delete (m : SearchReplayMutation) : bool := match m with ReplayDeleteObject | ReplayDeleteEvent => true | _ => false end.

(** The documents [l] in the middle of a rebuild, while the changes to the records in [T] are still
    to be reported. *)
Record rebuilding l p O E (T : DocId -> Prop) : Prop := {
  rb_known : known l;
  rb_docs : forall i, plain i -> ~ T i -> sp_replay p !! queue_key i = None -> exact_at l i (if scanned p i then body_of O E i else None);
  rb_replay : forall k m, sp_replay p !! k = Some m ->
    exists i, plain i /\ k = queue_key i /\ replays m i /\ (~ T i -> replays_delete m = true -> body_of O E i = None);
  rb_first : sp_phase p = ObjectsPhase -> sp_event_cursor p = None;
  rb_object_cursor : forall c, sp_object_cursor p = Some c -> bytes_ok c;
  rb_event_cursor : forall c, sp_event_cursor p = Some c -> bytes_ok c;
}.

Lemma filter_single {A} (f : A -> bool) (l : list A) x :
  NoDup l -> x ∈ l -> (forall y, y ∈ l -> f y = true <-> y = x) -> List.filter f l = [x].
Proof.
  induction 1 as [|y l Hy Hnd IH]; intros Hx Hf; [by apply not_elem_of_nil in Hx|]. cbn [List.filter]. destruct (f y) eqn:Hfy.
  - apply Hf in Hfy as ->; [|by left]. f_equal. apply filter_none. intros z Hz. apply not_true_iff_false. intros Hfz. apply Hf in Hfz as ->; [done|by right].
  - apply elem_of_cons in Hx as [->|Hx]; [|by apply IH; [|intros; apply Hf; right]]. assert (f y = true) by (apply Hf; [by left|done]). congruence.
Qed.

Definition objects_ahead (os : list MemoryObject) (cursor : option bytes) (n : nat) : list MemoryObject :=
  take n (List.filter (fun o => negb (passed cursor (object_pair o).1)) os).
Definition events_ahead (evs : list MemoryEvent) (cursor : option bytes) (n : nat) : list MemoryEvent :=
  take n (List.filter (fun ev => negb (passed cursor (event_pair ev).1)) evs).

Lemma page_of_objects os cursor n : page_of (object_pair <$> os) cursor n = object_pair <$> objects_ahead os cursor n.
Proof. unfold page_of, ahead, objects_ahead. by rewrite filter_fmap, fmap_take. Qed.
Lemma page_of_events evs cursor n : page_of (event_pair <$> evs) cursor n = event_pair <$> events_ahead evs cursor n.
Proof. unfold page_of, ahead, events_ahead. by rewrite filter_fmap, fmap_take. Qed.

Definition put_objects (os : list MemoryObject) l : list Document := foldl (fun l o => put_document (object_id o) (Some (ob_body o)) l) l os.
Definition add_events (evs : list MemoryEvent) l : list Document := foldl (fun l ev => l ++ [document (event_id ev) (ev_body ev)]) l evs.

Lemma add_events_app evs l : add_events evs l = l ++ ((fun ev => document (event_id ev) (ev_body ev)) <$> evs).
Proof.
  unfold add_events. revert l. induction evs as [|ev evs IH]; intros l; cbn [foldl fmap list_fmap]; [by rewrite app_nil_r|]. rewrite IH, <-app_assoc. done.
Qed.

Section store.
Context (e : PersistentEngine D) (O : ObjectMap) (E : EventMap) (Hp : primary e O E).

Lemma put_objects_at os l :
  (forall o, o ∈ os -> O !! ob_key o = Some o) -> known l -> known (put_objects os l) /\
  forall i, plain i -> (exists o, o ∈ os /\ object_id o = i) /\ exact_at (put_objects os l) i (body_of O E i) \/
    (forall o, o ∈ os -> object_id o <> i) /\ at_key (doc_key i) (put_objects os l) = at_key (doc_key i) l.
Proof using Hp.
  intros Hos Hl. set (ms := (fun o => UpsertObject (ob_key o).1 (ob_key o).2 (ob_body o)) <$> os).
  assert (Hms : put_objects os l = foldl (fun l m => put_document (mutation_id m) (mutation_body m) l) l ms).
  { unfold put_objects, ms. clear. revert l. induction os as [|o os IH]; intros l; [done|]. rewrite fmap_cons. cbn [foldl]. apply IH. }
  assert (Hpl : Forall (fun m => plain (mutation_id m)) ms).
  { apply Forall_forall. intros m (o&->&Ho)%list_elem_of_fmap. apply Hos in Ho. by destruct (pr_object_ok _ _ _ Hp _ _ Ho) as [_ ?]. }
  rewrite Hms. split; [by apply put_documents_known|]. intros i Hi. pose proof (put_documents_at ms i l Hpl Hi) as Hat. cbv zeta in Hat.
  destruct (last_change ms i) as [m|] eqn:Hc.
  - left. apply last_change_in in Hc as [(o&->&Ho)%list_elem_of_fmap Hid]. cbn [mutation_id] in Hid. split; [by exists o|]. subst i. cbn [body_of].
    rewrite <-surjective_pairing, (Hos o Ho). done.
  - right. split; [|done]. intros o Ho Hid. rewrite last_change_none in Hc. apply (Hc (UpsertObject (ob_key o).1 (ob_key o).2 (ob_body o))); [|done].
    apply list_elem_of_fmap. by exists o.
Qed.

Lemma add_events_at evs l :
  NoDup evs -> (forall ev, ev ∈ evs -> E !! event_index ev = Some ev) -> known l -> known (add_events evs l) /\
  forall i, plain i ->
    (exists ev, ev ∈ evs /\ event_id ev = i) /\ at_key (doc_key i) (add_events evs l) = at_key (doc_key i) l ++ match body_of O E i with Some b => [document i b] | None => [] end \/
    (forall ev, ev ∈ evs -> event_id ev <> i) /\ at_key (doc_key i) (add_events evs l) = at_key (doc_key i) l.
Proof using Hp.
  intros Hnd Hevs Hl. rewrite add_events_app.
  assert (Hpl : forall ev, ev ∈ evs -> plain (event_id ev)).
  { intros ev Hev. apply Hevs in Hev. apply (pr_event_ok _ _ _ Hp) in Hev. by apply event_plain in Hev. }
  split.
  - intros d [Hd|Hd]%elem_of_app; [by apply Hl|]. apply list_elem_of_fmap in Hd as (ev&->&Hev). eauto.
  - intros i Hi. rewrite at_key_app. unfold at_key at 2 5. rewrite filter_fmap.
    assert (Hf : forall ev, ev ∈ evs -> bool_decide (dc_doc_key (document (event_id ev) (ev_body ev)) = doc_key i) = true <-> event_id ev = i).
    { intros ev Hev. rewrite bool_decide_eq_true, document_key. split; [intros Hk; apply doc_key_inj; auto|by intros ->]. }
    destruct (decide (i ∈ event_id <$> evs)) as [(ev&Hid&Hev)%list_elem_of_fmap|Hno].
    + left. split; [eauto|]. f_equal. rewrite (filter_single _ evs ev Hnd Hev).
      * subst i. cbn [fmap list_fmap body_of event_id]. pose proof (Hevs ev Hev) as Hv. unfold event_index in Hv. by rewrite Hv.
      * intros ev' Hev'. rewrite Hf by done. split; [|by intros ->]. intros Hid'. rewrite Hid in Hid'. pose proof (Hevs _ Hev) as Hv. pose proof (Hevs _ Hev') as Hv'.
        unfold event_id in Hid'. unfold event_index in *. congruence.
    + right. assert (Hno' : forall ev, ev ∈ evs -> event_id ev <> i) by (intros ev Hev <-; apply Hno, list_elem_of_fmap; eauto). split; [done|].
      rewrite filter_none; [by rewrite app_nil_r|]. intros ev Hev. apply not_true_iff_false. rewrite Hf by done. by apply Hno'.
Qed.

Lemma store_objects : exists os, btree_iter (kv_view (pe_db e) "objects") = object_pair <$> os /\ forall o, o ∈ os <-> O !! ob_key o = Some o.
Proof using Hp. by eapply object_entries. Qed.

Lemma objects_rebuilding os T l p n processed :
  btree_iter (kv_view (pe_db e) "objects") = object_pair <$> os -> (forall o, o ∈ os <-> O !! ob_key o = Some o) -> (0 < n)%nat ->
  sp_phase p = ObjectsPhase -> rebuilding l p O E T ->
  let L := object_pair <$> os in
  rebuilding (put_objects (objects_ahead os (sp_object_cursor p) n) l)
    (with_object_cursor (with_processed p processed) (page_end L (sp_object_cursor p) n) (if page_done L (sp_object_cursor p) n then EventsPhase else ObjectsPhase)) O E T.
Proof using Hp.
  intros HL Hos Hn Hph [Hk Hd Hr Hf Ho He]. cbv zeta. set (L := object_pair <$> os). set (c := sp_object_cursor p). set (ps := objects_ahead os c n).
  assert (Hs : StronglySorted (fun x y => x.1 ≺ y.1) L) by (unfold L; rewrite <-HL; apply btree_iter_sorted).
  assert (Hps : forall o, o ∈ ps -> o ∈ os).
  { intros o Hin. apply elem_of_take in Hin as (j&Hj&_). by apply list_elem_of_lookup_2, elem_of_filter_bool in Hj as [? _]. }
  destruct (put_objects_at ps l) as [Hk' Hat]; [intros o Hin; by apply Hos, Hps|done|]. split; cbn [with_object_cursor with_processed sp_replay sp_phase sp_event_cursor sp_object_cursor]; [done| |done|..].
  - intros i Hi HT Hrep. specialize (Hd i Hi HT Hrep). destruct i as [c0 id|st m].
    2: { destruct (Hat (EventDoc st m) Hi) as [[(o&_&Hid) _]|[_ Heq]]; [done|]. unfold exact_at in *. rewrite Heq, Hd.
         assert (Hz : scanned p (EventDoc st m) = false) by (cbn [scanned]; by rewrite Hph). rewrite Hz.
         destruct (page_done L c n); cbn [scanned with_object_cursor with_processed sp_phase sp_event_cursor]; [by rewrite (Hf Hph)|done]. }
    unfold scanned in *. rewrite Hph in Hd. cbn [with_object_cursor sp_phase sp_object_cursor] in *.
    assert (Hsc : forall o, O !! (c0, id) = Some o -> (if page_done L c n then true else passed (page_end L c n) (make_object_key raw_codec c0 id))
      = passed c (make_object_key raw_codec c0 id) || bool_decide (object_pair o ∈ object_pair <$> ps)).
    { intros o Hoid. destruct (pr_object_ok _ _ _ Hp _ _ Hoid) as [[Hkey _ _] _].
      assert (Hx : object_pair o ∈ L) by (apply list_elem_of_fmap; exists o; split; [done|]; apply Hos; by rewrite Hkey).
      pose proof (page_progress L c n Hs Hn _ Hx) as Hpp.
      assert (Hb : bool_decide (object_pair o ∈ page_of L c n) = bool_decide (object_pair o ∈ object_pair <$> ps)) by (apply bool_decide_ext; unfold L; by rewrite page_of_objects).
      rewrite Hb in Hpp. cbn [object_pair fst] in Hpp. unfold object_key in Hpp. rewrite Hkey in Hpp. cbn [fst snd] in Hpp.
      rewrite <-Hpp. by destruct (page_done L c n). }
    assert (Hgoal : exact_at (put_objects ps l) (ObjectDoc c0 id) (if (if page_done L c n then true else passed (page_end L c n) (make_object_key raw_codec c0 id)) then body_of O E (ObjectDoc c0 id) else None)).
    2: { by destruct (page_done L c n). }
    destruct (Hat (ObjectDoc c0 id) Hi) as [[(o&Hops&Hid) Hex]|[Hno Heq]].
    + unfold object_id in Hid. injection Hid as <- <-. pose proof (Hps o Hops) as Hoo. rewrite Hos in Hoo. rewrite (Hsc o); [|by rewrite <-surjective_pairing].
      rewrite bool_decide_true, orb_true_r; [done|]. apply list_elem_of_fmap. by exists o.
    + unfold exact_at in *. rewrite Heq, Hd. cbn [body_of]. destruct (O !! (c0, id)) as [o|] eqn:Hoid; [|by destruct (passed _ _), (if page_done L c n then true else _)].
      rewrite (Hsc o eq_refl). rewrite bool_decide_false, orb_false_r; [done|]. intros Hin. apply list_elem_of_fmap in Hin as (o'&Hpair&Hin').
      apply (Hno o' Hin'). pose proof (Hps o' Hin') as Hoo. rewrite Hos in Hoo. destruct (pr_object_ok _ _ _ Hp _ _ Hoid) as [Hok _], (pr_object_ok _ _ _ Hp _ _ Hoo) as [Hok' _].
      assert (Hkk : ob_key o' = (c0, id)) by (by eapply (object_entry_inj _ o' _ o); [..|unfold object_entry; by rewrite Hpair]). unfold object_id. by rewrite Hkk.
  - intros Hph'. by apply Hf.
  - intros c' Hc'. unfold page_end in Hc'. destruct (last (page_of L c n)) as [y|] eqn:Hl; [|done]. injection Hc' as <-. apply last_Some_elem_of in Hl.
    unfold L in Hl. rewrite page_of_objects in Hl. apply list_elem_of_fmap in Hl as (o&->&_). apply object_key_ok.
  - done.
Qed.

Lemma events_rebuilding evs T l p n processed :
  btree_iter (kv_view (pe_db e) "events") = event_pair <$> evs -> (forall ev, ev ∈ evs <-> E !! event_index ev = Some ev) -> (0 < n)%nat ->
  sp_phase p = EventsPhase -> rebuilding l p O E T ->
  let L := event_pair <$> evs in
  rebuilding (add_events (events_ahead evs (sp_event_cursor p) n) l)
    (with_event_cursor (with_processed p processed) (page_end L (sp_event_cursor p) n) (if page_done L (sp_event_cursor p) n then ReplayPhase else EventsPhase)) O E T.
Proof using Hp.
  intros HL Hevs Hn Hph [Hk Hd Hr Hf Ho He]. cbv zeta. set (L := event_pair <$> evs). set (c := sp_event_cursor p). set (ps := events_ahead evs c n).
  assert (Hs : StronglySorted (fun x y => x.1 ≺ y.1) L) by (unfold L; rewrite <-HL; apply btree_iter_sorted).
  assert (Hps : forall ev, ev ∈ ps -> ev ∈ evs).
  { intros ev Hin. apply elem_of_take in Hin as (j&Hj&_). by apply list_elem_of_lookup_2, elem_of_filter_bool in Hj as [? _]. }
  assert (Hnd : NoDup ps).
  { apply (sublist_NoDup _ evs); [|etransitivity; [apply sublist_take|apply filter_sublist]]. apply (NoDup_fmap_1 event_pair). fold L.
    apply (NoDup_fmap_1 fst). unfold L. rewrite <-HL. apply btree_keys_NoDup. }
  assert (Hstep : forall ev, ev ∈ evs -> (if page_done L c n then true else passed (page_end L c n) (event_pair ev).1)
      = passed c (event_pair ev).1 || bool_decide (event_pair ev ∈ event_pair <$> ps) /\
      (event_pair ev ∈ event_pair <$> ps -> passed c (event_pair ev).1 = false)).
  { intros ev Hev. assert (Hx : event_pair ev ∈ L) by (apply list_elem_of_fmap; by exists ev). pose proof (page_progress L c n Hs Hn _ Hx) as Hpp.
    assert (Hb : bool_decide (event_pair ev ∈ page_of L c n) = bool_decide (event_pair ev ∈ event_pair <$> ps)) by (apply bool_decide_ext; unfold L; by rewrite page_of_events).
    rewrite Hb in Hpp. rewrite <-Hpp. split; [by destruct (page_done L c n)|]. intros Hin. unfold ps in Hin. rewrite <-page_of_events in Hin.
    by apply (page_elements L c n Hs) in Hin as [? _]. }
  destruct (add_events_at ps l Hnd) as [Hk' Hat]; [intros ev Hin; by apply Hevs, Hps|done|]. split; cbn [with_event_cursor with_processed sp_replay sp_phase sp_event_cursor sp_object_cursor]; [done| |done|..].
  - intros i Hi HT Hrep. specialize (Hd i Hi HT Hrep). destruct i as [c0 id|st m].
    { destruct (Hat (ObjectDoc c0 id) Hi) as [[(ev&_&Hid) _]|[_ Heq]]; [done|]. unfold exact_at in *. rewrite Heq, Hd. cbn [scanned with_event_cursor sp_phase]. rewrite Hph.
      by destruct (page_done L c n). }
    unfold scanned in *. rewrite Hph in Hd. cbn [with_event_cursor sp_phase sp_event_cursor] in *.
    assert (Hgoal : exact_at (add_events ps l) (EventDoc st m) (if (if page_done L c n then true else passed (page_end L c n) (make_event_key raw_codec st m)) then body_of O E (EventDoc st m) else None)).
    2: { by destruct (page_done L c n). }
    destruct (Hat (EventDoc st m) Hi) as [[(ev&Hevp&Hid) Hex]|[Hno Heq]].
    + unfold event_id in Hid. injection Hid as <- <-. destruct (Hstep ev (Hps _ Hevp)) as [Hsc Hun]. cbn [event_pair fst] in Hsc, Hun. rewrite Hsc.
      assert (Hin : event_pair ev ∈ event_pair <$> ps) by (apply list_elem_of_fmap; by exists ev). rewrite bool_decide_true, orb_true_r by done.
      unfold exact_at in *. fold c in Hd. rewrite (Hun Hin) in Hd. by rewrite Hex, Hd.
    + unfold exact_at in *. rewrite Heq, Hd. fold c. cbn [body_of]. destruct (E !! (st, m)) as [ev|] eqn:Hev; [|by destruct (passed _ _), (if page_done L c n then true else _)].
      destruct (pr_event_ok _ _ _ Hp _ _ Hev) as [Hst Hm _ _]. cbn [fst snd] in *. assert (Hin : ev ∈ evs) by (apply Hevs; unfold event_index; by rewrite Hst, Hm).
      destruct (Hstep ev Hin) as [Hsc _]. cbn [event_pair fst] in Hsc. rewrite Hst, Hm in Hsc. rewrite Hsc. rewrite bool_decide_false, orb_false_r; [done|].
      intros Hx. apply list_elem_of_fmap in Hx as (ev'&Hpair&Hin'). apply (Hno ev' Hin'). pose proof (Hps ev' Hin') as Hee. rewrite Hevs in Hee.
      pose proof (pr_event_ok _ _ _ Hp _ _ Hee) as Hok'. pose proof (pr_event_ok _ _ _ Hp _ _ Hev) as Hok.
      assert (Hkk : event_index ev' = (st, m)) by (by eapply (event_entry_inj _ ev' _ ev); [..|unfold event_entry; unfold event_pair in Hpair; by rewrite Hpair]).
      unfold event_index in Hkk. unfold event_id. by injection Hkk as -> ->.
  - by destruct (page_done L c n).
  - done.
  - intros c' Hc'. unfold page_end in Hc'. destruct (last (page_of L c n)) as [y|] eqn:Hl; [|done]. injection Hc' as <-. apply last_Some_elem_of in Hl.
    unfold L in Hl. rewrite page_of_events in Hl. apply list_elem_of_fmap in Hl as (ev&->&_). apply make_event_key_ok.
Qed.

(** ** Replay *)

Definition replay_outcome (i : DocId) l l' : Prop :=
  known l' /\ shown_at l' i (body_of O E i) /\ forall j, plain j -> j <> i -> at_key (doc_key j) l' = at_key (doc_key j) l.

Lemma put_outcome i l : plain i -> known l -> replay_outcome i l (put_document i (body_of O E i) l).
Proof.
  intros Hi Hl. split_and!; [by apply put_document_known|apply exact_shown, put_document_exact|]. intros j Hj Hne. by apply put_document_other.
Qed.

Lemma add_outcome i l b : plain i -> known l -> body_of O E i = Some b -> (exists st n, i = EventDoc st n) -> replay_outcome i l (l ++ [document i b]).
Proof.
  intros Hi Hl Hb (st&n&->). split_and!; [by apply known_add| |].
  - rewrite Hb. cbn [shown_at]. apply elem_of_app. right. by apply list_elem_of_singleton.
  - intros j Hj Hne. rewrite at_key_app, at_key_document, bool_decide_false; [apply app_nil_r|]. intros Hk. apply Hne. symmetry. by apply doc_key_inj.
Qed.

Lemma replay_mutation_docs i m s s' :
  plain i -> replays m i -> (replays_delete m = true -> body_of O E i = None) ->
  replay_search_mutation e (queue_key i) m s = Ok s' -> si_ignored s' = false -> (forall t, si_index s = Some t -> known (tx_live t)) ->
  exists t t', si_index s = Some t /\ si_ignored s = false /\ s' = set_contents s t' false /\ replay_outcome i (tx_live t) (tx_live t').
Proof using Hp.
  intros Hi Hm Hdel Hrun Hig Hkn.
  assert (Hput : forall body, body = body_of O E i -> wrote s s' (put_document i body) ->
    exists t t', si_index s = Some t /\ si_ignored s = false /\ s' = set_contents s t' false /\ replay_outcome i (tx_live t) (tx_live t')).
  { intros body -> (t&t'&Ht&_&Hs&->&Hl). exists t, t'. split_and!; [done..|]. rewrite Hl. apply put_outcome; [done|by apply Hkn]. }
  destruct i as [c id|st n].
  - pose proof Hi as (Hnul&Hsl&_). unfold replay_search_mutation in Hrun. destruct m; try done.
    + rewrite replay_object_key_of, (get_stored_object_of e O E) in Hrun by done. rewrite bind_Ok in Hrun. injection Hrun as <-. destruct (O !! (c, id)) as [o|] eqn:Ho.
      * apply (Hput (Some (ob_body o))); [cbn; by rewrite Ho|]. pose proof (wrote_object o s Hig) as Hw. destruct (pr_object_ok _ _ _ Hp _ _ Ho) as [[Hk _ _] _]. unfold object_id in Hw. by rewrite Hk in Hw.
      * apply (Hput None); [cbn; by rewrite Ho|]. by apply (wrote_delete (ObjectDoc c id)).
    + rewrite replay_object_key_of in Hrun by done. injection Hrun as <-. apply (Hput None); [by rewrite Hdel|]. by apply (wrote_delete (ObjectDoc c id)).
  - pose proof Hi as [Hnul Hn]. unfold replay_search_mutation in Hrun. destruct m; try done.
    + rewrite replay_event_key_of, (get_stored_event_of e O E) in Hrun by done. rewrite bind_Ok in Hrun. injection Hrun as <-. destruct (E !! (st, n)) as [ev|] eqn:Hev.
      * destruct (wrote_event ev s Hig) as (t&t'&Ht&_&Hs&->&Hl). exists t, t'. split_and!; [done..|]. rewrite Hl. destruct (pr_event_ok _ _ _ Hp _ _ Hev) as [Hst Hq _ _].
        unfold event_id. rewrite Hst, Hq. cbn [fst snd]. apply add_outcome; [done|by apply Hkn|cbn; by rewrite Hev|eauto].
      * apply (Hput None); [cbn; by rewrite Hev|]. by apply (wrote_delete (EventDoc st n)).
    + rewrite replay_event_key_of in Hrun by done. injection Hrun as <-. apply (Hput None); [by rewrite Hdel|]. by apply (wrote_delete (EventDoc st n)).
Qed.

Lemma replay_mutation_ignored k m s s' : replay_search_mutation e k m s = Ok s' -> si_ignored s' = false -> si_ignored s = false.
Proof.
  assert (Hw : forall f, wrote s s' f -> si_ignored s = false) by (by intros f (?&?&_&_&?&_)).
  unfold replay_search_mutation. destruct m.
  - destruct (replay_object_key k) as [[c id]|]; [|by intros [= <-]]. destruct (get_stored_object e c id) as [[o|]|]; rewrite ?bind_Ok; [..|done]; intros [= Heq] Hi; rewrite <-Heq in Hi.
    + rewrite <-Heq in Hw. by eapply Hw, wrote_object.
    + rewrite <-Heq in Hw. by eapply Hw, (wrote_delete (ObjectDoc c id)).
  - destruct (replay_object_key k) as [[c id]|]; intros [= Heq] Hi; rewrite <-Heq in *; [|done]. by eapply Hw, (wrote_delete (ObjectDoc c id)).
  - destruct (replay_event_key k) as [[st n]|]; [|by intros [= <-]]. destruct (get_stored_event e st n) as [[ev|]|]; rewrite ?bind_Ok; [..|done]; intros [= Heq] Hi; rewrite <-Heq in Hi.
    + rewrite <-Heq in Hw. by eapply Hw, wrote_event.
    + rewrite <-Heq in Hw. by eapply Hw, (wrote_delete (EventDoc st n)).
  - destruct (replay_event_key k) as [[st n]|]; intros [= Heq] Hi; rewrite <-Heq in *; [|done]. by eapply Hw, (wrote_delete (EventDoc st n)).
Qed.

Lemma replay_all_ignored rs : forall s s', replay_all e rs s = (Ok (), s') -> si_ignored s' = false -> si_ignored s = false.
Proof.
  induction rs as [|[k m] rs IH]; intros s s'; cbn [replay_all]; [by intros [= ->]|].
  destruct (replay_search_mutation e k m s) as [s1|] eqn:Hr; [|done]. intros Hrun Hi. eapply replay_mutation_ignored; [done|]. by eapply IH.
Qed.

Lemma replay_all_docs rs : forall s s' t,
  NoDup rs.*1 ->
  (forall k m, (k, m) ∈ rs -> exists i, plain i /\ k = queue_key i /\ replays m i /\ (replays_delete m = true -> body_of O E i = None)) ->
  replay_all e rs s = (Ok (), s') -> si_ignored s' = false -> si_index s = Some t -> known (tx_live t) ->
  exists t', s' = set_contents s t' false /\ known (tx_live t') /\
    forall j, plain j -> if bool_decide (queue_key j ∈ rs.*1) then shown_at (tx_live t') j (body_of O E j) else at_key (doc_key j) (tx_live t') = at_key (doc_key j) (tx_live t).
Proof using Hp.
  induction rs as [|[k m] rs IH]; intros s s' t Hnd Hwf Hrun Hig Ht Hkn; cbn [replay_all] in Hrun.
  - injection Hrun as <-. exists t. by rewrite set_contents_id.
  - destruct (replay_search_mutation e k m s) as [s1|] eqn:Hr; [|done]. rewrite fmap_cons in Hnd. apply NoDup_cons in Hnd as [Hk Hnd].
    pose proof (replay_all_ignored _ _ _ Hrun Hig) as Hig1. destruct (Hwf k m) as (i&Hi&->&Hm&Hdel); [by left|].
    destruct (replay_mutation_docs i m s s1 Hi Hm Hdel Hr Hig1) as (t0&t1&Ht0&_&->&Hk1&Hs1&Ho1); [intros t0 Ht0; by rewrite Ht in Ht0; injection Ht0 as <-|].
    rewrite Ht in Ht0. injection Ht0 as <-.
    destruct (IH (set_contents s t1 false) s' t1 Hnd) as (t'&->&Hk'&Hat'); [intros k' m' Hin; apply Hwf; by right|done..|].
    exists t'. rewrite set_contents_twice. split_and!; [done..|]. intros j Hj. specialize (Hat' j Hj). rewrite fmap_cons. cbn [fst].
    destruct (decide (j = i)) as [->|Hne].
    + rewrite bool_decide_false in Hat' by done. rewrite bool_decide_true by left. by eapply shown_ext.
    + assert (Hext : queue_key j ∈ queue_key i :: rs.*1 <-> queue_key j ∈ rs.*1).
      { rewrite elem_of_cons. split; [|by right]. intros [Heq|?]; [|done]. by destruct Hne; apply queue_key_inj. }
      rewrite (bool_decide_ext _ _ Hext). case_bool_decide; [done|]. rewrite Hat'. by apply Ho1.
Qed.

(** At the end of the replay every record is shown. *)
Lemma replayed_all order l p s s' t :
  (forall r, order r ≡ₚ map_to_list r) -> sp_phase p = ReplayPhase -> l = tx_live t -> rebuilding l p O E (fun _ => False) ->
  replay_all e (order (sp_replay p)) s = (Ok (), s') -> si_ignored s' = false -> si_index s = Some t ->
  exists t', s' = set_contents s t' false /\ known (tx_live t') /\ forall j, plain j -> shown_at (tx_live t') j (body_of O E j).
Proof using Hp.
  intros Hord Hph -> [Hk Hd Hr _ _ _] Hrun Hig Ht. specialize (Hord (sp_replay p)).
  assert (Hin : forall k m, (k, m) ∈ order (sp_replay p) <-> sp_replay p !! k = Some m) by (intros k m; by rewrite Hord, elem_of_map_to_list).
  destruct (replay_all_docs (order (sp_replay p)) s s' t) as (t'&->&Hk'&Hat); [| |done..|].
  { rewrite Hord. apply NoDup_fst_map_to_list. }
  { intros k m Hkm. apply Hin in Hkm. destruct (Hr k m Hkm) as (i&Hi&->&Hm&Hdel). exists i. split_and!; try done. intros Hx. by apply Hdel; [tauto|]. }
  exists t'. split_and!; [done..|]. intros j Hj. specialize (Hat j Hj). case_bool_decide as Hq; [done|].
  apply (shown_ext (tx_live t)); [done|]. apply exact_shown. pose proof (Hd j Hj ltac:(tauto)) as He. cbn [scanned] in He.
  assert (Hsc : scanned p j = true) by (unfold scanned; rewrite Hph; by destruct j). rewrite Hsc in He. apply He.
  destruct (sp_replay p !! queue_key j) as [m|] eqn:Hm; [|done]. destruct Hq. apply list_elem_of_fmap. exists (queue_key j, m). split; [done|]. by apply Hin.
Qed.
End store.
End rebuild.
