(* ===== verification/SearchRun.v ===== *)
(** * thingd: the search index and the store, step by step

    The engine, its search index and the worker thread as a step relation: writes change records and
    then report each change, the worker drains the queue, and maintenance rebuilds the index.  The
    invariant says which records the index shows already and where the changes to the others are;
    every step of the worker and of a rebuild keeps it. *)

From S2P Require Import Prelude Wal Table Layer Database Durable ThingDb Keyspace RamScan Model Objects Events Links Storage RustStd Analytics Persistent PStore PQueue PEvents PEventSpec PEventOps PEventDelete PObjects PObjectSpec PAnalytics PRetain Search SearchSpec SearchRebuild.
From Stdlib Require Import SpecFloat.

Section run.
Context `{TextIndexLaws} `{KvLaws D} `{!KvCompact D} `{!KvCompactLaws D} `{!KvPersist D} {vector_ok : list spec_float -> Prop}.
Context `{!Serde MemoryObject (object_wt vector_ok)} `{!Serde MemoryEvent event_wt}.
Implicit Types (s : SearchState) (p : SearchRebuildProgress) (e : PersistentEngine D) (O : ObjectMap) (E : EventMap) (todo : list SearchIndexMutation) (mq : SearchMutationQueue) (cfg : SearchConfig).

(** [sy_todo] are the changes the running write still has to report. *)
Record System := mkSystem {
  sy_engine : PersistentEngine D;
  sy_objects : ObjectMap;
  sy_events : EventMap;
  sy_search : SearchState;
  sy_todo : list SearchIndexMutation;
}.

(** The records after a write are those before it with the reported changes.  That the writes of
    the engine are such steps is proved for puts, deletes and appends ([put_is_step],
    [delete_is_step], [append_is_step]); for the others it is read off the source. *)
Definition reports (cs : list SearchIndexMutation) (old new : DocId -> option string) : Prop :=
  Forall (fun m => plain (mutation_id m)) cs /\
  forall i, plain i -> new i = match last_change cs i with Some m => mutation_body m | None => old i end.

Inductive search_step cfg : System -> System -> Prop :=
| step_write e O E s e' O' E' cs :
    primary (vector_ok := vector_ok) e' O' E' -> reports cs (body_of O E) (body_of O' E') ->
    search_step cfg (mkSystem e O E s []) (mkSystem e' O' E' s cs)
| step_report e O E s m todo :
    search_step cfg (mkSystem e O E s (m :: todo)) (mkSystem e O E (notify cfg m s) todo)
| step_worker e O E s todo order now duration :
    (forall pending, order pending ≡ₚ (map_to_list pending).*1) ->
    search_step cfg (mkSystem e O E s todo) (mkSystem e O E (worker_step order cfg now duration s) todo)
| step_rebuild e O E s order io batch_size :
    (forall replay, order replay ≡ₚ map_to_list replay) ->
    search_step cfg (mkSystem e O E s []) (mkSystem e O E (search_rebuild_step (vector_ok := vector_ok) cfg e order io batch_size s).2 [])
| step_retry e O E s : search_step cfg (mkSystem e O E s []) (mkSystem e O E (retry_search_rebuild cfg s).2 [])
| step_compact e O E s r e' s' :
    compact_storage cfg e s = (r, e', s') -> search_step cfg (mkSystem e O E s []) (mkSystem e' O E s' [])
| step_request e O E s journal_bytes :
    search_step cfg (mkSystem e O E s []) (mkSystem e O E (request_storage_recovery cfg journal_bytes s).2 [])
| step_fail e O E s text : search_step cfg (mkSystem e O E s []) (mkSystem e O E (fail_storage_recovery text s) []).

(** ** The invariant *)

(** Records with a change that is still to be reported. *)
Definition unreported todo (i : DocId) : Prop := exists m, m ∈ todo /\ mutation_id m = i.

Definition busy (w : Worker) : bool := match w with Apply _ | RecordCommit _ | RecordError _ => true | _ => false end.
Definition worker_batch (w : Worker) : list SearchIndexMutation := match w with Apply batch => batch | _ => [] end.
Definition worker_failed (w : Worker) : bool := match w with RecordError _ => true | _ => false end.

(** Where the latest change to a record is: in the queue, with the worker, or in the index. *)
Definition settled (t : tx) (pending : gmap string SearchIndexMutation) (batch : list SearchIndexMutation) (body : DocId -> option string) (i : DocId) : Prop :=
  match pending !! queue_key i with
  | Some m => mutation_body m = body i
  | None => match last_change batch i with Some m => mutation_body m = body i | None => shown_at (tx_live t) i (body i) end
  end.

Record queue_ok (t : tx) mq (w : Worker) (body : DocId -> option string) (T : DocId -> Prop) : Prop := {
  qo_busy : busy w = true -> sq_in_flight (mq_state mq) = true;
  qo_visible : worker_failed w = false -> tx_visible t = tx_live t;
  qo_known : worker_failed w = false -> known (tx_live t);
  qo_pending : forall k m, sq_pending (mq_state mq) !! k = Some m -> k = queue_key (mutation_id m) /\ plain (mutation_id m);
  qo_batch : Forall (fun m => plain (mutation_id m)) (worker_batch w);
  qo_settled : worker_failed w = false -> forall i, plain i -> ~ T i -> settled t (sq_pending (mq_state mq)) (worker_batch w) body i;
}.

Record search_inv s O E todo : Prop := {
  si_no_index : si_index s = None -> si_writer s = false /\ si_reader s = false;
  si_reading : si_reader s = true -> si_writer s = true;
  si_required : si_rebuild_required s = true -> si_queue s = None;
  si_waiting : si_rebuild_required s = true -> si_rebuild s = None ->
    (mt_state (si_maintenance s) <> "idle" \/ si_reader s = false) /\ forall t, si_index s = Some t -> tx_live t = [];
  si_rebuilding : forall p, si_rebuild s = Some p -> si_rebuild_required s = true /\
    (sp_error p = None -> sp_replay_overflow p = false -> exists t, si_index s = Some t /\
     (si_ignored s = false -> rebuilding (tx_live t) p O E (unreported todo)));
  si_ready : si_rebuild_required s = false ->
    match si_queue s with
    | None => si_reader s = false
    | Some mq => is_stale mq = false -> si_ignored s = false -> exists t, si_index s = Some t /\ queue_ok t mq (si_worker s) (body_of O E) (unreported todo)
    end;
}.

Record system_inv (y : System) : Prop := {
  sy_primary : primary (vector_ok := vector_ok) (sy_engine y) (sy_objects y) (sy_events y);
  sy_plain : Forall (fun m => plain (mutation_id m)) (sy_todo y);
  sy_latest : forall i m, last_change (sy_todo y) i = Some m -> mutation_body m = body_of (sy_objects y) (sy_events y) i;
  sy_inv : search_inv (sy_search y) (sy_objects y) (sy_events y) (sy_todo y);
}.

(** ** Writes *)

Lemma not_unreported todo i : ~ unreported todo i <-> last_change todo i = None.
Proof. rewrite last_change_none. unfold unreported. split; [intros Hn m Hm Hid; apply Hn; eauto|intros Hn (m&Hm&Hid); by apply (Hn m)]. Qed.

Lemma rebuilding_ext l p O E O' E' (T T' : DocId -> Prop) :
  (forall i, plain i -> ~ T' i -> ~ T i /\ body_of O' E' i = body_of O E i) -> rebuilding l p O E T -> rebuilding l p O' E' T'.
Proof.
  intros Hext [Hk Hd Hr Hf Ho He]. split; try done.
  - intros i Hi HT Hn. destruct (Hext i Hi HT) as [HT' ->]. by apply Hd.
  - intros k m Hkm. destruct (Hr k m Hkm) as (i&Hi&->&Hm&Hdel). exists i. split_and!; try done. intros HT Hx. destruct (Hext i Hi HT) as [HT' ->]. by apply Hdel.
Qed.

Lemma queue_ok_ext t mq w body body' (T T' : DocId -> Prop) :
  (forall i, plain i -> ~ T' i -> ~ T i /\ body' i = body i) -> queue_ok t mq w body T -> queue_ok t mq w body' T'.
Proof.
  intros Hext [Hb Hv Hk Hp Hba Hs]. split; try done. intros Hw i Hi HT. destruct (Hext i Hi HT) as [HT' Heq]. specialize (Hs Hw i Hi HT'). unfold settled in *. by rewrite Heq.
Qed.

Lemma search_inv_ext s O E O' E' todo todo' :
  (forall i, plain i -> ~ unreported todo' i -> ~ unreported todo i /\ body_of O' E' i = body_of O E i) -> search_inv s O E todo -> search_inv s O' E' todo'.
Proof.
  intros Hext [Hn Hr Hq Hw Hb Hy]. split; try done.
  - intros p Hp. destruct (Hb p Hp) as [Hreq Hx]. split; [done|]. intros H1' H2'. destruct (Hx H1' H2') as (t&Ht&Hrb). exists t. split; [done|]. intros Hig. eapply rebuilding_ext; [done|]. by apply Hrb.
  - intros Hreq. specialize (Hy Hreq). destruct (si_queue s) as [mq|]; [|done]. intros Hst Hig. destruct (Hy Hst Hig) as (t&Ht&Hqo). exists t. split; [done|]. by eapply queue_ok_ext.
Qed.

Lemma write_inv e O E s e' O' E' cs :
  primary (vector_ok := vector_ok) e' O' E' -> reports cs (body_of O E) (body_of O' E') -> system_inv (mkSystem e O E s []) -> system_inv (mkSystem e' O' E' s cs).
Proof.
  intros Hp [Hpl Hrep] [_ _ _ Hinv]. cbn in *. split; cbn [sy_engine sy_objects sy_events sy_search sy_todo]; [done|done| |].
  - intros i m Hm. pose proof (last_change_in _ _ _ Hm) as [Hin Hid]. rewrite Forall_forall in Hpl. rewrite Hrep; [by rewrite Hm|]. subst i. by apply Hpl.
  - eapply search_inv_ext; [|done]. intros i Hi HT. apply not_unreported in HT. rewrite Hrep, HT by done. split; [|done]. apply not_unreported. done.
Qed.

(** ** Reports *)

Lemma unreported_tail m todo i : ~ unreported todo i -> i <> mutation_id m -> ~ unreported (m :: todo) i.
Proof. intros HT Hne (m'&[->|Hm]%elem_of_cons&Hid); [congruence|]. apply HT. by exists m'. Qed.

Lemma latest_report m todo (body : DocId -> option string) :
  (forall i m', last_change (m :: todo) i = Some m' -> mutation_body m' = body i) -> ~ unreported todo (mutation_id m) -> mutation_body m = body (mutation_id m).
Proof. intros Hl HT. apply not_unreported in HT. apply Hl. cbn [last_change]. rewrite HT. by rewrite bool_decide_true. Qed.

Lemma record_rebuilding l p O E m todo :
  plain (mutation_id m) -> (forall i m', last_change (m :: todo) i = Some m' -> mutation_body m' = body_of O E i) -> rebuilding l p O E (unreported (m :: todo)) ->
  rebuilding l (mkProgress (sp_generation p) (sp_phase p) (sp_object_cursor p) (sp_event_cursor p) (sp_processed p) (sp_total p)
    (<[search_mutation_key m := replay_kind m]> (sp_replay p)) (sp_replay_overflow p) (sp_error p)) O E (unreported todo).
Proof.
  intros Hm Hlast [Hk Hd Hr Hf Ho He]. rewrite mutation_key. split; cbn [sp_replay sp_phase sp_object_cursor sp_event_cursor]; try done.
  - intros i Hi HT Hn. apply lookup_insert_None in Hn as [Hn Hne]. apply (Hd i Hi); [|done]. apply unreported_tail; [done|]. by intros ->.
  - intros k m' Hk'. apply lookup_insert_Some in Hk' as [[<- <-]|[Hne Hk']].
    + exists (mutation_id m). split_and!; [done|done|by destruct m|]. intros HT Hdel. rewrite <-(latest_report m todo (body_of O E) Hlast HT). by destruct m.
    + destruct (Hr k m' Hk') as (i&Hi&->&Hm'&Hdel). exists i. split_and!; try done. intros HT. apply Hdel. apply unreported_tail; [done|]. by intros ->.
Qed.

Lemma enqueue_ok t mq w body m todo :
  plain (mutation_id m) -> (forall i m', last_change (m :: todo) i = Some m' -> mutation_body m' = body i) ->
  is_stale (enqueue (search_mutation_key m) m mq).2 = false -> queue_ok t mq w body (unreported (m :: todo)) ->
  queue_ok t (enqueue (search_mutation_key m) m mq).2 w body (unreported todo).
Proof.
  intros Hm Hlast Hst [Hb Hv Hk Hp Hba Hs].
  assert (Hq : exists coalesced, (enqueue (search_mutation_key m) m mq).2
    = mkMutationQueue (with_pending (mq_state mq) (<[search_mutation_key m := m]> (sq_pending (mq_state mq))) coalesced) (mq_max_keys mq) (mq_shutdown mq)).
  { unfold enqueue in *. destruct (bool_decide _); [by eexists|]. destruct (_ <=? _); [done|by eexists]. }
  destruct Hq as [n ->]. rewrite mutation_key. split; cbn [mq_state with_pending sq_in_flight sq_pending]; try done.
  - intros k m' Hk'. apply lookup_insert_Some in Hk' as [[<- <-]|[_ Hk']]; [done|by apply Hp].
  - intros Hw i Hi HT. unfold settled. destruct (decide (i = mutation_id m)) as [->|Hne].
    + rewrite lookup_insert_eq. by eapply latest_report.
    + rewrite lookup_insert_ne by (intros Heq; by apply Hne; symmetry; apply queue_key_inj). apply Hs; [done..|]. by apply unreported_tail.
Qed.

(** Only the queue changes: the rest of the invariant is kept. *)
Lemma queue_inv_change s O E todo q w :
  search_inv s O E todo -> (si_rebuild_required s = true -> q = None) ->
  (si_rebuild_required s = false ->
    match q with
    | None => si_reader s = false
    | Some mq => is_stale mq = false -> si_ignored s = false -> exists t, si_index s = Some t /\ queue_ok t mq w (body_of O E) (unreported todo)
    end) -> search_inv (set_queue s q w) O E todo.
Proof. intros [Hn Hr Hq Hw Hb Hy] Hreq Hnew. by split. Qed.

Lemma enqueue_not_stale key m mq : is_stale (enqueue key m mq).2 = false -> is_stale mq = false.
Proof. unfold is_stale, enqueue. destruct (bool_decide _); [done|]. by destruct (_ <=? _). Qed.

Lemma report_inv cfg e O E s m todo :
  cf_mode cfg <> PersistentNoRebuild -> system_inv (mkSystem e O E s (m :: todo)) -> system_inv (mkSystem e O E (notify cfg m s) todo).
Proof.
  intros Hmode [Hp Hpl Hlast Hinv]. cbn [sy_engine sy_objects sy_events sy_search sy_todo] in *. apply Forall_cons in Hpl as [Hm Hpl].
  split; cbn [sy_engine sy_objects sy_events sy_search sy_todo]; [done|done| |].
  { intros i m' Hm'. apply Hlast. cbn [last_change]. by rewrite Hm'. }
  unfold notify, enqueue_for_search. rewrite bool_decide_false by done.
  assert (Hrec : exists rb, record_search_mutation (search_mutation_key m) (replay_kind m) s = set_rebuild s rb (si_rebuild_required s) (si_rebuild_path s) /\
    (rb = None <-> si_rebuild s = None) /\
    forall p, rb = Some p -> sp_error p = None -> sp_replay_overflow p = false ->
      exists t, si_index s = Some t /\ (si_ignored s = false -> rebuilding (tx_live t) p O E (unreported todo))).
  { unfold record_search_mutation. destruct (si_rebuild s) as [p|] eqn:Hrb; [|exists None; split_and!; [|done..]; destruct s; cbn in *; by subst].
    destruct (_ && _); (eexists; split_and!; [reflexivity|done|]); intros p' [= <-]; cbn [sp_error sp_replay_overflow]; intros Herr Hov; [done|].
    destruct (si_rebuilding _ _ _ _ Hinv p Hrb) as [_ Hx]. destruct (Hx Herr Hov) as (t&Ht&Hreb). exists t. split; [done|]. intros Hig. apply record_rebuilding; auto. }
  destruct Hrec as (rb&->&Hnone&Hreb). destruct Hinv as [Hn Hr Hq Hw Hb Hy].
  assert (Hinv' : forall q, (si_rebuild_required s = true -> q = None) ->
    (si_rebuild_required s = false -> match q with
      | None => si_reader s = false
      | Some mq => is_stale mq = false -> si_ignored s = false -> exists t, si_index s = Some t /\ queue_ok t mq (si_worker s) (body_of O E) (unreported todo) end) ->
    search_inv (set_queue (set_rebuild s rb (si_rebuild_required s) (si_rebuild_path s)) q (si_worker s)) O E todo).
  { intros q Hq1 Hq2. split; cbn; try done.
    - intros Hreq Hrb. apply Hw; [done|]. by apply Hnone.
    - intros p ->. destruct (si_rebuild s) as [p0|] eqn:Hp0; [|by specialize (proj2 Hnone eq_refl)]. split; [by eapply Hb|]. by apply Hreb. }
  cbn [set_rebuild si_queue si_worker]. destruct (si_queue s) as [mq|] eqn:Hmq.
  - apply Hinv'; [intros Hreq; by specialize (Hq Hreq)|]. intros Hreq Hst Hig. specialize (Hy Hreq). destruct (Hy (enqueue_not_stale _ _ _ Hst) Hig) as (t&Ht&Hqo).
    exists t. split; [done|]. by apply enqueue_ok.
  - specialize (Hinv' None ltac:(done) Hy). unfold set_queue, set_rebuild in *. cbn in *. by rewrite Hmq.
Qed.

(** ** The worker *)

Lemma remove_pending_spec (keys : list string) : forall pending, NoDup keys ->
  (forall m, m ∈ (remove_pending keys pending).1 <-> exists k, k ∈ keys /\ pending !! k = Some m) /\
  forall k, (remove_pending keys pending).2 !! k = if bool_decide (k ∈ keys) then None else pending !! k.
Proof.
  induction keys as [|k keys IH]; intros pending Hnd; cbn [remove_pending].
  - split; [intros m; split; [intros Hm; by apply not_elem_of_nil in Hm|intros (k&Hk&_); by apply not_elem_of_nil in Hk]|]. intros k. rewrite bool_decide_false; [done|apply not_elem_of_nil].
  - apply NoDup_cons in Hnd as [Hk Hnd]. specialize (IH (delete k pending) Hnd). destruct (remove_pending keys (delete k pending)) as [batch rest]. destruct IH as [Hb Hr]. cbn [fst snd] in *. split.
    + intros m. assert (Htail : m ∈ batch <-> exists k', k' ∈ keys /\ pending !! k' = Some m).
      { rewrite Hb. split; intros (k'&Hk'&Hm'); exists k'; (split; [done|]); rewrite lookup_delete_ne in *; try done; by intros <-. }
      assert (Hhead : (exists k', k' ∈ k :: keys /\ pending !! k' = Some m) <-> pending !! k = Some m \/ m ∈ batch).
      { rewrite Htail. split; [intros (k'&[->|Hk']%elem_of_cons&Hm'); [by left|right; eauto]|]. intros [Hm'|(k'&Hk'&Hm')]; [exists k; split; [left|done]|exists k'; split; [by right|done]]. }
      rewrite Hhead. destruct (pending !! k) as [m0|]; [rewrite elem_of_cons; naive_solver|naive_solver].
    + intros k'. rewrite Hr. destruct (decide (k' = k)) as [->|Hne].
      * rewrite lookup_delete_eq, (bool_decide_true (k ∈ k :: keys)) by left. by destruct (bool_decide _).
      * rewrite lookup_delete_ne by done. rewrite (bool_decide_ext (k' ∈ k :: keys) (k' ∈ keys)); [done|]. rewrite elem_of_cons. naive_solver.
Qed.

Section worker.
Context (order : gmap string SearchIndexMutation -> list string) (Horder : forall pending, order pending ≡ₚ (map_to_list pending).*1).

Lemma taken_keys n (pending : gmap string SearchIndexMutation) : NoDup (take n (order pending)) /\ forall k, k ∈ take n (order pending) -> is_Some (pending !! k).
Proof using Horder.
  split; [apply (sublist_NoDup _ (order pending)); [rewrite Horder; apply NoDup_fst_map_to_list|apply sublist_take]|].
  intros k Hk. apply elem_of_take in Hk as (j&Hj&_). apply list_elem_of_lookup_2 in Hj. rewrite Horder in Hj. apply list_elem_of_fmap in Hj as ([k' m]&->&Hin).
  apply elem_of_map_to_list in Hin. by exists m.
Qed.

Lemma take_filled_ok cfg t mq w body T s O E todo :
  worker_batch w = [] -> worker_failed w = false -> body = body_of O E -> T = unreported todo -> is_stale mq = false -> si_ignored s = false -> si_index s = Some t ->
  queue_ok t mq w body T ->
  let s' := worker_took mq (returned (take_filled order (cf_commit_batch_size cfg) (mq_state mq))) s in
  match si_queue s' with Some mq' => queue_ok t mq' (si_worker s') body T | None => False end.
Proof using Horder.
  intros Hwb Hwf -> -> Hst Hig Ht [Hb Hv Hk Hp Hba Hs]. cbv zeta. rewrite Hwb in *. unfold take_filled, returned, worker_took.
  set (keys := take _ _). destruct (taken_keys (Z.to_nat (Z.max (cf_commit_batch_size cfg) 1)) (sq_pending (mq_state mq))) as [Hnd Hin]. fold keys in Hnd, Hin.
  destruct (remove_pending_spec keys (sq_pending (mq_state mq)) Hnd) as [Hbatch Hrest]. destruct (remove_pending keys _) as [batch rest]. cbn [fst snd] in *.
  assert (Hok : forall w', worker_batch w' = batch -> worker_failed w' = false -> (busy w' = true -> keys <> []) ->
    queue_ok t (with_queue_state mq (mkSearchQueue rest (negb (bool_decide (keys = []))) (sq_queued (mq_state mq)) (sq_coalesced (mq_state mq)) (sq_committed (mq_state mq))
      (sq_last_commit_unix_ms (mq_state mq)) (sq_last_commit_duration_ms (mq_state mq)) (sq_last_error (mq_state mq)) (sq_retry_count (mq_state mq)) (sq_stale (mq_state mq)))) w' (body_of O E) (unreported todo)).
  { intros w' Hw' Hwf' Hbusy. split; cbn [with_queue_state mq_state sq_in_flight sq_pending].
    - intros Hbz. apply negb_true_iff, bool_decide_eq_false. by apply Hbusy.
    - intros _. by apply Hv.
    - intros _. by apply Hk.
    - intros k m. rewrite Hrest. case_bool_decide; [done|]. apply Hp.
    - rewrite Hw'. apply Forall_forall. intros m (k&_&Hm)%Hbatch. by apply Hp in Hm as [_ ?].
    - intros _ i Hi HT. specialize (Hs Hwf i Hi HT). unfold settled in *. cbn [last_change] in Hs. rewrite Hrest, Hw'.
      destruct (sq_pending (mq_state mq) !! queue_key i) as [m|] eqn:Hm.
      + case_bool_decide as Hki; [|done]. assert (Hinb : m ∈ batch) by (apply Hbatch; eauto). destruct (Hp _ _ Hm) as [Hkey Hpl].
        destruct (last_change batch i) as [m'|] eqn:Hl.
        * apply last_change_in in Hl as [(k'&_&Hm')%Hbatch Hid]. destruct (Hp _ _ Hm') as [-> _]. rewrite Hid in Hm'. congruence.
        * rewrite last_change_none in Hl. destruct (Hl m Hinb). symmetry. by apply queue_key_inj.
      + assert (Hno : last_change batch i = None).
        { apply last_change_none. intros m (k'&_&Hm')%Hbatch Hid. destruct (Hp _ _ Hm') as [-> _]. congruence. }
        rewrite Hno. by case_bool_decide. }
  destruct batch as [|m batch]; cbn [si_queue si_worker set_queue]; apply Hok; try done. intros _ Hnil. rewrite Hnil in Hbatch.
  assert (Hm : m ∈ m :: batch) by left. apply Hbatch in Hm as (k&Hk'&_). by apply not_elem_of_nil in Hk'.
Qed.

(** The queue of the worker, after its step. *)
Definition worker_result s O E todo : Prop :=
  match si_queue s with
  | Some mq => is_stale mq = false -> si_ignored s = false -> exists t, si_index s = Some t /\ queue_ok t mq (si_worker s) (body_of O E) (unreported todo)
  | None => False
  end.

Lemma idle_worker t mq w w' body T :
  queue_ok t mq w body T -> worker_batch w = [] -> worker_failed w = false -> worker_batch w' = [] -> worker_failed w' = false -> busy w' = false -> queue_ok t mq w' body T.
Proof. intros [Hb Hv Hk Hp Hba Hs] H1' H2' H3' H4' H5'. rewrite H1', H2' in *. split; rewrite ?H3', ?H4', ?H5'; done. Qed.

Lemma took_ok cfg s O E todo mq w o :
  si_worker s = w -> worker_batch w = [] -> worker_failed w = false -> is_stale mq = false ->
  (is_stale mq = false -> si_ignored s = false -> exists t, si_index s = Some t /\ queue_ok t mq w (body_of O E) (unreported todo)) ->
  o = Returned [] (mq_state mq) \/ o = WaitPending \/ o = WaitBatch \/ o = returned (take_filled order (cf_commit_batch_size cfg) (mq_state mq)) ->
  worker_result (worker_took mq o s) O E todo.
Proof using Horder.
  intros Hw Hb Hf Hst Hq Ho. assert (Hmq : with_queue_state mq (mq_state mq) = mq) by (by destruct mq). unfold worker_result.
  destruct Ho as [->|[->|[->|Ho]]]; cbn [worker_took si_queue si_worker si_index si_ignored set_queue]; rewrite ?Hmq.
  1-3: intros _ Hig; destruct (Hq Hst Hig) as (t&Ht&Hqo); exists t; (split; [done|]); by eapply idle_worker.
  assert (Hfr : si_index (worker_took mq o s) = si_index s /\ si_ignored (worker_took mq o s) = si_ignored s /\ is_Some (si_queue (worker_took mq o s))).
  { unfold worker_took. destruct o as [[|m b] q| |]; cbn; split_and!; done || by eexists. }
  destruct Hfr as (Hfi&Hfg&[mq' Hfq]). rewrite Hfq. intros Hst' Hig. rewrite Hfg in Hig. rewrite Hfi. destruct (Hq Hst Hig) as (t&Ht&Hqo). exists t. split; [done|].
  pose proof (take_filled_ok cfg t mq w _ _ s O E todo Hb Hf eq_refl eq_refl Hst Hig Ht Hqo) as Hres. cbv zeta in Hres. rewrite <-Ho, Hfq in Hres. done.
Qed.

Lemma take_enter_outcome n mq : is_stale mq = false ->
  let o := take_enter order n mq in o = Returned [] (mq_state mq) \/ o = WaitPending \/ o = WaitBatch \/ o = returned (take_filled order n (mq_state mq)).
Proof.
  intros Hst. unfold take_enter, take_rest. unfold is_stale in Hst. rewrite Hst. cbv zeta. repeat case_match; tauto.
Qed.
Lemma take_woken_outcome n mq :
  let o := take_woken order n mq in o = Returned [] (mq_state mq) \/ o = WaitPending \/ o = WaitBatch \/ o = returned (take_filled order n (mq_state mq)).
Proof. unfold take_woken, take_rest. cbv zeta. repeat case_match; tauto. Qed.

(** A stale queue stays stale. *)
Lemma took_stale mq o s : (match o with Returned _ q => sq_stale q = true | _ => True end) -> is_stale mq = true ->
  match si_queue (worker_took mq o s) with Some mq' => is_stale mq' = true | None => False end.
Proof. unfold worker_took. destruct o as [[|m b] q| |]; cbn; by intros. Qed.

Lemma stale_result s O E todo : match si_queue s with Some mq => is_stale mq = true | None => False end -> worker_result s O E todo.
Proof. unfold worker_result. destruct (si_queue s) as [mq|]; [|done]. intros ->. done. Qed.

Lemma take_filled_stale n q : sq_stale (take_filled order n q).2 = sq_stale q.
Proof. unfold take_filled. by destruct (remove_pending _ _). Qed.

Lemma returned_stale n q : sq_stale q = true -> match returned (take_filled order n q) with Returned _ q' => sq_stale q' = true | _ => True end.
Proof. intros Hq. unfold returned. by rewrite take_filled_stale. Qed.

Lemma apply_result s O E todo mq batch :
  si_queue s = Some mq -> si_worker s = Apply batch ->
  (is_stale mq = false -> si_ignored s = false -> exists t, si_index s = Some t /\ queue_ok t mq (Apply batch) (body_of O E) (unreported todo)) ->
  is_Some (si_index s) -> worker_result (worker_apply batch s) O E todo.
Proof.
  intros Hq Hw Hok [t0 Ht0]. unfold worker_result, worker_apply. rewrite Ht0. destruct (apply_and_commit batch t0) as [[[]|err] t1] eqn:Ha.
  - destruct (tx_reload t1) as [r t2] eqn:Hr. cbn [si_queue si_worker si_index si_ignored set_queue set_contents]. rewrite Hq. intros Hst [Hig Hf]%orb_false_iff.
    destruct (Hok Hst Hig) as (t&Ht&[Hb Hv Hk Hp Hba Hs]). rewrite Ht0 in Ht. injection Ht as <-. exists t2. split; [done|]. destruct r as [[]|]; [|done].
    destruct (tx_reload_docs _ _ Hr) as (Hl2&Hc2&Hv2). destruct (apply_and_commit_docs _ _ _ Ha) as [Hl1 Hc1]. cbn [busy worker_batch worker_failed] in *.
    split; cbn [busy worker_batch worker_failed]; try done.
    + intros _. congruence.
    + intros _. rewrite Hl2, Hl1. apply put_documents_known; [done|by apply Hk].
    + intros _ i Hi HT. specialize (Hs eq_refl i Hi HT). unfold settled in *. destruct (_ !! queue_key i) as [m|]; [done|]. cbn [last_change]. rewrite Hl2, Hl1.
      pose proof (put_documents_at batch i (tx_live t0) Hba Hi) as Hat. cbv zeta in Hat. destruct (last_change batch i) as [m|].
      * rewrite <-Hs. by apply exact_shown.
      * eapply shown_ext; [symmetry; exact Hat|done].
  - cbn [si_queue si_worker si_index si_ignored set_queue set_contents]. rewrite Hq. intros Hst [Hig _]%orb_false_iff. destruct (Hok Hst Hig) as (t&Ht&[Hb Hv Hk Hp Hba Hs]).
    exists t1. split; [done|]. split; cbn [busy worker_batch worker_failed]; done.
Qed.

Lemma worker_inv cfg now duration s O E todo : search_inv s O E todo -> search_inv (worker_step order cfg now duration s) O E todo.
Proof using Horder.
  intros Hinv. unfold worker_step. destruct (si_queue s) as [mq|] eqn:Hmq; [|done]. pose proof Hinv as [Hn Hr Hq Hw Hb Hy].
  assert (Hreq : si_rebuild_required s = false) by (destruct (si_rebuild_required s) eqn:Hx; [rewrite (Hq eq_refl) in Hmq; done|done]).
  pose proof (Hy Hreq) as Hok. rewrite Hmq in Hok.
  assert (Hfinish : forall s', si_writer s' = si_writer s -> si_reader s' = si_reader s -> si_rebuild s' = si_rebuild s -> si_rebuild_required s' = si_rebuild_required s ->
    (si_index s' = None -> si_index s = None) -> worker_result s' O E todo -> search_inv s' O E todo).
  { intros s' E1 E2 E3 E4 E5 Hres. split; rewrite ?E1, ?E2, ?E3, ?E4; try done.
    - intros Hi. by apply Hn, E5.
    - by rewrite Hreq.
    - by rewrite Hreq.
    - intros p Hp. destruct (Hb p Hp). congruence.
    - intros _. unfold worker_result in Hres. by destruct (si_queue s'). }
  assert (Hset : forall q w, worker_result (set_queue s q w) O E todo -> search_inv (set_queue s q w) O E todo) by (intros; by apply Hfinish).
  assert (Htook : forall o, worker_result (worker_took mq o s) O E todo -> search_inv (worker_took mq o s) O E todo).
  { intros o Hres. apply Hfinish; try done; unfold worker_took; by destruct o as [[|m b] q| |]. }
  destruct (si_worker s) as [| | | | |batch|count|err] eqn:Hwk; [done|..].
  - apply Htook. destruct (is_stale mq) eqn:Hst.
    + apply stale_result, took_stale; [|done]. unfold take_enter. unfold is_stale in Hst. by rewrite Hst.
    + apply (took_ok cfg s O E todo mq TakeBatch); [done|done|done|done|by intros _; apply Hok|]. by apply take_enter_outcome.
  - apply Htook. destruct (is_stale mq) eqn:Hst.
    + apply stale_result, took_stale; [|done]. unfold take_woken. unfold is_stale in Hst. rewrite Hst, orb_true_r. done.
    + apply (took_ok cfg s O E todo mq AwaitPending); [done|done|done|done|by intros _; apply Hok|]. by apply take_woken_outcome.
  - apply Htook. destruct (is_stale mq) eqn:Hst.
    + apply stale_result, took_stale; [|done]. by apply returned_stale.
    + apply (took_ok cfg s O E todo mq AwaitBatch); [done|done|done|done|by intros _; apply Hok|]. tauto.
  - apply Hset. unfold worker_result. cbn [si_queue si_worker si_index si_ignored set_queue]. intros Hst Hig. destruct (Hok Hst Hig) as (t&Ht&Hqo). exists t. split; [done|].
    eapply idle_worker; [done..| | |]; by destruct (mq_shutdown mq).
  - destruct (si_index s) as [t0|] eqn:Ht0.
    + apply Hfinish; [| | | | |eapply apply_result; rewrite ?Ht0; eauto]; unfold worker_apply; rewrite Ht0; destruct (apply_and_commit batch t0) as [[]]; try destruct (tx_reload _); done.
    + unfold worker_apply. rewrite Ht0. exact Hinv.
  - apply Hset. unfold worker_result. cbn [si_queue si_worker si_index si_ignored set_queue]. intros Hst Hig. destruct (Hok Hst Hig) as (t&Ht&[Hb' Hv Hk Hp Hba Hs]). exists t. by split.
  - apply Hset, stale_result. done.
Qed.
End worker.
End run.

(** ** The steps of a rebuild *)

Section steps.
Context `{TextIndexLaws} `{KvLaws D} `{!KvCompact D} `{!KvCompactLaws D} `{!KvPersist D} {vector_ok : list spec_float -> Prop}.
Context `{!Serde MemoryObject (object_wt vector_ok)} `{!Serde MemoryEvent event_wt}.
Implicit Types (s : SearchState) (p : SearchRebuildProgress) (e : PersistentEngine D) (O : ObjectMap) (E : EventMap) (cfg : SearchConfig) (io : IndexIo).

(** ** What writing documents leaves alone *)

Definition frame s s' : Prop :=
  exists ix ig, s' = mkSearch ix (si_place s) (si_writer s) (si_reader s) (si_queue s) (si_worker s) (si_rebuild s) (si_rebuild_required s)
    (si_rebuild_path s) (si_maintenance s) ig /\ (ix = None <-> si_index s = None) /\ (ig = false -> si_ignored s = false).

Lemma frame_refl s : frame s s.
Proof. exists (si_index s), (si_ignored s). by destruct s. Qed.

Lemma frame_trans s s' s'' : frame s s' -> frame s' s'' -> frame s s''.
Proof. intros (ix&ig&->&Hix&Hig) (ix'&ig'&->&Hix'&Hig'). cbn in *. exists ix', ig'. split_and!; [done|by rewrite Hix'|auto]. Qed.

Lemma frame_contents s t t' b : si_index s = Some t -> frame s (set_contents s t' b).
Proof. intros Ht. exists (Some t'), (si_ignored s || b). rewrite Ht. split_and!; [done|done|]. by intros [? _]%orb_false_iff. Qed.

Lemma frame_writer s (f : tx -> SearchState) : (forall t, si_index s = Some t -> frame s (f t)) -> frame s (with_writer f s).
Proof.
  intros Hf. unfold with_writer. destruct (si_index s) as [t|] eqn:Ht; [destruct (si_writer s); [by apply Hf|]|];
    (exists (si_index s), true; rewrite ?Ht; split_and!; [unfold set_ignored; by rewrite Ht|done|done]).
Qed.

Lemma frame_reload s : frame s (reload_search_reader s).
Proof.
  unfold reload_search_reader. destruct (si_index s) as [t|] eqn:Ht; [|apply frame_refl]. destruct (si_reader s); [|apply frame_refl].
  destruct (tx_reload t) as [r t']. by eapply frame_contents.
Qed.

Lemma frame_commit s : frame s (commit_search_index s).
Proof.
  apply frame_writer. intros t Ht. destruct (tx_commit t) as [r t']. eapply frame_trans; [by eapply frame_contents|apply frame_reload].
Qed.

Lemma frame_delete k s : frame s (delete_document k s).
Proof.
  apply frame_writer. intros t Ht. destruct (tx_commit _) as [r t']. eapply frame_trans; [by eapply frame_contents|apply frame_reload].
Qed.

Lemma frame_object o s : frame s (index_object_for_search_with_commit o s).
Proof.
  unfold index_object_for_search_with_commit. destruct (ob_key o) as [c id]. apply frame_writer. intros t Ht. unfold add_to_index.
  destruct (tx_add_document _ _) as [r t']. by eapply frame_contents.
Qed.

Lemma frame_event ev s : frame s (index_event_for_search_with_commit ev s).
Proof. apply frame_writer. intros t Ht. unfold add_to_index. destruct (tx_add_document _ _) as [r t']. by eapply frame_contents. Qed.

Lemma frame_foldl {A} (op : A -> SearchState -> SearchState) xs : (forall x s, frame s (op x s)) -> forall s, frame s (foldl (fun s x => op x s) s xs).
Proof. intros Hop. induction xs as [|x xs IH]; intros s; [apply frame_refl|]. cbn [foldl]. eapply frame_trans; [apply Hop|apply IH]. Qed.

Lemma frame_entries (f : bytes -> SearchState -> thingd_result SearchState) entries :
  (forall v s s', f v s = Ok s' -> frame s s') -> forall last n s, frame s (index_entries f entries last n s).2.
Proof.
  intros Hf. induction entries as [|[k v] entries IH]; intros last n s; cbn [index_entries]; [apply frame_refl|].
  destruct (f v s) as [s'|] eqn:Hv; [|apply frame_refl]. eapply frame_trans; [by eapply Hf|apply IH].
Qed.

Lemma frame_object_entry e v s s' : index_object_entry e v s = Ok s' -> frame s s'.
Proof. unfold index_object_entry. destruct (deserialize _ v) as [o|]; [|done]. rewrite bind_Ok. intros [= <-]. apply frame_object. Qed.
Lemma frame_event_entry e v s s' : index_event_entry e v s = Ok s' -> frame s s'.
Proof. unfold index_event_entry. destruct (deserialize _ v) as [ev|]; [|done]. rewrite bind_Ok. intros [= <-]. apply frame_event. Qed.

Lemma frame_replay e k m s s' : replay_search_mutation e k m s = Ok s' -> frame s s'.
Proof.
  unfold replay_search_mutation. destruct m.
  - destruct (replay_object_key k) as [[c id]|]; [|intros [= <-]; apply frame_refl]. destruct (get_stored_object e c id) as [[o|]|]; rewrite ?bind_Ok; [..|done]; intros [= <-];
      [apply frame_object|apply frame_delete].
  - intros [= <-]. destruct (replay_object_key k) as [[c id]|]; [apply frame_delete|apply frame_refl].
  - destruct (replay_event_key k) as [[st n]|]; [|intros [= <-]; apply frame_refl]. destruct (get_stored_event e st n) as [[ev|]|]; rewrite ?bind_Ok; [..|done]; intros [= <-];
      [apply frame_event|apply frame_delete].
  - intros [= <-]. destruct (replay_event_key k) as [[st n]|]; [apply frame_delete|apply frame_refl].
Qed.

Lemma frame_replay_all e rs : forall s, frame s (replay_all e rs s).2.
Proof.
  induction rs as [|[k m] rs IH]; intros s; cbn [replay_all]; [apply frame_refl|]. destruct (replay_search_mutation e k m s) as [s'|] eqn:Hr; [|apply frame_refl].
  eapply frame_trans; [by eapply frame_replay|apply IH].
Qed.

Lemma frame_index s s' t : frame s s' -> si_index s = Some t -> exists t', si_index s' = Some t'.
Proof. intros (ix&ig&->&Hix&_) Ht. cbn. destruct ix as [t'|]; [by exists t'|]. by rewrite (proj1 Hix eq_refl) in Ht. Qed.

(** ** A rebuild under way *)

(** There is no queue during a rebuild. *)
Record shell s : Prop := {
  sh_no_index : si_index s = None -> si_writer s = false /\ si_reader s = false;
  sh_reading : si_reader s = true -> si_writer s = true;
  sh_required : si_rebuild_required s = true;
  sh_queue : si_queue s = None;
}.

Definition midway s p O E : Prop :=
  shell s /\ exists t, si_index s = Some t /\ (si_ignored s = false -> rebuilding (tx_live t) p O E (unreported [])).

Lemma shell_frame s s' : frame s s' -> shell s -> shell s'.
Proof. intros (ix&ig&->&Hix&_) [Hn Hr Hq Hqu]. split; cbn; try done. rewrite Hix. done. Qed.

Lemma shell_rebuild s rb path : shell s -> shell (set_rebuild s rb (si_rebuild_required s) path).
Proof. by intros [Hn Hr Hq Hqu]. Qed.

Lemma midway_inv s p path O E : midway s p O E -> search_inv (set_rebuild s (Some p) (si_rebuild_required s) path) O E [].
Proof.
  intros [[Hn Hr Hq Hqu] Hb]. split; cbn; try done; try (by rewrite Hq). intros p' [= <-]. split; [done|]. done.
Qed.

Lemma failed_inv s p path O E m : shell s -> is_Some (sp_error p) -> search_inv (set_maintenance (set_rebuild s (Some p) (si_rebuild_required s) path) m) O E [].
Proof.
  intros [Hn Hr Hq Hqu] [err Herr]. split; cbn; try done; try (by rewrite Hq). intros p' [= <-]. split; [done|]. intros Hx. congruence.
Qed.

Lemma search_inv_maintenance s O E todo m :
  search_inv s O E todo -> (si_rebuild_required s = true -> mt_state (si_maintenance s) <> "idle" -> mt_state m <> "idle") -> search_inv (set_maintenance s m) O E todo.
Proof.
  intros [Hn Hr Hq Hw Hb Hy] Hm. split; cbn; try done. intros Hreq Hrb. destruct (Hw Hreq Hrb) as [[Hst|Hst] Hl]; [|by split; [right|]]. split; [left; auto|done].
Qed.

Lemma discard_inv s O E todo : search_inv s O E todo -> search_inv (discard_stale s) O E todo.
Proof.
  intros Hinv. unfold discard_stale. destruct (si_queue s) as [mq|] eqn:Hq; [|done]. destruct (si_rebuild s) as [p|]; [done|]. destruct (is_stale mq); [|done].
  split; cbn; try done. intros _ _. split; [by right|done].
Qed.

(** ** Starting *)

Lemma fresh_rebuilding O E g total : rebuilding [] (mkProgress g ObjectsPhase None None 0 total ∅ false None) O E (unreported []).
Proof.
  split; cbn [sp_replay sp_phase sp_event_cursor sp_object_cursor]; try done; [apply known_nil|]. intros i Hi _ _. by destruct i.
Qed.

Lemma create_shell cfg io s r s' :
  cf_encrypted cfg = false -> shell s -> si_index s = None -> create_rebuild_index cfg io s = (r, s') ->
  shell s' /\ si_ignored s' = si_ignored s /\ si_rebuild s' = si_rebuild s /\ (forall t, si_index s' = Some t -> tx_live t = []) /\
  match r with Ok _ => exists t, si_index s' = Some t | Err _ => si_reader s' = false end.
Proof.
  intros Henc [Hn Hr Hq Hqu] Hix. destruct (Hn Hix) as [Hw Hrd]. unfold create_rebuild_index. rewrite Henc. pose proof tx_create_docs as (Hl&_&_).
  assert (Hgo : forall place, match (if cf_in_memory cfg then Ok () else io_marker io) with
    | Err err => (Err err, set_rebuild (set_index s (Some tx_create) place (si_writer s) (si_reader s)) (si_rebuild s) (si_rebuild_required s) (negb (cf_in_memory cfg) && negb false))
    | Ok _ => match io_writer io with
      | Err err => (Err err, set_rebuild (set_index s (Some tx_create) place (si_writer s) (si_reader s)) (si_rebuild s) (si_rebuild_required s) (negb (cf_in_memory cfg) && negb false))
      | Ok _ => let s := set_index (set_rebuild (set_index s (Some tx_create) place (si_writer s) (si_reader s)) (si_rebuild s) (si_rebuild_required s) (negb (cf_in_memory cfg) && negb false)) (Some tx_create) place true (si_reader s) in
        match io_reader io with Err err => (Err err, s) | Ok _ => (Ok (), set_index s (Some tx_create) place true true) end
      end
    end = (r, s') ->
    shell s' /\ si_ignored s' = si_ignored s /\ si_rebuild s' = si_rebuild s /\ (forall t, si_index s' = Some t -> tx_live t = []) /\
    match r with Ok _ => exists t, si_index s' = Some t | Err _ => si_reader s' = false end).
  { intros place. destruct (if cf_in_memory cfg then Ok () else io_marker io); [|intros [= <- <-]; cbn; rewrite Hw, Hrd; split_and!; [by split; cbn|done..|by intros t [= <-]|done]].
    destruct (io_writer io); [|intros [= <- <-]; cbn; rewrite Hw, Hrd; split_and!; [by split; cbn|done..|by intros t [= <-]|done]].
    destruct (io_reader io); intros [= <- <-]; cbn; (split_and!; [by split; cbn|done..|by intros t [= <-]|]); [by eexists|done]. }
  destruct (cf_in_memory cfg); [intros Heq; exact (Hgo InMemory Heq)|]. destruct (io_create io) as [u|err]; cbn [fmap result_fmap].
  - intros Heq. exact (Hgo RebuildDirectory Heq).
  - intros [= <- <-]. split_and!; [done..| |done]. intros t Ht. congruence.
Qed.

Lemma inv_shell s O E todo : search_inv s O E todo -> si_rebuild_required s = true -> shell s.
Proof. intros [Hn Hr Hq Hw Hb Hy] Hreq. split; auto. Qed.

Lemma start_ok cfg e io s O E r s' :
  cf_encrypted cfg = false -> search_inv s O E [] -> si_rebuild_required s = true -> stopped_rebuild s = None -> start_rebuild cfg e io s = (r, s') ->
  match r with Ok p => midway s' p O E | Err _ => search_inv s' O E [] end.
Proof.
  intros Henc Hinv Hreq Hstop. pose proof (inv_shell _ _ _ _ Hinv Hreq) as Hsh. unfold start_rebuild. destruct (si_rebuild s) as [p|] eqn:Hrb.
  - intros [= <- <-]. split; [done|]. unfold stopped_rebuild in Hstop. rewrite Hrb in Hstop. cbn in Hstop. destruct (bool_decide _ || _) eqn:Hst in Hstop; [done|].
    apply orb_false_iff in Hst as [He Ho]. apply bool_decide_eq_false in He. destruct (si_rebuilding _ _ _ _ Hinv p Hrb) as [_ Hx]. apply Hx; [|done..].
    destruct (sp_error p); [|done]. by destruct He.
  - destruct (si_waiting _ _ _ _ Hinv Hreq Hrb) as [_ Hl]. destruct (si_index s) as [t|] eqn:Hix.
    + intros [= <- <-]. split; [done|]. exists t. split; [done|]. intros _. rewrite (Hl t eq_refl). apply fresh_rebuilding.
    + destruct (create_rebuild_index cfg io s) as [r1 s1] eqn:Hc. destruct (create_shell cfg io s r1 s1 Henc Hsh Hix Hc) as (Hsh1&Hig1&Hrb1&Hl1&Hr1). destruct r1 as [u|err].
      * intros [= <- <-]. destruct Hr1 as [t Ht]. split; [done|]. exists t. split; [done|]. intros _. rewrite (Hl1 t Ht). apply fresh_rebuilding.
      * intros [= <- <-]. destruct Hsh1 as [Hn Hr Hq Hqu]. split; try done.
        -- intros _ _. split; [by right|done].
        -- intros p Hp. congruence.
        -- by rewrite Hq.
Qed.

(** ** Pages *)

Section page.
Context (e : PersistentEngine D) (O : ObjectMap) (E : EventMap) (Hp : primary (vector_ok := vector_ok) e O E).

Lemma entries_after_ahead ks cursor (L : list (bytes * bytes)) :
  valid_name ks -> btree_iter (kv_view (pe_db e) ks) = L -> (forall c, cursor = Some c -> bytes_ok c) -> entries_after e ks cursor = ahead L cursor.
Proof using Hp.
  intros Hks HL Hc. unfold entries_after, ahead. destruct cursor as [c|].
  - rewrite kv_after_entries, HL by (done || by apply Hc || apply Hp). apply filter_ext_in. intros x _. cbn [passed]. by rewrite negb_involutive.
  - rewrite kv_iter_entries, HL by (done || apply Hp). symmetry. by apply filter_all.
Qed.

Lemma exhausted_done ks cursor n (L : list (bytes * bytes)) :
  valid_name ks -> btree_iter (kv_view (pe_db e) ks) = L -> (forall c, page_end L cursor n = Some c -> bytes_ok c) -> exhausted e ks (page_end L cursor n) = page_done L cursor n.
Proof using Hp.
  intros Hks HL Hc. unfold exhausted, page_done. destruct (page_end L cursor n) as [c|] eqn:Hend; [|done]. rewrite kv_after_entries, HL; [done|apply Hp|done|by apply Hc].
Qed.

Definition step_outcome (r : thingd_result bool) p s : Prop :=
  shell s /\ match r with Ok false => midway s p O E | Ok true => False | Err _ => True end.

Lemma page_last {A} (g : A -> bytes * bytes) L cursor n (xs : list A) : page_of L cursor n = g <$> xs ->
  match last (g <$> xs) with Some y => Some y.1 | None => None end = page_end L cursor n.
Proof. intros Heq. unfold page_end. rewrite Heq. by destruct (last _). Qed.

Lemma objects_step n p s r p' s' :
  midway s p O E -> sp_phase p = ObjectsPhase -> (0 < n)%nat -> rebuild_objects e n p s = (r, p', s') -> step_outcome r p' s'.
Proof using Hp.
  intros [Hsh (t&Ht&Hb)] Hph Hn. unfold rebuild_objects. destruct (object_entries e O E Hp) as (os&HL&Hos). destruct object_keyspaces_valid as [Hks _].
  destruct (index_entries _ _ _ _ s) as [[r1 processed] s1] eqn:Hrun.
  assert (Hfr : frame s s1) by (pose proof (frame_entries (index_object_entry e) (take n (entries_after e "objects" (sp_object_cursor p))) ltac:(intros; by eapply frame_object_entry) None (sp_processed p) s) as Hf; by rewrite Hrun in Hf).
  pose proof (shell_frame _ _ Hfr Hsh) as Hsh1. destruct r1 as [last_key|err]; intros [= <- <- <-]; [|done].
  pose proof (shell_frame _ _ (frame_commit s1) Hsh1) as Hsh2. split; [done|]. split; [done|].
  destruct (frame_index _ _ t (frame_trans _ _ _ Hfr (frame_commit s1)) Ht) as [t' Ht']. exists t'. split; [done|]. intros Hig.
  destruct (commit_ok s1 Hig) as (t1&t2&Ht1&_&Hig1&Hc&Hl2&_&_). destruct Hfr as (ix&ig&->&_&Hfig). pose proof (Hb (Hfig Hig1)) as Hreb.
  rewrite Hc in Ht'. cbn [si_index set_contents] in Ht'. injection Ht' as <-. rewrite Hl2.
  assert (Hpage : take n (entries_after e "objects" (sp_object_cursor p)) = object_pair <$> objects_ahead os (sp_object_cursor p) n).
  { rewrite (entries_after_ahead "objects" (sp_object_cursor p) (object_pair <$> os) Hks HL (rb_object_cursor _ _ _ _ _ Hreb)). apply page_of_objects. }
  assert (Hin : forall o, o ∈ objects_ahead os (sp_object_cursor p) n -> O !! ob_key o = Some o).
  { intros o Ho. apply elem_of_take in Ho as (j&Hj&_). apply list_elem_of_lookup_2, elem_of_filter_bool in Hj as [Hj _]. by apply Hos. }
  rewrite Hpage, (index_entries_ok _ object_pair index_object_for_search_with_commit) in Hrun.
  2: { intros o s0 Ho. apply Hin in Ho. unfold index_object_entry. rewrite (pr_codec _ _ _ Hp). cbn [object_pair snd]. rewrite deserialize_raw; [done|]. by apply (pr_object_ok _ _ _ Hp) in Ho as [[_ ? _] _]. }
  rewrite (page_last object_pair (object_pair <$> os) (sp_object_cursor p) n) in Hrun by apply page_of_objects. injection Hrun as <- <- Hs1.
  rewrite <-Hs1 in Hig1. destruct (foldl_wrote _ _ _ s wrote_object Hig1 t Ht) as (_&t3&Hs3&Hl3). rewrite Hs3 in Hs1. rewrite <-Hs1 in Ht1. cbn [si_index set_contents] in Ht1. injection Ht1 as <-.
  rewrite Hl3. change (foldl _ _ _) with (put_objects (objects_ahead os (sp_object_cursor p) n) (tx_live t)).
  pose proof (objects_rebuilding e O E Hp os (unreported []) (tx_live t) p n (sp_processed p + zlen (objects_ahead os (sp_object_cursor p) n)) HL Hos Hn Hph Hreb) as Hnew. cbv zeta in Hnew.
  rewrite (exhausted_done "objects" (sp_object_cursor p) n (object_pair <$> os) Hks HL); [done|]. intros c Hce. by apply (rb_object_cursor _ _ _ _ _ Hnew).
Qed.

Lemma events_step n p s r p' s' :
  midway s p O E -> sp_phase p = EventsPhase -> (0 < n)%nat -> rebuild_events e n p s = (r, p', s') -> step_outcome r p' s'.
Proof using Hp.
  intros [Hsh (t&Ht&Hb)] Hph Hn. unfold rebuild_events. destruct (event_entries e O E Hp) as (evs&HL&Hevs). destruct event_keyspaces_valid as [Hks _].
  destruct (index_entries _ _ _ _ s) as [[r1 processed] s1] eqn:Hrun.
  assert (Hfr : frame s s1) by (pose proof (frame_entries (index_event_entry e) (take n (entries_after e "events" (sp_event_cursor p))) ltac:(intros; by eapply frame_event_entry) None (sp_processed p) s) as Hf; by rewrite Hrun in Hf).
  pose proof (shell_frame _ _ Hfr Hsh) as Hsh1. destruct r1 as [last_key|err]; intros [= <- <- <-]; [|done].
  pose proof (shell_frame _ _ (frame_commit s1) Hsh1) as Hsh2. split; [done|]. split; [done|].
  destruct (frame_index _ _ t (frame_trans _ _ _ Hfr (frame_commit s1)) Ht) as [t' Ht']. exists t'. split; [done|]. intros Hig.
  destruct (commit_ok s1 Hig) as (t1&t2&Ht1&_&Hig1&Hc&Hl2&_&_). destruct Hfr as (ix&ig&->&_&Hfig). pose proof (Hb (Hfig Hig1)) as Hreb.
  rewrite Hc in Ht'. cbn [si_index set_contents] in Ht'. injection Ht' as <-. rewrite Hl2.
  assert (Hpage : take n (entries_after e "events" (sp_event_cursor p)) = event_pair <$> events_ahead evs (sp_event_cursor p) n).
  { rewrite (entries_after_ahead "events" (sp_event_cursor p) (event_pair <$> evs) Hks HL (rb_event_cursor _ _ _ _ _ Hreb)). apply page_of_events. }
  assert (Hin : forall ev, ev ∈ events_ahead evs (sp_event_cursor p) n -> E !! event_index ev = Some ev).
  { intros ev Hev. apply elem_of_take in Hev as (j&Hj&_). apply list_elem_of_lookup_2, elem_of_filter_bool in Hj as [Hj _]. by apply Hevs. }
  rewrite Hpage, (index_entries_ok _ event_pair index_event_for_search_with_commit) in Hrun.
  2: { intros ev s0 Hev. apply Hin in Hev. unfold index_event_entry. rewrite (pr_codec _ _ _ Hp). cbn [event_pair snd]. rewrite deserialize_raw; [done|]. by apply (pr_event_ok _ _ _ Hp) in Hev as [_ _ ? _]. }
  rewrite (page_last event_pair (event_pair <$> evs) (sp_event_cursor p) n) in Hrun by apply page_of_events. injection Hrun as <- <- Hs1.
  rewrite <-Hs1 in Hig1. destruct (foldl_wrote _ _ _ s wrote_event Hig1 t Ht) as (_&t3&Hs3&Hl3). rewrite Hs3 in Hs1. rewrite <-Hs1 in Ht1. cbn [si_index set_contents] in Ht1. injection Ht1 as <-.
  rewrite Hl3. change (foldl _ _ _) with (add_events (events_ahead evs (sp_event_cursor p) n) (tx_live t)).
  pose proof (events_rebuilding e O E Hp evs (unreported []) (tx_live t) p n (sp_processed p + zlen (events_ahead evs (sp_event_cursor p) n)) HL Hevs Hn Hph Hreb) as Hnew. cbv zeta in Hnew.
  rewrite (exhausted_done "events" (sp_event_cursor p) n (event_pair <$> evs) Hks HL); [done|]. intros c Hce. by apply (rb_event_cursor _ _ _ _ _ Hnew).
Qed.

(** ** Finishing *)

(** The index shows every record to queries. *)
Definition complete (t : tx) : Prop := tx_visible t = tx_live t /\ known (tx_live t) /\ forall i, plain i -> shown_at (tx_live t) i (body_of O E i).

Lemma complete_queue_ok t n w : complete t -> busy w = false -> queue_ok t (new_search_queue n) w (body_of O E) (unreported []).
Proof.
  intros (Hv&Hk&Hs) Hw. split; cbn [new_search_queue mq_state empty_search_queue sq_in_flight sq_pending]; try done.
  - congruence.
  - by destruct w.
  - intros _ i Hi _. unfold settled. rewrite lookup_empty. assert (Hb : worker_batch w = []) by (by destruct w). rewrite Hb. by apply Hs.
Qed.

Lemma ready_inv s cfg spawn :
  cf_mode cfg <> PersistentNoRebuild -> (si_index s = None -> si_writer s = false /\ si_reader s = false) -> (si_reader s = true -> si_writer s = true) ->
  si_queue s = None -> si_rebuild s = None -> si_rebuild_required s = false ->
  (si_ignored s = false -> si_reader s = true -> exists t, si_index s = Some t /\ complete t) -> search_inv (start_search_worker cfg spawn s) O E [].
Proof.
  intros Hmode Hn Hr Hq Hrb Hreq Hc. unfold start_search_worker, should_run_async_search_worker. rewrite Hq, Hreq, (bool_decide_false (cf_mode cfg = _)) by done. cbn [negb andb].
  rewrite !andb_true_r. cbn [is_Some]. rewrite (bool_decide_false (is_Some None)) by (by intros []). cbn [orb]. destruct (si_reader s) eqn:Hrd.
  - rewrite (Hr eq_refl), bool_decide_true by (destruct (si_index s); [by eexists|]; by destruct (Hn eq_refl)). cbn [andb negb].
    split; cbn [set_queue si_index si_writer si_reader si_rebuild si_rebuild_required si_queue si_worker si_ignored si_maintenance]; rewrite ?Hrd; try congruence; [done..|].
    intros _ _ Hig. destruct (Hc Hig eq_refl) as (t&Ht&Hcomp). exists t. split; [done|]. apply complete_queue_ok; [done|]. by destruct spawn.
  - rewrite !andb_false_r. cbn [negb]. split; rewrite ?Hrd; try congruence; [done..|]. by rewrite Hq.
Qed.

Lemma finish_rebuild_inv cfg io s :
  cf_mode cfg <> PersistentNoRebuild -> shell s -> (si_ignored s = false -> si_reader s = true -> exists t, si_index s = Some t /\ complete t) ->
  search_inv (finish_rebuild cfg io s) O E [].
Proof.
  intros Hmode [Hn Hr Hq Hqu] Hc. unfold finish_rebuild. apply search_inv_maintenance.
  - by apply ready_inv.
  - intros Hreq. exfalso. unfold start_search_worker in Hreq. by destruct (_ || _) in Hreq.
Qed.

Lemma promote_ok io s r s' t :
  shell s -> si_index s = Some t -> promote_search_generation io s = (r, s') ->
  shell s' /\ si_ignored s' = si_ignored s /\
  (r = Ok () -> tx_committed t = tx_live t -> (si_reader s = true -> tx_visible t = tx_live t) -> si_reader s' = true ->
    exists t', si_index s' = Some t' /\ tx_live t' = tx_live t /\ tx_visible t' = tx_live t).
Proof.
  intros [Hn Hr Hq Hqu] Ht. unfold promote_search_generation. rewrite Ht. cbn [fmap option_fmap option_map]. destruct (si_rebuild_path s); cbn [negb].
  - destruct (io_promote io) as [[]|err]; [|intros [= <- <-]; split_and!; [by split; cbn|done|done]].
    destruct (io_reopen_writer io) as [[]|err]; [|intros [= <- <-]; split_and!; [by split; cbn|done|done]].
    destruct (io_reopen_reader io) as [[]|err]; [|intros [= <- <-]; split_and!; [by split; cbn|done|done]].
    intros [= <- <-]. split_and!; [by split; cbn|done|]. intros _ Hc _ _. exists (tx_reopen t). cbn [si_index set_index]. destruct (tx_reopen_docs t) as (->&_&->). by rewrite Hc.
  - intros [= <- <-]. split_and!; [done|done|]. intros _ Hc Hv Hrd. exists t. split_and!; [done|done|]. by apply Hv.
Qed.

Lemma replay_step cfg order io p s r p' s' :
  cf_mode cfg <> PersistentNoRebuild -> (forall replay, order replay ≡ₚ map_to_list replay) -> midway s p O E -> sp_phase p = ReplayPhase ->
  rebuild_replay cfg e order io p s = (r, p', s') ->
  match r with Ok true => search_inv s' O E [] | Ok false => shell s' /\ is_Some (sp_error p') | Err _ => shell s' end.
Proof using Hp.
  intros Hmode Hord [Hsh (t&Ht&Hb)] Hph. unfold rebuild_replay. destruct (sp_replay_overflow p).
  { intros [= <- <- <-]. split; [by destruct Hsh|by eexists]. }
  destruct (replay_all e (order (sp_replay p)) s) as [r1 s1] eqn:Hrun. pose proof (frame_replay_all e (order (sp_replay p)) s) as Hfr. rewrite Hrun in Hfr. cbn [snd] in Hfr.
  pose proof (shell_frame _ _ Hfr Hsh) as Hsh1. destruct r1 as [[]|err]; [|by intros [= <- <- <-]].
  pose proof (shell_frame _ _ (frame_commit s1) Hsh1) as Hsh2. set (s2 := commit_search_index s1) in *.
  destruct (frame_index _ _ t (frame_trans _ _ _ Hfr (frame_commit s1)) Ht) as [t2 Ht2]. fold s2 in Ht2.
  assert (Hshow : si_ignored s2 = false -> tx_committed t2 = tx_live t2 /\ (si_reader s2 = true -> tx_visible t2 = tx_live t2) /\ known (tx_live t2) /\ forall i, plain i -> shown_at (tx_live t2) i (body_of O E i)).
  { intros Hig. destruct (commit_ok s1 Hig) as (t1&t2'&Ht1&_&Hig1&Hc&Hl2&Hc2&Hv2). fold s2 in Hc. rewrite Hc in Ht2. cbn [si_index set_contents] in Ht2. injection Ht2 as <-.
    assert (Hig0 : si_ignored s = false) by (by eapply replay_all_ignored).
    destruct (replayed_all e O E Hp order (tx_live t) p s s1 t Hord Hph eq_refl) as (t1'&Hs1&Hk&Hs); [|done..|].
    { eapply rebuilding_ext; [|by apply Hb]. intros i Hi _. split; [|done]. intros (m&Hm&_). by apply not_elem_of_nil in Hm. }
    rewrite Hs1 in Ht1. cbn [si_index set_contents] in Ht1. injection Ht1 as <-. rewrite Hl2, Hc2. split_and!; [done| |done|done]. intros Hrd. rewrite Hc in Hrd. rewrite Hv2; [done|]. exact Hrd. }
  destruct (cf_in_memory cfg).
  - intros [= <- <- <-]. apply finish_rebuild_inv; [done|by apply shell_rebuild|]. cbn [set_rebuild si_ignored si_reader si_index]. intros Hig Hrd. destruct (Hshow Hig) as (_&Hv&Hk&Hs). exists t2. split; [done|]. split_and!; auto.
  - destruct (promote_search_generation io s2) as [r3 s3] eqn:Hpr. destruct (promote_ok io s2 r3 s3 t2 Hsh2 Ht2 Hpr) as (Hsh3&Hig3&Hok). destruct r3 as [[]|err]; intros [= <- <- <-]; [|done].
    apply finish_rebuild_inv; [done..|]. rewrite Hig3. intros Hig Hrd. destruct (Hshow Hig) as (Hc&Hv&Hk&Hs). destruct (Hok eq_refl Hc Hv Hrd) as (t3&Ht3&Hl3&Hv3). exists t3. split; [done|].
    unfold complete. rewrite Hl3, Hv3. done.
Qed.

Lemma rebuild_inv cfg order io batch_size s :
  cf_encrypted cfg = false -> cf_mode cfg <> PersistentNoRebuild -> (forall replay, order replay ≡ₚ map_to_list replay) -> search_inv s O E [] ->
  search_inv (search_rebuild_step (vector_ok := vector_ok) cfg e order io batch_size s).2 O E [].
Proof using Hp.
  intros Henc Hmode Hord Hinv0. unfold search_rebuild_step. pose proof (discard_inv _ _ _ _ Hinv0) as Hinv. clear Hinv0. set (s0 := discard_stale s) in *. clearbody s0.
  destruct (si_rebuild_required s0) eqn:Hreq; [|done]. cbn [negb]. destruct (stopped_rebuild s0) as [p|] eqn:Hstop.
  { cbn [snd]. destruct (sp_replay_overflow p); [|done]. by apply search_inv_maintenance. }
  destruct (start_rebuild cfg e io s0) as [r1 s1] eqn:Hst. pose proof (start_ok cfg e io s0 O E r1 s1 Henc Hinv Hreq Hstop Hst) as Hstart. destruct r1 as [p|err]; [|done].
  set (n := Z.to_nat (Z.max batch_size 1)). assert (Hn : (0 < n)%nat) by (unfold n; lia).
  assert (Hpage : forall r p' s', step_outcome r p' s' -> search_inv (match r with
      | Ok true => (Ok true, s')
      | Ok false => (Ok false, set_rebuild s' (Some p') (si_rebuild_required s') (si_rebuild_path s'))
      | Err err => (Err err, set_phase (set_rebuild s' (Some (with_error p' (display_error err))) (si_rebuild_required s') (si_rebuild_path s')) "failed" "failed") end : thingd_result bool * SearchState).2 O E []).
  { intros r p' s' [Hsh Hr]. destruct r as [[]|err]; cbn [snd]; [done|by apply midway_inv|]. apply failed_inv; [done|by eexists]. }
  destruct (sp_phase p) eqn:Hph.
  - destruct (rebuild_objects e n p s1) as [[r p'] s'] eqn:Hrun. apply Hpage. by eapply objects_step.
  - destruct (rebuild_events e n p s1) as [[r p'] s'] eqn:Hrun. apply Hpage. by eapply events_step.
  - destruct (rebuild_replay cfg e order io p s1) as [[r p'] s'] eqn:Hrun. pose proof (replay_step cfg order io p s1 r p' s' Hmode Hord Hstart Hph Hrun) as Hr. destruct r as [[]|err]; cbn [snd].
    + done.
    + destruct Hr as [Hsh Herr]. pose proof (failed_inv s' p' (si_rebuild_path s') O E (si_maintenance s') Hsh Herr) as Hf. unfold set_maintenance, set_rebuild in *. cbn in *. exact Hf.
    + apply failed_inv; [done|by eexists].
Qed.
End page.
End steps.
