(* ===== verification/SearchTheorems.v ===== *)
(** * thingd: theorems about search

    While the index is used its documents are those of the store, whatever was written, indexed in
    the background, rebuilt and retried before; and a query answers with the best current hits.  The
    samples show where documents are lost or repeated. *)

From S2P Require Import Prelude Wal Table Layer Database Durable ThingDb Keyspace RamScan Model Objects Events Links Storage RustStd Analytics Persistent PSample PStore PQueue PEvents PEventSpec PEventOps PEventDelete PObjects PObjectSpec PObjectCache PObjectPut PObjectWrite PObjectTheorems PEventTheorems PAnalytics PRetain Search SearchSpec SearchRebuild SearchRun.
From Stdlib Require Import SpecFloat.

Section theorems.
Context `{TextIndexLaws} `{KvLaws D} `{!KvCompact D} `{!KvCompactLaws D} `{!KvPersist D} {vector_ok : list spec_float -> Prop}.
Context `{!Serde MemoryObject (object_wt vector_ok)} `{!Serde MemoryEvent event_wt}.
Implicit Types (s : SearchState) (e : PersistentEngine D) (O : ObjectMap) (E : EventMap) (cfg : SearchConfig) (io : IndexIo) (y : System (D := D)).

(** ** Every step keeps the invariant *)

Lemma retry_inv cfg s O E : search_inv s O E [] -> search_inv (retry_search_rebuild cfg s).2 O E [].
Proof. intros Hinv. unfold retry_search_rebuild. destruct (_ || _); [done|]. cbn [snd]. split; cbn; try done. intros _ _. split; [by right|done]. Qed.

(** The same records are stored. *)
Definition same_store e e' : Prop :=
  pe_codec e' = pe_codec e /\ (kv_ok (pe_db e) -> kv_ok (pe_db e') /\ forall n, valid_name n -> kv_view (pe_db e') n = kv_view (pe_db e) n).

Lemma same_store_refl e : same_store e e.
Proof. done. Qed.

Lemma same_store_trans e e' e'' : same_store e e' -> same_store e' e'' -> same_store e e''.
Proof.
  intros [Hc Hv] [Hc' Hv']. split; [congruence|]. intros Hok. destruct (Hv Hok) as [Hok' Hview]. destruct (Hv' Hok') as [Hok'' Hview']. split; [done|]. intros n Hn. by rewrite Hview', Hview.
Qed.

Lemma primary_same e e' O E : same_store e e' -> primary (vector_ok := vector_ok) e O E -> primary (vector_ok := vector_ok) e' O E.
Proof.
  intros [Hc Hv] [H1' H2' H3' H4' H5' H6']. destruct (Hv H2') as [Hok Hview]. destruct object_keyspaces_valid as [Ho _], event_keyspaces_valid as [He _].
  split; rewrite ?Hc, ?Hview; done.
Qed.

Lemma compact_same ks e r e' : major_compact ks e = (r, e') -> same_store e e'.
Proof.
  unfold major_compact. destruct (kv_compact (pe_db e) ks) as [r1 db] eqn:Hc. intros [= <- <-]. split; [done|]. intros Hok. cbn. by eapply kv_compact_view.
Qed.

Lemma compact_all_same l : forall e r e', compact_all l e = (r, e') -> same_store e e'.
Proof.
  induction l as [|ks l IH]; intros e r e'; cbn [compact_all]; [intros [= _ <-]; apply same_store_refl|]. unfold pbind. destruct (major_compact ks e) as [[[]|err] e1] eqn:Hc.
  - intros Hr. eapply same_store_trans; [by eapply compact_same|by eapply IH].
  - intros [= _ <-]. by eapply compact_same.
Qed.

Lemma compact_storage_inv cfg e s O E r e' s' :
  compact_storage cfg e s = (r, e', s') -> search_inv s O E [] -> same_store e e' /\ search_inv s' O E [].
Proof.
  unfold compact_storage. destruct (cf_in_memory cfg); [intros [= _ <- <-] Hinv; by split; [apply same_store_refl|]|].
  set (s1 := set_maintenance s _). destruct ((let* _ := persist_primary in let* _ := compact_all primary_keyspaces in persist_primary) e) as [r1 e1] eqn:Hrun. intros Heq Hinv.
  assert (Hsame : same_store e e1).
  { unfold pbind, persist_primary in Hrun. destruct (storage_error _) as [[]|]; [|injection Hrun as _ <-; apply same_store_refl].
    destruct (compact_all primary_keyspaces e) as [[[]|err] e2] eqn:Hc; injection Hrun as _ <-; by eapply compact_all_same. }
  assert (Hinv1 : search_inv s1 O E []) by (by apply search_inv_maintenance).
  destruct r1 as [[]|err]; injection Heq as _ <- <-; (split; [done|]).
  - destruct (si_rebuild_required s) eqn:Hreq; unfold set_phase; (apply search_inv_maintenance; [done|]); [done|]. intros Hx. change (si_rebuild_required s = true) in Hx. congruence.
  - by apply search_inv_maintenance.
Qed.

Lemma step_inv cfg y y' :
  cf_encrypted cfg = false -> cf_mode cfg <> PersistentNoRebuild -> search_step (vector_ok := vector_ok) cfg y y' -> system_inv (vector_ok := vector_ok) y -> system_inv (vector_ok := vector_ok) y'.
Proof.
  intros Henc Hmode Hstep Hy.
  assert (Hsame : forall e O E s e' s', y = mkSystem e O E s [] -> y' = mkSystem e' O E s' [] -> same_store e e' -> search_inv s' O E [] -> system_inv (vector_ok := vector_ok) y').
  { intros e O E s e' s' -> -> Hst Hinv. destruct Hy as [Hp _ _ _]. cbn in Hp. split; cbn; [by eapply primary_same|done|done|done]. }
  pose proof (same_store_refl) as Hrefl. destruct Hstep as [e O E s e' O' E' cs Hp Hr|e O E s m todo|e O E s todo order now duration Hord|e O E s order io n Hord|e O E s|e O E s r e' s' Hrun|e O E s jb|e O E s text].
  - by eapply write_inv.
  - by apply report_inv.
  - destruct Hy as [Hp Hpl Hl Hinv]. cbn in *. split; cbn; try done. by apply worker_inv.
  - pose proof Hy as [Hp _ _ Hinv]. cbn in *. eapply Hsame; [done..|]. by apply rebuild_inv.
  - pose proof Hy as [_ _ _ Hinv]. cbn in *. eapply Hsame; [done..|]. by apply retry_inv.
  - pose proof Hy as [_ _ _ Hinv]. cbn in *. destruct (compact_storage_inv _ _ _ _ _ _ _ _ Hrun Hinv) as [Hst Hinv']. by eapply Hsame.
  - pose proof Hy as [_ _ _ Hinv]. cbn in *. eapply Hsame; [done..|]. unfold request_storage_recovery. destruct (_ || _); [done|]. by apply search_inv_maintenance.
  - pose proof Hy as [_ _ _ Hinv]. cbn in *. eapply Hsame; [done..|]. by apply search_inv_maintenance.
Qed.

(** ** Opening *)

Lemma start_idempotent cfg b s : start_search_worker cfg b (start_search_worker cfg b s) = start_search_worker cfg b s.
Proof.
  unfold start_search_worker at 2 3. destruct (bool_decide (is_Some (si_queue s)) || _) eqn:Hc.
  - unfold start_search_worker. by rewrite Hc.
  - unfold start_search_worker. cbn [set_queue si_queue]. by rewrite bool_decide_true by (by eexists).
Qed.

Lemma everything_complete e O E s t s' :
  primary (vector_ok := vector_ok) e O E -> si_index s = Some t -> tx_live t = [] -> index_everything e s = Ok s' ->
  frame s s' /\ (si_ignored s' = false -> si_reader s = true -> exists t', si_index s' = Some t' /\ complete O E t').
Proof.
  intros Hp Ht Hl. unfold index_everything. destruct (object_entries e O E Hp) as (os&HLo&Hos), (event_entries e O E Hp) as (evs&HLe&Hevs).
  destruct object_keyspaces_valid as [Hko _], event_keyspaces_valid as [Hke _].
  rewrite !kv_iter_entries, HLo, HLe by (done || apply Hp).
  rewrite (index_entries_ok _ object_pair index_object_for_search_with_commit).
  2: { intros o s0 Ho. apply Hos in Ho. unfold index_object_entry. rewrite (pr_codec _ _ _ Hp). cbn [object_pair snd]. rewrite deserialize_raw; [done|]. by apply (pr_object_ok _ _ _ Hp) in Ho as [[_ ? _] _]. }
  rewrite bind_Ok, (index_entries_ok _ event_pair index_event_for_search_with_commit).
  2: { intros ev s0 Hev. apply Hevs in Hev. unfold index_event_entry. rewrite (pr_codec _ _ _ Hp). cbn [event_pair snd]. rewrite deserialize_raw; [done|]. by apply (pr_event_ok _ _ _ Hp) in Hev as [_ _ ? _]. }
  rewrite bind_Ok. set (s1 := foldl _ s os). set (s2 := foldl _ s1 evs). intros [= <-].
  assert (Hf1 : frame s s1) by (apply frame_foldl; intros; apply frame_object). assert (Hf2 : frame s1 s2) by (apply frame_foldl; intros; apply frame_event).
  split; [eapply frame_trans; [exact Hf1|]; eapply frame_trans; [exact Hf2|apply frame_commit]|]. intros Hig Hrd.
  destruct (commit_ok s2 Hig) as (t2&t3&Ht2&_&Hig2&Hc&Hl3&_&Hv3). destruct (frame_index _ _ t Hf1 Ht) as [t1 Ht1].
  destruct (foldl_wrote _ _ _ s1 wrote_event Hig2 t1 Ht1) as (Hig1&t2'&Hs2&Hl2). destruct (foldl_wrote _ _ _ s wrote_object Hig1 t Ht) as (_&t1'&Hs1&Hl1).
  fold s1 in Hs1. fold s2 in Hs2. rewrite Hs1 in Ht1. cbn [si_index set_contents] in Ht1. injection Ht1 as <-. rewrite Hs2 in Ht2. cbn [si_index set_contents] in Ht2. injection Ht2 as <-.
  change (foldl _ _ evs) with (add_events evs (tx_live t1')) in Hl2. change (foldl _ _ os) with (put_objects os (tx_live t)) in Hl1. rewrite Hl in Hl1.
  exists t3. rewrite Hc. split; [done|]. destruct (put_objects_at e O E Hp os [] ltac:(by intros; apply Hos) known_nil) as [Hk1 Hat1].
  assert (Hnd : NoDup evs).
  { apply (NoDup_fmap_1 event_pair), (NoDup_fmap_1 fst). rewrite <-HLe. apply btree_keys_NoDup. }
  destruct (add_events_at e O E Hp evs (put_objects os []) Hnd ltac:(by intros; apply Hevs) Hk1) as [Hk2 Hat2]. rewrite <-Hl1 in Hk2, Hat2. rewrite <-Hl2, <-Hl3 in Hk2, Hat2.
  split_and!; [rewrite Hl3; apply Hv3; rewrite Hs2; cbn; by rewrite Hs1|done|]. intros i Hi. apply exact_shown. unfold exact_at.
  assert (Hobj : forall c id, i = ObjectDoc c id -> at_key (doc_key i) (tx_live t1') = match body_of O E i with Some b => [document i b] | None => [] end).
  { intros c id ->. rewrite Hl1. destruct (Hat1 _ Hi) as [[_ He]|[Hno Heq]]; [exact He|]. rewrite Heq. cbn [body_of]. destruct (O !! (c, id)) as [o|] eqn:Ho; [|done]. exfalso.
    destruct (pr_object_ok _ _ _ Hp _ _ Ho) as [[Hk _ _] _]. apply (Hno o); [apply Hos; by rewrite Hk|]. unfold object_id. by rewrite Hk. }
  assert (Hevt : forall st n, i = EventDoc st n -> at_key (doc_key i) (tx_live t1') = []).
  { intros st n ->. rewrite Hl1. destruct (Hat1 _ Hi) as [[(o&_&Hid) _]|[_ Heq]]; [done|]. by rewrite Heq. }
  destruct (Hat2 i Hi) as [[(ev&Hev&Hid) ->]|[Hno ->]].
  - by rewrite (Hevt _ _ (eq_sym Hid)).
  - destruct i as [c id|st n]; [by eapply Hobj|]. rewrite (Hevt st n eq_refl). cbn [body_of]. destruct (E !! (st, n)) as [ev|] eqn:Hev; [|done]. exfalso.
    destruct (pr_event_ok _ _ _ Hp _ _ Hev) as [Hs Hq _ _]. apply (Hno ev); [apply Hevs; unfold event_index; by rewrite Hs, Hq|]. unfold event_id. by rewrite Hs, Hq.
Qed.

(** What opening finds: an index that is complete, or an empty one to be filled. *)
Definition opened O E (x : option tx * bool) : Prop :=
  match x with
  | (Some t, true) => tx_live t = []
  | (Some t, false) => complete O E t
  | (None, _) => True
  end.

Lemma open_index_ok cfg io marker O E index rebuild place :
  cf_encrypted cfg = false -> cf_mode cfg <> PersistentNoRebuild -> (forall t, io_existing io = Some t -> complete O E t) ->
  open_index cfg io marker = Ok (index, rebuild, place) ->
  opened O E (index, rebuild) /\ (rebuild = true -> cf_mode cfg = PersistentMode -> is_Some index) /\ (rebuild = true -> cf_mode cfg <> Disabled).
Proof.
  intros Henc Hmode Hex. pose proof tx_create_docs as (Hl&_&_). unfold open_index. rewrite Henc.
  assert (Hinit : forall b x, init_search_index io marker b = Ok x -> (exists t, x = (Some t, false) /\ complete O E t) \/ (exists b', x = (None, b') /\ b = false) \/ (x = (Some tx_create, true) /\ b = true)).
  { intros b x. unfold init_search_index. destruct (marker && negb b) eqn:Hm; [apply andb_true_iff in Hm as [_ Hb]; destruct b; [done|]; intros [= <-]; eauto|].
    destruct (io_existing io) as [t|] eqn:Ht; [intros [= <-]; left; eauto|]. destruct b; cbn [negb]; [|intros [= <-]; eauto]. destruct (io_create io); [|done]. intros [= <-]. tauto. }
  destruct (cf_in_memory cfg).
  { destruct (cf_mode cfg) eqn:Hm; intros [= <- <- <-]; cbn; split_and!; try done; by eexists. }
  destruct (cf_mode cfg) eqn:Hm; [|done|..|intros [= <- <- <-]; done].
  - destruct (init_search_index io marker true) as [x|] eqn:Hi; [|done]. intros [= -> <-]. destruct (Hinit _ _ Hi) as [(t&[= -> ->]&Hc)|[(b'&_&?)|[[= -> ->] _]]]; [done|done|]. split_and!; try done.
  - destruct (init_search_index io marker false) as [x|] eqn:Hi; [|done]. intros [= <- <- <-]. destruct (Hinit _ _ Hi) as [(t&->&Hc)|[(b'&->&_)|[_ ?]]]; [| |done]; cbn [fst].
    + rewrite bool_decide_false by done. done.
    + done.
  - destruct (init_search_index io marker false) as [x|] eqn:Hi; [|done]. intros [= <- <- <-]. destruct (Hinit _ _ Hi) as [(t&->&Hc)|[(b'&->&_)|[_ ?]]]; [| |done]; cbn [fst].
    + rewrite bool_decide_false by done. done.
    + done.
Qed.

Lemma open_inv cfg e O E io marker journal_bytes s :
  cf_encrypted cfg = false -> cf_mode cfg <> PersistentNoRebuild -> primary (vector_ok := vector_ok) e O E -> (forall t, io_existing io = Some t -> complete O E t) ->
  open_search cfg e io marker journal_bytes = Ok s -> search_inv s O E [].
Proof.
  intros Henc Hmode Hp Hex. unfold open_search. destruct (open_index cfg io marker) as [[[index rebuild] place]|] eqn:Hopen; [|done]. rewrite bind_Ok.
  destruct (open_index_ok cfg io marker O E index rebuild place Henc Hmode Hex Hopen) as (Hop&Hsome&Hdis). rewrite (bool_decide_false (cf_mode cfg = PersistentNoRebuild)) by done. cbn [negb]. rewrite andb_true_r.
  set (present := bool_decide (is_Some index)). destruct (if present then io_writer io else Ok ()) as [[]|]; [|done]. rewrite bind_Ok. destruct (if present then io_reader io else Ok ()) as [[]|]; [|done]. rewrite bind_Ok.
  set (s0 := mkSearch index place present present None NoWorker None rebuild false (open_maintenance cfg rebuild journal_bytes) false).
  assert (Hpres : index = None -> present = false) by (intros ->; apply bool_decide_false; by intros []).
  destruct rebuild.
  - assert (Hs0 : start_search_worker cfg (io_spawn io) s0 = s0) by (unfold start_search_worker, should_run_async_search_worker; cbn [si_rebuild_required s0]; by rewrite andb_false_r, orb_true_r).
    rewrite Hs0. destruct (bool_decide _ || bool_decide _) eqn:Hm.
    + intros [= <-]. split; cbn; try done; [by intros Hi; rewrite (Hpres Hi)|]. intros _ _. split; [by left|]. intros t ->. exact Hop.
    + apply orb_false_iff in Hm as [Hm1 Hm2]. apply bool_decide_eq_false in Hm1, Hm2.
      assert (Hmp : cf_mode cfg = PersistentMode) by (destruct (cf_mode cfg); try done; exfalso; by apply Hdis). destruct (Hsome eq_refl Hmp) as [t Hidx].
      destruct (index_everything e s0) as [s1|] eqn:Hall; [|done]. rewrite bind_Ok. intros [= <-].
      assert (Ht0 : si_index s0 = Some t) by exact Hidx. rewrite Hidx in Hop.
      destruct (everything_complete e O E s0 t s1 Hp Ht0 Hop Hall) as [Hfr Hc]. destruct (frame_index _ _ t Hfr Ht0) as [t1 Ht1].
      destruct Hfr as (ix&ig&->&_&_). apply ready_inv; cbn; try done. cbn in Ht1. intros ->. done.
  - intros [= <-]. rewrite start_idempotent. apply ready_inv; cbn; try done; [by intros Hi; rewrite (Hpres Hi)|].
    intros _ Hpr. apply bool_decide_eq_true in Hpr as [t ->]. by exists t.
Qed.

Lemma reachable_inv cfg y y' :
  cf_encrypted cfg = false -> cf_mode cfg <> PersistentNoRebuild -> rtc (search_step (vector_ok := vector_ok) cfg) y y' -> system_inv (vector_ok := vector_ok) y -> system_inv (vector_ok := vector_ok) y'.
Proof. intros Henc Hmode. induction 1 as [|y1 y2 y3 Hstep _ IH]; [done|]. intros Hy. by apply IH, (step_inv cfg y1 y2 Henc Hmode Hstep). Qed.

(** ** Theorems *)

Lemma index_used_complete cfg y :
  system_inv (vector_ok := vector_ok) y -> sy_todo y = [] -> si_ignored (sy_search y) = false -> uses_index cfg (sy_search y) = true ->
  exists t, si_index (sy_search y) = Some t /\ complete (sy_objects y) (sy_events y) t.
Proof.
  intros [_ _ _ Hinv] Htodo Hig Hu. destruct y as [e O E s todo]. cbn [sy_objects sy_events sy_search sy_todo] in *. subst todo. unfold uses_index in Hu.
  rewrite !andb_true_iff in Hu. destruct Hu as (((((Hst&Hrb)&_)&Hq)&Hix)&Hrd). apply bool_decide_eq_true in Hst, Hrb, Hix.
  assert (Hreq : si_rebuild_required s = false).
  { destruct (si_rebuild_required s) eqn:Hr; [|done]. destruct (si_waiting _ _ _ _ Hinv Hr Hrb) as [[?|?] _]; congruence. }
  pose proof (si_ready _ _ _ _ Hinv Hreq) as Hy. destruct (si_queue s) as [mq|]; [|congruence].
  apply negb_true_iff in Hq. unfold needs_fallback in Hq. apply orb_false_iff in Hq as [[Hfl Hpe]%orb_false_iff Hstale]. apply negb_false_iff, bool_decide_eq_true in Hpe.
  destruct (Hy Hstale Hig) as (t&Ht&[Hb Hv Hk Hpw Hba Hs]). exists t. split; [done|].
  assert (Hbusy : busy (si_worker s) = false) by (destruct (busy (si_worker s)) eqn:Hbz; [by rewrite (Hb eq_refl) in Hfl|done]).
  assert (Hnf : worker_failed (si_worker s) = false /\ worker_batch (si_worker s) = []) by (by destruct (si_worker s)). destruct Hnf as [Hnf Hnb].
  split_and!; [by apply Hv|by apply Hk|]. intros i Hi. specialize (Hs Hnf i Hi). rewrite Hpe, Hnb in Hs. unfold settled in Hs. rewrite lookup_empty in Hs. apply Hs. intros (m&Hm&_). by apply not_elem_of_nil in Hm.
Qed.

(** C31. The search index.  The engine is opened on a store, with no index or one that was complete; then
    records are written and reported, the worker indexes batches that may fail, the index is
    rebuilt in steps between which more is written, and the store is maintained, in any order.
    Whenever a query would be answered from the index, and no error of the index was ignored, the
    visible documents are those of the stored records: nothing that was deleted is found, an
    object is found once and with its present body, and every event is found. *)
Theorem search_index_complete cfg e O E io marker journal_bytes s y :
  cf_encrypted cfg = false -> primary (vector_ok := vector_ok) e O E -> (forall t, io_existing io = Some t -> complete O E t) ->
  open_search cfg e io marker journal_bytes = Ok s -> rtc (search_step (vector_ok := vector_ok) cfg) (mkSystem e O E s []) y ->
  sy_todo y = [] -> si_ignored (sy_search y) = false -> uses_index cfg (sy_search y) = true ->
  exists t, si_index (sy_search y) = Some t /\
    (forall d, d ∈ tx_visible t -> exists i b, plain i /\ d = document i b /\ is_Some (body_of (sy_objects y) (sy_events y) i)) /\
    (forall i, plain i -> shown_at (tx_visible t) i (body_of (sy_objects y) (sy_events y) i)).
Proof.
  intros Henc Hp Hex Hopen Hrun Htodo Hig Hu.
  assert (Hmode : cf_mode cfg <> PersistentNoRebuild) by (intros Hm; unfold uses_index in Hu; rewrite (bool_decide_true (cf_mode cfg = _)) in Hu by done; by rewrite andb_false_r in Hu).
  assert (Hy : system_inv (vector_ok := vector_ok) y).
  { eapply reachable_inv; [done..|]. split; cbn; [done|done|done|]. by eapply open_inv. }
  destruct (index_used_complete cfg y Hy Htodo Hig Hu) as (t&Ht&Hv&Hk&Hs). exists t. rewrite Hv. split_and!; [done| |done].
  intros d Hd. destruct (Hk d Hd) as (i&b&Hi&->). exists i, b. split_and!; [done..|]. specialize (Hs i Hi). destruct (body_of (sy_objects y) (sy_events y) i) as [b'|]; [by eexists|]. exfalso.
  assert (Hnil : at_key (doc_key i) (tx_live t) = []) by (by destruct i). assert (Hin : document i b ∈ at_key (doc_key i) (tx_live t)) by (apply elem_of_at_key; by rewrite document_key).
  rewrite Hnil in Hin. by apply not_elem_of_nil in Hin.
Qed.

(** The hit of a document that tells what the store holds under its key. *)
Definition current_hit `{SerdeJson} O E (x : RankedSearchDoc * Document) (h : SearchHit) : Prop :=
  (exists o, O !! ob_key o = Some o /\ x.2 = document (object_id o) (ob_body o) /\
    h = mkHit "object" (ob_key o).1 (ob_key o).2 (ob_body o) (rk_score x.1) (ob_body o) (Some (ob_version o)) (ob_created_at o) (Some (ob_updated_at o)) None) \/
  (exists ev text, E !! event_index ev = Some ev /\ x.2 = document (event_id ev) text /\
    h = mkHit "event" (ev_stream ev) (format_pad 1 (ev_sequence ev)) text (rk_score x.1) text None (ev_created_at ev) None (Some (ev_event_type ev))).

Lemma visible_hit `{SerdeJson} e O E t x :
  primary (vector_ok := vector_ok) e O E -> complete O E t -> x.2 ∈ tx_visible t -> exists h, document_hit e x = Some h /\ current_hit O E x h.
Proof.
  intros Hp (Hv&Hk&Hs) Hx. rewrite Hv in Hx. destruct (Hk _ Hx) as (i&b&Hi&Hd). pose proof (Hs i Hi) as Hsh. unfold document_hit. rewrite Hd in Hx |- *.
  assert (Hat : document i b ∈ at_key (doc_key i) (tx_live t)) by (apply elem_of_at_key; by rewrite document_key).
  destruct i as [c id|st n]; cbn [document dc_kind dc_collection dc_id dc_body object_document event_document].
  - rewrite bool_decide_true, (get_stored_object_of e O E) by (done || apply Hi). unfold shown_at, exact_at in Hsh. rewrite Hsh in Hat. cbn [body_of] in Hat.
    destruct (O !! (c, id)) as [o|] eqn:Ho; [|by apply not_elem_of_nil in Hat]. cbn in Hat. apply list_elem_of_singleton in Hat. injection Hat as ->.
    destruct (pr_object_ok _ _ _ Hp _ _ Ho) as [[Hkey _ _] _]. eexists. split; [reflexivity|]. left. exists o. unfold object_id. rewrite Hd, Hkey. done.
  - rewrite bool_decide_false, bool_decide_true by done. destruct Hi as [Hnul Hn]. rewrite parse_format, (get_stored_event_of e O E) by done. cbn [shown_at body_of] in Hsh.
    destruct (E !! (st, n)) as [ev|] eqn:Hev; [|unfold exact_at in Hsh; cbn in Hsh; unfold doc_key in Hat; rewrite Hsh in Hat; by apply not_elem_of_nil in Hat].
    destruct (pr_event_ok _ _ _ Hp _ _ Hev) as [Hst Hq _ _]. cbn [fst snd] in *. eexists. split; [reflexivity|]. right. exists ev, b. unfold event_index, event_id. rewrite Hd, Hst, Hq. done.
Qed.

(** C32. The answer of the index.  On a complete index a query that can be parsed answers with the
    matching documents that pass the collection and metadata filters, ranked by score and cut at
    the limit, in whatever order the segments of the index hand them over to the bounded heap.
    Every hit is the stored record of its document, an object with its present body and version. *)
Theorem search_hits_best `{SerdeJson} arrival e O E t query options matching :
  primary (vector_ok := vector_ok) e O E -> complete O E t -> (forall l, arrival l ≡ₚ l) -> tx_parse_query t query = Ok () -> tx_matching t query = Ok matching ->
  exists hits, search_tantivy arrival e t query options = Ok hits /\
    Forall2 (current_hit O E) (take (Z.to_nat (search_limit options)) (sort_by (by_rank fst) (List.filter (collected options) matching))) hits.
Proof.
  intros Hp Hc Harr Hparse Hm. unfold search_tantivy. rewrite Hparse. destruct (tx_matching_docs _ _ _ Hm) as [Hvis Hnd].
  assert (Hall : forall l, (forall x, x ∈ l -> x ∈ matching) -> Forall2 (current_hit O E) l (omap (document_hit e) l)).
  { induction l as [|x l IH]; intros Hl; [constructor|]. destruct (visible_hit e O E t x Hp Hc) as (h&Hh&Hcur); [apply Hvis, Hl; left|]. cbn [omap list_omap]. rewrite Hh. constructor; [done|].
    apply IH. intros z Hz. apply Hl. by right. }
  destruct (Z.eqb_spec (search_limit options) 0) as [Hz|Hz].
  - exists []. split; [done|]. rewrite Hz. constructor.
  - rewrite Hm. cbn [storage_error]. rewrite bind_Ok, (collect_hits_best options matching (arrival matching) Hnd (Harr _)). eexists. split; [reflexivity|]. apply Hall.
    intros x Hx. apply elem_of_take in Hx as (j&Hj&_). apply list_elem_of_lookup_2, elem_of_sort_by, elem_of_filter_bool in Hj as [? _]. done.
Qed.
End theorems.

(** ** The writes of the engine

    A put, a delete and an append of the engine are steps of the system: what they report is
    what they changed. *)

Section writes.
Context `{TextIndexLaws} `{KvLaws D} `{!KvCompact D} `{!KvCompactLaws D} `{!KvPersist D} `{SerdeJson} {vector_ok : list spec_float -> Prop}.
Context `{!Serde MemoryObject (object_wt vector_ok)} `{!ReadMetadata} `{!Serde IndexDefinition index_wt} {display_inj : DisplayInjective}.
Context `{!Serde MemoryEvent event_wt} `{!Serde EventMetadata meta_wt}.
Implicit Types (s : SearchState) (e : PersistentEngine D) (m : MemoryEngine) (o : MemoryObject) (O : ObjectMap) (E : EventMap) (cfg : SearchConfig).

Lemma primary_objects e m e' m' E :
  primary (vector_ok := vector_ok) e (objects m) E -> object_sim (vector_ok := vector_ok) e' m' ->
  kv_view (pe_db e') "events" = kv_view (pe_db e) "events" ->
  (forall k o, objects m' !! k = Some o -> is_Some (objects m !! k) \/ plain (ObjectDoc k.1 k.2)) -> primary (vector_ok := vector_ok) e' (objects m') E.
Proof.
  intros [_ _ _ Hev Hok Hevok] Hsim Hframe Hnew. split; [apply Hsim|apply Hsim|apply (os_objects _ _ _ (sm_stored _ _ Hsim))|by rewrite Hframe| |done].
  intros k o Hk. split; [by apply (os_object_ok _ _ _ (sm_stored _ _ Hsim))|]. destruct (Hnew k o Hk) as [[x Hx]|]; [by apply (Hok k x)|done].
Qed.

Lemma nothing_reported O E : reports [] (body_of O E) (body_of O E).
Proof. split; [by constructor|done]. Qed.

Lemma one_reported c (old new : DocId -> option string) :
  plain (mutation_id c) -> new (mutation_id c) = mutation_body c -> (forall i, i <> mutation_id c -> new i = old i) -> reports [c] old new.
Proof.
  intros Hp Hc Hother. split; [by repeat constructor|]. intros i _. cbn [last_change]. case_bool_decide as Hi; [by rewrite <-Hi|]. apply Hother. congruence.
Qed.

Lemma put_keeps_events now o e r e' : kv_ok (pe_db e) -> bytes_ok (object_key (pe_codec e) o) ->
  pe_put_object now o e = (r, e') -> kv_view (pe_db e') "events" = kv_view (pe_db e) "events".
Proof.
  intros Hkv Hkey. unfold pe_put_object. rewrite pbind_pget. destruct (pe_validate_unique_indexes e o) as [[]|err]; [|by intros [= _ <-]]. rewrite pbind_plift. cbv zeta.
  destruct (read_previous e _) as [previous|err]; [|by intros [= _ <-]]. rewrite pbind_plift.
  destruct (serialize _ _) as [data|err]; [|by intros [= _ <-]]. rewrite pbind_plift. unfold pbind at 1. destruct (commit _ e) as [rc ec] eqn:Hc.
  destruct (ks_insert_atomic e "objects" _ data rc ec Hkv (proj1 object_keyspaces_valid) Hkey Hc) as (db&->&_&Hcase).
  assert (Hview : kv_view db "events" = kv_view (pe_db e) "events").
  { destruct Hcase as [[_ Hview]|(err&_&_&Hview)]; rewrite Hview by apply event_keyspaces_valid; [|done]. unfold put_view. by rewrite bool_decide_false. }
  destruct rc as [[]|err]; [|by intros [= _ <-]]. intros [= _ <-]. unfold update_unique_index_cache_for_object. by destruct (_ || _).
Qed.

(** A put. *)
Lemma put_is_step cfg e m E s now o r e' :
  object_sim (vector_ok := vector_ok) e m -> few_objects m -> object_in (vector_ok := vector_ok) o -> is_str now ->
  primary (vector_ok := vector_ok) e (objects m) E -> plain (object_id o) -> pe_put_object now o e = (r, e') ->
  exists m', object_sim (vector_ok := vector_ok) e' m' /\
    search_step (vector_ok := vector_ok) cfg (mkSystem e (objects m) E s [])
      (mkSystem e' (objects m') E s (match r with Ok x => [UpsertObject (ob_key x).1 (ob_key x).2 (ob_body x)] | Err _ => [] end)).
Proof using display_inj.
  intros Hsim Hfew Hin Hnow Hp Hplain Hrun.
  pose proof (put_keeps_events now o e r e' (sm_kv _ _ Hsim) ltac:(rewrite (sm_codec _ _ Hsim); apply object_key_ok) Hrun) as Hframe.
  assert (Hsame : object_sim (vector_ok := vector_ok) e' m -> primary (vector_ok := vector_ok) e' (objects m) E) by (intros Hs; apply (primary_objects e m); eauto).
  destruct (put_object_sim e m now o r e' Hsim Hfew Hin Hnow Hrun) as [[-> Hs]|[(err&->&_) Hs]]; [|exists m; split; [done|]; apply step_write; [by apply Hsame|apply nothing_reported]].
  exists (put_spec m now o).2. split; [done|]. destruct (put_spec m now o) as [[x|err] m'] eqn:Hspec; cbn [fst snd] in *.
  2: { assert (m' = m) as -> by (revert Hspec; unfold put_spec; destruct (rejects_text m o); [by intros [= _ <-]|]; destruct (validate_unique_indexes m o); [done|by intros [= _ <-]]).
       apply step_write; [by apply Hsame|apply nothing_reported]. }
  destruct (put_spec_Ok _ _ _ _ _ Hspec) as [Hx _].
  assert (Ho : objects m' = <[ob_key o := x]> (objects m)).
  { revert Hspec. unfold put_spec. destruct (rejects_text m o); [done|]. destruct (validate_unique_indexes m o); [|done]. by intros [= <- <-]. }
  assert (Hkey : ob_key x = ob_key o) by (by rewrite Hx). apply step_write.
  - apply (primary_objects e m); [done..|]. intros k y. rewrite Ho. intros [[<- _]|[_ Hk]]%lookup_insert_Some; [by right|left; eauto].
  - apply one_reported; [by rewrite Hkey| |].
    + cbn [mutation_id body_of mutation_body]. by rewrite Ho, <-surjective_pairing, Hkey, lookup_insert_eq.
    + intros [c i|st n] Hne; [|done]. cbn [body_of]. rewrite Ho, lookup_insert_ne; [done|]. rewrite <-Hkey. intros Heq. apply Hne. cbn [mutation_id]. by rewrite Heq.
Qed.

Lemma delete_keeps_events collection id e r e' : kv_ok (pe_db e) -> bytes_ok (make_object_key (pe_codec e) collection id) ->
  pe_delete_object collection id e = (r, e') -> kv_view (pe_db e') "events" = kv_view (pe_db e) "events".
Proof.
  intros Hkv Hkey. unfold pe_delete_object. rewrite pbind_pget. cbv zeta. destruct (read_object_at_key e _) as [existing|err]; [|by intros [= _ <-]]. rewrite pbind_plift.
  unfold pbind at 1. destruct (commit _ e) as [rc ec] eqn:Hc.
  destruct (ks_remove_atomic e "objects" _ rc ec Hkv (proj1 object_keyspaces_valid) Hkey Hc) as (db&->&_&Hcase).
  assert (Hview : kv_view db "events" = kv_view (pe_db e) "events").
  { destruct Hcase as [[_ Hview]|(err&_&_&Hview)]; rewrite Hview by apply event_keyspaces_valid; [|done]. unfold drop_view. by rewrite bool_decide_false. }
  destruct rc as [[]|err]; [|by intros [= _ <-]]. intros [= _ <-]. destruct existing as [x|]; [|done]. unfold remove_unique_index_cache_for_object. by destruct (_ || _).
Qed.

(** A delete, which is reported whether there was an object or not. *)
Lemma delete_is_step cfg e m E s collection id r e' :
  object_sim (vector_ok := vector_ok) e m -> primary (vector_ok := vector_ok) e (objects m) E -> plain (ObjectDoc collection id) ->
  pe_delete_object collection id e = (r, e') ->
  exists m', object_sim (vector_ok := vector_ok) e' m' /\
    search_step (vector_ok := vector_ok) cfg (mkSystem e (objects m) E s [])
      (mkSystem e' (objects m') E s (match r with Ok _ => [DeleteObject collection id] | Err _ => [] end)).
Proof using display_inj.
  intros Hsim Hp Hplain Hrun.
  pose proof (delete_keeps_events collection id e r e' (sm_kv _ _ Hsim) ltac:(rewrite (sm_codec _ _ Hsim); apply (object_key_pair_ok (collection, id))) Hrun) as Hframe.
  destruct (delete_object_sim e m collection id r e' Hsim (proj1 Hplain) Hrun) as [[-> Hs]|[(err&->&_) Hs]].
  - exists (delete_object m collection id).2. split; [done|]. cbn [delete_object fst snd objects set_objects] in *. apply step_write.
    + apply (primary_objects e m _ (delete_object m collection id).2); [done..|]. intros k o Hk. cbn [delete_object snd objects set_objects] in Hk. apply lookup_delete_Some in Hk as [_ Hk]. left. eauto.
    + apply one_reported; [done|cbn; by rewrite lookup_delete_eq|]. intros [c i|st n] Hne; [|done]. cbn [body_of]. rewrite lookup_delete_ne; [done|]. intros [= -> ->]. by apply Hne.
  - exists m. split; [done|]. apply step_write; [|apply nothing_reported]. apply (primary_objects e m); eauto.
Qed.

Lemma append_keeps_objects now ev e L r e' :
  event_sim e L -> event_ready now ev -> default 0 (lg_counters L !! ev_stream ev) < U64_MAX ->
  pe_append_event now ev e = (r, e') -> kv_view (pe_db e') "objects" = kv_view (pe_db e) "objects".
Proof.
  intros Hsim Hev Hmax. destruct (find_event (lg_events L) (lg_keys L) ev) as [x|] eqn:Hfind.
  { unfold pe_append_event. pose proof Hsim as [Hc Hkv Hram HC HK HE HM HL]. rewrite pbind_pget, (stored_event_spec e L), pbind_plift, HK, Hfind; [|done|by destruct Hev|].
    2: { rewrite HK. intros k n. by apply keys_in_u64. }
    by intros [= _ <-]. }
  rewrite (append_new_event now ev e L) by done. unfold commit_append.
  match goal with |- context [commit ?ws ?x] => set (batch := ws); set (e1 := x); destruct (commit batch e1) as [rc ec] eqn:Hc end.
  destruct (commit_cases e1 batch rc ec (es_kv _ _ Hsim) (append_batch_ok _ _ _ _ _ _) Hc) as (db&->&_&Hcase).
  assert (Hview : kv_view db "objects" = kv_view (pe_db e) "objects").
  { destruct Hcase as [[_ Hview]|(err&_&_&Hview)]; rewrite Hview by apply object_keyspaces_valid; [|done]. unfold batch, append_batch.
    destruct (lg_ram L); rewrite ?apply_insert; done. }
  destruct rc as [[]|err]; by intros [= _ <-].
Qed.

Lemma spec_append_new now ev L : find_event (lg_events L) (lg_keys L) ev = None ->
  exists n, (spec_append now ev L).1 = with_sequence ev n now /\ lg_events (spec_append now ev L).2 = <[(ev_stream ev, n) := with_sequence ev n now]> (lg_events L).
Proof.
  intros Hfind. unfold spec_append, add_event. rewrite Hfind. destruct (advance_event_sequence _ _) as [n C]. exists n. split; [done|].
  unfold note_meta. cbn. by destruct (lg_ram L).
Qed.

(** An append: an event found under its key is not reported again. *)
Lemma append_is_step cfg e O L s now ev r e' :
  event_sim e L -> event_ready now ev -> default 0 (lg_counters L !! ev_stream ev) < U64_MAX -> primary (vector_ok := vector_ok) e O (lg_events L) ->
  pe_append_event now ev e = (r, e') ->
  exists L', event_sim e' L' /\
    search_step (vector_ok := vector_ok) cfg (mkSystem e O (lg_events L) s [])
      (mkSystem e' O (lg_events L') s (match find_event (lg_events L) (lg_keys L) ev, r with
                                       | None, Ok x => [UpsertEvent (ev_stream x) (ev_sequence x) (ev_body x)]
                                       | _, _ => []
                                       end)).
Proof.
  intros Hsim Hev Hmax Hp Hrun. pose proof (append_keeps_objects now ev e L r e' Hsim Hev Hmax Hrun) as Hframe.
  assert (Hprim : forall L', event_sim e' L' -> primary (vector_ok := vector_ok) e' O (lg_events L')).
  { intros L' [Hc Hkv _ _ _ HE _ HL]. destruct Hp as [_ _ Ho _ Hok _]. split; [done|done|by rewrite Hframe|done|done|apply HL]. }
  pose proof (append_refines now ev e L r e' Hsim Hev Hmax Hrun) as Href. destruct r as [x|err].
  - destruct Href as [-> Hs]. exists (spec_append now ev L).2. split; [done|]. pose proof (Hprim _ Hs) as Hp'.
    destruct (find_event (lg_events L) (lg_keys L) ev) as [y|] eqn:Hfind.
    { unfold spec_append in *. rewrite Hfind in *. apply step_write; [done|apply nothing_reported]. }
    destruct (spec_append_new now ev L Hfind) as (n&Hx&HE). apply step_write; [done|]. rewrite Hx, HE in *. apply one_reported.
    + exact (event_plain _ _ (pr_event_ok _ _ _ Hp' (ev_stream ev, n) _ (lookup_insert_eq _ _ _))).
    + cbn. by rewrite lookup_insert_eq.
    + intros [c i|st k] Hne; [done|]. cbn [body_of]. rewrite lookup_insert_ne; [done|]. intros Heq. apply Hne. cbn [mutation_id]. cbn in Heq |- *. congruence.
  - destruct Href as [_ Hs]. exists (forget_key ev L). split; [done|]. destruct (find_event _ _ ev); (apply step_write; [by apply Hprim|apply nothing_reported]).
Qed.
End writes.

(** ** Samples *)

#[local] Existing Instance sample_crc32.
#[local] Existing Instance sample_codec.
#[local] Existing Instance email_json.
#[local] Existing Instance sample_serde_object.
#[local] Existing Instance ram_compact.
#[local] Existing Instance ram_compact_laws.

#[local] Instance ram_persist : KvPersist RamKeyspaces := {| kv_persist _ := Ok () |}.

(** An index that keeps lists of documents; a document matches a query that is its body. *)
Record SampleIndex := mkSampleIndex { sx_live : list Document; sx_committed : list Document; sx_visible : list Document }.

Definition sample_match (l : list Document) (query : string) (n : nat) : option (RankedSearchDoc * Document) :=
  d ← l !! n; if bool_decide (dc_body d = query) then Some (mkRanked (f64_of_u64 1) (0, Z.of_nat n), d) else None.

#[local] Instance sample_text : TextIndex := {|
  tx := SampleIndex;
  tx_create := mkSampleIndex [] [] [];
  tx_reopen t := mkSampleIndex (sx_committed t) (sx_committed t) (sx_committed t);
  tx_delete_term k t := mkSampleIndex (without_key k (sx_live t)) (sx_committed t) (sx_visible t);
  tx_add_document d t := (Ok (), mkSampleIndex (sx_live t ++ [d]) (sx_committed t) (sx_visible t));
  tx_commit t := (Ok (), mkSampleIndex (sx_live t) (sx_live t) (sx_visible t));
  tx_reload t := (Ok (), mkSampleIndex (sx_live t) (sx_committed t) (sx_committed t));
  tx_parse_query _ _ := Ok ();
  tx_matching t query := Ok (omap (sample_match (sx_visible t) query) (seq 0 (length (sx_visible t))));
|}.

Lemma omap_addresses (l : list Document) query ns : NoDup ns -> NoDup (rk_address ∘ fst <$> omap (sample_match l query) ns).
Proof.
  induction 1 as [|n ns Hn Hnd IH]; cbn [omap list_omap]; [constructor|]. destruct (sample_match l query n) as [x|] eqn:Hx; [|done]. rewrite fmap_cons. constructor; [|done].
  assert (Ha : forall n x, sample_match l query n = Some x -> rk_address x.1 = (0, Z.of_nat n)).
  { intros n' x'. unfold sample_match. destruct (l !! n') as [d|]; cbn; [|done]. case_bool_decide; [|done]. by intros [= <-]. }
  intros Hin. apply list_elem_of_fmap in Hin as (y&Hy&Hin). apply list_elem_of_omap in Hin as (n'&Hn'&Hy'). unfold compose in Hy. rewrite (Ha n x Hx), (Ha n' y Hy') in Hy.
  injection Hy as Hy. apply Nat2Z.inj in Hy as ->. done.
Qed.

#[local, refine] Instance sample_text_laws : TextIndexLaws := {| tx_live := sx_live; tx_committed := sx_committed; tx_visible := sx_visible |}.
Proof.
  - done.
  - done.
  - done.
  - by intros d t t' [= <-].
  - by intros t t' [= <-].
  - by intros t t' [= <-].
  - intros t q l [= <-]. split; [|apply omap_addresses, NoDup_seq].
    intros x Hx. apply list_elem_of_omap in Hx as (n&_&Hx). unfold sample_match in Hx. destruct (sx_visible t !! n) as [d|] eqn:Hd; cbn in Hx; [|done]. case_bool_decide; [|done].
    injection Hx as <-. by eapply list_elem_of_lookup_2.
Defined.

Definition good_io : IndexIo := mkIo (Ok ()) None (Ok ()) (Ok ()) (Ok ()) (Ok ()) (Ok ()) (Ok ()) true.
Definition ram_config : SearchConfig := mkSearchConfig PersistentMode true false 3 10 3 0.
Definition key_order (pending : gmap string SearchIndexMutation) : list string := (map_to_list pending).*1.
Definition user_changes : list SearchIndexMutation := [UpsertObject "users" "a" "x"; UpsertObject "users" "b" "left-right"; UpsertObject "users" "c" "x"].

Definition no_index : SearchState := mkSearch None InMemory false false None NoWorker None false false (mkMaintenance "" 0 0 None "" 0 0) true.
Definition opened_state : SearchState := match open_search (vector_ok := no_vectors) ram_config object_engine good_io false 0 with Ok s => s | Err _ => no_index end.
Definition reported_state : SearchState := foldl (fun s m => notify ram_config m s) opened_state user_changes.
Definition work (s : SearchState) : SearchState := worker_step key_order ram_config 0 0 s.
Definition indexed_state : SearchState := work (work (work reported_state)).

Lemma user_objects_plain k o : objects user_memory !! k = Some o -> plain (ObjectDoc k.1 k.2).
Proof.
  intros Hk. assert (Hl : k ∈ (map_to_list (objects user_memory)).*1) by (apply list_elem_of_fmap; exists (k, o); split; [reflexivity|apply elem_of_map_to_list; exact Hk]).
  assert (Hkeys : (map_to_list (objects user_memory)).*1.*1 = ["users"; "users"; "users"]%list) by (vm_compute; reflexivity).
  assert (Hc : k.1 = "users").
  { assert (Hin : k.1 ∈ (map_to_list (objects user_memory)).*1.*1) by (apply list_elem_of_fmap; exists k; split; [reflexivity|exact Hl]).
    rewrite Hkeys in Hin. clear -Hin. set_solver. }
  clear Hkeys Hl Hk.
  destruct k as [c id]. cbn [fst snd] in *. subst c. split_and!; [by apply (bool_decide_unpack _)|by repeat (split; [discriminate|])|done].
Qed.

Lemma user_primary : primary (vector_ok := no_vectors) user_store (objects user_memory) ∅.
Proof.
  destruct user_store_sim as [Hc Hkv Hst _ _ _]. split; [exact Hc|exact Hkv|..].
  - apply Hst.
  - assert (Hv : kv_view (pe_db user_store) "events" = ∅) by (vm_compute; reflexivity). rewrite Hv. apply indexed_empty.
  - intros k o Hk. split; [exact (os_object_ok _ _ _ Hst k o Hk)|exact (user_objects_plain k o Hk)].
  - intros i ev Hi. by rewrite lookup_empty in Hi.
Qed.

Lemma empty_primary : primary (vector_ok := no_vectors) object_engine ∅ ∅.
Proof. assert (Hv : forall n, kv_view (pe_db object_engine) n = ∅) by done. split; try done; rewrite Hv; apply indexed_empty. Qed.

Lemma user_reports : reports user_changes (body_of ∅ ∅) (body_of (objects user_memory) ∅).
Proof.
  split.
  - repeat (apply Forall_cons; split); [..|by apply Forall_nil]; (split_and!; [by apply (bool_decide_unpack _)|by repeat (split; [discriminate|])|done]).
  - intros i _. destruct i as [c id|st n]; [|reflexivity].
    assert (Hmap : ob_body <$> objects user_memory = {[("users", "a") := "x"; ("users", "b") := "left-right"; ("users", "c") := "x"]}) by (apply (bool_decide_unpack _); vm_compute; done).
    cbn [body_of]. rewrite <-lookup_fmap, Hmap, lookup_empty. clear Hmap.
    destruct (decide ((c, id) = ("users", "c"))) as [[= -> ->]|Hc]; [reflexivity|]. destruct (decide ((c, id) = ("users", "b"))) as [[= -> ->]|Hb]; [reflexivity|].
    destruct (decide ((c, id) = ("users", "a"))) as [[= -> ->]|Ha]; [reflexivity|]. rewrite !lookup_insert_ne, lookup_singleton_ne by congruence.
    cbn [last_change user_changes mutation_id]. rewrite !bool_decide_false by congruence. done.
Qed.

Definition indexed_system : System := mkSystem user_store (objects user_memory) ∅ indexed_state [].

Lemma indexed_run : rtc (search_step (vector_ok := no_vectors) ram_config) (mkSystem object_engine ∅ ∅ opened_state []) indexed_system.
Proof.
  unfold indexed_system, indexed_state, work. eapply rtc_l; [apply step_write; [exact user_primary|exact user_reports]|].
  do 3 (eapply rtc_l; [apply step_report|]). do 3 (eapply rtc_l; [apply (step_worker _ _ _ _ _ _ key_order 0 0); intros pending; reflexivity|]). apply rtc_refl.
Qed.

Lemma indexed_used : uses_index ram_config (sy_search indexed_system) = true /\ si_ignored (sy_search indexed_system) = false /\ sy_todo indexed_system = [].
Proof. split_and!; vm_compute; reflexivity. Qed.

Lemma opened_ok : open_search (vector_ok := no_vectors) ram_config object_engine good_io false 0 = Ok opened_state.
Proof. vm_compute. reflexivity. Qed.

Lemma no_existing (t : tx) O E : io_existing good_io = Some t -> complete O E t.
Proof. discriminate. Qed.

Lemma search_index_complete_witness :
  uses_index ram_config (sy_search indexed_system) = true /\ exists t, si_index (sy_search indexed_system) = Some t /\
    (forall d, d ∈ tx_visible t -> exists i b, plain i /\ d = document i b /\ is_Some (body_of (sy_objects indexed_system) (sy_events indexed_system) i)) /\
    (forall i, plain i -> shown_at (tx_visible t) i (body_of (sy_objects indexed_system) (sy_events indexed_system) i)).
Proof.
  destruct indexed_used as (Hu&Hig&Htodo). split; [exact Hu|].
  exact (search_index_complete ram_config object_engine ∅ ∅ good_io false 0 opened_state indexed_system eq_refl empty_primary (fun t => no_existing t ∅ ∅) opened_ok indexed_run Htodo Hig Hu).
Defined.

Lemma sample_complete : exists t, si_index (sy_search indexed_system) = Some t /\ complete (sy_objects indexed_system) (sy_events indexed_system) t.
Proof.
  destruct indexed_used as (Hu&Hig&Htodo). refine (index_used_complete ram_config indexed_system _ Htodo Hig Hu). refine (reachable_inv ram_config _ _ eq_refl _ indexed_run _); [discriminate|].
  split; cbn [sy_engine sy_objects sy_events sy_search sy_todo]; [exact empty_primary|apply Forall_nil; done|discriminate|].
  refine (open_inv ram_config object_engine ∅ ∅ good_io false 0 opened_state eq_refl _ empty_primary (fun t => no_existing t ∅ ∅) opened_ok). discriminate.
Qed.

Definition sample_query : SearchOptions := mkSearchOptions None (Some 1) None.

Lemma search_hits_best_witness :
  exists t matching, si_index (sy_search indexed_system) = Some t /\ tx_matching t "x" = Ok matching /\ length matching = 2%nat /\
  exists hits, search_tantivy (vector_ok := no_vectors) id (sy_engine indexed_system) t "x" sample_query = Ok hits /\
    Forall2 (current_hit (sy_objects indexed_system) (sy_events indexed_system))
      (take (Z.to_nat (search_limit sample_query)) (sort_by (by_rank fst) (List.filter (collected sample_query) matching))) hits.
Proof.
  destruct sample_complete as (t&Ht&Hc).
  assert (Hsome : (fun t => (fun l => length l) <$> tx_matching t "x") <$> si_index (sy_search indexed_system) = Some (Ok 2%nat)) by (vm_compute; reflexivity).
  rewrite Ht in Hsome. cbn [fmap option_fmap option_map] in Hsome. destruct (tx_matching t "x") as [matching|] eqn:Hm; [|discriminate]. injection Hsome as Hlen.
  exists t, matching. split; [exact Ht|]. split; [exact Hm|]. split; [exact Hlen|].
  refine (search_hits_best id (sy_engine indexed_system) (sy_objects indexed_system) (sy_events indexed_system) t "x" sample_query matching user_primary Hc _ eq_refl Hm). intros l. reflexivity.
Defined.

(** ** Where documents are repeated or lost *)

Definition disk_config (mode : PersistentSearchMode) (encrypted : bool) : SearchConfig := mkSearchConfig mode false encrypted 3 10 3 0.
Definition open_disk (mode : PersistentSearchMode) (encrypted : bool) (e : PersistentEngine RamKeyspaces) (io : IndexIo) : SearchState :=
  match open_search (vector_ok := no_vectors) (disk_config mode encrypted) e io false 0 with Ok s => s | Err _ => no_index end.
Definition rebuild_once (mode : PersistentSearchMode) (encrypted : bool) (e : PersistentEngine RamKeyspaces) (io : IndexIo) (s : SearchState) : SearchState :=
  (search_rebuild_step (vector_ok := no_vectors) (disk_config mode encrypted) e map_to_list io 10 s).2.
Definition visible_documents (s : SearchState) : list Document := match si_index s with Some t => sx_visible t | None => [] end.

(** An event that is appended during a rebuild, before its page, is indexed with the page and again by
    the replay, which does not remove its first document. *)
Lemma rebuild_repeats_event :
  let rebuild := rebuild_once PersistentAsync false in
  let started := rebuild durable_engine good_io (open_disk PersistentAsync false durable_engine good_io) in
  let appended := notify (disk_config PersistentAsync false) (UpsertEvent (ev_stream paid) 1 (ev_body paid)) started in
  let rebuilt := rebuild paid_engine good_io (rebuild paid_engine good_io appended) in
  let d := event_document (ev_stream paid) 1 (ev_body paid) in
  uses_index (disk_config PersistentAsync false) rebuilt = true /\ si_ignored rebuilt = false /\ visible_documents rebuilt = [d; d].
Proof. cbv zeta. split_and!; vm_compute; reflexivity. Qed.

(** The worker waits for a first change, an object is put and the engine is dropped: the worker wakes to
    the shutdown and ends with the change in the queue.  The index is then opened as it is, and
    queries miss the object. *)
Lemma shutdown_loses_change :
  let cfg := disk_config PersistentMode false in
  let step := worker_step key_order cfg 0 0 in
  let waiting := step (open_disk PersistentMode false object_engine good_io) in
  let put := foldl (fun s m => notify cfg m s) waiting user_changes in
  let dropped := set_queue put (shutdown <$> si_queue put) (si_worker put) in
  let ended := step (step dropped) in
  let closed := commit_search_index ended in
  let io := mkIo (Ok ()) (tx_reopen <$> si_index closed) (Ok ()) (Ok ()) (Ok ()) (Ok ()) (Ok ()) (Ok ()) true in
  let reopened := open_disk PersistentMode false user_store io in
  si_worker waiting = AwaitPending /\ si_worker ended = NoWorker /\ si_ignored reopened = false /\
  uses_index cfg reopened = true /\ visible_documents reopened = [] /\ length (kv_iter (pe_db user_store) "objects") = 3%nat.
Proof. cbv zeta. split_and!; vm_compute; reflexivity. Qed.

(** The default mode removes the marker of an interrupted rebuild and uses the old index. *)
Lemma marker_not_honoured io t : io_existing io = Some t ->
  open_index (disk_config PersistentMode false) io true = Ok (Some t, false, SearchDirectory) /\
  open_index (disk_config PersistentAsync false) io true = Ok (None, true, SearchDirectory).
Proof. intros Ht. unfold open_index, init_search_index. cbn. rewrite Ht. done. Qed.

(** When the writer of a new index cannot be created the step fails, and the next steps go on without a
    writer: an empty index is promoted and used. *)
Lemma missing_writer_promotes_empty_index :
  let failing := mkIo (Ok ()) None (Ok ()) (Err (Storage "no writer")) (Ok ()) (Ok ()) (Ok ()) (Ok ()) true in
  let rebuild := rebuild_once PersistentRecovery false user_store in
  let failed := rebuild failing (open_disk PersistentRecovery false user_store good_io) in
  let rebuilt := rebuild good_io (rebuild good_io (rebuild good_io failed)) in
  uses_index (disk_config PersistentRecovery false) rebuilt = true /\ visible_documents rebuilt = [].
Proof. cbv zeta. split; vm_compute; reflexivity. Qed.

(** The recovery of an encrypted store creates its index, which holds the bodies, in the search
    directory; opening it in the other modes keeps the index in memory. *)
Lemma encrypted_index_on_disk :
  let s := rebuild_once PersistentRecovery true user_store good_io (open_disk PersistentRecovery true user_store good_io) in
  si_place s = SearchDirectory /\ dc_body <$> visible_documents s = ["x"; "left-right"; "x"]%list /\ si_place (open_disk PersistentAsync true user_store good_io) = InMemory.
Proof. cbv zeta. split_and!; vm_compute; reflexivity. Qed.

(** Records with a slash in their collection share document keys: the second put replaces the first. *)
Lemma document_keys_collide :
  object_doc_key "a/b" "c" = object_doc_key "a" "b/c" /\ object_doc_key "event:orders" "1" = event_doc_key "orders" 1 /\
  let put := notify ram_config (UpsertObject "a/b" "c" "y") (notify ram_config (UpsertObject "a" "b/c" "x") opened_state) in
  visible_documents (work (work (work (work put)))) = [object_document "a/b" "c" "y"].
Proof. split_and!; vm_compute; reflexivity. Qed.
